(* ===== verification/_CoqProject ===== *)
-Q . S2P
Prelude.v
Effects.v
Numbers.v
Values.v
Json.v
Validators.v
IndexKeys.v
Ranges.v
IntervalIndex.v
IdCodec.v
DocStore.v
ShardRouting.v
Receipts.v
MvccStore.v
ExactlyOnce.v
Transactor.v
Serializability.v
GroupCommit.v
GroupSerial.v
QueryEngine.v
Policy.v
Kernel.v
KernelWrites.v
Executor.v
KernelSafety.v
KernelReads.v
KernelExamples.v
QueryPlan.v
Pagination.v
Subscriptions.v
Reactivity.v
DiffSync.v
SessionFlow.v
ClientStore.v
Reconciler.v
Client.v
Outbox.v
FsOutbox.v
OutboxClient.v
OutboxIdentity.v
OutboxRuns.v
OutboxDrain.v
LiveQuery.v
Handler.v
HandlerFlow.v
HandlerRuns.v
LiveSession.v
Segments.v
ObjectStore.v
ObjectDocStore.v
ObjectLog.v
ObjectSystem.v
ObjectInv.v
ObjectSafety.v
ObjectDurable.v
ObjectRuns.v
Scheduler.v
SchedulerSystem.v
SchedulerSafety.v
SchedulerJobs.v
SchedulerDriver.v
SchedulerCrons.v
SchedulerRuns.v
