(* ===== verification/Prelude.v ===== *)
(** * A verification library for the helipod reactive backend

    helipod is a reactive database backend written in TypeScript: user functions read and write
    documents inside optimistic transactions, a single writer per shard validates and commits them
    to a multi-version document store, and a sync tier keeps live queries of connected clients up to
    date. This library models that core as executable Gallina definitions and proves what makes it
    correct. Source paths below are under [src/packages/].

    ** The parts and the files that model them

    _Values and encodings._
    - [Numbers]: IEEE-754 doubles as [spec_float]; the comparison [Math.sign (a - b)] and the
      [DataView] bit patterns.
    - [Values] ([values/src/value.ts]): the value union, UTF-8, [compareValues], [valuesEqual].
    - [Json] ([values/src/json.ts]): [convexToJson], [jsonToConvex] and their base64 helpers.
    - [Validators] ([values/src/validator.ts], [validator-from-json.ts], [schema.ts]): every validator
      class and its [check], the JSON form and its inverse, the table builder.
    - [IndexKeys] ([index-key-codec/src/encode.ts]): the order-preserving key encoding.
    - [Ranges] ([index-key-codec/src/range.ts], [keyspace.ts], [serialize.ts]): keyspaces, half-open
      ranges, range sets (the read and write sets of everything above).
    - [IntervalIndex] ([index-key-codec/src/interval-index.ts]): the augmented treap.
    - [IdCodec] ([id-codec/src]): varints, base32, checksums, document and storage ids, the table
      registry. [ShardRouting] ([id-codec/src/jump-hash.ts], [shard.ts]): FNV-1a, jump hash with its
      binary64 arithmetic, shard ids and routers.

    _Storage._
    - [DocStore] ([docstore/src/timestamp-oracle.ts], [docstore-sqlite/src/sqlite-docstore.ts]): the
      log and index tables as row lists, every read and write of the SQLite store.
    - [Receipts] (same store): client mutation receipts and their pruning floors.
    - [MvccStore] ([docstore/src/types.ts]): the storage seam as a class of operations [MvccStore] and
      a class of laws, with the instance that shows the SQLite store satisfies it.

    _Transactions_ ([transactor/src]).
    - [Transactor]: [headroom.ts], [uncommitted-writes.ts], the transaction context and the commit
      pipeline of [shard-writer.ts], over any store of the seam.
    - [Serializability]: [runInTransactionSingle] as a step relation over any number of calls.
    - [GroupCommit], [GroupSerial]: [runInTransactionGrouped], [stageUnit] and [runCommitter] as a step
      relation, and its invariant.

    _Queries_ ([query-engine/src]).
    - [QueryEngine]: [filter.ts], [index-manager.ts], [plan.ts] and [query-runtime.ts].
    - [QueryPlan], [Pagination]: what planning, index maintenance, [collect], [paginate] and the
      read-your-own-writes overlay promise.

    _Sync_ ([sync/src]).
    - [Subscriptions]: [subscription-manager.ts] and [resume-registry.ts].
    - [Reactivity]: the composition of commits, their published deltas and subscription matching.
    - [DiffSync]: [classify.ts], [change.ts], [commit-differ.ts].
    - [SessionFlow]: [session-controllers.ts], the version brackets of [protocol.ts] and [handler.ts],
      [client-reducer.ts].

    _Execution_ ([executor/src]).
    - [Effects]: the effect monad (state, errors that keep the state) with its Hoare rules and its rule for preorders.
    - [Policy] ([policy.ts]): row-level predicates, their compilation and the semi-joins of relation clauses.
    - [Kernel] ([kernel.ts], [catalog.ts], [global-txn.ts]): every syscall handler with its guards and traces.
    - [Executor] ([executor.ts], [guest.ts], [profile.ts], [seeded-random.ts]): the guest API, the contexts a function,
      its facades and its policies run in, shard resolution, attempts, live-range classification, actions. A function
      is a tree of API calls through its channels; calls issued in parallel are taken in the order they run.
    - [KernelWrites]: what each syscall does to the writes of its transaction. [KernelSafety]: what no run can do.
      [KernelReads]: what reads return. [KernelExamples]: concrete runs, the theorems at work on them.

    _Client_ ([client/src]).
    - [ClientStore]: [layered-store.ts] and [optimistic-store.ts]: subscriptions as shared heap objects, values
      with JavaScript reference identity, diff application, and the transactional replay of optimistic updates.
    - [Reconciler]: [reconcile.ts], [mutation-log.ts] and [delivery-policy.ts]: the pending-mutation log, the
      gate that holds a layer until its commit is observed, and the close policy.
    - [Client]: [client.ts] without a durable outbox: calls, responses, resynchronisation, closing and reopening.
    - [Outbox]: [outbox-storage.ts], the record version of [outbox-idb.ts] and [connect-handshake.ts]. [FsOutbox]: the
      journal of [outbox-fs.ts] over a file whose unsynced bytes a crash may cut anywhere.
    - [OutboxClient]: [client.ts] with a durable outbox and [outbox-drain.ts]; each [await] pushes a job that the
      events run in any order. [OutboxIdentity]: tabs sharing one queue. [OutboxDrain]: the drain against a deciding
      server. [OutboxRuns]: concrete runs.

    _Receipted mutations_ ([runtime-embedded/src]).
    - [ExactlyOnce]: [client-dedup.ts] and the [runMutation] of [runtime.ts]: classification, the receipts commit
      guard and the error paths, as a step relation over interleaved attempts.

    _Handler_ ([sync/src/handler.ts]).
    - [Handler]: sessions by reference, the [notifyTail] queue of query-set changes and fan-outs, and the tasks that
      run beside it; a method is cut at its [await]s and the executor's answers are inputs of its steps.
    - [HandlerFlow]: the brackets every session sends, in any interleaving. [HandlerRuns]: concrete runs.
    - [LiveQuery], [LiveSession]: the differ, the handler and the client's store composed for a live range query.

    _Object-storage substrate_ ([ee/packages/objectstore-substrate/src], [objectstore-fs/src]).
    - [Segments] ([segment.ts], [snapshot.ts]): the wire shapes of log segments and snapshots.
    - [ObjectStore] ([objectstore/src/types.ts], [fs-objectstore.ts], [manifest.ts], [consumers.ts]): a bucket, its
      five calls, the manifest and consumer records, and the monad of calls that a fault may interrupt.
    - [ObjectDocStore] ([object-doc-store.ts], [apply-snapshot.ts]): opening, acquiring, committing, snapshots, gc.
    - [ObjectLog]: lemmas on the local store under stamped commits. [ObjectSystem]: any number of processes over one
      bucket as a step relation, one call to the bucket per step, every call free to fail before or after it landed.
      [ObjectInv], [ObjectSafety], [ObjectDurable]: its invariant, that steps keep it, what follows.
      [ObjectRuns]: concrete runs, and the two lost commits of the findings.
      A run carries the list of its faults: an upload that throws but landed, an acquire started while the
      instance believes it holds a lease, a snapshot taken at a cursor behind the cached manifest. The theorems are about
      runs without them ([sound_run]), the two findings about runs with one. The system further assumes that an etag determines
      the content, that the local database does not fail, and that opening starts from an empty one.

    _Scheduler_ ([components/scheduler/src]).
    - [Scheduler] ([schema.ts], [facade.ts], [modules.ts], [backoff.ts], [crons.ts]): the tables and every mutation on them.
      [SchedulerSystem] ([driver.ts]): the driver, and any number of processes with one as a step relation, a step per
      transaction or timer; a parameter says whether the driver's own calls may fail. [SchedulerSafety]: well-formed tables. [SchedulerJobs]: what holds of every job. [SchedulerDriver]: its wake-ups.
      [SchedulerCrons]: the occurrences a cron fires.
      [SchedulerRuns]: an executable script checked against the relation, and what the documents exclude. Transactions
      are atomic there, as [Serializability] proves for validated reads; [cron-parser] is a parameter.

    ** How state and effects are modelled

    A class with mutable fields is a record and a method a function on it; a fallible operation
    returns [res] ([Ok], or [Err] with the error the code throws); a JavaScript [Map] or [Set] is an
    association list in insertion order ([jm_set], [jm_get], [jm_delete] here), because iteration order is
    observable. Code that suspends at an [await] becomes a step relation with one constructor per
    stretch between awaits, so every
    interleaving the event loop allows is a path of the relation. Functions supplied by users
    (transaction bodies, commit guards) are parameters: a body is a tree of the context operations it
    performs, with the rest of the body chosen by each operation's answer. Machine-width arithmetic
    (32-bit FNV and checksums, the 64-bit LCG of jump hash, varints) keeps its width.

    ** What the theorems show

    - Transactions: every history of interleaved calls equals the serial run of the committed
      functions in timestamp order ([Serializability.serializable], [GroupSerial.group_commits_serial])
      in what its validated reads see; scans recorded with [recordReadUnvalidated] are answered as of the
      call's snapshot, and [Serializability.write_skew] is the anomaly they admit. The runs considered
      are those whose landing commits are disciplined: they report every index key they change and restage
      the index entries of what they write, as a kernel run that does not swallow an error of its index
      maintenance does. The log records exactly the commits; validation against the pruned ring equals validation
      against all history; no staged call is lost, and flush failures split the batch boundedly.
    - Reactivity: subscription matching equals the linear scan, and a query whose subscription no
      later commit matched returns the same value when run again
      ([Reactivity.unaffected_query_unchanged], which composes the query engine's read sets, the
      transactor's published write sets and the interval index).
    - Delivery: differential changes reproduce the re-run result, the outbound queue is bounded,
      and lost frames are detected, except those of global invalidations, which do not move
      the version.
    - Queries: an index interval holds exactly the tuples that satisfy the plan, [collect] returns
      exactly the filtered rows, and following cursors enumerates them once.
    - Encodings: byte order of keys is value order; values, ids, ranges and validators survive their
      wire forms; jump hash terminates in range and moves keys minimally.
    - Execution: whatever a function does and whatever errors it catches, its transaction writes one store
      ([KernelSafety.single_store_writes]) and one shard ([KernelSafety.shard_ownership], [shards_write_apart]), every
      write of it lies in a recorded range ([KernelSafety.writes_reported], a premise of serializability), policies
      filter what it reads, in the one rule context the run built ([KernelReads.read_policy_enforced], with [Policy.resolve_meaning]
      for what a filter means and where [isNot] departs from its documents), and a query reported as a live range returned
      that range unless its code modified an array in place ([KernelReads.live_range_sound]).

    - Client: what a subscription shows is the server's values with the surviving optimistic updates replayed
      in order, until the set of subscribed queries changes ([Reconciler.optimistic_view]); a layer is held only until its commit is observed, a lost
      connection disposes of each pending mutation by its status, and a mutation is sent and settled at most once.

    - Outbox: a reference on the wire names one call for good, whichever tab sent it and however often
      ([OutboxIdentity.outbox_reference_functional]); the file journal keeps every acknowledged write through
      crashes ([FsOutbox.fs_recovery]); the drain empties its queue in order when no
      logged updater throws ([OutboxDrain.drain_completes]).

    - Receipted mutations: above the client's floor a key commits at most once and every replay reports that
      commit; a settled key never runs again ([ExactlyOnce]).

    - Handler: whatever interleaves, a session's transitions are contiguous from the initial version; with local
      commits in timestamp order a client that loses frames holds a prefix and knows it, but for the frames of global
      invalidations ([HandlerFlow]); a live range query shows the current answer after any commits of documents that
      are their own JSON form, without drift ([LiveSession.live_range_query]).

    - Object storage: an acknowledged commit stays in the durable log whatever the processes do and however their calls
      fail, short of the faults above ([ObjectDurable.acknowledged_commits_durable]); bootstrapping from a snapshot and its tail shows what
      replaying the whole log shows; segment numbers and timestamps increase along the log across takeovers.

    - Scheduler: a job is started at most as often as its budget allows, an action only once more than its own runs
      reported failures; a job's end is final, truthful and called back exactly once ([SchedulerJobs]); the driver loses no wake-up
      unless a failed call cut its latest pass short; a cron fires exactly
      the occurrences its policy names, without drift.

    ** Fuel

    Recursion that is not structural carries fuel, and a theorem shows the fuel suffices: [removeAt]
    of the treap uses the node count, the jump-hash loop the number of buckets (each iteration
    moves to a larger bucket), the cursor walk of [Pagination.pagination_complete] the number of rows
    plus one, the varint writer five rounds (a uint32 has five groups of seven bits), the base32 emitter
    two (at most twelve bits are buffered), decimal printing the bit length. Retries are bounded
    by the code's own constants.

    ** Not modelled

    Process wiring, HTTP and WebSocket servers ([runtime-embedded], [cli]), SQL engines other than
    SQLite, the S3 client, the fleet, blob storage, code generation and the admin API are I/O or text generation
    around external systems. User code is a parameter: a tree of the calls it makes. Random id generation is left out
    because it has no deterministic result; the codec of the ids it yields is modelled. SQLite itself
    is modelled by the documented meaning of the statements the store issues. *)
From Stdlib Require Export ZArith Lia.
From stdpp Require Export sorting strings.
From stdpp Require Export prelude.

#[global] Open Scope Z_scope.

(** ** JavaScript exceptions as values

    Code that throws returns [Err e]; [e] records the class of the thrown error (and the static
    part of the message, where the code distinguishes several causes with one class). *)

Inductive exn : Type :=
  | RangeError
  | TypeError
  | PlainError (msg : string)
  | VarintError (msg : string)
  | Base32Error (msg : string)
  | DocumentIdError (msg : string)
  | DOMException
  | SqliteConstraint
  | OccConflictError
  | HeadroomExceededError (kind : string) (limit : Z)
  | CommitGuardRejection (unitIndex : Z) (code : string)
  | FencedError
  | CasConflict
  | SyntaxError
  | UserError (msg : string).

Inductive res (A : Type) : Type :=
  | Ok (a : A)
  | Err (e : exn).
Arguments Ok {A} _.
Arguments Err {A} _.

Definition res_bind {A B} (m : res A) (k : A → res B) : res B :=
  match m with Ok a => k a | Err e => Err e end.

Definition res_map {A B} (f : A → B) (m : res A) : res B :=
  match m with Ok a => Ok (f a) | Err e => Err e end.

(** The notations of the library live in their own scope. *)
Declare Scope helipod_scope.
Delimit Scope helipod_scope with hp.
Notation "'let!' x := m 'in' k" := (res_bind m (λ x, k))
  (at level 10, x pattern, m at level 100, k at level 200) : helipod_scope.
#[global] Open Scope helipod_scope.

(** [traverse] is the code's loop "for each element, push [f x]" where [f] may throw. *)
Section traverse.
Context {A B : Type} (f : A → res B).
Fixpoint traverse (l : list A) : res (list B) :=
  match l with
  | [] => Ok []
  | x :: l' => let! y := f x in let! ys := traverse l' in Ok (y :: ys)
  end.
End traverse.

Lemma traverse_ok {A B} (f : A → res B) (g : A → B) l :
  Forall (λ x, f x = Ok (g x)) l → traverse f l = Ok (g <$> l).
Proof. induction 1 as [|x l Hx _ IH]; simpl; [done|]. rewrite Hx; simpl. by rewrite IH. Qed.

(** ** Bytes and JavaScript strings

    A [Uint8Array] is a list of integers in [0, 256); a JavaScript string is its list of UTF-16
    code units, integers in [0, 65536). *)
Abbreviation bytes := (list Z).
Abbreviation jsstr := (list Z).

Definition is_byte (b : Z) : Prop := 0 ≤ b < 256.
Definition is_unit16 (u : Z) : Prop := 0 ≤ u < 65536.

(** ASCII literals as JavaScript strings. *)
Fixpoint js (s : string) : jsstr :=
  match s with
  | EmptyString => []
  | String c s' => Z.of_nat (Ascii.nat_of_ascii c) :: js s'
  end.

Fixpoint starts_with (p s : jsstr) : bool :=
  match p, s with
  | [], _ => true
  | x :: p', y :: s' => (x =? y) && starts_with p' s'
  | _, [] => false
  end.

(** ** Three-way comparison

    The code's [Cmp = -1 | 0 | 1] is Rocq's [comparison]. [CmpOrder] is the contract of a total
    preorder given by such a function; [CmpTotal] adds that only equal elements compare equal. *)
Class CmpOrder {A} (cmp : A → A → comparison) : Prop := {
  cmp_refl a : cmp a a = Eq;
  cmp_opp a b : cmp b a = CompOpp (cmp a b);
  cmp_subst a b c : cmp a b = Eq → cmp a c = cmp b c;
  cmp_lt_trans a b c : cmp a b = Lt → cmp b c = Lt → cmp a c = Lt;
}.

Class CmpTotal {A} (cmp : A → A → comparison) : Prop := {
  cmp_total_order :: CmpOrder cmp;
  cmp_eq a b : cmp a b = Eq → a = b;
}.

Arguments cmp_refl {A} cmp {_} a.
Arguments cmp_opp {A} cmp {_} a b.
Arguments cmp_subst {A} cmp {_} a b c _.
Arguments cmp_lt_trans {A} cmp {_} a b c _ _.
Arguments cmp_eq {A} cmp {_} a b _.

#[global] Instance Z_compare_total : CmpTotal Z.compare.
Proof.
  split; [split|]; intros.
  - apply Z.compare_refl.
  - apply Z.compare_antisym.
  - by rewrite (proj1 (Z.compare_eq_iff a b)).
  - rewrite !Z.compare_lt_iff in *; lia.
  - by apply Z.compare_eq.
Qed.

Section cmp_order.
Context {A} (cmp : A → A → comparison) `{!CmpOrder cmp}.

Lemma cmp_subst_r a b c : cmp a b = Eq → cmp c a = cmp c b.
Proof. intros H. by rewrite (cmp_opp cmp a c), (cmp_opp cmp b c), (cmp_subst cmp a b c H). Qed.

Lemma cmp_gt_lt a b : cmp a b = Gt ↔ cmp b a = Lt.
Proof. rewrite (cmp_opp cmp a b). destruct (cmp a b); naive_solver. Qed.

Lemma cmp_eq_sym a b : cmp a b = Eq → cmp b a = Eq.
Proof. intros H. by rewrite (cmp_opp cmp a b), H. Qed.

Lemma cmp_eq_trans a b c : cmp a b = Eq → cmp b c = Eq → cmp a c = Eq.
Proof. intros H1 H2. by rewrite (cmp_subst cmp a b c H1). Qed.

(** [a ≤ b] in the order of [cmp]. *)
Definition cmp_le (a b : A) : Prop := cmp a b ≠ Gt.

Lemma cmp_le_trans a b c : cmp_le a b → cmp_le b c → cmp_le a c.
Proof.
  unfold cmp_le. intros H1 H2.
  destruct (cmp a b) eqn:E1; [|destruct (cmp b c) eqn:E2|]; try done.
  - by rewrite (cmp_subst cmp a b c E1).
  - by rewrite <-(cmp_subst_r b c a E2), E1.
  - by rewrite (cmp_lt_trans cmp a b c E1 E2).
Qed.

Lemma cmp_le_lt_trans a b c : cmp_le a b → cmp b c = Lt → cmp a c = Lt.
Proof.
  unfold cmp_le. intros H1 H2. destruct (cmp a b) eqn:E; [| |done].
  - by rewrite (cmp_subst cmp a b c E).
  - by apply (cmp_lt_trans cmp a b c).
Qed.

Lemma cmp_lt_le_trans a b c : cmp a b = Lt → cmp_le b c → cmp a c = Lt.
Proof.
  unfold cmp_le. intros H1 H2. destruct (cmp b c) eqn:E; [| |done].
  - by rewrite <-(cmp_subst_r b c a E).
  - by apply (cmp_lt_trans cmp a b c).
Qed.

Lemma cmp_le_refl a : cmp_le a a.
Proof. unfold cmp_le. by rewrite cmp_refl. Qed.

Lemma cmp_le_total a b : cmp_le a b ∨ cmp_le b a.
Proof. unfold cmp_le. rewrite (cmp_opp cmp a b). destruct (cmp a b); naive_solver. Qed.

Lemma cmp_not_lt_le a b : cmp a b ≠ Lt ↔ cmp_le b a.
Proof. unfold cmp_le. rewrite (cmp_opp cmp a b). destruct (cmp a b); naive_solver. Qed.

#[global] Instance cmp_le_dec : RelDecision cmp_le.
Proof. intros a b. unfold cmp_le. solve_decision. Defined.
End cmp_order.
Arguments cmp_le {A} cmp a b.

Definition cmp_ltb (c : comparison) : bool := match c with Lt => true | _ => false end.
Definition cmp_leb (c : comparison) : bool := match c with Gt => false | _ => true end.
Definition cmp_eqb (c : comparison) : bool := match c with Eq => true | _ => false end.

Lemma cmp_ltb_true c : cmp_ltb c = true ↔ c = Lt.
Proof. by destruct c. Qed.
Lemma cmp_ltb_false c : cmp_ltb c = false ↔ c ≠ Lt.
Proof. by destruct c. Qed.
Lemma cmp_leb_true c : cmp_leb c = true ↔ c ≠ Gt.
Proof. by destruct c. Qed.
Lemma cmp_leb_false c : cmp_leb c = false ↔ c = Gt.
Proof. by destruct c. Qed.
Lemma cmp_eqb_true c : cmp_eqb c = true ↔ c = Eq.
Proof. by destruct c. Qed.

(** ** Lexicographic comparison, element by element, a proper prefix first *)
Fixpoint lexcmp {A B} (cmp : A → B → comparison) (xs : list A) (ys : list B) : comparison :=
  match xs, ys with
  | [], [] => Eq
  | [], _ :: _ => Lt
  | _ :: _, [] => Gt
  | x :: xs', y :: ys' =>
      match cmp x y with Eq => lexcmp cmp xs' ys' | c => c end
  end.

(** What one element must satisfy for the laws of the whole order; stated per element so that
    the laws can be proved by induction on nested data. *)
Record cmp_law {A} (cmp : A → A → comparison) (a : A) : Prop := {
  law_refl : cmp a a = Eq;
  law_opp b : cmp b a = CompOpp (cmp a b);
  law_subst b c : cmp a b = Eq → cmp a c = cmp b c;
  law_subst_r b c : cmp b c = Eq → cmp a b = cmp a c;
  law_trans b c : cmp a b = Lt → cmp b c = Lt → cmp a c = Lt;
}.

Lemma cmp_order_of_laws {A} (cmp : A → A → comparison) : (∀ a, cmp_law cmp a) → CmpOrder cmp.
Proof.
  intros H. split; intros.
  - apply H.
  - apply (law_opp _ _ (H a)).
  - by apply (law_subst _ _ (H a)).
  - by eapply (law_trans _ _ (H a)).
Qed.

Lemma cmp_laws {A} (cmp : A → A → comparison) `{!CmpOrder cmp} a : cmp_law cmp a.
Proof.
  split; intros.
  - apply (cmp_refl cmp).
  - apply (cmp_opp cmp).
  - by apply (cmp_subst cmp).
  - by apply (cmp_subst_r cmp).
  - by eapply (cmp_lt_trans cmp).
Qed.

Lemma lexcmp_law {A} (cmp : A → A → comparison) xs :
  Forall (cmp_law cmp) xs → cmp_law (lexcmp cmp) xs.
Proof.
  induction 1 as [|x xs Hx _ IH].
  - split; simpl; try done; [by intros []|by intros [] []|by intros [] []|by intros [] []].
  - destruct Hx as [R O S SR T], IH as [R' O' S' SR' T']. split; simpl.
    + by rewrite R.
    + intros [|b bs]; simpl; [done|]. rewrite (O b). destruct (cmp x b); simpl; auto.
    + intros [|b bs] cs; simpl; [done|].
      destruct (cmp x b) eqn:Hb; try done. intros Hbs. destruct cs as [|c cs]; [done|].
      rewrite (S b c Hb). by rewrite (S' bs cs Hbs).
    + intros bs cs. destruct bs as [|b bs], cs as [|c cs]; simpl; try done.
      destruct (cmp b c) eqn:Hbc; try done. intros Hbs.
      rewrite (SR b c Hbc). by rewrite (SR' bs cs Hbs).
    + intros [|b bs] [|c cs]; simpl; try done.
      destruct (cmp x b) eqn:Hb; [| |done].
      * rewrite (S b c Hb). destruct (cmp b c) eqn:Hc; [|done|done]. apply T'.
      * intros _. destruct (cmp b c) eqn:Hc; [| |done]; intros _.
        -- by rewrite <-(SR b c Hc), Hb.
        -- by rewrite (T b c Hb Hc).
Qed.

#[global] Instance lexcmp_order {A} (cmp : A → A → comparison) `{!CmpOrder cmp} :
  CmpOrder (lexcmp cmp).
Proof.
  apply cmp_order_of_laws. intros xs. apply lexcmp_law.
  apply Forall_true. intros x. by apply cmp_laws.
Qed.

#[global] Instance lexcmp_total {A} (cmp : A → A → comparison) `{!CmpTotal cmp} :
  CmpTotal (lexcmp cmp).
Proof.
  split; [apply _|]. induction a as [|x xs IH]; intros [|y ys]; simpl; try done.
  destruct (cmp x y) eqn:E; try done. intros H. f_equal; [by apply (cmp_eq cmp x y)|by apply IH].
Qed.

Lemma lexcmp_map_l {A A' B} (f : A' → A) (cmp : A → B → comparison) xs ys :
  lexcmp cmp (f <$> xs) ys = lexcmp (λ x y, cmp (f x) y) xs ys.
Proof. revert ys; induction xs as [|x xs IH]; intros [|y ys]; simpl; try done. by rewrite IH. Qed.

Lemma lexcmp_map_r {A B B'} (f : B' → B) (cmp : A → B → comparison) xs ys :
  lexcmp cmp xs (f <$> ys) = lexcmp (λ x y, cmp x (f y)) xs ys.
Proof. revert ys; induction xs as [|x xs IH]; intros [|y ys]; simpl; try done. by rewrite IH. Qed.

Lemma lexcmp_app_same {A} (cmp : A → A → comparison) `{!CmpOrder cmp} p xs ys :
  lexcmp cmp (p ++ xs) (p ++ ys) = lexcmp cmp xs ys.
Proof. induction p as [|x p IH]; simpl; [done|]. by rewrite cmp_refl. Qed.

(** Blocks of equal length decide first. *)
Lemma lexcmp_app_len {A} (cmp : A → A → comparison) xs ys xs' ys' :
  length xs = length ys →
  lexcmp cmp (xs ++ xs') (ys ++ ys') =
    match lexcmp cmp xs ys with Eq => lexcmp cmp xs' ys' | c => c end.
Proof.
  revert ys; induction xs as [|x xs IH]; intros [|y ys] Hl; simpl in *; try done.
  rewrite IH by lia. by destruct (cmp x y).
Qed.

(** ** Stable sorting by a comparator ([Array.prototype.sort]) *)
Section sort_by.
Context {A : Type} (cmp : A → A → comparison).

Fixpoint insert_by (x : A) (l : list A) : list A :=
  match l with
  | [] => [x]
  | y :: l' => match cmp x y with Gt => y :: insert_by x l' | _ => x :: l end
  end.

Definition sort_by (l : list A) : list A := foldr insert_by [] l.

Lemma insert_by_perm x l : insert_by x l ≡ₚ x :: l.
Proof.
  induction l as [|y l IH]; simpl; [done|]. destruct (cmp x y); try done.
  rewrite IH. constructor.
Qed.

Lemma sort_by_perm l : sort_by l ≡ₚ l.
Proof. induction l as [|x l IH]; simpl; [done|]. by rewrite insert_by_perm, IH. Qed.

Lemma elem_of_sort_by x l : x ∈ sort_by l ↔ x ∈ l.
Proof. by rewrite sort_by_perm. Qed.

Lemma length_sort_by l : length (sort_by l) = length l.
Proof. by rewrite sort_by_perm. Qed.

Context `{!CmpOrder cmp}.

Lemma insert_by_sorted x l :
  StronglySorted (cmp_le cmp) l → StronglySorted (cmp_le cmp) (insert_by x l).
Proof.
  induction 1 as [|y l Hl IH Hy]; simpl; [repeat constructor|].
  destruct (cmp x y) eqn:E.
  1,2: constructor; [by constructor|]; constructor; [unfold cmp_le; congruence|];
       rewrite Forall_forall in *; intros z Hz; eapply (cmp_le_trans cmp _ y); [|by apply Hy];
       unfold cmp_le; congruence.
  constructor; [done|]. rewrite insert_by_perm. constructor; [|done].
  unfold cmp_le. rewrite (cmp_opp cmp x y), E. done.
Qed.

Lemma sort_by_sorted l : StronglySorted (cmp_le cmp) (sort_by l).
Proof. induction l as [|x l IH]; [constructor|]. exact (insert_by_sorted x (sort_by l) IH). Qed.

Lemma insert_by_le x l : Forall (cmp_le cmp x) l → insert_by x l = x :: l.
Proof.
  destruct l as [|y l']; simpl; [done|]. intros [Hy _]%Forall_cons. unfold cmp_le in Hy. by destruct (cmp x y).
Qed.

Lemma sort_by_sorted_id l : StronglySorted (cmp_le cmp) l → sort_by l = l.
Proof. induction 1 as [|x l Hl IH Hx]; simpl; [done|]. rewrite IH. by apply insert_by_le. Qed.
End sort_by.

Lemma insert_by_fmap {A B} (f : A → B) (cmp : B → B → comparison) x l :
  insert_by cmp (f x) (f <$> l) = f <$> insert_by (λ a b, cmp (f a) (f b)) x l.
Proof. induction l as [|y l IH]; csimpl; [done|]. destruct (cmp (f x) (f y)); csimpl; by rewrite ?IH. Qed.

Lemma sort_by_fmap {A B} (f : A → B) (cmp : B → B → comparison) l :
  sort_by cmp (f <$> l) = f <$> sort_by (λ a b, cmp (f a) (f b)) l.
Proof. induction l as [|x l IH]; csimpl; [done|]. by rewrite IH, insert_by_fmap. Qed.

(** A strictly sorted list is determined by its elements. *)
Lemma strictly_sorted_unique {A} (cmp : A → A → comparison) `{!CmpOrder cmp} l1 l2 :
  StronglySorted (λ a b, cmp a b = Lt) l1 → StronglySorted (λ a b, cmp a b = Lt) l2 →
  (∀ x, x ∈ l1 ↔ x ∈ l2) → l1 = l2.
Proof.
  intros H. revert l2. induction H as [|x l1 H1 IH Hx]; intros l2 H2 Heq.
  { destruct l2 as [|y l2]; [done|]. exfalso. by apply (not_elem_of_nil y), Heq, list_elem_of_here. }
  destruct H2 as [|y l2 H2 Hy].
  { exfalso. by apply (not_elem_of_nil x), Heq, list_elem_of_here. }
  rewrite Forall_forall in Hx, Hy.
  assert (x = y) as <-.
  { destruct (proj1 (elem_of_cons l2 x y) (proj1 (Heq x) (list_elem_of_here _ _))) as [|Hxl]; [done|].
    destruct (proj1 (elem_of_cons l1 y x) (proj2 (Heq y) (list_elem_of_here _ _))) as [|Hyl]; [done|].
    pose proof (cmp_lt_trans cmp x y x (Hx y Hyl) (Hy x Hxl)) as C. by rewrite (cmp_refl cmp) in C. }
  f_equal. apply IH; [done|]. intros z. split; intros Hz.
  - destruct (proj1 (elem_of_cons l2 z x) (proj1 (Heq z) (list_elem_of_further _ _ _ Hz))) as [->|]; [|done].
    specialize (Hx x Hz). by rewrite (cmp_refl cmp) in Hx.
  - destruct (proj1 (elem_of_cons l1 z x) (proj2 (Heq z) (list_elem_of_further _ _ _ Hz))) as [->|]; [|done].
    specialize (Hy x Hz). by rewrite (cmp_refl cmp) in Hy.
Qed.

(** ** Filters that agree on the elements of a list *)
Section filter_in.
Context {A : Type} (P Q : A → Prop) `{!∀ x, Decision (P x), !∀ x, Decision (Q x)}.

Lemma filter_ext_in (l : list A) : (∀ x, x ∈ l → P x ↔ Q x) → filter P l = filter Q l.
Proof.
  induction l as [|x l IH]; intros Hl; [done|]. rewrite !filter_cons.
  rewrite (decide_ext (P x) (Q x)) by (apply Hl; left). rewrite IH by (intros; apply Hl; by right). done.
Qed.

Lemma filter_all_in (l : list A) : (∀ x, x ∈ l → P x) → filter P l = l.
Proof.
  induction l as [|x l IH]; intros Hl; [done|]. rewrite filter_cons_True by (apply Hl; left).
  f_equal. apply IH. intros; apply Hl; by right.
Qed.
End filter_in.

(** ** Insertion-ordered maps (JavaScript [Map]s and plain objects)

    [jm_set] on a key already present keeps its position, on a fresh key appends. *)
Section jmap.
Context {K V : Type} `{!EqDecision K}.
Implicit Types (m : list (K * V)) (k : K) (v : V).

Fixpoint jm_get m k : option V :=
  match m with
  | [] => None
  | (k', v) :: m' => if decide (k = k') then Some v else jm_get m' k
  end.

Fixpoint jm_set m k v : list (K * V) :=
  match m with
  | [] => [(k, v)]
  | (k', v') :: m' => if decide (k = k') then (k', v) :: m' else (k', v') :: jm_set m' k v
  end.

Fixpoint jm_delete m k : list (K * V) :=
  match m with
  | [] => []
  | (k', v') :: m' => if decide (k = k') then m' else (k', v') :: jm_delete m' k
  end.

Definition jm_has m k : bool := bool_decide (is_Some (jm_get m k)).
Definition jm_values m : list V := m.*2.
Definition jm_keys m : list K := m.*1.

(** The representation invariant: every key once. *)
Definition jm_ok m : Prop := NoDup m.*1.

Lemma jm_get_set m k v k' :
  jm_get (jm_set m k v) k' = if decide (k' = k) then Some v else jm_get m k'.
Proof.
  induction m as [|[j w] m IH]; simpl; [done|].
  repeat (case_decide; simpl); naive_solver.
Qed.

Lemma jm_set_keys m k v x : x ∈ (jm_set m k v).*1 ↔ x = k ∨ x ∈ m.*1.
Proof.
  induction m as [|[j w] m IH]; simpl; [set_solver|]. case_decide; simpl; set_solver.
Qed.

Lemma jm_set_ok m k v : jm_ok m → jm_ok (jm_set m k v).
Proof.
  unfold jm_ok. induction m as [|[j w] m IH]; simpl.
  - intros _. apply NoDup_singleton.
  - intros [Hj Hm]%NoDup_cons. case_decide as Hd; simpl; [by constructor|].
    apply NoDup_cons; split; [|by apply IH]. rewrite jm_set_keys. naive_solver.
Qed.

Lemma jm_delete_sub m k x : x ∈ jm_delete m k → x ∈ m.
Proof. induction m as [|[j w] m IH]; simpl; [done|]. case_decide; set_solver. Qed.

Lemma jm_delete_ok m k : jm_ok m → jm_ok (jm_delete m k).
Proof.
  unfold jm_ok. induction m as [|[j w] m IH]; simpl; [done|].
  intros [Hj Hm]%NoDup_cons. case_decide; [done|]. simpl. apply NoDup_cons; split; [|by apply IH].
  intros Hin. apply Hj. apply list_elem_of_fmap in Hin as (p & -> & Hp).
  apply list_elem_of_fmap. exists p. split; [done|]. by eapply jm_delete_sub.
Qed.

Lemma jm_get_None m k : jm_get m k = None ↔ k ∉ m.*1.
Proof. induction m as [|[j w] m IH]; simpl; [set_solver|]. case_decide; set_solver. Qed.

Lemma jm_get_delete m k k' :
  jm_ok m → jm_get (jm_delete m k) k' = if decide (k' = k) then None else jm_get m k'.
Proof.
  unfold jm_ok. induction m as [|[j w] m IH]; simpl; [by case_decide|].
  intros [Hj Hm]%NoDup_cons. apply IH in Hm. repeat (case_decide; simpl); try naive_solver.
  subst. by apply jm_get_None.
Qed.

Lemma jm_get_elem m k v : jm_ok m → jm_get m k = Some v ↔ (k, v) ∈ m.
Proof.
  unfold jm_ok. induction m as [|[j w] m IH]; simpl; [set_solver|].
  intros [Hj Hm]%NoDup_cons. rewrite elem_of_cons. case_decide as Hd.
  - subst. split; [naive_solver|]. intros [[= ->]|Hin]; [done|].
    exfalso. apply Hj. apply list_elem_of_fmap. by exists (j, v).
  - rewrite IH by done. naive_solver.
Qed.

Lemma jm_get_in m k v : jm_get m k = Some v → (k, v) ∈ m.
Proof. induction m as [|[j w] m IH]; simpl; [done|]. case_decide; set_solver. Qed.

(** Setting a fresh key appends. *)
Lemma jm_set_fresh m k v : k ∉ m.*1 → jm_set m k v = m ++ [(k, v)].
Proof.
  induction m as [|[j w] m IH]; simpl; [done|]. intros Hk. case_decide; [set_solver|].
  f_equal. apply IH. set_solver.
Qed.

Lemma jm_delete_filter m k : jm_ok m → jm_delete m k = filter (λ p, p.1 ≠ k) m.
Proof.
  unfold jm_ok. induction m as [|[j w] m IH]; simpl; [done|]. intros [Hj Hm]%NoDup_cons.
  destruct (decide (k = j)) as [->|Hne].
  - rewrite filter_cons_False by (intros H; by apply H). symmetry. apply filter_all_in. intros [j' w'] Hin.
    simpl. intros ->. apply Hj. apply list_elem_of_fmap. by exists (j, w').
  - rewrite filter_cons_True by (simpl; congruence). by rewrite IH.
Qed.

(** Rewriting the values in place, by key. *)
Definition jm_mapi (f : K → V → V) m : list (K * V) := List.map (λ p, (p.1, f p.1 p.2)) m.

Lemma jm_mapi_keys f m : (jm_mapi f m).*1 = m.*1.
Proof. induction m as [|[j w] m IH]; simpl; [done|]. f_equal. apply IH. Qed.

Lemma jm_mapi_ok f m : jm_ok m → jm_ok (jm_mapi f m).
Proof. unfold jm_ok. by rewrite jm_mapi_keys. Qed.

Lemma jm_get_mapi f m k : jm_get (jm_mapi f m) k = f k <$> jm_get m k.
Proof. induction m as [|[j w] m IH]; simpl; [done|]. case_decide; [by subst|apply IH]. Qed.

Lemma jm_mapi_ext f g m : (∀ k v, (k, v) ∈ m → f k v = g k v) → jm_mapi f m = jm_mapi g m.
Proof.
  induction m as [|[j w] m IH]; intros H; simpl; [done|]. rewrite (H j w) by left. f_equal. apply IH.
  intros; apply H; by right.
Qed.

Lemma jm_mapi_id f m : (∀ k v, (k, v) ∈ m → f k v = v) → jm_mapi f m = m.
Proof.
  induction m as [|[j w] m IH]; intros H; simpl; [done|]. rewrite (H j w) by left. f_equal. apply IH.
  intros; apply H; by right.
Qed.

Lemma jm_mapi_comp f g m : jm_mapi f (jm_mapi g m) = jm_mapi (λ k v, f k (g k v)) m.
Proof. induction m as [|[j w] m IH]; simpl; [done|]. f_equal. apply IH. Qed.

(** Setting a present key is rewriting its value in place. *)
Lemma jm_set_mapi f m k v : jm_ok m → jm_get m k = Some v →
  jm_set m k (f v) = jm_mapi (λ k' v', if decide (k' = k) then f v' else v') m.
Proof.
  unfold jm_ok. induction m as [|[j w] m IH]; simpl; [done|]. intros [Hj Hm]%NoDup_cons.
  destruct (decide (k = j)) as [->|Hne].
  - intros [= ->]. rewrite decide_True by done. f_equal. symmetry. apply jm_mapi_id. intros k' v' Hin.
    rewrite decide_False; [done|]. intros ->. apply Hj. apply list_elem_of_fmap. by exists (j, v').
  - intros E. rewrite decide_False by done. f_equal. by apply IH.
Qed.
End jmap.

(** The representation invariant of maps is proved by search. *)
Create HintDb jmap discriminated.
#[export] Hint Resolve jm_set_ok jm_delete_ok jm_mapi_ok : jmap.
Lemma jm_nil_ok {K V} `{!EqDecision K} : jm_ok (@nil (K * V)).
Proof. apply NoDup_nil_2. Qed.
#[export] Hint Resolve jm_nil_ok : jmap.

(** Push lookups through updates of maps known to be well formed, then split on the keys. *)
Ltac jm_look :=
  repeat (rewrite jm_get_set || rewrite jm_get_mapi || rewrite jm_get_delete by eauto with jmap);
  repeat case_decide.

(** [res_inv H as x E]: a [let!] that succeeded got its first value. *)
Tactic Notation "res_inv" hyp(H) "as" simple_intropattern(x) ident(E) :=
  match type of H with
  | res_bind ?m _ = Ok _ => destruct m as [x|] eqn:E; [cbn [res_bind] in H|discriminate H]
  end.

(** ** Decimal rendering and parsing of non-negative integers

    [String(n)] for an integer-valued number below [10^21], and [Number.parseInt(s, 10)] on the
    strings the code feeds it. *)
Fixpoint dec_fuel (fuel : nat) (n : Z) : jsstr :=
  match fuel with
  | O => []
  | S f => if n <? 10 then [48 + n] else dec_fuel f (n / 10) ++ [48 + n mod 10]
  end.

Definition dec_nonneg (n : Z) : jsstr := dec_fuel (S (Z.to_nat (Z.log2 n))) n.

Definition string_of_int (n : Z) : jsstr := if n <? 0 then 45 :: dec_nonneg (- n) else dec_nonneg n.

Definition is_digit (c : Z) : bool := (48 <=? c) && (c <=? 57).

(** The longest digit prefix, as a number; [None] (NaN) when there is no digit. *)
Fixpoint parse_digits (acc : Z) (s : jsstr) : Z :=
  match s with
  | [] => acc
  | c :: s' => if is_digit c then parse_digits (acc * 10 + (c - 48)) s' else acc
  end.

Definition parse_nonneg (s : jsstr) : option Z :=
  match s with
  | c :: _ => if is_digit c then Some (parse_digits 0 s) else None
  | [] => None
  end.

(** StrWhiteSpaceChar (the ASCII part) is skipped, one sign is accepted. *)
Definition is_space (c : Z) : bool := (c =? 32) || ((9 <=? c) && (c <=? 13)).
Fixpoint skip_space (s : jsstr) : jsstr :=
  match s with c :: s' => if is_space c then skip_space s' else s | [] => [] end.

Definition parseInt10 (s : jsstr) : option Z :=
  match skip_space s with
  | 45 :: s' => Z.opp <$> parse_nonneg s'
  | 43 :: s' => parse_nonneg s'
  | s' => parse_nonneg s'
  end.

Lemma parse_digits_app acc s t :
  forallb is_digit s = true → parse_digits acc (s ++ t) = parse_digits (parse_digits acc s) t.
Proof.
  revert acc; induction s as [|c s IH]; intros acc; simpl; [done|].
  intros [Hc Hs]%andb_true_iff. rewrite Hc. by apply IH.
Qed.

Lemma dec_fuel_spec fuel n :
  fuel ≠ O → 0 ≤ n → n < 2 ^ Z.of_nat fuel →
  dec_fuel fuel n ≠ [] ∧ forallb is_digit (dec_fuel fuel n) = true ∧ parse_digits 0 (dec_fuel fuel n) = n.
Proof.
  revert n; induction fuel as [|f IH]; intros n Hf0 H0 Hn; [done|].
  cbn [dec_fuel]. case (Z.ltb_spec n 10); intros Hlt.
  - assert (Hd : is_digit (48 + n) = true) by (unfold is_digit; rewrite andb_true_iff, !Z.leb_le; lia).
    cbn [forallb parse_digits]. rewrite Hd. split_and!; [done..|lia].
  - assert (Hf : 0 ≤ n / 10 ∧ n / 10 < 2 ^ Z.of_nat f).
    { split; [apply Z.div_pos; lia|]. rewrite Nat2Z.inj_succ, Z.pow_succ_r in Hn by lia.
      apply Z.div_lt_upper_bound; nia. }
    destruct (IH (n / 10)) as (_ & Hd & Hp); [|apply Hf..|].
    { intros ->. simpl in Hn. lia. }
    pose proof (Z.mod_pos_bound n 10 ltac:(lia)).
    assert (Hlast : is_digit (48 + n mod 10) = true)
      by (unfold is_digit; rewrite andb_true_iff, !Z.leb_le; lia).
    split_and!.
    + by destruct (dec_fuel f (n / 10)).
    + rewrite forallb_app, Hd. simpl. by rewrite Hlast.
    + rewrite parse_digits_app, Hp by done. cbn [parse_digits]. rewrite Hlast.
      rewrite (Z.div_mod n 10) at 3 by lia. lia.
Qed.

Lemma dec_nonneg_spec n :
  0 ≤ n →
  dec_nonneg n ≠ [] ∧ forallb is_digit (dec_nonneg n) = true ∧ parse_digits 0 (dec_nonneg n) = n.
Proof.
  intros Hn. apply dec_fuel_spec; [done..|]. rewrite Nat2Z.inj_succ, Z2Nat.id by apply Z.log2_nonneg.
  destruct (decide (n = 0)) as [->|]; [done|]. apply Z.log2_spec. lia.
Qed.

Lemma digit_bounds c : is_digit c = true → 48 ≤ c ≤ 57.
Proof. unfold is_digit. rewrite andb_true_iff, !Z.leb_le. lia. Qed.

Lemma parseInt10_string_of_int n : 0 ≤ n → parseInt10 (string_of_int n) = Some n.
Proof.
  intros Hn. destruct (dec_nonneg_spec n Hn) as (Hne & Hd & Hp).
  unfold string_of_int. rewrite (proj2 (Z.ltb_ge n 0)) by done.
  unfold parseInt10. destruct (dec_nonneg n) as [|c s] eqn:E; [done|].
  simpl in Hd. apply andb_true_iff in Hd as [Hc Hs]. pose proof (digit_bounds c Hc).
  assert (is_space c = false) as Hsp.
  { unfold is_space. apply orb_false_iff. split; [apply Z.eqb_neq; lia|].
    apply andb_false_iff. right. apply Z.leb_gt. lia. }
  cbn [skip_space]. rewrite Hsp.
  destruct (decide (c = 45)) as [->|]; [lia|]. destruct (decide (c = 43)) as [->|]; [lia|].
  assert (parse_nonneg (c :: s) = Some n) as <- by (unfold parse_nonneg; by rewrite Hc, Hp).
  destruct c as [|p|]; try done. repeat (destruct p as [p|p|]; try done).
Qed.

Lemma string_of_int_inj n m : string_of_int n = string_of_int m → n = m.
Proof.
  assert (Hpos : ∀ n m, 0 ≤ n → 0 ≤ m → dec_nonneg n = dec_nonneg m → n = m).
  { intros a b Ha Hb H. destruct (dec_nonneg_spec a Ha) as (_ & _ & <-), (dec_nonneg_spec b Hb) as (_ & _ & <-).
    by rewrite H. }
  assert (Hsign : ∀ n m, 0 ≤ n → dec_nonneg n ≠ 45 :: dec_nonneg m).
  { intros a b Ha H. destruct (dec_nonneg_spec a Ha) as (_ & Hd & _). rewrite H in Hd. done. }
  unfold string_of_int. destruct (Z.ltb_spec n 0), (Z.ltb_spec m 0); intros H'.
  - injection H' as H'. apply Hpos in H'; lia.
  - exfalso. by apply (Hsign m (- n)).
  - exfalso. by apply (Hsign n (- m)).
  - by apply Hpos.
Qed.

(** Building a map by successive [set]s of distinct keys lists them in order. *)
Definition jm_of_list {K V} `{!EqDecision K} (l : list (K * V)) : list (K * V) :=
  fold_left (λ m kv, jm_set m kv.1 kv.2) l [].

Lemma jm_of_list_app {K V} `{!EqDecision K} (m l : list (K * V)) :
  NoDup (m ++ l).*1 → fold_left (λ m kv, jm_set m kv.1 kv.2) l m = m ++ l.
Proof.
  revert m. induction l as [|[k v] l IH]; intros m; simpl; [by rewrite app_nil_r|].
  intros Hnd. rewrite jm_set_fresh.
  - rewrite IH; by rewrite <-app_assoc.
  - rewrite fmap_app in Hnd. apply NoDup_app in Hnd as (_ & Hd & _).
    intros Hk. by apply (Hd k Hk), list_elem_of_here.
Qed.

Lemma jm_of_list_nodup {K V} `{!EqDecision K} (l : list (K * V)) : NoDup l.*1 → jm_of_list l = l.
Proof. intros. by apply (jm_of_list_app []). Qed.

(** ** Little- and big-endian bytes of an integer *)
Fixpoint le_bytes (n : nat) (x : Z) : bytes :=
  match n with O => [] | S n' => x mod 256 :: le_bytes n' (x / 256) end.

Fixpoint le_int (b : bytes) : Z :=
  match b with [] => 0 | x :: b' => x + 256 * le_int b' end.

Lemma length_le_bytes n x : length (le_bytes n x) = n.
Proof. revert x; induction n; simpl; auto. Qed.

Lemma le_int_bytes n x : 0 ≤ x < 256 ^ Z.of_nat n → le_int (le_bytes n x) = x.
Proof.
  revert x. induction n as [|n IH]; intros x Hx; cbn [le_bytes le_int]; [simpl in Hx; lia|].
  rewrite Nat2Z.inj_succ, Z.pow_succ_r in Hx by lia.
  rewrite IH; [|split; [apply Z.div_pos; lia|apply Z.div_lt_upper_bound; lia]].
  pose proof (Z.div_mod x 256 ltac:(lia)). lia.
Qed.

Lemma le_bytes_byte n x : Forall is_byte (le_bytes n x).
Proof.
  revert x; induction n; intros; simpl; constructor; [|done].
  unfold is_byte. apply Z.mod_pos_bound. lia.
Qed.

(** Big-endian words of the same width compare as their byte strings. *)
Definition be_bytes (n : nat) (x : Z) : bytes := rev (le_bytes n x).

Lemma le_bytes_snoc n x : le_bytes (S n) x = le_bytes n x ++ [x / 256 ^ Z.of_nat n mod 256].
Proof.
  revert x. induction n as [|n IH]; intros x; [simpl; by rewrite Z.div_1_r|].
  change (le_bytes (S (S n)) x) with (x mod 256 :: le_bytes (S n) (x / 256)). rewrite IH. simpl.
  do 3 f_equal. rewrite Z.div_div by lia. rewrite Nat2Z.inj_succ, Z.pow_succ_r by lia. done.
Qed.

Lemma be_bytes_cons n x : be_bytes (S n) x = x / 256 ^ Z.of_nat n mod 256 :: be_bytes n x.
Proof. unfold be_bytes. by rewrite le_bytes_snoc, rev_app_distr. Qed.

Lemma length_be_bytes n x : length (be_bytes n x) = n.
Proof. unfold be_bytes. by rewrite length_rev, length_le_bytes. Qed.

Lemma be_bytes_mod n x : be_bytes n (x mod 256 ^ Z.of_nat n) = be_bytes n x.
Proof.
  unfold be_bytes. f_equal. revert x. induction n as [|n IH]; intros x; [done|].
  rewrite Nat2Z.inj_succ, Z.pow_succ_r by lia. cbn [le_bytes]. f_equal.
  - rewrite <-Znumtheory.Zmod_div_mod; [done|lia| |by apply Z.divide_factor_l].
    apply Z.mul_pos_pos; [lia|]. apply Z.pow_pos_nonneg; lia.
  - rewrite <-(IH (x / 256)). f_equal.
    assert (0 < 256 ^ Z.of_nat n) by (apply Z.pow_pos_nonneg; lia).
    rewrite Z.rem_mul_r by lia. rewrite Z.mul_comm, Z.div_add by lia.
    rewrite Z.mod_div by lia. lia.
Qed.

Lemma be_bytes_compare n x y :
  0 ≤ x < 256 ^ Z.of_nat n → 0 ≤ y < 256 ^ Z.of_nat n →
  lexcmp Z.compare (be_bytes n x) (be_bytes n y) = (x ?= y).
Proof.
  revert x y. induction n as [|n IH]; intros x y Hx Hy.
  { simpl in *. replace x with y by lia. by rewrite Z.compare_refl. }
  rewrite Nat2Z.inj_succ, Z.pow_succ_r in Hx, Hy by lia.
  set (B := 256 ^ Z.of_nat n) in *.
  assert (0 < B) by (apply Z.pow_pos_nonneg; lia).
  rewrite !be_bytes_cons. cbn [lexcmp]. fold B.
  assert (Hq : ∀ z, 0 ≤ z < 256 * B → z / B mod 256 = z / B).
  { intros z Hz. apply Z.mod_small. split; [apply Z.div_pos; lia|]. apply Z.div_lt_upper_bound; lia. }
  rewrite !Hq by done. rewrite <-(be_bytes_mod n x), <-(be_bytes_mod n y). fold B.
  rewrite IH by (apply Z.mod_pos_bound; lia).
  pose proof (Z.div_mod x B ltac:(lia)) as Dx. pose proof (Z.div_mod y B ltac:(lia)) as Dy.
  pose proof (Z.mod_pos_bound x B ltac:(lia)). pose proof (Z.mod_pos_bound y B ltac:(lia)).
  destruct (Z.compare_spec (x / B) (y / B)) as [E|E|E]; symmetry.
  - rewrite Dx, Dy, E at 1. apply Z.add_compare_mono_l.
  - apply Z.compare_lt_iff. nia.
  - apply Z.compare_gt_iff. nia.
Qed.
