(* ===== verification/Effects.v ===== *)
(** Code that changes a state and may throw: what an [async] function of the executor does to the transaction it runs in.
    A throw keeps the changes made before it. *)
From S2P Require Import Prelude.

Definition eff (S A : Type) : Type := S → S * res A.

Section effects.
Context {S : Type}.
Implicit Types (s : S).

Definition eret {A} (a : A) : eff S A := λ s, (s, Ok a).
Definition ethrow {A} (e : exn) : eff S A := λ s, (s, Err e).
Definition elift {A} (r : res A) : eff S A := λ s, (s, r).
Definition eget {A} (f : S → A) : eff S A := λ s, (s, Ok (f s)).
Definition edo (f : S → S) : eff S unit := λ s, (f s, Ok tt).
Definition ebind {A B} (m : eff S A) (k : A → eff S B) : eff S B :=
  λ s, let '(s', r) := m s in match r with Ok a => k a s' | Err e => (s', Err e) end.
(** [try { return k(Ok(await m)) } catch (e) { return k(Err(e)) }] *)
Definition etry {A B} (m : eff S A) (k : res A → eff S B) : eff S B := λ s, let '(s', r) := m s in k r s'.
(** [if (b) throw e] *)
Definition ewhen (b : bool) (e : exn) : eff S unit := if b then ethrow e else eret tt.

Section etraverse.
Context {A B : Type} (f : A → eff S B).
Fixpoint etraverse (l : list A) : eff S (list B) :=
  match l with
  | [] => eret []
  | x :: l => ebind (f x) (λ y, ebind (etraverse l) (λ ys, eret (y :: ys)))
  end.
End etraverse.

(** ** Triples *)
Definition triple {A} (P : S → Prop) (m : eff S A) (Q : res A → S → Prop) : Prop := ∀ s, P s → Q (m s).2 (m s).1.

(** The state stays in [I], whatever [m] answers; an answer satisfies [Q] of it and the state. *)
Definition keeps {A} (I : S → Prop) (m : eff S A) (Q : A → S → Prop) : Prop :=
  triple I m (λ r s, I s ∧ ∀ a, r = Ok a → Q a s).

Lemma triple_bind {A B} P (m : eff S A) (k : A → eff S B) Q R :
  triple P m Q → (∀ a, triple (Q (Ok a)) (k a) R) → (∀ e s, Q (Err e) s → R (Err e) s) → triple P (ebind m k) R.
Proof.
  intros Hm Hk He s Hs. specialize (Hm s Hs). unfold ebind. destruct (m s) as [s' [a|e]]; cbn in *; [by apply Hk|by apply He].
Qed.
Lemma triple_conseq {A} P P' (m : eff S A) Q Q' :
  triple P' m Q' → (∀ s, P s → P' s) → (∀ r s, Q' r s → Q r s) → triple P m Q.
Proof. intros Hm HP HQ s Hs. by apply HQ, Hm, HP. Qed.

Lemma keeps_ret {A} (I : S → Prop) (a : A) Q : (∀ s, I s → Q a s) → keeps I (eret a) Q.
Proof. intros HQ s Hs. split; [done|]. intros ? [= <-]. by apply HQ. Qed.
Lemma keeps_throw {A} (I : S → Prop) e (Q : A → S → Prop) : keeps I (ethrow e) Q.
Proof. intros s Hs. by split. Qed.
Lemma keeps_lift {A} (I : S → Prop) (r : res A) Q : (∀ a s, r = Ok a → I s → Q a s) → keeps I (elift r) Q.
Proof. intros HQ s Hs. split; [done|]. intros a Ha. by apply HQ. Qed.
Lemma keeps_get {A} (I : S → Prop) (f : S → A) Q : (∀ s, I s → Q (f s) s) → keeps I (eget f) Q.
Proof. intros HQ s Hs. split; [done|]. intros ? [= <-]. by apply HQ. Qed.
Lemma keeps_do (I : S → Prop) (f : S → S) Q : (∀ s, I s → I (f s) ∧ Q tt (f s)) → keeps I (edo f) Q.
Proof. intros HQ s Hs. destruct (HQ s Hs). split; [done|]. by intros ? [= <-]. Qed.
Lemma keeps_when (I : S → Prop) b e (Q : unit → S → Prop) : (∀ s, b = false → I s → Q tt s) → keeps I (ewhen b e) Q.
Proof. intros HQ. destruct b; [apply keeps_throw|]. apply keeps_ret. intros s. by apply HQ. Qed.
Lemma keeps_bind {A B} (I : S → Prop) (m : eff S A) (k : A → eff S B) Q R :
  keeps I m Q → (∀ a s, I s → Q a s → I (k a s).1 ∧ ∀ b, (k a s).2 = Ok b → R b (k a s).1) → keeps I (ebind m k) R.
Proof.
  intros Hm Hk s Hs. destruct (Hm s Hs) as [HI HQ]. unfold ebind. destruct (m s) as [s' [a|e]]; cbn in *; [|done].
  by apply Hk; [|apply HQ].
Qed.
Lemma keeps_then {A B} (I : S → Prop) (m : eff S A) (k : A → eff S B) R :
  keeps I m (λ _ _, True) → (∀ a, keeps I (k a) R) → keeps I (ebind m k) R.
Proof. intros Hm Hk. eapply keeps_bind; [exact Hm|]. intros a s Hs _. by apply Hk. Qed.
Lemma keeps_bind_pure {A B} (I : S → Prop) (m : eff S A) (k : A → eff S B) (Q : A → Prop) R :
  keeps I m (λ a _, Q a) → (∀ a, Q a → keeps I (k a) R) → keeps I (ebind m k) R.
Proof. intros Hm Hk. eapply keeps_bind; [exact Hm|]. intros a s Hs HQ. by apply Hk. Qed.
Lemma keeps_try {A B} (I : S → Prop) (m : eff S A) (k : res A → eff S B) R :
  keeps I m (λ _ _, True) → (∀ r, keeps I (k r) R) → keeps I (etry m k) R.
Proof. intros Hm Hk s Hs. destruct (Hm s Hs) as [HI _]. unfold etry. destruct (m s) as [s' r]. by apply Hk. Qed.
Lemma keeps_weaken {A} (I : S → Prop) (m : eff S A) (Q Q' : A → S → Prop) :
  keeps I m Q → (∀ a s, I s → Q a s → Q' a s) → keeps I m Q'.
Proof. intros Hm HQ s Hs. destruct (Hm s Hs) as [H1 H2]. split; [done|]. intros a Ha. by apply HQ; [|apply H2]. Qed.
Lemma keeps_traverse {A B} (I : S → Prop) (f : A → eff S B) l :
  (∀ x, x ∈ l → keeps I (f x) (λ _ _, True)) → keeps I (etraverse f l) (λ _ _, True).
Proof.
  induction l as [|x l IH]; intros Hf; [by apply keeps_ret|]. cbn. apply keeps_then; [apply Hf; left|]. intros y.
  apply keeps_then; [apply IH; intros z Hz; apply Hf; by right|]. intros ys. by apply keeps_ret.
Qed.

(** ** What a bind did *)
Lemma ebind_ok {A B} (m : eff S A) (k : A → eff S B) s s' b : ebind m k s = (s', Ok b) →
  ∃ a s1, m s = (s1, Ok a) ∧ k a s1 = (s', Ok b).
Proof. unfold ebind. destruct (m s) as [s1 [a|e]]; [by exists a, s1|done]. Qed.
Lemma ebind_run {A B} (m : eff S A) (k : A → eff S B) s s' a : m s = (s', Ok a) → ebind m k s = k a s'.
Proof. unfold ebind. by intros ->. Qed.
Lemma ebind_err {A B} (m : eff S A) (k : A → eff S B) s s' e : m s = (s', Err e) → ebind m k s = (s', Err e).
Proof. unfold ebind. by intros ->. Qed.
Lemma ewhen_ok b e s s' x : ewhen b e s = (s', Ok x) → b = false ∧ s' = s.
Proof. destruct b; [done|]. by intros [= <- _]. Qed.
Lemma elift_ok {A} (r : res A) s s' a : elift r s = (s', Ok a) → r = Ok a ∧ s' = s.
Proof. by intros [= <- ->]. Qed.
End effects.

Notation "'let^' x := m 'in' k" := (ebind m (λ x, k)) (at level 10, x pattern, m at level 100, k at level 200) : helipod_scope.
Notation "'do^' m 'in' k" := (ebind m (λ _, k)) (at level 10, m at level 100, k at level 200) : helipod_scope.

#[export] Hint Resolve keeps_throw : effects.
(** Goes under the binds of a computation whose continuations keep [I] whatever they get. *)
Ltac keeps_step :=
  match goal with
  | |- keeps _ (ebind _ _) _ => apply keeps_then; [|intros ?]
  | |- keeps _ (eret _) _ => apply keeps_ret
  | |- keeps _ (ethrow _) _ => apply keeps_throw
  | |- keeps _ (elift _) _ => apply keeps_lift
  | |- keeps _ (eget _) _ => apply keeps_get
  | |- keeps _ (ewhen _ _) _ => apply keeps_when
  | |- keeps _ (if ?b then _ else _) _ => destruct b eqn:?
  | |- keeps _ (match ?x with _ => _ end) _ => destruct x eqn:?
  end.

(** Computations that answer. *)
Definition yields {S A} (I : S → Prop) (m : eff S A) (Q : A → Prop) : Prop := ∀ s, I s → ∃ s' a, m s = (s', Ok a) ∧ I s' ∧ Q a.
Section yields.
Context {S : Type} (I : S → Prop).
Lemma yields_ret {A} (a : A) (Q : A → Prop) : Q a → yields I (eret a) Q.
Proof. intros HQ s Hs. by exists s, a. Qed.
Lemma yields_lift {A} (r : res A) a (Q : A → Prop) : r = Ok a → Q a → yields I (elift r) Q.
Proof. intros -> HQ s Hs. by exists s, a. Qed.
Lemma yields_bind {A B} (m : eff S A) (k : A → eff S B) (Q : A → Prop) (R : B → Prop) :
  yields I m Q → (∀ a, Q a → yields I (k a) R) → yields I (ebind m k) R.
Proof. intros Hm Hk s Hs. destruct (Hm s Hs) as (s1 & a & E & H1 & HQ). unfold ebind. rewrite E. by apply Hk. Qed.
Lemma yields_traverse {A B} (f : A → eff S B) l (Q : A → B → Prop) :
  (∀ x, x ∈ l → yields I (f x) (Q x)) → yields I (etraverse f l) (Forall2 Q l).
Proof.
  induction l as [|x l IH]; intros Hf; [by apply yields_ret|]. cbn. apply (yields_bind _ _ (Q x)); [apply Hf; left|]. intros y Hy.
  apply (yields_bind _ _ (Forall2 Q l)); [apply IH; intros z Hz; apply Hf; by right|]. intros ys Hys. apply yields_ret. by constructor.
Qed.
End yields.

(** ** Effects that move the state along a preorder *)
Section follows.
Context {St : Type} (R : relation St) `{!PreOrder R}.
Definition follows {A} (m : eff St A) : Prop := ∀ st, R st (m st).1.

Lemma follows_lift {A} (r : res A) : follows (elift r).
Proof. intros st. cbn. reflexivity. Qed.
Lemma follows_ret {A} (a : A) : follows (eret a).
Proof. apply (follows_lift (Ok a)). Qed.
Lemma follows_throw {A} e : follows (ethrow (A := A) e).
Proof. apply (follows_lift (Err e)). Qed.
Lemma follows_get {A} (f : St → A) : follows (eget f).
Proof. intros st. cbn. reflexivity. Qed.
Lemma follows_when b e : follows (ewhen b e).
Proof. destruct b; [apply follows_throw|apply (follows_ret tt)]. Qed.
Lemma follows_do f : (∀ st, R st (f st)) → follows (edo f).
Proof. intros H st. apply H. Qed.
Lemma follows_bind {A B} (m : eff St A) (k : A → eff St B) : follows m → (∀ a, follows (k a)) → follows (ebind m k).
Proof. intros Hm Hk st. unfold ebind. specialize (Hm st). destruct (m st) as [st' [a|e]]; cbn in *; [by etrans; [|apply Hk]|done]. Qed.
Lemma follows_try {A B} (m : eff St A) (k : res A → eff St B) : follows m → (∀ r, follows (k r)) → follows (etry m k).
Proof. intros Hm Hk st. unfold etry. specialize (Hm st). destruct (m st) as [st' r]; cbn in *. by etrans; [|apply Hk]. Qed.
Lemma follows_traverse {A B} (f : A → eff St B) l : (∀ x, x ∈ l → follows (f x)) → follows (etraverse f l).
Proof.
  induction l as [|x l IH]; intros Hf; [apply follows_ret|]. cbn. apply follows_bind; [apply Hf; left|]. intros y. apply follows_bind; [|intros; apply follows_ret].
  apply IH. intros z Hz. apply Hf. by right.
Qed.
End follows.
Create HintDb follows.
#[export] Hint Extern 1 (follows _ (elift _)) => apply follows_lift; apply _ : follows.
#[export] Hint Extern 1 (follows _ (eret _)) => apply follows_ret; apply _ : follows.
#[export] Hint Extern 1 (follows _ (ethrow _)) => apply follows_throw; apply _ : follows.
#[export] Hint Extern 1 (follows _ (eget _)) => apply follows_get; apply _ : follows.
#[export] Hint Extern 1 (follows _ (ewhen _ _)) => apply follows_when; apply _ : follows.
(** One step through the structure of an effect; a case analysis follows the code's. *)
Ltac follows_step :=
  match goal with
  | |- follows _ (ebind _ _) => apply follows_bind; [apply _| |intros ?]
  | |- follows _ (etry _ _) => apply follows_try; [apply _| |intros ?]
  | |- follows _ (if ?b then _ else _) => destruct b
  | |- follows _ (match ?x with _ => _ end) => destruct x
  | _ => solve [auto with follows]
  end.
