(* ===== verification/Numbers.v ===== *)
(** JavaScript numbers: IEEE-754 binary64 as [SpecFloat]'s [spec_float] (one NaN, as in
    JavaScript, where NaNs are indistinguishable to the program), the subtraction and comparison
    the code uses, the big-endian bit pattern written by [DataView.setFloat64], and the proof that
    the three-way comparison [sign (a - b)] of [packages/values/src/value.ts] is the order of the
    (sign-adjusted) bit patterns. *)
From Stdlib Require Import ZArith Lia.
From Stdlib Require Export SpecFloat.
From S2P Require Import Prelude.

#[global] Instance spec_float_eq_dec : EqDecision spec_float.
Proof. solve_decision. Defined.

Definition num_valid (n : spec_float) : Prop := valid_binary 53 1024 n = true.
#[global] Instance num_valid_dec n : Decision (num_valid n).
Proof. unfold num_valid. apply _. Defined.

Definition num_sub : spec_float → spec_float → spec_float := SFsub 53 1024.
Definition num_ltb : spec_float → spec_float → bool := SFltb.
Definition pzero : spec_float := S754_zero false.
Definition isNaN (n : spec_float) : bool := match n with S754_nan => true | _ => false end.
Definition isFinite (n : spec_float) : bool :=
  match n with S754_nan | S754_infinity _ => false | _ => true end.

(** [const sign = (n) => (n < 0 ? -1 : n > 0 ? 1 : 0)] *)
Definition sign (n : spec_float) : comparison :=
  if num_ltb n pzero then Lt else if num_ltb pzero n then Gt else Eq.

(** A number of the program: a valid binary64. *)
Record num : Type := Num { sf :> spec_float; num_ok : num_valid sf }.

Lemma num_eq (a b : num) : sf a = sf b → a = b.
Proof.
  destruct a as [a Ha], b as [b Hb]; simpl. intros ->. f_equal.
  apply Eqdep_dec.UIP_dec, bool_eq_dec.
Qed.

#[global] Instance num_eq_dec : EqDecision num.
Proof.
  intros a b. destruct (decide (sf a = sf b)) as [H|H]; [left; by apply num_eq|right; congruence].
Defined.

(** A float literal or the result of a bit-level conversion; patterns that are no canonical
    binary64 do not arise (see [float64_of_bits_valid]). *)
Definition mknum (x : spec_float) : num :=
  match Bool.bool_dec (valid_binary 53 1024 x) true with
  | left H => Num x H
  | right _ => Num S754_nan eq_refl
  end.

Lemma mknum_valid x : num_valid x → sf (mknum x) = x.
Proof. unfold num_valid, mknum. intros H. destruct (Bool.bool_dec _ _); [done|congruence]. Qed.

Definition compareNumbers (a b : num) : comparison :=
  let aNaN := isNaN a in
  let bNaN := isNaN b in
  if aNaN || bNaN then (if aNaN && bNaN then Eq else if aNaN then Gt else Lt)
  else sign (num_sub a b).

(** The 64-bit pattern of a number: sign bit, 11 exponent bits, 52 fraction bits. The NaN pattern
    is the canonical quiet NaN. *)
Definition float64_bits (n : spec_float) : Z :=
  let sbit (s : bool) := if s then 2 ^ 63 else 0 in
  match n with
  | S754_zero s => sbit s
  | S754_infinity s => sbit s + 2047 * 2 ^ 52
  | S754_nan => 2047 * 2 ^ 52 + 2 ^ 51
  | S754_finite s m e =>
      if Z.pos m <? 2 ^ 52 then sbit s + Z.pos m
      else sbit s + (e + 1075) * 2 ^ 52 + (Z.pos m - 2 ^ 52)
  end.

(** The inverse, as [DataView.getFloat64] reads a pattern. *)
Definition float64_of_bits (w : Z) : spec_float :=
  let s := 2 ^ 63 <=? w in
  let mag := w mod 2 ^ 63 in
  let ex := mag / 2 ^ 52 in
  let fr := mag mod 2 ^ 52 in
  if ex =? 2047 then (if fr =? 0 then S754_infinity s else S754_nan)
  else if ex =? 0 then
    match fr with Z.pos m => S754_finite s m (-1074) | _ => S754_zero s end
  else
    match fr + 2 ^ 52 with Z.pos m => S754_finite s m (ex - 1075) | _ => S754_zero s end.

(** ** Digits, shifts and rounding *)

Lemma digits2_log2 p : Z.pos (digits2_pos p) = Z.log2 (Z.pos p) + 1.
Proof.
  induction p as [p IH|p IH|]; simpl digits2_pos; [| |done].
  - rewrite Pos2Z.inj_succ, IH. rewrite (Pos2Z.inj_xI p), Z.log2_succ_double by lia. lia.
  - rewrite Pos2Z.inj_succ, IH. rewrite (Pos2Z.inj_xO p), Z.log2_double by lia. lia.
Qed.

Lemma shr_1_m r : 0 ≤ shr_m r → shr_m (shr_1 r) = shr_m r / 2.
Proof.
  destruct r as [m r s]; simpl. destruct m as [|[p|p|]|p]; simpl; intros; try lia; try done.
  - rewrite (Pos2Z.inj_xI p). apply (Z.div_unique _ _ _ 1); lia.
  - rewrite (Pos2Z.inj_xO p). apply (Z.div_unique _ _ _ 0); lia.
Qed.

Lemma iter_pos_shr p r :
  0 ≤ shr_m r → shr_m (SpecFloat.iter_pos shr_1 p r) = shr_m r / 2 ^ Z.pos p.
Proof.
  revert r. induction p as [p IH|p IH|]; intros r Hr; simpl SpecFloat.iter_pos.
  - assert (0 ≤ shr_m (shr_1 r)) by (rewrite shr_1_m by done; apply Z.div_pos; lia).
    rewrite IH by (rewrite IH by done; apply Z.div_pos; lia). rewrite IH, shr_1_m by done.
    rewrite !Z.div_div by lia. f_equal.
    replace (Z.pos p~1) with (Z.pos p + Z.pos p + 1) by lia. rewrite !Z.pow_add_r by lia. lia.
  - rewrite IH by (rewrite IH by done; apply Z.div_pos; lia). rewrite IH by done.
    rewrite Z.div_div by lia. f_equal.
    replace (Z.pos p~0) with (Z.pos p + Z.pos p) by lia. by rewrite Z.pow_add_r by lia.
  - by rewrite shr_1_m.
Qed.

Lemma pos_iter_xO m d : Z.pos (Pos.iter xO m d) = Z.pos m * 2 ^ Z.pos d.
Proof.
  induction d as [|d IH] using Pos.peano_ind; [simpl; lia|].
  rewrite Pos.iter_succ, Pos2Z.inj_succ, Z.pow_succ_r by lia.
  rewrite (Pos2Z.inj_xO), IH. lia.
Qed.

Lemma shl_align_val m e e' : e' ≤ e → Z.pos (fst (shl_align m e e')) = Z.pos m * 2 ^ (e - e').
Proof.
  intros He. unfold shl_align. destruct (Z.sub e' e) as [|p|p] eqn:E; simpl; try lia.
  - replace (e - e') with 0 by lia. simpl. lia.
  - rewrite pos_iter_xO. do 2 f_equal. lia.
Qed.

(** Rounding a positive mantissa whose exponent is representable never yields zero. *)
Lemma shr_fexp_pos m e r e' :
  0 < m → -1074 ≤ e → shr_fexp 53 1024 m e loc_Exact = (r, e') → 0 < shr_m r ∧ -1074 ≤ e'.
Proof.
  intros Hm He. unfold shr_fexp, shr, fexp, emin. simpl shr_record_of_loc.
  destruct m as [|p|p]; try lia. simpl Zdigits2. rewrite digits2_log2.
  destruct (Z.max _ _ - e) as [|q|q] eqn:Eq; intros [= <- <-]; simpl; try lia.
  split; [|lia]. rewrite iter_pos_shr by (simpl; lia). simpl shr_m.
  pose proof (Z.log2_spec (Z.pos p) ltac:(lia)) as [Hl _].
  assert (Z.pos q ≤ Z.log2 (Z.pos p)) by lia.
  assert (2 ^ Z.pos q ≤ Z.pos p).
  { etrans; [|exact Hl]. apply Z.pow_le_mono_r; lia. }
  apply Z.div_str_pos. split; [|done]. apply Z.pow_pos_nonneg; lia.
Qed.

Lemma round_ne_pos m l : 0 < m → 0 < round_nearest_even m l.
Proof. intros. destruct l as [|[]]; simpl; try lia. destruct (Z.even m); lia. Qed.

Definition signed_nonzero (s : bool) (n : spec_float) : Prop :=
  n = S754_infinity s ∨ ∃ m e, n = S754_finite s m e.

Lemma binary_round_aux_nonzero s m e :
  0 < m → -1074 ≤ e → signed_nonzero s (binary_round_aux 53 1024 s m e loc_Exact).
Proof.
  intros Hm He. unfold binary_round_aux.
  destruct (shr_fexp 53 1024 m e loc_Exact) as [r e'] eqn:E1.
  apply shr_fexp_pos in E1 as [Hr He']; [|done..].
  destruct (shr_fexp 53 1024 _ e' loc_Exact) as [r2 e2] eqn:E2.
  apply shr_fexp_pos in E2 as [Hr2 _]; [|by apply round_ne_pos|done].
  destruct (shr_m r2) as [|q|q]; try lia. unfold signed_nonzero.
  destruct (e2 <=? _); naive_solver.
Qed.

Lemma binary_round_nonzero s m e :
  -1074 ≤ e → signed_nonzero s (binary_round 53 1024 s m e).
Proof.
  intros He. unfold binary_round.
  destruct (shl_align m e _) as [mz ez] eqn:E. apply binary_round_aux_nonzero; [lia|].
  revert E. unfold shl_align. destruct (Z.sub _ e) eqn:D; intros [= <- <-]; try done.
  unfold fexp, emin. lia.
Qed.

Lemma sign_nonzero s n : signed_nonzero s n → sign n = if s then Lt else Gt.
Proof. intros [->|(m & e & ->)]; by destruct s. Qed.

Lemma sign_binary_normalize z e :
  -1074 ≤ e → sign (binary_normalize 53 1024 z e false) = (z ?= 0).
Proof.
  intros He. destruct z as [|p|p]; simpl; [done| |].
  - apply (sign_nonzero false). by apply binary_round_nonzero.
  - apply (sign_nonzero true). by apply binary_round_nonzero.
Qed.

(** ** Order keys

    [fval] is a finite number's value in units of [2^-1074]; [okey] the signed magnitude of its
    bit pattern. On valid numbers both induce the same order, the one [sign (a - b)] computes. *)
Definition sgn_of (s : bool) (z : Z) : Z := if s then - z else z.

Definition fval (n : spec_float) : Z :=
  match n with S754_finite s m e => sgn_of s (Z.pos m * 2 ^ (e + 1074)) | _ => 0 end.

Definition okey (n : spec_float) : Z :=
  match n with
  | S754_zero _ => 0
  | S754_infinity s => sgn_of s (2047 * 2 ^ 52)
  | S754_nan => 2047 * 2 ^ 52 + 2 ^ 51
  | S754_finite s m e => sgn_of s ((e + 1074) * 2 ^ 52 + Z.pos m)
  end.

(** What validity says of a finite number. *)
Lemma num_valid_finite s m e :
  num_valid (S754_finite s m e) →
  -1074 ≤ e ≤ 971 ∧ Z.pos m < 2 ^ 53 ∧ (2 ^ 52 ≤ Z.pos m ∨ e = -1074).
Proof.
  unfold num_valid. simpl. unfold bounded, canonical_mantissa, fexp, emin.
  rewrite andb_true_iff, Z.eqb_eq, Z.leb_le, digits2_log2. intros [H1 H2].
  pose proof (Z.log2_spec (Z.pos m) ltac:(lia)) as [Hl Hu].
  split; [lia|]. split.
  - eapply Z.lt_le_trans; [exact Hu|]. apply Z.pow_le_mono_r; lia.
  - destruct (decide (e = -1074)); [by right|left]. etrans; [|exact Hl].
    apply Z.pow_le_mono_r; lia.
Qed.

(** The magnitudes of two valid finite numbers compare as their bit patterns. *)
Lemma mag_compare m1 e1 m2 e2 :
  -1074 ≤ e1 → Z.pos m1 < 2 ^ 53 →
  -1074 ≤ e2 → Z.pos m2 < 2 ^ 53 → (2 ^ 52 ≤ Z.pos m2 ∨ e2 = -1074) →
  e1 ≤ e2 →
  (Z.pos m1 * 2 ^ (e1 + 1074) ?= Z.pos m2 * 2 ^ (e2 + 1074)) =
  ((e1 + 1074) * 2 ^ 52 + Z.pos m1 ?= (e2 + 1074) * 2 ^ 52 + Z.pos m2).
Proof.
  intros H1 L1 H2 L2 N2 Hle. destruct (decide (e1 = e2)) as [<-|Hne].
  - assert (0 < 2 ^ (e1 + 1074)) by (apply Z.pow_pos_nonneg; lia).
    rewrite <-(Zmult_compare_compat_r _ _ (2 ^ (e1 + 1074))) by lia.
    symmetry. apply Z.add_compare_mono_l.
  - assert (2 ^ 52 ≤ Z.pos m2) by lia.
    trans Lt; [|symmetry]; apply Z.compare_lt_iff; [|nia].
    replace (e2 + 1074) with ((e1 + 1074) + (e2 - e1)) by lia.
    rewrite (Z.pow_add_r 2 (e1 + 1074)) by lia.
    assert (0 < 2 ^ (e1 + 1074)) by (apply Z.pow_pos_nonneg; lia).
    assert (2 ^ 1 ≤ 2 ^ (e2 - e1)) by (apply Z.pow_le_mono_r; lia).
    set (p := 2 ^ (e1 + 1074)) in *. set (q := 2 ^ (e2 - e1)) in *.
    assert (Z.pos m1 < Z.pos m2 * q) by nia. nia.
Qed.

Lemma compare_opp x y : (- x ?= - y) = CompOpp (x ?= y).
Proof. rewrite Z.compare_opp. apply Z.compare_antisym. Qed.

Lemma fval_okey a b :
  num_valid a → num_valid b → isFinite a = true → isFinite b = true →
  (fval a ?= fval b) = (okey a ?= okey b).
Proof.
  assert (Hmag : ∀ s m e s' m' e', num_valid (S754_finite s m e) → num_valid (S754_finite s' m' e') →
    (Z.pos m * 2 ^ (e + 1074) ?= Z.pos m' * 2 ^ (e' + 1074)) =
    ((e + 1074) * 2 ^ 52 + Z.pos m ?= (e' + 1074) * 2 ^ 52 + Z.pos m')).
  { intros ?????? (A1&A2&A3)%num_valid_finite (B1&B2&B3)%num_valid_finite.
    destruct (decide (e ≤ e')); [apply mag_compare; lia|].
    rewrite Z.compare_antisym, mag_compare by lia. by rewrite <-Z.compare_antisym. }
  assert (Hp : ∀ s m e, num_valid (S754_finite s m e) →
    0 < Z.pos m * 2 ^ (e + 1074) ∧ 0 < (e + 1074) * 2 ^ 52 + Z.pos m).
  { intros ??? (A1&A2&A3)%num_valid_finite.
    assert (0 < 2 ^ (e + 1074)) by (apply Z.pow_pos_nonneg; lia). nia. }
  intros Va Vb Fa Fb. destruct a as [s1|s1| |s1 m1 e1], b as [s2|s2| |s2 m2 e2]; try done; cbn [fval okey].
  - destruct (Hp _ _ _ Vb). unfold sgn_of. destruct s2.
    + trans Gt; [|symmetry]; apply Z.compare_gt_iff; lia.
    + trans Lt; [|symmetry]; apply Z.compare_lt_iff; lia.
  - destruct (Hp _ _ _ Va). unfold sgn_of. destruct s1.
    + trans Lt; [|symmetry]; apply Z.compare_lt_iff; lia.
    + trans Gt; [|symmetry]; apply Z.compare_gt_iff; lia.
  - destruct (Hp _ _ _ Va), (Hp _ _ _ Vb). unfold sgn_of. destruct s1, s2.
    + rewrite !compare_opp. f_equal. by eapply Hmag.
    + trans Lt; [|symmetry]; apply Z.compare_lt_iff; lia.
    + trans Gt; [|symmetry]; apply Z.compare_gt_iff; lia.
    + by eapply Hmag.
Qed.

Lemma sub_compare x y k : 0 < k → (x - y ?= 0) = (x * k ?= y * k).
Proof.
  intros Hk. rewrite <-(Zmult_compare_compat_r _ _ k) by lia. by rewrite <-Z.compare_sub.
Qed.

Lemma sign_num_sub_finite a b :
  num_valid a → num_valid b → isFinite a = true → isFinite b = true →
  sign (num_sub a b) = (fval a ?= fval b).
Proof.
  intros Va Vb Fa Fb. destruct a as [s1|s1| |s1 m1 e1], b as [s2|s2| |s2 m2 e2]; try done.
  - by destruct s1, s2.
  - apply num_valid_finite in Vb as (?&_). cbn [fval].
    replace (sign (num_sub _ _)) with (if s2 then Gt else Lt) by (by destruct s1, s2).
    assert (0 < 2 ^ (e2 + 1074)) by (apply Z.pow_pos_nonneg; lia). unfold sgn_of.
    destruct s2; symmetry; [apply Z.compare_gt_iff|apply Z.compare_lt_iff]; nia.
  - apply num_valid_finite in Va as (?&_). cbn [fval].
    replace (sign (num_sub _ _)) with (if s1 then Lt else Gt) by (by destruct s1, s2).
    assert (0 < 2 ^ (e1 + 1074)) by (apply Z.pow_pos_nonneg; lia). unfold sgn_of.
    destruct s1; symmetry; [apply Z.compare_lt_iff|apply Z.compare_gt_iff]; nia.
  - apply num_valid_finite in Va as (?&_), Vb as (?&_).
    cbn [num_sub SFsub]. rewrite sign_binary_normalize by lia.
    rewrite (sub_compare _ _ (2 ^ (Z.min e1 e2 + 1074))) by (apply Z.pow_pos_nonneg; lia).
    assert (Hc : ∀ s m e, Z.min e1 e2 ≤ e →
      cond_Zopp s (Z.pos (fst (shl_align m e (Z.min e1 e2)))) * 2 ^ (Z.min e1 e2 + 1074)
      = fval (S754_finite s m e)).
    { intros s m e He. simpl fval. unfold cond_Zopp, sgn_of. rewrite shl_align_val by done.
      replace (e + 1074) with ((e - Z.min e1 e2) + (Z.min e1 e2 + 1074)) by lia.
      rewrite (Z.pow_add_r 2 (e - _)) by lia. destruct s; lia. }
    by rewrite !Hc by lia.
Qed.

(** [compareNumbers] is the order of the keys: the float half of the codec contract. *)
Lemma compareNumbers_okey (a b : num) : compareNumbers a b = (okey a ?= okey b).
Proof.
  unfold compareNumbers. destruct a as [a Va], b as [b Vb]. cbn [sf]. destruct (isFinite a && isFinite b) eqn:F.
  { apply andb_true_iff in F as [Fa Fb]. rewrite <-fval_okey, <-sign_num_sub_finite by done.
    by destruct a, b. }
  assert (Hb : ∀ s m e, num_valid (S754_finite s m e) →
    - (2047 * 2 ^ 52) < okey (S754_finite s m e) < 2047 * 2 ^ 52).
  { intros s m e (A1&A2&A3)%num_valid_finite. simpl. unfold sgn_of. destruct s; lia. }
  destruct a as [s1|s1| |s1 m1 e1], b as [s2|s2| |s2 m2 e2]; try done;
    try (by destruct s1, s2); try (by destruct s1); try (by destruct s2).
  - pose proof (Hb _ _ _ Vb). destruct s1; symmetry; [apply Z.compare_lt_iff|apply Z.compare_gt_iff]; simpl okey in *; lia.
  - pose proof (Hb _ _ _ Vb). symmetry. apply Z.compare_gt_iff. simpl okey in *. lia.
  - pose proof (Hb _ _ _ Va). destruct s2; symmetry; [apply Z.compare_gt_iff|apply Z.compare_lt_iff]; simpl okey in *; lia.
  - pose proof (Hb _ _ _ Va). symmetry. apply Z.compare_lt_iff. simpl okey in *. lia.
Qed.

(** ** Bit patterns and keys *)

Definition sign_bit (n : spec_float) : bool :=
  match n with S754_zero s | S754_infinity s | S754_finite s _ _ => s | S754_nan => false end.

Lemma float64_bits_okey n :
  num_valid n → float64_bits n = if sign_bit n then 2 ^ 63 - okey n else okey n.
Proof.
  destruct n as [s|s| |s m e]; [by destruct s|by destruct s|done|]. intros (A1&A2&A3)%num_valid_finite.
  unfold float64_bits, okey, sign_bit, sgn_of. case (Z.ltb_spec (Z.pos m) (2 ^ 52)); intros.
  - destruct A3 as [?| ->]; [lia|]. destruct s; lia.
  - destruct s; lia.
Qed.

Lemma okey_bounds n :
  num_valid n → if sign_bit n then - (2 ^ 63) < okey n ≤ 0 else 0 ≤ okey n < 2 ^ 63.
Proof.
  destruct n as [s|s| |s m e]; [by destruct s|by destruct s|done|]. intros (A1&A2&A3)%num_valid_finite.
  unfold okey, sign_bit, sgn_of. destruct s; lia.
Qed.

Lemma float64_bits_range n : num_valid n → 0 ≤ float64_bits n < 2 ^ 64.
Proof.
  intros H. rewrite float64_bits_okey by done. pose proof (okey_bounds n H).
  destruct (sign_bit n); lia.
Qed.

(** [setFloat64] then [getFloat64] is the identity on numbers. *)
Lemma float64_bits_roundtrip n : num_valid n → float64_of_bits (float64_bits n) = n.
Proof.
  destruct n as [s|s| |s m e]; [by destruct s|by destruct s|done|]. intros (A1&A2&A3)%num_valid_finite.
  assert (Hs : ∀ mag, 0 ≤ mag < 2 ^ 63 → let w := (if s then 2 ^ 63 else 0) + mag in
             (2 ^ 63 <=? w) = s ∧ w mod 2 ^ 63 = mag).
  { intros mag Hm. destruct s; simpl.
    - split; [apply Z.leb_le; lia|]. symmetry. apply (Z.mod_unique _ _ 1); lia.
    - split; [apply Z.leb_gt; lia|]. by apply Z.mod_small. }
  unfold float64_bits. case (Z.ltb_spec (Z.pos m) (2 ^ 52)); intros Hm.
  - destruct A3 as [?| ->]; [lia|]. unfold float64_of_bits.
    destruct (Hs (Z.pos m)) as [-> ->]; [lia|].
    rewrite (Z.div_small _ (2 ^ 52)) by lia. rewrite (Z.mod_small _ (2 ^ 52)) by lia. done.
  - unfold float64_of_bits. rewrite <-Z.add_assoc.
    destruct (Hs ((e + 1075) * 2 ^ 52 + (Z.pos m - 2 ^ 52))) as [-> ->]; [lia|].
    rewrite Z.div_add_l, (Z.div_small (Z.pos m - 2 ^ 52)) by lia.
    rewrite (Z.add_comm ((e + 1075) * 2 ^ 52)), Z.mod_add, Z.mod_small by lia.
    rewrite Z.add_0_r. case (Z.eqb_spec (e + 1075) 2047); [lia|intros _].
    case (Z.eqb_spec (e + 1075) 0); [lia|intros _].
    replace (Z.pos m - 2 ^ 52 + 2 ^ 52) with (Z.pos m) by lia.
    by replace (e + 1075 - 1075) with e by lia.
Qed.

Lemma float64_of_bits_valid w : 0 ≤ w < 2 ^ 64 → num_valid (float64_of_bits w).
Proof.
  intros Hw. unfold float64_of_bits.
  pose proof (Z.mod_pos_bound w (2 ^ 63) ltac:(lia)) as Hm. set (mag := w mod 2 ^ 63) in *.
  pose proof (Z.mod_pos_bound mag (2 ^ 52) ltac:(lia)) as Hf. set (fr := mag mod 2 ^ 52) in *.
  assert (He : 0 ≤ mag / 2 ^ 52 < 2048).
  { split; [apply Z.div_pos; lia|]. apply Z.div_lt_upper_bound; lia. }
  set (ex := mag / 2 ^ 52) in *.
  assert (Hvalid : ∀ s m e, -1074 ≤ e ≤ 971 → Z.pos m < 2 ^ 53 → (2 ^ 52 ≤ Z.pos m ∨ e = -1074) →
            num_valid (S754_finite s m e)).
  { intros s m e H1 H2 H3. unfold num_valid. simpl. unfold bounded, canonical_mantissa, fexp, emin.
    rewrite andb_true_iff, Z.eqb_eq, Z.leb_le, digits2_log2.
    assert (Z.log2 (Z.pos m) < 53) by (apply Z.log2_lt_pow2; lia).
    destruct H3 as [H3|H3]; [|pose proof (Z.log2_nonneg (Z.pos m)); lia].
    assert (52 ≤ Z.log2 (Z.pos m)) by (apply Z.log2_le_pow2; lia). lia. }
  case (Z.eqb_spec ex 2047); intros E1; [by destruct (fr =? 0)|].
  case (Z.eqb_spec ex 0); intros E2.
  - destruct fr as [|m|m] eqn:Ef; [done| |done]. apply Hvalid; lia.
  - destruct (fr + 2 ^ 52) as [|m|m] eqn:Ef; [done| |done]. apply Hvalid; lia.
Qed.

#[global] Instance compareNumbers_order : CmpOrder compareNumbers.
Proof.
  split; intros; rewrite ?compareNumbers_okey in *.
  - apply (cmp_refl _).
  - apply (cmp_opp _).
  - by apply (cmp_subst _).
  - by eapply (cmp_lt_trans _).
Qed.
