(* ===== verification/Values.v ===== *)
(** The value model of [packages/values/src/value.ts]: values, the UTF-8 encoding of strings, the
    canonical total order [compareValues], and the proof that it is a total preorder. *)
From S2P Require Import Prelude Numbers.

(** A JavaScript object is the list of its own entries in enumeration order, keys distinct. *)
Inductive value : Type :=
  | VNull
  | VBool (b : bool)
  | VNum (n : num)
  | VBig (z : Z)
  | VStr (s : jsstr)
  | VBytes (b : bytes)
  | VArr (l : list value)
  | VObj (kvs : list (jsstr * value)).

Section value_ind.
Variable P : value → Prop.
Hypothesis Hnull : P VNull.
Hypothesis Hbool : ∀ b, P (VBool b).
Hypothesis Hnum : ∀ n, P (VNum n).
Hypothesis Hbig : ∀ z, P (VBig z).
Hypothesis Hstr : ∀ s, P (VStr s).
Hypothesis Hbytes : ∀ b, P (VBytes b).
Hypothesis Harr : ∀ l, Forall P l → P (VArr l).
Hypothesis Hobj : ∀ kvs, Forall (λ kv, P kv.2) kvs → P (VObj kvs).

Fixpoint value_nested_ind (v : value) : P v :=
  match v with
  | VNull => Hnull
  | VBool b => Hbool b
  | VNum n => Hnum n
  | VBig z => Hbig z
  | VStr s => Hstr s
  | VBytes b => Hbytes b
  | VArr l =>
      Harr l ((fix go (l : list value) : Forall P l :=
                 match l with
                 | [] => Forall_nil_2 _
                 | x :: l' => Forall_cons_2 _ _ _ (value_nested_ind x) (go l')
                 end) l)
  | VObj kvs =>
      Hobj kvs ((fix go (l : list (jsstr * value)) : Forall (λ kv, P kv.2) l :=
                   match l with
                   | [] => Forall_nil_2 _
                   | kv :: l' => Forall_cons_2 _ _ _ (value_nested_ind kv.2) (go l')
                   end) kvs)
  end.
End value_ind.

(** ** [TextEncoder.encode]: UTF-16 code units to UTF-8 bytes, a lone surrogate becoming U+FFFD *)
Definition is_high_surrogate (u : Z) : bool := (0xD800 <=? u) && (u <=? 0xDBFF).
Definition is_low_surrogate (u : Z) : bool := (0xDC00 <=? u) && (u <=? 0xDFFF).

Definition utf8_bmp (u : Z) : bytes :=
  if u <? 0x80 then [u]
  else if u <? 0x800 then [0xC0 + u / 64; 0x80 + u mod 64]
  else if is_high_surrogate u || is_low_surrogate u then [0xEF; 0xBF; 0xBD]
  else [0xE0 + u / 4096; 0x80 + u / 64 mod 64; 0x80 + u mod 64].

Definition utf8_pair (hi lo : Z) : bytes :=
  let cp := 0x10000 + (hi - 0xD800) * 0x400 + (lo - 0xDC00) in
  [0xF0 + cp / 262144; 0x80 + cp / 4096 mod 64; 0x80 + cp / 64 mod 64; 0x80 + cp mod 64].

Fixpoint utf8_encode (s : jsstr) : bytes :=
  match s with
  | [] => []
  | u :: s' =>
      match s' with
      | v :: s'' =>
          if is_high_surrogate u && is_low_surrogate v then utf8_pair u v ++ utf8_encode s''
          else utf8_bmp u ++ utf8_encode s'
      | [] => utf8_bmp u
      end
  end.

(** ** Comparison of values *)
Definition typeRank (v : value) : Z :=
  match v with
  | VNull => 0 | VBool _ => 1 | VNum _ => 2 | VBig _ => 3
  | VStr _ => 4 | VBytes _ => 5 | VArr _ => 6 | VObj _ => 7
  end.

(** The byte loop: the first difference decides, then the lengths. *)
Fixpoint compareBytes (a b : bytes) : comparison :=
  match a, b with
  | [], [] => Eq
  | [], _ :: _ => Lt
  | _ :: _, [] => Gt
  | x :: a', y :: b' =>
      let d := x - y in
      if negb (d =? 0) then (if d <? 0 then Lt else Gt) else compareBytes a' b'
  end.

Definition compareKeysUtf8 (a b : jsstr) : comparison := compareBytes (utf8_encode a) (utf8_encode b).

Definition compareBool (a b : bool) : comparison := Z.b2z a - Z.b2z b ?= 0.

(** [Object.keys(o).sort(compareKeysUtf8)], each key with its payload. *)
Definition sort_entries {A} (kvs : list (jsstr * A)) : list (jsstr * A) :=
  sort_by (λ p q, compareKeysUtf8 p.1 q.1) kvs.

(** One step of the object loop: the keys first, then the values at the two keys. *)
Definition compareEntry {A B} (cmp : A → B → comparison) (p : jsstr * A) (q : jsstr * B) : comparison :=
  match compareKeysUtf8 p.1 q.1 with Eq => cmp p.2 q.2 | c => c end.

(** The recursion is on the first value: its children are first turned into comparison functions,
    which the sorted key loop of the object case then applies. *)
Fixpoint compareValues (a : value) : value → comparison :=
  let same (b : value) (k : comparison) : comparison :=
    let ra := typeRank a in let rb := typeRank b in
    if negb (ra =? rb) then (if ra <? rb then Lt else Gt) else k in
  match a with
  | VNull => λ b, same b Eq
  | VBool x => λ b, same b (match b with VBool y => compareBool x y | _ => Eq end)
  | VNum x => λ b, same b (match b with VNum y => compareNumbers x y | _ => Eq end)
  | VBig x => λ b, same b (match b with VBig y => x ?= y | _ => Eq end)
  | VStr x => λ b, same b (match b with VStr y => compareKeysUtf8 x y | _ => Eq end)
  | VBytes x => λ b, same b (match b with VBytes y => compareBytes x y | _ => Eq end)
  | VArr xs =>
      let fs := List.map compareValues xs in
      λ b, same b (match b with VArr ys => lexcmp (λ f y, f y) fs ys | _ => Eq end)
  | VObj xs =>
      let fs := sort_entries (List.map (λ kv, match kv with (k, v) => (k, compareValues v) end) xs) in
      λ b, same b (match b with
                   | VObj ys => lexcmp (compareEntry (λ f y, f y)) fs (sort_entries ys)
                   | _ => Eq
                   end)
  end.

Definition valuesEqual (a b : value) : bool := cmp_eqb (compareValues a b).

Definition isPlainObject (v : value) : bool := match v with VObj _ => true | _ => false end.

(** ** The order laws *)

Lemma compareBytes_lex a b : compareBytes a b = lexcmp Z.compare a b.
Proof.
  revert b; induction a as [|x a IH]; intros [|y b]; simpl; try done.
  case (Z.eqb_spec (x - y) 0); simpl; intros H.
  - replace y with x by lia. by rewrite Z.compare_refl.
  - case (Z.ltb_spec (x - y) 0); intros.
    + by rewrite (proj2 (Z.compare_lt_iff x y)) by lia.
    + by rewrite (proj2 (Z.compare_gt_iff x y)) by lia.
Qed.

#[global] Instance compareBytes_total : CmpTotal compareBytes.
Proof.
  split; [apply cmp_order_of_laws; intros a; split; intros|intros a b]; rewrite !compareBytes_lex in *.
  - apply (cmp_refl _).
  - apply (cmp_opp _).
  - by apply (cmp_subst _).
  - by apply (cmp_subst_r _).
  - by eapply (cmp_lt_trans _).
  - apply (cmp_eq _).
Qed.

(** Pulling an order back along a function. *)
Lemma cmp_on {A B} (f : A → B) (cmp : B → B → comparison) `{!CmpOrder cmp} :
  CmpOrder (λ x y, cmp (f x) (f y)).
Proof.
  split; intros.
  - apply (cmp_refl cmp).
  - apply (cmp_opp cmp).
  - by apply (cmp_subst cmp).
  - by eapply (cmp_lt_trans cmp).
Qed.

#[global] Instance compareKeysUtf8_order : CmpOrder compareKeysUtf8 := cmp_on utf8_encode compareBytes.

Lemma sort_entries_fmap {A B} (f : A → B) (kvs : list (jsstr * A)) :
  sort_entries ((λ kv, (kv.1, f kv.2)) <$> kvs) = (λ kv, (kv.1, f kv.2)) <$> sort_entries kvs.
Proof. exact (sort_by_fmap (λ kv, (kv.1, f kv.2)) (λ p q, compareKeysUtf8 p.1 q.1) kvs). Qed.

(** The comparison of two values of the same type. *)
Definition compareSame (a b : value) : comparison :=
  match a, b with
  | VBool x, VBool y => compareBool x y
  | VNum x, VNum y => compareNumbers x y
  | VBig x, VBig y => x ?= y
  | VStr x, VStr y => compareKeysUtf8 x y
  | VBytes x, VBytes y => compareBytes x y
  | VArr xs, VArr ys => lexcmp compareValues xs ys
  | VObj xs, VObj ys => lexcmp (compareEntry compareValues) (sort_entries xs) (sort_entries ys)
  | _, _ => Eq
  end.

Lemma compareValues_eq a b :
  compareValues a b = match typeRank a ?= typeRank b with Eq => compareSame a b | c => c end.
Proof.
  assert (Harr : ∀ xs ys, lexcmp (λ f y, f y) (List.map compareValues xs) ys = lexcmp compareValues xs ys).
  { intros. change (List.map compareValues xs) with (compareValues <$> xs). by rewrite lexcmp_map_l. }
  assert (Hobj : ∀ xs ys, lexcmp (compareEntry (λ f y, f y))
     (sort_entries (List.map (λ kv : jsstr * value, match kv with (k, v) => (k, compareValues v) end) xs)) ys
     = lexcmp (compareEntry compareValues) (sort_entries xs) ys).
  { intros. rewrite (List.map_ext _ (λ kv, (kv.1, compareValues kv.2))) by (by intros []).
    change (List.map (λ kv, (kv.1, compareValues kv.2)) xs) with ((λ kv, (kv.1, compareValues kv.2)) <$> xs).
    rewrite sort_entries_fmap, lexcmp_map_l. done. }
  destruct a, b; simpl; try done; by rewrite ?Harr, ?Hobj.
Qed.

(** Lexicographic composition of a total preorder with per-element laws. *)
Lemma compareEntry_law {A} (cmp : A → A → comparison) p :
  cmp_law cmp p.2 → cmp_law (compareEntry cmp) p.
Proof.
  intros [R O S SR T]. pose proof (cmp_laws compareKeysUtf8 p.1) as [R' O' S' SR' T'].
  unfold compareEntry. split.
  - by rewrite R'.
  - intros b. rewrite (O' b.1). destruct (compareKeysUtf8 p.1 b.1); simpl; auto.
  - intros b c. destruct (compareKeysUtf8 p.1 b.1) eqn:E; try done. intros H.
    rewrite (S' _ c.1 E). by rewrite (S _ c.2 H).
  - intros b c. destruct (compareKeysUtf8 b.1 c.1) eqn:E; try done. intros H.
    rewrite (SR' _ _ E). by rewrite (SR _ _ H).
  - intros b c. destruct (compareKeysUtf8 p.1 b.1) eqn:E1; [| |done].
    + rewrite (S' _ c.1 E1). destruct (compareKeysUtf8 b.1 c.1) eqn:E2; [|done|done]. apply T.
    + intros _. destruct (compareKeysUtf8 b.1 c.1) eqn:E2; [| |done]; intros _.
      * by rewrite <-(SR' _ _ E2), E1.
      * by rewrite (T' _ _ E1 E2).
Qed.

(** The laws of [compareSame a] against values of the type of [a]. *)
Record same_law (a : value) : Prop := {
  sl_refl : compareSame a a = Eq;
  sl_opp b : typeRank a = typeRank b → compareSame b a = CompOpp (compareSame a b);
  sl_subst b c : typeRank a = typeRank b → typeRank a = typeRank c →
    compareSame a b = Eq → compareSame a c = compareSame b c;
  sl_subst_r b c : typeRank a = typeRank b → typeRank a = typeRank c →
    compareSame b c = Eq → compareSame a b = compareSame a c;
  sl_trans b c : typeRank a = typeRank b → typeRank a = typeRank c →
    compareSame a b = Lt → compareSame b c = Lt → compareSame a c = Lt;
}.

#[global] Instance compareBool_order : CmpOrder compareBool.
Proof. split; intros; repeat match goal with b : bool |- _ => destruct b end; done. Qed.

Ltac same_by_law L :=
  destruct L as [R O S SR T]; split;
  [exact R
  |intros [] Hb; try discriminate Hb; exact (O _)
  |intros [] [] Hb Hc; try discriminate Hb; try discriminate Hc; exact (S _ _)
  |intros [] [] Hb Hc; try discriminate Hb; try discriminate Hc; exact (SR _ _)
  |intros [] [] Hb Hc; try discriminate Hb; try discriminate Hc; exact (T _ _)].

Lemma compareValues_law_of_same a : same_law a → cmp_law compareValues a.
Proof.
  intros [R O S SR T]. split; intros; rewrite !compareValues_eq in *.
  - by rewrite Z.compare_refl.
  - rewrite (Z.compare_antisym (typeRank b)). destruct (typeRank b ?= typeRank a) eqn:E; simpl; try done.
    apply O. symmetry. by apply Z.compare_eq.
  - destruct (typeRank a ?= typeRank b) eqn:E; try done. apply Z.compare_eq in E. rewrite <-E.
    destruct (typeRank a ?= typeRank c) eqn:E2; try done. apply Z.compare_eq in E2. by apply S.
  - destruct (typeRank b ?= typeRank c) eqn:E; try done. apply Z.compare_eq in E. rewrite <-E.
    destruct (typeRank a ?= typeRank b) eqn:E2; try done. apply Z.compare_eq in E2. apply SR; congruence.
  - destruct (typeRank a ?= typeRank b) eqn:E; [| |done].
    + apply Z.compare_eq in E. rewrite <-E in *.
      destruct (typeRank a ?= typeRank c) eqn:E2; try done. apply Z.compare_eq in E2.
      by apply (T b c).
    + apply (proj1 (Z.compare_lt_iff _ _)) in E. destruct (typeRank b ?= typeRank c) eqn:E2; [| |done].
      * apply Z.compare_eq in E2. by rewrite (proj2 (Z.compare_lt_iff (typeRank a) (typeRank c))) by lia.
      * apply (proj1 (Z.compare_lt_iff _ _)) in E2. by rewrite (proj2 (Z.compare_lt_iff (typeRank a) (typeRank c))) by lia.
Qed.

Lemma compareValues_law a : cmp_law compareValues a.
Proof.
  induction a as [|x|x|x|x|x|xs IH|xs IH] using value_nested_ind; apply compareValues_law_of_same.
  - split; [done|..]; intros; repeat match goal with v : value |- _ => destruct v end; done.
  - same_by_law (cmp_laws compareBool x).
  - same_by_law (cmp_laws compareNumbers x).
  - same_by_law (cmp_laws Z.compare x).
  - same_by_law (cmp_laws compareKeysUtf8 x).
  - same_by_law (cmp_laws compareBytes x).
  - same_by_law (lexcmp_law compareValues xs IH).
  - assert (L : Forall (cmp_law (compareEntry compareValues)) (sort_entries xs)).
    { unfold sort_entries. rewrite sort_by_perm. eapply Forall_impl; [exact IH|].
      intros p. apply compareEntry_law. }
    same_by_law (lexcmp_law _ _ L).
Qed.

#[global] Instance compareValues_order : CmpOrder compareValues.
Proof. apply cmp_order_of_laws, compareValues_law. Qed.

(** ** The order *)

(** [compareValues] is a total preorder on all values: reflexive, antisymmetric in its result
    (swapping the arguments swaps the result), transitive, and equivalent values are
    interchangeable on both sides; values of different types are never equivalent. *)
Theorem compareValues_total_preorder :
  (∀ a, compareValues a a = Eq) ∧
  (∀ a b, compareValues b a = CompOpp (compareValues a b)) ∧
  (∀ a b c, compareValues a b ≠ Gt → compareValues b c ≠ Gt → compareValues a c ≠ Gt) ∧
  (∀ a b c, compareValues a b = Eq → compareValues a c = compareValues b c ∧ compareValues c a = compareValues c b) ∧
  (∀ a b, typeRank a < typeRank b → compareValues a b = Lt).
Proof.
  split_and!.
  - apply (cmp_refl compareValues).
  - apply (cmp_opp compareValues).
  - intros a b c. apply (cmp_le_trans compareValues).
  - intros a b c H. split; [by apply (cmp_subst compareValues)|by apply (cmp_subst_r compareValues)].
  - intros a b H. by rewrite compareValues_eq, (proj2 (Z.compare_lt_iff _ _)).
Qed.
