(* ===== verification/Json.v ===== *)
(** The transport encoding of values: [packages/values/src/json.ts], with the base64 the code gets
    from [btoa]/[atob], and the round trip [jsonToConvex (convexToJson v) = v]. *)
From S2P Require Import Prelude Numbers Values.

(** ** [btoa] and [atob] *)
Definition b64_char (n : Z) : Z :=
  if n <? 26 then 65 + n
  else if n <? 52 then 97 + (n - 26)
  else if n <? 62 then 48 + (n - 52)
  else if n =? 62 then 43 else 47.

Definition b64_val (c : Z) : option Z :=
  if (65 <=? c) && (c <=? 90) then Some (c - 65)
  else if (97 <=? c) && (c <=? 122) then Some (c - 97 + 26)
  else if (48 <=? c) && (c <=? 57) then Some (c - 48 + 52)
  else if c =? 43 then Some 62
  else if c =? 47 then Some 63
  else None.

(** The unpadded characters of a byte string. *)
Fixpoint b64_chars (b : bytes) : jsstr :=
  match b with
  | x :: y :: z :: b' =>
      b64_char (x / 4) :: b64_char (x mod 4 * 16 + y / 16) ::
      b64_char (y mod 16 * 4 + z / 64) :: b64_char (z mod 64) :: b64_chars b'
  | [x; y] => [b64_char (x / 4); b64_char (x mod 4 * 16 + y / 16); b64_char (y mod 16 * 4)]
  | [x] => [b64_char (x / 4); b64_char (x mod 4 * 16)]
  | [] => []
  end.

Definition b64_padding (n : nat) : jsstr :=
  match Nat.modulo n 3 with O => [] | S O => [61; 61] | _ => [61] end.

Definition btoa (binary : jsstr) : jsstr := b64_chars binary ++ b64_padding (length binary).

Fixpoint drop_padding (s : jsstr) : jsstr :=
  if bool_decide (s = [61]) || bool_decide (s = [61; 61]) then []
  else match s with c :: s' => c :: drop_padding s' | [] => [] end.

(** Sextets to bytes; incomplete trailing bits are dropped. *)
Fixpoint b64_bytes (l : list Z) : bytes :=
  match l with
  | a :: b :: c :: d :: l' =>
      (a * 4 + b / 16) :: (b mod 16 * 16 + c / 4) :: (c mod 4 * 64 + d) :: b64_bytes l'
  | [a; b; c] => [a * 4 + b / 16; b mod 16 * 16 + c / 4]
  | [a; b] => [a * 4 + b / 16]
  | _ => []
  end.

Definition is_b64_space (c : Z) : bool :=
  (c =? 9) || (c =? 10) || (c =? 12) || (c =? 13) || (c =? 32).

Definition atob (s : jsstr) : res jsstr :=
  let s1 := List.filter (λ c, negb (is_b64_space c)) s in
  let s2 := if Nat.eqb (Nat.modulo (length s1) 4) 0 then drop_padding s1 else s1 in
  if Nat.eqb (Nat.modulo (length s2) 4) 1 then Err DOMException
  else match mapM b64_val s2 with Some l => Ok (b64_bytes l) | None => Err DOMException end.

(** [bytesToBase64]: one character per byte, then [btoa]. [base64ToBytes]: [atob], then one byte
    per character. *)
Definition bytesToBase64 (b : bytes) : jsstr := btoa b.
Definition base64ToBytes (s : jsstr) : res bytes := atob s.

(** ** Words *)
Definition asUintN64 (x : Z) : Z := x mod 2 ^ 64.
Definition asIntN64 (x : Z) : Z := let y := x mod 2 ^ 64 in if y <? 2 ^ 63 then y else y - 2 ^ 64.

Definition int64ToBytes (v : Z) : bytes := le_bytes 8 (asUintN64 v).

(** [BigInt(bytes[i])] of a missing byte throws; bytes beyond the eighth are ignored. *)
Definition bytesToInt64 (b : bytes) : res Z :=
  if (length b <? 8)%nat then Err TypeError else Ok (asIntN64 (le_int (take 8 b))).

Definition float64ToBytes (n : num) : bytes := le_bytes 8 (float64_bits n).

(** A [DataView] of eight bytes over a shorter buffer throws. *)
Definition bytesToFloat64 (b : bytes) : res num :=
  if (length b <? 8)%nat then Err RangeError else Ok (mknum (float64_of_bits (le_int (take 8 b)))).

(** ** JSON values and the two conversions *)
Inductive json : Type :=
  | JNull
  | JBool (b : bool)
  | JNum (n : num)
  | JStr (s : jsstr)
  | JArr (l : list json)
  | JObj (kvs : list (jsstr * json)).

#[global] Instance json_eq_dec : EqDecision json.
Proof.
  refine (fix go (a b : json) : Decision (a = b) :=
    match a, b with
    | JNull, JNull => left eq_refl
    | JBool x, JBool y => cast_if (decide (x = y))
    | JNum x, JNum y => cast_if (decide (x = y))
    | JStr x, JStr y => cast_if (decide (x = y))
    | JArr x, JArr y => cast_if (@list_eq_dec json go x y)
    | JObj x, JObj y => cast_if (@list_eq_dec (jsstr * json) (@prod_eq_dec jsstr _ json go) x y)
    | _, _ => right _
    end); clear go; congruence.
Defined.

Definition escapeKey (k : jsstr) : jsstr := if starts_with (js "$") k then 36 :: k else k.
Definition unescapeKey (k : jsstr) : jsstr := if starts_with (js "$$") k then tail k else k.

(** [setObjectKey] creates or overwrites an own property. *)
Definition setObjectKey {A} (o : list (jsstr * A)) (k : jsstr) (v : A) : list (jsstr * A) := jm_set o k v.

Fixpoint convexToJson (v : value) : json :=
  match v with
  | VNull => JNull
  | VBool b => JBool b
  | VStr s => JStr s
  | VNum n =>
      if isFinite n then JNum n else JObj [(js "$float", JStr (bytesToBase64 (float64ToBytes n)))]
  | VBig z => JObj [(js "$integer", JStr (bytesToBase64 (int64ToBytes z)))]
  | VBytes b => JObj [(js "$bytes", JStr (bytesToBase64 b))]
  | VArr l => JArr (List.map convexToJson l)
  | VObj kvs =>
      JObj (fold_left (λ out kv, setObjectKey out kv.1 kv.2)
              (List.map (λ kv, match kv with (k, v) => (escapeKey k, convexToJson v) end) kvs) [])
  end.

(** The single-key tagged objects. *)
Definition decodeTagged (k : jsstr) (raw : json) : option (res value) :=
  match raw with
  | JStr s =>
      if decide (k = js "$integer") then
        Some (let! b := base64ToBytes s in let! z := bytesToInt64 b in Ok (VBig z))
      else if decide (k = js "$float") then
        Some (let! b := base64ToBytes s in let! n := bytesToFloat64 b in Ok (VNum n))
      else if decide (k = js "$bytes") then Some (let! b := base64ToBytes s in Ok (VBytes b))
      else None
  | _ => None
  end.

Fixpoint jsonToConvex (j : json) : res value :=
  match j with
  | JNull => Ok VNull
  | JBool b => Ok (VBool b)
  | JNum n => Ok (VNum n)
  | JStr s => Ok (VStr s)
  | JArr l => let! vs := traverse jsonToConvex l in Ok (VArr vs)
  | JObj kvs =>
      let plain :=
        let! entries := traverse (λ kv, match kv with (k, v) =>
                                   let! w := jsonToConvex v in Ok (unescapeKey k, w) end) kvs in
        Ok (VObj (fold_left (λ out kv, setObjectKey out kv.1 kv.2) entries [])) in
      match kvs with
      | [(k, raw)] => match decodeTagged k raw with Some r => r | None => plain end
      | _ => plain
      end
  end.

Definition units_okb (s : jsstr) : bool := forallb (λ u, (0 <=? u) && (u <? 65536)) s.

(** The values of the program: int64 bigints, strings of 16-bit units, byte strings of bytes,
    objects with distinct keys. *)
Fixpoint value_okb (v : value) : bool :=
  match v with
  | VStr s => units_okb s
  | VBig z => (- 2 ^ 63 <=? z) && (z <? 2 ^ 63)
  | VBytes b => forallb (λ x, (0 <=? x) && (x <? 256)) b
  | VArr l => forallb value_okb l
  | VObj kvs =>
      bool_decide (NoDup kvs.*1) &&
      forallb (λ kv, match kv with (k, v) => units_okb k && value_okb v end) kvs
  | _ => true
  end.

(** ** Base64 round trip *)

Lemma b64_val_char n : 0 ≤ n < 64 → b64_val (b64_char n) = Some n ∧ b64_char n ≠ 61 ∧ is_b64_space (b64_char n) = false.
Proof.
  intros Hn.
  assert (H : forallb (λ k, let n := Z.of_nat k in
     bool_decide (b64_val (b64_char n) = Some n) && bool_decide (b64_char n ≠ 61)
     && negb (is_b64_space (b64_char n))) (seq 0 64) = true) by (vm_compute; done).
  rewrite forallb_forall in H. specialize (H (Z.to_nat n)). cbv zeta in H.
  rewrite Z2Nat.id in H by lia.
  specialize (H ltac:(apply in_seq; lia)).
  apply andb_true_iff in H as [[H1 H2]%andb_true_iff H3].
  apply bool_decide_eq_true in H1, H2. apply negb_true_iff in H3. done.
Qed.

Lemma b64_val_char_eq n : 0 ≤ n < 64 → b64_val (b64_char n) = Some n.
Proof. intros. by apply b64_val_char. Qed.

(** Induction in steps of three. *)
Lemma list_ind3 {A} (P : list A → Prop) :
  P [] → (∀ x, P [x]) → (∀ x y, P [x; y]) → (∀ x y z l, P l → P (x :: y :: z :: l)) → ∀ l, P l.
Proof.
  intros H0 H1 H2 H3. fix IH 1. intros [|x [|y [|z l]]]; [done|apply H1|apply H2|].
  apply H3, IH.
Qed.

Definition b64_ok (c : Z) : Prop := is_Some (b64_val c) ∧ c ≠ 61 ∧ is_b64_space c = false.

Ltac Z_divmod := Z.to_euclidean_division_equations; nia.

Lemma b64_char_ok n : 0 ≤ n < 64 → b64_ok (b64_char n).
Proof. intros H. destruct (b64_val_char n H) as (E & ? & ?). split; [by rewrite E|done]. Qed.

Lemma b64_chars_spec b :
  Forall is_byte b →
  Forall b64_ok (b64_chars b) ∧
  (∃ l, mapM b64_val (b64_chars b) = Some l ∧ b64_bytes l = b) ∧
  (length (b64_chars b) + length (b64_padding (length b)) = 4 * ((length b + 2) / 3))%nat ∧
  length (b64_padding (length b)) = (match Nat.modulo (length b) 3 with O => 0 | S O => 2 | _ => 1 end)%nat.
Proof.
  induction b as [|x|x y|x y z b IH] using list_ind3; intros Hb.
  - split_and!; [constructor|by exists []|done|done].
  - apply Forall_cons in Hb as [Hx _]. unfold is_byte in Hx.
    assert (0 ≤ x / 4 < 64) by Z_divmod. assert (0 ≤ x mod 4 * 16 < 64) by Z_divmod.
    simpl. split_and!; [repeat constructor; by apply b64_char_ok| |done|done].
    exists [x / 4; x mod 4 * 16].
    rewrite !b64_val_char_eq by done. simpl. split; [done|]. f_equal. Z_divmod.
  - apply Forall_cons in Hb as [Hx [Hy _]%Forall_cons]. unfold is_byte in *.
    assert (0 ≤ x / 4 < 64) by Z_divmod. assert (0 ≤ x mod 4 * 16 + y / 16 < 64) by Z_divmod.
    assert (0 ≤ y mod 16 * 4 < 64) by Z_divmod.
    simpl. split_and!; [repeat constructor; by apply b64_char_ok| |done|done].
    exists [x / 4; x mod 4 * 16 + y / 16; y mod 16 * 4].
    rewrite !b64_val_char_eq by done. simpl. split; [done|]. repeat f_equal; Z_divmod.
  - apply Forall_cons in Hb as [Hx [Hy [Hz Hb]%Forall_cons]%Forall_cons]. unfold is_byte in *.
    destruct (IH Hb) as (IH1 & (l & IH2 & IH3) & IH4 & IH5).
    assert (0 ≤ x / 4 < 64) by Z_divmod. assert (0 ≤ x mod 4 * 16 + y / 16 < 64) by Z_divmod.
    assert (0 ≤ y mod 16 * 4 + z / 64 < 64) by Z_divmod. assert (0 ≤ z mod 64 < 64) by Z_divmod.
    assert (Hmod : (length (x :: y :: z :: b) mod 3 = length b mod 3)%nat).
    { simpl length. replace (S (S (S (length b)))) with (length b + 1 * 3)%nat by lia.
      by rewrite Nat.Div0.mod_add. }
    assert (Hpad : b64_padding (length (x :: y :: z :: b)) = b64_padding (length b)).
    { unfold b64_padding. by rewrite Hmod. }
    rewrite Hpad, Hmod. cbn [b64_chars]. split_and!.
    + repeat (constructor; [by apply b64_char_ok|]). done.
    + exists (x / 4 :: x mod 4 * 16 + y / 16 :: y mod 16 * 4 + z / 64 :: z mod 64 :: l).
      simpl. rewrite !b64_val_char_eq by done. simpl. rewrite IH2. simpl. split; [done|].
      rewrite IH3. repeat f_equal; Z_divmod.
    + simpl length. replace (S (S (S (length b))) + 2)%nat with ((length b + 2) + 1 * 3)%nat by lia.
      rewrite Nat.div_add by done. lia.
    + done.
Qed.

Lemma drop_padding_app l pad :
  Forall (λ c, c ≠ 61) l → pad = [] ∨ pad = [61] ∨ pad = [61; 61] → drop_padding (l ++ pad) = l.
Proof.
  intros Hl Hpad. induction Hl as [|c l Hc _ IH]; simpl.
  - destruct Hpad as [->|[->| ->]]; done.
  - rewrite !bool_decide_eq_false_2 by (intros [=]; done). simpl. by rewrite IH.
Qed.

Lemma b64_padding_cases n : b64_padding n = [] ∨ b64_padding n = [61] ∨ b64_padding n = [61; 61].
Proof. unfold b64_padding. destruct (Nat.modulo n 3) as [|[|]]; auto. Qed.

Lemma filter_all {A} (p : A → bool) l : Forall (λ x, p x = true) l → List.filter p l = l.
Proof. induction 1 as [|x l Hx _ IH]; simpl; [done|]. by rewrite Hx, IH. Qed.

Lemma base64_roundtrip b : Forall is_byte b → base64ToBytes (bytesToBase64 b) = Ok b.
Proof.
  intros Hb. destruct (b64_chars_spec b Hb) as (Hok & (l & Hm & Hl) & Hlen & Hpl).
  unfold base64ToBytes, bytesToBase64, atob, btoa.
  assert (Hf : List.filter (λ c, negb (is_b64_space c)) (b64_chars b ++ b64_padding (length b))
               = b64_chars b ++ b64_padding (length b)).
  { apply filter_all. apply Forall_app. split.
    - eapply Forall_impl; [exact Hok|]. by intros c (_ & _ & ->).
    - destruct (b64_padding_cases (length b)) as [->|[->| ->]]; repeat constructor. }
  rewrite Hf, length_app, Hlen, Nat.mul_comm, Nat.Div0.mod_mul. cbn [Nat.eqb].
  rewrite drop_padding_app.
  2:{ eapply Forall_impl; [exact Hok|]. by intros c (_ & ? & _). }
  2:{ apply b64_padding_cases. }
  rewrite Hm. assert (Nat.modulo (length (b64_chars b)) 4 ≠ 1)%nat as Hn1.
  { destruct (Nat.modulo (length b) 3) as [|[|]]; rewrite Hpl in Hlen;
      remember ((length b + 2) / 3)%nat as k; intros Hbad;
      pose proof (Nat.div_mod_eq (length (b64_chars b)) 4); lia. }
  destruct (Nat.eqb_spec (Nat.modulo (length (b64_chars b)) 4) 1); [done|]. by rewrite Hl.
Qed.

(** ** The round trip *)

Lemma escapeKey_inj : Inj (=) (=) escapeKey.
Proof.
  intros k1 k2. unfold escapeKey.
  destruct (starts_with (js "$") k1) eqn:E1, (starts_with (js "$") k2) eqn:E2; naive_solver.
Qed.

Lemma unescape_escape k : unescapeKey (escapeKey k) = k.
Proof.
  unfold escapeKey, unescapeKey. destruct k as [|c k]; [done|].
  destruct (starts_with (js "$") (c :: k)) eqn:E.
  - cbn [js starts_with] in *. rewrite andb_true_r in E. apply Z.eqb_eq in E as <-.
    by destruct k.
  - cbn [js starts_with] in *. rewrite andb_true_r in E. by rewrite E.
Qed.

Lemma escapeKey_tag k t : escapeKey k ≠ 36 :: 98 :: t ∧ escapeKey k ≠ 36 :: 105 :: t ∧ escapeKey k ≠ 36 :: 102 :: t.
Proof.
  unfold escapeKey. change (js "$") with [36]. destruct k as [|c k]; [done|].
  cbn [starts_with]. rewrite andb_true_r. case (Z.eqb_spec 36 c); intros Hc.
  - split_and!; congruence.
  - split_and!; congruence.
Qed.

Lemma decodeTagged_escaped k j : decodeTagged (escapeKey k) j = None.
Proof.
  destruct j; try done. unfold decodeTagged.
  destruct (escapeKey_tag k (js "ytes")) as (H1 & _ & _).
  destruct (escapeKey_tag k (js "nteger")) as (_ & H2 & _).
  destruct (escapeKey_tag k (js "loat")) as (_ & _ & H3).
  by rewrite !decide_False.
Qed.

Lemma int64_roundtrip z : - 2 ^ 63 ≤ z < 2 ^ 63 → bytesToInt64 (int64ToBytes z) = Ok z.
Proof.
  intros Hz. unfold bytesToInt64, int64ToBytes. rewrite length_le_bytes. cbn [Nat.ltb Nat.leb].
  rewrite firstn_all2 by (by rewrite length_le_bytes). f_equal.
  pose proof (Z.mod_pos_bound z (2 ^ 64) ltac:(lia)).
  rewrite le_int_bytes by (unfold asUintN64; lia). unfold asIntN64, asUintN64.
  rewrite Z.mod_mod by lia. destruct (decide (0 ≤ z)).
  - rewrite Z.mod_small by lia. by rewrite (proj2 (Z.ltb_lt _ _)) by lia.
  - assert (z mod 2 ^ 64 = z + 2 ^ 64) as ->.
    { symmetry. apply (Z.mod_unique _ _ (-1)); lia. }
    rewrite (proj2 (Z.ltb_ge _ _)) by lia. lia.
Qed.

Lemma float64_roundtrip n : bytesToFloat64 (float64ToBytes n) = Ok n.
Proof.
  unfold bytesToFloat64, float64ToBytes. rewrite length_le_bytes. cbn [Nat.ltb Nat.leb].
  rewrite firstn_all2 by (by rewrite length_le_bytes). f_equal.
  rewrite le_int_bytes by (apply float64_bits_range, num_ok).
  apply num_eq. rewrite float64_bits_roundtrip by apply num_ok. apply mknum_valid, num_ok.
Qed.

Lemma forallb_Forall {A} (p : A → bool) l : forallb p l = true ↔ Forall (λ x, p x = true) l.
Proof. rewrite forallb_forall, Forall_forall. setoid_rewrite list_elem_of_In. done. Qed.

Lemma value_ok_bytes b : value_okb (VBytes b) = true → Forall is_byte b.
Proof.
  simpl. rewrite forallb_Forall. intros H. eapply Forall_impl; [exact H|].
  intros x. rewrite andb_true_iff, Z.leb_le, Z.ltb_lt. done.
Qed.

Lemma convexToJson_obj kvs :
  NoDup kvs.*1 →
  convexToJson (VObj kvs) = JObj ((λ kv, (escapeKey kv.1, convexToJson kv.2)) <$> kvs).
Proof.
  intros Hnd. cbn [convexToJson]. f_equal.
  rewrite (List.map_ext _ (λ kv, (escapeKey kv.1, convexToJson kv.2))) by (by intros []).
  apply (jm_of_list_nodup). rewrite <-list_fmap_compose.
  apply (NoDup_fmap_2 (Inj0 := escapeKey_inj) escapeKey) in Hnd. by rewrite <-list_fmap_compose in Hnd.
Qed.

Lemma jsonToConvex_convexToJson v : value_okb v = true → jsonToConvex (convexToJson v) = Ok v.
Proof.
  induction v as [|b|n|z|s|b|l IH|kvs IH] using value_nested_ind; intros Hok; try done.
  - cbn [convexToJson]. destruct (isFinite n); [done|].
    cbn -[bytesToBase64 base64ToBytes float64ToBytes]. rewrite base64_roundtrip by apply le_bytes_byte.
    cbn [res_bind]. by rewrite float64_roundtrip.
  - simpl in Hok. apply andb_true_iff in Hok as [H1%Z.leb_le H2%Z.ltb_lt].
    cbn -[bytesToBase64 base64ToBytes int64ToBytes]. rewrite base64_roundtrip by apply le_bytes_byte.
    cbn [res_bind]. by rewrite int64_roundtrip.
  - apply value_ok_bytes in Hok. cbn -[bytesToBase64 base64ToBytes]. by rewrite base64_roundtrip.
  - cbn [convexToJson jsonToConvex]. simpl in Hok. rewrite forallb_Forall in Hok.
    assert (H : traverse jsonToConvex (List.map convexToJson l) = Ok l).
    { clear -IH Hok. induction l as [|x l IHl]; simpl; [done|].
      apply Forall_cons in IH as [Hx IH], Hok as [Ox Hok]. rewrite Hx by done. simpl.
      by rewrite IHl. }
    by rewrite H.
  - cbn [value_okb] in Hok. apply andb_true_iff in Hok as [Hnd Hok]. apply bool_decide_eq_true in Hnd.
    rewrite convexToJson_obj by done.
    assert (Ht : traverse (λ kv : jsstr * json, match kv with (k, v) =>
                   let! w := jsonToConvex v in Ok (unescapeKey k, w) end)
                   ((λ kv, (escapeKey kv.1, convexToJson kv.2)) <$> kvs) = Ok kvs).
    { clear Hnd. rewrite forallb_Forall in Hok. induction kvs as [|[k w] kvs IHk]; csimpl; [done|].
      apply Forall_cons in IH as [Hx IH], Hok as [Ox Hok]. simpl in Hx.
      apply andb_true_iff in Ox as [_ Ox]. rewrite Hx by done. csimpl.
      rewrite unescape_escape. by rewrite IHk. }
    assert (Hplain : (let! entries := traverse (λ kv : jsstr * json, match kv with (k, v) =>
                   let! w := jsonToConvex v in Ok (unescapeKey k, w) end)
                   ((λ kv, (escapeKey kv.1, convexToJson kv.2)) <$> kvs) in
       Ok (VObj (fold_left (λ out kv, setObjectKey out kv.1 kv.2) entries []))) = Ok (VObj kvs)).
    { rewrite Ht. cbn [res_bind]. do 2 f_equal. by apply jm_of_list_nodup. }
    destruct kvs as [|[k w] [|kv2 kvs]]; [done| |exact Hplain].
    cbn [fmap list_fmap jsonToConvex fst snd] in *. rewrite decodeTagged_escaped. exact Hplain.
Qed.

(** C36: decoding the transport form of a value gives the value back, bit for bit: int64 bigints,
    every float64 (NaN, infinities and -0 included), byte strings, and objects whose keys need
    escaping. *)
Theorem json_roundtrip v : value_okb v = true → jsonToConvex (convexToJson v) = Ok v.
Proof. apply jsonToConvex_convexToJson. Qed.

Lemma json_roundtrip_witness :
  let v := VObj [(js "$a", VBig (-5)); (js "b", VArr [VNum (mknum S754_nan); VBytes [0; 255]])] in
  jsonToConvex (convexToJson v) = Ok v.
Proof. cbv zeta. apply json_roundtrip. by vm_compute. Defined.
