(* ===== verification/Validators.v ===== *)
(** Runtime validators and schema builders of [packages/values/src]: the concrete validators and
    their [check] ([validator.ts]), their JSON form and its inverse ([validator-from-json.ts]), and the
    table builder ([schema.ts]). The failures [check] pushes are the list it returns, in push order;
    a message is a template with its arguments. *)
From S2P Require Import Prelude Numbers Values Json.

(** ** Validators *)
Inductive validator : Type :=
  | NullValidator
  | BooleanValidator
  | Float64Validator
  | Int64Validator
  | StringValidator
  | BytesValidator
  | AnyValidator
  | IdValidator (tableName : jsstr)
  | LiteralValidator (v : value)
  | ArrayValidator (element : validator)
  | RecordValidator (keys values : validator)
  | UnionValidator (members : list validator)
  | OptionalValidator (inner : validator)
  | ObjectValidator (fields : list (jsstr * validator)).

Section validator_ind.
Variable P : validator → Prop.
Hypothesis Hleaf : ∀ v, match v with
  | ArrayValidator _ | RecordValidator _ _ | UnionValidator _ | OptionalValidator _ | ObjectValidator _ => True
  | _ => P v end.
Hypothesis Harray : ∀ e, P e → P (ArrayValidator e).
Hypothesis Hrecord : ∀ k v, P k → P v → P (RecordValidator k v).
Hypothesis Hunion : ∀ ms, Forall P ms → P (UnionValidator ms).
Hypothesis Hoptional : ∀ v, P v → P (OptionalValidator v).
Hypothesis Hobject : ∀ fs, Forall (λ f, P f.2) fs → P (ObjectValidator fs).

Fixpoint validator_nested_ind (v : validator) : P v :=
  match v with
  | ArrayValidator e => Harray e (validator_nested_ind e)
  | RecordValidator k w => Hrecord k w (validator_nested_ind k) (validator_nested_ind w)
  | UnionValidator ms =>
      Hunion ms ((fix go (l : list validator) : Forall P l :=
                    match l with
                    | [] => Forall_nil_2 _
                    | x :: l' => Forall_cons_2 _ _ _ (validator_nested_ind x) (go l')
                    end) ms)
  | OptionalValidator w => Hoptional w (validator_nested_ind w)
  | ObjectValidator fs =>
      Hobject fs ((fix go (l : list (jsstr * validator)) : Forall (λ f, P f.2) l :=
                     match l with
                     | [] => Forall_nil_2 _
                     | f :: l' => Forall_cons_2 _ _ _ (validator_nested_ind f.2) (go l')
                     end) fs)
  | NullValidator => Hleaf NullValidator
  | BooleanValidator => Hleaf BooleanValidator
  | Float64Validator => Hleaf Float64Validator
  | Int64Validator => Hleaf Int64Validator
  | StringValidator => Hleaf StringValidator
  | BytesValidator => Hleaf BytesValidator
  | AnyValidator => Hleaf AnyValidator
  | IdValidator t => Hleaf (IdValidator t)
  | LiteralValidator x => Hleaf (LiteralValidator x)
  end.
End validator_ind.

(** ** Failures *)
Inductive message : Type :=
  | Expected (what : string)
  | ExpectedId (tableName : jsstr)
  | ExpectedLiteral (v : value)
  | NoUnionMember
  | MissingField
  | ExtraField.
Record ValidationFailure := { vf_path : jsstr; vf_message : message }.

Definition root_or (path : jsstr) : jsstr := match path with [] => js "<root>" | _ => path end.
Definition joinPath (path key : jsstr) : jsstr := match path with [] => key | _ => path ++ 46 :: key end.
Definition indexPath (path : jsstr) (i : nat) : jsstr :=
  root_or path ++ 91 :: string_of_int (Z.of_nat i) ++ [93].

Definition fail_at (path : jsstr) (m : message) : list ValidationFailure :=
  [{| vf_path := root_or path; vf_message := m |}].

Definition isOptional (v : validator) : bool := match v with OptionalValidator _ => true | _ => false end.

Fixpoint check (vd : validator) (x : value) (path : jsstr) {struct vd} : list ValidationFailure :=
  match vd with
  | NullValidator => match x with VNull => [] | _ => fail_at path (Expected "null") end
  | BooleanValidator => match x with VBool _ => [] | _ => fail_at path (Expected "boolean") end
  | Float64Validator => match x with VNum _ => [] | _ => fail_at path (Expected "number (float64)") end
  | Int64Validator => match x with VBig _ => [] | _ => fail_at path (Expected "bigint (int64)") end
  | StringValidator => match x with VStr _ => [] | _ => fail_at path (Expected "string") end
  | BytesValidator => match x with VBytes _ => [] | _ => fail_at path (Expected "bytes") end
  | AnyValidator => []
  | IdValidator t => match x with VStr _ => [] | _ => fail_at path (ExpectedId t) end
  | LiteralValidator v => if valuesEqual x v then [] else fail_at path (ExpectedLiteral v)
  | ArrayValidator element =>
      match x with
      | VArr l => concat (imap (λ i y, check element y (indexPath path i)) l)
      | _ => fail_at path (Expected "array")
      end
  | RecordValidator keys values =>
      match x with
      | VObj kvs => concat (List.map (λ kv, check keys (VStr kv.1) (joinPath path kv.1) ++
                                            check values kv.2 (joinPath path kv.1)) kvs)
      | _ => fail_at path (Expected "record object")
      end
  | UnionValidator members =>
      if existsb (λ m, match check m x path with [] => true | _ => false end) members then []
      else fail_at path NoUnionMember
  | OptionalValidator inner => check inner x path
  | ObjectValidator fields =>
      match x with
      | VObj kvs =>
          concat (List.map (λ f, match f with (key, fv) =>
            match jm_get kvs key with
            | None => if isOptional fv then [] else [{| vf_path := joinPath path key; vf_message := MissingField |}]
            | Some y => check fv y (joinPath path key)
            end end) fields) ++
          concat (List.map (λ kv, if jm_has fields kv.1 then []
                                  else [{| vf_path := joinPath path kv.1; vf_message := ExtraField |}]) kvs)
      | _ => fail_at path (Expected "object")
      end
  end.

Definition validate (vd : validator) (x : value) : list ValidationFailure := check vd x [].
Definition isValid (vd : validator) (x : value) : bool := Nat.eqb (length (validate vd x)) 0.

(** ** JSON form *)
Inductive ValidatorJSON : Type :=
  | VJNull | VJBoolean | VJNumber | VJBigint | VJString | VJBytes | VJAny
  | VJLiteral (v : json)
  | VJId (tableName : jsstr)
  | VJArray (v : ValidatorJSON)
  | VJRecord (keys values : ValidatorJSON)
  | VJUnion (v : list ValidatorJSON)
  | VJObject (v : list (jsstr * (ValidatorJSON * bool))).

(** [o[key] = v] on an object literal: assigning the key [__proto__] creates no own property. *)
Definition assign_key {A} (o : list (jsstr * A)) (k : jsstr) (v : A) : list (jsstr * A) :=
  if decide (k = js "__proto__") then o else jm_set o k v.

Definition assign_all {A} (kvs : list (jsstr * A)) : list (jsstr * A) :=
  fold_left (λ o kv, assign_key o kv.1 kv.2) kvs [].

Fixpoint toJSON (vd : validator) : ValidatorJSON :=
  match vd with
  | NullValidator => VJNull
  | BooleanValidator => VJBoolean
  | Float64Validator => VJNumber
  | Int64Validator => VJBigint
  | StringValidator => VJString
  | BytesValidator => VJBytes
  | AnyValidator => VJAny
  | IdValidator t => VJId t
  | LiteralValidator v => VJLiteral (convexToJson v)
  | ArrayValidator e => VJArray (toJSON e)
  | RecordValidator k v => VJRecord (toJSON k) (toJSON v)
  | UnionValidator ms => VJUnion (List.map toJSON ms)
  | OptionalValidator inner => toJSON inner
  | ObjectValidator fields =>
      VJObject (assign_all (List.map (λ f, match f with (key, fv) => (key, (toJSON fv, isOptional fv)) end) fields))
  end.

Fixpoint validatorFromJson (j : ValidatorJSON) : res validator :=
  match j with
  | VJNull => Ok NullValidator
  | VJBoolean => Ok BooleanValidator
  | VJNumber => Ok Float64Validator
  | VJBigint => Ok Int64Validator
  | VJString => Ok StringValidator
  | VJBytes => Ok BytesValidator
  | VJAny => Ok AnyValidator
  | VJId t => Ok (IdValidator t)
  | VJLiteral v => let! x := jsonToConvex v in Ok (LiteralValidator x)
  | VJArray v => let! e := validatorFromJson v in Ok (ArrayValidator e)
  | VJRecord k v => let! k' := validatorFromJson k in let! v' := validatorFromJson v in Ok (RecordValidator k' v')
  | VJUnion ms => let! ms' := traverse validatorFromJson ms in Ok (UnionValidator ms')
  | VJObject fs =>
      let! fields := traverse (λ f, match f with (key, (t, optional)) =>
          let! inner := validatorFromJson t in
          Ok (key, if (optional : bool) then OptionalValidator inner else inner) end) fs in
      Ok (ObjectValidator (assign_all fields))
  end.

(** ** Schema builders *)
Record IndexDefinition := { id_descriptor : jsstr; id_fields : list jsstr; id_unique : bool }.
Record SearchIndexDefinition := { si_descriptor : jsstr; si_searchField : jsstr; si_filterFields : list jsstr }.
Record VectorIndexDefinition := {
  vi_descriptor : jsstr; vi_vectorField : jsstr; vi_dimensions : num; vi_filterFields : list jsstr }.
Record Relation := { rl_name : jsstr; rl_table : jsstr; rl_field : jsstr }.

Record TableDefinition := {
  td_fields : list (jsstr * validator); td_indexes : list IndexDefinition; td_searchIndexes : list SearchIndexDefinition;
  td_vectorIndexes : list VectorIndexDefinition; td_shardKey : option jsstr; td_global : bool; td_relations : list Relation }.

Definition defineTable (fields : list (jsstr * validator)) : TableDefinition :=
  {| td_fields := fields; td_indexes := []; td_searchIndexes := []; td_vectorIndexes := []; td_shardKey := None;
     td_global := false; td_relations := [] |}.

Definition documentValidator (t : TableDefinition) : validator := ObjectValidator (td_fields t).

Definition td_index (t : TableDefinition) (name : jsstr) (fields : list jsstr) (unique : bool) : TableDefinition :=
  {| td_fields := td_fields t;
     td_indexes := td_indexes t ++ [{| id_descriptor := name; id_fields := fields; id_unique := unique |}];
     td_searchIndexes := td_searchIndexes t; td_vectorIndexes := td_vectorIndexes t; td_shardKey := td_shardKey t;
     td_global := td_global t; td_relations := td_relations t |}.

Definition td_searchIndex (t : TableDefinition) (name searchField : jsstr) (filterFields : option (list jsstr)) :
    TableDefinition :=
  {| td_fields := td_fields t; td_indexes := td_indexes t;
     td_searchIndexes := td_searchIndexes t ++
       [{| si_descriptor := name; si_searchField := searchField; si_filterFields := default [] filterFields |}];
     td_vectorIndexes := td_vectorIndexes t; td_shardKey := td_shardKey t; td_global := td_global t;
     td_relations := td_relations t |}.

Definition td_vectorIndex (t : TableDefinition) (name vectorField : jsstr) (dimensions : num)
    (filterFields : option (list jsstr)) : TableDefinition :=
  {| td_fields := td_fields t; td_indexes := td_indexes t; td_searchIndexes := td_searchIndexes t;
     td_vectorIndexes := td_vectorIndexes t ++
       [{| vi_descriptor := name; vi_vectorField := vectorField; vi_dimensions := dimensions;
           vi_filterFields := default [] filterFields |}];
     td_shardKey := td_shardKey t; td_global := td_global t; td_relations := td_relations t |}.

Definition shardKey (t : TableDefinition) (field : jsstr) : res TableDefinition :=
  if td_global t then Err (PlainError "a table cannot be both .shardKey() and .global() (global data is not sharded)")
  else Ok {| td_fields := td_fields t; td_indexes := td_indexes t; td_searchIndexes := td_searchIndexes t;
             td_vectorIndexes := td_vectorIndexes t; td_shardKey := Some field; td_global := td_global t;
             td_relations := td_relations t |}.

Definition global (t : TableDefinition) : res TableDefinition :=
  match td_shardKey t with
  | Some _ => Err (PlainError "a table cannot be both .global() and .shardKey() (global data is not sharded)")
  | None => Ok {| td_fields := td_fields t; td_indexes := td_indexes t; td_searchIndexes := td_searchIndexes t;
                  td_vectorIndexes := td_vectorIndexes t; td_shardKey := td_shardKey t; td_global := true;
                  td_relations := td_relations t |}
  end.

Definition relation (t : TableDefinition) (name table field : jsstr) : TableDefinition :=
  {| td_fields := td_fields t; td_indexes := td_indexes t; td_searchIndexes := td_searchIndexes t;
     td_vectorIndexes := td_vectorIndexes t; td_shardKey := td_shardKey t; td_global := td_global t;
     td_relations := td_relations t ++ [{| rl_name := name; rl_table := table; rl_field := field |}] |}.

Record TableDefinitionJSON := {
  tj_documentType : ValidatorJSON; tj_indexes : list IndexDefinition; tj_searchIndexes : list SearchIndexDefinition;
  tj_vectorIndexes : list VectorIndexDefinition; tj_shardKey : option jsstr; tj_global : bool;
  tj_relations : list Relation }.

Definition export_table (t : TableDefinition) : TableDefinitionJSON :=
  {| tj_documentType := toJSON (documentValidator t); tj_indexes := td_indexes t; tj_searchIndexes := td_searchIndexes t;
     tj_vectorIndexes := td_vectorIndexes t; tj_shardKey := td_shardKey t; tj_global := td_global t;
     tj_relations := td_relations t |}.

Record SchemaDefinitionJSON := { sj_tables : list (jsstr * TableDefinitionJSON); sj_schemaValidation : bool }.

Definition export_schema (tables : list (jsstr * TableDefinition)) (schemaValidation : option bool) : SchemaDefinitionJSON :=
  {| sj_tables := assign_all (List.map (λ t, (t.1, export_table t.2)) tables);
     sj_schemaValidation := default true schemaValidation |}.

(** ** What a validator accepts *)
Inductive typed : validator → value → Prop :=
  | ty_null : typed NullValidator VNull
  | ty_boolean b : typed BooleanValidator (VBool b)
  | ty_number n : typed Float64Validator (VNum n)
  | ty_bigint z : typed Int64Validator (VBig z)
  | ty_string s : typed StringValidator (VStr s)
  | ty_bytes b : typed BytesValidator (VBytes b)
  | ty_any x : typed AnyValidator x
  | ty_id t s : typed (IdValidator t) (VStr s)
  | ty_literal v x : compareValues x v = Eq → typed (LiteralValidator v) x
  | ty_array e l : Forall (typed e) l → typed (ArrayValidator e) (VArr l)
  | ty_record k v kvs : Forall (λ kv, typed k (VStr kv.1)) kvs → Forall (λ kv, typed v kv.2) kvs →
      typed (RecordValidator k v) (VObj kvs)
  | ty_union ms m x : m ∈ ms → typed m x → typed (UnionValidator ms) x
  | ty_optional v x : typed v x → typed (OptionalValidator v) x
  | ty_object fs kvs :
      (∀ key fv y, (key, fv) ∈ fs → jm_get kvs key = Some y → typed fv y) →
      (∀ key fv, (key, fv) ∈ fs → jm_get kvs key = None → isOptional fv = true) →
      (∀ key, key ∈ kvs.*1 → key ∈ fs.*1) →
      typed (ObjectValidator fs) (VObj kvs).

Lemma concat_nil {A} (ls : list (list A)) : concat ls = [] ↔ Forall (λ l, l = []) ls.
Proof.
  induction ls as [|l ls IH]; simpl; [done|]. rewrite Forall_cons, <-IH. split; [apply app_eq_nil|by intros [-> ->]].
Qed.

Lemma Forall_map_iff {A B} (f : A → B) (P : B → Prop) l : Forall P (List.map f l) ↔ Forall (λ x, P (f x)) l.
Proof. induction l as [|x l IH]; simpl; [done|]. by rewrite !Forall_cons, IH. Qed.

Lemma Forall_imap_iff {A B} (f : nat → A → B) (P : B → Prop) (Q : A → Prop) l :
  (∀ i x, P (f i x) ↔ Q x) → Forall P (imap f l) ↔ Forall Q l.
Proof.
  intros H. revert f H. induction l as [|x l IH]; intros f H; csimpl; [done|]. rewrite !Forall_cons, H.
  rewrite (IH (f ∘ Datatypes.S)); [done|]. intros i y. apply H.
Qed.

Lemma fail_at_nil path m : fail_at path m = [] ↔ False.
Proof. done. Qed.

Lemma jm_has_keys {A} (m : list (jsstr * A)) k : jm_has m k = true ↔ k ∈ m.*1.
Proof.
  unfold jm_has. rewrite bool_decide_eq_true. induction m as [|[k' v] m IH]; csimpl.
  - rewrite elem_of_nil. split; [by intros [? ?]|done].
  - rewrite elem_of_cons. case_decide; [naive_solver|]. rewrite IH. naive_solver.
Qed.

Lemma check_object fs kvs path : Forall (λ f, ∀ x path, check f.2 x path = [] ↔ typed f.2 x) fs →
  check (ObjectValidator fs) (VObj kvs) path = [] ↔ typed (ObjectValidator fs) (VObj kvs).
Proof.
  intros IH. rewrite Forall_forall in IH. cbn [check]. rewrite app_nil, !concat_nil, !Forall_map_iff, !Forall_forall. split.
  - intros [H1 H2]. constructor.
    + intros key fv y Hin Hy. specialize (H1 _ Hin). simpl in H1. rewrite Hy in H1. by apply (IH _ Hin) in H1.
    + intros key fv Hin Hn. specialize (H1 _ Hin). simpl in H1. rewrite Hn in H1. by destruct (isOptional fv).
    + intros key (kv & -> & Hin)%list_elem_of_fmap. specialize (H2 _ Hin). simpl in H2.
      destruct (jm_has fs kv.1) eqn:E; [|done]. by apply jm_has_keys.
  - inversion 1 as [| | | | | | | | | | | | |? ? H1 H2 H3]; subst. split.
    + intros [key fv] Hin. destruct (jm_get kvs key) as [y|] eqn:E; [apply (IH _ Hin); eauto|].
      by rewrite (H2 _ _ Hin E).
    + intros kv Hin. assert (Hk : kv.1 ∈ fs.*1) by (apply H3; by apply list_elem_of_fmap_2).
      by rewrite (proj2 (jm_has_keys fs kv.1) Hk).
Qed.

Lemma check_typed vd x path : check vd x path = [] ↔ typed vd x.
Proof.
  revert x path. apply (validator_nested_ind (λ vd, ∀ x path, check vd x path = [] ↔ typed vd x)); clear vd;
    [intros vd|intros e IH x path|intros kd vd IHk IHv x path|intros ms IH x path|intros vd IH x path|intros fs IH x path].
  - destruct vd; try exact I; intros x path; simpl; try (destruct x; split; (by intros H; inversion H) || constructor).
    unfold valuesEqual. split.
    + destruct (compareValues x v) eqn:E; try done. by constructor.
    + inversion 1 as [| | | | | | | |? ? E| | | | |]; subst. by rewrite E.
  - cbn [check]. destruct x; try (split; [done|by inversion 1]). rewrite concat_nil.
    rewrite (Forall_imap_iff _ _ (typed e)) by (intros i y; apply IH).
    split; [by constructor|]. by inversion 1.
  - cbn [check]. destruct x; try (split; [done|by inversion 1]). rewrite concat_nil, Forall_map_iff. split.
    + intros H. constructor; (eapply Forall_impl; [exact H|]); intros kv [H1 H2]%app_nil; [by eapply IHk|by eapply IHv].
    + inversion 1 as [| | | | | | | | | |? ? ? H1 H2| | |]; subst. rewrite Forall_forall in *. intros kv Hkv.
      apply app_nil. split; [apply IHk; auto|apply IHv; auto].
  - cbn [check]. rewrite Forall_forall in IH.
    assert (Hex : existsb (λ m, match check m x path with [] => true | _ => false end) ms = true ↔
      ∃ m, m ∈ ms ∧ typed m x).
    { rewrite existsb_exists. setoid_rewrite <-list_elem_of_In. split; intros (m & Hm & H); exists m; (split; [done|]).
      - apply (IH m Hm x path). by destruct (check m x path).
      - by apply (IH m Hm x path) in H as ->. }
    destruct (existsb _ ms).
    + split; [|done]. intros _. destruct (proj1 Hex eq_refl) as (m & Hm & Ht). by eapply ty_union.
    + split; [done|]. inversion 1 as [| | | | | | | | | | |? m ? Hm Ht| |]; subst.
      assert (false = true); [|done]. apply Hex. eauto.
  - cbn [check]. rewrite IH. split; [by constructor|by inversion 1].
  - destruct x; try (split; [done|by inversion 1]). by apply check_object.
Qed.

(** C38: validation is sound and complete. [isValid] answers whether the value has the declared type: the exact
    scalar kind, element-wise arrays, key- and value-wise records, some member of a union, and for
    objects every present field well-typed, every missing field optional and no undeclared field. *)
Theorem isValid_iff_typed vd x : isValid vd x = true ↔ typed vd x.
Proof.
  unfold isValid, validate. rewrite Nat.eqb_eq, <-(check_typed vd x []). destruct (check vd x []); simpl; split; done.
Qed.

(** ** The JSON form loses nothing *)

(** The validator the JSON form stands for: [optional] matters only on object fields. *)
Fixpoint norm (vd : validator) : validator :=
  match vd with
  | ArrayValidator e => ArrayValidator (norm e)
  | RecordValidator k v => RecordValidator (norm k) (norm v)
  | UnionValidator ms => UnionValidator (List.map norm ms)
  | OptionalValidator inner => norm inner
  | ObjectValidator fs =>
      ObjectValidator (List.map (λ f, match f with (key, fv) =>
        (key, if isOptional fv then OptionalValidator (norm fv) else norm fv) end) fs)
  | _ => vd
  end.

(** Literals the program can hold, and objects whose fields are distinct and none is [__proto__]. *)
Fixpoint validator_okb (vd : validator) : bool :=
  match vd with
  | LiteralValidator v => value_okb v
  | ArrayValidator e => validator_okb e
  | RecordValidator k v => validator_okb k && validator_okb v
  | UnionValidator ms => forallb validator_okb ms
  | OptionalValidator inner => validator_okb inner
  | ObjectValidator fs =>
      bool_decide (NoDup fs.*1) &&
      forallb (λ f, match f with (key, fv) => negb (bool_decide (key = js "__proto__")) && validator_okb fv end) fs
  | _ => true
  end.

Lemma assign_all_id {A} (kvs : list (jsstr * A)) : NoDup kvs.*1 → Forall (λ kv, kv.1 ≠ js "__proto__") kvs →
  assign_all kvs = kvs.
Proof.
  intros Hn Hp. unfold assign_all. transitivity (fold_left (λ o kv, jm_set o kv.1 kv.2) kvs []); [|by apply jm_of_list_nodup].
  generalize (@nil (jsstr * A)). clear Hn. induction Hp as [|kv kvs Hkv _ IH]; intros o; [done|]. simpl.
  unfold assign_key at 2. by rewrite decide_False.
Qed.

Lemma traverse_map {A B C} (f : B → res C) (g : A → B) (h : A → C) l :
  Forall (λ x, f (g x) = Ok (h x)) l → traverse f (List.map g l) = Ok (List.map h l).
Proof. induction 1 as [|x l Hx _ IH]; simpl; [done|]. rewrite Hx. simpl. by rewrite IH. Qed.

Lemma map_keys {A B} (g : jsstr * A → B) (l : list (jsstr * A)) : (List.map (λ f, (f.1, g f)) l).*1 = l.*1.
Proof. induction l as [|f l IH]; csimpl; [done|]. by rewrite IH. Qed.

Lemma validatorFromJson_toJSON vd : validator_okb vd = true → validatorFromJson (toJSON vd) = Ok (norm vd).
Proof.
  apply (validator_nested_ind (λ vd, validator_okb vd = true → validatorFromJson (toJSON vd) = Ok (norm vd))); clear vd;
    [intros vd|intros e IH|intros kd vd IHk IHv|intros ms IH|intros vd IH|intros fs IH].
  - destruct vd; try exact I; intros Hok; try done. simpl in *. by rewrite jsonToConvex_convexToJson.
  - intros Hok. simpl in *. by rewrite IH.
  - simpl. intros [H1 H2]%andb_true_iff. by rewrite IHk, IHv.
  - simpl. intros Hok. rewrite forallb_Forall in Hok.
    rewrite (traverse_map _ _ norm); [done|]. rewrite Forall_forall in *. auto.
  - simpl. auto.
  - cbn [validator_okb]. intros [Hn%bool_decide_eq_true Hok]%andb_true_iff. rewrite forallb_Forall, Forall_forall in Hok.
    rewrite Forall_forall in IH.
    assert (Hproto : Forall (λ f, f.1 ≠ js "__proto__") fs).
    { apply Forall_forall. intros [k fv] Hin. specialize (Hok _ Hin). simpl in Hok |- *.
      apply andb_true_iff in Hok as [Hk _]. apply negb_true_iff, bool_decide_eq_false in Hk. done. }
    cbn [toJSON]. rewrite (List.map_ext _ (λ f, (f.1, (toJSON f.2, isOptional f.2)))) by (by intros []).
    rewrite assign_all_id; [|by rewrite map_keys|by rewrite Forall_map_iff].
    cbn [validatorFromJson]. cbn [norm].
    rewrite (List.map_ext _ (λ f, (f.1, if isOptional f.2 then OptionalValidator (norm f.2) else norm f.2))) by (by intros []).
    rewrite (traverse_map _ _ (λ f, (f.1, if isOptional f.2 then OptionalValidator (norm f.2) else norm f.2))).
    + cbn [res_bind]. rewrite assign_all_id; [done|by rewrite map_keys|by rewrite Forall_map_iff].
    + apply Forall_forall. intros [k fv] Hin. specialize (Hok _ Hin). apply andb_true_iff in Hok as [_ Hfv].
      specialize (IH _ Hin Hfv). simpl in IH |- *. by rewrite IH.
Qed.

Lemma isOptional_norm fv : isOptional (if isOptional fv then OptionalValidator (norm fv) else norm fv) = isOptional fv.
Proof.
  destruct (isOptional fv) eqn:E; [done|]. destruct fv; done.
Qed.

Lemma concat_map_ext {A B} (f g : A → list B) l : Forall (λ x, f x = g x) l →
  concat (List.map f l) = concat (List.map g l).
Proof. induction 1 as [|x l Hx _ IH]; simpl; [done|]. by rewrite Hx, IH. Qed.

Lemma jm_has_map {A B} (g : jsstr * A → B) (l : list (jsstr * A)) k :
  jm_has (List.map (λ f, (f.1, g f)) l) k = jm_has l k.
Proof. apply eq_true_iff_eq. by rewrite !jm_has_keys, map_keys. Qed.

Lemma check_norm vd x path : check (norm vd) x path = check vd x path.
Proof.
  revert x path. apply (validator_nested_ind (λ vd, ∀ x path, check (norm vd) x path = check vd x path)); clear vd;
    [intros vd|intros e IH x path|intros kd vd IHk IHv x path|intros ms IH x path|intros vd IH x path|intros fs IH x path].
  - by destruct vd.
  - destruct x; try done. cbn [norm check]. f_equal. apply imap_ext. intros i y _. apply IH.
  - destruct x; try done. cbn [norm check]. apply concat_map_ext, Forall_forall. intros kv _. by rewrite IHk, IHv.
  - cbn [norm check]. enough (existsb (λ m, match check m x path with [] => true | _ => false end) (List.map norm ms) =
      existsb (λ m, match check m x path with [] => true | _ => false end) ms) as -> by done.
    induction IH as [|m ms Hm _ IHl]; simpl; [done|]. by rewrite Hm, IHl.
  - apply IH.
  - destruct x as [| | | | | | |kvs]; try done. cbn [norm check].
    rewrite (List.map_ext _ (λ f, (f.1, if isOptional f.2 then OptionalValidator (norm f.2) else norm f.2))) by (by intros []).
    f_equal.
    + rewrite List.map_map. apply concat_map_ext. rewrite Forall_forall in IH |- *. intros [k fv] Hin. simpl.
      destruct (jm_get kvs k) as [y|]; [|by rewrite isOptional_norm]. specialize (IH _ Hin). simpl in IH.
      destruct (isOptional fv); apply IH.
    + apply concat_map_ext, Forall_forall. intros kv _. by rewrite jm_has_map.
Qed.

(** A stored schema validates as the live one. Rebuilding a validator from its JSON form succeeds, and the
    rebuilt validator reports, for every value and path, exactly the failures of the original. *)
Theorem validator_json_roundtrip vd : validator_okb vd = true →
  ∃ vd', validatorFromJson (toJSON vd) = Ok vd' ∧ ∀ x path, check vd' x path = check vd x path.
Proof. intros Hok. exists (norm vd). split; [by apply validatorFromJson_toJSON|apply check_norm]. Qed.

Lemma validator_json_roundtrip_witness :
  let vd := ObjectValidator [(js "n", OptionalValidator (UnionValidator [Int64Validator; LiteralValidator (VBool true)]))] in
  ∃ vd', validatorFromJson (toJSON vd) = Ok vd' ∧ ∀ x path, check vd' x path = check vd x path.
Proof. cbv zeta. apply validator_json_roundtrip. by vm_compute. Defined.

(** ** Table builders *)
Inductive built : TableDefinition → Prop :=
  | built_new fields : built (defineTable fields)
  | built_index t name fields unique : built t → built (td_index t name fields unique)
  | built_search t name f filters : built t → built (td_searchIndex t name f filters)
  | built_vector t name f dims filters : built t → built (td_vectorIndex t name f dims filters)
  | built_shardKey t f t' : built t → shardKey t f = Ok t' → built t'
  | built_global t t' : built t → global t = Ok t' → built t'
  | built_relation t name table f : built t → built (relation t name table f).

(** an exported table is never both sharded and global, keeps the fields it was defined with, and the call
    that would make it both throws. *)
Theorem table_builder_exclusive t : built t →
  let j := export_table t in
  (tj_global j = true → tj_shardKey j = None) ∧
  tj_documentType j = toJSON (ObjectValidator (td_fields t)) ∧
  (is_Some (tj_shardKey j) → ∃ e, global t = Err e) ∧
  (∀ f, tj_global j = true → ∃ e, shardKey t f = Err e).
Proof.
  intros Hb. cbv zeta. assert (H : td_global t = true → td_shardKey t = None).
  { induction Hb as [| | | |t f t' Hb IH E|t t' Hb IH E|]; try done.
    - unfold shardKey in E. destruct (td_global t) eqn:Eg; [done|]. injection E as <-. simpl. congruence.
    - unfold global in E. destruct (td_shardKey t) eqn:Es; [done|]. by injection E as <-. }
  split_and!; [exact H|done| |].
  - intros [f Hf]. simpl in Hf. unfold global. rewrite Hf. by eexists.
  - intros f Hg. simpl in Hg. unfold shardKey. rewrite Hg. by eexists.
Qed.

Lemma table_builder_exclusive_witness : ∃ t, built t ∧ tj_shardKey (export_table t) = Some (js "room") ∧
  (tj_global (export_table t) = true → tj_shardKey (export_table t) = None).
Proof.
  assert (Hb : built (defineTable [(js "room", StringValidator)])) by constructor.
  eapply (built_shardKey _ (js "room")) in Hb; [|reflexivity].
  eexists. split; [exact Hb|]. split; [reflexivity|]. exact (proj1 (table_builder_exclusive _ Hb)).
Defined.
