(* ===== verification/IndexKeys.v ===== *)
(** Order-preserving index keys: [packages/index-key-codec/src/encode.ts]. The contract
    "byte order of encoded keys = value order" and the prefix ranges built on it. *)
From S2P Require Import Prelude Numbers Values Json.

Definition TAG_NULL := 0x01.
Definition TAG_FALSE := 0x02.
Definition TAG_TRUE := 0x03.
Definition TAG_NUMBER := 0x04.
Definition TAG_BIGINT := 0x05.
Definition TAG_STRING := 0x06.
Definition TAG_BYTES := 0x07.

Definition INT64_MIN := - 2 ^ 63.
Definition INT64_MAX := 2 ^ 63 - 1.

(** [Object.is(value, -0)] *)
Definition normalizeValue (v : value) : value :=
  match v with
  | VNum n => match sf n with S754_zero true => VNum (mknum (S754_zero false)) | _ => v end
  | _ => v
  end.

Fixpoint compareKeyBytes (a b : bytes) : comparison :=
  match a, b with
  | x :: a', y :: b' =>
      let d := x - y in
      if negb (d =? 0) then (if d <? 0 then Lt else Gt) else compareKeyBytes a' b'
  | _, _ =>
      if Nat.eqb (length a) (length b) then Eq else if Nat.ltb (length a) (length b) then Lt else Gt
  end.

Definition compareIndexKeys : bytes → bytes → comparison := compareKeyBytes.
Definition indexKeysEqual (a b : bytes) : bool := cmp_eqb (compareKeyBytes a b).

(** [bytes[0] ^= 0x80] *)
Definition flip_first (b : bytes) : bytes :=
  match b with x :: b' => Z.lxor x 0x80 :: b' | [] => [] end.

Definition encodeFloat64 (n : num) : bytes :=
  let b := be_bytes 8 (float64_bits n) in
  match b with
  | b0 :: _ =>
      if negb (Z.land b0 0x80 =? 0) then List.map (λ x, Z.lxor x 0xff) b else flip_first b
  | [] => []
  end.

Definition encodeInt64 (z : Z) : res bytes :=
  if (z <? INT64_MIN) || (INT64_MAX <? z) then Err RangeError
  else Ok (flip_first (be_bytes 8 (asUintN64 z))).

Fixpoint pushEscaped (b : bytes) : bytes :=
  match b with
  | [] => [0x00]
  | x :: b' => if x =? 0x00 then 0x00 :: 0xff :: pushEscaped b' else x :: pushEscaped b'
  end.

(** The bytes one element appends to the key. *)
Definition pushElement (v : value) : res bytes :=
  match normalizeValue v with
  | VNull => Ok [TAG_NULL]
  | VBool b => Ok [if b then TAG_TRUE else TAG_FALSE]
  | VNum n => Ok (TAG_NUMBER :: encodeFloat64 n)
  | VBig z => let! b := encodeInt64 z in Ok (TAG_BIGINT :: b)
  | VStr s => Ok (TAG_STRING :: pushEscaped (utf8_encode s))
  | VBytes b => Ok (TAG_BYTES :: pushEscaped b)
  | VArr _ | VObj _ => Err TypeError
  end.

Fixpoint encodeIndexKey (vs : list value) : res bytes :=
  match vs with
  | [] => Ok []
  | v :: vs' => let! e := pushElement v in let! r := encodeIndexKey vs' in Ok (e ++ r)
  end.

Definition indexKeyRangeStart (prefix : list value) : res bytes := encodeIndexKey prefix.

Definition indexKeyRangeEnd (prefix : list value) : res (option bytes) :=
  match prefix with
  | [] => Ok None
  | _ => let! start := encodeIndexKey prefix in Ok (Some (start ++ [0xff]))
  end.

Definition compareIndexTuples (a b : list value) : res comparison :=
  let! x := encodeIndexKey a in let! y := encodeIndexKey b in Ok (compareKeyBytes x y).

(** ** Byte-level facts *)

Lemma compareKeyBytes_lex a b : compareKeyBytes a b = lexcmp Z.compare a b.
Proof.
  revert b; induction a as [|x a IH]; intros [|y b]; simpl; try done.
  case (Z.eqb_spec (x - y) 0); simpl; intros H.
  - replace y with x by lia. by rewrite Z.compare_refl.
  - case (Z.ltb_spec (x - y) 0); intros.
    + by rewrite (proj2 (Z.compare_lt_iff x y)) by lia.
    + by rewrite (proj2 (Z.compare_gt_iff x y)) by lia.
Qed.

#[global] Instance compareKeyBytes_total : CmpTotal compareKeyBytes.
Proof.
  split; [apply cmp_order_of_laws; intros a; split; intros|intros a b]; rewrite !compareKeyBytes_lex in *.
  - apply (cmp_refl _).
  - apply (cmp_opp _).
  - by apply (cmp_subst _).
  - by apply (cmp_subst_r _).
  - by eapply (cmp_lt_trans _).
  - apply (cmp_eq _).
Qed.

Lemma byte_xor_spec b :
  0 ≤ b < 256 →
  Z.lxor b 0xff = 255 - b ∧
  Z.lxor b 0x80 = (if b <? 128 then b + 128 else b - 128) ∧
  (Z.land b 0x80 =? 0) = (b <? 128).
Proof.
  intros Hb.
  assert (H : forallb (λ k, let b := Z.of_nat k in
     bool_decide (Z.lxor b 0xff = 255 - b) &&
     bool_decide (Z.lxor b 0x80 = (if b <? 128 then b + 128 else b - 128)) &&
     bool_decide ((Z.land b 0x80 =? 0) = (b <? 128))) (seq 0 256) = true) by (vm_compute; done).
  rewrite forallb_forall in H. specialize (H (Z.to_nat b)). cbv zeta in H.
  rewrite Z2Nat.id in H by lia. specialize (H ltac:(apply in_seq; lia)).
  apply andb_true_iff in H as [[H1 H2]%andb_true_iff H3].
  by apply bool_decide_eq_true in H1, H2, H3.
Qed.

Lemma le_bytes_compl n x :
  0 ≤ x < 256 ^ Z.of_nat n →
  List.map (λ b, Z.lxor b 0xff) (le_bytes n x) = le_bytes n (256 ^ Z.of_nat n - 1 - x).
Proof.
  revert x. induction n as [|n IH]; intros x Hx; [done|].
  rewrite Nat2Z.inj_succ, Z.pow_succ_r in * by lia. set (B := 256 ^ Z.of_nat n) in *.
  cbn [le_bytes List.map]. pose proof (Z.mod_pos_bound x 256 ltac:(lia)).
  destruct (byte_xor_spec (x mod 256)) as [-> _]; [lia|].
  pose proof (Z.div_mod x 256 ltac:(lia)).
  assert (0 < B) by (apply Z.pow_pos_nonneg; lia).
  assert (0 ≤ x / 256 < B) by (split; [apply Z.div_pos|apply Z.div_lt_upper_bound]; lia).
  assert (E : 256 * B - 1 - x = 256 * (B - 1 - x / 256) + (255 - x mod 256)) by lia.
  f_equal.
  - apply (Z.mod_unique _ _ (B - 1 - x / 256)); lia.
  - rewrite IH by done. f_equal. apply (Z.div_unique _ _ _ (255 - x mod 256)); lia.
Qed.

Lemma map_rev_bytes (f : Z → Z) b : List.map f (rev b) = rev (List.map f b).
Proof. apply map_rev. Qed.

Lemma be8_first w : 0 ≤ w < 2 ^ 64 →
  be_bytes 8 w = w / 2 ^ 56 :: be_bytes 7 w ∧ 0 ≤ w / 2 ^ 56 < 256.
Proof.
  intros Hw. rewrite be_bytes_cons. change (256 ^ Z.of_nat 7) with (2 ^ 56).
  assert (0 ≤ w / 2 ^ 56 < 256) by (split; [apply Z.div_pos; lia|apply Z.div_lt_upper_bound; lia]).
  by rewrite Z.mod_small.
Qed.

Lemma flip_first_be8 w : 0 ≤ w < 2 ^ 64 →
  flip_first (be_bytes 8 w) = be_bytes 8 (if w <? 2 ^ 63 then w + 2 ^ 63 else w - 2 ^ 63).
Proof.
  intros Hw. destruct (be8_first w Hw) as [-> Hb]. cbn [flip_first].
  destruct (byte_xor_spec _ Hb) as (_ & -> & _).
  assert (H7 : ∀ w', w' mod 2 ^ 56 = w mod 2 ^ 56 → be_bytes 7 w' = be_bytes 7 w).
  { intros w' Hm. rewrite <-(be_bytes_mod 7 w'), <-(be_bytes_mod 7 w).
    change (256 ^ Z.of_nat 7) with (2 ^ 56). by rewrite Hm. }
  pose proof (Z.div_mod w (2 ^ 56) ltac:(lia)). pose proof (Z.mod_pos_bound w (2 ^ 56) ltac:(lia)).
  assert (Hc : (w / 2 ^ 56 <? 128) = (w <? 2 ^ 63)).
  { destruct (Z.ltb_spec w (2 ^ 63)); [apply Z.ltb_lt|apply Z.ltb_ge]; lia. }
  rewrite Hc. destruct (Z.ltb_spec w (2 ^ 63)).
  - destruct (be8_first (w + 2 ^ 63)) as [-> _]; [lia|]. f_equal.
    + apply (Z.div_unique _ _ _ (w mod 2 ^ 56)); lia.
    + symmetry. apply H7. symmetry. apply (Z.mod_unique _ _ (w / 2 ^ 56 + 128)); lia.
  - destruct (be8_first (w - 2 ^ 63)) as [-> _]; [lia|]. f_equal.
    + apply (Z.div_unique _ _ _ (w mod 2 ^ 56)); lia.
    + symmetry. apply H7. symmetry. apply (Z.mod_unique _ _ (w / 2 ^ 56 - 128)); lia.
Qed.

(** The encoded float is the big-endian word [2^63 + okey] (one less below zero). *)
Lemma encodeFloat64_word n :
  encodeFloat64 n = be_bytes 8 (if sign_bit n then 2 ^ 63 - 1 + okey n else 2 ^ 63 + okey n).
Proof.
  pose proof (float64_bits_range n (num_ok n)) as Hr.
  pose proof (float64_bits_okey n (num_ok n)) as Hb.
  pose proof (okey_bounds n (num_ok n)) as Ho.
  destruct (be8_first (float64_bits n) Hr) as [E Hb0].
  assert (encodeFloat64 n = let b := be_bytes 8 (float64_bits n) in
    if negb (Z.land (float64_bits n / 2 ^ 56) 0x80 =? 0)
    then List.map (λ x, Z.lxor x 0xff) b else flip_first b) as ->
    by (unfold encodeFloat64; cbv zeta; by rewrite E).
  destruct (byte_xor_spec _ Hb0) as (_ & _ & ->). cbv zeta.
  pose proof (Z.div_mod (float64_bits n) (2 ^ 56) ltac:(lia)).
  pose proof (Z.mod_pos_bound (float64_bits n) (2 ^ 56) ltac:(lia)).
  destruct (sign_bit n).
  - rewrite (proj2 (Z.ltb_ge (float64_bits n / 2 ^ 56) 128)) by lia. cbn [negb].
    unfold be_bytes. rewrite map_rev_bytes, le_bytes_compl by (change (256 ^ Z.of_nat 8) with (2 ^ 64); lia).
    change (256 ^ Z.of_nat 8) with (2 ^ 64). do 2 f_equal. lia.
  - rewrite (proj2 (Z.ltb_lt (float64_bits n / 2 ^ 56) 128)) by lia. cbn [negb].
    rewrite (flip_first_be8 _ Hr), (proj2 (Z.ltb_lt (float64_bits n) (2 ^ 63))) by lia. f_equal. lia.
Qed.

Lemma encodeInt64_word z b : encodeInt64 z = Ok b →
  INT64_MIN ≤ z ≤ INT64_MAX ∧ b = be_bytes 8 (z + 2 ^ 63).
Proof.
  unfold encodeInt64, INT64_MIN, INT64_MAX.
  destruct (Z.ltb_spec z (- 2 ^ 63)), (Z.ltb_spec (2 ^ 63 - 1) z); cbn [orb]; try done.
  set (w := flip_first _). intros [= <-]. split; [lia|]. subst w. unfold asUintN64.
  pose proof (Z.mod_pos_bound z (2 ^ 64) ltac:(lia)).
  rewrite flip_first_be8 by done. f_equal. destruct (decide (0 ≤ z)).
  - rewrite Z.mod_small by lia. by rewrite (proj2 (Z.ltb_lt _ _)) by lia.
  - assert (z mod 2 ^ 64 = z + 2 ^ 64) as -> by (symmetry; apply (Z.mod_unique _ _ (-1)); lia).
    rewrite (proj2 (Z.ltb_ge _ _)) by lia. lia.
Qed.

(** ** The element lemma *)

(** What can follow an element in a key or in a range bound: nothing, another element's tag, or
    the single [0xff] of a range end. *)
Definition tail_ok (t : bytes) : Prop :=
  match t with [] => True | x :: r => x < 255 ∨ (x = 255 ∧ r = []) end.

(** Scalars of the program's value space: what an index key may hold. *)
Definition indexableb (v : value) : bool :=
  match v with VArr _ | VObj _ => false | _ => value_okb v end.

Lemma pushEscaped_compare a b tx ty :
  Forall (λ x, 0 ≤ x) a → Forall (λ x, 0 ≤ x) b → tail_ok tx → tail_ok ty →
  compareKeyBytes (pushEscaped a ++ tx) (pushEscaped b ++ ty) =
    match lexcmp Z.compare a b with Eq => compareKeyBytes tx ty | c => c end.
Proof.
  intros Ha Hb Htx Hty. rewrite !compareKeyBytes_lex. revert b Hb.
  assert (Hne : ∀ s t, lexcmp Z.compare [] (pushEscaped s ++ t) = Lt).
  { intros [|x s] t; simpl; [done|]. by destruct (x =? 0). }
  assert (Hne' : ∀ s t, lexcmp Z.compare (pushEscaped s ++ t) [] = Gt).
  { intros [|x s] t; simpl; [done|]. by destruct (x =? 0). }
  induction Ha as [|x a Hx Ha IH]; intros ? [|y b Hy Hb]; cbn [pushEscaped lexcmp app].
  - by rewrite Z.compare_refl.
  - case (Z.eqb_spec y 0); intros; cbn [app lexcmp].
    + rewrite Z.compare_refl. destruct tx as [|z tx]; [done|]. simpl in Htx. cbn [lexcmp].
      destruct Htx as [?|[-> ->]]; [by rewrite (proj2 (Z.compare_lt_iff _ _)) by lia|].
      by rewrite Z.compare_refl, Hne.
    + by rewrite (proj2 (Z.compare_lt_iff _ _)) by lia.
  - case (Z.eqb_spec x 0); intros; cbn [app lexcmp].
    + rewrite Z.compare_refl. destruct ty as [|z ty]; [done|]. simpl in Hty. cbn [lexcmp].
      destruct Hty as [?|[-> ->]]; [by rewrite (proj2 (Z.compare_gt_iff _ _)) by lia|].
      by rewrite Z.compare_refl, Hne'.
    + by rewrite (proj2 (Z.compare_gt_iff _ _)) by lia.
  - case (Z.eqb_spec x 0); case (Z.eqb_spec y 0); intros; subst; cbn [app lexcmp].
    + rewrite !Z.compare_refl. by apply IH.
    + by rewrite (proj2 (Z.compare_lt_iff 0 y)) by lia.
    + by rewrite (proj2 (Z.compare_gt_iff x 0)) by lia.
    + destruct (x ?= y); [by apply IH|done|done].
Qed.

Lemma utf8_bmp_nonneg u : 0 ≤ u → Forall (λ x, 0 ≤ x) (utf8_bmp u).
Proof.
  intros Hu. unfold utf8_bmp. pose proof (Z.div_pos u 64 Hu). pose proof (Z.div_pos u 4096 Hu).
  pose proof (Z.mod_pos_bound u 64). pose proof (Z.mod_pos_bound (u / 64) 64).
  repeat case_match; rewrite ?Forall_cons; repeat split; try lia; constructor.
Qed.

Lemma utf8_encode_nonneg s : units_okb s = true → Forall (λ x, 0 ≤ x) (utf8_encode s).
Proof.
  unfold units_okb. rewrite forallb_Forall.
  remember (length s) as n eqn:E. assert (Hn : (length s ≤ n)%nat) by lia. clear E. revert s Hn.
  induction n as [|n IH]; intros [|u s] Hn Hs; simpl in Hn; try lia; [constructor..|].
  apply Forall_cons in Hs as [Hu Hs]. apply andb_true_iff in Hu as [Hu%Z.leb_le _].
  destruct s as [|v s]; [by apply utf8_bmp_nonneg|]. cbn [utf8_encode].
  pose proof Hs as Hs'. apply Forall_cons in Hs' as [Hv Hs']. apply andb_true_iff in Hv as [Hv%Z.leb_le _].
  simpl in Hn. destruct (is_high_surrogate u && is_low_surrogate v) eqn:E.
  - apply Forall_app_2; [|apply IH; [lia|done]].
    unfold is_high_surrogate, is_low_surrogate in E.
    rewrite !andb_true_iff, !Z.leb_le in E. unfold utf8_pair. cbv zeta. set (cp := 0x10000 + (u - 0xD800) * 0x400 + (v - 0xDC00)).
    assert (0 ≤ cp) by (unfold cp; lia). clearbody cp.
    pose proof (Z.div_pos cp 262144 ltac:(done)). pose proof (Z.mod_pos_bound cp 64).
    pose proof (Z.mod_pos_bound (cp / 64) 64). pose proof (Z.mod_pos_bound (cp / 4096) 64).
    rewrite !Forall_cons. repeat split; try lia. constructor.
  - apply Forall_app_2; [by apply utf8_bmp_nonneg|apply (IH (v :: s)); [simpl; lia|done]].
Qed.

Lemma be8_compare_app x y tx ty :
  0 ≤ x < 2 ^ 64 → 0 ≤ y < 2 ^ 64 →
  compareKeyBytes (be_bytes 8 x ++ tx) (be_bytes 8 y ++ ty) =
    match x ?= y with Eq => compareKeyBytes tx ty | c => c end.
Proof.
  intros Hx Hy. rewrite !compareKeyBytes_lex, lexcmp_app_len by (by rewrite !length_be_bytes).
  by rewrite be_bytes_compare.
Qed.

(** The word [encodeFloat64] writes, for a normalised number. *)
Definition float_word (n : num) : Z :=
  if sign_bit n then 2 ^ 63 - 1 + okey n else 2 ^ 63 + okey n.

Definition not_negzero (n : num) : Prop := sf n ≠ S754_zero true.

Lemma float_word_range n : 0 ≤ float_word n < 2 ^ 64.
Proof. unfold float_word. pose proof (okey_bounds n (num_ok n)). destruct (sign_bit n); lia. Qed.

Lemma okey_neg n : not_negzero n → sign_bit n = true → okey n < 0.
Proof.
  intros Hz Hs. pose proof (okey_bounds n (num_ok n)) as Hb. rewrite Hs in Hb.
  destruct (decide (okey n = 0)) as [E|]; [|lia]. exfalso. unfold not_negzero in Hz.
  pose proof (num_ok n) as Hv.
  destruct (sf n) as [s|s| |s m e]; cbn [sign_bit okey] in *; subst; try done.
  apply num_valid_finite in Hv. unfold sgn_of in E. lia.
Qed.

Lemma float_word_compare a b : not_negzero a → not_negzero b →
  (float_word a ?= float_word b) = compareNumbers a b.
Proof.
  intros Ha Hb. rewrite compareNumbers_okey. unfold float_word.
  pose proof (okey_bounds a (num_ok a)). pose proof (okey_bounds b (num_ok b)).
  pose proof (okey_neg a Ha). pose proof (okey_neg b Hb).
  destruct (sign_bit a), (sign_bit b); destruct (Z.compare_spec (okey a) (okey b));
    (apply Z.compare_eq_iff || apply (proj2 (Z.compare_lt_iff _ _)) || apply (proj2 (Z.compare_gt_iff _ _)));
    lia.
Qed.

(** Normalisation is invisible to the value order. *)
Lemma normalizeValue_compare v w :
  compareValues (normalizeValue v) (normalizeValue w) = compareValues v w.
Proof.
  assert (Hk : ∀ n, ∃ m, normalizeValue (VNum n) = VNum m ∧ okey m = okey n).
  { intros n. simpl. destruct (sf n) as [[]|s| |s m e] eqn:E;
      try (exists n; by rewrite E).
    exists (mknum (S754_zero false)). by rewrite (mknum_valid (S754_zero false) eq_refl). }
  assert (Hn : ∀ v, (∃ n, v = VNum n) ∨ normalizeValue v = v) by (intros []; eauto).
  rewrite !compareValues_eq.
  destruct (Hn v) as [[a ->]| ->], (Hn w) as [[b ->]| ->]; try done;
    repeat match goal with |- context [normalizeValue (VNum ?n)] =>
      let m := fresh in let E1 := fresh in let E2 := fresh in
      destruct (Hk n) as (m & E1 & E2); rewrite E1 in *; clear E1 end; cbn [typeRank].
  - simpl. rewrite !compareNumbers_okey. congruence.
  - destruct w; simpl; try done. rewrite !compareNumbers_okey. congruence.
  - destruct v; simpl; try done. rewrite !compareNumbers_okey. congruence.
Qed.

Lemma normalizeValue_num v n : normalizeValue v = VNum n → not_negzero n.
Proof.
  unfold not_negzero. destruct v as [| |x| | | | |]; simpl; try done.
  destruct (sf x) as [[]|s| |s m e] eqn:E; intros [= <-]; by rewrite ?E.
Qed.

Lemma normalizeValue_indexable v : indexableb (normalizeValue v) = indexableb v.
Proof. destruct v as [| |n| | | | |]; simpl; try done. by destruct (sf n) as [[]| | |]. Qed.

Lemma pushElement_total v : indexableb v = true → ∃ e, pushElement v = Ok e.
Proof.
  rewrite <-normalizeValue_indexable. unfold pushElement.
  destruct (normalizeValue v) as [| | |z| | | |] eqn:E; simpl; eauto; try done.
  intros [H1%Z.leb_le H2%Z.ltb_lt]%andb_true_iff. unfold encodeInt64, INT64_MIN, INT64_MAX.
  rewrite (proj2 (Z.ltb_ge z (- 2 ^ 63))), (proj2 (Z.ltb_ge (2 ^ 63 - 1) z)) by lia.
  simpl; eauto.
Qed.

Lemma pushElement_head v e : pushElement v = Ok e → ∃ t r, e = t :: r ∧ 1 ≤ t ≤ 7.
Proof.
  unfold pushElement. destruct (normalizeValue v) as [|b| |z| | | |]; try done; intros H;
    try (injection H as <-; eexists _, _; split; [done|]; destruct b || idtac; compute; split; done).
  destruct (encodeInt64 z); [|done]. injection H as <-. eexists _, _; split; [done|]. by compute.
Qed.

Lemma cmp_cons_head x y tx ty : compareKeyBytes (x :: tx) (y :: ty) =
  match x ?= y with Eq => compareKeyBytes tx ty | c => c end.
Proof. by rewrite !compareKeyBytes_lex. Qed.

Lemma pushElement_compare v w ev ew tx ty :
  indexableb v = true → indexableb w = true →
  pushElement v = Ok ev → pushElement w = Ok ew → tail_ok tx → tail_ok ty →
  compareKeyBytes (ev ++ tx) (ew ++ ty) =
    match compareValues v w with Eq => compareKeyBytes tx ty | c => c end.
Proof.
  rewrite <-(normalizeValue_indexable v), <-(normalizeValue_indexable w), <-(normalizeValue_compare v w).
  unfold pushElement. pose proof (normalizeValue_num v) as Nv. pose proof (normalizeValue_num w) as Nw.
  generalize dependent (normalizeValue v). generalize dependent (normalizeValue w). clear v w.
  intros w Nw v Nv Hv Hw Ev Ew Htx Hty. rewrite compareValues_eq.
  destruct v as [|b|n|z|s|b| |], w as [|b'|n'|z'|s'|b'| |]; cbn [res_bind] in Ev, Ew; try done;
    repeat match goal with H : res_bind (encodeInt64 ?z) _ = _ |- _ =>
      destruct (encodeInt64 z) eqn:?; [|done]; cbn [res_bind] in H end;
    injection Ev as <-; injection Ew as <-; cbn [app]; rewrite ?cmp_cons_head; try done;
    try (repeat match goal with b : bool |- _ => destruct b end; done);
    cbn [typeRank compareSame]; rewrite !Z.compare_refl.
  - rewrite !encodeFloat64_word. fold (float_word n) (float_word n').
    rewrite be8_compare_app by apply float_word_range.
    by rewrite float_word_compare by auto.
  - repeat match goal with H : encodeInt64 _ = Ok _ |- _ =>
      apply encodeInt64_word in H as [[??] ->] end. unfold INT64_MIN, INT64_MAX in *.
    rewrite be8_compare_app by lia. by rewrite !(Z.add_comm _ (2 ^ 63)), Z.add_compare_mono_l.
  - unfold compareKeysUtf8. rewrite compareBytes_lex.
    apply pushEscaped_compare; auto using utf8_encode_nonneg.
  - rewrite compareBytes_lex. apply pushEscaped_compare; auto;
      (eapply Forall_impl; [by apply value_ok_bytes|]); intros x [??]; done.
Qed.

Lemma encodeIndexKey_total vs : forallb indexableb vs = true → ∃ k, encodeIndexKey vs = Ok k.
Proof.
  induction vs as [|v vs IH]; simpl; [eauto|]. intros [[e ->]%pushElement_total [k ->]%IH]%andb_true_iff.
  simpl; eauto.
Qed.

Lemma encodeIndexKey_cons v vs k : encodeIndexKey (v :: vs) = Ok k →
  ∃ e r, pushElement v = Ok e ∧ encodeIndexKey vs = Ok r ∧ k = e ++ r.
Proof. simpl. destruct (pushElement v), (encodeIndexKey vs); simpl; try done. intros [= <-]; eauto. Qed.

Lemma encodeIndexKey_app vs ws k k' :
  encodeIndexKey vs = Ok k → encodeIndexKey ws = Ok k' → encodeIndexKey (vs ++ ws) = Ok (k ++ k').
Proof.
  revert k. induction vs as [|v vs IH]; intros k H Hw; [by injection H as <-|].
  apply encodeIndexKey_cons in H as (e & r & He & Hr & ->). cbn [app encodeIndexKey].
  by rewrite He, (IH _ Hr Hw), <-(assoc_L _).
Qed.

Lemma encodeIndexKey_tail vs k : encodeIndexKey vs = Ok k → tail_ok k.
Proof.
  destruct vs as [|v vs]; [by intros [= <-]|].
  intros (e & r & (t & r' & -> & ?)%pushElement_head & _ & ->)%encodeIndexKey_cons. simpl. lia.
Qed.

(** Keys with admissible continuations: the tuples decide, and past the shorter tuple the
    continuations do. *)
Lemma encodeIndexKey_compare_tail vs ws k k' t t' :
  forallb indexableb vs = true → forallb indexableb ws = true →
  encodeIndexKey vs = Ok k → encodeIndexKey ws = Ok k' → tail_ok t → tail_ok t' →
  length vs = length ws →
  compareKeyBytes (k ++ t) (k' ++ t') =
    match lexcmp compareValues vs ws with Eq => compareKeyBytes t t' | c => c end.
Proof.
  intros Hv Hw. revert ws Hw k k'. induction vs as [|v vs IH]; intros [|w ws] Hw k k' Ek Ek' Ht Ht' Hl;
    try done; [by injection Ek as <-; injection Ek' as <-|].
  simpl in Hv, Hw. apply andb_true_iff in Hv as [Hv Hvs], Hw as [Hw Hws].
  apply encodeIndexKey_cons in Ek as (e & r & He & Hr & ->), Ek' as (e' & r' & He' & Hr' & ->).
  rewrite <-!(assoc_L (++)).
  assert (Hto : ∀ us q u, encodeIndexKey us = Ok q → tail_ok u → tail_ok (q ++ u)).
  { intros us q u Hq Hu. pose proof (encodeIndexKey_tail _ _ Hq) as Hq'.
    destruct us as [|u' us]; [by injection Hq as <-|].
    apply encodeIndexKey_cons in Hq as (e1 & r1 & (t1 & r1' & -> & ?)%pushElement_head & _ & ->).
    simpl. lia. }
  rewrite (pushElement_compare v w); eauto. cbn [lexcmp]. destruct (compareValues v w); eauto.
Qed.

Lemma encodeIndexKey_compare vs ws k k' :
  forallb indexableb vs = true → forallb indexableb ws = true →
  encodeIndexKey vs = Ok k → encodeIndexKey ws = Ok k' →
  compareKeyBytes k k' = lexcmp compareValues vs ws.
Proof.
  revert ws k k'. induction vs as [|v vs IH]; intros [|w ws] k k' Hv Hw Ek Ek';
    try (injection Ek as <-); try (injection Ek' as <-); try done.
  - apply encodeIndexKey_cons in Ek' as (e & r & (t & r' & -> & ?)%pushElement_head & _ & ->). done.
  - apply encodeIndexKey_cons in Ek as (e & r & (t & r' & -> & ?)%pushElement_head & _ & ->). done.
  - simpl in Hv, Hw. apply andb_true_iff in Hv as [Hv Hvs], Hw as [Hw Hws].
    apply encodeIndexKey_cons in Ek as (e & r & He & Hr & ->), Ek' as (e' & r' & He' & Hr' & ->).
    rewrite (pushElement_compare v w); eauto using encodeIndexKey_tail.
    cbn [lexcmp]. destruct (compareValues v w); eauto.
Qed.

(** ** Prefix ranges *)

(** The tuples a prefix scan means: those whose first elements equal the prefix in the value order. *)
Definition has_prefix (p vs : list value) : Prop :=
  (length p ≤ length vs)%nat ∧ lexcmp compareValues (take (length p) vs) p = Eq.

Lemma encodeIndexKey_split vs k n : encodeIndexKey vs = Ok k →
  ∃ k1 k2, encodeIndexKey (take n vs) = Ok k1 ∧ encodeIndexKey (drop n vs) = Ok k2 ∧ k = k1 ++ k2.
Proof.
  revert n k. induction vs as [|v vs IH]; intros n k H.
  - injection H as <-. rewrite take_nil, drop_nil. by eexists [], [].
  - destruct n as [|n]; [by exists [], k|].
    apply encodeIndexKey_cons in H as (e & r & He & (k1 & k2 & H1 & H2 & ->)%(IH n) & ->).
    exists (e ++ k1), k2. cbn [take drop firstn skipn encodeIndexKey]. rewrite He. cbn [res_bind].
    unfold take in *. rewrite H1. by rewrite <-(assoc_L (++)).
Qed.

Lemma forallb_take {A} (f : A → bool) n l : forallb f l = true → forallb f (take n l) = true.
Proof. rewrite !forallb_Forall. apply Forall_take. Qed.

Lemma forallb_drop {A} (f : A → bool) n l : forallb f l = true → forallb f (drop n l) = true.
Proof. rewrite !forallb_Forall. apply Forall_drop. Qed.

Lemma tail_lt_ff k vs : encodeIndexKey vs = Ok k → compareKeyBytes k [0xff] = Lt.
Proof.
  destruct vs as [|v vs]; [by intros [= <-]|].
  intros (e & r & (t & r' & -> & ?)%pushElement_head & _ & ->)%encodeIndexKey_cons.
  rewrite compareKeyBytes_lex. simpl. by rewrite (proj2 (Z.compare_lt_iff _ _)) by lia.
Qed.

(** The half-open byte interval [start, start ++ [0xff]) holds exactly the tuples with the prefix. *)
Lemma prefix_range_spec p vs s k :
  forallb indexableb p = true → forallb indexableb vs = true →
  encodeIndexKey p = Ok s → encodeIndexKey vs = Ok k →
  (compareKeyBytes s k ≠ Gt ∧ compareKeyBytes k (s ++ [0xff]) = Lt) ↔ has_prefix p vs.
Proof.
  intros Hp Hv Es Ek. unfold has_prefix. rewrite (cmp_opp compareKeyBytes k s).
  assert (Hff : tail_ok [0xff]) by (by right).
  destruct (decide (length p ≤ length vs)%nat) as [Hl|Hl].
  - destruct (encodeIndexKey_split vs k (length p) Ek) as (k1 & k2 & E1 & E2 & ->).
    pose proof (encodeIndexKey_tail _ _ E2) as Ht. pose proof (forallb_take _ (length p) _ Hv) as Hvt.
    assert (Hlen : length (take (length p) vs) = length p) by (rewrite length_take; lia).
    rewrite (encodeIndexKey_compare_tail (take (length p) vs) p k1 s k2 [0xff]) by done.
    rewrite <-(app_nil_r s) at 1.
    rewrite (encodeIndexKey_compare_tail (take (length p) vs) p k1 s k2 []) by done.
    rewrite (tail_lt_ff _ _ E2). destruct (lexcmp _ _ _); simpl.
    + split; [done|]. intros _. split; [|done]. by destruct k2.
    + split; intros [??]; done.
    + split; intros [??]; done.
  - split; [|by intros [? _]]. intros [H1 H2]. exfalso.
    destruct (encodeIndexKey_split p s (length vs) Es) as (s1 & s2 & E1 & E2 & ->).
    pose proof (encodeIndexKey_tail _ _ E2) as Ht. pose proof (forallb_take _ (length vs) _ Hp) as Hpt.
    assert (Hlen : length vs = length (take (length vs) p)) by (rewrite length_take; lia).
    destruct (drop (length vs) p) as [|q d] eqn:Ed.
    { apply (f_equal length) in Ed. rewrite length_drop in Ed. simpl in Ed. lia. }
    apply encodeIndexKey_cons in E2 as (e & r & (t & r' & -> & ?)%pushElement_head & _ & ->).
    rewrite <-(app_nil_r k) in H1, H2. rewrite <-(assoc_L (++)) in H2.
    rewrite (encodeIndexKey_compare_tail vs (take (length vs) p) k s1) in H1 by done.
    rewrite (encodeIndexKey_compare_tail vs (take (length vs) p) k s1) in H2 by (try done; simpl; lia).
    by destruct (lexcmp _ _ _).
Qed.

(** C34: the codec's contract. Every tuple of scalars encodes, and the byte order of two encoded
    keys is the lexicographic order of the tuples under [compareValues]. *)
Theorem encodeIndexKey_order vs ws :
  forallb indexableb vs = true → forallb indexableb ws = true →
  ∃ k k', encodeIndexKey vs = Ok k ∧ encodeIndexKey ws = Ok k' ∧
    compareKeyBytes k k' = lexcmp compareValues vs ws ∧
    compareIndexTuples vs ws = Ok (lexcmp compareValues vs ws).
Proof.
  intros Hv Hw. destruct (encodeIndexKey_total vs Hv) as [k Ek], (encodeIndexKey_total ws Hw) as [k' Ek'].
  pose proof (encodeIndexKey_compare vs ws k k' Hv Hw Ek Ek') as Hc.
  exists k, k'. unfold compareIndexTuples. rewrite Ek, Ek'. simpl. by rewrite Hc.
Qed.

Lemma encodeIndexKey_order_witness :
  let a := [VStr (js "a"); VNum (mknum (S754_zero true))] in
  let b := [VStr (js "a"); VNum (mknum (S754_zero false)); VNull] in
  ∃ k k', encodeIndexKey a = Ok k ∧ encodeIndexKey b = Ok k' ∧
    compareKeyBytes k k' = lexcmp compareValues a b ∧ compareIndexTuples a b = Ok (lexcmp compareValues a b).
Proof. cbv zeta. apply encodeIndexKey_order; by vm_compute. Defined.
