(* ===== verification/Ranges.v ===== *)
(** Keyspaces, half-open key ranges and range sets: [packages/index-key-codec/src/range.ts],
    [keyspace.ts] and [serialize.ts]. These are the read and write sets of the transactor and the
    subscriptions of the sync engine. *)
From S2P Require Import Prelude Numbers Values Json IndexKeys.

(** ** Keyspaces *)
Inductive Keyspace : Type :=
  | KTable (table : jsstr)
  | KIndex (table index : jsstr).

Definition colon : Z := 58.

Definition keyspaceId (ks : Keyspace) : jsstr :=
  match ks with
  | KTable t => js "table:" ++ t
  | KIndex t i => js "index:" ++ t ++ colon :: i
  end.

Definition tableKeyspaceId (table : jsstr) : jsstr := js "table:" ++ table.
Definition indexKeyspaceId (table index : jsstr) : jsstr := js "index:" ++ table ++ colon :: index.

(** [id.split(":")] and [parts.join(":")] *)
Fixpoint split_colon (s : jsstr) : jsstr * list jsstr :=
  match s with
  | [] => ([], [])
  | c :: s' =>
      let '(p, ps) := split_colon s' in
      if c =? colon then ([], p :: ps) else (c :: p, ps)
  end.

Fixpoint join_colon (p : jsstr) (ps : list jsstr) : jsstr :=
  match ps with [] => p | q :: ps' => p ++ colon :: join_colon q ps' end.

Definition parseKeyspaceId (id : jsstr) : res Keyspace :=
  match split_colon id with
  | (p0, [p1]) => if decide (p0 = js "table") then Ok (KTable p1) else Err (PlainError "invalid keyspace id")
  | (p0, p1 :: p2 :: ps) =>
      if decide (p0 = js "index") then Ok (KIndex p1 (join_colon p2 ps))
      else Err (PlainError "invalid keyspace id")
  | _ => Err (PlainError "invalid keyspace id")
  end.

Definition keyspace_table (ks : Keyspace) : jsstr :=
  match ks with KTable t => t | KIndex t _ => t end.

Definition tableOfKeyspaceId (id : jsstr) : res jsstr :=
  let! ks := parseKeyspaceId id in Ok (keyspace_table ks).

(** ** Ranges *)
Record KeyRange := { keyspace : jsstr; start : bytes; end_ : option bytes }.

#[global] Instance KeyRange_eq_dec : EqDecision KeyRange.
Proof. solve_decision. Defined.

Definition keySuccessor (key : bytes) : bytes := key ++ [0x00].

(** [end === null || compareKeyBytes(k, end) < 0] *)
Definition before_end (k : bytes) (e : option bytes) : bool :=
  match e with None => true | Some e => cmp_ltb (compareKeyBytes k e) end.

Definition keyInRange (key : bytes) (r : KeyRange) : bool :=
  if cmp_ltb (compareKeyBytes key (start r)) then false else before_end key (end_ r).

Definition rangesOverlap (a b : KeyRange) : bool :=
  if negb (bool_decide (keyspace a = keyspace b)) then false
  else
    let aStartLtBEnd := before_end (start a) (end_ b) in
    let bStartLtAEnd := before_end (start b) (end_ a) in
    aStartLtBEnd && bStartLtAEnd.

(** ** Range sets: a [Map] from keyspace to the ranges added to it, in insertion order *)
Record RangeSet := { byKeyspace : list (jsstr * list KeyRange) }.

Definition rs_new : RangeSet := {| byKeyspace := [] |}.

Definition rs_add (s : RangeSet) (r : KeyRange) : RangeSet :=
  {| byKeyspace :=
       match jm_get (byKeyspace s) (keyspace r) with
       | Some list => jm_set (byKeyspace s) (keyspace r) (list ++ [r])
       | None => jm_set (byKeyspace s) (keyspace r) [r]
       end |}.

Definition addKey (s : RangeSet) (ks : jsstr) (key : bytes) : RangeSet :=
  rs_add s {| keyspace := ks; start := key; end_ := Some (keySuccessor key) |}.

Definition addKeyspace (s : RangeSet) (ks : jsstr) : RangeSet :=
  rs_add s {| keyspace := ks; start := []; end_ := None |}.

Definition intersectsRange (s : RangeSet) (r : KeyRange) : bool :=
  match jm_get (byKeyspace s) (keyspace r) with
  | None => false
  | Some list => existsb (λ a, rangesOverlap a r) list
  end.

Definition intersects (s other : RangeSet) : bool :=
  existsb (λ '(ks, list),
    match jm_get (byKeyspace other) ks with
    | None => false
    | Some otherList => existsb (λ a, existsb (λ b, rangesOverlap a b) otherList) list
    end) (byKeyspace s).

Definition toArray (s : RangeSet) : list KeyRange := concat (jm_values (byKeyspace s)).
Definition keyspaces (s : RangeSet) : list jsstr := jm_keys (byKeyspace s).

Definition rs_size (s : RangeSet) : nat :=
  fold_left (λ n list, n + length list)%nat (jm_values (byKeyspace s)) 0%nat.
Definition isEmpty (s : RangeSet) : bool := Nat.eqb (rs_size s) 0.

(** [for (const r of ranges) set.add(r)] *)
Definition rs_of (rs : list KeyRange) : RangeSet := fold_left rs_add rs rs_new.

(** A JavaScript [Set] of strings: insertion order, each element once. *)
Definition set_add {A} `{!EqDecision A} (l : list A) (x : A) : list A :=
  if decide (x ∈ l) then l else l ++ [x].

Definition writtenTablesFromRanges (ranges : list KeyRange) : res (list jsstr) :=
  let! ts := traverse (λ r, tableOfKeyspaceId (keyspace r)) ranges in Ok (fold_left set_add ts []).

(** ** Wire form *)
Record SerializedKeyRange := { s_keyspace : jsstr; s_start : jsstr; s_end : option jsstr }.

Definition serializeKeyRange (r : KeyRange) : SerializedKeyRange :=
  {| s_keyspace := keyspace r; s_start := bytesToBase64 (start r);
     s_end := match end_ r with None => None | Some e => Some (bytesToBase64 e) end |}.

Definition deserializeKeyRange (s : SerializedKeyRange) : res KeyRange :=
  let! st := base64ToBytes (s_start s) in
  match s_end s with
  | None => Ok {| keyspace := s_keyspace s; start := st; end_ := None |}
  | Some e => let! en := base64ToBytes e in
              Ok {| keyspace := s_keyspace s; start := st; end_ := Some en |}
  end.

(** ** JavaScript sets *)
Section js_set.
Context {A : Type} `{!EqDecision A}.
Implicit Types (l ks : list A).

Lemma set_add_in l k k' : k' ∈ set_add l k ↔ k' = k ∨ k' ∈ l.
Proof. unfold set_add. case_decide; [|rewrite elem_of_app, list_elem_of_singleton]; naive_solver. Qed.

Lemma set_add_nodup l k : NoDup l → NoDup (set_add l k).
Proof.
  intros H. unfold set_add. case_decide; [done|]. apply NoDup_app. split_and!; [done| |apply NoDup_singleton].
  intros y Hy ->%list_elem_of_singleton. done.
Qed.

(** Folding set insertions over a list adds its elements and keeps the set duplicate free. *)
Lemma fold_set_add ks l k : k ∈ fold_left set_add ks l ↔ k ∈ ks ∨ k ∈ l.
Proof. revert l. induction ks as [|x ks IH]; intros l; simpl; [set_solver|]. rewrite IH, set_add_in. set_solver. Qed.

Lemma fold_set_add_nodup ks l : NoDup l → NoDup (fold_left set_add ks l).
Proof. revert l. induction ks as [|x ks IH]; intros l H; simpl; [done|]. auto using set_add_nodup. Qed.
End js_set.

(** ** Keyspace ids *)

Lemma split_join s : let '(p, ps) := split_colon s in join_colon p ps = s.
Proof.
  induction s as [|c s IH]; simpl; [done|]. destruct (split_colon s) as [p ps].
  case (Z.eqb_spec c colon); intros Hc; simpl; [by subst|]. by destruct ps; simpl in *; subst.
Qed.

Lemma split_colon_app p s : colon ∉ p →
  split_colon (p ++ colon :: s) = (p, (split_colon s).1 :: (split_colon s).2).
Proof.
  induction p as [|c p IH]; simpl; [by destruct (split_colon s)|]. intros Hc.
  rewrite IH by set_solver. case (Z.eqb_spec c colon); [set_solver|done].
Qed.

Lemma split_colon_none p : colon ∉ p → split_colon p = (p, []).
Proof.
  induction p as [|c p IH]; simpl; [done|]. intros Hc. rewrite IH by set_solver.
  case (Z.eqb_spec c colon); [set_solver|done].
Qed.

Lemma colon_fresh_table : colon ∉ js "table".
Proof. apply (bool_decide_unpack _). by vm_compute. Qed.
Lemma colon_fresh_index : colon ∉ js "index".
Proof. apply (bool_decide_unpack _). by vm_compute. Qed.

Lemma parse_keyspaceId ks : colon ∉ keyspace_table ks → parseKeyspaceId (keyspaceId ks) = Ok ks.
Proof.
  destruct ks as [t|t i]; cbn [keyspaceId keyspace_table]; intros Ht; unfold parseKeyspaceId.
  - change (js "table:" ++ t) with (js "table" ++ colon :: t).
    rewrite split_colon_app, split_colon_none by (done || apply colon_fresh_table). done.
  - change (js "index:" ++ t ++ colon :: i) with (js "index" ++ colon :: (t ++ colon :: i)).
    rewrite (split_colon_app (js "index")), (split_colon_app t) by (done || apply colon_fresh_index).
    cbn [fst snd]. pose proof (split_join i) as Hi. destruct (split_colon i) as [p ps].
    cbn [fst snd]. rewrite decide_True by done. by rewrite Hi.
Qed.

(** ** Ranges *)

Lemma before_end_true k e :
  before_end k e = true ↔ match e with None => True | Some e => compareKeyBytes k e = Lt end.
Proof. destruct e; simpl; [apply cmp_ltb_true|done]. Qed.

Lemma keyInRange_true k r :
  keyInRange k r = true ↔ cmp_le compareKeyBytes (start r) k ∧ before_end k (end_ r) = true.
Proof.
  unfold keyInRange. rewrite <-(cmp_not_lt_le compareKeyBytes).
  destruct (compareKeyBytes k (start r)); simpl; naive_solver.
Qed.

Lemma rangesOverlap_true a b :
  rangesOverlap a b = true ↔ keyspace a = keyspace b ∧
    before_end (start a) (end_ b) = true ∧ before_end (start b) (end_ a) = true.
Proof.
  unfold rangesOverlap. case_bool_decide; simpl; [rewrite andb_true_iff; naive_solver|naive_solver].
Qed.

Lemma rangesOverlap_sym a b : rangesOverlap a b = rangesOverlap b a.
Proof. apply eq_iff_eq_true. rewrite !rangesOverlap_true. naive_solver. Qed.

Lemma before_end_le k k' e :
  cmp_le compareKeyBytes k k' → before_end k' e = true → before_end k e = true.
Proof. rewrite !before_end_true. destruct e; [|done]. apply (cmp_le_lt_trans compareKeyBytes). Qed.

(** A key in both ranges of a keyspace makes them overlap, empty ranges included: an overlap test
    never misses a conflict. *)
Lemma common_key_overlap a b k :
  keyspace a = keyspace b → keyInRange k a = true → keyInRange k b = true → rangesOverlap a b = true.
Proof.
  rewrite !keyInRange_true, rangesOverlap_true. intros ? [??] [??]. eauto using before_end_le.
Qed.

Definition range_nonempty (r : KeyRange) : Prop := before_end (start r) (end_ r) = true.

Lemma rangesOverlap_common a b :
  range_nonempty a → range_nonempty b → rangesOverlap a b = true →
  ∃ k, keyInRange k a = true ∧ keyInRange k b = true.
Proof.
  unfold range_nonempty. rewrite rangesOverlap_true. intros Ha Hb (_ & H1 & H2).
  setoid_rewrite keyInRange_true.
  destruct (cmp_le_total compareKeyBytes (start a) (start b)); [exists (start b)|exists (start a)];
    repeat split; try done; apply (cmp_le_refl compareKeyBytes).
Qed.

Lemma keySuccessor_spec k k' : Forall (λ x, 0 ≤ x) k' →
  (cmp_le compareKeyBytes k k' ∧ compareKeyBytes k' (keySuccessor k) = Lt) ↔ k' = k.
Proof.
  unfold cmp_le, keySuccessor. intros Hk'. rewrite !compareKeyBytes_lex. revert k.
  induction Hk' as [|y k' Hy Hk' IH]; intros [|x k]; simpl; try naive_solver.
  - assert ((y ?= 0) ≠ Lt). { rewrite Z.compare_lt_iff. lia. }
    destruct (y ?= 0) eqn:E; try naive_solver. destruct k'; naive_solver.
  - rewrite (Z.compare_antisym y x). destruct (Z.compare_spec y x) as [->|H|H]; simpl.
    + rewrite IH. naive_solver.
    + split; [naive_solver|]. intros [= -> ->]. lia.
    + split; [naive_solver|]. intros [= -> ->]. lia.
Qed.

Definition point_range (ks : jsstr) (key : bytes) : KeyRange :=
  {| keyspace := ks; start := key; end_ := Some (keySuccessor key) |}.

Lemma keyInRange_point ks k k' : Forall (λ x, 0 ≤ x) k' →
  keyInRange k' (point_range ks k) = true ↔ k' = k.
Proof. intros H. rewrite keyInRange_true, before_end_true. simpl. by apply keySuccessor_spec. Qed.

(** ** Range sets *)

(** Every keyspace once, each list non-empty and of ranges of its keyspace. *)
Record rs_ok (s : RangeSet) : Prop := {
  rs_keys : jm_ok (byKeyspace s);
  rs_lists : ∀ ks l, (ks, l) ∈ byKeyspace s → l ≠ [] ∧ Forall (λ r, keyspace r = ks) l }.

Lemma elem_of_toArray s r : r ∈ toArray s ↔ ∃ ks l, (ks, l) ∈ byKeyspace s ∧ r ∈ l.
Proof.
  unfold toArray, jm_values. rewrite list_elem_of_In, in_concat.
  setoid_rewrite <-list_elem_of_In. setoid_rewrite list_elem_of_fmap. split.
  - intros (l & ([ks l'] & -> & ?) & ?). eauto.
  - intros (ks & l & ? & ?). exists l. split; [|done]. by exists (ks, l).
Qed.

Lemma elem_of_toArray_get s r : rs_ok s →
  r ∈ toArray s ↔ ∃ l, jm_get (byKeyspace s) (keyspace r) = Some l ∧ r ∈ l.
Proof.
  intros [Hk Hl]. rewrite elem_of_toArray. split.
  - intros (ks & l & Hin & Hr). destruct (Hl _ _ Hin) as [_ Hf]. rewrite Forall_forall in Hf.
    rewrite (Hf r Hr). exists l. split; [|done]. by apply jm_get_elem.
  - intros (l & Hg%jm_get_in & ?). eauto.
Qed.

Lemma rs_new_ok : rs_ok rs_new.
Proof. split; [apply NoDup_nil_2|]. intros ks l H. by apply elem_of_nil in H. Qed.

Lemma jm_set_elem {K V} `{!EqDecision K} (m : list (K * V)) k v x :
  jm_ok m → x ∈ jm_set m k v ↔ x = (k, v) ∨ (x ∈ m ∧ x.1 ≠ k).
Proof.
  intros Hm. destruct x as [k' v'].
  rewrite <-jm_get_elem, <-(jm_get_elem m) by auto using jm_set_ok.
  rewrite jm_get_set. case_decide; naive_solver.
Qed.

Lemma rs_add_ok s r : rs_ok s → rs_ok (rs_add s r).
Proof.
  intros [Hk Hl]. unfold rs_add. split; simpl.
  - case_match; by apply jm_set_ok.
  - intros ks l. case_match eqn:E; (rewrite jm_set_elem by done); intros [[= -> ->]|[? _]]; eauto.
    apply jm_get_in, Hl in E as [? Hf]. split; [by destruct l0|]. apply Forall_app_2; [done|]. by constructor.
Qed.

Lemma rs_add_get s r ks :
  jm_get (byKeyspace (rs_add s r)) ks =
    if decide (ks = keyspace r) then Some (default [] (jm_get (byKeyspace s) (keyspace r)) ++ [r])
    else jm_get (byKeyspace s) ks.
Proof.
  unfold rs_add. simpl. destruct (jm_get (byKeyspace s) (keyspace r)); by rewrite jm_get_set.
Qed.

Lemma rs_add_elem s r x : rs_ok s → x ∈ toArray (rs_add s r) ↔ x = r ∨ x ∈ toArray s.
Proof.
  intros Hs. rewrite !elem_of_toArray_get by auto using rs_add_ok. rewrite rs_add_get.
  case_decide as Hd; [|naive_solver]. rewrite Hd.
  split.
  - intros (l & [= <-] & [Hx|Hx%list_elem_of_singleton]%elem_of_app); [right|by left].
    destruct (jm_get (byKeyspace s) (keyspace r)); [eauto|by apply elem_of_nil in Hx].
  - intros H. eexists; split; [done|]. apply elem_of_app.
    destruct H as [->|(l & -> & ?)]; [right; by apply list_elem_of_singleton|by left].
Qed.

Lemma fold_rs_add_ok rs s : rs_ok s → rs_ok (fold_left rs_add rs s).
Proof. revert s. induction rs; simpl; auto using rs_add_ok. Qed.

Lemma fold_rs_add_elem rs s x : rs_ok s → x ∈ toArray (fold_left rs_add rs s) ↔ x ∈ rs ∨ x ∈ toArray s.
Proof.
  revert s. induction rs as [|r rs IH]; intros s Hs; simpl; [set_solver|].
  rewrite IH, rs_add_elem by auto using rs_add_ok. set_solver.
Qed.

Lemma rs_of_ok rs : rs_ok (rs_of rs).
Proof. apply fold_rs_add_ok, rs_new_ok. Qed.

Lemma rs_of_elem rs x : x ∈ toArray (rs_of rs) ↔ x ∈ rs.
Proof. unfold rs_of. rewrite fold_rs_add_elem by apply rs_new_ok. simpl. set_solver. Qed.

Create HintDb ranges discriminated.
#[export] Hint Resolve rs_new_ok rs_add_ok fold_rs_add_ok rs_of_ok : ranges.

Lemma existsb_Exists {A} (f : A → bool) l : existsb f l = true ↔ ∃ x, x ∈ l ∧ f x = true.
Proof. rewrite existsb_exists. by setoid_rewrite list_elem_of_In. Qed.

Lemma intersectsRange_true s r : rs_ok s →
  intersectsRange s r = true ↔ ∃ a, a ∈ toArray s ∧ rangesOverlap a r = true.
Proof.
  intros Hs. setoid_rewrite elem_of_toArray_get; [|done]. unfold intersectsRange. split.
  - case_match eqn:E; [|done]. rewrite existsb_Exists. intros (a & Ha & Ho).
    exists a. split; [|done]. exists l. apply rangesOverlap_true in Ho as (-> & _). done.
  - intros (a & (l & Hg & Ha) & Ho). pose proof Ho as (E & _)%rangesOverlap_true.
    rewrite <-E, Hg, existsb_Exists. eauto.
Qed.

Lemma intersects_true s t : rs_ok s → rs_ok t →
  intersects s t = true ↔ ∃ a b, a ∈ toArray s ∧ b ∈ toArray t ∧ rangesOverlap a b = true.
Proof.
  intros Hs Ht. unfold intersects. rewrite existsb_Exists. split.
  - intros ([ks l] & Hin & H). case_match eqn:E; [|done].
    apply existsb_Exists in H as (a & Ha & (b & Hb & Ho)%existsb_Exists).
    exists a, b. rewrite !elem_of_toArray. split_and!; eauto using jm_get_in.
  - intros (a & b & (ks & l & Hin & Ha)%elem_of_toArray & (l' & Hg & Hb)%elem_of_toArray_get & Ho); [|done].
    exists (ks, l). split; [done|]. pose proof Ho as (E & _)%rangesOverlap_true.
    destruct (rs_lists s Hs _ _ Hin) as [_ Hf]. rewrite Forall_forall in Hf.
    rewrite <-(Hf a Ha), E, Hg, existsb_Exists. exists a. split; [done|]. rewrite existsb_Exists. eauto.
Qed.

Lemma rs_size_toArray s : rs_size s = length (toArray s).
Proof.
  unfold rs_size, toArray. enough (∀ ls n, fold_left (λ n (l : list KeyRange), n + length l)%nat ls n =
    (n + length (concat ls))%nat) as -> by done.
  induction ls as [|l ls IH]; intros n; simpl; [lia|]. rewrite IH, length_app. lia.
Qed.

(** ** Serialization *)
Definition range_bytes (r : KeyRange) : Prop :=
  Forall is_byte (start r) ∧ match end_ r with None => True | Some e => Forall is_byte e end.

Lemma deserialize_serialize r : range_bytes r → deserializeKeyRange (serializeKeyRange r) = Ok r.
Proof.
  destruct r as [ks s [e|]]; intros [H1 H2]; unfold deserializeKeyRange; simpl in *;
    rewrite !base64_roundtrip by done; done.
Qed.

(** ** Properties *)

(** For a non-empty prefix of scalars, the range [indexKeyRangeStart, indexKeyRangeEnd) contains
    the key of a tuple exactly when the tuple starts with the prefix. *)
Theorem prefix_range_exact ks p vs k s e :
  forallb indexableb p = true → forallb indexableb vs = true →
  encodeIndexKey vs = Ok k → indexKeyRangeStart p = Ok s → indexKeyRangeEnd p = Ok (Some e) →
  keyInRange k {| keyspace := ks; start := s; end_ := Some e |} = true ↔ has_prefix p vs.
Proof.
  intros Hp Hv Ek Es. unfold indexKeyRangeEnd, indexKeyRangeStart in *. destruct p as [|x p]; [done|].
  rewrite Es. cbn [res_bind]. intros [= <-].
  rewrite keyInRange_true, before_end_true. by apply prefix_range_spec.
Qed.

Lemma prefix_range_exact_witness :
  let p := [VStr (js "a")] in let vs := [VStr (js "a"); VBig 7] in
  ∃ k s e, encodeIndexKey vs = Ok k ∧ indexKeyRangeStart p = Ok s ∧ indexKeyRangeEnd p = Ok (Some e) ∧
    (keyInRange k {| keyspace := js "index:t:i"; start := s; end_ := Some e |} = true ↔ has_prefix p vs).
Proof.
  cbv zeta. eexists _, _, _. split; [reflexivity|]. split; [reflexivity|]. split; [reflexivity|].
  apply prefix_range_exact; reflexivity.
Defined.

(** Two range sets built by any sequence of additions intersect exactly when some range of one
    overlaps some range of the other, and a key covered by both sets in one keyspace always makes
    them intersect (no conflict is missed). *)
Theorem rangeset_intersects rs1 rs2 :
  (intersects (rs_of rs1) (rs_of rs2) = true ↔ ∃ a b, a ∈ rs1 ∧ b ∈ rs2 ∧ rangesOverlap a b = true) ∧
  (∀ a b k, a ∈ rs1 → b ∈ rs2 → keyspace a = keyspace b → keyInRange k a = true → keyInRange k b = true →
     intersects (rs_of rs1) (rs_of rs2) = true) ∧
  (∀ r, intersectsRange (rs_of rs1) r = true ↔ ∃ a, a ∈ rs1 ∧ rangesOverlap a r = true) ∧
  intersects (rs_of rs1) (rs_of rs2) = intersects (rs_of rs2) (rs_of rs1).
Proof.
  assert (H : ∀ rs1 rs2, intersects (rs_of rs1) (rs_of rs2) = true ↔
    ∃ a b, a ∈ rs1 ∧ b ∈ rs2 ∧ rangesOverlap a b = true).
  { intros. rewrite intersects_true by apply rs_of_ok. by setoid_rewrite rs_of_elem. }
  split_and!; [done|..].
  - intros a b k Ha Hb Hk H1 H2. rewrite H. exists a, b.
    split_and!; try done. by apply (common_key_overlap a b k).
  - intros r. rewrite intersectsRange_true by apply rs_of_ok. by setoid_rewrite rs_of_elem.
  - apply eq_iff_eq_true. rewrite !H. setoid_rewrite (rangesOverlap_sym) at 1. naive_solver.
Qed.

(** non-empty half-open ranges of one keyspace overlap exactly when some key is in both; a point
    range built by [addKey] covers its key and no other. *)
Theorem ranges_overlap_iff_common_key a b :
  range_nonempty a → range_nonempty b →
  (rangesOverlap a b = true ↔
     keyspace a = keyspace b ∧ ∃ k, keyInRange k a = true ∧ keyInRange k b = true) ∧
  (∀ ks key k', Forall (λ x, 0 ≤ x) k' →
     (∃ r, r ∈ toArray (addKey rs_new ks key) ∧ keyInRange k' r = true) ↔ k' = key).
Proof.
  intros Ha Hb. split; [|intros ks key k' Hk'; rewrite <-(keyInRange_point ks) by done;
    change (toArray (addKey rs_new ks key)) with [point_range ks key]; set_solver]. split.
  - intros H. split; [by apply rangesOverlap_true in H as [? _]|by apply rangesOverlap_common].
  - intros (Hk & k & H1 & H2). by apply (common_key_overlap a b k).
Qed.

Lemma ranges_overlap_witness :
  let a := point_range (js "t") [1] in let b := {| keyspace := js "t"; start := []; end_ := None |} in
  rangesOverlap a b = true ↔ keyspace a = keyspace b ∧ ∃ k, keyInRange k a = true ∧ keyInRange k b = true.
Proof.
  cbv zeta. apply (ranges_overlap_iff_common_key (point_range (js "t") [1])
    {| keyspace := js "t"; start := []; end_ := None |}); reflexivity.
Defined.

(** a range and its keyspace id survive the wire: deserializing a serialized range gives it
    back, and parsing a keyspace id gives the keyspace whose table name has no colon. *)
Theorem range_wire_roundtrip r ks :
  range_bytes r → colon ∉ keyspace_table ks →
  deserializeKeyRange (serializeKeyRange r) = Ok r ∧
  parseKeyspaceId (keyspaceId ks) = Ok ks ∧ tableOfKeyspaceId (keyspaceId ks) = Ok (keyspace_table ks).
Proof.
  intros Hr Hk. split; [by apply deserialize_serialize|]. unfold tableOfKeyspaceId.
  by rewrite parse_keyspaceId.
Qed.

Lemma range_wire_witness :
  let r := point_range (js "index:t:i") [6; 97; 0] in let ks := KIndex (js "t") (js "a:b") in
  deserializeKeyRange (serializeKeyRange r) = Ok r ∧
  parseKeyspaceId (keyspaceId ks) = Ok ks ∧ tableOfKeyspaceId (keyspaceId ks) = Ok (keyspace_table ks).
Proof.
  cbv zeta. apply range_wire_roundtrip.
  - split; simpl; repeat (apply Forall_cons_2; [unfold is_byte; lia|]); apply Forall_nil_2.
  - apply (bool_decide_unpack _). by vm_compute.
Defined.
