(* ===== verification/IntervalIndex.v ===== *)
(** The interval index of [packages/index-key-codec/src/interval-index.ts]: per keyspace an augmented
    treap, refined to a plain list of (range, value) entries. *)
From S2P Require Import Prelude Numbers Values Json IndexKeys Ranges.

(** FNV-1a over (start, end or the infinity marker, valueKey), in 32 bits. *)
Definition mix (h byte : Z) : Z := (Z.lxor h byte * 0x01000193) mod 2 ^ 32.

Definition hashPriority (start : bytes) (end_ : option bytes) (valueKey : jsstr) : Z :=
  let h := fold_left mix start 0x811c9dc5 in
  let h := mix h 0x00 in
  let h := match end_ with None => mix h 0xff | Some e => fold_left mix e h end in
  let h := mix h 0x00 in
  fold_left mix (List.map (λ c, Z.land c 0xff) valueKey) h.

Definition maxEnd2 (a b : option bytes) : option bytes :=
  match a, b with
  | Some x, Some y => if cmp_ltb (compareKeyBytes x y) then b else a
  | _, _ => None
  end.

(** JavaScript [<] on strings: by UTF-16 code unit. *)
Definition compareStr : jsstr → jsstr → comparison := lexcmp Z.compare.

Section treap.
Context {V : Type}.

(** The immutable fields of a node. *)
Record entry := {
  e_start : bytes; e_end : option bytes; e_value : V; e_key : jsstr; e_priority : Z }.

Inductive tree :=
  | Leaf
  | Node (e : entry) (maxEnd : option bytes) (left right : tree).

Definition cmpEntry (aStart : bytes) (aEnd : option bytes) (aKey : jsstr) (n : entry) : comparison :=
  match compareKeyBytes aStart (e_start n) with
  | Eq =>
      let byKey := compareStr aKey (e_key n) in
      match aEnd, e_end n with
      | None, None => byKey
      | None, Some _ => Gt
      | Some _, None => Lt
      | Some x, Some y => match compareKeyBytes x y with Eq => byKey | c => c end
      end
  | c => c
  end.

(** [recalcMax]: a node built with the maximum of its own end and its children's. *)
Definition maxEnd_of (e : entry) (l r : tree) : option bytes :=
  let m := e_end e in
  let m := match l with Leaf => m | Node _ x _ _ => maxEnd2 m x end in
  match r with Leaf => m | Node _ x _ _ => maxEnd2 m x end.

Definition recalcMax (e : entry) (l r : tree) : tree := Node e (maxEnd_of e l r) l r.

(** [n.left!] of a node without one would throw; the callers only rotate towards a child. *)
Definition rotateRight (e : entry) (l r : tree) : tree :=
  match l with
  | Leaf => recalcMax e l r
  | Node le _ ll lr => recalcMax le ll (recalcMax e lr r)
  end.

Definition rotateLeft (e : entry) (l r : tree) : tree :=
  match r with
  | Leaf => recalcMax e l r
  | Node re _ rl rr => recalcMax re (recalcMax e l rl) rr
  end.

Definition priority (t : tree) : option Z :=
  match t with Leaf => None | Node e _ _ _ => Some (e_priority e) end.

(** [t.priority > p] for a non-null [t] *)
Definition above (t : tree) (p : Z) : bool :=
  match t with Leaf => false | Node e _ _ _ => p <? e_priority e end.

Record Treap := { root : tree; tsize : Z }.

Definition new_Treap : Treap := {| root := Leaf; tsize := 0 |}.

(** [insertAt]: the subtree and [this.size] after it. *)
Fixpoint insertAt (t : tree) (start : bytes) (end_ : option bytes) (value : V) (valueKey : jsstr)
    (size : Z) : tree * Z :=
  match t with
  | Leaf =>
      (Node {| e_start := start; e_end := end_; e_value := value; e_key := valueKey;
               e_priority := hashPriority start end_ valueKey |} end_ Leaf Leaf, size + 1)
  | Node e m l r =>
      match cmpEntry start end_ valueKey e with
      | Eq => (t, size)
      | Lt =>
          let '(l', size') := insertAt l start end_ value valueKey size in
          (if above l' (e_priority e) then rotateRight e l' r else recalcMax e l' r, size')
      | Gt =>
          let '(r', size') := insertAt r start end_ value valueKey size in
          (if above r' (e_priority e) then rotateLeft e l r' else recalcMax e l r', size')
      end
  end.

Definition Treap_insert (t : Treap) start end_ value valueKey : Treap :=
  let '(r, s) := insertAt (root t) start end_ value valueKey (tsize t) in {| root := r; tsize := s |}.

Fixpoint nodes (t : tree) : nat :=
  match t with Leaf => 0 | Node _ _ l r => S (nodes l + nodes r) end.

(** [removeAt] recurses below a rotation, into a tree with fewer nodes: the fuel is the node count. *)
Fixpoint removeAt (fuel : nat) (t : tree) (start : bytes) (end_ : option bytes) (valueKey : jsstr)
    (size : Z) : tree * Z :=
  match fuel with
  | O => (t, size)
  | S fuel =>
      match t with
      | Leaf => (Leaf, size)
      | Node e m l r =>
          match cmpEntry start end_ valueKey e with
          | Lt => let '(l', s) := removeAt fuel l start end_ valueKey size in (recalcMax e l' r, s)
          | Gt => let '(r', s) := removeAt fuel r start end_ valueKey size in (recalcMax e l r', s)
          | Eq =>
              match l, r with
              | Leaf, _ => (r, size - 1)
              | _, Leaf => (l, size - 1)
              | Node le _ ll lr, Node re _ rl rr =>
                  if e_priority re <? e_priority le then
                    let '(r', s) := removeAt fuel (recalcMax e lr r) start end_ valueKey size in
                    (recalcMax le ll r', s)
                  else
                    let '(l', s) := removeAt fuel (recalcMax e l rl) start end_ valueKey size in
                    (recalcMax re l' rr, s)
              end
          end
      end
  end.

Definition Treap_remove (t : Treap) start end_ valueKey : Treap :=
  let '(r, s) := removeAt (nodes (root t)) (root t) start end_ valueKey (tsize t) in
  {| root := r; tsize := s |}.

Definition entry_range (ks : jsstr) (e : entry) : KeyRange :=
  {| keyspace := ks; start := e_start e; end_ := e_end e |}.

(** [collectAt]: what the walk pushes on [out], in order. *)
Fixpoint collectAt (t : tree) (ks : jsstr) (q : KeyRange) : list V :=
  match t with
  | Leaf => []
  | Node e m l r =>
      if match m with None => false | Some me => cmp_leb (compareKeyBytes me (start q)) end then []
      else
        collectAt l ks q ++
        (if rangesOverlap (entry_range ks e) q then [e_value e] else []) ++
        (if before_end (e_start e) (end_ q) then collectAt r ks q else [])
  end.

Record IntervalIndex := { ix_trees : list (jsstr * Treap) }.
Definition ix_new : IntervalIndex := {| ix_trees := [] |}.

Variable valueKey : V → jsstr.

Definition ix_insert (ix : IntervalIndex) (r : KeyRange) (v : V) : IntervalIndex :=
  let tree := default new_Treap (jm_get (ix_trees ix) (keyspace r)) in
  {| ix_trees := jm_set (ix_trees ix) (keyspace r) (Treap_insert tree (start r) (end_ r) v (valueKey v)) |}.

Definition ix_remove (ix : IntervalIndex) (r : KeyRange) (v : V) : IntervalIndex :=
  match jm_get (ix_trees ix) (keyspace r) with
  | None => ix
  | Some tree =>
      let tree' := Treap_remove tree (start r) (end_ r) (valueKey v) in
      {| ix_trees := if tsize tree' =? 0 then jm_delete (ix_trees ix) (keyspace r)
                     else jm_set (ix_trees ix) (keyspace r) tree' |}
  end.

Definition queryOverlaps (ix : IntervalIndex) (r : KeyRange) : list V :=
  match jm_get (ix_trees ix) (keyspace r) with
  | None => []
  | Some tree => collectAt (root tree) (keyspace r) r
  end.

Definition ix_size (ix : IntervalIndex) : Z :=
  fold_left (λ n t, n + tsize t) (jm_values (ix_trees ix)) 0.
End treap.
Arguments entry : clear implicits.
Arguments tree : clear implicits.
Arguments Treap : clear implicits.
Arguments IntervalIndex : clear implicits.

(** ** The order of entries *)

Definition triple : Type := bytes * option bytes * jsstr.

Definition cmpEnd (a b : option bytes) : comparison :=
  match a, b with
  | None, None => Eq
  | None, Some _ => Gt
  | Some _, None => Lt
  | Some x, Some y => compareKeyBytes x y
  end.

Definition cmp_pair {A B} (ca : A → A → comparison) (cb : B → B → comparison) (x y : A * B) : comparison :=
  match ca x.1 y.1 with Eq => cb x.2 y.2 | c => c end.

#[global] Instance cmp_pair_total {A B} (ca : A → A → comparison) (cb : B → B → comparison)
  `{!CmpTotal ca, !CmpTotal cb} : CmpTotal (cmp_pair ca cb).
Proof.
  assert (Heq : ∀ x y, cmp_pair ca cb x y = Eq ↔ x = y).
  { intros [a b] [a' b']. unfold cmp_pair; simpl. split.
    - destruct (ca a a') eqn:E; try done. apply (cmp_eq ca) in E as ->. by intros ->%(cmp_eq cb).
    - intros [= -> ->]. by rewrite (cmp_refl ca), (cmp_refl cb). }
  split; [split|].
  - intros x. by apply Heq.
  - intros [a b] [a' b']. unfold cmp_pair; simpl. rewrite (cmp_opp ca a a').
    destruct (ca a a'); simpl; try done. apply (cmp_opp cb).
  - intros x y z ->%Heq. done.
  - intros [a b] [a' b'] [a2 b2]. unfold cmp_pair; simpl. intros H1 H2.
    destruct (ca a a') eqn:E1; [|..|done].
    + apply (cmp_eq ca) in E1 as ->. destruct (ca a' a2); try done. by eapply (cmp_lt_trans cb).
    + destruct (ca a' a2) eqn:E2; [|..|done].
      * apply (cmp_eq ca) in E2 as ->. by rewrite E1.
      * by rewrite (cmp_lt_trans ca _ _ _ E1 E2).
  - intros x y. apply Heq.
Qed.

#[global] Instance cmpEnd_total : CmpTotal cmpEnd.
Proof.
  assert (Heq : ∀ x y, cmpEnd x y = Eq ↔ x = y).
  { intros [x|] [y|]; simpl; try done. split; [by intros ->%(cmp_eq compareKeyBytes)|]. intros [= ->]. apply (cmp_refl compareKeyBytes). }
  split; [split|].
  - intros x. by apply Heq.
  - intros [x|] [y|]; simpl; try done. apply (cmp_opp compareKeyBytes).
  - intros x y z ->%Heq. done.
  - intros [x|] [y|] [z|]; simpl; try done. apply (cmp_lt_trans compareKeyBytes).
  - intros x y. apply Heq.
Qed.

#[global] Instance compareStr_total : CmpTotal compareStr.
Proof. unfold compareStr. apply _. Qed.

Definition cmpTriple : triple → triple → comparison := cmp_pair (cmp_pair compareKeyBytes cmpEnd) compareStr.
#[global] Instance cmpTriple_total : CmpTotal cmpTriple.
Proof. apply _. Qed.

Section proofs.
Context {V : Type}.
Implicit Types (t : tree V) (e : entry V).

Definition e_triple e : triple := (e_start e, e_end e, e_key e).

Lemma cmpEntry_triple s en k e : cmpEntry s en k e = cmpTriple (s, en, k) (e_triple e).
Proof.
  unfold cmpEntry, cmpTriple, cmp_pair, e_triple; simpl.
  destruct (compareKeyBytes s (e_start e)); try done.
  destruct en, (e_end e); simpl; try done.
Qed.

(** The in-order entries of a tree. *)
Fixpoint entries t : list (entry V) :=
  match t with Leaf => [] | Node e _ l r => entries l ++ e :: entries r end.

Lemma entries_recalc e l r : entries (recalcMax e l r) = entries l ++ e :: entries r.
Proof. done. Qed.
Lemma entries_rotateRight e l r : entries (rotateRight e l r) = entries l ++ e :: entries r.
Proof. destruct l; simpl; [done|]. by rewrite <-(assoc_L (++)). Qed.
Lemma entries_rotateLeft e l r : entries (rotateLeft e l r) = entries l ++ e :: entries r.
Proof. destruct r; simpl; [done|]. by rewrite <-(assoc_L (++)). Qed.

Lemma length_entries t : length (entries t) = nodes t.
Proof. induction t; simpl; [done|]. rewrite length_app; simpl. lia. Qed.

(** Insertion and deletion on the sorted entry list: what the tree operations refine. *)
Fixpoint ins e (l : list (entry V)) : list (entry V) :=
  match l with
  | [] => [e]
  | x :: l' =>
      match cmpTriple (e_triple e) (e_triple x) with
      | Lt => e :: l
      | Eq => l
      | Gt => x :: ins e l'
      end
  end.

Definition del (k : triple) (l : list (entry V)) : list (entry V) := filter (λ x, e_triple x ≠ k) l.

Definition entry_lt (x y : entry V) : Prop := cmpTriple (e_triple x) (e_triple y) = Lt.
Definition sorted (l : list (entry V)) : Prop := StronglySorted entry_lt l.

Lemma sorted_app l x r : sorted (l ++ x :: r) ↔
  sorted l ∧ sorted r ∧ Forall (λ y, entry_lt y x) l ∧ Forall (entry_lt x) r.
Proof.
  unfold sorted. induction l as [|y l IH]; simpl.
  - split; [intros H; inversion_clear H; split_and!; done || constructor|]. intros (_ & ? & _ & ?). by constructor.
  - split.
    + inversion_clear 1 as [|? ? Hs Hf]. apply IH in Hs as (? & ? & ? & ?).
      apply Forall_app in Hf as [? [??]%Forall_cons]. split_and!; try done; by constructor.
    + intros (Hl & Hr & [Hyx Hlx]%Forall_cons & Hxr). inversion_clear Hl. constructor; [by apply IH|].
      apply Forall_app_2; [done|]. constructor; [done|]. eapply Forall_impl; [exact Hxr|].
      intros z Hz. by eapply (cmp_lt_trans cmpTriple).
Qed.

Lemma ins_lt e x l r : cmpTriple (e_triple e) (e_triple x) = Lt → ins e (l ++ x :: r) = ins e l ++ x :: r.
Proof.
  intros H. induction l as [|y l IH]; simpl; [by rewrite H|].
  destruct (cmpTriple (e_triple e) (e_triple y)); simpl; try done. by rewrite IH.
Qed.

Lemma ins_ge e x l r : Forall (λ y, entry_lt y x) l → cmpTriple (e_triple e) (e_triple x) ≠ Lt →
  ins e (l ++ x :: r) = l ++ ins e (x :: r).
Proof.
  intros Hl H. induction Hl as [|y l Hy Hl IH]; [done|]. cbn [app ins].
  assert (cmpTriple (e_triple e) (e_triple y) = Gt) as ->; [|by rewrite IH].
  rewrite (cmp_opp cmpTriple (e_triple y)).
  by rewrite (cmp_lt_le_trans cmpTriple _ _ _ Hy (proj1 (cmp_not_lt_le cmpTriple _ _) H)).
Qed.

Definition mk_entry (s : bytes) (en : option bytes) (v : V) (k : jsstr) : entry V :=
  {| e_start := s; e_end := en; e_value := v; e_key := k; e_priority := hashPriority s en k |}.

Lemma insertAt_entries t s en v k z : sorted (entries t) →
  entries (insertAt t s en v k z).1 = ins (mk_entry s en v k) (entries t).
Proof.
  induction t as [|e m l IHl r IHr]; [done|]. cbn [entries insertAt]. intros Hs.
  pose proof Hs as (Hl & Hr & Hlx & Hxr)%sorted_app. rewrite cmpEntry_triple.
  change (s, en, k) with (e_triple (mk_entry s en v k)).
  destruct (cmpTriple (e_triple (mk_entry s en v k)) (e_triple e)) eqn:E.
  - rewrite ins_ge by (done || by rewrite E). cbn [ins]. by rewrite E.
  - rewrite ins_lt by done. destruct (insertAt l s en v k z) as [l' z'] eqn:El. cbn [fst] in *.
    rewrite <-IHl by done. destruct (above l' (e_priority e)); [apply entries_rotateRight|done].
  - rewrite ins_ge by (done || by rewrite E). cbn [ins]. rewrite E.
    destruct (insertAt r s en v k z) as [r' z'] eqn:Er. cbn [fst] in *.
    rewrite <-IHr by done. destruct (above r' (e_priority e)); [apply entries_rotateLeft|done].
Qed.

Lemma del_app k l r : del k (l ++ r) = del k l ++ del k r.
Proof. apply filter_app. Qed.

Lemma del_none k l : Forall (λ x, e_triple x ≠ k) l → del k l = l.
Proof.
  unfold del. induction 1 as [|x l Hx Hl IH]; [done|].
  rewrite filter_cons_True by done. by rewrite IH.
Qed.

Lemma lt_triple_ne x y : cmpTriple x y = Lt → x ≠ y.
Proof. intros H ->. by rewrite (cmp_refl cmpTriple) in H. Qed.

(** Deleting a key from the entries around [e]. *)
Lemma del_lt k e l r : cmpTriple k (e_triple e) = Lt → Forall (entry_lt e) r →
  del k (l ++ e :: r) = del k l ++ e :: r.
Proof.
  intros H Hr. rewrite del_app. f_equal. apply del_none. constructor.
  - by apply not_eq_sym, lt_triple_ne.
  - eapply Forall_impl; [exact Hr|]. intros x Hx. apply not_eq_sym, lt_triple_ne.
    by eapply (cmp_lt_trans cmpTriple).
Qed.

Lemma del_gt k e l r : cmpTriple k (e_triple e) = Gt → Forall (λ y, entry_lt y e) l →
  del k (l ++ e :: r) = l ++ e :: del k r.
Proof.
  intros H%(cmp_gt_lt cmpTriple) Hl. rewrite del_app.
  unfold del at 2. rewrite filter_cons_True by (by apply lt_triple_ne). rewrite del_none; [done|].
  eapply Forall_impl; [exact Hl|]. intros x Hx. apply lt_triple_ne. exact (cmp_lt_trans cmpTriple _ _ _ Hx H).
Qed.

Lemma del_eq e l r : Forall (λ y, entry_lt y e) l → Forall (entry_lt e) r →
  del (e_triple e) (l ++ e :: r) = l ++ r.
Proof.
  intros Hl Hr. rewrite del_app. unfold del at 2. rewrite filter_cons_False by (intros H; by apply H).
  fold (del (e_triple e) r). rewrite !del_none; [done|..].
  - eapply Forall_impl; [exact Hr|]. intros x Hx. by apply not_eq_sym, lt_triple_ne.
  - eapply Forall_impl; [exact Hl|]. intros x Hx. by apply lt_triple_ne.
Qed.

(** With at least as much fuel as nodes, [removeAt] deletes exactly the addressed entry. *)
Lemma removeAt_entries fuel t s en k z : (nodes t ≤ fuel)%nat → sorted (entries t) →
  entries (removeAt fuel t s en k z).1 = del (s, en, k) (entries t).
Proof.
  revert t. induction fuel as [|fuel IH]; intros [|e m l r] Hf Hs; cbn [nodes] in Hf; try lia; try done.
  cbn [removeAt entries] in *. pose proof Hs as (Hl & Hr & Hlx & Hxr)%sorted_app.
  rewrite cmpEntry_triple. destruct (cmpTriple (s, en, k) (e_triple e)) eqn:E.
  - apply (cmp_eq cmpTriple) in E. rewrite E, del_eq by done.
    destruct l as [|le lm ll lr]; [done|]. destruct r as [|re rm rl rr]; [by rewrite app_nil_r|].
    destruct (e_priority re <? e_priority le).
    + pose proof (IH (recalcMax e lr (Node re rm rl rr))) as IH'. rewrite entries_recalc in IH'.
      destruct (removeAt _ _ _ _ _ _) as [r' s']. cbn [fst entries recalcMax nodes] in *.
      rewrite <-(assoc_L (++)) in Hs. apply (sorted_app _ le) in Hs as (_ & Hs & _ & _).
      pose proof Hs as (_ & _ & H1 & H2)%sorted_app.
      rewrite IH' by (done || lia). rewrite E, del_eq by done. by rewrite <-(assoc_L (++)).
    + pose proof (IH (recalcMax e (Node le lm ll lr) rl)) as IH'. rewrite entries_recalc in IH'.
      destruct (removeAt _ _ _ _ _ _) as [r' s']. cbn [fst entries recalcMax nodes] in *.
      rewrite app_comm_cons, (assoc_L (++)) in Hs. apply sorted_app in Hs as (Hs & _ & _ & _).
      pose proof Hs as (_ & _ & H1 & H2)%sorted_app.
      rewrite IH' by (done || lia). rewrite E, del_eq by done. by rewrite <-(assoc_L (++)).
  - rewrite del_lt by done. pose proof (IH l) as IH'. destruct (removeAt _ _ _ _ _ _) as [l' s'].
    cbn [fst entries recalcMax] in *. by rewrite IH' by (done || lia).
  - rewrite del_gt by done. pose proof (IH r) as IH'. destruct (removeAt _ _ _ _ _ _) as [r' s'].
    cbn [fst entries recalcMax] in *. by rewrite IH' by (done || lia).
Qed.

(** ** The augmentation and the heap order *)

Fixpoint max_ok t : Prop :=
  match t with Leaf => True | Node e m l r => m = maxEnd_of e l r ∧ max_ok l ∧ max_ok r end.

Definition below t (p : Z) : Prop :=
  match t with Leaf => True | Node e _ _ _ => e_priority e ≤ p end.

Definition children_below t (p : Z) : Prop :=
  match t with Leaf => True | Node _ _ l r => below l p ∧ below r p end.

Fixpoint heap t : Prop :=
  match t with
  | Leaf => True
  | Node e _ l r => below l (e_priority e) ∧ below r (e_priority e) ∧ heap l ∧ heap r
  end.

Lemma below_le t p q : below t p → p ≤ q → below t q.
Proof. destruct t; simpl; [done|lia]. Qed.

Lemma above_spec t p : if above t p then ∃ e m l r, t = Node e m l r ∧ p < e_priority e else below t p.
Proof. destruct t as [|e m l r]; simpl; [done|]. destruct (Z.ltb_spec p (e_priority e)); eauto 10. Qed.

Lemma insertAt_max_ok t s en v k z : max_ok t → max_ok (insertAt t s en v k z).1.
Proof.
  induction t as [|e m l IHl r IHr]; [by intros|]. cbn [insertAt max_ok]. intros (Hm & Hl & Hr).
  destruct (cmpEntry s en k e); [done|..].
  - destruct (insertAt l s en v k z) as [l' z']. cbn [fst] in *. specialize (IHl Hl).
    destruct (above l' (e_priority e)); [|done]. destruct l'; simpl in *; naive_solver.
  - destruct (insertAt r s en v k z) as [r' z']. cbn [fst] in *. specialize (IHr Hr).
    destruct (above r' (e_priority e)); [|done]. destruct r'; simpl in *; naive_solver.
Qed.

Lemma insertAt_heap t s en v k z : heap t →
  heap (insertAt t s en v k z).1 ∧ ∀ p, below t p → children_below (insertAt t s en v k z).1 p.
Proof.
  induction t as [|e m l IHl r IHr]; [by intros|]. cbn [insertAt heap below]. intros (Bl & Br & Hl & Hr).
  destruct (cmpEntry s en k e).
  - split; [done|]. intros p Hp. simpl. eauto using below_le.
  - destruct (insertAt l s en v k z) as [l' z']. cbn [fst] in *. destruct (IHl Hl) as [Hl' Hc].
    specialize (Hc _ Bl). pose proof (above_spec l' (e_priority e)) as Ha.
    destruct (above l' (e_priority e)); simpl.
    + destruct Ha as (le & lm & ll & lr & -> & Hlt). simpl in *. destruct Hc, Hl' as (? & ? & ? & ?).
      split; [repeat split; auto; lia|]. eauto using below_le.
    + eauto 10 using below_le.
  - destruct (insertAt r s en v k z) as [r' z']. cbn [fst] in *. destruct (IHr Hr) as [Hr' Hc].
    specialize (Hc _ Br). pose proof (above_spec r' (e_priority e)) as Ha.
    destruct (above r' (e_priority e)); simpl.
    + destruct Ha as (re & rm & rl & rr & -> & Hlt). simpl in *. destruct Hc, Hr' as (? & ? & ? & ?).
      split; [repeat split; auto; lia|]. eauto using below_le.
    + eauto 10 using below_le.
Qed.

Definition root_is t (s : bytes) (en : option bytes) (k : jsstr) : Prop :=
  match t with Leaf => True | Node e _ _ _ => cmpEntry s en k e = Eq end.

(** Removing keeps the heap; below the removed root only its children's priorities count. *)
Lemma removeAt_max_heap fuel t s en k z : (nodes t ≤ fuel)%nat → max_ok t → heap t →
  let q := (removeAt fuel t s en k z).1 in
  max_ok q ∧ heap q ∧ ∀ p, below t p ∨ (root_is t s en k ∧ children_below t p) → below q p.
Proof.
  revert t. induction fuel as [|fuel IH]; intros [|e m l r] Hf; cbn [nodes] in Hf; try lia; try done.
  cbn [removeAt max_ok heap below root_is children_below].
  intros (Hm & Hl & Hr) (Bl & Br & HHl & HHr). destruct (cmpEntry s en k e) eqn:E.
  - assert (Hp : ∀ p, e_priority e ≤ p ∨ Eq = Eq ∧ below l p ∧ below r p → below l p ∧ below r p).
    { intros p [?|(_ & ? & ?)]; eauto using below_le. }
    destruct l as [|le lm ll lr]; [by split_and!; try done; intros p (_ & ?)%Hp|].
    destruct r as [|re rm rl rr]; [by split_and!; try done; intros p (? & _)%Hp|].
    simpl in Hp, Bl, Br, Hl, Hr, HHl, HHr, Hf. destruct_and!.
    destruct (Z.ltb_spec (e_priority re) (e_priority le)).
    + destruct (IH (recalcMax e lr (Node re rm rl rr))) as (R1 & R2 & R3); [simpl; lia|done| |].
      { simpl. split_and!; eauto using below_le. }
      destruct (removeAt _ _ _ _ _ _) as [r' s']. simpl in *. split_and!; try done.
      * apply R3. right. split_and!; [done..|lia].
      * intros p Hpp%Hp. lia.
    + destruct (IH (recalcMax e (Node le lm ll lr) rl)) as (R1 & R2 & R3); [simpl; lia|done| |].
      { simpl. split_and!; eauto using below_le. }
      destruct (removeAt _ _ _ _ _ _) as [l' s']. simpl in *. split_and!; try done.
      * apply R3. right. split_and!; [done..|lia|done].
      * intros p Hpp%Hp. lia.
  - destruct (IH l) as (R1 & R2 & R3); [lia|done..|].
    destruct (removeAt _ _ _ _ _ _) as [l' s']. simpl in *. split_and!; auto. intros p [?|[??]]; done.
  - destruct (IH r) as (R1 & R2 & R3); [lia|done..|].
    destruct (removeAt _ _ _ _ _ _) as [r' s']. simpl in *. split_and!; auto. intros p [?|[??]]; done.
Qed.

(** ** The walk *)

(** [a] is at most [m], an absent end being infinite. *)
Definition end_le (a m : option bytes) : Prop := cmpEnd a m ≠ Gt.

Lemma maxEnd2_ub a b : end_le a (maxEnd2 a b) ∧ end_le b (maxEnd2 a b).
Proof.
  unfold end_le. destruct a as [x|], b as [y|]; simpl; try done.
  destruct (compareKeyBytes x y) eqn:E; simpl; rewrite ?E, ?(cmp_refl compareKeyBytes); try done.
  - by rewrite (cmp_opp compareKeyBytes x y), E.
  - by rewrite (cmp_opp compareKeyBytes x y), E.
Qed.

Lemma end_le_trans a b c : end_le a b → end_le b c → end_le a c.
Proof. apply (cmp_le_trans cmpEnd). Qed.

Lemma maxEnd_of_ub e l r :
  end_le (e_end e) (maxEnd_of e l r) ∧
  match l with Leaf => True | Node _ m _ _ => end_le m (maxEnd_of e l r) end ∧
  match r with Leaf => True | Node _ m _ _ => end_le m (maxEnd_of e l r) end.
Proof.
  unfold maxEnd_of. assert (end_le (e_end e) (e_end e)) by apply (cmp_le_refl cmpEnd).
  destruct l as [|? m1 ? ?], r as [|? m2 ? ?]; simpl; split_and!; try done; try apply maxEnd2_ub.
  - exact (end_le_trans _ _ _ (proj1 (maxEnd2_ub _ _)) (proj1 (maxEnd2_ub _ _))).
  - exact (end_le_trans _ _ _ (proj2 (maxEnd2_ub _ _)) (proj1 (maxEnd2_ub _ _))).
Qed.

Lemma max_ok_ub e m l r : max_ok (Node e m l r) → ∀ x, x ∈ entries (Node e m l r) → end_le (e_end x) m.
Proof.
  enough (∀ t, max_ok t → match t with Leaf => True | Node e m l r =>
    ∀ x, x ∈ entries t → end_le (e_end x) m end) as H by apply (H (Node e m l r)).
  clear. induction t as [|e m l IHl r IHr]; [done|]. intros (-> & Hl & Hr) x.
  destruct (maxEnd_of_ub e l r) as (H1 & H2 & H3). specialize (IHl Hl). specialize (IHr Hr).
  cbn [entries]. rewrite elem_of_app, elem_of_cons. intros [Hx|[->|Hx]]; [|done|].
  - destruct l; [by apply elem_of_nil in Hx|]. eauto using end_le_trans.
  - destruct r; [by apply elem_of_nil in Hx|]. eauto using end_le_trans.
Qed.

Definition overlaps (ks : jsstr) (q : KeyRange) (e : entry V) : bool := rangesOverlap (entry_range ks e) q.

Lemma filter_none_b {A} (f : A → bool) l : (∀ x, x ∈ l → f x = false) → List.filter f l = [].
Proof.
  induction l as [|x l IH]; simpl; [done|]. intros H. rewrite (H x) by set_solver. apply IH. set_solver.
Qed.

(** The pruned walk returns exactly the overlapping entries' values, in entry order. *)
Lemma collectAt_filter t ks q : max_ok t → sorted (entries t) →
  collectAt t ks q = List.map e_value (List.filter (overlaps ks q) (entries t)).
Proof.
  induction t as [|e m l IHl r IHr]; [done|]. intros Hm Hs.
  pose proof (max_ok_ub _ _ _ _ Hm) as Hub. destruct Hm as (Hm & Hl & Hr).
  cbn [entries] in Hs. apply sorted_app in Hs as (Hsl & Hsr & _ & Hxr).
  cbn [collectAt]. case_match eqn:Em.
  - destruct m as [me|]; [|done]. symmetry. rewrite filter_none_b; [done|]. intros x Hx%Hub.
    unfold overlaps. apply not_true_iff_false. rewrite rangesOverlap_true. simpl.
    intros (_ & _ & H). destruct (e_end x) as [xe|]; [|done]. simpl in H. apply cmp_ltb_true in H.
    unfold end_le in Hx. simpl in Hx.
    pose proof (cmp_lt_le_trans compareKeyBytes _ _ _ H Hx) as H'.
    rewrite (cmp_opp compareKeyBytes), H' in Em. done.
  - cbn [entries]. rewrite List.filter_app, List.map_app, IHl by done. f_equal. simpl. fold (overlaps ks q e).
    assert (Hr' : (if before_end (e_start e) (end_ q) then collectAt r ks q else []) =
      List.map e_value (List.filter (overlaps ks q) (entries r))).
    { destruct (before_end (e_start e) (end_ q)) eqn:Eb; [auto|]. rewrite filter_none_b; [done|].
      intros x Hx. rewrite Forall_forall in Hxr. specialize (Hxr x Hx).
      apply not_true_iff_false. unfold overlaps. rewrite rangesOverlap_true. simpl. intros (_ & H & _).
      rewrite (before_end_le (e_start e) (e_start x)) in Eb; [done| |done].
      unfold entry_lt, cmpTriple, cmp_pair in Hxr. simpl in Hxr. unfold cmp_le.
      by destruct (compareKeyBytes (e_start e) (e_start x)). }
    rewrite Hr'. by destruct (overlaps ks q e).
Qed.

(** ** Canonical shape *)

Lemma heap_root_max e m l r x : heap (Node e m l r) → x ∈ entries (Node e m l r) → e_priority x ≤ e_priority e.
Proof.
  revert e m l r. enough (∀ t p, heap t → below t p → ∀ x, x ∈ entries t → e_priority x ≤ p) as H.
  { intros e m l r Hh Hx. eapply H; [exact Hh| |exact Hx]. simpl. lia. }
  clear. induction t as [|e m l IHl r IHr]; intros p Hh Hb x Hx; [by apply elem_of_nil in Hx|].
  destruct Hh as (? & ? & ? & ?). simpl in Hb. cbn [entries] in Hx.
  apply elem_of_app in Hx as [Hx|[->|Hx]%elem_of_cons]; eauto using below_le.
Qed.

Lemma app_cons_unique {A B} (f : A → B) l1 x r1 l2 y r2 :
  NoDup (f <$> (l1 ++ x :: r1)) → l1 ++ x :: r1 = l2 ++ y :: r2 → f x = f y → l1 = l2 ∧ x = y ∧ r1 = r2.
Proof.
  revert l2. induction l1 as [|a l1 IH]; intros [|b l2]; csimpl; intros Hnd [= -> Hr] Hf; subst.
  - done.
  - apply NoDup_cons in Hnd as [Hn _]. destruct Hn. rewrite Hf, fmap_app. set_solver.
  - apply NoDup_cons in Hnd as [Hn _]. destruct Hn. rewrite <-Hf, fmap_app. set_solver.
  - apply NoDup_cons in Hnd as [_ Hnd]. destruct (IH l2 Hnd Hr Hf) as (-> & -> & ->). done.
Qed.

Lemma tree_canonical t1 t2 : heap t1 → heap t2 → max_ok t1 → max_ok t2 →
  NoDup (e_priority <$> entries t1) → entries t1 = entries t2 → t1 = t2.
Proof.
  revert t2. induction t1 as [|e m l IHl r IHr]; intros [|e' m' l' r'] Hh Hh' Hm Hm' Hnd E.
  - done.
  - cbn [entries] in E. by destruct (entries l').
  - cbn [entries] in E. by destruct (entries l).
  - assert (Hp : e_priority e = e_priority e').
    { pose proof (heap_root_max _ _ _ _ e Hh' ltac:(rewrite <-E; cbn [entries]; set_solver)).
      pose proof (heap_root_max _ _ _ _ e' Hh ltac:(rewrite E; cbn [entries]; set_solver)). lia. }
    cbn [entries] in E, Hnd. destruct (app_cons_unique e_priority _ _ _ _ _ _ Hnd E Hp) as (El & -> & Er).
    rewrite fmap_app, NoDup_app in Hnd. destruct Hnd as (? & _ & [_ ?]%NoDup_cons).
    destruct Hh as (_ & _ & ? & ?), Hh' as (_ & _ & ? & ?), Hm as (-> & ? & ?), Hm' as (-> & ? & ?).
    by rewrite (IHl l'), (IHr r') by done.
Qed.

(** ** Sizes *)

Lemma insertAt_size t s en v k z :
  Z.of_nat (nodes (insertAt t s en v k z).1) = Z.of_nat (nodes t) + ((insertAt t s en v k z).2 - z).
Proof.
  induction t as [|e m l IHl r IHr]; [simpl; lia|]. cbn [insertAt]. destruct (cmpEntry s en k e).
  - simpl. lia.
  - destruct (insertAt l s en v k z) as [l' z']. cbn [fst snd] in *. destruct (above l' _), l'; simpl in *; lia.
  - destruct (insertAt r s en v k z) as [r' z']. cbn [fst snd] in *. destruct (above r' _), r'; simpl in *; lia.
Qed.

Lemma removeAt_size fuel t s en k z :
  Z.of_nat (nodes (removeAt fuel t s en k z).1) = Z.of_nat (nodes t) + ((removeAt fuel t s en k z).2 - z).
Proof.
  revert t. induction fuel as [|fuel IH]; intros t; [simpl; lia|]. destruct t as [|e m l r]; [simpl; lia|].
  cbn [removeAt]. destruct (cmpEntry s en k e).
  - destruct l as [|le lm ll lr]; [simpl; lia|]. destruct r as [|re rm rl rr]; [simpl; lia|].
    destruct (e_priority re <? e_priority le).
    + specialize (IH (recalcMax e lr (Node re rm rl rr))). destruct (removeAt _ _ _ _ _ _); simpl in *; lia.
    + specialize (IH (recalcMax e (Node le lm ll lr) rl)). destruct (removeAt _ _ _ _ _ _); simpl in *; lia.
  - specialize (IH l). destruct (removeAt _ _ _ _ _ _); simpl in *; lia.
  - specialize (IH r). destruct (removeAt _ _ _ _ _ _); simpl in *; lia.
Qed.

(** ** The sorted entry list *)

Lemma Forall_ins (P : entry V → Prop) e l : P e → Forall P l → Forall P (ins e l).
Proof. induction 2; simpl; [by constructor|]. destruct (cmpTriple _ _); by repeat constructor. Qed.

Lemma ins_sorted e l : sorted l → sorted (ins e l).
Proof.
  unfold sorted. induction 1 as [|x l Hl IH Hx]; simpl; [by repeat constructor|].
  destruct (cmpTriple (e_triple e) (e_triple x)) eqn:E; [by constructor|..].
  - constructor; [by constructor|]. constructor; [done|]. eapply Forall_impl; [exact Hx|].
    intros y Hy. exact (cmp_lt_trans cmpTriple _ _ _ E Hy).
  - constructor; [done|]. apply Forall_ins; [by apply (cmp_gt_lt cmpTriple)|done].
Qed.

Lemma del_sorted k l : sorted l → sorted (del k l).
Proof.
  unfold sorted, del. induction 1 as [|x l Hl IH Hx]; [constructor|]. rewrite filter_cons.
  case_decide; [|done]. constructor; [done|].
  rewrite Forall_forall in Hx |- *. intros y [_ Hy]%list_elem_of_filter. auto.
Qed.

Lemma ins_perm e l : sorted l →
  ins e l ≡ₚ if decide (Exists (λ x, e_triple x = e_triple e) l) then l else e :: l.
Proof.
  unfold sorted. induction 1 as [|x l Hl IH Hx]; [by rewrite decide_False by (by inversion 1)|].
  cbn [ins]. destruct (cmpTriple (e_triple e) (e_triple x)) eqn:E.
  - rewrite decide_True; [done|]. left. symmetry. by apply (cmp_eq cmpTriple).
  - rewrite decide_False; [done|]. rewrite Exists_cons, Exists_exists. rewrite Forall_forall in Hx.
    intros [H|(y & Hy & H)].
    + rewrite H, (cmp_refl cmpTriple) in E. done.
    + pose proof (cmp_lt_trans cmpTriple _ _ _ E (Hx y Hy)) as E'. by rewrite H, (cmp_refl cmpTriple) in E'.
  - rewrite IH. case_decide as H1; case_decide as H2; try done.
    + destruct H2. by right.
    + apply Exists_cons in H2 as [H2|H2]; [|done]. by rewrite H2, (cmp_refl cmpTriple) in E.
    + apply Permutation_swap.
Qed.

Record treap_ok (t : Treap V) : Prop := {
  t_sorted : sorted (entries (root t));
  t_max : max_ok (root t);
  t_heap : heap (root t);
  t_size : tsize t = Z.of_nat (nodes (root t)) }.

Lemma new_Treap_ok : treap_ok new_Treap.
Proof. split; try done. constructor. Qed.

Lemma Treap_insert_spec (t : Treap V) s en v k : treap_ok t →
  treap_ok (Treap_insert t s en v k) ∧
  entries (root (Treap_insert t s en v k)) = ins (mk_entry s en v k) (entries (root t)).
Proof.
  intros [H1 H2 H3 H4]. unfold Treap_insert.
  pose proof (insertAt_entries (root t) s en v k (tsize t) H1) as He.
  pose proof (insertAt_max_ok (root t) s en v k (tsize t) H2) as Hm.
  pose proof (insertAt_heap (root t) s en v k (tsize t) H3) as [Hh _].
  pose proof (insertAt_size (root t) s en v k (tsize t)) as Hz.
  destruct (insertAt _ _ _ _ _ _) as [r z]. simpl in *. split; [|done].
  split; simpl; try done; [by rewrite He; apply ins_sorted|lia].
Qed.

Lemma Treap_remove_spec (t : Treap V) s en k : treap_ok t →
  treap_ok (Treap_remove t s en k) ∧
  entries (root (Treap_remove t s en k)) = del (s, en, k) (entries (root t)).
Proof.
  intros [H1 H2 H3 H4]. unfold Treap_remove.
  pose proof (removeAt_entries _ (root t) s en k (tsize t) (le_n _) H1) as He.
  pose proof (removeAt_max_heap _ (root t) s en k (tsize t) (le_n _) H2 H3) as (Hm & Hh & _).
  pose proof (removeAt_size (nodes (root t)) (root t) s en k (tsize t)) as Hz.
  destruct (removeAt _ _ _ _ _ _) as [r z]. simpl in *. split; [|done].
  split; simpl; try done; [by rewrite He; apply del_sorted|lia].
Qed.
End proofs.

(** ** The abstract index: a list of (range, value) entries, scanned linearly *)
Section refinement.
Context {V : Type} (valueKey : V → jsstr).

Inductive ix_op := IxInsert (r : KeyRange) (v : V) | IxRemove (r : KeyRange) (v : V).

Definition same_entry (r : KeyRange) (v : V) (p : KeyRange * V) : Prop :=
  p.1 = r ∧ valueKey p.2 = valueKey v.
#[global] Instance same_entry_dec r v p : Decision (same_entry r v p).
Proof. unfold same_entry. apply _. Defined.

Definition spec_step (a : list (KeyRange * V)) (op : ix_op) : list (KeyRange * V) :=
  match op with
  | IxInsert r v => if decide (Exists (same_entry r v) a) then a else a ++ [(r, v)]
  | IxRemove r v => filter (λ p, ¬ same_entry r v p) a
  end.

Definition spec_query (a : list (KeyRange * V)) (q : KeyRange) : list V :=
  List.map snd (List.filter (λ p, rangesOverlap p.1 q) a).

Definition ix_step (ix : IntervalIndex V) (op : ix_op) : IntervalIndex V :=
  match op with IxInsert r v => ix_insert valueKey ix r v | IxRemove r v => ix_remove valueKey ix r v end.

Definition ix_run (ops : list ix_op) : IntervalIndex V := fold_left ix_step ops ix_new.
Definition spec_run (ops : list ix_op) : list (KeyRange * V) := fold_left spec_step ops [].

Definition kv (ks : jsstr) (e : entry V) : KeyRange * V := (entry_range ks e, e_value e).

Definition tree_at (ix : IntervalIndex V) (ks : jsstr) : tree V :=
  match jm_get (ix_trees ix) ks with None => Leaf | Some t => root t end.

Record refines (ix : IntervalIndex V) (a : list (KeyRange * V)) : Prop := {
  rf_keys : jm_ok (ix_trees ix);
  rf_trees : ∀ ks t, jm_get (ix_trees ix) ks = Some t → treap_ok t;
  rf_entry : ∀ ks e, e ∈ entries (tree_at ix ks) → e_key e = valueKey (e_value e);
  rf_perm : ∀ ks, List.map (kv ks) (entries (tree_at ix ks)) ≡ₚ filter (λ p, keyspace p.1 = ks) a }.

Lemma refines_new : refines ix_new [].
Proof. split; try done; [apply NoDup_nil_2|]. intros ks e H. by apply elem_of_nil in H. Qed.

Lemma range_eta r : {| keyspace := keyspace r; start := start r; end_ := end_ r |} = r.
Proof. by destruct r. Qed.

(** An entry of the keyspace's tree is the one addressed iff its pair is. *)
Lemma same_entry_triple e r v : e_key e = valueKey (e_value e) →
  same_entry r v (kv (keyspace r) e) ↔ e_triple e = (start r, end_ r, valueKey v).
Proof.
  unfold same_entry, kv, entry_range, e_triple. simpl. intros <-. rewrite <-(range_eta r) at 2.
  split; [intros [[= -> ->] ->]; done|intros [= -> -> ->]; done].
Qed.

Lemma same_entry_exists ix a r v : refines ix a →
  Exists (same_entry r v) a ↔
  Exists (λ e, e_triple e = (start r, end_ r, valueKey v)) (entries (tree_at ix (keyspace r))).
Proof.
  intros [_ _ He Hp]. specialize (Hp (keyspace r)). rewrite !Exists_exists. split.
  - intros (p & Hin & Hs). assert (Hf : p ∈ filter (λ p, keyspace p.1 = keyspace r) a).
    { apply list_elem_of_filter. split; [by destruct Hs as [-> _]|done]. }
    rewrite <-Hp in Hf. apply list_elem_of_In, in_map_iff in Hf as (e & <- & Hx%list_elem_of_In).
    exists e. split; [done|]. apply same_entry_triple; [by eapply He|done].
  - intros (e & Hx & Ht). exists (kv (keyspace r) e). split.
    + assert (Hf : kv (keyspace r) e ∈ List.map (kv (keyspace r)) (entries (tree_at ix (keyspace r)))).
      { apply list_elem_of_In, in_map_iff. exists e. by rewrite <-list_elem_of_In. }
      rewrite Hp in Hf. by apply list_elem_of_filter in Hf as [_ ?].
    + apply same_entry_triple; [by eapply He|done].
Qed.

Lemma tree_at_ok ix a ks : refines ix a → treap_ok (default new_Treap (jm_get (ix_trees ix) ks)) ∧
  root (default new_Treap (jm_get (ix_trees ix) ks)) = tree_at ix ks.
Proof.
  intros H. unfold tree_at. destruct (jm_get (ix_trees ix) ks) as [t|] eqn:E; simpl.
  - split; [|done]. by eapply rf_trees.
  - split; [apply new_Treap_ok|done].
Qed.

Lemma refines_insert ix a r v : refines ix a →
  refines (ix_insert valueKey ix r v) (spec_step a (IxInsert r v)).
Proof.
  intros H. pose proof (same_entry_exists ix a r v H) as Hex.
  destruct (tree_at_ok ix a (keyspace r) H) as [Hok Hroot]. destruct H as [Hk Ht He Hp].
  set (e := mk_entry (start r) (end_ r) v (valueKey v)).
  destruct (Treap_insert_spec _ (start r) (end_ r) v (valueKey v) Hok) as [Hok' Hent].
  fold e in Hent. rewrite Hroot in Hent. unfold ix_insert.
  set (t' := Treap_insert _ _ _ _ _) in *. clearbody t'.
  assert (Hat : ∀ ks, tree_at {| ix_trees := jm_set (ix_trees ix) (keyspace r) t' |} ks =
    if decide (ks = keyspace r) then root t' else tree_at ix ks).
  { intros ks. unfold tree_at. simpl. rewrite jm_get_set. by case_decide. }
  assert (Hsorted : sorted (entries (tree_at ix (keyspace r)))) by (rewrite <-Hroot; apply Hok).
  pose proof (ins_perm e _ Hsorted) as Hperm. rewrite <-Hent in Hperm. split.
  - by apply jm_set_ok.
  - clear Hperm. intros ks t. simpl. rewrite jm_get_set. case_decide; [by intros [= <-]|apply Ht].
  - intros ks x. rewrite Hat. destruct (decide (ks = keyspace r)) as [Hd|]; [|apply He]. rewrite Hperm. clear Hperm.
    case_decide; [apply He|]. rewrite elem_of_cons. intros [->|?]; [done|by eapply He].
  - intros ks. rewrite Hat. cbn [spec_step]. 
    rewrite (decide_ext (Exists (same_entry r v) a)
      (Exists (λ x, e_triple x = e_triple e) (entries (tree_at ix (keyspace r))))) by exact Hex.
    destruct (decide (ks = keyspace r)) as [->|Hd]; [rewrite Hperm; clear Hperm|clear Hperm; case_decide].
    + case_decide; [apply Hp|]. rewrite filter_app, filter_cons_True by done. rewrite filter_nil.
      cbn [List.map]. rewrite Hp. unfold kv, entry_range. simpl. rewrite range_eta.
      by rewrite (comm (++) _ [_]).
    + apply Hp.
    + rewrite filter_app, filter_cons_False, filter_nil, app_nil_r by (simpl; congruence). apply Hp.
Qed.

Lemma nodes_0 (t : tree V) : nodes t = 0%nat → t = Leaf.
Proof. by destruct t. Qed.

Lemma filter_map_kv (P : KeyRange * V → Prop) (Q : entry V → Prop)
    `{!∀ p, Decision (P p), !∀ e, Decision (Q e)} ks l :
  (∀ e, e ∈ l → P (kv ks e) ↔ Q e) → filter P (List.map (kv ks) l) = List.map (kv ks) (filter Q l).
Proof.
  induction l as [|e l IH]; intros HPQ; [done|]. cbn [List.map]. rewrite !filter_cons.
  rewrite (decide_ext (P (kv ks e)) (Q e)) by (apply HPQ; set_solver). rewrite IH by set_solver.
  by case_decide.
Qed.

Lemma refines_remove ix a r v : refines ix a →
  refines (ix_remove valueKey ix r v) (spec_step a (IxRemove r v)).
Proof.
  intros H. destruct (tree_at_ok ix a (keyspace r) H) as [Hok Hroot]. destruct H as [Hk Ht He Hp].
  set (k := (start r, end_ r, valueKey v)).
  assert (Hother : ∀ ks, ks ≠ keyspace r → filter (λ p, keyspace p.1 = ks) (filter (λ p, ¬ same_entry r v p) a)
    = filter (λ p : KeyRange * V, keyspace p.1 = ks) a).
  { intros ks Hks. rewrite list_filter_filter. apply list_filter_iff. intros p. split; [tauto|].
    intros Hpk. split; [done|]. intros [E1 _]. by rewrite <-Hpk, E1 in Hks. }
  assert (Hthis : List.map (kv (keyspace r)) (del k (entries (tree_at ix (keyspace r)))) ≡ₚ
    filter (λ p, keyspace p.1 = keyspace r) (filter (λ p, ¬ same_entry r v p) a)).
  { rewrite list_filter_filter.
    rewrite (list_filter_iff _ (λ p, ¬ same_entry r v p ∧ keyspace p.1 = keyspace r)) by tauto.
    rewrite <-list_filter_filter, <-Hp. unfold del.
    rewrite (filter_map_kv _ (λ x, e_triple x ≠ k)); [done|].
    intros e Hin%He. rewrite same_entry_triple by done. done. }
  assert (Hkey : ∀ e, e ∈ del k (entries (tree_at ix (keyspace r))) → e_key e = valueKey (e_value e)).
  { intros e [_ Hin%He]%list_elem_of_filter. done. }
  cbn [spec_step]. unfold ix_remove. destruct (jm_get (ix_trees ix) (keyspace r)) as [t|] eqn:E; simpl in *.
  - destruct (Treap_remove_spec t (start r) (end_ r) (valueKey v) Hok) as [Hok' Hent].
    set (t' := Treap_remove _ _ _ _) in *. clearbody t'. fold k in Hent. rewrite Hroot in Hent.
    assert (Hat : ∀ ks, tree_at {| ix_trees := if tsize t' =? 0 then jm_delete (ix_trees ix) (keyspace r)
        else jm_set (ix_trees ix) (keyspace r) t' |} ks = if decide (ks = keyspace r) then root t' else tree_at ix ks).
    { intros ks. unfold tree_at. simpl. case (Z.eqb_spec (tsize t') 0); intros Hz.
      - rewrite jm_get_delete by done. case_decide; [|done]. rewrite (nodes_0 (root t')); [done|].
        destruct Hok'. lia.
      - rewrite jm_get_set. by case_decide. }
    split.
    + simpl. case_match; [by apply jm_delete_ok|by apply jm_set_ok].
    + intros ks t0. simpl. case_match; [rewrite jm_get_delete by done|rewrite jm_get_set];
        (case_decide; [|apply Ht]); [done|by intros [= <-]].
    + intros ks e. rewrite Hat. case_decide; [|apply He]. rewrite Hent. apply Hkey.
    + intros ks. rewrite Hat. case_decide; [subst ks; by rewrite Hent|]. by rewrite Hother, Hp.
  - split; try done. intros ks. destruct (decide (ks = keyspace r)) as [->|]; [|by rewrite Hother, Hp].
    rewrite <-Hthis, <-Hroot. done.
Qed.

Lemma refines_run ops : refines (ix_run ops) (spec_run ops).
Proof.
  unfold ix_run, spec_run. generalize refines_new. generalize (@ix_new V), (@nil (KeyRange * V)).
  induction ops as [|op ops IH]; intros ix a H; simpl; [done|]. apply IH.
  destruct op; [by apply refines_insert|by apply refines_remove].
Qed.

Lemma queryOverlaps_refines ix a q : refines ix a → queryOverlaps ix q ≡ₚ spec_query a q.
Proof.
  intros H. destruct (tree_at_ok ix a (keyspace q) H) as [Hok Hroot]. destruct H as [Hk Ht He Hp].
  assert (Hq : queryOverlaps ix q = collectAt (tree_at ix (keyspace q)) (keyspace q) q).
  { unfold queryOverlaps, tree_at. by destruct (jm_get (ix_trees ix) (keyspace q)). }
  rewrite Hq, <-Hroot, collectAt_filter by apply Hok. rewrite Hroot. unfold spec_query.
  assert (Hs : ∀ a : list (KeyRange * V), List.filter (λ p, rangesOverlap p.1 q) a =
    List.filter (λ p, rangesOverlap p.1 q) (filter (λ p, keyspace p.1 = keyspace q) a)).
  { clear. intros a. induction a as [|p a IH]; [done|]. rewrite filter_cons. simpl. case_decide.
    - simpl. by rewrite IH.
    - unfold rangesOverlap. by rewrite bool_decide_eq_false_2. }
  rewrite Hs. clear Hs. assert (Hl : ∀ l, List.map e_value (List.filter (overlaps (keyspace q) q) l) =
    List.map snd (List.filter (λ p, rangesOverlap p.1 q) (List.map (kv (keyspace q)) l))).
  { clear. intros l. induction l as [|e l IH]; [done|]. cbn [List.map List.filter].
    change (overlaps (keyspace q) q e) with (rangesOverlap (kv (keyspace q) e).1 q).
    destruct (rangesOverlap _ _); cbn [List.map]; by rewrite IH. }
  rewrite Hl. apply Permutation_map. specialize (Hp (keyspace q)).
  clear -Hp. induction Hp; simpl; repeat case_match; eauto using Permutation.
Qed.
End refinement.

(** ** Properties *)

(** C35: after any sequence of inserts and removes, the treap index answers an overlap query with
    exactly the values a linear scan of the live (range, value) entries finds, each once. *)
Theorem interval_index_linear_scan {V} (valueKey : V → jsstr) (ops : list ix_op) (q : KeyRange) :
  queryOverlaps (ix_run valueKey ops) q ≡ₚ spec_query (spec_run valueKey ops) q.
Proof. apply (queryOverlaps_refines valueKey). apply refines_run. Qed.

(** The tree shape does not depend on the history: two operation sequences that leave the same
    entries in a keyspace leave the same tree, as long as the entries' priority hashes differ. *)
Theorem interval_index_canonical {V} (valueKey : V → jsstr) (ops1 ops2 : list ix_op) (ks : jsstr) :
  let t1 := tree_at (ix_run valueKey ops1) ks in let t2 := tree_at (ix_run valueKey ops2) ks in
  entries t1 ≡ₚ entries t2 → NoDup (e_priority <$> entries t1) → t1 = t2.
Proof.
  cbv zeta. intros Hp Hnd.
  destruct (tree_at_ok valueKey _ _ ks (refines_run valueKey ops1)) as [[S1 M1 H1 _] E1].
  destruct (tree_at_ok valueKey _ _ ks (refines_run valueKey ops2)) as [[S2 M2 H2 _] E2].
  rewrite E1 in S1, M1, H1. rewrite E2 in S2, M2, H2. apply tree_canonical; try done.
  pose proof (cmp_on (@e_triple V) cmpTriple) as Ho.
  apply (strictly_sorted_unique (λ x y, cmpTriple (e_triple x) (e_triple y))); try done.
  intros x. by rewrite Hp.
Qed.

Lemma interval_index_canonical_witness :
  let a := point_range (js "t") [1] in let b := point_range (js "t") [2] in
  let t1 := tree_at (ix_run id [IxInsert a (js "x"); IxInsert b (js "y")]) (js "t") in
  let t2 := tree_at (ix_run id [IxInsert b (js "y"); IxInsert a (js "x")]) (js "t") in
  entries t1 ≡ₚ entries t2 ∧ t1 = t2.
Proof.
  cbv zeta. assert (H : entries (tree_at (ix_run id [IxInsert (point_range (js "t") [1]) (js "x");
    IxInsert (point_range (js "t") [2]) (js "y")]) (js "t")) ≡ₚ
    entries (tree_at (ix_run id [IxInsert (point_range (js "t") [2]) (js "y");
    IxInsert (point_range (js "t") [1]) (js "x")]) (js "t"))) by (vm_compute; reflexivity).
  split; [exact H|]. apply interval_index_canonical; [exact H|].
  apply (bool_decide_unpack _). by vm_compute.
Defined.
