(* ===== verification/IdCodec.v ===== *)
(** Document identity: [packages/id-codec/src] — varints, Crockford base32, the Fletcher-16 checksum,
    document ids, storage ids, the point ranges of written keys and the table registry. *)
From S2P Require Import Prelude Numbers Values Json IndexKeys Ranges.

(** ** Varints *)
Definition UINT32_MAX := 0xffffffff.

(** The do-while loop: at most five rounds for a uint32. *)
Fixpoint varint_loop (fuel : nat) (v : Z) : bytes :=
  match fuel with
  | O => []
  | S fuel =>
      let byte := Z.land v 0x7f in
      let v' := v / 128 in
      if 0 <? v' then Z.lor byte 0x80 :: varint_loop fuel v' else [byte]
  end.

Definition varintEncode (value : Z) : res bytes :=
  if (value <? 0) || (UINT32_MAX <? value) then Err (VarintError "out of uint32 range")
  else Ok (varint_loop 5 value).

(** The while loop over the bytes from [offset] on: the value and the bytes read. *)
Fixpoint varint_read (bs : bytes) (result shift : Z) (read : nat) : res (Z * nat) :=
  match bs with
  | [] => Err (VarintError "truncated")
  | byte :: bs' =>
      let result := result + Z.land byte 0x7f * 2 ^ shift in
      if Z.land byte 0x80 =? 0 then
        if UINT32_MAX <? result then Err (VarintError "exceeds uint32") else Ok (result, S read)
      else
        let shift := shift + 7 in
        if 28 <? shift then Err (VarintError "exceeds uint32") else varint_read bs' result shift (S read)
  end.

Definition varintDecode (bs : bytes) (offset : nat) : res (Z * nat) := varint_read (drop offset bs) 0 0 0.

Definition varintEncodedLength (value : Z) : res nat := let! b := varintEncode value in Ok (length b).

(** ** Crockford base32 *)
Definition CROCKFORD_ALPHABET : jsstr := js "0123456789abcdefghjkmnpqrstvwxyz".

Definition alphabet_at (n : Z) : Z := nth (Z.to_nat n) CROCKFORD_ALPHABET 0.

Definition toUpper (c : Z) : Z := if (97 <=? c) && (c <=? 122) then c - 32 else c.

(** The table the module builds: each letter in both cases, then the look-alikes. *)
Definition DECODE : list (Z * Z) :=
  let base := fold_left (λ m i, let ch := alphabet_at (Z.of_nat i) in
                jm_set (jm_set m ch (Z.of_nat i)) (toUpper ch) (Z.of_nat i)) (seq 0 32) [] in
  fold_left (λ m kv, jm_set m kv.1 kv.2)
    [(105, 1); (73, 1); (108, 1); (76, 1); (111, 0); (79, 0)] base.

(** A 32-bit bitwise result. *)
Definition u32 (z : Z) : Z := z mod 2 ^ 32.

(** [while (bits >= 5)] runs at most twice: [bits] is at most 12. *)
Fixpoint b32_emit (fuel : nat) (bits value : Z) : Z * jsstr :=
  match fuel with
  | O => (bits, [])
  | S fuel =>
      if 5 <=? bits then
        let c := alphabet_at (Z.land (Z.shiftr value (bits - 5)) 0x1f) in
        let '(bits', out) := b32_emit fuel (bits - 5) value in (bits', c :: out)
      else (bits, [])
  end.

Fixpoint b32_encode (bs : bytes) (bits value : Z) : jsstr :=
  match bs with
  | [] => if 0 <? bits then [alphabet_at (Z.land (u32 (Z.shiftl value (5 - bits))) 0x1f)] else []
  | b :: bs' =>
      let value := Z.lor (u32 (Z.shiftl value 8)) b in
      let '(bits', out) := b32_emit 2 (bits + 8) value in
      out ++ b32_encode bs' bits' value
  end.

Definition base32Encode (bs : bytes) : jsstr := b32_encode bs 0 0.

Fixpoint b32_decode (text : jsstr) (bits value : Z) : res bytes :=
  match text with
  | [] =>
      if (0 <? bits) && negb (Z.land value (Z.shiftl 1 bits - 1) =? 0)
      then Err (Base32Error "non-canonical base32 padding bits") else Ok []
  | ch :: text' =>
      match jm_get DECODE ch with
      | None => Err (Base32Error "invalid base32 character")
      | Some v =>
          let value := Z.lor (u32 (Z.shiftl value 5)) v in
          let bits := bits + 5 in
          if 8 <=? bits then
            let! out := b32_decode text' (bits - 8) value in
            Ok (Z.land (Z.shiftr value (bits - 8)) 0xff :: out)
          else b32_decode text' bits value
      end
  end.

Definition base32Decode (text : jsstr) : res bytes := b32_decode text 0 0.

(** ** Checksum *)
Definition fletcher_step (s : Z * Z) (b : Z) : Z * Z :=
  let sum1 := (s.1 + b) mod 255 in (sum1, (s.2 + sum1) mod 255).

Definition fletcher16 (bs : bytes) : Z :=
  let '(sum1, sum2) := fold_left fletcher_step bs (0, 0) in Z.lor (Z.shiftl sum2 8) sum1.

Definition verifyFletcher16 (bs : bytes) (checksum : Z) : bool := fletcher16 bs =? checksum.

(** ** Document ids *)
Record InternalDocumentId := { tableNumber : Z; internalId : bytes }.

#[global] Instance InternalDocumentId_eq_dec : EqDecision InternalDocumentId.
Proof. solve_decision. Defined.

Definition INTERNAL_ID_BYTES : nat := 16.
Definition CHECKSUM_BYTES : nat := 2.

Definition encodeDocumentId (tn : Z) (iid : bytes) : res jsstr :=
  if negb (Nat.eqb (length iid) INTERNAL_ID_BYTES) then Err (DocumentIdError "internalId length")
  else
    let! v := varintEncode tn in
    let prefix := v ++ iid in
    let checksum := fletcher16 prefix in
    let checksumBytes := [Z.land (Z.shiftr checksum 8) 0xff; Z.land checksum 0xff] in
    Ok (base32Encode (prefix ++ checksumBytes)).

Definition encodeInternalDocumentId (id : InternalDocumentId) : res jsstr :=
  encodeDocumentId (tableNumber id) (internalId id).

Definition decodeDocumentId (encoded : jsstr) : res InternalDocumentId :=
  match base32Decode encoded with
  | Err (Base32Error m) => Err (DocumentIdError m)
  | Err _ => Err (DocumentIdError "invalid base32")
  | Ok bs =>
      match varintDecode bs 0 with
      | Err _ => Err (DocumentIdError "invalid table number")
      | Ok (tn, bytesRead) =>
          let internalIdEnd := (bytesRead + INTERNAL_ID_BYTES)%nat in
          if negb (Nat.eqb (length bs) (internalIdEnd + CHECKSUM_BYTES)) then Err (DocumentIdError "incorrect id length")
          else
            let iid := take (internalIdEnd - bytesRead) (drop bytesRead bs) in
            let checksum := Z.lor (Z.shiftl (nth internalIdEnd bs 0) 8) (nth (S internalIdEnd) bs 0) in
            let prefix := take internalIdEnd bs in
            if negb (verifyFletcher16 prefix checksum) then Err (DocumentIdError "checksum mismatch")
            else Ok {| tableNumber := tn; internalId := iid |}
      end
  end.

Definition tryDecodeDocumentId (encoded : jsstr) : option InternalDocumentId :=
  match decodeDocumentId encoded with Ok id => Some id | Err _ => None end.

Definition isValidDocumentId (encoded : jsstr) (expectedTableNumber : option Z) : bool :=
  match tryDecodeDocumentId encoded with
  | None => false
  | Some id => match expectedTableNumber with None => true | Some n => tableNumber id =? n end
  end.

(** [Math.ceil((byteLen * 8) / 5)] *)
Definition getEncodedLength (tn : Z) : res Z :=
  let! n := varintEncodedLength tn in
  let byteLen := Z.of_nat n + 16 + 2 in Ok ((byteLen * 8 + 4) / 5).

(** ** Stable keys *)
Definition hex_digit (n : Z) : Z := if n <? 10 then 48 + n else 87 + n.

(** [b.toString(16).padStart(2, "0")] for a byte *)
Definition hex2 (b : Z) : jsstr := [hex_digit (b / 16); hex_digit (b mod 16)].

Definition internalIdToHex (iid : bytes) : jsstr := concat (List.map hex2 iid).

Definition hex_val (c : Z) : option Z :=
  if is_digit c then Some (c - 48)
  else if (97 <=? c) && (c <=? 102) then Some (c - 87)
  else if (65 <=? c) && (c <=? 70) then Some (c - 55)
  else None.

(** [Number.parseInt(slice, 16)]: blanks, a sign and a [0x] prefix skipped, then the longest run of
    hex digits; NaN when there is none. *)
Fixpoint parse_hex (acc : option Z) (s : jsstr) : option Z :=
  match s with
  | [] => acc
  | c :: s' => match hex_val c with None => acc | Some d => parse_hex (Some (default 0 acc * 16 + d)) s' end
  end.

Definition strip_0x (s : jsstr) : jsstr :=
  match s with
  | 48 :: c :: s' => if (c =? 120) || (c =? 88) then s' else s
  | _ => s
  end.

Definition parseInt16 (s : jsstr) : option Z :=
  match skip_space s with
  | 45 :: s' => Z.opp <$> parse_hex None (strip_0x s')
  | 43 :: s' => parse_hex None (strip_0x s')
  | s' => parse_hex None (strip_0x s')
  end.

(** The loop over the pairs; [out[i] = byte] keeps the low eight bits. *)
Fixpoint hex_pairs (hex : jsstr) : res bytes :=
  match hex with
  | a :: b :: hex' =>
      match parseInt16 [a; b] with
      | None => Err (DocumentIdError "invalid hex")
      | Some byte => let! out := hex_pairs hex' in Ok (byte mod 256 :: out)
      end
  | _ => Ok []
  end.

Definition hexToInternalId (hex : jsstr) : res bytes :=
  if Nat.eqb (length hex mod 2) 0 then hex_pairs hex else Err (DocumentIdError "odd-length hex").

Definition documentIdKey (id : InternalDocumentId) : jsstr :=
  string_of_int (tableNumber id) ++ colon :: internalIdToHex (internalId id).

(** [key.indexOf(sep)] and the two slices around it *)
Fixpoint cut_at (sep : Z) (s : jsstr) : option (jsstr * jsstr) :=
  match s with
  | [] => None
  | c :: s' =>
      if c =? sep then Some ([], s')
      else match cut_at sep s' with None => None | Some (p, q) => Some (c :: p, q) end
  end.

Definition parseDocumentIdKey (key : jsstr) : res InternalDocumentId :=
  match cut_at colon key with
  | None => Err (DocumentIdError "invalid document id key")
  | Some (p, q) =>
      match parseInt10 p with
      | None => Err (DocumentIdError "invalid table number in key")
      | Some n => let! iid := hexToInternalId q in Ok {| tableNumber := n; internalId := iid |}
      end
  end.

Fixpoint bytes_equal (a b : bytes) : bool :=
  match a, b with
  | [], [] => true
  | x :: a', y :: b' => if negb (x =? y) then false else bytes_equal a' b'
  | _, _ => false
  end.

Definition documentIdsEqual (a b : InternalDocumentId) : bool :=
  if negb (tableNumber a =? tableNumber b) || negb (Nat.eqb (length (internalId a)) (length (internalId b)))
  then false else bytes_equal (internalId a) (internalId b).

(** ** Storage ids *)
Definition slash : Z := 47.
Definition encodeStorageTableId (tn : Z) : jsstr := string_of_int tn.

Definition decodeStorageTableId (tableId : jsstr) : res Z :=
  match parseInt10 tableId with
  | None => Err (PlainError "invalid storage table id")
  | Some n => if decide (string_of_int n = tableId) then Ok n else Err (PlainError "invalid storage table id")
  end.

Definition encodeStorageIndexId (tn : Z) (indexName : jsstr) : jsstr := string_of_int tn ++ slash :: indexName.

Definition decodeStorageIndexId (indexId : jsstr) : res (Z * jsstr) :=
  match cut_at slash indexId with
  | None => Err (PlainError "invalid storage index id")
  | Some (p, q) => let! n := decodeStorageTableId p in Ok (n, q)
  end.

Definition keyToPointRange (indexId : jsstr) (key : bytes) : res SerializedKeyRange :=
  let! (tn, indexName) := decodeStorageIndexId indexId in
  let ks := indexKeyspaceId (encodeStorageTableId tn) indexName in
  Ok (serializeKeyRange {| keyspace := ks; start := key; end_ := Some (keySuccessor key) |}).

Definition docKeyToPointRange (tableId : jsstr) (iid : bytes) : SerializedKeyRange :=
  let ks := tableKeyspaceId tableId in
  serializeKeyRange {| keyspace := ks; start := iid; end_ := Some (keySuccessor iid) |}.

(** ** The table registry *)
Inductive TableVisibility := VisUser | VisSystem.
Inductive TableState := TActive | TCreating | TDeleting.
#[global] Instance TableVisibility_eq_dec : EqDecision TableVisibility.
Proof. solve_decision. Defined.

Record TableInfo := {
  ti_name : jsstr; ti_number : Z; ti_visibility : TableVisibility; ti_state : TableState;
  ti_shardKey : option jsstr }.

Definition SYSTEM_TABLE_NUMBER_MIN := 1.
Definition SYSTEM_TABLE_NUMBER_MAX := 9999.
Definition USER_TABLE_NUMBER_START := 10001.
Definition STORAGE_TABLE_NUMBER := 20.

Definition isSystemTableName (name : jsstr) : bool := starts_with (js "_") name.

Record MemoryTableRegistry := {
  byName : list (jsstr * TableInfo);
  byNumber : list (Z * TableInfo);
  nextUser : Z;
  nextSystem : Z }.

Definition new_registry : MemoryTableRegistry :=
  {| byName := []; byNumber := []; nextUser := USER_TABLE_NUMBER_START; nextSystem := SYSTEM_TABLE_NUMBER_MIN |}.

Definition getByName (g : MemoryTableRegistry) (name : jsstr) : option TableInfo := jm_get (byName g) name.
Definition getByNumber (g : MemoryTableRegistry) (n : Z) : option TableInfo := jm_get (byNumber g) n.
Definition list_tables (g : MemoryTableRegistry) : list TableInfo := jm_values (byName g).

Definition default_visibility (name : jsstr) (v : option TableVisibility) : TableVisibility :=
  default (if isSystemTableName name then VisSystem else VisUser) v.

Definition register (g : MemoryTableRegistry) (info : TableInfo) (nu ns : Z) : MemoryTableRegistry :=
  {| byName := jm_set (byName g) (ti_name info) info;
     byNumber := jm_set (byNumber g) (ti_number info) info; nextUser := nu; nextSystem := ns |}.

Definition allocate (g : MemoryTableRegistry) (name : jsstr) (visibility : option TableVisibility)
    (shardKey : option jsstr) : res (MemoryTableRegistry * TableInfo) :=
  match jm_get (byName g) name with
  | Some existing => Ok (g, existing)
  | None =>
      let vis := default_visibility name visibility in
      let mk n := {| ti_name := name; ti_number := n; ti_visibility := vis; ti_state := TActive;
                     ti_shardKey := shardKey |} in
      match vis with
      | VisSystem =>
          if SYSTEM_TABLE_NUMBER_MAX <? nextSystem g then Err (PlainError "exhausted system table numbers")
          else let info := mk (nextSystem g) in Ok (register g info (nextUser g) (nextSystem g + 1), info)
      | VisUser => let info := mk (nextUser g) in Ok (register g info (nextUser g + 1) (nextSystem g), info)
      end
  end.

Definition preassign (g : MemoryTableRegistry) (name : jsstr) (n : Z) (visibility : option TableVisibility)
    (shardKey : option jsstr) (state : option TableState) : MemoryTableRegistry * TableInfo :=
  match jm_get (byName g) name with
  | Some existing => (g, existing)
  | None =>
      let vis := default_visibility name visibility in
      let info := {| ti_name := name; ti_number := n; ti_visibility := vis;
                     ti_state := default TActive state; ti_shardKey := shardKey |} in
      (match vis with
       | VisSystem => register g info (nextUser g) (Z.max (nextSystem g) (n + 1))
       | VisUser => register g info (Z.max (nextUser g) (n + 1)) (nextSystem g)
       end, info)
  end.

(** ** Varint round trip *)

(** Exhaustive check of a decidable fact on a small interval. *)
Lemma below_forall (n : nat) (P : Z → bool) :
  forallb (λ k, P (Z.of_nat k)) (seq 0 n) = true → ∀ z, 0 ≤ z < Z.of_nat n → P z = true.
Proof.
  intros H z Hz. rewrite forallb_forall in H. specialize (H (Z.to_nat z)).
  rewrite Z2Nat.id in H by lia. apply H, in_seq. lia.
Qed.

Lemma varint_byte b : 0 ≤ b < 128 →
  Z.land (Z.lor b 0x80) 0x7f = b ∧ (Z.land (Z.lor b 0x80) 0x80 =? 0) = false ∧
  Z.land b 0x7f = b ∧ (Z.land b 0x80 =? 0) = true.
Proof.
  intros Hb. pose proof (below_forall 128 (λ b, bool_decide (Z.land (Z.lor b 0x80) 0x7f = b) &&
    negb (Z.land (Z.lor b 0x80) 0x80 =? 0) && bool_decide (Z.land b 0x7f = b) && (Z.land b 0x80 =? 0))
    ltac:(by vm_compute) b Hb) as H. cbv beta in H.
  rewrite !andb_true_iff, !bool_decide_eq_true, negb_true_iff in H. tauto.
Qed.

Lemma varint_read_loop fuel v acc shift read rest :
  (0 < fuel)%nat → 0 ≤ v < 128 ^ Z.of_nat fuel → 0 ≤ shift → shift + 7 * Z.of_nat fuel = 35 →
  acc + v * 2 ^ shift ≤ UINT32_MAX →
  varint_read (varint_loop fuel v ++ rest) acc shift read =
    Ok (acc + v * 2 ^ shift, (read + length (varint_loop fuel v))%nat).
Proof.
  revert v acc shift read. induction fuel as [|fuel IH]; intros v acc shift read Hf Hv Hs0 Hs Hu; [lia|].
  cbn [varint_loop]. change 0x7f with (Z.ones 7). rewrite Z.land_ones by lia. change (2 ^ 7) with 128.
  change (Z.ones 7) with 0x7f. pose proof (Z.mod_pos_bound v 128 ltac:(lia)) as Hm.
  destruct (varint_byte _ Hm) as (B1 & B2 & B3 & B4). pose proof (Z.div_mod v 128 ltac:(lia)) as Hd.
  assert (0 ≤ v / 128) by (apply Z.div_pos; lia).
  destruct (Z.ltb_spec 0 (v / 128)) as [Hpos|Hzero].
  - cbn [app varint_read length]. rewrite B1, B2.
    assert (fuel ≠ 0)%nat by (intros ->; change (128 ^ Z.of_nat 1) with 128 in Hv; lia).
    rewrite Nat2Z.inj_succ, Z.pow_succ_r in Hv by lia.
    rewrite (proj2 (Z.ltb_ge 28 (shift + 7))) by lia.
    rewrite IH; try lia; rewrite Z.pow_add_r by lia; change (2 ^ 7) with 128; [|nia].
    f_equal. f_equal; [nia|lia].
  - cbn [app varint_read length]. rewrite B3, B4. assert (v mod 128 = v) as -> by lia.
    rewrite (proj2 (Z.ltb_ge UINT32_MAX (acc + v * 2 ^ shift))) by lia.
    f_equal. f_equal. lia.
Qed.

Lemma varintEncode_ok v : 0 ≤ v ≤ UINT32_MAX → varintEncode v = Ok (varint_loop 5 v).
Proof.
  intros Hv. unfold varintEncode. by rewrite (proj2 (Z.ltb_ge v 0)), (proj2 (Z.ltb_ge UINT32_MAX v)) by lia.
Qed.

Lemma varint_roundtrip v rest : 0 ≤ v ≤ UINT32_MAX →
  varintDecode (varint_loop 5 v ++ rest) 0 = Ok (v, length (varint_loop 5 v)).
Proof.
  intros Hv. unfold varintDecode. rewrite drop_0, varint_read_loop; try (unfold UINT32_MAX in *; simpl; lia).
  f_equal. f_equal. lia.
Qed.

Lemma varint_loop_bytes fuel v : 0 ≤ v → Forall is_byte (varint_loop fuel v).
Proof.
  revert v. induction fuel as [|fuel IH]; intros v Hv; [constructor|]. cbn [varint_loop].
  change 0x7f with (Z.ones 7). rewrite Z.land_ones by lia. change (2 ^ 7) with 128.
  pose proof (Z.mod_pos_bound v 128 ltac:(lia)) as Hm.
  pose proof (below_forall 128 (λ b, (0 <=? Z.lor b 0x80) && (Z.lor b 0x80 <? 256)) ltac:(by vm_compute) _ Hm) as Hb.
  cbv beta in Hb. rewrite andb_true_iff, Z.leb_le, Z.ltb_lt in Hb.
  destruct (Z.ltb_spec 0 (v / 128)); apply Forall_cons_2; unfold is_byte; try lia.
  - apply IH. apply Z.div_pos; lia.
  - apply Forall_nil_2.
Qed.

Lemma varint_loop_length v : 0 ≤ v → (1 ≤ length (varint_loop 5 v) ≤ 5)%nat.
Proof. intros _. cbn [varint_loop]. repeat (case_match; cbn [length]; try lia). Qed.

(** ** Base32 round trip *)

Lemma lor_shift_add q k b : 0 ≤ k → 0 ≤ b < 2 ^ k → Z.lor (q * 2 ^ k) b = q * 2 ^ k + b.
Proof.
  intros Hk Hb. symmetry. apply Z.add_nocarry_lor. rewrite <-Z.shiftl_mul_pow2 by done.
  apply Z.bits_inj'. intros n Hn. rewrite Z.land_spec, Z.bits_0, Z.shiftl_spec by done.
  destruct (Z.ltb_spec n k) as [H|H]; [by rewrite Z.testbit_neg_r by lia|].
  assert (Z.testbit b n = false) as ->; [|apply andb_false_r].
  destruct (decide (b = 0)) as [->|]; [apply Z.bits_0|].
  apply Z.bits_above_log2; [lia|]. apply Z.log2_lt_pow2; [lia|].
  eapply Z.lt_le_trans; [apply Hb|]. apply Z.pow_le_mono_r; lia.
Qed.

(** Shifting [k] bits in: the low bits of the accumulator. *)
Lemma acc_mod v k b n : 0 ≤ v → 0 ≤ k → 0 ≤ n → n + k ≤ 32 → 0 ≤ b < 2 ^ k →
  let x := Z.lor (u32 (Z.shiftl v k)) b in 0 ≤ x ∧ x mod 2 ^ (n + k) = v mod 2 ^ n * 2 ^ k + b.
Proof.
  intros Hv Hk Hn Hnk Hb. cbv zeta. unfold u32. rewrite Z.shiftl_mul_pow2 by done.
  assert (Hu : (v * 2 ^ k) mod 2 ^ 32 = v mod 2 ^ (32 - k) * 2 ^ k).
  { replace (2 ^ 32) with (2 ^ (32 - k) * 2 ^ k) by (rewrite <-Z.pow_add_r by lia; f_equal; lia).
    rewrite Z.mul_mod_distr_r; [done|apply Z.pow_nonzero; lia..]. }
  rewrite Hu, lor_shift_add by done.
  pose proof (Z.mod_pos_bound v (2 ^ (32 - k)) ltac:(apply Z.pow_pos_nonneg; lia)).
  assert (0 < 2 ^ k) by (apply Z.pow_pos_nonneg; lia). split; [nia|].
  assert (0 < 2 ^ n) by (apply Z.pow_pos_nonneg; lia).
  pose proof (Z.mod_pos_bound v (2 ^ n) ltac:(done)).
  assert (Hmm : v mod 2 ^ (32 - k) mod 2 ^ n = v mod 2 ^ n).
  { apply Z.mod_mod_divide. exists (2 ^ (32 - k - n)). rewrite <-Z.pow_add_r by lia. f_equal. lia. }
  rewrite Z.pow_add_r by lia. symmetry.
  apply (Z.mod_unique _ _ (v mod 2 ^ (32 - k) / 2 ^ n)); [nia|].
  pose proof (Z.div_mod (v mod 2 ^ (32 - k)) (2 ^ n) ltac:(lia)) as Hd. rewrite Hmm in Hd. nia.
Qed.

(** Reading [w] bits at offset [s]. *)
Lemma chunk_read x s w : 0 ≤ x → 0 ≤ s → 0 ≤ w →
  Z.land (Z.shiftr x s) (Z.ones w) = x mod 2 ^ (s + w) / 2 ^ s.
Proof.
  intros Hx Hs Hw. rewrite Z.land_ones, Z.shiftr_div_pow2 by done.
  rewrite Z.pow_add_r by lia. assert (0 < 2 ^ s) by (apply Z.pow_pos_nonneg; lia).
  assert (0 < 2 ^ w) by (apply Z.pow_pos_nonneg; lia).
  rewrite Z.rem_mul_r by lia. rewrite Z.mul_comm, Z.div_add by lia.
  rewrite (Z.div_small (x mod 2 ^ s)); [lia|]. by apply Z.mod_pos_bound.
Qed.

Lemma decode_alphabet c : 0 ≤ c < 32 → jm_get DECODE (alphabet_at c) = Some c.
Proof.
  intros Hc. pose proof (below_forall 32 (λ c, bool_decide (jm_get DECODE (alphabet_at c) = Some c))
    ltac:(by vm_compute) c Hc) as H. cbv beta in H. by apply bool_decide_eq_true in H.
Qed.

(** One character of decoding, in terms of the pending low bits [q] of the accumulator. *)
Lemma b32_decode_char c text bd dval : 0 ≤ c < 32 → 0 ≤ dval → 0 ≤ bd < 8 →
  ∃ dval', 0 ≤ dval' ∧ dval' mod 2 ^ (bd + 5) = dval mod 2 ^ bd * 32 + c ∧
  b32_decode (alphabet_at c :: text) bd dval =
    if 3 <=? bd then
      let! out := b32_decode text (bd - 3) dval' in
      Ok (dval' mod 2 ^ (bd + 5) / 2 ^ (bd - 3) :: out)
    else b32_decode text (bd + 5) dval'.
Proof.
  intros Hc Hd Hb. exists (Z.lor (u32 (Z.shiftl dval 5)) c).
  destruct (acc_mod dval 5 c bd) as [H1 H2]; [lia..|]. split; [done|]. split; [done|].
  cbn [b32_decode]. rewrite decode_alphabet by done.
  assert ((8 <=? bd + 5) = (3 <=? bd)) as ->.
  { destruct (Z.leb_spec 3 bd); [apply Z.leb_le|apply Z.leb_gt]; lia. }
  destruct (Z.leb_spec 3 bd); [|done]. replace (bd + 5 - 8) with (bd - 3) by lia.
  change 0xff with (Z.ones 8). rewrite chunk_read by lia. replace (bd - 3 + 8) with (bd + 5) by lia. done.
Qed.

Ltac div_mod_lia := Z.to_euclidean_division_equations; lia.

(** The characters one byte emits. *)
Lemma b32_emit_byte be v : 0 ≤ be ≤ 4 → 0 ≤ v →
  b32_emit 2 (be + 8) v =
    let c1 := v mod 2 ^ (be + 8) / 2 ^ (be + 3) in
    if 2 <=? be then (be - 2, [alphabet_at c1; alphabet_at (v mod 2 ^ (be + 3) / 2 ^ (be - 2))])
    else (be + 3, [alphabet_at c1]).
Proof.
  intros Hbe Hv. cbn [b32_emit]. cbv zeta.
  rewrite (proj2 (Z.leb_le 5 (be + 8))) by lia. change 0x1f with (Z.ones 5).
  assert ((5 <=? be + 8 - 5) = (2 <=? be)) as ->.
  { destruct (Z.leb_spec 2 be); [apply Z.leb_le|apply Z.leb_gt]; lia. }
  destruct (Z.leb_spec 2 be); rewrite !chunk_read by lia; repeat (f_equal; try lia).
Qed.

Lemma mod_pow_mod x n m : 0 ≤ m ≤ n → x mod 2 ^ n mod 2 ^ m = x mod 2 ^ m.
Proof.
  intros H. apply Z.mod_mod_divide. exists (2 ^ (n - m)). rewrite <-Z.pow_add_r by lia. f_equal. lia.
Qed.

(** The last character: the pending bits, padded with zeros. *)
Lemma b32_roundtrip_end be value dval : 0 ≤ value → 0 ≤ dval → 1 ≤ be ≤ 4 →
  b32_decode (b32_encode [] be value) (8 - be) dval =
    Ok [dval mod 2 ^ (8 - be) * 2 ^ be + value mod 2 ^ be].
Proof.
  intros Hv Hd Hbe. cbn [b32_encode]. rewrite (proj2 (Z.ltb_lt 0 be)) by lia.
  assert (Hp : 0 < 2 ^ be) by (apply Z.pow_pos_nonneg; lia).
  pose proof (Z.mod_pos_bound value (2 ^ be) Hp) as Hpb.
  assert (Hc : Z.land (u32 (Z.shiftl value (5 - be))) 0x1f = value mod 2 ^ be * 2 ^ (5 - be)).
  { change 0x1f with (Z.ones 5). rewrite Z.land_ones by lia. unfold u32. rewrite mod_pow_mod by lia.
    rewrite Z.shiftl_mul_pow2 by lia. replace (2 ^ 5) with (2 ^ be * 2 ^ (5 - be)) by (rewrite <-Z.pow_add_r by lia; f_equal; lia).
    rewrite Z.mul_mod_distr_r; [done|apply Z.pow_nonzero; lia..]. }
  rewrite Hc. set (c := value mod 2 ^ be * 2 ^ (5 - be)).
  assert (Hc32 : 0 ≤ c < 32).
  { unfold c. assert (2 ^ be * 2 ^ (5 - be) = 32) by (rewrite <-Z.pow_add_r by lia; by replace (be + (5 - be)) with 5 by lia).
    assert (0 < 2 ^ (5 - be)) by (apply Z.pow_pos_nonneg; lia). nia. }
  destruct (b32_decode_char c [] (8 - be) dval Hc32 Hd ltac:(lia)) as (dval' & Hd' & Hm & ->).
  rewrite (proj2 (Z.leb_le 3 (8 - be))) by lia. cbn [b32_decode].
  replace (8 - be - 3) with (5 - be) by lia. rewrite Hm.
  pose proof (mod_pow_mod dval' (8 - be + 5) (5 - be) ltac:(lia)) as Hlow. rewrite Hm in Hlow.
  rewrite (proj2 (Z.ltb_lt 0 (5 - be))) by lia. rewrite Z.shiftl_mul_pow2, Z.mul_1_l by lia.
  replace (2 ^ (5 - be) - 1) with (Z.ones (5 - be)) by (rewrite Z.ones_equiv; lia).
  rewrite Z.land_ones, <-Hlow by lia.
  assert (E : dval mod 2 ^ (8 - be) * 32 + c = (dval mod 2 ^ (8 - be) * 2 ^ be + value mod 2 ^ be) * 2 ^ (5 - be)).
  { unfold c. replace 32 with (2 ^ be * 2 ^ (5 - be)) by (rewrite <-Z.pow_add_r by lia; by replace (be + (5 - be)) with 5 by lia). lia. }
  rewrite E, Z.mod_mul, Z.div_mul by (apply Z.pow_nonzero; lia). done.
Qed.

(** Evaluate the closed powers and sums of a goal. *)
Ltac eval_pows :=
  repeat match goal with
  | |- context [2 ^ ?k] => let n := eval vm_compute in (2 ^ k) in progress change (2 ^ k) with n
  | H : context [2 ^ ?k] |- _ => let n := eval vm_compute in (2 ^ k) in progress change (2 ^ k) with n in H
  end.

(** Decode the next character; [d] is the accumulator after it. *)
Ltac b32_char d :=
  match goal with |- context [b32_decode (alphabet_at ?c :: ?t) ?bd ?dv] =>
    try (match t with b32_encode ?l ?k ?w =>
           let n := eval vm_compute in k in change (b32_encode l k w) with (b32_encode l n w) end);
    let Hd := fresh "Hd" in let Hm := fresh "Hm" in let E := fresh in let Hl := fresh "Hl" in
    match goal with |- context [b32_decode (alphabet_at c :: ?t') bd dv] => destruct (b32_decode_char c t' bd dv) as (d & Hd & Hm & E) end; [div_mod_lia|lia|lia|];
    rewrite E; clear E;
    let b := eval vm_compute in (3 <=? bd) in change (3 <=? bd) with b; cbv iota;
    let n := eval vm_compute in (if 3 <=? bd then bd - 3 else bd + 5) in
    (change (bd - 3) with n || change (bd + 5) with n);
    pose proof (mod_pow_mod d (bd + 5) n ltac:(lia)) as Hl; rewrite Hm in Hl; rewrite ?Hm; eval_pows
  end.

Lemma b32_roundtrip_gen bs be value bd dval :
  Forall is_byte bs → 0 ≤ value → 0 ≤ dval → be = 0 ∧ bd = 0 ∨ 1 ≤ be ≤ 4 ∧ bd = 8 - be →
  b32_decode (b32_encode bs be value) bd dval =
    Ok ((if be =? 0 then [] else [dval mod 2 ^ bd * 2 ^ be + value mod 2 ^ be]) ++ bs).
Proof.
  intros Hbs. revert be value bd dval. induction Hbs as [|b bs Hb Hbs IH]; intros be value bd dval Hv Hd Hst.
  - destruct Hst as [[-> ->]|[Hbe ->]]; [done|]. rewrite b32_roundtrip_end by done.
    by rewrite (proj2 (Z.eqb_neq be 0)) by lia.
  - cbn [b32_encode]. destruct (acc_mod value 8 b be) as [H1 H2]; [unfold is_byte in Hb; lia..|].
    cbv zeta in H1, H2. set (v := Z.lor (u32 (Z.shiftl value 8)) b) in *.
    pose proof (mod_pow_mod v (be + 8) (be + 3) ltac:(lia)) as H3. rewrite H2 in H3.
    rewrite b32_emit_byte by lia. cbv zeta. unfold is_byte in Hb.
    assert (Hcase : be = 0 ∧ bd = 0 ∨ be = 1 ∧ bd = 7 ∨ be = 2 ∧ bd = 6 ∨ be = 3 ∧ bd = 5 ∨ be = 4 ∧ bd = 4) by lia.
    rewrite <-H3, H2. clearbody v.
    pose proof (Z.mod_pos_bound value (2 ^ be) ltac:(apply Z.pow_pos_nonneg; lia)) as Hp.
    pose proof (Z.mod_pos_bound dval (2 ^ bd) ltac:(apply Z.pow_pos_nonneg; lia)) as Hq.
    set (p := value mod 2 ^ be) in *. set (q := dval mod 2 ^ bd) in *. clearbody p.
    assert (Hq' : dval mod 2 ^ bd = q) by done. clearbody q. cbn [app].
    destruct Hcase as [[-> ->]|[[-> ->]|[[-> ->]|[[-> ->]|[-> ->]]]]]; cbn [Z.leb Z.eqb Z.compare Z.add Z.sub app Pos.compare Pos.compare_cont Pos.add Z.pos_sub Pos.eqb]; eval_pows.
    + b32_char d1. rewrite (IH 3 v 5 d1) by (done || lia). cbn [Z.eqb app res_bind]. eval_pows. repeat f_equal. div_mod_lia.
    + b32_char d1. rewrite (IH 4 v 4 d1) by (done || lia). cbn [Z.eqb app res_bind]. eval_pows. repeat f_equal; div_mod_lia.
    + b32_char d1. b32_char d2. rewrite (IH 0 v 0 d2) by (done || lia). cbn [Z.eqb app res_bind]. eval_pows. repeat f_equal; div_mod_lia.
    + b32_char d1. b32_char d2. rewrite (IH 1 v 7 d2) by (done || lia). cbn [Z.eqb app res_bind]. eval_pows. repeat f_equal; div_mod_lia.
    + b32_char d1. b32_char d2. rewrite (IH 2 v 6 d2) by (done || lia). cbn [Z.eqb app res_bind]. eval_pows. repeat f_equal; div_mod_lia.
Qed.

Lemma base32_roundtrip bs : Forall is_byte bs → base32Decode (base32Encode bs) = Ok bs.
Proof. intros H. unfold base32Decode, base32Encode. rewrite b32_roundtrip_gen; auto; lia. Qed.

(** ** Checksum *)

Lemma fletcher_sums bs s : 0 ≤ s.1 < 255 → 0 ≤ s.2 < 255 →
  let r := fold_left fletcher_step bs s in 0 ≤ r.1 < 255 ∧ 0 ≤ r.2 < 255.
Proof.
  revert s. induction bs as [|b bs IH]; intros s H1 H2; simpl; [done|].
  apply IH; unfold fletcher_step; simpl; apply Z.mod_pos_bound; lia.
Qed.

Lemma fletcher16_split bs :
  let s := fold_left fletcher_step bs (0, 0) in
  Z.land (Z.shiftr (fletcher16 bs) 8) 0xff = s.2 ∧ Z.land (fletcher16 bs) 0xff = s.1 ∧
  fletcher16 bs = s.2 * 256 + s.1 ∧ 0 ≤ s.1 < 255 ∧ 0 ≤ s.2 < 255.
Proof.
  unfold fletcher16. pose proof (fletcher_sums bs (0, 0)) as Hs. cbv zeta in *.
  destruct (fold_left fletcher_step bs (0, 0)) as [s1 s2]. simpl in Hs.
  destruct Hs as [[H1 H2] [H3 H4]]; [lia..|]. cbn [fst snd].
  rewrite Z.shiftl_mul_pow2, lor_shift_add by lia. change (2 ^ 8) with 256.
  change 0xff with (Z.ones 8). rewrite !Z.land_ones, Z.shiftr_div_pow2 by lia. change (2 ^ 8) with 256.
  change (Z.ones 8) with 255. split_and!; try lia; div_mod_lia.
Qed.

(** Two sums that differ after a byte keep differing while the same bytes follow. *)
Lemma fletcher_sum1_diff bs s s' : (s.1 - s'.1) mod 255 ≠ 0 →
  ((fold_left fletcher_step bs s).1 - (fold_left fletcher_step bs s').1) mod 255 ≠ 0.
Proof.
  revert s s'. induction bs as [|b bs IH]; intros s s' H; simpl; [done|]. apply IH.
  unfold fletcher_step. cbn [fst]. rewrite <-Zminus_mod. by replace (s.1 + b - (s'.1 + b)) with (s.1 - s'.1) by lia.
Qed.

Lemma fletcher16_single pre post a b : (a - b) mod 255 ≠ 0 →
  fletcher16 (pre ++ a :: post) ≠ fletcher16 (pre ++ b :: post).
Proof.
  intros Hab Heq.
  destruct (fletcher16_split (pre ++ a :: post)) as (_ & _ & E1 & ? & _).
  destruct (fletcher16_split (pre ++ b :: post)) as (_ & _ & E2 & ? & _).
  pose proof (fletcher_sum1_diff post (fletcher_step (fold_left fletcher_step pre (0, 0)) a)
    (fletcher_step (fold_left fletcher_step pre (0, 0)) b)) as Hd.
  rewrite !fold_left_app in E1, E2. rewrite !fold_left_app in *. cbn [fold_left] in *.
  apply Hd.
  - generalize (fold_left fletcher_step pre (0, 0)). intros s. unfold fletcher_step. cbn [fst].
    rewrite <-Zminus_mod. by replace (s.1 + a - (s.1 + b)) with (a - b) by lia.
  - rewrite Heq in E1.
    assert ((fold_left fletcher_step post (fletcher_step (fold_left fletcher_step pre (0, 0)) a)).1 =
      (fold_left fletcher_step post (fletcher_step (fold_left fletcher_step pre (0, 0)) b)).1) as -> by lia.
    by rewrite Z.sub_diag.
Qed.

(** ** Document ids *)

Definition id_ok (id : InternalDocumentId) : Prop :=
  0 ≤ tableNumber id ≤ UINT32_MAX ∧ length (internalId id) = INTERNAL_ID_BYTES ∧ Forall is_byte (internalId id).

Lemma decode_encodeDocumentId id : id_ok id →
  ∃ s, encodeInternalDocumentId id = Ok s ∧ decodeDocumentId s = Ok id.
Proof.
  destruct id as [tn iid]. intros (Htn & Hlen & Hby). cbn [tableNumber internalId] in *.
  unfold encodeInternalDocumentId, encodeDocumentId. cbn [tableNumber internalId].
  rewrite Hlen, Nat.eqb_refl, varintEncode_ok by done. cbn [negb res_bind].
  eexists; split; [done|]. unfold decodeDocumentId.
  set (v := varint_loop 5 tn). set (pre := v ++ iid).
  destruct (fletcher16_split pre) as (-> & -> & Ef & Hs1 & Hs2). set (s := fold_left fletcher_step pre (0, 0)) in *.
  rewrite base32_roundtrip.
  2:{ unfold pre. rewrite !Forall_app. split_and!; [apply varint_loop_bytes; lia|done|].
      repeat (apply Forall_cons_2; [unfold is_byte; lia|]). apply Forall_nil_2. }
  unfold pre. rewrite <-(assoc_L (++)). unfold v at 1. rewrite varint_roundtrip by done. fold v.
  rewrite (assoc_L (++) v iid). fold pre.
  assert (Hpl : length pre = (length v + INTERNAL_ID_BYTES)%nat) by (unfold pre; rewrite length_app; lia).
  rewrite <-Hpl, length_app, Nat.eqb_refl. cbn [negb].
  rewrite !app_nth2 by lia. rewrite Nat.sub_diag, Nat.sub_succ_l, Nat.sub_diag by lia. cbn [nth].
  rewrite take_app_length, Z.shiftl_mul_pow2, lor_shift_add by lia. change (2 ^ 8) with 256. rewrite <-Ef.
  unfold verifyFletcher16. rewrite Z.eqb_refl. cbn [negb]. do 2 f_equal.
  rewrite Hpl. unfold pre. rewrite <-(assoc_L (++)), drop_app_length.
  replace (length v + INTERNAL_ID_BYTES - length v)%nat with (length iid) by lia. apply take_app_length.
Qed.

(** ** Keys *)

Lemma hex_pair b : 0 ≤ b < 256 → parseInt16 (hex2 b) = Some b.
Proof.
  intros Hb. pose proof (below_forall 256 (λ b, bool_decide (parseInt16 (hex2 b) = Some b))
    ltac:(by vm_compute) b Hb) as H. cbv beta in H. by apply bool_decide_eq_true in H.
Qed.

Lemma length_internalIdToHex iid : length (internalIdToHex iid) = (2 * length iid)%nat.
Proof. unfold internalIdToHex. induction iid as [|b iid IH]; [done|]. simpl in *. lia. Qed.

Lemma hex_roundtrip iid : Forall is_byte iid → hexToInternalId (internalIdToHex iid) = Ok iid.
Proof.
  intros H. unfold hexToInternalId.
  assert (length (internalIdToHex iid) mod 2 = 0)%nat as ->.
  { rewrite length_internalIdToHex, Nat.mul_comm. by apply Nat.Div0.mod_mul. }
  cbn [Nat.eqb]. induction H as [|b iid Hb H IH]; [done|].
  change (internalIdToHex (b :: iid)) with (hex_digit (b / 16) :: hex_digit (b mod 16) :: internalIdToHex iid).
  cbn [hex_pairs]. change [hex_digit (b / 16); hex_digit (b mod 16)] with (hex2 b).
  rewrite hex_pair by done. rewrite IH. simpl. rewrite Z.mod_small; [done|]. unfold is_byte in Hb. lia.
Qed.

Lemma cut_at_app sep p q : sep ∉ p → cut_at sep (p ++ sep :: q) = Some (p, q).
Proof.
  induction p as [|c p IH]; simpl; [by rewrite Z.eqb_refl|]. intros H.
  rewrite (proj2 (Z.eqb_neq c sep)) by set_solver. by rewrite IH by set_solver.
Qed.

Lemma string_of_int_digits n : 0 ≤ n → Forall (λ c, 48 ≤ c ≤ 57) (string_of_int n).
Proof.
  intros Hn. destruct (dec_nonneg_spec n Hn) as (_ & Hd & _). unfold string_of_int.
  rewrite (proj2 (Z.ltb_ge n 0)) by done. rewrite forallb_Forall in Hd.
  eapply Forall_impl; [exact Hd|]. apply digit_bounds.
Qed.

Lemma sep_not_digit sep n : sep = colon ∨ sep = slash → sep ∉ string_of_int n.
Proof.
  intros Hs Hin. assert (Hc : ∀ m, 0 ≤ m → sep ∉ string_of_int m).
  { intros m Hm Hin'. pose proof (string_of_int_digits m Hm) as H. rewrite Forall_forall in H.
    specialize (H _ Hin'). unfold colon, slash in Hs. lia. }
  destruct (Z.ltb_spec n 0) as [Hn|Hn]; [|by apply (Hc n)].
  specialize (Hc (- n) ltac:(lia)). unfold string_of_int in Hin, Hc.
  rewrite (proj2 (Z.ltb_lt n 0)) in Hin by done. rewrite (proj2 (Z.ltb_ge (- n) 0)) in Hc by lia.
  apply elem_of_cons in Hin as [->|Hin]; [|done]. unfold colon, slash in Hs. lia.
Qed.

Lemma encodeStorageIndexId_inj n m a b :
  encodeStorageIndexId n a = encodeStorageIndexId m b → n = m ∧ a = b.
Proof.
  unfold encodeStorageIndexId. intros H. apply (f_equal (cut_at slash)) in H.
  rewrite !cut_at_app in H by (apply sep_not_digit; auto). injection H as H1 H2.
  split; [by apply string_of_int_inj|done].
Qed.

Lemma parse_documentIdKey id : 0 ≤ tableNumber id → Forall is_byte (internalId id) →
  parseDocumentIdKey (documentIdKey id) = Ok id.
Proof.
  intros Hn Hb. unfold parseDocumentIdKey, documentIdKey.
  rewrite cut_at_app by (apply sep_not_digit; auto).
  rewrite parseInt10_string_of_int, hex_roundtrip by done. simpl. by destruct id.
Qed.

Lemma documentIdKey_inj a b :
  0 ≤ tableNumber a → 0 ≤ tableNumber b → Forall is_byte (internalId a) → Forall is_byte (internalId b) →
  documentIdKey a = documentIdKey b → a = b.
Proof.
  intros ? ? ? ? H. apply (f_equal parseDocumentIdKey) in H. rewrite !parse_documentIdKey in H by done.
  congruence.
Qed.

Lemma decode_encodeStorageTableId n : 0 ≤ n → decodeStorageTableId (encodeStorageTableId n) = Ok n.
Proof.
  intros Hn. unfold decodeStorageTableId, encodeStorageTableId. rewrite parseInt10_string_of_int by done.
  by rewrite decide_True.
Qed.

Lemma decode_encodeStorageIndexId n name : 0 ≤ n →
  decodeStorageIndexId (encodeStorageIndexId n name) = Ok (n, name).
Proof.
  intros Hn. unfold decodeStorageIndexId, encodeStorageIndexId.
  rewrite cut_at_app by (apply sep_not_digit; auto).
  change (string_of_int n) with (encodeStorageTableId n). by rewrite decode_encodeStorageTableId.
Qed.

Lemma bytes_equal_true a b : bytes_equal a b = true ↔ a = b.
Proof.
  revert b. induction a as [|x a IH]; intros [|y b]; simpl; try done.
  destruct (Z.eqb_spec x y); simpl; [rewrite IH; subst; split; congruence|split; congruence].
Qed.

Lemma documentIdsEqual_true a b : documentIdsEqual a b = true ↔ a = b.
Proof.
  unfold documentIdsEqual. destruct a as [ta ia], b as [tb ib]. simpl.
  destruct (Z.eqb_spec ta tb); simpl; [|split; congruence].
  destruct (Nat.eqb_spec (length ia) (length ib)); simpl; [|split; congruence].
  rewrite bytes_equal_true. split; congruence.
Qed.

(** ** The registry *)

(** Names and numbers are in bijection, and the counters are above every number of their class. *)
Record registry_ok (g : MemoryTableRegistry) : Prop := {
  rg_names : jm_ok (byName g);
  rg_numbers : jm_ok (byNumber g);
  rg_name : ∀ name info, jm_get (byName g) name = Some info →
    ti_name info = name ∧ jm_get (byNumber g) (ti_number info) = Some info;
  rg_number : ∀ n info, jm_get (byNumber g) n = Some info →
    ti_number info = n ∧ jm_get (byName g) (ti_name info) = Some info;
  rg_user : USER_TABLE_NUMBER_START ≤ nextUser g ∧ ∀ n info, jm_get (byNumber g) n = Some info →
    ti_visibility info = VisUser → USER_TABLE_NUMBER_START ≤ n < nextUser g;
  rg_system : SYSTEM_TABLE_NUMBER_MIN ≤ nextSystem g ≤ SYSTEM_TABLE_NUMBER_MAX + 1 ∧
    ∀ n info, jm_get (byNumber g) n = Some info → ti_visibility info = VisSystem →
      SYSTEM_TABLE_NUMBER_MIN ≤ n < nextSystem g }.

Lemma new_registry_ok : registry_ok new_registry.
Proof. split; try (apply NoDup_nil_2); try done; simpl; split; try done; unfold SYSTEM_TABLE_NUMBER_MIN, SYSTEM_TABLE_NUMBER_MAX; lia. Qed.

Lemma register_ok g info nu ns :
  registry_ok g → jm_get (byName g) (ti_name info) = None → jm_get (byNumber g) (ti_number info) = None →
  nextUser g ≤ nu → nextSystem g ≤ ns ≤ SYSTEM_TABLE_NUMBER_MAX + 1 →
  (ti_visibility info = VisUser → USER_TABLE_NUMBER_START ≤ ti_number info < nu) →
  (ti_visibility info = VisSystem → SYSTEM_TABLE_NUMBER_MIN ≤ ti_number info < ns) →
  registry_ok (register g info nu ns).
Proof.
  intros [K1 K2 N1 N2 [U0 U] [S0 S]] Hn Hm Hu Hs Hui Hsi.
  split; simpl; [by apply jm_set_ok|by apply jm_set_ok|..].
  - intros name i. rewrite !jm_get_set. case_decide as Hd.
    + intros [= <-]. by rewrite decide_True.
    + intros Hi. destruct (N1 _ _ Hi) as [? Hi']. rewrite decide_False by congruence. done.
  - intros n i. rewrite !jm_get_set. case_decide as Hd.
    + intros [= <-]. by rewrite decide_True.
    + intros Hi. destruct (N2 _ _ Hi) as [? Hi']. rewrite decide_False by congruence. done.
  - split; [lia|]. intros n i. rewrite jm_get_set. case_decide as Hd; [intros [= <-]; subst; auto|].
    intros H1 H2. specialize (U _ _ H1 H2). lia.
  - split; [lia|]. intros n i. rewrite jm_get_set. case_decide as Hd; [intros [= <-]; subst; auto|].
    intros H1 H2. specialize (S _ _ H1 H2). lia.
Qed.

Lemma counter_fresh g : registry_ok g →
  jm_get (byNumber g) (nextUser g) = None ∧
  (nextSystem g ≤ SYSTEM_TABLE_NUMBER_MAX → jm_get (byNumber g) (nextSystem g) = None).
Proof.
  intros [_ _ _ N2 [U0 U] [S0 S]]. split; [|intros Hs]; apply eq_None_not_Some; intros [i Hi];
    destruct (ti_visibility i) eqn:E;
    [specialize (U _ _ Hi E)|specialize (S _ _ Hi E)|specialize (U _ _ Hi E)|specialize (S _ _ Hi E)];
    unfold USER_TABLE_NUMBER_START, SYSTEM_TABLE_NUMBER_MIN, SYSTEM_TABLE_NUMBER_MAX in *; lia.
Qed.

Lemma allocate_ok g name vis sk g' info : registry_ok g → allocate g name vis sk = Ok (g', info) →
  registry_ok g' ∧ getByName g' name = Some info.
Proof.
  intros Hg. unfold allocate, getByName. destruct (jm_get (byName g) name) as [i|] eqn:E; [by intros [= <- <-]|].
  destruct (counter_fresh g Hg) as [Hu Hs]. pose proof (rg_user g Hg) as [U _]. pose proof (rg_system g Hg) as [S _].
  destruct (default_visibility name vis).
  - intros [= <- <-]. split; [apply register_ok; simpl; try done; lia|]. simpl. by rewrite jm_get_set, decide_True.
  - destruct (Z.ltb_spec SYSTEM_TABLE_NUMBER_MAX (nextSystem g)); [done|].
    intros [= <- <-]. split; [apply register_ok; simpl; try done; try lia; auto|]. simpl. by rewrite jm_get_set, decide_True.
Qed.

(** A preassignment that keeps the number classes apart: a free number of the class of the table. *)
Definition preassign_legal (g : MemoryTableRegistry) (name : jsstr) (n : Z) (vis : option TableVisibility) : Prop :=
  getByNumber g n = None ∧
  match default_visibility name vis with
  | VisUser => USER_TABLE_NUMBER_START ≤ n
  | VisSystem => SYSTEM_TABLE_NUMBER_MIN ≤ n ≤ SYSTEM_TABLE_NUMBER_MAX
  end.

Lemma preassign_ok g name n vis sk st : registry_ok g →
  jm_get (byName g) name ≠ None ∨ preassign_legal g name n vis →
  registry_ok (preassign g name n vis sk st).1 ∧
  getByName (preassign g name n vis sk st).1 name = Some (preassign g name n vis sk st).2.
Proof.
  intros Hg. unfold preassign, preassign_legal, getByName, getByNumber.
  destruct (jm_get (byName g) name) as [i|] eqn:E; [done|]. intros [?|[Hn Hv]]; [done|].
  pose proof (rg_user g Hg) as [U _]. pose proof (rg_system g Hg) as [S _].
  destruct (default_visibility name vis); cbn [fst snd]; (split; [|simpl; by rewrite jm_get_set, decide_True]);
    apply register_ok; simpl; try done; lia.
Qed.

(** The registries a deployment can reach. *)
Inductive reg_reachable : MemoryTableRegistry → Prop :=
  | reg_new : reg_reachable new_registry
  | reg_allocate g name vis sk g' info :
      reg_reachable g → allocate g name vis sk = Ok (g', info) → reg_reachable g'
  | reg_preassign g name n vis sk st :
      reg_reachable g → jm_get (byName g) name ≠ None ∨ preassign_legal g name n vis →
      reg_reachable (preassign g name n vis sk st).1.

Lemma reg_reachable_ok g : reg_reachable g → registry_ok g.
Proof.
  induction 1; [apply new_registry_ok|by eapply allocate_ok|by apply preassign_ok].
Qed.

(** ** Properties *)

(** C37: a document id survives its string form: every (uint32 table number, 16-byte internal id)
    encodes, and decoding the string gives exactly that pair back. *)
Theorem document_id_roundtrip id : id_ok id →
  ∃ s, encodeInternalDocumentId id = Ok s ∧ decodeDocumentId s = Ok id ∧
    isValidDocumentId s (Some (tableNumber id)) = true.
Proof.
  intros Hid. destruct (decode_encodeDocumentId id Hid) as (s & E & D). exists s.
  unfold isValidDocumentId, tryDecodeDocumentId. rewrite D. by rewrite Z.eqb_refl.
Qed.

Lemma document_id_roundtrip_witness :
  ∃ s, encodeInternalDocumentId {| tableNumber := 10001; internalId := replicate 16 7 |} = Ok s ∧
    decodeDocumentId s = Ok {| tableNumber := 10001; internalId := replicate 16 7 |} ∧
    isValidDocumentId s (Some 10001) = true.
Proof.
  apply (document_id_roundtrip {| tableNumber := 10001; internalId := replicate 16 7 |}).
  split_and!; [simpl; lia|unfold UINT32_MAX; simpl; lia|done|]. apply Forall_replicate. unfold is_byte. lia.
Defined.

(** The checksum detects every corruption of one byte of an id's payload, except a byte pair
    that is equal modulo 255 (0x00 and 0xff). *)
Theorem checksum_detects_byte_change pre post a b :
  is_byte a → is_byte b → a ≠ b → ¬ (a = 0 ∧ b = 255) → ¬ (a = 255 ∧ b = 0) →
  verifyFletcher16 (pre ++ b :: post) (fletcher16 (pre ++ a :: post)) = false.
Proof.
  unfold is_byte. intros Ha Hb Hne H1 H2. unfold verifyFletcher16. apply Z.eqb_neq, not_eq_sym.
  apply fletcher16_single. intros H. apply Z.mod_divide in H as [k Hk]; lia.
Qed.

Lemma checksum_detects_witness :
  verifyFletcher16 ([1; 2] ++ 9 :: [3]) (fletcher16 ([1; 2] ++ 8 :: [3])) = false.
Proof. apply checksum_detects_byte_change; unfold is_byte; lia. Defined.

(** the map keys of ids are faithful: distinct ids have distinct keys, a key parses back to its
    id, and [documentIdsEqual] decides equality. *)
Theorem documentIdKey_faithful a b :
  0 ≤ tableNumber a → 0 ≤ tableNumber b → Forall is_byte (internalId a) → Forall is_byte (internalId b) →
  (documentIdKey a = documentIdKey b ↔ a = b) ∧ parseDocumentIdKey (documentIdKey a) = Ok a ∧
  (documentIdsEqual a b = true ↔ a = b).
Proof.
  intros. split_and!; [split; [by apply documentIdKey_inj|by intros ->]|by apply parse_documentIdKey|].
  apply documentIdsEqual_true.
Qed.

Lemma documentIdKey_faithful_witness :
  let a := {| tableNumber := 1; internalId := [18; 255] |} in
  let b := {| tableNumber := 11; internalId := [8; 255] |} in
  (documentIdKey a = documentIdKey b ↔ a = b) ∧ parseDocumentIdKey (documentIdKey a) = Ok a ∧
  (documentIdsEqual a b = true ↔ a = b).
Proof.
  cbv zeta. apply documentIdKey_faithful; simpl; try lia;
    repeat (apply Forall_cons_2; [unfold is_byte; lia|]); apply Forall_nil_2.
Defined.

(** In every registry reached by allocations and by preassignments of free numbers of the
    table's class, names and numbers are in bijection: two names never share a number, and each
    number resolves to the table it was given to; user numbers start at 10001, system numbers lie
    in 1..9999. *)
Theorem table_numbers_unique g : reg_reachable g →
  (∀ na nb a b, getByName g na = Some a → getByName g nb = Some b → ti_number a = ti_number b → na = nb) ∧
  (∀ n a, getByNumber g n = Some a ↔ getByName g (ti_name a) = Some a ∧ ti_number a = n) ∧
  (∀ n a, getByNumber g n = Some a →
     match ti_visibility a with VisUser => 10001 ≤ n | VisSystem => 1 ≤ n ≤ 9999 end).
Proof.
  intros Hg%reg_reachable_ok. destruct Hg as [_ _ N1 N2 [U0 U] [S0 S]].
  unfold getByName, getByNumber. split_and!.
  - intros na nb a b Ha Hb E. destruct (N1 _ _ Ha) as [<- Ha'], (N1 _ _ Hb) as [<- Hb']. congruence.
  - intros n a. split; [intros H; destruct (N2 _ _ H); done|]. intros [H <-]. by apply N1 in H as [_ ?].
  - intros n a H. destruct (ti_visibility a) eqn:E; [apply (U _ _ H E)|].
    pose proof (S _ _ H E). unfold SYSTEM_TABLE_NUMBER_MIN, SYSTEM_TABLE_NUMBER_MAX in *. lia.
Qed.

Lemma table_numbers_unique_witness :
  ∃ g, g = (preassign new_registry (js "_storage") STORAGE_TABLE_NUMBER None None None).1 ∧
  option_map ti_number (getByName g (js "_storage")) = Some 20 ∧
  (∀ na nb a b, getByName g na = Some a → getByName g nb = Some b → ti_number a = ti_number b → na = nb).
Proof.
  eexists. split; [reflexivity|]. split; [reflexivity|].
  apply table_numbers_unique. apply reg_preassign; [apply reg_new|]. right.
  split; [reflexivity|]. unfold STORAGE_TABLE_NUMBER. simpl.
  unfold SYSTEM_TABLE_NUMBER_MIN, SYSTEM_TABLE_NUMBER_MAX. lia.
Defined.

(** Without the class condition a preassigned number can be handed out again: a user table
    preassigned number 1, then the first system table, share number 1, and the lookup by number
    resolves to the second. *)
Theorem preassign_can_collide :
  let g := (preassign new_registry (js "users") 1 None None None).1 in
  match allocate g (js "_sys") None None with
  | Ok (g', info) =>
      ti_number info = 1 ∧ option_map ti_number (getByName g' (js "users")) = Some 1 ∧
      option_map ti_name (getByNumber g' 1) = Some (js "_sys")
  | Err _ => False
  end.
Proof. by vm_compute. Qed.
