(* ===== verification/DocStore.v ===== *)
(** The document store: the log and index tables of [packages/docstore/src/types.ts] as implemented by
    [packages/docstore-sqlite/src/sqlite-docstore.ts], and the timestamp oracle of
    [packages/docstore/src/timestamp-oracle.ts]. A SQL table is the list of its rows; a query is a
    filter of the rows followed by its ORDER BY and LIMIT; a [db.transaction] that throws leaves the
    database as it was, so a failing operation returns [Err] and no new database. *)
From S2P Require Import Prelude Numbers Values Json IndexKeys Ranges IdCodec.

(** ** Timestamp oracle *)
Record Oracle := { current : Z; lastCommitted : Z }.

Definition new_Oracle (start : Z) : Oracle := {| current := start; lastCommitted := start |}.
Definition getCurrentTimestamp (o : Oracle) : Z := current o.
Definition getLastCommittedTimestamp (o : Oracle) : Z := lastCommitted o.
Definition allocateTimestamp (o : Oracle) : Oracle * Z :=
  let o := {| current := current o + 1; lastCommitted := lastCommitted o |} in (o, current o).
Definition publishCommitted (o : Oracle) (ts : Z) : Oracle :=
  if lastCommitted o <? ts then {| current := current o; lastCommitted := ts |} else o.
Definition observeTimestamp (o : Oracle) (ts : Z) : Oracle :=
  {| current := if current o <? ts then ts else current o;
     lastCommitted := if lastCommitted o <? ts then ts else lastCommitted o |}.

(** ** Data *)
Record ResolvedDocument := { rd_id : InternalDocumentId; rd_value : value }.
Record DocumentLogEntry := {
  le_ts : Z; le_id : InternalDocumentId; le_value : option ResolvedDocument; le_prev_ts : option Z }.
Record LatestDocument := { ld_ts : Z; ld_value : ResolvedDocument; ld_prev_ts : option Z }.
Inductive Order := Asc | Desc.
Inductive ConflictStrategy := CSError | CSOverwrite.
Record Interval := { iv_start : bytes; iv_end : option bytes }.
Record TimestampRange := { minInclusive : Z; maxExclusive : Z }.
Inductive DatabaseIndexValue := Deleted | NonClustered (docId : InternalDocumentId).
Record DatabaseIndexUpdate := { iu_indexId : jsstr; iu_key : bytes; iu_value : DatabaseIndexValue }.
Record IndexWrite := { iw_ts : Z; iw_update : DatabaseIndexUpdate }.
Definition Meta : Type := option (list (jsstr * jsstr)).
Record CommitUnit := {
  cu_documents : list DocumentLogEntry; cu_indexUpdates : list IndexWrite; cu_meta : Meta }.
Record CommitGuardUnit := { gu_ts : Z; gu_meta : Meta }.
Definition DEFAULT_SHARD : jsstr := js "default".

(** ** Tables *)
Record docRow := {
  d_table : jsstr; d_internal : bytes; d_ts : Z; d_prev : option Z; d_value : option json; d_shard : jsstr }.
Record idxRow := {
  i_index : jsstr; i_key : bytes; i_ts : Z; i_table : option jsstr; i_internal : option bytes;
  i_deleted : bool; i_shard : jsstr }.

Inductive Verdict := Applied | Failed.
Record cmRow := {
  cm_identity : jsstr; cm_client : jsstr; cm_seq : Z; cm_verdict : Verdict; cm_commit_ts : Z;
  cm_value : option json; cm_error : option jsstr; cm_created : Z }.
Record floorRow := { fl_identity : jsstr; fl_client : jsstr; fl_through : Z; fl_updated : Z }.

Record db := {
  documents : list docRow; indexes : list idxRow; globals : list (jsstr * json);
  client_mutations : list cmRow; client_floors : list floorRow }.
Definition empty_db : db :=
  {| documents := []; indexes := []; globals := []; client_mutations := []; client_floors := [] |}.

Definition with_log (d : db) (docs : list docRow) (idx : list idxRow) : db :=
  {| documents := docs; indexes := idx; globals := globals d; client_mutations := client_mutations d;
     client_floors := client_floors d |}.
Definition with_globals (d : db) (g : list (jsstr * json)) : db :=
  {| documents := documents d; indexes := indexes d; globals := g; client_mutations := client_mutations d;
     client_floors := client_floors d |}.
Definition with_receipts (d : db) (cm : list cmRow) (fl : list floorRow) : db :=
  {| documents := documents d; indexes := indexes d; globals := globals d; client_mutations := cm;
     client_floors := fl |}.

(** [JSON.parse(JSON.stringify(j))]: a JSON text keeps everything but the sign of a zero. *)
Fixpoint json_text (j : json) : json :=
  match j with
  | JNum n => match sf n with S754_zero true => JNum (mknum (S754_zero false)) | _ => j end
  | JArr l => JArr (List.map json_text l)
  | JObj kvs => JObj (List.map (λ kv, match kv with (k, v) => (k, json_text v) end) kvs)
  | _ => j
  end.

Definition serializeValue (v : value) : json := json_text (convexToJson v).
Definition parseValue (text : json) : res value := jsonToConvex text.

(** [SELECT MAX(c)] *)
Fixpoint sql_max (l : list Z) : option Z :=
  match l with
  | [] => None
  | x :: l' => match sql_max l' with None => Some x | Some m => Some (Z.max x m) end
  end.

Definition doc_pk (r : docRow) : jsstr * bytes * Z := (d_table r, d_internal r, d_ts r).
Definition idx_pk (r : idxRow) : jsstr * bytes * Z := (i_index r, i_key r, i_ts r).

(** [INSERT] and [INSERT OR REPLACE] by primary key *)
Definition insert_doc (cs : ConflictStrategy) (rows : list docRow) (r : docRow) : res (list docRow) :=
  match cs with
  | CSError =>
      if existsb (λ x, bool_decide (doc_pk x = doc_pk r)) rows then Err SqliteConstraint else Ok (rows ++ [r])
  | CSOverwrite => Ok (List.filter (λ x, negb (bool_decide (doc_pk x = doc_pk r))) rows ++ [r])
  end.

Definition replace_idx (rows : list idxRow) (r : idxRow) : list idxRow :=
  List.filter (λ x, negb (bool_decide (idx_pk x = idx_pk r))) rows ++ [r].

Definition doc_row (shard : jsstr) (e : DocumentLogEntry) : docRow :=
  {| d_table := encodeStorageTableId (tableNumber (le_id e)); d_internal := internalId (le_id e);
     d_ts := le_ts e; d_prev := le_prev_ts e;
     d_value := match le_value e with None => None | Some v => Some (serializeValue (rd_value v)) end;
     d_shard := shard |}.

Definition idx_row (shard : jsstr) (w : IndexWrite) : idxRow :=
  let u := iw_update w in
  {| i_index := iu_indexId u; i_key := iu_key u; i_ts := iw_ts w;
     i_table := match iu_value u with NonClustered id => Some (encodeStorageTableId (tableNumber id)) | Deleted => None end;
     i_internal := match iu_value u with NonClustered id => Some (internalId id) | Deleted => None end;
     i_deleted := match iu_value u with NonClustered _ => false | Deleted => true end;
     i_shard := shard |}.

Fixpoint insert_docs (cs : ConflictStrategy) (rows : list docRow) (new : list docRow) : res (list docRow) :=
  match new with
  | [] => Ok rows
  | r :: new' => let! rows' := insert_doc cs rows r in insert_docs cs rows' new'
  end.

Definition insertRows (d : db) (docs : list DocumentLogEntry) (idx : list IndexWrite) (cs : ConflictStrategy)
    (shard : jsstr) : res db :=
  let! rows := insert_docs cs (documents d) (List.map (doc_row shard) docs) in
  Ok (with_log d rows (fold_left replace_idx (List.map (idx_row shard) idx) (indexes d))).

Definition write (d : db) (docs : list DocumentLogEntry) (idx : list IndexWrite) (cs : ConflictStrategy)
    (shardId : option jsstr) : res db :=
  insertRows d docs idx cs (default DEFAULT_SHARD shardId).

Definition maxTimestamp (d : db) : Z := default 0 (sql_max (List.map d_ts (documents d))).

Definition stamp_doc (ts : Z) (e : DocumentLogEntry) : DocumentLogEntry :=
  {| le_ts := ts; le_id := le_id e; le_value := le_value e; le_prev_ts := le_prev_ts e |}.
Definition stamp_idx (ts : Z) (w : IndexWrite) : IndexWrite := {| iw_ts := ts; iw_update := iw_update w |}.

(** A commit guard reads and writes the database through its querier, or throws. *)
Definition Guard : Type := db → list CommitGuardUnit → jsstr → res db.

Fixpoint commit_units (d : db) (units : list CommitUnit) (shard : jsstr) : res (db * list Z) :=
  match units with
  | [] => Ok (d, [])
  | u :: units' =>
      let commitTs := maxTimestamp d + 1 in
      let! d1 := insertRows d (List.map (stamp_doc commitTs) (cu_documents u))
                   (List.map (stamp_idx commitTs) (cu_indexUpdates u)) CSError shard in
      let! (d2, out) := commit_units d1 units' shard in
      Ok (d2, commitTs :: out)
  end.

Definition run_guards (guards : list Guard) (d : db) (gus : list CommitGuardUnit) (shard : jsstr) : res db :=
  fold_left (λ acc g, let! d := acc in g d gus shard) guards (Ok d).

Definition guard_units (units : list CommitUnit) (tss : list Z) : list CommitGuardUnit :=
  List.map (λ p, {| gu_ts := p.2; gu_meta := cu_meta p.1 |}) (combine units tss).

Definition commitWriteBatch (guards : list Guard) (d : db) (units : list CommitUnit) (shardId : option jsstr) :
    res (db * list Z) :=
  let shard := default DEFAULT_SHARD shardId in
  let! (d', out) := commit_units d units shard in
  if Nat.ltb 0 (length units) then
    let! d'' := run_guards guards d' (guard_units units out) shard in Ok (d'', out)
  else Ok (d', out).

Definition commitWrite (guards : list Guard) (d : db) (docs : list DocumentLogEntry) (idx : list IndexWrite)
    (shardId : option jsstr) (meta : Meta) : res (db * Z) :=
  let! (d', tss) := commitWriteBatch guards d
    [{| cu_documents := docs; cu_indexUpdates := idx; cu_meta := meta |}] shardId in
  match tss with ts :: _ => Ok (d', ts) | [] => Err TypeError end.

(** ** Reads *)

(** [WHERE table_id = ? AND internal_id = ? (AND ts <= ?)] *)
Definition revisions (d : db) (tableId : jsstr) (iid : bytes) (readTs : option Z) : list docRow :=
  List.filter (λ r, bool_decide (d_table r = tableId) && bool_decide (d_internal r = iid) &&
                    match readTs with None => true | Some t => d_ts r <=? t end) (documents d).

(** [ORDER BY ts DESC LIMIT 1] *)
Definition latest_row (rows : list docRow) : option docRow :=
  head (sort_by (λ a b, d_ts b ?= d_ts a) rows).

Definition get (d : db) (id : InternalDocumentId) (readTs : option Z) : res (option LatestDocument) :=
  let tableId := encodeStorageTableId (tableNumber id) in
  match latest_row (revisions d tableId (internalId id) readTs) with
  | None => Ok None
  | Some row =>
      match d_value row with
      | None => Ok None
      | Some text =>
          let! v := parseValue text in
          Ok (Some {| ld_ts := d_ts row; ld_prev_ts := d_prev row; ld_value := {| rd_id := id; rd_value := v |} |})
      end
  end.

(** [SELECT MAX(i2.ts) FROM indexes i2 WHERE i2.index_id = ? AND i2.key = ? AND i2.ts <= ?] *)
Definition idx_max_ts (d : db) (indexId : jsstr) (key : bytes) (readTs : option Z) : option Z :=
  sql_max (List.map i_ts (List.filter (λ r, bool_decide (i_index r = indexId) && bool_decide (i_key r = key) &&
    match readTs with None => true | Some t => i_ts r <=? t end) (indexes d))).

Definition order_cmp {A} (o : Order) (cmp : A → A → comparison) (a b : A) : comparison :=
  match o with Asc => cmp a b | Desc => cmp b a end.

(** [i.key >= ? AND i.key < ?] *)
Definition in_interval (key : bytes) (iv : Interval) : bool :=
  cmp_leb (compareKeyBytes (iv_start iv) key) && before_end key (iv_end iv).

(** The rows of the scan's SQL query: the newest visible revision of each key of the interval. *)
Definition scan_rows (d : db) (indexId : jsstr) (readTs : Z) (iv : Interval) (o : Order) : list idxRow :=
  sort_by (λ a b, order_cmp o compareKeyBytes (i_key a) (i_key b))
    (List.filter (λ r,
       bool_decide (i_index r = indexId) && in_interval (i_key r) iv && (i_ts r <=? readTs) &&
       bool_decide (idx_max_ts d (i_index r) (i_key r) (Some readTs) = Some (i_ts r))) (indexes d)).

(** The document a scan row points to, [None] for the rows the loop skips. *)
Definition resolve_row (d : db) (readTs : Z) (r : idxRow) : res (option (bytes * LatestDocument)) :=
  match i_deleted r, i_internal r, i_table r with
  | false, Some iid, Some tid =>
      let! tn := decodeStorageTableId tid in
      let! doc := get d {| tableNumber := tn; internalId := iid |} (Some readTs) in
      Ok (match doc with None => None | Some doc => Some (i_key r, doc) end)
  | _, _, _ => Ok None
  end.

(** The generator's loop: [if (limit !== undefined && ++yielded >= limit) return] after each yield. *)
Fixpoint scan_loop (d : db) (readTs : Z) (limit : option Z) (yielded : Z) (rows : list idxRow) :
    res (list (bytes * LatestDocument)) :=
  match rows with
  | [] => Ok []
  | r :: rows' =>
      let! x := resolve_row d readTs r in
      match x with
      | None => scan_loop d readTs limit yielded rows'
      | Some y =>
          let yielded := yielded + 1 in
          if match limit with None => false | Some l => l <=? yielded end then Ok [y]
          else let! rest := scan_loop d readTs limit yielded rows' in Ok (y :: rest)
      end
  end.

Definition index_scan (d : db) (indexId : jsstr) (readTs : Z) (iv : Interval) (o : Order) (limit : option Z) :
    res (list (bytes * LatestDocument)) :=
  scan_loop d readTs limit 0 (scan_rows d indexId readTs iv o).

Definition entry_of_row (r : docRow) : res DocumentLogEntry :=
  let! tn := decodeStorageTableId (d_table r) in
  let id := {| tableNumber := tn; internalId := d_internal r |} in
  match d_value r with
  | None => Ok {| le_ts := d_ts r; le_id := id; le_value := None; le_prev_ts := d_prev r |}
  | Some text =>
      let! v := parseValue text in
      Ok {| le_ts := d_ts r; le_id := id; le_value := Some {| rd_id := id; rd_value := v |}; le_prev_ts := d_prev r |}
  end.

(** SQL text order of table ids is by UTF-8 bytes; they are ASCII digits here. *)
Definition compareText (a b : jsstr) : comparison := compareKeyBytes (utf8_encode a) (utf8_encode b).

Definition log_cmp (a b : docRow) : comparison :=
  match d_ts a ?= d_ts b with
  | Eq => match compareText (d_table a) (d_table b) with
          | Eq => compareKeyBytes (d_internal a) (d_internal b) | c => c end
  | c => c
  end.

Definition load_documents (d : db) (range : TimestampRange) (o : Order) (limit : option Z) :
    res (list DocumentLogEntry) :=
  let rows := sort_by (order_cmp o log_cmp)
    (List.filter (λ r, (minInclusive range <=? d_ts r) && (d_ts r <? maxExclusive range)) (documents d)) in
  traverse entry_of_row (match limit with None => rows | Some l => take (Z.to_nat (Z.max 0 l)) rows end).

Definition getPrevRevQueryKey (id : InternalDocumentId) (ts : Z) : jsstr :=
  documentIdKey id ++ 64 :: string_of_int ts.

(** One query of [previous_revisions] *)
Definition prev_revision (d : db) (q : InternalDocumentId * Z) : res (option (jsstr * DocumentLogEntry)) :=
  let '(id, ts) := q in
  match latest_row (revisions d (encodeStorageTableId (tableNumber id)) (internalId id) (Some ts)) with
  | None => Ok None
  | Some row =>
      let! v := match d_value row with
                | None => Ok None
                | Some text => let! v := parseValue text in Ok (Some {| rd_id := id; rd_value := v |})
                end in
      Ok (Some (getPrevRevQueryKey id ts,
        {| le_ts := d_ts row; le_id := id; le_value := v; le_prev_ts := d_prev row |}))
  end.

Definition previous_revisions (d : db) (queries : list (InternalDocumentId * Z)) :
    res (list (jsstr * DocumentLogEntry)) :=
  let! rs := traverse (prev_revision d) queries in
  Ok (fold_left (λ m x, match x with None => m | Some (k, e) => jm_set m k e end) rs []).

(** [SELECT MAX(d2.ts) ... WHERE d2.table_id = ? AND d2.internal_id = ? (AND d2.ts <= ?)] *)
Definition doc_max_ts (d : db) (tableId : jsstr) (iid : bytes) (readTs : option Z) : option Z :=
  sql_max (List.map d_ts (revisions d tableId iid readTs)).

Definition ts_visible (readTs : option Z) (ts : Z) : bool :=
  match readTs with None => true | Some t => ts <=? t end.

Definition current_rows (d : db) (tableId : jsstr) (readTs : option Z) : list docRow :=
  List.filter (λ r, bool_decide (d_table r = tableId) && ts_visible readTs (d_ts r) &&
    bool_decide (doc_max_ts d (d_table r) (d_internal r) readTs = Some (d_ts r))) (documents d).

Definition scan (d : db) (tableId : jsstr) (readTs : option Z) : res (list LatestDocument) :=
  let! tn := decodeStorageTableId tableId in
  let rows := sort_by (λ a b, compareKeyBytes (d_internal a) (d_internal b)) (current_rows d tableId readTs) in
  let! out := traverse (λ row, match d_value row with
     | None => Ok None
     | Some text =>
         let! v := parseValue text in
         Ok (Some {| ld_ts := d_ts row; ld_prev_ts := d_prev row;
                     ld_value := {| rd_id := {| tableNumber := tn; internalId := d_internal row |}; rd_value := v |} |})
     end) rows in
  Ok (omap id out).

Definition count (d : db) (tableId : jsstr) : nat :=
  length (List.filter (λ r, bool_decide (is_Some (d_value r))) (current_rows d tableId None)).

(** ** Globals *)
Definition getGlobal (d : db) (key : jsstr) : option json := jm_get (globals d) key.
Definition writeGlobal (d : db) (key : jsstr) (v : json) : db := with_globals d (jm_set (globals d) key (json_text v)).
Definition writeGlobalIfAbsent (d : db) (key : jsstr) (v : json) : db * bool :=
  match jm_get (globals d) key with
  | Some _ => (d, false)
  | None => (with_globals d (jm_set (globals d) key (json_text v)), true)
  end.

(** ** Client mutation receipts *)
Section receipts.
(** The UTF-8 length of [JSON.stringify(value)]. *)
Variable jsonByteLength : json → Z.

Definition CLIENT_VERDICT_VALUE_CAP_BYTES : Z := 64 * 1024.

Record ClientVerdictWrite := {
  cw_verdict : Verdict; cw_commitTs : Z; cw_errorCode : jsstr; cw_value : option json }.

Record ClientVerdictRecord := {
  cv_verdict : Verdict; cv_commitTs : Z; cv_hasValue : bool; cv_value : json;
  cv_errorCode : option jsstr; cv_createdAt : Z }.

Definition cappedValueJson (v : option json) : option json :=
  match v with
  | None => None
  | Some j => if CLIENT_VERDICT_VALUE_CAP_BYTES <? jsonByteLength j then None else Some (json_text j)
  end.

Definition clientVerdictRecordFromRow (r : cmRow) : ClientVerdictRecord :=
  {| cv_verdict := cm_verdict r; cv_commitTs := cm_commit_ts r;
     cv_hasValue := bool_decide (is_Some (cm_value r)); cv_value := default JNull (cm_value r);
     cv_errorCode := cm_error r; cv_createdAt := cm_created r |}.

Definition cm_is (identity client : jsstr) (seq : Z) (r : cmRow) : bool :=
  bool_decide (cm_identity r = identity) && bool_decide (cm_client r = client) && (cm_seq r =? seq).

Definition getClientVerdict (d : db) (identity client : jsstr) (seq : Z) : option ClientVerdictRecord :=
  option_map clientVerdictRecordFromRow (head (List.filter (cm_is identity client seq) (client_mutations d))).

Definition fl_is (identity client : jsstr) (r : floorRow) : bool :=
  bool_decide (fl_identity r = identity) && bool_decide (fl_client r = client).

Definition getClientFloor (d : db) (identity client : jsstr) : option Z :=
  option_map fl_through (head (List.filter (fl_is identity client) (client_floors d))).

(** [INSERT OR IGNORE] *)
Definition recordClientVerdict (now : Z) (d : db) (identity client : jsstr) (seq : Z) (w : ClientVerdictWrite) : db :=
  if existsb (cm_is identity client seq) (client_mutations d) then d
  else with_receipts d (client_mutations d ++
    [{| cm_identity := identity; cm_client := client; cm_seq := seq; cm_verdict := cw_verdict w;
        cm_commit_ts := cw_commitTs w; cm_value := cappedValueJson (cw_value w);
        cm_error := match cw_verdict w with Failed => Some (cw_errorCode w) | Applied => None end;
        cm_created := now |}]) (client_floors d).

Definition set_cm_value (v : option json) (r : cmRow) : cmRow :=
  {| cm_identity := cm_identity r; cm_client := cm_client r; cm_seq := cm_seq r; cm_verdict := cm_verdict r;
     cm_commit_ts := cm_commit_ts r; cm_value := v; cm_error := cm_error r; cm_created := cm_created r |}.

Definition updateClientVerdictValue (d : db) (identity client : jsstr) (seq : Z) (v : json) : db :=
  with_receipts d
    (List.map (λ r, if cm_is identity client seq r then set_cm_value (cappedValueJson (Some v)) r else r)
       (client_mutations d)) (client_floors d).

(** The upsert [ON CONFLICT DO UPDATE SET pruned_through_seq = MAX(...)] *)
Definition upsert_floor (now : Z) (rows : list floorRow) (identity client : jsstr) (through : Z) : list floorRow :=
  if existsb (fl_is identity client) rows then
    List.map (λ r, if fl_is identity client r
      then {| fl_identity := identity; fl_client := client; fl_through := Z.max (fl_through r) through; fl_updated := now |}
      else r) rows
  else rows ++ [{| fl_identity := identity; fl_client := client; fl_through := through; fl_updated := now |}].

Definition maxCandidate (ackedThrough deletedMaxSeq : option Z) : option Z :=
  match ackedThrough, deletedMaxSeq with
  | None, m => m
  | Some a, None => Some a
  | Some a, Some m => Some (Z.max a m)
  end.

(** [clientMutationsDeleteClause]: the WHERE fragment, [None] when neither bound is set *)
Definition delete_clause (ackedThrough ttlBeforeMs : option Z) : option (cmRow → bool) :=
  match ackedThrough, ttlBeforeMs with
  | None, None => None
  | Some a, None => Some (λ r, cm_seq r <=? a)
  | None, Some t => Some (λ r, cm_created r <? t)
  | Some a, Some t => Some (λ r, (cm_seq r <=? a) || (cm_created r <? t))
  end.

Definition pruneClientMutations (now : Z) (d : db) (identity client : jsstr) (ackedThrough ttlBeforeMs : option Z) :
    db * Z :=
  let currentFloor := getClientFloor d identity client in
  let '(kept, deletedMaxSeq) :=
    match delete_clause ackedThrough ttlBeforeMs with
    | None => (client_mutations d, None)
    | Some f =>
        let hit r := bool_decide (cm_identity r = identity) && bool_decide (cm_client r = client) && f r in
        (List.filter (λ r, negb (hit r)) (client_mutations d),
         sql_max (List.map cm_seq (List.filter hit (client_mutations d))))
    end in
  let base := default (-1) currentFloor in
  match maxCandidate ackedThrough deletedMaxSeq with
  | None => (with_receipts d kept (client_floors d), default 0 currentFloor)
  | Some candidate =>
      if candidate <=? base then (with_receipts d kept (client_floors d), default 0 currentFloor)
      else (with_receipts d kept (upsert_floor now (client_floors d) identity client candidate), candidate)
  end.

(** The per-client maximum of the swept rows, by the NUL-joined key, in first-seen order *)
Definition max_by_client (rows : list cmRow) : list (jsstr * (jsstr * jsstr * Z)) :=
  fold_left (λ m r,
    let key := cm_identity r ++ 0 :: cm_client r in
    match jm_get m key with
    | Some (_, _, mx) => if mx <? cm_seq r then jm_set m key (cm_identity r, cm_client r, cm_seq r) else m
    | None => jm_set m key (cm_identity r, cm_client r, cm_seq r)
    end) rows [].

Definition sweepExpiredClientMutations (now : Z) (d : db) (beforeMs : Z) : db * nat :=
  let rows := List.filter (λ r, cm_created r <? beforeMs) (client_mutations d) in
  let kept := List.filter (λ r, negb (cm_created r <? beforeMs)) (client_mutations d) in
  match rows with
  | [] => (d, 0%nat)
  | _ =>
      (with_receipts d kept (fold_left (λ fl x, upsert_floor now fl x.1.1 x.1.2 x.2)
         (jm_values (max_by_client rows)) (client_floors d)), length rows)
  end.
End receipts.

(** ** Snapshot *)
Definition write_of_row (r : idxRow) : res IndexWrite :=
  let! v := if i_deleted r then Ok Deleted
            else match i_table r, i_internal r with
                 | Some tid, Some iid =>
                     let! tn := decodeStorageTableId tid in Ok (NonClustered {| tableNumber := tn; internalId := iid |})
                 | _, _ => Err TypeError
                 end in
  Ok {| iw_ts := i_ts r; iw_update := {| iu_indexId := i_index r; iu_key := i_key r; iu_value := v |} |}.

Definition dump_docs (d : db) : list docRow :=
  sort_by (λ a b, match compareText (d_table a) (d_table b) with
                  | Eq => compareKeyBytes (d_internal a) (d_internal b) | c => c end)
    (List.filter (λ r, bool_decide (doc_max_ts d (d_table r) (d_internal r) None = Some (d_ts r)) &&
                       bool_decide (is_Some (d_value r))) (documents d)).

Definition dump_idx (d : db) : list idxRow :=
  sort_by (λ a b, match compareText (i_index a) (i_index b) with
                  | Eq => compareKeyBytes (i_key a) (i_key b) | c => c end)
    (List.filter (λ r, bool_decide (idx_max_ts d (i_index r) (i_key r) None = Some (i_ts r))) (indexes d)).

Definition dumpCurrentState (d : db) : res (list DocumentLogEntry * list IndexWrite) :=
  let! docs := traverse entry_of_row (dump_docs d) in
  let! idx := traverse write_of_row (dump_idx d) in Ok (docs, idx).

(** ** Stored values *)

Fixpoint canon (v : value) : value :=
  match v with
  | VNum n => normalizeValue v
  | VArr l => VArr (List.map canon l)
  | VObj kvs => VObj (List.map (λ kv, match kv with (k, w) => (k, canon w) end) kvs)
  | _ => v
  end.

Definition canon_entry (kv : jsstr * value) : jsstr * value := (kv.1, canon kv.2).

Lemma canon_obj kvs : canon (VObj kvs) = VObj (canon_entry <$> kvs).
Proof. cbn [canon]. f_equal. apply List.map_ext. by intros []. Qed.

Lemma canon_keys kvs : (canon_entry <$> kvs).*1 = kvs.*1.
Proof. induction kvs as [|[k w] kvs IH]; [done|]. csimpl. by rewrite IH. Qed.

Lemma canon_ok v : value_okb (canon v) = value_okb v.
Proof.
  induction v as [|b|n|z|s|b|l IH|kvs IH] using value_nested_ind; try done.
  - simpl. destruct (sf n) as [[]| | |]; done.
  - simpl. induction IH as [|x l Hx _ IHl]; [done|]. simpl. by rewrite Hx, IHl.
  - rewrite canon_obj. cbn [value_okb]. rewrite canon_keys. f_equal.
    induction IH as [|[k w] l Hx _ IHl]; [done|]. csimpl. simpl in Hx. by rewrite Hx, IHl.
Qed.

(** The stored text of a value is the transport form of its canonical value: only the sign of a
    zero is lost. *)
Lemma serializeValue_canon v : value_okb v = true → serializeValue v = convexToJson (canon v).
Proof.
  unfold serializeValue.
  induction v as [|b|n|z|s|b|l IH|kvs IH] using value_nested_ind; intros Hok; try done.
  - cbn [convexToJson canon normalizeValue].
    destruct (sf n) as [[]|s| |s m e] eqn:E; cbn [isFinite json_text]; rewrite ?E; try done;
      cbn [convexToJson]; rewrite ?E; done.
  - cbn [convexToJson canon json_text]. f_equal. rewrite !List.map_map. simpl in Hok.
    rewrite forallb_Forall in Hok. apply List.map_ext_in. intros x Hx%list_elem_of_In.
    rewrite Forall_forall in IH, Hok. auto.
  - rewrite canon_obj. simpl in Hok. apply andb_true_iff in Hok as [Hnd%bool_decide_eq_true Hok].
    rewrite !convexToJson_obj by (done || by rewrite canon_keys). cbn [json_text]. f_equal.
    rewrite forallb_Forall in Hok. clear Hnd.
    induction IH as [|[k w] l Hx _ IHl]; [done|]. apply Forall_cons in Hok as [H1 H2]. csimpl.
    simpl in Hx. apply andb_true_iff in H1 as [_ H1]. rewrite Hx by done. f_equal. by apply IHl.
Qed.

Lemma parse_serialize v : value_okb v = true → parseValue (serializeValue v) = Ok (canon v).
Proof.
  intros H. rewrite serializeValue_canon by done. unfold parseValue.
  apply jsonToConvex_convexToJson. by rewrite canon_ok.
Qed.

(** ** The newest revision *)

Lemma ts_desc_order : CmpOrder (λ a b : docRow, d_ts b ?= d_ts a).
Proof.
  split.
  - intros a. apply Z.compare_refl.
  - intros a b. apply Z.compare_antisym.
  - intros a b c H%Z.compare_eq_iff. by rewrite H.
  - intros a b c H1 H2. rewrite Z.compare_lt_iff in *. lia.
Qed.

Lemma latest_row_None rows : latest_row rows = None ↔ rows = [].
Proof.
  unfold latest_row. pose proof (length_sort_by (λ a b, d_ts b ?= d_ts a) rows) as Hl.
  destruct (sort_by _ rows), rows; simpl in *; naive_solver lia.
Qed.

Lemma latest_row_Some rows r : latest_row rows = Some r → r ∈ rows ∧ ∀ r', r' ∈ rows → d_ts r' ≤ d_ts r.
Proof.
  unfold latest_row. intros H.
  pose proof (sort_by_perm (λ a b, d_ts b ?= d_ts a) rows) as Hp.
  pose proof (@sort_by_sorted _ (λ a b, d_ts b ?= d_ts a) ts_desc_order rows) as Hs.
  destruct (sort_by _ rows) as [|x l]; [done|]. injection H as <-. split.
  - rewrite <-Hp. set_solver.
  - intros r' Hr'. rewrite <-Hp in Hr'. inversion_clear Hs as [|? ? _ Hx]. rewrite Forall_forall in Hx.
    apply elem_of_cons in Hr' as [->|Hr']; [lia|]. specialize (Hx _ Hr').
    unfold cmp_le in Hx. by rewrite Z.compare_le_iff in Hx.
Qed.

(** The newest revision of a list with distinct timestamps is the one no other exceeds. *)
Lemma latest_row_unique rows r :
  NoDup (d_ts <$> rows) → r ∈ rows → (∀ r', r' ∈ rows → d_ts r' ≤ d_ts r) → latest_row rows = Some r.
Proof.
  intros Hnd Hr Hmax. destruct (latest_row rows) as [x|] eqn:E.
  - apply latest_row_Some in E as [Hx Hmx]. f_equal.
    assert (Hts : d_ts x = d_ts r) by (specialize (Hmx r Hr); specialize (Hmax x Hx); lia).
    apply list_elem_of_lookup in Hx as [i Hi], Hr as [j Hj].
    assert (i = j) as ->; [|congruence].
    apply (NoDup_lookup (d_ts <$> rows) i j (d_ts r)); [done| |].
    + rewrite list_lookup_fmap, Hi. simpl. by rewrite Hts.
    + by rewrite list_lookup_fmap, Hj.
  - apply latest_row_None in E as ->. by apply elem_of_nil in Hr.
Qed.

Lemma sql_max_None l : sql_max l = None ↔ l = [].
Proof. destruct l as [|x l]; simpl; [done|]. by destruct (sql_max l). Qed.

Lemma sql_max_Some l m : sql_max l = Some m ↔ m ∈ l ∧ ∀ x, x ∈ l → x ≤ m.
Proof.
  revert m. induction l as [|y l IH]; intros m; simpl; [set_solver|].
  destruct (sql_max l) as [m'|] eqn:E.
  - destruct (IH m') as [IH' _]. destruct (IH' eq_refl) as [Hin Hmax]. split.
    + intros [= <-]. split.
      * destruct (Z.max_spec y m') as [[_ ->]|[_ ->]]; set_solver.
      * intros x [->|Hx]%elem_of_cons; [lia|]. specialize (Hmax x Hx). lia.
    + intros [Hm Hall]. f_equal. specialize (Hall y ltac:(set_solver)) as H1.
      specialize (Hall m' ltac:(set_solver)) as H2.
      apply elem_of_cons in Hm as [->|Hm]; [lia|]. specialize (Hmax m Hm). lia.
  - apply sql_max_None in E as ->. split.
    + intros [= ->]. set_solver.
    + intros [Hm _]. apply elem_of_cons in Hm as [->|Hm]; [done|set_solver].
Qed.

Lemma maxTimestamp_ub d r : r ∈ documents d → d_ts r ≤ maxTimestamp d.
Proof.
  intros Hr. unfold maxTimestamp.
  assert (Hin : d_ts r ∈ List.map d_ts (documents d)).
  { apply list_elem_of_In, in_map. by apply list_elem_of_In. }
  destruct (sql_max _) as [m|] eqn:E; simpl.
  - apply sql_max_Some in E as [_ Hm]. auto.
  - apply sql_max_None in E. rewrite E in Hin. by apply elem_of_nil in Hin.
Qed.

(** ** Invariant of the tables *)

Definition row_ok (r : docRow) : Prop :=
  (∃ n, 0 ≤ n ∧ d_table r = encodeStorageTableId n) ∧
  match d_value r with None => True | Some t => ∃ v, parseValue t = Ok v end.

Record db_ok (d : db) : Prop := {
  ok_docs : NoDup (doc_pk <$> documents d);
  ok_idx : NoDup (idx_pk <$> indexes d);
  ok_rows : Forall row_ok (documents d);
  ok_ptr : Forall (λ r, i_deleted r = false →
             ∃ n iid, 0 ≤ n ∧ i_table r = Some (encodeStorageTableId n) ∧ i_internal r = Some iid) (indexes d);
  ok_idx_ts : Forall (λ r, i_ts r ≤ maxTimestamp d) (indexes d);
  ok_keys : Forall (λ r, Forall is_byte (i_key r)) (indexes d) }.

Definition entry_okb (e : DocumentLogEntry) : bool :=
  (0 <=? tableNumber (le_id e)) && match le_value e with None => true | Some v => value_okb (rd_value v) end.

Definition byteb (x : Z) : bool := (0 <=? x) && (x <? 256).

Lemma byteb_Forall l : forallb byteb l = true ↔ Forall is_byte l.
Proof.
  rewrite forallb_Forall. apply Forall_iff. intros x. unfold byteb, is_byte. rewrite andb_true_iff. lia.
Qed.

Definition update_okb (u : DatabaseIndexUpdate) : bool :=
  forallb byteb (iu_key u) && match iu_value u with Deleted => true | NonClustered id => 0 <=? tableNumber id end.

(** What the transactor hands to the store: at least one document, well-formed values. *)
Definition unit_okb (u : CommitUnit) : bool :=
  negb (Nat.eqb (length (cu_documents u)) 0) && forallb entry_okb (cu_documents u) &&
  forallb (λ w, update_okb (iw_update w)) (cu_indexUpdates u).

(** ** Inserting a commit's rows *)

Lemma insert_docs_error rows new rows' : insert_docs CSError rows new = Ok rows' →
  rows' = rows ++ new ∧ (NoDup (doc_pk <$> rows) → NoDup (doc_pk <$> rows')).
Proof.
  revert rows. induction new as [|r new IH]; intros rows; cbn [insert_docs].
  - intros [= <-]. by rewrite app_nil_r.
  - unfold insert_doc. destruct (existsb _ rows) eqn:E; [done|]. cbn [res_bind].
    intros [-> Hnd]%IH. split; [by rewrite <-(assoc_L (++))|]. intros H. apply Hnd.
    rewrite fmap_app. apply NoDup_app. split; [done|]. split; [|apply NoDup_singleton].
    intros pk Hpk Hin. csimpl in Hin. apply list_elem_of_singleton in Hin as ->.
    apply list_elem_of_fmap in Hpk as (x & Hx & Hin).
    assert (existsb (λ x, bool_decide (doc_pk x = doc_pk r)) rows = true); [|congruence].
    apply existsb_Exists. exists x. split; [done|]. by apply bool_decide_eq_true.
Qed.

Lemma insert_docs_ok rows new : NoDup (doc_pk <$> (rows ++ new)) →
  insert_docs CSError rows new = Ok (rows ++ new).
Proof.
  revert rows. induction new as [|r new IH]; intros rows Hnd; cbn [insert_docs]; [by rewrite app_nil_r|].
  unfold insert_doc. destruct (existsb _ rows) eqn:E.
  - apply existsb_Exists in E as (x & Hx & Hpk%bool_decide_eq_true). exfalso.
    rewrite fmap_app in Hnd. apply NoDup_app in Hnd as (_ & Hd & _). apply (Hd (doc_pk x)).
    + by apply list_elem_of_fmap_2.
    + csimpl. rewrite Hpk. set_solver.
  - cbn [res_bind]. rewrite IH; [by rewrite <-(assoc_L (++))|]. by rewrite <-(assoc_L (++)).
Qed.

Lemma replace_idx_app old acc r : idx_pk r ∉ (idx_pk <$> old) →
  replace_idx (old ++ acc) r = old ++ replace_idx acc r.
Proof.
  intros H. unfold replace_idx. rewrite List.filter_app, <-(assoc_L (++)). f_equal.
  induction old as [|x old IH]; [done|]. csimpl in H. simpl.
  apply not_elem_of_cons in H as [H1 H2]. rewrite bool_decide_eq_false_2 by congruence.
  simpl. f_equal. by apply IH.
Qed.

Lemma fold_replace_idx new old acc : Forall (λ r, idx_pk r ∉ (idx_pk <$> old)) new →
  fold_left replace_idx new (old ++ acc) = old ++ fold_left replace_idx new acc.
Proof.
  intros H. revert acc. induction H as [|r new Hr _ IH]; intros acc; simpl; [done|].
  rewrite replace_idx_app by done. apply IH.
Qed.

Lemma replace_idx_nodup rows r : NoDup (idx_pk <$> rows) → NoDup (idx_pk <$> replace_idx rows r).
Proof.
  intros H. unfold replace_idx. rewrite fmap_app. apply NoDup_app. split; [|split].
  - induction rows as [|x rows IH]; [done|]. csimpl in H. apply NoDup_cons in H as [Hx H]. simpl.
    case_bool_decide; simpl; [auto|]. csimpl. apply NoDup_cons. split; [|auto].
    rewrite list_elem_of_fmap. intros (y & Hy & Hin%list_elem_of_In). apply filter_In in Hin as [Hin _].
    apply Hx. rewrite Hy. apply list_elem_of_fmap_2. by apply list_elem_of_In.
  - intros pk Hpk Hin. csimpl in Hin. apply list_elem_of_singleton in Hin as ->.
    apply list_elem_of_fmap in Hpk as (y & Hy & Hin%list_elem_of_In).
    apply filter_In in Hin as [_ Hf]. by rewrite bool_decide_eq_true_2 in Hf.
  - apply NoDup_singleton.
Qed.

Lemma fold_replace_nodup new rows : NoDup (idx_pk <$> rows) → NoDup (idx_pk <$> fold_left replace_idx new rows).
Proof. revert rows. induction new; simpl; auto using replace_idx_nodup. Qed.

Lemma elem_of_replace_idx rows r x : x ∈ replace_idx rows r ↔ x = r ∨ (x ∈ rows ∧ idx_pk x ≠ idx_pk r).
Proof.
  unfold replace_idx. rewrite elem_of_app, list_elem_of_singleton, list_elem_of_In, filter_In, <-list_elem_of_In.
  rewrite negb_true_iff, bool_decide_eq_false. tauto.
Qed.

Lemma fold_replace_elem new rows x : x ∈ fold_left replace_idx new rows → x ∈ new ∨ x ∈ rows.
Proof.
  revert rows. induction new as [|r new IH]; intros rows; simpl; [auto|].
  rewrite elem_of_cons. intros [Hx|Hx]%IH; [auto|]. apply elem_of_replace_idx in Hx. tauto.
Qed.

(** The index rows a commit adds: the last update of each key. *)
Definition new_idx (shard : jsstr) (ts : Z) (ws : list IndexWrite) : list idxRow :=
  fold_left replace_idx (List.map (idx_row shard) (List.map (stamp_idx ts) ws)) [].

Definition new_docs (shard : jsstr) (ts : Z) (es : list DocumentLogEntry) : list docRow :=
  List.map (doc_row shard) (List.map (stamp_doc ts) es).

Lemma new_docs_ts shard ts es r : r ∈ new_docs shard ts es → d_ts r = ts.
Proof.
  unfold new_docs. rewrite List.map_map, list_elem_of_In, in_map_iff. by intros (e & <- & _).
Qed.

Lemma new_idx_ts shard ts ws r : r ∈ new_idx shard ts ws → i_ts r = ts.
Proof.
  unfold new_idx. intros [H|H]%fold_replace_elem; [|by apply elem_of_nil in H].
  rewrite List.map_map, list_elem_of_In, in_map_iff in H. by destruct H as (w & <- & _).
Qed.

(** The effect of one unit on the tables. *)
Definition commit_unit (d : db) (u : CommitUnit) (shard : jsstr) : db :=
  let ts := maxTimestamp d + 1 in
  with_log d (documents d ++ new_docs shard ts (cu_documents u))
    (indexes d ++ new_idx shard ts (cu_indexUpdates u)).

Lemma maxTimestamp_commit d u shard : cu_documents u ≠ [] →
  maxTimestamp (commit_unit d u shard) = maxTimestamp d + 1.
Proof.
  intros Hne. unfold maxTimestamp at 1. unfold commit_unit. cbn [documents with_log].
  enough (sql_max (List.map d_ts (documents d ++ new_docs shard (maxTimestamp d + 1) (cu_documents u)))
    = Some (maxTimestamp d + 1)) as -> by done.
  apply sql_max_Some. rewrite List.map_app. split.
  - apply elem_of_app. right. destruct (cu_documents u) as [|e es]; [done|]. simpl. apply elem_of_cons. by left.
  - intros x [Hx|Hx]%elem_of_app; apply list_elem_of_In, in_map_iff in Hx as (r & <- & Hr%list_elem_of_In).
    + pose proof (maxTimestamp_ub d r Hr). lia.
    + rewrite (new_docs_ts _ _ _ _ Hr). lia.
Qed.

Lemma unit_okb_true u : unit_okb u = true →
  cu_documents u ≠ [] ∧ Forall (λ e, entry_okb e = true) (cu_documents u) ∧
  Forall (λ w, update_okb (iw_update w) = true) (cu_indexUpdates u).
Proof.
  unfold unit_okb. rewrite !andb_true_iff, !forallb_Forall, negb_true_iff, Nat.eqb_neq.
  intros [[H1 H2] H3]. split_and!; try done. by destruct (cu_documents u).
Qed.

Lemma new_docs_row_ok shard ts es : Forall (λ e, entry_okb e = true) es → Forall row_ok (new_docs shard ts es).
Proof.
  unfold new_docs. rewrite List.map_map. induction 1 as [|e es He _ IH]; [constructor|].
  simpl. constructor; [|done]. unfold entry_okb in He. apply andb_true_iff in He as [Hn%Z.leb_le Hv].
  split; [by eexists|]. simpl. destruct (le_value e) as [v|]; [|done].
  exists (canon (rd_value v)). by apply parse_serialize.
Qed.

Lemma commit_unit_db_ok d u shard : db_ok d → unit_okb u = true →
  NoDup (doc_pk <$> documents (commit_unit d u shard)) → db_ok (commit_unit d u shard).
Proof.
  intros [H1 H2 H3 H4 H5 H6] (Hne & He & Hw)%unit_okb_true Hnd.
  pose proof (maxTimestamp_commit d u shard Hne) as Hmax. split; [done|..].
  - simpl. rewrite fmap_app. apply NoDup_app. split; [done|]. split; [|by apply fold_replace_nodup, NoDup_nil_2].
    intros pk (r & -> & Hr)%list_elem_of_fmap (r' & Epk & Hr')%list_elem_of_fmap.
    rewrite Forall_forall in H5. specialize (H5 r Hr). apply new_idx_ts in Hr'.
    unfold idx_pk in Epk. injection Epk as _ _ E. lia.
  - simpl. apply Forall_app_2; [done|by apply new_docs_row_ok].
  - simpl. apply Forall_app_2; [done|]. apply Forall_forall. intros r [Hr|Hr]%fold_replace_elem; [|by apply elem_of_nil in Hr].
    rewrite List.map_map, list_elem_of_In, in_map_iff in Hr. destruct Hr as (w & <- & Hin%list_elem_of_In).
    rewrite Forall_forall in Hw. specialize (Hw w Hin). simpl. unfold update_okb in Hw.
    apply andb_true_iff in Hw as [_ Hw].
    destruct (iu_value (iw_update w)) as [|id]; [done|]. intros _. apply Z.leb_le in Hw. eauto.
  - rewrite Hmax. simpl. apply Forall_app_2.
    + eapply Forall_impl; [exact H5|]. simpl. lia.
    + apply Forall_forall. intros r ->%new_idx_ts. lia.
  - simpl. apply Forall_app_2; [done|]. apply Forall_forall. intros r [Hr|Hr]%fold_replace_elem; [|by apply elem_of_nil in Hr].
    rewrite List.map_map, list_elem_of_In, in_map_iff in Hr. destruct Hr as (w & <- & Hin%list_elem_of_In).
    rewrite Forall_forall in Hw. specialize (Hw w Hin). simpl. unfold update_okb in Hw.
    apply andb_true_iff in Hw as [Hw _]. by apply byteb_Forall.
Qed.

Lemma new_docs_pk d shard es : NoDup (doc_pk <$> documents d) →
  Forall (λ e, entry_okb e = true) es →
  NoDup (doc_pk <$> (documents d ++ new_docs shard (maxTimestamp d + 1) es)) ↔ NoDup (le_id <$> es).
Proof.
  intros Hd Hes. rewrite fmap_app, NoDup_app.
  assert (Hdisj : ∀ pk, pk ∈ (doc_pk <$> documents d) →
    pk ∉ (doc_pk <$> new_docs shard (maxTimestamp d + 1) es)).
  { intros pk (r & -> & Hr)%list_elem_of_fmap (r' & Epk & Hr')%list_elem_of_fmap.
    apply new_docs_ts in Hr'. apply maxTimestamp_ub in Hr. unfold doc_pk in Epk. injection Epk as _ _ E. lia. }
  assert (Heq : doc_pk <$> new_docs shard (maxTimestamp d + 1) es =
    (λ id, (encodeStorageTableId (tableNumber id), internalId id, maxTimestamp d + 1)) <$> (le_id <$> es)).
  { unfold new_docs. rewrite List.map_map. clear. induction es as [|e es IH]; [done|]. csimpl. f_equal. apply IH. }
  rewrite Heq in *. split.
  - intros (_ & _ & H). by apply NoDup_fmap_1 in H.
  - intros H. split_and!; [done|done|]. clear Heq Hdisj. induction es as [|e es IH]; csimpl; [apply NoDup_nil_2|].
    csimpl in H. apply NoDup_cons in H as [Hn H]. apply Forall_cons in Hes as [He Hes].
    apply NoDup_cons. split; [|auto]. intros (id & E & (e' & -> & Hin)%list_elem_of_fmap)%list_elem_of_fmap.
    apply Hn. injection E as E1 E2. apply string_of_int_inj in E1.
    apply list_elem_of_fmap. exists e'. split; [|done]. destruct (le_id e), (le_id e'); simpl in *; congruence.
Qed.

Lemma insertRows_commit d u shard : db_ok d → unit_okb u = true →
  let ts := maxTimestamp d + 1 in
  insertRows d (List.map (stamp_doc ts) (cu_documents u)) (List.map (stamp_idx ts) (cu_indexUpdates u)) CSError shard =
    if decide (NoDup (le_id <$> cu_documents u)) then Ok (commit_unit d u shard) else Err SqliteConstraint.
Proof.
  intros Hd Hu. pose proof Hu as (Hne & He & Hw)%unit_okb_true. cbv zeta. unfold insertRows.
  fold (new_docs shard (maxTimestamp d + 1) (cu_documents u)).
  pose proof (new_docs_pk d shard (cu_documents u) (ok_docs d Hd) He) as Hpk. case_decide as Hnd.
  - rewrite insert_docs_ok by (by apply Hpk). cbn [res_bind]. unfold commit_unit. do 2 f_equal.
    unfold new_idx. rewrite <-fold_replace_idx, app_nil_r; [done|].
    apply Forall_forall. intros r Hr (r' & E & Hr')%list_elem_of_fmap.
    rewrite List.map_map, list_elem_of_In, in_map_iff in Hr. destruct Hr as (w & <- & _).
    pose proof (ok_idx_ts d Hd) as Ht. rewrite Forall_forall in Ht. specialize (Ht r' Hr').
    unfold idx_pk in E. injection E as _ _ E. lia.
  - destruct (insert_docs _ _ _) as [rows|e] eqn:E.
    + apply insert_docs_error in E as [-> H]. exfalso. apply Hnd, Hpk, H, Hd.
    + cbn [res_bind]. f_equal. clear -E. revert E. generalize (documents d).
      induction (new_docs shard (maxTimestamp d + 1) (cu_documents u)) as [|r new IH]; intros rows; [done|].
      cbn [insert_docs]. unfold insert_doc. destruct (existsb _ rows); cbn [res_bind]; [by intros [= <-]|apply IH].
Qed.

(** ** Batches *)
Definition commit_all (d : db) (units : list CommitUnit) (shard : jsstr) : db :=
  fold_left (λ d u, commit_unit d u shard) units d.

Definition unit_ids_distinct (u : CommitUnit) : Prop := NoDup (le_id <$> cu_documents u).

Lemma commit_unit_step d u shard : db_ok d → unit_okb u = true → unit_ids_distinct u →
  db_ok (commit_unit d u shard) ∧ maxTimestamp (commit_unit d u shard) = maxTimestamp d + 1.
Proof.
  intros Hd Hu Hnd. pose proof Hu as (Hne & He & _)%unit_okb_true. split; [|by apply maxTimestamp_commit].
  apply commit_unit_db_ok; [done..|]. simpl. by apply new_docs_pk; [apply Hd|..].
Qed.

(** The whole behaviour of the batch: it fails exactly when a unit writes a document twice, and
    otherwise lands every unit at the next timestamp. *)
Lemma commit_units_spec d units shard : db_ok d → Forall (λ u, unit_okb u = true) units →
  commit_units d units shard =
    if decide (Forall unit_ids_distinct units)
    then Ok (commit_all d units shard, seqZ (maxTimestamp d + 1) (Z.of_nat (length units)))
    else Err SqliteConstraint.
Proof.
  intros Hd Hu. revert d Hd. induction Hu as [|u units Hu _ IH]; intros d Hd.
  - by rewrite decide_True by constructor.
  - cbn [commit_units]. pose proof (insertRows_commit d u shard Hd Hu) as E. cbv zeta in E. rewrite E.
    unfold unit_ids_distinct. case_decide as Hnd; cbn [res_bind].
    + destruct (commit_unit_step d u shard Hd Hu Hnd) as [Hd' Hm]. rewrite IH by done. rewrite Hm.
      destruct (decide (Forall unit_ids_distinct units)) as [H|H].
      * rewrite decide_True by (by constructor). cbn [res_bind length]. do 2 f_equal.
        rewrite Nat2Z.inj_succ. rewrite (seqZ_cons _ (Z.succ _)) by lia. f_equal. f_equal; lia.
      * by rewrite decide_False by (by intros [??]%Forall_cons).
    + by rewrite decide_False by (by intros [??]%Forall_cons).
Qed.

Lemma commit_all_ok d units shard : db_ok d → Forall (λ u, unit_okb u = true) units →
  Forall unit_ids_distinct units →
  db_ok (commit_all d units shard) ∧ maxTimestamp (commit_all d units shard) = maxTimestamp d + Z.of_nat (length units).
Proof.
  intros Hd Hu Hn. revert d Hd. induction Hu as [|u units Hu _ IH]; intros d Hd; [simpl; split; [done|lia]|].
  change (commit_all d (u :: units) shard) with (commit_all (commit_unit d u shard) units shard). cbn [length].
  apply Forall_cons in Hn as [Hn Hns]. destruct (commit_unit_step d u shard Hd Hu Hn) as [Hd' Hm].
  destruct (IH Hns _ Hd') as [H1 H2]. split; [done|]. rewrite H2, Hm. lia.
Qed.

(** ** Snapshot stability *)

Lemma filter_false_nil {A} (f : A → bool) l : Forall (λ x, f x = false) l → List.filter f l = [].
Proof. induction 1 as [|x l Hx _ IH]; simpl; [done|]. by rewrite Hx. Qed.

Lemma revisions_commit d u shard tid iid t : t ≤ maxTimestamp d →
  revisions (commit_unit d u shard) tid iid (Some t) = revisions d tid iid (Some t).
Proof.
  intros Ht. unfold revisions. simpl. rewrite List.filter_app.
  rewrite (filter_false_nil _ (new_docs _ _ _)); [by rewrite app_nil_r|].
  apply Forall_forall. intros r ->%new_docs_ts. rewrite (proj2 (Z.leb_gt _ _)) by lia. apply andb_false_r.
Qed.

Lemma get_commit_old d u shard id t : t ≤ maxTimestamp d →
  get (commit_unit d u shard) id (Some t) = get d id (Some t).
Proof. intros Ht. unfold get. by rewrite revisions_commit. Qed.

Lemma idx_max_commit d u shard ix key t : t ≤ maxTimestamp d →
  idx_max_ts (commit_unit d u shard) ix key (Some t) = idx_max_ts d ix key (Some t).
Proof.
  intros Ht. unfold idx_max_ts. simpl. rewrite List.filter_app.
  rewrite (filter_false_nil _ (new_idx _ _ _)); [by rewrite app_nil_r|].
  apply Forall_forall. intros r ->%new_idx_ts. rewrite (proj2 (Z.leb_gt _ _)) by lia. apply andb_false_r.
Qed.

Lemma filter_ext_in_b {A} (f g : A → bool) l : (∀ x, x ∈ l → f x = g x) → List.filter f l = List.filter g l.
Proof. intros H. apply List.filter_ext_in. intros x Hx. apply H. by apply list_elem_of_In. Qed.

Lemma scan_rows_commit d u shard ix t iv o : t ≤ maxTimestamp d →
  scan_rows (commit_unit d u shard) ix t iv o = scan_rows d ix t iv o.
Proof.
  intros Ht. unfold scan_rows. f_equal. simpl. rewrite List.filter_app.
  rewrite (filter_false_nil _ (new_idx _ _ _)), app_nil_r.
  - apply filter_ext_in_b. intros r _. by rewrite idx_max_commit.
  - apply Forall_forall. intros r ->%new_idx_ts. rewrite (proj2 (Z.leb_gt _ _)) by lia.
    by rewrite andb_false_r.
Qed.

Lemma resolve_row_commit d u shard t r : t ≤ maxTimestamp d →
  resolve_row (commit_unit d u shard) t r = resolve_row d t r.
Proof.
  intros Ht. unfold resolve_row. destruct (i_deleted r), (i_internal r), (i_table r); try done.
  destruct (decodeStorageTableId _); [|done]. cbn [res_bind]. by rewrite get_commit_old.
Qed.

Lemma scan_loop_ext d d' t limit rows : (∀ r, r ∈ rows → resolve_row d' t r = resolve_row d t r) →
  ∀ n, scan_loop d' t limit n rows = scan_loop d t limit n rows.
Proof.
  induction rows as [|r rows IH]; intros H n; [done|]. cbn [scan_loop].
  rewrite H by (apply elem_of_cons; by left).
  assert (IH' : ∀ n, scan_loop d' t limit n rows = scan_loop d t limit n rows).
  { intros m. apply IH. intros r' Hr'. apply H. apply elem_of_cons. by right. }
  destruct (resolve_row d t r) as [[y|]|]; cbn [res_bind]; [|apply IH'|done]. by rewrite IH'.
Qed.

Lemma index_scan_commit_old d u shard ix t iv o limit : t ≤ maxTimestamp d →
  index_scan (commit_unit d u shard) ix t iv o limit = index_scan d ix t iv o limit.
Proof.
  intros Ht. unfold index_scan. rewrite scan_rows_commit by done. apply scan_loop_ext.
  intros r _. by apply resolve_row_commit.
Qed.

(** ** Reading a commit *)

Lemma elem_of_revisions d tid iid t r : r ∈ revisions d tid iid t ↔
  r ∈ documents d ∧ d_table r = tid ∧ d_internal r = iid ∧ ts_visible t (d_ts r) = true.
Proof.
  unfold revisions. rewrite list_elem_of_In, filter_In, <-list_elem_of_In, !andb_true_iff, !bool_decide_eq_true.
  unfold ts_visible. tauto.
Qed.

Lemma NoDup_filter_map {A B} (f : A → B) (p : A → bool) l : NoDup (f <$> l) → NoDup (f <$> List.filter p l).
Proof.
  induction l as [|x l IH]; [done|]. csimpl. intros [Hx H]%NoDup_cons. simpl. destruct (p x); [|auto].
  csimpl. apply NoDup_cons. split; [|auto]. intros (y & E & Hy%list_elem_of_In)%list_elem_of_fmap.
  apply filter_In in Hy as [Hy _]. apply Hx. rewrite E. apply list_elem_of_fmap_2. by apply list_elem_of_In.
Qed.

Lemma revisions_nodup d tid iid t : db_ok d → NoDup (d_ts <$> revisions d tid iid t).
Proof.
  intros Hd. assert (H : NoDup (doc_pk <$> revisions d tid iid t)) by apply NoDup_filter_map, Hd.
  assert (Heq : doc_pk <$> revisions d tid iid t = (λ ts, (tid, iid, ts)) <$> (d_ts <$> revisions d tid iid t)).
  { rewrite <-list_fmap_compose. apply list_fmap_ext. intros i r Hr%list_elem_of_lookup_2.
    apply elem_of_revisions in Hr as (_ & <- & <- & _). done. }
  rewrite Heq in H. by apply NoDup_fmap_1 in H.
Qed.

Definition latest_of (e : DocumentLogEntry) (ts : Z) : option LatestDocument :=
  match le_value e with
  | None => None
  | Some v => Some {| ld_ts := ts; ld_prev_ts := le_prev_ts e;
                      ld_value := {| rd_id := le_id e; rd_value := canon (rd_value v) |} |}
  end.

Lemma get_commit_new d u shard e t : db_ok d → unit_okb u = true → unit_ids_distinct u →
  e ∈ cu_documents u → ts_visible t (maxTimestamp d + 1) = true →
  get (commit_unit d u shard) (le_id e) t = Ok (latest_of e (maxTimestamp d + 1)).
Proof.
  intros Hd Hu Hn He Ht. destruct (commit_unit_step d u shard Hd Hu Hn) as [Hd' Hm].
  set (row := doc_row shard (stamp_doc (maxTimestamp d + 1) e)).
  assert (Hrow : row ∈ documents (commit_unit d u shard)).
  { simpl. apply elem_of_app. right. unfold new_docs. rewrite List.map_map. apply list_elem_of_In, in_map_iff.
    exists e. by rewrite <-list_elem_of_In. }
  unfold get. rewrite (latest_row_unique _ row).
  - pose proof Hu as (_ & Hes & _)%unit_okb_true. rewrite Forall_forall in Hes. specialize (Hes e He).
    unfold entry_okb in Hes. apply andb_true_iff in Hes as [_ Hv]. unfold row, latest_of. simpl.
    destruct (le_value e) as [v|]; [|done]. rewrite parse_serialize by done. done.
  - by apply revisions_nodup.
  - apply elem_of_revisions. done.
  - intros r (Hr & _)%elem_of_revisions. apply maxTimestamp_ub in Hr. unfold row. simpl. lia.
Qed.

Lemma revisions_other d u shard id t : id ∉ (le_id <$> cu_documents u) →
  revisions (commit_unit d u shard) (encodeStorageTableId (tableNumber id)) (internalId id) t =
  revisions d (encodeStorageTableId (tableNumber id)) (internalId id) t.
Proof.
  intros Hni. unfold revisions. simpl. rewrite List.filter_app.
  rewrite (filter_false_nil _ (new_docs _ _ _)); [by rewrite app_nil_r|].
  apply Forall_forall. intros r Hr. unfold new_docs in Hr. rewrite List.map_map in Hr.
  apply list_elem_of_In, in_map_iff in Hr as (e & <- & He%list_elem_of_In). simpl.
  destruct (bool_decide (encodeStorageTableId _ = _)) eqn:E1; [|done].
  destruct (bool_decide (internalId _ = _)) eqn:E2; [|done].
  apply bool_decide_eq_true in E1, E2. exfalso. apply Hni, list_elem_of_fmap. exists e. split; [|done].
  apply string_of_int_inj in E1.
  destruct id, (le_id e); simpl in *; congruence.
Qed.

Lemma get_commit_other d u shard id t : id ∉ (le_id <$> cu_documents u) → get (commit_unit d u shard) id t = get d id t.
Proof. intros. unfold get. by rewrite revisions_other. Qed.

(** Every timestamp from the newest commit on sees the same state, the one an unbounded read sees. *)
Lemma revisions_latest d tid iid t : maxTimestamp d ≤ t → revisions d tid iid (Some t) = revisions d tid iid None.
Proof.
  intros Ht. unfold revisions. apply filter_ext_in_b. intros r Hr%maxTimestamp_ub.
  rewrite (proj2 (Z.leb_le (d_ts r) t)) by lia. done.
Qed.

Lemma get_latest d id t : maxTimestamp d ≤ t → get d id (Some t) = get d id None.
Proof. intros Ht. unfold get. by rewrite revisions_latest. Qed.

(** ** Index scans across a commit *)

(** A current, not deleted index entry. *)
Definition live_row (d : db) (r : idxRow) : Prop :=
  r ∈ indexes d ∧ i_deleted r = false ∧ idx_max_ts d (i_index r) (i_key r) None = Some (i_ts r).

(** Every index entry of a document the unit writes is itself rewritten by the unit. *)
Definition index_closed (d : db) (u : CommitUnit) : Prop :=
  ∀ e r, e ∈ cu_documents u → live_row d r →
    i_table r = Some (encodeStorageTableId (tableNumber (le_id e))) → i_internal r = Some (internalId (le_id e)) →
    ∃ w, w ∈ cu_indexUpdates u ∧ iu_indexId (iw_update w) = i_index r ∧ iu_key (iw_update w) = i_key r.

Lemma idx_max_latest d ix key t : db_ok d → maxTimestamp d ≤ t → idx_max_ts d ix key (Some t) = idx_max_ts d ix key None.
Proof.
  intros Hd Ht. unfold idx_max_ts. do 2 f_equal. apply filter_ext_in_b. intros r Hr.
  pose proof (ok_idx_ts d Hd) as H. rewrite Forall_forall in H. specialize (H r Hr).
  rewrite (proj2 (Z.leb_le (i_ts r) t)) by lia. done.
Qed.

Lemma idx_max_other d u shard ix key t :
  (∀ w, w ∈ cu_indexUpdates u → iu_indexId (iw_update w) = ix → iu_key (iw_update w) ≠ key) →
  idx_max_ts (commit_unit d u shard) ix key t = idx_max_ts d ix key t.
Proof.
  intros H. unfold idx_max_ts. simpl. rewrite List.filter_app.
  rewrite (filter_false_nil _ (new_idx _ _ _)); [by rewrite app_nil_r|].
  apply Forall_forall. intros r [Hr|Hr]%fold_replace_elem; [|by apply elem_of_nil in Hr].
  rewrite List.map_map, list_elem_of_In, in_map_iff in Hr. destruct Hr as (w & <- & Hw%list_elem_of_In). simpl.
  destruct (bool_decide (iu_indexId _ = ix)) eqn:E1; [|done]. apply bool_decide_eq_true in E1.
  by rewrite bool_decide_eq_false_2 by (by apply H).
Qed.

Lemma scan_rows_frame d u shard ix iv o : db_ok d →
  (∀ w, w ∈ cu_indexUpdates u → iu_indexId (iw_update w) = ix → in_interval (iu_key (iw_update w)) iv = false) →
  scan_rows (commit_unit d u shard) ix (maxTimestamp d + 1) iv o = scan_rows d ix (maxTimestamp d) iv o.
Proof.
  intros Hd H. unfold scan_rows. f_equal. simpl. rewrite List.filter_app.
  rewrite (filter_false_nil _ (new_idx _ _ _)), app_nil_r.
  - apply filter_ext_in_b. intros r Hr. pose proof (ok_idx_ts d Hd) as Ht. rewrite Forall_forall in Ht.
    specialize (Ht r Hr). rewrite (proj2 (Z.leb_le (i_ts r) (maxTimestamp d + 1))), (proj2 (Z.leb_le (i_ts r) (maxTimestamp d))) by lia.
    destruct (bool_decide (i_index r = ix)) eqn:E1; [|done]. apply bool_decide_eq_true in E1.
    destruct (in_interval (i_key r) iv) eqn:E2; [|done]. cbn [andb].
    rewrite idx_max_other; [by rewrite !idx_max_latest by (done || lia)|].
    intros w Hw Ew Ek. rewrite E1 in Ew. specialize (H w Hw Ew). rewrite Ek in H. congruence.
  - apply Forall_forall. intros r [Hr|Hr]%fold_replace_elem; [|by apply elem_of_nil in Hr].
    rewrite List.map_map, list_elem_of_In, in_map_iff in Hr. destruct Hr as (w & <- & Hw%list_elem_of_In). simpl.
    destruct (bool_decide (iu_indexId _ = ix)) eqn:E1; [|done]. apply bool_decide_eq_true in E1.
    by rewrite (H w Hw E1).
Qed.

Lemma elem_of_scan_rows d ix t iv o r : r ∈ scan_rows d ix t iv o ↔
  r ∈ indexes d ∧ i_index r = ix ∧ in_interval (i_key r) iv = true ∧ i_ts r ≤ t ∧
  idx_max_ts d (i_index r) (i_key r) (Some t) = Some (i_ts r).
Proof.
  unfold scan_rows. rewrite elem_of_sort_by, list_elem_of_In, filter_In, <-list_elem_of_In.
  rewrite !andb_true_iff, !bool_decide_eq_true, Z.leb_le. tauto.
Qed.

(** A scan whose keys the unit does not touch sees the same documents before and after it. *)
Lemma index_scan_frame d u shard ix iv o limit : db_ok d → unit_okb u = true → index_closed d u →
  (∀ w, w ∈ cu_indexUpdates u → iu_indexId (iw_update w) = ix → in_interval (iu_key (iw_update w)) iv = false) →
  index_scan (commit_unit d u shard) ix (maxTimestamp d + 1) iv o limit = index_scan d ix (maxTimestamp d) iv o limit.
Proof.
  intros Hd Hu Hc H. unfold index_scan. rewrite scan_rows_frame by done.
  assert (Hres : ∀ r, r ∈ scan_rows d ix (maxTimestamp d) iv o →
    resolve_row (commit_unit d u shard) (maxTimestamp d + 1) r = resolve_row d (maxTimestamp d) r).
  { intros r (Hr & Hix & Hiv & _ & Hmax)%elem_of_scan_rows. unfold resolve_row.
    destruct (i_deleted r) eqn:Edel; [done|]. pose proof (ok_ptr d Hd) as Hp. rewrite Forall_forall in Hp.
    destruct (Hp r Hr Edel) as (n & iid & Hn & Et & Ei). rewrite Et, Ei, decode_encodeStorageTableId by done.
    cbn [res_bind]. rewrite get_commit_other.
    - by rewrite !get_latest by lia.
    - intros (e & Eid & He)%list_elem_of_fmap. destruct (Hc e r He) as (w & Hw & Ew & Ek).
      + split_and!; [done|done|]. by rewrite idx_max_latest in Hmax.
      + by rewrite Et, <-Eid.
      + by rewrite Ei, <-Eid.
      + rewrite Hix in Ew. specialize (H w Hw Ew). rewrite Ek in H. congruence. }
  revert Hres. generalize (scan_rows d ix (maxTimestamp d) iv o), 0.
  intros rows n Hres. revert n. induction rows as [|r rows IH]; intros n; [done|]. cbn [scan_loop].
  rewrite Hres by (apply elem_of_cons; by left).
  assert (IH' := IH ltac:(intros r' Hr'; apply Hres, elem_of_cons; by right)).
  destruct (resolve_row d (maxTimestamp d) r) as [[y|]|]; cbn [res_bind]; [|apply IH'|done]. by rewrite IH'.
Qed.

(** Every index entry a unit stages points to a document of the unit. *)
Definition unit_local (u : CommitUnit) : Prop :=
  ∀ w id, w ∈ cu_indexUpdates u → iu_value (iw_update w) = NonClustered id → id ∈ (le_id <$> cu_documents u).

(** The unit keeps to its own documents, and they are none of [u]'s. *)
Definition unit_apart (u0 u : CommitUnit) : Prop :=
  unit_local u0 ∧ ∀ id, id ∈ (le_id <$> cu_documents u0) → id ∉ (le_id <$> cu_documents u).

(** Committing a unit that keeps apart from [u] leaves [u] closed. *)
Lemma index_closed_commit d u0 u shard : index_closed d u → unit_okb u = true → unit_okb u0 = true → unit_apart u0 u →
  index_closed (commit_unit d u0 shard) u.
Proof.
  intros Hc Hu Hu0 [Hloc Hdis] e r He (Hr & Hdel & Hmax) Ht Hi. simpl in Hr. apply elem_of_app in Hr as [Hr|Hr].
  - apply (Hc e r He); [|done..]. split_and!; [done..|]. unfold idx_max_ts in *. simpl in Hmax.
    rewrite List.filter_app, List.map_app in Hmax. apply sql_max_Some in Hmax as [_ Hub].
    apply sql_max_Some. split; [|intros x Hx; apply Hub, elem_of_app; by left].
    apply list_elem_of_In, in_map_iff. exists r. split; [done|]. apply filter_In. split; [by apply list_elem_of_In|].
    by rewrite !bool_decide_eq_true_2.
  - exfalso. unfold new_idx in Hr. apply fold_replace_elem in Hr as [Hr|Hr]; [|by apply elem_of_nil in Hr].
    rewrite List.map_map, list_elem_of_In, in_map_iff in Hr. destruct Hr as (w & <- & Hw%list_elem_of_In).
    apply unit_okb_true in Hu as (_ & He0 & _), Hu0 as (_ & _ & Hw0). rewrite Forall_forall in He0. rewrite Forall_forall in Hw0.
    specialize (He0 e He). specialize (Hw0 w Hw). unfold entry_okb in He0. unfold update_okb in Hw0.
    simpl in Hdel, Ht, Hi. destruct (iu_value (iw_update w)) as [|id] eqn:E; [done|].
    apply (Hdis id); [by eapply Hloc|]. apply list_elem_of_fmap. exists e. split; [|done].
    apply Some_inj in Ht, Hi. destruct id as [n x], (le_id e) as [n' x']. simpl in *. subst x'. f_equal.
    apply andb_true_iff in Hw0 as [_ Hn%Z.leb_le].
    assert (Hn' : 0 ≤ n') by (repeat (apply andb_true_iff in He0 as [He0 ?]); by apply Z.leb_le).
    apply (f_equal decodeStorageTableId) in Ht. rewrite !decode_encodeStorageTableId in Ht by done. congruence.
Qed.
