(* ===== verification/ShardRouting.v ===== *)
(** Shard routing: the jump consistent hash of [packages/id-codec/src/jump-hash.ts] with its binary64
    division and product, FNV-1a, the slot to shard-id contract, and the routers of
    [packages/id-codec/src/shard.ts]. *)
From Stdlib Require Import ZArith Lia.
From S2P Require Import Prelude Numbers Values IndexKeys DocStore.

Definition ShardId : Type := jsstr.

Definition U64_MASK : Z := 0xffffffffffffffff.
Definition LCG_MULT : Z := 2862933555777941757.

(** ** The binary64 operations the hash uses *)

(** [Number(z)] for an integer *)
Definition num_of_Z (z : Z) : spec_float := binary_normalize 53 1024 z 0 false.
Definition num_div : spec_float → spec_float → spec_float := SFdiv 53 1024.
Definition num_mul : spec_float → spec_float → spec_float := SFmul 53 1024.

(** [BigInt(Math.floor(x))]: a [RangeError] on an infinity or a NaN *)
Definition bigint_floor (x : spec_float) : res Z :=
  match x with
  | S754_zero _ => Ok 0
  | S754_finite false m e => Ok (Z.shiftl (Z.pos m) e)
  | S754_finite true m e => Ok (Z.shiftl (Z.neg m) e)
  | _ => Err RangeError
  end.

(** ** Jump consistent hash *)
Definition lcg (k : Z) : Z := Z.land (k * LCG_MULT + 1) U64_MASK.

(** [BigInt(Math.floor((Number(b) + 1) * (0x80000000 / denom)))] with [denom = Number(k >> 33n) + 1] *)
Definition next_jump (b k : Z) : res Z :=
  let denom := Z.shiftr k 33 + 1 in
  bigint_floor (num_mul (num_of_Z (b + 1)) (num_div (num_of_Z 0x80000000) (num_of_Z denom))).

(** The [while (j < n)] loop; [None] is running out of fuel. *)
Fixpoint jump_loop (fuel : nat) (n k b j : Z) : option (res Z) :=
  if j <? n then
    match fuel with
    | O => None
    | S fuel =>
        let b := j in
        let k := lcg k in
        match next_jump b k with
        | Err e => Some (Err e)
        | Ok j => jump_loop fuel n k b j
        end
    end
  else Some (Ok b).

Definition jumpConsistentHash (key buckets : Z) : option (res Z) :=
  if buckets <? 1 then Some (Err RangeError)
  else jump_loop (Z.to_nat buckets) buckets (key mod 2 ^ 64) (-1) 0.

Definition fnv1a64 (bs : bytes) : Z :=
  fold_left (λ h b, Z.land (Z.lxor h b * 0x100000001b3) U64_MASK) bs 0xcbf29ce484222325.

Definition slot_id (slot : Z) : ShardId :=
  if slot =? 0 then DEFAULT_SHARD else js "s" ++ string_of_int slot.

Definition shardIdForKeyValue (v : value) (numShards : Z) : option (res ShardId) :=
  match encodeIndexKey [v] with
  | Err e => Some (Err e)
  | Ok bs =>
      match jumpConsistentHash (fnv1a64 bs) (Z.max 1 numShards) with
      | Some (Ok slot) => Some (Ok (slot_id slot))
      | Some (Err e) => Some (Err e)
      | None => None
      end
  end.

(** [["default", "s1", …]] *)
Definition shardIdList (numShards : Z) : res (list ShardId) :=
  if numShards <? 1 then Err RangeError
  else Ok (DEFAULT_SHARD :: List.map (λ slot, js "s" ++ string_of_int slot) (seqZ 1 (numShards - 1))).

(** ** Routers *)
Definition new_JumpShardRouter (numShards : Z) : res Z := if numShards <? 1 then Err RangeError else Ok numShards.
Definition getShardForKey (numShards : Z) (shardKey : option jsstr) : option (res ShardId) :=
  match shardKey with
  | None => Some (Ok DEFAULT_SHARD)
  | Some k => shardIdForKeyValue (VStr k) numShards
  end.
Definition getShardForDocument (numShards : Z) (table : jsstr) (shardKey : option jsstr) : option (res ShardId) :=
  getShardForKey numShards shardKey.
Definition simple_getShardForKey (shardKey : option jsstr) : ShardId := DEFAULT_SHARD.

(** The test vectors of [jump-hash.test.ts]. *)
Example jump_vectors :
  jumpConsistentHash 1 10 = Some (Ok 6) ∧ jumpConsistentHash 0xdeadbeef 100 = Some (Ok 87) ∧
  jumpConsistentHash 0xffffffffffffffff 16 = Some (Ok 10) ∧ jumpConsistentHash 1 0 = Some (Err RangeError).
Proof. vm_compute. done. Qed.

(** ** Rounding is monotone below: a positive value at or above an integer below 2^53 rounds to a
    number at or above it *)

Lemma shiftl_mono a b e : a ≤ b → Z.shiftl a e ≤ Z.shiftl b e.
Proof.
  intros H. destruct (Z.leb_spec 0 e).
  - rewrite !Z.shiftl_mul_pow2 by done. apply Z.mul_le_mono_nonneg_r; [|done]. by apply Z.pow_nonneg.
  - rewrite !Z.shiftl_div_pow2 by lia. apply Z.div_le_mono; [|done]. apply Z.pow_pos_nonneg; lia.
Qed.

Lemma log2_of_bounds m k : 0 ≤ k → 2 ^ k ≤ m < 2 ^ (k + 1) → Z.log2 m = k.
Proof. intros Hk H. apply Z.log2_unique; [done|]. by replace (Z.succ k) with (k + 1) by lia. Qed.

Lemma shr_fexp_lower n m e l r e' :
  0 < m → 0 < n < 2 ^ 53 → n ≤ Z.shiftl m e → -1000 ≤ e → shr_fexp 53 1024 m e l = (r, e') →
  n ≤ Z.shiftl (shr_m r) e' ∧ 0 < shr_m r < 2 ^ 53 ∧ e ≤ e' ≤ Z.max e (Z.log2 m + e - 52).
Proof.
  intros Hm Hn Hle He. unfold shr_fexp, shr, fexp, emin.
  assert (Hd : Zdigits2 m = Z.log2 m + 1) by (destruct m; try lia; simpl; by rewrite digits2_log2).
  assert (Hl : shr_m (shr_record_of_loc m l) = m) by (by destruct l as [|[]]).
  pose proof (Z.log2_spec m Hm) as [Hlo Hhi]. pose proof (Z.log2_nonneg m).
  rewrite Hd. replace (Z.max _ _ - e) with (Z.log2 m - 52) by lia.
  destruct (Z.log2 m - 52) as [|p|p] eqn:Ep; intros [= <- <-]; rewrite ?iter_pos_shr, ?Hl by lia.
  1,3: split_and!; try lia; eapply Z.lt_le_trans; [exact Hhi|]; apply Z.pow_le_mono_r; lia.
  set (P := Z.pos p) in *. assert (0 < P) by (by unfold P). assert (0 < 2 ^ P) by (apply Z.pow_pos_nonneg; lia).
  assert (HM : 2 ^ 52 ≤ m / 2 ^ P < 2 ^ 53).
  { replace (Z.log2 m) with (52 + P) in * by lia. split.
    - apply Z.div_le_lower_bound; [done|]. rewrite <-Z.pow_add_r by lia. by rewrite Z.add_comm.
    - apply Z.div_lt_upper_bound; [done|]. rewrite <-Z.pow_add_r by lia.
      by replace (P + 53) with (Z.succ (52 + P)) by lia. }
  split_and!; try lia. destruct (Z.leb_spec 1 (e + P)) as [He1|He1].
  - rewrite Z.shiftl_mul_pow2 by lia.
    assert (2 ^ 1 ≤ 2 ^ (e + P)) by (apply Z.pow_le_mono_r; lia). change (2 ^ 1) with 2 in *. nia.
  - rewrite Z.shiftl_div_pow2 in Hle |- * by lia. rewrite Z.div_div by lia.
    rewrite <-Z.pow_add_r by lia. by replace (P + - (e + P)) with (- e) by lia.
Qed.

Lemma round_ne_bounds m l : m ≤ round_nearest_even m l ≤ m + 1.
Proof. destruct l as [|[]]; simpl; try lia. destruct (Z.even m); lia. Qed.

Lemma round_lower n m e l :
  0 < m → 0 < n < 2 ^ 53 → n ≤ Z.shiftl m e → -1000 ≤ e → Z.log2 m + e ≤ 900 → e ≤ 900 →
  ∃ m' e', binary_round_aux 53 1024 false m e l = S754_finite false m' e' ∧ n ≤ Z.shiftl (Z.pos m') e' ∧
    Z.pos m' < 2 ^ 53 ∧ e ≤ e' ≤ Z.max e (Z.log2 m + e - 52) + 1.
Proof.
  intros Hm Hn Hle He Hb1 Hb2. unfold binary_round_aux.
  destruct (shr_fexp 53 1024 m e l) as [r e1] eqn:E1.
  destruct (shr_fexp_lower n m e l r e1 Hm Hn Hle He E1) as (L1 & P1 & B1).
  set (l1 := loc_of_shr_record r). pose proof (round_ne_bounds (shr_m r) l1) as Hr.
  set (m1 := round_nearest_even (shr_m r) l1) in *.
  destruct (shr_fexp 53 1024 m1 e1 loc_Exact) as [r2 e2] eqn:E2.
  destruct (shr_fexp_lower n m1 e1 loc_Exact r2 e2) as (L2 & P2 & B2); try done; try lia.
  { etrans; [exact L1|]. apply shiftl_mono. lia. }
  assert (Z.log2 m1 ≤ 53) by (change 53 with (Z.log2 (2 ^ 53)); apply Z.log2_le_mono; lia).
  destruct (shr_m r2) as [|q|q]; try lia.
  rewrite (proj2 (Z.leb_le _ _)) by lia. exists q, e2. split_and!; try done; lia.
Qed.

(** An integer below 2^53 is a binary64 with a full mantissa. *)
Lemma num_of_Z_exact z : 0 < z < 2 ^ 53 → ∃ m e, num_of_Z z = S754_finite false m e ∧
  e = Z.log2 z - 52 ∧ Z.pos m = z * 2 ^ (- e) ∧ 2 ^ 52 ≤ Z.pos m < 2 ^ 53.
Proof.
  intros Hz. destruct z as [|p|p]; try lia. unfold num_of_Z, binary_normalize, binary_round.
  pose proof (Z.log2_spec (Z.pos p) ltac:(lia)) as [Hlo Hhi]. pose proof (Z.log2_nonneg (Z.pos p)) as H0.
  assert (Hlt : Z.log2 (Z.pos p) < 53) by (apply Z.log2_lt_pow2; lia).
  rewrite digits2_log2. unfold fexp at 1, emin. set (k := Z.log2 (Z.pos p)) in *.
  replace (Z.max (k + 1 + 0 - 53) (3 - 1024 - 53)) with (k - 52) by lia.
  pose proof (shl_align_val p 0 (k - 52) ltac:(lia)) as Hv.
  assert (Hsnd : snd (shl_align p 0 (k - 52)) = k - 52) by (unfold shl_align; destruct (k - 52 - 0) eqn:E; simpl; lia).
  destruct (shl_align p 0 (k - 52)) as [mz ez]. simpl in Hv, Hsnd. subst ez.
  replace (0 - (k - 52)) with (52 - k) in Hv by lia.
  assert (Hm : 2 ^ 52 ≤ Z.pos mz < 2 ^ 53).
  { rewrite Hv. replace (2 ^ 52) with (2 ^ k * 2 ^ (52 - k)) by (rewrite <-Z.pow_add_r by lia; f_equal; lia).
    replace (2 ^ 53) with (2 ^ Z.succ k * 2 ^ (52 - k)) by (rewrite <-Z.pow_add_r by lia; f_equal; lia).
    assert (0 < 2 ^ (52 - k)) by (apply Z.pow_pos_nonneg; lia). nia. }
  assert (Hs : shr_fexp 53 1024 (Z.pos mz) (k - 52) loc_Exact = ({| shr_m := Z.pos mz; shr_r := false; shr_s := false |}, k - 52)).
  { unfold shr_fexp, fexp, emin. simpl Zdigits2. rewrite digits2_log2, (log2_of_bounds _ 52) by (simpl; lia).
    by replace (Z.max _ _ - (k - 52)) with 0 by lia. }
  exists mz, (k - 52). unfold binary_round_aux. rewrite Hs. simpl shr_m. simpl loc_of_shr_record.
  simpl round_nearest_even. rewrite Hs. simpl shr_m. rewrite (proj2 (Z.leb_le _ _)) by lia.
  split_and!; try done; try lia. rewrite Hv. do 2 f_equal. lia.
Qed.

(** The ratio [2^31 / denom] is at least one. *)
Lemma ratio_lower d : 1 ≤ d ≤ 2 ^ 31 → ∃ m e, num_div (num_of_Z (2 ^ 31)) (num_of_Z d) = S754_finite false m e ∧
  1 ≤ Z.shiftl (Z.pos m) e ∧ Z.pos m < 2 ^ 53 ∧ -53 ≤ e ≤ -20.
Proof.
  intros Hd. change (num_of_Z (2 ^ 31)) with (S754_finite false (Z.to_pos (2 ^ 52)) (-21)).
  destruct (num_of_Z_exact d ltac:(lia)) as (m2 & e2 & -> & He & Hm & Hb).
  assert (Hl : 0 ≤ Z.log2 d ≤ 31).
  { split; [apply Z.log2_nonneg|]. change 31 with (Z.log2 (2 ^ 31)). apply Z.log2_le_mono. lia. }
  set (k := -21 - e2). assert (Hd2 : Zdigits2 (Z.pos m2) = 53).
  { unfold Zdigits2. rewrite digits2_log2, (log2_of_bounds _ 52) by (simpl; lia). done. }
  assert (He' : Z.min (fexp 53 1024 (53 + -21 - (53 + e2))) (-21 - e2) = k - 53) by (unfold fexp, emin; lia).
  unfold num_div, SFdiv, SFdiv_core_binary. change (Z.pos (Z.to_pos (2 ^ 52))) with (2 ^ 52).
  change (Zdigits2 (2 ^ 52)) with 53. rewrite Hd2, He'. replace (-21 - e2 - (k - 53)) with 53 by lia.
  cbv iota. rewrite Z.shiftl_mul_pow2 by lia.
  pose proof (Z_div_mod_full (2 ^ 52 * 2 ^ 53) (Z.pos m2) ltac:(lia)) as Hdm. unfold Remainder in Hdm.
  destruct (Z.div_eucl (2 ^ 52 * 2 ^ 53) (Z.pos m2)) as [q r] eqn:Eq.
  assert (Hq : q = (2 ^ 52 * 2 ^ 53) / Z.pos m2) by (unfold Z.div; by rewrite Eq).
  assert (Hq1 : 2 ^ 52 ≤ q) by 
    (rewrite Hq; apply Z.div_le_lower_bound; [lia|]; rewrite Z.mul_comm; apply Z.mul_le_mono_nonneg_l; lia).
  assert (Hq2 : q ≤ 2 ^ 53) by 
    (rewrite Hq; apply Z.div_le_upper_bound; [lia|]; apply Z.mul_le_mono_nonneg_r; lia).
  assert (Hm2 : Z.pos m2 ≤ 2 ^ (52 + k)).
  { rewrite Hm. replace (52 + k) with (31 + - e2) by lia. rewrite Z.pow_add_r by lia.
    apply Z.mul_le_mono_nonneg_r; [apply Z.pow_nonneg; lia|lia]. }
  assert (Hq3 : 2 ^ (53 - k) ≤ q).
  { rewrite Hq. apply Z.div_le_lower_bound; [lia|]. rewrite <-Z.pow_add_r by lia.
    replace (2 ^ (52 + 53)) with (2 ^ (52 + k) * 2 ^ (53 - k)) by (rewrite <-Z.pow_add_r by lia; f_equal; lia).
    apply Z.mul_le_mono_nonneg_r; [apply Z.pow_nonneg; lia|done]. }
  assert (Z.log2 q ≤ 53) by (change 53 with (Z.log2 (2 ^ 53)); apply Z.log2_le_mono; lia).
  simpl xorb. destruct (round_lower 1 q (k - 53) (new_location (Z.pos m2) r)) as (m' & e' & E & L & B & X); try lia.
  { rewrite Z.shiftl_div_pow2 by lia. apply Z.div_le_lower_bound; [apply Z.pow_pos_nonneg; lia|].
    by replace (- (k - 53)) with (53 - k) by lia; rewrite Z.mul_1_r. }
  exists m', e'. split_and!; try done; lia.
Qed.

(** Every jump goes strictly forward. *)
Lemma next_jump_progress b k : 0 ≤ b < 2 ^ 53 - 1 → 0 ≤ k < 2 ^ 64 → ∃ j, next_jump b k = Ok j ∧ b < j.
Proof.
  intros Hb Hk. unfold next_jump. change 0x80000000 with (2 ^ 31).
  destruct (ratio_lower (Z.shiftr k 33 + 1)) as (mq & eq & -> & Lq & Bq & Xq).
  { rewrite Z.shiftr_div_pow2 by lia. split; [pose proof (Z.div_pos k (2 ^ 33)); lia|].
    enough (k / 2 ^ 33 < 2 ^ 31) by lia. apply Z.div_lt_upper_bound; lia. }
  destruct (num_of_Z_exact (b + 1) ltac:(lia)) as (m1 & e1 & -> & He & Hm & Hb1).
  assert (0 ≤ Z.log2 (b + 1) < 53) by (split; [apply Z.log2_nonneg|apply Z.log2_lt_pow2; lia]).
  unfold num_mul, SFmul. simpl xorb. rewrite Pos2Z.inj_mul.
  assert (Hpos : 0 < Z.pos m1 * Z.pos mq) by lia.
  assert (Z.log2 (Z.pos m1 * Z.pos mq) ≤ 106).
  { change 106 with (Z.log2 (2 ^ 106)). apply Z.log2_le_mono. change (2 ^ 106) with (2 ^ 53 * 2 ^ 53). nia. }
  destruct (round_lower (b + 1) (Z.pos m1 * Z.pos mq) (e1 + eq) loc_Exact) as (m' & e' & -> & L & _ & _); try lia.
  { rewrite Z.shiftl_div_pow2 in Lq |- * by lia. apply Z.div_le_lower_bound; [apply Z.pow_pos_nonneg; lia|].
    replace (- (e1 + eq)) with (- e1 + - eq) by lia. rewrite Z.pow_add_r, Hm by lia.
    assert (Hq : 2 ^ (- eq) ≤ Z.pos mq).
    { assert (0 < 2 ^ (- eq)) by (apply Z.pow_pos_nonneg; lia).
      pose proof (Z.mul_div_le (Z.pos mq) (2 ^ (- eq))). nia. }
    assert (0 < 2 ^ (- e1)) by (apply Z.pow_pos_nonneg; lia). nia. }
  exists (Z.shiftl (Z.pos m') e'). split; [done|lia].
Qed.

Lemma lcg_range k : 0 ≤ lcg k < 2 ^ 64.
Proof. unfold lcg. change U64_MASK with (Z.ones 64). rewrite Z.land_ones by lia. apply Z.mod_pos_bound. lia. Qed.

(** The loop ends within [n - j] rounds, below [n] and at or past where it stands. *)
Lemma jump_loop_total fuel n k b j : n < 2 ^ 53 → -1 ≤ b < n → b < j → (n - j ≤ Z.of_nat fuel) →
  ∃ r, jump_loop fuel n k b j = Some (Ok r) ∧ b ≤ r < n ∧ (j < n → j ≤ r).
Proof.
  revert k b j. induction fuel as [|fuel IH]; intros k b j Hn Hb Hj Hf; simpl;
    destruct (Z.ltb_spec j n) as [Hlt|Hge]; try lia; try (exists b; split_and!; try done; lia).
  destruct (next_jump_progress j (lcg k)) as (j' & -> & Hj'); [lia|apply lcg_range|].
  destruct (IH (lcg k) j j') as (r & -> & Hr & _); try lia. exists r. split_and!; try done; lia.
Qed.

Lemma jump_loop_stop fuel n k b j : n ≤ j → jump_loop fuel n k b j = Some (Ok b).
Proof. intros H. destruct fuel; simpl; by rewrite (proj2 (Z.ltb_ge j n)) by lia. Qed.

(** More buckets: the same answer, or one of the new buckets. *)
Lemma jump_loop_grow fuel fuel' n n' k b j r r' : n ≤ n' < 2 ^ 53 → -1 ≤ b < n → b < j →
  n - j ≤ Z.of_nat fuel → n' - j ≤ Z.of_nat fuel' →
  jump_loop fuel n k b j = Some (Ok r) → jump_loop fuel' n' k b j = Some (Ok r') → r' = r ∨ n ≤ r'.
Proof.
  revert fuel' k b j. induction fuel as [|fuel IH]; intros fuel' k b j Hn Hb Hj Hf Hf' E E'.
  all: destruct (Z.leb_spec n j) as [Hge|Hlt].
  1,3: rewrite jump_loop_stop in E by done; injection E as <-;
       destruct (Z.leb_spec n' j) as [Hge'|Hlt']; [rewrite jump_loop_stop in E' by done; left; congruence|];
       destruct (jump_loop_total fuel' n' k b j) as (r0 & E0 & _ & H1); try lia;
       rewrite E0 in E'; injection E' as <-; right; specialize (H1 Hlt'); lia.
  - lia.
  - destruct fuel' as [|fuel']; [lia|]. simpl in E, E'.
    rewrite (proj2 (Z.ltb_lt j n)) in E by lia. rewrite (proj2 (Z.ltb_lt j n')) in E' by lia.
    destruct (next_jump_progress j (lcg k)) as (j' & Ej & Hj'); [lia|apply lcg_range|].
    rewrite Ej in E, E'. apply (IH fuel' (lcg k) j j'); try done; lia.
Qed.

Lemma slot_id_inj a b : 0 ≤ a → 0 ≤ b → slot_id a = slot_id b → a = b.
Proof.
  intros Ha Hb. unfold slot_id. destruct (Z.eqb_spec a 0), (Z.eqb_spec b 0); try done; subst; try done.
  intros H%app_inv_head. apply (f_equal parseInt10) in H. rewrite !parseInt10_string_of_int in H by lia. congruence.
Qed.

Lemma shardIdList_slots n : 1 ≤ n → shardIdList n = Ok (slot_id <$> seqZ 0 n).
Proof.
  intros Hn. unfold shardIdList. rewrite (proj2 (Z.ltb_ge n 1)) by lia. rewrite (seqZ_cons 0 n) by lia.
  simpl. do 2 f_equal. change (Z.succ 0) with 1. replace (Z.pred n) with (n - 1) by lia.
  apply list_fmap_ext. intros i slot Hi. apply lookup_seqZ in Hi as [-> _]. unfold slot_id.
  by rewrite (proj2 (Z.eqb_neq _ _)) by lia.
Qed.

Lemma jump_range key n : 1 ≤ n < 2 ^ 53 → ∃ r, jumpConsistentHash key n = Some (Ok r) ∧ 0 ≤ r < n.
Proof.
  intros Hn. unfold jumpConsistentHash. rewrite (proj2 (Z.ltb_ge n 1)) by lia.
  destruct (jump_loop_total (Z.to_nat n) n (key mod 2 ^ 64) (-1) 0) as (r & -> & Hr & H0); try lia.
  exists r. split; [done|]. specialize (H0 ltac:(lia)). lia.
Qed.

Lemma jump_grow key n n' r r' : 1 ≤ n ≤ n' → n' < 2 ^ 53 →
  jumpConsistentHash key n = Some (Ok r) → jumpConsistentHash key n' = Some (Ok r') → r' = r ∨ n ≤ r'.
Proof.
  intros Hn Hn'. unfold jumpConsistentHash. rewrite (proj2 (Z.ltb_ge n 1)), (proj2 (Z.ltb_ge n' 1)) by lia.
  apply jump_loop_grow; lia.
Qed.

(** C39: jump consistent hash terminates on every key and bucket count below 2^53 with a bucket of the
    range, and moves minimally: growing the bucket count leaves a key where it was or moves it to one
    of the new buckets, whatever the rounding of its binary64 division and product. *)
Theorem jump_consistent key n n' : 1 ≤ n ≤ n' → n' < 2 ^ 53 →
  ∃ r r', jumpConsistentHash key n = Some (Ok r) ∧ jumpConsistentHash key n' = Some (Ok r') ∧
    0 ≤ r < n ∧ 0 ≤ r' < n' ∧ (r' = r ∨ n ≤ r').
Proof.
  intros Hn Hn'. destruct (jump_range key n ltac:(lia)) as (r & E & Hr), (jump_range key n' ltac:(lia)) as (r' & E' & Hr').
  exists r, r'. split_and!; try done; [lia..|]. by eapply jump_grow.
Qed.

(** The slot contract of shard routing. The shard ids of [n] shards are distinct and every
    indexable value routes to one of them; with more shards the old ids keep their slots, and a value
    stays on its shard or moves to a shard that did not exist before. *)
Theorem routing_contract v n n' : indexableb v = true → 1 ≤ n ≤ n' → n' < 2 ^ 53 →
  ∃ ids ids' id id', shardIdList n = Ok ids ∧ shardIdList n' = Ok ids' ∧ NoDup ids' ∧ ids `prefix_of` ids' ∧
    shardIdForKeyValue v n = Some (Ok id) ∧ shardIdForKeyValue v n' = Some (Ok id') ∧
    id ∈ ids ∧ id' ∈ ids' ∧ (id' = id ∨ id' ∉ ids).
Proof.
  intros Hv Hn Hn'. destruct (encodeIndexKey_total [v]) as [bs Hbs]; [by simpl; rewrite Hv|].
  destruct (jump_range (fnv1a64 bs) n ltac:(lia)) as (r & E & Hr), (jump_range (fnv1a64 bs) n' ltac:(lia)) as (r' & E' & Hr').
  exists (slot_id <$> seqZ 0 n), (slot_id <$> seqZ 0 n'), (slot_id r), (slot_id r').
  assert (Hin : ∀ r m, 0 ≤ r → slot_id r ∈ slot_id <$> seqZ 0 m ↔ r < m).
  { intros x m Hx. rewrite list_elem_of_fmap. split.
    - intros (y & Hy & Hym%elem_of_seqZ). apply slot_id_inj in Hy; lia.
    - intros. exists x. rewrite elem_of_seqZ. split; [done|lia]. }
  unfold shardIdForKeyValue. rewrite Hbs, !Z.max_r, E, E' by lia.
  split_and!; try done; try (apply shardIdList_slots; lia); try (apply Hin; lia).
  - apply NoDup_fmap_2_strong; [|apply NoDup_seqZ]. intros x y Hx%elem_of_seqZ Hy%elem_of_seqZ. apply slot_id_inj; lia.
  - replace n' with (n + (n' - n)) by lia. rewrite seqZ_app, fmap_app by lia. by eexists.
  - rewrite Hin by lia. destruct (jump_grow _ _ _ _ _ Hn Hn' E E') as [->|]; [by left|right; lia].
Qed.

Lemma jump_consistent_witness : jumpConsistentHash 1 10 = Some (Ok 6) ∧
  ∃ r r', jumpConsistentHash 1 10 = Some (Ok r) ∧ jumpConsistentHash 1 16 = Some (Ok r') ∧
    0 ≤ r < 10 ∧ 0 ≤ r' < 16 ∧ (r' = r ∨ 10 ≤ r').
Proof. split; [vm_compute; reflexivity|]. apply (jump_consistent 1 10 16); lia. Defined.

Lemma routing_contract_witness :
  ∃ ids ids' id id', shardIdList 4 = Ok ids ∧ shardIdList 8 = Ok ids' ∧ NoDup ids' ∧ ids `prefix_of` ids' ∧
    shardIdForKeyValue (VStr (js "room-1")) 4 = Some (Ok id) ∧ shardIdForKeyValue (VStr (js "room-1")) 8 = Some (Ok id') ∧
    id ∈ ids ∧ id' ∈ ids' ∧ (id' = id ∨ id' ∉ ids).
Proof. apply (routing_contract (VStr (js "room-1")) 4 8); [reflexivity|lia|lia]. Defined.
