(* ===== verification/Receipts.v ===== *)
(** Client mutation receipts of the SQLite store ([packages/docstore-sqlite/src/sqlite-docstore.ts],
    [recordClientVerdict] to [sweepExpiredClientMutations]): a receipt, once recorded, is either still
    readable unchanged or covered by its client's pruning floor, and floors only rise. *)
From S2P Require Import Prelude Numbers Values Json IndexKeys Ranges IdCodec DocStore.

Section receipts.
Variable jsonByteLength : json → Z.

(** The operations on the receipts tables; [now] is [Date.now()]. *)
Inductive receipt_op :=
  | RRecord (now : Z) (identity client : jsstr) (seq : Z) (w : ClientVerdictWrite)
  | RUpdate (identity client : jsstr) (seq : Z) (v : json)
  | RPrune (now : Z) (identity client : jsstr) (ackedThrough ttlBeforeMs : option Z)
  | RSweep (now beforeMs : Z).

Definition apply_receipt (d : db) (op : receipt_op) : db :=
  match op with
  | RRecord now i c s w => recordClientVerdict jsonByteLength now d i c s w
  | RUpdate i c s v => updateClientVerdictValue jsonByteLength d i c s v
  | RPrune now i c a t => (pruneClientMutations now d i c a t).1
  | RSweep now b => (sweepExpiredClientMutations now d b).1
  end.

(** A receipt is there, or the floor covers its sequence number. *)
Definition accounted (d : db) (i c : jsstr) (s : Z) : Prop :=
  is_Some (getClientVerdict d i c s) ∨ ∃ f, getClientFloor d i c = Some f ∧ s ≤ f.

(** No identity in the table contains a NUL, the delimiter of the sweep's batch key. *)
Definition nul_free (d : db) : Prop := Forall (λ r, 0 ∉ cm_identity r) (client_mutations d).
Definition op_nul_free (op : receipt_op) : Prop :=
  match op with RRecord _ i _ _ _ => 0 ∉ i | _ => True end.

Lemma cm_is_true i c s r : cm_is i c s r = true ↔ cm_identity r = i ∧ cm_client r = c ∧ cm_seq r = s.
Proof. unfold cm_is. rewrite !andb_true_iff, !bool_decide_eq_true, Z.eqb_eq. tauto. Qed.

Lemma fl_is_true i c r : fl_is i c r = true ↔ fl_identity r = i ∧ fl_client r = c.
Proof. unfold fl_is. rewrite !andb_true_iff, !bool_decide_eq_true. tauto. Qed.

Lemma verdict_some d i c s : is_Some (getClientVerdict d i c s) ↔ ∃ r, r ∈ client_mutations d ∧ cm_is i c s r = true.
Proof.
  unfold getClientVerdict. split.
  - intros [v Hv]. destruct (List.filter _ _) as [|r l] eqn:E; [done|]. exists r.
    assert (Hr : In r (r :: l)) by (by left). rewrite <-E in Hr. apply filter_In in Hr as [H1 H2].
    by rewrite list_elem_of_In.
  - intros (r & Hr & Hm). destruct (List.filter _ _) as [|r' l] eqn:E; [|by eexists].
    exfalso. assert (In r []) as []. rewrite <-E. apply filter_In. by rewrite <-list_elem_of_In.
Qed.

(** ** Floors *)
Definition fl_get (rows : list floorRow) (i c : jsstr) : option Z :=
  option_map fl_through (head (List.filter (fl_is i c) rows)).

Lemma fl_get_cons r rows i c : fl_get (r :: rows) i c = if fl_is i c r then Some (fl_through r) else fl_get rows i c.
Proof. unfold fl_get. simpl. by destruct (fl_is i c r). Qed.

Lemma fl_get_none rows i c : existsb (fl_is i c) rows = false → fl_get rows i c = None.
Proof.
  induction rows as [|r rows IH]; [done|]. simpl. rewrite fl_get_cons. intros [-> H]%orb_false_iff. auto.
Qed.

Lemma fl_is_eq i c i' c' r : fl_is i c r = true → fl_is i' c' r = bool_decide (i' = i ∧ c' = c).
Proof.
  intros [<- <-]%fl_is_true. apply eq_true_iff_eq. rewrite fl_is_true, bool_decide_eq_true. intuition congruence.
Qed.

Definition raise_floor (now : Z) (i c : jsstr) (th : Z) (r : floorRow) : floorRow :=
  if fl_is i c r
  then {| fl_identity := i; fl_client := c; fl_through := Z.max (fl_through r) th; fl_updated := now |} else r.

Lemma raise_get now rows i c th i' c' : fl_get (List.map (raise_floor now i c th) rows) i' c' =
  if decide (i' = i ∧ c' = c) then option_map (λ f, Z.max f th) (fl_get rows i c) else fl_get rows i' c'.
Proof.
  induction rows as [|r rows IH]; [by destruct (decide _)|]. simpl. rewrite !fl_get_cons, IH. unfold raise_floor.
  destruct (fl_is i c r) eqn:Er.
  - rewrite (fl_is_eq _ _ _ _ _ Er), (fl_is_eq i c i' c') by (by apply fl_is_true).
    destruct (decide (i' = i ∧ c' = c)) as [H|H]; [by rewrite bool_decide_true|by rewrite bool_decide_false].
  - destruct (decide (i' = i ∧ c' = c)) as [[-> ->]|H]; [by rewrite Er|done].
Qed.

Lemma upsert_get now rows i c th i' c' : fl_get (upsert_floor now rows i c th) i' c' =
  if decide (i' = i ∧ c' = c) then Some (match fl_get rows i c with Some f => Z.max f th | None => th end)
  else fl_get rows i' c'.
Proof.
  unfold upsert_floor. destruct (existsb (fl_is i c) rows) eqn:Ex.
  - fold (raise_floor now i c th). rewrite raise_get. destruct (decide _); [|done].
    destruct (fl_get rows i c) eqn:E; [done|]. exfalso.
    induction rows as [|r rows IH]; [done|]. rewrite fl_get_cons in E. simpl in Ex.
    destruct (fl_is i c r); [done|]. auto.
  - pose proof (fl_get_none _ _ _ Ex) as Hn. rewrite Hn. unfold fl_get in *. rewrite List.filter_app. simpl.
    rewrite (fl_is_eq i c i' c') by (by apply fl_is_true).
    destruct (decide (i' = i ∧ c' = c)) as [[-> ->]|Hne].
    + rewrite bool_decide_true by done. by destruct (List.filter (fl_is i c) rows).
    + rewrite bool_decide_false by done. by rewrite app_nil_r.
Qed.

Lemma upsert_mono now rows i c th i' c' f : fl_get rows i' c' = Some f →
  ∃ f', fl_get (upsert_floor now rows i c th) i' c' = Some f' ∧ f ≤ f'.
Proof.
  intros Hf. rewrite upsert_get. destruct (decide _) as [[-> ->]|]; [|by eexists].
  rewrite Hf. eexists. split; [done|]. lia.
Qed.

Definition floor_mono (d d' : db) : Prop :=
  ∀ i c f, getClientFloor d i c = Some f → ∃ f', getClientFloor d' i c = Some f' ∧ f ≤ f'.

(** Every row survives an operation or falls under its client's floor. *)
Definition rows_covered (d d' : db) : Prop :=
  ∀ r, r ∈ client_mutations d →
    is_Some (getClientVerdict d' (cm_identity r) (cm_client r) (cm_seq r)) ∨
    (0 ≤ cm_seq r → ∃ f, getClientFloor d' (cm_identity r) (cm_client r) = Some f ∧ cm_seq r ≤ f).

Lemma accounted_preserved d d' i c s : floor_mono d d' → rows_covered d d' → 0 ≤ s →
  accounted d i c s → accounted d' i c s.
Proof.
  intros Hf Hr Hs [(r & Hin & (<- & <- & <-)%cm_is_true)%verdict_some|(f & Ef & Hle)].
  - destruct (Hr r Hin) as [H|H]; [by left|right; auto].
  - right. destruct (Hf _ _ _ Ef) as (f' & Ef' & Hle'). exists f'. split; [done|lia].
Qed.

Lemma kept_covered d d' : (∀ r, r ∈ client_mutations d → ∃ r', r' ∈ client_mutations d' ∧
  cm_is (cm_identity r) (cm_client r) (cm_seq r) r' = true) → rows_covered d d'.
Proof. intros H r Hr. left. apply verdict_some. auto. Qed.

Lemma cm_is_self r : cm_is (cm_identity r) (cm_client r) (cm_seq r) r = true.
Proof. by apply cm_is_true. Qed.

Lemma record_covered now d i c s w : rows_covered d (recordClientVerdict jsonByteLength now d i c s w).
Proof.
  apply kept_covered. intros r Hr. exists r. split; [|apply cm_is_self].
  unfold recordClientVerdict. destruct (existsb _ _); [done|]. simpl. apply elem_of_app. by left.
Qed.

Lemma update_covered d i c s v : rows_covered d (updateClientVerdictValue jsonByteLength d i c s v).
Proof.
  apply kept_covered. intros r Hr.
  exists (if cm_is i c s r then set_cm_value (cappedValueJson jsonByteLength (Some v)) r else r). split.
  - unfold updateClientVerdictValue. simpl. apply list_elem_of_In, in_map_iff. exists r.
    by rewrite <-list_elem_of_In.
  - destruct (cm_is i c s r); by apply cm_is_true.
Qed.

(** What [pruneClientMutations] did, in every case. *)
Lemma prune_shape now d i c a t :
  let d' := (pruneClientMutations now d i c a t).1 in
  (client_floors d' = client_floors d ∨ ∃ th, client_floors d' = upsert_floor now (client_floors d) i c th) ∧
  ∀ r, r ∈ client_mutations d → r ∈ client_mutations d' ∨
    (cm_identity r = i ∧ cm_client r = c ∧ (0 ≤ cm_seq r → ∃ f, getClientFloor d' i c = Some f ∧ cm_seq r ≤ f)).
Proof.
  unfold pruneClientMutations. cbv zeta.
  assert (Hmax : ∀ l r, r ∈ l → ∃ m, sql_max (List.map cm_seq l) = Some m ∧ cm_seq r ≤ m).
  { intros l r Hr. assert (Hin : cm_seq r ∈ List.map cm_seq l) by (by apply (list_elem_of_fmap_2 cm_seq)).
    destruct (sql_max _) as [m|] eqn:E; [|apply sql_max_None in E; rewrite E in Hin; by apply elem_of_nil in Hin].
    exists m. split; [done|]. by apply sql_max_Some in E as [_ E]; apply E. }
  destruct (delete_clause a t) as [p|].
  - set (hit r := bool_decide (cm_identity r = i) && bool_decide (cm_client r = c) && p r).
    assert (Hhit : ∀ r, r ∈ client_mutations d → hit r = true → ∃ m, sql_max (List.map cm_seq
      (List.filter hit (client_mutations d))) = Some m ∧ cm_seq r ≤ m).
    { intros r Hr Hh. apply Hmax, list_elem_of_In, filter_In. by rewrite <-list_elem_of_In. }
    assert (Hkeep : ∀ r, r ∈ client_mutations d → hit r = false →
      r ∈ List.filter (λ r, negb (hit r)) (client_mutations d)).
    { intros r Hr Hh. apply list_elem_of_In, filter_In. by rewrite <-list_elem_of_In, Hh. }
    set (dm := sql_max _) in *. set (fl := getClientFloor d i c).
    assert (Hcand : ∀ m, dm = Some m → ∃ k, maxCandidate a dm = Some k ∧ m ≤ k).
    { intros m ->. unfold maxCandidate. destruct a; eexists; split; [done|lia|done|lia]. }
    destruct (maxCandidate a dm) as [k|] eqn:Ek.
    + destruct (Z.leb_spec k (default (-1) fl)) as [Hle|Hgt]; simpl; (split; [by eauto|]).
      all: intros r Hr; destruct (hit r) eqn:Eh;
        [right|left; by apply Hkeep].
      all: pose proof (Hhit r Hr Eh) as (m & Em & Hm); destruct (Hcand m Em) as (k' & [= <-] & Hk).
      all: unfold hit in Eh; rewrite !andb_true_iff, !bool_decide_eq_true in Eh; destruct Eh as [[-> ->] _].
      all: split_and!; [done..|]; intros H0.
      * unfold fl in *. destruct (getClientFloor d i c) as [f|] eqn:Ef; simpl in Hle; [|lia].
        exists f. split; [exact Ef|lia].
      * unfold getClientFloor. simpl. change (option_map _ (head _)) with
          (fl_get (upsert_floor now (client_floors d) i c k) i c).
        rewrite upsert_get, decide_True by done. eexists. split; [done|].
        destruct (fl_get _ _ _); lia.
    + simpl. split; [by left|]. intros r Hr. left. apply Hkeep; [done|].
      destruct (hit r) eqn:Eh; [|done]. destruct (Hhit r Hr Eh) as (m & Em & _).
      by destruct (Hcand m Em) as (? & ? & _).
  - destruct (maxCandidate a None) as [k|]; [destruct (k <=? _)|]; simpl; eauto.
Qed.

Lemma prune_covered now d i c a t : rows_covered d (pruneClientMutations now d i c a t).1.
Proof.
  intros r Hr. destruct (prune_shape now d i c a t) as [_ H]. destruct (H r Hr) as [H1|(-> & -> & H1)]; [left|by right].
  apply verdict_some. exists r. split; [done|apply cm_is_self].
Qed.

Lemma prune_floors now d i c a t : floor_mono d (pruneClientMutations now d i c a t).1.
Proof.
  intros i' c' f Hf. destruct (prune_shape now d i c a t) as [H _].
  change (getClientFloor ?x i' c') with (fl_get (client_floors x) i' c') in *.
  destruct H as [->|[th ->]]; [by exists f|by apply upsert_mono].
Qed.

(** ** The sweep *)
Definition batch_key (r : cmRow) : jsstr := cm_identity r ++ 0 :: cm_client r.

Lemma split_at_nul (i1 i2 c1 c2 : jsstr) : 0 ∉ i1 → 0 ∉ i2 → i1 ++ 0 :: c1 = i2 ++ 0 :: c2 → i1 = i2 ∧ c1 = c2.
Proof.
  revert i2. induction i1 as [|x i1 IH]; intros [|y i2] H1 H2; simpl; intros [= E].
  - done.
  - subst y. by destruct H2; left.
  - subst x. by destruct H1; left.
  - subst y. apply not_elem_of_cons in H1 as [_ H1], H2 as [_ H2]. rename select (i1 ++ _ = _) into Hi. destruct (IH i2 H1 H2 Hi) as [-> ->]. done.
Qed.

(** Every swept row's client is in the batch, with a sequence number at least the row's. *)
Lemma max_by_client_covers rows r : Forall (λ r, 0 ∉ cm_identity r) rows → r ∈ rows →
  ∃ m, jm_get (max_by_client rows) (batch_key r) = Some (cm_identity r, cm_client r, m) ∧ cm_seq r ≤ m.
Proof.
  unfold max_by_client. set (upd := λ m r, _). intros Hnf Hr.
  assert (Hgen : ∀ m0 (done : list cmRow), (∀ k i c m, jm_get m0 k = Some (i, c, m) → k = i ++ 0 :: c ∧ 0 ∉ i) → (∀ r, r ∈ done → 0 ∉ cm_identity r ∧
    ∃ m, jm_get m0 (batch_key r) = Some (cm_identity r, cm_client r, m) ∧ cm_seq r ≤ m) →
    r ∈ done ∨ r ∈ rows →
    ∃ m, jm_get (fold_left upd rows m0) (batch_key r) = Some (cm_identity r, cm_client r, m) ∧ cm_seq r ≤ m);
    [|apply (Hgen [] []); [done|by intros ? ?%elem_of_nil|by right]].
  clear Hr. induction Hnf as [|r0 rows H0 Hnf IH]; intros m0 dn Hkey Hdone Hr; simpl.
  - destruct Hr as [Hr|Hr%elem_of_nil]; [by apply Hdone|done].
  - apply (IH _ (r0 :: dn)); [| |rewrite elem_of_cons in Hr |- *; tauto]; clear IH Hr.
    { intros k i c m. unfold upd. destruct (jm_get m0 _) as [[[i' c'] mx]|]; [destruct (mx <? _)|];
        rewrite ?jm_get_set; try destruct (decide _) as [->|]; try apply Hkey; by intros [= <- <- <-]. }
    intros r1 Hr1. split; [apply elem_of_cons in Hr1 as [->|Hr1]; [done|by apply Hdone]|].
    assert (Hsame : r1 ∈ dn → batch_key r1 = batch_key r0 → cm_identity r1 = cm_identity r0 ∧ cm_client r1 = cm_client r0).
    { intros Hd. apply split_at_nul; [by apply Hdone|done]. }
    unfold upd. fold (batch_key r0). destruct (jm_get m0 (batch_key r0)) as [[[i c] mx]|] eqn:E0.
    + destruct (Z.ltb_spec mx (cm_seq r0)) as [Hlt|Hge].
      * rewrite jm_get_set. apply elem_of_cons in Hr1 as [->|Hd].
        -- rewrite decide_True by done. eexists. split; [done|lia].
        -- destruct (Hdone r1 Hd) as (_ & m & Em & Hm). destruct (decide _) as [Ek|]; [|eauto].
           destruct (Hsame Hd Ek) as [-> ->]. rewrite Ek, E0 in Em. injection Em as _ _ ->. eexists. split; [done|lia].
      * apply elem_of_cons in Hr1 as [->|Hd]; [|by apply Hdone].
        exists mx. split; [|lia]. destruct (Hkey _ _ _ _ E0) as [Ek Hi].
        apply split_at_nul in Ek as [-> ->]; done.
    + rewrite jm_get_set. apply elem_of_cons in Hr1 as [->|Hd].
      * rewrite decide_True by done. eexists. split; [done|lia].
      * destruct (Hdone r1 Hd) as (_ & m & Em & Hm). destruct (decide _) as [Ek|]; [congruence|eauto].
Qed.

Definition raise_all (now : Z) (l : list (jsstr * jsstr * Z)) (fl : list floorRow) : list floorRow :=
  fold_left (λ fl x, upsert_floor now fl x.1.1 x.1.2 x.2) l fl.

Lemma raise_all_mono now l fl i c f : fl_get fl i c = Some f →
  ∃ f', fl_get (raise_all now l fl) i c = Some f' ∧ f ≤ f'.
Proof.
  revert fl f. induction l as [|x l IH]; intros fl f Hf; simpl; [by exists f|].
  destruct (upsert_mono now fl x.1.1 x.1.2 x.2 i c f Hf) as (f1 & H1 & Hle1).
  destruct (IH _ _ H1) as (f2 & H2 & Hle2). exists f2. split; [done|lia].
Qed.

Lemma raise_all_covers now l fl i c m : (i, c, m) ∈ l → ∃ f, fl_get (raise_all now l fl) i c = Some f ∧ m ≤ f.
Proof.
  revert fl. induction l as [|x l IH]; intros fl Hin; [by apply elem_of_nil in Hin|]. simpl.
  apply elem_of_cons in Hin as [<-|Hin]; [|by apply IH]. simpl.
  pose proof (upsert_get now fl i c m i c) as Hu. rewrite decide_True in Hu by done.
  destruct (raise_all_mono now l _ _ _ _ Hu) as (f & Hf & Hle). exists f. split; [done|].
  destruct (fl_get fl i c); lia.
Qed.

Lemma sweep_floors now d b : floor_mono d (sweepExpiredClientMutations now d b).1.
Proof.
  unfold sweepExpiredClientMutations. cbv zeta. intros i c f Hf. destruct (List.filter _ _) as [|r rs]; [by exists f|].
  by apply raise_all_mono.
Qed.

Lemma sweep_covered now d b : nul_free d → rows_covered d (sweepExpiredClientMutations now d b).1.
Proof.
  unfold sweepExpiredClientMutations. cbv zeta. intros Hnf r Hr.
  set (rows := List.filter (λ r, cm_created r <? b) (client_mutations d)).
  assert (Hrows : Forall (λ r, 0 ∉ cm_identity r) rows).
  { apply Forall_forall. intros x Hx. unfold nul_free in Hnf. rewrite Forall_forall in Hnf. apply Hnf.
    apply list_elem_of_In in Hx. apply filter_In in Hx as [Hx _]. by apply list_elem_of_In. }
  destruct (cm_created r <? b) eqn:Eb.
  - right. intros _. assert (Hin : r ∈ rows) by (apply list_elem_of_In, filter_In; by rewrite <-list_elem_of_In).
    destruct (max_by_client_covers rows r Hrows Hin) as (m & Em & Hm).
    destruct rows as [|r0 rs] eqn:E; [by apply elem_of_nil in Hin|].
    destruct (raise_all_covers now (jm_values (max_by_client (r0 :: rs))) (client_floors d) (cm_identity r) (cm_client r) m)
      as (f & Hf & Hle).
    { apply jm_get_in in Em. unfold jm_values. by apply (list_elem_of_fmap_2 snd) in Em. }
    exists f. split; [exact Hf|lia].
  - left. apply verdict_some. exists r. split; [|apply cm_is_self]. destruct rows as [|r0 rs]; [done|].
    simpl. apply list_elem_of_In, filter_In. by rewrite <-list_elem_of_In, Eb.
Qed.

(** ** Sequences of operations *)
Lemma apply_nul_free d op : op_nul_free op → nul_free d → nul_free (apply_receipt d op).
Proof.
  unfold nul_free. rewrite !Forall_forall. intros Ho Hd r Hr.
  destruct op as [now i c s w|i c s v|now i c a t|now b]; simpl in *.
  - unfold recordClientVerdict in Hr. destruct (existsb _ _); [auto|].
    apply elem_of_app in Hr as [Hr|Hr%list_elem_of_singleton]; [auto|by subst r].
  - apply list_elem_of_In, in_map_iff in Hr as (r0 & <- & Hr0%list_elem_of_In). specialize (Hd r0 Hr0).
    by destruct (cm_is i c s r0).
  - apply Hd. revert Hr. unfold pruneClientMutations. cbv zeta. destruct (delete_clause a t).
    + destruct (maxCandidate _ _) as [k|]; [destruct (k <=? _)|]; simpl;
        intros Hr; apply list_elem_of_In, filter_In in Hr as [Hr _]; by apply list_elem_of_In.
    + by destruct (maxCandidate _ _) as [k|]; [destruct (k <=? _)|].
  - apply Hd. revert Hr. unfold sweepExpiredClientMutations. cbv zeta.
    destruct (List.filter (λ r, cm_created r <? b) _); [done|]. simpl.
    intros Hr. apply list_elem_of_In, filter_In in Hr as [Hr _]. by apply list_elem_of_In.
Qed.

Lemma apply_floor_mono d op : floor_mono d (apply_receipt d op).
Proof.
  destruct op as [now i c s w|i c s v|now i c a t|now b]; simpl; [| |apply prune_floors|apply sweep_floors].
  - intros i' c' f Hf. exists f. unfold recordClientVerdict. by destruct (existsb _ _).
  - intros i' c' f Hf. by exists f.
Qed.

Lemma apply_covered d op : nul_free d → rows_covered d (apply_receipt d op).
Proof.
  intros Hd. destruct op; simpl; [apply record_covered|apply update_covered|apply prune_covered|by apply sweep_covered].
Qed.

(** No receipt is ever forgotten. Whatever sequence of records, value updates, prunes and sweeps follows,
    a recorded sequence number stays accounted for: its receipt is still there or the client's floor
    covers it; and no operation ever lowers a floor. *)
Theorem receipts_never_forgotten ops d i c s : 0 ≤ s → nul_free d → Forall op_nul_free ops →
  (accounted d i c s → accounted (fold_left apply_receipt ops d) i c s) ∧
  (∀ f, getClientFloor d i c = Some f → ∃ f', getClientFloor (fold_left apply_receipt ops d) i c = Some f' ∧ f ≤ f').
Proof.
  intros Hs Hd Hops. revert d Hd. induction Hops as [|op ops Ho Hops IH]; intros d Hd; simpl; [split; eauto using Z.le_refl|].
  destruct (IH _ (apply_nul_free d op Ho Hd)) as [IH1 IH2]. split.
  - intros Ha. apply IH1. eapply accounted_preserved; [apply apply_floor_mono|by apply apply_covered|done|done].
  - intros f Hf. destruct (apply_floor_mono d op i c f Hf) as (f1 & H1 & Hle1). destruct (IH2 f1 H1) as (f2 & H2 & Hle2).
    exists f2. split; [done|lia].
Qed.

(** ** One receipt per sequence number *)
Definition cm_key (r : cmRow) : jsstr * jsstr * Z := (cm_identity r, cm_client r, cm_seq r).
Definition receipts_ok (d : db) : Prop := NoDup (cm_key <$> client_mutations d).

Lemma cm_is_key i c s r : cm_is i c s r = true ↔ cm_key r = (i, c, s).
Proof. rewrite cm_is_true. unfold cm_key. split; [by intros (-> & -> & ->)|by intros [= -> -> ->]]. Qed.

Lemma cm_key_inj d r r' : receipts_ok d → r ∈ client_mutations d → r' ∈ client_mutations d →
  cm_key r = cm_key r' → r = r'.
Proof.
  intros Hd [n Hn]%list_elem_of_lookup [n' Hn']%list_elem_of_lookup Hk. enough (n = n') by congruence.
  apply (NoDup_lookup _ _ _ (cm_key r) Hd); rewrite list_lookup_fmap; [by rewrite Hn|]. rewrite Hn'. simpl. by rewrite Hk.
Qed.

Lemma verdict_iff d i c s v : receipts_ok d → getClientVerdict d i c s = Some v ↔
  ∃ r, r ∈ client_mutations d ∧ cm_key r = (i, c, s) ∧ v = clientVerdictRecordFromRow r.
Proof.
  intros Hd. unfold getClientVerdict. destruct (List.filter (cm_is i c s) (client_mutations d)) as [|r l] eqn:E.
  - split; [done|]. intros (r & Hr & Hk%cm_is_key & _). assert (In r []) as []. rewrite <-E. apply filter_In.
    by rewrite <-list_elem_of_In.
  - assert (Hr : In r (r :: l)) by (by left). rewrite <-E in Hr. apply filter_In in Hr as [Hr%list_elem_of_In Hk%cm_is_key].
    simpl. split; [intros [= <-]; eauto|]. intros (r' & Hr' & Hk' & ->). do 2 f_equal.
    apply (cm_key_inj d); [done..|]. by rewrite Hk, Hk'.
Qed.

Lemma nodup_filter (p : cmRow → bool) l : NoDup (cm_key <$> l) → NoDup (cm_key <$> List.filter p l).
Proof.
  induction l as [|r l IH]; csimpl; [done|]. intros [Hr Hl]%NoDup_cons. destruct (p r); csimpl; [|auto].
  apply NoDup_cons. split; [|auto]. intros (x & Ex & Hx)%list_elem_of_fmap. apply Hr. rewrite Ex.
  apply list_elem_of_fmap_2. apply list_elem_of_In in Hx. apply filter_In in Hx as [Hx _]. by apply list_elem_of_In.
Qed.

(** The rows after an operation: a subset of the rows before, a rewrite of values, or one new key. *)
Lemma apply_rows d op :
  (∃ p, client_mutations (apply_receipt d op) = List.filter p (client_mutations d)) ∨
  (∃ i c s v, op = RUpdate i c s v) ∨
  (∃ now i c s w, op = RRecord now i c s w ∧ existsb (cm_is i c s) (client_mutations d) = false).
Proof.
  assert (Hall : List.filter (λ _, true) (client_mutations d) = client_mutations d).
  { generalize (client_mutations d). intros l. induction l as [|x l IH]; simpl; [done|by rewrite IH]. }
  destruct op as [now i c s w|i c s v|now i c a t|now b]; simpl.
  - destruct (existsb (cm_is i c s) (client_mutations d)) eqn:E; [left|right; right; naive_solver].
    unfold recordClientVerdict. rewrite E. eauto.
  - right. left. eauto.
  - left. unfold pruneClientMutations. cbv zeta. destruct (delete_clause a t).
    + destruct (maxCandidate _ _) as [k|]; [destruct (k <=? _)|]; simpl; eauto.
    + destruct (maxCandidate _ _) as [k|]; [destruct (k <=? _)|]; simpl; eauto.
  - left. unfold sweepExpiredClientMutations. cbv zeta.
    destruct (List.filter (λ r, cm_created r <? b) _); simpl; eauto.
Qed.

Lemma update_keys d i c s v :
  cm_key <$> client_mutations (updateClientVerdictValue jsonByteLength d i c s v) = cm_key <$> client_mutations d.
Proof.
  unfold updateClientVerdictValue. simpl. induction (client_mutations d) as [|r l IH]; csimpl; [done|].
  rewrite IH. f_equal. by destruct (cm_is i c s r).
Qed.

Lemma apply_ok d op : receipts_ok d → receipts_ok (apply_receipt d op).
Proof.
  intros Hd. destruct (apply_rows d op) as [[p Hp]|[(i & c & s & v & ->)|(now & i & c & s & w & -> & E)]];
    unfold receipts_ok.
  - rewrite Hp. by apply nodup_filter.
  - cbn [apply_receipt]. by rewrite update_keys.
  - simpl. unfold recordClientVerdict. rewrite E. simpl. rewrite fmap_app. apply NoDup_app. split; [done|]. split.
    + intros k (r & -> & Hr)%list_elem_of_fmap Hk. csimpl in Hk. apply list_elem_of_singleton in Hk.
      apply not_true_iff_false in E. apply E. apply existsb_exists. exists r. rewrite <-list_elem_of_In.
      split; [done|]. by apply cm_is_key.
    + csimpl. apply NoDup_singleton.
Qed.

(** What an operation leaves of a receipt it keeps: everything but the value. *)
Definition same_fate (v v' : ClientVerdictRecord) : Prop :=
  cv_verdict v' = cv_verdict v ∧ cv_commitTs v' = cv_commitTs v ∧ cv_errorCode v' = cv_errorCode v ∧
  cv_createdAt v' = cv_createdAt v.

Lemma apply_fate d op i c s v v' : receipts_ok d → getClientVerdict d i c s = Some v →
  getClientVerdict (apply_receipt d op) i c s = Some v' → same_fate v v' ∧ ((∀ w, op ≠ RUpdate i c s w) → v' = v).
Proof.
  intros Hd. pose proof (apply_ok d op Hd) as Hd'.
  intros (r & Hr & Hk & ->)%verdict_iff (r' & Hr' & Hk' & ->)%verdict_iff; [|done..].
  assert (Hsame : r' ∈ client_mutations d → r' = r).
  { intros Hin. apply (cm_key_inj d); [done..|]. by rewrite Hk, Hk'. }
  destruct (apply_rows d op) as [[p Hp]|[(i0 & c0 & s0 & v0 & ->)|(now & i0 & c0 & s0 & w & -> & E)]].
  - rewrite Hp in Hr'. apply list_elem_of_In, filter_In in Hr' as [Hr'%list_elem_of_In _]. by rewrite (Hsame Hr').
  - simpl in Hr'. apply list_elem_of_In, in_map_iff in Hr' as (r0 & <- & Hr0%list_elem_of_In).
    destruct (cm_is i0 c0 s0 r0) eqn:E0; [|by rewrite (Hsame Hr0)].
    assert (r0 = r) as ->.
    { apply (cm_key_inj d); [done..|]. rewrite Hk. exact Hk'. }
    split; [done|]. intros Hno. exfalso. apply cm_is_key in E0. rewrite Hk in E0. injection E0 as -> -> ->.
    by eapply Hno.
  - simpl in Hr'. unfold recordClientVerdict in Hr'. rewrite E in Hr'.
    apply elem_of_app in Hr' as [Hr'|Hr'%list_elem_of_singleton]; [by rewrite (Hsame Hr')|].
    exfalso. apply not_true_iff_false in E. apply E. apply existsb_exists. exists r. rewrite <-list_elem_of_In.
    split; [done|]. apply cm_is_key. rewrite Hk, <-Hk', Hr'. done.
Qed.

(** A receipt is written once. A verdict recorded for a fresh sequence number reads back as recorded, the
    primary key stays unique, and any operation that keeps an existing receipt keeps its verdict, commit
    timestamp, error code and creation time; only the value update may change the stored value. *)
Theorem receipt_immutable d op i c s v : receipts_ok d →
  receipts_ok (apply_receipt d op) ∧
  (getClientVerdict d i c s = Some v → ∀ v', getClientVerdict (apply_receipt d op) i c s = Some v' →
     cv_verdict v' = cv_verdict v ∧ cv_commitTs v' = cv_commitTs v ∧ cv_errorCode v' = cv_errorCode v ∧
     cv_createdAt v' = cv_createdAt v ∧ ((∀ w, op ≠ RUpdate i c s w) → v' = v)) ∧
  (getClientVerdict d i c s = None → ∀ now w, op = RRecord now i c s w →
     getClientVerdict (apply_receipt d op) i c s =
       Some {| cv_verdict := cw_verdict w; cv_commitTs := cw_commitTs w;
               cv_hasValue := bool_decide (is_Some (cappedValueJson jsonByteLength (cw_value w)));
               cv_value := default JNull (cappedValueJson jsonByteLength (cw_value w));
               cv_errorCode := match cw_verdict w with Failed => Some (cw_errorCode w) | Applied => None end;
               cv_createdAt := now |}).
Proof.
  intros Hd. pose proof (apply_ok d op Hd) as Hd'. split; [done|]. split.
  - intros Hv v' Hv'. destruct (apply_fate d op i c s v v' Hd Hv Hv') as [(H1 & H2 & H3 & H4) H5]. by split_and!.
  - intros Hn now w ->. simpl. apply verdict_iff; [exact Hd'|].
    unfold recordClientVerdict. destruct (existsb (cm_is i c s) (client_mutations d)) eqn:E.
    + exfalso. apply existsb_exists in E as (r & Hr%list_elem_of_In & Hk%cm_is_key).
      assert (getClientVerdict d i c s = Some (clientVerdictRecordFromRow r)); [|congruence].
      apply verdict_iff; eauto.
    + eexists. simpl. rewrite elem_of_app, list_elem_of_singleton. split; [by right|]. done.
Qed.
End receipts.

(** ** Concrete runs *)
Section examples.
Let row (i c : jsstr) (s t : Z) : cmRow :=
  {| cm_identity := i; cm_client := c; cm_seq := s; cm_verdict := Applied; cm_commit_ts := 7; cm_value := None;
     cm_error := None; cm_created := t |}.
Let d0 : db := with_receipts empty_db [row (js "u") (js "c") 4 10; row (js "u") (js "c") 5 20] [].

Lemma receipts_never_forgotten_witness :
  accounted (fold_left (apply_receipt (λ _, 0)) [RSweep 30 15; RPrune 31 (js "u") (js "c") (Some 5) None] d0)
    (js "u") (js "c") 4.
Proof.
  apply (receipts_never_forgotten (λ _, 0)); [lia| |by repeat constructor|].
  - repeat constructor; simpl; intros H; rewrite !elem_of_cons, elem_of_nil in H; intuition discriminate.
  - left. vm_compute. by eexists.
Defined.

Lemma receipt_immutable_witness : ∃ v', getClientVerdict
    (apply_receipt (λ _, 0) d0 (RUpdate (js "u") (js "c") 4 JNull)) (js "u") (js "c") 4 = Some v' ∧
  cv_verdict v' = Applied ∧ cv_commitTs v' = 7.
Proof.
  destruct (getClientVerdict _ _ _ _) as [v'|] eqn:Hv'; [|vm_compute in Hv'; discriminate].
  exists v'. split; [done|].
  destruct (receipt_immutable (λ _, 0) d0 (RUpdate (js "u") (js "c") 4 JNull) (js "u") (js "c") 4
    (clientVerdictRecordFromRow (row (js "u") (js "c") 4 10))) as (_ & H & _).
  - unfold receipts_ok. apply (bool_decide_unpack _). by vm_compute.
  - destruct (H eq_refl v' Hv') as (-> & -> & _). done.
Defined.

(** Without the NUL-free condition the sweep can forget a receipt: two clients whose
    identity/client pairs join to the same batch key share one floor update. *)
Theorem sweep_key_collision :
  let d := with_receipts empty_db [row [97; 0; 98] [99] 5 10; row [97] [98; 0; 99] 3 10] [] in
  accounted d [97] [98; 0; 99] 3 ∧
  ~ accounted (sweepExpiredClientMutations 30 d 20).1 [97] [98; 0; 99] 3.
Proof.
  cbv zeta. split; [left; vm_compute; by eexists|].
  intros [[v Hv]|(f & Hf & _)]; vm_compute in *; discriminate.
Qed.
End examples.
