(* ===== verification/MvccStore.v ===== *)
(** The storage seam between the store and the transactor: the part of the [DocStore] contract
    ([packages/docstore/src/types.ts]) the transactor relies on, as a class of operations and a class
    of laws, and the proof that the SQLite store satisfies it under any chain of commit guards that
    leaves the log and index tables alone. *)
From S2P Require Import Prelude Numbers Values Json IndexKeys Ranges IdCodec DocStore.

Class MvccStore (S : Type) := {
  ms_ok : S → Prop;
  ms_max : S → Z;
  ms_get : S → InternalDocumentId → option Z → res (option LatestDocument);
  ms_scan : S → jsstr → Z → Interval → Order → option Z → res (list (bytes * LatestDocument));
  ms_commit : S → list CommitUnit → option jsstr → res (S * list Z);
  ms_closed : S → CommitUnit → Prop }.

Class MvccStoreLaws (S : Type) `{!MvccStore S} := {
  (** a successful batch lands every unit at the next timestamps, one each *)
  ms_commit_ok (s : S) units sh s' tss :
    ms_ok s → Forall (λ u, unit_okb u = true) units → ms_commit s units sh = Ok (s', tss) →
    ms_ok s' ∧ Forall unit_ids_distinct units ∧ tss = seqZ (ms_max s + 1) (Z.of_nat (length units)) ∧
    ms_max s' = ms_max s + Z.of_nat (length units);
  (** reads at or below the old maximum are stable *)
  ms_get_old (s : S) units sh s' tss id t :
    ms_ok s → Forall (λ u, unit_okb u = true) units → ms_commit s units sh = Ok (s', tss) → t ≤ ms_max s →
    ms_get s' id (Some t) = ms_get s id (Some t);
  ms_scan_old (s : S) units sh s' tss ix t iv o limit :
    ms_ok s → Forall (λ u, unit_okb u = true) units → ms_commit s units sh = Ok (s', tss) → t ≤ ms_max s →
    ms_scan s' ix t iv o limit = ms_scan s ix t iv o limit;
  (** a written document reads back at its unit's timestamp, every other one is as before *)
  ms_get_new (s : S) units sh s' tss i u e :
    ms_ok s → Forall (λ u, unit_okb u = true) units → ms_commit s units sh = Ok (s', tss) →
    units !! i = Some u → e ∈ cu_documents u →
    ms_get s' (le_id e) (Some (ms_max s + 1 + Z.of_nat i)) = Ok (latest_of e (ms_max s + 1 + Z.of_nat i));
  ms_get_frame (s : S) units sh s' tss i u id :
    ms_ok s → Forall (λ u, unit_okb u = true) units → ms_commit s units sh = Ok (s', tss) →
    units !! i = Some u → id ∉ (le_id <$> cu_documents u) →
    ms_get s' id (Some (ms_max s + 1 + Z.of_nat i)) = ms_get s' id (Some (ms_max s + Z.of_nat i));
  (** a scan of keys a unit leaves alone is as before it *)
  ms_scan_frame (s : S) units sh s' tss i u ix iv o limit :
    ms_ok s → Forall (λ u, unit_okb u = true) units → ms_commit s units sh = Ok (s', tss) →
    units !! i = Some u → ms_closed s u → (∀ j u0, (j < i)%nat → units !! j = Some u0 → unit_apart u0 u) →
    (∀ w, w ∈ cu_indexUpdates u → iu_indexId (iw_update w) = ix → in_interval (iu_key (iw_update w)) iv = false) →
    ms_scan s' ix (ms_max s + 1 + Z.of_nat i) iv o limit = ms_scan s' ix (ms_max s + Z.of_nat i) iv o limit;
  (** units that keep apart from [u] leave it closed *)
  ms_closed_frame (s : S) units sh s' tss u :
    ms_ok s → Forall (λ u, unit_okb u = true) units → ms_commit s units sh = Ok (s', tss) →
    unit_okb u = true → ms_closed s u → Forall (λ u0, unit_apart u0 u) units → ms_closed s' u;
  (** an unbounded read is a read at the maximum *)
  ms_get_latest (s : S) id t : ms_max s ≤ t → ms_get s id (Some t) = ms_get s id None }.

Section sqlite.
Context (guards : list Guard).

(** A guard reads and writes its own tables, never the log or the indexes. *)
Definition guard_frame (g : Guard) : Prop :=
  ∀ d gus shard d', g d gus shard = Ok d' → documents d' = documents d ∧ indexes d' = indexes d.

Definition same_log (d d' : db) : Prop := documents d' = documents d ∧ indexes d' = indexes d.

#[global] Instance sqlite_store : MvccStore db := {|
  ms_ok := db_ok; ms_max := maxTimestamp; ms_get := get; ms_scan := index_scan;
  ms_commit := commitWriteBatch guards; ms_closed := index_closed |}.

Lemma same_log_max d d' : same_log d d' → maxTimestamp d' = maxTimestamp d.
Proof. intros [H _]. unfold maxTimestamp. by rewrite H. Qed.

Lemma same_log_get d d' id t : same_log d d' → get d' id t = get d id t.
Proof. intros [H _]. unfold get, revisions. by rewrite H. Qed.

Lemma same_log_scan d d' ix t iv o limit : same_log d d' →
  index_scan d' ix t iv o limit = index_scan d ix t iv o limit.
Proof.
  intros Hs. pose proof Hs as [_ H]. unfold index_scan.
  assert (scan_rows d' ix t iv o = scan_rows d ix t iv o) as ->.
  { unfold scan_rows, idx_max_ts. by rewrite H. }
  apply scan_loop_ext. intros r _. unfold resolve_row.
  destruct (i_deleted r), (i_internal r), (i_table r); try done.
  destruct (decodeStorageTableId _); [|done]. cbn [res_bind]. by rewrite (same_log_get d d').
Qed.

Lemma same_log_ok d d' : same_log d d' → db_ok d → db_ok d'.
Proof.
  intros Hs [H1 H2 H3 H4 H5 H6]. pose proof (same_log_max _ _ Hs) as Hm. destruct Hs as [E1 E2].
  split; rewrite ?E1, ?E2, ?Hm; done.
Qed.

Lemma run_guards_frame gs d gus shard d' : Forall guard_frame gs →
  run_guards gs d gus shard = Ok d' → same_log d d'.
Proof.
  unfold run_guards. intros Hgs. revert d. induction Hgs as [|g gs Hg _ IH]; intros d; simpl.
  - by intros [= <-].
  - destruct (g d gus shard) as [d1|e] eqn:E; intros H.
    + apply IH in H as [E3 E4]. destruct (Hg _ _ _ _ E) as [E1 E2]. split; congruence.
    + exfalso. clear -H. induction gs; simpl in H; [done|auto].
Qed.

Context (Hguards : Forall guard_frame guards).

Lemma commitWriteBatch_spec d units sh d' tss : db_ok d → Forall (λ u, unit_okb u = true) units →
  commitWriteBatch guards d units sh = Ok (d', tss) →
  same_log (commit_all d units (default DEFAULT_SHARD sh)) d' ∧ Forall unit_ids_distinct units ∧
  tss = seqZ (maxTimestamp d + 1) (Z.of_nat (length units)).
Proof.
  intros Hd Hu. unfold commitWriteBatch. rewrite commit_units_spec by done.
  case_decide as Hn; [|done]. cbn [res_bind]. destruct (Nat.ltb 0 (length units)).
  - destruct (run_guards _ _ _ _) as [d2|e] eqn:E; [|done]. cbn [res_bind]. intros [= <- <-].
    split_and!; [by eapply run_guards_frame|done|done].
  - intros [= <- <-]. by split_and!.
Qed.

Lemma commit_all_old d units shard : db_ok d → Forall (λ u, unit_okb u = true) units →
  Forall unit_ids_distinct units → ∀ t, t ≤ maxTimestamp d →
  (∀ id, get (commit_all d units shard) id (Some t) = get d id (Some t)) ∧
  (∀ ix iv o limit, index_scan (commit_all d units shard) ix t iv o limit = index_scan d ix t iv o limit).
Proof.
  intros Hd Hu Hn. revert d Hd. induction Hu as [|u units Hu _ IH]; intros d Hd t Ht; [done|].
  apply Forall_cons in Hn as [Hn Hns]. destruct (commit_unit_step d u shard Hd Hu Hn) as [Hd' Hm].
  destruct (IH Hns _ Hd' t ltac:(lia)) as [H1 H2].
  change (commit_all d (u :: units) shard) with (commit_all (commit_unit d u shard) units shard). split.
  - intros id. by rewrite H1, get_commit_old.
  - intros. by rewrite H2, index_scan_commit_old.
Qed.

(** Reads at unit [i]'s timestamp are reads of the state just after unit [i]. *)
Lemma commit_all_at d units shard i u : db_ok d → Forall (λ u, unit_okb u = true) units →
  Forall unit_ids_distinct units → units !! i = Some u →
  ∃ d0, d0 = commit_all d (take i units) shard ∧ db_ok d0 ∧ maxTimestamp d0 = maxTimestamp d + Z.of_nat i ∧
  unit_okb u = true ∧ unit_ids_distinct u ∧
  ∀ t, t ≤ maxTimestamp d + 1 + Z.of_nat i →
    (∀ id, get (commit_all d units shard) id (Some t) = get (commit_unit d0 u shard) id (Some t)) ∧
    (∀ ix iv o limit, index_scan (commit_all d units shard) ix t iv o limit =
       index_scan (commit_unit d0 u shard) ix t iv o limit).
Proof.
  intros Hd Hu Hn Hi. pose proof Hi as Hlt%lookup_lt_Some. exists (commit_all d (take i units) shard). split; [done|].
  rewrite <-(take_drop_middle units i u Hi) in Hu, Hn.
  apply Forall_app in Hu as [Hu1 [Hu2 Hu3]%Forall_cons], Hn as [Hn1 [Hn2 Hn3]%Forall_cons].
  destruct (commit_all_ok d (take i units) shard Hd Hu1 Hn1) as [Hd0 Hm0].
  rewrite length_take_le in Hm0 by lia. split_and!; try done. intros t Ht.
  set (d0 := commit_all d (take i units) shard) in *.
  assert (commit_all d units shard = commit_all (commit_unit d0 u shard) (drop (Datatypes.S i) units) shard) as ->.
  { rewrite <-(take_drop_middle units i u Hi) at 1. unfold commit_all. by rewrite fold_left_app. }
  destruct (commit_unit_step d0 u shard Hd0 Hu2 Hn2) as [Hd1 Hm1].
  apply (commit_all_old _ _ shard Hd1 Hu3 Hn3). lia.
Qed.

Lemma commit_all_closed d units shard u : unit_okb u = true → Forall (λ u, unit_okb u = true) units →
  Forall (λ u0, unit_apart u0 u) units → index_closed d u → index_closed (commit_all d units shard) u.
Proof.
  intros Hu Hus Hap. revert d. induction Hap as [|u0 units Hap _ IH]; intros d Hc; [done|].
  apply Forall_cons in Hus as [H0 Hus]. apply (IH Hus). by apply index_closed_commit.
Qed.

Lemma same_log_closed d d' u : same_log d d' → index_closed d u → index_closed d' u.
Proof.
  intros [_ E] Hc e r He (Hr & Hdel & Hmax). apply (Hc e r He). unfold live_row, idx_max_ts in *. by rewrite E in *.
Qed.

#[global] Instance sqlite_laws : MvccStoreLaws db.
Proof.
  split; simpl.
  - intros s units sh s' tss Hs Hu E. destruct (commitWriteBatch_spec s units sh s' tss Hs Hu E) as (Hl & Hn & ->).
    destruct (commit_all_ok s units (default DEFAULT_SHARD sh) Hs Hu Hn) as [Hok Hm].
    split_and!; try done; [by eapply same_log_ok|]. by rewrite (same_log_max _ _ Hl).
  - intros s units sh s' tss id t Hs Hu E Ht. destruct (commitWriteBatch_spec s units sh s' tss Hs Hu E) as (Hl & Hn & _).
    rewrite (same_log_get _ _ _ _ Hl). by apply commit_all_old.
  - intros s units sh s' tss ix t iv o limit Hs Hu E Ht.
    destruct (commitWriteBatch_spec s units sh s' tss Hs Hu E) as (Hl & Hn & _).
    rewrite (same_log_scan _ _ _ _ _ _ _ Hl). by apply commit_all_old.
  - intros s units sh s' tss i u e Hs Hu E Hi He.
    destruct (commitWriteBatch_spec s units sh s' tss Hs Hu E) as (Hl & Hn & _).
    destruct (commit_all_at s units (default DEFAULT_SHARD sh) i u Hs Hu Hn Hi) as (d0 & _ & Hd0 & Hm & Hu0 & Hn0 & Hat).
    rewrite (same_log_get _ _ _ _ Hl). rewrite (proj1 (Hat (maxTimestamp s + 1 + Z.of_nat i) ltac:(lia))).
    replace (maxTimestamp s + 1 + Z.of_nat i) with (maxTimestamp d0 + 1) by lia.
    apply get_commit_new; try done. apply Z.leb_refl.
  - intros s units sh s' tss i u id Hs Hu E Hi Hni.
    destruct (commitWriteBatch_spec s units sh s' tss Hs Hu E) as (Hl & Hn & _).
    destruct (commit_all_at s units (default DEFAULT_SHARD sh) i u Hs Hu Hn Hi) as (d0 & _ & Hd0 & Hm & Hu0 & Hn0 & Hat).
    rewrite !(same_log_get _ _ _ _ Hl). rewrite (proj1 (Hat (maxTimestamp s + 1 + Z.of_nat i) ltac:(lia))).
    rewrite (proj1 (Hat (maxTimestamp s + Z.of_nat i) ltac:(lia))), !get_commit_other by done.
    by rewrite !get_latest by lia.
  - intros s units sh s' tss i u ix iv o limit Hs Hu E Hi Hc Hap H.
    destruct (commitWriteBatch_spec s units sh s' tss Hs Hu E) as (Hl & Hn & _).
    destruct (commit_all_at s units (default DEFAULT_SHARD sh) i u Hs Hu Hn Hi) as (d0 & Ed0 & Hd0 & Hm & Hu0 & Hn0 & Hat).
    rewrite !(same_log_scan _ _ _ _ _ _ _ Hl). rewrite (proj2 (Hat (maxTimestamp s + 1 + Z.of_nat i) ltac:(lia))).
    rewrite (proj2 (Hat (maxTimestamp s + Z.of_nat i) ltac:(lia))).
    replace (maxTimestamp s + 1 + Z.of_nat i) with (maxTimestamp d0 + 1) by lia. rewrite <-Hm.
    rewrite index_scan_frame, index_scan_commit_old; try done. rewrite Ed0.
    apply commit_all_closed; [done|by apply Forall_take| |done].
    apply Forall_lookup. intros j u1 [Hj Hlt]%lookup_take_Some. by apply (Hap j).
  - intros s units sh s' tss u Hs Hus E Hu Hc Hap.
    destruct (commitWriteBatch_spec s units sh s' tss Hs Hus E) as (Hl & _).
    eapply same_log_closed; [exact Hl|]. by apply commit_all_closed.
  - intros s id t Ht. by apply get_latest.
Qed.
End sqlite.
