(* ===== verification/ExactlyOnce.v ===== *)
(** Receipted mutations on the server: [packages/runtime-embedded/src/client-dedup.ts] and the
    [runMutation] of [runtime.ts] that uses it. A mutation sent with a durable key
    [(identity, clientId, seq)] is classified against the receipts, run, and its receipt is inserted by a commit
    guard inside its own commit. Any number of attempts with the same or different keys interleave at
    their awaits, with the maintenance of the receipts and with commits that carry no key.
    The node is the writer of its shard: writes are not forwarded. *)
From S2P Require Import Prelude Numbers Values Json IndexKeys Ranges IdCodec DocStore Receipts MvccStore.

(** ** The key and its commit metadata *)
Record DedupKey := { dk_identity : jsstr; dk_clientId : jsstr; dk_seq : Z }.
#[global] Instance DedupKey_eq_dec : EqDecision DedupKey.
Proof. solve_decision. Defined.

Definition DEDUP_META_CLIENT_ID : jsstr := js "clientId".
Definition DEDUP_META_SEQ : jsstr := js "seq".
Definition DEDUP_META_IDENTITY : jsstr := js "identity".

Definition identityKey (identity : option jsstr) : jsstr := default [] identity.

Definition dedupCommitMeta (k : DedupKey) (base : Meta) : Meta :=
  Some (jm_set (jm_set (jm_set (default [] base) DEDUP_META_IDENTITY (dk_identity k))
    DEDUP_META_CLIENT_ID (dk_clientId k)) DEDUP_META_SEQ (string_of_int (dk_seq k))).

(** [Number] of the text [dedupCommitMeta] writes; a text that is not a number makes SQLite refuse the row. *)
Definition readUnitDedup (u : CommitGuardUnit) : option (jsstr * jsstr * option Z) :=
  match gu_meta u with
  | None => None
  | Some meta =>
      match jm_get meta DEDUP_META_CLIENT_ID, jm_get meta DEDUP_META_SEQ with
      | Some clientId, Some seqStr => Some (default [] (jm_get meta DEDUP_META_IDENTITY), clientId, parseInt10 seqStr)
      | _, _ => None
      end
  end.

(** ** The commit guard *)
Definition applied_row (i c : jsstr) (s ts now : Z) : cmRow :=
  {| cm_identity := i; cm_client := c; cm_seq := s; cm_verdict := Applied; cm_commit_ts := ts; cm_value := None;
     cm_error := None; cm_created := now |}.

(** The plain INSERT: a primary key collision is the dedup signal. [clock n] is [Date.now()] at unit [n]. *)
Fixpoint receipts_loop (clock : nat → Z) (n : nat) (d : db) (units : list CommitGuardUnit) : res db :=
  match units with
  | [] => Ok d
  | u :: units =>
      match readUnitDedup u with
      | None => receipts_loop clock (S n) d units
      | Some (_, _, None) => Err SqliteConstraint
      | Some (i, c, Some s) =>
          if existsb (cm_is i c s) (client_mutations d) then Err (CommitGuardRejection (Z.of_nat n) "CLIENT_MUTATION_DUP")
          else receipts_loop clock (S n)
            (with_receipts d (client_mutations d ++ [applied_row i c s (gu_ts u) (clock n)]) (client_floors d)) units
      end
  end.
Definition clientReceiptsGuard (clock : nat → Z) : Guard := λ d units _, receipts_loop clock 0 d units.

(** ** Classification *)
Inductive ReplayVerdict := RvApplied | RvFailed | RvStale.
Record ClientReplay := {
  rp_verdict : ReplayVerdict; rp_commitTs : option Z; rp_value : option json; rp_valueMissing : bool; rp_code : option jsstr }.

Definition MUTATION_FAILED : jsstr := js "MUTATION_FAILED".
Definition replayFromRecord (rec : ClientVerdictRecord) : ClientReplay :=
  match cv_verdict rec with
  | Applied => {| rp_verdict := RvApplied; rp_commitTs := Some (cv_commitTs rec);
      rp_value := if cv_hasValue rec then Some (cv_value rec) else None; rp_valueMissing := negb (cv_hasValue rec); rp_code := None |}
  | Failed => {| rp_verdict := RvFailed; rp_commitTs := Some (cv_commitTs rec); rp_value := None; rp_valueMissing := false;
      rp_code := Some (default MUTATION_FAILED (cv_errorCode rec)) |}
  end.
Definition stale : ClientReplay :=
  {| rp_verdict := RvStale; rp_commitTs := None; rp_value := None; rp_valueMissing := false; rp_code := Some (js "STALE_CLIENT") |}.

Definition verdict_of (d : db) (k : DedupKey) : option ClientVerdictRecord := getClientVerdict d (dk_identity k) (dk_clientId k) (dk_seq k).
Definition below_floor (d : db) (k : DedupKey) : bool :=
  match getClientFloor d (dk_identity k) (dk_clientId k) with Some floor => dk_seq k <=? floor | None => false end.

(** The two reads of [classifyDedup], with nothing between them. *)
Definition classifyDedup (d : db) (k : DedupKey) : option ClientReplay :=
  match verdict_of d k with
  | Some rec => Some (replayFromRecord rec)
  | None => if below_floor d k then Some stale else None
  end.

(** [None] is the verdict "unknown". *)
Definition classifyForConnect (d : db) (identity : option jsstr) (clientId : jsstr) (seq : Z) : option ClientReplay :=
  classifyDedup d {| dk_identity := identityKey identity; dk_clientId := clientId; dk_seq := seq |}.

Record MutationReplay := {
  mr_verdict : ReplayVerdict; mr_commitTs : option Z; mr_value : option value; mr_valueMissing : bool; mr_code : option jsstr }.
Definition replayToRunResult (r : ClientReplay) : res MutationReplay :=
  let! v := match rp_value r with Some j => let! v := jsonToConvex j in Ok (Some v) | None => Ok None end in
  Ok {| mr_verdict := rp_verdict r; mr_commitTs := rp_commitTs r; mr_value := v; mr_valueMissing := rp_valueMissing r; mr_code := rp_code r |}.

(** ** Errors: what [handleDedupError] distinguishes of a thrown value *)
Inductive thrown :=
  | HelipodErr (code : jsstr) (retryable : bool)
  | GuardRejection (rejectionCode : jsstr)
  | OtherErr (message : jsstr).
Definition isRetryableError (e : thrown) : bool :=
  match e with HelipodErr _ r => r | GuardRejection _ => true | OtherErr _ => false end.
Definition error_code (e : thrown) : jsstr :=
  match e with HelipodErr c _ => c | GuardRejection _ => js "COMMIT_GUARD_REJECTION" | OtherErr _ => MUTATION_FAILED end.
Definition CLIENT_MUTATION_DUP : jsstr := js "CLIENT_MUTATION_DUP".

(** What the caller of [runMutation] gets. *)
Inductive answer :=
  | Replayed (r : res MutationReplay)
  | Fresh (v : value) (commitTs : Z)
  | Thrown (e : thrown).

(** ** Attempts
    One call of [runMutation] with a key; a phase is the point it is suspended at. *)
Inductive attempt_phase :=
  | PVerdict                                  (** about to read its receipt *)
  | PFloor                                    (** no receipt seen; about to read the floor *)
  | PRun                                      (** the executor runs the handler and its commit *)
  | PCaught (e : thrown)                      (** the run threw *)
  | PZero (v : value) (commitTs : Z)          (** succeeded without writing documents *)
  | PFill (v : value) (commitTs : Z)          (** committed; about to store the value *)
  | PDone (a : answer).
Record attempt := { at_key : DedupKey; at_phase : attempt_phase }.

(** [s_landed] lists the commits made under a key, with their timestamps, and [s_globals] the keys
    whose batch of global writes was applied; both only record what happened. *)
Record sys := { s_db : db; s_attempts : list attempt; s_landed : list (DedupKey * Z); s_globals : list DedupKey }.
Definition new_sys (d : db) : sys := {| s_db := d; s_attempts := []; s_landed := []; s_globals := [] |}.

(** What a handler that wrote returns: a value, or [CommitThenThrow]. *)
Inductive ran := RReturn (v : value) | RThrow (message : jsstr).
(** A unit of a commit: an attempt's writes, or those of a call without a key. *)
Record staged := {
  st_docs : list DocumentLogEntry; st_idx : list IndexWrite; st_by : option (nat * ran); st_meta : Meta }.

Inductive eevent :=
  | EArrive (k : DedupKey)
  | EVerdict (i : nat)
  | EFloor (i : nat)
  | ECommit (clock : nat → Z) (units : list staged) (shard : option jsstr)
  | EZero (i : nat) (r : ran) (commitTs : Z) (globalWrites : bool)
  | EFail (i : nat) (e : thrown)
  | ECatch (i : nat) (now : Z)
  | ERecord (i : nat) (now : Z)
  | EFill (i : nat) (ok : bool)
  | EPrune (now : Z) (identity client : jsstr) (ackedThrough ttlBeforeMs : option Z)
  | ESweep (now beforeMs : Z).

Section exactly_once.
Variable jsonByteLength : json → Z.
(** The guards registered after the receipts guard (a fleet's epoch fence). *)
Variable fence : list Guard.

Definition with_phase (σ : sys) (i : nat) (p : attempt_phase) : sys :=
  {| s_db := s_db σ; s_landed := s_landed σ; s_globals := s_globals σ;
     s_attempts := alter (λ a, {| at_key := at_key a; at_phase := p |}) i (s_attempts σ) |}.
Definition with_db (σ : sys) (d : db) : sys :=
  {| s_db := d; s_attempts := s_attempts σ; s_landed := s_landed σ; s_globals := s_globals σ |}.
Definition with_landed (σ : sys) (l : list (DedupKey * Z)) : sys :=
  {| s_db := s_db σ; s_attempts := s_attempts σ; s_landed := s_landed σ ++ l; s_globals := s_globals σ |}.
Definition with_global (σ : sys) (k : DedupKey) : sys :=
  {| s_db := s_db σ; s_attempts := s_attempts σ; s_landed := s_landed σ; s_globals := s_globals σ ++ [k] |}.

Definition running (σ : sys) (i : nat) : option DedupKey :=
  match s_attempts σ !! i with
  | Some a => match at_phase a with PRun => Some (at_key a) | _ => None end
  | None => None
  end.
Definition plain_meta (m : Meta) : bool :=
  match readUnitDedup {| gu_ts := 0; gu_meta := m |} with None => true | Some _ => false end.
Definition unit_of (σ : sys) (s : staged) : option CommitUnit :=
  match st_docs s, st_by s with
  | [], _ => None
  | _, Some (i, _) => k ← running σ i; Some {| cu_documents := st_docs s; cu_indexUpdates := st_idx s; cu_meta := dedupCommitMeta k None |}
  | _, None => if plain_meta (st_meta s) then Some {| cu_documents := st_docs s; cu_indexUpdates := st_idx s; cu_meta := st_meta s |} else None
  end.
Definition authors (sts : list staged) : list nat := omap (λ s, fst <$> st_by s) sts.

Definition after_commit (σ : sys) (p : staged * Z) : sys :=
  match st_by p.1 with
  | Some (i, RReturn v) => with_phase σ i (PFill v p.2)
  | Some (i, RThrow m) => with_phase σ i (PCaught (OtherErr m))
  | None => σ
  end.
Definition landed_by (σ : sys) (p : staged * Z) : option (DedupKey * Z) :=
  '(i, _) ← st_by p.1; k ← running σ i; Some (k, p.2).

Definition handleDedupError (d : db) (k : DedupKey) (e : thrown) (now : Z) : db * option ClientReplay :=
  match e with
  | GuardRejection c =>
      if bool_decide (c = CLIENT_MUTATION_DUP) then (d, replayFromRecord <$> verdict_of d k) else (d, None)
  | _ =>
      if isRetryableError e then (d, None)
      else (recordClientVerdict jsonByteLength now d (dk_identity k) (dk_clientId k) (dk_seq k)
              {| cw_verdict := Failed; cw_commitTs := 0; cw_errorCode := error_code e; cw_value := None |}, None)
  end.
Definition recordZeroWriteApplied (d : db) (k : DedupKey) (commitTs : Z) (v : value) (now : Z) : db :=
  recordClientVerdict jsonByteLength now d (dk_identity k) (dk_clientId k) (dk_seq k)
    {| cw_verdict := Applied; cw_commitTs := commitTs; cw_errorCode := []; cw_value := Some (convexToJson v) |}.
Definition fillWriteMutationValue (d : db) (k : DedupKey) (v : value) : db :=
  updateClientVerdictValue jsonByteLength d (dk_identity k) (dk_clientId k) (dk_seq k) (convexToJson v).

Definition estep (σ : sys) (ev : eevent) : sys :=
  match ev with
  | EArrive k => {| s_db := s_db σ; s_attempts := s_attempts σ ++ [{| at_key := k; at_phase := PVerdict |}];
                    s_landed := s_landed σ; s_globals := s_globals σ |}
  | EVerdict i =>
      match s_attempts σ !! i with
      | Some {| at_key := k; at_phase := PVerdict |} =>
          match verdict_of (s_db σ) k with
          | Some rec => with_phase σ i (PDone (Replayed (replayToRunResult (replayFromRecord rec))))
          | None => with_phase σ i PFloor
          end
      | _ => σ
      end
  | EFloor i =>
      match s_attempts σ !! i with
      | Some {| at_key := k; at_phase := PFloor |} =>
          if below_floor (s_db σ) k then with_phase σ i (PDone (Replayed (replayToRunResult stale))) else with_phase σ i PRun
      | _ => σ
      end
  | ECommit clock sts shard =>
      match mapM (unit_of σ) sts with
      | Some units =>
          if bool_decide (NoDup (authors sts)) then
            match commitWriteBatch (clientReceiptsGuard clock :: fence) (s_db σ) units shard with
            | Ok (d, tss) => with_landed (fold_left after_commit (zip sts tss) (with_db σ d)) (omap (landed_by σ) (zip sts tss))
            | Err _ => σ
            end
          else σ
      | None => σ
      end
  | EZero i r ts glob =>
      match running σ i with
      | Some k =>
          let σ := if glob then with_global σ k else σ in
          with_phase σ i (match r with RReturn v => PZero v ts | RThrow m => PCaught (OtherErr m) end)
      | None => σ
      end
  | EFail i e => match running σ i with Some _ => with_phase σ i (PCaught e) | None => σ end
  | ECatch i now =>
      match s_attempts σ !! i with
      | Some {| at_key := k; at_phase := PCaught e |} =>
          let '(d, replay) := handleDedupError (s_db σ) k e now in
          with_phase (with_db σ d) i (PDone (match replay with Some r => Replayed (replayToRunResult r) | None => Thrown e end))
      | _ => σ
      end
  | ERecord i now =>
      match s_attempts σ !! i with
      | Some {| at_key := k; at_phase := PZero v ts |} =>
          with_phase (with_db σ (recordZeroWriteApplied (s_db σ) k ts v now)) i (PDone (Fresh v ts))
      | _ => σ
      end
  | EFill i ok =>
      match s_attempts σ !! i with
      | Some {| at_key := k; at_phase := PFill v ts |} =>
          with_phase (if ok then with_db σ (fillWriteMutationValue (s_db σ) k v) else σ) i (PDone (Fresh v ts))
      | _ => σ
      end
  | EPrune now i c a t => with_db σ (pruneClientMutations now (s_db σ) i c a t).1
  | ESweep now b => with_db σ (sweepExpiredClientMutations now (s_db σ) b).1
  end.
Definition erun (σ : sys) (evs : list eevent) : sys := fold_left estep evs σ.

(** ** What an operation does to the receipts *)
Definition key_ok (k : DedupKey) : Prop := 0 ≤ dk_seq k ∧ 0 ∉ dk_identity k.
Definition accounted_for (d : db) (k : DedupKey) : Prop := accounted d (dk_identity k) (dk_clientId k) (dk_seq k).
Definition db_receipts_ok (d : db) : Prop := receipts_ok d ∧ nul_free d.
Definition dk_tuple (k : DedupKey) : jsstr * jsstr * Z := (dk_identity k, dk_clientId k, dk_seq k).

Lemma below_floor_iff d k : below_floor d k = true ↔ ∃ f, getClientFloor d (dk_identity k) (dk_clientId k) = Some f ∧ dk_seq k ≤ f.
Proof.
  unfold below_floor. destruct (getClientFloor _ _ _) as [f|]; [rewrite Z.leb_le; naive_solver|]. split; [done|]. by intros (f & ? & _).
Qed.
Lemma accounted_iff d k : accounted_for d k ↔ is_Some (verdict_of d k) ∨ below_floor d k = true.
Proof. unfold accounted_for, accounted. by rewrite below_floor_iff. Qed.

(** Floors only rise, and a receipt stays, its fate unchanged, unless its floor covers it. *)
Record advances (d d' : db) : Prop := {
  ad_floor : floor_mono d d';
  ad_kept : ∀ k rec, 0 ≤ dk_seq k → verdict_of d k = Some rec →
    below_floor d' k = true ∨ ∃ rec', verdict_of d' k = Some rec' ∧ same_fate rec rec' }.

Lemma floor_kept d d' k : floor_mono d d' → below_floor d k = true → below_floor d' k = true.
Proof.
  rewrite !below_floor_iff. intros Hm (f & Hf & Hle). destruct (Hm _ _ _ Hf) as (f' & Hf' & Hle'). exists f'. split; [done|lia].
Qed.

#[global] Instance same_fate_preorder : PreOrder same_fate.
Proof. split; [by intros v|]. intros a b c (? & ? & ? & ?) (? & ? & ? & ?). repeat split; congruence. Qed.

#[global] Instance advances_preorder : PreOrder advances.
Proof.
  split.
  - intros d. split; [intros i c f Hf; by exists f|]. intros k rec _ Hr. right. by exists rec.
  - intros d1 d2 d3 [F1 K1] [F2 K2]. split.
    + intros i c f Hf. destruct (F1 _ _ _ Hf) as (f2 & H2 & L2). destruct (F2 _ _ _ H2) as (f3 & H3 & L3). exists f3. split; [done|lia].
    + intros k rec Hs Hr. destruct (K1 k rec Hs Hr) as [Hb|(r2 & H2 & S2)]; [left; by eapply floor_kept|].
      destruct (K2 k r2 Hs H2) as [Hb|(r3 & H3 & S3)]; [by left|]. right. exists r3. split; [done|]. by etrans.
Qed.

Lemma advances_op d op : db_receipts_ok d → op_nul_free op →
  advances d (apply_receipt jsonByteLength d op) ∧ db_receipts_ok (apply_receipt jsonByteLength d op).
Proof.
  intros [Hd Hn] Ho. split; [|split; [by apply apply_ok|by apply apply_nul_free]]. split; [apply apply_floor_mono|].
  intros k rec Hs Hr. pose proof Hr as (r & Hin & Hk & _)%verdict_iff; [|done]. injection Hk as E1 E2 E3.
  destruct (apply_covered jsonByteLength d op Hn r Hin) as [[rec' Hr']|Hf]; rewrite ?E1, ?E2, ?E3 in *.
  - right. exists rec'. split; [done|]. by eapply apply_fate.
  - left. apply below_floor_iff. by apply Hf.
Qed.

(** Rows appended under new keys. *)
Lemma advances_append d d' rows : client_mutations d' = client_mutations d ++ rows → client_floors d' = client_floors d →
  receipts_ok d → receipts_ok d' → advances d d'.
Proof.
  intros Em Ef Hd Hd'. split.
  - intros i c f Hf. exists f. split; [|done]. unfold getClientFloor in *. by rewrite Ef.
  - intros k rec _ Hr. right. exists rec. split; [|done]. apply verdict_iff in Hr as (r & Hin & Hk & ->); [|done].
    apply verdict_iff; [done|]. exists r. rewrite Em, elem_of_app. by split; [left|].
Qed.

Lemma advances_accounted d d' k : advances d d' → 0 ≤ dk_seq k → accounted_for d k → accounted_for d' k.
Proof.
  intros [F K] Hs. rewrite !accounted_iff. intros [[rec Hr]|Hb]; [|right; by eapply floor_kept].
  destruct (K k rec Hs Hr) as [Hb|(rec' & Hr' & _)]; [by right|left; by exists rec'].
Qed.

(** ** A commit *)
Definition unit_row (u : CommitGuardUnit) : option (jsstr * jsstr * Z * Z) :=
  match readUnitDedup u with Some (i, c, Some s) => Some (i, c, s, gu_ts u) | _ => None end.

Lemma receipts_loop_spec clock n d units d' : receipts_ok d → receipts_loop clock n d units = Ok d' →
  same_log d d' ∧ receipts_ok d' ∧ client_floors d' = client_floors d ∧
  ∃ rows, client_mutations d' = client_mutations d ++ rows ∧ Forall (λ r, cm_verdict r = Applied) rows ∧
    (λ r, (cm_key r, cm_commit_ts r)) <$> rows = omap unit_row units.
Proof.
  revert n d. induction units as [|u units IH]; intros n d Hd; cbn [receipts_loop].
  - intros [= <-]. split_and!; try done. exists []. by rewrite app_nil_r.
  - cbn [omap list_omap]. unfold unit_row at 1.
    destruct (readUnitDedup u) as [[[i c] [s|]]|]; [|done|apply IH; done].
    destruct (existsb _ _) eqn:E; [done|]. intros H. apply IH in H as (Hl & Hok & Hf & rows & Em & Ha & Ek).
    + split_and!; [done|done|done|]. exists (applied_row i c s (gu_ts u) (clock n) :: rows).
      split_and!; [rewrite Em; cbn; by rewrite <-app_assoc|by constructor|]. cbn. by f_equal.
    + unfold receipts_ok. cbn. rewrite fmap_app. apply NoDup_app. split_and!; [done| |apply NoDup_singleton].
      intros key (r & -> & Hr)%list_elem_of_fmap Hk. csimpl in Hk. apply list_elem_of_singleton in Hk. apply not_true_iff_false in E. apply E.
      apply existsb_exists. exists r. split; [by apply list_elem_of_In|]. by apply cm_is_key.
Qed.

(** The receipts guard satisfies what the storage seam asks of a guard. *)
Lemma clientReceiptsGuard_frame clock : guard_frame (clientReceiptsGuard clock).
Proof.
  intros d gus shard d'. unfold clientReceiptsGuard. generalize 0%nat. revert d. induction gus as [|u gus IH]; intros d n; cbn [receipts_loop].
  - by intros [= <-].
  - destruct (readUnitDedup u) as [[[i c] [s|]]|]; [|done|apply IH]. destruct (existsb _ _); [done|]. intros H. by apply IH in H.
Qed.

Lemma commit_units_receipts d units shard d' tss : commit_units d units shard = Ok (d', tss) →
  client_mutations d' = client_mutations d ∧ client_floors d' = client_floors d.
Proof.
  revert d d' tss. induction units as [|u units IH]; intros d d' tss; cbn [commit_units]; [by intros [= <- <-]|].
  unfold insertRows at 1. destruct (insert_docs _ _ _) as [rows|]; [|done]. cbn [res_bind].
  destruct (commit_units _ units shard) as [[d2 out]|] eqn:E; [|done]. cbn [res_bind]. intros [= <- <-]. by apply IH in E.
Qed.

Definition guard_receipts (g : Guard) : Prop :=
  ∀ d gus shard d', g d gus shard = Ok d' → client_mutations d' = client_mutations d ∧ client_floors d' = client_floors d.
(** The other guards leave the receipts tables alone. *)
Hypothesis Hfence : Forall guard_receipts fence.

Lemma fence_receipts d gus shard d' : run_guards fence d gus shard = Ok d' →
  client_mutations d' = client_mutations d ∧ client_floors d' = client_floors d.
Proof.
  clear jsonByteLength. unfold run_guards. induction Hfence as [|g gs Hg _ IH] in d |- *; cbn [fold_left]; [by intros [= <-]|].
  cbn [res_bind]. destruct (g d gus shard) as [d1|e] eqn:E.
  - intros H. destruct (IH _ H) as [-> ->]. by eapply Hg.
  - intros H. exfalso. clear -H. induction gs; cbn in H; [done|auto].
Qed.

Lemma commit_receipts clock d units shard d' tss : receipts_ok d →
  commitWriteBatch (clientReceiptsGuard clock :: fence) d units shard = Ok (d', tss) →
  receipts_ok d' ∧ client_floors d' = client_floors d ∧
  ∃ rows, client_mutations d' = client_mutations d ++ rows ∧ Forall (λ r, cm_verdict r = Applied) rows ∧
    (λ r, (cm_key r, cm_commit_ts r)) <$> rows = omap unit_row (guard_units units tss).
Proof.
  intros Hd. unfold commitWriteBatch. destruct (commit_units _ _ _) as [[d1 out]|] eqn:E1; [|done]. cbn [res_bind].
  destruct units as [|u units].
  { cbn in E1 |- *. injection E1 as <- <-. intros [= <- <-]. split_and!; [done|done|]. exists []. by rewrite app_nil_r. }
  change (0 <? length (u :: units))%nat with true. cbn beta iota. set (us := u :: units) in *.
  unfold run_guards at 1. cbn [fold_left res_bind]. destruct (clientReceiptsGuard _ _ _ _) as [d2|e] eqn:E2.
  - fold (run_guards fence d2 (guard_units us out) (default DEFAULT_SHARD shard)).
    destruct (run_guards fence _ _ _) as [d3|] eqn:E3; [|done]. cbn [res_bind]. intros [= <- <-].
    apply commit_units_receipts in E1 as [M1 F1]. apply fence_receipts in E3 as [M3 F3].
    apply receipts_loop_spec in E2 as (_ & Hok & F2 & rows & M2 & Ha & Hk); [|unfold receipts_ok; by rewrite M1].
    split_and!; [unfold receipts_ok; by rewrite M3|congruence|]. exists rows. split_and!; [congruence|done|done].
  - intros H. exfalso. clear -H. induction fence as [|g gs IH]; cbn in H; [done|auto].
Qed.

(** ** Invariant *)
(** An answer that replays a receipt reports that receipt's verdict, timestamp and code. *)
Definition agrees (rec : ClientVerdictRecord) (mr : MutationReplay) : Prop :=
  mr_commitTs mr = Some (cv_commitTs rec) ∧
  match cv_verdict rec with
  | Applied => mr_verdict mr = RvApplied
  | Failed => mr_verdict mr = RvFailed ∧ mr_code mr = Some (default MUTATION_FAILED (cv_errorCode rec))
  end.
Definition fate_ok (d : db) (k : DedupKey) (r : res MutationReplay) : Prop :=
  below_floor d k = true ∨ ∃ rec, verdict_of d k = Some rec ∧ ∀ mr, r = Ok mr → agrees rec mr.
Definition landed_ok (d : db) (k : DedupKey) (ts : Z) : Prop :=
  below_floor d k = true ∨ ∃ rec, verdict_of d k = Some rec ∧ cv_verdict rec = Applied ∧ cv_commitTs rec = ts.

Record einv (σ : sys) : Prop := {
  iv_db : db_receipts_ok (s_db σ);
  iv_keys : ∀ i a, s_attempts σ !! i = Some a → key_ok (at_key a);
  iv_landed : ∀ k ts, (k, ts) ∈ s_landed σ → 0 ≤ dk_seq k ∧ landed_ok (s_db σ) k ts;
  iv_once : ∀ n m k t1 t2, s_landed σ !! n = Some (k, t1) → s_landed σ !! m = Some (k, t2) → n = m ∨ below_floor (s_db σ) k = true;
  iv_answers : ∀ i a r, s_attempts σ !! i = Some a → at_phase a = PDone (Replayed r) → fate_ok (s_db σ) (at_key a) r }.

Lemma fate_ok_advances d d' k r : advances d d' → 0 ≤ dk_seq k → fate_ok d k r → fate_ok d' k r.
Proof.
  intros Ha Hs [Hb|(rec & Hr & Hg)]; [left; eapply floor_kept; [apply Ha|done]|].
  destruct (ad_kept _ _ Ha k rec Hs Hr) as [Hb|(rec' & Hr' & F1 & F2 & F3 & _)]; [by left|]. right. exists rec'. split; [done|].
  intros mr Hmr. specialize (Hg mr Hmr). unfold agrees in *. by rewrite F1, F2, F3.
Qed.
Lemma landed_ok_advances d d' k ts : advances d d' → 0 ≤ dk_seq k → landed_ok d k ts → landed_ok d' k ts.
Proof.
  intros Ha Hs [Hb|(rec & Hr & H1 & H2)]; [left; eapply floor_kept; [apply Ha|done]|].
  destruct (ad_kept _ _ Ha k rec Hs Hr) as [Hb|(rec' & Hr' & F1 & F2 & _)]; [by left|]. right. exists rec'. split_and!; [done|congruence|congruence].
Qed.

Lemma replay_agrees rec mr : replayToRunResult (replayFromRecord rec) = Ok mr → agrees rec mr.
Proof.
  unfold replayToRunResult, replayFromRecord, agrees. destruct (cv_verdict rec); cbn.
  - destruct (cv_hasValue rec); cbn; [destruct (jsonToConvex _); [|done]|]; intros [= <-]; done.
  - by intros [= <-].
Qed.

Lemma phase_lookup σ i p j a' : s_attempts (with_phase σ i p) !! j = Some a' →
  ∃ a, s_attempts σ !! j = Some a ∧ at_key a' = at_key a ∧ ((j = i ∧ at_phase a' = p) ∨ (j ≠ i ∧ a' = a)).
Proof.
  cbn [s_attempts with_phase]. destruct (decide (j = i)) as [->|Hne].
  - rewrite list_lookup_alter_eq. destruct (s_attempts σ !! i) as [a|]; [|done]. intros [= <-]. exists a. naive_solver.
  - rewrite list_lookup_alter_ne by done. intros H. exists a'. naive_solver.
Qed.

(** Everything but a commit under a key leaves [s_landed] alone and touches one attempt. *)
Lemma einv_phase σ d i p : einv σ → advances (s_db σ) d → db_receipts_ok d →
  (∀ a r, s_attempts σ !! i = Some a → p = PDone (Replayed r) → fate_ok d (at_key a) r) → einv (with_phase (with_db σ d) i p).
Proof.
  intros [V1 V2 V3 V4 V5] Ha Hd Hp. split; cbn [s_db s_landed with_phase with_db].
  - done.
  - intros j a' Hj. apply phase_lookup in Hj as (a & Hj & -> & _). by eapply V2.
  - intros k ts Hin. destruct (V3 k ts Hin). split; [done|by eapply landed_ok_advances].
  - intros n m k t1 t2 Hn Hm. destruct (V4 n m k t1 t2 Hn Hm) as [E|Hb]; [by left|right]. eapply floor_kept; [apply Ha|done].
  - intros j a' r Hj Hr. apply phase_lookup in Hj as (a & Hj & Hk & [[-> E]|[_ ->]]).
    + rewrite Hk. eapply Hp; [done|]. by rewrite <-E.
    + eapply fate_ok_advances; [done|by eapply V2|by eapply V5].
Qed.
Lemma einv_db σ d : einv σ → advances (s_db σ) d → db_receipts_ok d → einv (with_db σ d).
Proof.
  intros [V1 V2 V3 V4 V5] Ha Hd. split; cbn [s_db s_landed s_attempts with_db]; [done|done|..].
  - intros k ts Hin. destruct (V3 k ts Hin). split; [done|by eapply landed_ok_advances].
  - intros n m k t1 t2 Hn Hm. destruct (V4 n m k t1 t2 Hn Hm) as [E|Hb]; [by left|right]. eapply floor_kept; [apply Ha|done].
  - intros i a r Hi Hr. eapply fate_ok_advances; [done|by eapply V2|by eapply V5].
Qed.

(** *** Commits *)
Lemma unit_meta_key ts k : key_ok k → unit_row {| gu_ts := ts; gu_meta := dedupCommitMeta k None |} = Some (dk_tuple k, ts).
Proof.
  intros [Hs _]. unfold unit_row.
  change (readUnitDedup _) with (Some (dk_identity k, dk_clientId k, parseInt10 (string_of_int (dk_seq k)))).
  by rewrite parseInt10_string_of_int.
Qed.

Lemma running_key σ i k : running σ i = Some k → ∃ a, s_attempts σ !! i = Some a ∧ at_key a = k ∧ at_phase a = PRun.
Proof. unfold running. destruct (s_attempts σ !! i) as [a|]; [|done]. destruct (at_phase a) eqn:E; try done. intros [= <-]. by exists a. Qed.

Lemma landed_rows σ sts units tss : einv σ → mapM (unit_of σ) sts = Some units →
  omap unit_row (guard_units units tss) = (λ p : DedupKey * Z, (dk_tuple p.1, p.2)) <$> omap (landed_by σ) (zip sts tss).
Proof.
  intros Hv. revert units tss. induction sts as [|st sts IH]; intros units tss; cbn [mapM mbind option_bind]; [by intros [= <-]|].
  destruct (unit_of σ st) as [u|] eqn:Eu; [|done]. cbn. destruct (mapM _ sts) as [us|] eqn:Es; [|done]. cbn. intros [= <-].
  destruct tss as [|ts tss]; [done|]. specialize (IH us tss eq_refl). cbn [guard_units combine List.map omap list_omap zip zip_with].
  change (List.map _ (combine us tss)) with (guard_units us tss). rewrite IH. clear IH.
  unfold unit_of in Eu. change (landed_by σ (st, ts)) with ('(i, _) ← st_by st; k ← running σ i; Some (k, ts)). destruct (st_docs st); [done|].
  destruct (st_by st) as [[i r]|]; cbn [mbind option_bind].
  - destruct (running σ i) as [k|] eqn:Er; [|done]. cbn in Eu. injection Eu as <-. cbn [cu_meta fst snd].
    rewrite unit_meta_key; [done|]. apply running_key in Er as (a & Ha & <- & _). by eapply iv_keys.
  - destruct (plain_meta (st_meta st)) eqn:Ep; [|done]. injection Eu as <-. cbn [cu_meta fst snd]. unfold plain_meta in Ep.
    unfold unit_row. change (readUnitDedup {| gu_ts := ts; gu_meta := st_meta st |}) with (readUnitDedup {| gu_ts := 0; gu_meta := st_meta st |}).
    by destruct (readUnitDedup {| gu_ts := 0; gu_meta := st_meta st |}).
Qed.

Lemma after_commit_fold zs σ : let σ' := fold_left after_commit zs σ in
  s_db σ' = s_db σ ∧ s_landed σ' = s_landed σ ∧
  ∀ j a', s_attempts σ' !! j = Some a' → ∃ a, s_attempts σ !! j = Some a ∧ at_key a' = at_key a ∧
    (at_phase a' = at_phase a ∨ match at_phase a' with PFill _ _ | PCaught _ => True | _ => False end).
Proof.
  cbv zeta. revert σ. induction zs as [|[st ts] zs IH]; intros σ; cbn [fold_left]; [split_and!; [done|done|]; intros j a' H; exists a'; auto|].
  destruct (IH (after_commit σ (st, ts))) as (E1 & E2 & E3). rewrite E1, E2. unfold after_commit in *. cbn [fst snd] in *.
  destruct (st_by st) as [[i [v|m]]|]; [..|done]; (split_and!; [done|done|]); intros j a' H;
    apply E3 in H as (a1 & H1 & K1 & P1); apply phase_lookup in H1 as (a & H & K & [[_ P]|[_ ->]]); exists a;
    (split_and!; [done|congruence|]); [right|naive_solver|right|naive_solver]; (destruct P1 as [P1|P1]; [by rewrite P1, P|done]).
Qed.

Lemma new_landed σ sts tss k ts : einv σ → (k, ts) ∈ omap (landed_by σ) (zip sts tss) →
  ∃ i a, s_attempts σ !! i = Some a ∧ at_key a = k ∧ at_phase a = PRun ∧ key_ok k.
Proof.
  intros Hv ([st t] & _ & E)%list_elem_of_omap. unfold landed_by in E. cbn [fst snd] in E. destruct (st_by st) as [[i r]|]; [|done].
  cbn in E. destruct (running σ i) as [k'|] eqn:Er; [|done]. cbn in E. injection E as -> ->.
  apply running_key in Er as (a & Ha & <- & Hp). exists i, a. split_and!; try done. by eapply iv_keys.
Qed.

Lemma commit_db σ clock sts units shard d tss : einv σ → mapM (unit_of σ) sts = Some units →
  commitWriteBatch (clientReceiptsGuard clock :: fence) (s_db σ) units shard = Ok (d, tss) →
  let new := omap (landed_by σ) (zip sts tss) in
  advances (s_db σ) d ∧ db_receipts_ok d ∧ NoDup new.*1 ∧
  ∀ k ts, (k, ts) ∈ new → verdict_of (s_db σ) k = None ∧ landed_ok d k ts.
Proof.
  intros Hv Hm Hc. cbv zeta. set (new := omap _ _). destruct (iv_db _ Hv) as [Hok Hnul].
  apply commit_receipts in Hc as (Hok' & Hf & rows & Em & Ha & Hk); [|done]. rewrite (landed_rows σ sts units tss Hv Hm) in Hk. fold new in Hk.
  assert (Hk1 : cm_key <$> rows = (dk_tuple ∘ fst) <$> new).
  { apply (f_equal (fmap fst)) in Hk. rewrite <-!list_fmap_compose in Hk. exact Hk. }
  pose proof Hok' as Hnd. unfold receipts_ok in Hnd. rewrite Em, fmap_app, Hk1 in Hnd. apply NoDup_app in Hnd as (_ & Hfresh & Hnd).
  split_and!.
  - by eapply advances_append.
  - split; [done|]. unfold nul_free. rewrite Em. apply Forall_app. split; [done|]. apply Forall_forall. intros r Hr.
    assert (Hin : cm_key r ∈ (dk_tuple ∘ fst) <$> new) by (rewrite <-Hk1; by apply list_elem_of_fmap_2).
    apply list_elem_of_fmap in Hin as ([k ts] & E & Hin). destruct (new_landed σ sts tss k ts Hv Hin) as (_ & _ & _ & _ & _ & Hkey).
    cbn in E. injection E as E _ _. rewrite E. apply Hkey.
  - rewrite list_fmap_compose in Hnd. by apply NoDup_fmap_1 in Hnd.
  - intros k ts Hin. assert (Hin' : (dk_tuple k, ts) ∈ (λ r, (cm_key r, cm_commit_ts r)) <$> rows).
    { rewrite Hk. apply list_elem_of_fmap. by exists (k, ts). }
    apply list_elem_of_fmap in Hin' as (r & E & Hr). pose proof (f_equal fst E) as E1. pose proof (f_equal snd E) as E2. cbn [fst snd] in E1, E2. split.
    + destruct (verdict_of (s_db σ) k) as [rec|] eqn:Er; [|done]. exfalso. apply verdict_iff in Er as (r0 & Hr0 & Hk0 & _); [|done].
      apply (Hfresh (dk_tuple k)); [unfold dk_tuple; rewrite <-Hk0; by apply list_elem_of_fmap_2|]. apply list_elem_of_fmap. by exists (k, ts).
    + right. exists (clientVerdictRecordFromRow r). rewrite Forall_forall in Ha. split_and!; [|by apply Ha|by rewrite E2].
      apply verdict_iff; [done|]. exists r. rewrite Em, elem_of_app. split_and!; [by right|by rewrite <-E1|done].
Qed.

Lemma commit_einv σ clock sts shard : einv σ → einv (estep σ (ECommit clock sts shard)).
Proof.
  intros Hv. cbn [estep]. destruct (mapM _ sts) as [units|] eqn:Em; [|done]. case_bool_decide; [|done].
  destruct (commitWriteBatch _ _ _ _) as [[d tss]|] eqn:Ec; [|done].
  destruct (commit_db σ clock sts units shard d tss Hv Em Ec) as (Hadv & Hd & Hnd & Hnew). set (new := omap _ _) in *.
  destruct (after_commit_fold (zip sts tss) (with_db σ d)) as (E1 & E2 & E3). set (σ1 := fold_left _ _ _) in *.
  cbn [s_db s_landed s_attempts with_db] in E1, E2, E3. destruct Hv as [V1 V2 V3 V4 V5].
  split; cbn [s_db s_landed s_attempts with_landed]; rewrite ?E1, ?E2.
  - done.
  - intros i a Hi. apply E3 in Hi as (a0 & Hi & -> & _). by eapply V2.
  - intros k ts [Hin|Hin]%elem_of_app.
    + destruct (V3 k ts Hin). split; [done|by eapply landed_ok_advances].
    + split; [|by apply Hnew]. by destruct (new_landed σ sts tss k ts (Build_einv σ V1 V2 V3 V4 V5) Hin) as (_ & _ & _ & _ & _ & [? _]).
  - assert (Hold : ∀ n m k t1 t2, s_landed σ !! n = Some (k, t1) → new !! m = Some (k, t2) → below_floor d k = true).
    { intros n m k t1 t2 Hn Hm. apply list_elem_of_lookup_2 in Hn, Hm. destruct (V3 _ _ Hn) as [_ [Hb|(rec & Hr & _)]].
      - eapply floor_kept; [apply Hadv|done].
      - by destruct (Hnew _ _ Hm) as [Hno _]; rewrite Hno in Hr. }
    intros n m k t1 t2 [Hn|[Ln Hn]]%lookup_app_Some [Hm|[Lm Hm]]%lookup_app_Some; [|right; by eapply Hold|right; by eapply Hold|].
    + destruct (V4 n m k t1 t2 Hn Hm) as [E|Hb]; [by left|right]. eapply floor_kept; [apply Hadv|done].
    + left. assert (n - length (s_landed σ) = m - length (s_landed σ))%nat; [|lia].
      eapply (NoDup_lookup _ _ _ k Hnd); rewrite list_lookup_fmap; [by rewrite Hn|by rewrite Hm].
  - intros i a r Hi Hr. apply E3 in Hi as (a0 & Hi & -> & [P|P]); [|by rewrite Hr in P]. rewrite P in Hr.
    eapply fate_ok_advances; [done|by eapply V2|by eapply V5].
Qed.

(** ** Every step *)
Definition event_ok (ev : eevent) : Prop := match ev with EArrive k => key_ok k | _ => True end.

Lemma einv_same_db σ i p : einv σ → (∀ a r, s_attempts σ !! i = Some a → p = PDone (Replayed r) → fate_ok (s_db σ) (at_key a) r) →
  einv (with_phase σ i p).
Proof. intros Hv Hp. apply (einv_phase σ (s_db σ)); [done|done|apply Hv|done]. Qed.

Lemma replay_fate d k rec : verdict_of d k = Some rec → fate_ok d k (replayToRunResult (replayFromRecord rec)).
Proof. intros Hr. right. exists rec. split; [done|]. intros mr. apply replay_agrees. Qed.

Lemma handle_spec d k e now : db_receipts_ok d → key_ok k → let '(d', replay) := handleDedupError d k e now in
  advances d d' ∧ db_receipts_ok d' ∧ ∀ r, replay = Some r → fate_ok d' k (replayToRunResult r).
Proof.
  intros Hd [_ Hk]. unfold handleDedupError. destruct e as [c rt|c|m].
  - destruct rt; cbn; [done|]. destruct (advances_op d (RRecord now (dk_identity k) (dk_clientId k) (dk_seq k)
      {| cw_verdict := Failed; cw_commitTs := 0; cw_errorCode := c; cw_value := None |}) Hd Hk). by split_and!.
  - case_bool_decide; [|done]. split_and!; [done|done|]. intros r Hr. destruct (verdict_of d k) as [rec|] eqn:Ev; [|done].
    injection Hr as <-. by apply replay_fate.
  - cbn. destruct (advances_op d (RRecord now (dk_identity k) (dk_clientId k) (dk_seq k)
      {| cw_verdict := Failed; cw_commitTs := 0; cw_errorCode := MUTATION_FAILED; cw_value := None |}) Hd Hk). by split_and!.
Qed.

Lemma estep_einv σ ev : einv σ → event_ok ev → einv (estep σ ev).
Proof.
  intros Hv Hev. destruct ev as [k|i|i|clock sts sh|i r ts glob|i e|i now|i now|i ok|now i c a t|now b]; try (by apply commit_einv); cbn [estep].
  - destruct Hv as [V1 V2 V3 V4 V5]. split; cbn [s_db s_landed s_attempts]; try done.
    + intros i a [Hi|[_ [_ <-]%list_lookup_singleton_Some]]%lookup_app_Some; [by eapply V2|done].
    + intros i a r [Hi|[_ [_ <-]%list_lookup_singleton_Some]]%lookup_app_Some; [by eapply V5|done].
  - destruct (s_attempts σ !! i) as [[k []]|] eqn:Ei; try done. destruct (verdict_of (s_db σ) k) as [rec|] eqn:Er; apply einv_same_db; try done.
    intros a r Ha [= <-]. rewrite Ei in Ha. injection Ha as <-. by apply replay_fate.
  - destruct (s_attempts σ !! i) as [[k []]|] eqn:Ei; try done. destruct (below_floor (s_db σ) k) eqn:Eb; apply einv_same_db; try done.
    intros a r Ha _. rewrite Ei in Ha. injection Ha as <-. by left.
  - destruct (running σ i) as [k|]; [|done]. assert (Hv' : einv (if glob then with_global σ k else σ)) by (destruct glob; [destruct Hv; by split|done]).
    apply einv_same_db; [done|]. intros a r' _. by destruct r.
  - destruct (running σ i) as [k|]; [|done]. by apply einv_same_db.
  - destruct (s_attempts σ !! i) as [[k [| | |e| | |]]|] eqn:Ei; try done. pose proof (handle_spec (s_db σ) k e now (iv_db _ Hv) (iv_keys _ Hv _ _ Ei)) as Hh.
    destruct (handleDedupError _ _ _ _) as [d replay]. destruct Hh as (H1 & H2 & H3). apply einv_phase; try done.
    intros a r Ha Hr. rewrite Ei in Ha. injection Ha as <-. destruct replay as [x|]; [|done]. injection Hr as <-. by apply H3.
  - destruct (s_attempts σ !! i) as [[k [| | | |v ts| |]]|] eqn:Ei; try done. destruct (advances_op (s_db σ) (RRecord now (dk_identity k) (dk_clientId k) (dk_seq k)
      {| cw_verdict := Applied; cw_commitTs := ts; cw_errorCode := []; cw_value := Some (convexToJson v) |}) (iv_db _ Hv)) as [H1 H2].
    { apply (iv_keys _ Hv _ _ Ei). } by apply einv_phase.
  - destruct (s_attempts σ !! i) as [[k [| | | | |v ts|]]|] eqn:Ei; try done. destruct ok; [|by apply einv_same_db].
    destruct (advances_op (s_db σ) (RUpdate (dk_identity k) (dk_clientId k) (dk_seq k) (convexToJson v)) (iv_db _ Hv) I). by apply einv_phase.
  - destruct (advances_op (s_db σ) (RPrune now i c a t) (iv_db _ Hv) I). by apply einv_db.
  - destruct (advances_op (s_db σ) (RSweep now b) (iv_db _ Hv) I). by apply einv_db.
Qed.

Lemma erun_einv evs d : db_receipts_ok d → Forall event_ok evs → einv (erun (new_sys d) evs).
Proof.
  intros Hd Hevs. unfold erun. assert (Hv : einv (new_sys d)) by (split; cbn; try done; intros ? ? H; by apply elem_of_nil in H || done).
  revert Hv. generalize (new_sys d). induction Hevs as [|ev evs He _ IH]; intros σ Hv; [done|]. cbn. by apply IH, estep_einv.
Qed.

Lemma once_length {A B} `{EqDecision A} (l : list (A * B)) (k : A) :
  (∀ n m t1 t2, l !! n = Some (k, t1) → l !! m = Some (k, t2) → n = m) → (length (filter (λ p, p.1 = k) l) ≤ 1)%nat.
Proof.
  induction l as [|[k' t] l IH]; intros H; [cbn; lia|]. rewrite filter_cons. cbn [fst].
  assert (IH' := IH (λ n m t1 t2 Hn Hm, Nat.succ_inj _ _ (H (S n) (S m) t1 t2 Hn Hm))). case_decide as E; [|done]. subst k'.
  assert (Hl : filter (λ p, p.1 = k) l = []); [|by rewrite Hl]. destruct (filter _ l) as [|[k1 t1] fl] eqn:Ef; [done|].
  assert (Hin : (k1, t1) ∈ filter (λ p, p.1 = k) l) by (rewrite Ef; by left). apply list_elem_of_filter in Hin as [E Hin]. cbn in E. subst k1.
  apply list_elem_of_lookup_1 in Hin as (n & Hn). specialize (H 0%nat (S n) t t1 eq_refl Hn). done.
Qed.

(** C21: exactly once. Whatever the interleaving of attempts under the same key, commits, failures, prunes and
    sweeps, as long as the client's floor has not passed a key: at most one commit has landed under it; the
    receipt of that commit is there, with its timestamp; every answer that replays a verdict reports the
    one receipt of the key; and a key that a reconnecting client is told is unknown has committed nothing. *)
Theorem exactly_once d evs k : db_receipts_ok d → Forall event_ok evs → let σ := erun (new_sys d) evs in
  (classifyDedup (s_db σ) k = None → ∀ ts, (k, ts) ∉ s_landed σ) ∧
  (below_floor (s_db σ) k = false →
    (length (filter (λ p, p.1 = k) (s_landed σ)) ≤ 1)%nat ∧
    (∀ ts, (k, ts) ∈ s_landed σ → ∃ rec, verdict_of (s_db σ) k = Some rec ∧ cv_verdict rec = Applied ∧ cv_commitTs rec = ts) ∧
    (∀ a mr, a ∈ s_attempts σ → at_key a = k → at_phase a = PDone (Replayed (Ok mr)) →
       ∃ rec, verdict_of (s_db σ) k = Some rec ∧ agrees rec mr)).
Proof.
  intros Hd Hevs. cbv zeta. pose proof (erun_einv evs d Hd Hevs) as [_ _ V3 V4 V5]. set (σ := erun _ _) in *. split.
  { intros Hc ts Hin. unfold classifyDedup in Hc. destruct (V3 k ts Hin) as [_ [Hb|(rec & Hr & _)]]; [|by rewrite Hr in Hc].
    rewrite Hb in Hc. by destruct (verdict_of _ _). }
  intros Hb. split_and!.
  - apply once_length. intros n m t1 t2 Hn Hm. destruct (V4 n m k t1 t2 Hn Hm) as [E|Hb']; [done|congruence].
  - intros ts Hin. destruct (V3 k ts Hin) as [_ [Hb'|H]]; [congruence|done].
  - intros a mr (i & Hi)%list_elem_of_lookup_1 <- Hp. destruct (V5 i a _ Hi Hp) as [Hb'|(rec & Hr & Hg)]; [congruence|]. exists rec. auto.
Qed.

(** ** After a key is settled *)
(** Its receipt or its floor is there, and no attempt that looked before that is still on its way to a commit. *)
Definition settled_key (σ : sys) (k : DedupKey) : Prop :=
  accounted_for (s_db σ) k ∧
  ∀ i a, s_attempts σ !! i = Some a → at_key a = k →
    at_phase a ≠ PRun ∧ (at_phase a = PFloor → below_floor (s_db σ) k = true).

Lemma estep_advances σ ev : einv σ → advances (s_db σ) (s_db (estep σ ev)).
Proof.
  intros Hv. destruct ev as [k|i|i|clock sts sh|i r ts glob|i e|i now|i now|i ok|now i c a t|now b]; cbn [estep].
  - done.
  - destruct (s_attempts σ !! i) as [[k []]|]; try done. by destruct (verdict_of _ _).
  - destruct (s_attempts σ !! i) as [[k []]|]; try done. by destruct (below_floor _ _).
  - destruct (mapM _ sts) as [units|] eqn:Em; [|done]. case_bool_decide; [|done]. destruct (commitWriteBatch _ _ _ _) as [[d tss]|] eqn:Ec; [|done].
    destruct (commit_db σ clock sts units sh d tss Hv Em Ec) as (Hadv & _). cbn [s_db with_landed].
    destruct (after_commit_fold (zip sts tss) (with_db σ d)) as (-> & _). done.
  - destruct (running σ i) as [k|]; [|done]. by destruct glob.
  - by destruct (running σ i).
  - destruct (s_attempts σ !! i) as [[k [| | |e| | |]]|] eqn:Ei; try done. pose proof (handle_spec (s_db σ) k e now (iv_db _ Hv) (iv_keys _ Hv _ _ Ei)) as Hh.
    destruct (handleDedupError _ _ _ _) as [d replay]. apply Hh.
  - destruct (s_attempts σ !! i) as [[k [| | | |v ts| |]]|] eqn:Ei; try done.
    apply (advances_op (s_db σ) (RRecord now (dk_identity k) (dk_clientId k) (dk_seq k) _) (iv_db _ Hv)), (iv_keys _ Hv _ _ Ei).
  - destruct (s_attempts σ !! i) as [[k [| | | | |v ts|]]|] eqn:Ei; try done. destruct ok; [|done].
    by apply (advances_op (s_db σ) (RUpdate (dk_identity k) (dk_clientId k) (dk_seq k) (convexToJson v)) (iv_db _ Hv)).
  - by apply (advances_op (s_db σ) (RPrune now i c a t) (iv_db _ Hv)).
  - by apply (advances_op (s_db σ) (RSweep now b) (iv_db _ Hv)).
Qed.

(** How an attempt can move: it goes on from its two reads only when they found nothing. *)
Definition moves (σ : sys) (k : DedupKey) (p p' : attempt_phase) : Prop :=
  match p' with
  | PFloor => p = PVerdict ∧ verdict_of (s_db σ) k = None
  | PRun => p = PFloor ∧ below_floor (s_db σ) k = false
  | PVerdict => False
  | _ => True
  end.

Lemma phase_moves σ i p j a' : (∀ a, s_attempts σ !! i = Some a → moves σ (at_key a) (at_phase a) p) →
  s_attempts (with_phase σ i p) !! j = Some a' →
  s_attempts σ !! j = Some a' ∨ ∃ a, s_attempts σ !! j = Some a ∧ at_key a' = at_key a ∧ moves σ (at_key a) (at_phase a) (at_phase a').
Proof.
  intros Hm Hj. apply phase_lookup in Hj as (a & Hj & Hk & [[-> ->]|[_ ->]]); [|by left]. right. exists a. auto.
Qed.

Lemma estep_attempts σ ev j a' : s_attempts (estep σ ev) !! j = Some a' →
  s_attempts σ !! j = Some a' ∨ at_phase a' = PVerdict ∨
  ∃ a, s_attempts σ !! j = Some a ∧ at_key a' = at_key a ∧ moves σ (at_key a) (at_phase a) (at_phase a').
Proof.
  assert (Hph : ∀ σ' i p, s_attempts σ' = s_attempts σ → s_db σ' = s_db σ → (∀ a, s_attempts σ !! i = Some a → moves σ (at_key a) (at_phase a) p) →
    s_attempts (with_phase σ' i p) !! j = Some a' → s_attempts σ !! j = Some a' ∨ at_phase a' = PVerdict ∨
    ∃ a, s_attempts σ !! j = Some a ∧ at_key a' = at_key a ∧ moves σ (at_key a) (at_phase a) (at_phase a')).
  { intros σ' i p E _ Hm Hj. destruct (phase_moves σ i p j a' Hm) as [H|H]; [|by left|by right; right]. cbn in *. by rewrite <-E. }
  destruct ev as [k|i|i|clock sts sh|i r ts glob|i e|i now|i now|i ok|now i c a t|now b]; cbn [estep]; try (by left).
  - intros [Hj|[_ [_ <-]%list_lookup_singleton_Some]]%lookup_app_Some; [by left|by right; left].
  - destruct (s_attempts σ !! i) as [[k []]|] eqn:Ei; try (by left). destruct (verdict_of (s_db σ) k) eqn:Er; apply Hph; try done;
      intros a Ha; rewrite Ei in Ha; injection Ha as <-; done.
  - destruct (s_attempts σ !! i) as [[k []]|] eqn:Ei; try (by left). destruct (below_floor (s_db σ) k) eqn:Er; apply Hph; try done;
      intros a Ha; rewrite Ei in Ha; injection Ha as <-; done.
  - destruct (mapM _ sts) as [units|]; [|by left]. case_bool_decide; [|by left]. destruct (commitWriteBatch _ _ _ _) as [[d tss]|]; [|by left].
    destruct (after_commit_fold (zip sts tss) (with_db σ d)) as (_ & _ & E3). intros Hj. apply E3 in Hj as (a & Hj & Hk & [P|P]).
    + left. destruct a as [ka pa], a' as [ka' pa']. cbn in *. by subst.
    + right; right. exists a. split_and!; [done|done|]. by destruct (at_phase a').
  - destruct (running σ i) as [k|]; [|by left]. apply Hph; [by destruct glob|by destruct glob|]. intros a _. by destruct r.
  - destruct (running σ i) as [k|]; [|by left]. by apply Hph.
  - destruct (s_attempts σ !! i) as [[k [| | |e| | |]]|] eqn:Ei; try (by left). destruct (handleDedupError _ _ _ _) as [d replay].
    intros Hj. apply phase_lookup in Hj as (a & Hj & Hk & [[-> ->]|[_ ->]]); [|by left]. right; right. by exists a.
  - destruct (s_attempts σ !! i) as [[k [| | | |v ts| |]]|] eqn:Ei; try (by left).
    intros Hj. apply phase_lookup in Hj as (a & Hj & Hk & [[-> ->]|[_ ->]]); [|by left]. right; right. by exists a.
  - destruct (s_attempts σ !! i) as [[k [| | | | |v ts|]]|] eqn:Ei; try (by left). intros Hj.
    apply phase_lookup in Hj as (a & Hj & Hk & [[-> ->]|[_ ->]]); [right; right; exists a|left]; by destruct ok.
Qed.

Lemma estep_landed σ ev : einv σ → ∃ new, s_landed (estep σ ev) = s_landed σ ++ new ∧
  ∀ k ts, (k, ts) ∈ new → ∃ i a, s_attempts σ !! i = Some a ∧ at_key a = k ∧ at_phase a = PRun.
Proof.
  intros Hv. assert (Hnone : ∃ new, s_landed σ = s_landed σ ++ new ∧
    ∀ k ts, (k, ts) ∈ new → ∃ i a, s_attempts σ !! i = Some a ∧ at_key a = k ∧ at_phase a = PRun).
  { exists []. split; [by rewrite app_nil_r|]. by intros k ts ?%elem_of_nil. }
  destruct ev as [k|i|i|clock sts sh|i r ts glob|i e|i now|i now|i ok|now i c a t|now b]; cbn [estep]; try done.
  - destruct (s_attempts σ !! i) as [[k []]|]; try done. by destruct (verdict_of _ _).
  - destruct (s_attempts σ !! i) as [[k []]|]; try done. by destruct (below_floor _ _).
  - destruct (mapM _ sts) as [units|]; [|done]. case_bool_decide; [|done]. destruct (commitWriteBatch _ _ _ _) as [[d tss]|]; [|done].
    destruct (after_commit_fold (zip sts tss) (with_db σ d)) as (_ & E2 & _). eexists. cbn [s_landed with_landed]. rewrite E2. split; [done|].
    intros k ts Hin. destruct (new_landed σ sts tss k ts Hv Hin) as (i & a & H1 & H2 & H3 & _). by exists i, a.
  - destruct (running σ i) as [k|]; [|done]. by destruct glob.
  - by destruct (running σ i).
  - destruct (s_attempts σ !! i) as [[k [| | |e| | |]]|]; try done. by destruct (handleDedupError _ _ _ _).
  - by destruct (s_attempts σ !! i) as [[k [| | | |v ts| |]]|].
  - destruct (s_attempts σ !! i) as [[k [| | | | |v ts|]]|]; try done. by destruct ok.
Qed.

Lemma settled_step σ ev k : einv σ → 0 ≤ dk_seq k → settled_key σ k →
  settled_key (estep σ ev) k ∧ filter (λ p, p.1 = k) (s_landed (estep σ ev)) = filter (λ p, p.1 = k) (s_landed σ).
Proof.
  intros Hv Hs [H1 H2]. pose proof (estep_advances σ ev Hv) as Ha. split; [split|].
  - by eapply advances_accounted.
  - assert (Hkeep : ∀ a i, s_attempts σ !! i = Some a → at_key a = k → at_phase a ≠ PRun ∧ (at_phase a = PFloor → below_floor (s_db (estep σ ev)) k = true)).
    { intros a i Hi Hk. destruct (H2 i a Hi Hk) as [H3 H4]. split; [done|]. intros Hf. eapply floor_kept; [apply Ha|by apply H4]. }
    intros j a' Hj Hk. apply estep_attempts in Hj as [Hj|[Hp|(a & Hj & E & Hm)]]; [by eapply Hkeep|by rewrite Hp|].
    rewrite E in Hk. destruct (H2 j a Hj Hk) as [_ H4]. destruct (at_phase a'); try done.
    + destruct Hm as [_ Hno]. split; [done|]. intros _. rewrite accounted_iff, <-Hk, Hno, Hk in H1. eapply floor_kept; [apply Ha|].
      by destruct H1 as [[? ?]|H1].
    + destruct Hm as [Hp Hb]. rewrite Hk in Hb. rewrite (H4 Hp) in Hb. done.
  - destruct (estep_landed σ ev Hv) as (new & -> & Hnew). rewrite filter_app.
    assert (Hn : filter (λ p, p.1 = k) new = []); [|by rewrite Hn, app_nil_r].
    destruct (filter _ new) as [|[k1 t] fl] eqn:Ef; [done|]. assert (Hin : (k1, t) ∈ filter (λ p, p.1 = k) new) by (rewrite Ef; by left).
    apply list_elem_of_filter in Hin as [E Hin]. cbn in E. subst k1. destruct (Hnew k t Hin) as (i & a & Hi & Hk & Hp). by destruct (H2 i a Hi Hk).
Qed.

(** A settled key never runs again. Once a key has its receipt or is under its floor, and no attempt that
    looked earlier is still on its way, no later event commits anything under it: not resends, not duplicates
    that were queued, and not after the receipt is pruned. (The receipt is read before the floor, so a prune between
    the two reads does not let an attempt through.) *)
Theorem settled_never_reruns d evs evs' k : db_receipts_ok d → Forall event_ok (evs ++ evs') → 0 ≤ dk_seq k →
  settled_key (erun (new_sys d) evs) k →
  filter (λ p, p.1 = k) (s_landed (erun (new_sys d) (evs ++ evs'))) = filter (λ p, p.1 = k) (s_landed (erun (new_sys d) evs)).
Proof.
  intros Hd [He He']%Forall_app Hs. unfold erun at 2. rewrite fold_left_app. fold (erun (new_sys d) evs).
  generalize (erun_einv evs d Hd He). generalize (erun (new_sys d) evs). induction He' as [|ev evs' Hev _ IH]; intros σ Hv Hq; [done|].
  cbn [fold_left]. destruct (settled_step σ ev k Hv Hs Hq) as [Hq' <-]. by apply IH; [apply estep_einv|].
Qed.
End exactly_once.

(** ** Concrete runs *)
Section examples.
Let k0 : DedupKey := {| dk_identity := js "u"; dk_clientId := js "c"; dk_seq := 0 |}.
Let doc : DocumentLogEntry :=
  {| le_ts := 0; le_id := {| tableNumber := 10001; internalId := repeat 7 16 |};
     le_value := Some {| rd_id := {| tableNumber := 10001; internalId := repeat 7 16 |}; rd_value := VObj [] |}; le_prev_ts := None |}.
Let by_attempt (i : nat) (r : ran) : eevent :=
  ECommit (λ _, 100) [{| st_docs := [doc]; st_idx := []; st_by := Some (i, r); st_meta := None |}] None.
Let run0 (evs : list eevent) : sys := erun (λ _, 0) [] (new_sys empty_db) evs.
(** Attempts [0] and [1] under the same key, both past classification. *)
Let two : list eevent := [EArrive k0; EVerdict 0; EFloor 0; EArrive k0; EVerdict 1; EFloor 1].

Lemma empty_receipts_ok : db_receipts_ok empty_db.
Proof. split; constructor. Qed.
Lemma k0_ok : key_ok k0.
Proof. split; [cbn; lia|]. cbn. rewrite !elem_of_cons, elem_of_nil. intuition discriminate. Qed.

(** The loser of the race replays the winner's receipt. *)
Definition raced : list eevent :=
  two ++ [by_attempt 0 (RReturn (VBool true)); EFill 0 true; by_attempt 1 (RReturn VNull); EFail 1 (GuardRejection CLIENT_MUTATION_DUP); ECatch 1 200].

Lemma exactly_once_witness :
  let σ := run0 raced in below_floor (s_db σ) k0 = false ∧ s_landed σ = [(k0, 1)] ∧ (length (filter (λ p, p.1 = k0) (s_landed σ)) ≤ 1)%nat ∧
  at_phase <$> s_attempts σ = [PDone (Fresh (VBool true) 1); PDone (Replayed (Ok
    {| mr_verdict := RvApplied; mr_commitTs := Some 1; mr_value := Some (VBool true); mr_valueMissing := false; mr_code := None |}))].
Proof.
  cbv zeta. assert (Hb : below_floor (s_db (run0 raced)) k0 = false) by (by vm_compute).
  split_and!; [exact Hb|by vm_compute| |by vm_compute].
  destruct (exactly_once (λ _, 0) [] (Forall_nil_2 _) empty_db raced k0 empty_receipts_ok) as [_ H].
  { repeat (apply Forall_cons; split; [first [exact I|exact k0_ok]|]). constructor. }
  exact (proj1 (H Hb)).
Defined.

(** Settled by a commit, pruned, then resent. *)
Definition settled_run : list eevent := [EArrive k0; EVerdict 0; EFloor 0; by_attempt 0 (RReturn VNull); EFill 0 true].
Definition resend_run : list eevent := [EPrune 300 (js "u") (js "c") (Some 0) None; EArrive k0; EVerdict 1; EFloor 1; by_attempt 1 (RReturn VNull)].

Lemma settled_never_reruns_witness :
  filter (λ p, p.1 = k0) (s_landed (run0 (settled_run ++ resend_run))) = filter (λ p, p.1 = k0) (s_landed (run0 settled_run)) ∧
  last (at_phase <$> s_attempts (run0 (settled_run ++ resend_run))) = Some (PDone (Replayed (Ok
    {| mr_verdict := RvStale; mr_commitTs := None; mr_value := None; mr_valueMissing := false; mr_code := Some (js "STALE_CLIENT") |}))).
Proof.
  split; [|by vm_compute].
  apply (settled_never_reruns (λ _, 0) [] (Forall_nil_2 _) empty_db settled_run resend_run k0 empty_receipts_ok).
  - repeat (apply Forall_cons; split; [first [exact I|exact k0_ok]|]). constructor.
  - cbn. lia.
  - split; [left; vm_compute; by eexists|]. intros [|i] a Hi Hk; [|vm_compute in Hi; discriminate].
    vm_compute in Hi. injection Hi as <-. done.
Defined.

(** The guard does not look at the floor: an attempt classified before its duplicate's receipt was pruned commits a second time. *)
Theorem pruned_duplicate_reexecutes :
  s_landed (run0 (two ++ [by_attempt 0 (RReturn VNull); EFill 0 true; EPrune 300 (js "u") (js "c") (Some 0) None; by_attempt 1 (RReturn VNull)]))
    = [(k0, 1); (k0, 2)].
Proof. vm_compute. reflexivity. Qed.

(** An attempt whose handler throws after its duplicate committed is answered with its own error, although the receipt says applied. *)
Theorem applied_reported_failed :
  let σ := run0 (two ++ [by_attempt 0 (RReturn VNull); EFill 0 true; EFail 1 (OtherErr (js "x")); ECatch 1 200]) in
  last (at_phase <$> s_attempts σ) = Some (PDone (Thrown (OtherErr (js "x")))) ∧ cv_verdict <$> verdict_of (s_db σ) k0 = Some Applied.
Proof. vm_compute. done. Qed.

(** A mutation that persists its writes and throws is replayed as a success. *)
Theorem commit_then_throw_replays_applied :
  let σ := run0 ([EArrive k0; EVerdict 0; EFloor 0; by_attempt 0 (RThrow (js "x")); ECatch 0 200; EArrive k0; EVerdict 1]) in
  at_phase <$> s_attempts σ = [PDone (Thrown (OtherErr (js "x"))); PDone (Replayed (Ok
    {| mr_verdict := RvApplied; mr_commitTs := Some 1; mr_value := None; mr_valueMissing := true; mr_code := None |}))].
Proof. vm_compute. reflexivity. Qed.

(** A mutation that writes global tables only commits no documents, so no guard runs: two attempts under one key both apply. *)
Theorem global_writes_applied_twice :
  let σ := run0 (two ++ [EZero 0 (RReturn VNull) 1 true; EZero 1 (RReturn VNull) 1 true; ERecord 0 100; ERecord 1 101]) in
  s_globals σ = [k0; k0] ∧ at_phase <$> s_attempts σ = [PDone (Fresh VNull 1); PDone (Fresh VNull 1)].
Proof. vm_compute. done. Qed.
End examples.
