(* ===== verification/Transactor.v ===== *)
(** The single-writer transactor of [packages/transactor/src]: headroom, uncommitted writes, the
    transaction context, the commit pipeline, pruning of recent commits, and the group-commit
    flush. The store is any implementation of the storage seam. *)
From S2P Require Import Prelude Numbers Values Json IndexKeys Ranges IdCodec DocStore MvccStore.

Definition docKeyspace (id : InternalDocumentId) : jsstr :=
  tableKeyspaceId (encodeStorageTableId (tableNumber id)).

Definition hexKey (b : bytes) : jsstr := concat (List.map hex2 b).

(** ** Headroom *)
Record HeadroomLimits := { maxReads : Z; maxWrites : Z }.
Definition DEFAULT_HEADROOM : HeadroomLimits := {| maxReads := 4096; maxWrites := 4096 |}.
Record HeadroomTracker := { h_reads : Z; h_writes : Z; limits : HeadroomLimits }.
Definition new_HeadroomTracker (l : HeadroomLimits) : HeadroomTracker := {| h_reads := 0; h_writes := 0; limits := l |}.

(** The counter is incremented before the check throws. *)
Definition countRead (h : HeadroomTracker) : HeadroomTracker * res unit :=
  let h' := {| h_reads := h_reads h + 1; h_writes := h_writes h; limits := limits h |} in
  (h', if maxReads (limits h') <? h_reads h' then Err (HeadroomExceededError "reads" (maxReads (limits h'))) else Ok tt).

Definition countWrite (h : HeadroomTracker) : HeadroomTracker * res unit :=
  let h' := {| h_reads := h_reads h; h_writes := h_writes h + 1; limits := limits h |} in
  (h', if maxWrites (limits h') <? h_writes h' then Err (HeadroomExceededError "writes" (maxWrites (limits h'))) else Ok tt).

(** ** Uncommitted writes: a [Map] by document key *)
Record LocalWrite := { lw_id : InternalDocumentId; lw_value : option value }.
Definition UncommittedWrites : Type := list (jsstr * LocalWrite).

Definition uw_set (w : UncommittedWrites) (id : InternalDocumentId) (v : option value) : UncommittedWrites :=
  jm_set w (documentIdKey id) {| lw_id := id; lw_value := v |}.
Definition uw_get (w : UncommittedWrites) (id : InternalDocumentId) : option LocalWrite := jm_get w (documentIdKey id).
Definition uw_has (w : UncommittedWrites) (id : InternalDocumentId) : bool := jm_has w (documentIdKey id).
Definition uw_entries (w : UncommittedWrites) : list LocalWrite := jm_values w.
Definition uw_size (w : UncommittedWrites) : nat := length w.

(** ** The transaction context *)
Record Ctx := {
  snapshotTs : Z; shardId : jsstr;
  reads : RangeSet; validatedReads : RangeSet; writeRanges : RangeSet;
  staged : UncommittedWrites; indexUpdates : list DatabaseIndexUpdate; headroom : HeadroomTracker }.

Definition new_Ctx (snap : Z) (shard : jsstr) (h : HeadroomTracker) : Ctx :=
  {| snapshotTs := snap; shardId := shard; reads := rs_new; validatedReads := rs_new; writeRanges := rs_new;
     staged := []; indexUpdates := []; headroom := h |}.

Definition set_headroom (c : Ctx) (h : HeadroomTracker) : Ctx :=
  {| snapshotTs := snapshotTs c; shardId := shardId c; reads := reads c; validatedReads := validatedReads c;
     writeRanges := writeRanges c; staged := staged c; indexUpdates := indexUpdates c; headroom := h |}.
Definition set_reads (c : Ctx) (r vr : RangeSet) : Ctx :=
  {| snapshotTs := snapshotTs c; shardId := shardId c; reads := r; validatedReads := vr;
     writeRanges := writeRanges c; staged := staged c; indexUpdates := indexUpdates c; headroom := headroom c |}.
Definition set_writes (c : Ctx) (wr : RangeSet) (st : UncommittedWrites) : Ctx :=
  {| snapshotTs := snapshotTs c; shardId := shardId c; reads := reads c; validatedReads := validatedReads c;
     writeRanges := wr; staged := st; indexUpdates := indexUpdates c; headroom := headroom c |}.
Definition set_updates (c : Ctx) (us : list DatabaseIndexUpdate) : Ctx :=
  {| snapshotTs := snapshotTs c; shardId := shardId c; reads := reads c; validatedReads := validatedReads c;
     writeRanges := writeRanges c; staged := staged c; indexUpdates := us; headroom := headroom c |}.

Definition recordRead (c : Ctx) (r : KeyRange) : Ctx := set_reads c (rs_add (reads c) r) (rs_add (validatedReads c) r).
Definition recordReadUnvalidated (c : Ctx) (r : KeyRange) : Ctx := set_reads c (rs_add (reads c) r) (validatedReads c).
Definition recordWrite (c : Ctx) (r : KeyRange) : Ctx := set_writes c (rs_add (writeRanges c) r) (staged c).

Definition stageIndexUpdates (c : Ctx) (us : list DatabaseIndexUpdate) : Ctx :=
  set_updates c (fold_left (λ l u, l ++ [u]) us (indexUpdates c)).

Definition ctx_write (c : Ctx) (id : InternalDocumentId) (v : option value) : Ctx * res unit :=
  let '(h, r) := countWrite (headroom c) in
  let c := set_headroom c h in
  match r with
  | Err e => (c, Err e)
  | Ok _ => (set_writes c (addKey (writeRanges c) (docKeyspace id) (internalId id)) (uw_set (staged c) id v), Ok tt)
  end.

Definition ctx_put (c : Ctx) (id : InternalDocumentId) (v : value) : Ctx * res unit := ctx_write c id (Some v).
Definition ctx_delete (c : Ctx) (id : InternalDocumentId) : Ctx * res unit := ctx_write c id None.

(** The net staged change per key of an index, the last one winning. *)
Record IndexOverlayEntry := { ov_key : bytes; ov_value : option value }.

Definition overlay_value (c : Ctx) (u : DatabaseIndexUpdate) : option value :=
  match iu_value u with
  | Deleted => None
  | NonClustered docId => match uw_get (staged c) docId with Some w => lw_value w | None => None end
  end.

Definition pendingIndexOverlay (c : Ctx) (indexId : jsstr) : list IndexOverlayEntry :=
  jm_values (fold_left (λ m u,
    if negb (bool_decide (iu_indexId u = indexId)) then m
    else jm_set m (hexKey (iu_key u)) {| ov_key := iu_key u; ov_value := overlay_value c u |}) (indexUpdates c) []).

(** ** What a commit publishes *)
Record WrittenDoc := {
  wd_key : jsstr; wd_keyspace : jsstr; wd_docId : jsstr; wd_newRow : option json; wd_wasPresent : bool; wd_ts : Z }.

Definition buildWrittenDocs (entries : list DocumentLogEntry) (commitTs : Z) : res (list WrittenDoc) :=
  traverse (λ e,
    let! docId := encodeInternalDocumentId (le_id e) in
    Ok {| wd_key := bytesToBase64 (internalId (le_id e)); wd_keyspace := docKeyspace (le_id e); wd_docId := docId;
          wd_newRow := match le_value e with None => None | Some v => Some (convexToJson (rd_value v)) end;
          wd_wasPresent := bool_decide (is_Some (le_prev_ts e)); wd_ts := commitTs |}) entries.

Record OplogDelta := {
  ol_commitTs : Z; ol_shardId : jsstr; ol_writtenRanges : list SerializedKeyRange; ol_writtenTables : list jsstr;
  ol_origin : option jsstr; ol_writtenDocs : list WrittenDoc }.

Definition build_oplog (commitTs : Z) (shard : jsstr) (writes : RangeSet) (origin : option jsstr)
    (entries : list DocumentLogEntry) : res OplogDelta :=
  let ranges := toArray writes in
  let! tables := writtenTablesFromRanges ranges in
  let! docs := buildWrittenDocs entries commitTs in
  Ok {| ol_commitTs := commitTs; ol_shardId := shard; ol_writtenRanges := List.map serializeKeyRange ranges;
        ol_writtenTables := tables; ol_origin := origin; ol_writtenDocs := docs |}.

Record CommitResult (V : Type) := {
  cr_value : V; cr_committed : bool; cr_commitTs : Z; cr_shardId : jsstr; cr_oplog : option OplogDelta }.
Arguments cr_value {V}.
Arguments cr_committed {V}.
Arguments cr_commitTs {V}.
Arguments cr_shardId {V}.
Arguments cr_oplog {V}.

Section transactor.
Context {S : Type} `{!MvccStore S}.

Definition ctx_get (s : S) (c : Ctx) (id : InternalDocumentId) : Ctx * res (option value) :=
  let '(h, r) := countRead (headroom c) in
  let c := set_headroom c h in
  match r with
  | Err e => (c, Err e)
  | Ok _ =>
      let c := set_reads c (addKey (reads c) (docKeyspace id) (internalId id))
                           (addKey (validatedReads c) (docKeyspace id) (internalId id)) in
      match uw_get (staged c) id with
      | Some local => (c, Ok (lw_value local))
      | None =>
          (c, let! doc := ms_get s id (Some (snapshotTs c)) in
              Ok (match doc with Some d => Some (rd_value (ld_value d)) | None => None end))
      end
  end.

(** ** The writer of one shard *)
Record RecentCommit := { rc_ts : Z; rc_writes : RangeSet }.

Record ShardWriter := {
  docStore : S; oracle : Oracle; recentCommits : list RecentCommit;
  activeSnapshots : list (Z * Z) }.

Definition retain (active : list (Z * Z)) (ts : Z) : list (Z * Z) :=
  jm_set active ts (default 0 (jm_get active ts) + 1).

Definition release (active : list (Z * Z)) (ts : Z) : list (Z * Z) :=
  let n := default 0 (jm_get active ts) - 1 in
  if n <=? 0 then jm_delete active ts else jm_set active ts n.

Definition minActiveSnapshot (active : list (Z * Z)) (o : Oracle) : Z :=
  let min := fold_left (λ m ts, match m with None => Some ts | Some x => if ts <? x then Some ts else m end)
               (jm_keys active) None in
  default (getLastCommittedTimestamp o) min.

Definition prune (ring : list RecentCommit) (active : list (Z * Z)) (o : Oracle) : list RecentCommit :=
  let min := minActiveSnapshot active o in
  if existsb (λ c, rc_ts c <=? min) ring then List.filter (λ c, min <? rc_ts c) ring else ring.

(** ** Commit *)

(** Phase 1: some commit after the snapshot wrote something we read. *)
Definition conflicts (ring : list RecentCommit) (snap : Z) (vr : RangeSet) : bool :=
  existsb (λ c, (snap <? rc_ts c) && intersects vr (rc_writes c)) ring.

(** Phase 2: one placeholder log entry per staged write, chained to the latest live revision. *)
Definition log_entry (w : LocalWrite) (prev : option LatestDocument) : DocumentLogEntry :=
  {| le_ts := 0; le_id := lw_id w;
     le_prev_ts := match prev with Some p => Some (ld_ts p) | None => None end;
     le_value := match lw_value w with None => None | Some v => Some {| rd_id := lw_id w; rd_value := v |} end |}.

Definition stage_entries (s : S) (st : UncommittedWrites) : res (list DocumentLogEntry) :=
  traverse (λ w, let! prev := ms_get s (lw_id w) None in Ok (log_entry w prev)) (uw_entries st).

Definition stage_updates (us : list DatabaseIndexUpdate) : list IndexWrite :=
  List.map (λ u, {| iw_ts := 0; iw_update := u |}) us.

Definition apply_commit (s : S) (c : Ctx) (shard : jsstr) (meta : Meta) : res (S * Z * list DocumentLogEntry) :=
  let! entries := stage_entries s (staged c) in
  let u := {| cu_documents := entries; cu_indexUpdates := stage_updates (indexUpdates c); cu_meta := meta |} in
  let! (s', tss) := ms_commit s [u] (Some shard) in
  match tss with ts :: _ => Ok (s', ts, entries) | [] => Err TypeError end.

(** Phase 3: the ring, the committed clock, then pruning. *)
Definition publish_commit (w : ShardWriter) (s' : S) (ts : Z) (writes : RangeSet) : ShardWriter :=
  let ring := recentCommits w ++ [{| rc_ts := ts; rc_writes := writes |}] in
  let o := publishCommitted (oracle w) ts in
  {| docStore := s'; oracle := o; recentCommits := prune ring (activeSnapshots w) o;
     activeSnapshots := activeSnapshots w |}.

(** [commit], run under the mutex: the writer after it and what the caller gets. *)
Definition commit {V} (w : ShardWriter) (c : Ctx) (snap : Z) (shard : jsstr) (v : V) (meta : Meta)
    (origin : option jsstr) : ShardWriter * res (CommitResult V) :=
  if conflicts (recentCommits w) snap (validatedReads c) then (w, Err OccConflictError)
  else
    match apply_commit (docStore w) c shard meta with
    | Err e => (w, Err e)
    | Ok (s', ts, entries) =>
        let w' := publish_commit w s' ts (writeRanges c) in
        (w', let! oplog := build_oplog ts shard (writeRanges c) origin entries in
             Ok {| cr_value := v; cr_committed := true; cr_commitTs := ts; cr_shardId := shard;
                   cr_oplog := Some oplog |})
    end.

(** ** Group commit: the flush *)

(** [su_call] names the call the unit's [resolve] and [reject] settle; the value to resolve with
    stays with the call. *)
Record StagedUnit := {
  su_call : nat;
  su_documents : list DocumentLogEntry; su_indexUpdates : list IndexWrite; su_meta : Meta;
  su_origin : option jsstr; su_writeRanges : RangeSet; su_shardId : jsstr }.

Definition MAX_SPLIT_RETRIES : nat := 3.

Record FlushOutcome := {
  fo_landed : list (StagedUnit * Z); fo_guardRejected : list (StagedUnit * exn);
  fo_chunkUnits : list StagedUnit; fo_chunkErr : option exn }.

Definition commit_unit_of (u : StagedUnit) : CommitUnit :=
  {| cu_documents := su_documents u; cu_indexUpdates := su_indexUpdates u; cu_meta := su_meta u |}.

(** [remaining.splice(i, 1)] *)
Definition splice1 {A} (i : nat) (l : list A) : list A := take i l ++ drop (i + 1) l.

(** The flush loop; [budget] is what is left of [MAX_SPLIT_RETRIES]. *)
Fixpoint flush_loop (budget : nat) (s : S) (shard : jsstr) (remaining : list StagedUnit)
    (guardRejected : list (StagedUnit * exn)) : S * FlushOutcome :=
  match ms_commit s (List.map commit_unit_of remaining) (Some shard) with
  | Ok (s', tss) =>
      (s', {| fo_landed := combine remaining tss; fo_guardRejected := guardRejected; fo_chunkUnits := [];
              fo_chunkErr := None |})
  | Err err =>
      let whole := (s, {| fo_landed := []; fo_guardRejected := guardRejected; fo_chunkUnits := remaining;
                          fo_chunkErr := Some err |}) in
      match err, budget with
      | CommitGuardRejection i _, Datatypes.S budget =>
          if 0 <=? i then
            match remaining !! Z.to_nat i with
            | None => whole
            | Some rejected =>
                let remaining' := splice1 (Z.to_nat i) remaining in
                let guardRejected' := guardRejected ++ [(rejected, err)] in
                match remaining' with
                | [] => (s, {| fo_landed := []; fo_guardRejected := guardRejected'; fo_chunkUnits := [];
                               fo_chunkErr := None |})
                | _ => flush_loop budget s shard remaining' guardRejected'
                end
            end
          else whole
      | _, _ => whole
      end
  end.

Definition flushWithSplit (s : S) (shard : jsstr) (units : list StagedUnit) : S * FlushOutcome :=
  flush_loop MAX_SPLIT_RETRIES s shard units [].
End transactor.
Arguments ShardWriter : clear implicits.
