(* ===== verification/Serializability.v ===== *)
(** Concurrent transactions over one shard writer: [runInTransactionSingle] of
    [packages/transactor/src/shard-writer.ts] as a step relation in which any number of transactions
    interleave their reads, writes and commits, and the proof that a history all of whose commits
    declare what they write ([disciplined]) is equivalent to running the committed functions one at a
    time in timestamp order, up to the scans the code deliberately leaves unvalidated. *)
From S2P Require Import Prelude Numbers Values Json IndexKeys Ranges IdCodec DocStore MvccStore Transactor.

(** ** Functions

    A mutation function is the tree of the context operations it performs; each continuation is the
    rest of the function, given what the operation returned or threw. [FScan] is a scan of an index
    at the transaction's snapshot whose interval is recorded: with [recordRead] when [validated] is
    set, and otherwise with [recordReadUnvalidated], which reports the range but keeps it out of
    conflict detection ([recordScanReads] of [packages/executor/src/kernel.ts] does so for a scan of
    an unsharded table by a sharded mutation). *)
Inductive func (V : Type) : Type :=
  | FRet (v : V)
  | FThrow (e : exn)
  | FGet (id : InternalDocumentId) (k : res (option value) → func V)
  | FPut (id : InternalDocumentId) (v : value) (k : res unit → func V)
  | FDelete (id : InternalDocumentId) (k : res unit → func V)
  | FScan (tn : Z) (index : jsstr) (iv : Interval) (o : Order) (limit : option Z) (validated : bool)
      (k : res (list (bytes * LatestDocument)) → func V)
  | FRecordWrite (r : KeyRange) (k : func V)
  | FRecordUnvalidated (r : KeyRange) (k : func V)
  | FStage (us : list DatabaseIndexUpdate) (k : func V)
  | FOverlay (tn : Z) (index : jsstr) (k : list IndexOverlayEntry → func V).
Arguments FRet {V}.
Arguments FThrow {V}.
Arguments FGet {V}.
Arguments FPut {V}.
Arguments FDelete {V}.
Arguments FScan {V}.
Arguments FRecordWrite {V}.
Arguments FRecordUnvalidated {V}.
Arguments FStage {V}.
Arguments FOverlay {V}.

(** The keyspace range of an index interval. *)
Definition scan_range (tn : Z) (index : jsstr) (iv : Interval) : KeyRange :=
  {| keyspace := indexKeyspaceId (encodeStorageTableId tn) index; start := iv_start iv; end_ := iv_end iv |}.

Section serial.
Context {S : Type} `{!MvccStore S} {V : Type}.

(** One operation of a function against the store as it is now, with the unvalidated scans answered as
    of timestamp [u]; [None] when it is done. *)
Definition op_step_at (s : S) (u : Z) (c : Ctx) (f : func V) : option (Ctx * func V) :=
  match f with
  | FRet _ | FThrow _ => None
  | FGet id k => let '(c', r) := ctx_get s c id in Some (c', k r)
  | FPut id v k => let '(c', r) := ctx_put c id v in Some (c', k r)
  | FDelete id k => let '(c', r) := ctx_delete c id in Some (c', k r)
  | FScan tn index iv o limit validated k =>
      Some (if validated then recordRead c (scan_range tn index iv) else recordReadUnvalidated c (scan_range tn index iv),
            k (ms_scan s (encodeStorageIndexId tn index) (if validated then snapshotTs c else u) iv o limit))
  | FRecordWrite r k => Some (recordWrite c r, k)
  | FRecordUnvalidated r k => Some (recordReadUnvalidated c r, k)
  | FStage us k => Some (stageIndexUpdates c us, k)
  | FOverlay tn index k => Some (c, k (pendingIndexOverlay c (encodeStorageIndexId tn index)))
  end.

(** One operation of a transaction: every scan reads at the transaction's snapshot. *)
Definition op_step (s : S) (c : Ctx) (f : func V) : option (Ctx * func V) := op_step_at s (snapshotTs c) c f.

(** The function run to the end against a fixed store. *)
Inductive exec_at (s : S) (u : Z) : Ctx → func V → Ctx → func V → Prop :=
  | exec_done c f : exec_at s u c f c f
  | exec_step c f c' f' c'' f'' : op_step_at s u c f = Some (c', f') → exec_at s u c' f' c'' f'' → exec_at s u c f c'' f''.

Definition exec (s : S) (c : Ctx) (f : func V) : Ctx → func V → Prop := exec_at s (snapshotTs c) c f.

(** A function all of whose scans are validated. *)
Fixpoint fully_validated (f : func V) : Prop :=
  match f with
  | FRet _ | FThrow _ => True
  | FGet _ k => ∀ r, fully_validated (k r)
  | FPut _ _ k | FDelete _ k => ∀ r, fully_validated (k r)
  | FScan _ _ _ _ _ validated k => validated = true ∧ ∀ r, fully_validated (k r)
  | FRecordWrite _ k | FRecordUnvalidated _ k | FStage _ k => fully_validated k
  | FOverlay _ _ k => ∀ l, fully_validated (k l)
  end.

(** ** Transactions in flight *)
Inductive phase := Running | Validated | Applied (ts : Z) (entries : list DocumentLogEntry).

Record txn := {
  t_fun : func V;         (** the function, to be replayed from the start on a conflict *)
  t_meta : Meta;          (** [options.commitMeta] *)
  t_attempt : nat;
  t_ctx : Ctx;
  t_rest : func V;        (** what is left of this attempt *)
  t_phase : phase }.

Definition t_snap (t : txn) : Z := snapshotTs (t_ctx t).

(** A commit of the history. *)
Record committed := { c_fun : func V; c_meta : Meta; c_ctx : Ctx; c_value : V; c_ts : Z; c_entries : list DocumentLogEntry }.

Record sys := {
  writer : ShardWriter S;
  lock : option nat;            (** the holder of the commit mutex *)
  txns : list (nat * txn);      (** the calls in flight *)
  history : list committed }.

Context (shard : jsstr) (hlimits : HeadroomLimits) (maxRetries : nat).

(** [snapshotTs = oracle.getLastCommittedTimestamp()] and a fresh context *)
Definition begin_attempt (o : Oracle) (f : func V) (m : Meta) (attempt : nat) : txn :=
  {| t_fun := f; t_meta := m; t_attempt := attempt;
     t_ctx := new_Ctx (getLastCommittedTimestamp o) shard (new_HeadroomTracker hlimits);
     t_rest := f; t_phase := Running |}.

Definition with_active (w : ShardWriter S) (a : list (Z * Z)) : ShardWriter S :=
  {| docStore := docStore w; oracle := oracle w; recentCommits := recentCommits w; activeSnapshots := a |}.
Definition with_store (w : ShardWriter S) (s : S) : ShardWriter S :=
  {| docStore := s; oracle := oracle w; recentCommits := recentCommits w; activeSnapshots := activeSnapshots w |}.
Definition with_phase (t : txn) (p : phase) : txn :=
  {| t_fun := t_fun t; t_meta := t_meta t; t_attempt := t_attempt t; t_ctx := t_ctx t; t_rest := t_rest t; t_phase := p |}.
Definition advance (t : txn) (c : Ctx) (f : func V) : txn :=
  {| t_fun := t_fun t; t_meta := t_meta t; t_attempt := t_attempt t; t_ctx := c; t_rest := f; t_phase := t_phase t |}.

(** The unit an attempt commits. *)
Definition ctx_unit (c : Ctx) (entries : list DocumentLogEntry) (m : Meta) : CommitUnit :=
  {| cu_documents := entries; cu_indexUpdates := stage_updates (indexUpdates c); cu_meta := m |}.

(** The mutex after [tid] is done with it. *)
Definition unlock (lk : option nat) (tid : nat) : option nat := if decide (lk = Some tid) then None else lk.

(** What lands in the [catch] of the attempt: an error the function threw, the conflict validation
    found under the mutex, or the store's refusal. *)
Inductive attempt_fails (σ : sys) (tid : nat) (t : txn) : exn → Prop :=
  | fails_thrown e : t_phase t = Running → t_rest t = FThrow e → attempt_fails σ tid t e
  | fails_conflict v :
      t_phase t = Running → lock σ = None → t_rest t = FRet v → uw_size (staged (t_ctx t)) ≠ 0%nat →
      conflicts (recentCommits (writer σ)) (t_snap t) (validatedReads (t_ctx t)) = true →
      attempt_fails σ tid t OccConflictError
  | fails_refused e :
      t_phase t = Validated → lock σ = Some tid →
      apply_commit (docStore (writer σ)) (t_ctx t) shard (t_meta t) = Err e → attempt_fails σ tid t e.

Inductive step : sys → sys → Prop :=
  (** a call starts: snapshot and retain *)
  | step_begin σ tid f m :
      jm_get (txns σ) tid = None →
      let w := writer σ in let t := begin_attempt (oracle w) f m 0 in
      step σ {| writer := with_active w (retain (activeSnapshots w) (t_snap t)); lock := lock σ;
                txns := jm_set (txns σ) tid t; history := history σ |}
  (** one operation of a running attempt *)
  | step_op σ tid t c f :
      jm_get (txns σ) tid = Some t → t_phase t = Running →
      op_step (docStore (writer σ)) (t_ctx t) (t_rest t) = Some (c, f) →
      step σ {| writer := writer σ; lock := lock σ; txns := jm_set (txns σ) tid (advance t c f); history := history σ |}
  (** the function returned having written nothing: release, done *)
  | step_read_only σ tid t v :
      jm_get (txns σ) tid = Some t → t_phase t = Running → t_rest t = FRet v → uw_size (staged (t_ctx t)) = 0%nat →
      let w := writer σ in
      step σ {| writer := with_active w (release (activeSnapshots w) (t_snap t)); lock := lock σ;
                txns := jm_delete (txns σ) tid; history := history σ |}
  (** a conflict replays from a fresh snapshot while retries are left *)
  | step_retry σ tid t :
      jm_get (txns σ) tid = Some t → attempt_fails σ tid t OccConflictError → (t_attempt t < maxRetries)%nat →
      let w := writer σ in let t' := begin_attempt (oracle w) (t_fun t) (t_meta t) (Datatypes.S (t_attempt t)) in
      step σ {| writer := with_active w (retain (release (activeSnapshots w) (t_snap t)) (t_snap t'));
                lock := unlock (lock σ) tid; txns := jm_set (txns σ) tid t'; history := history σ |}
  (** any other failure, or a conflict with no retries left, is thrown: release, done *)
  | step_fail σ tid t e :
      jm_get (txns σ) tid = Some t → attempt_fails σ tid t e → e ≠ OccConflictError ∨ (maxRetries ≤ t_attempt t)%nat →
      let w := writer σ in
      step σ {| writer := with_active w (release (activeSnapshots w) (t_snap t)); lock := unlock (lock σ) tid;
                txns := jm_delete (txns σ) tid; history := history σ |}
  (** the mutex is taken and validation passes *)
  | step_validate σ tid t v :
      jm_get (txns σ) tid = Some t → t_phase t = Running → lock σ = None →
      t_rest t = FRet v → uw_size (staged (t_ctx t)) ≠ 0%nat →
      conflicts (recentCommits (writer σ)) (t_snap t) (validatedReads (t_ctx t)) = false →
      step σ {| writer := writer σ; lock := Some tid; txns := jm_set (txns σ) tid (with_phase t Validated);
                history := history σ |}
  (** the store lands the commit *)
  | step_apply σ tid t s' ts entries :
      jm_get (txns σ) tid = Some t → t_phase t = Validated → lock σ = Some tid →
      apply_commit (docStore (writer σ)) (t_ctx t) shard (t_meta t) = Ok (s', ts, entries) →
      step σ {| writer := with_store (writer σ) s'; lock := lock σ;
                txns := jm_set (txns σ) tid (with_phase t (Applied ts entries)); history := history σ |}
  (** ring, committed clock, pruning; then the mutex and the snapshot are released *)
  | step_publish σ tid t v ts entries :
      jm_get (txns σ) tid = Some t → t_phase t = Applied ts entries → lock σ = Some tid → t_rest t = FRet v →
      let w := publish_commit (writer σ) (docStore (writer σ)) ts (writeRanges (t_ctx t)) in
      step σ {| writer := with_active w (release (activeSnapshots w) (t_snap t)); lock := None;
                txns := jm_delete (txns σ) tid;
                history := history σ ++ [{| c_fun := t_fun t; c_meta := t_meta t; c_ctx := t_ctx t; c_value := v; c_ts := ts;
                                            c_entries := entries |}] |}.

(** Start: a store, its clock recovered from the store, nothing in flight. *)
Definition initial (s : S) : sys :=
  {| writer := {| docStore := s; oracle := new_Oracle (ms_max s); recentCommits := []; activeSnapshots := [] |};
     lock := None; txns := []; history := [] |}.

Inductive reachable (s0 : S) : sys → Prop :=
  | reach_init : reachable s0 (initial s0)
  | reach_step σ σ' : reachable s0 σ → step σ σ' → reachable s0 σ'.

(** How a commit's context should have been used: the documents it stages are well-formed, every staged
    index update is covered by a recorded write range of that index, and every index entry of a document
    it writes is restaged. The shard writer checks none of this; the executor's write system calls do it
    when they complete ([maintainIndexes] of [packages/executor/src/kernel.ts]). A call whose function
    catches the error of a write that failed half way may commit without it. *)
Record disciplined (s : S) (c : Ctx) (entries : list DocumentLogEntry) (m : Meta) : Prop := {
  di_unit : unit_okb (ctx_unit c entries m) = true;
  di_closed : ms_closed s (ctx_unit c entries m);
  di_covered : ∀ u, u ∈ indexUpdates c → ∃ tn index r, iu_indexId u = encodeStorageIndexId tn index ∧
    r ∈ toArray (writeRanges c) ∧ keyspace r = indexKeyspaceId (encodeStorageTableId tn) index ∧
    keyInRange (iu_key u) r = true }.

(** If the step lands a commit, the commit is disciplined. *)
Definition lands_disciplined (σ σ' : sys) : Prop :=
  ∀ tid t ts entries, jm_get (txns σ) tid = Some t → t_phase t = Validated →
    jm_get (txns σ') tid = Some (with_phase t (Applied ts entries)) →
    disciplined (docStore (writer σ)) (t_ctx t) entries (t_meta t).

(** Reachable by steps that only land disciplined commits. *)
Inductive disciplined_run (s0 : S) : sys → Prop :=
  | disc_init : disciplined_run s0 (initial s0)
  | disc_step σ σ' : disciplined_run s0 σ → step σ σ' → lands_disciplined σ σ' → disciplined_run s0 σ'.

Lemma disciplined_reachable s0 σ : disciplined_run s0 σ → reachable s0 σ.
Proof. induction 1; [constructor|by eapply reach_step]. Qed.

(** The reference: the same functions one at a time, each from start to finish on the store the
    previous one left, with nothing else in flight. Its validated reads are answered by that store as it
    is. The unvalidated scans of a call are answered by the same store as of the snapshot the call had in
    the concurrent run; a function without such scans runs on the store as it is altogether. *)
Inductive serial_run (s0 : S) : list committed → S → Prop :=
  | serial_nil : serial_run s0 [] s0
  | serial_snoc h s1 c x s2 :
      serial_run s0 h s1 →
      ms_max s0 ≤ snapshotTs (c_ctx c) ≤ ms_max s1 →
      exec_at s1 (snapshotTs (c_ctx c)) (new_Ctx (ms_max s1) shard (new_HeadroomTracker hlimits)) (c_fun c) x (FRet (c_value c)) →
      (fully_validated (c_fun c) →
       exec s1 (new_Ctx (ms_max s1) shard (new_HeadroomTracker hlimits)) (c_fun c) x (FRet (c_value c))) →
      apply_commit s1 x shard (c_meta c) = Ok (s2, c_ts c, c_entries c) →
      serial_run s0 (h ++ [c]) s2.
End serial.

(** ** Contexts *)

Definition at_snapshot (c : Ctx) (t : Z) : Ctx :=
  {| snapshotTs := t; shardId := shardId c; reads := reads c; validatedReads := validatedReads c;
     writeRanges := writeRanges c; staged := staged c; indexUpdates := indexUpdates c; headroom := headroom c |}.

(** A key of a keyspace is covered by a range of the set. *)
Definition covers (rs : RangeSet) (ks : jsstr) (key : bytes) : Prop :=
  ∃ r, r ∈ toArray rs ∧ keyspace r = ks ∧ keyInRange key r = true.

Lemma point_covers key ks : keyInRange key (point_range ks key) = true.
Proof.
  apply keyInRange_true. split; [apply (cmp_le_refl compareKeyBytes)|].
  apply before_end_true. simpl. unfold keySuccessor. rewrite compareKeyBytes_lex.
  induction key as [|x key IH]; simpl; [done|]. by rewrite Z.compare_refl.
Qed.

Lemma covers_add rs r ks key : rs_ok rs → covers rs ks key → covers (rs_add rs r) ks key.
Proof. intros Hok (x & Hx & H). exists x. rewrite rs_add_elem by done. auto. Qed.

Lemma covers_addKey rs ks key : rs_ok rs → covers (addKey rs ks key) ks key.
Proof.
  intros Hok. exists (point_range ks key). split_and!; [|done|apply point_covers].
  unfold addKey. rewrite rs_add_elem by done. by left.
Qed.

(** A covered key of both sets makes the sets intersect. *)
Lemma covers_intersects rs rs' ks key : rs_ok rs → rs_ok rs' →
  covers rs ks key → covers rs' ks key → intersects rs rs' = true.
Proof.
  intros H1 H2 (a & Ha & Ka & Ia) (b & Hb & Kb & Ib). apply intersects_true; [done..|].
  exists a, b. split_and!; try done. apply (common_key_overlap a b key); congruence.
Qed.

(** What every context a function builds satisfies. *)
Record ctx_ok (c : Ctx) : Prop := {
  co_rd : rs_ok (reads c);
  co_vr : rs_ok (validatedReads c);
  co_wr : rs_ok (writeRanges c);
  co_cover : ∀ w, w ∈ uw_entries (staged c) →
    covers (writeRanges c) (docKeyspace (lw_id w)) (internalId (lw_id w)) }.

Lemma new_Ctx_ok t sh h : ctx_ok (new_Ctx t sh h).
Proof. split; [apply rs_new_ok..|]. intros w Hw. by apply elem_of_nil in Hw. Qed.

Lemma jm_values_set {K A} `{!EqDecision K} (m : list (K * A)) k v x :
  x ∈ jm_values (jm_set m k v) → x = v ∨ x ∈ jm_values m.
Proof.
  unfold jm_values. induction m as [|[k' v'] m IH]; csimpl; [rewrite list_elem_of_singleton; auto|].
  case_decide; csimpl; rewrite !elem_of_cons; intuition.
Qed.

Lemma ctx_write_ok c id v c' r : ctx_ok c → ctx_write c id v = (c', r) → ctx_ok c'.
Proof.
  intros [H0 H1 H2 H3]. unfold ctx_write. destruct (countWrite (headroom c)) as [h [[]|e]]; intros [= <- <-];
    [|by split].
  split; simpl; [done|done|by apply rs_add_ok|]. intros w [->|Hw]%jm_values_set.
  - by apply covers_addKey.
  - unfold addKey. apply covers_add; auto.
Qed.

Section serial_proofs.
Context {S : Type} `{!MvccStore S} `{!MvccStoreLaws S} {V : Type}.
Implicit Types (s : S) (c : Ctx) (f : func V).

Lemma ctx_get_ok s c id c' r : ctx_ok c → ctx_get s c id = (c', r) → ctx_ok c'.
Proof.
  intros [H0 H1 H2 H3]. unfold ctx_get. destruct (countRead (headroom c)) as [h [[]|e]].
  - simpl. destruct (uw_get (staged c) id); intros [= <- <-]; split; simpl; try done; by apply rs_add_ok.
  - intros [= <- <-]. by split.
Qed.

Lemma op_step_ok s u c f c' f' : ctx_ok c → op_step_at s u c f = Some (c', f') → ctx_ok c'.
Proof.
  intros Hc. destruct f as [v|e|id k|id v k|id k|tn ix iv o lim vd k|r k|r k|us k|tn ix k]; simpl; try done.
  - destruct (ctx_get s c id) eqn:E. intros [= <- <-]. by eapply ctx_get_ok.
  - destruct (ctx_put c id v) eqn:E. intros [= <- <-]. by eapply ctx_write_ok.
  - destruct (ctx_delete c id) eqn:E. intros [= <- <-]. by eapply ctx_write_ok.
  - intros [= <- <-]. destruct Hc. destruct vd; split; simpl; try done; by apply rs_add_ok.
  - intros [= <- <-]. destruct Hc as [H0 H1 H2 H3]. split; simpl; [done|done|by apply rs_add_ok|].
    intros w Hw. apply covers_add; auto.
  - intros [= <- <-]. destruct Hc. split; simpl; try done. by apply rs_add_ok.
  - intros [= <- <-]. by destruct Hc; split.
  - by intros [= <- <-].
Qed.

Lemma exec_ok s u c f c' f' : exec_at s u c f c' f' → ctx_ok c → ctx_ok c'.
Proof. induction 1; eauto using op_step_ok. Qed.

Lemma op_step_snapshot s u c f c' f' : op_step_at s u c f = Some (c', f') → snapshotTs c' = snapshotTs c.
Proof.
  destruct f as [v|e|id k|id v k|id k|tn ix iv o lim vd k|r k|r k|us k|tn ix k]; simpl; try done; try (by intros [= <- <-]).
  - unfold ctx_get. destruct (countRead (headroom c)) as [h [[]|e]]; simpl; [|by intros [= <- <-]].
    destruct (uw_get (staged c) id); by intros [= <- <-].
  - unfold ctx_put, ctx_write. destruct (countWrite (headroom c)) as [h [[]|e]]; by intros [= <- <-].
  - unfold ctx_delete, ctx_write. destruct (countWrite (headroom c)) as [h [[]|e]]; by intros [= <- <-].
  - intros [= <- <-]. by destruct vd.
Qed.

Lemma exec_snapshot s u c f c' f' : exec_at s u c f c' f' → snapshotTs c' = snapshotTs c.
Proof. induction 1 as [|c f c1 f1 c2 f2 H _ IH]; [done|]. by rewrite IH, (op_step_snapshot _ _ _ _ _ _ H). Qed.

Lemma exec_at_snoc s u c f c1 f1 c2 f2 : exec_at s u c f c1 f1 → op_step_at s u c1 f1 = Some (c2, f2) → exec_at s u c f c2 f2.
Proof.
  induction 1 as [|c f c' f' c'' f'' H1 _ IH]; intros H.
  - eapply exec_step; [done|]. apply exec_done.
  - eapply exec_step; [done|]. auto.
Qed.

Lemma exec_snoc s c f c1 f1 c2 f2 : exec s c f c1 f1 → op_step s c1 f1 = Some (c2, f2) → exec s c f c2 f2.
Proof.
  unfold exec, op_step. intros H. rewrite (exec_snapshot _ _ _ _ _ _ H). by apply exec_at_snoc.
Qed.

(** The timestamp of the unvalidated scans is nothing to a function that makes none. *)
Lemma exec_validated s u u' c f c' f' : exec_at s u c f c' f' → fully_validated f → exec_at s u' c f c' f'.
Proof.
  induction 1 as [|c f c1 f1 c2 f2 H1 _ IH]; intros Hf; [constructor|].
  assert (Hs : op_step_at s u' c f = Some (c1, f1) ∧ fully_validated f1).
  { destruct f as [v|e|id k|id v k|id k|tn ix iv o lim vd k|r k|r k|us k|tn ix k]; simpl in *; try done.
    - destruct (ctx_get s c id). by injection H1 as <- <-.
    - destruct (ctx_put c id v). by injection H1 as <- <-.
    - destruct (ctx_delete c id). by injection H1 as <- <-.
    - destruct Hf as [-> Hf]. by injection H1 as <- <-.
    - by injection H1 as <- <-.
    - by injection H1 as <- <-.
    - by injection H1 as <- <-.
    - by injection H1 as <- <-. }
  destruct Hs. eapply exec_step; eauto.
Qed.

(** Two stores that read alike at a snapshot run a function of that snapshot alike. *)
Lemma exec_ext s s' u c f c2 f2 :
  (∀ id, ms_get s' id (Some (snapshotTs c)) = ms_get s id (Some (snapshotTs c))) →
  (∀ ix iv o lim, ms_scan s' ix (snapshotTs c) iv o lim = ms_scan s ix (snapshotTs c) iv o lim) →
  (∀ ix iv o lim, ms_scan s' ix u iv o lim = ms_scan s ix u iv o lim) →
  exec_at s u c f c2 f2 → exec_at s' u c f c2 f2.
Proof.
  intros Hg Hs Hu H. induction H as [|c f c1 f1 c2 f2 H1 H2 IH]; [constructor|].
  pose proof (op_step_snapshot _ _ _ _ _ _ H1) as Hsn. rewrite Hsn in IH.
  eapply exec_step; [|by apply IH]. rewrite <-H1.
  destruct f as [v|e|id k|id v k|id k|tn ix iv o lim vd k|r k|r k|us k|tn ix k]; simpl; try done.
  - unfold ctx_get. destruct (countRead (headroom c)) as [h [[]|e]]; [|done].
    simpl. destruct (uw_get (staged c) id); [done|]. by rewrite Hg.
  - destruct vd; [by rewrite Hs|by rewrite Hu].
Qed.

(** ** Validated reads: what two snapshots must agree on *)
Definition scans_agree s (t t' : Z) (rs : RangeSet) : Prop :=
  ∀ tn ix iv o lim, scan_range tn ix iv ∈ toArray rs →
    ms_scan s (encodeStorageIndexId tn ix) t iv o lim = ms_scan s (encodeStorageIndexId tn ix) t' iv o lim.

Definition agree s (t t' : Z) (vr : RangeSet) : Prop :=
  (∀ id, covers vr (docKeyspace id) (internalId id) → ms_get s id (Some t) = ms_get s id (Some t')) ∧
  scans_agree s t t' vr.

Lemma op_step_mono s u c f c' f' r : ctx_ok c → op_step_at s u c f = Some (c', f') →
  (r ∈ toArray (validatedReads c) → r ∈ toArray (validatedReads c')) ∧ (r ∈ toArray (reads c) → r ∈ toArray (reads c')).
Proof.
  intros [Hrd Hok _ _].
  destruct f as [v|e|id k|id v k|id k|tn ix iv o lim vd k|r' k|r' k|us k|tn ix k]; simpl; try done;
    try (intros [= <- <-]; simpl; try done).
  - unfold ctx_get. destruct (countRead (headroom c)) as [h [[]|e]]; simpl; [|by intros [= <- <-]].
    destruct (uw_get (staged c) id); intros [= <- <-]; simpl; unfold addKey; rewrite !rs_add_elem by done; auto.
  - unfold ctx_put, ctx_write. destruct (countWrite (headroom c)) as [h [[]|e]]; by intros [= <- <-].
  - unfold ctx_delete, ctx_write. destruct (countWrite (headroom c)) as [h [[]|e]]; by intros [= <- <-].
  - destruct vd; simpl; rewrite ?rs_add_elem by done; auto.
  - rewrite rs_add_elem by done; auto.
Qed.

Lemma exec_mono s u c f c' f' r : exec_at s u c f c' f' → ctx_ok c →
  (r ∈ toArray (validatedReads c) → r ∈ toArray (validatedReads c')) ∧ (r ∈ toArray (reads c) → r ∈ toArray (reads c')).
Proof.
  induction 1 as [|c f c1 f1 c2 f2 H1 _ IH]; intros Hc; [done|].
  destruct (op_step_mono _ _ _ _ _ _ r Hc H1), (IH (op_step_ok _ _ _ _ _ _ Hc H1)). auto.
Qed.

(** The replay lemma: a function run at one snapshot runs identically at any snapshot that agrees
    with it on everything the run read under validation, the unvalidated scans being answered as of
    timestamps that agree on the ranges the run reported. *)
Lemma exec_replay_at s u u' c f c2 f2 t' : exec_at s u c f c2 f2 → ctx_ok c →
  agree s (snapshotTs c) t' (validatedReads c2) → scans_agree s u u' (reads c2) →
  exec_at s u' (at_snapshot c t') f (at_snapshot c2 t') f2.
Proof.
  induction 1 as [|c f c1 f1 c2 f2 H1 H2 IH]; intros Hc Ha Hu; [constructor|].
  pose proof (op_step_ok _ _ _ _ _ _ Hc H1) as Hc1. pose proof (op_step_snapshot _ _ _ _ _ _ H1) as Hsn.
  rewrite Hsn in IH. specialize (IH Hc1 Ha Hu). eapply exec_step; [|exact IH].
  destruct Ha as [Hget Hscan]. assert (Hmono := λ r, exec_mono _ _ _ _ _ _ r H2 Hc1).
  destruct f as [v|e|id k|id v k|id k|tn ix iv o lim vd k|r' k|r' k|us k|tn ix k]; simpl in H1 |- *; try done.
  - unfold ctx_get in *. change (headroom (at_snapshot c t')) with (headroom c).
    destruct (countRead (headroom c)) as [h [[]|e]]; [|by injection H1 as <- <-].
    simpl in H1 |- *. destruct (uw_get (staged c) id); [by injection H1 as <- <-|].
    injection H1 as E1 E2. rewrite <-(Hget id).
    + by rewrite <-E2, <-E1.
    + destruct (covers_addKey (validatedReads c) (docKeyspace id) (internalId id) (co_vr c Hc)) as (r & Hr & ?).
      exists r. split; [|done]. apply Hmono. by rewrite <-E1.
  - unfold ctx_put, ctx_write in *. change (headroom (at_snapshot c t')) with (headroom c).
    destruct (countWrite (headroom c)) as [h [[]|e]]; by injection H1 as <- <-.
  - unfold ctx_delete, ctx_write in *. change (headroom (at_snapshot c t')) with (headroom c).
    destruct (countWrite (headroom c)) as [h [[]|e]]; by injection H1 as <- <-.
  - injection H1 as E1 E2. destruct vd; [rewrite <-Hscan|rewrite <-Hu].
    1,3: by rewrite <-E2, <-E1.
    all: apply Hmono; rewrite <-E1; simpl; apply rs_add_elem; [apply Hc|]; by left.
  - by injection H1 as <- <-.
  - by injection H1 as <- <-.
  - by injection H1 as <- <-.
  - by injection H1 as <- <-.
Qed.

Lemma exec_replay s u c f c2 f2 t' : exec_at s u c f c2 f2 → ctx_ok c →
  agree s (snapshotTs c) t' (validatedReads c2) → exec_at s u (at_snapshot c t') f (at_snapshot c2 t') f2.
Proof. intros H Hc Ha. eapply exec_replay_at; [done..|]. by intros ?. Qed.

(** ** What a landed commit did, as seen in any later store *)
Record landed s c (ts : Z) (entries : list DocumentLogEntry) : Prop := {
  la_ids : Forall2 (λ w e, le_id e = lw_id w ∧
             option_map rd_value (le_value e) = lw_value w) (uw_entries (staged c)) entries;
  la_prev : ∀ e, e ∈ entries → ∃ p, ms_get s (le_id e) (Some (ts - 1)) = Ok p ∧ le_prev_ts e = option_map ld_ts p;
  la_new : ∀ e, e ∈ entries → ms_get s (le_id e) (Some ts) = Ok (latest_of e ts);
  la_frame : ∀ id, id ∉ (le_id <$> entries) → ms_get s id (Some ts) = ms_get s id (Some (ts - 1));
  la_scan : ∀ ix iv o lim,
    (∀ u, u ∈ indexUpdates c → iu_indexId u = ix → in_interval (iu_key u) iv = false) →
    ms_scan s ix ts iv o lim = ms_scan s ix (ts - 1) iv o lim;
  la_covered : ∀ u, u ∈ indexUpdates c → ∃ tn index, iu_indexId u = encodeStorageIndexId tn index ∧
    covers (writeRanges c) (indexKeyspaceId (encodeStorageTableId tn) index) (iu_key u);
  la_ctx : ctx_ok c }.

(** Reads at [t] are the same in both stores. *)
Definition same_view s s' (t : Z) : Prop :=
  (∀ id, ms_get s' id (Some t) = ms_get s id (Some t)) ∧
  (∀ ix iv o lim, ms_scan s' ix t iv o lim = ms_scan s ix t iv o lim).

Lemma landed_stable s s' c ts entries : same_view s s' ts → same_view s s' (ts - 1) →
  landed s c ts entries → landed s' c ts entries.
Proof.
  intros [G1 S1] [G2 S2] [H1 H2 H3 H4 H5 H6 H7]. split; try done.
  - intros e He. rewrite G2. auto.
  - intros e He. rewrite G1. auto.
  - intros id Hid. rewrite G1, G2. auto.
  - intros. rewrite S1, S2. auto.
Qed.

Lemma landed_ids s c ts entries id : landed s c ts entries → id ∈ (le_id <$> entries) →
  covers (writeRanges c) (docKeyspace id) (internalId id).
Proof.
  intros Hl (e & -> & He)%list_elem_of_fmap. pose proof (la_ids _ _ _ _ Hl) as H2.
  apply list_elem_of_lookup in He as [i Hi]. pose proof (Forall2_lookup_r _ _ _ _ _ H2 Hi) as (w & Hw & -> & _).
  apply (la_ctx _ _ _ _ Hl). by eapply list_elem_of_lookup_2.
Qed.

(** A commit that does not intersect the validated reads changes nothing they read. *)
Lemma landed_agree s c ts entries vr : landed s c ts entries → rs_ok vr →
  intersects vr (writeRanges c) = false → agree s (ts - 1) ts vr.
Proof.
  intros Hl Hvr Hni. pose proof (la_ctx _ _ _ _ Hl) as Hc. split.
  - intros id Hid. destruct (decide (id ∈ (le_id <$> entries))) as [Hin|Hin].
    + exfalso. rewrite (covers_intersects vr (writeRanges c) (docKeyspace id) (internalId id)) in Hni;
        try done; [apply Hc|]. by eapply landed_ids.
    + symmetry. by apply (la_frame _ _ _ _ Hl).
  - intros tn ix iv o lim Hr. symmetry. apply (la_scan _ _ _ _ Hl). intros u Hu Eu.
    apply not_true_iff_false. intros Hin.
    destruct (la_covered _ _ _ _ Hl u Hu) as (tn' & ix' & Eu' & Hcov).
    rewrite Eu in Eu'. apply encodeStorageIndexId_inj in Eu' as [<- <-].
    rewrite (covers_intersects vr (writeRanges c) (indexKeyspaceId (encodeStorageTableId tn) ix) (iu_key u)
      Hvr (co_wr c Hc)) in Hni; [done| |exact Hcov].
    exists (scan_range tn ix iv). split_and!; [done|done|]. apply keyInRange_true. simpl.
    unfold in_interval in Hin. apply andb_true_iff in Hin as [H1 H2]. split; [|done].
    unfold cmp_le. by destruct (compareKeyBytes (iv_start iv) (iu_key u)).
Qed.

Lemma agree_trans s t1 t2 t3 vr : agree s t1 t2 vr → agree s t2 t3 vr → agree s t1 t3 vr.
Proof.
  intros [G1 S1] [G2 S2]. split; [intros; rewrite G1 by done; auto|].
  intros tn ix iv o lim Hr. rewrite S1 by done. auto.
Qed.

(** Chain the commits between two timestamps. *)
Lemma chain_agree s vr t n :
  (∀ ts, t < ts ≤ t + Z.of_nat n → agree s (ts - 1) ts vr) → agree s t (t + Z.of_nat n) vr.
Proof.
  induction n as [|n IH]; intros H.
  - rewrite Z.add_0_r. split; done.
  - eapply agree_trans; [apply IH; intros; apply H; lia|].
    replace (t + Z.of_nat n) with (t + Z.of_nat (Datatypes.S n) - 1) by lia. apply H. lia.
Qed.

(** ** One commit lands *)
Lemma stage_entries_spec s st entries : stage_entries s st = Ok entries →
  Forall2 (λ w e, ∃ p, ms_get s (lw_id w) None = Ok p ∧ e = log_entry w p) (uw_entries st) entries.
Proof.
  unfold stage_entries. revert entries. induction (uw_entries st) as [|w l IH]; intros entries; simpl.
  - intros [= <-]. constructor.
  - destruct (ms_get s (lw_id w) None) as [p|e] eqn:E; [|done]. cbn [res_bind].
    destruct (traverse _ l) as [es|e]; [|done]. cbn [res_bind]. intros [= <-].
    constructor; [eauto|]. by apply IH.
Qed.

Lemma apply_commit_landed s c sh m s' ts entries : ms_ok s → ctx_ok c →
  apply_commit s c sh m = Ok (s', ts, entries) → disciplined s c entries m →
  ms_ok s' ∧ ts = ms_max s + 1 ∧ ms_max s' = ts ∧ landed s' c ts entries ∧
  (∀ t, t ≤ ms_max s → same_view s s' t).
Proof.
  intros Hs Hc. unfold apply_commit. destruct (stage_entries s (staged c)) as [es|] eqn:Ee; [|done]. cbn [res_bind].
  fold (ctx_unit c es m). destruct (ms_commit s [ctx_unit c es m] (Some sh)) as [[s1 tss]|] eqn:Ec; [|done].
  cbn [res_bind]. destruct tss as [|ts0 tss]; [done|]. intros [= -> -> ->] [Du Dc Dv].
  assert (Hu : Forall (λ u, unit_okb u = true) [ctx_unit c entries m]) by (by constructor).
  destruct (ms_commit_ok _ _ _ _ _ Hs Hu Ec) as (Hs' & Hn & Hts & Hm).
  cbn [length] in Hts, Hm. change (Z.of_nat 1) with 1 in Hts, Hm.
  rewrite (seqZ_cons _ 1) in Hts by lia. injection Hts as -> _.
  assert (Hview : ∀ t, t ≤ ms_max s → same_view s s' t).
  { intros t Ht. split; intros; [by eapply ms_get_old|by eapply ms_scan_old]. }
  split_and!; try done. pose proof (stage_entries_spec _ _ _ Ee) as Hes.
  replace (ms_max s + 1) with (ms_max s + 1 + Z.of_nat 0) by lia.
  split.
  - eapply Forall2_impl; [exact Hes|]. intros w e (p & _ & ->). simpl. split; [done|]. by destruct (lw_value w).
  - intros e He. apply list_elem_of_lookup in He as [i Hi].
    pose proof (Forall2_lookup_r _ _ _ _ _ Hes Hi) as (w & _ & p & Hp & ->). exists p.
    replace (ms_max s + 1 + Z.of_nat 0 - 1) with (ms_max s) by lia. simpl.
    destruct (Hview (ms_max s) (Z.le_refl _)) as [-> _]. rewrite ms_get_latest by lia. split; [done|]. by destruct p.
  - intros e He. eapply (ms_get_new s _ _ _ _ 0); [done|done|exact Ec|done|done].
  - intros id Hid. replace (ms_max s + 1 + Z.of_nat 0 - 1) with (ms_max s + Z.of_nat 0) by lia.
    eapply (ms_get_frame s _ _ _ _ 0); [done|done|exact Ec|done|done].
  - intros ix iv o lim Hsc. replace (ms_max s + 1 + Z.of_nat 0 - 1) with (ms_max s + Z.of_nat 0) by lia.
    eapply (ms_scan_frame s _ _ _ _ 0); [done|done|exact Ec|done|done|lia|]. simpl.
    intros w Hw. unfold stage_updates in Hw. apply list_elem_of_In, in_map_iff in Hw as (u & <- & Hu'%list_elem_of_In).
    simpl. by apply Hsc.
  - intros u Hu'. destruct (Dv u Hu') as (tn & index & r & E1 & E2 & E3 & E4). exists tn, index. split; [done|].
    by exists r.
  - done.
Qed.
End serial_proofs.

(** ** Reference-counted snapshots *)

(** The map holds exactly the positive counts. *)
Definition active_ok (a : list (Z * Z)) (cnt : Z → Z) : Prop :=
  jm_ok a ∧ ∀ ts, 0 ≤ cnt ts ∧ jm_get a ts = if 0 <? cnt ts then Some (cnt ts) else None.

Definition indicator (a b : Z) : Z := if a =? b then 1 else 0.

Lemma active_retain a cnt cnt' t :
  active_ok a cnt → (∀ ts, cnt' ts = cnt ts + indicator t ts) → active_ok (retain a t) cnt'.
Proof.
  intros [Hk Ha] Hc. unfold retain. split; [by apply jm_set_ok|]. intros ts. rewrite jm_get_set.
  rewrite Hc. unfold indicator. destruct (Ha ts) as [H0 H1].
  case_decide as Hd.
  - subst ts. rewrite Z.eqb_refl, H1. rewrite (proj2 (Z.ltb_lt 0 (cnt t + 1))) by lia.
    split; [lia|]. destruct (Z.ltb_spec 0 (cnt t)); simpl; do 2 f_equal; lia.
  - rewrite (proj2 (Z.eqb_neq t ts)) by congruence. rewrite Z.add_0_r. done.
Qed.

Lemma active_release a cnt cnt' t :
  active_ok a cnt → 0 < cnt t → (∀ ts, cnt' ts = cnt ts - indicator t ts) → active_ok (release a t) cnt'.
Proof.
  intros [Hk Ha] Hpos Hc. unfold release. destruct (Ha t) as [_ Ht].
  rewrite (proj2 (Z.ltb_lt 0 (cnt t))) in Ht by done. rewrite Ht. cbv zeta. cbn [default from_option id]. unfold id.
  assert (Hother : ∀ ts, ts ≠ t → cnt' ts = cnt ts).
  { intros ts Hne. rewrite Hc. unfold indicator. rewrite (proj2 (Z.eqb_neq t ts)) by congruence. lia. }
  assert (Hself : cnt' t = cnt t - 1) by (rewrite Hc; unfold indicator; by rewrite Z.eqb_refl).
  destruct (Z.leb_spec (cnt t - 1) 0); split; try (by apply jm_delete_ok); try (by apply jm_set_ok); intros ts.
  - rewrite jm_get_delete by done. case_decide as Hd.
    + subst ts. rewrite Hself. rewrite (proj2 (Z.ltb_ge 0 (cnt t - 1))) by lia. split; [lia|done].
    + rewrite Hother by done. apply Ha.
  - rewrite jm_get_set. case_decide as Hd.
    + subst ts. rewrite Hself. rewrite (proj2 (Z.ltb_lt 0 (cnt t - 1))) by lia. split; [lia|done].
    + rewrite Hother by done. apply Ha.
Qed.

Lemma fold_min_spec l m :
  match fold_left (λ m ts, match m with None => Some ts | Some x => if ts <? x then Some ts else m end) l m with
  | None => l = [] ∧ m = None
  | Some r => (∀ x, x ∈ l → r ≤ x) ∧ (∀ x, m = Some x → r ≤ x)
  end.
Proof.
  revert m. induction l as [|y l IH]; intros m; simpl.
  - destruct m; [|done]. split; [by intros x Hx%elem_of_nil|]. intros x [= ->]. lia.
  - specialize (IH (match m with None => Some y | Some x => if y <? x then Some y else m end)).
    destruct (fold_left _ l _) as [r|].
    + destruct IH as [H1 H2]. split.
      * intros x [->|Hx]%elem_of_cons; [|auto]. destruct m as [z|]; [|auto].
        destruct (Z.ltb_spec y z) as [Hlt|Hge]; [auto|]. specialize (H2 z eq_refl). lia.
      * intros x ->. destruct (Z.ltb_spec y x) as [Hlt|Hge]; [|auto]. specialize (H2 y eq_refl). lia.
    + destruct IH as [_ IH]. destruct m as [z|]; [by destruct (y <? z)|done].
Qed.

Lemma minActive_le a o ts : ts ∈ jm_keys a → minActiveSnapshot a o ≤ ts.
Proof.
  intros H. unfold minActiveSnapshot. pose proof (fold_min_spec (jm_keys a) None) as Hs.
  destruct (fold_left _ _ None) as [r|]; simpl.
  - destruct Hs as [Hs _]. auto.
  - destruct Hs as [Hs _]. rewrite Hs in H. by apply elem_of_nil in H.
Qed.

(** Pruning keeps every commit above an active snapshot. *)
Lemma prune_keeps ring a o c ts : ts ∈ jm_keys a → ts < rc_ts c → c ∈ ring → c ∈ prune ring a o.
Proof.
  intros Hts Hlt Hc. unfold prune. destruct (existsb _ ring); [|done].
  apply list_elem_of_In, filter_In. rewrite <-list_elem_of_In. split; [done|].
  apply Z.ltb_lt. pose proof (minActive_le a o ts Hts). lia.
Qed.

Lemma prune_sub ring a o c : c ∈ prune ring a o → c ∈ ring.
Proof.
  unfold prune. destruct (existsb _ ring); [|done]. intros [H _]%list_elem_of_In%filter_In.
  by apply list_elem_of_In.
Qed.

(** Counting the entries of a map that satisfy a test. *)
Section jm_count.
Context {K A : Type} `{!EqDecision K} (p : A → bool).

Definition jm_count (m : list (K * A)) : Z := Z.of_nat (length (List.filter (λ x, p x.2) m)).

Lemma jm_count_set m k v : jm_ok m →
  jm_count (jm_set m k v) = jm_count m - match jm_get m k with Some w => Z.b2z (p w) | None => 0 end + Z.b2z (p v).
Proof.
  unfold jm_count, jm_ok. induction m as [|[k' v'] m IH]; csimpl; intros Hm.
  - simpl. destruct (p v); simpl; lia.
  - apply NoDup_cons in Hm as [_ Hm]. case_decide; simpl.
    + destruct (p v), (p v'); simpl; lia.
    + specialize (IH Hm). destruct (p v'); simpl; lia.
Qed.

Lemma jm_count_delete m k : jm_ok m →
  jm_count (jm_delete m k) = jm_count m - match jm_get m k with Some w => Z.b2z (p w) | None => 0 end.
Proof.
  unfold jm_count, jm_ok. induction m as [|[k' v'] m IH]; csimpl; intros Hm; [simpl; lia|].
  apply NoDup_cons in Hm as [_ Hm]. case_decide; simpl.
  - destruct (p v'); simpl; lia.
  - specialize (IH Hm). destruct (p v'); simpl; lia.
Qed.

Lemma jm_count_pos m k v : jm_get m k = Some v → p v = true → 0 < jm_count m.
Proof.
  unfold jm_count. induction m as [|[k' v'] m IH]; simpl; [done|]. case_decide.
  - intros [= ->] ->. simpl. lia.
  - intros H1 H2. specialize (IH H1 H2). destruct (p v'); simpl; lia.
Qed.
End jm_count.

(** How many entries of a map have a given timestamp. *)
Section count_at.
Context {K A : Type} `{!EqDecision K} (f : A → Z).

Definition count_at (m : list (K * A)) (ts : Z) : Z := jm_count (λ x, f x =? ts) m.

Lemma count_at_set m k x ts : jm_ok m →
  count_at (jm_set m k x) ts = count_at m ts
    - match jm_get m k with Some x0 => indicator (f x0) ts | None => 0 end + indicator (f x) ts.
Proof.
  intros Hm. unfold count_at, indicator. rewrite jm_count_set by done.
  destruct (jm_get m k) as [x0|]; [destruct (f x0 =? ts)|]; destruct (f x =? ts); simpl; lia.
Qed.

Lemma count_at_delete m k x ts : jm_ok m → jm_get m k = Some x →
  count_at (jm_delete m k) ts = count_at m ts - indicator (f x) ts.
Proof.
  intros Hm Hx. unfold count_at, indicator. rewrite jm_count_delete by done. rewrite Hx.
  destruct (f x =? ts); simpl; lia.
Qed.

Lemma count_at_pos m k x : jm_get m k = Some x → 0 < count_at m (f x).
Proof. intros Hx. eapply jm_count_pos; [exact Hx|]. apply Z.eqb_refl. Qed.

(** A counted timestamp is a key of the reference counts. *)
Lemma count_at_key a m k x : active_ok a (count_at m) → jm_get m k = Some x → f x ∈ jm_keys a.
Proof.
  intros [_ Ha] Hx. destruct (Ha (f x)) as [_ Hg].
  rewrite (proj2 (Z.ltb_lt _ _)) in Hg by (by eapply count_at_pos).
  apply jm_get_in in Hg. unfold jm_keys. by apply (list_elem_of_fmap_2 fst) in Hg.
Qed.
End count_at.

Section invariant.
Context {S : Type} `{!MvccStore S} `{!MvccStoreLaws S} {V : Type}.
Context (shard : jsstr) (hlimits : HeadroomLimits) (maxRetries : nat) (s0 : S).

Abbreviation txn := (@txn V).
Abbreviation sys := (@sys S V).
Abbreviation fresh t := (new_Ctx t shard (new_HeadroomTracker hlimits)).

Definition clock (σ : sys) : Z := getLastCommittedTimestamp (oracle (writer σ)).
Abbreviation snap_count := (count_at (K := nat) (A := txn) t_snap).
Definition ring_entry (c : committed) : RecentCommit :=
  {| rc_ts := c_ts c; rc_writes := writeRanges (c_ctx (V := V) c) |}.

(** What holds of a transaction in flight. *)
Record txn_inv (s : S) (lc : Z) (lk : option nat) (tid : nat) (t : txn) : Prop := {
  ti_snap : ms_max s0 ≤ t_snap t ≤ lc;
  ti_run : exec s (fresh (t_snap t)) (t_fun t) (t_ctx t) (t_rest t);
  ti_lock : t_phase t ≠ Running → lk = Some tid ∧ agree s (t_snap t) lc (validatedReads (t_ctx t));
  ti_applied : ∀ ts es, t_phase t = Applied ts es → ts = lc + 1 ∧ ms_max s = ts ∧ landed s (t_ctx t) ts es }.

Record sys_inv (σ : sys) : Prop := {
  si_ok : ms_ok (docStore (writer σ));
  si_keys : jm_ok (txns σ);
  si_active : active_ok (activeSnapshots (writer σ)) (snap_count (txns σ));
  si_txn : ∀ tid t, jm_get (txns σ) tid = Some t → txn_inv (docStore (writer σ)) (clock σ) (lock σ) tid t;
  si_clock : clock σ ≤ ms_max (docStore (writer σ)) ∧
    ((∀ tid t ts es, jm_get (txns σ) tid = Some t → t_phase t ≠ Applied ts es) → ms_max (docStore (writer σ)) = clock σ);
  si_times : ms_max s0 ≤ clock σ ∧ c_ts <$> history σ = seqZ (ms_max s0 + 1) (clock σ - ms_max s0);
  si_landed : ∀ c, c ∈ history σ → landed (docStore (writer σ)) (c_ctx c) (c_ts c) (c_entries c);
  si_ring : ∀ c tid t, c ∈ history σ → jm_get (txns σ) tid = Some t → t_snap t < c_ts c →
    ring_entry c ∈ recentCommits (writer σ);
  si_serial : ∀ c, c ∈ history σ → ms_max s0 ≤ snapshotTs (c_ctx c) ≤ c_ts c - 1 ∧
    exec_at (docStore (writer σ)) (snapshotTs (c_ctx c)) (fresh (c_ts c - 1)) (c_fun c)
      (at_snapshot (c_ctx c) (c_ts c - 1)) (FRet (c_value c)) }.

Lemma history_ts σ c : sys_inv σ → c ∈ history σ → ms_max s0 < c_ts c ≤ clock σ.
Proof.
  intros Hi Hc. destruct (si_times σ Hi) as [H0 Ht].
  assert (Hin : c_ts c ∈ c_ts <$> history σ) by (by apply list_elem_of_fmap_2).
  rewrite Ht in Hin. apply elem_of_seqZ in Hin. lia.
Qed.

Lemma history_at σ ts : sys_inv σ → ms_max s0 < ts ≤ clock σ → ∃ c, c ∈ history σ ∧ c_ts c = ts.
Proof.
  intros Hi Hts. destruct (si_times σ Hi) as [H0 Ht].
  assert (Hin : ts ∈ c_ts <$> history σ) by (rewrite Ht; apply elem_of_seqZ; lia).
  apply list_elem_of_fmap in Hin as (c & -> & Hc). eauto.
Qed.

Lemma txn_ctx_ok s lc lk tid t : txn_inv s lc lk tid t → ctx_ok (t_ctx t).
Proof. intros [_ Hr _ _]. eapply exec_ok; [exact Hr|]. apply new_Ctx_ok. Qed.

(** Validation against the ring is validation against every commit since the snapshot. *)
Lemma validated_agree σ tid t : sys_inv σ → jm_get (txns σ) tid = Some t →
  conflicts (recentCommits (writer σ)) (t_snap t) (validatedReads (t_ctx t)) = false →
  agree (docStore (writer σ)) (t_snap t) (clock σ) (validatedReads (t_ctx t)).
Proof.
  intros Hi Ht Hc. pose proof (si_txn σ Hi _ _ Ht) as Hti. pose proof (ti_snap _ _ _ _ _ Hti) as Hsn.
  pose proof (txn_ctx_ok _ _ _ _ _ Hti) as [_ Hvr _ _].
  replace (clock σ) with (t_snap t + Z.of_nat (Z.to_nat (clock σ - t_snap t))) by lia.
  apply chain_agree. intros ts Hts. destruct (history_at σ ts Hi) as (c & Hin & <-); [lia|].
  eapply landed_agree; [by apply si_landed|done|]. apply not_true_iff_false. intros Hx.
  assert (conflicts (recentCommits (writer σ)) (t_snap t) (validatedReads (t_ctx t)) = true); [|congruence].
  unfold conflicts. apply existsb_Exists. exists (ring_entry c). split.
  - eapply si_ring; [done|done|exact Ht|lia].
  - simpl. rewrite Hx, andb_true_r. apply Z.ltb_lt. lia.
Qed.

(** Moving to a store that reads alike at every snapshot up to the clock. *)
Lemma txn_inv_view s s' lc lk tid t : (∀ t', t' ≤ lc → same_view s s' t') →
  (∀ ts es, t_phase t ≠ Applied ts es) → txn_inv s lc lk tid t → txn_inv s' lc lk tid t.
Proof.
  intros Hv Hna [H1 H2 H3 H4]. split; [done|..].
  - destruct (Hv (t_snap t) ltac:(lia)) as [G Sc]. unfold exec. by eapply exec_ext.
  - intros Hp. destruct (H3 Hp) as [? [Ag As]]. split; [done|].
    destruct (Hv (t_snap t) ltac:(lia)) as [G1 S1], (Hv lc ltac:(lia)) as [G2 S2].
    split; [intros; rewrite G1, G2; auto|]. intros tn ix iv o lim Hr. rewrite S1, S2. auto.
  - intros ts es Hp. exfalso. by eapply Hna.
Qed.

Lemma same_lock_unique σ tid t tid' t' : sys_inv σ → jm_get (txns σ) tid = Some t → jm_get (txns σ) tid' = Some t' →
  t_phase t ≠ Running → t_phase t' ≠ Running → tid = tid'.
Proof.
  intros Hi Ht Ht' H1 H2. destruct (ti_lock _ _ _ _ _ (si_txn σ Hi _ _ Ht) H1) as [E1 _].
  destruct (ti_lock _ _ _ _ _ (si_txn σ Hi _ _ Ht') H2) as [E2 _]. congruence.
Qed.

Abbreviation step := (@step S _ V shard hlimits maxRetries).

Definition no_applied (l : list (nat * txn)) : Prop :=
  ∀ tid t ts es, jm_get l tid = Some t → t_phase t ≠ Applied ts es.

(** Steps that leave the store, the clock, the ring and the history alone. *)
Lemma inv_txns (σ : sys) a lk l :
  sys_inv σ → jm_ok l → active_ok a (snap_count l) →
  (∀ tid t, jm_get l tid = Some t → txn_inv (docStore (writer σ)) (clock σ) lk tid t) →
  (no_applied l → no_applied (txns σ)) →
  (∀ c tid t, c ∈ history σ → jm_get l tid = Some t → t_snap t < c_ts c → ring_entry c ∈ recentCommits (writer σ)) →
  sys_inv {| writer := with_active (writer σ) a; lock := lk; txns := l; history := history σ |}.
Proof.
  intros [I1 I2 I3 I4 I5 I6 I7 I8 I9] H1 H2 H3 H4 H5. split; simpl; try done.
  destruct I5 as [I5 I5']. split; [done|]. intros Hna. by apply I5', H4.
Qed.

Lemma with_active_id (w : ShardWriter S) : with_active w (activeSnapshots w) = w.
Proof. by destruct w. Qed.

Lemma txn_inv_begin σ tid lk f m n : sys_inv σ →
  txn_inv (docStore (writer σ)) (clock σ) lk tid (begin_attempt shard hlimits (oracle (writer σ)) f m n).
Proof.
  intros Hi. split; simpl; try done.
  - split; [apply Hi|]. unfold t_snap, clock. simpl. lia.
  - constructor.
Qed.

Lemma snap_in_keys σ tid t : sys_inv σ → jm_get (txns σ) tid = Some t →
  t_snap t ∈ jm_keys (activeSnapshots (writer σ)).
Proof.
  intros Hi Ht. exact (count_at_key _ _ _ _ _ (si_active σ Hi) Ht).
Qed.

Lemma inv_begin σ tid f m : sys_inv σ → jm_get (txns σ) tid = None →
  let w := writer σ in let t := begin_attempt shard hlimits (oracle w) f m 0 in
  sys_inv {| writer := with_active w (retain (activeSnapshots w) (t_snap t)); lock := lock σ;
             txns := jm_set (txns σ) tid t; history := history σ |}.
Proof.
  intros Hi Hn w t. pose proof (si_keys σ Hi) as Hk. apply inv_txns; [done|by apply jm_set_ok|..].
  - eapply active_retain; [apply Hi|]. intros ts. rewrite count_at_set, Hn by done. lia.
  - intros tid' t'. rewrite jm_get_set. case_decide; [intros [= <-]; by apply txn_inv_begin|apply Hi].
  - intros Hna tid' t' ts es Ht'. apply (Hna tid' t'). rewrite jm_get_set, decide_False; congruence.
  - intros c tid' t' Hc. rewrite jm_get_set. case_decide.
    + intros [= <-] Hlt. pose proof (history_ts σ c Hi Hc). unfold t, t_snap, clock, w in *. simpl in Hlt. lia.
    + intros Ht' Hlt. by eapply si_ring.
Qed.

Lemma inv_op σ tid t c f : sys_inv σ → jm_get (txns σ) tid = Some t → t_phase t = Running →
  op_step (docStore (writer σ)) (t_ctx t) (t_rest t) = Some (c, f) →
  sys_inv {| writer := writer σ; lock := lock σ; txns := jm_set (txns σ) tid (advance t c f); history := history σ |}.
Proof.
  intros Hi Ht Hp Hop. pose proof (si_keys σ Hi) as Hk. pose proof (op_step_snapshot _ _ _ _ _ _ Hop) as Hsn.
  assert (Hs : t_snap (advance t c f) = t_snap t) by done.
  rewrite <-(with_active_id (writer σ)). apply inv_txns; [done|by apply jm_set_ok|..].
  - destruct (si_active σ Hi) as [Ha1 Ha2]. split; [done|]. intros ts.
    rewrite count_at_set, Ht, Hs by done. replace (_ - _ + _) with (snap_count (txns σ) ts) by lia. apply Ha2.
  - intros tid' t'. rewrite jm_get_set. case_decide as Hd; [intros [= <-]|apply Hi].
    destruct (si_txn σ Hi _ _ Ht) as [H1 H2 H3 H4]. split; try done.
    + by rewrite Hs.
    + rewrite Hs. eapply exec_snoc; [exact H2|exact Hop].
    + cbn [t_phase advance]. rewrite Hp. done.
  - intros Hna tid' t' ts es Ht'. destruct (decide (tid' = tid)) as [->|]; [congruence|].
    apply (Hna tid' t'). by rewrite jm_get_set, decide_False.
  - intros c' tid' t' Hc. rewrite jm_get_set. case_decide as Hd; [intros [= <-]; rewrite Hs|]; by eapply si_ring.
Qed.

(** A call leaves: its snapshot is released. *)
Lemma inv_remove σ tid t lk : sys_inv σ → jm_get (txns σ) tid = Some t → (∀ ts es, t_phase t ≠ Applied ts es) →
  (∀ tid', tid' ≠ tid → lock σ = Some tid' → lk = Some tid') →
  let w := writer σ in
  sys_inv {| writer := with_active w (release (activeSnapshots w) (t_snap t)); lock := lk;
             txns := jm_delete (txns σ) tid; history := history σ |}.
Proof.
  intros Hi Ht Hna Hlk w. pose proof (si_keys σ Hi) as Hk. apply inv_txns; [done|by apply jm_delete_ok|..].
  - eapply active_release; [apply Hi|by eapply count_at_pos|]. intros ts. by apply count_at_delete.
  - intros tid' t'. rewrite jm_get_delete by done. case_decide as Hd; [done|]. intros Ht'.
    destruct (si_txn σ Hi _ _ Ht') as [H1 H2 H3 H4]. split; try done.
    intros Hp. destruct (H3 Hp). auto.
  - intros Hna' tid' t' ts es Ht'. destruct (decide (tid' = tid)) as [->|]; [naive_solver|].
    apply (Hna' tid' t'). by rewrite jm_get_delete, decide_False.
  - intros c tid' t' Hc. rewrite jm_get_delete by done. case_decide; [done|]. by eapply si_ring.
Qed.

Lemma inv_validate σ tid t v : sys_inv σ → jm_get (txns σ) tid = Some t → t_phase t = Running → lock σ = None →
  t_rest t = FRet v → conflicts (recentCommits (writer σ)) (t_snap t) (validatedReads (t_ctx t)) = false →
  sys_inv {| writer := writer σ; lock := Some tid; txns := jm_set (txns σ) tid (with_phase t Validated);
             history := history σ |}.
Proof.
  intros Hi Ht Hp Hlk Hr Hc. pose proof (si_keys σ Hi) as Hk.
  assert (Hs : t_snap (with_phase t Validated) = t_snap t) by done.
  rewrite <-(with_active_id (writer σ)). apply inv_txns; [done|by apply jm_set_ok|..].
  - destruct (si_active σ Hi) as [Ha1 Ha2]. split; [done|]. intros ts.
    rewrite count_at_set, Ht, Hs by done. replace (_ - _ + _) with (snap_count (txns σ) ts) by lia. apply Ha2.
  - intros tid' t'. rewrite jm_get_set. case_decide as Hd.
    + intros [= <-]. subst tid'. destruct (si_txn σ Hi _ _ Ht) as [H1 H2 H3 H4]. split; try done.
      intros _. split; [done|]. exact (validated_agree σ tid t Hi Ht Hc).
    + intros Ht'. destruct (si_txn σ Hi _ _ Ht') as [H1 H2 H3 H4]. split; try done.
      intros Hp'. destruct (H3 Hp') as [E _]. congruence.
  - intros Hna tid' t' ts es Ht'. destruct (decide (tid' = tid)) as [->|]; [congruence|].
    apply (Hna tid' t'). by rewrite jm_get_set, decide_False.
  - intros c' tid' t' Hc'. rewrite jm_get_set. case_decide as Hd; [intros [= <-]; rewrite Hs|]; by eapply si_ring.
Qed.

Lemma inv_retry σ tid t lk : sys_inv σ → jm_get (txns σ) tid = Some t → (∀ ts es, t_phase t ≠ Applied ts es) →
  (∀ tid', tid' ≠ tid → lock σ = Some tid' → lk = Some tid') →
  let w := writer σ in let t' := begin_attempt shard hlimits (oracle w) (t_fun t) (t_meta t) (Datatypes.S (t_attempt t)) in
  sys_inv {| writer := with_active w (retain (release (activeSnapshots w) (t_snap t)) (t_snap t')); lock := lk;
             txns := jm_set (txns σ) tid t'; history := history σ |}.
Proof.
  intros Hi Ht Hna Hlk w t'. pose proof (si_keys σ Hi) as Hk. apply inv_txns; [done|by apply jm_set_ok|..].
  - eapply active_retain.
    + eapply (active_release _ _ (λ ts, snap_count (txns σ) ts - indicator (t_snap t) ts));
        [apply Hi|by eapply count_at_pos|done].
    + intros ts. rewrite count_at_set, Ht by done. done.
  - intros tid' t2. rewrite jm_get_set. case_decide; [intros [= <-]; by apply txn_inv_begin|]. intros Ht2.
    destruct (si_txn σ Hi _ _ Ht2) as [H1 H2 H3 H4]. split; try done. intros Hp. destruct (H3 Hp). auto.
  - intros Hna' tid' t2 ts es Ht2. destruct (decide (tid' = tid)) as [->|]; [naive_solver|].
    apply (Hna' tid' t2). by rewrite jm_get_set, decide_False.
  - intros c tid' t2 Hc. rewrite jm_get_set. case_decide.
    + intros [= <-] Hlt. pose proof (history_ts σ c Hi Hc). unfold t', t_snap, clock, w in *. simpl in Hlt. lia.
    + intros Ht2 Hlt. by eapply si_ring.
Qed.

Lemma unlock_other lk tid tid' : tid' ≠ tid → lk = Some tid' → unlock lk tid = Some tid'.
Proof. intros Hne ->. unfold unlock. case_decide; congruence. Qed.

Lemma attempt_fails_phase (σ : sys) tid (t : txn) e ts es : attempt_fails shard σ tid t e → t_phase t ≠ Applied ts es.
Proof. destruct 1; congruence. Qed.

Lemma others_running σ tid t tid' t' : sys_inv σ → jm_get (txns σ) tid = Some t → t_phase t ≠ Running →
  tid' ≠ tid → jm_get (txns σ) tid' = Some t' → t_phase t' = Running.
Proof.
  intros Hi Ht Hp Hne Ht'. destruct (t_phase t') eqn:E; [done|..]; exfalso; apply Hne;
    (eapply same_lock_unique; [exact Hi|exact Ht'|exact Ht|by rewrite E|done]).
Qed.

Lemma inv_apply σ tid t s' ts entries : sys_inv σ → jm_get (txns σ) tid = Some t → t_phase t = Validated →
  lock σ = Some tid → apply_commit (docStore (writer σ)) (t_ctx t) shard (t_meta t) = Ok (s', ts, entries) →
  disciplined (docStore (writer σ)) (t_ctx t) entries (t_meta t) →
  sys_inv {| writer := with_store (writer σ) s'; lock := lock σ;
             txns := jm_set (txns σ) tid (with_phase t (Applied ts entries)); history := history σ |}.
Proof.
  intros Hi Ht Hp Hlk Hap Hd. pose proof (si_keys σ Hi) as Hk.
  assert (Hoth : ∀ tid' t', tid' ≠ tid → jm_get (txns σ) tid' = Some t' → t_phase t' = Running).
  { intros tid' t' Hne Ht'. eapply (others_running σ tid t); try done. by rewrite Hp. }
  assert (Hmax : ms_max (docStore (writer σ)) = clock σ).
  { apply Hi. intros tid' t' ts' es' Ht' E. destruct (decide (tid' = tid)) as [->|Hne]; [congruence|].
    rewrite (Hoth tid' t') in E by done. done. }
  pose proof (si_txn σ Hi _ _ Ht) as Hti. pose proof (txn_ctx_ok _ _ _ _ _ Hti) as Hc.
  destruct (apply_commit_landed _ _ _ _ _ _ _ (si_ok σ Hi) Hc Hap Hd) as (Hs' & Hts & Hm' & Hl & Hv).
  rewrite Hmax in Hts, Hv. assert (Hs : t_snap (with_phase t (Applied ts entries)) = t_snap t) by done. split.
  - done.
  - by apply jm_set_ok.
  - destruct (si_active σ Hi) as [Ha1 Ha2]. split; [done|]. simpl. intros ts'.
    rewrite count_at_set, Ht, Hs by done. replace (_ - _ + _) with (snap_count (txns σ) ts') by lia. apply Ha2.
  - intros tid' t'. simpl. rewrite jm_get_set. case_decide as Hd'.
    + intros [= <-]. subst tid'. destruct (txn_inv_view _ s' _ _ _ _ Hv ltac:(by rewrite Hp) Hti) as [H1 H2 H3 H4].
      split; try done.
      * intros _. apply H3. by rewrite Hp.
      * intros ts' es' [= <- <-]. done.
    + intros Ht'. eapply (txn_inv_view (docStore (writer σ)) s'); [done| |by apply Hi].
      intros ts' es'. by rewrite (Hoth tid' t').
  - simpl. split; [change (clock σ ≤ ms_max s'); lia|]. intros Hna. exfalso.
    eapply (Hna tid); [by rewrite jm_get_set, decide_True|done].
  - apply Hi.
  - simpl. intros c Hin. pose proof (history_ts σ c Hi Hin).
    eapply landed_stable; [apply Hv; lia|apply Hv; lia|by apply Hi].
  - simpl. intros c tid' t' Hin. rewrite jm_get_set. case_decide as Hd'; [intros [= <-]; rewrite Hs|]; by eapply si_ring.
  - simpl. intros c Hin. pose proof (history_ts σ c Hi Hin). destruct (si_serial σ Hi c Hin) as [Hu He].
    destruct (Hv (c_ts c - 1) ltac:(lia)) as [G Sc]. split; [done|].
    eapply exec_ext; [exact G|exact Sc| |exact He]. apply Hv. lia.
Qed.

Lemma inv_publish σ tid t v ts entries : sys_inv σ → jm_get (txns σ) tid = Some t →
  t_phase t = Applied ts entries → lock σ = Some tid → t_rest t = FRet v →
  let w := publish_commit (writer σ) (docStore (writer σ)) ts (writeRanges (t_ctx t)) in
  sys_inv {| writer := with_active w (release (activeSnapshots w) (t_snap t)); lock := None;
             txns := jm_delete (txns σ) tid;
             history := history σ ++ [{| c_fun := t_fun t; c_meta := t_meta t; c_ctx := t_ctx t; c_value := v; c_ts := ts;
                                         c_entries := entries |}] |}.
Proof.
  intros Hi Ht Hp Hlk Hr w. pose proof (si_keys σ Hi) as Hk.
  assert (Hoth : ∀ tid' t', tid' ≠ tid → jm_get (txns σ) tid' = Some t' → t_phase t' = Running).
  { intros tid' t' Hne Ht'. eapply (others_running σ tid t); try done. by rewrite Hp. }
  destruct (si_txn σ Hi _ _ Ht) as [T1 T2 T3 T4]. destruct (T3 ltac:(by rewrite Hp)) as [_ Hag].
  destruct (T4 _ _ Hp) as (Hts & Hm & Hl). destruct (si_times σ Hi) as [Ht0 Htimes].
  assert (Hclock : lastCommitted (publishCommitted (oracle (writer σ)) ts) = ts).
  { unfold publishCommitted, clock, getLastCommittedTimestamp in *.
    by rewrite (proj2 (Z.ltb_lt _ _)) by lia. }
  split; simpl.
  - apply Hi.
  - by apply jm_delete_ok.
  - eapply active_release; [apply Hi|by eapply count_at_pos|]. intros ts'. by apply count_at_delete.
  - intros tid' t'. rewrite jm_get_delete by done. case_decide as Hd; [done|]. intros Ht'.
    destruct (si_txn σ Hi _ _ Ht') as [H1 H2 H3 H4]. pose proof (Hoth _ _ Hd Ht') as Hrun.
    unfold clock in *. simpl. unfold getLastCommittedTimestamp in *. rewrite Hclock. split; try done.
    all: try lia. all: by rewrite Hrun.
  - unfold clock, getLastCommittedTimestamp. simpl. rewrite Hclock. lia.
  - unfold clock, getLastCommittedTimestamp in *. simpl. rewrite Hclock. split; [lia|].
    rewrite fmap_app, Htimes. csimpl. rewrite Hts.
    replace (lastCommitted (oracle (writer σ)) + 1 - ms_max s0) with
      ((lastCommitted (oracle (writer σ)) - ms_max s0) + 1) by lia.
    rewrite seqZ_app by lia. f_equal. rewrite (seqZ_cons _ 1) by lia. simpl. f_equal. lia.
  - intros c [Hin| ->%list_elem_of_singleton]%elem_of_app; [by apply Hi|done].
  - intros c tid' t' Hin. rewrite jm_get_delete by done. case_decide as Hd; [done|]. intros Ht' Hlt.
    eapply prune_keeps; [by eapply snap_in_keys|exact Hlt|]. apply elem_of_app.
    apply elem_of_app in Hin as [Hin| ->%list_elem_of_singleton]; [left; by eapply si_ring|].
    right. by apply list_elem_of_singleton.
  - intros c [Hin| ->%list_elem_of_singleton]%elem_of_app; [by apply Hi|]. simpl.
    replace (ts - 1) with (clock σ) by lia. rewrite Hr in T2. split; [done|].
    apply (exec_replay _ _ _ _ _ _ (clock σ) T2); [apply new_Ctx_ok|exact Hag].
Qed.

Lemma step_inv σ σ' : step σ σ' → lands_disciplined σ σ' → sys_inv σ → sys_inv σ'.
Proof.
  intros Hst Hdi Hi. destruct Hst as [σ tid f m Hn w t|σ tid t c f Ht Hp Hop|σ tid t v Ht Hp Hr Hs w|σ tid t Ht Hf Ha w t'
    |σ tid t e Ht Hf Ha w|σ tid t v Ht Hp Hlk Hr Hs Hc|σ tid t s' ts es Ht Hp Hlk Hap|σ tid t v ts es Ht Hp Hlk Hr w].
  - by apply inv_begin.
  - by eapply inv_op.
  - apply (inv_remove σ tid t (lock σ)); [done|done|by rewrite Hp|done].
  - apply (inv_retry σ tid t); [done|done|by intros; eapply attempt_fails_phase|by intros; apply unlock_other].
  - apply (inv_remove σ tid t); [done|done|by intros; eapply attempt_fails_phase|by intros; apply unlock_other].
  - by eapply inv_validate.
  - eapply inv_apply; try done. apply (Hdi tid _ ts); [done..|]. simpl. by rewrite jm_get_set, decide_True.
  - by eapply inv_publish.
Qed.

Lemma initial_inv : ms_ok s0 → sys_inv (initial s0).
Proof.
  intros Hs.
  assert (Hnil : ∀ c : @committed V, c ∉ []) by (intros c; apply not_elem_of_nil).
  split; simpl; try done; unfold clock; simpl.
  - apply NoDup_nil_2.
  - split; [apply NoDup_nil_2|]. intros ts. done.
  - split; [lia|]. by rewrite Z.sub_diag.
  - intros c Hc. by destruct (Hnil c).
  - intros c Hc. by destruct (Hnil c).
Qed.

Lemma reachable_inv σ : ms_ok s0 → disciplined_run shard hlimits maxRetries s0 σ → sys_inv σ.
Proof. intros Hs. induction 1; [by apply initial_inv|by eapply step_inv]. Qed.

(** ** The serial run behind a history *)
Record run_inv (σ : sys) : Prop := {
  ri_applied : ∀ tid t ts es v, jm_get (txns σ) tid = Some t → t_phase t = Applied ts es → t_rest t = FRet v →
    ∃ s, serial_run shard hlimits s0 (history σ) s ∧ (∀ t', t' ≤ clock σ → same_view s (docStore (writer σ)) t') ∧
      t_snap t ≤ ms_max s ∧ exec_at s (t_snap t) (fresh (ms_max s)) (t_fun t) (at_snapshot (t_ctx t) (ms_max s)) (FRet v) ∧
      apply_commit s (at_snapshot (t_ctx t) (ms_max s)) shard (t_meta t) = Ok (docStore (writer σ), ts, es);
  ri_store : no_applied (txns σ) → serial_run shard hlimits s0 (history σ) (docStore (writer σ));
  ri_rest : ∀ tid t, jm_get (txns σ) tid = Some t → t_phase t ≠ Running → ∃ v, t_rest t = FRet v;
  ri_attempt : ∀ tid t, jm_get (txns σ) tid = Some t → (t_attempt t ≤ maxRetries)%nat;
  ri_ring : ∀ r, r ∈ recentCommits (writer σ) → ∃ c, c ∈ history σ ∧ r = ring_entry c }.

(** Steps that leave the store, the ring and the history alone. *)
Lemma run_txns (σ σ' : sys) : run_inv σ →
  docStore (writer σ') = docStore (writer σ) → oracle (writer σ') = oracle (writer σ) → recentCommits (writer σ') = recentCommits (writer σ) →
  history σ' = history σ → (no_applied (txns σ') → no_applied (txns σ)) →
  (∀ tid t, jm_get (txns σ') tid = Some t → jm_get (txns σ) tid = Some t ∨
     ((∀ ts es, t_phase t ≠ Applied ts es) ∧ (t_phase t ≠ Running → ∃ v, t_rest t = FRet v) ∧
      (t_attempt t ≤ maxRetries)%nat)) →
  run_inv σ'.
Proof.
  intros [R1 R2 R3 R4 R5] E1 E0 E2 E3 Hna Hsub. unfold clock in *. split; unfold clock; rewrite ?E0, ?E1, ?E2, ?E3; auto.
  - intros tid t ts es v Ht Hp Hr. destruct (Hsub _ _ Ht) as [Ht'|[Hn _]]; [by eapply R1|by destruct (Hn ts es)].
  - intros tid t Ht Hp. destruct (Hsub _ _ Ht) as [Ht'|(_ & Hv & _)]; [by eapply R3|auto].
  - intros tid t Ht. destruct (Hsub _ _ Ht) as [Ht'|(_ & _ & Ha)]; [by eapply R4|auto].
Qed.

Lemma no_applied_set l tid (t : txn) : (∀ t0 ts es, jm_get l tid = Some t0 → t_phase t0 ≠ Applied ts es) →
  no_applied (jm_set l tid t) → no_applied l.
Proof.
  intros H0 Hna tid' t' ts es Ht'. destruct (decide (tid' = tid)) as [->|]; [by apply H0|].
  apply (Hna tid' t'). by rewrite jm_get_set, decide_False.
Qed.

Lemma no_applied_delete l tid : jm_ok l → (∀ t0 ts es, jm_get l tid = Some t0 → t_phase t0 ≠ Applied ts es) →
  no_applied (jm_delete l tid) → no_applied l.
Proof.
  intros Hl H0 Hna tid' t' ts es Ht'. destruct (decide (tid' = tid)) as [->|]; [by apply H0|].
  apply (Hna tid' t'). by rewrite jm_get_delete, decide_False.
Qed.

Lemma run_set (σ : sys) a lk tid t : sys_inv σ → run_inv σ →
  (∀ t0 ts es, jm_get (txns σ) tid = Some t0 → t_phase t0 ≠ Applied ts es) →
  (∀ ts es, t_phase t ≠ Applied ts es) → (t_phase t ≠ Running → ∃ v, t_rest t = FRet v) →
  (t_attempt t ≤ maxRetries)%nat →
  run_inv {| writer := with_active (writer σ) a; lock := lk; txns := jm_set (txns σ) tid t; history := history σ |}.
Proof.
  intros Hi Hr H0 Ht Hv Ha. apply (run_txns σ); [done..|by apply no_applied_set|].
  intros tid' t'. simpl. rewrite jm_get_set. case_decide; [intros [= <-]; by right|by left].
Qed.

Lemma run_delete (σ : sys) a lk tid : sys_inv σ → run_inv σ →
  (∀ t0 ts es, jm_get (txns σ) tid = Some t0 → t_phase t0 ≠ Applied ts es) →
  run_inv {| writer := with_active (writer σ) a; lock := lk; txns := jm_delete (txns σ) tid; history := history σ |}.
Proof.
  intros Hi Hr H0. pose proof (si_keys σ Hi). apply (run_txns σ); [done..|by apply no_applied_delete|].
  intros tid' t'. simpl. rewrite jm_get_delete by done. case_decide; [done|by left].
Qed.

Lemma apply_commit_snapshot s c t sh m : apply_commit s (at_snapshot c t) sh m = apply_commit s c sh m.
Proof. done. Qed.

Lemma run_apply σ tid t s' ts entries : sys_inv σ → run_inv σ →
  jm_get (txns σ) tid = Some t → t_phase t = Validated → lock σ = Some tid →
  apply_commit (docStore (writer σ)) (t_ctx t) shard (t_meta t) = Ok (s', ts, entries) →
  disciplined (docStore (writer σ)) (t_ctx t) entries (t_meta t) →
  run_inv {| writer := with_store (writer σ) s'; lock := lock σ;
             txns := jm_set (txns σ) tid (with_phase t (Applied ts entries)); history := history σ |}.
Proof.
  intros Hi [R1 R2 R3 R4 R5] Ht Hp Hlk Hap Hdi.
  assert (Hna : no_applied (txns σ)).
  { intros tid' t' ts' es' Ht' E. destruct (decide (tid' = tid)) as [->|Hne]; [congruence|].
    rewrite (others_running σ tid t tid' t') in E; try done. by rewrite Hp. }
  assert (Hmax : ms_max (docStore (writer σ)) = clock σ) by (by apply Hi).
  destruct (si_txn σ Hi _ _ Ht) as [T1 T2 T3 T4]. destruct (T3 ltac:(by rewrite Hp)) as [_ Hag].
  split; simpl.
  - intros tid' t' ts' es' v. rewrite jm_get_set. case_decide as Hd; [intros [= <-]|intros Ht' Hp'; by destruct (Hna _ _ _ _ Ht' Hp')].
    cbn [t_phase t_rest t_fun t_ctx t_meta with_phase]. intros [= <- <-] Hr. exists (docStore (writer σ)). rewrite Hr in T2.
    split_and!; [by apply R2| |rewrite Hmax; apply T1| |by rewrite apply_commit_snapshot].
    { intros t' Ht'. change (t' ≤ clock σ) in Ht'. revert t' Ht'. rewrite <-Hmax. by eapply (apply_commit_landed (docStore (writer σ)) (t_ctx t));
        [apply Hi|eapply txn_ctx_ok, Hi|..]. }
    rewrite Hmax. apply (exec_replay _ _ _ _ _ _ (clock σ) T2); [apply new_Ctx_ok|exact Hag].
  - intros Hx. exfalso. eapply (Hx tid); [by rewrite jm_get_set, decide_True|done].
  - intros tid' t'. rewrite jm_get_set. case_decide as Hd; [intros [= <-] _|by apply R3].
    apply (R3 tid t Ht). by rewrite Hp.
  - intros tid' t'. rewrite jm_get_set. case_decide as Hd; [intros [= <-]; exact (R4 tid t Ht)|apply R4].
  - done.
Qed.

Lemma run_publish σ tid t v ts entries : sys_inv σ → run_inv σ → jm_get (txns σ) tid = Some t →
  t_phase t = Applied ts entries → lock σ = Some tid → t_rest t = FRet v →
  let w := publish_commit (writer σ) (docStore (writer σ)) ts (writeRanges (t_ctx t)) in
  run_inv {| writer := with_active w (release (activeSnapshots w) (t_snap t)); lock := None;
             txns := jm_delete (txns σ) tid;
             history := history σ ++ [{| c_fun := t_fun t; c_meta := t_meta t; c_ctx := t_ctx t; c_value := v;
                                         c_ts := ts; c_entries := entries |}] |}.
Proof.
  intros Hi [R1 R2 R3 R4 R5] Ht Hp Hlk Hr w. pose proof (si_keys σ Hi) as Hk.
  assert (Hoth : ∀ tid' t', tid' ≠ tid → jm_get (txns σ) tid' = Some t' → t_phase t' = Running).
  { intros tid' t' Hne Ht'. eapply (others_running σ tid t); try done. by rewrite Hp. }
  destruct (R1 _ _ _ _ _ Ht Hp Hr) as (s & Hs & _ & Hle & He & Ha).
  pose proof (ti_snap _ _ _ _ _ (si_txn σ Hi _ _ Ht)) as Hlo. split; simpl.
  - intros tid' t' ts' es' v'. rewrite jm_get_delete by done. case_decide; [done|]. intros Ht'.
    rewrite (Hoth tid' t') by done. done.
  - intros _. eapply serial_snoc; [exact Hs|simpl; unfold t_snap in *; lia|exact He| |exact Ha].
    intros Hf. unfold exec. by eapply exec_validated.
  - intros tid' t'. rewrite jm_get_delete by done. case_decide; [done|]. by apply R3.
  - intros tid' t'. rewrite jm_get_delete by done. case_decide; [done|]. by apply R4.
  - intros r Hin%prune_sub. apply elem_of_app in Hin as [Hin| ->%list_elem_of_singleton].
    + destruct (R5 r Hin) as (c & Hc & ->). exists c. rewrite elem_of_app. auto.
    + eexists. rewrite elem_of_app, list_elem_of_singleton. split; [by right|done].
Qed.

Lemma step_run σ σ' : step σ σ' → lands_disciplined σ σ' → sys_inv σ → run_inv σ → run_inv σ'.
Proof.
  intros Hst Hdi Hi Hri. destruct Hst as [σ tid f m Hn w t|σ tid t c f Ht Hp Hop|σ tid t v Ht Hp Hr Hs w|σ tid t Ht Hf Ha w t'
    |σ tid t e Ht Hf Ha w|σ tid t v Ht Hp Hlk Hr Hs Hc|σ tid t s' ts es Ht Hp Hlk Hap|σ tid t v ts es Ht Hp Hlk Hr w].
  - apply run_set; try done; [congruence|simpl; lia].
  - rewrite <-(with_active_id (writer σ)). apply run_set; try done; [congruence|..]; simpl; rewrite ?Hp; try done.
    exact (ri_attempt σ Hri _ _ Ht).
  - apply run_delete; try done. congruence.
  - apply run_set; try done. intros t0 ts es Ht0. replace t0 with t by congruence. by eapply attempt_fails_phase.
  - apply run_delete; try done. intros t0 ts es Ht0. replace t0 with t by congruence. by eapply attempt_fails_phase.
  - rewrite <-(with_active_id (writer σ)). apply run_set; try done; [congruence|by exists v|].
    exact (ri_attempt σ Hri _ _ Ht).
  - eapply run_apply; try done. apply (Hdi tid _ ts); [done..|]. simpl. by rewrite jm_get_set, decide_True.
  - by eapply run_publish.
Qed.

(** The mutex holder is the only transaction that can have landed without being published. *)
Lemma applied_or_not σ : sys_inv σ →
  (∃ tid t ts es, jm_get (txns σ) tid = Some t ∧ t_phase t = Applied ts es) ∨ no_applied (txns σ).
Proof.
  intros Hi. assert (Hl : ∀ tid t ts es, jm_get (txns σ) tid = Some t → t_phase t = Applied ts es → lock σ = Some tid).
  { intros tid t ts es Ht Hp. apply (ti_lock _ _ _ _ _ (si_txn σ Hi _ _ Ht)). by rewrite Hp. }
  destruct (lock σ) as [tid|]; [|right; intros tid t ts es Ht Hp; by specialize (Hl _ _ _ _ Ht Hp)].
  destruct (jm_get (txns σ) tid) as [t|] eqn:Ht.
  - destruct (t_phase t) as [| |ts es] eqn:Hp; [| |left; naive_solver].
    all: right; intros tid' t' ts es Ht' Hp'; pose proof (Hl _ _ _ _ Ht' Hp'); congruence.
  - right. intros tid' t' ts es Ht' Hp'. pose proof (Hl _ _ _ _ Ht' Hp'). congruence.
Qed.

Lemma initial_run : run_inv (initial s0).
Proof. split; simpl; try done; [constructor|]. by intros r Hr%elem_of_nil. Qed.

Lemma reachable_run σ : ms_ok s0 → disciplined_run shard hlimits maxRetries s0 σ → sys_inv σ ∧ run_inv σ.
Proof.
  intros Hs. induction 1 as [|σ σ' _ [IH1 IH2] Hst Hdi]; [split; [by apply initial_inv|apply initial_run]|].
  split; [by eapply step_inv|by eapply step_run].
Qed.
End invariant.

(** ** What holds of every reachable system *)
Section theorems.
Context {S : Type} `{!MvccStore S} `{!MvccStoreLaws S} {V : Type}.
Context (shard : jsstr) (hlimits : HeadroomLimits) (maxRetries : nat) (s0 : S).
Implicit Types σ : @sys S V.

(** C1: serializability of validated reads. However the calls interleave their reads, writes, retries and
    commits, if every commit that lands is disciplined (it reports the key of every index entry it changes
    as written, and restages the index entries of the documents it writes), then the committed functions,
    replayed one at a time in commit order from the initial store, each return the value and produce the
    log entries and timestamp they had in the concurrent run. In the replay every validated read is
    answered by the store the previous functions left; the scans recorded with [recordReadUnvalidated]
    are answered by that store as of the snapshot the call had, which is not older than the initial store
    (so such scans admit the write skew of [write_skew] below), and a function that makes none of them
    runs on the current store altogether. The store the replay leaves is the concurrent store itself whenever
    nobody holds the commit mutex, and reads the same at every timestamp up to the committed clock
    otherwise. *)
Theorem serializable σ : ms_ok s0 → disciplined_run shard hlimits maxRetries s0 σ →
  ∃ s, serial_run shard hlimits s0 (history σ) s ∧
    (lock σ = None → s = docStore (writer σ)) ∧
    (∀ t, t ≤ clock σ → same_view s (docStore (writer σ)) t).
Proof.
  intros Hs Hr. destruct (reachable_run shard hlimits maxRetries s0 σ Hs Hr) as [Hi Hri].
  destruct (applied_or_not shard hlimits s0 σ Hi) as [(tid & t & ts & es & Ht & Hp)|Hna].
  - destruct (ri_rest _ _ _ _ _ Hri tid t Ht ltac:(by rewrite Hp)) as [v Hv].
    destruct (ri_applied _ _ _ _ _ Hri tid t ts es v Ht Hp Hv) as (s & H1 & H2 & _). exists s. split; [done|].
    destruct (ti_lock _ _ _ _ _ _ _ _ (si_txn _ _ _ _ Hi _ _ Ht) ltac:(by rewrite Hp)) as [Hl _].
    split; [congruence|done].
  - exists (docStore (writer σ)). split; [by eapply ri_store|]. done.
Qed.

(** C2: the commits of every system reached with disciplined commits took consecutive timestamps from the initial maximum
    on, and the store of that system still shows exactly what each one did: at its timestamp every
    document it staged reads as staged, each log entry's [prev_ts] is the timestamp of the revision
    that was live just before, and no other document changed between the preceding timestamp and
    this one. *)
Theorem commits_recorded σ : ms_ok s0 → disciplined_run shard hlimits maxRetries s0 σ →
  c_ts <$> history σ = seqZ (ms_max s0 + 1) (clock σ - ms_max s0) ∧
  ∀ c, c ∈ history σ →
    Forall2 (λ w e, le_id e = lw_id w ∧ option_map rd_value (le_value e) = lw_value w)
      (uw_entries (staged (c_ctx c))) (c_entries c) ∧
    (∀ e, e ∈ c_entries c →
       ms_get (docStore (writer σ)) (le_id e) (Some (c_ts c)) = Ok (latest_of e (c_ts c)) ∧
       ∃ p, ms_get (docStore (writer σ)) (le_id e) (Some (c_ts c - 1)) = Ok p ∧ le_prev_ts e = option_map ld_ts p) ∧
    (∀ id, id ∉ (le_id <$> c_entries c) →
       ms_get (docStore (writer σ)) id (Some (c_ts c)) = ms_get (docStore (writer σ)) id (Some (c_ts c - 1))).
Proof.
  intros Hs Hr. destruct (reachable_run shard hlimits maxRetries s0 σ Hs Hr) as [Hi _].
  split; [apply (si_times _ _ _ _ Hi)|]. intros c Hc. destruct (si_landed _ _ _ _ Hi c Hc).
  split_and!; try done. intros e He. split; auto.
Qed.

(** C31: pruning loses nothing. In every system reached with disciplined commits, validating an in-flight transaction against the pruned ring gives the
    answer that validating it against the writes of every commit ever made would give. *)
Theorem pruned_ring_exact σ tid t : ms_ok s0 → disciplined_run shard hlimits maxRetries s0 σ →
  jm_get (txns σ) tid = Some t →
  conflicts (recentCommits (writer σ)) (t_snap t) (validatedReads (t_ctx t)) =
  conflicts (ring_entry <$> history σ) (t_snap t) (validatedReads (t_ctx t)).
Proof.
  intros Hs Hr Ht. destruct (reachable_run shard hlimits maxRetries s0 σ Hs Hr) as [Hi Hri].
  apply eq_true_iff_eq. unfold conflicts. rewrite !existsb_Exists. split.
  - intros (r & Hin & Hx). destruct (ri_ring _ _ _ _ _ Hri r Hin) as (c & Hc & ->).
    exists (ring_entry c). split; [by apply list_elem_of_fmap_2|done].
  - intros (r & (c & -> & Hc)%list_elem_of_fmap & Hx). exists (ring_entry c). split; [|done].
    apply andb_true_iff in Hx as [Hlt%Z.ltb_lt _]. exact (si_ring _ _ _ _ Hi c tid t Hc Ht Hlt).
Qed.

(** Snapshots are reference-counted exactly, calls retry boundedly and the mutex is exclusive: in
    every system reached with disciplined commits [activeSnapshots] maps a timestamp to the positive number of in-flight
    calls reading at it and has no other entry, no call is past its [maxRetries]-th retry, and every
    call inside the commit section is the one that holds the mutex. *)
Theorem snapshots_counted σ : ms_ok s0 → disciplined_run shard hlimits maxRetries s0 σ →
  (∀ ts, jm_get (activeSnapshots (writer σ)) ts =
     let n := Z.of_nat (length (List.filter (λ x : nat * txn, t_snap x.2 =? ts) (txns σ))) in
     if 0 <? n then Some n else None) ∧
  (∀ tid t, jm_get (txns σ) tid = Some t → (t_attempt t ≤ maxRetries)%nat ∧
     (t_phase t ≠ Running → lock σ = Some tid)).
Proof.
  intros Hs Hr. destruct (reachable_run shard hlimits maxRetries s0 σ Hs Hr) as [Hi Hri]. split.
  - intros ts. apply (si_active _ _ _ _ Hi).
  - intros tid t Ht. split; [by eapply ri_attempt|].
    intros Hp. apply (ti_lock _ _ _ _ _ _ _ _ (si_txn _ _ _ _ Hi _ _ Ht) Hp).
Qed.

Lemma reachable_keys σ : reachable shard hlimits maxRetries s0 σ → jm_ok (txns σ).
Proof.
  induction 1 as [|σ σ' _ IH Hst]; [apply NoDup_nil_2|].
  destruct Hst; simpl; first [done|by apply jm_set_ok|by apply jm_delete_ok].
Qed.

(** The commit section of the code is a path of the step relation. [commit] run under the mutex for a
    call that has finished its function either rejects it on conflict with the writer unchanged, or
    takes the system through validation, the store's commit (or its refusal) and publication to a
    state whose writer is the one [commit] computes, with the snapshot released and the mutex free. The
    store is assumed not to answer with the transactor's own conflict error, which would be retried. *)
Theorem commit_is_steps σ tid t v origin w' r : reachable shard hlimits maxRetries s0 σ →
  jm_get (txns σ) tid = Some t → t_phase t = Running → lock σ = None → t_rest t = FRet v →
  uw_size (staged (t_ctx t)) ≠ 0%nat →
  apply_commit (docStore (writer σ)) (t_ctx t) shard (t_meta t) ≠ Err OccConflictError →
  commit (writer σ) (t_ctx t) (t_snap t) shard v (t_meta t) origin = (w', r) →
  if conflicts (recentCommits (writer σ)) (t_snap t) (validatedReads (t_ctx t))
  then w' = writer σ ∧ r = Err OccConflictError
  else ∃ σ', rtc (step shard hlimits maxRetries) σ σ' ∧ lock σ' = None ∧ jm_has (txns σ') tid = false ∧
    writer σ' = with_active w' (release (activeSnapshots w') (t_snap t)).
Proof.
  intros Hre Ht Hp Hl Hr Hs Hocc. pose proof (reachable_keys σ Hre) as Hk.
  unfold commit. destruct (conflicts _ _ _) eqn:Ec; [by intros [= <- <-]|].
  set (σ1 := {| writer := writer σ; lock := Some tid; txns := jm_set (txns σ) tid (with_phase t Validated);
                history := history σ |}).
  assert (H1 : step shard hlimits maxRetries σ σ1) by exact (step_validate shard hlimits maxRetries σ tid t v Ht Hp Hl Hr Hs Ec).
  assert (Ht1 : jm_get (txns σ1) tid = Some (with_phase t Validated)) by (simpl; by rewrite jm_get_set, decide_True).
  destruct (apply_commit _ _ _ _) as [[[s' ts] es]|e] eqn:Ea; intros [= <- <-].
  - set (σ2 := {| writer := with_store (writer σ1) s'; lock := lock σ1;
      txns := jm_set (txns σ1) tid (with_phase (with_phase t Validated) (Applied ts es)); history := history σ1 |}).
    assert (H2 : step shard hlimits maxRetries σ1 σ2) by (eapply step_apply; [exact Ht1|done|done|exact Ea]).
    assert (Ht2 : jm_get (txns σ2) tid = Some (with_phase (with_phase t Validated) (Applied ts es)))
      by (unfold σ2, txns; by rewrite jm_get_set, decide_True).
    eexists. split; [eapply rtc_l; [exact H1|]; eapply rtc_l; [exact H2|]; apply rtc_once|].
    + by eapply (step_publish _ _ _ σ2 tid _ v ts es); [exact Ht2|..].
    + simpl. split; [done|]. split; [|done].
      unfold jm_has. rewrite jm_get_delete by (by repeat apply jm_set_ok). by rewrite decide_True.
  - eexists. split; [eapply rtc_l; [exact H1|]; apply rtc_once|].
    + eapply (step_fail _ _ _ σ1 tid _ e); [exact Ht1|by apply fails_refused|left; congruence].
    + simpl. split; [unfold unlock; by rewrite decide_True|]. split; [|done].
      unfold jm_has. rewrite jm_get_delete by (by repeat apply jm_set_ok). by rewrite decide_True.
Qed.
End theorems.

(** ** Walking a concrete run, one computed step at a time *)
Ltac disciplined_trivially :=
  split; [reflexivity|intros ? ? _ [Hr _]; by apply elem_of_nil in Hr|intros ? Hu; by apply elem_of_nil in Hu].
Ltac settle H :=
  match type of H with disciplined_run _ _ _ _ ?σ => let σ' := eval vm_compute in σ in change σ with σ' in H end.
(** No commit lands, or [dtac] shows that the one that does is disciplined. *)
Ltac lands_by dtac :=
  intros [|[|?]] ? ? ? Hget Hph Hget'; vm_compute in Hget, Hget'; try discriminate Hget;
  injection Hget as <-; first [discriminate Hph|discriminate Hget'|injection Hget' as <- <-; dtac].
Ltac walk_by H tac dtac :=
  eapply disc_step in H; [|tac; try reflexivity; try done; try (simpl; lia)|lands_by dtac]; [settle H].
Ltac walk H tac := walk_by H tac disciplined_trivially.

(** ** A concrete run: two calls race on one document over the SQLite store *)
Section example.
Let doc : InternalDocumentId := {| tableNumber := 10001; internalId := [1; 2; 3; 4] |}.

(** Create the document, or mark it as already there. *)
Definition claim_doc : func Z :=
  FGet doc (λ r, match r with
    | Ok None => FPut doc (VObj [(js "n", VBig 1)]) (λ _, FRet 1)
    | Ok (Some _) => FPut doc (VObj [(js "n", VBig 2)]) (λ _, FRet 2)
    | Err e => FThrow e
    end).

#[local] Instance race_store : MvccStore db := sqlite_store [].
#[local] Instance race_laws : MvccStoreLaws db := sqlite_laws [] (List.Forall_nil _).
Abbreviation race_reachable := (@disciplined_run db race_store Z DEFAULT_SHARD DEFAULT_HEADROOM 8 empty_db).

Ltac first_commit H :=
  walk H ltac:(eapply (step_begin _ _ _ _ 0 claim_doc None));
  walk H ltac:(eapply (step_begin _ _ _ _ 1 claim_doc None));
  walk H ltac:(eapply (step_op _ _ _ _ 0));
  walk H ltac:(eapply (step_op _ _ _ _ 1));
  walk H ltac:(eapply (step_op _ _ _ _ 0));
  walk H ltac:(eapply (step_op _ _ _ _ 1));
  walk H ltac:(eapply (step_validate _ _ _ _ 0));
  walk H ltac:(eapply (step_apply _ _ _ _ 0));
  walk H ltac:(eapply (step_publish _ _ _ _ 0)).

(** Both calls have run, the first has committed and the second has yet to validate. *)
Lemma race_half : ∃ σ t, race_reachable σ ∧ jm_get (txns σ) 1%nat = Some t ∧ t_phase t = Running ∧
  t_rest t = FRet 1 ∧ (c_value <$> history σ) = [1] ∧
  conflicts (recentCommits (writer σ)) (t_snap t) (validatedReads (t_ctx t)) = true.
Proof.
  assert (H : race_reachable (initial empty_db)) by constructor. settle H. first_commit H.
  eexists _, _. split; [exact H|done].
Qed.

(** The second call conflicts, replays and commits after the first. *)
Lemma race : ∃ σ, race_reachable σ ∧ (c_value <$> history σ) = [1; 2] ∧ (c_ts <$> history σ) = [1; 2] ∧
  lock σ = None ∧ txns σ = [].
Proof.
  assert (H : race_reachable (initial empty_db)) by constructor. settle H. first_commit H.
  walk H ltac:(eapply (step_retry _ _ _ _ 1); [| eapply fails_conflict |]).
  walk H ltac:(eapply (step_op _ _ _ _ 1)).
  walk H ltac:(eapply (step_op _ _ _ _ 1)).
  walk H ltac:(eapply (step_validate _ _ _ _ 1)).
  walk H ltac:(eapply (step_apply _ _ _ _ 1)).
  walk H ltac:(eapply (step_publish _ _ _ _ 1)).
  eexists. split; [exact H|done].
Qed.

Lemma empty_db_ok : ms_ok empty_db.
Proof. split; simpl; constructor. Qed.

Lemma serializable_witness : ∃ σ s, race_reachable σ ∧ (c_value <$> history σ) = [1; 2] ∧
  serial_run DEFAULT_SHARD DEFAULT_HEADROOM empty_db (history σ) s ∧ s = docStore (writer σ).
Proof.
  destruct race as (σ & Hr & Hv & _ & Hl & _).
  destruct (serializable DEFAULT_SHARD DEFAULT_HEADROOM 8 empty_db σ empty_db_ok Hr) as (s & H1 & H2 & _).
  exists σ, s. auto.
Defined.

Lemma commits_recorded_witness : ∃ σ, race_reachable σ ∧ clock σ = 2 ∧
  ∀ c, c ∈ history σ → ∀ e, e ∈ c_entries c →
    ∃ p, get (docStore (writer σ)) (le_id e) (Some (c_ts c - 1)) = Ok p ∧ le_prev_ts e = option_map ld_ts p.
Proof.
  destruct race as (σ & Hr & _ & Ht & _).
  destruct (commits_recorded DEFAULT_SHARD DEFAULT_HEADROOM 8 empty_db σ empty_db_ok Hr) as [H1 H2].
  exists σ. split; [done|]. split.
  - change (ms_max empty_db) with 0 in H1. rewrite Ht in H1. apply (f_equal length) in H1.
    rewrite length_seqZ in H1. cbn [length] in H1. lia.
  - intros c Hc e He. destruct (H2 c Hc) as (_ & H3 & _). apply (H3 e He).
Defined.

Lemma pruned_ring_exact_witness : ∃ σ t, race_reachable σ ∧ jm_get (txns σ) 1%nat = Some t ∧
  conflicts (ring_entry <$> history σ) (t_snap t) (validatedReads (t_ctx t)) = true.
Proof.
  destruct race_half as (σ & t & Hr & Ht & _ & _ & _ & Hc). exists σ, t. split; [done|]. split; [done|].
  rewrite <-(pruned_ring_exact DEFAULT_SHARD DEFAULT_HEADROOM 8 empty_db σ 1 t empty_db_ok Hr Ht). exact Hc.
Defined.

Lemma snapshots_counted_witness : ∃ σ, race_reachable σ ∧ history σ ≠ [] ∧
  ∀ tid t, jm_get (txns σ) tid = Some t → (t_attempt t ≤ 8)%nat ∧ (t_phase t ≠ Running → lock σ = Some tid).
Proof.
  destruct race_half as (σ & t & Hr & _ & _ & _ & Hh & _). exists σ. split; [done|]. split.
  - intros E. by rewrite E in Hh.
  - apply (snapshots_counted DEFAULT_SHARD DEFAULT_HEADROOM 8 empty_db σ empty_db_ok Hr).
Defined.

(** One call has run its function and is about to commit. *)
Lemma race_ready : ∃ σ t, race_reachable σ ∧ jm_get (txns σ) 0%nat = Some t ∧ t_phase t = Running ∧
  lock σ = None ∧ t_rest t = FRet 1 ∧ uw_size (staged (t_ctx t)) ≠ 0%nat ∧
  conflicts (recentCommits (writer σ)) (t_snap t) (validatedReads (t_ctx t)) = false ∧
  apply_commit (docStore (writer σ)) (t_ctx t) DEFAULT_SHARD (t_meta t) ≠ Err OccConflictError.
Proof.
  assert (H : race_reachable (initial empty_db)) by constructor. settle H.
  walk H ltac:(eapply (step_begin _ _ _ _ 0 claim_doc None)).
  walk H ltac:(eapply (step_op _ _ _ _ 0)).
  walk H ltac:(eapply (step_op _ _ _ _ 0)).
  eexists _, _. split; [exact H|]. split; [reflexivity|]. by split_and!.
Qed.

Lemma commit_is_steps_witness : ∃ σ σ' w', race_reachable σ ∧
  rtc (step DEFAULT_SHARD DEFAULT_HEADROOM 8) σ σ' ∧
  (∃ r (t : @txn Z), commit (writer σ) (t_ctx t) (t_snap t) DEFAULT_SHARD 1 (t_meta t) None = (w', r) ∧
    writer σ' = with_active w' (release (activeSnapshots w') (t_snap t))).
Proof.
  destruct race_ready as (σ & t & Hr & Ht & Hp & Hl & Hv & Hs & Hc & Hocc).
  destruct (commit (writer σ) (t_ctx t) (t_snap t) DEFAULT_SHARD 1 (t_meta t) None) as [w' r] eqn:E.
  pose proof (commit_is_steps DEFAULT_SHARD DEFAULT_HEADROOM 8 empty_db σ 0 t 1 None w' r
    (disciplined_reachable _ _ _ _ σ Hr) Ht Hp Hl Hv Hs Hocc E) as H.
  rewrite Hc in H. destruct H as (σ' & H1 & _ & _ & H2). exists σ, σ', w'. split; [done|]. split; [done|].
  by exists r, t.
Defined.

(** Unvalidated scans admit write skew: two calls that each count an index without validation and add
    an entry to it both see it empty, both commit, and neither order of running them one after the other
    gives the second one that count. *)
Definition skew_index : jsstr := js "by_n".
Definition skew_all : Interval := {| iv_start := []; iv_end := None |}.
Definition skew_doc (n : Z) : InternalDocumentId := {| tableNumber := 10001; internalId := [n; 0] |}.
Definition skew_update (n : Z) : DatabaseIndexUpdate :=
  {| iu_indexId := encodeStorageIndexId 10001 skew_index; iu_key := [n]; iu_value := NonClustered (skew_doc n) |}.
Definition count_and_add (validated : bool) (n : Z) : func Z :=
  FScan 10001 skew_index skew_all Asc None validated (λ r,
    FPut (skew_doc n) (VObj [(js "n", VBig n)]) (λ _,
      FStage [skew_update n] (FRecordWrite (point_range (indexKeyspaceId (encodeStorageTableId 10001) skew_index) [n])
        (FRet (match r with Ok l => Z.of_nat (length l) | Err _ => -1 end))))).

Ltac skew_disciplined n :=
  split; [reflexivity
    |intros ? ? He [Hr _]; apply list_elem_of_singleton in He as ->; vm_compute in Hr;
     repeat (apply elem_of_cons in Hr as [->|Hr]; [intros Ht Hi; vm_compute in Ht, Hi; congruence|]); by apply elem_of_nil in Hr
    |intros ? Hu; apply list_elem_of_singleton in Hu as ->;
     exists 10001, skew_index, (point_range (indexKeyspaceId (encodeStorageTableId 10001) skew_index) [n]);
     split; [reflexivity|split; [apply list_elem_of_In; vm_compute; tauto|by vm_compute]]].

Lemma write_skew : ∃ σ, race_reachable σ ∧ (c_fun <$> history σ) = [count_and_add false 1; count_and_add false 2] ∧
  (c_value <$> history σ) = [0; 0] ∧ lock σ = None ∧ txns σ = [].
Proof.
  assert (H : race_reachable (initial empty_db)) by constructor. settle H.
  walk H ltac:(eapply (step_begin _ _ _ _ 0 (count_and_add false 1) None)).
  walk H ltac:(eapply (step_begin _ _ _ _ 1 (count_and_add false 2) None)).
  do 4 walk H ltac:(eapply (step_op _ _ _ _ 0)).
  do 4 walk H ltac:(eapply (step_op _ _ _ _ 1)).
  walk H ltac:(eapply (step_validate _ _ _ _ 0)).
  walk_by H ltac:(eapply (step_apply _ _ _ _ 0)) ltac:(skew_disciplined 1).
  walk H ltac:(eapply (step_publish _ _ _ _ 0)).
  walk H ltac:(eapply (step_validate _ _ _ _ 1)).
  walk_by H ltac:(eapply (step_apply _ _ _ _ 1)) ltac:(skew_disciplined 2).
  walk H ltac:(eapply (step_publish _ _ _ _ 1)).
  eexists. split; [exact H|done].
Qed.

(** The same race with validated scans: the second call conflicts, and replayed it counts the first's
    entry. *)
Lemma no_skew : ∃ σ, race_reachable σ ∧ (c_fun <$> history σ) = [count_and_add true 1; count_and_add true 2] ∧
  (c_value <$> history σ) = [0; 1] ∧ lock σ = None ∧ txns σ = [].
Proof.
  assert (H : race_reachable (initial empty_db)) by constructor. settle H.
  walk H ltac:(eapply (step_begin _ _ _ _ 0 (count_and_add true 1) None)).
  walk H ltac:(eapply (step_begin _ _ _ _ 1 (count_and_add true 2) None)).
  do 4 walk H ltac:(eapply (step_op _ _ _ _ 0)).
  do 4 walk H ltac:(eapply (step_op _ _ _ _ 1)).
  walk H ltac:(eapply (step_validate _ _ _ _ 0)).
  walk_by H ltac:(eapply (step_apply _ _ _ _ 0)) ltac:(skew_disciplined 1).
  walk H ltac:(eapply (step_publish _ _ _ _ 0)).
  walk H ltac:(eapply (step_retry _ _ _ _ 1); [| eapply fails_conflict |]).
  do 4 walk H ltac:(eapply (step_op _ _ _ _ 1)).
  walk H ltac:(eapply (step_validate _ _ _ _ 1)).
  walk_by H ltac:(eapply (step_apply _ _ _ _ 1)) ltac:(skew_disciplined 2).
  walk H ltac:(eapply (step_publish _ _ _ _ 1)).
  eexists. split; [exact H|done].
Qed.
End example.
