(* ===== verification/GroupSerial.v ===== *)
(** Group commit is serial: the invariant of [GroupCommit]'s step relation and the theorems it gives. *)
From Stdlib Require Import List.
From S2P Require Import Prelude Numbers Values Json IndexKeys Ranges IdCodec DocStore MvccStore Transactor Serializability GroupCommit.

(** ** Ordered pairs *)
Section pairs.
Context {A : Type} (R : A → A → Prop).

Lemma pairs_lookup l i j a b : ForallOrdPairs R l → (i < j)%nat → l !! i = Some a → l !! j = Some b → R a b.
Proof.
  intros H. revert i j. induction H as [|x l Hx _ IH]; intros i j Hij Hi Hj; [done|].
  destruct j as [|j]; [lia|]. destruct i as [|i]; simpl in *.
  - injection Hi as ->. rewrite Forall_forall in Hx. apply Hx. by eapply list_elem_of_lookup_2.
  - eapply IH; [|done..]. lia.
Qed.

Lemma pairs_sublist l k : l `sublist_of` k → ForallOrdPairs R k → ForallOrdPairs R l.
Proof.
  induction 1 as [|x l k Hs IH|x l k Hs IH]; intros H; [done|..]; inversion H as [|? ? Hx Hk]; subst; [|by apply IH].
  constructor; [|by apply IH]. rewrite Forall_forall in Hx |- *. intros y Hy. apply Hx. by eapply elem_of_sublist.
Qed.

Lemma pairs_app l k : ForallOrdPairs R (l ++ k) ↔
  ForallOrdPairs R l ∧ ForallOrdPairs R k ∧ ∀ a b, a ∈ l → b ∈ k → R a b.
Proof.
  induction l as [|x l IH]; simpl.
  - split; [|naive_solver]. intros H. split_and!; [constructor|done|]. intros a b Ha. by apply elem_of_nil in Ha.
  - split.
    + intros H. inversion H as [|? ? Hx Hlk]; subst. apply IH in Hlk as (H1 & H2 & H3).
      apply Forall_app in Hx as [Hx1 Hx2]. split_and!; [by constructor|done|].
      intros a b [->|Ha]%elem_of_cons Hb; [|by apply H3]. rewrite Forall_forall in Hx2. auto.
    + intros (H1 & H2 & H3). inversion H1 as [|? ? Hx Hl]; subst. constructor.
      * apply Forall_app; split; [done|]. apply Forall_forall. intros b Hb. apply H3; [apply elem_of_cons; by left|done].
      * apply IH. split_and!; try done. intros a b Ha Hb. apply H3; [apply elem_of_cons; by right|done].
Qed.

Lemma pairs_impl (R' : A → A → Prop) l : ForallOrdPairs R l →
  (∀ a b, a ∈ l → b ∈ l → R a b → R' a b) → ForallOrdPairs R' l.
Proof.
  induction 1 as [|x l Hx _ IH]; intros H; [constructor|]. constructor.
  - rewrite Forall_forall in Hx |- *. intros y Hy. apply H; [apply elem_of_cons; by left|apply elem_of_cons; by right|auto].
  - apply IH. intros a b Ha Hb. apply H; apply elem_of_cons; by right.
Qed.
End pairs.

Lemma Forall2_impl_elem {A B} (P Q : A → B → Prop) l k : Forall2 P l k →
  (∀ x y, x ∈ l → y ∈ k → P x y → Q x y) → Forall2 Q l k.
Proof.
  induction 1 as [|x y l k Hxy _ IH]; intros H; constructor.
  - apply H; [apply elem_of_cons; by left..|done].
  - apply IH. intros a b Ha Hb. apply H; apply elem_of_cons; by right.
Qed.

(** ** What is known of a unit waiting to land *)
Section landing.
Context {S : Type} `{!MvccStore S} `{!MvccStoreLaws S} {V : Type} (shard : jsstr).

Abbreviation gcall := (gcall V).

(** The unit is what the call staged. *)
Definition unit_match (u : StagedUnit) (t : gcall) : Prop :=
  gc_phase t = GStaged (su_documents u) ∧ u = unit_of_call shard (su_call u) t (su_documents u) ∧
  ∃ v, gc_rest t = FRet v.

Definition call_unit (t : gcall) (es : list DocumentLogEntry) : CommitUnit := ctx_unit (gc_ctx t) es (gc_meta t).

(** [t] neither validated a read of what [u] wrote nor writes a document of [u]. *)
Definition after (u : StagedUnit) (t : gcall) : Prop :=
  intersects (validatedReads (gc_ctx t)) (su_writeRanges u) = false ∧
  ∀ w, w ∈ uw_entries (staged (gc_ctx t)) → lw_id w ∉ (le_id <$> su_documents u).

(** A unit with entries [es] can land on [s] as it is. *)
Record ready (s : S) (t : gcall) (es : list DocumentLogEntry) : Prop := {
  rd_agree : agree s (gc_snap t) (ms_max s) (validatedReads (gc_ctx t));
  rd_snap : gc_snap t ≤ ms_max s;
  rd_unit : unit_okb (call_unit t es) = true;
  rd_closed : ms_closed s (call_unit t es);
  rd_local : unit_local (call_unit t es);
  rd_covered : ∀ u, u ∈ indexUpdates (gc_ctx t) → ∃ tn index, iu_indexId u = encodeStorageIndexId tn index ∧
    covers (writeRanges (gc_ctx t)) (indexKeyspaceId (encodeStorageTableId tn) index) (iu_key u);
  rd_ids : Forall2 (λ w e, le_id e = lw_id w ∧ option_map rd_value (le_value e) = lw_value w)
    (uw_entries (staged (gc_ctx t))) es;
  rd_prev : ∀ e, e ∈ es → ∃ p, ms_get s (le_id e) None = Ok p ∧ le_prev_ts e = option_map ld_ts p;
  rd_ctx : ctx_ok (gc_ctx t) }.

Lemma unit_match_commit u t : unit_match u t → commit_unit_of u = call_unit t (su_documents u).
Proof. intros (_ & -> & _). done. Qed.

(** The documents of a unit after [u] are none of [u]'s. *)
Lemma after_apart u t es e : after u t →
  Forall2 (λ w e, le_id e = lw_id w ∧ option_map rd_value (le_value e) = lw_value w) (uw_entries (staged (gc_ctx t))) es →
  e ∈ es → le_id e ∉ (le_id <$> su_documents u).
Proof.
  intros [_ Ha] H2 He. apply list_elem_of_lookup in He as [i Hi].
  destruct (Forall2_lookup_r _ _ _ _ _ H2 Hi) as (w & Hw & -> & _). apply Ha. by eapply list_elem_of_lookup_2.
Qed.

Lemma after_unit_apart u t t' es : unit_match u t → unit_local (call_unit t (su_documents u)) → after u t' →
  Forall2 (λ w e, le_id e = lw_id w ∧ option_map rd_value (le_value e) = lw_value w) (uw_entries (staged (gc_ctx t'))) es →
  unit_apart (commit_unit_of u) (call_unit t' es).
Proof.
  intros Hm Hl Ha H2. split; [by rewrite (unit_match_commit u t Hm)|]. simpl.
  intros id Hid (e & -> & He)%list_elem_of_fmap. by eapply after_apart.
Qed.

(** ** A batch lands *)
Context (s s' : S) (l : list (nat * gcall)) (us : list StagedUnit) (tss : list Z).
Context (Hs : ms_ok s) (Hcommit : ms_commit s (List.map commit_unit_of us) (Some shard) = Ok (s', tss)).
Context (Hus : ∀ u, u ∈ us → ∃ t, jm_get l (su_call u) = Some t ∧ unit_match u t ∧ ready s t (su_documents u)).
Context (Hord : ForallOrdPairs (λ u u', ∀ t', jm_get l (su_call u') = Some t' → after u t') us).

Lemma us_okb : Forall (λ u, unit_okb u = true) (List.map commit_unit_of us).
Proof.
  apply Forall_map, Forall_forall. intros u Hu. destruct (Hus u Hu) as (t & _ & Hm & Hr).
  rewrite (unit_match_commit u t Hm). apply Hr.
Qed.

Lemma batch_max : ms_ok s' ∧ tss = seqZ (ms_max s + 1) (Z.of_nat (length us)) ∧
  ms_max s' = ms_max s + Z.of_nat (length us).
Proof.
  destruct (ms_commit_ok s _ _ _ _ Hs us_okb Hcommit) as (H1 & _ & H2 & H3). by rewrite length_map in H2, H3.
Qed.

Lemma batch_view t : t ≤ ms_max s → same_view s s' t.
Proof. intros Ht. split; intros; [eapply ms_get_old|eapply ms_scan_old]; try exact Hcommit; try done; apply us_okb. Qed.

Lemma us_lookup i u : us !! i = Some u → List.map commit_unit_of us !! i = Some (commit_unit_of u).
Proof. intros H. by rewrite list_lookup_fmap, H. Qed.

(** Documents none of the first [i] units writes read as before. *)
Lemma batch_frame id i : (i ≤ length us)%nat → (∀ j u, (j < i)%nat → us !! j = Some u → id ∉ (le_id <$> su_documents u)) →
  ms_get s' id (Some (ms_max s + Z.of_nat i)) = ms_get s id (Some (ms_max s)).
Proof.
  induction i as [|i IH]; intros Hi H.
  - rewrite Z.add_0_r. by apply batch_view.
  - destruct (lookup_lt_is_Some_2 us i ltac:(lia)) as [u Hu].
    replace (ms_max s + Z.of_nat (Datatypes.S i)) with (ms_max s + 1 + Z.of_nat i) by lia.
    rewrite (ms_get_frame s _ _ _ _ i _ id Hs us_okb Hcommit (us_lookup i u Hu)) by (apply (H i); [lia|done]).
    apply IH; [lia|]. intros j u' Hj. apply H. lia.
Qed.

Lemma batch_landed i u t : us !! i = Some u → jm_get l (su_call u) = Some t → unit_match u t → ready s t (su_documents u) →
  landed s' (gc_ctx t) (ms_max s + 1 + Z.of_nat i) (su_documents u).
Proof.
  intros Hi Ht Hm Hr. pose proof (us_lookup i u Hi) as Hi'. pose proof (unit_match_commit u t Hm) as Ecu.
  assert (Hlen : (i < length us)%nat) by (by eapply lookup_lt_Some).
  assert (Hbefore : ∀ j u', (j < i)%nat → us !! j = Some u' → after u' t).
  { intros j u' Hj Hu'. by apply (pairs_lookup _ us j i u' u Hord Hj Hu' Hi). }
  split.
  - apply Hr.
  - intros e He. destruct (rd_prev _ _ _ Hr e He) as (p & Hp & Ep). exists p. split; [|done].
    replace (ms_max s + 1 + Z.of_nat i - 1) with (ms_max s + Z.of_nat i) by lia.
    rewrite batch_frame; [by rewrite ms_get_latest by lia|lia|].
    intros j u' Hj Hu'. eapply after_apart; [by eapply Hbefore|apply Hr|done].
  - intros e He. eapply (ms_get_new s _ _ _ _ i); [done|apply us_okb|exact Hcommit|exact Hi'|]. by rewrite Ecu.
  - intros id Hid. replace (ms_max s + 1 + Z.of_nat i - 1) with (ms_max s + Z.of_nat i) by lia.
    eapply (ms_get_frame s _ _ _ _ i); [done|apply us_okb|exact Hcommit|exact Hi'|]. by rewrite Ecu.
  - intros ix iv o lim Hsc. replace (ms_max s + 1 + Z.of_nat i - 1) with (ms_max s + Z.of_nat i) by lia.
    eapply (ms_scan_frame s _ _ _ _ i); [done|apply us_okb|exact Hcommit|exact Hi'|rewrite Ecu; apply Hr|..].
    + intros j u0 Hj Hu0. rewrite list_lookup_fmap in Hu0. destruct (us !! j) as [u'|] eqn:Hu'; [|done].
      injection Hu0 as <-. destruct (Hus u' ltac:(by eapply list_elem_of_lookup_2)) as (t' & _ & Hm' & Hr').
      rewrite Ecu. apply (after_unit_apart u' t'); [done|apply Hr'|by eapply Hbefore|apply Hr].
    + rewrite Ecu. simpl. intros w Hw. unfold stage_updates in Hw.
      apply list_elem_of_In, in_map_iff in Hw as (x & <- & Hx%list_elem_of_In). simpl. by apply Hsc.
  - apply Hr.
  - apply Hr.
Qed.

(** Validated reads that no landed unit intersects read the same across the first [n] units. *)
Lemma batch_agree vr n : rs_ok vr → (n ≤ length us)%nat →
  (∀ j u, (j < n)%nat → us !! j = Some u → intersects vr (su_writeRanges u) = false) →
  agree s' (ms_max s) (ms_max s + Z.of_nat n) vr.
Proof.
  intros Hvr Hn H. apply chain_agree. intros ts Hts.
  set (i := Z.to_nat (ts - ms_max s - 1)). replace ts with (ms_max s + 1 + Z.of_nat i) by lia.
  destruct (lookup_lt_is_Some_2 us i ltac:(lia)) as [u Hu].
  destruct (Hus u ltac:(by eapply list_elem_of_lookup_2)) as (t & Ht & Hm & Hr).
  eapply landed_agree; [by eapply batch_landed|done|]. specialize (H i u ltac:(lia) Hu).
  destruct Hm as (_ & Eu & _). rewrite Eu in H. exact H.
Qed.

Lemma agree_view vr t t' : t ≤ ms_max s → t' ≤ ms_max s → agree s t t' vr → agree s' t t' vr.
Proof.
  intros Ht Ht' [Hg Hsc]. destruct (batch_view t Ht) as [G1 S1], (batch_view t' Ht') as [G2 S2].
  split; [intros; rewrite G1, G2; auto|]. intros tn ix iv o lim Hr. rewrite S1, S2. auto.
Qed.

(** Across the first [n] units for a call that comes after all of them. *)
Lemma batch_agree_call t n : (n ≤ length us)%nat → ctx_ok (gc_ctx t) → gc_snap t ≤ ms_max s →
  agree s (gc_snap t) (ms_max s) (validatedReads (gc_ctx t)) →
  (∀ j u, (j < n)%nat → us !! j = Some u → after u t) →
  agree s' (gc_snap t) (ms_max s + Z.of_nat n) (validatedReads (gc_ctx t)).
Proof.
  intros Hn Hc Hsn Ha Haf. eapply (agree_trans _ _ (ms_max s)); [by apply agree_view|].
  apply batch_agree; [apply Hc|done|]. intros j u Hj Hu. by apply (Haf j).
Qed.

(** Documents of a call after every unit read as before the batch. *)
Lemma batch_get_after t w : (∀ u, u ∈ us → after u t) → w ∈ uw_entries (staged (gc_ctx t)) →
  ms_get s' (lw_id w) None = ms_get s (lw_id w) None.
Proof.
  intros Haf Hw. destruct batch_max as (_ & _ & Hm). rewrite <-(ms_get_latest s' _ (ms_max s')) by lia.
  rewrite <-(ms_get_latest s _ (ms_max s)) by lia. rewrite Hm. apply batch_frame; [done|].
  intros j u _ Hu. destruct (Haf u ltac:(by eapply list_elem_of_lookup_2)) as [_ Ha]. by apply Ha.
Qed.

(** A unit that comes after the whole batch is as ready as before. *)
Lemma batch_ready t es : ready s t es → (∀ u, u ∈ us → after u t) → ready s' t es.
Proof.
  intros Hr Haf. pose proof batch_max as (_ & _ & Hm). split; try apply Hr.
  - rewrite Hm. apply batch_agree_call; try apply Hr; [done|]. intros j u _ Hu. apply Haf. by eapply list_elem_of_lookup_2.
  - pose proof (rd_snap _ _ _ Hr). lia.
  - eapply (ms_closed_frame s); [done|apply us_okb|exact Hcommit|apply Hr|apply Hr|].
    apply Forall_map, Forall_forall. intros u Hu. destruct (Hus u Hu) as (t' & _ & Hm' & Hr').
    apply (after_unit_apart u t'); [done|apply Hr'|by apply Haf|apply Hr].
  - intros e He. destruct (rd_prev _ _ _ Hr e He) as (p & Hp & Ep). exists p. split; [|done]. rewrite <-Hp.
    apply list_elem_of_lookup in He as [i Hi].
    destruct (Forall2_lookup_r _ _ _ _ _ (rd_ids _ _ _ Hr) Hi) as (w & Hw & -> & _).
    apply (batch_get_after t); [done|]. by eapply list_elem_of_lookup_2.
Qed.
End landing.

(** ** What is in flight *)
Definition landed_todo (c : committer) : list (StagedUnit * Z) :=
  match c with
  | CLanded _ o => fo_landed o
  | CPublish _ _ todo | CDead _ _ todo => todo
  | _ => []
  end.

Definition rejected_units (c : committer) : list StagedUnit :=
  match c with
  | CLanded _ o | CPublish _ o _ | CDead _ o _ => (rejections o).*1
  | _ => []
  end.

Definition flush_units (c : committer) : list StagedUnit := match c with CFlush b => b_units b | _ => [] end.
Definition batch_units (b : option Batch) : list StagedUnit := match b with Some b => b_units b | None => [] end.

Section ginvariant.
Context {S : Type} `{!MvccStore S} `{!MvccStoreLaws S} {V : Type}.
Context (shard : jsstr) (hlimits : HeadroomLimits) (maxRetries : nat) (s0 : S).

Abbreviation gcall := (gcall V).
Abbreviation gsys := (gsys S V).
Abbreviation fresh t := (new_Ctx t shard (new_HeadroomTracker hlimits)).
Abbreviation matched := (unit_match (V := V) shard).
Abbreviation gcount := (count_at (K := nat) (A := gcall) gc_snap).

Definition g_clock (σ : gsys) : Z := getLastCommittedTimestamp (oracle (g_base σ)).

(** Staged units not yet handed to the store, in landing order. *)
Definition queue (σ : gsys) : list StagedUnit := flush_units (g_committer σ) ++ batch_units (pendingBatch (gw σ)).
(** Every unit whose promise is not settled. *)
Definition inflight (σ : gsys) : list StagedUnit :=
  (landed_todo (g_committer σ)).*1 ++ rejected_units (g_committer σ) ++ queue σ.

(** What holds of a call. *)
Record gcall_inv (s : S) (lc : Z) (lk : option holder) (q : list StagedUnit) (tid : nat) (t : gcall) : Prop := {
  gt_snap : ms_max s0 ≤ gc_snap t ≤ lc;
  gt_run : exec s (fresh (gc_snap t)) (gc_fun t) (gc_ctx t) (gc_rest t);
  gt_attempt : (gc_attempt t ≤ maxRetries)%nat;
  gt_staging : ∀ done todo, gc_phase t = GStaging done todo →
    lk = Some (ByCall tid) ∧ (∃ v, gc_rest t = FRet v) ∧
    agree s (gc_snap t) (ms_max s) (validatedReads (gc_ctx t)) ∧
    (∃ ws, uw_entries (staged (gc_ctx t)) = ws ++ todo ∧
       Forall2 (λ w e, ∃ p, ms_get s (lw_id w) None = Ok p ∧ e = log_entry w p) ws done) ∧
    ∀ u, u ∈ q → after u t }.

Definition batch_ok (b : Batch) : Prop :=
  rs_ok (b_writesUnion b) ∧
  ∀ u, u ∈ b_units b →
    (∀ r, r ∈ toArray (su_writeRanges u) → r ∈ toArray (b_writesUnion b)) ∧
    (∀ e, e ∈ su_documents u → documentIdKey (le_id e) ∈ b_writtenDocKeys b).

(** The flushing slot, the mutex and the committer's position agree. *)
Definition committer_ok (σ : gsys) : Prop :=
  match g_committer σ with
  | COff => flushingBatch (gw σ) = None ∧ g_lock σ ≠ Some ByCommitter ∧ committerRunning (gw σ) = false ∧
            batch_units (pendingBatch (gw σ)) = []
  | CDetach => flushingBatch (gw σ) = None ∧ g_lock σ ≠ Some ByCommitter ∧ committerRunning (gw σ) = true
  | CFlush b => flushingBatch (gw σ) = Some b ∧ g_lock σ ≠ Some ByCommitter ∧ committerRunning (gw σ) = true ∧ b_units b ≠ []
  | CLanded b o | CDead b o _ =>
      flushingBatch (gw σ) = Some b ∧ g_lock σ ≠ Some ByCommitter ∧ committerRunning (gw σ) = true
  | CPublish b o _ => flushingBatch (gw σ) = Some b ∧ g_lock σ = Some ByCommitter ∧ committerRunning (gw σ) = true
  end.

Definition in_order (l : list (nat * gcall)) (u u' : StagedUnit) : Prop :=
  ∀ t', jm_get l (su_call u') = Some t' → after u t'.

Record ginv (σ : gsys) : Prop := {
  gi_ok : ms_ok (g_store σ);
  gi_keys : jm_ok (g_calls σ);
  gi_active : active_ok (activeSnapshots (g_base σ)) (gcount (g_calls σ));
  gi_call : ∀ tid t, jm_get (g_calls σ) tid = Some t →
    gcall_inv (g_store σ) (g_clock σ) (g_lock σ) (queue σ) tid t;
  gi_max : ms_max (g_store σ) = g_clock σ + Z.of_nat (length (landed_todo (g_committer σ)));
  gi_todo_ts : (landed_todo (g_committer σ)).*2 =
    seqZ (g_clock σ + 1) (Z.of_nat (length (landed_todo (g_committer σ))));
  gi_inflight : ∀ u, u ∈ inflight σ → ∃ t, jm_get (g_calls σ) (su_call u) = Some t ∧ matched u t;
  gi_nodup : NoDup (su_call <$> inflight σ);
  gi_todo : ∀ u ts t, (u, ts) ∈ landed_todo (g_committer σ) → jm_get (g_calls σ) (su_call u) = Some t →
    landed (g_store σ) (gc_ctx t) ts (su_documents u) ∧
    agree (g_store σ) (gc_snap t) (ts - 1) (validatedReads (gc_ctx t)) ∧ u ∈ batch_units (flushingBatch (gw σ));
  gi_queue : ∀ u t, u ∈ queue σ → jm_get (g_calls σ) (su_call u) = Some t → ready (g_store σ) t (su_documents u);
  gi_order : ForallOrdPairs (in_order (g_calls σ)) (queue σ);
  gi_batches : (∀ b, pendingBatch (gw σ) = Some b → batch_ok b) ∧ (∀ b, flushingBatch (gw σ) = Some b → batch_ok b);
  gi_committer : committer_ok σ;
  gi_times : ms_max s0 ≤ g_clock σ ∧ c_ts <$> g_history σ = seqZ (ms_max s0 + 1) (g_clock σ - ms_max s0);
  gi_landed : ∀ c, c ∈ g_history σ → landed (g_store σ) (c_ctx c) (c_ts c) (c_entries c);
  gi_ring : ∀ c tid t, c ∈ g_history σ → jm_get (g_calls σ) tid = Some t → gc_snap t < c_ts c →
    ring_entry c ∈ recentCommits (g_base σ);
  gi_serial : ∀ c, c ∈ g_history σ → ms_max s0 ≤ snapshotTs (c_ctx c) ≤ c_ts c - 1 ∧
    exec_at (g_store σ) (snapshotTs (c_ctx c)) (fresh (c_ts c - 1)) (c_fun c)
      (at_snapshot (c_ctx c) (c_ts c - 1)) (FRet (c_value c)) }.

Lemma g_history_ts σ c : ginv σ → c ∈ g_history σ → ms_max s0 < c_ts c ≤ g_clock σ.
Proof.
  intros Hi Hc. destruct (gi_times σ Hi) as [H0 Ht].
  assert (Hin : c_ts c ∈ c_ts <$> g_history σ) by (by apply list_elem_of_fmap_2).
  rewrite Ht in Hin. apply elem_of_seqZ in Hin. lia.
Qed.

Lemma g_history_at σ ts : ginv σ → ms_max s0 < ts ≤ g_clock σ → ∃ c, c ∈ g_history σ ∧ c_ts c = ts.
Proof.
  intros Hi Hts. destruct (gi_times σ Hi) as [H0 Ht].
  assert (Hin : ts ∈ c_ts <$> g_history σ) by (rewrite Ht; apply elem_of_seqZ; lia).
  apply list_elem_of_fmap in Hin as (c & -> & Hc). eauto.
Qed.

Lemma gcall_ctx_ok s lc lk q tid t : gcall_inv s lc lk q tid t → ctx_ok (gc_ctx t).
Proof. intros H. eapply exec_ok; [apply H|]. apply new_Ctx_ok. Qed.

(** A call that is not awaiting its completion has nothing in flight. *)
Lemma not_inflight σ tid t u : ginv σ → jm_get (g_calls σ) tid = Some t → (∀ es, gc_phase t ≠ GStaged es) →
  u ∈ inflight σ → su_call u ≠ tid.
Proof.
  intros Hi Ht Hp Hu <-. destruct (gi_inflight σ Hi u Hu) as (t' & Ht' & Hm & _). rewrite Ht in Ht'.
  injection Ht' as <-. by eapply Hp.
Qed.

Lemma queue_inflight σ u : u ∈ queue σ → u ∈ inflight σ.
Proof. intros H. unfold inflight. rewrite !elem_of_app. auto. Qed.

Lemma todo_inflight σ u ts : (u, ts) ∈ landed_todo (g_committer σ) → u ∈ inflight σ.
Proof. intros H. unfold inflight. rewrite !elem_of_app. left. apply list_elem_of_fmap. by exists (u, ts). Qed.

(** ** Steps that only touch calls *)
Lemma ginv_calls σ a lk l : ginv σ → jm_ok l → active_ok a (gcount l) →
  (∀ tid t, jm_get l tid = Some t → gcall_inv (g_store σ) (g_clock σ) lk (queue σ) tid t) →
  (∀ u, u ∈ inflight σ → jm_get l (su_call u) = jm_get (g_calls σ) (su_call u)) →
  (lk = Some ByCommitter ↔ g_lock σ = Some ByCommitter) →
  (∀ c tid t, c ∈ g_history σ → jm_get l tid = Some t → gc_snap t < c_ts c → ring_entry c ∈ recentCommits (g_base σ)) →
  ginv (with_calls σ (with_snapshots (gw σ) a) lk l).
Proof.
  intros Hi Hk Ha Hc Hf Hlk Hr. destruct Hi as [I1 I2 I3 I4 I5 I6 I7 I8 I9 I10 I11 I12 I13 I14 I15 I16 I17].
  assert (Hq := λ u, queue_inflight σ u). assert (Ht := λ u ts, todo_inflight σ u ts).
  split; try done.
  - intros u Hu. change (u ∈ inflight σ) in Hu. simpl. rewrite (Hf u Hu). by apply I7.
  - intros u ts t Hu. simpl. rewrite Hf by (by eapply Ht). by apply I9.
  - intros u t Hu. simpl. change (u ∈ queue σ) in Hu. rewrite Hf by (by apply Hq). by apply I10.
  - change (ForallOrdPairs (in_order l) (queue σ)). eapply pairs_impl; [exact I11|].
    intros u u' _ Hu' H t'. rewrite Hf by (by apply Hq). apply H.
  - unfold committer_ok in *. simpl. destruct (g_committer σ); naive_solver.
Qed.

(** One call is set: its old entry, if any, has nothing in flight. *)
Lemma ginv_set σ a lk tid t' : ginv σ → active_ok a (gcount (jm_set (g_calls σ) tid t')) →
  (∀ t es, jm_get (g_calls σ) tid = Some t → gc_phase t ≠ GStaged es) →
  gcall_inv (g_store σ) (g_clock σ) lk (queue σ) tid t' →
  (lk = Some ByCommitter ↔ g_lock σ = Some ByCommitter) →
  (∀ tid', tid' ≠ tid → g_lock σ = Some (ByCall tid') → lk = Some (ByCall tid')) →
  (gc_snap t' = g_clock σ ∨ ∃ t, jm_get (g_calls σ) tid = Some t ∧ gc_snap t = gc_snap t') →
  ginv (with_calls σ (with_snapshots (gw σ) a) lk (jm_set (g_calls σ) tid t')).
Proof.
  intros Hi Ha Hp Hc Hlk Hlk' Hsn. apply ginv_calls; [done|apply jm_set_ok, Hi|done|..].
  - intros tid' t2. rewrite jm_get_set. case_decide as Hd; [intros [= <-]; by subst|]. intros Ht2.
    destruct (gi_call σ Hi _ _ Ht2) as [H1 H2 H3 H4]. split; try done. intros done todo E.
    destruct (H4 done todo E) as (E1 & H). split; [|exact H]. by apply Hlk'.
  - intros u Hu. rewrite jm_get_set, decide_False; [done|]. intros E.
    destruct (gi_inflight σ Hi u Hu) as (t & Ht & Hm & _). eapply Hp; [|exact Hm]. by rewrite <-E.
  - done.
  - intros c tid' t2 Hc'. rewrite jm_get_set. case_decide as Hd; [intros [= <-] Hlt|by eapply gi_ring].
    pose proof (g_history_ts σ c Hi Hc'). destruct Hsn as [E|(t & Ht & E)]; [lia|]. eapply gi_ring; [done|done|exact Ht|lia].
Qed.

(** The call's snapshot stays retained. *)
Lemma ginv_advance σ lk tid t t' : ginv σ → jm_get (g_calls σ) tid = Some t → gc_snap t' = gc_snap t →
  (∀ es, gc_phase t ≠ GStaged es) → gcall_inv (g_store σ) (g_clock σ) lk (queue σ) tid t' →
  (lk = Some ByCommitter ↔ g_lock σ = Some ByCommitter) →
  (∀ tid', tid' ≠ tid → g_lock σ = Some (ByCall tid') → lk = Some (ByCall tid')) →
  ginv (with_calls σ (gw σ) lk (jm_set (g_calls σ) tid t')).
Proof.
  intros Hi Ht Es Hp Hc Hlk Hlk'.
  replace (gw σ) with (with_snapshots (gw σ) (activeSnapshots (g_base σ))).
  2: { unfold with_snapshots, g_base, with_base, with_active. destruct (gw σ) as [[] ? ? ? ? ? ?]. done. }
  apply ginv_set; try done.
  - destruct (gi_active σ Hi) as [Ha1 Ha2]. split; [done|]. intros ts.
    rewrite count_at_set, Ht, Es by apply Hi. replace (_ - _ + _) with (gcount (g_calls σ) ts) by lia. apply Ha2.
  - intros t0 es Ht0. replace t0 with t by congruence. apply Hp.
  - right. eauto.
Qed.

Lemma ginv_begin_call σ lk tid f m origin n : ginv σ → (n ≤ maxRetries)%nat →
  gcall_inv (g_store σ) (g_clock σ) lk (queue σ) tid (g_begin shard hlimits (oracle (g_base σ)) f m origin n).
Proof.
  intros Hi Hn. split; simpl; try done.
  - split; [apply Hi|]. unfold gc_snap, g_clock. simpl. lia.
  - constructor.
Qed.

Lemma ginv_remove σ tid t : ginv σ → jm_get (g_calls σ) tid = Some t → (∀ es, gc_phase t ≠ GStaged es) →
  ginv (with_calls σ (with_snapshots (gw σ) (release (activeSnapshots (g_base σ)) (gc_snap t))) (g_lock σ)
          (jm_delete (g_calls σ) tid)).
Proof.
  intros Hi Ht Hp. pose proof (gi_keys σ Hi) as Hk. apply ginv_calls; [done|by apply jm_delete_ok|..].
  - eapply active_release; [apply Hi|by eapply count_at_pos|]. intros ts. by apply count_at_delete.
  - intros tid' t'. rewrite jm_get_delete by done. case_decide as Hd; [done|]. apply Hi.
  - intros u Hu. rewrite jm_get_delete, decide_False; [done| |done]. by eapply not_inflight.
  - done.
  - intros c tid' t' Hc. rewrite jm_get_delete by done. case_decide; [done|]. by eapply gi_ring.
Qed.

(** ** The stage step's checks *)
Lemma batch_no_conflict b vr u : batch_ok b → rs_ok vr → rs_ok (su_writeRanges u) → u ∈ b_units b →
  batch_conflict (Some b) vr = None → intersects vr (su_writeRanges u) = false.
Proof.
  intros [Hok Hb] Hvr Hw Hu. simpl. destruct (intersects vr (b_writesUnion b)) eqn:E; [done|]. intros _.
  apply not_true_iff_false. intros Ht. apply not_true_iff_false in E. apply E.
  apply intersects_true in Ht as (x & y & Hx & Hy & Hxy); [|done..]. apply intersects_true; [done..|].
  exists x, y. split_and!; try done. by apply (Hb u Hu).
Qed.

Lemma cut_check_None flushing pending ws : cut_check flushing pending ws = None →
  ∀ w, w ∈ ws → batch_writes flushing (documentIdKey (lw_id w)) = None ∧ batch_writes pending (documentIdKey (lw_id w)) = None.
Proof.
  induction ws as [|w ws IH]; intros H w' Hw'; [by apply elem_of_nil in Hw'|]. simpl in H.
  destruct (batch_writes flushing _) eqn:E1; [done|]. destruct (batch_writes pending _) eqn:E2; [done|].
  apply elem_of_cons in Hw' as [->|Hw']; [done|]. by apply IH.
Qed.

Lemma batch_not_written b u id : batch_ok b → u ∈ b_units b → batch_writes (Some b) (documentIdKey id) = None →
  id ∉ (le_id <$> su_documents u).
Proof.
  intros [_ Hb] Hu. simpl. case_bool_decide as E; [done|]. intros _ (e & -> & He)%list_elem_of_fmap.
  apply E. by apply (Hb u Hu).
Qed.

Lemma matched_writes_ok σ u : ginv σ → u ∈ inflight σ → rs_ok (su_writeRanges u).
Proof.
  intros Hi Hu. destruct (gi_inflight σ Hi u Hu) as (t & Ht & _ & Eu & _). rewrite Eu. simpl.
  eapply gcall_ctx_ok, gi_call; done.
Qed.

(** A batch that passes both checks has only units before the call. *)
Lemma batch_after σ b (t : gcall) u : ginv σ → batch_ok b → u ∈ b_units b → u ∈ inflight σ → ctx_ok (gc_ctx t) →
  batch_conflict (Some b) (validatedReads (gc_ctx t)) = None →
  (∀ w, w ∈ uw_entries (staged (gc_ctx t)) → batch_writes (Some b) (documentIdKey (lw_id w)) = None) → after u t.
Proof.
  intros Hi Hb Hu Hf Hc H1 H2. split.
  - eapply batch_no_conflict; try done; [apply Hc|by eapply matched_writes_ok].
  - intros w Hw. eapply batch_not_written; [done..|]. by apply H2.
Qed.

(** Validation against the ring and both buffers is validation against everything that landed and
    everything that will land first. *)
Lemma stage_check_ok σ tid t : ginv σ → jm_get (g_calls σ) tid = Some t → check_call σ t = StageOk →
  agree (g_store σ) (gc_snap t) (ms_max (g_store σ)) (validatedReads (gc_ctx t)) ∧ ∀ u, u ∈ queue σ → after u t.
Proof.
  intros Hi Ht. unfold check_call, stage_check. destruct (conflicts _ _ _) eqn:Ec; [done|].
  destruct (batch_conflict (flushingBatch (gw σ)) _) eqn:Ef; [done|].
  destruct (batch_conflict (pendingBatch (gw σ)) _) eqn:Ep; [done|].
  destruct (cut_check _ _ _) eqn:Ecut; [done|]. intros _. pose proof (cut_check_None _ _ _ Ecut) as Hcut.
  pose proof (gi_call σ Hi _ _ Ht) as Hti. pose proof (gcall_ctx_ok _ _ _ _ _ _ Hti) as Hc.
  pose proof (gt_snap _ _ _ _ _ _ Hti) as Hsn. destruct (gi_batches σ Hi) as [Hbp Hbf].
  assert (Hfl : ∀ u, u ∈ batch_units (flushingBatch (gw σ)) → u ∈ inflight σ → after u t).
  { intros u Hu Hin. destruct (flushingBatch (gw σ)) as [b|] eqn:E; [|by apply elem_of_nil in Hu].
    apply (batch_after σ b); auto. intros w Hw. by apply Hcut. }
  split.
  - replace (ms_max (g_store σ)) with (gc_snap t + Z.of_nat (Z.to_nat (ms_max (g_store σ) - gc_snap t)))
      by (pose proof (gi_max σ Hi); lia).
    apply chain_agree. intros ts Hts. destruct (Z.le_gt_cases ts (g_clock σ)) as [Hle|Hgt].
    + destruct (g_history_at σ ts Hi) as (c & Hin & <-); [lia|].
      eapply landed_agree; [by apply gi_landed|apply Hc|]. apply not_true_iff_false. intros Hx.
      apply not_true_iff_false in Ec. apply Ec. unfold conflicts. apply existsb_Exists. exists (ring_entry c). split.
      * eapply gi_ring; [done|done|exact Ht|lia].
      * simpl. rewrite Hx, andb_true_r. apply Z.ltb_lt. lia.
    + pose proof (gi_todo_ts σ Hi) as E. pose proof (gi_max σ Hi) as Em.
      assert (Hin : ts ∈ (landed_todo (g_committer σ)).*2) by (rewrite E; apply elem_of_seqZ; lia).
      apply list_elem_of_fmap in Hin as ([u ts'] & -> & Hin). simpl in *.
      pose proof (todo_inflight σ u ts' Hin) as Huf. destruct (gi_inflight σ Hi u Huf) as (tu & Htu & _ & Eu & _).
      destruct (gi_todo σ Hi _ _ _ Hin Htu) as (Hl & _ & Hu).
      eapply landed_agree; [exact Hl|apply Hc|]. destruct (Hfl u Hu Huf) as [Hni _]. rewrite Eu in Hni. exact Hni.
  - intros u Hu. pose proof (queue_inflight σ u Hu) as Huf. unfold queue in Hu. apply elem_of_app in Hu as [Hu|Hu].
    + apply Hfl; [|done]. pose proof (gi_committer σ Hi) as Hco. unfold committer_ok in Hco.
      destruct (g_committer σ); try by apply elem_of_nil in Hu. destruct Hco as [-> _]. exact Hu.
    + destruct (pendingBatch (gw σ)) as [b|] eqn:E; [|by apply elem_of_nil in Hu].
      apply (batch_after σ b); auto. intros w Hw. by apply Hcut.
Qed.

(** ** Staging *)
Lemma fold_rs_add rs u : rs_ok u → rs_ok (fold_left rs_add rs u) ∧
  ∀ r, r ∈ toArray (fold_left rs_add rs u) ↔ r ∈ rs ∨ r ∈ toArray u.
Proof.
  revert u. induction rs as [|x rs IH]; intros u Hu; simpl.
  - split; [done|]. intros r. rewrite elem_of_nil. tauto.
  - destruct (IH (rs_add u x)) as [H1 H2]; [by apply rs_add_ok|]. split; [done|]. intros r.
    rewrite H2, rs_add_elem, elem_of_cons by done. tauto.
Qed.

Lemma newBatch_ok p : batch_ok (newBatch p).
Proof. split; [apply rs_new_ok|]. intros u Hu. by apply elem_of_nil in Hu. Qed.

Lemma batch_push_ok b u ks : batch_ok b → (∀ e, e ∈ su_documents u → documentIdKey (le_id e) ∈ ks) →
  batch_ok (batch_push b u ks).
Proof.
  intros [H1 H2] Hk. destruct (fold_rs_add (toArray (su_writeRanges u)) _ H1) as [F1 F2].
  split; simpl; [done|]. intros u' [Hu'| ->%list_elem_of_singleton]%elem_of_app.
  - destruct (H2 u' Hu') as [Ha Hb]. split; [intros r Hr; apply F2; auto|intros e He; apply fold_set_add; auto].
  - split; [intros r Hr; apply F2; auto|intros e He; apply fold_set_add; auto].
Qed.

(** The unit a finished stage step appends is ready. *)
Lemma staged_ready σ tid t entries : ginv σ → jm_get (g_calls σ) tid = Some t → gc_phase t = GStaging entries [] →
  disciplined (g_store σ) (gc_ctx t) entries (gc_meta t) → unit_local (ctx_unit (gc_ctx t) entries (gc_meta t)) →
  ready (g_store σ) t entries.
Proof.
  intros Hi Ht Hp [Du Dc Dv] Hloc. pose proof (gi_call σ Hi _ _ Ht) as Hti.
  destruct (gt_staging _ _ _ _ _ _ Hti _ _ Hp) as (_ & _ & Hag & (ws & Ews & H2) & _). rewrite app_nil_r in Ews.
  pose proof (gt_snap _ _ _ _ _ _ Hti). pose proof (gi_max σ Hi). split; try done; try lia.
  - intros u Hu. destruct (Dv u Hu) as (tn & index & r & E1 & E2 & E3 & E4). exists tn, index. split; [done|]. by exists r.
  - rewrite Ews. eapply Forall2_impl; [exact H2|]. intros w e (p & _ & ->). simpl. split; [done|]. by destruct (lw_value w).
  - intros e He. apply list_elem_of_lookup in He as [i Hi'].
    destruct (Forall2_lookup_r _ _ _ _ _ H2 Hi') as (w & _ & p & Hp' & ->). exists p. split; [done|]. by destruct p.
  - by eapply gcall_ctx_ok.
Qed.

Lemma ginv_append σ tid t entries : ginv σ → jm_get (g_calls σ) tid = Some t → gc_phase t = GStaging entries [] →
  disciplined (g_store σ) (gc_ctx t) entries (gc_meta t) → unit_local (ctx_unit (gc_ctx t) entries (gc_meta t)) →
  ginv {| gw := stage_append (gw σ) (g_promise σ) (unit_of_call shard tid t entries)
                  (List.map (λ w, documentIdKey (lw_id w)) (uw_entries (staged (gc_ctx t))));
          g_lock := None;
          g_committer := match g_committer σ with COff => CDetach | c => c end;
          g_calls := jm_set (g_calls σ) tid (gc_with t (GStaged entries));
          g_history := g_history σ; g_promoted := g_promoted σ; g_promise := Datatypes.S (g_promise σ) |}.
Proof.
  intros Hi Ht Hp Hd Hloc. pose proof (staged_ready σ tid t entries Hi Ht Hp Hd Hloc) as Hready.
  pose proof (gi_call σ Hi _ _ Ht) as Hti. destruct (gt_staging _ _ _ _ _ _ Hti _ _ Hp) as (Hlk & Hv & _ & _ & Haf).
  set (u := unit_of_call shard tid t entries). match goal with |- ginv ?x => set (σ' := x) end.
  assert (Ec : landed_todo (g_committer σ') = landed_todo (g_committer σ) ∧
    rejected_units (g_committer σ') = rejected_units (g_committer σ) ∧
    flush_units (g_committer σ') = flush_units (g_committer σ)) by (by simpl; destruct (g_committer σ)).
  destruct Ec as (E1 & E2 & E3).
  assert (Eq : queue σ' = queue σ ++ [u]).
  { unfold queue. rewrite E3, <-(assoc_L (++)). f_equal. simpl. by destruct (pendingBatch (gw σ)). }
  assert (Ein : inflight σ' = inflight σ ++ [u]).
  { unfold inflight. by rewrite E1, E2, Eq, <-!(assoc_L (++)). }
  assert (Hne : ∀ u', u' ∈ inflight σ → su_call u' ≠ tid).
  { intros u' Hu'. eapply not_inflight; [done|exact Ht| |done]. by rewrite Hp. }
  assert (Hget : ∀ u', u' ∈ inflight σ → jm_get (g_calls σ') (su_call u') = jm_get (g_calls σ) (su_call u')).
  { intros u' Hu'. simpl. by rewrite jm_get_set, decide_False by (apply Hne; done). }
  assert (Hgetu : jm_get (g_calls σ') tid = Some (gc_with t (GStaged entries))) by (simpl; by rewrite jm_get_set, decide_True).
  split.
  - apply Hi.
  - apply jm_set_ok, Hi.
  - destruct (gi_active σ Hi) as [Ha1 Ha2]. split; [done|]. intros ts. simpl.
    rewrite count_at_set, Ht by apply Hi. change (gc_snap (gc_with t _)) with (gc_snap t).
    replace (_ - _ + _) with (gcount (g_calls σ) ts) by lia. apply Ha2.
  - intros tid' t'. simpl. rewrite jm_get_set. case_decide as Hd'.
    + intros [= <-]. destruct Hti. by split.
    + intros Ht'. destruct (gi_call σ Hi _ _ Ht') as [H1 H2 H3 H4]. split; try done.
      intros done todo Hp'. destruct (H4 done todo Hp') as [Hl _]. congruence.
  - rewrite E1. apply Hi.
  - rewrite E1. apply Hi.
  - intros u'. rewrite Ein. intros [Hu'| ->%list_elem_of_singleton]%elem_of_app.
    + rewrite Hget by done. by apply Hi.
    + exists (gc_with t (GStaged entries)). split; [exact Hgetu|]. by split_and!.
  - rewrite Ein, fmap_app. apply NoDup_app. split; [apply Hi|]. split; [|apply NoDup_singleton].
    intros x (u' & -> & Hu')%list_elem_of_fmap Hx. apply list_elem_of_singleton in Hx. by apply (Hne u').
  - intros u' ts t'. rewrite E1. intros Hu'. rewrite Hget by (by eapply todo_inflight). by apply Hi.
  - intros u' t'. rewrite Eq. intros [Hu'| ->%list_elem_of_singleton]%elem_of_app.
    + rewrite Hget by (by apply queue_inflight). by apply Hi.
    + change (su_call u) with tid. rewrite Hgetu. intros [= <-]. destruct Hready. by split.
  - rewrite Eq. apply pairs_app. split_and!; [|repeat constructor|].
    + eapply pairs_impl; [apply Hi|]. intros a b _ Hb H t'. rewrite Hget by (by apply queue_inflight). apply H.
    + intros a b Ha ->%list_elem_of_singleton t'. change (su_call u) with tid. rewrite Hgetu. intros [= <-].
      exact (Haf a Ha).
  - destruct (gi_batches σ Hi) as [Hbp Hbf]. split; [|exact Hbf]. simpl. intros b [= <-].
    apply batch_push_ok; [destruct (pendingBatch (gw σ)); [by apply Hbp|apply newBatch_ok]|].
    intros e He. simpl in He. apply list_elem_of_lookup in He as [i Hi'].
    destruct (Forall2_lookup_r _ _ _ _ _ (rd_ids _ _ _ Hready) Hi') as (w & Hw & -> & _).
    apply list_elem_of_In, in_map_iff. exists w. split; [done|]. apply list_elem_of_In. by eapply list_elem_of_lookup_2.
  - pose proof (gi_committer σ Hi) as Hc. unfold committer_ok in *. simpl. destruct (g_committer σ); naive_solver.
  - apply Hi.
  - apply Hi.
  - intros c tid' t' Hc. simpl. rewrite jm_get_set. case_decide as Hd'.
    + intros [= <-]. exact (gi_ring σ Hi c tid t Hc Ht).
    + exact (gi_ring σ Hi c tid' t' Hc).
  - apply Hi.
Qed.

(** ** The committer *)

Definition moved (σ : gsys) (g : GWriter S) (lk : option holder) (c : committer) : gsys :=
  {| gw := g; g_lock := lk; g_committer := c; g_calls := g_calls σ; g_history := g_history σ;
     g_promoted := g_promoted σ; g_promise := g_promise σ |}.

(** Moves of the committer that neither touch the store nor settle a unit. *)
Lemma ginv_moved σ g lk c : ginv σ → base g = base (gw σ) →
  queue (moved σ g lk c) = queue σ → landed_todo c = landed_todo (g_committer σ) →
  rejected_units c = rejected_units (g_committer σ) →
  (∀ tid, g_lock σ = Some (ByCall tid) → lk = Some (ByCall tid)) →
  (∀ b, pendingBatch g = Some b → batch_ok b) ∧ (∀ b, flushingBatch g = Some b → batch_ok b) →
  (∀ u, u ∈ batch_units (flushingBatch (gw σ)) → u ∈ batch_units (flushingBatch g)) →
  committer_ok (moved σ g lk c) → ginv (moved σ g lk c).
Proof.
  intros Hi Eb Eq Et Er Hlk Hb Hf Hco. set (σ' := moved σ g lk c) in *.
  assert (Ein : inflight σ' = inflight σ) by (unfold inflight; simpl; by rewrite Et, Er, Eq).
  assert (Es : g_store σ' = g_store σ) by (unfold g_store, g_base; simpl; by rewrite Eb).
  assert (El : g_clock σ' = g_clock σ) by (unfold g_clock, g_base; simpl; by rewrite Eb).
  assert (Ebb : g_base σ' = g_base σ) by done.
  destruct Hi as [I1 I2 I3 I4 I5 I6 I7 I8 I9 I10 I11 I12 I13 I14 I15 I16 I17].
  split; rewrite ?Es, ?El, ?Ein, ?Eq, ?Ebb; simpl; rewrite ?Et; try done.
  - intros tid t Ht. destruct (I4 tid t Ht) as [H1 H2 H3 H4]. split; try done.
    intros done todo Hp. destruct (H4 done todo Hp) as [H5 H6]. split; [by apply Hlk|done].
  - intros u ts t Hu Ht. destruct (I9 u ts t Hu Ht) as (H1 & H2 & H3). split_and!; auto.
Qed.

Lemma ginv_detach σ g ob : ginv σ → g_committer σ = CDetach → g_lock σ = None → detach (gw σ) = (g, ob) →
  ginv (moved σ g None (match ob with Some b => CFlush b | None => COff end)).
Proof.
  intros Hi Hc Hl Hd. destruct (gi_batches σ Hi) as [Hbp Hbf]. pose proof (gi_committer σ Hi) as Hco.
  unfold committer_ok in Hco. rewrite Hc in Hco. destruct Hco as (Hfl & _ & Hrun).
  unfold detach in Hd. destruct (pendingBatch (gw σ)) as [b|] eqn:Ep.
  - destruct (Nat.eqb_spec (length (b_units b)) 0) as [E0|E0]; injection Hd as <- <-.
    + apply nil_length_inv in E0. apply ginv_moved; simpl; rewrite ?Hc, ?Hl; try done; unfold queue, committer_ok; simpl;
        by rewrite ?Hc, ?Ep.
    + apply ginv_moved; simpl; rewrite ?Hc, ?Hl, ?Hfl; try done.
      * unfold queue. simpl. by rewrite Hc, Ep, app_nil_r.
      * intros u Hu. by apply elem_of_nil in Hu.
      * unfold committer_ok. simpl. split_and!; try done. intros E. by rewrite E in E0.
  - injection Hd as <- <-. apply ginv_moved; simpl; rewrite ?Hc, ?Hl; try done; unfold queue, committer_ok; simpl;
      by rewrite ?Hc, ?Ep.
Qed.

Lemma ginv_publish σ b o : ginv σ → g_committer σ = CLanded b o → g_lock σ = None →
  ginv (moved σ (gw σ) (Some ByCommitter) (CPublish b o (fo_landed o))).
Proof.
  intros Hi Hc Hl. pose proof (gi_committer σ Hi) as Hco. unfold committer_ok in Hco. rewrite Hc in Hco.
  apply ginv_moved; simpl; rewrite ?Hc, ?Hl; try done; [by unfold queue; rewrite Hc|apply Hi|].
  unfold committer_ok. simpl. naive_solver.
Qed.

(** ** The flush lands *)
Lemma rejections_units s units s' o : flushed s shard units s' o →
  (rejections o).*1 = (fo_guardRejected o).*1 ++ fo_chunkUnits o.
Proof.
  intros Hf. unfold rejections. rewrite fmap_app. f_equal. pose proof (fl_err _ _ _ _ _ Hf) as He.
  destruct (fo_chunkErr o) as [e|].
  - clear. induction (fo_chunkUnits o); csimpl; [done|]. by f_equal.
  - destruct (fo_chunkUnits o); [done|]. by destruct He.
Qed.

(** What the outcome of a flush means for the store, the landed units and everything behind them. *)
Record flush_facts (s s' : S) (l : list (nat * gcall)) (o : FlushOutcome) : Prop := {
  ff_ok : ms_ok s';
  ff_max : ms_max s' = ms_max s + Z.of_nat (length (fo_landed o));
  ff_ts : (fo_landed o).*2 = seqZ (ms_max s + 1) (Z.of_nat (length (fo_landed o)));
  ff_view : ∀ t, t ≤ ms_max s → same_view s s' t;
  ff_landed : ∀ u ts t, (u, ts) ∈ fo_landed o → jm_get l (su_call u) = Some t →
    landed s' (gc_ctx t) ts (su_documents u) ∧ agree s' (gc_snap t) (ts - 1) (validatedReads (gc_ctx t));
  ff_ready : ∀ (t : gcall) es, ready s t es → (∀ u, u ∈ (fo_landed o).*1 → after u t) → ready s' t es;
  ff_call : ∀ (t : gcall), ctx_ok (gc_ctx t) → gc_snap t ≤ ms_max s →
    agree s (gc_snap t) (ms_max s) (validatedReads (gc_ctx t)) → (∀ u, u ∈ (fo_landed o).*1 → after u t) →
    agree s' (gc_snap t) (ms_max s') (validatedReads (gc_ctx t)) ∧
    ∀ w, w ∈ uw_entries (staged (gc_ctx t)) → ms_get s' (lw_id w) None = ms_get s (lw_id w) None }.

Lemma flush_facts_intro s s' l units o : ms_ok s → flushed s shard units s' o →
  (∀ u, u ∈ units → ∃ t, jm_get l (su_call u) = Some t ∧ matched u t ∧ ready s t (su_documents u)) →
  ForallOrdPairs (in_order l) units → flush_facts s s' l o.
Proof.
  intros Hs Hf Hu Hord. destruct (fo_landed o) as [|x lo] eqn:El.
  - pose proof (fl_nothing _ _ _ _ _ Hf El) as ->. split; rewrite ?El; try done; simpl; try lia.
    intros u ts t Hin. by apply elem_of_nil in Hin.
  - destruct (fl_landed _ _ _ _ _ Hf ltac:(by rewrite El)) as (tss & Hlen & Hc & Etss & _).
    destruct (fl_order _ _ _ _ _ Hf) as [Hsub _]. set (us := (fo_landed o).*1) in *.
    assert (Hlu : length us = length (fo_landed o)) by (unfold us; by rewrite length_fmap).
    assert (Hus : ∀ u, u ∈ us → ∃ t, jm_get l (su_call u) = Some t ∧ matched u t ∧ ready s t (su_documents u)).
    { intros u Hin. apply Hu. by eapply elem_of_sublist. }
    assert (Ho : ForallOrdPairs (in_order l) us) by (by eapply pairs_sublist).
    destruct (batch_max shard s s' l us tss Hs Hc Hus) as (Hs' & Ht & Hm). rewrite Hlu in Ht, Hm.
    pose proof (batch_view shard s s' l us tss Hs Hc Hus) as Hv. split; try done.
    + by rewrite Etss.
    + intros u ts t Hin Hg. apply list_elem_of_lookup in Hin as [i Hi].
      assert (Hiu : us !! i = Some u) by (unfold us; by rewrite list_lookup_fmap, Hi).
      assert (Hits : tss !! i = Some ts) by (rewrite <-Etss, list_lookup_fmap, Hi; done).
      rewrite Ht in Hits. apply lookup_seqZ in Hits as [-> Hlt].
      destruct (Hus u ltac:(by eapply list_elem_of_lookup_2)) as (t' & Hg' & Hma & Hr). rewrite Hg in Hg'. injection Hg' as <-.
      split; [exact (batch_landed shard s s' l us tss Hs Hc Hus Ho i u t Hiu Hg Hma Hr)|].
      replace (ms_max s + 1 + Z.of_nat i - 1) with (ms_max s + Z.of_nat i) by lia.
      apply (batch_agree_call shard s s' l us tss Hs Hc Hus Ho); try apply Hr; [apply lookup_lt_Some in Hiu; lia|].
      intros j u' Hj Hu'. exact (pairs_lookup _ us j i u' u Ho Hj Hu' Hiu t Hg).
    + intros t es Hr Haf. by apply (batch_ready shard s s' l us tss Hs Hc Hus Ho).
    + intros t Hctx Hsn Hag Haf. split; [|intros w Hw; by apply (batch_get_after shard s s' l us tss Hs Hc Hus t)].
      rewrite Hm, <-Hlu. apply (batch_agree_call shard s s' l us tss Hs Hc Hus Ho); try done. intros j u _ Hj. apply Haf. by eapply list_elem_of_lookup_2.
Qed.

Lemma ginv_flush σ b s' o : ginv σ → g_committer σ = CFlush b → flushWithSplit (g_store σ) shard (b_units b) = (s', o) →
  ginv (moved σ (with_base (gw σ) (with_store (g_base σ) s')) (g_lock σ) (CLanded b o)).
Proof.
  intros Hi Hc Hfl. pose proof (gi_committer σ Hi) as Hco. unfold committer_ok in Hco. rewrite Hc in Hco.
  destruct Hco as (Hfb & Hlk & Hrun & Hne).
  assert (Eq : queue σ = b_units b ++ batch_units (pendingBatch (gw σ))) by (unfold queue; by rewrite Hc).
  assert (Ein : inflight σ = b_units b ++ batch_units (pendingBatch (gw σ))) by (unfold inflight; by rewrite Hc, Eq).
  assert (Hu : ∀ u, u ∈ b_units b → ∃ t, jm_get (g_calls σ) (su_call u) = Some t ∧ matched u t ∧ ready (g_store σ) t (su_documents u)).
  { intros u Hub. assert (u ∈ queue σ) by (rewrite Eq, elem_of_app; auto).
    destruct (gi_inflight σ Hi u) as (t & Ht & Hm); [by apply queue_inflight|]. exists t. split_and!; try done.
    by apply (gi_queue σ Hi). }
  pose proof (gi_order σ Hi) as Hord. rewrite Eq in Hord. apply pairs_app in Hord as (Ho1 & Ho2 & Ho3).
  assert (Hok : Forall (λ u, unit_okb (commit_unit_of u) = true) (b_units b)).
  { apply Forall_forall. intros u Hub. destruct (Hu u Hub) as (t & _ & Hm & Hr). rewrite (unit_match_commit _ u t Hm). apply Hr. }
  pose proof (flushWithSplit_spec _ _ _ _ _ (gi_ok σ Hi) Hok Hne Hfl) as Hf.
  destruct (flush_facts_intro _ _ (g_calls σ) _ _ (gi_ok σ Hi) Hf Hu Ho1) as [F1 F2 F3 F4 F5 F6 F7].
  pose proof (rejections_units _ _ _ _ Hf) as Er. destruct (fl_order _ _ _ _ _ Hf) as [Hsub _].
  assert (Hmax : ms_max (g_store σ) = g_clock σ) by (pose proof (gi_max σ Hi) as E; rewrite Hc in E; simpl in E; lia).
  rewrite Hmax in F2, F3, F4. set (σ' := moved _ _ _ _).
  assert (Ein' : inflight σ' ≡ₚ inflight σ).
  { rewrite Ein. unfold inflight, queue. simpl. rewrite Er, !(assoc_L (++)). apply Permutation_app_tail.
    rewrite <-(assoc_L (++)). symmetry. apply Hf. }
  assert (Hsubq : ∀ u, u ∈ (fo_landed o).*1 → u ∈ b_units b) by (intros u Hin; by eapply elem_of_sublist).
  split; try done.
  - apply Hi.
  - apply Hi.
  - intros tid t Ht. destruct (gi_call σ Hi tid t Ht) as [H1 H2 H3 H4]. split; try done.
    + destruct (F4 (gc_snap t) ltac:(lia)) as [G Sc]. unfold exec. by eapply exec_ext.
    + intros done todo Hp. destruct (H4 done todo Hp) as (L1 & L2 & L3 & (ws & L4 & L5) & L6).
      destruct (F7 t) as [A1 A2]; [by eapply gcall_ctx_ok, Hi|lia|done|intros u Hin; apply L6; rewrite Eq, elem_of_app; auto|].
      split_and!; try done.
      * exists ws. split; [done|]. eapply Forall2_impl_elem; [exact L5|]. intros w e Hw _ (p & Hp' & ->). exists p.
        split; [|done]. change (g_store σ') with s'. rewrite A2; [done|]. rewrite L4, elem_of_app. auto.
      * intros u Hin. apply L6. rewrite Eq, elem_of_app. auto.
  - intros u Hin. rewrite Ein' in Hin. by apply Hi.
  - rewrite Ein'. apply Hi.
  - intros u ts t Hin Ht. destruct (F5 u ts t Hin Ht). split_and!; try done. simpl. rewrite Hfb. apply Hsubq.
    apply list_elem_of_fmap. by exists (u, ts).
  - intros u t Hin Ht. apply F6; [apply (gi_queue σ Hi); [rewrite Eq, elem_of_app; auto|done]|].
    intros u' Hin'. eapply Ho3; [by apply Hsubq|exact Hin|done].
  - apply Hi.
  - apply Hi.
  - intros c Hin. pose proof (g_history_ts σ c Hi Hin). eapply landed_stable; [apply F4; lia|apply F4; lia|by apply Hi].
  - apply Hi.
  - intros c Hin. pose proof (g_history_ts σ c Hi Hin). destruct (gi_serial σ Hi c Hin) as [Hs He]. split; [done|].
    destruct (F4 (c_ts c - 1) ltac:(lia)) as [G Sc]. eapply exec_ext; [exact G|exact Sc| |exact He]. apply F4. lia.
Qed.

(** ** Publishing *)

Lemma publish_clock (o : Oracle) ts : ts = getLastCommittedTimestamp o + 1 →
  getLastCommittedTimestamp (publishCommitted o ts) = ts.
Proof.
  intros ->. unfold publishCommitted, getLastCommittedTimestamp. by rewrite (proj2 (Z.ltb_lt _ _)) by lia.
Qed.

Lemma seqZ_snoc a n : 0 ≤ n → seqZ a (n + 1) = seqZ a n ++ [a + n].
Proof. intros Hn. by rewrite seqZ_app by lia. Qed.

(** The calls after a unit was settled: the others are as they were, the settled one keeps all but its
    phase and is not staging. *)
Record settled (l l' : list (nat * gcall)) (tid : nat) : Prop := {
  se_keys : jm_ok l';
  se_count : ∀ ts, gcount l' ts = gcount l ts;
  se_other : ∀ tid', tid' ≠ tid → jm_get l' tid' = jm_get l tid';
  se_same : ∀ t', jm_get l' tid = Some t' → ∃ t, jm_get l tid = Some t ∧ (∀ done todo, gc_phase t' ≠ GStaging done todo) ∧
    gc_fun t' = gc_fun t ∧ gc_ctx t' = gc_ctx t ∧ gc_rest t' = gc_rest t ∧ gc_attempt t' = gc_attempt t }.

Lemma settled_set l tid (t : gcall) p : jm_ok l → jm_get l tid = Some t → (∀ done todo, p ≠ GStaging done todo) →
  settled l (jm_set l tid (gc_with t p)) tid.
Proof.
  intros Hl Ht Hp. split.
  - by apply jm_set_ok.
  - intros ts. rewrite count_at_set, Ht by done. change (gc_snap (gc_with t p)) with (gc_snap t). lia.
  - intros tid' Hne. by rewrite jm_get_set, decide_False.
  - intros t'. rewrite jm_get_set, decide_True by done. intros [= <-]. exists t. split_and!; done.
Qed.

Lemma settled_refl l tid (t : gcall) : jm_ok l → jm_get l tid = Some t → (∀ done todo, gc_phase t ≠ GStaging done todo) →
  settled l l tid.
Proof. intros Hl Ht Hp. split; try done. intros t' Ht'. exists t'. replace t' with t by congruence. done. Qed.

(** Per-call facts carry over when no call is staging. *)
Lemma settled_call l l' tid s lc lk q lc' lk' q' : settled l l' tid → lc ≤ lc' →
  (∀ tid' t, jm_get l tid' = Some t → gcall_inv s lc lk q tid' t) → (∀ tid', lk ≠ Some (ByCall tid')) →
  ∀ tid' t', jm_get l' tid' = Some t' → gcall_inv s lc' lk' q' tid' t'.
Proof.
  intros Hse Hlc H Hlk tid' t' Ht'. destruct (decide (tid' = tid)) as [->|Hne].
  - destruct (se_same _ _ _ Hse t' Ht') as (t & Ht & Hp & E1 & E2 & E3 & E4). destruct (H _ _ Ht) as [H1 H2 H3 _].
    unfold gc_snap in *. rewrite <-E1, <-E2, <-E3, <-?E4 in *. split; unfold gc_snap; try done; try lia.
    intros done todo E. by destruct (Hp done todo).
  - rewrite (se_other _ _ _ Hse) in Ht' by done. destruct (H _ _ Ht') as [H1 H2 H3 H4]. split; try done; try lia.
    intros done todo E. destruct (H4 done todo E) as [E' _]. by destruct (Hlk tid').
Qed.

Lemma settled_snap l l' tid tid' t' : settled l l' tid → jm_get l' tid' = Some t' →
  ∃ t, jm_get l tid' = Some t ∧ gc_snap t = gc_snap t'.
Proof.
  intros Hse Ht'. destruct (decide (tid' = tid)) as [->|Hne].
  - destruct (se_same _ _ _ Hse t' Ht') as (t & Ht & _ & _ & E & _). exists t. unfold gc_snap. by rewrite E.
  - rewrite (se_other _ _ _ Hse) in Ht' by done. eauto.
Qed.

Lemma ginv_publish_one σ b o u ts todo t v c' lk l' : ginv σ → g_committer σ = CPublish b o ((u, ts) :: todo) →
  jm_get (g_calls σ) (su_call u) = Some t → gc_rest t = FRet v → settled (g_calls σ) l' (su_call u) →
  (c' = CPublish b o todo ∧ lk = g_lock σ) ∨ (c' = CDead b o todo ∧ lk = None) →
  ginv {| gw := publish_unit (gw σ) u ts; g_lock := lk; g_committer := c'; g_calls := l';
          g_history := g_history σ ++ [committed_of t v u ts];
          g_promoted := g_promoted σ; g_promise := g_promise σ |}.
Proof.
  intros Hi Hc Ht Hr Hse Hc'. match goal with |- ginv ?x => set (σ' := x) end.
  pose proof (gi_committer σ Hi) as Hco. unfold committer_ok in Hco. rewrite Hc in Hco. destruct Hco as (Hfb & Hlk & Hrun).
  assert (Et : landed_todo c' = todo ∧ rejected_units c' = (rejections o).*1 ∧ flush_units c' = [])
    by (destruct Hc' as [[-> _]|[-> _]]; done). destruct Et as (Et & Er & Ef).
  pose proof (gi_todo_ts σ Hi) as Hts. pose proof (gi_max σ Hi) as Hmax. rewrite Hc in Hts, Hmax. simpl in Hts, Hmax.
  rewrite seqZ_cons in Hts by lia. injection Hts as Ets Hts.
  assert (Eq : queue σ' = queue σ) by (unfold queue; simpl; by rewrite Ef, Hc).
  assert (Ein : inflight σ = u :: inflight σ') by (unfold inflight; rewrite Eq; simpl; by rewrite Et, Er, Hc).
  pose proof (gi_nodup σ Hi) as Hnd. rewrite Ein in Hnd. csimpl in Hnd. apply NoDup_cons in Hnd as [Hnu Hnd].
  assert (Hget : ∀ u', u' ∈ inflight σ' → jm_get l' (su_call u') = jm_get (g_calls σ) (su_call u')).
  { intros u' Hu'. apply (se_other _ _ _ Hse). intros E. apply Hnu. rewrite <-E. by apply list_elem_of_fmap_2. }
  assert (Hsub : ∀ u', u' ∈ inflight σ' → u' ∈ inflight σ) by (intros u' Hu'; rewrite Ein; apply elem_of_cons; auto).
  assert (Hck : g_clock σ' = ts) by (unfold g_clock, σ'; simpl; by apply publish_clock).
  destruct (gi_inflight σ Hi u) as (t0 & Ht0 & Hm); [rewrite Ein; apply elem_of_cons; auto|].
  rewrite Ht in Ht0. injection Ht0 as <-. destruct (gi_todo σ Hi u ts t) as (Hl & Hag & _);
    [rewrite Hc; apply elem_of_cons; auto|done|]. destruct (gi_times σ Hi) as [Ht1 Ht2].
  split; try (rewrite Hck); simpl; rewrite ?Et; try done.
  - apply Hi.
  - apply Hse.
  - destruct (gi_active σ Hi) as [Ha1 Ha2]. split; [done|]. intros ts'. rewrite (se_count _ _ _ Hse). apply Ha2.
  - eapply (settled_call (g_calls σ) l' (su_call u)); [done| |apply Hi|by rewrite Hlk]. lia.
  - change (ms_max (g_store σ) = ts + Z.of_nat (length todo)). lia.
  - etrans; [exact Hts|]. rewrite Ets. f_equal; lia.
  - intros u' Hu'. rewrite Hget by done. apply Hi. by apply Hsub.
  - intros u' ts' t' Hu'. rewrite Hget.
    2: { eapply todo_inflight. simpl. rewrite Et. exact Hu'. }
    apply Hi. rewrite Hc. apply elem_of_cons. by right.
  - intros u' t' Hu'. rewrite Hget by (by apply queue_inflight). rewrite Eq in Hu'. by apply Hi.
  - rewrite Eq. eapply pairs_impl; [apply Hi|]. intros a b' _ Hb H t'.
    rewrite Hget by (apply queue_inflight; by rewrite Eq). apply H.
  - apply Hi.
  - unfold committer_ok. simpl. destruct Hc' as [[-> ->]|[-> ->]]; done.
  - split; [lia|]. rewrite fmap_app, Ht2. csimpl. rewrite Ets.
    replace (g_clock σ + 1 - ms_max s0) with (g_clock σ - ms_max s0 + 1) by lia. rewrite seqZ_snoc by lia. do 2 f_equal. lia.
  - intros c [Hin| ->%list_elem_of_singleton]%elem_of_app; [by apply Hi|done].
  - intros c tid' t' Hin Ht' Hlt. destruct (settled_snap _ _ _ _ _ Hse Ht') as (t2 & Ht2' & E2). rewrite <-E2 in Hlt.
    apply elem_of_app. apply elem_of_app in Hin as [Hin| ->%list_elem_of_singleton].
    + left. exact (gi_ring σ Hi c tid' t2 Hin Ht2' Hlt).
    + right. apply list_elem_of_singleton. destruct Hm as (_ & Eu & _). unfold ring_entry. simpl. by rewrite Eu.
  - intros c [Hin| ->%list_elem_of_singleton]%elem_of_app; [by apply Hi|]. simpl.
    pose proof (gi_call σ Hi _ _ Ht) as Hti. pose proof (gt_run _ _ _ _ _ _ Hti) as Hrun'. rewrite Hr in Hrun'.
    split; [pose proof (gt_snap _ _ _ _ _ _ Hti); unfold gc_snap in *; lia|].
    exact (exec_replay _ _ _ _ _ _ (ts - 1) Hrun' (new_Ctx_ok _ _ _) Hag).
Qed.

(** ** Rejecting, pruning and the end of a round *)
Lemma reject_all_spec us (l : list (nat * gcall)) : jm_ok l →
  jm_ok (reject_all l us) ∧ (∀ ts, gcount (reject_all l us) ts = gcount l ts) ∧
  (∀ tid, tid ∉ su_call <$> us.*1 → jm_get (reject_all l us) tid = jm_get l tid) ∧
  (∀ tid t', jm_get (reject_all l us) tid = Some t' →
     ∃ t, jm_get l tid = Some t ∧ (t' = t ∨ ∃ e, t' = gc_with t (GRejected e))).
Proof.
  revert l. induction us as [|[u e] us IH]; intros l Hl; unfold reject_all; simpl.
  { split_and!; try done. eauto. }
  fold (reject_all (match jm_get l (su_call u) with Some t => jm_set l (su_call u) (gc_with t (GRejected e)) | None => l end) us).
  destruct (jm_get l (su_call u)) as [t|] eqn:Ht.
  - destruct (IH (jm_set l (su_call u) (gc_with t (GRejected e)))) as (H1 & H2 & H3 & H4); [by apply jm_set_ok|].
    split_and!; [done|..].
    + intros ts. rewrite H2, count_at_set, Ht by done. change (gc_snap (gc_with t _)) with (gc_snap t). lia.
    + intros tid Hn. apply not_elem_of_cons in Hn as [Hn1 Hn2]. rewrite H3 by done. by rewrite jm_get_set, decide_False.
    + intros tid t' Ht'. destruct (H4 tid t' Ht') as (t1 & Ht1 & Hor). rewrite jm_get_set in Ht1. case_decide as Hd.
      * injection Ht1 as <-. subst tid. exists t. split; [done|]. right. destruct Hor as [->|[e' ->]]; eauto.
      * eauto.
  - destruct (IH l Hl) as (H1 & H2 & H3 & H4). split_and!; try done.
    intros tid Hn. apply not_elem_of_cons in Hn as [_ Hn]. by apply H3.
Qed.

Lemma ginv_end σ b o : ginv σ → g_committer σ = CPublish b o [] →
  ginv {| gw := publish_end (gw σ) (Nat.ltb 0 (length (fo_landed o))); g_lock := None; g_committer := CDetach;
          g_calls := reject_all (g_calls σ) (rejections o); g_history := g_history σ;
          g_promoted := g_promoted σ ++ [b_promoted b]; g_promise := g_promise σ |}.
Proof.
  intros Hi Hc. match goal with |- ginv ?x => set (σ' := x) end.
  pose proof (gi_committer σ Hi) as Hco. unfold committer_ok in Hco. rewrite Hc in Hco. destruct Hco as (Hfb & Hlk & Hrun).
  destruct (reject_all_spec (rejections o) (g_calls σ) (gi_keys σ Hi)) as (R1 & R2 & R3 & R4).
  assert (Eq : queue σ' = queue σ) by (unfold queue; by rewrite Hc).
  assert (Ein' : inflight σ' = queue σ) by (unfold inflight; by rewrite Eq).
  assert (Ein : inflight σ = (rejections o).*1 ++ queue σ) by (unfold inflight; by rewrite Hc).
  pose proof (gi_nodup σ Hi) as Hnd. rewrite Ein, fmap_app in Hnd. apply NoDup_app in Hnd as (_ & Hdis & Hnd).
  assert (Hget : ∀ u, u ∈ queue σ → jm_get (g_calls σ') (su_call u) = jm_get (g_calls σ) (su_call u)).
  { intros u Hu. apply R3. intros Hin. apply (Hdis _ Hin). by apply list_elem_of_fmap_2. }
  assert (Ew : docStore (g_base σ') = docStore (g_base σ) ∧ oracle (g_base σ') = oracle (g_base σ) ∧
    activeSnapshots (g_base σ') = activeSnapshots (g_base σ)) by (unfold g_base; simpl; by destruct (Nat.ltb _ _)).
  destruct Ew as (Es & Eo & Ea). assert (Ec : g_clock σ' = g_clock σ) by (unfold g_clock; by rewrite Eo).
  assert (Hmax : ms_max (g_store σ) = g_clock σ) by (pose proof (gi_max σ Hi) as E; rewrite Hc in E; simpl in E; lia).
  unfold g_store in *. split; unfold g_store; rewrite ?Es, ?Ec, ?Ea, ?Ein', ?Eq; simpl; try done.
  - apply Hi.
  - destruct (gi_active σ Hi) as [Ha1 Ha2]. split; [done|]. intros ts'. rewrite R2. apply Ha2.
  - intros tid t' Ht'. destruct (R4 tid t' Ht') as (t & Ht & Hor). pose proof (gi_call σ Hi _ _ Ht) as [H1 H2 H3 H4].
    destruct Hor as [->|[e ->]]; split; try done. intros done todo Hp. destruct (H4 done todo Hp) as [E _]. congruence.
  - lia.
  - intros u Hu. rewrite Hget by done. by apply Hi, queue_inflight.
  - intros u ts t Hu. by apply elem_of_nil in Hu.
  - intros u t Hu. rewrite Hget by done. by apply Hi.
  - eapply pairs_impl; [apply Hi|]. intros a b' _ Hb H t'. rewrite Hget by done. apply H.
  - split; [apply Hi|done].
  - apply Hi.
  - apply Hi.
  - intros c tid t' Hin Ht' Hlt. destruct (R4 tid t' Ht') as (t & Ht & Hor).
    assert (Esn : gc_snap t' = gc_snap t) by (by destruct Hor as [->|[e ->]]). rewrite Esn in Hlt.
    pose proof (gi_ring σ Hi c tid t Hin Ht Hlt) as Hring. unfold g_base. simpl. destruct (Nat.ltb _ _); [|done].
    simpl. eapply prune_keeps; [|exact Hlt|exact Hring]. eapply (count_at_key gc_snap); [apply Hi|exact Ht].
  - apply Hi.
Qed.

(** ** Every step keeps the invariant *)
Lemma gstep_inv σ σ' : gstep shard hlimits maxRetries σ σ' → stages_disciplined σ σ' → ginv σ → ginv σ'.
Proof.
  intros Hst Hdi Hi. destruct Hst as [σ tid f m origin Hn t|σ tid t c f Ht Hp Hop|σ tid t Ht Hor|σ tid t Ht Hf Ha t'
    |σ tid t e Ht Hf Ha|σ tid t v w Ht Hp Hl Hr Hs Hck|σ tid t v p Ht Hp Hl Hr Hs Hck|σ tid t p Ht Hp Hpr
    |σ tid t v Ht Hp Hl Hr Hs Hck|σ tid t done w todo prev Ht Hp Hg|σ tid t done w todo e Ht Hp Hg
    |σ tid t es Ht Hp|σ g' ob Hc Hl Hd|σ b s' o Hc Hfl|σ b o Hc Hl|σ b o u ts todo t v oplog Hc Ht Hr Hb
    |σ b o u ts todo t v e Hc Ht Hr Hb|σ b o Hc].
  - apply ginv_set; try done; [|congruence|by apply ginv_begin_call; [|lia]|by left].
    eapply active_retain; [apply Hi|]. intros ts. rewrite count_at_set, Hn by apply Hi. lia.
  - pose proof (op_step_snapshot _ _ _ _ _ _ Hop) as Hsn.
    eapply ginv_advance; try done; [congruence|]. destruct (gi_call σ Hi _ _ Ht) as [H1 H2 H3 H4].
    split; unfold gc_snap in *; simpl in *; rewrite ?Hsn; try done; try lia. by eapply exec_snoc.
  - apply ginv_remove; [done..|]. intros es E. destruct Hor as [(E' & _)|[r E']]; congruence.
  - apply ginv_set; try done.
    + eapply active_retain.
      * eapply (active_release _ _ (λ ts, gcount (g_calls σ) ts - indicator (gc_snap t) ts));
          [apply Hi|by eapply count_at_pos|done].
      * intros ts. rewrite count_at_set, Ht by apply Hi. done.
    + intros t0 es Ht0. replace t0 with t by congruence. destruct Hf; congruence.
    + by apply ginv_begin_call; [|lia].
    + by left.
  - apply ginv_remove; [done..|]. intros es. destruct Hf; congruence.
  - eapply ginv_advance; try done; [congruence|]. destruct (gi_call σ Hi _ _ Ht). by split.
  - eapply ginv_advance; try done; [congruence|]. destruct (gi_call σ Hi _ _ Ht). by split.
  - eapply ginv_advance; try done; [congruence|]. destruct (gi_call σ Hi _ _ Ht). by split.
  - destruct (stage_check_ok σ tid t Hi Ht Hck) as [Hag Haf].
    eapply ginv_advance; try done; [congruence| |by rewrite Hl|by rewrite Hl].
    destruct (gi_call σ Hi _ _ Ht) as [H1 H2 H3 H4]. split; try done. simpl. intros done todo [= <- <-].
    split_and!; try done; [by eexists|]. exists []. by split; [|constructor].
  - destruct (gi_call σ Hi _ _ Ht) as [H1 H2 H3 H4]. destruct (H4 _ _ Hp) as (L1 & L2 & L3 & (ws & L4 & L5) & L6).
    eapply ginv_advance; try done; [congruence|]. split; try done. simpl. intros done' todo' [= <- <-].
    split_and!; try done. exists (ws ++ [w]). split; [by rewrite L4, <-(assoc_L (++))|].
    apply Forall2_app; [done|]. constructor; [|constructor]. by exists prev.
  - destruct (gi_call σ Hi _ _ Ht) as [H1 H2 H3 H4]. destruct (H4 _ _ Hp) as (L1 & _).
    eapply ginv_advance; try done; [congruence|by rewrite L1|rewrite L1; intros; congruence].
  - destruct (Hdi tid t es Ht Hp) as [Hd Hloc]; [simpl; by rewrite jm_get_set, decide_True|]. by apply ginv_append.
  - by apply ginv_detach.
  - by apply ginv_flush.
  - by apply ginv_publish.
  - eapply ginv_publish_one; try done; [|by left]. apply settled_set; [apply Hi|done..].
  - eapply ginv_publish_one; try done; [|by right]. eapply settled_refl; [apply Hi|exact Ht|]. intros done todo' E.
    destruct (gi_inflight σ Hi u) as (t0 & Ht0 & Hm & _); [|congruence].
    eapply todo_inflight. rewrite Hc. apply elem_of_cons. by left.
  - by apply ginv_end.
Qed.

Lemma g_initial_inv : ms_ok s0 → ginv (g_initial s0).
Proof.
  intros Hs. split; unfold inflight, queue; simpl; try done; unfold g_clock; simpl; try lia; try apply NoDup_nil_2;
    try (intros; exfalso; by eapply not_elem_of_nil).
  - split; [apply NoDup_nil_2|]. intros ts. done.
  - change (ms_max s0 = ms_max s0 + 0). lia.
  - constructor.
  - split; [lia|]. by rewrite Z.sub_diag.
Qed.

Lemma g_reachable_inv σ : ms_ok s0 → g_disciplined_run shard hlimits maxRetries s0 σ → ginv σ.
Proof. intros Hs. induction 1; [by apply g_initial_inv|by eapply gstep_inv]. Qed.
End ginvariant.

(** ** Every staged call is in flight *)
Section accounting.
Context {S : Type} `{!MvccStore S} `{!MvccStoreLaws S} {V : Type}.
Context (shard : jsstr) (hlimits : HeadroomLimits) (maxRetries : nat) (s0 : S).
Abbreviation gsys := (gsys S V).
Abbreviation ginv := (@ginv S _ V shard hlimits maxRetries s0).

Definition alive (c : committer) : Prop := ∀ b o todo, c ≠ CDead b o todo.

Definition accounted (σ : gsys) : Prop :=
  alive (g_committer σ) → ∀ tid t es, jm_get (g_calls σ) tid = Some t → gc_phase t = GStaged es →
  ∃ u, u ∈ inflight σ ∧ su_call u = tid.

(** A step that keeps what is in flight and makes no call wait. *)
Lemma accounted_mono (σ σ' : gsys) : accounted σ → (alive (g_committer σ') → alive (g_committer σ)) →
  (∀ u, u ∈ inflight σ → u ∈ inflight σ' ∨
     (∀ t es, jm_get (g_calls σ') (su_call u) = Some t → gc_phase t ≠ GStaged es)) →
  (∀ tid t es, jm_get (g_calls σ') tid = Some t → gc_phase t = GStaged es →
     (∃ t0 es0, jm_get (g_calls σ) tid = Some t0 ∧ gc_phase t0 = GStaged es0) ∨ ∃ u, u ∈ inflight σ' ∧ su_call u = tid) →
  accounted σ'.
Proof.
  intros Ha Hal Hin Hold Hd tid t es Ht Hp. destruct (Hold tid t es Ht Hp) as [(t0 & es0 & Ht0 & Hp0)|Hu]; [|done].
  destruct (Ha (Hal Hd) tid t0 es0 Ht0 Hp0) as (u & Hu & <-). destruct (Hin u Hu) as [Hu'|Hn]; [eauto|]. by destruct (Hn t es).
Qed.

(** Setting or removing one call that does not end up waiting. *)
Lemma accounted_set (σ : gsys) g lk tid t : accounted σ → ginv σ →
  (∀ t0 es, jm_get (g_calls σ) tid = Some t0 → gc_phase t0 ≠ GStaged es) → (∀ es, gc_phase t ≠ GStaged es) →
  pendingBatch g = pendingBatch (gw σ) → accounted (with_calls σ g lk (jm_set (g_calls σ) tid t)).
Proof.
  intros Ha Hi Hold Hp Eg. apply (accounted_mono σ); try done.
  - intros u Hu. left. unfold inflight, queue in *. simpl. by rewrite Eg.
  - simpl. intros tid' t' es. rewrite jm_get_set. case_decide; [intros [= <-] E; by destruct (Hp es)|]. eauto.
Qed.

Lemma accounted_delete (σ : gsys) g lk tid : accounted σ → ginv σ →
  pendingBatch g = pendingBatch (gw σ) → accounted (with_calls σ g lk (jm_delete (g_calls σ) tid)).
Proof.
  intros Ha Hi Eg. apply (accounted_mono σ); try done.
  - intros u Hu. left. unfold inflight, queue in *. simpl. by rewrite Eg.
  - simpl. intros tid' t' es. rewrite jm_get_delete by apply Hi. case_decide; [done|]. eauto.
Qed.

Lemma accounted_moved (σ : gsys) g lk c : accounted σ → (alive c → alive (g_committer σ)) →
  (∀ u, u ∈ inflight σ → u ∈ inflight (moved σ g lk c)) → accounted (moved σ g lk c).
Proof. intros Ha Hal Hin. apply (accounted_mono σ); try done; [intros u Hu; left; auto|]. simpl. eauto. Qed.

Lemma reject_all_rejects us (l : list (nat * gcall V)) u t es : NoDup (su_call <$> us.*1) → jm_ok l →
  u ∈ us.*1 → jm_get (reject_all l us) (su_call u) = Some t → gc_phase t ≠ GStaged es.
Proof.
  revert l. induction us as [|[u0 e] us IH]; intros l Hnd Hl Hu; [by apply elem_of_nil in Hu|].
  apply NoDup_cons in Hnd as [Hn Hnd]. unfold reject_all. simpl.
  set (l1 := match jm_get l (su_call u0) with Some t => jm_set l (su_call u0) (gc_with t (GRejected e)) | None => l end).
  fold (reject_all l1 us). assert (Hl1 : jm_ok l1) by (unfold l1; destruct (jm_get l _); [by apply jm_set_ok|done]).
  apply elem_of_cons in Hu as [->|Hu]; [|by apply IH].
  destruct (reject_all_spec us l1 Hl1) as (_ & _ & H3 & _). simpl. rewrite H3 by done.
  unfold l1. destruct (jm_get l (su_call u0)) as [t0|] eqn:E; [|by rewrite E].
  rewrite jm_get_set, decide_True by done. by intros [= <-].
Qed.

Lemma gstep_accounted σ σ' : gstep shard hlimits maxRetries σ σ' → ginv σ → accounted σ → accounted σ'.
Proof.
  intros Hst Hi Ha. destruct Hst as [σ tid f m origin Hn t|σ tid t c f Ht Hp Hop|σ tid t Ht Hor|σ tid t Ht Hf Hat t'
    |σ tid t e Ht Hf Hat|σ tid t v w Ht Hp Hl Hr Hs Hck|σ tid t v p Ht Hp Hl Hr Hs Hck|σ tid t p Ht Hp Hpr
    |σ tid t v Ht Hp Hl Hr Hs Hck|σ tid t done w todo prev Ht Hp Hg|σ tid t done w todo e Ht Hp Hg
    |σ tid t es Ht Hp|σ g' ob Hc Hl Hd|σ b s' o Hc Hfl|σ b o Hc Hl|σ b o u ts todo t v oplog Hc Ht Hr Hb
    |σ b o u ts todo t v e Hc Ht Hr Hb|σ b o Hc].
  - apply accounted_set; try done. congruence.
  - apply accounted_set; try done. congruence.
  - by apply accounted_delete.
  - apply accounted_set; try done. intros t0 es Ht0. replace t0 with t by congruence. destruct Hf; congruence.
  - by apply accounted_delete.
  - apply accounted_set; try done. congruence.
  - apply accounted_set; try done. congruence.
  - apply accounted_set; try done. congruence.
  - apply accounted_set; try done. congruence.
  - apply accounted_set; try done. congruence.
  - apply accounted_set; try done. congruence.
  - apply (accounted_mono σ); [done|by simpl; destruct (g_committer σ)|..].
    + intros u Hu. left. unfold inflight, queue in *. simpl. rewrite !elem_of_app in *.
      destruct (g_committer σ), (pendingBatch (gw σ)); simpl in *; rewrite ?elem_of_app; tauto.
    + simpl. intros tid' t' es'. rewrite jm_get_set. case_decide as Hd'; [|eauto]. intros [= <-] _. right. subst tid'.
      exists (unit_of_call shard tid t es). split; [|done]. unfold inflight, queue. simpl. rewrite !elem_of_app. do 3 right.
      destruct (pendingBatch (gw σ)); simpl; rewrite ?elem_of_app, list_elem_of_singleton; auto.
  - apply accounted_moved; [done|by rewrite Hc|]. intros u Hu. unfold inflight, queue in *. rewrite Hc in Hu. simpl in Hu.
    unfold detach in Hd. destruct (pendingBatch (gw σ)) as [b|] eqn:Ep; [destruct (Nat.eqb _ 0)|]; injection Hd as <- <-;
      simpl; rewrite ?Ep, ?app_nil_r; done.
  - apply accounted_moved; [done|by rewrite Hc|]. intros u Hu. unfold inflight, queue in *. rewrite Hc in Hu. simpl in *.
    apply elem_of_app in Hu as [Hu|Hu]; [|rewrite !elem_of_app; auto].
    pose proof (gi_committer _ _ _ _ _ Hi) as Hco. unfold committer_ok in Hco. rewrite Hc in Hco. destruct Hco as (_ & _ & _ & Hne).
    assert (Hq : ∀ u', u' ∈ b_units b → u' ∈ queue σ) by (intros u' Hu'; unfold queue; rewrite Hc, elem_of_app; auto).
    assert (Hf : flushed (g_store σ) shard (b_units b) s' o).
    { eapply flushWithSplit_spec; [apply Hi| |done|done]. apply Forall_forall. intros u' Hu'.
      destruct (gi_inflight _ _ _ _ _ Hi u') as (t & Ht & Hm); [by apply queue_inflight, Hq|].
      rewrite (unit_match_commit _ u' t Hm). eapply (gi_queue _ _ _ _ _ Hi); [by apply Hq|done]. }
    pose proof (fl_partition _ _ _ _ _ Hf) as Hpart. rewrite Hpart in Hu.
    rewrite (rejections_units shard _ _ _ _ Hf). rewrite !elem_of_app in *. tauto.
  - apply accounted_moved; [done|by rewrite Hc|]. intros u Hu. unfold inflight, queue in *. by rewrite Hc in Hu.
  - apply (accounted_mono σ); [done|by rewrite Hc|..]; simpl.
    + intros u' Hu'. unfold inflight, queue in *. rewrite Hc in Hu'. csimpl in *. apply elem_of_cons in Hu' as [->|Hu']; [right|by left].
      intros t' es. rewrite jm_get_set, decide_True by done. by intros [= <-].
    + intros tid' t' es. rewrite jm_get_set. case_decide; [by intros [= <-]|eauto].
  - intros Hal. exfalso. by eapply Hal.
  - pose proof (gi_nodup _ _ _ _ _ Hi) as Hnd. unfold inflight in Hnd. rewrite Hc in Hnd. simpl in Hnd.
    rewrite fmap_app in Hnd. apply NoDup_app in Hnd as (Hnd & _).
    apply (accounted_mono σ); [done|by rewrite Hc|..]; simpl.
    + intros u Hu. unfold inflight, queue in *. rewrite Hc in Hu. simpl in *. apply elem_of_app in Hu as [Hu|Hu]; [right|by left].
      intros t es. apply reject_all_rejects; [done|apply Hi|done].
    + intros tid t es Ht Hp. left. destruct (reject_all_spec (rejections o) (g_calls σ) (gi_keys _ _ _ _ _ Hi)) as (_ & _ & _ & R).
      destruct (R tid t Ht) as (t0 & Ht0 & [->|[e ->]]); [eauto|done].
Qed.

Lemma g_reachable_accounted σ : ms_ok s0 → g_disciplined_run shard hlimits maxRetries s0 σ → accounted σ.
Proof.
  intros Hs Hr. induction Hr as [|σ σ' Hr IH Hst _]; [by intros _ tid t es Ht|].
  eapply gstep_accounted; [done| |done]. by apply g_reachable_inv.
Qed.
End accounting.

(** ** The committer alone settles everything in flight *)
Section drain.
Context {S : Type} `{!MvccStore S} `{!MvccStoreLaws S} {V : Type}.
Context (shard : jsstr) (hlimits : HeadroomLimits) (maxRetries : nat) (s0 : S) (Hs0 : ms_ok s0).
Abbreviation gsys := (gsys S V).
Abbreviation reach := (g_disciplined_run (V := V) shard hlimits maxRetries s0).
Abbreviation gstep := (gstep (V := V) shard hlimits maxRetries).

(** Reached by steps, with the committer dead or back at its detach with the mutex free. *)
Definition round_over (σ σ' : gsys) : Prop :=
  rtc gstep σ σ' ∧ reach σ' ∧
  (¬ alive (g_committer σ') ∨
   g_committer σ' = CDetach ∧ g_lock σ' = None ∧ pendingBatch (gw σ') = pendingBatch (gw σ)).

Lemma round_step σ σ1 σ' : reach σ → gstep σ σ1 → pendingBatch (gw σ1) = pendingBatch (gw σ) →
  round_over σ1 σ' → round_over σ σ'.
Proof. intros Hr Hst E (H1 & H2 & H3). split_and!; [by eapply rtc_l|done|]. by rewrite <-E. Qed.

(** A step that makes no call wait stages nothing. *)
Lemma stages_nothing (σ σ' : gsys) : (∀ tid t t', jm_get (g_calls σ) tid = Some t → jm_get (g_calls σ') tid = Some t' →
  t' = t ∨ ∀ es, gc_phase t' ≠ GStaged es) → stages_disciplined σ σ'.
Proof.
  intros H tid t es Ht Hp Ht'. destruct (H _ _ _ Ht Ht') as [E|Hn]; [|by destruct (Hn es)].
  apply (f_equal gc_phase) in E. simpl in E. congruence.
Qed.

Lemma reach_quiet σ σ1 : reach σ → gstep σ σ1 → g_calls σ1 = g_calls σ → reach σ1.
Proof.
  intros Hr Hst E. eapply gdisc_step; [done|done|]. apply stages_nothing. rewrite E. intros tid t t' H1 H2. left. congruence.
Qed.

Lemma publish_round todo σ b o : reach σ → g_committer σ = CPublish b o todo → ∃ σ', round_over σ σ'.
Proof.
  revert σ. induction todo as [|[u ts] todo IH]; intros σ Hr Hc; pose proof (g_reachable_inv _ _ _ _ _ Hs0 Hr) as Hi.
  - pose proof (gs_end shard hlimits maxRetries σ b o Hc) as Hst.
    eexists. split_and!; [eapply rtc_once; exact Hst|eapply gdisc_step; [exact Hr|exact Hst|]|by right].
    apply stages_nothing. intros tid t t' Ht Ht'. simpl in Ht'.
    destruct (reject_all_spec (rejections o) (g_calls σ) (gi_keys _ _ _ _ _ Hi)) as (_ & _ & _ & R).
    destruct (R tid t' Ht') as (t0 & Ht0 & [->|[e ->]]); [left; congruence|by right].
  - destruct (gi_inflight _ _ _ _ _ Hi u) as (t & Ht & _ & _ & v & Hv).
    { eapply todo_inflight. rewrite Hc. apply elem_of_cons. by left. }
    destruct (build_oplog ts (su_shardId u) (su_writeRanges u) (su_origin u) (su_documents u)) as [ol|e] eqn:Eo.
    + pose proof (gs_resolve shard hlimits maxRetries σ b o u ts todo t v ol Hc Ht Hv Eo) as Hst.
      match type of Hst with GroupCommit.gstep _ _ _ _ ?x => destruct (IH x) as [σ' H]; [|done|] end.
      * eapply gdisc_step; [done|exact Hst|]. apply stages_nothing. intros tid t1 t2 H1. simpl. rewrite jm_get_set.
        case_decide; [intros [= <-]; by right|intros H2; left; congruence].
      * exists σ'. by eapply round_step.
    + pose proof (gs_crash shard hlimits maxRetries σ b o u ts todo t v e Hc Ht Hv Eo) as Hst.
      eexists. split_and!; [by eapply rtc_once|by eapply reach_quiet|]. left. intros Hal. by eapply Hal.
Qed.

Lemma landed_round σ b o : reach σ → g_committer σ = CLanded b o → g_lock σ = None → ∃ σ', round_over σ σ'.
Proof.
  intros Hr Hc Hl. pose proof (gs_publish shard hlimits maxRetries σ b o Hc Hl) as Hst.
  match type of Hst with GroupCommit.gstep _ _ _ _ ?x =>
    destruct (publish_round (fo_landed o) x b o) as [σ' H]; [by eapply reach_quiet|done|] end.
  exists σ'. by eapply round_step.
Qed.

Lemma flush_round σ b : reach σ → g_committer σ = CFlush b → g_lock σ = None → ∃ σ', round_over σ σ'.
Proof.
  intros Hr Hc Hl. destruct (flushWithSplit (g_store σ) shard (b_units b)) as [s' o] eqn:Ef.
  pose proof (gs_flush shard hlimits maxRetries σ b s' o Hc Ef) as Hst.
  match type of Hst with GroupCommit.gstep _ _ _ _ ?x =>
    destruct (landed_round x b o) as [σ' H]; [by eapply reach_quiet|done|done|] end.
  exists σ'. by eapply round_step.
Qed.

(** Nothing is in flight, or the committer is dead. *)
Definition drained (σ : gsys) : Prop := ¬ alive (g_committer σ) ∨ inflight σ = [].

Lemma empty_detach σ : g_committer σ = CDetach → batch_units (pendingBatch (gw σ)) = [] → drained σ.
Proof. intros Hc Hp. right. unfold inflight, queue. by rewrite Hc, Hp. Qed.

Lemma detach_drain σ : reach σ → g_committer σ = CDetach → g_lock σ = None →
  ∃ σ', rtc gstep σ σ' ∧ reach σ' ∧ drained σ'.
Proof.
  intros Hr Hc Hl. destruct (batch_units (pendingBatch (gw σ))) as [|u us] eqn:Ep.
  { exists σ. split_and!; [done|done|by apply empty_detach]. }
  destruct (detach (gw σ)) as [g ob] eqn:Ed. pose proof (gs_detach shard hlimits maxRetries σ g ob Hc Hl Ed) as Hst.
  unfold detach in Ed. destruct (pendingBatch (gw σ)) as [b|] eqn:Eb; [|done]. simpl in Ep. rewrite Ep in Ed.
  injection Ed as <- <-. match type of Hst with GroupCommit.gstep _ _ _ _ ?x =>
    destruct (flush_round x b) as (σ' & H1 & H2 & H3); [by eapply reach_quiet|done|done|] end.
  exists σ'. split_and!; [by eapply rtc_l|done|]. destruct H3 as [H3|(H3 & _ & H4)]; [by left|].
  apply empty_detach; [done|]. by rewrite H4.
Qed.

Lemma rounds_drain σ σ1 : round_over σ σ1 → ∃ σ', rtc gstep σ σ' ∧ reach σ' ∧ drained σ'.
Proof.
  intros (H1 & H2 & [H3|(H3 & H4 & _)]); [exists σ1; split_and!; try done; by left|].
  destruct (detach_drain σ1 H2 H3 H4) as (σ' & H5 & H6 & H7). exists σ'. split_and!; try done. by etrans.
Qed.

Lemma drain σ : reach σ → (∀ tid, g_lock σ ≠ Some (ByCall tid)) → ∃ σ', rtc gstep σ σ' ∧ reach σ' ∧ drained σ'.
Proof.
  intros Hr Hl. pose proof (g_reachable_inv _ _ _ _ _ Hs0 Hr) as Hi. pose proof (gi_committer _ _ _ _ _ Hi) as Hco.
  unfold committer_ok in Hco.
  assert (Hlock : g_lock σ ≠ Some ByCommitter → g_lock σ = None) by (intros; destruct (g_lock σ) as [[tid|]|]; naive_solver).
  destruct (g_committer σ) as [| |b|b o|b o todo|b o todo] eqn:Hc.
  - exists σ. split_and!; [done|done|]. right. unfold inflight, queue. rewrite Hc. destruct Hco as (_ & _ & _ & ->). done.
  - apply detach_drain; naive_solver.
  - destruct (flush_round σ b) as [σ1 H]; [done|done|naive_solver|]. by eapply rounds_drain.
  - destruct (landed_round σ b o) as [σ1 H]; [done|done|naive_solver|]. by eapply rounds_drain.
  - destruct (publish_round todo σ b o) as [σ1 H]; [done|done|]. by eapply rounds_drain.
  - exists σ. split_and!; [done|done|]. left. intros Hal. rewrite Hc in Hal. by eapply Hal.
Qed.
End drain.

(** ** What holds of every reachable group-commit system *)
Section gtheorems.
Context {S : Type} `{!MvccStore S} `{!MvccStoreLaws S} {V : Type}.
Context (shard : jsstr) (hlimits : HeadroomLimits) (maxRetries : nat) (s0 : S).
Implicit Types σ : gsys S V.

(** C10: group commit is serial in its validated reads. However calls stage, batches flush (with units
    split out by guards) and commits publish, if every unit that is staged is disciplined (it reports the
    key of every index entry it changes as written, restages the index entries of the documents it writes,
    and its index updates point to those documents), the published commits have consecutive timestamps;
    each committed function, run alone at the timestamp just before its own, returns the value it returned
    and builds the same writes, its unvalidated scans being answered as of the snapshot the call had (and a
    function without such scans running at that timestamp altogether); at its timestamp every document it staged reads as staged with [prev_ts] the revision
    live just before, and no other document changed. *)
Theorem group_commits_serial σ : ms_ok s0 → g_disciplined_run shard hlimits maxRetries s0 σ →
  c_ts <$> g_history σ = seqZ (ms_max s0 + 1) (g_clock σ - ms_max s0) ∧
  ∀ c, c ∈ g_history σ →
    ms_max s0 ≤ snapshotTs (c_ctx c) ≤ c_ts c - 1 ∧
    exec_at (g_store σ) (snapshotTs (c_ctx c)) (new_Ctx (c_ts c - 1) shard (new_HeadroomTracker hlimits)) (c_fun c)
      (at_snapshot (c_ctx c) (c_ts c - 1)) (FRet (c_value c)) ∧
    (fully_validated (c_fun c) →
     exec (g_store σ) (new_Ctx (c_ts c - 1) shard (new_HeadroomTracker hlimits)) (c_fun c)
       (at_snapshot (c_ctx c) (c_ts c - 1)) (FRet (c_value c))) ∧
    Forall2 (λ w e, le_id e = lw_id w ∧ option_map rd_value (le_value e) = lw_value w)
      (uw_entries (staged (c_ctx c))) (c_entries c) ∧
    (∀ e, e ∈ c_entries c →
       ms_get (g_store σ) (le_id e) (Some (c_ts c)) = Ok (latest_of e (c_ts c)) ∧
       ∃ p, ms_get (g_store σ) (le_id e) (Some (c_ts c - 1)) = Ok p ∧ le_prev_ts e = option_map ld_ts p) ∧
    (∀ id, id ∉ (le_id <$> c_entries c) →
       ms_get (g_store σ) id (Some (c_ts c)) = ms_get (g_store σ) id (Some (c_ts c - 1))).
Proof.
  intros Hs Hr. pose proof (g_reachable_inv shard hlimits maxRetries s0 σ Hs Hr) as Hi.
  split; [apply Hi|]. intros c Hc. destruct (gi_landed _ _ _ _ _ Hi c Hc).
  destruct (gi_serial _ _ _ _ _ Hi c Hc) as [Hu He].
  split_and!; try done; try lia; [|intros e Hin; split; auto]. intros Hf. unfold exec. by eapply exec_validated.
Qed.

(** C11: no staged call is lost. In every system reached by staging disciplined units the unsettled units belong to distinct
    calls, each awaiting its completion with exactly that unit's entries; every call awaiting its
    completion has such a unit unless the publish loop threw; and from any state in which no call
    holds the mutex the committer can run on to a state with nothing left in flight, so that no call
    waits, or to that exception. *)
Theorem group_calls_settled σ : ms_ok s0 → g_disciplined_run shard hlimits maxRetries s0 σ →
  NoDup (su_call <$> inflight σ) ∧
  (∀ u, u ∈ inflight σ → ∃ t, jm_get (g_calls σ) (su_call u) = Some t ∧ gc_phase t = GStaged (su_documents u)) ∧
  (alive (g_committer σ) → ∀ tid t es, jm_get (g_calls σ) tid = Some t → gc_phase t = GStaged es →
     ∃ u, u ∈ inflight σ ∧ su_call u = tid) ∧
  ((∀ tid, g_lock σ ≠ Some (ByCall tid)) →
     ∃ σ', rtc (gstep shard hlimits maxRetries) σ σ' ∧
       (alive (g_committer σ') → ∀ tid t es, jm_get (g_calls σ') tid = Some t → gc_phase t ≠ GStaged es)).
Proof.
  intros Hs Hr. pose proof (g_reachable_inv shard hlimits maxRetries s0 σ Hs Hr) as Hi. split_and!.
  - apply Hi.
  - intros u Hu. destruct (gi_inflight _ _ _ _ _ Hi u Hu) as (t & Ht & Hm & _). eauto.
  - exact (g_reachable_accounted shard hlimits maxRetries s0 σ Hs Hr).
  - intros Hl. destruct (drain shard hlimits maxRetries s0 Hs σ Hr Hl) as (σ' & H1 & H2 & H3).
    exists σ'. split; [done|]. intros Hal tid t es Ht Hp. destruct H3 as [H3|H3]; [done|].
    destruct (g_reachable_accounted shard hlimits maxRetries s0 σ' Hs H2 Hal tid t es Ht Hp) as (u & Hu & _).
    rewrite H3 in Hu. by apply elem_of_nil in Hu.
Qed.

(** The flush with guard splits. The units of a batch are partitioned into landed, guard-rejected
    and failed ones; the landed ones keep their order and land in one store transaction at the
    timestamps that transaction gave them, and when none landed the store is unchanged; a failed
    chunk has its error; and at most [MAX_SPLIT_RETRIES] units are split out. *)
Theorem flush_partition (s s' : S) units o : ms_ok s → Forall (λ u, unit_okb (commit_unit_of u) = true) units →
  units ≠ [] → flushWithSplit s shard units = (s', o) →
  units ≡ₚ (fo_landed o).*1 ++ (fo_guardRejected o).*1 ++ fo_chunkUnits o ∧
  (fo_landed o).*1 `sublist_of` units ∧
  (fo_landed o = [] → s' = s) ∧
  (fo_landed o ≠ [] → fo_chunkUnits o = [] ∧
     ms_commit s (List.map commit_unit_of (fo_landed o).*1) (Some shard) = Ok (s', (fo_landed o).*2)) ∧
  (fo_chunkUnits o ≠ [] → is_Some (fo_chunkErr o)) ∧
  (length (fo_guardRejected o) ≤ MAX_SPLIT_RETRIES)%nat.
Proof.
  intros Hs Hu Hne E. destruct (flushWithSplit_spec s shard units s' o Hs Hu Hne E) as [F1 [F2 _] F3 F4 F5 _ F7].
  split_and!; try done. intros Hl. destruct (F3 Hl) as (tss & _ & E1 & -> & E2). done.
Qed.
End gtheorems.

(** ** A concrete run: two calls land as one batch while a third, which read what the first wrote,
    conflicts with the batch in flight *)
Section gexample.
Let doc (n : Z) : InternalDocumentId := {| tableNumber := 10001; internalId := [n; 2; 3; 4; 5; 6; 7; 8; 9; 10; 11; 12; 13; 14; 15; 16] |}.

Definition put_doc (n : Z) : func Z := FPut (doc n) (VObj [(js "n", VBig n)]) (λ _, FRet n).
Definition read_put (n m : Z) : func Z := FGet (doc n) (λ _, FPut (doc m) (VObj [(js "n", VBig m)]) (λ _, FRet m)).

#[local] Instance grace_store : MvccStore db := sqlite_store [].
#[local] Instance grace_laws : MvccStoreLaws db := sqlite_laws [] (List.Forall_nil _).
Abbreviation grace_reachable := (@g_disciplined_run db grace_store Z DEFAULT_SHARD DEFAULT_HEADROOM 8 empty_db).

Ltac gsettle H :=
  match type of H with g_disciplined_run _ _ _ _ ?σ => let σ' := eval vm_compute in σ in change σ with σ' in H end.
Ltac gtrivial :=
  split; [split; [reflexivity|intros ? ? _ [Hr _]; by apply elem_of_nil in Hr|intros ? Hu; by apply elem_of_nil in Hu]
         |intros ? ? Hu; by apply elem_of_nil in Hu].
(** No unit is staged, or the one that is stages no index update. *)
Ltac gstages :=
  intros [|[|[|?]]] ? ? Hget Hph Hget'; vm_compute in Hget, Hget'; try discriminate Hget;
  injection Hget as <-; first [discriminate Hph|discriminate Hget'|injection Hget' as <-; gtrivial].
Ltac gwalk H tac := eapply gdisc_step in H; [|tac; try reflexivity; try done; try (simpl; lia)|gstages]; [gsettle H].

Ltac gstage H n :=
  gwalk H ltac:(eapply (gs_stage _ _ _ _ n));
  gwalk H ltac:(eapply (gs_get _ _ _ _ n));
  gwalk H ltac:(eapply (gs_append _ _ _ _ n)).

Ltac gflushing H :=
  gwalk H ltac:(eapply (gs_begin _ _ _ _ 0 (put_doc 1) None None));
  gwalk H ltac:(eapply (gs_begin _ _ _ _ 1 (put_doc 2) None None));
  gwalk H ltac:(eapply (gs_begin _ _ _ _ 2 (read_put 1 3) None None));
  gwalk H ltac:(eapply (gs_op _ _ _ _ 0));
  gwalk H ltac:(eapply (gs_op _ _ _ _ 1));
  gwalk H ltac:(eapply (gs_op _ _ _ _ 2));
  gwalk H ltac:(eapply (gs_op _ _ _ _ 2));
  gstage H 0%nat; gstage H 1%nat;
  gwalk H ltac:(eapply gs_detach);
  gwalk H ltac:(eapply (gs_conflict _ _ _ _ 2)).

Lemma two_flushing : ∃ σ, grace_reachable σ ∧ length (inflight σ) = 2%nat ∧ g_lock σ = None ∧
  (∃ b, g_committer σ = CFlush b) ∧ ∃ t, jm_get (g_calls σ) 2%nat = Some t ∧ gc_phase t = GConflict (Some 0%nat).
Proof.
  assert (H : grace_reachable (g_initial empty_db)) by constructor. gsettle H. gflushing H.
  eexists. split; [exact H|]. split; [reflexivity|]. split; [reflexivity|]. split; eexists; [reflexivity|]. split; reflexivity.
Qed.

Lemma two_landed : ∃ σ, grace_reachable σ ∧ (c_value <$> g_history σ) = [1; 2] ∧ (c_ts <$> g_history σ) = [1; 2].
Proof.
  assert (H : grace_reachable (g_initial empty_db)) by constructor. gsettle H. gflushing H.
  gwalk H ltac:(eapply gs_flush).
  gwalk H ltac:(eapply gs_publish).
  gwalk H ltac:(eapply gs_resolve; [reflexivity|reflexivity|reflexivity|vm_compute; reflexivity]).
  gwalk H ltac:(eapply gs_resolve; [reflexivity|reflexivity|reflexivity|vm_compute; reflexivity]).
  gwalk H ltac:(eapply gs_end).
  eexists. split; [exact H|done].
Qed.

Lemma group_commits_serial_witness : ∃ σ, grace_reachable σ ∧ (c_value <$> g_history σ) = [1; 2] ∧
  c_ts <$> g_history σ = seqZ 1 (g_clock σ).
Proof.
  destruct two_landed as (σ & Hr & Hv & _).
  destruct (group_commits_serial DEFAULT_SHARD DEFAULT_HEADROOM 8 empty_db σ empty_db_ok Hr) as [H _].
  exists σ. split; [done|]. split; [done|]. rewrite H. change (ms_max empty_db) with 0. f_equal. lia.
Defined.

Lemma group_calls_settled_witness : ∃ σ, grace_reachable σ ∧ length (inflight σ) = 2%nat ∧
  ∃ σ', rtc (gstep DEFAULT_SHARD DEFAULT_HEADROOM 8) σ σ' ∧
    (alive (g_committer σ') → ∀ tid t es, jm_get (g_calls σ') tid = Some t → gc_phase t ≠ GStaged es).
Proof.
  destruct two_flushing as (σ & Hr & Hl & Hk & _). exists σ. split; [done|]. split; [done|].
  destruct (group_calls_settled DEFAULT_SHARD DEFAULT_HEADROOM 8 empty_db σ empty_db_ok Hr) as (_ & _ & _ & H).
  apply H. by rewrite Hk.
Defined.

Definition flush_unit (n : nat) : StagedUnit :=
  {| su_call := n; su_documents := [{| le_ts := 0; le_id := doc (Z.of_nat n); le_prev_ts := None; le_value := None |}];
     su_indexUpdates := []; su_meta := None; su_origin := None; su_writeRanges := rs_new; su_shardId := DEFAULT_SHARD |}.

Lemma flush_partition_witness : ∃ s' o, flushWithSplit empty_db DEFAULT_SHARD [flush_unit 1; flush_unit 2] = (s', o) ∧
  (fo_landed o).*2 = [1; 2] ∧
  [flush_unit 1; flush_unit 2] ≡ₚ (fo_landed o).*1 ++ (fo_guardRejected o).*1 ++ fo_chunkUnits o.
Proof.
  destruct (flushWithSplit empty_db DEFAULT_SHARD [flush_unit 1; flush_unit 2]) as [s' o] eqn:E. exists s', o.
  split; [reflexivity|]. split; [vm_compute in E; injection E as <- <-; reflexivity|].
  apply (flush_partition DEFAULT_SHARD empty_db s' [flush_unit 1; flush_unit 2] o empty_db_ok); [|done|exact E].
  repeat constructor.
Defined.
End gexample.
