(* ===== verification/QueryEngine.v ===== *)
(** The query engine of [packages/query-engine/src]: filters ([filter.ts]), index maintenance
    ([index-manager.ts]), planning of index intervals ([plan.ts]) and the query runtime
    ([query-runtime.ts]) over any store of the storage seam. A [for await] loop over an index scan
    is a fold over the scanned rows; a scan that fails fails the query. *)
From S2P Require Import Prelude Numbers Values Json IndexKeys Ranges IdCodec DocStore MvccStore Transactor.

(** ** Filters *)
Inductive ComparisonOp := OpEq | OpNeq | OpLt | OpLte | OpGt | OpGte.

Inductive FilterExpr :=
  | FCompare (op : ComparisonOp) (field : jsstr) (v : value)
  | FAnd (clauses : list FilterExpr)
  | FOr (clauses : list FilterExpr)
  | FNot (clause : FilterExpr).

(** [s.split(sep)] for a one-unit separator *)
Fixpoint split_on (sep : Z) (s : jsstr) : list jsstr :=
  match s with
  | [] => [[]]
  | c :: s' =>
      if c =? sep then [] :: split_on sep s'
      else match split_on sep s' with p :: ps => (c :: p) :: ps | [] => [[c]] end
  end.

Fixpoint walk_path (cur : value) (parts : list jsstr) : option value :=
  match parts with
  | [] => Some cur
  | part :: parts' =>
      match cur with
      | VObj kvs => match jm_get kvs part with Some v => walk_path v parts' | None => None end
      | _ => None
      end
  end.

Definition evaluateFieldPath (doc : value) (path : jsstr) : option value := walk_path doc (split_on 46 path).

Definition op_holds (op : ComparisonOp) (c : comparison) : bool :=
  match op, c with
  | OpEq, Eq => true | OpEq, _ => false
  | OpNeq, Eq => false | OpNeq, _ => true
  | OpLt, Lt => true | OpLt, _ => false
  | OpLte, Gt => false | OpLte, _ => true
  | OpGt, Gt => true | OpGt, _ => false
  | OpGte, Lt => false | OpGte, _ => true
  end.

Fixpoint evaluateFilter (doc : value) (expr : FilterExpr) : bool :=
  match expr with
  | FAnd clauses => forallb (evaluateFilter doc) clauses
  | FOr clauses => existsb (evaluateFilter doc) clauses
  | FNot clause => negb (evaluateFilter doc clause)
  | FCompare op field v =>
      match evaluateFieldPath doc field with
      | None => false
      | Some fieldValue => op_holds op (compareValues fieldValue v)
      end
  end.

(** ** Index maintenance *)
Record IndexSpec := {
  is_table : jsstr; is_tableNumber : Z; is_index : jsstr; is_fields : list jsstr; is_indexId : jsstr }.

(** [doc[key] ?? fallback] *)
Definition own_or (doc : value) (key : jsstr) (fallback : value) : value :=
  match doc with
  | VObj kvs => match jm_get kvs key with Some VNull | None => fallback | Some v => v end
  | _ => fallback
  end.

Definition index_tuple (doc : value) (fields : list jsstr) : list value :=
  List.map (λ f, default VNull (evaluateFieldPath doc f)) fields ++
  [own_or doc (js "_creationTime") (VNum (mknum (S754_zero false))); own_or doc (js "_id") (VStr [])].

Definition extractIndexKey (doc : value) (fields : list jsstr) : res bytes := encodeIndexKey (index_tuple doc fields).

Definition opt_key (doc : option value) (fields : list jsstr) : res (option bytes) :=
  match doc with None => Ok None | Some d => let! k := extractIndexKey d fields in Ok (Some k) end.

Definition index_updates_for (idx : IndexSpec) (oldDoc newDoc : option value) (docId : InternalDocumentId) :
    res (list DatabaseIndexUpdate) :=
  let! oldKey := opt_key oldDoc (is_fields idx) in
  let! newKey := opt_key newDoc (is_fields idx) in
  let removed := match oldKey, newKey with
    | Some o, None => [{| iu_indexId := is_indexId idx; iu_key := o; iu_value := Deleted |}]
    | Some o, Some n =>
        match compareKeyBytes o n with
        | Eq => []
        | _ => [{| iu_indexId := is_indexId idx; iu_key := o; iu_value := Deleted |}]
        end
    | None, _ => []
    end in
  let added := match newKey with
    | Some n => [{| iu_indexId := is_indexId idx; iu_key := n; iu_value := NonClustered docId |}]
    | None => []
    end in
  Ok (removed ++ added).

Definition computeIndexUpdates (indexes : list IndexSpec) (oldDoc newDoc : option value) (docId : InternalDocumentId) :
    res (list DatabaseIndexUpdate) :=
  let! us := traverse (λ idx, index_updates_for idx oldDoc newDoc docId) indexes in Ok (concat us).

(** ** Planning *)
Inductive QueryOperator := QEq | QGt | QGte | QLt | QLte.
Record RangeExpression := { re_field : jsstr; re_operator : QueryOperator; re_value : value }.
Record Bound := { bd_value : value; bd_inclusive : bool }.
Record Plan := { pl_prefix : list value; pl_lower : option Bound; pl_upper : option Bound }.

Definition is_eq (r : RangeExpression) : bool := match re_operator r with QEq => true | _ => false end.

Definition add_bound (lu : option Bound * option Bound) (c : RangeExpression) : option Bound * option Bound :=
  let b incl := Some {| bd_value := re_value c; bd_inclusive := incl |} in
  match re_operator c with
  | QGt => (b false, lu.2)
  | QGte => (b true, lu.2)
  | QLt => (lu.1, b false)
  | QLte => (lu.1, b true)
  | QEq => lu
  end.

(** The loop over the index fields: equalities extend the prefix, the first other field ends it. *)
Fixpoint plan_loop (fields : list jsstr) (range : list RangeExpression) (prefix : list value) : Plan :=
  match fields with
  | [] => {| pl_prefix := prefix; pl_lower := None; pl_upper := None |}
  | field :: fields' =>
      let constraints := List.filter (λ r, bool_decide (re_field r = field)) range in
      match List.find is_eq constraints with
      | Some eq => plan_loop fields' range (prefix ++ [re_value eq])
      | None =>
          let lu := fold_left add_bound constraints (None, None) in
          {| pl_prefix := prefix; pl_lower := lu.1; pl_upper := lu.2 |}
      end
  end.

Definition buildIndexInterval (fields : list jsstr) (range : list RangeExpression) : res Interval :=
  let p := plan_loop fields range [] in
  let! start :=
    match pl_lower p with
    | Some b =>
        if bd_inclusive b then encodeIndexKey (pl_prefix p ++ [bd_value b])
        else let! e := indexKeyRangeEnd (pl_prefix p ++ [bd_value b]) in Ok (default [] e)
    | None => indexKeyRangeStart (pl_prefix p)
    end in
  let! end_ :=
    match pl_upper p with
    | Some b =>
        if bd_inclusive b then indexKeyRangeEnd (pl_prefix p ++ [bd_value b])
        else let! k := encodeIndexKey (pl_prefix p ++ [bd_value b]) in Ok (Some k)
    | None => indexKeyRangeEnd (pl_prefix p)
    end in
  Ok {| iv_start := start; iv_end := end_ |}.

(** ** The runtime *)
Record Query := {
  q_index : IndexSpec; q_range : option (list RangeExpression); q_order : option Order;
  q_filters : option (list FilterExpr); q_limit : option Z }.
Record CollectResult := { co_documents : list value; co_readSet : RangeSet }.
Record PaginatedResult := {
  pg_page : list value; pg_nextCursor : option jsstr; pg_hasMore : bool; pg_scanCapped : bool;
  pg_readSet : RangeSet; pg_pageBounds : SerializedKeyRange }.
Record PageOpts := { po_cursor : option jsstr; po_pageSize : Z; po_maxScan : option Z }.

Definition keyInInterval (key : bytes) (iv : Interval) : bool :=
  cmp_leb (compareKeyBytes (iv_start iv) key) && before_end key (iv_end iv).

Definition query_keyspace (index : IndexSpec) : jsstr :=
  indexKeyspaceId (encodeStorageTableId (is_tableNumber index)) (is_index index).

Definition interval_range (index : IndexSpec) (iv : Interval) : KeyRange :=
  {| keyspace := query_keyspace index; start := iv_start iv; end_ := iv_end iv |}.

Definition consumedRange (index : IndexSpec) (iv : Interval) (o : Order) (lastScanned : option bytes) : KeyRange :=
  match lastScanned with
  | None => interval_range index iv
  | Some k =>
      match o with
      | Asc => {| keyspace := query_keyspace index; start := iv_start iv; end_ := Some (keySuccessor k) |}
      | Desc => {| keyspace := query_keyspace index; start := k; end_ := iv_end iv |}
      end
  end.

Abbreviation row := (bytes * LatestDocument)%type.
Definition row_value (r : row) : value := rd_value (ld_value r.2).
Definition matches (filters : list FilterExpr) (v : value) : bool := forallb (evaluateFilter v) filters.

(** [limit !== undefined && documents.length >= limit] *)
Definition limit_hit {A} (limit : option Z) (docs : list A) : bool :=
  match limit with None => false | Some l => l <=? Z.of_nat (length docs) end.

(** The scan loop of [collect]: the documents, the last key scanned, whether the limit stopped it. *)
Fixpoint collect_loop (filters : list FilterExpr) (limit : option Z) (rows : list row) (docs : list value)
    (lastScanned : option bytes) : list value * option bytes * bool :=
  match rows with
  | [] => (docs, lastScanned, false)
  | r :: rows' =>
      if matches filters (row_value r) then
        let docs' := docs ++ [row_value r] in
        if limit_hit limit docs' then (docs', Some r.1, true) else collect_loop filters limit rows' docs' (Some r.1)
      else collect_loop filters limit rows' docs (Some r.1)
  end.

(** The filtering loop over merged entries. *)
Fixpoint overlay_loop (filters : list FilterExpr) (limit : option Z) (entries : list (bytes * value)) (docs : list value) :
    list value :=
  match entries with
  | [] => docs
  | e :: entries' =>
      if matches filters e.2 then
        let docs' := docs ++ [e.2] in
        if limit_hit limit docs' then docs' else overlay_loop filters limit entries' docs'
      else overlay_loop filters limit entries' docs
  end.

(** [merged.set] / [merged.delete] for one overlay entry *)
Definition overlay_step (iv : Interval) (m : list (jsstr * (bytes * value))) (o : IndexOverlayEntry) :
    list (jsstr * (bytes * value)) :=
  match ov_value o with
  | None => jm_delete m (hexKey (ov_key o))
  | Some v => if keyInInterval (ov_key o) iv then jm_set m (hexKey (ov_key o)) (ov_key o, v) else m
  end.

Definition merge_overlay (rows : list row) (iv : Interval) (o : Order) (overlay : list IndexOverlayEntry) :
    list (bytes * value) :=
  let m := fold_left (λ m r, jm_set m (hexKey r.1) (r.1, row_value r)) rows [] in
  sort_by (λ a b, order_cmp o compareKeyBytes a.1 b.1) (jm_values (fold_left (overlay_step iv) overlay m)).

Section runtime.
Context {S : Type} `{!MvccStore S}.

Definition scanWithOverlay (s : S) (q : Query) (readTs : Z) (iv : Interval) (o : Order)
    (overlay : list IndexOverlayEntry) : res (list (bytes * value)) :=
  let! rows := ms_scan s (is_indexId (q_index q)) readTs iv o None in
  Ok (merge_overlay rows iv o overlay).

Definition collect (s : S) (q : Query) (readTs : Z) (overlay : list IndexOverlayEntry) : res CollectResult :=
  let o := default Asc (q_order q) in
  let filters := default [] (q_filters q) in
  let! iv := buildIndexInterval (is_fields (q_index q)) (default [] (q_range q)) in
  match overlay with
  | _ :: _ =>
      let! merged := scanWithOverlay s q readTs iv o overlay in
      Ok {| co_documents := overlay_loop filters (q_limit q) merged [];
            co_readSet := rs_add rs_new (interval_range (q_index q) iv) |}
  | [] =>
      let! rows := ms_scan s (is_indexId (q_index q)) readTs iv o None in
      let '(docs, lastScanned, hitLimit) := collect_loop filters (q_limit q) rows [] None in
      let scanRange := if hitLimit then consumedRange (q_index q) iv o lastScanned else interval_range (q_index q) iv in
      Ok {| co_documents := docs; co_readSet := rs_add rs_new scanRange |}
  end.

(** The state of [paginate]'s scan loop. *)
Record PageState := {
  ps_page : list value; ps_lastIncluded : option bytes; ps_lastScanned : option bytes;
  ps_hasMore : bool; ps_scanCapped : bool }.

Fixpoint page_loop (filters : list FilterExpr) (pageSize : Z) (maxScan : option Z) (rows : list row)
    (page : list value) (lastIncluded lastScanned : option bytes) (scanned : Z) : PageState :=
  match rows with
  | [] => {| ps_page := page; ps_lastIncluded := lastIncluded; ps_lastScanned := lastScanned;
             ps_hasMore := false; ps_scanCapped := false |}
  | r :: rows' =>
      let hit := matches filters (row_value r) in
      if hit && (pageSize <=? Z.of_nat (length page)) then
        {| ps_page := page; ps_lastIncluded := lastIncluded; ps_lastScanned := Some r.1;
           ps_hasMore := true; ps_scanCapped := false |}
      else
        let page' := if hit then page ++ [row_value r] else page in
        let lastIncluded' := if hit then Some r.1 else lastIncluded in
        let scanned' := scanned + 1 in
        if match maxScan with None => false | Some m => m <=? scanned' end then
          {| ps_page := page'; ps_lastIncluded := lastIncluded'; ps_lastScanned := Some r.1;
             ps_hasMore := true; ps_scanCapped := Z.of_nat (length page') <? pageSize |}
        else page_loop filters pageSize maxScan rows' page' lastIncluded' (Some r.1) scanned'
  end.

(** [a.slice(0, n)] *)
Definition slice0 {A} (l : list A) (n : Z) : list A :=
  if n <? 0 then take (Z.to_nat (Z.of_nat (length l) + n)) l else take (Z.to_nat n) l.

(** The interval a page starts from: an empty cursor string is no cursor. *)
Definition resume (base : Interval) (o : Order) (cursor : option jsstr) : res Interval :=
  match cursor with
  | None | Some [] => Ok base
  | Some c =>
      let! k := base64ToBytes c in
      Ok (match o with
          | Asc => {| iv_start := keySuccessor k; iv_end := iv_end base |}
          | Desc => {| iv_start := iv_start base; iv_end := Some k |}
          end)
  end.

Definition page_bounds (index : IndexSpec) (iv : Interval) (o : Order) (hasMore : bool) (lastIncluded : option bytes) :
    KeyRange :=
  match hasMore, lastIncluded with
  | true, Some k =>
      match o with
      | Asc => {| keyspace := query_keyspace index; start := iv_start iv; end_ := Some (keySuccessor k) |}
      | Desc => {| keyspace := query_keyspace index; start := k; end_ := iv_end iv |}
      end
  | _, _ => interval_range index iv
  end.

Definition paginate (s : S) (q : Query) (readTs : Z) (opts : PageOpts) (overlay : list IndexOverlayEntry) :
    res PaginatedResult :=
  let o := default Asc (q_order q) in
  let filters := default [] (q_filters q) in
  let! base := buildIndexInterval (is_fields (q_index q)) (default [] (q_range q)) in
  let! iv := resume base o (po_cursor opts) in
  match overlay with
  | _ :: _ =>
      let! merged := scanWithOverlay s q readTs iv o overlay in
      let matched := List.filter (λ e, matches filters e.2) merged in
      let pageEntries := slice0 matched (po_pageSize opts) in
      let hasMore := po_pageSize opts <? Z.of_nat (length matched) in
      let! lastKey := if hasMore then match last pageEntries with Some e => Ok (Some e.1) | None => Err TypeError end
                      else Ok None in
      Ok {| pg_page := List.map snd pageEntries; pg_nextCursor := option_map bytesToBase64 lastKey;
            pg_hasMore := hasMore; pg_scanCapped := false;
            pg_readSet := rs_add rs_new (interval_range (q_index q) iv);
            pg_pageBounds := serializeKeyRange (interval_range (q_index q) iv) |}
  | [] =>
      let! rows := ms_scan s (is_indexId (q_index q)) readTs iv o None in
      let st := page_loop filters (po_pageSize opts) (po_maxScan opts) rows [] None None 0 in
      let readRange := if negb (ps_hasMore st) && negb (ps_scanCapped st) then interval_range (q_index q) iv
                       else consumedRange (q_index q) iv o (ps_lastScanned st) in
      let cursorKey := if ps_scanCapped st then ps_lastScanned st
                       else if ps_hasMore st then ps_lastIncluded st else None in
      Ok {| pg_page := ps_page st; pg_nextCursor := option_map bytesToBase64 cursorKey;
            pg_hasMore := ps_hasMore st; pg_scanCapped := ps_scanCapped st;
            pg_readSet := rs_add rs_new readRange;
            pg_pageBounds := serializeKeyRange (page_bounds (q_index q) iv o (ps_hasMore st) (ps_lastIncluded st)) |}
  end.
End runtime.
