(* ===== verification/Policy.v ===== *)
(** Row policies ([packages/executor/src/policy.ts]): the predicates a table's policy returns, their compilation to the post-filters of
    the query engine, and the resolution of relation predicates by semi-joins over the related tables. *)
From S2P Require Import Prelude Effects Numbers Values Json IndexKeys Ranges IdCodec DocStore MvccStore Transactor QueryEngine.

(** ** Predicates *)
Record FieldOps := {
  fo_eq : option value; fo_ne : option value; fo_lt : option value; fo_lte : option value; fo_gt : option value; fo_gte : option value;
  fo_in : option (list value); fo_notIn : option (list value); fo_isNull : option bool;
  fo_unknown : list jsstr  (** the keys that are no operator *) }.

Inductive RelationKind := RSome | RNone | REvery | RIs | RIsNot.

(** What a field is mapped to: a bare value, a bag of operators, or a relation clause. *)
Inductive Condition (W : Type) := CBare (v : value) | COps (ops : FieldOps) | CRel (k : RelationKind) (w : W).
Arguments CBare {W}.
Arguments COps {W}.
Arguments CRel {W}.

Inductive WhereInput :=
  | WAnd (ws : list WhereInput)
  | WOr (ws : list WhereInput)
  | WNot (w : WhereInput)
  | WFields (fs : list (jsstr * Condition WhereInput)).

Inductive PolicyPredicate := PUndefined | PBool (b : bool) | PWhere (w : WhereInput).

Record RelationRegistry := {
  toMany : list (jsstr * list (jsstr * (jsstr * jsstr)));  (** parent table, relation: child table, back-reference *)
  toOne : list (jsstr * list (jsstr * jsstr)) }.            (** parent table, field: target table *)

Definition many_relation (g : RelationRegistry) (parent name : jsstr) : option (jsstr * jsstr) := jm_get (toMany g) parent ≫= λ m, jm_get m name.
Definition one_relation (g : RelationRegistry) (parent field : jsstr) : option jsstr := jm_get (toOne g) parent ≫= λ m, jm_get m field.

(** ** Compilation *)
Definition ALWAYS_TRUE : FilterExpr := FAnd [].
Definition ALWAYS_FALSE : FilterExpr := FOr [].

(** None, one or several clauses of a conjunction. *)
Definition conj_of (clauses : list FilterExpr) : FilterExpr :=
  match clauses with [] => ALWAYS_TRUE | [c] => c | _ => FAnd clauses end.
Definition compare_clause (op : ComparisonOp) (field : jsstr) (v : option value) : list FilterExpr :=
  match v with Some v => [FCompare op field v] | None => [] end.
Definition ops_clauses (field : jsstr) (ops : FieldOps) : list FilterExpr :=
  compare_clause OpEq field (fo_eq ops) ++ compare_clause OpNeq field (fo_ne ops) ++ compare_clause OpLt field (fo_lt ops) ++
  compare_clause OpLte field (fo_lte ops) ++ compare_clause OpGt field (fo_gt ops) ++ compare_clause OpGte field (fo_gte ops) ++
  match fo_in ops with Some vs => [FOr (List.map (FCompare OpEq field) vs)] | None => [] end ++
  match fo_notIn ops with Some vs => [FAnd (List.map (FCompare OpNeq field) vs)] | None => [] end ++
  match fo_isNull ops with Some b => [FCompare (if b then OpEq else OpNeq) field VNull] | None => [] end.
Definition compileField (field : jsstr) (c : Condition WhereInput) : res FilterExpr :=
  match c with
  | CBare v => Ok (FCompare OpEq field v)
  | CRel _ _ => Err (PlainError "relation clause in a field predicate")
  | COps ops => match fo_unknown ops with [] => Ok (conj_of (ops_clauses field ops)) | _ => Err (PlainError "unknown field operator") end
  end.
Fixpoint compileNode (w : WhereInput) : res FilterExpr :=
  match w with
  | WAnd ws => let! cs := traverse compileNode ws in Ok (FAnd cs)
  | WOr ws => let! cs := traverse compileNode ws in Ok (FOr cs)
  | WNot w => let! c := compileNode w in Ok (FNot c)
  | WFields fs => let! cs := traverse (λ '(field, c), compileField field c) fs in Ok (conj_of cs)
  end.
Definition compileWhere (p : PolicyPredicate) : res (option FilterExpr) :=
  match p with
  | PUndefined | PBool true => Ok None
  | PBool false => Ok (Some ALWAYS_FALSE)
  | PWhere w => let! e := compileNode w in Ok (Some e)
  end.

Definition mergeReadPolicy (existing : option (list FilterExpr)) (policyExpr : option FilterExpr) : list FilterExpr :=
  default [] existing ++ match policyExpr with Some e => [e] | None => [] end.

(** ** Relations *)
Definition MAX_RELATION_DEPTH : nat := 4.

(** [row[field]] of a document *)
Definition prop (row : value) (field : jsstr) : option value := match row with VObj kvs => jm_get kvs field | _ => None end.

(** Equality of [Set] elements; the objects of two rows are never the same one. *)
Definition same_value_zero (a b : value) : bool :=
  match a with
  | VBytes _ | VArr _ | VObj _ => false
  | _ => match compareValues a b with Eq => true | _ => false end
  end.
Definition ids_add (ids : list value) (v : value) : list value := if existsb (λ x, same_value_zero x v) ids then ids else ids ++ [v].

Definition in_ids (field : jsstr) (ids : list value) : FilterExpr := FOr (List.map (FCompare OpEq field) ids).
Definition not_in_ids (field : jsstr) (ids : list value) : FilterExpr := FAnd (List.map (FCompare OpNeq field) ids).

Section resolve.
Context {St : Type}.
(** [ctx.db.query(table, "by_creation").collect()] *)
Variable collect_all : jsstr → eff St (list value).
Variable relations : RelationRegistry.

Definition childDepth (depth : nat) : res nat :=
  if Nat.ltb MAX_RELATION_DEPTH (S depth) then Err (PlainError "relation nesting exceeds max depth") else Ok (S depth).

(** The back references of the child rows that match the leaf, or with [negate] of those that fail it. *)
Definition child_refs (field : jsstr) (leaf : FilterExpr) (negate : bool) (rows : list value) : list value :=
  fold_left (λ ids row, if Bool.eqb (evaluateFilter row leaf) negate then ids
                        else match prop row field with Some ref => ids_add ids ref | None => ids end) rows [].
Definition target_ids (leaf : FilterExpr) (rows : list value) : list value :=
  fold_left (λ ids row, if evaluateFilter row leaf then match prop row (js "_id") with Some id => ids_add ids id | None => ids end else ids) rows [].

Section collect.
Variable resolveLeaf : WhereInput → jsstr → nat → eff St FilterExpr.

Definition collectToManyIds (relName : jsstr) (leaf : WhereInput) (parent : jsstr) (depth : nat) (negate : bool) : eff St (list value) :=
  match many_relation relations parent relName with
  | None => ethrow (PlainError "unknown relation")
  | Some (table, field) =>
      let^ depth := elift (childDepth depth) in
      let^ e := resolveLeaf leaf table depth in
      let^ rows := collect_all table in
      eret (child_refs field e negate rows)
  end.
Definition collectToOneIds (fieldName : jsstr) (leaf : WhereInput) (parent : jsstr) (depth : nat) : eff St (list value) :=
  match one_relation relations parent fieldName with
  | None => ethrow (PlainError "field is not a reference")
  | Some table =>
      let^ depth := elift (childDepth depth) in
      let^ e := resolveLeaf leaf table depth in
      let^ rows := collect_all table in
      eret (target_ids e rows)
  end.
Definition resolveClause (key : jsstr) (c : Condition WhereInput) (parent : jsstr) (depth : nat) : eff St FilterExpr :=
  match c with
  | CRel RSome w => let^ ids := collectToManyIds key w parent depth false in eret (in_ids (js "_id") ids)
  | CRel RNone w => let^ ids := collectToManyIds key w parent depth false in eret (not_in_ids (js "_id") ids)
  | CRel REvery w => let^ ids := collectToManyIds key w parent depth true in eret (not_in_ids (js "_id") ids)
  | CRel RIs w => let^ ids := collectToOneIds key w parent depth in eret (in_ids key ids)
  | CRel RIsNot w => let^ ids := collectToOneIds key w parent depth in eret (not_in_ids key ids)
  | c => elift (compileField key c)
  end.
End collect.

Fixpoint resolveNode (w : WhereInput) (parent : jsstr) (depth : nat) {struct w} : eff St FilterExpr :=
  match w with
  | WAnd ws => let^ cs := etraverse (λ w, resolveNode w parent depth) ws in eret (FAnd cs)
  | WOr ws => let^ cs := etraverse (λ w, resolveNode w parent depth) ws in eret (FOr cs)
  | WNot w => let^ c := resolveNode w parent depth in eret (FNot c)
  | WFields fs => let^ cs := etraverse (λ '(key, c), resolveClause resolveNode key c parent depth) fs in eret (conj_of cs)
  end.
Definition resolveWhere (p : PolicyPredicate) (parent : jsstr) : eff St (option FilterExpr) :=
  match p with
  | PUndefined | PBool true => eret None
  | PBool false => eret (Some ALWAYS_FALSE)
  | PWhere w => let^ e := resolveNode w parent 0 in eret (Some e)
  end.
End resolve.

(** ** Meaning *)
Section where_ind.
Variable P : WhereInput → Prop.
Hypothesis Hand : ∀ ws, Forall P ws → P (WAnd ws).
Hypothesis Hor : ∀ ws, Forall P ws → P (WOr ws).
Hypothesis Hnot : ∀ w, P w → P (WNot w).
Hypothesis Hfields : ∀ fs, Forall (λ kc, match kc.2 with CRel _ w => P w | _ => True end) fs → P (WFields fs).
Fixpoint where_nested_ind (w : WhereInput) : P w :=
  match w with
  | WAnd ws => Hand ws ((fix go ws := match ws return Forall P ws with [] => Forall_nil_2 _ | w :: ws => Forall_cons_2 _ _ _ (where_nested_ind w) (go ws) end) ws)
  | WOr ws => Hor ws ((fix go ws := match ws return Forall P ws with [] => Forall_nil_2 _ | w :: ws => Forall_cons_2 _ _ _ (where_nested_ind w) (go ws) end) ws)
  | WNot w => Hnot w (where_nested_ind w)
  | WFields fs => Hfields fs ((fix go fs := match fs return Forall (λ kc, match kc.2 with CRel _ w => P w | _ => True end) fs with
      | [] => Forall_nil_2 _
      | kc :: fs => Forall_cons_2 _ _ _
          (match kc.2 as c return match c with CRel _ w => P w | _ => True end with CRel _ w => where_nested_ind w | _ => I end) (go fs)
      end) fs)
  end.
End where_ind.

(** [field op v] on a document; a missing field satisfies no comparison. *)
Definition field_cmp (op : ComparisonOp) (row : value) (field : jsstr) (v : value) : bool :=
  match evaluateFieldPath row field with Some x => op_holds op (compareValues x v) | None => false end.
Definition op_given (op : ComparisonOp) (row : value) (field : jsstr) (v : option value) : bool :=
  match v with Some v => field_cmp op row field v | None => true end.
Definition ops_hold (row : value) (field : jsstr) (o : FieldOps) : bool :=
  op_given OpEq row field (fo_eq o) && op_given OpNeq row field (fo_ne o) && op_given OpLt row field (fo_lt o) &&
  op_given OpLte row field (fo_lte o) && op_given OpGt row field (fo_gt o) && op_given OpGte row field (fo_gte o) &&
  match fo_in o with Some vs => existsb (field_cmp OpEq row field) vs | None => true end &&
  match fo_notIn o with Some vs => forallb (field_cmp OpNeq row field) vs | None => true end &&
  match fo_isNull o with Some b => field_cmp (if b then OpEq else OpNeq) row field VNull | None => true end.

Section meaning.
Variable table : jsstr → list value.   (** the rows of a table *)
Variable relations : RelationRegistry.

(** Some related row that satisfies the leaf is referenced by, or refers to, this one. *)
Definition linked (field : jsstr) (leaf : value → bool) (ref : jsstr) (rows : list value) (row : value) : bool :=
  existsb (λ r, leaf r && match prop r ref with Some x => field_cmp OpEq row field x | None => false end) rows.
(** This row differs from what every related row that satisfies the leaf refers to. *)
Definition unlinked (field : jsstr) (leaf : value → bool) (ref : jsstr) (rows : list value) (row : value) : bool :=
  forallb (λ r, negb (leaf r) || match prop r ref with Some x => field_cmp OpNeq row field x | None => true end) rows.

(** What a clause becomes: a test of the row against the related rows' references. *)
Fixpoint semi_join (w : WhereInput) (parent : jsstr) (row : value) {struct w} : bool :=
  match w with
  | WAnd ws => forallb (λ w, semi_join w parent row) ws
  | WOr ws => existsb (λ w, semi_join w parent row) ws
  | WNot w => negb (semi_join w parent row)
  | WFields fs => forallb (λ '(key, c),
      match c with
      | CBare v => field_cmp OpEq row key v
      | COps ops => ops_hold row key ops
      | CRel k w =>
          let child := default ([], []) (many_relation relations parent key) in
          let target := default [] (one_relation relations parent key) in
          match k with
          | RSome => linked (js "_id") (semi_join w child.1) child.2 (table child.1) row
          | RNone => unlinked (js "_id") (semi_join w child.1) child.2 (table child.1) row
          | REvery => unlinked (js "_id") (λ r, negb (semi_join w child.1 r)) child.2 (table child.1) row
          | RIs => linked key (semi_join w target) (js "_id") (table target) row
          | RIsNot => unlinked key (semi_join w target) (js "_id") (table target) row
          end
      end) fs
  end.

(** The row has the reference: the field is there and not null. *)
Definition refers (row : value) (field : jsstr) : bool :=
  match evaluateFieldPath row field with None | Some VNull => false | Some _ => true end.

(** What a predicate is documented to mean ([components/authz/README.md]): as [semi_join], except that [isNot] wants a referenced row,
    so that a row without the reference is excluded from it as it is from [is]. *)
Fixpoint meaning (w : WhereInput) (parent : jsstr) (row : value) {struct w} : bool :=
  match w with
  | WAnd ws => forallb (λ w, meaning w parent row) ws
  | WOr ws => existsb (λ w, meaning w parent row) ws
  | WNot w => negb (meaning w parent row)
  | WFields fs => forallb (λ '(key, c),
      match c with
      | CBare v => field_cmp OpEq row key v
      | COps ops => ops_hold row key ops
      | CRel k w =>
          let child := default ([], []) (many_relation relations parent key) in
          let target := default [] (one_relation relations parent key) in
          match k with
          | RSome => linked (js "_id") (meaning w child.1) child.2 (table child.1) row
          | RNone => unlinked (js "_id") (meaning w child.1) child.2 (table child.1) row
          | REvery => unlinked (js "_id") (λ r, negb (meaning w child.1 r)) child.2 (table child.1) row
          | RIs => linked key (meaning w target) (js "_id") (table target) row
          | RIsNot => refers row key && unlinked key (meaning w target) (js "_id") (table target) row
          end
      end) fs
  end.

(** Every row the predicate tests [isNot] on has the reference: the row itself, and the related rows the leaves are tested on. *)
Fixpoint referenced (w : WhereInput) (parent : jsstr) (row : value) {struct w} : bool :=
  match w with
  | WAnd ws | WOr ws => forallb (λ w, referenced w parent row) ws
  | WNot w => referenced w parent row
  | WFields fs => forallb (λ '(key, c),
      match c with
      | CRel k w =>
          let child := (default ([], []) (many_relation relations parent key)).1 in
          let target := default [] (one_relation relations parent key) in
          match k with
          | RSome | RNone | REvery => forallb (referenced w child) (table child)
          | RIs => forallb (referenced w target) (table target)
          | RIsNot => refers row key && forallb (referenced w target) (table target)
          end
      | _ => true
      end) fs
  end.

(** The predicates that resolve: known operators, declared relations, [n] levels of nesting left. *)
Fixpoint resolvable (w : WhereInput) (parent : jsstr) (n : nat) {struct w} : bool :=
  match w with
  | WAnd ws | WOr ws => forallb (λ w, resolvable w parent n) ws
  | WNot w => resolvable w parent n
  | WFields fs => forallb (λ '(key, c),
      match c with
      | CBare _ => true
      | COps ops => match fo_unknown ops with [] => true | _ => false end
      | CRel k w =>
          match n with
          | O => false
          | S n => match k with
                   | RSome | RNone | REvery => match many_relation relations parent key with Some (t, _) => resolvable w t n | None => false end
                   | RIs | RIsNot => match one_relation relations parent key with Some t => resolvable w t n | None => false end
                   end
          end
      end) fs
  end.

Lemma linked_ext field (f g : value → bool) ref rows row : (∀ r, r ∈ rows → f r = g r) → linked field f ref rows row = linked field g ref rows row.
Proof. intros H. unfold linked. induction rows as [|r rows IH]; [done|]. cbn. rewrite H by left. rewrite IH; [done|]. intros x Hx. apply H. by right. Qed.
Lemma unlinked_ext field (f g : value → bool) ref rows row : (∀ r, r ∈ rows → f r = g r) → unlinked field f ref rows row = unlinked field g ref rows row.
Proof. intros H. unfold unlinked. induction rows as [|r rows IH]; [done|]. cbn. rewrite H by left. rewrite IH; [done|]. intros x Hx. apply H. by right. Qed.
Lemma forallb_elem {A} (f : A → bool) l : forallb f l = true → ∀ x, x ∈ l → f x = true.
Proof. rewrite forallb_forall. intros H x Hx. by apply H, list_elem_of_In. Qed.

(** With the references present the semi-joins mean what is documented. *)
Lemma semi_join_meaning w : ∀ parent row, referenced w parent row = true → semi_join w parent row = meaning w parent row.
Proof.
  induction w as [ws IH|ws IH|w IH|fs IH] using where_nested_ind; intros parent row; cbn [referenced semi_join meaning].
  - induction IH as [|w ws Hw _ IHws]; [done|]. cbn. intros [H1 H2]%andb_true_iff. by rewrite Hw, IHws.
  - induction IH as [|w ws Hw _ IHws]; [done|]. cbn. intros [H1 H2]%andb_true_iff. by rewrite Hw, IHws.
  - intros H. by rewrite IH.
  - induction IH as [|[key c] fs Hc _ IHfs]; [done|]. cbn [forallb]. intros [H1 H2]%andb_true_iff. rewrite IHfs by done. f_equal.
    cbn in Hc. destruct c as [v|ops|[] w]; [done..| | | | |].
    all: try (apply andb_true_iff in H1 as [H0 H1]; rewrite H0; cbn [andb]).
    all: pose proof (forallb_elem _ _ H1) as Hr; apply linked_ext || apply unlinked_ext; intros r Hin; by rewrite Hc by (by apply Hr).
Qed.
End meaning.

(** ** Correctness *)
Definition cmp_proper (f : value → bool) : Prop := ∀ a b, compareValues a b = Eq → f a = f b.

Lemma field_cmp_proper op row field : cmp_proper (field_cmp op row field).
Proof.
  intros a b E. unfold field_cmp. destruct (evaluateFieldPath row field) as [x|]; [|done]. f_equal.
  rewrite (cmp_opp compareValues a x), (cmp_opp compareValues b x). f_equal. by apply (cmp_subst compareValues).
Qed.
Lemma ids_add_existsb f ids v : cmp_proper f → existsb f (ids_add ids v) = existsb f ids || f v.
Proof.
  intros Hf. unfold ids_add. destruct (existsb _ ids) eqn:E.
  - apply existsb_exists in E as (x & Hx & E). assert (Ec : compareValues x v = Eq).
    { unfold same_value_zero in E. by destruct x; try done; destruct (compareValues _ v). }
    destruct (f v) eqn:Ev; [|by rewrite orb_false_r]. rewrite orb_true_r. apply existsb_exists. exists x. split; [done|]. by rewrite (Hf _ _ Ec).
  - rewrite existsb_app. cbn. by rewrite orb_false_r.
Qed.

Section refs.
Context (f : value → bool) (Hf : cmp_proper f).
Lemma refs_existsb (keep : value → bool) ref rows ids :
  existsb f (fold_left (λ ids r, if keep r then match prop r ref with Some x => ids_add ids x | None => ids end else ids) rows ids) =
    existsb f ids || existsb (λ r, keep r && match prop r ref with Some x => f x | None => false end) rows.
Proof.
  revert ids. induction rows as [|r rows IH]; intros ids; cbn [fold_left existsb]; [by rewrite orb_false_r|]. rewrite IH.
  destruct (keep r); [|done]. destruct (prop r ref) as [x|]; [|done]. cbn. by rewrite ids_add_existsb, <-orb_assoc.
Qed.
Lemma child_refs_existsb field leaf negate rows : existsb f (child_refs field leaf negate rows) =
  existsb (λ r, negb (Bool.eqb (evaluateFilter r leaf) negate) && match prop r field with Some x => f x | None => false end) rows.
Proof.
  unfold child_refs. rewrite <-(orb_false_l (existsb _ rows)), <-(refs_existsb _ _ rows []). f_equal.
  generalize (@nil value). induction rows as [|r rows IH]; intros ids; [done|]. cbn [fold_left]. rewrite IH.
  by destruct (Bool.eqb (evaluateFilter r leaf) negate).
Qed.
Lemma target_ids_existsb leaf rows : existsb f (target_ids leaf rows) =
  existsb (λ r, evaluateFilter r leaf && match prop r (js "_id") with Some x => f x | None => false end) rows.
Proof. unfold target_ids. by rewrite refs_existsb. Qed.
End refs.

Lemma forallb_negb {A} (f : A → bool) l : forallb f l = negb (existsb (λ x, negb (f x)) l).
Proof. induction l as [|x l IH]; [done|]. cbn. rewrite IH. by destruct (f x), (existsb _ l). Qed.
Lemma existsb_map {A B} (g : A → B) (f : B → bool) l : existsb f (List.map g l) = existsb (λ x, f (g x)) l.
Proof. induction l as [|x l IH]; [done|]. cbn. by rewrite IH. Qed.
Lemma forallb_map {A B} (g : A → B) (f : B → bool) l : forallb f (List.map g l) = forallb (λ x, f (g x)) l.
Proof. induction l as [|x l IH]; [done|]. cbn. by rewrite IH. Qed.
Lemma existsb_ext_in {A} (f g : A → bool) l : (∀ x, f x = g x) → existsb f l = existsb g l.
Proof. intros H. induction l as [|x l IH]; [done|]. cbn. by rewrite H, IH. Qed.

Lemma conj_of_eval row cs : evaluateFilter row (conj_of cs) = forallb (evaluateFilter row) cs.
Proof. destruct cs as [|c [|c' cs]]; [done| |done]. cbn. by rewrite andb_true_r. Qed.
Lemma compare_clause_eval row op field v : forallb (evaluateFilter row) (compare_clause op field v) = op_given op row field v.
Proof. destruct v; [|done]. cbn. by rewrite andb_true_r. Qed.
Lemma in_ids_eval row field ids : evaluateFilter row (in_ids field ids) = existsb (field_cmp OpEq row field) ids.
Proof. cbn. by rewrite existsb_map. Qed.
Lemma not_in_ids_eval row field ids : evaluateFilter row (not_in_ids field ids) = forallb (field_cmp OpNeq row field) ids.
Proof. cbn. by rewrite forallb_map. Qed.
Lemma ops_clauses_eval row field ops : forallb (evaluateFilter row) (ops_clauses field ops) = ops_hold row field ops.
Proof.
  unfold ops_clauses, ops_hold. rewrite !forallb_app, !compare_clause_eval, !andb_assoc. f_equal; [f_equal; [f_equal|]|].
  - destruct (fo_in ops) as [vs|]; [|done]. cbn -[evaluateFilter]. rewrite andb_true_r. apply in_ids_eval.
  - destruct (fo_notIn ops) as [vs|]; [|done]. cbn -[evaluateFilter]. rewrite andb_true_r. apply not_in_ids_eval.
  - destruct (fo_isNull ops) as [b|]; [|done]. cbn. by rewrite andb_true_r.
Qed.

(** The semi-joins. *)
Lemma linked_ids field leaf ref rows row ids (keep : value → bool) :
  (∀ f, cmp_proper f → existsb f ids = existsb (λ r, keep r && match prop r ref with Some x => f x | None => false end) rows) →
  (∀ r, keep r = leaf r) → evaluateFilter row (in_ids field ids) = linked field leaf ref rows row.
Proof. intros He Hk. rewrite in_ids_eval, He by apply field_cmp_proper. apply existsb_ext_in. intros r. by rewrite Hk. Qed.
Lemma unlinked_ids field leaf ref rows row ids (keep : value → bool) :
  (∀ f, cmp_proper f → existsb f ids = existsb (λ r, keep r && match prop r ref with Some x => f x | None => false end) rows) →
  (∀ r, keep r = leaf r) → evaluateFilter row (not_in_ids field ids) = unlinked field leaf ref rows row.
Proof.
  intros He Hk. rewrite not_in_ids_eval, forallb_negb, He.
  - unfold unlinked. rewrite forallb_negb. f_equal. apply existsb_ext_in. intros r. rewrite Hk. by destruct (leaf r), (prop r ref).
  - intros a b E. f_equal. by apply field_cmp_proper.
Qed.

Section correct.
Context {St : Type} (collect_all : jsstr → eff St (list value)) (relations : RelationRegistry).
(** What the reader of a policy sees does not depend on what was read before: the rows of its snapshot. *)
Context (I : St → Prop) (table : jsstr → list value).
Hypothesis Hrows : ∀ t, yields I (collect_all t) (λ rows, rows = table t).
#[local] Abbreviation resolveNode := (resolveNode collect_all relations).
#[local] Abbreviation semi_join := (semi_join table relations).
#[local] Abbreviation resolvable := (resolvable relations).

Definition resolves (w : WhereInput) : Prop := ∀ parent depth, (depth ≤ MAX_RELATION_DEPTH)%nat →
  resolvable w parent (MAX_RELATION_DEPTH - depth) = true →
  yields I (resolveNode w parent depth) (λ e, ∀ row, evaluateFilter row e = semi_join w parent row).

Lemma resolve_list ws parent depth : Forall resolves ws → (depth ≤ MAX_RELATION_DEPTH)%nat →
  forallb (λ w, resolvable w parent (MAX_RELATION_DEPTH - depth)) ws = true →
  yields I (etraverse (λ w, resolveNode w parent depth) ws) (Forall2 (λ w e, ∀ row, evaluateFilter row e = semi_join w parent row) ws).
Proof.
  intros Hws Hd Hr. rewrite forallb_forall in Hr. rewrite Forall_forall in Hws. apply yields_traverse.
  intros w Hw. apply Hws; [done|done|]. by apply Hr, list_elem_of_In.
Qed.
Lemma eval_list (g : FilterExpr → bool) (h : WhereInput → bool) ws es : Forall2 (λ w e, g e = h w) ws es →
  forallb g es = forallb h ws ∧ existsb g es = existsb h ws.
Proof. induction 1 as [|w e ws es E _ [IH1 IH2]]; [done|]. cbn. by rewrite E, IH1, IH2. Qed.

(** The leaf of a relation clause and the rows it is tested on. *)
Lemma resolve_leaf w t n depth (R : list value → Prop) (g : FilterExpr → list value → list value) : resolves w →
  (MAX_RELATION_DEPTH - depth)%nat = S n → resolvable w t n = true →
  (∀ e, (∀ row, evaluateFilter row e = semi_join w t row) → R (g e (table t))) →
  yields I (let^ depth := elift (childDepth depth) in let^ e := resolveNode w t depth in let^ rows := collect_all t in eret (g e rows)) R.
Proof.
  intros Hw En Hr HR. apply (yields_bind I _ _ (λ d, d = S depth)).
  { apply (yields_lift I _ (S depth)); [|done]. unfold childDepth. destruct (Nat.ltb_spec MAX_RELATION_DEPTH (S depth)); [lia|done]. }
  intros ? ->. apply (yields_bind I _ _ (λ e, ∀ row, evaluateFilter row e = semi_join w t row)).
  { apply Hw; [lia|]. by replace (MAX_RELATION_DEPTH - S depth)%nat with n by lia. }
  intros e He. apply (yields_bind I _ _ _ _ (Hrows t)). intros rows ->. apply yields_ret. by apply HR.
Qed.

(** What the collected references are, up to the order's equality: those of the related rows in [keep]. *)
Definition refs_of (ref : jsstr) (keep : value → bool) (rows ids : list value) : Prop :=
  ∀ f, cmp_proper f → existsb f ids = existsb (λ r, keep r && match prop r ref with Some x => f x | None => false end) rows.
Lemma refs_of_ext ref keep keep' rows ids : (∀ r, keep r = keep' r) → refs_of ref keep rows ids → refs_of ref keep' rows ids.
Proof. intros Hk H f Hf. rewrite (H f Hf). apply existsb_ext_in. intros r. by rewrite Hk. Qed.

Lemma many_ids key w parent depth n t ref negate : resolves w → (MAX_RELATION_DEPTH - depth)%nat = S n →
  many_relation relations parent key = Some (t, ref) → resolvable w t n = true →
  yields I (collectToManyIds collect_all relations resolveNode key w parent depth negate)
    (refs_of ref (λ r, negb (Bool.eqb (semi_join w t r) negate)) (table t)).
Proof.
  intros Hw En Ht Hr. unfold collectToManyIds. rewrite Ht. apply (resolve_leaf w t n); [done..|]. intros e He f Hf.
  rewrite child_refs_existsb by done. apply existsb_ext_in. intros r. by rewrite He.
Qed.
Lemma one_ids key w parent depth n t : resolves w → (MAX_RELATION_DEPTH - depth)%nat = S n →
  one_relation relations parent key = Some t → resolvable w t n = true →
  yields I (collectToOneIds collect_all relations resolveNode key w parent depth) (refs_of (js "_id") (semi_join w t) (table t)).
Proof.
  intros Hw En Ht Hr. unfold collectToOneIds. rewrite Ht. apply (resolve_leaf w t n _ _ (λ e rows, target_ids e rows)); [done..|]. intros e He f Hf.
  rewrite target_ids_existsb by done. apply existsb_ext_in. intros r. by rewrite He.
Qed.
Lemma linked_clause (m : eff St (list value)) field keep leaf ref rows (mean : value → bool) : yields I m (refs_of ref keep rows) →
  (∀ r, keep r = leaf r) → (∀ row, mean row = linked field leaf ref rows row) →
  yields I (let^ ids := m in eret (in_ids field ids)) (λ e, ∀ row, evaluateFilter row e = mean row).
Proof. intros Hm Hk E. apply (yields_bind I _ _ _ _ Hm). intros ids Hids. apply yields_ret. intros row. rewrite E. by apply (linked_ids _ _ _ _ _ _ keep). Qed.
Lemma unlinked_clause (m : eff St (list value)) field keep leaf ref rows (mean : value → bool) : yields I m (refs_of ref keep rows) →
  (∀ r, keep r = leaf r) → (∀ row, mean row = unlinked field leaf ref rows row) →
  yields I (let^ ids := m in eret (not_in_ids field ids)) (λ e, ∀ row, evaluateFilter row e = mean row).
Proof. intros Hm Hk E. apply (yields_bind I _ _ _ _ Hm). intros ids Hids. apply yields_ret. intros row. rewrite E. by apply (unlinked_ids _ _ _ _ _ _ keep). Qed.

Definition clause_meaning (key : jsstr) (c : Condition WhereInput) (parent : jsstr) (row : value) : bool := semi_join (WFields [(key, c)]) parent row.
Lemma resolve_clause key c parent depth : match c with CRel _ w => resolves w | _ => True end →
  resolvable (WFields [(key, c)]) parent (MAX_RELATION_DEPTH - depth) = true →
  yields I (resolveClause collect_all relations resolveNode key c parent depth) (λ e, ∀ row, evaluateFilter row e = clause_meaning key c parent row).
Proof.
  intros Hw. unfold clause_meaning. cbn [Policy.resolvable forallb]. rewrite andb_true_r. destruct c as [v|ops|k w]; cbn [resolveClause].
  - intros _. apply (yields_lift I _ (FCompare OpEq key v)); [done|]. intros row. cbn. by rewrite andb_true_r.
  - intros Hu. cbn [compileField]. destruct (fo_unknown ops); [|done]. eapply yields_lift; [done|]. intros row.
    cbn [Policy.semi_join forallb]. by rewrite conj_of_eval, ops_clauses_eval, andb_true_r.
  - destruct (MAX_RELATION_DEPTH - depth)%nat as [|n] eqn:En; [done|]. intros Hr. destruct k.
    1-3: destruct (many_relation relations parent key) as [[t ref]|] eqn:Et; [|done].
    4-5: destruct (one_relation relations parent key) as [t|] eqn:Et; [|done].
    + eapply linked_clause; [by eapply many_ids| |intros row; cbn; by rewrite Et, andb_true_r]. intros r. cbn. by destruct (semi_join w t r).
    + eapply unlinked_clause; [by eapply many_ids| |intros row; cbn; by rewrite Et, andb_true_r]. intros r. cbn. by destruct (semi_join w t r).
    + eapply unlinked_clause; [by eapply many_ids| |intros row; cbn; by rewrite Et, andb_true_r]. intros r. cbn. by destruct (semi_join w t r).
    + eapply linked_clause; [by eapply one_ids| |intros row; cbn; by rewrite Et, andb_true_r]. done.
    + eapply unlinked_clause; [by eapply one_ids| |intros row; cbn; by rewrite Et, andb_true_r]. done.
Qed.

Lemma resolve_all w : resolves w.
Proof.
  induction w as [ws IH|ws IH|w IH|fs IH] using where_nested_ind; intros parent depth Hd Hr; cbn [Policy.resolveNode].
  - apply (yields_bind I _ _ _ _ (resolve_list ws parent depth IH Hd Hr)). intros es Hes. apply yields_ret. intros row.
    apply (eval_list _ (λ w, semi_join w parent row)). eapply Forall2_impl; [exact Hes|]. intros w e H. apply H.
  - apply (yields_bind I _ _ _ _ (resolve_list ws parent depth IH Hd Hr)). intros es Hes. apply yields_ret. intros row.
    apply (eval_list _ (λ w, semi_join w parent row)). eapply Forall2_impl; [exact Hes|]. intros w e H. apply H.
  - apply (yields_bind I _ _ _ _ (IH parent depth Hd Hr)). intros e He. apply yields_ret. intros row. cbn. by rewrite He.
  - cbn [Policy.resolvable] in Hr. rewrite forallb_forall in Hr. rewrite Forall_forall in IH.
    apply (yields_bind I _ _ (Forall2 (λ kc e, ∀ row, evaluateFilter row e = clause_meaning kc.1 kc.2 parent row) fs)).
    { apply yields_traverse. intros [key c] Hin. apply resolve_clause; [by apply (IH (key, c))|]. cbn [Policy.resolvable forallb]. rewrite andb_true_r.
      apply (Hr (key, c)). by apply list_elem_of_In. }
    intros es Hes. apply yields_ret. intros row. rewrite conj_of_eval. induction Hes as [|[key c] e fs es E _ IHes]; [done|]. cbn [forallb].
    rewrite E. unfold clause_meaning. cbn [Policy.semi_join forallb fst snd]. rewrite andb_true_r. f_equal. apply IHes.
    + intros kc Hkc. apply IH. by right.
    + intros kc Hkc. apply Hr. by right.
Qed.

(** C9: relation predicates mean what they are documented to mean, where the references they deny are present. A policy predicate with known
    operators, declared relations and at most four levels of relation nesting resolves, whatever else the transaction has read, to a filter.
    A row passes the filter exactly when its semi-joins hold; and when every row on which the predicate tests [isNot] has the
    reference it tests, exactly when the predicate holds as documented: a field clause by the canonical comparison,
    [some], [none] and [every] by the child rows that refer to the row, [is] and [isNot] by the row it refers to. On a row whose reference is
    null or absent [isNot] is documented to exclude the row and the filter may admit it ([isNot_admits_absent], [isNot_admits_null]). *)
Theorem resolve_meaning w parent : resolvable w parent MAX_RELATION_DEPTH = true →
  yields I (resolveNode w parent 0) (λ e, ∀ row, evaluateFilter row e = semi_join w parent row ∧
    (referenced table relations w parent row = true → evaluateFilter row e = meaning table relations w parent row)).
Proof.
  intros Hr s Hs. destruct (resolve_all w parent 0%nat ltac:(unfold MAX_RELATION_DEPTH; lia) Hr s Hs) as (s' & e & E & HI & He).
  exists s', e. split_and!; [done..|]. intros row. split; [by apply He|]. intros Href. rewrite He. by apply semi_join_meaning.
Qed.
End correct.

(** A row that has an id is unlinked exactly when it is not linked: [none] is the negation of [some], and so is [every] of a failing child. *)
Lemma unlinked_negates field leaf ref rows row x : evaluateFieldPath row field = Some x →
  unlinked field leaf ref rows row = negb (linked field leaf ref rows row).
Proof.
  intros E. unfold unlinked, linked. rewrite forallb_negb. f_equal. apply existsb_ext_in. intros r.
  destruct (leaf r), (prop r ref) as [y|]; try done. cbn. unfold field_cmp. rewrite E. by destruct (compareValues x y).
Qed.

(** ** An example *)
Definition user (id : jsstr) (banned : bool) : value := VObj [(js "_id", VStr id); (js "banned", VBool banned)].
Definition post_by (author : option value) : value :=
  VObj ((js "_id", VStr (js "p")) :: match author with Some a => [(js "author", a)] | None => [] end).
Definition demo_relations : RelationRegistry := {| toMany := []; toOne := [(js "posts", [(js "author", js "users")])] |}.
Definition demo_tables (banned : bool) (t : jsstr) : list value := if bool_decide (t = js "users") then [user (js "u") false; user (js "v") banned] else [].
Definition demo_read (banned : bool) (t : jsstr) : eff unit (list value) := eret (demo_tables banned t).
Definition not_banned : WhereInput := WFields [(js "author", CRel RIsNot (WFields [(js "banned", CBare (VBool true))]))].

Definition authored (a : string) : value := post_by (Some (VStr (js a))).
Lemma resolve_meaning_witness :
  resolvable demo_relations not_banned (js "posts") MAX_RELATION_DEPTH = true ∧
  ∃ e, resolveNode (demo_read true) demo_relations not_banned (js "posts") 0 tt = (tt, Ok e) ∧
    evaluateFilter (authored "u") e = true ∧ evaluateFilter (authored "v") e = false.
Proof.
  split; [reflexivity|]. destruct (resolve_meaning (demo_read true) demo_relations (λ _, True) (demo_tables true)
    (λ t s _, ex_intro _ s (ex_intro _ (demo_tables true t) (conj eq_refl (conj Logic.I eq_refl)))) not_banned (js "posts") eq_refl tt Logic.I) as ([] & e & E & _ & He).
  exists e. split; [exact E|]. destruct (He (authored "u")) as [_ ->]; [|vm_compute; reflexivity]. destruct (He (authored "v")) as [_ ->]; [|vm_compute; reflexivity].
  split; vm_compute; reflexivity.
Defined.

(** The filter of [isNot] on rows without the reference, which are documented to be excluded: an absent one is admitted while
    no target matches the leaf, a null one always. *)
Definition passes (banned : bool) (row : value) : option bool :=
  match (resolveNode (demo_read banned) demo_relations not_banned (js "posts") 0 tt).2 with Ok e => Some (evaluateFilter row e) | Err _ => None end.
Lemma isNot_admits_absent : passes false (post_by None) = Some true ∧ passes true (post_by None) = Some false ∧
  meaning (demo_tables false) demo_relations not_banned (js "posts") (post_by None) = false.
Proof. split_and!; vm_compute; reflexivity. Qed.
Lemma isNot_admits_null : passes true (post_by (Some VNull)) = Some true ∧
  meaning (demo_tables true) demo_relations not_banned (js "posts") (post_by (Some VNull)) = false.
Proof. split_and!; vm_compute; reflexivity. Qed.
