(* ===== verification/Kernel.v ===== *)
(** The kernel of [packages/executor/src/kernel.ts]: the handlers behind the syscalls of user code, over the transaction, the query engine and
    the catalog ([catalog.ts]), with the buffer of global writes ([global-txn.ts]). A handler is an effect on the state of one attempt; the JSON
    text of a syscall is taken as the value it stands for. An error is its code, without its message. *)
From S2P Require Import Prelude Effects Numbers Values Json Validators IndexKeys Ranges IdCodec DocStore ShardRouting MvccStore Transactor QueryEngine Policy.

(** ** Errors ([packages/errors]) *)
Definition ForbiddenOperationError : exn := UserError "FORBIDDEN".
Definition FunctionNotFoundError : exn := UserError "FUNCTION_NOT_FOUND".
Definition DocumentNotFoundError : exn := UserError "DOCUMENT_NOT_FOUND".
Definition DocumentValidationError : exn := UserError "DOCUMENT_VALIDATION".
Definition InvalidClientIdError : exn := UserError "INVALID_CLIENT_ID".
Definition IdAlreadyInUseError : exn := UserError "ID_ALREADY_IN_USE".
Definition CrossStoreWriteError : exn := PlainError "CrossStoreWriteError".

(** ** The catalog *)
Inductive TableMode := MRoot | MShard | MGlobal.
Record TableMeta := {
  tm_name : jsstr; tm_tableNumber : Z; tm_documentValidator : option validator; tm_schemaValidation : bool;
  tm_shardKey : option jsstr; tm_mode : TableMode }.
Record SimpleIndexCatalog := {
  tables : list (jsstr * TableMeta); tablesByNumber : list (Z * TableMeta);
  cat_indexes : list (jsstr * IndexSpec); indexesByTable : list (jsstr * list IndexSpec) }.
Definition new_SimpleIndexCatalog : SimpleIndexCatalog := {| tables := []; tablesByNumber := []; cat_indexes := []; indexesByTable := [] |}.

(** A string that is not empty, as a condition reads it. *)
Definition truthy (s : option jsstr) : option jsstr := match s with Some (c :: t) => Some (c :: t) | _ => None end.
Definition document_validator (schemaValidation : bool) (documentType : option ValidatorJSON) : res (option validator) :=
  match documentType with
  | Some (VJObject fs) => if schemaValidation then let! v := validatorFromJson (VJObject fs) in Ok (Some v) else Ok None
  | _ => Ok None
  end.
Definition addTable (c : SimpleIndexCatalog) (name : jsstr) (tableNumber : Z) (documentType : option ValidatorJSON)
    (schemaValidation : option bool) (shardKey : option jsstr) (isGlobal : bool) : res SimpleIndexCatalog :=
  let enabled := default true schemaValidation in
  let! dv := document_validator enabled documentType in
  let mode := if isGlobal then MGlobal else match truthy shardKey with Some _ => MShard | None => MRoot end in
  let meta := {| tm_name := name; tm_tableNumber := tableNumber; tm_documentValidator := dv; tm_schemaValidation := enabled;
                 tm_shardKey := shardKey; tm_mode := mode |} in
  Ok {| tables := jm_set (tables c) name meta; tablesByNumber := jm_set (tablesByNumber c) tableNumber meta; cat_indexes := cat_indexes c;
        indexesByTable := if jm_has (indexesByTable c) name then indexesByTable c else jm_set (indexesByTable c) name [] |}.
Definition index_name (table index : jsstr) : jsstr := table ++ 46 :: index.
Definition addIndex (c : SimpleIndexCatalog) (spec : IndexSpec) : res SimpleIndexCatalog :=
  let! c := if jm_has (tables c) (is_table spec) then Ok c
            else addTable c (is_table spec) (is_tableNumber spec) None None None false in
  match jm_get (indexesByTable c) (is_table spec) with
  | None => Err TypeError
  | Some l => Ok {| tables := tables c; tablesByNumber := tablesByNumber c;
                    cat_indexes := jm_set (cat_indexes c) (index_name (is_table spec) (is_index spec)) spec;
                    indexesByTable := jm_set (indexesByTable c) (is_table spec) (l ++ [spec]) |}
  end.
Definition getTable (c : SimpleIndexCatalog) (name : jsstr) : option TableMeta := jm_get (tables c) name.
Definition getTableByNumber (c : SimpleIndexCatalog) (n : Z) : option TableMeta := jm_get (tablesByNumber c) n.
Definition getIndex (c : SimpleIndexCatalog) (table index : jsstr) : option IndexSpec := jm_get (cat_indexes c) (index_name table index).
Definition indexesForTable (c : SimpleIndexCatalog) (table : jsstr) : list IndexSpec := default [] (jm_get (indexesByTable c) table).

(** [getFullTableName] and the component path of [parseFullTableName] ([id-codec/src/table-registry.ts]) *)
Definition getFullTableName (name componentPath : jsstr) : jsstr := match componentPath with [] => name | _ => componentPath ++ 47 :: name end.
Fixpoint componentPath (fullName : jsstr) : jsstr :=
  match fullName with
  | [] => []
  | c :: rest => if existsb (Z.eqb 47) rest then c :: componentPath rest else []
  end.

(** ** Global writes *)
Inductive GlobalWriteOp :=
  | GInsert (table : jsstr) (doc : value)
  | GReplace (table id : jsstr) (doc : value)
  | GDelete (table id : jsstr).
Record GlobalTxn := { ops : list GlobalWriteOp; overlay : list (jsstr * option value) }.
Definition new_GlobalTxn : GlobalTxn := {| ops := []; overlay := [] |}.
(** What the buffer uses of [D1DocStore]. *)
Record D1Store := {
  d1_get : jsstr → jsstr → res (option value);
  d1_queryByIndex : jsstr → jsstr → list (jsstr * value) → option Z → res (list value) }.

Definition global_key (table id : jsstr) : jsstr := table ++ 0 :: id.
(** [String(doc._id)]; the ids the kernel stages are strings. *)
Definition id_string (doc : value) : jsstr := match prop doc (js "_id") with Some (VStr s) => s | _ => js "undefined" end.
Definition set_prop (doc : value) (key : jsstr) (v : value) : value := match doc with VObj kvs => VObj (jm_set kvs key v) | _ => doc end.
Definition stageInsert (g : GlobalTxn) (table : jsstr) (doc : value) : GlobalTxn :=
  {| ops := ops g ++ [GInsert table doc]; overlay := jm_set (overlay g) (global_key table (id_string doc)) (Some doc) |}.
Definition stageReplace (g : GlobalTxn) (table id : jsstr) (doc : value) : GlobalTxn :=
  {| ops := ops g ++ [GReplace table id doc]; overlay := jm_set (overlay g) (global_key table id) (Some (set_prop doc (js "_id") (VStr id))) |}.
Definition stageDelete (g : GlobalTxn) (table id : jsstr) : GlobalTxn :=
  {| ops := ops g ++ [GDelete table id]; overlay := jm_set (overlay g) (global_key table id) None |}.
Definition global_get (d1 : D1Store) (g : GlobalTxn) (table id : jsstr) : res (option value) :=
  match jm_get (overlay g) (global_key table id) with Some doc => Ok doc | None => d1_get d1 table id end.

(** [===] of two values; the objects of two documents are never the same one. *)
Definition strict_equal (a b : value) : bool :=
  match a, b with
  | VNum x, VNum y => negb (isNaN x) && negb (isNaN y) && match compareNumbers x y with Eq => true | _ => false end
  | VBytes _, _ | VArr _, _ | VObj _, _ => false
  | _, _ => match compareValues a b with Eq => true | _ => false end
  end.
Definition eq_matches (eq : list (jsstr * value)) (doc : value) : bool :=
  forallb (λ '(f, v), match prop doc f with Some x => strict_equal x v | None => false end) eq.
Definition global_queryByIndex (d1 : D1Store) (g : GlobalTxn) (table index : jsstr) (eq : list (jsstr * value)) (limit : option Z) : res (list value) :=
  let! base := d1_queryByIndex d1 table index eq (option_map (λ n, n + Z.of_nat (length (ops g))) limit) in
  let staged := omap (λ '(k, doc), if starts_with (table ++ [0]) k then match doc with Some d => if eq_matches eq d then Some d else None | None => None end else None) (overlay g) in
  let survivors := List.filter (λ row, negb (jm_has (overlay g) (global_key table (id_string row)))) base in
  let result := staged ++ survivors in
  Ok (match limit with Some n => slice0 result n | None => result end).
Definition hasWrites (g : GlobalTxn) : bool := Nat.ltb 0 (length (ops g)).

(** ** The state of an attempt *)
Record CollectTrace := {
  ct_keyspace : jsstr; ct_bounds : SerializedKeyRange; ct_filters : list FilterExpr; ct_order : Order; ct_fields : list jsstr;
  ct_docs : list json; ct_hadReadPolicy : bool; ct_hadLimit : bool; ct_token : Z }.
Record PaginateTrace := {
  pt_keyspace : jsstr; pt_bounds : SerializedKeyRange; pt_filters : list FilterExpr; pt_order : Order; pt_fields : list jsstr;
  pt_hadReadPolicy : bool; pt_token : Z; pt_nextCursor : option jsstr; pt_hasMore : bool; pt_scanCapped : bool }.

Record KState := {
  txn : Ctx; logs : list jsstr; globalTxn : option GlobalTxn; wroteLocal : bool; wroteGlobal : bool;
  globalReads : list jsstr; collectTrace : list CollectTrace; paginateTrace : list PaginateTrace;
  collectTokenSeq : Z; drawn : nat;  (** ids the generator has yielded *)
  ruleContext : option (res value)  (** [rcCache], what the built rule context holds *) }.
Definition with_txn (s : KState) (c : Ctx) : KState :=
  {| txn := c; logs := logs s; globalTxn := globalTxn s; wroteLocal := wroteLocal s; wroteGlobal := wroteGlobal s; globalReads := globalReads s;
     collectTrace := collectTrace s; paginateTrace := paginateTrace s; collectTokenSeq := collectTokenSeq s; drawn := drawn s; ruleContext := ruleContext s |}.
Definition with_stores (s : KState) (g : option GlobalTxn) (wl wg : bool) : KState :=
  {| txn := txn s; logs := logs s; globalTxn := g; wroteLocal := wl; wroteGlobal := wg; globalReads := globalReads s;
     collectTrace := collectTrace s; paginateTrace := paginateTrace s; collectTokenSeq := collectTokenSeq s; drawn := drawn s; ruleContext := ruleContext s |}.
Definition with_traces (s : KState) (ct : list CollectTrace) (pt : list PaginateTrace) (n : Z) : KState :=
  {| txn := txn s; logs := logs s; globalTxn := globalTxn s; wroteLocal := wroteLocal s; wroteGlobal := wroteGlobal s; globalReads := globalReads s;
     collectTrace := ct; paginateTrace := pt; collectTokenSeq := n; drawn := drawn s; ruleContext := ruleContext s |}.
Definition with_notes (s : KState) (l : list jsstr) (gr : list jsstr) (n : nat) : KState :=
  {| txn := txn s; logs := l; globalTxn := globalTxn s; wroteLocal := wroteLocal s; wroteGlobal := wroteGlobal s; globalReads := gr;
     collectTrace := collectTrace s; paginateTrace := paginateTrace s; collectTokenSeq := collectTokenSeq s; drawn := n; ruleContext := ruleContext s |}.

Definition with_rule (s : KState) (r : res value) : KState :=
  {| txn := txn s; logs := logs s; globalTxn := globalTxn s; wroteLocal := wroteLocal s; wroteGlobal := wroteGlobal s; globalReads := globalReads s;
     collectTrace := collectTrace s; paginateTrace := paginateTrace s; collectTokenSeq := collectTokenSeq s; drawn := drawn s; ruleContext := Some r |}.

(** What a [KernelContext] adds to the state its contexts share: [k_enforce] when it has a rule context, [k_traced] when
    the traces are armed, [k_notesGlobal] when [globalReads] is. *)
Record KernelContext := {
  k_dbWrite : bool; k_namespace : jsstr; k_privileged : bool; k_shardId : jsstr; k_numShards : Z; k_shardDeclared : bool;
  k_enforce : bool; k_traced : bool; k_notesGlobal : bool }.

Record QuerySpec := {
  qs_table : jsstr; qs_index : jsstr; qs_range : option (list (jsstr * QueryOperator * json)); qs_order : option Order;
  qs_filters : option (list (ComparisonOp * jsstr * json)); qs_limit : option Z }.
Inductive syscall :=
  | SGet (id : jsstr)
  | SInsert (table : jsstr) (v : json)
  | SReplace (id : jsstr) (v : json)
  | SDelete (id : jsstr)
  | SQuery (spec : QuerySpec)
  | SPaginate (spec : QuerySpec) (cursor : option jsstr) (pageSize : Z) (maxScan : option Z)
  | SLog (arg : jsstr).
Inductive reply :=
  | RDoc (doc : option json)
  | RId (id : jsstr)
  | REmpty
  | RDocs (docs : list json) (collectToken : option Z)
  | RPage (page : list json) (nextCursor : option jsstr) (hasMore scanCapped : bool) (brandToken : option Z)
  | RNull.

(** ** Documents *)
(** The own enumerable properties a destructuring or a spread copies. *)
Fixpoint indexed (i : Z) {A} (l : list A) (f : A → value) : list (jsstr * value) :=
  match l with [] => [] | x :: l => (string_of_int i, f x) :: indexed (i + 1) l f end.
Definition own_props (v : value) : list (jsstr * value) :=
  match v with
  | VObj kvs => kvs
  | VArr l => indexed 0 l (λ x, x)
  | VStr s => indexed 0 s (λ c, VStr [c])
  | _ => []
  end.
Definition destructurable (v : value) : res unit := match v with VNull => Err TypeError | _ => Ok tt end.
Definition drop_key (k : jsstr) (kvs : list (jsstr * value)) : list (jsstr * value) := jm_delete kvs k.
Definition creation_time (ts : Z) : value := VNum (mknum (num_of_Z ts)).
(** [{ ...props, _id, _creationTime }] *)
Definition stamped (props : list (jsstr * value)) (id : jsstr) (created : value) : value :=
  VObj (jm_set (jm_set props (js "_id") (VStr id)) (js "_creationTime") created).

Definition validateDocumentForWrite (meta : option TableMeta) (fields : list (jsstr * value)) : res unit :=
  match meta ≫= tm_documentValidator with
  | None => Ok tt
  | Some vd => match validate vd (VObj fields) with [] => Ok tt | _ => Err DocumentValidationError end
  end.

Definition shard_of (v : value) (numShards : Z) : res ShardId := match shardIdForKeyValue v numShards with Some r => r | None => Err RangeError end.
Definition shardOfDoc (ctx : KernelContext) (key : jsstr) (doc : value) : res ShardId :=
  match prop doc key with Some v => shard_of v (k_numShards ctx) | None => Err TypeError end.
Definition sharding (meta : TableMeta) : option jsstr := truthy (tm_shardKey meta).

(** ** Guards *)
Inductive write_op := OpInsert | OpReplace | OpDelete.

Definition requireOwnTable (ctx : KernelContext) (fullName : jsstr) : res unit :=
  if k_privileged ctx then Ok tt
  else if bool_decide (componentPath fullName = k_namespace ctx) then Ok tt else Err ForbiddenOperationError.
Definition forbid (b : bool) : res unit := if b then Err ForbiddenOperationError else Ok tt.

Definition enforceShardWrite (ctx : KernelContext) (meta : TableMeta) (doc : value) (op : write_op) : res unit :=
  match sharding meta with
  | None => forbid (match op with OpInsert => false | _ => bool_decide (k_shardId ctx ≠ DEFAULT_SHARD) end)
  | Some key =>
      let! _ := forbid (negb (k_privileged ctx) && negb (k_shardDeclared ctx)) in
      let! docShard := shardOfDoc ctx key doc in
      forbid (bool_decide (docShard ≠ k_shardId ctx))
  end.
Definition enforceShardKeyImmutable (ctx : KernelContext) (meta : TableMeta) (oldDoc newDoc : value) : res unit :=
  match sharding meta with
  | Some key =>
      if k_privileged ctx then Ok tt
      else
        let field (d : value) : res bytes := match prop d key with Some v => encodeIndexKey [v] | None => Err TypeError end in
        let! before := field oldDoc in
        let! after := field newDoc in
        match compareKeyBytes before after with Eq => Ok tt | _ => Err ForbiddenOperationError end
  | None => Ok tt
  end.
Definition enforceShardGet (ctx : KernelContext) (meta : TableMeta) (doc : value) : res unit :=
  match sharding meta with
  | Some key =>
      if k_privileged ctx || negb (k_shardDeclared ctx) then Ok tt
      else let! docShard := shardOfDoc ctx key doc in forbid (bool_decide (docShard ≠ k_shardId ctx))
  | None => Ok tt
  end.
Definition is_shard_eq (key : jsstr) (r : jsstr * QueryOperator * json) : bool :=
  bool_decide (r.1.1 = key) && match r.1.2 with QEq => true | _ => false end.
Definition enforceShardScan (ctx : KernelContext) (meta : option TableMeta) (index : IndexSpec) (range : option (list (jsstr * QueryOperator * json))) : res unit :=
  if negb (k_shardDeclared ctx) || k_privileged ctx then Ok tt
  else match meta ≫= sharding with
  | None => Ok tt
  | Some key =>
      let! _ := forbid (bool_decide (head (is_fields index) ≠ Some key)) in
      match List.find (is_shard_eq key) (default [] range) with
      | None => Err ForbiddenOperationError
      | Some r =>
          let! v := jsonToConvex r.2 in
          let! eqShard := shard_of v (k_numShards ctx) in
          forbid (bool_decide (eqShard ≠ k_shardId ctx))
      end
  end.
(** A scan of an unsharded table by a sharded mutation is reported, not validated. *)
Definition scan_unvalidated (ctx : KernelContext) (meta : option TableMeta) : bool :=
  k_shardDeclared ctx && negb (k_privileged ctx) && match meta ≫= sharding with None => true | Some _ => false end.

(** ** Effects *)
Definition txn_op {A} (f : Ctx → Ctx * res A) : eff KState A := λ st, let '(c, r) := f (txn st) in (with_txn st c, r).
Definition txn_do (f : Ctx → Ctx) : eff KState unit := edo (λ st, with_txn st (f (txn st))).

Definition markWrite (toGlobal : bool) : eff KState unit :=
  do^ edo (λ st, with_stores st (globalTxn st) (wroteLocal st || negb toGlobal) (wroteGlobal st || toGlobal)) in
  let^ both := eget (λ st, wroteLocal st && wroteGlobal st) in
  ewhen both CrossStoreWriteError.
Definition requireGlobalTxn : eff KState GlobalTxn :=
  let^ g := eget globalTxn in match g with Some g => eret g | None => ethrow ForbiddenOperationError end.
Definition stage_global (f : GlobalTxn → GlobalTxn) : eff KState unit :=
  edo (λ st, with_stores st (option_map f (globalTxn st)) (wroteLocal st) (wroteGlobal st)).
Definition recordGlobalRead (ctx : KernelContext) (table : jsstr) : eff KState unit :=
  if k_notesGlobal ctx then edo (λ st, with_notes st (logs st) (set_add (globalReads st) table) (drawn st)) else eret tt.
Definition recordScanReads (ctx : KernelContext) (meta : option TableMeta) (ranges : list KeyRange) : eff KState unit :=
  txn_do (λ c, fold_left (λ c r, if scan_unvalidated ctx meta then recordReadUnvalidated c r else recordRead c r) ranges c).
Definition nextCollectToken : eff KState Z :=
  do^ edo (λ st, with_traces st (collectTrace st) (paginateTrace st) (collectTokenSeq st + 1)) in eget collectTokenSeq.

Definition key_range (idx : IndexSpec) (k : bytes) : KeyRange :=
  {| keyspace := query_keyspace idx; start := k; end_ := Some (keySuccessor k) |}.
Definition record_key (idx : IndexSpec) (doc : option value) : eff KState unit :=
  match doc with
  | None => eret tt
  | Some d => let^ k := elift (extractIndexKey d (is_fields idx)) in txn_do (λ c, recordWrite c (key_range idx k))
  end.

(** ** Handlers *)
Section kernel.
Context {S : Type} `{!MvccStore S}.
Variable store : S.                                 (** what the snapshot is read from *)
Variable cat : SimpleIndexCatalog.
Variable d1 : D1Store.
Variable randomId : nat → bytes.                    (** the generator of [newDocumentId] *)
(** The policy registry and its evaluation in the rule context of the run. *)
Variable hasRead hasWrite : jsstr → bool.
Variable readPolicy : jsstr → eff KState (option FilterExpr).
Variable writePolicy : jsstr → value → eff KState bool.

Definition newDocumentId (tn : Z) : eff KState InternalDocumentId :=
  let^ n := eget drawn in
  do^ edo (λ st, with_notes st (logs st) (globalReads st) (Datatypes.S n)) in
  eret {| tableNumber := tn; internalId := randomId n |}.

Definition requireTable (ctx : KernelContext) (name : jsstr) : res (Z * jsstr) :=
  let fullName := if k_privileged ctx then name else getFullTableName name (k_namespace ctx) in
  match getTable cat fullName with Some meta => Ok (tm_tableNumber meta, fullName) | None => Err FunctionNotFoundError end.
Definition table_of_id (id : InternalDocumentId) : res TableMeta :=
  match getTableByNumber cat (tableNumber id) with Some meta => Ok meta | None => Err FunctionNotFoundError end.
Definition enforced (ctx : KernelContext) (has : jsstr → bool) (table : jsstr) : bool := negb (k_privileged ctx) && k_enforce ctx && has table.

Definition enforceWrite (ctx : KernelContext) (table : jsstr) (row : value) : eff KState unit :=
  if enforced ctx hasWrite table then let^ ok := writePolicy table row in ewhen (negb ok) ForbiddenOperationError else eret tt.

Definition maintainIndexes (table : jsstr) (oldDoc newDoc : option value) (id : InternalDocumentId) : eff KState unit :=
  let indexes := indexesForTable cat table in
  let^ us := elift (computeIndexUpdates indexes oldDoc newDoc id) in
  do^ txn_do (λ c, stageIndexUpdates c us) in
  do^ etraverse (λ idx, do^ record_key idx oldDoc in record_key idx newDoc) indexes in
  eret tt.

Definition handleDbGet (ctx : KernelContext) (id : jsstr) : eff KState reply :=
  let^ internalId := elift (decodeDocumentId id) in
  let^ meta := elift (table_of_id internalId) in
  do^ elift (requireOwnTable ctx (tm_name meta)) in
  match tm_mode meta with
  | MGlobal =>
      do^ ewhen (enforced ctx hasRead (tm_name meta)) ForbiddenOperationError in
      let^ g := requireGlobalTxn in
      do^ recordGlobalRead ctx (tm_name meta) in
      let^ doc := elift (global_get d1 g (tm_name meta) id) in
      eret (RDoc (option_map convexToJson doc))
  | _ =>
      let^ v := txn_op (λ c, ctx_get store c internalId) in
      match v with
      | None => eret (RDoc None)
      | Some doc =>
          do^ elift (enforceShardGet ctx meta doc) in
          if enforced ctx hasRead (tm_name meta) then
            let^ expr := readPolicy (tm_name meta) in
            match expr with
            | Some e => if evaluateFilter doc e then eret (RDoc (Some (convexToJson doc))) else eret (RDoc None)
            | None => eret (RDoc (Some (convexToJson doc)))
            end
          else eret (RDoc (Some (convexToJson doc)))
      end
  end.

(** The id a client supplies with an insert into [table]. *)
Definition supplied_document_id (ctx : KernelContext) (tn : Z) (meta : option TableMeta) (v : value) : eff KState InternalDocumentId :=
  match v with
  | VStr text =>
      match decodeDocumentId text with
      | Err _ => ethrow InvalidClientIdError
      | Ok decoded =>
          do^ ewhen (negb (tableNumber decoded =? tn)) InvalidClientIdError in
          do^ ewhen (match meta ≫= sharding with Some _ => true | None => false end) InvalidClientIdError in
          do^ ewhen (bool_decide (k_shardId ctx ≠ DEFAULT_SHARD)) InvalidClientIdError in
          let^ existing := txn_op (λ c, ctx_get store c decoded) in
          do^ ewhen (match existing with Some _ => true | None => false end) IdAlreadyInUseError in
          eret decoded
      end
  | _ => ethrow InvalidClientIdError
  end.
Definition insert_global (ctx : KernelContext) (tn : Z) (fullName : jsstr) (meta : option TableMeta) (converted : value) : eff KState reply :=
  do^ ewhen (enforced ctx hasWrite fullName) ForbiddenOperationError in
  let^ _ := requireGlobalTxn in
  do^ elift (destructurable converted) in
  let props := own_props converted in
  do^ ewhen (jm_has props (js "_id")) InvalidClientIdError in
  do^ elift (validateDocumentForWrite meta props) in
  let^ id := newDocumentId tn in
  let^ docId := elift (encodeInternalDocumentId id) in
  let^ ts := eget (λ st, snapshotTs (txn st)) in
  do^ markWrite true in
  do^ stage_global (λ g, stageInsert g fullName (stamped props docId (creation_time ts))) in
  eret (RId docId).
Definition insert_local (ctx : KernelContext) (tn : Z) (fullName : jsstr) (meta : option TableMeta) (converted : value) : eff KState reply :=
  do^ elift (destructurable converted) in
  let props := own_props converted in
  let userValue := drop_key (js "_id") props in
  do^ elift (validateDocumentForWrite meta userValue) in
  let^ id := match jm_get props (js "_id") with Some v => supplied_document_id ctx tn meta v | None => newDocumentId tn end in
  let^ docId := elift (encodeInternalDocumentId id) in
  let^ ts := eget (λ st, snapshotTs (txn st)) in
  let doc := stamped userValue docId (creation_time ts) in
  do^ elift (match meta with Some meta => enforceShardWrite ctx meta doc OpInsert | None => Ok tt end) in
  do^ enforceWrite ctx fullName doc in
  do^ markWrite false in
  do^ txn_op (λ c, ctx_put c id doc) in
  do^ maintainIndexes fullName None (Some doc) id in
  eret (RId docId).
Definition handleDbInsert (ctx : KernelContext) (table : jsstr) (v : json) : eff KState reply :=
  do^ ewhen (negb (k_dbWrite ctx)) ForbiddenOperationError in
  let^ t := elift (requireTable ctx table) in
  let '(tn, fullName) := t in
  let meta := getTable cat fullName in
  let^ converted := elift (jsonToConvex v) in
  match meta with
  | Some m => match tm_mode m with MGlobal => insert_global ctx tn fullName meta converted | _ => insert_local ctx tn fullName meta converted end
  | None => insert_local ctx tn fullName meta converted
  end.

(** [(old._creationTime as number) ?? Number(ctx.snapshotTs)] *)
Definition kept_time (old : value) : eff KState value := let^ ts := eget (λ st, snapshotTs (txn st)) in eret (own_or old (js "_creationTime") (creation_time ts)).
Definition replace_global (ctx : KernelContext) (meta : TableMeta) (id : jsstr) (v : json) : eff KState reply :=
  do^ ewhen (enforced ctx hasWrite (tm_name meta)) ForbiddenOperationError in
  let^ g := requireGlobalTxn in
  let^ old := elift (global_get d1 g (tm_name meta) id) in
  match old with
  | None => ethrow DocumentNotFoundError
  | Some old =>
      let^ converted := elift (jsonToConvex v) in
      do^ elift (destructurable converted) in
      let userFields := drop_key (js "_creationTime") (drop_key (js "_id") (own_props converted)) in
      do^ elift (validateDocumentForWrite (Some meta) userFields) in
      do^ markWrite true in
      let^ created := kept_time old in
      do^ stage_global (λ g, stageReplace g (tm_name meta) id (stamped userFields id created)) in
      eret REmpty
  end.
Definition replace_local (ctx : KernelContext) (meta : TableMeta) (internalId : InternalDocumentId) (id : jsstr) (v : json) : eff KState reply :=
  let^ old := txn_op (λ c, ctx_get store c internalId) in
  match old with
  | None => ethrow DocumentNotFoundError
  | Some oldDoc =>
      do^ enforceWrite ctx (tm_name meta) oldDoc in
      let^ converted := elift (jsonToConvex v) in
      do^ elift (destructurable converted) in
      let userFields := drop_key (js "_creationTime") (drop_key (js "_id") (own_props converted)) in
      do^ elift (validateDocumentForWrite (Some meta) userFields) in
      let^ created := kept_time oldDoc in
      let newDoc := stamped (own_props converted) id created in
      do^ elift (enforceShardKeyImmutable ctx meta oldDoc newDoc) in
      do^ elift (enforceShardWrite ctx meta newDoc OpReplace) in
      do^ enforceWrite ctx (tm_name meta) newDoc in
      do^ markWrite false in
      do^ txn_op (λ c, ctx_put c internalId newDoc) in
      do^ maintainIndexes (tm_name meta) (Some oldDoc) (Some newDoc) internalId in
      eret REmpty
  end.
Definition handleDbReplace (ctx : KernelContext) (id : jsstr) (v : json) : eff KState reply :=
  do^ ewhen (negb (k_dbWrite ctx)) ForbiddenOperationError in
  let^ internalId := elift (decodeDocumentId id) in
  let^ meta := elift (table_of_id internalId) in
  do^ elift (requireOwnTable ctx (tm_name meta)) in
  match tm_mode meta with MGlobal => replace_global ctx meta id v | _ => replace_local ctx meta internalId id v end.

Definition delete_local (ctx : KernelContext) (meta : TableMeta) (internalId : InternalDocumentId) : eff KState reply :=
  let^ old := txn_op (λ c, ctx_get store c internalId) in
  do^ match old with
      | Some oldDoc => do^ elift (enforceShardWrite ctx meta oldDoc OpDelete) in enforceWrite ctx (tm_name meta) oldDoc
      | None => eret tt
      end in
  do^ markWrite false in
  do^ txn_op (λ c, ctx_delete c internalId) in
  do^ maintainIndexes (tm_name meta) old None internalId in
  eret REmpty.
Definition handleDbDelete (ctx : KernelContext) (id : jsstr) : eff KState reply :=
  do^ ewhen (negb (k_dbWrite ctx)) ForbiddenOperationError in
  let^ internalId := elift (decodeDocumentId id) in
  let^ meta := elift (table_of_id internalId) in
  do^ elift (requireOwnTable ctx (tm_name meta)) in
  match tm_mode meta with
  | MGlobal =>
      do^ ewhen (enforced ctx hasWrite (tm_name meta)) ForbiddenOperationError in
      do^ markWrite true in
      let^ _ := requireGlobalTxn in
      do^ stage_global (λ g, stageDelete g (tm_name meta) id) in
      eret REmpty
  | _ => delete_local ctx meta internalId
  end.

Definition range_of (r : jsstr * QueryOperator * json) : res RangeExpression :=
  let! v := jsonToConvex r.2 in Ok {| re_field := r.1.1; re_operator := r.1.2; re_value := v |}.
Definition filter_of (f : ComparisonOp * jsstr * json) : res FilterExpr := let! v := jsonToConvex f.2 in Ok (FCompare f.1.1 f.1.2 v).
Definition opt_traverse {A B} (f : A → res B) (l : option (list A)) : res (option (list B)) :=
  match l with None => Ok None | Some l => let! l := traverse f l in Ok (Some l) end.
(** [spec] as a query of the engine, with the limit of [db.query]. *)
Definition query_of (index : IndexSpec) (spec : QuerySpec) (limit : option Z) : res Query :=
  let! range := opt_traverse range_of (qs_range spec) in
  let! filters := opt_traverse filter_of (qs_filters spec) in
  Ok {| q_index := index; q_range := range; q_order := qs_order spec; q_filters := filters; q_limit := limit |}.
Definition with_filters (q : Query) (fs : list FilterExpr) : Query :=
  {| q_index := q_index q; q_range := q_range q; q_order := q_order q; q_filters := Some fs; q_limit := q_limit q |}.
Definition is_index_range (r : KeyRange) : bool := starts_with (js "index:") (keyspace r).

Definition resolve_index (ctx : KernelContext) (spec : QuerySpec) : res (jsstr * IndexSpec) :=
  let tableName := if k_privileged ctx then qs_table spec else getFullTableName (qs_table spec) (k_namespace ctx) in
  match getIndex cat tableName (qs_index spec) with Some index => Ok (tableName, index) | None => Err FunctionNotFoundError end.
(** The read policy of a scan: the user's query with its expression appended. *)
Definition restrict (ctx : KernelContext) (tableName : jsstr) (q : Query) : eff KState Query :=
  if enforced ctx hasRead tableName then let^ expr := readPolicy tableName in eret (with_filters q (mergeReadPolicy (q_filters q) expr)) else eret q.

Definition query_global (ctx : KernelContext) (tableName : jsstr) (spec : QuerySpec) : eff KState reply :=
  do^ ewhen (enforced ctx hasRead tableName) ForbiddenOperationError in
  let^ g := requireGlobalTxn in
  do^ ewhen (negb (forallb (λ r, match r.1.2 with QEq => true | _ => false end) (default [] (qs_range spec))) ||
             match qs_filters spec with Some (_ :: _) => true | _ => false end) ForbiddenOperationError in
  let^ eqs := elift (traverse (λ r, let! v := jsonToConvex r.2 in Ok (r.1.1, v)) (default [] (qs_range spec))) in
  let eq := assign_all eqs in
  let^ rows := elift (global_queryByIndex d1 g tableName (qs_index spec) eq (qs_limit spec)) in
  do^ recordGlobalRead ctx tableName in
  eret (RDocs (List.map convexToJson rows) None).

Definition query_local (ctx : KernelContext) (tableName : jsstr) (meta : option TableMeta) (index : IndexSpec) (spec : QuerySpec) : eff KState reply :=
  do^ elift (enforceShardScan ctx meta index (qs_range spec)) in
  let^ query := elift (query_of index spec (qs_limit spec)) in
  let^ restricted := restrict ctx tableName query in
  let^ c := eget txn in
  let^ r := elift (collect store restricted (snapshotTs c) (pendingIndexOverlay c (is_indexId index))) in
  let scanned := toArray (co_readSet r) in
  do^ recordScanReads ctx meta scanned in
  let docs := List.map convexToJson (co_documents r) in
  if k_traced ctx then
    let^ token := nextCollectToken in
    do^ match List.filter is_index_range scanned with
        | [range] => edo (λ st, with_traces st (collectTrace st ++
            [{| ct_keyspace := keyspace range; ct_bounds := serializeKeyRange range; ct_filters := default [] (q_filters query);
                ct_order := default Asc (qs_order spec); ct_fields := is_fields index; ct_docs := docs;
                ct_hadReadPolicy := enforced ctx hasRead tableName;
                ct_hadLimit := match qs_limit spec with Some _ => true | None => false end; ct_token := token |}]) (paginateTrace st) (collectTokenSeq st))
        | _ => eret tt
        end in
    eret (RDocs docs (Some token))
  else eret (RDocs docs None).
Definition handleDbQuery (ctx : KernelContext) (spec : QuerySpec) : eff KState reply :=
  let^ t := elift (resolve_index ctx spec) in
  let '(tableName, index) := t in
  let meta := getTable cat tableName in
  match meta ≫= (λ m, match tm_mode m with MGlobal => Some tt | _ => None end) with
  | Some _ => query_global ctx tableName spec
  | None => query_local ctx tableName meta index spec
  end.

Definition paginate_local (ctx : KernelContext) (tableName : jsstr) (meta : option TableMeta) (index : IndexSpec) (spec : QuerySpec) (opts : PageOpts) :
    eff KState reply :=
  do^ elift (enforceShardScan ctx meta index (qs_range spec)) in
  let^ query := elift (query_of index spec None) in
  let^ restricted := restrict ctx tableName query in
  let^ c := eget txn in
  let^ r := elift (paginate store restricted (snapshotTs c) opts (pendingIndexOverlay c (is_indexId index))) in
  let scanned := toArray (pg_readSet r) in
  do^ recordScanReads ctx meta scanned in
  let page := List.map convexToJson (pg_page r) in
  if k_traced ctx then
    let^ token := nextCollectToken in
    do^ match List.filter is_index_range scanned with
        | [range] => edo (λ st, with_traces st (collectTrace st) (paginateTrace st ++
            [{| pt_keyspace := keyspace range; pt_bounds := pg_pageBounds r; pt_filters := default [] (q_filters query);
                pt_order := default Asc (qs_order spec); pt_fields := is_fields index; pt_hadReadPolicy := enforced ctx hasRead tableName;
                pt_token := token; pt_nextCursor := pg_nextCursor r; pt_hasMore := pg_hasMore r; pt_scanCapped := pg_scanCapped r |}]) (collectTokenSeq st))
        | _ => eret tt
        end in
    eret (RPage page (pg_nextCursor r) (pg_hasMore r) (pg_scanCapped r) (Some token))
  else eret (RPage page (pg_nextCursor r) (pg_hasMore r) (pg_scanCapped r) None).
Definition handleDbPaginate (ctx : KernelContext) (spec : QuerySpec) (opts : PageOpts) : eff KState reply :=
  let^ t := elift (resolve_index ctx spec) in
  let '(tableName, index) := t in
  let meta := getTable cat tableName in
  match meta ≫= (λ m, match tm_mode m with MGlobal => Some tt | _ => None end) with
  | Some _ => ethrow ForbiddenOperationError
  | None => paginate_local ctx tableName meta index spec opts
  end.

Definition handleConsoleLog (arg : jsstr) : eff KState reply :=
  do^ edo (λ st, with_notes st (logs st ++ [arg]) (globalReads st) (drawn st)) in eret RNull.

(** [createKernelRouter().dispatch] *)
Definition dispatch (ctx : KernelContext) (op : syscall) : eff KState reply :=
  match op with
  | SGet id => handleDbGet ctx id
  | SInsert table v => handleDbInsert ctx table v
  | SReplace id v => handleDbReplace ctx id v
  | SDelete id => handleDbDelete ctx id
  | SQuery spec => handleDbQuery ctx spec
  | SPaginate spec cursor pageSize maxScan => handleDbPaginate ctx spec {| po_cursor := cursor; po_pageSize := pageSize; po_maxScan := maxScan |}
  | SLog arg => handleConsoleLog arg
  end.
End kernel.
