(* ===== verification/KernelWrites.v ===== *)
(** What the syscalls of [Kernel] do to a transaction: reads leave its writes alone, and a write stages one document under its guards, its index
    entries and their write ranges, in one store or the other. *)
From S2P Require Import Prelude Effects Numbers Values Json Validators IndexKeys Ranges IdCodec DocStore ShardRouting MvccStore Transactor QueryEngine Policy Kernel.

(** ** Decoded ids *)
Lemma varint_read_nonneg bs result shift read v n : 0 ≤ result → varint_read bs result shift read = Ok (v, n) → 0 ≤ v ≤ UINT32_MAX.
Proof.
  revert result shift read. induction bs as [|b bs IH]; intros result shift read Hr; [done|]. cbn -[UINT32_MAX].
  assert (0 ≤ Z.land b 127) by (apply Z.land_nonneg; lia). assert (0 ≤ 2 ^ shift) by (apply Z.pow_nonneg; lia).
  destruct (Z.land b 128 =? 0).
  - destruct (Z.ltb_spec UINT32_MAX (result + Z.land b 127 * 2 ^ shift)); [done|]. intros [= <- _]. nia.
  - destruct (28 <? shift + 7); [done|]. apply IH. nia.
Qed.
Lemma b32_decode_bytes text bits v bs : b32_decode text bits v = Ok bs → Forall is_byte bs.
Proof.
  revert bits v bs. induction text as [|c text IH]; intros bits v bs; cbn [b32_decode].
  - destruct (_ && _); [done|]. by intros [= <-].
  - destruct (jm_get DECODE c) as [d|]; [|done]. destruct (8 <=? bits + 5); [|apply IH].
    destruct (b32_decode text _ _) as [out|] eqn:E; [|done]. cbn [res_bind]. intros [= <-]. constructor; [|by eapply IH].
    unfold is_byte. split; [apply Z.land_nonneg; lia|]. rewrite (Z.land_ones _ 8) by lia. apply Z.mod_pos_bound. lia.
Qed.
Lemma decodeDocumentId_ok text id : decodeDocumentId text = Ok id → id_ok id.
Proof.
  unfold decodeDocumentId. destruct (base32Decode text) as [bs|[]] eqn:Eb; try done. destruct (varintDecode bs 0) as [[tn n]|] eqn:Ev; [|done].
  cbv zeta. destruct (Nat.eqb_spec (length bs) (n + INTERNAL_ID_BYTES + CHECKSUM_BYTES)) as [Hl|]; [|done]. cbn [negb].
  destruct (negb _); [done|]. intros [= <-]. unfold id_ok. cbn [tableNumber internalId]. split; [|split].
  - by apply (varint_read_nonneg (drop 0 bs) 0 0 0 tn n).
  - rewrite length_take, length_drop. unfold CHECKSUM_BYTES in Hl. lia.
  - apply Forall_take, Forall_drop. by eapply b32_decode_bytes.
Qed.
Lemma id_key_inj a b : id_ok a → id_ok b → documentIdKey a = documentIdKey b → a = b.
Proof. intros ([? _] & _ & ?) ([? _] & _ & ?). by apply documentIdKey_inj. Qed.

(** ** The writes of a state *)
Record Writes := {
  w_staged : UncommittedWrites; w_ranges : RangeSet; w_updates : list DatabaseIndexUpdate; w_snapshot : Z; w_shard : jsstr;
  w_global : option GlobalTxn; w_local : bool; w_globalFlag : bool }.
Definition writes (st : KState) : Writes :=
  {| w_staged := staged (txn st); w_ranges := writeRanges (txn st); w_updates := indexUpdates (txn st); w_snapshot := snapshotTs (txn st);
     w_shard := shardId (txn st); w_global := globalTxn st; w_local := wroteLocal st; w_globalFlag := wroteGlobal st |}.

(** A computation that writes nothing. *)
Definition same_writes (st st' : KState) : Prop := writes st' = writes st.
#[global] Instance same_writes_preorder : PreOrder same_writes.
Proof. unfold same_writes. split; congruence. Qed.
Abbreviation quiet := (follows same_writes).

(** ** Handlers that only read *)
(** A relation that the transaction's reads and notes follow. *)
Class ReadsFollow {S : Type} `{!MvccStore S} (store : S) (R : KState → KState → Prop) : Prop := {
  rf_preorder :: PreOrder R;
  rf_get id : follows R (txn_op (λ c, ctx_get store c id));
  rf_scan ctx meta ranges : follows R (recordScanReads ctx meta ranges);
  rf_notes st l gr : R st (with_notes st l gr (drawn st)) }.
(** A relation that holds whatever rule context a state caches. *)
Class RuleFollow (R : KState → KState → Prop) : Prop := rf_rule st r : R st (with_rule st r).
Section readers.
Context {S : Type} `{!MvccStore S}.
Context (store : S) (cat : SimpleIndexCatalog) (d1 : D1Store) (hasRead hasWrite : jsstr → bool) (R : KState → KState → Prop) `{!ReadsFollow store R}.
Context (readPolicy : jsstr → eff KState (option FilterExpr)) (writePolicy : jsstr → value → eff KState bool).
Context (Hread : ∀ t, follows R (readPolicy t)) (Hwrite : ∀ t row, follows R (writePolicy t row)).
Implicit Types (ctx : KernelContext).
(** The context traces nothing, or the traces follow too. *)
Definition tracing ctx : Prop := k_traced ctx = false ∨ ∀ st ct pt n, R st (with_traces st ct pt n).

Lemma follows_global_read ctx t : follows R (recordGlobalRead ctx t).
Proof. unfold recordGlobalRead. destruct (k_notesGlobal ctx); [|auto with follows]. apply follows_do. intros st. apply rf_notes. Qed.
Lemma follows_require_global : follows R requireGlobalTxn.
Proof. unfold requireGlobalTxn. repeat follows_step. Qed.
Lemma follows_log arg : follows R (handleConsoleLog arg).
Proof. unfold handleConsoleLog. follows_step; [|auto with follows]. apply follows_do. intros st. apply rf_notes. Qed.
#[local] Hint Extern 1 (follows _ (recordScanReads _ _ _)) => apply (rf_scan (store := store)) : follows.
#[local] Hint Extern 1 (follows _ (txn_op _)) => apply (rf_get (store := store)) : follows.
#[local] Hint Resolve follows_global_read follows_require_global : follows.
Lemma follows_get_handler ctx id : follows R (handleDbGet store cat d1 hasRead readPolicy ctx id).
Proof. unfold handleDbGet. repeat follows_step. Qed.
Lemma follows_restrict ctx t q : follows R (restrict hasRead readPolicy ctx t q).
Proof. unfold restrict. repeat follows_step. Qed.
Lemma follows_enforceWrite ctx t row : follows R (enforceWrite hasWrite writePolicy ctx t row).
Proof. unfold enforceWrite. repeat follows_step. Qed.
Lemma follows_token : (∀ st ct pt n, R st (with_traces st ct pt n)) → follows R nextCollectToken.
Proof. intros H. unfold nextCollectToken. follows_step; [|auto with follows]. apply follows_do. intros st. apply H. Qed.
Lemma follows_query ctx spec : tracing ctx → follows R (handleDbQuery store cat d1 hasRead readPolicy ctx spec).
Proof.
  pose proof follows_restrict. intros Ht. unfold handleDbQuery, query_global, query_local. destruct Ht as [Ht|Ht]; [rewrite Ht|pose proof (follows_token Ht)]; repeat follows_step;
    apply follows_do; intros st; apply Ht.
Qed.
Lemma follows_paginate ctx spec opts : tracing ctx → follows R (handleDbPaginate store cat hasRead readPolicy ctx spec opts).
Proof.
  pose proof follows_restrict. intros Ht. unfold handleDbPaginate, paginate_local. destruct Ht as [Ht|Ht]; [rewrite Ht|pose proof (follows_token Ht)]; repeat follows_step;
    apply follows_do; intros st; apply Ht.
Qed.
End readers.

#[global] Instance quiet_reads {S : Type} `{!MvccStore S} (store : S) : ReadsFollow store same_writes.
Proof.
  split; [apply _|..|done].
  - intros id st. unfold same_writes, txn_op, ctx_get. destruct (countRead (headroom (txn st))) as [h [[]|e]]; [|done].
    match goal with |- context [uw_get ?a ?b] => by destruct (uw_get a b) end.
  - intros ctx meta ranges st. unfold same_writes, writes, recordScanReads. cbn. generalize (txn st) as c. induction ranges as [|r ranges IH]; intros c; [done|].
    cbn. rewrite IH. by destruct (scan_unvalidated ctx meta).
Qed.
#[global] Instance quiet_rule : RuleFollow same_writes.
Proof. done. Qed.
Lemma quiet_traces ctx : tracing same_writes ctx.
Proof. by right. Qed.
#[export] Hint Extern 1 (follows _ (txn_op (λ c, ctx_get _ c _))) => apply rf_get : follows.
#[export] Hint Extern 1 (follows same_writes (edo _)) => apply follows_do; intros ?; reflexivity : follows.
Lemma quiet_require_global : quiet requireGlobalTxn.
Proof. unfold requireGlobalTxn. repeat follows_step. Qed.
#[export] Hint Resolve quiet_traces quiet_require_global : follows.

(** ** Handlers that write *)
Definition marked (w : Writes) (toGlobal : bool) : Writes :=
  {| w_staged := w_staged w; w_ranges := w_ranges w; w_updates := w_updates w; w_snapshot := w_snapshot w; w_shard := w_shard w; w_global := w_global w;
     w_local := w_local w || negb toGlobal; w_globalFlag := w_globalFlag w || toGlobal |}.
Definition put_write (w : Writes) (id : InternalDocumentId) (v : option value) : Writes :=
  {| w_staged := uw_set (w_staged w) id v; w_ranges := addKey (w_ranges w) (docKeyspace id) (internalId id); w_updates := w_updates w;
     w_snapshot := w_snapshot w; w_shard := w_shard w; w_global := w_global w; w_local := w_local w; w_globalFlag := w_globalFlag w |}.
Definition index_writes (w : Writes) (us : list DatabaseIndexUpdate) (rs : list KeyRange) : Writes :=
  {| w_staged := w_staged w; w_ranges := fold_left rs_add rs (w_ranges w); w_updates := w_updates w ++ us;
     w_snapshot := w_snapshot w; w_shard := w_shard w; w_global := w_global w; w_local := w_local w; w_globalFlag := w_globalFlag w |}.
Definition global_writes (w : Writes) (g : GlobalTxn) : Writes :=
  {| w_staged := w_staged w; w_ranges := w_ranges w; w_updates := w_updates w; w_snapshot := w_snapshot w; w_shard := w_shard w; w_global := Some g;
     w_local := w_local w; w_globalFlag := w_globalFlag w |}.

(** The write ranges of a document's entries before and after. *)
Definition doc_range (idx : IndexSpec) (doc : option value) : list KeyRange :=
  match opt_key doc (is_fields idx) with Ok (Some k) => [key_range idx k] | _ => [] end.
Definition index_ranges (idxs : list IndexSpec) (old new : option value) : list KeyRange :=
  concat (List.map (λ idx, doc_range idx old ++ doc_range idx new) idxs).

Lemma updates_keys idxs old new id us : computeIndexUpdates idxs old new id = Ok us →
  Forall (λ idx, (∃ k, opt_key old (is_fields idx) = Ok k) ∧ ∃ k, opt_key new (is_fields idx) = Ok k) idxs.
Proof.
  unfold computeIndexUpdates. destruct (traverse _ idxs) as [uss|] eqn:E; [|done]. intros _. revert uss E.
  induction idxs as [|idx idxs IH]; intros uss E; [done|]. cbn in E. unfold index_updates_for at 1 in E.
  destruct (opt_key old (is_fields idx)) as [ko|] eqn:Eo; [|done]. destruct (opt_key new (is_fields idx)) as [kn|] eqn:En; [|done]. cbn [res_bind] in E.
  destruct (traverse _ idxs) as [uss'|]; [|done]. constructor; [eauto|by eapply IH].
Qed.

Lemma record_key_writes idx doc k st : opt_key doc (is_fields idx) = Ok k → ∃ st', record_key idx doc st = (st', Ok tt) ∧
  writes st' = index_writes (writes st) [] (doc_range idx doc).
Proof.
  unfold record_key, doc_range. destruct doc as [d|]; cbn [opt_key].
  - destruct (extractIndexKey d (is_fields idx)) as [key|] eqn:E; [|done]. intros _. cbn [res_bind]. eexists. split; [done|].
    unfold writes, index_writes. cbn. by rewrite app_nil_r.
  - intros _. exists st. split; [done|]. unfold writes, index_writes. cbn. by rewrite app_nil_r.
Qed.
Lemma index_writes_app w us us' rs rs' : index_writes (index_writes w us rs) us' rs' = index_writes w (us ++ us') (rs ++ rs').
Proof. unfold index_writes. cbn. by rewrite fold_left_app, <-(assoc_L (++)). Qed.
Lemma record_keys_writes idxs old new st :
  Forall (λ idx, (∃ k, opt_key old (is_fields idx) = Ok k) ∧ ∃ k, opt_key new (is_fields idx) = Ok k) idxs →
  ∃ st' us, etraverse (λ idx, do^ record_key idx old in record_key idx new) idxs st = (st', Ok us) ∧
    writes st' = index_writes (writes st) [] (index_ranges idxs old new).
Proof.
  intros H. revert st. induction H as [|idx idxs [[ko Ho] [kn Hn]] _ IH]; intros st.
  { exists st, []. split; [done|]. unfold writes, index_writes. cbn. by rewrite app_nil_r. }
  cbn [etraverse]. destruct (record_key_writes idx old ko st Ho) as (st1 & R1 & E1).
  destruct (record_key_writes idx new kn st1 Hn) as (st2 & R2 & E2). destruct (IH st2) as (st3 & us & R3 & E3).
  rewrite (ebind_run _ _ _ st2 tt) by by rewrite (ebind_run _ _ _ st1 tt R1). rewrite (ebind_run _ _ _ _ _ R3).
  eexists _, _. split; [done|]. rewrite E3, E2, E1, !index_writes_app. cbn [app]. unfold index_ranges. cbn [List.map concat]. by rewrite (assoc_L (++)).
Qed.

Section writers.
Context {S : Type} `{!MvccStore S}.
Context (store : S) (cat : SimpleIndexCatalog) (d1 : D1Store) (randomId : nat → bytes) (hasRead hasWrite : jsstr → bool).
Context (readPolicy : jsstr → eff KState (option FilterExpr)) (writePolicy : jsstr → value → eff KState bool).
Context (Hread : ∀ t, quiet (readPolicy t)) (Hwrite : ∀ t row, quiet (writePolicy t row)).
Implicit Types (ctx : KernelContext) (w : Writes) (id : InternalDocumentId).

(** The document as the transaction sees it. *)
Definition doc_view w id : res (option value) :=
  match uw_get (w_staged w) id with
  | Some l => Ok (lw_value l)
  | None => let! d := ms_get store id (Some (w_snapshot w)) in Ok (match d with Some d => Some (rd_value (ld_value d)) | None => None end)
  end.
Lemma ctx_get_view id st st' v : txn_op (λ c, ctx_get store c id) st = (st', Ok v) → doc_view (writes st) id = Ok v ∧ writes st' = writes st.
Proof.
  intros E. split; [|by pose proof (rf_get (store := store) (R := same_writes) id st) as W; rewrite E in W]. revert E. unfold txn_op, ctx_get, doc_view.
  destruct (countRead (headroom (txn st))) as [h [[]|e]]; [|done]. cbn [w_staged writes staged set_headroom set_reads].
  destruct (uw_get (staged (txn st)) id) as [l|]; [by intros [= _ <-]|]. cbn [snapshotTs set_headroom set_reads w_snapshot].
  by intros [= _ <-].
Qed.

(** The policy of a write has been asked about a row and has answered yes. *)
Definition allowed ctx (table : jsstr) (row : value) : Prop :=
  enforced ctx hasWrite table = true → ∃ st st', writePolicy table row st = (st', Ok true).
(** The document bears an id of its key. *)
Definition bears_id id (doc : value) : Prop := ∃ text, prop doc (js "_id") = Some (VStr text) ∧ decodeDocumentId text = Ok id.
(** An id of the generator, or one no document has in this transaction. *)
Definition fresh_id w id : Prop := (∃ n, internalId id = randomId n) ∨ id_ok id ∧ doc_view w id = Ok None.

Inductive guarded ctx w (meta : TableMeta) id : option value → option value → Prop :=
  | guard_insert doc : fresh_id w id → enforceShardWrite ctx meta doc OpInsert = Ok tt → allowed ctx (tm_name meta) doc →
      (∃ text, encodeInternalDocumentId id = Ok text ∧ prop doc (js "_id") = Some (VStr text)) →
      guarded ctx w meta id None (Some doc)
  | guard_replace oldDoc newDoc : doc_view w id = Ok (Some oldDoc) → enforceShardKeyImmutable ctx meta oldDoc newDoc = Ok tt →
      enforceShardWrite ctx meta newDoc OpReplace = Ok tt → allowed ctx (tm_name meta) oldDoc → allowed ctx (tm_name meta) newDoc →
      requireOwnTable ctx (tm_name meta) = Ok tt → bears_id id newDoc →
      guarded ctx w meta id (Some oldDoc) (Some newDoc)
  | guard_delete old : doc_view w id = Ok old → (∀ d, old = Some d → enforceShardWrite ctx meta d OpDelete = Ok tt ∧ allowed ctx (tm_name meta) d) →
      requireOwnTable ctx (tm_name meta) = Ok tt → id_ok id →
      guarded ctx w meta id old None.

(** A staged document's index entries: all of them, or none when a key cannot be encoded. *)
Inductive indexed_write (table : jsstr) (old new : option value) id w : Writes → Prop :=
  | indexed_ok us : computeIndexUpdates (indexesForTable cat table) old new id = Ok us →
      indexed_write table old new id w (index_writes w us (index_ranges (indexesForTable cat table) old new))
  | indexed_failed e : computeIndexUpdates (indexesForTable cat table) old new id = Err e → indexed_write table old new id w w.

(** What one syscall does to the writes. *)
Inductive wrote ctx w : Writes → Prop :=
  | wrote_nothing : wrote ctx w w
  | wrote_mark b : wrote ctx w (marked w b)
  | wrote_local meta id old new w' : k_dbWrite ctx = true → getTableByNumber cat (tableNumber id) = Some meta → tm_mode meta ≠ MGlobal →
      guarded ctx w meta id old new → w_globalFlag w = false →
      indexed_write (tm_name meta) old new id (put_write (marked w false) id new) w' → wrote ctx w w'
  | wrote_global g g' : k_dbWrite ctx = true → w_local w = false → w_global w = Some g → wrote ctx w (global_writes (marked w true) g').

Lemma stage_fold (us l : list DatabaseIndexUpdate) : fold_left (λ l u, l ++ [u]) us l = l ++ us.
Proof. revert l. induction us as [|u us IH]; intros l; cbn; [by rewrite app_nil_r|]. by rewrite IH, <-(assoc_L (++)). Qed.

Lemma maintain_writes table old new id st :
  indexed_write table old new id (writes st) (writes (maintainIndexes cat table old new id st).1).
Proof.
  unfold maintainIndexes. destruct (computeIndexUpdates (indexesForTable cat table) old new id) as [us|e] eqn:E; [|by eapply indexed_failed].
  set (st1 := with_txn st (stageIndexUpdates (txn st) us)).
  destruct (record_keys_writes (indexesForTable cat table) old new st1 (updates_keys _ _ _ _ _ E)) as (st2 & xs & R & W).
  rewrite (ebind_run _ _ st st us) by done. rewrite (ebind_run _ _ st st1 tt) by done. rewrite (ebind_run _ _ st1 st2 xs) by exact R. cbn [fst eret].
  rewrite W. assert (writes st1 = index_writes (writes st) us []) as ->.
  { unfold writes, index_writes, st1, stageIndexUpdates. cbn. by rewrite stage_fold. }
  rewrite index_writes_app, app_nil_r. cbn [app]. by apply indexed_ok.
Qed.

Lemma mark_writes b st : writes (markWrite b st).1 = marked (writes st) b ∧
  (∀ x, (markWrite b st).2 = Ok x → w_local (marked (writes st) b) && w_globalFlag (marked (writes st) b) = false).
Proof.
  unfold markWrite, ebind, edo, eget, ewhen. cbn. destruct ((wroteLocal st || negb b) && (wroteGlobal st || b)); [done|]. done.
Qed.
Lemma ctx_write_writes id v st : writes (txn_op (λ c, ctx_write c id v) st).1 = writes st ∧ (txn_op (λ c, ctx_write c id v) st).2 ≠ Ok tt ∨
  writes (txn_op (λ c, ctx_write c id v) st).1 = put_write (writes st) id v ∧ (txn_op (λ c, ctx_write c id v) st).2 = Ok tt.
Proof. unfold txn_op, ctx_write. destruct (countWrite (headroom (txn st))) as [h [[]|e]]; [right|left]; done. Qed.

(** The end of every local write. *)
Lemma local_tail ctx meta id old new (r : reply) st : k_dbWrite ctx = true → getTableByNumber cat (tableNumber id) = Some meta → tm_mode meta ≠ MGlobal →
  guarded ctx (writes st) meta id old new →
  wrote ctx (writes st) (writes ((do^ markWrite false in do^ txn_op (λ c, ctx_write c id new) in
    do^ maintainIndexes cat (tm_name meta) old new id in eret r) st).1).
Proof.
  intros Hd Ht Hm Hg. destruct (mark_writes false st) as [W1 F1]. unfold ebind at 1. destruct (markWrite false st) as [st1 [[]|e]]; cbn in W1, F1; [|].
  2: { cbn. rewrite W1. apply wrote_mark. }
  specialize (F1 _ eq_refl). cbn in F1. rewrite orb_true_r, orb_false_r in F1. cbn in F1.
  unfold ebind at 1. destruct (ctx_write_writes id new st1) as [[W2 N2]|[W2 E2]]; destruct (txn_op _ st1) as [st2 [[]|e]]; cbn in W2; try done.
  - cbn. rewrite W2, W1. apply wrote_mark.
  - pose proof (maintain_writes (tm_name meta) old new id st2) as Hi. rewrite W2, W1 in Hi.
    eapply (wrote_local ctx (writes st) meta id old new); try done. unfold ebind. by destruct (maintainIndexes _ _ _ _ _ st2) as [st3 [[]|e]].
Qed.

Lemma wrote_quiet {A} ctx (m : eff KState A) (k : A → eff KState reply) st : quiet m →
  (∀ a st1, m st = (st1, Ok a) → writes st1 = writes st → wrote ctx (writes st1) (writes (k a st1).1)) →
  wrote ctx (writes st) (writes (ebind m k st).1).
Proof.
  intros Hm Hk. specialize (Hm st). unfold ebind. destruct (m st) as [st1 [a|e]]; cbn in Hm.
  - rewrite <-Hm. by apply Hk.
  - cbn. rewrite Hm. apply wrote_nothing.
Qed.

(** The name and the number of a table name it alike. *)
Definition names_tables : Prop := ∀ name meta, getTable cat name = Some meta →
  tm_name meta = name ∧ getTableByNumber cat (tm_tableNumber meta) = Some meta.

Lemma enforceWrite_allowed ctx table row st st' x : enforceWrite hasWrite writePolicy ctx table row st = (st', Ok x) → allowed ctx table row.
Proof.
  unfold enforceWrite. destruct (enforced ctx hasWrite table) eqn:E; [|by intros _ ?; congruence].
  intros (ok & st1 & E1 & [E2 _]%ewhen_ok)%ebind_ok _. exists st, st1. by destruct ok.
Qed.
Lemma stamped_id props text created : prop (stamped props text created) (js "_id") = Some (VStr text).
Proof. unfold stamped. cbn [prop]. rewrite !jm_get_set. by repeat case_decide. Qed.

(** The state a handler of a client-supplied id leaves. *)
Lemma supplied_fresh ctx tn meta v st st' id : supplied_document_id store ctx tn meta v st = (st', Ok id) →
  writes st' = writes st ∧ tableNumber id = tn ∧ fresh_id (writes st) id.
Proof.
  unfold supplied_document_id. destruct v as [| | | |text| | |]; try done. destruct (decodeDocumentId text) as [decoded|] eqn:Hdec; [|done].
  intros ([] & s1 & [E1 ->]%ewhen_ok & ([] & s2 & [_ ->]%ewhen_ok & ([] & s3 & [_ ->]%ewhen_ok & (v & s4 & [Hv Hw]%ctx_get_view & ([] & s5 & [En ->]%ewhen_ok & [= <- <-])%ebind_ok)%ebind_ok)%ebind_ok)%ebind_ok)%ebind_ok.
  split; [done|]. split; [by apply negb_false_iff, Z.eqb_eq in E1|]. right. split; [by eapply decodeDocumentId_ok|by destruct v].
Qed.
Lemma quiet_supplied ctx tn meta v : quiet (supplied_document_id store ctx tn meta v).
Proof. unfold supplied_document_id. repeat follows_step. Qed.
Lemma quiet_new_id tn : quiet (newDocumentId randomId tn).
Proof. unfold newDocumentId. repeat follows_step. Qed.
Lemma quiet_kept_time old : quiet (kept_time old).
Proof. unfold kept_time. repeat follows_step. Qed.

Lemma insert_local_wrote ctx tn meta v st : k_dbWrite ctx = true → getTableByNumber cat tn = Some meta → tm_mode meta ≠ MGlobal →
  wrote ctx (writes st) (writes (insert_local store cat randomId hasWrite writePolicy ctx tn (tm_name meta) (Some meta) v st).1).
Proof.
  intros Hd Ht Hm. unfold insert_local. apply wrote_quiet; [auto with follows|]. intros [] st1 _ _.
  apply wrote_quiet; [auto with follows|]. intros [] st2 _ _.
  set (gen := match jm_get (own_props v) (js "_id") with Some v => _ | None => _ end).
  apply wrote_quiet; [subst gen; destruct (jm_get _ _); [apply quiet_supplied|apply quiet_new_id]|]. intros id st3 Hid W3.
  assert (tableNumber id = tn ∧ fresh_id (writes st3) id) as [<- Hfresh].
  { rewrite W3. subst gen. destruct (jm_get _ _); [by apply supplied_fresh in Hid as (_ & ? & ?)|].
    unfold newDocumentId, ebind in Hid. cbn in Hid. injection Hid as _ <-. split; [done|]. left. by eexists. }
  apply wrote_quiet; [auto with follows|]. intros docId st4 [Henc ->]%elift_ok _.
  apply wrote_quiet; [auto with follows|]. intros ts st4 [= <- _] _.
  apply wrote_quiet; [auto with follows|]. intros [] st5 [Hsh ->]%elift_ok _.
  apply wrote_quiet; [by apply (follows_enforceWrite store hasWrite same_writes)|]. intros [] st6 Hpol W6.
  apply local_tail; [done..|]. rewrite W6. apply guard_insert; [done..|by eapply enforceWrite_allowed|]. exists docId. split; [done|]. apply stamped_id.
Qed.

Lemma replace_local_wrote ctx meta id text v st : k_dbWrite ctx = true → getTableByNumber cat (tableNumber id) = Some meta → tm_mode meta ≠ MGlobal →
  requireOwnTable ctx (tm_name meta) = Ok tt → decodeDocumentId text = Ok id →
  wrote ctx (writes st) (writes (replace_local store cat hasWrite writePolicy ctx meta id text v st).1).
Proof.
  intros Hd Ht Hm Ho Hid. unfold replace_local. apply wrote_quiet; [auto with follows|]. intros old st1 [Hold _]%ctx_get_view W1.
  destruct old as [oldDoc|]; [|apply wrote_nothing]. rewrite <-W1 in Hold.
  apply wrote_quiet; [by apply (follows_enforceWrite store hasWrite same_writes)|]. intros [] st2 Hp1%enforceWrite_allowed W2. rewrite <-W2 in Hold.
  apply wrote_quiet; [auto with follows|]. intros conv st3 [_ ->]%elift_ok _. apply wrote_quiet; [auto with follows|]. intros [] st3 [_ ->]%elift_ok _.
  apply wrote_quiet; [auto with follows|]. intros [] st3 [_ ->]%elift_ok _.
  apply wrote_quiet; [apply quiet_kept_time|]. intros created st4 _ W4. rewrite <-W4 in Hold.
  apply wrote_quiet; [auto with follows|]. intros [] st5 [Him ->]%elift_ok _. apply wrote_quiet; [auto with follows|]. intros [] st5 [Hsh ->]%elift_ok _.
  apply wrote_quiet; [by apply (follows_enforceWrite store hasWrite same_writes)|]. intros [] st6 Hp2%enforceWrite_allowed W6. rewrite <-W6 in Hold.
  apply local_tail; [done..|]. apply guard_replace; try done. exists text. split; [apply stamped_id|done].
Qed.
Lemma delete_local_wrote ctx meta id st : k_dbWrite ctx = true → getTableByNumber cat (tableNumber id) = Some meta → tm_mode meta ≠ MGlobal →
  requireOwnTable ctx (tm_name meta) = Ok tt → id_ok id →
  wrote ctx (writes st) (writes (delete_local store cat hasWrite writePolicy ctx meta id st).1).
Proof.
  intros Hd Ht Hm Ho Hok. unfold delete_local. apply wrote_quiet; [auto with follows|]. intros old st1 [Hold _]%ctx_get_view W1. rewrite <-W1 in Hold.
  apply wrote_quiet; [destruct old; [apply (follows_bind same_writes); [auto with follows|intros ?; by apply (follows_enforceWrite store hasWrite same_writes)]|auto with follows]|].
  intros [] st2 Hg W2. rewrite <-W2 in Hold. apply local_tail; [done..|]. apply guard_delete; [done| |done..]. intros d ->.
  apply ebind_ok in Hg as ([] & st3 & [Hsh ->]%elift_ok & Hp%enforceWrite_allowed). done.
Qed.

(** The end of every global write. *)
Lemma global_tail ctx (f : GlobalTxn → GlobalTxn) (r : reply) g st : k_dbWrite ctx = true → globalTxn st = Some g → (markWrite true st).2 = Ok tt →
  wrote ctx (writes st) (writes (stage_global f (markWrite true st).1).1).
Proof.
  intros Hd Hg Hm. destruct (mark_writes true st) as [W1 F1]. specialize (F1 _ Hm). cbn in F1. rewrite orb_true_r, andb_true_r, orb_false_r in F1.
  assert (writes (stage_global f (markWrite true st).1).1 = global_writes (marked (writes st) true) (f g)) as ->.
  { destruct (markWrite true st) as [st1 x]. cbn [fst] in *. assert (Eg : globalTxn st1 = Some g).
    { change (globalTxn st1) with (w_global (writes st1)). by rewrite W1. }
    transitivity (global_writes (writes st1) (f g)); [|by rewrite W1]. unfold writes, global_writes. cbn. by rewrite Eg. }
  by eapply wrote_global.
Qed.
Lemma wrote_marked {A} ctx (k : unit → eff KState A) st : (∀ st1, markWrite true st = (st1, Ok tt) → wrote ctx (writes st) (writes (k tt st1).1)) →
  wrote ctx (writes st) (writes (ebind (markWrite true) k st).1).
Proof.
  intros Hk. destruct (mark_writes true st) as [W1 _]. unfold ebind. destruct (markWrite true st) as [st1 [[]|e]]; [by apply Hk|]. cbn in *.
  rewrite W1. apply wrote_mark.
Qed.
Lemma require_global st st' g : requireGlobalTxn st = (st', Ok g) → st' = st ∧ globalTxn st = Some g.
Proof. unfold requireGlobalTxn, ebind, eget. cbn. destruct (globalTxn st) eqn:E; [|done]. intros [= <- <-]. done. Qed.

Lemma global_end ctx (f : GlobalTxn → GlobalTxn) (r : reply) g st st1 : k_dbWrite ctx = true → globalTxn st = Some g → markWrite true st = (st1, Ok tt) →
  wrote ctx (writes st) (writes ((do^ stage_global f in eret r) st1).1).
Proof. intros Hd Hg Hm. pose proof (global_tail ctx f r g st Hd Hg) as H. rewrite Hm in H. by apply H. Qed.
Lemma insert_global_wrote ctx tn table meta v st : k_dbWrite ctx = true →
  wrote ctx (writes st) (writes (insert_global randomId hasWrite ctx tn table meta v st).1).
Proof.
  intros Hd. unfold insert_global. apply wrote_quiet; [auto with follows|]. intros [] st1 _ _. apply wrote_quiet; [auto with follows|].
  intros g st2 [-> Hg]%require_global _. apply wrote_quiet; [auto with follows|]. intros [] st3 [_ ->]%elift_ok _. apply wrote_quiet; [auto with follows|].
  intros [] st3 [_ ->]%ewhen_ok _. apply wrote_quiet; [auto with follows|]. intros [] st3 [_ ->]%elift_ok _.
  apply wrote_quiet; [apply quiet_new_id|]. intros id st4 _ W4. assert (Hg4 : globalTxn st4 = Some g) by (rewrite <-Hg; exact (f_equal w_global W4)).
  apply wrote_quiet; [auto with follows|]. intros docId st5 [_ ->]%elift_ok _. apply wrote_quiet; [auto with follows|]. intros ts st5 [= <- _] _.
  apply wrote_marked. intros st6 Hm. by eapply global_end.
Qed.
Lemma replace_global_wrote ctx meta (id : jsstr) v st : k_dbWrite ctx = true →
  wrote ctx (writes st) (writes (replace_global d1 hasWrite ctx meta id v st).1).
Proof.
  intros Hd. unfold replace_global. apply wrote_quiet; [auto with follows|]. intros [] st1 _ _. apply wrote_quiet; [auto with follows|].
  intros g st2 [-> Hg]%require_global _. apply wrote_quiet; [auto with follows|]. intros old st3 [_ ->]%elift_ok _. destruct old as [old|]; [|apply wrote_nothing].
  apply wrote_quiet; [auto with follows|]. intros conv st3 [_ ->]%elift_ok _. apply wrote_quiet; [auto with follows|]. intros [] st3 [_ ->]%elift_ok _.
  apply wrote_quiet; [auto with follows|]. intros [] st3 [_ ->]%elift_ok _. apply wrote_marked. intros st6 Hm.
  unfold kept_time. rewrite (ebind_run _ _ st6 st6 (own_or old (js "_creationTime") (creation_time (snapshotTs (txn st6))))) by done.
  by eapply global_end.
Qed.

(** Every syscall of user code does one of four things to its transaction: it writes nothing; it marks the store it was about to
    write and throws; it stages exactly one document of the local store, whose shard, policy, ownership and id guards have all
    passed, with its index entries and their write ranges (none of them when a key of the document cannot be encoded), no
    global table having been written; or it stages one global write, no local table having been written. *)
Lemma syscall_writes ctx op st : names_tables →
  wrote ctx (writes st) (writes (dispatch store cat d1 randomId hasRead hasWrite readPolicy writePolicy ctx op st).1).
Proof.
  intros Hnames. destruct op as [id|table v|id v|id|spec|spec cursor size scan|arg]; cbn [dispatch].
  - rewrite (follows_get_handler store cat d1 hasRead same_writes readPolicy Hread ctx id st). apply wrote_nothing.
  - unfold handleDbInsert. destruct (k_dbWrite ctx) eqn:Hd; [|apply wrote_nothing]. apply wrote_quiet; [auto with follows|]. intros [] st1 _ _.
    apply wrote_quiet; [auto with follows|]. intros [tn fullName] st2 [Ht _]%elift_ok _. unfold requireTable in Ht.
    destruct (getTable cat _) as [meta|] eqn:Em in Ht; [|done]. injection Ht as <- <-. set (name := if k_privileged ctx then _ else _) in *.
    destruct (Hnames name meta Em) as [<- Hn]. apply wrote_quiet; [auto with follows|]. intros conv st3 _ _. rewrite Em.
    destruct (tm_mode meta) eqn:Emo; [apply insert_local_wrote..|apply insert_global_wrote]; try done; by rewrite Emo.
  - unfold handleDbReplace. destruct (k_dbWrite ctx) eqn:Hd; [|apply wrote_nothing]. apply wrote_quiet; [auto with follows|]. intros [] st1 _ _.
    apply wrote_quiet; [auto with follows|]. intros iid st2 [Hid _]%elift_ok _. apply wrote_quiet; [auto with follows|]. intros meta st3 [Hm _]%elift_ok _.
    unfold table_of_id in Hm. destruct (getTableByNumber cat _) as [meta'|] eqn:Em; [|done]. injection Hm as ->.
    apply wrote_quiet; [auto with follows|]. intros [] st4 [Ho _]%elift_ok _.
    destruct (tm_mode meta) eqn:Emo; [apply replace_local_wrote..|apply replace_global_wrote]; try done; by rewrite Emo.
  - unfold handleDbDelete. destruct (k_dbWrite ctx) eqn:Hd; [|apply wrote_nothing]. apply wrote_quiet; [auto with follows|]. intros [] st1 _ _.
    apply wrote_quiet; [auto with follows|]. intros iid st2 [Hid _]%elift_ok _. apply wrote_quiet; [auto with follows|]. intros meta st3 [Hm _]%elift_ok _.
    unfold table_of_id in Hm. destruct (getTableByNumber cat _) as [meta'|] eqn:Em; [|done]. injection Hm as ->.
    apply wrote_quiet; [auto with follows|]. intros [] st4 [Ho _]%elift_ok _.
    destruct (tm_mode meta) eqn:Emo; [apply delete_local_wrote; try done; try (by rewrite Emo); by eapply decodeDocumentId_ok..|].
    apply wrote_quiet; [auto with follows|]. intros [] st5 _ _. apply wrote_marked. intros st6 Hmk.
    unfold ebind at 1. destruct (requireGlobalTxn st6) as [st7 [g|e]] eqn:Eg.
    + apply require_global in Eg as [-> Eg]. eapply global_end; [done| |exact Hmk]. pose proof (proj1 (mark_writes true st5)) as W. rewrite Hmk in W.
      rewrite <-Eg. symmetry. exact (f_equal w_global W).
    + pose proof (quiet_require_global st6) as W. rewrite Eg in W. cbn [fst] in W |- *. rewrite W. pose proof (proj1 (mark_writes true st5)) as W5.
      rewrite Hmk in W5. cbn [fst] in W5. rewrite W5. apply wrote_mark.
  - rewrite (follows_query store cat d1 hasRead same_writes readPolicy Hread ctx spec (quiet_traces ctx) st). apply wrote_nothing.
  - rewrite (follows_paginate store cat hasRead same_writes readPolicy Hread ctx spec _ (quiet_traces ctx) st). apply wrote_nothing.
  - rewrite (follows_log store same_writes arg st). apply wrote_nothing.
Qed.
End writers.
