(* ===== verification/Executor.v ===== *)
(** The executor of [packages/executor/src]: the guest database API ([guest.ts]), the determinism profiles ([profile.ts]), the seeded generator
    ([seeded-random.ts]) and [InlineUdfExecutor] ([executor.ts]): the contexts a function and its components run in, the memoized rule context,
    shard resolution, the attempt a transaction runs, and what is made of its commit. User code is a tree of API calls. *)
From S2P Require Import Prelude Effects Numbers Values Json Validators IndexKeys Ranges IdCodec DocStore ShardRouting MvccStore Transactor QueryEngine Policy Kernel.

(** ** The guest API *)
(** A value of the guest with the brand its object carries, if it is the one a scan returned. *)
Record gval := { g_value : value; g_brand : option Z }.
Definition plain (v : value) : gval := {| g_value := v; g_brand := None |}.

Record QueryBuilder := {
  qb_table : jsstr; qb_index : jsstr; qb_range : list (jsstr * QueryOperator * value); qb_filters : list (ComparisonOp * jsstr * value);
  qb_order : Order; qb_limit : option Z }.
Definition query (table index : jsstr) : QueryBuilder :=
  {| qb_table := table; qb_index := index; qb_range := []; qb_filters := []; qb_order := Asc; qb_limit := None |}.
(** [eq], [gt], [gte], [lt] and [lte] *)
Definition qb_bound (q : QueryBuilder) (op : QueryOperator) (field : jsstr) (v : value) : QueryBuilder :=
  {| qb_table := qb_table q; qb_index := qb_index q; qb_range := qb_range q ++ [(field, op, v)]; qb_filters := qb_filters q;
     qb_order := qb_order q; qb_limit := qb_limit q |}.
Definition qb_where (q : QueryBuilder) (op : ComparisonOp) (field : jsstr) (v : value) : QueryBuilder :=
  {| qb_table := qb_table q; qb_index := qb_index q; qb_range := qb_range q; qb_filters := qb_filters q ++ [(op, field, v)];
     qb_order := qb_order q; qb_limit := qb_limit q |}.
Definition qb_directed (q : QueryBuilder) (dir : Order) : QueryBuilder :=
  {| qb_table := qb_table q; qb_index := qb_index q; qb_range := qb_range q; qb_filters := qb_filters q; qb_order := dir; qb_limit := qb_limit q |}.
Definition qb_take (q : QueryBuilder) (n : Z) : QueryBuilder :=
  {| qb_table := qb_table q; qb_index := qb_index q; qb_range := qb_range q; qb_filters := qb_filters q; qb_order := qb_order q; qb_limit := Some n |}.
Definition serializeQuery (q : QueryBuilder) : QuerySpec :=
  {| qs_table := qb_table q; qs_index := qb_index q; qs_range := Some (List.map (λ '(f, op, v), (f, op, convexToJson v)) (qb_range q));
     qs_order := Some (qb_order q); qs_filters := Some (List.map (λ '(op, f, v), (op, f, convexToJson v)) (qb_filters q)); qs_limit := qb_limit q |}.

Inductive api :=
  | AGet (id : jsstr)
  | AInsert (table : jsstr) (v : value)
  | AReplace (id : jsstr) (v : value)
  | ADelete (id : jsstr)
  | ACollect (q : QueryBuilder)
  | APaginate (q : QueryBuilder) (cursor : option jsstr) (pageSize : Z) (maxScan : option Z).
Definition api_call (a : api) : syscall :=
  match a with
  | AGet id => SGet id
  | AInsert table v => SInsert table (convexToJson v)
  | AReplace id v => SReplace id (convexToJson v)
  | ADelete id => SDelete id
  | ACollect q => SQuery (serializeQuery q)
  | APaginate q cursor pageSize maxScan => SPaginate (serializeQuery q) cursor pageSize maxScan
  end.
(** A query's database has no method that writes. *)
Definition api_writes (a : api) : bool := match a with AInsert _ _ | AReplace _ _ | ADelete _ => true | _ => false end.
Definition opt_str (s : option jsstr) : value := match s with Some s => VStr s | None => VNull end.
Definition api_result (r : reply) : res gval :=
  match r with
  | RDoc None | REmpty | RNull => Ok (plain VNull)
  | RDoc (Some j) => let! v := jsonToConvex j in Ok (plain v)
  | RId id => Ok (plain (VStr id))
  | RDocs docs token => let! vs := traverse jsonToConvex docs in Ok {| g_value := VArr vs; g_brand := token |}
  | RPage page nextCursor hasMore scanCapped token =>
      let! vs := traverse jsonToConvex page in
      Ok {| g_value := VObj [(js "page", VArr vs); (js "nextCursor", opt_str nextCursor); (js "hasMore", VBool hasMore); (js "scanCapped", VBool scanCapped)];
            g_brand := token |}
  end.

(** ** User code *)
(** Code that calls the API through the channels [C]. *)
Inductive guest (C V : Type) :=
  | GRet (v : V)
  | GThrow (e : exn)
  | GDo (c : C) (a : api) (k : res gval → guest C V).
Arguments GRet {C V}.
Arguments GThrow {C V}.
Arguments GDo {C V}.
(** A function reaches the kernel through its own context and those of the components' facades; a policy through the readers of the
    rule context: those of its providers (which may read through facades) and its [db]. *)
Inductive channel := ChMain | ChFacade (namespace : jsstr) (write : bool).
Inductive rule_channel := RcProvider (namespace : jsstr) | RcDb.

Inductive UdfType := UQuery | UMutation | UAction | UHttpAction.
Record UdfCapabilities := { dbRead : bool; dbWrite : bool }.
Definition profileFor (t : UdfType) : UdfCapabilities :=
  match t with
  | UQuery => {| dbRead := true; dbWrite := false |}
  | UMutation => {| dbRead := true; dbWrite := true |}
  | UAction | UHttpAction => {| dbRead := false; dbWrite := false |}
  end.

Record TablePolicy := { tp_read : option (value → guest rule_channel PolicyPredicate); tp_write : option (value → value → guest rule_channel bool) }.
(** What a run takes from its options: the rule context's providers are [None] when there are none. *)
Record RunConfig := {
  rc_type : UdfType; rc_namespace : jsstr; rc_privileged : bool; rc_shardId : ShardId; rc_numShards : Z; rc_shardDeclared : bool;
  rc_policies : jsstr → option TablePolicy; rc_relations : RelationRegistry; rc_ruleBuild : option (guest rule_channel value) }.

Definition base_context (cfg : RunConfig) (write : bool) (namespace : jsstr) (privileged : bool) : KernelContext :=
  {| k_dbWrite := write; k_namespace := namespace; k_privileged := privileged; k_shardId := rc_shardId cfg; k_numShards := rc_numShards cfg;
     k_shardDeclared := rc_shardDeclared cfg; k_enforce := false; k_traced := false; k_notesGlobal := false |}.
Definition is_query (t : UdfType) : bool := match t with UQuery => true | _ => false end.
Definition is_mutation (t : UdfType) : bool := match t with UMutation => true | _ => false end.
Definition context_of (cfg : RunConfig) (c : channel) : KernelContext :=
  match c with
  | ChMain =>
      {| k_dbWrite := dbWrite (profileFor (rc_type cfg)); k_namespace := rc_namespace cfg; k_privileged := rc_privileged cfg;
         k_shardId := rc_shardId cfg; k_numShards := rc_numShards cfg; k_shardDeclared := rc_shardDeclared cfg;
         k_enforce := match rc_ruleBuild cfg with Some _ => true | None => false end;
         k_traced := is_query (rc_type cfg); k_notesGlobal := true |}
  | ChFacade ns write => base_context cfg (write && is_mutation (rc_type cfg)) ns false
  end.
Definition rule_context_of (cfg : RunConfig) (c : rule_channel) : KernelContext :=
  match c with
  | RcProvider ns => base_context cfg false ns false
  | RcDb => base_context cfg false (rc_namespace cfg) (rc_privileged cfg)
  end.

Section guest.
Context {C : Type}.
Variable exec : C → syscall → eff KState reply.
Variable context : C → KernelContext.
(** A method of the guest's database: nothing crosses the channel for one it does not have. *)
Definition api_do (c : C) (a : api) : eff KState gval :=
  if api_writes a && negb (k_dbWrite (context c)) then ethrow TypeError
  else let^ r := exec c (api_call a) in elift (api_result r).
Fixpoint run_guest {V} (g : guest C V) : eff KState V :=
  match g with
  | GRet v => eret v
  | GThrow e => ethrow e
  | GDo c a k => etry (api_do c a) (λ r, run_guest (k r))
  end.
End guest.

(** ** The run of a function in a transaction *)
Section run.
Context {S : Type} `{!MvccStore S}.
Variable store : S.
Variable cat : SimpleIndexCatalog.
Variable d1 : D1Store.
Variable randomId : nat → bytes.
Variable cfg : RunConfig.

(** Facades and the rule context reach the kernel without policies. *)
Definition base_exec (ctx : KernelContext) (op : syscall) : eff KState reply :=
  dispatch store cat d1 randomId (λ _, false) (λ _, false) (λ _, eret None) (λ _ _, eret true) ctx op.
Definition rule_exec (c : rule_channel) (op : syscall) : eff KState reply := base_exec (rule_context_of cfg c) op.
Definition run_rule {V} (g : guest rule_channel V) : eff KState V := run_guest rule_exec (rule_context_of cfg) g.

Definition getRuleContext : eff KState value :=
  let^ cached := eget ruleContext in
  match cached, rc_ruleBuild cfg with
  | Some r, _ => elift r
  | None, Some build => etry (run_rule build) (λ r, do^ edo (λ st, with_rule st r) in elift r)
  | None, None => ethrow TypeError
  end.
(** [rc.db.query(table, "by_creation").collect()] *)
Definition collect_all (table : jsstr) : eff KState (list value) :=
  let^ r := api_do rule_exec (rule_context_of cfg) RcDb (ACollect (query table (js "by_creation"))) in
  match g_value r with VArr rows => eret rows | _ => ethrow TypeError end.
Definition has_read (table : jsstr) : bool := match rc_policies cfg table ≫= tp_read with Some _ => true | None => false end.
Definition has_write (table : jsstr) : bool := match rc_policies cfg table ≫= tp_write with Some _ => true | None => false end.
Definition resolveReadPolicy (table : jsstr) : eff KState (option FilterExpr) :=
  let^ rc := getRuleContext in
  match rc_policies cfg table ≫= tp_read with
  | None => eret None
  | Some read => let^ p := run_rule (read rc) in resolveWhere collect_all (rc_relations cfg) p table
  end.
Definition evalWritePolicy (table : jsstr) (row : value) : eff KState bool :=
  let^ rc := getRuleContext in
  match rc_policies cfg table ≫= tp_write with
  | None => eret true
  | Some write => run_rule (write rc row)
  end.

Definition exec (c : channel) (op : syscall) : eff KState reply :=
  match c with
  | ChMain => dispatch store cat d1 randomId has_read has_write resolveReadPolicy evalWritePolicy (context_of cfg ChMain) op
  | c => base_exec (context_of cfg c) op
  end.

(** What a handler returns. *)
Inductive outcome := OValue (v : gval) | OCommitThenThrow (message : jsstr).
Definition new_KState (snapshot : Z) (h : HeadroomTracker) (hasGlobalStore : bool) (token : Z) (n : nat) : KState :=
  {| txn := new_Ctx snapshot (rc_shardId cfg) h; logs := []; globalTxn := if hasGlobalStore then Some new_GlobalTxn else None;
     wroteLocal := false; wroteGlobal := false; globalReads := []; collectTrace := []; paginateTrace := []; collectTokenSeq := token; drawn := n;
     ruleContext := None |}.
Record Attempt := {
  at_outcome : outcome; at_logs : list jsstr; at_readRanges : list KeyRange; at_globalTables : list jsstr;
  at_collectTrace : list CollectTrace; at_paginateTrace : list PaginateTrace; at_globalOps : list GlobalWriteOp }.
(** The callback of [runInTransaction], whose reads the handler has all awaited. *)
Definition attempt (handler : guest channel outcome) : eff KState Attempt :=
  let^ out := run_guest exec (context_of cfg) handler in
  eget (λ st, {| at_outcome := out; at_logs := logs st; at_readRanges := toArray (reads (txn st)); at_globalTables := globalReads st;
                 at_collectTrace := collectTrace st; at_paginateTrace := paginateTrace st;
                 at_globalOps := match globalTxn st with Some g => if hasWrites g then ops g else [] | None => [] end |}).
End run.

(** ** What is made of a commit *)
Record DiffableRange := { dr_keyspace : jsstr; dr_bounds : SerializedKeyRange; dr_filters : list FilterExpr; dr_order : Order; dr_fields : list jsstr }.
Record PageMeta := { pm_nextCursor : option jsstr; pm_hasMore : bool; pm_scanCapped : bool }.
Definition classifyDiffableRange (v : gval) (trace : list CollectTrace) (readRanges : list KeyRange) : option DiffableRange :=
  match trace, readRanges, g_value v with
  | [t], [r], VArr _ =>
      if ct_hadReadPolicy t || ct_hadLimit t || bool_decide (keyspace r ≠ ct_keyspace t) || bool_decide (g_brand v ≠ Some (ct_token t)) then None
      else Some {| dr_keyspace := ct_keyspace t; dr_bounds := ct_bounds t; dr_filters := ct_filters t; dr_order := ct_order t; dr_fields := ct_fields t |}
  | _, _, _ => None
  end.
Definition classifyDiffablePage (v : gval) (trace : list PaginateTrace) (readRanges : list KeyRange) : option (DiffableRange * PageMeta) :=
  match trace, readRanges, g_value v with
  | [t], [r], (VObj _ | VBytes _) =>
      if pt_hadReadPolicy t || pt_scanCapped t || bool_decide (keyspace r ≠ pt_keyspace t) || bool_decide (g_brand v ≠ Some (pt_token t)) then None
      else Some ({| dr_keyspace := pt_keyspace t; dr_bounds := pt_bounds t; dr_filters := pt_filters t; dr_order := pt_order t; dr_fields := pt_fields t |},
                 {| pm_nextCursor := pt_nextCursor t; pm_hasMore := pt_hasMore t; pm_scanCapped := pt_scanCapped t |})
  | _, _, _ => None
  end.

Record UdfResult := {
  ur_value : gval; ur_logs : list jsstr; ur_committed : bool; ur_commitTs : Z; ur_readRanges : list KeyRange; ur_globalTables : list jsstr;
  ur_oplog : option OplogDelta; ur_diffableRange : option DiffableRange; ur_diffablePage : option (DiffableRange * PageMeta) }.
(** An error of the executor, with the timestamp stamped on one thrown after its commit. *)
Record RunError := { re_message : jsstr; re_committedTs : option Z }.
(** The batch of global writes to flush, and the answer to the caller once it has landed. *)
Definition finish (t : UdfType) (c : CommitResult Attempt) : list GlobalWriteOp * (UdfResult + RunError) :=
  let a := cr_value c in
  (at_globalOps a,
   match at_outcome a with
   | OCommitThenThrow message => inr {| re_message := message; re_committedTs := Some (cr_commitTs c) |}
   | OValue v =>
       inl {| ur_value := v; ur_logs := at_logs a; ur_committed := cr_committed c; ur_commitTs := cr_commitTs c; ur_readRanges := at_readRanges a;
              ur_globalTables := at_globalTables a; ur_oplog := cr_oplog c;
              ur_diffableRange := if is_query t then classifyDiffableRange v (at_collectTrace a) (at_readRanges a) else None;
              ur_diffablePage := if is_query t then classifyDiffablePage v (at_paginateTrace a) (at_readRanges a) else None |}
   end).

(** ** Where a call runs *)
Inductive ShardBy := ByField (field : jsstr) | ByFunction (f : value → res value).
Record RegisteredFunction := { fn_type : UdfType; fn_argsValidator : option validator; fn_shardBy : option ShardBy }.
Record RunOptions := { opt_privileged : bool; opt_shardId : option ShardId; opt_numShards : option Z; opt_localOnly : bool }.
Definition ArgumentValidationError : exn := UserError "ARGUMENT_VALIDATION".

Definition validateArgs (fn : RegisteredFunction) (args : value) : res unit :=
  match fn_type fn, fn_argsValidator fn with
  | UHttpAction, _ | _, None => Ok tt
  | _, Some vd => match validate vd args with [] => Ok tt | _ => Err ArgumentValidationError end
  end.
Definition shardDeclared (fn : RegisteredFunction) : bool := is_mutation (fn_type fn) && match fn_shardBy fn with Some _ => true | None => false end.
(** The value [shardBy] yields; a field that is absent has none, and one of no object is absent. *)
Definition shardKeyValue (by_ : ShardBy) (args : value) : res (option value) :=
  match by_ with
  | ByField f => Ok (prop args f)
  | ByFunction f => match f args with Ok v => Ok (Some v) | Err _ => Err (PlainError "shardBy resolver threw") end
  end.
Definition resolveShard (fn : RegisteredFunction) (args : value) (o : RunOptions) : res ShardId :=
  match fn_shardBy fn with
  | Some by_ =>
      if is_mutation (fn_type fn) then
        let! v := shardKeyValue by_ args in
        match v with Some v => shard_of v (default 1 (opt_numShards o)) | None => Err TypeError end
      else Ok (if opt_privileged o then default DEFAULT_SHARD (opt_shardId o) else DEFAULT_SHARD)
  | None => Ok (if opt_privileged o then default DEFAULT_SHARD (opt_shardId o) else DEFAULT_SHARD)
  end.
Inductive route := RtAction | RtForward (shard : ShardId) | RtLocal (shard : ShardId) (replica : bool).
(** [isLocalWriter] is that of the write router, [None] without one. *)
Definition routeCall (isLocalWriter : option (ShardId → bool)) (hasQueryPath primaryRead : bool) (fn : RegisteredFunction) (args : value) (o : RunOptions) : res route :=
  let! _ := validateArgs fn args in
  match fn_type fn with
  | UAction | UHttpAction => Ok RtAction
  | t =>
      let! shard := resolveShard fn args o in
      if is_mutation t && match isLocalWriter with Some f => negb (opt_localOnly o) && negb (f shard) | None => false end then Ok (RtForward shard)
      else Ok (RtLocal shard (is_query t && hasQueryPath && negb primaryRead))
  end.

(** ** Actions *)
Inductive call_kind := KQuery | KMutation | KAction.
Inductive action (V : Type) :=
  | ActRet (v : V)
  | ActThrow (e : exn)
  | ActRun (kind : call_kind) (path : jsstr) (args : value) (k : res value → action V).
Arguments ActRet {V}.
Arguments ActThrow {V}.
Arguments ActRun {V}.
(** The answers of [invoke]: a value and the timestamp of its commit. *)
Fixpoint runActionFn {V} (invoke : jsstr → json → res (value * Z)) (a : action V) (maxCommitTs : Z) : Z * res V :=
  match a with
  | ActRet v => (maxCommitTs, Ok v)
  | ActThrow e => (maxCommitTs, Err e)
  | ActRun kind path args k =>
      match invoke path (convexToJson args) with
      | Ok (v, ts) => runActionFn invoke (k (Ok v)) (match kind with KQuery => maxCommitTs | _ => if maxCommitTs <? ts then ts else maxCommitTs end)
      | Err e => runActionFn invoke (k (Err e)) maxCommitTs
      end
  end.

(** ** The seeded generator (mulberry32) *)
Definition to_int32 (z : Z) : Z := (z + 2 ^ 31) mod 2 ^ 32 - 2 ^ 31.
Definition to_uint32 (z : Z) : Z := z mod 2 ^ 32.
Definition imul (a b : Z) : Z := to_int32 (a * b).
Definition ushr (a n : Z) : Z := Z.shiftr (to_uint32 a) n.
(** The next state and the numerator of the next number over [2^32]. *)
Definition random_next (a : Z) : Z * Z :=
  let a := to_int32 (a + 0x6d2b79f5) in
  let t := imul (to_int32 (Z.lxor a (to_int32 (ushr a 15)))) (Z.lor 1 a) in
  let t := to_int32 (Z.lxor (to_int32 (t + imul (to_int32 (Z.lxor t (to_int32 (ushr t 7)))) (Z.lor 61 t))) t) in
  (a, to_uint32 (Z.lxor t (to_int32 (ushr t 14)))).
