(* ===== verification/KernelSafety.v ===== *)
(** Safety of the runs of [Executor]: whatever a function, the facades it calls and the policies that guard it do, its transaction writes one
    store, writes only documents its shard owns, and reports every index key it changes as written. *)
From S2P Require Import Prelude Effects Numbers Values Json Validators IndexKeys Ranges IdCodec DocStore ShardRouting MvccStore Transactor Serializability QueryEngine Policy Kernel.
From S2P Require Import KernelWrites Executor.

(** ** The code of policies *)
Section rules.
Context {S : Type} `{!MvccStore S}.
Context (store : S) (cat : SimpleIndexCatalog) (d1 : D1Store) (randomId : nat → bytes) (cfg : RunConfig).
Context (R : KState → KState → Prop) `{!ReadsFollow store R}.

Lemma follows_base ctx op : k_dbWrite ctx = false → tracing R ctx → follows R (base_exec store cat d1 randomId ctx op).
Proof.
  intros Hd Ht. unfold base_exec, dispatch. destruct op.
  - by apply (follows_get_handler store); auto with follows.
  - unfold handleDbInsert. rewrite Hd. intros st. exact (reflexivity st).
  - unfold handleDbReplace. rewrite Hd. intros st. exact (reflexivity st).
  - unfold handleDbDelete. rewrite Hd. intros st. exact (reflexivity st).
  - by apply (follows_query store); auto with follows.
  - by apply (follows_paginate store); auto with follows.
  - by apply (follows_log store).
Qed.
Lemma follows_rule_api c a : follows R (api_do (rule_exec store cat d1 randomId cfg) (rule_context_of cfg) c a).
Proof. unfold api_do. destruct (_ && _); [auto with follows|]. follows_step; [|auto with follows]. apply follows_base; [by destruct c|left; by destruct c]. Qed.
Lemma follows_rule {V} (g : guest rule_channel V) : follows R (run_rule store cat d1 randomId cfg g).
Proof. induction g as [v|e|c a k IH]; [apply (follows_ret R v)|apply (follows_throw R e)|]. apply follows_try; [apply _|apply follows_rule_api|done]. Qed.
Lemma follows_rule_context `{!RuleFollow R} : follows R (getRuleContext store cat d1 randomId cfg).
Proof.
  unfold getRuleContext. follows_step; [auto with follows|]. destruct a as [r|]; [auto with follows|]. destruct (rc_ruleBuild cfg); [|auto with follows].
  follows_step; [apply follows_rule|]. follows_step; [|auto with follows]. apply follows_do. intros st. apply rf_rule.
Qed.
Lemma follows_collect_all t : follows R (collect_all store cat d1 randomId cfg t).
Proof. unfold collect_all. follows_step; [apply follows_rule_api|]. destruct (g_value a); auto with follows. Qed.
Lemma follows_resolve (w : WhereInput) parent depth : follows R (resolveNode (collect_all store cat d1 randomId cfg) (rc_relations cfg) w parent depth).
Proof.
  revert parent depth. induction w as [ws IH|ws IH|w IH|fs IH] using where_nested_ind; intros parent depth; cbn [resolveNode].
  - follows_step; [|auto with follows]. apply follows_traverse; [apply _|]. intros x Hx. rewrite Forall_forall in IH. by apply IH.
  - follows_step; [|auto with follows]. apply follows_traverse; [apply _|]. intros x Hx. rewrite Forall_forall in IH. by apply IH.
  - follows_step; [done|auto with follows].
  - follows_step; [|auto with follows]. apply follows_traverse; [apply _|]. intros [key c] Hx. rewrite Forall_forall in IH. specialize (IH _ Hx). cbn in IH.
    pose proof follows_collect_all. destruct c as [v|o|[] w]; cbn [resolveClause]; unfold collectToManyIds, collectToOneIds; repeat follows_step.
Qed.
Lemma follows_resolveWhere p t : follows R (resolveWhere (collect_all store cat d1 randomId cfg) (rc_relations cfg) p t).
Proof. destruct p as [|[]|w]; cbn; try auto with follows. follows_step; [apply follows_resolve|auto with follows]. Qed.
Lemma follows_read_rules t : follows R (getRuleContext store cat d1 randomId cfg) → follows R (resolveReadPolicy store cat d1 randomId cfg t).
Proof.
  intros Hrule. unfold resolveReadPolicy. follows_step; [done|]. destruct (_ ≫= tp_read) as [read|]; [|auto with follows].
  follows_step; [apply follows_rule|apply follows_resolveWhere].
Qed.
Lemma follows_write_rules t row : follows R (getRuleContext store cat d1 randomId cfg) → follows R (evalWritePolicy store cat d1 randomId cfg t row).
Proof.
  intros Hrule. unfold evalWritePolicy. follows_step; [done|]. destruct (_ ≫= tp_write); [apply follows_rule|auto with follows].
Qed.
Lemma follows_read_policy `{!RuleFollow R} t : follows R (resolveReadPolicy store cat d1 randomId cfg t).
Proof. apply follows_read_rules, follows_rule_context. Qed.
Lemma follows_write_policy `{!RuleFollow R} t row : follows R (evalWritePolicy store cat d1 randomId cfg t row).
Proof. apply follows_write_rules, follows_rule_context. Qed.
End rules.

(** ** Runs *)
Section run.
Context {S : Type} `{!MvccStore S}.
Context (store : S) (cat : SimpleIndexCatalog) (d1 : D1Store) (randomId : nat → bytes) (cfg : RunConfig).
Implicit Types (w : Writes).

(** The policies a channel enforces. *)
Definition writers_of (c : channel) : jsstr → bool := match c with ChMain => has_write cfg | _ => λ _, false end.
Definition policy_of (c : channel) : jsstr → value → eff KState bool :=
  match c with ChMain => evalWritePolicy store cat d1 randomId cfg | _ => λ _ _, eret true end.
(** One call of the API, seen by the writes of the transaction. *)
Definition api_step w w' : Prop := ∃ c, wrote store cat randomId (writers_of c) (policy_of c) (context_of cfg c) w w'.

Lemma exec_wrote c op st : names_tables cat → api_step (writes st) (writes (exec store cat d1 randomId cfg c op st).1).
Proof.
  intros Hn. exists c. destruct c as [|ns write]; unfold exec, base_exec, writers_of, policy_of.
  - apply syscall_writes; [intros ?; apply (follows_read_policy store cat d1 randomId cfg same_writes)|intros ? ?; apply (follows_write_policy store cat d1 randomId cfg same_writes)|done].
  - by apply syscall_writes.
Qed.
Lemma run_wrote {V} (g : guest channel V) st : names_tables cat →
  rtc api_step (writes st) (writes (run_guest (exec store cat d1 randomId cfg) (context_of cfg) g st).1).
Proof.
  intros Hn. revert st. induction g as [v|e|c a k IH]; intros st; [apply rtc_refl..|]. cbn [run_guest]. unfold etry.
  assert (Hs : api_step (writes st) (writes (api_do (exec store cat d1 randomId cfg) (context_of cfg) c a st).1)).
  { unfold api_do. destruct (_ && _); [exists c; apply wrote_nothing|]. pose proof (exec_wrote c (api_call a) st Hn) as H. unfold ebind.
    by destruct (exec _ _ _ _ _ c (api_call a) st) as [st1 [r|e]]. }
  destruct (api_do _ _ c a st) as [st1 r]. cbn [fst] in Hs. eapply rtc_l; [exact Hs|apply IH].
Qed.
(** What every call keeps, a run keeps. *)
Lemma run_keeps {V} (I : Writes → Prop) (g : guest channel V) st : names_tables cat → (∀ w w', I w → api_step w w' → I w') →
  I (writes st) → I (writes (run_guest (exec store cat d1 randomId cfg) (context_of cfg) g st).1).
Proof. intros Hn HI H0. pose proof (run_wrote g st Hn) as H. induction H as [|w w1 w2 Hs _ IH]; [done|]. by apply IH, (HI w). Qed.
End run.

(** ** One store *)
Section one_store.
Context {S : Type} `{!MvccStore S}.
Context (store : S) (cat : SimpleIndexCatalog) (d1 : D1Store) (randomId : nat → bytes) (cfg : RunConfig).
Implicit Types (w : Writes).

Definition global_ops w : list GlobalWriteOp := match w_global w with Some g => ops g | None => [] end.
(** Nothing is written to a store before its flag is set, and never to both. *)
Definition one_store w : Prop :=
  (w_local w = false → w_staged w = [] ∧ w_updates w = []) ∧ (w_globalFlag w = false → global_ops w = []) ∧
  (w_staged w = [] ∧ w_updates w = [] ∨ global_ops w = []).

Lemma indexed_write_local table old new id w w' : indexed_write cat table old new id w w' →
  w_local w' = w_local w ∧ w_globalFlag w' = w_globalFlag w ∧ w_global w' = w_global w ∧ w_staged w' = w_staged w ∧
  w_snapshot w' = w_snapshot w ∧ w_shard w' = w_shard w.
Proof. by intros []. Qed.
Lemma one_store_step w w' : one_store w → api_step store cat d1 randomId cfg w w' → one_store w'.
Proof.
  intros (Hl & Hg & Ho) [c Hs]. destruct Hs as [|b|meta id old new w' _ _ _ _ Hf Hi|g g' _ Hf Eg]; [done|..].
  - split; [|split; [|done]]; cbn; intros [Hf _]%orb_false_iff; [by apply Hl|by apply Hg].
  - apply indexed_write_local in Hi as (E1 & E2 & E3 & _). unfold one_store, global_ops. rewrite E1, E2, E3. cbn. rewrite orb_true_r, orb_false_r. specialize (Hg Hf).
    split; [done|]. split; [done|]. by right.
  - unfold one_store. cbn. rewrite Hf, orb_true_r. split; [by intros _; apply Hl|]. split; [done|]. left. by apply Hl.
Qed.

(** C6: a function writes one store. Whatever its code does, and whatever errors of the kernel it catches and survives, the transaction
    an attempt leaves behind has either nothing to commit to the document store (no document and no index entry) or nothing to flush to the
    global one: the batch of global writes that follows a commit is empty whenever documents were staged. *)
Theorem single_store_writes {V} (g : guest channel V) snapshot h hasGlobal token n : names_tables cat →
  let st := (run_guest (exec store cat d1 randomId cfg) (context_of cfg) g (new_KState cfg snapshot h hasGlobal token n)).1 in
  staged (txn st) = [] ∧ indexUpdates (txn st) = [] ∨ ∀ gt, globalTxn st = Some gt → hasWrites gt = false.
Proof.
  intros Hn st. destruct (run_keeps store cat d1 randomId cfg one_store g (new_KState cfg snapshot h hasGlobal token n) Hn) as (_ & _ & Ho).
  - intros w w'. apply one_store_step.
  - unfold one_store, global_ops. cbn. by destruct hasGlobal; auto.
  - fold st in Ho. destruct Ho as [Ho|Ho]; [by left|right]. intros gt E. unfold global_ops in Ho. cbn in Ho. rewrite E in Ho. unfold hasWrites. by rewrite Ho.
Qed.
End one_store.

(** ** One shard *)
Section one_shard.
Context {S : Type} `{!MvccStore S}.
Context (store : S) (cat : SimpleIndexCatalog) (d1 : D1Store) (randomId : nat → bytes) (cfg : RunConfig).
Implicit Types (w : Writes) (meta : TableMeta).

(** The shard of a run owns the documents of a sharded table that route to it; the default one owns every other table's. *)
Definition owned meta (doc : value) : Prop :=
  match sharding meta with
  | Some key => ∃ v, prop doc key = Some v ∧ shard_of v (rc_numShards cfg) = Ok (rc_shardId cfg)
  | None => rc_shardId cfg = DEFAULT_SHARD
  end.
Definition snapshot_doc (ts : Z) (id : InternalDocumentId) (doc : value) : Prop :=
  ∃ d, ms_get store id (Some ts) = Ok (Some d) ∧ rd_value (ld_value d) = doc.
(** A staged write of a document, and the one it replaces or deletes. *)
Definition write_owned (ts : Z) (l : LocalWrite) : Prop := ∃ meta, getTableByNumber cat (tableNumber (lw_id l)) = Some meta ∧
  (∀ doc, lw_value l = Some doc → sharding meta ≠ None → owned meta doc) ∧
  (∀ doc, snapshot_doc ts (lw_id l) doc → owned meta doc).

Context (ts : Z) (Hpriv : rc_privileged cfg = false) (Hbytes : ∀ n, Forall is_byte (randomId n)).
Context (Hfresh : ∀ id n, internalId id = randomId n → ms_get store id (Some ts) = Ok None).

Record shard_inv w : Prop := {
  sv_ts : w_snapshot w = ts;
  sv_ok : jm_ok (w_staged w);
  sv_key : ∀ k l, jm_get (w_staged w) k = Some l → k = documentIdKey (lw_id l) ∧ 0 ≤ tableNumber (lw_id l) ∧ Forall is_byte (internalId (lw_id l));
  sv_owned : ∀ k l, jm_get (w_staged w) k = Some l → write_owned ts l }.

Lemma context_unprivileged c : k_privileged (context_of cfg c) = false ∧ k_shardId (context_of cfg c) = rc_shardId cfg ∧
  k_numShards (context_of cfg c) = rc_numShards cfg.
Proof. by destruct c. Qed.

(** The guards of a write say who owns its document. *)
Lemma shard_write_owned c meta doc op : enforceShardWrite (context_of cfg c) meta doc op = Ok tt → op ≠ OpInsert ∨ sharding meta ≠ None → owned meta doc.
Proof.
  unfold enforceShardWrite, owned, shardOfDoc. destruct (context_unprivileged c) as (-> & -> & ->). destruct (sharding meta) as [key|].
  - destruct (forbid _) as [[]|]; [|done]. cbn [res_bind]. destruct (prop doc key) as [v|]; [|done]. destruct (shard_of v _) as [s|] eqn:Es; [|done]. cbn [res_bind].
    unfold forbid. case_bool_decide; [done|]. intros _ _. exists v. split; [done|]. rewrite Es. by subst.
  - unfold forbid. destruct op; [intros _ [H|H]; by destruct H| |]; by case_bool_decide.
Qed.
Lemma same_key_owned c meta oldDoc newDoc : enforceShardKeyImmutable (context_of cfg c) meta oldDoc newDoc = Ok tt →
  owned meta newDoc → owned meta oldDoc.
Proof.
  unfold enforceShardKeyImmutable, owned. destruct (context_unprivileged c) as (-> & _ & _). destruct (sharding meta) as [key|]; [|done].
  destruct (prop oldDoc key) as [o|]; [|done]. destruct (encodeIndexKey [o]) as [ko|] eqn:Eo; [|done].
  intros Hi (v & Hv & Hs). rewrite Hv in Hi. cbn [res_bind] in Hi. destruct (encodeIndexKey [v]) as [kv|] eqn:Ev; [|done]. cbn [res_bind] in Hi.
  destruct (compareKeyBytes ko kv) eqn:Ec; try done. apply cmp_eq in Ec; [|apply _]. subst kv. exists o. split; [done|].
  rewrite <-Hs. unfold shard_of, shardIdForKeyValue. by rewrite Eo, Ev.
Qed.

(** What the transaction saw of a document, by its writes or its snapshot. *)
Lemma seen_owned w meta id : shard_inv w → 0 ≤ tableNumber id → Forall is_byte (internalId id) → getTableByNumber cat (tableNumber id) = Some meta →
  (uw_get (w_staged w) id = None → ∀ doc, snapshot_doc ts id doc → owned meta doc) → ∀ doc, snapshot_doc ts id doc → owned meta doc.
Proof.
  intros [Ht _ Hk Ho] Hn Hb Hm Hs doc Hd. destruct (uw_get (w_staged w) id) as [l|] eqn:E; [|by apply Hs]. destruct (Hk _ _ E) as (K & Hn' & Hb').
  apply documentIdKey_inj in K; [|done..]. destruct (Ho _ _ E) as (meta' & Hm' & _ & H). rewrite <-K in Hm', H. rewrite Hm in Hm'. injection Hm' as ->. by apply H.
Qed.
Lemma viewed_snapshot w id v doc : w_snapshot w = ts → doc_view store w id = Ok v → uw_get (w_staged w) id = None → snapshot_doc ts id doc → v = Some doc.
Proof. intros <-. unfold doc_view. intros Hv Hu (d & E & <-). rewrite Hu, E in Hv. cbn in Hv. by injection Hv as <-. Qed.

Lemma encode_nonneg id text : encodeInternalDocumentId id = Ok text → 0 ≤ tableNumber id.
Proof.
  unfold encodeInternalDocumentId, encodeDocumentId. destruct (negb _); [done|]. unfold varintEncode.
  destruct (_ || _) eqn:E; [done|]. intros _. apply orb_false_iff in E as [E _]. by apply Z.ltb_ge in E.
Qed.
Lemma guarded_owned c w meta id old new : shard_inv w → getTableByNumber cat (tableNumber id) = Some meta →
  guarded store randomId (writers_of cfg c) (policy_of store cat d1 randomId cfg c) (context_of cfg c) w meta id old new →
  0 ≤ tableNumber id ∧ Forall is_byte (internalId id) ∧ write_owned ts {| lw_id := id; lw_value := new |}.
Proof.
  intros HI Hm Hg. assert (Hid : 0 ≤ tableNumber id ∧ Forall is_byte (internalId id)).
  { destruct Hg as [doc Hf _ _ (text & He & _)|oldDoc newDoc _ _ _ _ _ _ (text & _ & Ht)|old _ _ _ Hok].
    - split; [by eapply encode_nonneg|]. destruct Hf as [[n ->]|[Hok _]]; [apply Hbytes|apply Hok].
    - apply decodeDocumentId_ok in Ht. split; apply Ht.
    - split; apply Hok. }
  destruct Hid as [Hn Hb]. split; [done|]. split; [done|]. exists meta. split; [done|]. cbn [lw_id lw_value].
  destruct Hg as [doc Hf Hsh _ _|oldDoc newDoc Hv Him Hsh _ _ _ _|old Hv Hd _ _].
  - split; [intros d [= <-] Hs; apply (shard_write_owned c meta doc OpInsert Hsh); by right|]. destruct Hf as [[n En]|[_ Hv]].
    + intros d (x & E & _). by rewrite (Hfresh id n En) in E.
    + eapply seen_owned; [done..|]. intros Hu d Hs. by pose proof (viewed_snapshot w id _ d (sv_ts w HI) Hv Hu Hs).
  - assert (Hnew : owned meta newDoc) by (apply (shard_write_owned c meta newDoc OpReplace Hsh); by left).
    split; [by intros d [= <-]|]. eapply seen_owned; [done..|]. intros Hu d Hs. pose proof (viewed_snapshot w id _ d (sv_ts w HI) Hv Hu Hs) as [= <-].
    by eapply same_key_owned.
  - split; [done|]. eapply seen_owned; [done..|]. intros Hu d Hs. pose proof (viewed_snapshot w id _ d (sv_ts w HI) Hv Hu Hs) as ->.
    apply (shard_write_owned c meta d OpDelete); [by apply Hd|by left].
Qed.
Lemma shard_inv_step w w' : shard_inv w → api_step store cat d1 randomId cfg w w' → shard_inv w'.
Proof.
  intros HI [c Hs]. destruct Hs as [|b|meta id old new w' _ Hm _ Hg _ Hi|g g' _ _ _]; [done|by destruct HI..| |by destruct HI].
  destruct (guarded_owned c w meta id old new HI Hm Hg) as (Hn & Hb & Ho). destruct HI as [Ht Hj Hk Hw].
  apply indexed_write_local in Hi as (_ & _ & _ & Es & Et & _). split.
  - by rewrite Et.
  - rewrite Es. by apply jm_set_ok.
  - intros k l. rewrite Es. cbn. unfold uw_set. rewrite jm_get_set. case_decide; [intros [= <-]; by subst|apply Hk].
  - intros k l. rewrite Es. cbn. unfold uw_set. rewrite jm_get_set. case_decide; [intros [= <-]; by subst|apply Hw].
Qed.
Lemma run_shard_inv {V} (g : guest channel V) h hasGlobal token n : names_tables cat →
  shard_inv (writes (run_guest (exec store cat d1 randomId cfg) (context_of cfg) g (new_KState cfg ts h hasGlobal token n)).1).
Proof. intros Hn. apply run_keeps; [done|apply shard_inv_step|]. split; try done. apply NoDup_nil_2. Qed.
Lemma run_write_owned {V} (g : guest channel V) h hasGlobal token n : names_tables cat → ∀ l,
  l ∈ uw_entries (staged (txn (run_guest (exec store cat d1 randomId cfg) (context_of cfg) g (new_KState cfg ts h hasGlobal token n)).1)) → write_owned ts l.
Proof.
  intros Hn l Hl. destruct (run_shard_inv g h hasGlobal token n Hn) as [_ Hj _ Ho].
  unfold uw_entries, jm_values in Hl. apply list_elem_of_fmap in Hl as ([k l'] & -> & Hl). apply (Ho k). by apply jm_get_elem.
Qed.

(** C3: a function writes its own shard. Run without privileges on a shard, a mutation stages a document of a sharded table only if the
    document routes to that shard, and replaces or deletes a document of the snapshot only if the shard owns it: by its shard key in a
    sharded table, and on the default shard alone in any other. This holds through every API call, facade and policy, and whatever
    errors the function catches, for a generator whose ids no document of the snapshot bears. *)
Theorem shard_ownership {V} (g : guest channel V) h hasGlobal token n : names_tables cat → ∀ l,
  l ∈ uw_entries (staged (txn (run_guest (exec store cat d1 randomId cfg) (context_of cfg) g (new_KState cfg ts h hasGlobal token n)).1)) →
  ∃ meta, getTableByNumber cat (tableNumber (lw_id l)) = Some meta ∧
    (∀ doc, lw_value l = Some doc → sharding meta ≠ None → owned meta doc) ∧
    (∀ doc, snapshot_doc ts (lw_id l) doc → owned meta doc).
Proof. intros Hn l Hl. by eapply run_write_owned. Qed.
End one_shard.

(** Two shards own no document in common. *)
Lemma owned_shard cfg cfg' meta doc : rc_numShards cfg = rc_numShards cfg' → owned cfg meta doc → owned cfg' meta doc → rc_shardId cfg = rc_shardId cfg'.
Proof.
  unfold owned. intros En. destruct (sharding meta); [|congruence]. intros (v & Hv & Hs) (v' & Hv' & Hs'). rewrite Hv in Hv'. injection Hv' as <-.
  rewrite En, Hs' in Hs. by injection Hs.
Qed.
(** C4: shards do not race. Two unprivileged functions that run on different shards of one cluster from the same snapshot never both write the
    same document of that snapshot, so commits of different shards need no common lock. *)
Theorem shards_write_apart {S} `{!MvccStore S} (store : S) cat d1 rnd rnd' (cfg cfg' : RunConfig) ts {V V'} (g : guest channel V) (g' : guest channel V') h h' b b' tok tok' n n' l l' doc :
  names_tables cat → rc_privileged cfg = false → rc_privileged cfg' = false → rc_numShards cfg = rc_numShards cfg' → rc_shardId cfg ≠ rc_shardId cfg' →
  (∀ n, Forall is_byte (rnd n) ∧ Forall is_byte (rnd' n)) →
  (∀ id n, internalId id = rnd n ∨ internalId id = rnd' n → ms_get store id (Some ts) = Ok None) →
  l ∈ uw_entries (staged (txn (run_guest (exec store cat d1 rnd cfg) (context_of cfg) g (new_KState cfg ts h b tok n)).1)) →
  l' ∈ uw_entries (staged (txn (run_guest (exec store cat d1 rnd' cfg') (context_of cfg') g' (new_KState cfg' ts h' b' tok' n')).1)) →
  snapshot_doc store ts (lw_id l) doc → lw_id l ≠ lw_id l'.
Proof.
  intros Hn Hp Hp' En Hs Hb Hf Hl Hl' Hd E.
  apply run_write_owned in Hl as (meta & Hm & _ & Ho); [|done|apply Hb|by intros id k ?; eapply Hf; left|done].
  apply run_write_owned in Hl' as (meta' & Hm' & _ & Ho'); [|done|apply Hb|by intros id k ?; eapply Hf; right|done].
  rewrite <-E, Hm in Hm'. injection Hm' as <-. apply Hs, (owned_shard cfg cfg' meta doc); [done|by apply Ho|]. apply Ho'. by rewrite <-E.
Qed.

(** ** Every index write is reported *)
Section reported.
Context {S : Type} `{!MvccStore S}.
Context (store : S) (cat : SimpleIndexCatalog) (d1 : D1Store) (randomId : nat → bytes) (cfg : RunConfig).
(** The storage id of an index is that of its table and name. *)
Definition index_ids : Prop := ∀ table idx, idx ∈ indexesForTable cat table → is_indexId idx = encodeStorageIndexId (is_tableNumber idx) (is_index idx).
Context (Hids : index_ids).
Implicit Types (w : Writes) (u : DatabaseIndexUpdate).

Lemma update_key_range idx old new id us u : index_updates_for idx old new id = Ok us → u ∈ us →
  iu_indexId u = is_indexId idx ∧ key_range idx (iu_key u) ∈ doc_range idx old ++ doc_range idx new.
Proof.
  unfold index_updates_for, doc_range. destruct (opt_key old _) as [o|]; [|done]. destruct (opt_key new _) as [n|]; [|done]. cbn [res_bind].
  intros [= <-]. rewrite elem_of_app. destruct o as [o|], n as [n|]; [destruct (compareKeyBytes o n)|..];
    rewrite ?elem_of_cons, ?elem_of_nil; intros Hu; destruct_or!; subst; cbn; try done; split; try done; repeat constructor.
Qed.
Lemma update_ranges idxs old new id us u : computeIndexUpdates idxs old new id = Ok us → u ∈ us →
  ∃ idx, idx ∈ idxs ∧ iu_indexId u = is_indexId idx ∧ key_range idx (iu_key u) ∈ index_ranges idxs old new.
Proof.
  unfold computeIndexUpdates. destruct (traverse _ idxs) as [uss|] eqn:E; [|done]. intros [= <-]. revert uss E.
  induction idxs as [|idx idxs IH]; intros uss E Hu; cbn in E.
  - injection E as <-. by apply elem_of_nil in Hu.
  - destruct (index_updates_for idx old new id) as [us|] eqn:Ei; [|done]. destruct (traverse _ idxs) as [uss'|]; [|done]. injection E as <-.
    unfold index_ranges. cbn [List.map concat]. cbn [concat] in Hu. apply elem_of_app in Hu as [Hu|Hu].
    + destruct (update_key_range _ _ _ _ _ _ Ei Hu) as [H1 H2]. exists idx. split; [left|]. split; [done|]. apply elem_of_app. by left.
    + destruct (IH uss' eq_refl Hu) as (i & Hi & H1 & H2). exists i. split; [by right|]. split; [done|]. apply elem_of_app. by right.
Qed.

Definition reported w u : Prop := ∃ tn index, iu_indexId u = encodeStorageIndexId tn index ∧
  covers (w_ranges w) (indexKeyspaceId (encodeStorageTableId tn) index) (iu_key u).
Record report_inv w : Prop := {
  rp_ok : rs_ok (w_ranges w);
  rp_updates : ∀ u, u ∈ w_updates w → reported w u;
  rp_staged : ∀ l, l ∈ uw_entries (w_staged w) → covers (w_ranges w) (docKeyspace (lw_id l)) (internalId (lw_id l)) }.

Lemma covers_fold rs s ks key : rs_ok s → covers s ks key → covers (fold_left rs_add rs s) ks key.
Proof. intros Hok (x & Hx & H). exists x. rewrite fold_rs_add_elem by done. auto. Qed.
Lemma entries_set s id v l : l ∈ uw_entries (uw_set s id v) → l = {| lw_id := id; lw_value := v |} ∨ l ∈ uw_entries s.
Proof.
  unfold uw_entries, uw_set, jm_values. induction s as [|[k x] s IH]; cbn.
  - intros [->|H]%elem_of_cons; [by left|by apply elem_of_nil in H].
  - case_decide; csimpl; rewrite !elem_of_cons; [tauto|]. intros [H1|H1]; [tauto|]. destruct (IH H1); tauto.
Qed.
Lemma put_report w id v : report_inv w → report_inv (put_write w id v).
Proof.
  intros [Hok Hu Hs]. split; cbn.
  - by apply rs_add_ok.
  - intros u (tn & index & E & Hc)%Hu. exists tn, index. split; [done|]. by apply covers_add.
  - intros l [->|Hl]%entries_set; [by apply covers_addKey|]. by apply covers_add, Hs.
Qed.
Lemma indexed_report table old new id w w' : report_inv w → indexed_write cat table old new id w w' → report_inv w'.
Proof.
  intros [Hok Hu Hs] [us E|e E]; [|done]. split; cbn.
  - by apply fold_rs_add_ok.
  - intros u [(tn & index & Ei & Hc)%Hu|Hin]%elem_of_app; [exists tn, index; split; [done|]; by apply covers_fold|].
    destruct (update_ranges _ _ _ _ _ _ E Hin) as (idx & Hidx & Ei & Hr). exists (is_tableNumber idx), (is_index idx).
    split; [rewrite Ei; by eapply Hids|]. exists (key_range idx (iu_key u)).
    split; [apply fold_rs_add_elem; [done|by left]|]. split; [done|]. apply (point_covers (iu_key u) (query_keyspace idx)).
  - intros l Hl. by apply covers_fold, Hs.
Qed.
Lemma report_step w w' : report_inv w → api_step store cat d1 randomId cfg w w' → report_inv w'.
Proof.
  intros HI [c Hs]. destruct Hs as [|b|meta id old new w' _ _ _ _ _ Hi|g g' _ _ _]; [done|by destruct HI..| |by destruct HI].
  eapply indexed_report; [|exact Hi]. apply put_report. by destruct HI.
Qed.

(** C5: every write of a function is reported. Whatever a function does, each index entry its transaction changes lies in a recorded write range of
    that index's keyspace, and each document it stages in one of its table's, so that validation and invalidation, which see only the
    ranges, miss no write of it: the assumption under which transactions are serializable holds of every run. *)
Theorem writes_reported {V} (g : guest channel V) snapshot h hasGlobal token n : names_tables cat →
  let c := txn (run_guest (exec store cat d1 randomId cfg) (context_of cfg) g (new_KState cfg snapshot h hasGlobal token n)).1 in
  (∀ u, u ∈ indexUpdates c → ∃ tn index r, iu_indexId u = encodeStorageIndexId tn index ∧ r ∈ toArray (writeRanges c) ∧
    keyspace r = indexKeyspaceId (encodeStorageTableId tn) index ∧ keyInRange (iu_key u) r = true) ∧
  (∀ l, l ∈ uw_entries (staged c) → ∃ r, r ∈ toArray (writeRanges c) ∧ keyspace r = docKeyspace (lw_id l) ∧ keyInRange (internalId (lw_id l)) r = true).
Proof.
  intros Hn c. destruct (run_keeps store cat d1 randomId cfg report_inv g (new_KState cfg snapshot h hasGlobal token n) Hn) as [_ Hu Hs].
  - apply report_step.
  - split; cbn; [apply rs_new_ok|by intros u ?%elem_of_nil..].
  - split; [|exact Hs]. intros u (tn & index & E & r & H)%Hu. by exists tn, index, r.
Qed.
End reported.
