(* ===== verification/KernelReads.v ===== *)
(** What the syscalls that read return: rows their policy admits, of the shard they may see, and, for the one scan of a query whose result is reported
    as a live range, the rows of that range. *)
From S2P Require Import Prelude Effects Numbers Values Json Validators IndexKeys Ranges IdCodec DocStore ShardRouting MvccStore Transactor QueryEngine Policy Kernel.
From S2P Require Import KernelWrites Executor KernelSafety.

(** ** Scans return what their filters admit *)
Definition pass (fs : list FilterExpr) (docs : list value) : Prop := Forall (λ d, matches fs d = true) docs.
Lemma pass_snoc fs docs d : pass fs docs → matches fs d = true → pass fs (docs ++ [d]).
Proof. intros H Hd. apply Forall_app. by repeat constructor. Qed.
Lemma collect_loop_pass fs limit rows docs lst : pass fs docs → pass fs (collect_loop fs limit rows docs lst).1.1.
Proof.
  revert docs lst. induction rows as [|r rows IH]; intros docs lst H; [done|]. cbn [collect_loop].
  destruct (matches fs (row_value r)) eqn:E; [|by apply IH]. destruct (limit_hit _ _); [by apply pass_snoc|]. by apply IH, pass_snoc.
Qed.
Lemma overlay_loop_pass fs limit es docs : pass fs docs → pass fs (overlay_loop fs limit es docs).
Proof.
  revert docs. induction es as [|e es IH]; intros docs H; [done|]. cbn [overlay_loop].
  destruct (matches fs e.2) eqn:E; [|by apply IH]. destruct (limit_hit _ _); [by apply pass_snoc|]. by apply IH, pass_snoc.
Qed.
Lemma page_loop_pass fs size cap rows page li ls n : pass fs page → pass fs (ps_page (page_loop fs size cap rows page li ls n)).
Proof.
  revert page li ls n. induction rows as [|r rows IH]; intros page li ls n H; [done|]. cbn [page_loop]. cbv zeta.
  assert (H' : pass fs (if matches fs (row_value r) then page ++ [row_value r] else page)).
  { destruct (matches fs (row_value r)) eqn:E; [by apply pass_snoc|done]. }
  destruct (_ && _); [done|]. destruct (match cap with Some m => m <=? n + 1 | None => false end); [done|]. by apply IH.
Qed.
Lemma slice0_incl {A} (l : list A) n x : x ∈ slice0 l n → x ∈ l.
Proof. unfold slice0. destruct (_ <? _); intros H; by apply (subseteq_take _ l) in H || (rewrite <-(take_drop (Z.to_nat n) l); apply elem_of_app; by left). Qed.
Section scans.
Context {S : Type} `{!MvccStore S}.
Lemma collect_pass (s : S) q ts overlay r : collect s q ts overlay = Ok r → pass (default [] (q_filters q)) (co_documents r).
Proof.
  unfold collect. destruct (buildIndexInterval _ _) as [iv|]; [|done]. cbn [res_bind]. destruct overlay as [|o overlay].
  - destruct (ms_scan _ _ _ _ _ _) as [rows|]; [|done]. cbn [res_bind]. pose proof (collect_loop_pass (default [] (q_filters q)) (q_limit q) rows [] None (Forall_nil_2 _)) as H.
    destruct (collect_loop _ _ _ _ _) as [[docs l] b]. by intros [= <-].
  - destruct (scanWithOverlay _ _ _ _ _ _) as [m|]; [|done]. cbn [res_bind]. intros [= <-]. apply overlay_loop_pass. constructor.
Qed.
Lemma paginate_pass (s : S) q ts opts overlay r : paginate s q ts opts overlay = Ok r → pass (default [] (q_filters q)) (pg_page r).
Proof.
  unfold paginate. destruct (buildIndexInterval _ _) as [b|]; [|done]. cbn [res_bind]. destruct (resume _ _ _) as [iv|]; [|done]. cbn [res_bind].
  destruct overlay as [|o overlay].
  - destruct (ms_scan _ _ _ _ _ _) as [rows|]; [|done]. intros [= <-]. apply page_loop_pass. constructor.
  - destruct (scanWithOverlay _ _ _ _ _ _) as [m|]; [|done]. cbn [res_bind]. set (l := List.filter _ m).
    destruct (if po_pageSize opts <? _ then _ else _) as [k|]; [|done]. intros [= <-]. cbn [pg_page]. apply Forall_forall. intros d Hd.
    apply list_elem_of_In, in_map_iff in Hd as (e & <- & He%list_elem_of_In%slice0_incl). apply list_elem_of_In, List.filter_In in He. apply He.
Qed.
End scans.

(** ** Policies *)
Definition reply_docs (r : reply) : list json :=
  match r with RDoc (Some d) => [d] | RDocs docs _ => docs | RPage page _ _ _ _ => page | _ => [] end.
(** The table a syscall reads. *)
Definition read_table (cat : SimpleIndexCatalog) (ctx : KernelContext) (op : syscall) : option jsstr :=
  let full (spec : QuerySpec) := if k_privileged ctx then qs_table spec else getFullTableName (qs_table spec) (k_namespace ctx) in
  match op with
  | SGet id => match decodeDocumentId id with Ok i => option_map tm_name (getTableByNumber cat (tableNumber i)) | Err _ => None end
  | SQuery spec | SPaginate spec _ _ _ => Some (full spec)
  | _ => None
  end.
Definition admits (e : option FilterExpr) (doc : value) : Prop := ∀ f, e = Some f → evaluateFilter doc f = true.

(** ** The rule context of a run *)
(** Neither the writes nor the cached rule context change. *)
Definition kept (st st' : KState) : Prop := same_writes st st' ∧ ruleContext st' = ruleContext st.
Definition same_rule (st st' : KState) : Prop := ruleContext st' = ruleContext st.
#[global] Instance kept_preorder : PreOrder kept.
Proof. split; [by split|]. intros a b c [W1 R1] [W2 R2]. split; [by etrans|congruence]. Qed.
#[global] Instance same_rule_preorder : PreOrder same_rule.
Proof. unfold same_rule. split; congruence. Qed.
Lemma txn_op_rule {A} (f : Ctx → Ctx * res A) : follows same_rule (txn_op f).
Proof. intros st. unfold txn_op. by destruct (f (txn st)). Qed.
#[global] Instance kept_reads {S} `{!MvccStore S} (store : S) : ReadsFollow store kept.
Proof.
  split; [apply _|..|by split].
  - intros id st. split; [apply (rf_get (store := store) (R := same_writes))|apply txn_op_rule].
  - intros ctx meta ranges st. split; [apply (rf_scan (store := store) (R := same_writes))|done].
Qed.
Lemma kept_traces ctx : tracing kept ctx.
Proof. by right. Qed.
Lemma follows_run {A} (R : KState → KState → Prop) (m : eff KState A) st st' r : follows R m → m st = (st', r) → R st st'.
Proof. intros Hm E. specialize (Hm st). by rewrite E in Hm. Qed.

Section rule_context.
Context {S : Type} `{!MvccStore S}.
Context (store : S) (cat : SimpleIndexCatalog) (d1 : D1Store) (randomId : nat → bytes) (cfg : RunConfig).

(** What the run's [ruleBuild] answers in a state with the writes of [st]. *)
Definition built_at (st : KState) (r : res value) : Prop := ∃ build sb sb',
  rc_ruleBuild cfg = Some build ∧ same_writes st sb ∧ run_rule store cat d1 randomId cfg build sb = (sb', r).
(** The rule context is kept, or it had not been built and has been. *)
Definition rule_moves (st st' : KState) : Prop :=
  ruleContext st' = ruleContext st ∨ ruleContext st = None ∧ ∃ r, ruleContext st' = Some r ∧ built_at st r.
Definition ruled (st st' : KState) : Prop := same_writes st st' ∧ rule_moves st st'.

Lemma built_at_writes st st' r : same_writes st st' → built_at st' r → built_at st r.
Proof. intros W (b & sb & sb' & Hb & W' & E). exists b, sb, sb'. split; [done|]. split; [by etrans|done]. Qed.
Lemma kept_ruled st st' : kept st st' → ruled st st'.
Proof. intros [W E]. split; [done|by left]. Qed.
#[global] Instance ruled_preorder : PreOrder ruled.
Proof.
  split; [by split; [|left]|]. intros a b c [W1 M1] [W2 M2]. split; [by etrans|].
  destruct M1 as [E1|(N1 & r & E1 & B1)], M2 as [E2|(N2 & r2 & E2 & B2)]; try congruence.
  - left. congruence.
  - right. split; [congruence|]. exists r2. split; [done|]. by eapply built_at_writes.
  - right. split; [done|]. exists r. split; [congruence|done].
Qed.
#[global] Instance ruled_reads : ReadsFollow store ruled.
Proof.
  split; [apply _|..]; intros; [intros st; apply kept_ruled..|apply kept_ruled].
  - apply (rf_get (store := store) (R := kept)).
  - apply (rf_scan (store := store) (R := kept)).
  - apply (rf_notes (store := store) (R := kept)).
Qed.
Lemma ruled_traces ctx : tracing ruled ctx.
Proof. right. intros st ct pt n. by apply kept_ruled. Qed.

Lemma rule_context_built st st' r : getRuleContext store cat d1 randomId cfg st = (st', r) → rc_ruleBuild cfg ≠ None →
  ruled st st' ∧ ruleContext st' = Some r.
Proof.
  unfold getRuleContext, ebind. cbn. destruct (ruleContext st) as [r0|] eqn:E; [intros [= <- ->] _; by split|].
  destruct (rc_ruleBuild cfg) as [build|] eqn:Eb; [|done]. unfold etry. destruct (run_rule store cat d1 randomId cfg build st) as [s1 r1] eqn:Er.
  intros [= <- ->] _. destruct (follows_run kept _ _ _ _ (follows_rule store cat d1 randomId cfg kept build) Er) as [W _].
  split; [|done]. split; [exact W|]. right. split; [done|]. exists r. split; [done|]. exists build, st, s1. done.
Qed.
Lemma ruled_rule_context : follows ruled (getRuleContext store cat d1 randomId cfg).
Proof.
  intros st. destruct (rc_ruleBuild cfg) as [build|] eqn:Eb.
  - destruct (getRuleContext _ _ _ _ _ st) as [st' r] eqn:E. apply rule_context_built in E as [H _]; [done|congruence].
  - unfold getRuleContext, ebind. cbn. destruct (ruleContext st); [by split; [|left]|]. rewrite Eb. by split; [|left].
Qed.
Lemma ruled_read_policy t : follows ruled (resolveReadPolicy store cat d1 randomId cfg t).
Proof. apply (follows_read_rules store cat d1 randomId cfg ruled), ruled_rule_context. Qed.
Lemma ruled_write_policy t row : follows ruled (evalWritePolicy store cat d1 randomId cfg t row).
Proof. apply (follows_write_rules store cat d1 randomId cfg ruled), ruled_rule_context. Qed.

(** ** Every call keeps the rule context once it is built *)
Definition moves {A} (m : eff KState A) : Prop := ∀ st, rule_moves st (m st).1.
Lemma moves_ruled {A} (m : eff KState A) : follows ruled m → moves m.
Proof. intros H st. apply H. Qed.
Lemma moves_same {A} (m : eff KState A) : follows same_rule m → moves m.
Proof. intros H st. left. apply H. Qed.
Lemma moves_bind {A B} (m : eff KState A) (k : A → eff KState B) : follows ruled m → (∀ a, moves (k a)) → moves (ebind m k).
Proof.
  intros Hm Hk st. unfold ebind. destruct (Hm st) as [W M]. destruct (m st) as [s1 [a|e]]; cbn in *; [|done].
  destruct (Hk a s1) as [E|(N & r & E & Hb)]; destruct M as [E1|(N1 & r1 & E1 & Hb1)]; try congruence.
  - left. congruence.
  - right. split; [done|]. exists r1. split; [congruence|done].
  - right. split; [congruence|]. exists r. split; [done|]. by eapply built_at_writes.
Qed.
End rule_context.

(** A write leaves the rule context alone. *)
Lemma same_rule_mark b : follows same_rule (markWrite b).
Proof. unfold markWrite. follows_step; [by apply follows_do|]. repeat follows_step. Qed.
Lemma same_rule_maintain cat table old new id : follows same_rule (maintainIndexes cat table old new id).
Proof.
  unfold maintainIndexes, txn_do. follows_step; [auto with follows|]. follows_step; [by apply follows_do|]. follows_step; [|auto with follows].
  apply follows_traverse; [apply _|]. intros idx _. unfold record_key, txn_do. repeat follows_step; by apply follows_do.
Qed.
Lemma same_rule_stage f : follows same_rule (stage_global f).
Proof. unfold stage_global. by apply follows_do. Qed.
Lemma same_rule_require : follows same_rule requireGlobalTxn.
Proof. unfold requireGlobalTxn. repeat follows_step. Qed.
#[local] Hint Resolve same_rule_mark same_rule_maintain same_rule_stage same_rule_require txn_op_rule : follows.

Section moving.
Context {S : Type} `{!MvccStore S}.
Context (store : S) (cat : SimpleIndexCatalog) (d1 : D1Store) (randomId : nat → bytes) (cfg : RunConfig).
Abbreviation ruled := (ruled store cat d1 randomId cfg).
Abbreviation moves := (moves store cat d1 randomId cfg).
Context (hasRead hasWrite : jsstr → bool).
Context (readPolicy : jsstr → eff KState (option FilterExpr)) (writePolicy : jsstr → value → eff KState bool).
Context (Hread : ∀ t, follows ruled (readPolicy t)) (Hwrite : ∀ t row, follows ruled (writePolicy t row)).

Lemma ruled_enforce ctx t row : follows ruled (enforceWrite hasWrite writePolicy ctx t row).
Proof. by apply (follows_enforceWrite store hasWrite ruled). Qed.
Lemma ruled_new_id tn : follows ruled (newDocumentId randomId tn).
Proof. unfold newDocumentId. repeat follows_step; apply follows_do; intros st; by apply kept_ruled. Qed.
Lemma ruled_supplied ctx tn meta v : follows ruled (supplied_document_id store ctx tn meta v).
Proof. unfold supplied_document_id. repeat follows_step. Qed.
Lemma ruled_require_global : follows ruled requireGlobalTxn.
Proof. unfold requireGlobalTxn. repeat follows_step. Qed.
#[local] Hint Resolve ruled_enforce ruled_new_id ruled_supplied ruled_require_global : follows.
(** The guards and policies first, then the write. *)
Ltac moves_step :=
  match goal with
  | |- moves (ebind (markWrite _) _) => apply moves_same; solve [repeat follows_step]
  | |- moves (ebind _ _) => apply moves_bind; [solve [repeat follows_step]|intros ?]
  | |- moves (eret _) => apply moves_ruled; auto with follows
  | |- moves (ethrow _) => apply moves_ruled; auto with follows
  | |- moves (if ?b then _ else _) => destruct b
  | |- moves (match ?x with _ => _ end) => destruct x
  end.
Lemma dispatch_moves ctx op : moves (dispatch store cat d1 randomId hasRead hasWrite readPolicy writePolicy ctx op).
Proof.
  destruct op; cbn [dispatch].
  - apply moves_ruled. by apply (follows_get_handler store cat d1 hasRead ruled).
  - unfold handleDbInsert, insert_global, insert_local. repeat moves_step.
  - unfold handleDbReplace, replace_global, replace_local, kept_time. repeat moves_step.
  - unfold handleDbDelete, delete_local. repeat moves_step.
  - apply moves_ruled. apply (follows_query store cat d1 hasRead ruled); [done|apply ruled_traces].
  - apply moves_ruled. apply (follows_paginate store cat hasRead ruled); [done|apply ruled_traces].
  - apply moves_ruled. by apply (follows_log store ruled).
Qed.
End moving.

(** ** The calls of a run *)
Section calls.
Context {S : Type} `{!MvccStore S}.
Context (store : S) (cat : SimpleIndexCatalog) (d1 : D1Store) (randomId : nat → bytes) (cfg : RunConfig).
Abbreviation exec := (exec store cat d1 randomId cfg).
Abbreviation run := (run_guest exec (context_of cfg)).
Abbreviation call := (api_do exec (context_of cfg)).
Abbreviation built_at := (built_at store cat d1 randomId cfg).

(** [made g st c op st1 out]: run from [st], [g] makes the syscall [op] over the channel [c] in state [st1], with outcome [out]. *)
Inductive made {V} : guest channel V → KState → channel → syscall → KState → KState * res reply → Prop :=
  | made_here c a k st : api_writes a && negb (k_dbWrite (context_of cfg c)) = false →
      made (GDo c a k) st c (api_call a) st (exec c (api_call a) st)
  | made_later c a k st c' op st1 out : made (k (call c a st).2) (call c a st).1 c' op st1 out → made (GDo c a k) st c' op st1 out.

Lemma made_exec {V} (g : guest channel V) st c op st1 out : made g st c op st1 out → exec c op st1 = out.
Proof. by induction 1. Qed.
Lemma exec_moves c op : moves store cat d1 randomId cfg (exec c op).
Proof.
  destruct c as [|ns w]; unfold Executor.exec, base_exec; apply dispatch_moves; intros; auto using ruled_read_policy, ruled_write_policy;
    by apply follows_ret, _.
Qed.
Lemma call_moves c a st : rule_moves store cat d1 randomId cfg st (call c a st).1.
Proof.
  unfold api_do. destruct (_ && _); [by left|]. pose proof (exec_moves c (api_call a) st) as H. unfold ebind.
  by destruct (exec c (api_call a) st) as [st1 [r|e]].
Qed.
(** A built rule context stays to the end of the run. *)
Lemma run_rule_kept {V} (g : guest channel V) st r : ruleContext st = Some r → ruleContext (run g st).1 = Some r.
Proof.
  revert st. induction g as [v|e|c a k IH]; intros st Hr; [done..|]. cbn [run_guest]. unfold etry. pose proof (call_moves c a st) as [E|[N _]]; [|congruence].
  destruct (call c a st) as [st1 x]. apply IH. cbn in E. congruence.
Qed.
Lemma made_rule_kept {V} (g : guest channel V) st c op st1 out r : made g st c op st1 out → ruleContext out.1 = Some r → ruleContext (run g st).1 = Some r.
Proof.
  induction 1 as [c a k st Hd|c a k st c' op st1 out _ IH]; intros Hr; cbn [run_guest]; unfold etry.
  - unfold api_do. rewrite Hd. unfold ebind. destruct (exec c (api_call a) st) as [s1 [x|e]]; by apply run_rule_kept.
  - specialize (IH Hr). by destruct (call c a st).
Qed.
(** It was built by [ruleBuild], in the state of one of the run's calls. *)
Lemma run_rule_built {V} (g : guest channel V) st r : ruleContext (run g st).1 = Some r →
  ruleContext st = Some r ∨ ∃ c op st1 out, made g st c op st1 out ∧ built_at st1 r.
Proof.
  revert st. induction g as [v|e|c a k IH]; intros st Hr; [by left..|]. cbn [run_guest] in Hr. unfold etry in Hr.
  pose proof (call_moves c a st) as Hm. destruct (call c a st) as [st1 x] eqn:Ec. destruct (IH x st1 Hr) as [H1|(c1 & op & s1 & out & H1 & H2)].
  - cbn in Hm. destruct Hm as [E|(N & r1 & E & B)]; [left; congruence|]. right. exists c, (api_call a), st. eexists. split; [apply made_here|congruence].
    apply not_true_iff_false. intros Hd. unfold api_do in Ec. rewrite Hd in Ec. injection Ec as <- _. congruence.
  - right. exists c1, op, s1, out. split; [|done]. apply made_later. by rewrite Ec.
Qed.
End calls.

(** ** Policies filter *)
Section policies.
Context {S : Type} `{!MvccStore S}.
Context (store : S) (cat : SimpleIndexCatalog) (d1 : D1Store) (randomId : nat → bytes) (hasRead hasWrite : jsstr → bool).
Context (readPolicy : jsstr → eff KState (option FilterExpr)) (writePolicy : jsstr → value → eff KState bool).
Implicit Types (ctx : KernelContext).

(** The documents a reply holds are rows admitted by the filter that the table's policy resolves to during the call, no write nor other
    policy coming between. *)
Definition restricted_to (table : jsstr) (st st' : KState) (r : reply) : Prop := ∃ docs, reply_docs r = List.map convexToJson docs ∧
  (docs = [] ∨ ∃ st1 st2 e, kept st st1 ∧ readPolicy table st1 = (st2, Ok e) ∧ kept st2 st' ∧ ∀ doc, doc ∈ docs → admits e doc).

Lemma restrict_filters ctx table q st st' q' : enforced ctx hasRead table = true → restrict hasRead readPolicy ctx table q st = (st', Ok q') →
  ∃ e, readPolicy table st = (st', Ok e) ∧ default [] (q_filters q') = mergeReadPolicy (q_filters q) e.
Proof. unfold restrict. intros ->. intros (e & st1 & E & [= <- <-])%ebind_ok. by exists e. Qed.
Lemma kept_scan ctx meta ranges : follows kept (recordScanReads ctx meta ranges).
Proof. apply (rf_scan (store := store) (R := kept)). Qed.
Lemma kept_token : follows kept nextCollectToken.
Proof. apply (follows_token store kept). by split. Qed.
Lemma pass_admits fs e docs doc : pass (mergeReadPolicy fs e) docs → doc ∈ docs → admits e doc.
Proof.
  intros Hp Hd f ->. unfold pass in Hp. rewrite Forall_forall in Hp. specialize (Hp _ Hd). unfold matches, mergeReadPolicy in Hp. rewrite forallb_app in Hp.
  apply andb_true_iff in Hp as [_ Hp]. cbn in Hp. by apply andb_true_iff in Hp as [? _].
Qed.

Lemma get_restricted ctx id table st st' r : read_table cat ctx (SGet id) = Some table → enforced ctx hasRead table = true →
  handleDbGet store cat d1 hasRead readPolicy ctx id st = (st', Ok r) → restricted_to table st st' r.
Proof.
  intros Ht He. cbn in Ht. unfold handleDbGet. intros (iid & st1 & [Hid ->]%elift_ok & (meta & st2 & [Hm ->]%elift_ok & H)%ebind_ok)%ebind_ok.
  rewrite Hid in Ht. unfold table_of_id in Hm. destruct (getTableByNumber cat _) as [m|]; [|done]. injection Hm as ->. injection Ht as <-.
  apply ebind_ok in H as ([] & st3 & [_ ->]%elift_ok & H). destruct (tm_mode meta).
  3: { rewrite He in H. apply ebind_ok in H as ([] & ? & [? _]%ewhen_ok & _). done. }
  all: apply ebind_ok in H as (v & st4 & Hv & H); apply (follows_run kept) in Hv; [|apply (rf_get (store := store) (R := kept))];
    destruct v as [doc|]; [|injection H as _ <-; exists []; split; [done|by left]];
    apply ebind_ok in H as ([] & st5 & [_ ->]%elift_ok & H); rewrite He in H; apply ebind_ok in H as (e & st6 & Hp & H);
    destruct e as [f|]; [destruct (evaluateFilter doc f) eqn:Ef|]; injection H as <- <-; eexists _; (split; [by (apply (eq_refl (List.map convexToJson [doc])) || apply (eq_refl (List.map convexToJson [])))|]);
    try (by left); right; eexists _, _, _; (split; [exact Hv|split; [exact Hp|split; [done|]]]); intros d ->%list_elem_of_singleton g [= <-]; done.
Qed.
(** The end of a scan: the ranges are recorded and the trace, if there is one, appended. *)
Lemma scan_tail ctx meta ranges (trace : Z → eff KState unit) (b : bool) (f : Z → reply) r0 st st' r docs : (∀ token, follows kept (trace token)) →
  (∀ token, reply_docs (f token) = docs) → reply_docs r0 = docs →
  (do^ recordScanReads ctx meta ranges in if b then let^ token := nextCollectToken in do^ trace token in eret (f token) else eret r0) st = (st', Ok r) →
  kept st st' ∧ reply_docs r = docs.
Proof.
  intros Ht Hf H0 ([] & s1 & H1%(follows_run kept) & H)%ebind_ok; [|apply kept_scan]. destruct b; [|by injection H as <- <-].
  apply ebind_ok in H as (token & s2 & H2%(follows_run kept) & H); [|apply kept_token].
  apply ebind_ok in H as ([] & s3 & H3%(follows_run kept) & [= <- <-]); [|done]. split; [|done]. by etrans; [|etrans].
Qed.
Lemma query_restricted ctx spec table st st' r : read_table cat ctx (SQuery spec) = Some table → enforced ctx hasRead table = true →
  handleDbQuery store cat d1 hasRead readPolicy ctx spec st = (st', Ok r) → restricted_to table st st' r.
Proof.
  intros [= <-] He. unfold handleDbQuery, resolve_index. set (table := if k_privileged ctx then _ else _) in *.
  destruct (getIndex cat table (qs_index spec)) as [index|]; [|done]. intros ([t i] & st1 & [[= <- <-] ->]%elift_ok & H)%ebind_ok.
  destruct (getTable cat table ≫= _) as [u|].
  { unfold query_global in H. rewrite He in H. apply ebind_ok in H as ([] & ? & [? _]%ewhen_ok & _). done. }
  unfold query_local in H. apply ebind_ok in H as ([] & st2 & [_ ->]%elift_ok & (q & st3 & [_ ->]%elift_ok & (q' & st4 & Hq & (c & st5 & [= <- <-] & (cr & st6 & [Hc ->]%elift_ok & H)%ebind_ok)%ebind_ok)%ebind_ok)%ebind_ok).
  apply restrict_filters in Hq as (e & Hp & Hf); [|done]. apply collect_pass in Hc. rewrite Hf in Hc.
  apply (scan_tail _ _ _ _ _ (λ token, RDocs _ (Some token)) _ _ _ _ (List.map convexToJson (co_documents cr))) in H as [Hk Hr]; [| |done..].
  - exists (co_documents cr). split; [done|]. right. exists st, st4, e. split; [done|]. split; [exact Hp|]. split; [done|]. intros doc Hd. by eapply pass_admits.
  - intros token. repeat follows_step; by apply follows_do.
Qed.
Lemma page_restricted ctx spec opts table st st' r : (if k_privileged ctx then qs_table spec else getFullTableName (qs_table spec) (k_namespace ctx)) = table →
  enforced ctx hasRead table = true → handleDbPaginate store cat hasRead readPolicy ctx spec opts st = (st', Ok r) → restricted_to table st st' r.
Proof.
  intros <- He. unfold handleDbPaginate, resolve_index. set (table := if k_privileged ctx then _ else _) in *.
  destruct (getIndex cat table (qs_index spec)) as [index|]; [|done]. intros ([t i] & st1 & [[= <- <-] ->]%elift_ok & H)%ebind_ok.
  destruct (getTable cat table ≫= _) as [u|]; [done|].
  unfold paginate_local in H. apply ebind_ok in H as ([] & st2 & [_ ->]%elift_ok & (q & st3 & [_ ->]%elift_ok & (q' & st4 & Hq & (c & st5 & [= <- <-] & (cr & st6 & [Hc ->]%elift_ok & H)%ebind_ok)%ebind_ok)%ebind_ok)%ebind_ok).
  apply restrict_filters in Hq as (e & Hp & Hf); [|done]. apply paginate_pass in Hc. rewrite Hf in Hc.
  apply (scan_tail _ _ _ _ _ (λ token, RPage _ _ _ _ (Some token)) _ _ _ _ (List.map convexToJson (pg_page cr))) in H as [Hk Hr]; [| |done..].
  - exists (pg_page cr). split; [done|]. right. exists st, st4, e. split; [done|]. split; [exact Hp|]. split; [done|]. intros doc Hd. by eapply pass_admits.
  - intros token. repeat follows_step; by apply follows_do.
Qed.
Lemma dispatch_restricted ctx op table st st' r : read_table cat ctx op = Some table → enforced ctx hasRead table = true →
  dispatch store cat d1 randomId hasRead hasWrite readPolicy writePolicy ctx op st = (st', Ok r) → restricted_to table st st' r.
Proof.
  destruct op; cbn [dispatch]; try done; [apply get_restricted|apply query_restricted|]. intros [= E]. by apply page_restricted.
Qed.
End policies.

Section enforced.
Context {S : Type} `{!MvccStore S}.
Context (store : S) (cat : SimpleIndexCatalog) (d1 : D1Store) (randomId : nat → bytes) (cfg : RunConfig).
Abbreviation made := (made store cat d1 randomId cfg).
Abbreviation run := (run_guest (exec store cat d1 randomId cfg) (context_of cfg)).

(** C7: read policies are enforced. Take any run of a function, without privileges and with a rule context to build, and any read the
    function makes of a table with a read policy (by id, by query or by page, from the snapshot or from the transaction's own writes).
    Every document the read returns passes the filter that the policy's predicate resolves to, the predicate being evaluated during that
    call (in a state with the snapshot and the writes of the call) and in the one rule context of the run: the value [rc] that the run's own [ruleBuild]
    returned in the state of one of the run's calls, and that the run still holds at its end. A policy that cannot be evaluated
    fails the read. *)
Theorem read_policy_enforced {V} (g : guest channel V) snapshot h hasGlobal token n op table read st st' r :
  let st0 := new_KState cfg snapshot h hasGlobal token n in
  rc_privileged cfg = false → rc_ruleBuild cfg ≠ None → rc_policies cfg table ≫= tp_read = Some read →
  made g st0 ChMain op st (st', Ok r) → read_table cat (context_of cfg ChMain) op = Some table →
  ∃ docs, reply_docs r = List.map convexToJson docs ∧ (docs = [] ∨ ∃ rc p e s1 s2 s3,
    ruleContext (run g st0).1 = Some (Ok rc) ∧
    (∃ c1 op1 sa out1 build sb sb', made g st0 c1 op1 sa out1 ∧ same_writes sa sb ∧ rc_ruleBuild cfg = Some build ∧
       run_rule store cat d1 randomId cfg build sb = (sb', Ok rc)) ∧
    same_writes st s1 ∧ run_rule store cat d1 randomId cfg (read rc) s1 = (s2, Ok p) ∧
    resolveWhere (collect_all store cat d1 randomId cfg) (rc_relations cfg) p table s2 = (s3, Ok e) ∧ ∀ doc, doc ∈ docs → admits e doc).
Proof.
  intros st0 Hp Hb Hr Hm Ht. pose proof (made_exec _ _ _ _ _ _ _ _ _ _ _ Hm) as H. unfold Executor.exec in H.
  apply (dispatch_restricted _ _ _ _ _ _ _ _ _ _ table) in H; [|done|].
  2: { unfold enforced, has_read. cbn. rewrite Hp, Hr. by destruct (rc_ruleBuild cfg). }
  destruct H as (docs & E & [->|(st1 & st2 & e & [W1 _] & Hpol & [_ Hk2] & Ha)]); exists docs || exists []; (split; [done|]); [by left|]. right.
  unfold resolveReadPolicy in Hpol. apply ebind_ok in Hpol as (rc & s1 & Hrc & Hpol). rewrite Hr in Hpol. apply ebind_ok in Hpol as (p & s2 & H1 & H2).
  destruct (rule_context_built _ _ _ _ _ _ _ _ Hrc Hb) as [[W _] Hc].
  pose proof (follows_run kept _ _ _ _ (follows_rule store cat d1 randomId cfg kept (read rc)) H1) as [_ K1].
  pose proof (follows_run kept _ _ _ _ (follows_resolveWhere store cat d1 randomId cfg kept p table) H2) as [_ K2].
  assert (Hfin : ruleContext (run g st0).1 = Some (Ok rc)) by (eapply made_rule_kept; [exact Hm|]; cbn; congruence).
  exists rc, p, e, s1, s2, st2. split; [done|]. split; [|split_and!; try done; by etrans].
  destruct (run_rule_built _ _ _ _ _ _ _ _ Hfin) as [Hnew|(c1 & op1 & sa & out1 & Hm1 & build & sb & sb' & B1 & B2 & B3)]; [done|].
  by exists c1, op1, sa, out1, build, sb, sb'.
Qed.
End enforced.

(** ** Reads only grow *)
Record later (st st' : KState) : Prop := {
  lt_ok : rs_ok (reads (txn st)) → rs_ok (reads (txn st')) ∧ ∀ r, r ∈ toArray (reads (txn st)) → r ∈ toArray (reads (txn st'));
  lt_trace : collectTrace st' = collectTrace st;
  lt_seq : collectTokenSeq st' = collectTokenSeq st;
  lt_snapshot : snapshotTs (txn st') = snapshotTs (txn st) }.
#[global] Instance later_preorder : PreOrder later.
Proof.
  split; [by split|]. intros a b c [O1 T1 Q1 S1] [O2 T2 Q2 S2]. split; [|congruence..]. intros H. destruct (O1 H) as [H1 I1]. destruct (O2 H1) as [H2 I2]. auto.
Qed.
Lemma fold_reads (b : bool) ranges c : let c' := fold_left (λ c r, if b then recordReadUnvalidated c r else recordRead c r) ranges c in
  reads c' = fold_left rs_add ranges (reads c) ∧ snapshotTs c' = snapshotTs c.
Proof. revert c. induction ranges as [|r ranges IH]; intros c; [done|]. cbn in *. destruct (IH (if b then recordReadUnvalidated c r else recordRead c r)) as [-> ->]. by destruct b. Qed.
#[global] Instance later_reads {S} `{!MvccStore S} (store : S) : ReadsFollow store later.
Proof.
  split; [apply _|..|by split].
  - intros id st. unfold txn_op, ctx_get. destruct (countRead (headroom (txn st))) as [h [[]|e]]; [|by split].
    assert (H : rs_ok (reads (txn st)) → rs_ok (addKey (reads (txn st)) (docKeyspace id) (internalId id)) ∧
      ∀ r, r ∈ toArray (reads (txn st)) → r ∈ toArray (addKey (reads (txn st)) (docKeyspace id) (internalId id))).
    { intros Hok. split; [by apply rs_add_ok|]. intros r Hr. apply rs_add_elem; [done|by right]. }
    match goal with |- context [uw_get ?a ?b] => destruct (uw_get a b) end; by split.
  - intros ctx meta ranges st. destruct (fold_reads (scan_unvalidated ctx meta) ranges (txn st)) as [E1 E2]. split; cbn; try done; rewrite E1. intros Hok.
    split; [by apply fold_rs_add_ok|]. intros r Hr. apply fold_rs_add_elem; [done|by right].
Qed.

#[global] Instance later_rule : RuleFollow later.
Proof. by split. Qed.

(** ** Live ranges *)
(** Code that hands on the results of its calls as they are: what it returns is one of them, or an object of its own. *)
Inductive untouched (seen : list gval) : guest channel outcome → Prop :=
  | untouched_value v : g_brand v = None ∨ v ∈ seen → untouched seen (GRet (OValue v))
  | untouched_commit message : untouched seen (GRet (OCommitThenThrow message))
  | untouched_throw e : untouched seen (GThrow e)
  | untouched_do c a k : (∀ r, untouched (match r with Ok v => v :: seen | Err _ => seen end) (k r)) → untouched seen (GDo c a k).

Section live.
Context {S : Type} `{!MvccStore S}.
Context (store : S) (cat : SimpleIndexCatalog) (d1 : D1Store) (randomId : nat → bytes) (cfg : RunConfig) (ts : Z).
Context (Htype : rc_type cfg = UQuery).
Implicit Types (st : KState) (seen : list gval) (t : CollectTrace).

(** The scan behind a trace of a collect no policy or limit touched. *)
Definition traced (rs : list KeyRange) t : Prop := ct_hadReadPolicy t = false → ct_hadLimit t = false → ∃ q r iv,
  buildIndexInterval (is_fields (q_index q)) (default [] (q_range q)) = Ok iv ∧ collect store q ts [] = Ok r ∧ q_limit q = None ∧
  default [] (q_filters q) = ct_filters t ∧ default Asc (q_order q) = ct_order t ∧ is_fields (q_index q) = ct_fields t ∧
  ct_keyspace t = query_keyspace (q_index q) ∧ ct_bounds t = serializeKeyRange (interval_range (q_index q) iv) ∧
  interval_range (q_index q) iv ∈ rs ∧ ct_docs t = List.map convexToJson (co_documents r).
Definition answers t (v : gval) : Prop := ∃ vs, traverse jsonToConvex (ct_docs t) = Ok vs ∧ g_value v = VArr vs.
Record live_inv seen st : Prop := {
  li_ts : snapshotTs (txn st) = ts;
  li_clean : indexUpdates (txn st) = [];
  li_ok : rs_ok (reads (txn st));
  li_trace : ∀ t, t ∈ collectTrace st → ct_token t ≤ collectTokenSeq st ∧ traced (toArray (reads (txn st))) t;
  li_seen : ∀ v tok, v ∈ seen → g_brand v = Some tok → tok ≤ collectTokenSeq st ∧ ∀ t, t ∈ collectTrace st → ct_token t = tok → answers t v }.

Lemma traced_mono rs rs' t : (∀ r, r ∈ rs → r ∈ rs') → traced rs t → traced rs' t.
Proof. intros Hi H H1 H2. destruct (H H1 H2) as (q & r & iv & ? & ? & ? & ? & ? & ? & ? & ? & ? & ?). exists q, r, iv. split_and!; try done. by apply Hi. Qed.
Lemma live_later seen st st' : live_inv seen st → later st st' → same_writes st st' → live_inv seen st'.
Proof.
  intros [H1 H2 H3 H4 H5] [L1 L2 L3 L4] W. destruct (L1 H3) as [H3' Hi]. split; [congruence| |done|..].
  - rewrite <-H2. exact (f_equal w_updates W).
  - rewrite L2, L3. intros t Ht. destruct (H4 t Ht) as [? Htr]. split; [done|]. by eapply traced_mono.
  - by rewrite L2, L3.
Qed.
Lemma live_plain seen st v : live_inv seen st → g_brand v = None → live_inv (v :: seen) st.
Proof. intros [H1 H2 H3 H4 H5] Hv. split; try done. intros v' tok [->|Hin]%elem_of_cons; [by rewrite Hv|]. by apply H5. Qed.
(** A new token is no one's brand yet, and no trace's. *)
Definition unused seen st : Prop :=
  (∀ t, t ∈ collectTrace st → ct_token t < collectTokenSeq st) ∧ ∀ v tok, v ∈ seen → g_brand v = Some tok → tok < collectTokenSeq st.
Lemma live_token seen st : live_inv seen st → let st' := with_traces st (collectTrace st) (paginateTrace st) (collectTokenSeq st + 1) in
  live_inv seen st' ∧ unused seen st'.
Proof.
  intros [H1 H2 H3 H4 H5]. split; [split; try done; cbn|split; cbn].
  - intros t Ht. destruct (H4 t Ht). split; [lia|done].
  - intros v tok Hv Hb. destruct (H5 v tok Hv Hb). split; [lia|done].
  - intros t Ht. destruct (H4 t Ht). lia.
  - intros v tok Hv Hb. destruct (H5 v tok Hv Hb). lia.
Qed.
Lemma live_append seen st t : live_inv seen st → unused seen st → ct_token t = collectTokenSeq st → traced (toArray (reads (txn st))) t →
  live_inv seen (with_traces st (collectTrace st ++ [t]) (paginateTrace st) (collectTokenSeq st)).
Proof.
  intros [H1 H2 H3 H4 H5] [_ Hs] Ht Htr. split; try done; cbn.
  - intros t' [Hin| ->%list_elem_of_singleton]%elem_of_app; [by apply H4|]. split; [lia|done].
  - intros v tok Hv E. destruct (H5 v tok Hv E) as [Hle Hall]. split; [done|].
    intros t' [Hin| ->%list_elem_of_singleton]%elem_of_app E'; [by apply Hall|]. specialize (Hs v tok Hv E). lia.
Qed.
Lemma live_branded seen st v tok : live_inv seen st → g_brand v = Some tok → tok ≤ collectTokenSeq st →
  (∀ t, t ∈ collectTrace st → ct_token t = tok → answers t v) → live_inv (v :: seen) st.
Proof.
  intros [H1 H2 H3 H4 H5] Hb Hle Ha. split; try done. intros v' tok' [->|Hv]%elem_of_cons E; [rewrite Hb in E; by injection E as <-|]. by apply H5.
Qed.

(** What a call leaves, and what its answer may be taken for. *)
Definition call_ok seen (out : KState * res reply) : Prop :=
  live_inv seen out.1 ∧ ∀ r v, out.2 = Ok r → api_result r = Ok v → live_inv (v :: seen) out.1.
Lemma call_bind {A} seen (m : eff KState A) (k : A → eff KState reply) st : follows later m → quiet m → live_inv seen st →
  (∀ a st1, m st = (st1, Ok a) → live_inv seen st1 → call_ok seen (k a st1)) → call_ok seen (ebind m k st).
Proof.
  intros Hl Hw Hi Hk. pose proof (live_later _ _ _ Hi (Hl st) (Hw st)) as H1. unfold ebind. destruct (m st) as [st1 [a|e]]; [by apply Hk|].
  split; [done|]. by intros r v ?.
Qed.
Lemma call_quiet seen (m : eff KState reply) st : follows later m → quiet m → live_inv seen st →
  (∀ st1 r v, m st = (st1, Ok r) → api_result r = Ok v → g_brand v = None) → call_ok seen (m st).
Proof.
  intros Hl Hw Hi Hb. pose proof (live_later _ _ _ Hi (Hl st) (Hw st)) as H1. split; [done|]. intros r v E Hv. apply live_plain; [done|].
  destruct (m st) as [st1 x] eqn:Em. cbn in E. subst x. by eapply Hb.
Qed.

Definition reply_token (r : reply) : option Z := match r with RDocs _ token | RPage _ _ _ _ token => token | _ => None end.
Lemma api_brand r v : api_result r = Ok v → g_brand v = reply_token r.
Proof.
  destruct r as [[j|]|id| |docs tok|page c m s tok|]; cbn; try (by intros [= <-]).
  - destruct (jsonToConvex j); [|done]. by intros [= <-].
  - destruct (traverse jsonToConvex docs); [|done]. by intros [= <-].
  - destruct (traverse jsonToConvex page); [|done]. by intros [= <-].
Qed.
Lemma get_token hasRead readPolicy ctx id st st' r : handleDbGet store cat d1 hasRead readPolicy ctx id st = (st', Ok r) → reply_token r = None.
Proof.
  intros H. assert (Hk : keeps (λ _, True) (handleDbGet store cat d1 hasRead readPolicy ctx id) (λ r _, reply_token r = None)).
  { unfold handleDbGet. repeat keeps_step; done. }
  specialize (Hk st I). rewrite H in Hk. by apply Hk.
Qed.
Lemma untraced_token hasRead readPolicy ctx spec st st' r : k_traced ctx = false →
  handleDbQuery store cat d1 hasRead readPolicy ctx spec st = (st', Ok r) → reply_token r = None.
Proof.
  intros Ht H. assert (Hk : keeps (λ _, True) (handleDbQuery store cat d1 hasRead readPolicy ctx spec) (λ r _, reply_token r = None)).
  { unfold handleDbQuery, query_global, query_local. rewrite Ht. repeat keeps_step; done. }
  specialize (Hk st I). rewrite H in Hk. by apply Hk.
Qed.
Lemma untraced_page_token hasRead readPolicy ctx spec opts st st' r : k_traced ctx = false →
  handleDbPaginate store cat hasRead readPolicy ctx spec opts st = (st', Ok r) → reply_token r = None.
Proof.
  intros Ht H. assert (Hk : keeps (λ _, True) (handleDbPaginate store cat hasRead readPolicy ctx spec opts) (λ r _, reply_token r = None)).
  { unfold handleDbPaginate, paginate_local. rewrite Ht. repeat keeps_step; done. }
  specialize (Hk st I). rewrite H in Hk. by apply Hk.
Qed.

Lemma collect_unlimited q r : q_limit q = None → collect store q ts [] = Ok r →
  ∃ iv, buildIndexInterval (is_fields (q_index q)) (default [] (q_range q)) = Ok iv ∧ toArray (co_readSet r) = [interval_range (q_index q) iv].
Proof.
  intros Hl. unfold collect. destruct (buildIndexInterval _ _) as [iv|]; [|done]. cbn [res_bind]. destruct (ms_scan _ _ _ _ _ _) as [rows|]; [|done]. cbn [res_bind].
  assert (Hn : ∀ docs lst, (collect_loop (default [] (q_filters q)) (q_limit q) rows docs lst).2 = false).
  { rewrite Hl. induction rows as [|x rows IH]; intros docs lst; [done|]. cbn. by destruct (matches _ _); apply IH. }
  specialize (Hn [] None). destruct (collect_loop _ _ _ _ _) as [[docs l] b]. cbn in Hn. subst b. intros [= <-]. exists iv. split; [done|]. reflexivity.
Qed.
Lemma overlay_clean c id : indexUpdates c = [] → pendingIndexOverlay c id = [].
Proof. intros H. unfold pendingIndexOverlay. by rewrite H. Qed.
(** The token a scan answers with: a collect's brands its rows, a page's no collect. *)
Lemma token_tail seen st (trace : Z → KState → KState) (r : Z → reply) : live_inv seen st →
  (∀ st', live_inv seen st' → unused seen st' → reads (txn st') = reads (txn st) → live_inv seen (trace (collectTokenSeq st') st') ∧
    collectTokenSeq (trace (collectTokenSeq st') st') = collectTokenSeq st' ∧
    ∀ v t, api_result (r (collectTokenSeq st')) = Ok v → t ∈ collectTrace (trace (collectTokenSeq st') st') → ct_token t = collectTokenSeq st' → answers t v) →
  (∀ tok, reply_token (r tok) = Some tok) →
  call_ok seen ((let^ token := nextCollectToken in do^ edo (trace token) in eret (r token)) st).
Proof.
  intros Hi Ht Hr. destruct (live_token seen st Hi) as [H1 Hu]. set (st' := with_traces st _ _ _) in *. destruct (Ht st' H1 Hu eq_refl) as (H2 & Hs & Ha).
  rewrite (ebind_run _ _ st st' (collectTokenSeq st')) by done. rewrite (ebind_run _ _ _ (trace (collectTokenSeq st') st') tt) by done. cbn [eret].
  split; [done|]. intros x v [= <-] Hv. apply (live_branded _ _ _ (collectTokenSeq st')); [done|by rewrite (api_brand _ _ Hv)|exact (Z.eq_le_incl _ _ (eq_sym Hs))|]. intros t. by apply Ha.
Qed.
Lemma answers_docs docs tok t v : api_result (RDocs docs tok) = Ok v → ct_docs t = docs → answers t v.
Proof. cbn. intros H <-. unfold answers. destruct (traverse jsonToConvex (ct_docs t)) as [vs|]; [|done]. injection H as <-. by exists vs. Qed.
Lemma query_of_fields index spec limit q : query_of index spec limit = Ok q → q_index q = index ∧ q_limit q = limit ∧ q_order q = qs_order spec.
Proof. unfold query_of. destruct (opt_traverse range_of _); [|done]. destruct (opt_traverse filter_of _); [|done]. by intros [= <-]. Qed.
Lemma main_query seen spec st : live_inv seen st →
  call_ok seen (handleDbQuery store cat d1 (has_read cfg) (resolveReadPolicy store cat d1 randomId cfg) (context_of cfg ChMain) spec st).
Proof.
  intros Hi. pose proof (follows_read_policy store cat d1 randomId cfg later) as Hp1. pose proof (follows_read_policy store cat d1 randomId cfg same_writes) as Hp2.
  unfold handleDbQuery. apply call_bind; [auto with follows..|done|]. intros [table index] st1 _ H1.
  destruct (getTable cat table ≫= _) as [u|].
  { apply call_quiet; [..|done|].
    - pose proof (follows_global_read store later). unfold query_global, requireGlobalTxn. repeat follows_step.
    - pose proof (follows_global_read store same_writes). unfold query_global, requireGlobalTxn. repeat follows_step.
    - intros st2 r v E Hv. rewrite (api_brand _ _ Hv).
      assert (Hk : keeps (λ _, True) (query_global d1 (has_read cfg) (context_of cfg ChMain) table spec) (λ r _, reply_token r = None)).
      { unfold query_global. repeat keeps_step; done. }
      specialize (Hk st1 I). rewrite E in Hk. by apply Hk. }
  unfold query_local. apply call_bind; [auto with follows..|done|]. intros [] st2 _ H2.
  apply call_bind; [auto with follows..|done|]. intros q st3 [Hq _]%elift_ok H3.
  apply call_bind; [by apply (follows_restrict store (has_read cfg) later)|by apply (follows_restrict store (has_read cfg) same_writes)|done|]. intros q' st4 Hr H4.
  apply call_bind; [auto with follows..|done|]. intros c st5 [= <- <-] H5. apply call_bind; [auto with follows..|done|]. intros cr st6 [Hc ->]%elift_ok H6.
  rewrite (li_ts _ _ H6), (overlay_clean _ _ (li_clean _ _ H6)) in Hc.
  apply call_bind; [apply (rf_scan (store := store) (R := later))|apply (rf_scan (store := store) (R := same_writes))|done|]. intros [] st7 Es H7.
  assert (Hread : ∀ x, x ∈ toArray (co_readSet cr) → x ∈ toArray (reads (txn st7))).
  { intros x Hx. injection Es as <-. destruct (fold_reads (scan_unvalidated (context_of cfg ChMain) (getTable cat table)) (toArray (co_readSet cr)) (txn st4)) as [E _].
    cbv zeta in E. refine (eq_rect_r (λ rs, x ∈ toArray rs) _ E). apply fold_rs_add_elem; [apply (li_ok _ _ H6)|by left]. }
  assert (Hsame : enforced (context_of cfg ChMain) (has_read cfg) table = false → q' = q) by (intros He; unfold restrict in Hr; rewrite He in Hr; by injection Hr).
  pose proof (query_of_fields _ _ _ _ Hq) as Hfields. clear Hr Es. unfold context_of at 1. cbn [k_traced]. rewrite Htype. cbn [is_query]. set (docs := List.map convexToJson (co_documents cr)).
  assert (Hnone : call_ok seen ((let^ token := nextCollectToken in do^ eret tt in eret (RDocs docs (Some token))) st7)).
  { apply (token_tail seen st7 (λ _ st0, st0) (λ tok, RDocs docs (Some tok))); [done| |done]. intros st' Hi' [Hu _] _. split; [done|]. split; [done|].
    intros v t _ Ht E. specialize (Hu t Ht). lia. }
  destruct (List.filter is_index_range (toArray (co_readSet cr))) as [|range [|]] eqn:Ef; [exact Hnone| |exact Hnone].
  apply (token_tail seen st7 (λ tok st0, with_traces st0 (collectTrace st0 ++ [_]) (paginateTrace st0) (collectTokenSeq st0)) (λ tok, RDocs docs (Some tok))); [done| |done].
  intros st' Hi' Hu Er. split; [apply live_append; [done..|]|split; [done|]].
  - rewrite Er. intros He%Hsame Hl. destruct Hfields as (Hx & Hlim & Hord). rewrite He in Hc. assert (Hnl : q_limit q = None) by (rewrite Hlim; by destruct (qs_limit spec)).
    destruct (collect_unlimited q cr Hnl Hc) as (iv & Hb & Ea). exists q, cr, iv. rewrite Ea in Hread.
    assert (range = interval_range (q_index q) iv) as -> by (rewrite Ea in Ef; cbn [List.filter] in Ef; destruct (is_index_range _); by simplify_eq).
    split_and!; try done; [by rewrite Hord|by rewrite Hx|]. apply Hread. by left.
  - intros v t Hv [Ht| ->%list_elem_of_singleton]%elem_of_app E; [destruct Hu as [Hu _]; specialize (Hu t Ht); cbn in E; lia|]. by eapply answers_docs.
Qed.
Lemma main_page seen spec opts st : live_inv seen st →
  call_ok seen (handleDbPaginate store cat (has_read cfg) (resolveReadPolicy store cat d1 randomId cfg) (context_of cfg ChMain) spec opts st).
Proof.
  intros Hi. pose proof (follows_read_policy store cat d1 randomId cfg later) as Hp1. pose proof (follows_read_policy store cat d1 randomId cfg same_writes) as Hp2.
  unfold handleDbPaginate. apply call_bind; [auto with follows..|done|]. intros [table index] st1 _ H1.
  destruct (getTable cat table ≫= _) as [u|]; [split; [done|by intros r v ?]|]. unfold paginate_local.
  apply call_bind; [auto with follows..|done|]. intros [] st2 _ H2. apply call_bind; [auto with follows..|done|]. intros q st3 _ H3.
  apply call_bind; [by apply (follows_restrict store (has_read cfg) later)|by apply (follows_restrict store (has_read cfg) same_writes)|done|]. intros q' st4 _ H4.
  apply call_bind; [auto with follows..|done|]. intros c st5 _ H5. apply call_bind; [auto with follows..|done|]. intros cr st6 _ H6.
  apply call_bind; [apply (rf_scan (store := store) (R := later))|apply (rf_scan (store := store) (R := same_writes))|done|]. intros [] st7 _ H7.
  unfold context_of at 1. cbn [k_traced]. rewrite Htype. cbn [is_query].
  assert (Htail : ∀ f : Z → KState → list PaginateTrace, call_ok seen ((let^ token := nextCollectToken in
    do^ edo (λ st0, with_traces st0 (collectTrace st0) (f token st0) (collectTokenSeq st0)) in
    eret (RPage (List.map convexToJson (pg_page cr)) (pg_nextCursor cr) (pg_hasMore cr) (pg_scanCapped cr) (Some token))) st7)).
  { intros f. apply (token_tail seen st7 (λ tok st0, with_traces st0 (collectTrace st0) (f tok st0) (collectTokenSeq st0))
      (λ tok, RPage (List.map convexToJson (pg_page cr)) (pg_nextCursor cr) (pg_hasMore cr) (pg_scanCapped cr) (Some tok))); [done| |done].
    intros st' [I1 I2 I3 I4 I5] [Hu _] _. split; [by split|]. split; [done|]. intros v t _ Ht E. specialize (Hu t Ht). lia. }
  destruct (List.filter is_index_range (toArray (pg_readSet cr))) as [|range [|]].
  - exact (Htail (λ _ st0, paginateTrace st0)).
  - apply (Htail (λ tok st0, paginateTrace st0 ++ [_])).
  - exact (Htail (λ _ st0, paginateTrace st0)).
Qed.

Lemma readonly_base ctx op : k_dbWrite ctx = false → k_traced ctx = false → ∀ st st' r v, base_exec store cat d1 randomId ctx op st = (st', Ok r) → api_result r = Ok v → g_brand v = None.
Proof.
  intros Hd Ht st st' r v E Hv. rewrite (api_brand _ _ Hv). unfold base_exec, dispatch in E. destruct op.
  - by eapply get_token.
  - unfold handleDbInsert in E. by rewrite Hd in E.
  - unfold handleDbReplace in E. by rewrite Hd in E.
  - unfold handleDbDelete in E. by rewrite Hd in E.
  - by eapply untraced_token.
  - by eapply untraced_page_token.
  - by injection E as _ <-.
Qed.
Lemma exec_call seen c op st : live_inv seen st → call_ok seen (exec store cat d1 randomId cfg c op st).
Proof.
  intros Hi. destruct c as [|ns write]; unfold exec.
  - assert (Hd : k_dbWrite (context_of cfg ChMain) = false) by (cbn; by rewrite Htype).
    pose proof (follows_read_policy store cat d1 randomId cfg later) as Hp1. pose proof (follows_read_policy store cat d1 randomId cfg same_writes) as Hp2.
    destruct op; cbn [dispatch].
    + apply call_quiet; [by apply (follows_get_handler store cat d1 (has_read cfg) later)|by apply (follows_get_handler store cat d1 (has_read cfg) same_writes)|done|].
      intros st1 r v E Hv. rewrite (api_brand _ _ Hv). by eapply get_token.
    + unfold handleDbInsert. rewrite Hd. by split.
    + unfold handleDbReplace. rewrite Hd. by split.
    + unfold handleDbDelete. rewrite Hd. by split.
    + by apply main_query.
    + by apply main_page.
    + apply call_quiet; [apply (follows_log store later)|apply (follows_log store same_writes)|done|]. intros st1 r v [= _ <-] Hv. by rewrite (api_brand _ _ Hv).
  - assert (Hd : k_dbWrite (context_of cfg (ChFacade ns write)) = false) by (cbn; rewrite Htype; cbn; by rewrite andb_false_r).
    apply call_quiet; [apply (follows_base store cat d1 randomId later); [done|by left]|apply (follows_base store cat d1 randomId same_writes); [done|by left]|done|]. by apply readonly_base.
Qed.
Lemma api_live seen c a st : live_inv seen st → let out := api_do (exec store cat d1 randomId cfg) (context_of cfg) c a st in
  live_inv (match out.2 with Ok v => v :: seen | Err _ => seen end) out.1.
Proof.
  intros Hi. unfold api_do. destruct (_ && _); [done|]. pose proof (exec_call seen c (api_call a) st Hi) as [H1 H2]. unfold ebind.
  destruct (exec _ _ _ _ _ c (api_call a) st) as [st1 [r|e]]; [|done]. cbn in *. destruct (api_result r) as [v|] eqn:E; [|done]. by eapply H2.
Qed.
Lemma run_live (g : guest channel outcome) seen st st' o : untouched seen g → live_inv seen st →
  run_guest (exec store cat d1 randomId cfg) (context_of cfg) g st = (st', Ok o) →
  ∃ seen', live_inv seen' st' ∧ ∀ v, o = OValue v → g_brand v = None ∨ v ∈ seen'.
Proof.
  revert seen st. induction g as [o'|e|c a k IH]; intros seen st Hu Hi.
  - intros [= <- <-]. exists seen. split; [done|]. intros v ->. by inversion Hu.
  - done.
  - cbn [run_guest]. unfold etry. pose proof (api_live seen c a st Hi) as H. destruct (api_do _ _ c a st) as [st1 r]. cbn in H.
    inversion Hu as [| | |c0 a0 k0 Hk]; subst. specialize (Hk r). by eapply (IH r).
Qed.

End live.
