(* ===== verification/KernelExamples.v ===== *)
(** Runs of the executor on a small catalog: two stores, a table sharded by room, an unsharded table of a component and a global one. They are the
    instances at which the theorems of [KernelSafety] apply, and the behaviours of the kernel that its comments do not say. *)
From S2P Require Import Prelude Effects Numbers Values Json Validators IndexKeys Ranges IdCodec DocStore ShardRouting MvccStore Transactor Serializability QueryEngine Policy Kernel.
From S2P Require Import KernelWrites Executor KernelSafety KernelReads.

#[local] Instance demo_sqlite : MvccStore db := sqlite_store [].

Definition demo_index (table : string) (tn : Z) (index : string) (fields : list string) : IndexSpec :=
  {| is_table := js table; is_tableNumber := tn; is_index := js index; is_fields := List.map js fields;
     is_indexId := encodeStorageIndexId tn (js index) |}.
Definition or_else {A} (r : res A) (x : A) : A := match r with Ok a => a | Err _ => x end.
Definition demo_cat : SimpleIndexCatalog := Eval vm_compute in
  or_else (let! c := addTable new_SimpleIndexCatalog (js "messages") 10001 None None (Some (js "room")) false in
           let! c := addTable c (js "sched/jobs") 10002 None None None false in
           let! c := addTable c (js "settings") 10003 None None None true in
           let! c := addIndex c (demo_index "messages" 10001 "by_creation" ["room"; "_creationTime"; "_id"]) in
           let! c := addIndex c (demo_index "sched/jobs" 10002 "by_creation" ["_creationTime"; "_id"]) in
           addIndex c (demo_index "sched/jobs" 10002 "by_payload" ["payload"; "_creationTime"; "_id"])) new_SimpleIndexCatalog.

Lemma demo_names : names_tables demo_cat.
Proof.
  intros name meta. unfold getTable. cbn [tables demo_cat jm_get].
  repeat (case_decide; [subst; intros [= <-]; split; [reflexivity|vm_compute; reflexivity]|]). done.
Qed.
Lemma demo_ids : index_ids demo_cat.
Proof.
  intros table idx. unfold indexesForTable. cbn [indexesByTable demo_cat jm_get].
  repeat (case_decide; [subst; intros Hi%list_elem_of_In; cbn in Hi; destruct_or?; by subst|]). by intros ?%list_elem_of_In.
Qed.

Definition demo_id (tn n : Z) : InternalDocumentId := {| tableNumber := tn; internalId := replicate 16 n |}.
Definition id_text (id : InternalDocumentId) : jsstr := or_else (encodeInternalDocumentId id) [].
Definition message (n : Z) (room : string) : value := VObj [(js "room", VStr (js room)); (js "_id", VStr (id_text (demo_id 10001 n))); (js "_creationTime", VNum (mknum (num_of_Z 1)))].
Definition demo_job (n : Z) : value := VObj [(js "payload", VBig n); (js "_id", VStr (id_text (demo_id 10002 n))); (js "_creationTime", VNum (mknum (num_of_Z 1)))].
(** A store with a message of each shard and two jobs. *)
Definition demo_docs : list (jsstr * InternalDocumentId * value) :=
  [(js "messages", demo_id 10001 1, message 1 "a"); (js "messages", demo_id 10001 2, message 2 "b");
   (js "sched/jobs", demo_id 10002 3, demo_job 3); (js "sched/jobs", demo_id 10002 4, demo_job 4)].
Definition demo_unit : CommitUnit :=
  {| cu_documents := List.map (λ '(_, id, v), {| le_ts := 0; le_id := id; le_prev_ts := None; le_value := Some {| rd_id := id; rd_value := v |} |}) demo_docs;
     cu_indexUpdates := stage_updates (concat (List.map (λ '(t, id, v), or_else (computeIndexUpdates (indexesForTable demo_cat t) None (Some v) id) []) demo_docs));
     cu_meta := None |}.
Definition demo_db : db := Eval vm_compute in match commitWriteBatch [] empty_db [demo_unit] None with Ok (d, _) => d | Err _ => empty_db end.

Definition demo_random (n : nat) : bytes := replicate 16 (7 + Z.of_nat (n mod 200)).
Lemma get_absent (d : db) id rt : (∀ r, r ∈ documents d → d_internal r ≠ internalId id) → get d id rt = Ok None.
Proof.
  intros H. unfold get, revisions. assert (List.filter (λ r, bool_decide (d_table r = encodeStorageTableId (tableNumber id)) && bool_decide (d_internal r = internalId id) &&
    match rt with None => true | Some t => d_ts r <=? t end) (documents d) = []) as ->; [|done].
  induction (documents d) as [|r rs IH]; [done|]. cbn. rewrite (bool_decide_eq_false_2 (d_internal r = _)) by (apply H; left).
  rewrite andb_false_r. cbn. apply IH. intros r' Hr. apply H. by right.
Qed.
Lemma demo_fresh id n : internalId id = demo_random n → ms_get demo_db id (Some 1) = Ok None.
Proof.
  intros E. apply get_absent. intros r Hr. rewrite E. cbn [documents demo_db] in Hr. apply list_elem_of_In in Hr. cbn in Hr. destruct_or?; subst; try done; intros [= ?]; lia.
Qed.
Lemma demo_random_bytes n : Forall is_byte (demo_random n).
Proof. apply Forall_replicate. unfold is_byte. pose proof (Nat.mod_upper_bound n 200). lia. Qed.

Definition no_d1 : D1Store := {| d1_get _ _ := Ok None; d1_queryByIndex _ _ _ _ := Ok [] |}.
Definition demo_cfg (ns : jsstr) (privileged : bool) (shard : jsstr) : RunConfig :=
  {| rc_type := UMutation; rc_namespace := ns; rc_privileged := privileged; rc_shardId := shard; rc_numShards := 2; rc_shardDeclared := true;
     rc_policies _ := None; rc_relations := {| toMany := []; toOne := [] |}; rc_ruleBuild := None |}.
Definition demo_run {V} (cfg : RunConfig) (g : guest channel V) : KState * res V :=
  run_guest (exec demo_db demo_cat no_d1 demo_random cfg) (context_of cfg) g (new_KState cfg 1 (new_HeadroomTracker DEFAULT_HEADROOM) true 0 0).
(** Code that makes some calls, whatever they answer. *)
Fixpoint calls (l : list api) : guest channel unit :=
  match l with [] => GRet tt | a :: l => GDo ChMain a (λ _, calls l) end.
Definition say (room : string) : api := AInsert (js "messages") (VObj [(js "room", VStr (js room))]).
Definition edit (n : Z) (room : string) : api := AReplace (id_text (demo_id 10001 n)) (VObj [(js "room", VStr (js room)); (js "text", VStr (js "x"))]).

(** ** The theorems at work *)
#[local] Abbreviation demo_h := (new_HeadroomTracker DEFAULT_HEADROOM).
#[local] Abbreviation both_stores := (calls [say "a"; AInsert (js "settings") (VObj []); say "d"]).
Lemma single_store_writes_witness : let st := (demo_run (demo_cfg [] false DEFAULT_SHARD) both_stores).1 in
  wroteGlobal st = true ∧ length (uw_entries (staged (txn st))) = 1%nat ∧ ∀ gt, globalTxn st = Some gt → hasWrites gt = false.
Proof.
  split; [vm_compute; reflexivity|]. split; [vm_compute; reflexivity|].
  destruct (single_store_writes demo_db demo_cat no_d1 demo_random (demo_cfg [] false DEFAULT_SHARD) both_stores 1 demo_h true 0 0 demo_names) as [[H _]|H].
  - exfalso. revert H. vm_compute. discriminate.
  - exact H.
Defined.

#[local] Abbreviation own_calls := (calls [say "a"; say "b"; edit 1 "a"; edit 2 "b"; ADelete (id_text (demo_id 10001 2))]).
Lemma shard_ownership_witness : let st := (demo_run (demo_cfg [] false DEFAULT_SHARD) own_calls).1 in
  length (uw_entries (staged (txn st))) = 2%nat ∧ ∀ l, l ∈ uw_entries (staged (txn st)) →
    ∃ meta, getTableByNumber demo_cat (tableNumber (lw_id l)) = Some meta ∧
      (∀ doc, lw_value l = Some doc → sharding meta ≠ None → owned (demo_cfg [] false DEFAULT_SHARD) meta doc) ∧
      (∀ doc, snapshot_doc demo_db 1 (lw_id l) doc → owned (demo_cfg [] false DEFAULT_SHARD) meta doc).
Proof.
  split; [vm_compute; reflexivity|].
  exact (shard_ownership demo_db demo_cat no_d1 demo_random (demo_cfg [] false DEFAULT_SHARD) 1 eq_refl demo_random_bytes demo_fresh own_calls demo_h true 0 0 demo_names).
Defined.

#[local] Abbreviation edits := (calls [edit 1 "a"; edit 2 "b"]).
Lemma shards_write_apart_witness : ∃ l l',
  uw_entries (staged (txn (demo_run (demo_cfg [] false DEFAULT_SHARD) edits).1)) = [l] ∧
  uw_entries (staged (txn (demo_run (demo_cfg [] false (js "s1")) edits).1)) = [l'] ∧
  snapshot_doc demo_db 1 (lw_id l) (message 1 "a") ∧ lw_id l ≠ lw_id l'.
Proof.
  eexists _, _. split; [vm_compute; reflexivity|]. split; [vm_compute; reflexivity|].
  assert (Hd : snapshot_doc demo_db 1 (demo_id 10001 1) (message 1 "a")) by (eexists; split; vm_compute; reflexivity).
  split; [exact Hd|].
  eapply (shards_write_apart demo_db demo_cat no_d1 demo_random demo_random (demo_cfg [] false DEFAULT_SHARD) (demo_cfg [] false (js "s1")) 1 edits edits
    demo_h demo_h true true 0 0 0 0 _ _ (message 1 "a") demo_names eq_refl eq_refl eq_refl).
  - vm_compute. discriminate.
  - intros n. split; apply demo_random_bytes.
  - intros id n [H|H]; by eapply demo_fresh.
  - apply list_elem_of_In. vm_compute. left. reflexivity.
  - apply list_elem_of_In. vm_compute. left. reflexivity.
  - exact Hd.
Defined.

Lemma writes_reported_witness : let c := txn (demo_run (demo_cfg [] false DEFAULT_SHARD) own_calls).1 in length (indexUpdates c) = 2%nat ∧
  ∀ u, u ∈ indexUpdates c → ∃ tn index r, iu_indexId u = encodeStorageIndexId tn index ∧ r ∈ toArray (writeRanges c) ∧
    keyspace r = indexKeyspaceId (encodeStorageTableId tn) index ∧ keyInRange (iu_key u) r = true.
Proof.
  split; [vm_compute; reflexivity|].
  exact (proj1 (writes_reported demo_db demo_cat no_d1 demo_random (demo_cfg [] false DEFAULT_SHARD) demo_ids own_calls 1 demo_h true 0 0 demo_names)).
Defined.

(** A policy on messages: only those of the room the rule context names, room a in this run. *)
Definition room_policy (rc : value) : guest rule_channel PolicyPredicate := GRet (PWhere (WFields [(js "room", CBare rc)])).
Definition policy_cfg : RunConfig :=
  {| rc_type := UQuery; rc_namespace := []; rc_privileged := false; rc_shardId := DEFAULT_SHARD; rc_numShards := 2; rc_shardDeclared := false;
     rc_policies t := if decide (t = js "messages") then Some {| tp_read := Some room_policy; tp_write := None |} else None;
     rc_relations := {| toMany := []; toOne := [] |}; rc_ruleBuild := Some (GRet (VStr (js "a"))) |}.
#[local] Abbreviation policy_st := (new_KState policy_cfg 1 demo_h true 0 0).
Definition list_messages : guest channel unit := GDo ChMain (ACollect (query (js "messages") (js "by_creation"))) (λ _, GRet tt).
#[local] Abbreviation all_messages := (api_call (ACollect (query (js "messages") (js "by_creation")))).
#[local] Abbreviation policy_exec := (exec demo_db demo_cat no_d1 demo_random policy_cfg).
Definition first_docs (r : res reply) : list json := match r with Ok r => reply_docs r | Err _ => [] end.
Lemma read_policy_enforced_witness : ∃ r st', policy_exec ChMain all_messages policy_st = (st', Ok r) ∧
  reply_docs r = [convexToJson (message 1 "a")] ∧
  ∃ docs, reply_docs r = List.map convexToJson docs ∧ (docs = [] ∨ ∃ rc p e s1 s2 s3,
    ruleContext (run_guest policy_exec (context_of policy_cfg) list_messages policy_st).1 = Some (Ok rc) ∧
    rc = VStr (js "a") ∧
    same_writes policy_st s1 ∧ run_rule demo_db demo_cat no_d1 demo_random policy_cfg (room_policy rc) s1 = (s2, Ok p) ∧
    resolveWhere (collect_all demo_db demo_cat no_d1 demo_random policy_cfg) (rc_relations policy_cfg) p (js "messages") s2 = (s3, Ok e) ∧
    (∀ doc, doc ∈ docs → admits e doc)).
Proof.
  pose proof (made_here demo_db demo_cat no_d1 demo_random policy_cfg ChMain (ACollect (query (js "messages") (js "by_creation"))) (λ _, GRet tt) policy_st eq_refl) as Hm.
  destruct (policy_exec ChMain all_messages policy_st) as [st' r] eqn:E.
  assert (Hd : first_docs (policy_exec ChMain all_messages policy_st).2 = [convexToJson (message 1 "a")]) by (vm_compute; reflexivity).
  rewrite E in Hd. destruct r as [r|]; [|discriminate Hd]. exists r, st'. split; [reflexivity|]. split; [exact Hd|].
  destruct (read_policy_enforced demo_db demo_cat no_d1 demo_random policy_cfg list_messages 1 demo_h true 0 0 all_messages (js "messages") room_policy policy_st st' r
    eq_refl ltac:(discriminate) eq_refl Hm eq_refl) as (docs & Er & H). exists docs. split; [exact Er|].
  destruct H as [H|(rc & p & e & s1 & s2 & s3 & H1 & _ & H2 & H3 & H4 & H5)]; [by left|right].
  exists rc, p, e, s1, s2, s3. split; [exact H1|]. split; [|by split_and!].
  assert (Hf : ruleContext (run_guest policy_exec (context_of policy_cfg) list_messages policy_st).1 = Some (Ok (VStr (js "a")))) by (vm_compute; reflexivity).
  congruence.
Defined.

(** A live list of jobs. *)
Definition live_cfg : RunConfig :=
  {| rc_type := UQuery; rc_namespace := js "sched"; rc_privileged := false; rc_shardId := DEFAULT_SHARD; rc_numShards := 1; rc_shardDeclared := false;
     rc_policies _ := None; rc_relations := {| toMany := []; toOne := [] |}; rc_ruleBuild := None |}.
Definition list_jobs : guest channel outcome :=
  GDo ChMain (ACollect (query (js "jobs") (js "by_creation"))) (λ r, match r with Ok v => GRet (OValue v) | Err e => GThrow e end).
#[local] Abbreviation live_attempt := (attempt demo_db demo_cat no_d1 demo_random live_cfg list_jobs (new_KState live_cfg 1 demo_h false 0 0)).
Definition live_of (r : res Attempt) : option (value * DiffableRange) :=
  match r with
  | Ok a => match at_outcome a with
            | OValue v => option_map (pair (g_value v)) (classifyDiffableRange v (at_collectTrace a) (at_readRanges a))
            | OCommitThenThrow _ => None
            end
  | Err _ => None
  end.

(** ** Behaviours the comments do not say *)
Definition jobs_insert (payload : value) : api := AInsert (js "sched/jobs") (VObj [(js "payload", payload)]).
(** The root names a component's table by its full name and writes it; what it wrote it may not then replace. *)
Example root_writes_component :
  let st := (demo_run (demo_cfg [] false DEFAULT_SHARD) (calls [jobs_insert (VBig 1); AReplace (id_text (demo_id 10002 3)) (VObj [])])).1 in
  List.map (λ l, (tableNumber (lw_id l), internalId (lw_id l))) (uw_entries (staged (txn st))) = [(10002, demo_random 0)].
Proof. vm_compute. reflexivity. Qed.
Example root_replaces_no_component : ∃ st',
  exec demo_db demo_cat no_d1 demo_random (demo_cfg [] false DEFAULT_SHARD) ChMain (SReplace (id_text (demo_id 10002 3)) (JObj []))
    (new_KState (demo_cfg [] false DEFAULT_SHARD) 1 demo_h true 0 0) = (st', Err ForbiddenOperationError).
Proof. eexists. vm_compute. reflexivity. Qed.

(** A document whose index key does not encode is staged before the error: a function that catches the error commits it unindexed. *)
Example unindexed_document :
  let r := demo_run (demo_cfg (js "sched") false DEFAULT_SHARD)
    (GDo ChMain (AInsert (js "jobs") (VObj [(js "payload", VObj [])])) (λ r, GRet (match r with Err _ => true | Ok _ => false end))) in
  r.2 = Ok true ∧ indexUpdates (txn r.1) = [] ∧
  List.map (λ l, match lw_value l with Some v => prop v (js "payload") | None => None end) (uw_entries (staged (txn r.1))) = [Some (VObj [])].
Proof. vm_compute. split_and!; reflexivity. Qed.

(** A replace stores the caller's spelling of the id: an id in capitals names the document, and becomes its [_id]. *)
Definition loud_id : jsstr := List.map toUpper (id_text (demo_id 10001 1)).
Example replace_stores_spelling :
  let r := demo_run (demo_cfg [] false DEFAULT_SHARD) (calls [AReplace loud_id (VObj [(js "room", VStr (js "a"))])]) in
  List.map (λ l, match lw_value l with Some v => prop v (js "_id") | None => None end) (uw_entries (staged (txn r.1))) = [Some (VStr loud_id)] ∧
  loud_id ≠ id_text (demo_id 10001 1).
Proof. split; [vm_compute; reflexivity|]. vm_compute. discriminate. Qed.

(** A privileged replace may take a document of another shard: the default shard stages a message of room b, which the snapshot has on [s1]. *)
Example privileged_fork :
  let r := demo_run (demo_cfg [] true DEFAULT_SHARD) (calls [edit 2 "a"]) in
  List.map lw_id (uw_entries (staged (txn r.1))) = [demo_id 10001 2] ∧ snapshot_doc demo_db 1 (demo_id 10001 2) (message 2 "b") ∧
  shard_of (VStr (js "b")) 2 = Ok (js "s1").
Proof. split; [vm_compute; reflexivity|]. split; [eexists; split; vm_compute; reflexivity|vm_compute; reflexivity]. Qed.

(** An array reversed in place keeps its brand: the query is classified as the live range, whose rows come the other way. *)
Definition reversed_jobs : guest channel outcome :=
  GDo ChMain (ACollect (query (js "jobs") (js "by_creation"))) (λ r,
    match r with
    | Ok v => GRet (OValue {| g_value := match g_value v with VArr l => VArr (rev l) | x => x end; g_brand := g_brand v |})
    | Err e => GThrow e
    end).
Example mutated_range :
  option_map fst (live_of (attempt demo_db demo_cat no_d1 demo_random live_cfg reversed_jobs (new_KState live_cfg 1 demo_h false 0 0)).2) =
    Some (VArr [demo_job 4; demo_job 3]).
Proof. vm_compute. reflexivity. Qed.
