(* ===== verification/QueryPlan.v ===== *)
(** What the query planner promises ([packages/query-engine/src/plan.ts]) and what index maintenance
    keeps ([index-manager.ts]): the byte interval of a plan holds exactly the keys of the tuples that
    satisfy it, and a document change leaves one entry per index for the document's new value. *)
From S2P Require Import Prelude Numbers Values Json IndexKeys Ranges IdCodec DocStore MvccStore Transactor QueryEngine.

(** ** Plans as predicates on tuples *)
Definition compare_op (q : QueryOperator) : ComparisonOp :=
  match q with QEq => OpEq | QGt => OpGt | QGte => OpGte | QLt => OpLt | QLte => OpLte end.

Definition above_lower (lower : option Bound) (x : value) : bool :=
  match lower with
  | None => true
  | Some b => op_holds (if bd_inclusive b then OpGte else OpGt) (compareValues x (bd_value b))
  end.

Definition below_upper (upper : option Bound) (x : value) : bool :=
  match upper with
  | None => true
  | Some b => op_holds (if bd_inclusive b then OpLte else OpLt) (compareValues x (bd_value b))
  end.

(** How a tuple's leading elements compare with a prefix. *)
Definition at_prefix (p vs : list value) : comparison := lexcmp compareValues (take (length p) vs) p.

Definition in_plan (p : Plan) (vs : list value) : bool :=
  op_holds OpEq (at_prefix (pl_prefix p) vs) &&
  match vs !! length (pl_prefix p) with
  | Some x => above_lower (pl_lower p) x && below_upper (pl_upper p) x
  | None => true
  end.

(** A tuple satisfies a constraint when the constrained field, wherever the index has it, does. *)
Definition satisfies (fields : list jsstr) (vs : list value) (r : RangeExpression) : Prop :=
  ∀ i, fields !! i = Some (re_field r) →
    ∃ x, vs !! i = Some x ∧ op_holds (compare_op (re_operator r)) (compareValues x (re_value r)) = true.

(** ** Encoded keys against encoded bounds *)
Section bounds.
Context (p vs : list value) (s k : bytes).
Context (Hp : forallb indexableb p = true) (Hv : forallb indexableb vs = true).
Context (Hl : (length p ≤ length vs)%nat) (Es : encodeIndexKey p = Ok s) (Ek : encodeIndexKey vs = Ok k).

Lemma key_vs_bound t : tail_ok t →
  ∃ k2, (∃ ws, encodeIndexKey ws = Ok k2) ∧
    compareKeyBytes k (s ++ t) = match at_prefix p vs with Eq => compareKeyBytes k2 t | c => c end.
Proof.
  intros Ht. destruct (encodeIndexKey_split vs k (length p) Ek) as (k1 & k2 & E1 & E2 & ->).
  exists k2. split; [eauto|]. apply encodeIndexKey_compare_tail; try done.
  - by apply forallb_take.
  - by eapply encodeIndexKey_tail.
  - rewrite length_take. lia.
Qed.

Lemma key_vs_start : compareKeyBytes k s = Lt ↔ at_prefix p vs = Lt.
Proof.
  destruct (key_vs_bound []) as (k2 & _ & E); [done|]. rewrite app_nil_r in E. rewrite E.
  destruct (at_prefix p vs); try done. by destruct k2.
Qed.

Lemma key_vs_end : compareKeyBytes k (s ++ [0xff]) = if bool_decide (at_prefix p vs = Gt) then Gt else Lt.
Proof.
  destruct (key_vs_bound [0xff]) as (k2 & (ws & E2) & ->); [by right|]. rewrite (tail_lt_ff _ _ E2).
  by destruct (at_prefix p vs).
Qed.

Lemma start_leb : cmp_leb (compareKeyBytes s k) = op_holds OpGte (at_prefix p vs).
Proof.
  rewrite (cmp_opp compareKeyBytes k s). pose proof key_vs_start as H.
  destruct (compareKeyBytes k s), (at_prefix p vs); try done; by destruct H; (discriminate || naive_solver).
Qed.

Lemma end_leb : cmp_leb (compareKeyBytes (s ++ [0xff]) k) = op_holds OpGt (at_prefix p vs).
Proof. rewrite (cmp_opp compareKeyBytes k (s ++ [0xff])), key_vs_end. by destruct (at_prefix p vs). Qed.

Lemma before_start : before_end k (Some s) = op_holds OpLt (at_prefix p vs).
Proof.
  apply eq_true_iff_eq. rewrite before_end_true, key_vs_start. by destruct (at_prefix p vs).
Qed.

Lemma before_end_ff : before_end k (Some (s ++ [0xff])) = op_holds OpLte (at_prefix p vs).
Proof.
  apply eq_true_iff_eq. rewrite before_end_true, key_vs_end. by destruct (at_prefix p vs).
Qed.
End bounds.

(** ** Shape of a plan *)
Lemma at_prefix_snoc p v vs x : vs !! length p = Some x →
  at_prefix (p ++ [v]) vs = match at_prefix p vs with Eq => compareValues x v | c => c end.
Proof.
  intros Hx. pose proof (lookup_lt_Some _ _ _ Hx). unfold at_prefix. rewrite length_app. simpl.
  rewrite Nat.add_1_r, (take_S_r _ _ x Hx), lexcmp_app_len by (rewrite length_take; lia).
  destruct (lexcmp _ _ _); try done. simpl. by destruct (compareValues x v).
Qed.

Definition bound_values (p : Plan) : list value :=
  option_list (bd_value <$> pl_lower p) ++ option_list (bd_value <$> pl_upper p).

Lemma add_bounds_values cs lu b :
  b ∈ bd_value <$> option_list (fold_left add_bound cs lu).1 ++ option_list (fold_left add_bound cs lu).2 →
  b ∈ bd_value <$> option_list lu.1 ++ option_list lu.2 ∨ b ∈ re_value <$> cs.
Proof.
  revert lu. induction cs as [|c cs IH]; intros lu Hb; [by left|]. simpl in Hb.
  apply IH in Hb as [Hb|Hb]; [|right; csimpl; by right].
  assert (Hc : re_value c ∈ re_value <$> c :: cs) by (csimpl; by left).
  revert Hb. rewrite !fmap_app, !elem_of_app. unfold add_bound.
  destruct (re_operator c), lu as [lo up]; csimpl; intuition (simpl in *; rewrite ?list_elem_of_singleton in *; subst; auto).
Qed.

Record plan_wf (fields : list jsstr) (range : list RangeExpression) (pre : list value) (p : Plan) : Prop := {
  pw_prefix : ∀ v, v ∈ pl_prefix p → v ∈ pre ∨ v ∈ re_value <$> range;
  pw_lower : ∀ b, pl_lower p = Some b → bd_value b ∈ re_value <$> range;
  pw_upper : ∀ b, pl_upper p = Some b → bd_value b ∈ re_value <$> range;
  pw_len : (length pre ≤ length (pl_prefix p) ≤ length pre + length fields)%nat;
  pw_strict : is_Some (pl_lower p) ∨ is_Some (pl_upper p) → (length (pl_prefix p) < length pre + length fields)%nat }.

Lemma plan_loop_wf fields range pre : plan_wf fields range pre (plan_loop fields range pre).
Proof.
  revert pre. induction fields as [|f fields IH]; intros pre; simpl.
  - split; simpl; try done; [auto|lia|by intros [[? ?]|[? ?]]].
  - set (cs := List.filter (λ r, bool_decide (re_field r = f)) range).
    assert (Hcs : ∀ c, c ∈ cs → re_value c ∈ re_value <$> range).
    { intros c Hc. apply list_elem_of_fmap_2. apply list_elem_of_In in Hc. apply filter_In in Hc as [Hc _].
      by apply list_elem_of_In. }
    destruct (List.find is_eq cs) as [e|] eqn:Ee.
    + apply List.find_some in Ee as [Ee%list_elem_of_In _]. destruct (IH (pre ++ [re_value e])) as [H1 H2 H3 H4 H5].
      rewrite length_app in *. simpl in *. split; try done; [|simpl; lia|intros H; specialize (H5 H); simpl; lia].
      intros v [[Hv|Hv%list_elem_of_singleton]%elem_of_app|Hv]%H1; subst; auto.
    + split; simpl.
      * auto.
      * intros b Hb. destruct (add_bounds_values cs (None, None) (bd_value b)) as [Hx|Hx].
        -- rewrite Hb. csimpl. by left.
        -- by apply elem_of_nil in Hx.
        -- apply list_elem_of_fmap in Hx as (c & -> & Hc). by apply Hcs.
      * intros b Hb. destruct (add_bounds_values cs (None, None) (bd_value b)) as [Hx|Hx].
        -- rewrite Hb, fmap_app. apply elem_of_app. right. csimpl. by left.
        -- by apply elem_of_nil in Hx.
        -- apply list_elem_of_fmap in Hx as (c & -> & Hc). by apply Hcs.
      * lia.
      * lia.
Qed.

Lemma plan_indexable fields range : Forall (λ r, indexableb (re_value r) = true) range →
  let p := plan_loop fields range [] in
  forallb indexableb (pl_prefix p) = true ∧
  (∀ b, pl_lower p = Some b → indexableb (bd_value b) = true) ∧
  (∀ b, pl_upper p = Some b → indexableb (bd_value b) = true).
Proof.
  intros Hr p. destruct (plan_loop_wf fields range []) as [H1 H2 H3 _ _]. rewrite Forall_forall in Hr.
  assert (Hin : ∀ v, v ∈ re_value <$> range → indexableb v = true)
    by (intros v (r & -> & Hin)%list_elem_of_fmap; auto).
  split_and!; [|eauto..]. apply forallb_Forall, Forall_forall. intros v [Hv%elem_of_nil|Hv]%H1; [done|auto].
Qed.

Lemma forallb_snoc {A} (f : A → bool) l x : forallb f l = true → f x = true → forallb f (l ++ [x]) = true.
Proof. intros H1 H2. rewrite forallb_app. simpl. by rewrite H1, H2. Qed.

Section interval.
Context (fields : list jsstr) (range : list RangeExpression) (vs : list value) (k : bytes).
Context (Hr : Forall (λ r, indexableb (re_value r) = true) range) (Hv : forallb indexableb vs = true).
Context (Hl : (length fields ≤ length vs)%nat) (Ek : encodeIndexKey vs = Ok k).
Let p := plan_loop fields range [].

Lemma bound_at b : pl_lower p = Some b ∨ pl_upper p = Some b →
  ∃ x s, vs !! length (pl_prefix p) = Some x ∧ encodeIndexKey (pl_prefix p ++ [bd_value b]) = Ok s ∧
    forallb indexableb (pl_prefix p ++ [bd_value b]) = true ∧ (length (pl_prefix p ++ [bd_value b]) ≤ length vs)%nat ∧
    indexKeyRangeEnd (pl_prefix p ++ [bd_value b]) = Ok (Some (s ++ [0xff])) ∧
    at_prefix (pl_prefix p ++ [bd_value b]) vs =
      match at_prefix (pl_prefix p) vs with Eq => compareValues x (bd_value b) | c => c end.
Proof.
  intros Hb. destruct (plan_indexable fields range Hr) as (I1 & I2 & I3). fold p in I1, I2, I3.
  assert (Hi : forallb indexableb (pl_prefix p ++ [bd_value b]) = true) by (apply forallb_snoc; [done|destruct Hb; auto]).
  assert (Hlen : (length (pl_prefix p) < length fields)%nat).
  { apply (pw_strict _ _ _ _ (plan_loop_wf fields range [])). fold p. destruct Hb as [-> | ->]; eauto. }
  destruct (lookup_lt_is_Some_2 vs (length (pl_prefix p))) as [x Hx]; [lia|].
  destruct (encodeIndexKey_total _ Hi) as [s Hs]. exists x, s. split_and!; try done.
  - rewrite length_app. simpl. lia.
  - unfold indexKeyRangeEnd. destruct (pl_prefix p ++ [bd_value b]) eqn:E; [by apply app_eq_nil in E as [_ [=]]|].
    by rewrite Hs.
  - by apply at_prefix_snoc.
Qed.

Lemma start_of_plan iv : buildIndexInterval fields range = Ok iv →
  cmp_leb (compareKeyBytes (iv_start iv) k) =
    match pl_lower p with
    | None => op_holds OpGte (at_prefix (pl_prefix p) vs)
    | Some b => op_holds (if bd_inclusive b then OpGte else OpGt) (at_prefix (pl_prefix p ++ [bd_value b]) vs)
    end.
Proof.
  unfold buildIndexInterval. fold p. destruct (plan_indexable fields range Hr) as (I1 & _). fold p in I1.
  pose proof (pw_len _ _ _ _ (plan_loop_wf fields range [])) as Hlen. fold p in Hlen. simpl in Hlen.
  destruct (pl_lower p) as [b|] eqn:Eb.
  - destruct (bound_at b) as (x & s & Hx & Hs & Hi & Hln & He & _); [by left|]. rewrite Hs, He. cbn [res_bind].
    destruct (bd_inclusive b); cbn [res_bind default from_option];
      (destruct (match pl_upper p with Some _ => _ | None => _ end) as [e|]; [|done]); intros [= <-]; simpl.
    + by apply start_leb.
    + by apply (end_leb (pl_prefix p ++ [bd_value b])).
  - destruct (encodeIndexKey_total _ I1) as [s Hs]. unfold indexKeyRangeStart. rewrite Hs. cbn [res_bind].
    destruct (match pl_upper p with Some _ => _ | None => _ end) as [e|]; [|done]. intros [= <-]. simpl.
    apply start_leb; try done. lia.
Qed.

Lemma end_of_plan iv : buildIndexInterval fields range = Ok iv →
  before_end k (iv_end iv) =
    match pl_upper p with
    | None => match pl_prefix p with [] => true | _ => op_holds OpLte (at_prefix (pl_prefix p) vs) end
    | Some b => op_holds (if bd_inclusive b then OpLte else OpLt) (at_prefix (pl_prefix p ++ [bd_value b]) vs)
    end.
Proof.
  unfold buildIndexInterval. fold p. destruct (plan_indexable fields range Hr) as (I1 & _). fold p in I1.
  pose proof (pw_len _ _ _ _ (plan_loop_wf fields range [])) as Hlen. fold p in Hlen. simpl in Hlen.
  destruct (match pl_lower p with Some _ => _ | None => _ end) as [st|]; [|done]. cbn [res_bind].
  destruct (pl_upper p) as [b|] eqn:Eb.
  - destruct (bound_at b) as (x & s & Hx & Hs & Hi & Hln & He & _); [by right|]. rewrite Hs, He. cbn [res_bind].
    destruct (bd_inclusive b); cbn [res_bind]; intros [= <-]; cbn [iv_end].
    + by apply (before_end_ff (pl_prefix p ++ [bd_value b])).
    + by apply before_start.
  - destruct (encodeIndexKey_total _ I1) as [s Hs]. unfold indexKeyRangeEnd.
    destruct (pl_prefix p) as [|v0 p0] eqn:Ep; [by intros [= <-]|]. rewrite Hs. cbn [res_bind]. intros [= <-].
    cbn [iv_end]. apply before_end_ff; try done. lia.
Qed.

Lemma interval_in_plan iv : buildIndexInterval fields range = Ok iv →
  keyInInterval k iv = in_plan p vs.
Proof.
  intros Hb. unfold keyInInterval, in_plan. rewrite (start_of_plan iv Hb), (end_of_plan iv Hb).
  assert (Hnil : pl_prefix p = [] → at_prefix (pl_prefix p) vs = Eq) by (by intros ->).
  destruct (pl_lower p) as [lo|] eqn:El, (pl_upper p) as [up|] eqn:Eu.
  - destruct (bound_at lo) as (x & _ & Hx & _ & _ & _ & _ & ->); [by left|].
    destruct (bound_at up) as (x' & _ & Hx' & _ & _ & _ & _ & ->); [by right|].
    rewrite Hx' in Hx. injection Hx as ->. rewrite Hx'.
    unfold above_lower, below_upper.
    destruct (at_prefix (pl_prefix p) vs); [done|..]; by destruct (bd_inclusive lo), (bd_inclusive up).
  - destruct (bound_at lo) as (x & _ & -> & _ & _ & _ & _ & ->); [by left|]. simpl. rewrite andb_true_r.
    destruct (pl_prefix p); [rewrite Hnil by done; simpl; by rewrite andb_true_r|].
    destruct (at_prefix _ vs), (bd_inclusive lo); simpl; rewrite ?andb_true_r; done.
  - destruct (bound_at up) as (x & _ & -> & _ & _ & _ & _ & ->); [by right|]. simpl.
    destruct (at_prefix _ vs), (bd_inclusive up); done.
  - destruct (pl_prefix p) as [|v0 p0]; [rewrite Hnil by done; by destruct (vs !! _)|].
    destruct (at_prefix _ vs); simpl; [|done..]. by destruct (vs !! Datatypes.S (length p0)).
Qed.
End interval.

(** ** No result is lost *)
Lemma add_bound_above cs lu x :
  above_lower lu.1 x = true → below_upper lu.2 x = true →
  (∀ c, c ∈ cs → op_holds (compare_op (re_operator c)) (compareValues x (re_value c)) = true) →
  above_lower (fold_left add_bound cs lu).1 x = true ∧ below_upper (fold_left add_bound cs lu).2 x = true.
Proof.
  revert lu. induction cs as [|c cs IH]; intros lu H1 H2 Hc; [done|]. simpl. apply IH.
  - specialize (Hc c ltac:(by left)). unfold add_bound. by destruct (re_operator c).
  - specialize (Hc c ltac:(by left)). unfold add_bound. by destruct (re_operator c).
  - intros c' Hc'. apply Hc. by right.
Qed.

Lemma satisfies_plan fields range vs : (∀ r, r ∈ range → satisfies fields vs r) →
  in_plan (plan_loop fields range []) vs = true.
Proof.
  intros Hsat. assert (Hgen : ∀ fs done pre, fields = done ++ fs → length done = length pre →
    at_prefix pre vs = Eq → in_plan (plan_loop fs range pre) vs = true); [|by apply (Hgen fields [] [])].
  induction fs as [|f fs IH]; intros done pre Hf Hlen Hat; simpl.
  - unfold in_plan. simpl. rewrite Hat. simpl. by destruct (vs !! length pre).
  - assert (Hat_f : fields !! length pre = Some f) by (rewrite Hf, <-Hlen; apply list_lookup_middle; done).
    set (cs := List.filter (λ r, bool_decide (re_field r = f)) range).
    assert (Hcs : ∀ c, c ∈ cs → ∃ x, vs !! length pre = Some x ∧
      op_holds (compare_op (re_operator c)) (compareValues x (re_value c)) = true).
    { intros c Hc. apply list_elem_of_In in Hc. apply filter_In in Hc as [Hc%list_elem_of_In Hcf%bool_decide_eq_true].
      apply (Hsat c Hc). by rewrite Hcf. }
    destruct (List.find is_eq cs) as [e|] eqn:Ee.
    + apply List.find_some in Ee as [Ee%list_elem_of_In Hop]. destruct (Hcs e Ee) as (x & Hx & Hh).
      apply (IH (done ++ [f])); [by rewrite Hf, <-(assoc_L (++))|rewrite !length_app; simpl; lia|].
      rewrite (at_prefix_snoc _ _ _ _ Hx), Hat. unfold is_eq in Hop. destruct (re_operator e); try done.
      simpl in Hh. by destruct (compareValues x (re_value e)).
    + unfold in_plan. simpl. rewrite Hat. simpl. destruct (vs !! length pre) as [x|] eqn:Ex; [|done].
      apply andb_true_iff, add_bound_above; try done. intros c Hc. destruct (Hcs c Hc) as (x' & [= ->] & Hh). done.
Qed.

Lemma buildIndexInterval_total fields range : Forall (λ r, indexableb (re_value r) = true) range →
  ∃ iv, buildIndexInterval fields range = Ok iv.
Proof.
  intros Hr. destruct (plan_indexable fields range Hr) as (I1 & I2 & I3). unfold buildIndexInterval.
  set (p := plan_loop fields range []) in *.
  assert (Hend : ∀ l, forallb indexableb l = true → ∃ e, indexKeyRangeEnd l = Ok e).
  { intros l Hl. unfold indexKeyRangeEnd. destruct l; [by eexists|].
    destruct (encodeIndexKey_total _ Hl) as [k ->]. by eexists. }
  assert (Hlo : ∃ st, match pl_lower p with
    | Some b => if bd_inclusive b then encodeIndexKey (pl_prefix p ++ [bd_value b])
                else let! e := indexKeyRangeEnd (pl_prefix p ++ [bd_value b]) in Ok (default [] e)
    | None => indexKeyRangeStart (pl_prefix p) end = Ok st).
  { destruct (pl_lower p) as [b|]; [|by apply encodeIndexKey_total].
    assert (Hb : forallb indexableb (pl_prefix p ++ [bd_value b]) = true) by (apply forallb_snoc; auto).
    destruct (bd_inclusive b); [by apply encodeIndexKey_total|]. destruct (Hend _ Hb) as [e ->]. by eexists. }
  destruct Hlo as [st ->]. cbn [res_bind].
  destruct (pl_upper p) as [b|].
  - assert (Hb : forallb indexableb (pl_prefix p ++ [bd_value b]) = true) by (apply forallb_snoc; auto).
    destruct (bd_inclusive b); [destruct (Hend _ Hb) as [e ->]; by eexists|].
    destruct (encodeIndexKey_total _ Hb) as [k ->]. by eexists.
  - destruct (Hend _ I1) as [e ->]. by eexists.
Qed.

(** C32: planning is exact. For scalar constraint values the planner always produces an interval, and the
    encoded key of a tuple covering the index fields lies in it exactly when the tuple equals the
    planned equality prefix and its next element meets the planned lower and upper bounds; a tuple that
    meets every constraint of the query is never outside. *)
Theorem query_interval_exact fields range vs k :
  Forall (λ r, indexableb (re_value r) = true) range → forallb indexableb vs = true →
  (length fields ≤ length vs)%nat → encodeIndexKey vs = Ok k →
  ∃ iv, buildIndexInterval fields range = Ok iv ∧
    keyInInterval k iv = in_plan (plan_loop fields range []) vs ∧
    ((∀ r, r ∈ range → satisfies fields vs r) → keyInInterval k iv = true).
Proof.
  intros Hr Hv Hl Ek. destruct (buildIndexInterval_total fields range Hr) as [iv Hiv]. exists iv.
  pose proof (interval_in_plan fields range vs k Hr Hv Hl Ek iv Hiv) as E. split_and!; [done..|].
  intros Hs. rewrite E. by apply satisfies_plan.
Qed.

Lemma query_interval_exact_witness :
  let fields := [js "team"; js "score"] in
  let range := [{| re_field := js "score"; re_operator := QGt; re_value := VBig 3 |};
                {| re_field := js "team"; re_operator := QEq; re_value := VStr (js "a") |}] in
  ∃ iv k k', buildIndexInterval fields range = Ok iv ∧
    encodeIndexKey [VStr (js "a"); VBig 4; VNull] = Ok k ∧ keyInInterval k iv = true ∧
    encodeIndexKey [VStr (js "a"); VBig 3; VNull] = Ok k' ∧ keyInInterval k' iv = false.
Proof.
  cbv zeta.
  destruct (query_interval_exact [js "team"; js "score"]
    [{| re_field := js "score"; re_operator := QGt; re_value := VBig 3 |};
     {| re_field := js "team"; re_operator := QEq; re_value := VStr (js "a") |}]
    [VStr (js "a"); VBig 4; VNull]
    (match encodeIndexKey [VStr (js "a"); VBig 4; VNull] with Ok k => k | Err _ => [] end)) as (iv & H1 & H2 & _).
  - by repeat constructor.
  - reflexivity.
  - simpl. lia.
  - reflexivity.
  - exists iv. eexists _, _. split; [exact H1|]. split; [reflexivity|]. split; [etransitivity; [exact H2|reflexivity]|].
    split; [reflexivity|]. vm_compute in H1. injection H1 as <-. reflexivity.
Defined.

(** ** Filters and indexes *)
Lemma in_plan_single f rest (v x : value) ws op : f ∉ rest →
  in_plan (plan_loop (f :: rest) [{| re_field := f; re_operator := op; re_value := v |}] []) (x :: ws) =
    op_holds (compare_op op) (compareValues x v).
Proof.
  intros Hf. simpl. rewrite bool_decide_true by done.
  assert (Hrest : ∀ pre, plan_loop rest [{| re_field := f; re_operator := op; re_value := v |}] pre =
    {| pl_prefix := pre; pl_lower := None; pl_upper := None |}).
  { destruct rest as [|g rest]; [done|]. intros pre. simpl. apply not_elem_of_cons in Hf as [Hf _].
    by rewrite bool_decide_false. }
  assert (Hnone : ∀ b c, b && match c : option value with Some x => true && true | None => true end = b).
  { intros b c. by destruct b, c. }
  destruct op; cbn [List.find is_eq re_operator]; [rewrite Hrest|..]; unfold in_plan; simpl;
    rewrite ?Hnone, ?andb_true_r; try done.
  unfold at_prefix. simpl. by destruct (compareValues x v).
Qed.

(** Filters agree with indexes. On a document that has the field, with scalar index values, a comparison used
    as an index range admits the document's key exactly when the same comparison used as a filter
    admits the document; on a document without the field the filter admits nothing, while the index
    ranks the field as null. *)
Theorem filter_agrees_with_index doc f rest op v k iv :
  f ∉ rest → indexableb v = true → forallb indexableb (index_tuple doc (f :: rest)) = true →
  extractIndexKey doc (f :: rest) = Ok k →
  buildIndexInterval (f :: rest) [{| re_field := f; re_operator := op; re_value := v |}] = Ok iv →
  match evaluateFieldPath doc f with
  | Some _ => keyInInterval k iv = evaluateFilter doc (FCompare (compare_op op) f v)
  | None => evaluateFilter doc (FCompare (compare_op op) f v) = false ∧
            keyInInterval k iv = op_holds (compare_op op) (compareValues VNull v)
  end.
Proof.
  intros Hf Hv Ht Hk Hiv.
  assert (E : keyInInterval k iv = in_plan
    (plan_loop (f :: rest) [{| re_field := f; re_operator := op; re_value := v |}] []) (index_tuple doc (f :: rest))).
  { apply interval_in_plan; try done; [by repeat constructor|].
    unfold index_tuple. rewrite length_app, length_map. lia. }
  rewrite E. unfold index_tuple. cbn [List.map app]. rewrite in_plan_single by done. simpl.
  by destruct (evaluateFieldPath doc f).
Qed.

Lemma filter_agrees_with_index_witness :
  let doc := VObj [(js "n", VBig 5)] in
  ∃ k iv, extractIndexKey doc [js "n"] = Ok k ∧
    buildIndexInterval [js "n"] [{| re_field := js "n"; re_operator := QLte; re_value := VBig 5 |}] = Ok iv ∧
    keyInInterval k iv = evaluateFilter doc (FCompare OpLte (js "n") (VBig 5)).
Proof.
  cbv zeta. eexists _, _. split; [reflexivity|]. split; [reflexivity|].
  refine (filter_agrees_with_index (VObj [(js "n", VBig 5)]) (js "n") [] QLte (VBig 5) _ _ _ _ _ _ _);
    try reflexivity. apply not_elem_of_nil.
Defined.

(** ** Index maintenance *)

(** The live pointers of the index tables. *)
Definition pointers : Type := jsstr * bytes → option InternalDocumentId.

Definition apply_update (m : pointers) (u : DatabaseIndexUpdate) : pointers :=
  λ key, if decide (key = (iu_indexId u, iu_key u))
         then match iu_value u with Deleted => None | NonClustered id => Some id end else m key.

(** The document [id] has exactly the entry of [doc] in the index. *)
Definition indexed_as (m : pointers) (idx : IndexSpec) (id : InternalDocumentId) (doc : option value) : Prop :=
  ∀ k, m (is_indexId idx, k) = Some id ↔ opt_key doc (is_fields idx) = Ok (Some k).

Lemma apply_updates_other us m key : (∀ u, u ∈ us → key ≠ (iu_indexId u, iu_key u)) →
  fold_left apply_update us m key = m key.
Proof.
  revert m. induction us as [|u us IH]; intros m H; [done|]. simpl. rewrite IH by (intros u' Hu'; apply H; by right).
  unfold apply_update. apply decide_False. apply H. by left.
Qed.

Lemma index_updates_ids idx old new id us u : index_updates_for idx old new id = Ok us → u ∈ us →
  iu_indexId u = is_indexId idx.
Proof.
  unfold index_updates_for. destruct (opt_key old _) as [o|]; [|done]. destruct (opt_key new _) as [n|]; [|done].
  cbn [res_bind]. intros [= <-] Hu. apply elem_of_app in Hu as [Hu|Hu].
  - destruct o as [o|], n as [n|]; [destruct (compareKeyBytes o n)|..];
      rewrite ?list_elem_of_singleton, ?elem_of_nil in Hu; try done; by subst.
  - destruct n; rewrite ?list_elem_of_singleton, ?elem_of_nil in Hu; [by subst|done].
Qed.

(** One index: the new entry is there, the old one is gone, nothing else moved. *)
Lemma index_updates_effect idx old new id us m : index_updates_for idx old new id = Ok us →
  indexed_as m idx id old →
  ∃ nk, opt_key new (is_fields idx) = Ok nk ∧ ∀ k,
    fold_left apply_update us m (is_indexId idx, k) =
      if decide (nk = Some k) then Some id
      else if decide (m (is_indexId idx, k) = Some id) then None else m (is_indexId idx, k).
Proof.
  unfold index_updates_for, indexed_as. destruct (opt_key old _) as [o|]; [|done].
  destruct (opt_key new _) as [n|]; [|done]. cbn [res_bind]. intros [= <-] Hm. exists n. split; [done|]. intros k.
  assert (Hk : m (is_indexId idx, k) = Some id ↔ o = Some k) by (rewrite Hm; split; congruence).
  clear Hm. unfold apply_update.
  destruct o as [o|], n as [n|]; [destruct (compareKeyBytes o n) eqn:Ec|..]; simpl;
    repeat case_decide; try (by destruct (m (is_indexId idx, k))); try naive_solver.
  apply cmp_eq in Ec; [naive_solver|apply _].
Qed.

Lemma traverse_cons {A B} (f : A → res B) x l ys : traverse f (x :: l) = Ok ys →
  ∃ y ys', f x = Ok y ∧ traverse f l = Ok ys' ∧ ys = y :: ys'.
Proof.
  simpl. destruct (f x) as [y|]; [|done]. cbn [res_bind]. destruct (traverse f l) as [ys'|]; [|done]. cbn [res_bind].
  intros [= <-]. eauto.
Qed.

Lemma updates_ids idxs old new id uss u : traverse (λ idx, index_updates_for idx old new id) idxs = Ok uss →
  u ∈ concat uss → iu_indexId u ∈ is_indexId <$> idxs.
Proof.
  revert uss. induction idxs as [|idx idxs IH]; intros uss Ht Hu; [by injection Ht as <-; apply elem_of_nil in Hu|].
  apply traverse_cons in Ht as (us & uss' & E1 & E2 & ->). simpl in Hu. csimpl.
  apply elem_of_app in Hu as [Hu|Hu]; apply elem_of_cons; [left; by eapply index_updates_ids|right; by eapply IH].
Qed.

Lemma updates_effect idxs old new id uss m : NoDup (is_indexId <$> idxs) →
  traverse (λ idx, index_updates_for idx old new id) idxs = Ok uss →
  (∀ idx, idx ∈ idxs → indexed_as m idx id old) →
  ∀ idx, idx ∈ idxs → ∃ nk, opt_key new (is_fields idx) = Ok nk ∧ ∀ k,
    fold_left apply_update (concat uss) m (is_indexId idx, k) =
      if decide (nk = Some k) then Some id
      else if decide (m (is_indexId idx, k) = Some id) then None else m (is_indexId idx, k).
Proof.
  revert uss m. induction idxs as [|i0 idxs IH]; intros uss m Hnd Ht Hold idx Hin; [by apply elem_of_nil in Hin|].
  apply traverse_cons in Ht as (us & uss' & E1 & E2 & ->). csimpl in Hnd. apply NoDup_cons in Hnd as [Hn Hnd].
  cbn [concat]. rewrite fold_left_app. apply elem_of_cons in Hin as [->|Hin].
  - destruct (index_updates_effect i0 old new id us m E1) as (nk & Hnk & H); [apply Hold; by left|].
    exists nk. split; [done|]. intros k. rewrite <-H. apply apply_updates_other. intros u Hu [=E _].
    apply Hn. rewrite E. by eapply updates_ids.
  - assert (Hsame : ∀ i k, i ∈ idxs → fold_left apply_update us m (is_indexId i, k) = m (is_indexId i, k)).
    { intros i k Hi. apply apply_updates_other. intros u Hu [=E _]. apply Hn.
      rewrite <-(index_updates_ids _ _ _ _ _ _ E1 Hu), <-E. by apply list_elem_of_fmap_2. }
    destruct (IH uss' (fold_left apply_update us m) Hnd E2) with (idx := idx) as (nk & Hnk & H); [|done|].
    + intros i Hi k. rewrite Hsame by done. apply Hold. by right.
    + exists nk. split; [done|]. intros k. rewrite H, Hsame by done. done.
Qed.

(** Index maintenance is correct. If every index holds exactly the old document's entry for a document, applying
    the computed updates leaves every index holding exactly the new document's entry for it (none for a
    delete), and no other document's entry changes as long as the new keys were free. *)
Theorem index_maintenance idxs old new id us m :
  NoDup (is_indexId <$> idxs) → computeIndexUpdates idxs old new id = Ok us →
  (∀ idx, idx ∈ idxs → indexed_as m idx id old) →
  (∀ idx k id', idx ∈ idxs → opt_key new (is_fields idx) = Ok (Some k) → m (is_indexId idx, k) = Some id' → id' = id) →
  (∀ idx, idx ∈ idxs → indexed_as (fold_left apply_update us m) idx id new) ∧
  (∀ key id', id' ≠ id → fold_left apply_update us m key = Some id' ↔ m key = Some id').
Proof.
  intros Hnd. unfold computeIndexUpdates.
  destruct (traverse _ idxs) as [uss|] eqn:Et; [|done]. cbn [res_bind]. intros [= <-] Hold Hfree.
  pose proof (updates_effect idxs old new id uss m Hnd Et Hold) as Heff. split.
  - intros idx Hin k. destruct (Heff idx Hin) as (nk & Hnk & H). rewrite H, Hnk.
    case_decide as Hd; [split; [by rewrite Hd|done]|]. case_decide; split; try congruence; intros [= ->]; done.
  - intros [i k] id' Hne. destruct (decide (i ∈ is_indexId <$> idxs)) as [(idx & -> & Hin)%list_elem_of_fmap|Hni].
    + destruct (Heff idx Hin) as (nk & Hnk & H). rewrite H. case_decide as Hd.
      * split; [congruence|]. intros Hm. destruct Hne. apply (Hfree idx k id' Hin); [by rewrite Hnk, Hd|done].
      * case_decide as Hd'; [|done]. split; congruence.
    + rewrite apply_updates_other; [done|]. intros u Hu [=E _]. apply Hni. rewrite E. by eapply updates_ids.
Qed.

Definition by_n : IndexSpec :=
  {| is_table := js "t"; is_tableNumber := 10001; is_index := js "by_n"; is_fields := [js "n"];
     is_indexId := js "10001/by_n" |}.

Lemma index_maintenance_witness :
  ∃ us, computeIndexUpdates [by_n] None (Some (VObj [(js "n", VBig 5)])) {| tableNumber := 10001; internalId := [1] |} = Ok us ∧
    indexed_as (fold_left apply_update us (λ _, None)) by_n {| tableNumber := 10001; internalId := [1] |}
      (Some (VObj [(js "n", VBig 5)])).
Proof.
  destruct (computeIndexUpdates _ _ _ _) as [us|] eqn:E; [|vm_compute in E; discriminate].
  exists us. split; [done|].
  apply (index_maintenance [by_n] None _ _ us (λ _, None)); try done.
  - apply NoDup_singleton.
  - by left.
Defined.
