(* ===== verification/Pagination.v ===== *)
(** What the query runtime promises ([packages/query-engine/src/query-runtime.ts]): [collect] returns
    the filtered rows of its interval, its read set determines its result, walking [paginate]'s cursors
    enumerates the same rows page by page, and the read-your-own-writes overlay merges staged writes. *)
From S2P Require Import Prelude Numbers Values Json IndexKeys Ranges IdCodec DocStore MvccStore Transactor QueryEngine.

(** ** What a store promises about scans *)
Definition row_before (o : Order) (a b : row) : Prop := order_cmp o compareKeyBytes a.1 b.1 = Lt.

Class ScanLaws (S : Type) `{!MvccStore S} := {
  sl_total (s : S) ix t iv o : ms_ok s → ∃ rows, ms_scan s ix t iv o None = Ok rows;
  sl_sorted (s : S) ix t iv o rows : ms_ok s → ms_scan s ix t iv o None = Ok rows →
    StronglySorted (row_before o) rows ∧ Forall (λ r, in_interval r.1 iv = true ∧ Forall is_byte r.1) rows;
  sl_sub (s : S) ix t iv iv' o rows : ms_ok s → ms_scan s ix t iv o None = Ok rows →
    (∀ k, Forall is_byte k → in_interval k iv' = true → in_interval k iv = true) →
    ms_scan s ix t iv' o None = Ok (List.filter (λ r, in_interval r.1 iv') rows) }.

#[global] Instance order_cmp_order {A} (cmp : A → A → comparison) `{!CmpOrder cmp} o : CmpOrder (order_cmp o cmp).
Proof.
  destruct o; unfold order_cmp; [done|]. split.
  - intros a. apply (cmp_refl cmp).
  - intros a b. apply (cmp_opp cmp).
  - intros a b c H. rewrite (cmp_opp cmp a c), (cmp_opp cmp b c). f_equal. apply (cmp_subst cmp).
    rewrite (cmp_opp cmp). by rewrite H.
  - intros a b c H1 H2. by eapply (cmp_lt_trans cmp).
Qed.

#[global] Instance cmp_on_order {A B} (f : A → B) (cmp : B → B → comparison) `{!CmpOrder cmp} :
  CmpOrder (λ a b, cmp (f a) (f b)).
Proof.
  split; intros.
  - apply (cmp_refl cmp).
  - apply (cmp_opp cmp).
  - by apply (cmp_subst cmp).
  - by eapply (cmp_lt_trans cmp).
Qed.

Lemma strictly_sorted {A} (cmp : A → A → comparison) l :
  StronglySorted (cmp_le cmp) l → NoDup l → (∀ x y, x ∈ l → y ∈ l → cmp x y = Eq → x = y) →
  StronglySorted (λ a b, cmp a b = Lt) l.
Proof.
  induction 1 as [|x l Hs IH Hx]; intros Hn He; [constructor|]. apply NoDup_cons in Hn as [Hni Hn].
  constructor; [apply IH; [done|]; intros a b Ha Hb; apply He; by right|].
  rewrite Forall_forall in Hx |- *. intros y Hy. specialize (Hx y Hy). unfold cmp_le in Hx.
  destruct (cmp x y) eqn:E; [|done..]. rewrite (He x y) in Hni; [done|by left|by right|done].
Qed.

(** ** The SQLite store keeps them *)
Section sqlite_scan.
Context (d : db) (Hd : db_ok d) (ix : jsstr) (t : Z) (o : Order).

Definition resolved (r : idxRow) : option row := match resolve_row d t r with Ok x => x | Err _ => None end.

Lemma get_total id rt : ∃ x, get d id rt = Ok x.
Proof.
  unfold get. destruct (latest_row _) as [r|] eqn:E; [|by eexists]. apply latest_row_Some in E as [Hin _].
  destruct (d_value r) as [txt|] eqn:Ev; [|by eexists].
  apply elem_of_revisions in Hin as (Hin & _). pose proof (ok_rows d Hd) as Hr. rewrite Forall_forall in Hr.
  destruct (Hr r Hin) as [_ Hv]. rewrite Ev in Hv. destruct Hv as [v ->]. by eexists.
Qed.

Lemma resolve_total r : r ∈ indexes d → resolve_row d t r = Ok (resolved r).
Proof.
  intros Hin. unfold resolved. enough (∃ x, resolve_row d t r = Ok x) as [x ->] by done.
  unfold resolve_row. destruct (i_deleted r) eqn:Ed; [by eexists|].
  pose proof (ok_ptr d Hd) as Hp. rewrite Forall_forall in Hp. destruct (Hp r Hin Ed) as (n & iid & Hn & -> & ->).
  rewrite decode_encodeStorageTableId by done. cbn [res_bind].
  destruct (get_total {| tableNumber := n; internalId := iid |} (Some t)) as [x ->]. by eexists.
Qed.

Lemma resolved_key r y : resolved r = Some y → y.1 = i_key r.
Proof.
  unfold resolved, resolve_row. destruct (i_deleted r), (i_internal r), (i_table r); try done.
  destruct (decodeStorageTableId _); [|done]. cbn [res_bind]. destruct (get d _ _) as [[doc|]|]; [|done..].
  cbn [res_bind]. by intros [= <-].
Qed.

Lemma scan_loop_none y rows : (∀ r, r ∈ rows → r ∈ indexes d) → scan_loop d t None y rows = Ok (omap resolved rows).
Proof.
  revert y. induction rows as [|r rows IH]; intros y Hr; [done|]. simpl.
  rewrite resolve_total by (apply Hr; by left). cbn [res_bind].
  assert (Hr' : ∀ r, r ∈ rows → r ∈ indexes d) by (intros r' Hr'; apply Hr; by right).
  destruct (resolved r); [by rewrite IH|by apply IH].
Qed.

Lemma scan_rows_sorted iv : StronglySorted (λ a b, order_cmp o compareKeyBytes (i_key a) (i_key b) = Lt)
  (scan_rows d ix t iv o).
Proof.
  assert (Hok := ok_idx d Hd).
  apply (strictly_sorted (λ a b, order_cmp o compareKeyBytes (i_key a) (i_key b))).
  - unfold scan_rows. apply sort_by_sorted. apply (cmp_on_order i_key (order_cmp o compareKeyBytes)).
  - unfold scan_rows. rewrite sort_by_perm. apply NoDup_ListNoDup, List.NoDup_filter, NoDup_ListNoDup.
    by apply NoDup_fmap_1 in Hok.
  - intros x y Hx Hy E. apply elem_of_scan_rows in Hx as (Hx & Hix & _ & _ & Hmx), Hy as (Hy & Hiy & _ & _ & Hmy).
    assert (Ek : i_key x = i_key y).
    { destruct o; simpl in E; [by apply cmp_eq in E; [|apply _]|symmetry; by apply cmp_eq in E; [|apply _]]. }
    rewrite Hix, Ek in Hmx. rewrite Hiy in Hmy. rewrite Hmx in Hmy. injection Hmy as Ets.
    apply list_elem_of_lookup in Hx as [i Hi], Hy as [j Hj]. enough (i = j) by congruence.
    apply (NoDup_lookup _ _ _ (idx_pk x) Hok); rewrite list_lookup_fmap; [by rewrite Hi|]. rewrite Hj. simpl.
    unfold idx_pk. congruence.
Qed.
End sqlite_scan.

Lemma sorted_sub {A} (R : A → A → Prop) (p : A → bool) l : StronglySorted R l → StronglySorted R (List.filter p l).
Proof.
  induction 1 as [|x l Hs IH Hx]; simpl; [constructor|]. destruct (p x); [|done]. constructor; [done|].
  rewrite Forall_forall in Hx |- *. intros y Hy. apply list_elem_of_In in Hy. apply filter_In in Hy as [Hy _].
  apply Hx. by apply list_elem_of_In.
Qed.

Lemma omap_sorted {A B} (f : A → option B) (RA : A → A → Prop) (RB : B → B → Prop) l :
  (∀ x y a b, f x = Some a → f y = Some b → RA x y → RB a b) →
  StronglySorted RA l → StronglySorted RB (omap f l).
Proof.
  intros HR. induction 1 as [|x l Hs IH Hx]; csimpl; [constructor|]. destruct (f x) as [a|] eqn:Ea; [|done].
  constructor; [done|]. rewrite Forall_forall in Hx. apply Forall_forall. intros b (y & Hy & Eb)%list_elem_of_omap. eauto.
Qed.

Lemma filter_omap {A B} (f : A → option B) (p : B → bool) (q : A → bool) l :
  (∀ x a, f x = Some a → p a = q x) → List.filter p (omap f l) = omap f (List.filter q l).
Proof.
  intros H. induction l as [|x l IH]; csimpl; [done|]. destruct (f x) as [a|] eqn:Ea; simpl.
  - rewrite (H x a Ea). destruct (q x); csimpl; rewrite ?Ea, IH; done.
  - destruct (q x); csimpl; rewrite ?Ea, IH; done.
Qed.

#[global] Instance sqlite_scan_laws guards : @ScanLaws db (sqlite_store guards).
Proof.
  assert (Hscan : ∀ d ix t iv o, db_ok d → index_scan d ix t iv o None = Ok (omap (resolved d t) (scan_rows d ix t iv o))).
  { intros d ix t iv o Hd. apply scan_loop_none; [done|]. by intros r (Hr & _)%elem_of_scan_rows. }
  split; simpl.
  - intros d ix t iv o Hd. rewrite Hscan by done. by eexists.
  - intros d ix t iv o rows Hd. rewrite Hscan by done. intros [= <-]. split.
    + eapply omap_sorted; [|by apply scan_rows_sorted]. intros x y a b Ea Eb. unfold row_before.
      by rewrite (resolved_key d t x a Ea), (resolved_key d t y b Eb).
    + apply Forall_forall. intros y (r & Hr & Ey)%list_elem_of_omap. rewrite (resolved_key d t r y Ey).
      apply elem_of_scan_rows in Hr as (Hin & _ & Hiv & _). split; [done|].
      pose proof (ok_keys d Hd) as Hk. rewrite Forall_forall in Hk. auto.
  - intros d ix t iv iv' o rows Hd. rewrite !Hscan by done. intros [= <-] Hsub. f_equal.
    rewrite (filter_omap _ _ (λ r, in_interval (i_key r) iv')) by (intros x a Ea; by rewrite (resolved_key d t x a Ea)).
    f_equal. apply (strictly_sorted_unique (λ a b, order_cmp o compareKeyBytes (i_key a) (i_key b))).
    + by apply scan_rows_sorted.
    + by apply sorted_sub, scan_rows_sorted.
    + intros x. rewrite (list_elem_of_In (List.filter _ _) x), filter_In, <-list_elem_of_In, !elem_of_scan_rows.
      split; [|tauto]. intros (H1 & H2 & H3 & H4 & H5). pose proof (ok_keys d Hd) as Hk.
      rewrite Forall_forall in Hk. specialize (Hk x H1). auto 10.
Qed.

(** ** Splitting a scan at a key *)

(** A row at or before [k] in scan order. *)
Definition upto (o : Order) (k : bytes) (r : row) : bool := cmp_leb (order_cmp o compareKeyBytes r.1 k).

Lemma row_before_trans o a b c : row_before o a b → row_before o b c → row_before o a c.
Proof. unfold row_before. apply (cmp_lt_trans (order_cmp o compareKeyBytes)). Qed.

Lemma sorted_split o (r1 r2 : list row) x : StronglySorted (row_before o) (r1 ++ x :: r2) →
  List.filter (upto o x.1) (r1 ++ x :: r2) = r1 ++ [x] ∧
  List.filter (λ r, negb (upto o x.1 r)) (r1 ++ x :: r2) = r2.
Proof.
  intros H. assert (Hord := order_cmp_order compareKeyBytes o).
  assert (H1 : Forall (λ r, upto o x.1 r = true) r1).
  { apply Forall_forall. intros r Hr. unfold upto. apply cmp_leb_true.
    assert (Hb : row_before o r x); [|unfold row_before in Hb; by rewrite Hb].
    clear -H Hr. induction r1 as [|y r1 IH]; [by apply elem_of_nil in Hr|]. simpl in H.
    apply StronglySorted_inv in H as [H Hy]. apply elem_of_cons in Hr as [->|Hr]; [|by apply IH].
    rewrite Forall_forall in Hy. apply Hy. apply elem_of_app. right. by left. }
  assert (H2 : Forall (λ r, upto o x.1 r = false) r2).
  { assert (Hx : Forall (row_before o x) r2).
    { clear -H. induction r1 as [|y r1 IH]; [by apply StronglySorted_inv in H as [_ H]|]. simpl in H.
      apply StronglySorted_inv in H as [H _]. auto. }
    eapply Forall_impl; [exact Hx|]. intros r Hr. unfold upto. apply cmp_leb_false.
    rewrite (cmp_opp (order_cmp o compareKeyBytes) x.1 r.1). unfold row_before in Hr. by rewrite Hr. }
  assert (Hx : upto o x.1 x = true) by (unfold upto; by rewrite (cmp_refl (order_cmp o compareKeyBytes))).
  assert (Hall : ∀ (p : row → bool) l, Forall (λ r, p r = true) l → List.filter p l = l).
  { intros p l. induction 1 as [|r l Hr _ IH]; simpl; [done|]. by rewrite Hr, IH. }
  assert (Hnone : ∀ (p : row → bool) l, Forall (λ r, p r = false) l → List.filter p l = []).
  { intros p l. induction 1 as [|r l Hr _ IH]; simpl; [done|]. by rewrite Hr, IH. }
  rewrite !List.filter_app. simpl. rewrite Hx. simpl. split.
  - by rewrite Hall, Hnone.
  - rewrite Hnone, Hall; [done|..]; eapply Forall_impl; [done| |done|]; intros r ->; done.
Qed.

(** ** The loop of [collect] *)
Definition matched (filters : list FilterExpr) (rows : list row) : list value :=
  List.filter (matches filters) (List.map row_value rows).

Lemma matched_app filters r1 r2 : matched filters (r1 ++ r2) = matched filters r1 ++ matched filters r2.
Proof. unfold matched. by rewrite List.map_app, List.filter_app. Qed.

Lemma matched_cons filters r rows : matched filters (r :: rows) =
  (if matches filters (row_value r) then [row_value r] else []) ++ matched filters rows.
Proof. unfold matched. simpl. by destruct (matches filters (row_value r)). Qed.

Lemma collect_loop_spec filters limit rows docs lst :
  match collect_loop filters limit rows docs lst with
  | (out, _, false) => out = docs ++ matched filters rows
  | (out, lst', true) => ∃ r1 x r2, rows = r1 ++ x :: r2 ∧ lst' = Some x.1 ∧
      ∀ rows2, collect_loop filters limit (r1 ++ x :: rows2) docs lst = (out, Some x.1, true)
  end.
Proof.
  revert docs lst. induction rows as [|r rows IH]; intros docs lst; simpl; [by rewrite app_nil_r|].
  destruct (matches filters (row_value r)) eqn:Em.
  - destruct (limit_hit limit (docs ++ [row_value r])) eqn:El.
    + exists [], r, rows. split_and!; try done. intros rows2. simpl. by rewrite Em, El.
    + specialize (IH (docs ++ [row_value r]) (Some r.1)).
      destruct (collect_loop _ _ _ _ _) as [[out lst'] [|]].
      * destruct IH as (r1 & x & r2 & -> & -> & H). exists (r :: r1), x, r2. split_and!; try done.
        intros rows2. simpl. by rewrite Em, El.
      * rewrite IH, matched_cons, Em, <-(assoc_L (++)). done.
  - specialize (IH docs (Some r.1)). destruct (collect_loop _ _ _ _ _) as [[out lst'] [|]].
    + destruct IH as (r1 & x & r2 & -> & -> & H). exists (r :: r1), x, r2. split_and!; try done.
      intros rows2. simpl. by rewrite Em.
    + by rewrite IH, matched_cons, Em.
Qed.

(** How many documents a limit admits: at least one is always returned when there is one. *)
Definition limited {A} (limit : option Z) (l : list A) : list A :=
  match limit with None => l | Some n => take (Z.to_nat (Z.max 1 n)) l end.

Lemma collect_loop_docs filters limit rows docs lst :
  (docs = [] ∨ limit_hit limit docs = false) →
  (collect_loop filters limit rows docs lst).1.1 =
    docs ++ limited (option_map (λ n, n - Z.of_nat (length docs)) limit) (matched filters rows).
Proof.
  revert docs lst. induction rows as [|r rows IH]; intros docs lst Hd.
  - change (matched filters []) with (@nil value). unfold limited. simpl.
    destruct limit; simpl; rewrite ?take_nil; by rewrite app_nil_r.
  - simpl. rewrite matched_cons. destruct (matches filters (row_value r)) eqn:Em; [|by rewrite IH].
    destruct (limit_hit limit (docs ++ [row_value r])) eqn:El.
    + destruct limit as [n|]; [|done]. simpl in *. rewrite length_app in El. simpl in El. apply Z.leb_le in El.
      replace (Z.to_nat (Z.max 1 (n - Z.of_nat (length docs)))) with 1%nat by lia. done.
    + rewrite IH by auto. destruct limit as [n|]; simpl in *; [|by rewrite <-(assoc_L (++))].
      rewrite length_app in El |- *. simpl in El. apply Z.leb_gt in El. simpl.
      replace (Z.to_nat (Z.max 1 (n - Z.of_nat (length docs)))) with
        (Datatypes.S (Z.to_nat (Z.max 1 (n - Z.of_nat (length docs + 1))))) by lia.
      by rewrite <-(assoc_L (++)).
Qed.

(** ** What a query read *)
Definition interval_of (r : KeyRange) : Interval := {| iv_start := start r; iv_end := end_ r |}.

Lemma before_succ k k' : Forall is_byte k' → compareKeyBytes k' (keySuccessor k) = Lt ↔ cmp_le compareKeyBytes k' k.
Proof.
  unfold cmp_le, keySuccessor. intros Hk'. rewrite !compareKeyBytes_lex. revert k.
  induction Hk' as [|y k' Hy Hk' IH]; intros [|x k]; simpl; try done.
  - unfold is_byte in Hy. destruct (Z.compare_spec y 0); [|lia|done]. destruct k'; simpl; split; done.
  - destruct (y ?= x); [apply IH|done..].
Qed.

Lemma in_interval_true k iv : in_interval k iv = true ↔
  cmp_le compareKeyBytes (iv_start iv) k ∧ before_end k (iv_end iv) = true.
Proof. unfold in_interval. by rewrite andb_true_iff, cmp_leb_true. Qed.

(** Within the interval, the consumed range is what lies at or before the last scanned key. *)
Lemma consumed_interval index iv o k k' : Forall is_byte k' → in_interval k iv = true →
  in_interval k' (interval_of (consumedRange index iv o (Some k))) = true ↔
    in_interval k' iv = true ∧ cmp_leb (order_cmp o compareKeyBytes k' k) = true.
Proof.
  intros Hk' Hk. rewrite !in_interval_true, cmp_leb_true. apply in_interval_true in Hk as [Hs He].
  destruct o; simpl.
  - rewrite cmp_ltb_true, before_succ by done. split; [|tauto]. intros [H1 H2]. split; [|done]. split; [done|].
    rewrite before_end_true in He |- *. destruct (iv_end iv) as [e|]; [|done].
    by apply (cmp_le_lt_trans compareKeyBytes k' k e).
  - fold (cmp_le compareKeyBytes k k'). split; [|tauto]. intros [H1 H2]. split; [|done]. split; [|done].
    by apply (cmp_le_trans compareKeyBytes _ k).
Qed.

Section scans.
Context {S : Type} `{!MvccStore S} `{!ScanLaws S}.

Lemma scan_upto (s : S) ix t index iv o rows k :
  ms_ok s → ms_scan s ix t iv o None = Ok rows → in_interval k iv = true →
  ms_scan s ix t (interval_of (consumedRange index iv o (Some k))) o None = Ok (List.filter (upto o k) rows).
Proof.
  intros Hs Hr Hk. destruct (sl_sorted _ _ _ _ _ _ Hs Hr) as [Hsort Hin]. rewrite (sl_sub s ix t iv _ o rows); [|done|done|].
  - f_equal. apply filter_ext_in_b. intros r Hr'. rewrite Forall_forall in Hin. destruct (Hin r Hr') as [Hri Hb].
    apply eq_true_iff_eq. rewrite consumed_interval by done. unfold upto. tauto.
  - intros k' Hk' H. apply consumed_interval in H; tauto.
Qed.

(** A scan starting with the rows up to [x] is determined up to [x] by the consumed range. *)
Lemma scan_consumed (s s' : S) ix t t' index iv o r1 x r2 rows' :
  ms_ok s → ms_ok s' → ms_scan s ix t iv o None = Ok (r1 ++ x :: r2) → ms_scan s' ix t' iv o None = Ok rows' →
  ms_scan s' ix t' (interval_of (consumedRange index iv o (Some x.1))) o None =
    ms_scan s ix t (interval_of (consumedRange index iv o (Some x.1))) o None →
  ∃ r2', rows' = r1 ++ x :: r2'.
Proof.
  intros Hs Hs' Hr Hr'. destruct (sl_sorted _ _ _ _ _ _ Hs Hr) as [Hsort Hin].
  destruct (sl_sorted _ _ _ _ _ _ Hs' Hr') as [Hsort' _].
  assert (Hx : in_interval x.1 iv = true).
  { rewrite Forall_forall in Hin. apply Hin. apply elem_of_app. right. by left. }
  rewrite (scan_upto s' ix t' index iv o rows') by done. rewrite (scan_upto s ix t index iv o (r1 ++ x :: r2)) by done.
  rewrite (proj1 (sorted_split o r1 r2 x Hsort)). intros [= E].
  assert (Hin' : x ∈ rows').
  { assert (Hx' : x ∈ List.filter (upto o x.1) rows') by (rewrite E; apply elem_of_app; right; by left).
    apply list_elem_of_In in Hx'. apply filter_In in Hx' as [Hx' _]. by apply list_elem_of_In. }
  apply list_elem_of_split in Hin' as (ra & rb & ->). rewrite (proj1 (sorted_split o ra rb x Hsort')) in E.
  apply app_inj_tail in E as [-> _]. by exists rb.
Qed.

(** The interval, order and filters a query runs with. *)
Definition q_ord (q : Query) : Order := default Asc (q_order q).
Definition q_flt (q : Query) : list FilterExpr := default [] (q_filters q).

(** [collect] returns the documents of its interval in index order that pass every filter, cut to the
    limit (a limit below one acts as one), and its read set is complete: in any other state of any such
    store in which scanning the recorded range yields the same rows, the query returns the same
    result. *)
Theorem collect_correct (s s' : S) q t t' iv : ms_ok s → ms_ok s' →
  buildIndexInterval (is_fields (q_index q)) (default [] (q_range q)) = Ok iv →
  ∃ rows rng,
    ms_scan s (is_indexId (q_index q)) t iv (q_ord q) None = Ok rows ∧
    collect s q t [] = Ok {| co_documents := limited (q_limit q) (matched (q_flt q) rows);
                             co_readSet := rs_add rs_new rng |} ∧
    keyspace rng = query_keyspace (q_index q) ∧
    (ms_scan s' (is_indexId (q_index q)) t' (interval_of rng) (q_ord q) None =
       ms_scan s (is_indexId (q_index q)) t (interval_of rng) (q_ord q) None →
     collect s' q t' [] = collect s q t []).
Proof.
  intros Hs Hs' Hiv. unfold collect. rewrite Hiv. cbn [res_bind]. fold (q_ord q) (q_flt q).
  destruct (sl_total s (is_indexId (q_index q)) t iv (q_ord q) Hs) as [rows Hrows].
  destruct (sl_total s' (is_indexId (q_index q)) t' iv (q_ord q) Hs') as [rows' Hrows'].
  rewrite Hrows, Hrows'. cbn [res_bind].
  pose proof (collect_loop_spec (q_flt q) (q_limit q) rows [] None) as Hspec.
  pose proof (collect_loop_docs (q_flt q) (q_limit q) rows [] None (or_introl eq_refl)) as Hdocs.
  destruct (collect_loop (q_flt q) (q_limit q) rows [] None) as [[docs lst] hit] eqn:Hloop. simpl in Hdocs.
  replace (option_map _ (q_limit q)) with (q_limit q) in Hdocs by (destruct (q_limit q); simpl; f_equal; lia).
  subst docs.
  exists rows. destruct hit.
  - destruct Hspec as (r1 & x & r2 & Hr & -> & Hpre).
    exists (consumedRange (q_index q) iv (q_ord q) (Some x.1)). split_and!; [done|done|by destruct (q_ord q)|].
    subst rows. intros Heq. destruct (scan_consumed s s' _ t t' _ _ _ r1 x r2 rows' Hs Hs' Hrows Hrows' Heq) as [r2' ->].
    by rewrite Hpre.
  - exists (interval_range (q_index q) iv). split_and!; [done|done|done|]. unfold interval_of, interval_range. simpl.
    assert (({| iv_start := iv_start iv; iv_end := iv_end iv |}) = iv) as -> by (by destruct iv).
    rewrite Hrows, Hrows'. intros [= ->].
    by rewrite Hloop.
Qed.

(** ** Pages *)

(** Where a page stopped: at the end, past a row it included, past a row it only scanned, or at
    once because the page was already full. *)
Lemma page_loop_spec filters size cap rows page li ls n :
  let st := page_loop filters size cap rows page li ls n in
  (Z.of_nat (length page) ≤ Z.max 0 size → Z.of_nat (length (ps_page st)) ≤ Z.max 0 size) ∧
  if ps_hasMore st then
    (∃ r1 x r2, rows = r1 ++ x :: r2 ∧ ps_page st = page ++ matched filters (r1 ++ [x]) ∧
       (if ps_scanCapped st then ps_lastScanned st else ps_lastIncluded st) = Some x.1) ∨
    (ps_scanCapped st = false ∧ ps_page st = page ∧ ps_lastIncluded st = li ∧ size ≤ Z.of_nat (length page))
  else ps_scanCapped st = false ∧ ps_page st = page ++ matched filters rows.
Proof.
  revert page li ls n. induction rows as [|r rows IH]; intros page li ls n; simpl.
  { split; [done|]. by rewrite app_nil_r. }
  destruct (matches filters (row_value r)) eqn:Em; simpl.
  - destruct (Z.leb_spec size (Z.of_nat (length page))) as [Hfull|Hroom]; simpl; [split; [done|right; done]|].
    assert (Hlen : Z.of_nat (length (page ++ [row_value r])) ≤ Z.max 0 size) by (rewrite length_app; simpl; lia).
    assert (Hone : page ++ [row_value r] = page ++ matched filters ([] ++ [r])) by (unfold matched; simpl; by rewrite Em).
    destruct (match cap with Some m => m <=? n + 1 | None => false end).
    + simpl. split; [done|]. left. exists [], r, rows. split_and!; [done..|]. by destruct (_ <? _).
    + specialize (IH (page ++ [row_value r]) (Some r.1) (Some r.1) (n + 1)).
      set (st := page_loop _ _ _ rows _ _ _ _) in *. destruct IH as [IH1 IH2]. split; [auto|].
      destruct (ps_hasMore st).
      * left. destruct IH2 as [(r1 & x & r2 & -> & E & Hc)|(Hc & E & Hli & _)].
        -- exists (r :: r1), x, r2. split_and!; [done| |done]. rewrite E. simpl. by rewrite matched_cons, Em, <-(assoc_L (++)).
        -- exists [], r, rows. rewrite E, Hc, Hli. done.
      * destruct IH2 as [Hc ->]. split; [done|]. by rewrite matched_cons, Em, <-(assoc_L (++)).
  - destruct (match cap with Some m => m <=? n + 1 | None => false end).
    + simpl. split; [done|]. destruct (Z.ltb_spec (Z.of_nat (length page)) size) as [Hlt|Hge]; [left|right; done].
      exists [], r, rows. split_and!; [done| |done]. unfold matched. simpl. by rewrite Em, app_nil_r.
    + specialize (IH page li (Some r.1) (n + 1)).
      set (st := page_loop _ _ _ rows _ _ _ _) in *. destruct IH as [IH1 IH2]. split; [auto|].
      destruct (ps_hasMore st).
      * destruct IH2 as [(r1 & x & r2 & -> & E & Hc)|IH2]; [left|by right].
        exists (r :: r1), x, r2. split_and!; [done| |done]. rewrite E. simpl. by rewrite matched_cons, Em.
      * destruct IH2 as [Hc ->]. split; [done|]. by rewrite matched_cons, Em.
Qed.

Definition page_opts (size : Z) (cap : option Z) (cursor : option jsstr) : PageOpts :=
  {| po_cursor := cursor; po_pageSize := size; po_maxScan := cap |}.

(** One page: its documents and where it points next. *)
Lemma paginate_page (s : S) q t size cap cursor base iv rows : 1 ≤ size →
  buildIndexInterval (is_fields (q_index q)) (default [] (q_range q)) = Ok base →
  resume base (q_ord q) cursor = Ok iv → ms_scan s (is_indexId (q_index q)) t iv (q_ord q) None = Ok rows →
  ∃ r, paginate s q t (page_opts size cap cursor) [] = Ok r ∧ Z.of_nat (length (pg_page r)) ≤ size ∧
    ((pg_nextCursor r = None ∧ pg_page r = matched (q_flt q) rows) ∨
     (∃ r1 x r2, rows = r1 ++ x :: r2 ∧ pg_nextCursor r = Some (bytesToBase64 x.1) ∧
        pg_page r = matched (q_flt q) (r1 ++ [x]))).
Proof.
  intros Hsize Hb Hiv Hrows. unfold paginate. rewrite Hb. cbn [res_bind page_opts po_cursor po_pageSize po_maxScan].
  fold (q_ord q) (q_flt q). rewrite Hiv. cbn [res_bind]. rewrite Hrows. cbn [res_bind].
  pose proof (page_loop_spec (q_flt q) size cap rows [] None None 0) as Hspec. cbv zeta in Hspec.
  set (st := page_loop _ _ _ _ _ _ _ _) in *. destruct Hspec as [Hlen Hspec].
  eexists. split; [reflexivity|]. cbn [pg_page pg_nextCursor]. simpl in Hlen. split; [lia|].
  destruct (ps_hasMore st).
  - right. destruct Hspec as [(r1 & x & r2 & -> & -> & Hc)|(_ & _ & _ & Hx)]; [|simpl in Hx; lia].
    exists r1, x, r2. split_and!; [done| |done]. by rewrite Hc.
  - left. destruct Hspec as [-> ->]. done.
Qed.

(** Following the cursors from the first page on, with [fuel] pages at most. *)
Fixpoint walk_pages (fuel : nat) (s : S) (q : Query) (t size : Z) (cap : option Z) (cursor : option jsstr) :
    res (option (list (list value))) :=
  match fuel with
  | O => Ok None
  | Datatypes.S fuel =>
      let! r := paginate s q t (page_opts size cap cursor) [] in
      match pg_nextCursor r with
      | None => Ok (Some [pg_page r])
      | Some c => let! rest := walk_pages fuel s q t size cap (Some c) in Ok (option_map (cons (pg_page r)) rest)
      end
  end.

Lemma base64_nonempty k : k ≠ [] → bytesToBase64 k ≠ [].
Proof. destruct k as [|a [|b [|c k]]]; [done|by intros _..]. Qed.

(** Resuming from a row's key scans exactly the rows after it. *)
Lemma resume_after (s : S) ix t base o r1 x r2 : ms_ok s → x.1 ≠ [] →
  ms_scan s ix t base o None = Ok (r1 ++ x :: r2) →
  ∃ iv, resume base o (Some (bytesToBase64 x.1)) = Ok iv ∧ ms_scan s ix t iv o None = Ok r2.
Proof.
  intros Hs Hne Hr. destruct (sl_sorted _ _ _ _ _ _ Hs Hr) as [Hsort Hin].
  assert (Hx : in_interval x.1 base = true ∧ Forall is_byte x.1).
  { rewrite Forall_forall in Hin. apply Hin. apply elem_of_app. right. by left. }
  destruct Hx as [Hxi Hxb]. apply in_interval_true in Hxi as [Hxs Hxe].
  unfold resume. destruct (bytesToBase64 x.1) as [|c0 cs] eqn:Eb; [by apply base64_nonempty in Eb|]. rewrite <-Eb.
  rewrite base64_roundtrip by done. cbn [res_bind]. eexists. split; [reflexivity|].
  set (iv := match o with Asc => _ | Desc => _ end).
  assert (Hafter : ∀ k, Forall is_byte k → in_interval k iv = true ↔
    in_interval k base = true ∧ cmp_leb (order_cmp o compareKeyBytes k x.1) = false).
  { intros k Hk. rewrite !in_interval_true, cmp_leb_false. unfold iv. destruct o; simpl.
    - rewrite <-(cmp_not_lt_le compareKeyBytes), before_succ by done. unfold cmp_le.
      destruct (compareKeyBytes k x.1) eqn:E; split; try naive_solver.
      intros [_ He]. split_and!; try done. apply (cmp_le_trans compareKeyBytes _ x.1); [done|].
      unfold cmp_le. rewrite (cmp_opp compareKeyBytes k x.1), E. done.
    - rewrite cmp_ltb_true, (cmp_opp compareKeyBytes k x.1). rewrite before_end_true in Hxe |- *.
      destruct (compareKeyBytes k x.1) eqn:E; simpl; split; try naive_solver.
      intros [H1 _]. split_and!; try done. destruct (iv_end base) as [e|]; [|done].
      by apply (cmp_lt_trans compareKeyBytes k x.1 e). }
  rewrite (sl_sub s ix t base iv o (r1 ++ x :: r2)); [|done|done|].
  - f_equal. etransitivity; [|exact (proj2 (sorted_split o r1 r2 x Hsort))].
    apply filter_ext_in_b. intros r Hr'. rewrite Forall_forall in Hin. destruct (Hin r Hr') as [Hri Hb].
    apply eq_true_iff_eq. rewrite Hafter, negb_true_iff by done. unfold upto. tauto.
  - intros k Hk H. apply Hafter in H; tauto.
Qed.

Lemma walk_from (s : S) q t size cap base rows : ms_ok s → 1 ≤ size →
  buildIndexInterval (is_fields (q_index q)) (default [] (q_range q)) = Ok base →
  ms_scan s (is_indexId (q_index q)) t base (q_ord q) None = Ok rows → Forall (λ r : row, r.1 ≠ []) rows →
  ∀ fuel done rest cursor iv, rows = done ++ rest → (length rest < fuel)%nat →
    resume base (q_ord q) cursor = Ok iv → ms_scan s (is_indexId (q_index q)) t iv (q_ord q) None = Ok rest →
    ∃ pages, walk_pages fuel s q t size cap cursor = Ok (Some pages) ∧ concat pages = matched (q_flt q) rest ∧
      Forall (λ p : list value, Z.of_nat (length p) ≤ size) pages.
Proof.
  intros Hs Hsize Hb Hscan Hne. induction fuel as [|fuel IH]; intros dn rest cursor iv Hr Hf Hiv Hrest; [lia|].
  destruct (paginate_page s q t size cap cursor base iv rest Hsize Hb Hiv Hrest) as (r & Hpg & Hlen & Hcase).
  cbn [walk_pages]. rewrite Hpg. cbn [res_bind].
  destruct Hcase as [[-> Hpage]|(r1 & x & r2 & -> & -> & Hpage)].
  - exists [pg_page r]. split_and!; [done|simpl; by rewrite app_nil_r|by repeat constructor].
  - assert (Hx : x.1 ≠ []).
    { rewrite Hr, Forall_forall in Hne. apply Hne. rewrite !elem_of_app, elem_of_cons. auto. }
    assert (Hscan' : ms_scan s (is_indexId (q_index q)) t base (q_ord q) None = Ok ((dn ++ r1) ++ x :: r2))
      by (by rewrite <-(assoc_L (++)), <-Hr).
    destruct (resume_after s _ t base (q_ord q) (dn ++ r1) x r2 Hs Hx Hscan') as (iv2 & Hiv2 & Hrest2).
    assert (Hr2 : rows = ((dn ++ r1) ++ [x]) ++ r2) by (by rewrite Hr, <-!(assoc_L (++))).
    destruct (IH _ r2 _ iv2 Hr2 ltac:(rewrite length_app in Hf; simpl in Hf; lia) Hiv2 Hrest2) as (pages & -> & Hcat & Hall).
    exists (pg_page r :: pages). split_and!; [done| |by constructor]. simpl.
    by rewrite Hcat, Hpage, <-matched_app, <-(assoc_L (++)).
Qed.

(** C33: pagination enumerates the query. At a fixed snapshot, following [nextCursor] from the first page ends after
    at most one page per row plus one, whatever the page size and scan cap; no page exceeds the page
    size; and the pages, put together, are the filtered rows of the interval in index order, each
    exactly once. *)
Theorem pagination_complete (s : S) q t size cap base rows : ms_ok s → 1 ≤ size →
  buildIndexInterval (is_fields (q_index q)) (default [] (q_range q)) = Ok base →
  ms_scan s (is_indexId (q_index q)) t base (q_ord q) None = Ok rows → Forall (λ r : row, r.1 ≠ []) rows →
  ∃ pages, walk_pages (Datatypes.S (length rows)) s q t size cap None = Ok (Some pages) ∧
    concat pages = matched (q_flt q) rows ∧ Forall (λ p : list value, Z.of_nat (length p) ≤ size) pages.
Proof.
  intros Hs Hsize Hb Hscan Hne.
  apply (walk_from s q t size cap base rows Hs Hsize Hb Hscan Hne _ [] rows None base); [done|lia|done|done].
Qed.
End scans.

(** ** The read-your-own-writes overlay *)
Lemma hexKey_inj a b : Forall is_byte a → Forall is_byte b → hexKey a = hexKey b → a = b.
Proof.
  intros Ha Hb E. assert (H : hexToInternalId (hexKey a) = Ok a) by (by apply hex_roundtrip).
  rewrite E, hex_roundtrip in H by done. congruence.
Qed.

(** The merge map: keyed by the hex form of each entry's key. *)
Record merge_ok (m : list (jsstr * (bytes * value))) : Prop := {
  mo_keys : jm_ok m;
  mo_hex : ∀ h k v, jm_get m h = Some (k, v) → h = hexKey k ∧ Forall is_byte k }.

Definition merge_look (m : list (jsstr * (bytes * value))) (k : bytes) : option value :=
  option_map snd (jm_get m (hexKey k)).

Lemma merge_set_ok m k v : merge_ok m → Forall is_byte k → merge_ok (jm_set m (hexKey k) (k, v)).
Proof.
  intros [H1 H2] Hk. split; [by apply jm_set_ok|]. intros h k' v'. rewrite jm_get_set.
  case_decide; [intros [= <- <-]; by split|apply H2].
Qed.

Lemma merge_delete_ok m h : merge_ok m → merge_ok (jm_delete m h).
Proof.
  intros [H1 H2]. split; [by apply jm_delete_ok|]. intros h' k v. rewrite jm_get_delete by done.
  case_decide; [done|apply H2].
Qed.

Lemma merge_look_set m k v k' : Forall is_byte k → Forall is_byte k' →
  merge_look (jm_set m (hexKey k) (k, v)) k' = if decide (k' = k) then Some v else merge_look m k'.
Proof.
  intros Hk Hk'. unfold merge_look. rewrite jm_get_set. destruct (decide (k' = k)) as [->|Hne]; [by rewrite decide_True|].
  rewrite decide_False; [done|]. intros E. by apply Hne, hexKey_inj.
Qed.

Lemma merge_look_delete m k k' : jm_ok m → Forall is_byte k → Forall is_byte k' →
  merge_look (jm_delete m (hexKey k)) k' = if decide (k' = k) then None else merge_look m k'.
Proof.
  intros Hm Hk Hk'. unfold merge_look. rewrite jm_get_delete by done.
  destruct (decide (k' = k)) as [->|Hne]; [by rewrite decide_True|].
  rewrite decide_False; [done|]. intros E. by apply Hne, hexKey_inj.
Qed.

Lemma merge_values m k v : merge_ok m → Forall is_byte k → (k, v) ∈ jm_values m ↔ merge_look m k = Some v.
Proof.
  intros [H1 H2] Hk. unfold jm_values, merge_look. rewrite list_elem_of_fmap. split.
  - intros ([h [k' v']] & [= <- <-] & Hin). pose proof (proj2 (jm_get_elem _ _ _ H1) Hin) as Hg.
    destruct (H2 _ _ _ Hg) as [-> _]. by rewrite Hg.
  - destruct (jm_get m (hexKey k)) as [[k' v']|] eqn:E; [|done]. simpl. intros [= ->].
    destruct (H2 _ _ _ E) as [Eh Hk']. apply hexKey_inj in Eh; [|done..]. subst k'.
    exists (hexKey k, (k, v)). split; [done|]. by apply jm_get_in.
Qed.

Lemma merge_values_bytes m k v : merge_ok m → (k, v) ∈ jm_values m → Forall is_byte k.
Proof.
  intros [H1 H2]. unfold jm_values. rewrite list_elem_of_fmap. intros ([h [k' v']] & [= <- <-] & Hin).
  by destruct (H2 _ _ _ (proj2 (jm_get_elem _ _ _ H1) Hin)).
Qed.

Lemma merge_rows rows m : merge_ok m → Forall (λ r : row, Forall is_byte r.1) rows → NoDup (fst <$> rows) →
  let m' := fold_left (λ m r, jm_set m (hexKey r.1) (r.1, row_value r)) rows m in
  merge_ok m' ∧ ∀ k, Forall is_byte k → merge_look m' k =
    match List.find (λ r : row, bool_decide (r.1 = k)) rows with Some r => Some (row_value r) | None => merge_look m k end.
Proof.
  revert m. induction rows as [|r rows IH]; intros m Hm Hb Hn; [done|]. simpl.
  apply Forall_cons in Hb as [Hr Hb]. csimpl in Hn. apply NoDup_cons in Hn as [Hni Hn].
  destruct (IH _ (merge_set_ok m r.1 (row_value r) Hm Hr) Hb Hn) as [H1 H2]. split; [done|].
  intros k Hk. rewrite H2, merge_look_set by done. destruct (decide (k = r.1)) as [->|Hne].
  - rewrite bool_decide_true by done. destruct (List.find _ rows) as [r'|] eqn:E; [|done].
    apply List.find_some in E as [Hin%list_elem_of_In E%bool_decide_eq_true]. destruct Hni. rewrite <-E.
    by apply list_elem_of_fmap_2.
  - by rewrite bool_decide_false.
Qed.

(** What the overlay says about a key. *)
Definition overlay_at (iv : Interval) (overlay : list IndexOverlayEntry) (k : bytes) : option (option value) :=
  match List.find (λ o, bool_decide (ov_key o = k)) overlay with
  | Some o => match ov_value o with None => Some None | Some v => if keyInInterval k iv then Some (Some v) else None end
  | None => None
  end.

Lemma merge_overlay_look iv overlay m : merge_ok m → Forall (λ o, Forall is_byte (ov_key o)) overlay →
  NoDup (ov_key <$> overlay) →
  let m' := fold_left (overlay_step iv) overlay m in
  merge_ok m' ∧ ∀ k, Forall is_byte k → merge_look m' k =
    match overlay_at iv overlay k with Some x => x | None => merge_look m k end.
Proof.
  revert m. induction overlay as [|o overlay IH]; intros m Hm Hb Hn; [done|]. simpl.
  apply Forall_cons in Hb as [Ho Hb]. csimpl in Hn. apply NoDup_cons in Hn as [Hni Hn].
  assert (Hm' : merge_ok (overlay_step iv m o)).
  { unfold overlay_step. destruct (ov_value o); [|by apply merge_delete_ok].
    destruct (keyInInterval _ _); [by apply merge_set_ok|done]. }
  destruct (IH _ Hm' Hb Hn) as [H1 H2]. split; [done|]. intros k Hk. rewrite H2 by done. clear IH H1 H2 Hm'.
  unfold overlay_at at 2. simpl. destruct (decide (ov_key o = k)) as [<-|Hne].
  - rewrite bool_decide_true by done. unfold overlay_at. destruct (List.find _ overlay) as [o'|] eqn:E.
    { apply List.find_some in E as [Hin%list_elem_of_In E%bool_decide_eq_true]. destruct Hni. rewrite <-E.
      by apply list_elem_of_fmap_2. }
    unfold overlay_step. destruct (ov_value o) as [v|].
    + destruct (keyInInterval (ov_key o) iv); [|done]. by rewrite merge_look_set, decide_True.
    + rewrite merge_look_delete by (try done; apply Hm). by rewrite decide_True.
  - rewrite bool_decide_false by done. fold (overlay_at iv overlay k).
    destruct (overlay_at iv overlay k); [done|]. unfold overlay_step. destruct (ov_value o) as [v|].
    + destruct (keyInInterval _ _); [|done]. by rewrite merge_look_set, decide_False by congruence.
    + rewrite merge_look_delete by (try done; apply Hm). by rewrite decide_False by congruence.
Qed.

(** The last update a transaction staged for a key of an index. *)
Definition last_staged (c : Ctx) (ix : jsstr) (k : bytes) : option DatabaseIndexUpdate :=
  last (List.filter (λ u, bool_decide (iu_indexId u = ix) && bool_decide (iu_key u = k)) (indexUpdates c)).

Definition byte_updates (us : list DatabaseIndexUpdate) : Prop := Forall (λ u, Forall is_byte (iu_key u)) us.

Definition overlay_entry (c : Ctx) (u : DatabaseIndexUpdate) : IndexOverlayEntry :=
  {| ov_key := iu_key u; ov_value := overlay_value c u |}.

Lemma pending_map c ix us : byte_updates us →
  let m := fold_left (λ m u, if negb (bool_decide (iu_indexId u = ix)) then m
    else jm_set m (hexKey (iu_key u)) {| ov_key := iu_key u; ov_value := overlay_value c u |}) us [] in
  jm_ok m ∧ (∀ h e, jm_get m h = Some e → h = hexKey (ov_key e) ∧ Forall is_byte (ov_key e)) ∧
  ∀ k, Forall is_byte k → jm_get m (hexKey k) =
    option_map (overlay_entry c) (last (List.filter (λ u, bool_decide (iu_indexId u = ix) && bool_decide (iu_key u = k)) us)).
Proof.
  induction us as [|u us IH] using rev_ind; intros Hb; [split_and!; [apply NoDup_nil_2|done|done]|].
  apply Forall_app in Hb as [Hb Hu]. apply Forall_cons in Hu as [Hu _]. destruct (IH Hb) as (H1 & H2 & H3). cbv zeta in *.
  rewrite fold_left_app. simpl. set (m := fold_left _ us []) in *.
  destruct (bool_decide (iu_indexId u = ix)) eqn:Eix; simpl.
  - split_and!; [by apply jm_set_ok| |].
    + intros h e. rewrite jm_get_set. destruct (decide (h = hexKey (iu_key u))) as [->|]; [|apply H2]. intros E. injection E as <-. split; [done|exact Hu].
    + intros k Hk. rewrite jm_get_set, List.filter_app. simpl. rewrite Eix. simpl.
      destruct (decide (iu_key u = k)) as [<-|Hne].
      * rewrite decide_True, bool_decide_true by done. by rewrite last_snoc.
      * rewrite bool_decide_false, app_nil_r by done. rewrite decide_False; [by apply H3|].
        intros E. apply Hne. symmetry. by apply hexKey_inj.
  - split_and!; [done..|]. intros k Hk. rewrite List.filter_app. simpl. rewrite Eix. simpl. rewrite app_nil_r. by apply H3.
Qed.

Lemma pending_overlay c ix : byte_updates (indexUpdates c) →
  Forall (λ o, Forall is_byte (ov_key o)) (pendingIndexOverlay c ix) ∧
  NoDup (ov_key <$> pendingIndexOverlay c ix) ∧
  ∀ k, Forall is_byte k → List.find (λ o, bool_decide (ov_key o = k)) (pendingIndexOverlay c ix) =
    option_map (overlay_entry c) (last_staged c ix k).
Proof.
  intros Hb. destruct (pending_map c ix (indexUpdates c) Hb) as (H1 & H2 & H3). cbv zeta in *.
  unfold pendingIndexOverlay, last_staged. set (m := fold_left _ (indexUpdates c) []) in *.
  assert (Hin : ∀ e, e ∈ jm_values m → jm_get m (hexKey (ov_key e)) = Some e ∧ Forall is_byte (ov_key e)).
  { intros e ([h e'] & -> & Hin)%list_elem_of_fmap. apply (jm_get_elem _ _ _ H1) in Hin. simpl.
    destruct (H2 _ _ Hin) as [Eh Hbe]. rewrite <-Eh. done. }
  split_and!.
  - apply Forall_forall. intros e He. by apply Hin.
  - unfold jm_values, jm_ok, jm_keys in *. clear H3.
    assert (Heq : fst <$> m = hexKey <$> (ov_key <$> (snd <$> m))).
    { rewrite <-!list_fmap_compose. apply list_fmap_ext. intros i [h e] Hi. simpl.
      apply list_elem_of_lookup_2, (jm_get_elem _ _ _ H1) in Hi. by destruct (H2 _ _ Hi). }
    rewrite Heq in H1. by apply NoDup_fmap_1 in H1.
  - intros k Hk. rewrite <-H3 by done. destruct (List.find _ (jm_values m)) as [e|] eqn:E.
    + apply List.find_some in E as [Hi%list_elem_of_In Ek%bool_decide_eq_true]. destruct (Hin e Hi) as [Hg _].
      rewrite Ek in Hg. by rewrite Hg.
    + destruct (jm_get m (hexKey k)) as [e|] eqn:Eg; [|done]. exfalso.
      destruct (H2 _ _ Eg) as [Eh Hbe]. apply hexKey_inj in Eh; [|done..].
      assert (Hm : e ∈ jm_values m) by (apply jm_get_in in Eg; by apply (list_elem_of_fmap_2 snd) in Eg).
      apply list_elem_of_In in Hm. pose proof (List.find_none _ _ E e Hm) as Hf. simpl in Hf.
      by rewrite bool_decide_true in Hf.
Qed.

Section overlay.
Context {S : Type} `{!MvccStore S} `{!ScanLaws S}.

Lemma scan_keys_nodup o (rows : list row) : StronglySorted (row_before o) rows → NoDup (fst <$> rows).
Proof.
  assert (Hord := order_cmp_order compareKeyBytes o).
  induction 1 as [|r rows Hs IH Hr]; csimpl; [constructor|]. apply NoDup_cons. split; [|done].
  intros (r' & E & Hin)%list_elem_of_fmap. rewrite Forall_forall in Hr. specialize (Hr r' Hin). unfold row_before in Hr.
  by rewrite E, (cmp_refl (order_cmp o compareKeyBytes)) in Hr.
Qed.

(** A transaction's query sees its own writes. Scanning with the overlay of the staged updates returns, in
    index order and with unique keys, for each key of the interval the staged row if the transaction's
    last staged update for that key set one, nothing if it deleted the key or the staged document is
    deleted, and the committed row when the transaction staged nothing for the key. *)
Theorem reads_own_writes (s : S) c q t iv o rows : ms_ok s → byte_updates (indexUpdates c) →
  ms_scan s (is_indexId (q_index q)) t iv o None = Ok rows →
  ∃ out, scanWithOverlay s q t iv o (pendingIndexOverlay c (is_indexId (q_index q))) = Ok out ∧
    StronglySorted (λ a b, order_cmp o compareKeyBytes a.1 b.1 = Lt) out ∧
    ∀ k v, Forall is_byte k → (k, v) ∈ out ↔
      match last_staged c (is_indexId (q_index q)) k with
      | Some u => overlay_value c u = Some v ∧ keyInInterval k iv = true
      | None => ∃ r, r ∈ rows ∧ r.1 = k ∧ row_value r = v
      end.
Proof.
  intros Hs Hb Hr. destruct (sl_sorted _ _ _ _ _ _ Hs Hr) as [Hsort Hin].
  destruct (pending_overlay c (is_indexId (q_index q)) Hb) as (P1 & P2 & P3).
  set (ov := pendingIndexOverlay c (is_indexId (q_index q))) in *.
  unfold scanWithOverlay. rewrite Hr. cbn [res_bind]. eexists. split; [reflexivity|]. unfold merge_overlay.
  pose proof (scan_keys_nodup o rows Hsort) as Hnd.
  assert (Hbr : Forall (λ r : row, Forall is_byte r.1) rows) by (eapply Forall_impl; [exact Hin|]; by intros r [_ ?]).
  assert (Hnil : merge_ok []) by (split; [apply NoDup_nil_2|done]).
  destruct (merge_rows rows [] Hnil Hbr Hnd) as [M1 L1]. cbv zeta in M1, L1.
  set (m := fold_left _ rows []) in *.
  destruct (merge_overlay_look iv ov m M1 P1 P2) as [M2 L2]. cbv zeta in M2, L2.
  set (m' := fold_left (overlay_step iv) ov m) in *. split.
  - assert (Hord := order_cmp_order compareKeyBytes o).
    assert (Hord' := cmp_on_order (fst : bytes * value → bytes) (order_cmp o compareKeyBytes)).
    apply (strictly_sorted (λ a b : bytes * value, order_cmp o compareKeyBytes a.1 b.1)); [by apply sort_by_sorted|..].
    + rewrite sort_by_perm. destruct M2 as [Hk Hh]. unfold jm_values, jm_ok, jm_keys in *.
      assert (Heq : fst <$> m' = (hexKey ∘ fst) <$> (snd <$> m')).
      { rewrite <-list_fmap_compose. apply list_fmap_ext. intros i [h [k v]] Hi. simpl.
        apply list_elem_of_lookup_2, (jm_get_elem _ _ _ Hk) in Hi. by destruct (Hh _ _ _ Hi). }
      rewrite Heq in Hk. by apply NoDup_fmap_1 in Hk.
    + intros [k v] [k' v'] Hx Hy E. rewrite !elem_of_sort_by in *. simpl in E.
      assert (k = k') as <-.
      { destruct o; simpl in E; apply cmp_eq in E; [done|apply _|done|apply _]. }
      assert (Hk := merge_values_bytes _ _ _ M2 Hx).
      apply merge_values in Hx, Hy; try done. congruence.
  - intros k v Hk. rewrite elem_of_sort_by, merge_values, L2 by done. unfold overlay_at. rewrite P3 by done.
    destruct (last_staged c _ k) as [u|] eqn:El; simpl.
    + destruct (overlay_value c u) as [v'|]; [|split; [done|by intros [? _]]].
      destruct (keyInInterval k iv) eqn:Ei; [split; [intros [= ->]; done|intros [[= ->] _]; done]|].
      split; [|by intros [_ ?]]. rewrite L1 by done. destruct (List.find _ rows) as [r|] eqn:Ef; [|done].
      apply List.find_some in Ef as [Hi%list_elem_of_In Ek%bool_decide_eq_true]. exfalso.
      rewrite Forall_forall in Hin. destruct (Hin r Hi) as [Hii _]. rewrite Ek in Hii.
      change (keyInInterval k iv = true) in Hii. congruence.
    + rewrite L1 by done. destruct (List.find _ rows) as [r|] eqn:Ef.
      * apply List.find_some in Ef as [Hi%list_elem_of_In Ek%bool_decide_eq_true]. split.
        -- intros [= <-]. by exists r.
        -- intros (r' & Hi' & Ek' & <-). f_equal. f_equal.
           apply list_elem_of_lookup in Hi as [i Hi], Hi' as [j Hj]. enough (i = j) by congruence.
           apply (NoDup_lookup _ _ _ k Hnd); rewrite list_lookup_fmap; [rewrite Hi|rewrite Hj]; simpl; congruence.
      * split; [done|]. intros (r & Hi & Ek & _). apply list_elem_of_In in Hi.
        pose proof (List.find_none _ _ Ef r Hi) as Hf. simpl in Hf. by rewrite bool_decide_true in Hf.
Qed.
End overlay.

(** ** A concrete table: three documents indexed by [n] *)
Section examples.
#[local] Instance tbl_store : MvccStore db := sqlite_store [].
#[local] Instance tbl_laws : MvccStoreLaws db := sqlite_laws [] (List.Forall_nil _).
#[local] Instance tbl_scan_laws : ScanLaws db := sqlite_scan_laws [].

Definition tbl_id (n : Z) : InternalDocumentId := {| tableNumber := 10001; internalId := [n] |}.
Definition tbl_doc (n : Z) : value := VObj [(js "n", VBig n)].
Definition tbl_index : IndexSpec :=
  {| is_table := js "t"; is_tableNumber := 10001; is_index := js "by_n"; is_fields := [js "n"];
     is_indexId := js "10001/by_n" |}.
Definition tbl_key (n : Z) : bytes := match extractIndexKey (tbl_doc n) [js "n"] with Ok k => k | Err _ => [] end.
Definition tbl_unit : CommitUnit :=
  {| cu_documents := List.map (λ n, {| le_ts := 0; le_id := tbl_id n; le_prev_ts := None;
                                       le_value := Some {| rd_id := tbl_id n; rd_value := tbl_doc n |} |}) [1; 2; 3];
     cu_indexUpdates := List.map (λ n, {| iw_ts := 0; iw_update := {| iu_indexId := is_indexId tbl_index;
                                            iu_key := tbl_key n; iu_value := NonClustered (tbl_id n) |} |}) [1; 2; 3];
     cu_meta := None |}.
Definition tbl : db := match commitWriteBatch [] empty_db [tbl_unit] None with Ok (d, _) => d | Err _ => empty_db end.

Lemma tbl_ok : ms_ok tbl.
Proof.
  unfold tbl. destruct (commitWriteBatch [] empty_db [tbl_unit] None) as [[d tss]|] eqn:E; [|vm_compute in E; discriminate].
  refine (proj1 (ms_commit_ok empty_db [tbl_unit] None d tss _ _ E)).
  - split; simpl; constructor.
  - by repeat constructor.
Qed.

Definition odd_only : Query :=
  {| q_index := tbl_index; q_range := None; q_order := None;
     q_filters := Some [FCompare OpNeq (js "n") (VBig 2)]; q_limit := None |}.

Lemma collect_correct_witness : ∃ rows rng, matched (q_flt odd_only) rows = [tbl_doc 1; tbl_doc 3] ∧
  collect tbl odd_only 1 [] = Ok {| co_documents := [tbl_doc 1; tbl_doc 3]; co_readSet := rs_add rs_new rng |}.
Proof.
  destruct (collect_correct tbl tbl odd_only 1 1 {| iv_start := []; iv_end := None |} tbl_ok tbl_ok eq_refl)
    as (rows & rng & Hr & Hc & _ & _).
  exists rows, rng. vm_compute in Hr. injection Hr as <-. split; [reflexivity|]. rewrite Hc. reflexivity.
Defined.

Lemma pagination_complete_witness : ∃ pages, walk_pages 4 tbl odd_only 1 1 (Some 1) None = Ok (Some pages) ∧
  concat pages = [tbl_doc 1; tbl_doc 3].
Proof.
  destruct (index_scan tbl (is_indexId tbl_index) 1 {| iv_start := []; iv_end := None |} Asc None) as [rows|] eqn:E;
    [|vm_compute in E; discriminate].
  destruct (pagination_complete tbl odd_only 1 1 (Some 1) {| iv_start := []; iv_end := None |} rows tbl_ok)
    as (pages & Hw & Hc & _); [lia|reflexivity|exact E|vm_compute in E; injection E as <-; by repeat constructor|].
  exists pages. vm_compute in E. injection E as <-. split; [exact Hw|]. rewrite Hc. reflexivity.
Defined.

Definition staged_ctx : Ctx :=
  let c := new_Ctx 1 DEFAULT_SHARD (new_HeadroomTracker DEFAULT_HEADROOM) in
  stageIndexUpdates (ctx_delete c (tbl_id 2)).1
    [{| iu_indexId := is_indexId tbl_index; iu_key := tbl_key 2; iu_value := Deleted |}].

Lemma reads_own_writes_witness : ∃ out, scanWithOverlay tbl odd_only 1 {| iv_start := []; iv_end := None |} Asc
    (pendingIndexOverlay staged_ctx (is_indexId tbl_index)) = Ok out ∧
  ~ (tbl_key 2, tbl_doc 2) ∈ out ∧ (tbl_key 3, tbl_doc 3) ∈ out.
Proof.
  destruct (index_scan tbl (is_indexId tbl_index) 1 {| iv_start := []; iv_end := None |} Asc None) as [rows|] eqn:E;
    [|vm_compute in E; discriminate].
  assert (Hb : ∀ n, n = 2 ∨ n = 3 → Forall is_byte (tbl_key n)).
  { intros n Hn. apply byteb_Forall. by destruct Hn as [-> | ->]. }
  destruct (reads_own_writes tbl staged_ctx odd_only 1 {| iv_start := []; iv_end := None |} Asc rows tbl_ok)
    as (out & Ho & _ & Hout); [|exact E|].
  { apply Forall_singleton. apply Hb. by left. }
  exists out. split; [exact Ho|]. split.
  - intros Hin. apply Hout in Hin; [|apply Hb; by left]. vm_compute in Hin. by destruct Hin.
  - apply Hout; [apply Hb; by right|]. vm_compute in E. injection E as <-. vm_compute.
    eexists. split; [right; right; left|by split].
Defined.

(** A scan-capped page that included a row owns less than it scanned: the next page starts past the
    last scanned key, so a key between the two belongs to neither page's bounds. *)
Definition capped_query : Query :=
  {| q_index := tbl_index; q_range := None; q_order := None;
     q_filters := Some [FCompare OpEq (js "n") (VBig 1)]; q_limit := None |}.

Theorem capped_page_gap : ∃ p1 p2 b1 b2 c,
  paginate tbl capped_query 1 (page_opts 5 (Some 2) None) [] = Ok p1 ∧ pg_scanCapped p1 = true ∧
  pg_nextCursor p1 = Some c ∧ paginate tbl capped_query 1 (page_opts 5 (Some 2) (Some c)) [] = Ok p2 ∧
  deserializeKeyRange (pg_pageBounds p1) = Ok b1 ∧ deserializeKeyRange (pg_pageBounds p2) = Ok b2 ∧
  keyInRange (tbl_key 2) b1 = false ∧ keyInRange (tbl_key 2) b2 = false.
Proof.
  destruct (paginate tbl capped_query 1 (page_opts 5 (Some 2) None) []) as [p1|] eqn:E1; [|vm_compute in E1; discriminate].
  vm_compute in E1. injection E1 as <-. eexists _, _, _, _, _. repeat split; vm_compute; reflexivity.
Qed.
End examples.
