(* ===== verification/Subscriptions.v ===== *)
(** Live subscriptions: [packages/sync/src/subscription-manager.ts] and
    [packages/sync/src/resume-registry.ts]. Both classes keep the same four read-set indexes (a table
    index, an interval index, the fallback keys and the decoded ranges), modelled once as [ReadIndex]
    and related to the map of registered read sets by [ri_ok]. *)
From S2P Require Import Prelude Numbers Values Json IndexKeys Ranges IntervalIndex IdCodec DocStore MvccStore Transactor.
From S2P Require Import QueryEngine.

(** ** JavaScript sets of strings, kept in maps *)
Definition set_delete (l : list jsstr) (x : jsstr) : list jsstr := filter (λ y, y ≠ x) l.

(** [let set = m.get(t); if (!set) { set = new Set(); m.set(t, set) }; set.add(key)] *)
Definition table_add (m : list (jsstr * list jsstr)) (t key : jsstr) : list (jsstr * list jsstr) :=
  jm_set m t (set_add (default [] (jm_get m t)) key).

(** [m.get(t)?.delete(key)] *)
Definition table_delete (m : list (jsstr * list jsstr)) (t key : jsstr) : list (jsstr * list jsstr) :=
  match jm_get m t with Some s => jm_set m t (set_delete s key) | None => m end.

(** ** The indexes *)
Record ReadIndex := {
  byTable : list (jsstr * list jsstr);
  byRange : IntervalIndex jsstr;
  tableFallbackKeys : list jsstr;
  deserializedRanges : list (jsstr * list KeyRange) }.

Definition new_ReadIndex : ReadIndex :=
  {| byTable := []; byRange := ix_new; tableFallbackKeys := []; deserializedRanges := [] |}.

(** [index]: a read range that does not decode throws after the tables were indexed. *)
Definition index (ri : ReadIndex) (key : jsstr) (readRanges : list SerializedKeyRange) (tables : list jsstr)
    : ReadIndex * res unit :=
  let bt := fold_left (λ m t, table_add m t key) tables (byTable ri) in
  match readRanges with
  | [] => ({| byTable := bt; byRange := byRange ri; tableFallbackKeys := set_add (tableFallbackKeys ri) key;
              deserializedRanges := deserializedRanges ri |}, Ok tt)
  | _ =>
      match traverse deserializeKeyRange readRanges with
      | Err e => ({| byTable := bt; byRange := byRange ri; tableFallbackKeys := tableFallbackKeys ri;
                     deserializedRanges := deserializedRanges ri |}, Err e)
      | Ok ranges =>
          ({| byTable := bt; byRange := fold_left (λ ix r, ix_insert id ix r key) ranges (byRange ri);
              tableFallbackKeys := tableFallbackKeys ri;
              deserializedRanges := jm_set (deserializedRanges ri) key ranges |}, Ok tt)
      end
  end.

Definition unindex (ri : ReadIndex) (key : jsstr) (tables : list jsstr) : ReadIndex :=
  let bt := fold_left (λ m t, table_delete m t key) tables (byTable ri) in
  let fb := set_delete (tableFallbackKeys ri) key in
  match jm_get (deserializedRanges ri) key with
  | Some ranges =>
      {| byTable := bt; byRange := fold_left (λ ix r, ix_remove id ix r key) ranges (byRange ri);
         tableFallbackKeys := fb; deserializedRanges := jm_delete (deserializedRanges ri) key |}
  | None =>
      {| byTable := bt; byRange := byRange ri; tableFallbackKeys := fb; deserializedRanges := deserializedRanges ri |}
  end.

(** The keys of the entries a write touches, collected in a [Set]: the overlap query of every write
    range, then the fallback keys of every written table. *)
Definition matchedKeys (ri : ReadIndex) (writeRanges : list SerializedKeyRange) (writeTables : list jsstr)
    : res (list jsstr) :=
  let! wrs := traverse deserializeKeyRange writeRanges in
  let keys := fold_left (λ ks w, fold_left set_add (queryOverlaps (byRange ri) w) ks) wrs [] in
  Ok (fold_left (λ ks t, fold_left (λ ks key, if bool_decide (key ∈ tableFallbackKeys ri) then set_add ks key else ks)
        (default [] (jm_get (byTable ri) t)) ks) writeTables keys).

(** ** Subscriptions ([classify.ts] for the read descriptors) *)
Record ByIdRead := { bi_keyspace : jsstr; bi_key : jsstr; bi_docId : jsstr }.
Record PageMeta := { pm_nextCursor : option jsstr; pm_hasMore : bool; pm_scanCapped : bool }.
Record RangeRead := {
  rr_keyspace : jsstr; rr_bounds : SerializedKeyRange; rr_filters : list FilterExpr; rr_order : Order;
  rr_fields : list jsstr; rr_pageMeta : option PageMeta }.

Record Subscription := {
  sessionId : jsstr; queryId : Z; udfPath : jsstr; args : json;
  tables : list jsstr; readRanges : list SerializedKeyRange; globalTables : option (list jsstr);
  byId : option ByIdRead; range : option RangeRead; resumeKey : option jsstr }.

Definition subKey (sid : jsstr) (qid : Z) : jsstr := sid ++ 32 :: string_of_int qid.
Definition sub_key (sub : Subscription) : jsstr := subKey (sessionId sub) (queryId sub).

Record SubscriptionManager := {
  byKey : list (jsstr * Subscription);
  sm_index : ReadIndex;
  byGlobalTable : list (jsstr * list jsstr) }.

Definition new_SubscriptionManager : SubscriptionManager :=
  {| byKey := []; sm_index := new_ReadIndex; byGlobalTable := [] |}.

(** A global table whose last subscriber leaves is dropped from the map. *)
Definition global_delete (m : list (jsstr * list jsstr)) (t key : jsstr) : list (jsstr * list jsstr) :=
  match jm_get m t with
  | Some s => match set_delete s key with [] => jm_delete m t | s' => jm_set m t s' end
  | None => m
  end.

Definition removeKey (s : SubscriptionManager) (key : jsstr) : SubscriptionManager :=
  match jm_get (byKey s) key with
  | None => s
  | Some existing =>
      {| byKey := jm_delete (byKey s) key;
         sm_index := unindex (sm_index s) key (tables existing);
         byGlobalTable := fold_left (λ m t, global_delete m t key) (default [] (globalTables existing)) (byGlobalTable s) |}
  end.

Definition add (s : SubscriptionManager) (sub : Subscription) : SubscriptionManager * res unit :=
  let key := sub_key sub in
  let s := removeKey s key in
  let bk := jm_set (byKey s) key sub in
  match index (sm_index s) key (readRanges sub) (tables sub) with
  | (ri, Err e) => ({| byKey := bk; sm_index := ri; byGlobalTable := byGlobalTable s |}, Err e)
  | (ri, Ok _) =>
      ({| byKey := bk; sm_index := ri;
          byGlobalTable := fold_left (λ m t, table_add m t key) (default [] (globalTables sub)) (byGlobalTable s) |}, Ok tt)
  end.

Definition remove (s : SubscriptionManager) (sid : jsstr) (qid : Z) : SubscriptionManager := removeKey s (subKey sid qid).

Definition removeSession (s : SubscriptionManager) (sid : jsstr) : SubscriptionManager :=
  let prefix := sid ++ [32] in
  fold_left (λ s key, if starts_with prefix key then removeKey s key else s) (jm_keys (byKey s)) s.

Definition sm_get (s : SubscriptionManager) (sid : jsstr) (qid : Z) : option Subscription := jm_get (byKey s) (subKey sid qid).

Definition findAffectedByRanges (s : SubscriptionManager) (writeRanges : list SerializedKeyRange) (writeTables : list jsstr)
    : res (list Subscription) :=
  let! keys := matchedKeys (sm_index s) writeRanges writeTables in
  let keys := fold_left (λ ks t, fold_left set_add (default [] (jm_get (byGlobalTable s) t)) ks) writeTables keys in
  Ok (omap (jm_get (byKey s)) keys).

Definition findAffectedByTables (s : SubscriptionManager) (ts : list jsstr) : list Subscription :=
  jm_values (fold_left (λ out t,
    fold_left (λ out key, match jm_get (byKey s) key with Some sub => jm_set out key sub | None => out end)
      (default [] (jm_get (byTable (sm_index s)) t)) out) ts []).

Definition forSession (s : SubscriptionManager) (sid : jsstr) : list Subscription :=
  let prefix := sid ++ [32] in
  (filter (λ p, starts_with prefix p.1 = true) (byKey s)).*2.

Definition sm_size (s : SubscriptionManager) : nat := length (byKey s).
Definition subscribedGlobalTables (s : SubscriptionManager) : list jsstr := jm_keys (byGlobalTable s).

(** ** The resume registry *)
Definition TTL_MS : Z := 60000.

Record ResumeEntry := {
  re_readRanges : list SerializedKeyRange; re_tables : list jsstr; re_globalTables : list jsstr;
  lastInvalidatedTs : Z; wasDiffable : bool; refCount : Z; expiresAtMs : option Z }.

Record ResumeRegistry := { rg_entries : list (jsstr * ResumeEntry); rg_index : ReadIndex }.
Definition new_ResumeRegistry : ResumeRegistry := {| rg_entries := []; rg_index := new_ReadIndex |}.

Definition rg_unindex (g : ResumeRegistry) (key : jsstr) : ReadIndex :=
  match jm_get (rg_entries g) key with None => rg_index g | Some e => unindex (rg_index g) key (re_tables e) end.

Definition upsert (g : ResumeRegistry) (key : jsstr) (ranges : list SerializedKeyRange) (ts : list jsstr) (atTs : Z)
    (diffable : bool) (globals : list jsstr) : ResumeRegistry * res unit :=
  let existing := jm_get (rg_entries g) key in
  let last := Z.max (match existing with Some e => lastInvalidatedTs e | None => atTs end) atTs in
  let count := match existing with Some e => refCount e | None => 0 end in
  let ri := rg_unindex g key in
  let es := jm_set (rg_entries g) key
    {| re_readRanges := ranges; re_tables := ts; re_globalTables := globals; lastInvalidatedTs := last;
       wasDiffable := diffable; refCount := count; expiresAtMs := None |} in
  let '(ri, r) := index ri key ranges ts in
  ({| rg_entries := es; rg_index := ri |}, r).

Definition with_last (e : ResumeEntry) (t : Z) : ResumeEntry :=
  {| re_readRanges := re_readRanges e; re_tables := re_tables e; re_globalTables := re_globalTables e;
     lastInvalidatedTs := t; wasDiffable := wasDiffable e; refCount := refCount e; expiresAtMs := expiresAtMs e |}.
Definition with_refs (e : ResumeEntry) (n : Z) (exp : option Z) : ResumeEntry :=
  {| re_readRanges := re_readRanges e; re_tables := re_tables e; re_globalTables := re_globalTables e;
     lastInvalidatedTs := lastInvalidatedTs e; wasDiffable := wasDiffable e; refCount := n; expiresAtMs := exp |}.

Definition advance_entry (es : list (jsstr * ResumeEntry)) (commitTs : Z) (key : jsstr) : list (jsstr * ResumeEntry) :=
  match jm_get es key with
  | Some e => jm_set es key (with_last e (Z.max (lastInvalidatedTs e) commitTs))
  | None => es
  end.

Definition advanceOnCommit (g : ResumeRegistry) (writtenRanges : list SerializedKeyRange) (writtenTables : list jsstr)
    (commitTs : Z) : res ResumeRegistry :=
  let! keys := matchedKeys (rg_index g) writtenRanges writtenTables in
  Ok {| rg_entries := fold_left (λ es k, advance_entry es commitTs k) keys (rg_entries g); rg_index := rg_index g |}.

Record ResumeLookup := {
  rl_readRanges : list SerializedKeyRange; rl_tables : list jsstr; rl_globalTables : list jsstr;
  rl_lastInvalidatedTs : Z; rl_wasDiffable : bool }.

Definition rg_lookup (g : ResumeRegistry) (key : jsstr) : option ResumeLookup :=
  match jm_get (rg_entries g) key with
  | None => None
  | Some e => Some {| rl_readRanges := re_readRanges e; rl_tables := re_tables e; rl_globalTables := re_globalTables e;
                      rl_lastInvalidatedTs := lastInvalidatedTs e; rl_wasDiffable := wasDiffable e |}
  end.

Definition rg_retain (g : ResumeRegistry) (key : jsstr) : ResumeRegistry :=
  match jm_get (rg_entries g) key with
  | None => g
  | Some e => {| rg_entries := jm_set (rg_entries g) key (with_refs e (refCount e + 1) None); rg_index := rg_index g |}
  end.

Definition rg_release (g : ResumeRegistry) (key : jsstr) (nowMs : Z) : ResumeRegistry :=
  match jm_get (rg_entries g) key with
  | None => g
  | Some e =>
      let n := refCount e - 1 in
      {| rg_entries := jm_set (rg_entries g) key (with_refs e n (if n <=? 0 then Some (nowMs + TTL_MS) else expiresAtMs e));
         rg_index := rg_index g |}
  end.

Definition expired (e : ResumeEntry) (nowMs : Z) : bool :=
  (refCount e <=? 0) && match expiresAtMs e with Some t => t <=? nowMs | None => false end.

(** [sweep]: deleting the visited key does not disturb the iteration of a [Map]. *)
Definition sweep (g : ResumeRegistry) (nowMs : Z) : ResumeRegistry :=
  fold_left (λ g '(key, e),
    if expired e nowMs then {| rg_index := rg_unindex g key; rg_entries := jm_delete (rg_entries g) key |} else g)
    (rg_entries g) g.

(** ** Facts about the indexes *)
Section fold_sets.
Context {A : Type} (f : list jsstr → A → list jsstr) (P : A → jsstr → Prop).

Lemma fold_sets_elem (Hf : ∀ l a y, y ∈ f l a ↔ y ∈ l ∨ P a y) xs l y : y ∈ fold_left f xs l ↔ y ∈ l ∨ ∃ a, a ∈ xs ∧ P a y.
Proof.
  revert l. induction xs as [|x xs IH]; intros l; simpl.
  - split; [by left|]. intros [?|(a & Ha & _)]; [done|]. by apply elem_of_nil in Ha.
  - rewrite IH, Hf. split.
    + intros [[?|?]|(a & ? & ?)]; [by left|right; exists x; set_solver|right; exists a; set_solver].
    + intros [?|(a & [->|?]%elem_of_cons & ?)]; [by do 2 left|by left; right|right; by exists a].
Qed.

Lemma fold_sets_nodup (Hn : ∀ l a, NoDup l → NoDup (f l a)) xs l : NoDup l → NoDup (fold_left f xs l).
Proof. revert l. induction xs as [|x xs IH]; intros l H; simpl; auto. Qed.
End fold_sets.

Lemma set_delete_elem l x y : y ∈ set_delete l x ↔ y ∈ l ∧ y ≠ x.
Proof. unfold set_delete. rewrite list_elem_of_filter. tauto. Qed.

(** The members of a table's set in a table index. *)
Definition members (m : list (jsstr * list jsstr)) (t : jsstr) : list jsstr := default [] (jm_get m t).

Lemma table_add_members m t key t' k : k ∈ members (table_add m t key) t' ↔ k ∈ members m t' ∨ (k = key ∧ t' = t).
Proof.
  unfold members, table_add. rewrite jm_get_set. case_decide; [subst; simpl; rewrite set_add_in|]; naive_solver.
Qed.

Lemma table_delete_members m t key t' k : k ∈ members (table_delete m t key) t' ↔ k ∈ members m t' ∧ ¬ (k = key ∧ t' = t).
Proof.
  unfold members, table_delete. destruct (jm_get m t) as [s|] eqn:E.
  - rewrite jm_get_set. case_decide; [subst; rewrite E; simpl; rewrite set_delete_elem|]; naive_solver.
  - split; [|tauto]. intros Hk. split; [done|]. intros [-> ->]. rewrite E in Hk. by apply elem_of_nil in Hk.
Qed.

Lemma global_delete_ok m t key : jm_ok m → jm_ok (global_delete m t key).
Proof. intros H. unfold global_delete. repeat case_match; auto with jmap. Qed.

Lemma global_delete_members m t key t' k : jm_ok m →
  k ∈ members (global_delete m t key) t' ↔ k ∈ members m t' ∧ ¬ (k = key ∧ t' = t).
Proof.
  intros Hm. rewrite <-table_delete_members. unfold members, global_delete, table_delete.
  destruct (jm_get m t) as [s|] eqn:E; [|done]. destruct (set_delete s key) as [|x l] eqn:El.
  - rewrite jm_get_delete, jm_get_set by done. by case_decide.
  - done.
Qed.

Lemma fold_table_add m key ts t k : k ∈ members (fold_left (λ m t, table_add m t key) ts m) t ↔
  k ∈ members m t ∨ (k = key ∧ t ∈ ts).
Proof.
  revert m. induction ts as [|x ts IH]; intros m; simpl; [set_solver|]. rewrite IH, table_add_members. set_solver.
Qed.

Lemma fold_table_delete m key ts t k : k ∈ members (fold_left (λ m t, table_delete m t key) ts m) t ↔
  k ∈ members m t ∧ ¬ (k = key ∧ t ∈ ts).
Proof.
  revert m. induction ts as [|x ts IH]; intros m; simpl; [set_solver|]. rewrite IH, table_delete_members. set_solver.
Qed.

Lemma fold_global_delete m key ts : jm_ok m → let m' := fold_left (λ m t, global_delete m t key) ts m in
  jm_ok m' ∧ ∀ t k, k ∈ members m' t ↔ k ∈ members m t ∧ ¬ (k = key ∧ t ∈ ts).
Proof.
  revert m. induction ts as [|x ts IH]; intros m Hm; simpl; [split; [done|]; set_solver|].
  destruct (IH (global_delete m x key)) as [H1 H2]; [by apply global_delete_ok|]. split; [done|].
  intros t k. rewrite H2, global_delete_members by done. set_solver.
Qed.

(** ** The interval index as a set of pairs *)
Definition same_pairs (ix : IntervalIndex jsstr) (P : KeyRange → jsstr → Prop) : Prop :=
  ∃ a, refines id ix a ∧ ∀ r k, (r, k) ∈ a ↔ P r k.

Lemma same_pairs_insert ix P r key : same_pairs ix P →
  same_pairs (ix_insert id ix r key) (λ r' k, P r' k ∨ (r' = r ∧ k = key)).
Proof.
  intros (a & Ha & HP). eexists. split; [by apply refines_insert|]. intros r' k. rewrite <-HP. cbn [spec_step].
  case_decide as Hx.
  - split; [by left|]. intros [?|[-> ->]]; [done|].
    apply Exists_exists in Hx as ([r0 k0] & Hin & [H1 H2]). simpl in *. by subst.
  - rewrite elem_of_app, list_elem_of_singleton. naive_solver.
Qed.

Lemma same_pairs_remove ix P r key : same_pairs ix P →
  same_pairs (ix_remove id ix r key) (λ r' k, P r' k ∧ ¬ (r' = r ∧ k = key)).
Proof.
  intros (a & Ha & HP). eexists. split; [by apply refines_remove|]. intros r' k. rewrite <-HP. cbn [spec_step].
  rewrite list_elem_of_filter. unfold same_entry. simpl. tauto.
Qed.

Lemma same_pairs_iff ix P Q : same_pairs ix P → (∀ r k, P r k ↔ Q r k) → same_pairs ix Q.
Proof. intros (a & Ha & HP) H. exists a. split; [done|]. intros r k. by rewrite HP. Qed.

Lemma same_pairs_inserts ix P rs key : same_pairs ix P →
  same_pairs (fold_left (λ ix r, ix_insert id ix r key) rs ix) (λ r k, P r k ∨ (k = key ∧ r ∈ rs)).
Proof.
  revert ix P. induction rs as [|x rs IH]; intros ix P H; simpl.
  - apply (same_pairs_iff _ _ _ H). set_solver.
  - eapply same_pairs_iff; [by apply IH, same_pairs_insert|]. set_solver.
Qed.

Lemma same_pairs_removes ix P rs key : same_pairs ix P →
  same_pairs (fold_left (λ ix r, ix_remove id ix r key) rs ix) (λ r k, P r k ∧ ¬ (k = key ∧ r ∈ rs)).
Proof.
  revert ix P. induction rs as [|x rs IH]; intros ix P H; simpl.
  - apply (same_pairs_iff _ _ _ H). set_solver.
  - eapply same_pairs_iff; [by apply IH, same_pairs_remove|]. set_solver.
Qed.

Lemma same_pairs_query ix P q k : same_pairs ix P →
  k ∈ queryOverlaps ix q ↔ ∃ r, P r k ∧ rangesOverlap r q = true.
Proof.
  intros (a & Ha & HP). rewrite (queryOverlaps_refines id ix a q Ha). unfold spec_query.
  rewrite list_elem_of_In, in_map_iff. split.
  - intros ([r k'] & <- & Hin). apply filter_In in Hin as [Hin Ho]. exists r. split; [|done].
    by apply HP, list_elem_of_In.
  - intros (r & Hr & Ho). exists (r, k). split; [done|]. apply filter_In. split; [|done]. by apply list_elem_of_In, HP.
Qed.

(** ** The indexes represent the registered read sets *)
Abbreviation ReadSet := (list SerializedKeyRange * list jsstr)%type.

(** The decoded ranges kept for a read set with ranges. *)
Definition decode (l : list SerializedKeyRange) : option (list KeyRange) :=
  match l with [] => None | _ => match traverse deserializeKeyRange l with Ok rs => Some rs | Err _ => None end end.

Record ri_ok (ri : ReadIndex) (reg : jsstr → option ReadSet) : Prop := {
  ro_decodes : ∀ k rd, reg k = Some rd → ∃ rs, traverse deserializeKeyRange rd.1 = Ok rs;
  ro_table : ∀ t k, k ∈ members (byTable ri) t ↔ ∃ rd, reg k = Some rd ∧ t ∈ rd.2;
  ro_fallback : ∀ k, k ∈ tableFallbackKeys ri ↔ ∃ ts, reg k = Some ([], ts);
  ro_keys : jm_ok (deserializedRanges ri);
  ro_decoded : ∀ k, jm_get (deserializedRanges ri) k = reg k ≫= λ rd, decode rd.1;
  ro_ranges : same_pairs (byRange ri) (λ r k, ∃ rd rs, reg k = Some rd ∧ decode rd.1 = Some rs ∧ r ∈ rs) }.

Definition reg_set (reg : jsstr → option ReadSet) (key : jsstr) (o : option ReadSet) (k : jsstr) : option ReadSet :=
  if decide (k = key) then o else reg k.

Lemma reg_set_eq reg key o : reg_set reg key o key = o.
Proof. unfold reg_set. by case_decide. Qed.
Lemma reg_set_ne reg key o k : k ≠ key → reg_set reg key o k = reg k.
Proof. unfold reg_set. by case_decide. Qed.

Lemma ri_ok_ext ri reg reg' : (∀ k, reg k = reg' k) → ri_ok ri reg → ri_ok ri reg'.
Proof.
  intros H [H1 H2 H3 H4 H5 H6]. split.
  - intros k rd. rewrite <-H. apply H1.
  - intros t k. rewrite <-H. apply H2.
  - intros k. rewrite <-H. apply H3.
  - done.
  - intros k. by rewrite <-H.
  - eapply same_pairs_iff; [done|]. intros r k. cbn beta. by rewrite H.
Qed.

Lemma new_ReadIndex_ok : ri_ok new_ReadIndex (λ _, None).
Proof.
  split; try done; simpl.
  - intros t k. split; [by intros ?%elem_of_nil|naive_solver].
  - intros k. split; [by intros ?%elem_of_nil|naive_solver].
  - apply NoDup_nil_2.
  - exists []. split; [apply refines_new|]. intros r k. split; [by intros ?%elem_of_nil|naive_solver].
Qed.

Lemma index_ok ri reg key ranges ts rs : ri_ok ri reg → reg key = None →
  traverse deserializeKeyRange ranges = Ok rs →
  ∃ ri', index ri key ranges ts = (ri', Ok tt) ∧ ri_ok ri' (reg_set reg key (Some (ranges, ts))).
Proof.
  intros [H1 H2 H3 H4 H5 H6] Hk Hrs.
  assert (Hd : ∀ k rd, reg_set reg key (Some (ranges, ts)) k = Some rd → ∃ rs, traverse deserializeKeyRange rd.1 = Ok rs).
  { intros k rd. unfold reg_set. case_decide; [|apply H1]. intros [= <-]. by exists rs. }
  assert (Ht : ∀ t k, k ∈ members (fold_left (λ m t, table_add m t key) ts (byTable ri)) t ↔
    ∃ rd, reg_set reg key (Some (ranges, ts)) k = Some rd ∧ t ∈ rd.2).
  { intros t k. rewrite fold_table_add, H2. destruct (decide (k = key)) as [->|Hne].
    - rewrite reg_set_eq, Hk. naive_solver.
    - rewrite reg_set_ne by done. naive_solver. }
  unfold index. destruct ranges as [|r0 ranges]; [|rewrite Hrs]; eexists; (split; [done|]); split; try done; simpl.
  - intros k. rewrite set_add_in, H3. destruct (decide (k = key)) as [->|Hne].
    + rewrite reg_set_eq. naive_solver.
    + rewrite reg_set_ne by done. naive_solver.
  - intros k. rewrite H5. destruct (decide (k = key)) as [->|Hne]; [by rewrite reg_set_eq, Hk|by rewrite reg_set_ne].
  - eapply same_pairs_iff; [done|]. intros r k.
    destruct (decide (k = key)) as [->|Hne]; [rewrite reg_set_eq, Hk; naive_solver|by rewrite reg_set_ne].
  - intros k. rewrite H3. destruct (decide (k = key)) as [->|Hne]; [rewrite reg_set_eq, Hk; naive_solver|by rewrite reg_set_ne].
  - by apply jm_set_ok.
  - intros k. rewrite jm_get_set, H5. unfold reg_set. case_decide; [|done]. cbn [mbind option_bind fst decode]. by rewrite Hrs.
  - eapply same_pairs_iff; [by apply same_pairs_inserts|]. intros r k. cbn beta.
    destruct (decide (k = key)) as [->|Hne].
    + rewrite reg_set_eq, Hk. assert (Hdec : decode (r0 :: ranges) = Some rs) by (cbn [decode]; by rewrite Hrs).
      split; [intros [(?&?&?&_)|[_ Hr]]; [done|]; by exists (r0 :: ranges, ts), rs|].
      intros (rd & rs' & [= <-] & Hdec' & Hr). cbn [fst] in Hdec'. rewrite Hdec in Hdec'. right. naive_solver.
    + rewrite reg_set_ne by done. naive_solver.
Qed.

Lemma unindex_ok ri reg key rd : ri_ok ri reg → reg key = Some rd →
  ri_ok (unindex ri key rd.2) (reg_set reg key None).
Proof.
  intros [H1 H2 H3 H4 H5 H6] Hk.
  assert (Hd : ∀ k rd, reg_set reg key None k = Some rd → ∃ rs, traverse deserializeKeyRange rd.1 = Ok rs).
  { intros k rd'. unfold reg_set. case_decide; [done|apply H1]. }
  assert (Ht : ∀ t k, k ∈ members (fold_left (λ m t, table_delete m t key) rd.2 (byTable ri)) t ↔
    ∃ rd', reg_set reg key None k = Some rd' ∧ t ∈ rd'.2).
  { intros t k. rewrite fold_table_delete, H2. destruct (decide (k = key)) as [->|Hne].
    - rewrite reg_set_eq, Hk. naive_solver.
    - rewrite reg_set_ne by done. naive_solver. }
  assert (Hf : ∀ k, k ∈ set_delete (tableFallbackKeys ri) key ↔ ∃ ts, reg_set reg key None k = Some ([], ts)).
  { intros k. rewrite set_delete_elem, H3. destruct (decide (k = key)) as [->|Hne].
    - rewrite reg_set_eq. naive_solver.
    - rewrite reg_set_ne by done. naive_solver. }
  assert (Hkey : jm_get (deserializedRanges ri) key = decode rd.1) by (by rewrite H5, Hk).
  unfold unindex. destruct (jm_get (deserializedRanges ri) key) as [rs|] eqn:E; split; try done; simpl.
  - by apply jm_delete_ok.
  - intros k. rewrite jm_get_delete, H5 by done. unfold reg_set. by case_decide.
  - eapply same_pairs_iff; [by apply same_pairs_removes|]. intros r k. cbn beta.
    destruct (decide (k = key)) as [->|Hne].
    + rewrite reg_set_eq. split; [|naive_solver]. intros [(rd' & rs' & E1 & E2 & Hr) Hn]. exfalso. apply Hn.
      rewrite Hk in E1. injection E1 as <-. rewrite <-Hkey in E2. by injection E2 as <-.
    + rewrite reg_set_ne by done. naive_solver.
  - intros k. rewrite H5. unfold reg_set. case_decide; [|done]. subst. rewrite Hk. cbn [mbind option_bind]. by rewrite <-Hkey.
  - eapply same_pairs_iff; [done|]. intros r k. cbn beta.
    destruct (decide (k = key)) as [->|Hne]; [|by rewrite reg_set_ne].
    rewrite reg_set_eq. split; [|naive_solver]. intros (rd' & rs' & E1 & E2 & Hr).
    rewrite Hk in E1. injection E1 as <-. by rewrite <-Hkey in E2.
Qed.

(** ** What a write touches, by a linear scan *)
Definition touches (rd : ReadSet) (wrs : list KeyRange) (wts : list jsstr) : bool :=
  match rd.1 with
  | [] => existsb (λ t, bool_decide (t ∈ wts)) rd.2
  | l => match traverse deserializeKeyRange l with
         | Ok rs => existsb (λ r, existsb (rangesOverlap r) wrs) rs
         | Err _ => false
         end
  end.

Lemma matched_ok ri reg writeRanges wrs wts : ri_ok ri reg →
  traverse deserializeKeyRange writeRanges = Ok wrs →
  ∃ ks, matchedKeys ri writeRanges wts = Ok ks ∧ NoDup ks ∧
    ∀ k, k ∈ ks ↔ ∃ rd, reg k = Some rd ∧ touches rd wrs wts = true.
Proof.
  intros Hri Hw. unfold matchedKeys. rewrite Hw. cbn [res_bind]. eexists. split; [done|]. split.
  - apply fold_sets_nodup; [|apply fold_sets_nodup; [|constructor]].
    + intros l t Hl. apply fold_sets_nodup; [|done]. intros l' k Hl'. case_bool_decide; auto using set_add_nodup.
    + intros l w Hl. by apply fold_set_add_nodup.
  - intros k. rewrite (fold_sets_elem _ (λ t k, k ∈ members (byTable ri) t ∧ k ∈ tableFallbackKeys ri)).
    2:{ intros l t y. rewrite (fold_sets_elem _ (λ key y, y = key ∧ key ∈ tableFallbackKeys ri)).
        - unfold members. naive_solver.
        - intros l' a y'. case_bool_decide; [rewrite set_add_in|]; naive_solver. }
    rewrite (fold_sets_elem _ (λ w k, k ∈ queryOverlaps (byRange ri) w)) by (intros; rewrite fold_set_add; tauto).
    setoid_rewrite (same_pairs_query _ _ _ _ (ro_ranges _ _ Hri)). setoid_rewrite (ro_table _ _ Hri).
    setoid_rewrite (ro_fallback _ _ Hri). unfold touches. split.
    + intros [[Hn|(w & Hin & r & (rd & rs & E & Hdec & Hr) & Ho)]|(t & Hin & (rd & E & Ht) & ts & E')].
      * by apply elem_of_nil in Hn.
      * exists rd. split; [done|]. destruct rd as [[|r0 l0] ts]; [done|].
        cbn [fst decode] in *. destruct (traverse _ (r0 :: l0)) as [rs0|]; [|done]. injection Hdec as ->. apply existsb_Exists. exists r. split; [done|].
        apply existsb_Exists. by exists w.
      * exists rd. split; [done|]. rewrite E in E'. injection E' as ->. simpl in *. apply existsb_Exists.
        exists t. split; [done|]. by apply bool_decide_eq_true.
    + intros (rd & E & Ht). destruct rd as [[|r0 l0] ts]; cbn [fst snd] in Ht.
      * right. apply existsb_Exists in Ht as (t & Hin & Hd%bool_decide_eq_true). exists t. naive_solver.
      * left. right. destruct (traverse _ (r0 :: l0)) as [rs|e] eqn:Er; [|done].
        apply existsb_Exists in Ht as (r & Hr & (w & Hin & Ho)%existsb_Exists).
        exists w. split; [done|]. exists r. split; [|done]. exists (r0 :: l0, ts), rs. split_and!; try done.
        cbn [fst decode]. by rewrite Er.
Qed.

(** ** The subscription manager refines a list of live subscriptions *)
Definition same_sub (sid : jsstr) (qid : Z) (sub : Subscription) : Prop := sessionId sub = sid ∧ queryId sub = qid.
#[global] Instance same_sub_dec sid qid sub : Decision (same_sub sid qid sub).
Proof. unfold same_sub. apply _. Defined.

Inductive sm_op :=
  | SmAdd (sub : Subscription)
  | SmRemove (sid : jsstr) (qid : Z)
  | SmRemoveSession (sid : jsstr).

Definition sm_step (s : SubscriptionManager) (op : sm_op) : SubscriptionManager :=
  match op with
  | SmAdd sub => (add s sub).1
  | SmRemove sid qid => remove s sid qid
  | SmRemoveSession sid => removeSession s sid
  end.
Definition sm_run (ops : list sm_op) : SubscriptionManager := fold_left sm_step ops new_SubscriptionManager.

Definition live_step (l : list Subscription) (op : sm_op) : list Subscription :=
  match op with
  | SmAdd sub => filter (λ x, ¬ same_sub (sessionId sub) (queryId sub) x) l ++ [sub]
  | SmRemove sid qid => filter (λ x, ¬ same_sub sid qid x) l
  | SmRemoveSession sid => filter (λ x, sessionId x ≠ sid) l
  end.
Definition live_run (ops : list sm_op) : list Subscription := fold_left live_step ops [].

(** Session ids have no space in them, and read ranges come from [serializeKeyRange]. *)
Definition decodes (l : list SerializedKeyRange) : bool :=
  match traverse deserializeKeyRange l with Ok _ => true | Err _ => false end.
Definition spaceless (s : jsstr) : bool := forallb (λ c, negb (c =? 32)) s.
Definition sub_wf (sub : Subscription) : bool := spaceless (sessionId sub) && decodes (readRanges sub).
Definition sm_op_ok (op : sm_op) : bool :=
  match op with
  | SmAdd sub => sub_wf sub
  | SmRemove sid _ => spaceless sid
  | SmRemoveSession sid => spaceless sid
  end.

Lemma spaceless_cons c s : spaceless (c :: s) = true ↔ c ≠ 32 ∧ spaceless s = true.
Proof. unfold spaceless. simpl. rewrite andb_true_iff, negb_true_iff, Z.eqb_neq. done. Qed.

Lemma space_split a b x y : spaceless a = true → spaceless b = true → a ++ 32 :: x = b ++ 32 :: y → a = b ∧ x = y.
Proof.
  revert b. induction a as [|c a IH]; intros [|d b]; rewrite ?spaceless_cons; simpl.
  - intros _ _ [= ->]. done.
  - intros _ [? _] [= <- _]. done.
  - intros [? _] _ [= -> _]. done.
  - intros [_ Ha] [_ Hb] [= <- E]. destruct (IH b Ha Hb E) as [-> ->]. done.
Qed.

Lemma subKey_inj sid qid sid' qid' : spaceless sid = true → spaceless sid' = true →
  subKey sid qid = subKey sid' qid' → sid = sid' ∧ qid = qid'.
Proof.
  intros H1 H2 H. apply (space_split _ _ _ _ H1 H2) in H as [-> H]. split; [done|]. by apply string_of_int_inj.
Qed.

(** A key starts with a session's prefix iff it is one of its keys. *)
Lemma prefix_subKey sid sid' qid : spaceless sid = true → spaceless sid' = true →
  starts_with (sid ++ [32]) (subKey sid' qid) = true ↔ sid' = sid.
Proof.
  unfold subKey. revert sid'. induction sid as [|c a IH]; intros [|d b]; rewrite ?spaceless_cons; cbn [app starts_with]; try done.
  - intros _ [Hd _]. rewrite andb_true_iff, Z.eqb_eq. naive_solver.
  - intros [Hc _] _. rewrite andb_true_iff, Z.eqb_eq. naive_solver.
  - intros [Hc Ha] [Hd Hb]. rewrite andb_true_iff, Z.eqb_eq, IH by done. naive_solver.
Qed.

Definition read_set (sub : Subscription) : ReadSet := (readRanges sub, tables sub).
Definition keyed (l : list Subscription) : list (jsstr * Subscription) := List.map (λ x, (sub_key x, x)) l.

Record sm_ok (s : SubscriptionManager) (live : list Subscription) : Prop := {
  so_keys : jm_ok (byKey s);
  so_live : byKey s = keyed live;
  so_wf : Forall (λ x, sub_wf x = true) live;
  so_index : ri_ok (sm_index s) (λ k, read_set <$> jm_get (byKey s) k);
  so_globals : jm_ok (byGlobalTable s);
  so_nonempty : ∀ t l, jm_get (byGlobalTable s) t = Some l → l ≠ [];
  so_global : ∀ t k, k ∈ members (byGlobalTable s) t ↔
    ∃ sub, jm_get (byKey s) k = Some sub ∧ t ∈ default [] (globalTables sub) }.

Lemma sub_wf_true sub : sub_wf sub = true ↔
  spaceless (sessionId sub) = true ∧ ∃ rs, traverse deserializeKeyRange (readRanges sub) = Ok rs.
Proof.
  unfold sub_wf, decodes. rewrite andb_true_iff. destruct (traverse _ _) as [rs|]; [|naive_solver].
  split; intros [? ?]; split; eauto.
Qed.

Lemma keyed_get live k sub : jm_ok (keyed live) → jm_get (keyed live) k = Some sub ↔ sub ∈ live ∧ k = sub_key sub.
Proof.
  intros H. rewrite jm_get_elem by done. unfold keyed. rewrite list_elem_of_In, in_map_iff. split.
  - intros (x & [= <- <-] & Hin). by rewrite list_elem_of_In.
  - intros [Hin ->]. exists sub. by rewrite <-list_elem_of_In.
Qed.

Lemma keyed_delete live key : jm_ok (keyed live) →
  jm_delete (keyed live) key = keyed (filter (λ x, sub_key x ≠ key) live).
Proof.
  unfold jm_ok, keyed. induction live as [|x l IH]; [done|]. cbn [List.map fmap list_fmap fst jm_delete].
  intros [Hx Hn]%NoDup_cons. destruct (decide (key = sub_key x)) as [->|Hne].
  - rewrite filter_cons_False by naive_solver. f_equal. symmetry. clear -Hx.
    induction l as [|y l IH]; [done|]. cbn [List.map fmap list_fmap fst] in Hx. apply not_elem_of_cons in Hx as [Hy Hx].
    rewrite filter_cons_True by naive_solver. f_equal. by apply IH.
  - rewrite filter_cons_True by naive_solver. cbn [List.map]. f_equal. by apply IH.
Qed.

Lemma global_delete_nonempty m t key t' l : jm_ok m → (∀ t l, jm_get m t = Some l → l ≠ []) →
  jm_get (global_delete m t key) t' = Some l → l ≠ [].
Proof.
  intros Hm H. unfold global_delete. destruct (jm_get m t) as [s|]; [|apply H]. destruct (set_delete s key) eqn:E.
  - rewrite jm_get_delete by done. case_decide; [done|apply H].
  - rewrite jm_get_set. case_decide; [by intros [= <-]|apply H].
Qed.

Lemma fold_global_delete_nonempty m key ts t l : jm_ok m → (∀ t l, jm_get m t = Some l → l ≠ []) →
  jm_get (fold_left (λ m t, global_delete m t key) ts m) t = Some l → l ≠ [].
Proof.
  revert m. induction ts as [|x ts IH]; intros m Hm H; simpl; [apply H|].
  apply IH; [by apply global_delete_ok|]. intros t' l' Hl'. by eapply global_delete_nonempty.
Qed.

Lemma fold_table_add_nonempty m key ts t l : (∀ t l, jm_get m t = Some l → l ≠ []) →
  jm_get (fold_left (λ m t, table_add m t key) ts m) t = Some l → l ≠ [].
Proof.
  revert m. induction ts as [|x ts IH]; intros m H; simpl; [apply H|]. apply IH. intros t' l'.
  unfold table_add. rewrite jm_get_set. case_decide; [|apply H]. intros [= <-] E.
  assert (Hin : key ∈ set_add (default [] (jm_get m x)) key) by (apply set_add_in; by left).
  rewrite E in Hin. by apply elem_of_nil in Hin.
Qed.

Lemma fold_table_add_ok m key ts : jm_ok m → jm_ok (fold_left (λ m t, table_add m t key) ts m).
Proof. revert m. induction ts as [|x ts IH]; intros m H; simpl; [done|]. apply IH. by apply jm_set_ok. Qed.

Lemma removeKey_ok s live key : sm_ok s live → sm_ok (removeKey s key) (filter (λ x, sub_key x ≠ key) live).
Proof.
  intros Hs. pose proof Hs as [H1 H2 H3 H4 H5 H6 H7]. unfold removeKey.
  destruct (jm_get (byKey s) key) as [sub|] eqn:E.
  - destruct (fold_global_delete (byGlobalTable s) key (default [] (globalTables sub)) H5) as [G1 G2].
    split; simpl.
    + by apply jm_delete_ok.
    + rewrite H2. apply keyed_delete. by rewrite <-H2.
    + apply Forall_forall. intros x [_ Hx]%list_elem_of_filter. rewrite Forall_forall in H3. auto.
    + eapply ri_ok_ext; [|apply (unindex_ok _ _ key (read_set sub) H4); by rewrite E].
      intros k. unfold reg_set. rewrite jm_get_delete by done. by case_decide.
    + done.
    + intros t l. by apply fold_global_delete_nonempty.
    + intros t k. rewrite G2, H7. setoid_rewrite jm_get_delete; [|done]. case_decide; [subst; rewrite E|]; naive_solver.
  - assert (Hf : filter (λ x, sub_key x ≠ key) live = live); [|by rewrite Hf].
    apply filter_all_in. intros x Hx Hk. rewrite H2 in E, H1.
    assert (jm_get (keyed live) key = Some x); [by apply keyed_get|congruence].
Qed.

Lemma filter_same_sub live sid qid : Forall (λ x, sub_wf x = true) live → spaceless sid = true →
  filter (λ x, sub_key x ≠ subKey sid qid) live = filter (λ x, ¬ same_sub sid qid x) live.
Proof.
  intros Hl Hs. apply filter_ext_in. intros x Hx. rewrite Forall_forall in Hl.
  apply Hl, sub_wf_true in Hx as [Hx _]. unfold same_sub, sub_key. split; intros H H'; apply H.
  - by destruct H' as [-> ->].
  - by apply subKey_inj in H'.
Qed.

Lemma remove_ok s live sid qid : sm_ok s live → spaceless sid = true →
  sm_ok (remove s sid qid) (filter (λ x, ¬ same_sub sid qid x) live).
Proof.
  intros Hs Hsid. rewrite <-(filter_same_sub live sid qid) by (done || apply Hs). by apply removeKey_ok.
Qed.

Lemma add_ok s live sub : sm_ok s live → sub_wf sub = true →
  (add s sub).2 = Ok tt ∧ sm_ok (add s sub).1 (live_step live (SmAdd sub)).
Proof.
  intros Hs Hw. pose proof Hw as [Hsp [rs Hrs]]%sub_wf_true.
  pose proof (remove_ok s live (sessionId sub) (queryId sub) Hs Hsp) as Hr. unfold remove in Hr.
  fold (sub_key sub) in Hr. unfold add. set (s' := removeKey s (sub_key sub)) in *.
  set (l' := filter _ live) in *. destruct Hr as [H1 H2 H3 H4 H5 H6 H7].
  assert (Hk : jm_get (byKey s') (sub_key sub) = None).
  { destruct (jm_get (byKey s') (sub_key sub)) as [x|] eqn:E; [|done]. rewrite H2 in E, H1.
    apply keyed_get in E as [[Hn Hin]%list_elem_of_filter E]; [|done]. exfalso. apply Hn.
    assert (Hx : sub_wf x = true) by (destruct Hs as [_ _ Hl _ _ _ _]; rewrite Forall_forall in Hl; by apply Hl).
    apply sub_wf_true in Hx as [Hx _]. unfold sub_key in E. apply subKey_inj in E as [-> ->]; done. }
  destruct (index_ok (sm_index s') _ (sub_key sub) (readRanges sub) (tables sub) rs H4) as (ri & -> & Hri);
    [by rewrite Hk|done|]. cbn [fst snd live_step]. fold l'. split; [done|]. split; simpl.
  - by apply jm_set_ok.
  - rewrite jm_set_fresh by (by apply jm_get_None). rewrite H2. unfold keyed. by rewrite map_app.
  - apply Forall_app. split; [done|]. by constructor.
  - eapply ri_ok_ext; [|exact Hri]. intros k. unfold reg_set. rewrite jm_get_set. by case_decide.
  - by apply fold_table_add_ok.
  - intros t l. by apply fold_table_add_nonempty.
  - intros t k. rewrite fold_table_add, H7. setoid_rewrite jm_get_set. case_decide; [subst; rewrite Hk|]; naive_solver.
Qed.

Lemma removeKeys_ok p ks s live : sm_ok s live →
  sm_ok (fold_left (λ s key, if starts_with p key then removeKey s key else s) ks s)
    (filter (λ x, ¬ (sub_key x ∈ ks ∧ starts_with p (sub_key x) = true)) live).
Proof.
  revert s live. induction ks as [|k ks IH]; intros s live Hs; cbn [fold_left].
  - rewrite filter_all_in; [done|]. intros x _ [H _]. by apply elem_of_nil in H.
  - destruct (starts_with p k) eqn:Ek.
    + eapply removeKey_ok, IH in Hs. rewrite list_filter_filter in Hs. erewrite filter_ext_in; [exact Hs|].
      intros x _. rewrite elem_of_cons. split.
      * intros H. split; [tauto|]. intros <-. tauto.
      * intros [H1 H2] [[<-|?] ?]; tauto.
    + erewrite filter_ext_in; [by apply IH|]. intros x _. rewrite elem_of_cons. split; [tauto|].
      intros H [[<-|?] ?]; [congruence|tauto].
Qed.

Lemma removeSession_ok s live sid : sm_ok s live → spaceless sid = true →
  sm_ok (removeSession s sid) (filter (λ x, sessionId x ≠ sid) live).
Proof.
  intros Hs Hsp. unfold removeSession. erewrite filter_ext_in; [by apply removeKeys_ok|]. intros x Hx.
  pose proof Hs as [_ H2 H3 _ _ _ _]. rewrite Forall_forall in H3. pose proof (H3 x Hx) as [Hw _]%sub_wf_true.
  unfold sub_key at 2. rewrite prefix_subKey by done. unfold jm_keys. rewrite H2.
  assert (sub_key x ∈ (keyed live).*1); [|naive_solver]. apply list_elem_of_fmap. exists (sub_key x, x). split; [done|].
  unfold keyed. apply list_elem_of_In, in_map_iff. exists x. by rewrite <-list_elem_of_In.
Qed.

Lemma new_sm_ok : sm_ok new_SubscriptionManager [].
Proof.
  split; try done; try apply NoDup_nil_2; simpl.
  - apply (ri_ok_ext _ (λ _, None)); [done|apply new_ReadIndex_ok].
  - intros t k. split; [by intros ?%elem_of_nil|naive_solver].
Qed.

Lemma sm_run_ok ops : forallb sm_op_ok ops = true → sm_ok (sm_run ops) (live_run ops).
Proof.
  unfold sm_run, live_run. generalize new_sm_ok. generalize new_SubscriptionManager, (@nil Subscription).
  induction ops as [|op ops IH]; intros s l Hs; cbn [forallb fold_left]; [done|].
  intros [H1 H2]%andb_true_iff. apply IH; [|done]. destruct op; simpl in *.
  - by apply add_ok.
  - by apply remove_ok.
  - by apply removeSession_ok.
Qed.

(** ** Queries *)
Definition meets (ts wts : list jsstr) : bool := existsb (λ t, bool_decide (t ∈ wts)) ts.

(** The retired linear scan: the write overlaps a read range, or (without read ranges) hits a read
    table, or hits a global table the subscription read. *)
Definition sub_affected (wrs : list KeyRange) (wts : list jsstr) (sub : Subscription) : bool :=
  touches (read_set sub) wrs wts || meets (default [] (globalTables sub)) wts.

Lemma so_get s live k sub : sm_ok s live → jm_get (byKey s) k = Some sub ↔ sub ∈ live ∧ k = sub_key sub.
Proof. intros [H1 H2 _ _ _ _ _]. rewrite H2 in H1 |- *. by apply keyed_get. Qed.

Lemma live_nodup s live : sm_ok s live → NoDup live.
Proof.
  intros [H1 H2 _ _ _ _ _]. rewrite H2 in H1. unfold jm_ok, keyed in H1.
  assert (E : (List.map (λ x, (sub_key x, x)) live).*1 = sub_key <$> live).
  { clear. induction live; simpl; f_equal; auto. }
  rewrite E in H1. by apply NoDup_fmap_1 in H1.
Qed.

(** A duplicate-free list of keys that selects the subscriptions satisfying [P] yields them once. *)
Lemma select_live s live ks (P : Subscription → Prop) `{!∀ x, Decision (P x)} : sm_ok s live → NoDup ks →
  (∀ k, k ∈ ks ↔ ∃ sub, jm_get (byKey s) k = Some sub ∧ P sub) →
  omap (jm_get (byKey s)) ks ≡ₚ filter P live.
Proof.
  intros Hs Hnd Hks. apply NoDup_Permutation.
  - assert (Hall : ∀ k, k ∈ ks → ∃ sub, jm_get (byKey s) k = Some sub ∧ sub_key sub = k).
    { intros k (sub & E & _)%Hks. exists sub. split; [done|]. by apply (so_get s live) in E as [_ ->]. }
    clear Hks. assert (E : sub_key <$> omap (jm_get (byKey s)) ks = ks).
    { clear Hnd. induction ks as [|k ks IH]; [done|]. destruct (Hall k) as (sub & E & Ek); [left|].
      cbn [omap list_omap]. rewrite E. cbn [fmap list_fmap]. f_equal; [done|]. apply IH. intros; apply Hall; by right. }
    rewrite <-E in Hnd. by apply NoDup_fmap_1 in Hnd.
  - apply NoDup_filter. by eapply live_nodup.
  - intros sub. rewrite list_elem_of_omap, list_elem_of_filter. split.
    + intros (k & (sub' & E' & HP)%Hks & E). rewrite E in E'. injection E' as <-. apply (so_get s live) in E; naive_solver.
    + intros [HP Hin]. assert (E : jm_get (byKey s) (sub_key sub) = Some sub) by (by apply (so_get s live)).
      exists (sub_key sub). split; [|done]. apply Hks. by exists sub.
Qed.

Lemma findAffectedByRanges_ok s live writeRanges wrs wts : sm_ok s live →
  traverse deserializeKeyRange writeRanges = Ok wrs →
  ∃ out, findAffectedByRanges s writeRanges wts = Ok out ∧ out ≡ₚ filter (λ x, sub_affected wrs wts x = true) live.
Proof.
  intros Hs Hw. destruct (matched_ok _ _ _ _ wts (so_index _ _ Hs) Hw) as (ks & Hm & Hnd & Hks).
  unfold findAffectedByRanges. rewrite Hm. cbn [res_bind]. eexists. split; [done|]. apply select_live; [done| |].
  - apply fold_sets_nodup; [|done]. intros l t Hl. by apply fold_set_add_nodup.
  - intros k. rewrite (fold_sets_elem _ (λ t k, k ∈ members (byGlobalTable s) t))
      by (intros; rewrite fold_set_add; unfold members; tauto).
    setoid_rewrite (so_global _ _ Hs). rewrite Hks. unfold sub_affected, meets. setoid_rewrite orb_true_iff.
    setoid_rewrite existsb_Exists. setoid_rewrite bool_decide_eq_true. split.
    + intros [(rd & E & Ht)|(t & Hin & sub & E & Ht)].
      * destruct (jm_get (byKey s) k) as [sub|]; [|done]. injection E as <-. exists sub. auto.
      * exists sub. split; [done|]. right. by exists t.
    + intros (sub & E & [Ht|(t & Ht & Hin)]).
      * left. exists (read_set sub). by rewrite E.
      * right. exists t. split; [done|]. by exists sub.
Qed.

(** The accumulator of [findAffectedByTables]: entries of [byKey], at the keys seen so far. *)
Definition picked (s : SubscriptionManager) (out : list (jsstr * Subscription)) (P : jsstr → Prop) : Prop :=
  jm_ok out ∧ ∀ k sub, jm_get out k = Some sub ↔ jm_get (byKey s) k = Some sub ∧ P k.

Lemma picked_iff s out P Q : picked s out P → (∀ k, P k ↔ Q k) → picked s out Q.
Proof. intros [H1 H2] H. split; [done|]. intros k sub. by rewrite H2, H. Qed.

Lemma picked_keys s ks out P : picked s out P →
  picked s (fold_left (λ out key, match jm_get (byKey s) key with Some sub => jm_set out key sub | None => out end) ks out)
    (λ k, P k ∨ k ∈ ks).
Proof.
  revert out P. induction ks as [|x ks IH]; intros out P H; cbn [fold_left].
  - apply (picked_iff _ _ _ _ H). set_solver.
  - eapply picked_iff; [apply (IH _ (λ k, P k ∨ k = x))|set_solver]. destruct H as [Hok H].
    destruct (jm_get (byKey s) x) as [y|] eqn:E; split; auto with jmap.
    + intros k sub. rewrite jm_get_set. case_decide; [subst; rewrite E|rewrite H]; naive_solver.
    + intros k sub. rewrite H. naive_solver.
Qed.

Lemma picked_tables s ts out P : picked s out P →
  picked s (fold_left (λ out t, fold_left (λ out key, match jm_get (byKey s) key with Some sub => jm_set out key sub | None => out end)
    (default [] (jm_get (byTable (sm_index s)) t)) out) ts out)
    (λ k, P k ∨ ∃ t, t ∈ ts ∧ k ∈ members (byTable (sm_index s)) t).
Proof.
  revert out P. induction ts as [|x ts IH]; intros out P H; cbn [fold_left].
  - apply (picked_iff _ _ _ _ H). set_solver.
  - eapply picked_iff; [by apply IH, picked_keys|]. intros k. cbn beta. setoid_rewrite elem_of_cons.
    unfold members. naive_solver.
Qed.

Lemma findAffectedByTables_ok s live wts : sm_ok s live →
  findAffectedByTables s wts ≡ₚ filter (λ x, meets (tables x) wts = true) live.
Proof.
  intros Hs. assert (H0 : picked s [] (λ _, False)) by (split; [apply NoDup_nil_2|naive_solver]).
  pose proof (picked_tables s wts [] _ H0) as Hp. unfold findAffectedByTables. set (out := fold_left _ wts []) in *.
  destruct Hp as [Hok Hp]. assert (Hv : jm_values out = omap (jm_get (byKey s)) (jm_keys out)).
  { assert (Hall : ∀ k sub, (k, sub) ∈ out → jm_get (byKey s) k = Some sub).
    { intros k sub Hin. apply Hp. by apply jm_get_elem. }
    clear -Hall. unfold jm_values, jm_keys. induction out as [|[k sub] out IH]; [done|].
    cbn [fmap list_fmap omap list_omap fst snd]. rewrite (Hall k sub) by left. f_equal. apply IH. intros; apply Hall; by right. }
  rewrite Hv. apply select_live; [done|exact Hok|]. intros k. split.
  - intros Hin. destruct (jm_get out k) as [sub|] eqn:E; [|by apply jm_get_None in E].
    apply Hp in E as [E [[]|(t & Ht & Hm)]]. exists sub. split; [done|].
    apply (ro_table _ _ (so_index _ _ Hs)) in Hm as (rd & Erd & Hrd). rewrite E in Erd. injection Erd as <-.
    apply existsb_Exists. exists t. split; [done|]. by apply bool_decide_eq_true.
  - intros (sub & E & (t & Ht & Hd%bool_decide_eq_true)%existsb_Exists).
    assert (Eo : jm_get out k = Some sub).
    { apply Hp. split; [done|]. right. exists t. split; [done|]. apply (ro_table _ _ (so_index _ _ Hs)).
      exists (read_set sub). by rewrite E. }
    apply jm_get_in in Eo. apply list_elem_of_fmap. by exists (k, sub).
Qed.

Lemma forSession_ok s live sid : sm_ok s live → spaceless sid = true →
  forSession s sid = filter (λ x, sessionId x = sid) live.
Proof.
  intros [_ H2 H3 _ _ _ _] Hsp. unfold forSession. rewrite H2. clear H2. unfold keyed.
  induction H3 as [|x live Hx _ IH]; [done|]. apply sub_wf_true in Hx as [Hx _].
  cbn [List.map]. rewrite !filter_cons. cbn [fst]. unfold sub_key at 1.
  pose proof (prefix_subKey sid (sessionId x) (queryId x) Hsp Hx) as Hp.
  destruct (decide (sessionId x = sid)) as [E|E]; case_decide; try tauto.
  cbn [fmap list_fmap snd]. by rewrite <-IH.
Qed.

Lemma sm_get_ok s live sid qid sub : sm_ok s live → spaceless sid = true →
  sm_get s sid qid = Some sub ↔ sub ∈ live ∧ same_sub sid qid sub.
Proof.
  intros Hs Hsp. unfold sm_get. rewrite (so_get _ _ _ _ Hs). split; intros [Hin H]; (split; [done|]).
  - pose proof (so_wf _ _ Hs) as Hw. rewrite Forall_forall in Hw. apply Hw, sub_wf_true in Hin as [Hin _].
    apply subKey_inj in H as [-> ->]; done.
  - by destruct H as [<- <-].
Qed.

Lemma globals_ok s live t : sm_ok s live →
  t ∈ subscribedGlobalTables s ↔ ∃ sub, sub ∈ live ∧ t ∈ default [] (globalTables sub).
Proof.
  intros Hs. unfold subscribedGlobalTables, jm_keys. split.
  - intros Hin. destruct (jm_get (byGlobalTable s) t) as [[|k l]|] eqn:E; [|..|by apply jm_get_None in E].
    + by apply (so_nonempty _ _ Hs) in E.
    + assert (Hk : k ∈ members (byGlobalTable s) t) by (unfold members; rewrite E; left).
      apply (so_global _ _ Hs) in Hk as (sub & [Hsub _]%(so_get _ _ _ _ Hs) & Ht). by exists sub.
  - intros (sub & Hin & Ht). destruct (jm_get (byGlobalTable s) t) as [l|] eqn:E.
    + apply jm_get_in in E. apply list_elem_of_fmap. by exists (t, l).
    + assert (Hk : sub_key sub ∈ members (byGlobalTable s) t).
      { apply (so_global _ _ Hs). exists sub. split; [|done]. by apply (so_get _ _ _ _ Hs). }
      unfold members in Hk. rewrite E in Hk. by apply elem_of_nil in Hk.
Qed.

(** ** The resume registry refines its map of entries *)
Inductive rg_op :=
  | RgUpsert (key : jsstr) (ranges : list SerializedKeyRange) (ts : list jsstr) (atTs : Z) (diffable : bool) (globals : list jsstr)
  | RgAdvance (writtenRanges : list SerializedKeyRange) (writtenTables : list jsstr) (commitTs : Z)
  | RgRetain (key : jsstr)
  | RgRelease (key : jsstr) (nowMs : Z)
  | RgSweep (nowMs : Z).

Definition rg_step (g : ResumeRegistry) (op : rg_op) : ResumeRegistry :=
  match op with
  | RgUpsert key ranges ts atTs d gl => (upsert g key ranges ts atTs d gl).1
  | RgAdvance wr wt cts => match advanceOnCommit g wr wt cts with Ok g' => g' | Err _ => g end
  | RgRetain key => rg_retain g key
  | RgRelease key now => rg_release g key now
  | RgSweep now => sweep g now
  end.
Definition rg_run (ops : list rg_op) : ResumeRegistry := fold_left rg_step ops new_ResumeRegistry.

Definition rg_op_ok (op : rg_op) : bool :=
  match op with
  | RgUpsert _ ranges _ _ _ _ => decodes ranges
  | RgAdvance wr _ _ => decodes wr
  | _ => true
  end.

Definition decoded (l : list SerializedKeyRange) : list KeyRange :=
  match traverse deserializeKeyRange l with Ok rs => rs | Err _ => [] end.

Definition entry_reads (e : ResumeEntry) : ReadSet := (re_readRanges e, re_tables e).

(** The reference semantics: a plain map of entries, a commit advancing every entry it touches. *)
Definition spec_entry (existing : option ResumeEntry) ranges ts atTs d gl : ResumeEntry :=
  {| re_readRanges := ranges; re_tables := ts; re_globalTables := gl;
     lastInvalidatedTs := Z.max (match existing with Some e => lastInvalidatedTs e | None => atTs end) atTs;
     wasDiffable := d; refCount := match existing with Some e => refCount e | None => 0 end; expiresAtMs := None |}.
Definition spec_advance (wrs : list KeyRange) (wts : list jsstr) (cts : Z) (e : ResumeEntry) : ResumeEntry :=
  if touches (entry_reads e) wrs wts then with_last e (Z.max (lastInvalidatedTs e) cts) else e.
Definition spec_release (now : Z) (e : ResumeEntry) : ResumeEntry :=
  let n := refCount e - 1 in with_refs e n (if n <=? 0 then Some (now + TTL_MS) else expiresAtMs e).

Definition es_step (es : list (jsstr * ResumeEntry)) (op : rg_op) : list (jsstr * ResumeEntry) :=
  match op with
  | RgUpsert key ranges ts atTs d gl => jm_set es key (spec_entry (jm_get es key) ranges ts atTs d gl)
  | RgAdvance wr wt cts => jm_mapi (λ _, spec_advance (decoded wr) wt cts) es
  | RgRetain key => match jm_get es key with Some e => jm_set es key (with_refs e (refCount e + 1) None) | None => es end
  | RgRelease key now => match jm_get es key with Some e => jm_set es key (spec_release now e) | None => es end
  | RgSweep now => filter (λ p, expired p.2 now = false) es
  end.
Definition es_run (ops : list rg_op) : list (jsstr * ResumeEntry) := fold_left es_step ops [].

Record rg_ok (g : ResumeRegistry) : Prop := {
  go_keys : jm_ok (rg_entries g);
  go_index : ri_ok (rg_index g) (λ k, entry_reads <$> jm_get (rg_entries g) k) }.

Lemma decodes_true l : decodes l = true → traverse deserializeKeyRange l = Ok (decoded l).
Proof. unfold decodes, decoded. by destruct (traverse _ _). Qed.

Lemma rg_unindex_ok g key : rg_ok g →
  ri_ok (rg_unindex g key) (reg_set (λ k, entry_reads <$> jm_get (rg_entries g) k) key None).
Proof.
  intros [H1 H2]. unfold rg_unindex. destruct (jm_get (rg_entries g) key) as [e|] eqn:E.
  - apply (unindex_ok _ _ key (entry_reads e) H2). by rewrite E.
  - eapply ri_ok_ext; [|exact H2]. intros k. unfold reg_set. case_decide; [|done]. subst. by rewrite E.
Qed.

Lemma upsert_ok g key ranges ts atTs d gl : rg_ok g → decodes ranges = true →
  let g' := (upsert g key ranges ts atTs d gl).1 in
  rg_ok g' ∧ rg_entries g' = es_step (rg_entries g) (RgUpsert key ranges ts atTs d gl).
Proof.
  intros Hg Hd. unfold upsert. pose proof (rg_unindex_ok g key Hg) as Hu.
  destruct (index_ok _ _ key ranges ts _ Hu (reg_set_eq _ _ _) (decodes_true _ Hd)) as (ri & -> & Hri).
  cbn [fst]. split; [|done]. split; simpl; [by apply jm_set_ok, Hg|].
  eapply ri_ok_ext; [|exact Hri]. intros k. rewrite jm_get_set. unfold reg_set. by case_decide.
Qed.

(** Replacing an entry by one with the same read set keeps the indexes right. *)
Lemma rg_replace g key e e' : rg_ok g → jm_get (rg_entries g) key = Some e → entry_reads e' = entry_reads e →
  rg_ok {| rg_entries := jm_set (rg_entries g) key e'; rg_index := rg_index g |}.
Proof.
  intros [H1 H2] E Ee. split; simpl; [by apply jm_set_ok|]. eapply ri_ok_ext; [|exact H2].
  intros k. cbn beta. rewrite jm_get_set. case_decide; [|done]. subst. rewrite E. simpl. by rewrite Ee.
Qed.

(** Advancing the matched keys one at a time is advancing them all at once. *)
Lemma advance_entries es cts ks : jm_ok es → NoDup ks →
  fold_left (λ es k, advance_entry es cts k) ks es =
  jm_mapi (λ k e, if decide (k ∈ ks) then with_last e (Z.max (lastInvalidatedTs e) cts) else e) es.
Proof.
  revert es. induction ks as [|k ks IH]; intros es Hes; cbn [fold_left].
  - intros _. symmetry. apply jm_mapi_id. intros j e _. rewrite decide_False; [done|apply not_elem_of_nil].
  - intros [Hk Hn]%NoDup_cons. unfold advance_entry at 2. destruct (jm_get es k) as [e|] eqn:E.
    + rewrite (jm_set_mapi (λ e, with_last e (Z.max (lastInvalidatedTs e) cts)) es k e Hes E).
      rewrite IH, jm_mapi_comp by auto with jmap. apply jm_mapi_ext. intros j x _.
      destruct (decide (j = k)) as [->|Hj].
      * rewrite decide_False by done. by rewrite decide_True by left.
      * apply decide_ext. rewrite elem_of_cons. tauto.
    + rewrite IH by done. apply jm_mapi_ext. intros j x Hin. apply decide_ext. rewrite elem_of_cons.
      split; [tauto|]. intros [->|?]; [|done]. apply jm_get_elem in Hin; [|done]. congruence.
Qed.

Lemma advance_ok g wr wt cts : rg_ok g → decodes wr = true →
  ∃ g', advanceOnCommit g wr wt cts = Ok g' ∧ rg_ok g' ∧ rg_entries g' = es_step (rg_entries g) (RgAdvance wr wt cts).
Proof.
  intros [H1 H2] Hd. destruct (matched_ok _ _ _ _ wt H2 (decodes_true _ Hd)) as (ks & Hm & Hnd & Hks).
  unfold advanceOnCommit. rewrite Hm. cbn [res_bind]. eexists. split; [done|].
  assert (E : fold_left (λ es k, advance_entry es cts k) ks (rg_entries g) =
    es_step (rg_entries g) (RgAdvance wr wt cts)).
  { rewrite advance_entries by done. cbn [es_step]. apply jm_mapi_ext. intros k e Hin%jm_get_elem; [|done]. unfold spec_advance.
    assert (Hk : k ∈ ks ↔ touches (entry_reads e) (decoded wr) wt = true).
    { rewrite Hks, Hin. simpl. naive_solver. }
    destruct (touches (entry_reads e) (decoded wr) wt); case_decide; naive_solver. }
  split; [|exact E]. split; simpl; rewrite E; [by apply jm_mapi_ok|].
  eapply ri_ok_ext; [|exact H2]. intros k. cbn [es_step].
  rewrite jm_get_mapi. destruct (jm_get (rg_entries g) k) as [e|]; simpl; [|done].
  unfold spec_advance. by destruct (touches _ _ _).
Qed.

Lemma sweep_fold now es g : rg_ok g → NoDup es.*1 → (∀ k e, (k, e) ∈ es → jm_get (rg_entries g) k = Some e) →
  let g' := fold_left (λ g '(key, e), if expired e now then {| rg_index := rg_unindex g key; rg_entries := jm_delete (rg_entries g) key |} else g) es g in
  rg_ok g' ∧ rg_entries g' = filter (λ p, ¬ (p.1 ∈ es.*1 ∧ expired p.2 now = true)) (rg_entries g).
Proof.
  revert g. induction es as [|[k e] es IH]; intros g Hg; cbn [fold_left fmap list_fmap fst].
  - intros _ _. split; [done|]. symmetry. apply filter_all_in. intros p _ [H _]. by apply elem_of_nil in H.
  - intros [Hk Hn]%NoDup_cons Hall. destruct (expired e now) eqn:Ee.
    + assert (Hdel : jm_delete (rg_entries g) k = filter (λ p, p.1 ≠ k) (rg_entries g)) by apply jm_delete_filter, Hg.
      assert (Hg' : rg_ok {| rg_index := rg_unindex g k; rg_entries := jm_delete (rg_entries g) k |}).
      { split; simpl; [by apply jm_delete_ok, Hg|]. eapply ri_ok_ext; [|by apply rg_unindex_ok].
        intros j. rewrite jm_get_delete by apply Hg. unfold reg_set. by case_decide. }
      destruct (IH _ Hg' Hn) as [H1 H2].
      { intros j x Hin. simpl. rewrite jm_get_delete by apply Hg. rewrite decide_False.
        - apply Hall. by right.
        - intros ->. apply Hk. apply list_elem_of_fmap. by exists (k, x). }
      split; [done|]. etrans; [exact H2|]. simpl. rewrite Hdel, list_filter_filter. apply filter_ext_in.
      intros [j x] Hin%jm_get_elem; [|apply Hg]. simpl. rewrite elem_of_cons. split.
      * intros [H3 H4] [[->|?] ?]; tauto.
      * intros H. split; [tauto|]. intros ->. rewrite (Hall k e) in Hin by left. injection Hin as <-. tauto.
    + destruct (IH g Hg Hn) as [H1 H2]; [intros; apply Hall; by right|]. split; [done|].
      etrans; [exact H2|]. apply filter_ext_in. intros [j x] Hin%jm_get_elem; [|apply Hg]. simpl.
      rewrite elem_of_cons. split; [|tauto]. intros H [[->|?] ?]; [|tauto].
      rewrite (Hall k e) in Hin by left. injection Hin as <-. congruence.
Qed.

Lemma sweep_ok g now : rg_ok g → rg_ok (sweep g now) ∧ rg_entries (sweep g now) = es_step (rg_entries g) (RgSweep now).
Proof.
  intros Hg. unfold sweep. destruct (sweep_fold now (rg_entries g) g Hg) as [H1 H2].
  - apply Hg.
  - intros k e Hin. by apply jm_get_elem; [apply Hg|].
  - split; [done|]. etrans; [exact H2|]. cbn [es_step]. apply filter_ext_in. intros [k e] Hin. simpl.
    assert (k ∈ (rg_entries g).*1) by (apply list_elem_of_fmap; by exists (k, e)).
    destruct (expired e now); naive_solver.
Qed.

Lemma rg_step_ok g op : rg_ok g → rg_op_ok op = true →
  rg_ok (rg_step g op) ∧ rg_entries (rg_step g op) = es_step (rg_entries g) op.
Proof.
  intros Hg Hop. destruct op as [key ranges ts atTs d gl|wr wt cts|key|key now|now]; cbn [rg_step].
  - by apply upsert_ok.
  - destruct (advance_ok g wr wt cts Hg Hop) as (g' & -> & H1 & H2). done.
  - unfold rg_retain. cbn [es_step]. destruct (jm_get (rg_entries g) key) as [e|] eqn:E; [|done].
    split; [|done]. by eapply rg_replace.
  - unfold rg_release. cbn [es_step]. destruct (jm_get (rg_entries g) key) as [e|] eqn:E; [|done].
    split; [|done]. by eapply rg_replace.
  - by apply sweep_ok.
Qed.

Lemma rg_run_ok ops : forallb rg_op_ok ops = true → rg_ok (rg_run ops) ∧ rg_entries (rg_run ops) = es_run ops.
Proof.
  intros H. assert (Hn : rg_ok new_ResumeRegistry).
  { split; [apply NoDup_nil_2|]. apply (ri_ok_ext _ (λ _, None)); [done|apply new_ReadIndex_ok]. }
  unfold rg_run, es_run. change (@nil (jsstr * ResumeEntry)) with (rg_entries new_ResumeRegistry).
  revert Hn H. generalize new_ResumeRegistry. induction ops as [|op ops IH]; intros g Hg; cbn [forallb fold_left]; [done|].
  intros [H1 H2]%andb_true_iff. destruct (rg_step_ok g op Hg H1) as [H3 H4]. rewrite <-H4. by apply IH.
Qed.

(** [doModifyQuerySet]: whether a resubscribe that carries [sinceTs] skips the run. *)
Definition resume_skip (g : ResumeRegistry) (rrKey : jsstr) (sinceTs : Z) : option ResumeLookup :=
  match rg_lookup g rrKey with
  | Some entry =>
      if negb (rl_wasDiffable entry) && Nat.eqb (length (rl_globalTables entry)) 0 && (rl_lastInvalidatedTs entry <=? sinceTs)
      then Some entry else None
  | None => None
  end.

Definition upserts (key : jsstr) (op : rg_op) : bool :=
  match op with RgUpsert k _ _ _ _ _ => bool_decide (k = key) | _ => false end.

(** The timestamp of an operation that is a commit touching the read set. *)
Definition touching (rd : ReadSet) (op : rg_op) : option Z :=
  match op with RgAdvance wr wt cts => if touches rd (decoded wr) wt then Some cts else None | _ => None end.

(** What is left of an entry after operations that do not upsert it. *)
Definition tracks (e : ResumeEntry) (tss : list Z) (e' : ResumeEntry) : Prop :=
  entry_reads e' = entry_reads e ∧ re_globalTables e' = re_globalTables e ∧ wasDiffable e' = wasDiffable e ∧
  lastInvalidatedTs e' = fold_left Z.max tss (lastInvalidatedTs e).

Lemma es_step_ok es op : jm_ok es → jm_ok (es_step es op).
Proof.
  intros H. destruct op; cbn [es_step]; repeat case_match; auto with jmap.
  unfold jm_ok in *. clear -H. induction es as [|[k e] es IH]; [done|]. apply NoDup_cons in H as [Hk Hn].
  rewrite filter_cons. case_decide; [|auto]. apply NoDup_cons. split; [|auto]. intros (p & E & [_ Hp]%list_elem_of_filter)%list_elem_of_fmap.
  apply Hk. apply list_elem_of_fmap. by exists p.
Qed.

Lemma es_step_get es op key : jm_ok es → upserts key op = false → ∀ e', jm_get (es_step es op) key = Some e' →
  ∃ e, jm_get es key = Some e ∧ tracks e (option_list (touching (entry_reads e) op)) e'.
Proof.
  intros Hes Hu e'. unfold tracks. destruct op as [k ranges ts atTs d gl|wr wt cts|k|k now|now]; cbn [es_step upserts touching] in *.
  - apply bool_decide_eq_false in Hu. rewrite jm_get_set, decide_False by done. intros E. by exists e'.
  - rewrite jm_get_mapi. destruct (jm_get es key) as [e|]; [|done]. cbn [fmap option_fmap option_map]. intros [= <-].
    exists e. split; [done|]. unfold spec_advance. by destruct (touches _ _ _).
  - destruct (jm_get es k) as [e0|] eqn:E; [rewrite jm_get_set; case_decide; [subst; intros [= <-]; by exists e0|]|]; intros; by exists e'.
  - destruct (jm_get es k) as [e0|] eqn:E; [rewrite jm_get_set; case_decide; [subst; intros [= <-]; by exists e0|]|]; intros; by exists e'.
  - intros E%jm_get_in. apply list_elem_of_filter in E as [_ E%jm_get_elem]; [|done]. by exists e'.
Qed.

Lemma es_run_get ops es key : jm_ok es → forallb (λ op, negb (upserts key op)) ops = true →
  ∀ e', jm_get (fold_left es_step ops es) key = Some e' →
  ∃ e, jm_get es key = Some e ∧ tracks e (omap (touching (entry_reads e)) ops) e'.
Proof.
  revert es. induction ops as [|op ops IH]; intros es Hes; cbn [forallb fold_left].
  - intros _ e' E. by exists e'.
  - intros [Hu%negb_true_iff Hr]%andb_true_iff e' E.
    destruct (IH _ (es_step_ok _ op Hes) Hr e' E) as (e1 & E1 & T1 & T2 & T3 & T4).
    destruct (es_step_get es op key Hes Hu e1 E1) as (e & E0 & S1 & S2 & S3 & S4). exists e. split; [done|].
    unfold tracks. rewrite T1, T2, T3, T4, S1, S2, S3, S4. split_and!; try done.
    cbn [omap list_omap]. by destruct (touching (entry_reads e) op).
Qed.

(** ** Properties *)

(** C16: after any sequence of registrations, refreshes, unsubscribes and disconnects, a write finds exactly
    the live subscriptions a linear scan finds, each once: those with a read range overlapping a written
    range, those without read ranges that read a written table, and those that read a written global
    table. (Session ids have no spaces; ranges are in the wire form.) *)
Theorem subscription_matching ops writeRanges wrs wts : forallb sm_op_ok ops = true →
  traverse deserializeKeyRange writeRanges = Ok wrs →
  ∃ out, findAffectedByRanges (sm_run ops) writeRanges wts = Ok out ∧
    out ≡ₚ filter (λ x, sub_affected wrs wts x = true) (live_run ops).
Proof. intros Ho Hw. by apply findAffectedByRanges_ok; [apply sm_run_ok|]. Qed.

(** The other views of the manager agree with the list of live subscriptions too: the table match, a
    session's subscriptions (in registration order), lookup, the size, and the subscribed global tables,
    where a table without subscribers is never listed. *)
Theorem subscription_views ops sid qid sub wts t : forallb sm_op_ok ops = true → spaceless sid = true →
  let s := sm_run ops in let live := live_run ops in
  NoDup live ∧
  findAffectedByTables s wts ≡ₚ filter (λ x, meets (tables x) wts = true) live ∧
  forSession s sid = filter (λ x, sessionId x = sid) live ∧
  (sm_get s sid qid = Some sub ↔ sub ∈ live ∧ sessionId sub = sid ∧ queryId sub = qid) ∧
  sm_size s = length live ∧
  (t ∈ subscribedGlobalTables s ↔ ∃ x, x ∈ live ∧ t ∈ default [] (globalTables x)).
Proof.
  cbv zeta. intros Ho Hsid. pose proof (sm_run_ok ops Ho) as Hs. split_and!.
  - by eapply live_nodup.
  - by apply findAffectedByTables_ok.
  - by apply forSession_ok.
  - by apply (sm_get_ok _ _ sid qid sub Hs).
  - unfold sm_size. rewrite (so_live _ _ Hs). apply length_map.
  - by apply globals_ok.
Qed.

(** An entry of the resume registry keeps the read set of its last upsert, and its
    [lastInvalidatedTs] is exactly the maximum of the upsert's timestamp, the one the entry had before,
    and the timestamps of the commits since that touch the read set, whatever retains, releases and
    sweeps of other entries happen in between. *)
Theorem resume_registry_tracks pre key ranges ts atTs d gl post l :
  let up := RgUpsert key ranges ts atTs d gl in
  forallb rg_op_ok (pre ++ up :: post) = true → forallb (λ op, negb (upserts key op)) post = true →
  rg_lookup (rg_run (pre ++ up :: post)) key = Some l →
  l = {| rl_readRanges := ranges; rl_tables := ts; rl_globalTables := gl; rl_wasDiffable := d;
         rl_lastInvalidatedTs := fold_left Z.max (omap (touching (ranges, ts)) post)
           (Z.max (default atTs (rl_lastInvalidatedTs <$> rg_lookup (rg_run pre) key)) atTs) |}.
Proof.
  cbv zeta. intros Hok Hpost. pose proof Hok as Hok'. rewrite forallb_app in Hok'. apply andb_true_iff in Hok' as [Hpre _].
  destruct (rg_run_ok _ Hok) as [_ E]. destruct (rg_run_ok pre Hpre) as [Hg Ep]. unfold rg_lookup. rewrite E, Ep.
  unfold es_run. rewrite fold_left_app. cbn [fold_left]. fold (es_run pre). intros Hl.
  destruct (jm_get (fold_left es_step post _) key) as [e'|] eqn:Ee; [|done]. injection Hl as <-.
  apply es_run_get in Ee as (e & Eu & T1 & T2 & T3 & T4); [|by apply es_step_ok; rewrite <-Ep; apply Hg|done].
  cbn [es_step] in Eu. rewrite jm_get_set, decide_True in Eu by done. injection Eu as <-.
  unfold entry_reads in T1. cbn in T1, T2, T3, T4. injection T1 as -> ->. rewrite T2, T3, T4. f_equal.
  by destruct (jm_get (es_run pre) key).
Qed.

(** ** Witnesses *)
Definition wr_range (b : Z) : SerializedKeyRange := serializeKeyRange (point_range (js "table:t") [b]).
Definition ranged (sid : jsstr) (qid b : Z) : Subscription :=
  {| sessionId := sid; queryId := qid; udfPath := js "f"; args := JNull; tables := [js "t"]; readRanges := [wr_range b];
     globalTables := Some [js "g"]; byId := None; range := None; resumeKey := None |}.
Definition fallback (sid : jsstr) (qid : Z) : Subscription :=
  {| sessionId := sid; queryId := qid; udfPath := js "f"; args := JNull; tables := [js "t"]; readRanges := [];
     globalTables := None; byId := None; range := None; resumeKey := None |}.

Definition some_ops : list sm_op :=
  [SmAdd (ranged (js "a") 1 7); SmAdd (ranged (js "a") 2 8); SmAdd (fallback (js "b") 1); SmAdd (ranged (js "c") 1 7);
   SmAdd (ranged (js "a") 1 9); SmRemoveSession (js "c")].

(** The refreshed subscription no longer matches its old key, the fallback one matches the table. *)
Lemma subscription_matching_witness : ∃ out, findAffectedByRanges (sm_run some_ops) [wr_range 7; wr_range 8] [js "t"] = Ok out ∧
  out ≡ₚ [ranged (js "a") 2 8; fallback (js "b") 1].
Proof.
  destruct (subscription_matching some_ops [wr_range 7; wr_range 8] (decoded [wr_range 7; wr_range 8]) [js "t"])
    as (out & H1 & H2); [vm_compute; reflexivity|vm_compute; reflexivity|].
  exists out. split; [exact H1|]. etrans; [exact H2|]. apply Permutation_refl'. vm_compute. reflexivity.
Defined.

Lemma subscription_views_witness : sm_size (sm_run some_ops) = 3%nat ∧
  forSession (sm_run some_ops) (js "a") = [ranged (js "a") 2 8; ranged (js "a") 1 9].
Proof.
  destruct (subscription_views some_ops (js "a") 1 (ranged (js "a") 1 9) [js "t"] (js "g")) as (_ & _ & H1 & _ & H2 & _);
    [vm_compute; reflexivity|vm_compute; reflexivity|].
  split; [rewrite H2; vm_compute; reflexivity|rewrite H1; vm_compute; reflexivity].
Defined.

Definition reg_up (atTs : Z) : rg_op := RgUpsert (js "k") [wr_range 7] [js "t"] atTs false [].

Definition reg_post : list rg_op :=
  [RgRetain (js "k"); RgAdvance [wr_range 7] [js "t"] 5; RgAdvance [wr_range 8] [js "t"] 6].

Lemma resume_registry_tracks_witness : ∃ l, rg_lookup (rg_run ([] ++ reg_up 3 :: reg_post)) (js "k") = Some l ∧
  rl_lastInvalidatedTs l = 5.
Proof.
  destruct (rg_lookup (rg_run ([] ++ reg_up 3 :: reg_post)) (js "k")) as [l|] eqn:E; [|vm_compute in E; discriminate E].
  exists l. split; [reflexivity|].
  assert (H1 : forallb rg_op_ok ([] ++ reg_up 3 :: reg_post) = true) by (vm_compute; reflexivity).
  assert (H2 : forallb (λ op, negb (upserts (js "k") op)) reg_post = true) by (vm_compute; reflexivity).
  rewrite (resume_registry_tracks [] (js "k") [wr_range 7] [js "t"] 3 false [] reg_post l H1 H2 E).
  vm_compute. reflexivity.
Defined.

(** A re-created entry starts from the subscribing session's frontier, not from the timestamp its query
    ran at: after the entry of a disconnected client expired, a commit touched the query, and a fresh
    session (frontier 0) subscribed to it, the client that last saw timestamp 5 is told that its result
    is unchanged, although the commit at 7 touched its read set. *)
Lemma resume_skip_misses_commit :
  let ops := [reg_up 5; RgRetain (js "k"); RgRelease (js "k") 0; RgSweep TTL_MS; RgAdvance [wr_range 7] [js "t"] 7;
              reg_up 0; RgRetain (js "k")] in
  touching ([wr_range 7], [js "t"]) (RgAdvance [wr_range 7] [js "t"] 7) = Some 7 ∧
  option_map rl_lastInvalidatedTs (resume_skip (rg_run ops) (js "k") 5) = Some 0.
Proof. split; vm_compute; reflexivity. Qed.
