(* ===== verification/Reactivity.v ===== *)
(** The reactive contract across the transactor and the sync tier: what a commit publishes
    ([OplogDelta] of [packages/transactor/src]) is matched against the subscriptions
    ([packages/sync/src/subscription-manager.ts]), and a query whose subscription is never matched
    would return the same result if it ran again. *)
From S2P Require Import Prelude Numbers Values Json IndexKeys Ranges IntervalIndex IdCodec DocStore MvccStore Transactor.
From S2P Require Import Serializability GroupCommit GroupSerial QueryEngine Subscriptions.

Section reads.
Context {S : Type} `{!MvccStore S} {V : Type}.
Implicit Types (s : S) (c : Ctx) (f : func V).

(** Everything a context validates it also reports as read. *)
Record reads_ok c : Prop := {
  rk_reads : rs_ok (reads c);
  rk_vr : rs_ok (validatedReads c);
  rk_sub : ∀ r, r ∈ toArray (validatedReads c) → r ∈ toArray (reads c) }.

Lemma new_Ctx_reads t sh h : reads_ok (new_Ctx t sh h).
Proof. split; [apply rs_new_ok..|done]. Qed.

Lemma reads_add c r : reads_ok c →
  rs_ok (rs_add (reads c) r) ∧ rs_ok (rs_add (validatedReads c) r) ∧
  (∀ x, x ∈ toArray (rs_add (validatedReads c) r) → x ∈ toArray (rs_add (reads c) r)) ∧
  (∀ x, x ∈ toArray (validatedReads c) → x ∈ toArray (rs_add (reads c) r)).
Proof.
  intros [H1 H2 H3]. split_and!; auto with ranges; intros x; rewrite !rs_add_elem by done; naive_solver.
Qed.

Lemma op_step_reads s u c f c' f' : reads_ok c → op_step_at s u c f = Some (c', f') → reads_ok c'.
Proof.
  intros Hc. pose proof Hc as [H1 H2 H3].
  destruct f as [v|e|id k|id v k|id k|tn ix iv o lim vd k|r k|r k|us k|tn ix k]; simpl; try done.
  - unfold ctx_get. destruct (countRead (headroom c)) as [h [[]|e]]; simpl; [|by intros [= <- <-]].
    destruct (reads_add c (point_range (docKeyspace id) (internalId id)) Hc) as (? & ? & ? & _).
    destruct (uw_get (staged c) id); intros [= <- <-]; by split.
  - unfold ctx_put, ctx_write. destruct (countWrite (headroom c)) as [h [[]|e]]; by intros [= <- <-].
  - unfold ctx_delete, ctx_write. destruct (countWrite (headroom c)) as [h [[]|e]]; by intros [= <- <-].
  - intros [= <- <-]. destruct (reads_add c (scan_range tn ix iv) Hc) as (? & ? & ? & ?). by destruct vd; split.
  - by intros [= <- <-].
  - intros [= <- <-]. destruct (reads_add c r Hc) as (? & _ & _ & ?). by split.
  - by intros [= <- <-].
  - by intros [= <- <-].
Qed.

Lemma exec_reads s u c f c' f' : exec_at s u c f c' f' → reads_ok c → reads_ok c'.
Proof. induction 1; eauto using op_step_reads. Qed.
End reads.

Section reactive.
Context {S : Type} `{!MvccStore S} `{!MvccStoreLaws S} {V : Type}.
Context (shard : jsstr) (hlimits : HeadroomLimits) (maxRetries : nat) (s0 : S).

(** What a shard has published: its store, its clock and its commits, in either commit mode, every commit
    being disciplined. *)
Inductive published : S → Z → list (committed (V := V)) → Prop :=
  | published_single σ : disciplined_run shard hlimits maxRetries s0 σ →
      published (docStore (writer σ)) (clock σ) (history σ)
  | published_group σ : g_disciplined_run shard hlimits maxRetries s0 σ →
      published (g_store σ) (g_clock σ) (g_history σ).

Lemma published_at s now hist ts : ms_ok s0 → published s now hist → ms_max s0 < ts ≤ now →
  ∃ cm, cm ∈ hist ∧ c_ts cm = ts ∧ landed s (c_ctx cm) ts (c_entries cm).
Proof.
  intros Hs [σ Hr|σ Hr] Hts.
  - pose proof (reachable_inv shard hlimits maxRetries s0 σ Hs Hr) as Hi.
    destruct (history_at shard hlimits s0 σ ts Hi Hts) as (cm & Hin & <-). exists cm.
    split_and!; [done|done|]. by apply (si_landed _ _ _ _ Hi).
  - pose proof (g_reachable_inv shard hlimits maxRetries s0 σ Hs Hr) as Hi.
    assert (Hin : ts ∈ c_ts <$> g_history σ).
    { rewrite (proj2 (gi_times _ _ _ _ _ Hi)). apply elem_of_seqZ. lia. }
    apply list_elem_of_fmap in Hin as (cm & -> & Hin). exists cm. split_and!; [done|done|]. by apply (gi_landed _ _ _ _ _ Hi).
Qed.

(** The notification of a commit. *)
Definition notification (origin : option jsstr) (cm : committed (V := V)) : res OplogDelta :=
  build_oplog (c_ts cm) shard (writeRanges (c_ctx cm)) origin (c_entries cm).

(** The manager in state [s] does not pick [sub] when [cm] is notified. *)
Definition skipped (s : SubscriptionManager) (origin : option jsstr) (sub : Subscription) (cm : committed (V := V)) : Prop :=
  ∃ o out, notification origin cm = Ok o ∧
    findAffectedByRanges s (ol_writtenRanges o) (ol_writtenTables o) = Ok out ∧ sub ∉ out.

Lemma traverse_serialized (rs : list KeyRange) : Forall range_bytes rs →
  traverse deserializeKeyRange (List.map serializeKeyRange rs) = Ok rs.
Proof.
  induction 1 as [|r rs Hr _ IH]; [done|]. cbn [List.map traverse]. rewrite deserialize_serialize by done.
  cbn [res_bind]. by rewrite IH.
Qed.

(** A skipped subscription's read ranges do not meet the commit's writes. *)
Lemma skipped_apart ops origin sub cm rs : forallb sm_op_ok ops = true → sub ∈ live_run ops →
  rs_ok rs → rs_ok (writeRanges (c_ctx cm)) →
  Forall range_bytes (toArray rs) → Forall range_bytes (toArray (writeRanges (c_ctx cm))) →
  readRanges sub = List.map serializeKeyRange (toArray rs) → skipped (sm_run ops) origin sub cm →
  intersects rs (writeRanges (c_ctx cm)) = false.
Proof.
  intros Ho Hsub Hrs Hws Hb Hwb Hread (o & out & Hn & Hf & Hout). apply not_true_iff_false. intros Hx. apply Hout.
  unfold notification, build_oplog in Hn. res_inv Hn as wts Et. res_inv Hn as docs Ed. injection Hn as <-. cbn in Hf.
  destruct (findAffectedByRanges_ok _ _ _ _ wts (sm_run_ok ops Ho) (traverse_serialized _ Hwb)) as (out' & Hf' & Hp).
  rewrite Hf in Hf'. injection Hf' as <-. rewrite Hp. apply list_elem_of_filter. split; [|done].
  unfold sub_affected. apply orb_true_iff. left. unfold touches, read_set. cbn [fst snd]. rewrite Hread.
  apply intersects_true in Hx as (r & w & Hr & Hw & Hov); [|done|done].
  destruct (List.map serializeKeyRange (toArray rs)) as [|x xs] eqn:E.
  - apply map_eq_nil in E. rewrite E in Hr. by apply elem_of_nil in Hr.
  - rewrite <-E, traverse_serialized by done. apply existsb_Exists. exists r. split; [done|]. apply existsb_Exists. by exists w.
Qed.

(** ** Property *)

(** C15: no missed invalidation. Run a query at a snapshot, subscribe with the ranges it read, and suppose
    the manager skipped the subscription for every commit published since, up to a later timestamp: then
    the query run at that timestamp returns the same value and reads the same ranges. In both commit
    modes, for histories of disciplined commits, with unvalidated scans like the others (their ranges are
    reported), whatever other subscriptions come and go between the commits. *)
Theorem unaffected_query_unchanged s now hist (f : func V) h c v t1 t2 sub origin (ops : committed (V := V) → list sm_op) :
  ms_ok s0 → published s now hist → ms_max s0 ≤ t1 → t1 ≤ t2 ≤ now →
  exec s (new_Ctx t1 shard h) f c (FRet v) →
  readRanges sub = List.map serializeKeyRange (toArray (reads c)) → Forall range_bytes (toArray (reads c)) →
  (∀ cm, cm ∈ hist → t1 < c_ts cm ≤ t2 →
     forallb sm_op_ok (ops cm) = true ∧ sub ∈ live_run (ops cm) ∧
     Forall range_bytes (toArray (writeRanges (c_ctx cm))) ∧ skipped (sm_run (ops cm)) origin sub cm) →
  exec s (new_Ctx t2 shard h) f (at_snapshot c t2) (FRet v).
Proof.
  intros Hs Hp Hlo Ht He Hread Hb Hall.
  destruct (exec_reads _ _ _ _ _ _ He (new_Ctx_reads _ _ _)) as [R1 R2 R3].
  assert (Hag : agree s t1 t2 (reads c)).
  2: { destruct Hag as [Hg Hsc]. unfold exec. change (new_Ctx t2 shard h) with (at_snapshot (new_Ctx t1 shard h) t2).
    eapply exec_replay_at; [exact He|apply new_Ctx_ok| |exact Hsc]. split.
    - intros id (r & Hr & ?). apply Hg. exists r. auto.
    - intros tn ix iv o lim Hr. apply Hsc. auto. }
  replace t2 with (t1 + Z.of_nat (Z.to_nat (t2 - t1))) by lia.
  apply chain_agree. intros ts Hts. destruct (published_at s now hist ts Hs Hp) as (cm & Hin & <- & Hl); [lia|].
  destruct (Hall cm Hin) as (Ho & Hsub & Hwb & Hsk); [lia|].
  pose proof (co_wr _ (la_ctx _ _ _ _ Hl)) as Hw. eapply landed_agree; [exact Hl|done|].
  exact (skipped_apart (ops cm) origin sub cm (reads c) Ho Hsub R1 Hw Hb Hwb Hread Hsk).
Qed.
End reactive.

(** ** Witness: a commit to one document, a query of another *)
Section example.
Let doc (n : Z) : InternalDocumentId := {| tableNumber := 10001; internalId := n :: repeat 0 15 |}.

Definition set_doc : func Z := FPut (doc 1) (VObj [(js "_id", VStr (js "x"))]) (λ _, FRet 1).
Definition count_other : func Z := FGet (doc 2) (λ r, FRet (match r with Ok (Some _) => 1 | _ => 0 end)).

#[local] Instance react_store : MvccStore db := sqlite_store [].
#[local] Instance react_laws : MvccStoreLaws db := sqlite_laws [] (List.Forall_nil _).
Abbreviation react_reachable := (@disciplined_run db react_store Z DEFAULT_SHARD DEFAULT_HEADROOM 8 empty_db).

Definition other_ctx : Ctx :=
  match op_step empty_db (new_Ctx 0 DEFAULT_SHARD (new_HeadroomTracker DEFAULT_HEADROOM)) count_other with
  | Some (c, _) => c
  | None => new_Ctx 0 DEFAULT_SHARD (new_HeadroomTracker DEFAULT_HEADROOM)
  end.

Definition other_sub : Subscription :=
  {| sessionId := js "a"; queryId := 1; udfPath := js "f"; args := JNull; tables := [docKeyspace (doc 2)];
     readRanges := List.map serializeKeyRange (toArray (reads other_ctx)); globalTables := None; byId := None;
     range := None; resumeKey := None |}.

Lemma one_commit : ∃ σ, react_reachable σ ∧ clock σ = 1 ∧ c_ts <$> history σ = [1] ∧
  exec (docStore (writer σ)) (new_Ctx 0 DEFAULT_SHARD (new_HeadroomTracker DEFAULT_HEADROOM)) count_other other_ctx (FRet 0) ∧
  ∀ cm, cm ∈ history σ → Forall range_bytes (toArray (writeRanges (c_ctx cm))) ∧
    skipped DEFAULT_SHARD (sm_run [SmAdd other_sub]) None other_sub cm.
Proof.
  assert (H : react_reachable (initial empty_db)) by constructor. settle H.
  walk H ltac:(eapply (step_begin _ _ _ _ 0 set_doc None)).
  walk H ltac:(eapply (step_op _ _ _ _ 0)).
  walk H ltac:(eapply (step_validate _ _ _ _ 0)).
  walk H ltac:(eapply (step_apply _ _ _ _ 0)).
  walk H ltac:(eapply (step_publish _ _ _ _ 0)).
  eexists. split; [exact H|]. split; [done|]. split; [done|]. split.
  - eapply exec_step; [vm_compute; reflexivity|]. apply exec_done.
  - intros cm ->%list_elem_of_singleton. split.
    + repeat constructor; simpl; lia.
    + eexists _, []. split; [vm_compute; reflexivity|]. split; [vm_compute; reflexivity|]. apply not_elem_of_nil.
Qed.

Lemma unaffected_query_unchanged_witness : ∃ σ, react_reachable σ ∧ c_ts <$> history σ = [1] ∧
  exec (docStore (writer σ)) (new_Ctx 1 DEFAULT_SHARD (new_HeadroomTracker DEFAULT_HEADROOM)) count_other
    (at_snapshot other_ctx 1) (FRet 0).
Proof.
  destruct one_commit as (σ & Hr & Hc & Ht & He & Hall). exists σ. split; [done|]. split; [done|].
  apply (unaffected_query_unchanged DEFAULT_SHARD DEFAULT_HEADROOM 8 empty_db (docStore (writer σ)) (clock σ) (history σ)
    count_other _ other_ctx 0 0 1 other_sub None (λ _, [SmAdd other_sub])).
  - apply empty_db_ok.
  - by apply published_single.
  - done.
  - rewrite Hc. lia.
  - exact He.
  - reflexivity.
  - repeat constructor; simpl; lia.
  - intros cm Hin _. destruct (Hall cm Hin) as [H1 H2]. split_and!; [vm_compute; reflexivity|left|done|done].
Defined.
End example.
