(* ===== verification/DiffSync.v ===== *)
(** Differential updates: the classification of single-document reads
    ([packages/sync/src/classify.ts]), the row changes shared by server and client
    ([packages/sync/src/change.ts]) and the server's commit differ
    ([packages/sync/src/commit-differ.ts]). *)
From S2P Require Import Prelude Numbers Values Json IndexKeys Ranges IntervalIndex IdCodec DocStore MvccStore Transactor.
From S2P Require Import QueryEngine Subscriptions.

(** ** Classification *)
Definition isPointRange (r : SerializedKeyRange) : res bool :=
  if negb (starts_with (js "table:") (s_keyspace r)) then Ok false
  else match s_end r with
  | None => Ok false
  | Some _ =>
      let! k := deserializeKeyRange r in
      Ok (match end_ k with None => false | Some e => cmp_eqb (compareKeyBytes e (keySuccessor (start k))) end)
  end.

(** [Some []] is the absent document, [None] an array or a scalar. *)
Definition singleDocId (v : value) : option jsstr :=
  match v with
  | VNull => Some []
  | VObj kvs => match jm_get kvs (js "_id") with Some (VStr s) => Some s | _ => None end
  | _ => None
  end.

Definition classifyByIdRead (v : value) (readRanges : list SerializedKeyRange) : res (option ByIdRead) :=
  match readRanges with
  | [r] =>
      let! p := isPointRange r in
      Ok (if p then match singleDocId v with
            | Some docId => Some {| bi_keyspace := s_keyspace r; bi_key := s_start r; bi_docId := docId |}
            | None => None
            end
          else None)
  | _ => Ok None
  end.

Definition rangeReadFromDiffable (d : RangeRead) : RangeRead :=
  {| rr_keyspace := rr_keyspace d; rr_bounds := rr_bounds d; rr_filters := rr_filters d; rr_order := rr_order d;
     rr_fields := rr_fields d; rr_pageMeta := None |}.
Definition pageReadFromDiffable (d : RangeRead) (m : PageMeta) : RangeRead :=
  {| rr_keyspace := rr_keyspace d; rr_bounds := rr_bounds d; rr_filters := rr_filters d; rr_order := rr_order d;
     rr_fields := rr_fields d; rr_pageMeta := Some m |}.

(** ** Changes *)
Inductive Change :=
  | CAdd (key : jsstr) (row : json) (ts : Z) (orderKey : option jsstr)
  | CRemove (key : jsstr)
  | CEdit (key : jsstr) (row : json) (ts : Z) (orderKey : option jsstr).

Record RowVersion := { rv_row : json; rv_ts : Z; rv_orderKey : option jsstr }.
Abbreviation RowMap := (list (jsstr * RowVersion)).

Definition applyChange (out : RowMap) (c : Change) : RowMap :=
  match c with
  | CRemove key => jm_delete out key
  | CAdd key row ts ok | CEdit key row ts ok => jm_set out key {| rv_row := row; rv_ts := ts; rv_orderKey := ok |}
  end.
Definition applyChanges (rows : RowMap) (changes : list Change) : RowMap := fold_left applyChange changes rows.

(** The FNV-1a hash of ["<key>\0<ts>\0<orderKey>"], one byte per code unit. *)
Definition row_hash (p : jsstr * RowVersion) : Z :=
  let low := List.map (λ c, Z.land c 0xff) in
  let h := fold_left mix (low p.1) 0x811c9dc5 in
  let h := mix h 0 in
  let h := fold_left mix (low (string_of_int (rv_ts p.2))) h in
  let h := mix h 0 in
  fold_left mix (low (default [] (rv_orderKey p.2))) h.

(** [acc.toString(16).padStart(8, "0")] of a 32-bit number: its four bytes in hexadecimal. *)
Definition hex8 (z : Z) : jsstr := concat (List.map (λ i, hex2 (Z.shiftr z i mod 256)) [24; 16; 8; 0]).

Definition driftChecksum (rows : RowMap) : jsstr :=
  hex8 (fold_left (λ acc p, Z.lxor acc (row_hash p)) rows 0).

(** ** The commit differ *)
Definition byIdChangesFor (byId : ByIdRead) (prev : RowMap) (wd : option WrittenDoc) : list Change * RowMap :=
  match wd with
  | None => ([], prev)
  | Some wd =>
      let docId := wd_docId wd in
      let change := match wd_newRow wd with
        | None => CRemove docId
        | Some row =>
            if negb (wd_wasPresent wd) || negb (jm_has prev docId) then CAdd docId row (wd_ts wd) None
            else CEdit docId row (wd_ts wd) None
        end in
      ([change], applyChanges prev [change])
  end.

Definition byIdResetChanges (docId : jsstr) (row : option json) (ts : Z) : list Change * RowMap :=
  match row with
  | None => ([], [])
  | Some row => ([CAdd docId row ts None], jm_set [] docId {| rv_row := row; rv_ts := ts; rv_orderKey := None |})
  end.

(** [row as unknown as DocumentValue]: the JSON row itself, read as a value. *)
Fixpoint as_value (j : json) : value :=
  match j with
  | JNull => VNull
  | JBool b => VBool b
  | JNum n => VNum n
  | JStr s => VStr s
  | JArr l => VArr (List.map as_value l)
  | JObj kvs => VObj (List.map (λ kv, match kv with (k, v) => (k, as_value v) end) kvs)
  end.

Definition orderKeyFor (rr : RangeRead) (row : json) : res jsstr :=
  let! key := extractIndexKey (as_value row) (rr_fields rr) in Ok (bytesToBase64 key).

Definition inBounds (rr : RangeRead) (orderKeyB64 : jsstr) : res bool :=
  let! bounds := deserializeKeyRange (rr_bounds rr) in
  let! key := base64ToBytes orderKeyB64 in
  Ok (keyInRange key bounds).

Definition passesFilters (rr : RangeRead) (row : json) : bool :=
  forallb (evaluateFilter (as_value row)) (rr_filters rr).

(** [String(row._id)]: the system field of a document, always a string. *)
Definition row_id (row : json) : jsstr :=
  match row with
  | JObj kvs => match jm_get kvs (js "_id") with Some (JStr s) => s | _ => [] end
  | _ => []
  end.

Definition rangeResetChanges (rr : RangeRead) (orderedDocs : list json) (ts : Z) : res (list Change * RowMap) :=
  let! keyed := traverse (λ row, let! ok := orderKeyFor rr row in Ok (row_id row, row, ok)) orderedDocs in
  Ok (List.map (λ x, CAdd x.1.1 x.1.2 ts (Some x.2)) keyed,
      fold_left (λ m x, jm_set m x.1.1 {| rv_row := x.1.2; rv_ts := ts; rv_orderKey := Some x.2 |}) keyed []).

(** The change one written document makes to a range subscription, if any. *)
Definition range_change (rr : RangeRead) (prev : RowMap) (wd : WrittenDoc) : res (option Change) :=
  let key := wd_docId wd in
  let before := jm_has prev key in
  match wd_newRow wd with
  | None => Ok (if before then Some (CRemove key) else None)
  | Some row =>
      let! orderKey := orderKeyFor rr row in
      let! inb := inBounds rr orderKey in
      let after := inb && passesFilters rr row in
      Ok (if negb before && after then Some (CAdd key row (wd_ts wd) (Some orderKey))
          else if before && after then Some (CEdit key row (wd_ts wd) (Some orderKey))
          else if before && negb after then Some (CRemove key)
          else None)
  end.

Definition rangeChangesFor (rr : RangeRead) (prev : RowMap) (writtenDocs : list WrittenDoc) : res (list Change * RowMap) :=
  let! cs := traverse (range_change rr prev) writtenDocs in
  let changes := omap id cs in
  Ok (changes, applyChanges prev changes).

(** [sendSessionTransition]: the written documents of the subscription's table. *)
Definition docs_of_table (rr : RangeRead) (docs : list WrittenDoc) : res (list WrittenDoc) :=
  let! subTable := tableOfKeyspaceId (rr_keyspace rr) in
  let! tagged := traverse (λ w, let! t := tableOfKeyspaceId (wd_keyspace w) in Ok (t, w)) docs in
  Ok ((filter (λ p, p.1 = subTable) tagged).*2).

(** ** What a range subscription should show *)

(** The membership test the query engine makes on a stored document, with the entry's key. *)
Definition member (rr : RangeRead) (doc : value) : option jsstr :=
  match extractIndexKey doc (rr_fields rr), deserializeKeyRange (rr_bounds rr) with
  | Ok k, Ok b => if keyInRange k b && forallb (evaluateFilter doc) (rr_filters rr) then Some (bytesToBase64 k) else None
  | _, _ => None
  end.

(** The row a document contributes to the view. *)
Definition row_of (rr : RangeRead) (doc : value) : option (json * option jsstr) :=
  (λ ok, (convexToJson doc, Some ok)) <$> member rr doc.

Definition shape (rv : RowVersion) : json * option jsstr := (rv_row rv, rv_orderKey rv).

(** A row map shows the documents of a table: exactly the members, at their rows and order keys. *)
Definition shows (rr : RangeRead) (m : RowMap) (docs : list (jsstr * value)) : Prop :=
  jm_ok m ∧ ∀ k, shape <$> jm_get m k = jm_get docs k ≫= row_of rr.

(** A commit's effect on the documents of the table, and what it publishes for them. *)
Definition write_doc (docs : list (jsstr * value)) (w : jsstr * option value) : list (jsstr * value) :=
  match w.2 with Some d => jm_set docs w.1 d | None => jm_delete docs w.1 end.
Definition publishes (w : jsstr * option value) (wd : WrittenDoc) : Prop :=
  wd_docId wd = w.1 ∧ wd_newRow wd = convexToJson <$> w.2.

(** A document whose JSON form reads back as itself, with an indexable key. *)
Definition plain (d : value) : Prop := as_value (convexToJson d) = d.
Definition indexed (rr : RangeRead) (d : value) : Prop :=
  plain d ∧ ∃ k, extractIndexKey d (rr_fields rr) = Ok k ∧ Forall is_byte k.

Definition apply_opt (m : RowMap) (oc : option Change) : RowMap :=
  match oc with Some c => applyChange m c | None => m end.

Lemma apply_changes_opt prev cs : applyChanges prev (omap id cs) = fold_left apply_opt cs prev.
Proof. revert prev. induction cs as [|[c|] cs IH]; intros prev; simpl; auto. Qed.

Lemma jm_has_get {K A} `{!EqDecision K} (m : list (K * A)) k : jm_has m k = bool_decide (is_Some (jm_get m k)).
Proof. done. Qed.

(** Setting or deleting one key, as seen through [jm_get]. *)
Lemma apply_opt_frame m oc key : jm_ok m →
  (∀ c, oc = Some c → match c with CAdd k _ _ _ | CRemove k | CEdit k _ _ _ => k = key end) →
  jm_ok (apply_opt m oc) ∧ ∀ k', k' ≠ key → jm_get (apply_opt m oc) k' = jm_get m k'.
Proof.
  intros Hm Hc. destruct oc as [c|]; [|done]. specialize (Hc c eq_refl). destruct c as [k row ts ok|k|k row ts ok]; subst k; simpl.
  - split; [by apply jm_set_ok|]. intros k' Hk. rewrite jm_get_set. by rewrite decide_False.
  - split; [by apply jm_delete_ok|]. intros k' Hk. rewrite jm_get_delete by done. by rewrite decide_False.
  - split; [by apply jm_set_ok|]. intros k' Hk. rewrite jm_get_set. by rewrite decide_False.
Qed.

Lemma range_change_spec rr b prev w wd : deserializeKeyRange (rr_bounds rr) = Ok b → publishes w wd →
  (∀ d, w.2 = Some d → indexed rr d) →
  ∃ oc, range_change rr prev wd = Ok oc ∧
    (∀ c, oc = Some c → match c with CAdd k _ _ _ | CRemove k | CEdit k _ _ _ => k = w.1 end) ∧
    ∀ m, jm_ok m → jm_get m w.1 = jm_get prev w.1 → shape <$> jm_get (apply_opt m oc) w.1 = w.2 ≫= row_of rr.
Proof.
  intros Hb [Hid Hrow] Hix. unfold range_change. rewrite Hid, Hrow. destruct w as [key [d|]]; cbn [fst snd fmap option_fmap option_map] in *.
  - destruct (Hix d eq_refl) as (Hp & k & Hk & Hbytes). unfold orderKeyFor, inBounds, passesFilters. rewrite Hp, Hk. cbn [res_bind].
    rewrite Hb. cbn [res_bind]. rewrite base64_roundtrip by done. cbn [res_bind].
    assert (Hmem : row_of rr d = if keyInRange k b && forallb (evaluateFilter d) (rr_filters rr)
      then Some (convexToJson d, Some (bytesToBase64 k)) else None).
    { unfold row_of, member. rewrite Hk, Hb. by destruct (_ && _). }
    destruct (keyInRange k b && forallb (evaluateFilter d) (rr_filters rr)) eqn:Ea; destruct (jm_has prev key) eqn:Eh; cbn [negb andb].
    + eexists. split; [done|]. split; [by intros ? [= <-]|]. intros m Hm _. simpl. rewrite jm_get_set, decide_True by done. simpl. by rewrite Hmem.
    + eexists. split; [done|]. split; [by intros ? [= <-]|]. intros m Hm _. simpl. rewrite jm_get_set, decide_True by done. simpl. by rewrite Hmem.
    + eexists. split; [done|]. split; [by intros ? [= <-]|]. intros m Hm _. simpl. rewrite jm_get_delete, decide_True by done. simpl. by rewrite Hmem.
    + eexists. split; [done|]. split; [by intros ? [=]|]. intros m Hm E. simpl. rewrite E, Hmem.
      unfold jm_has in Eh. apply bool_decide_eq_false in Eh. destruct (jm_get prev key); [|done]. exfalso. by apply Eh.
  - destruct (jm_has prev key) eqn:Eh; (eexists; split; [done|]; split; [by intros ? [= <-] || intros ? [=]|]); intros m Hm E; simpl.
    + by rewrite jm_get_delete, decide_True.
    + rewrite E. unfold jm_has in Eh. apply bool_decide_eq_false in Eh. destruct (jm_get prev key); [|done]. exfalso. by apply Eh.
Qed.

Lemma write_doc_get docs w k : jm_ok docs → jm_get (write_doc docs w) k = if decide (k = w.1) then w.2 else jm_get docs k.
Proof.
  intros Hd. unfold write_doc. destruct w as [key [d|]]; simpl; [rewrite jm_get_set|rewrite jm_get_delete by done]; by case_decide.
Qed.

Lemma write_doc_ok docs w : jm_ok docs → jm_ok (write_doc docs w).
Proof. intros H. unfold write_doc. destruct w.2; [by apply jm_set_ok|by apply jm_delete_ok]. Qed.

(** The changes of a commit, folded over a map that shows the documents. *)
Lemma range_changes_fold rr b prev ws wds : deserializeKeyRange (rr_bounds rr) = Ok b → Forall2 publishes ws wds →
  NoDup ws.*1 → (∀ k d, (k, Some d) ∈ ws → indexed rr d) →
  ∃ cs, traverse (range_change rr prev) wds = Ok cs ∧
    ∀ m docs, shows rr m docs → jm_ok docs → (∀ k, k ∈ ws.*1 → jm_get m k = jm_get prev k) →
      shows rr (fold_left apply_opt cs m) (fold_left write_doc ws docs).
Proof.
  intros Hb H2. induction H2 as [|w wd ws wds Hp _ IH]; cbn [fmap list_fmap].
  - intros _ _. by exists [].
  - intros [Hw Hn]%NoDup_cons Hix.
    destruct (range_change_spec rr b prev w wd Hb Hp) as (oc & Hoc & Hkey & Hval).
    { intros d Ed. apply (Hix w.1). rewrite <-Ed. destruct w. by left. }
    destruct IH as (cs & Hcs & Hfold); [done|intros; eapply Hix; by right|]. exists (oc :: cs).
    cbn [traverse]. rewrite Hoc. cbn [res_bind]. rewrite Hcs. split; [done|].
    intros m docs [Hm Hs] Hd Hsame. cbn [fold_left]. destruct (apply_opt_frame m oc w.1 Hm Hkey) as [Hm' Hframe].
    apply Hfold; [split; [done|]| |].
    + intros k. rewrite write_doc_get by done. case_decide as Ek; [subst|by rewrite Hframe].
      apply Hval; [done|]. apply Hsame. by left.
    + by apply write_doc_ok.
    + intros k Hk. rewrite Hframe; [apply Hsame; by right|]. by intros ->.
Qed.

(** ** The checksum does not depend on the order of the rows *)
Lemma fold_lxor_perm (l l' : RowMap) acc : l ≡ₚ l' →
  fold_left (λ acc p, Z.lxor acc (row_hash p)) l acc = fold_left (λ acc p, Z.lxor acc (row_hash p)) l' acc.
Proof.
  intros H. revert acc. induction H as [|x l l' _ IH|x y l|l1 l2 l3 _ IH1 _ IH2]; intros acc; simpl; auto.
  - f_equal. rewrite !Z.lxor_assoc. f_equal. apply Z.lxor_comm.
  - by rewrite IH1.
Qed.

Lemma jm_same_perm {K A} `{!EqDecision K} (m m' : list (K * A)) : jm_ok m → jm_ok m' →
  (∀ k, jm_get m k = jm_get m' k) → m ≡ₚ m'.
Proof.
  intros H1 H2 H. apply NoDup_Permutation; [by eapply NoDup_fmap_1|by eapply NoDup_fmap_1|].
  intros [k v]. by rewrite <-!jm_get_elem, H.
Qed.

Lemma applyChanges_get m m' cs : jm_ok m → jm_ok m' → (∀ k, jm_get m k = jm_get m' k) →
  jm_ok (applyChanges m cs) ∧ jm_ok (applyChanges m' cs) ∧ ∀ k, jm_get (applyChanges m cs) k = jm_get (applyChanges m' cs) k.
Proof.
  revert m m'. induction cs as [|c cs IH]; intros m m' H1 H2 H; [done|]. cbn [applyChanges fold_left].
  apply IH; destruct c; simpl; auto with jmap; intros k; rewrite ?jm_get_set, ?jm_get_delete by done; by rewrite H.
Qed.

Lemma checksum_perm (l l' : RowMap) : l ≡ₚ l' → driftChecksum l = driftChecksum l'.
Proof. intros Hp. unfold driftChecksum. f_equal. by apply fold_lxor_perm. Qed.

(** The differ and a client that holds the same rows in any order, after one commit. *)
Lemma range_diff_follows rr b prev docs ws wds client :
  deserializeKeyRange (rr_bounds rr) = Ok b → shows rr prev docs → jm_ok docs →
  Forall2 publishes ws wds → NoDup ws.*1 → (∀ k d, (k, Some d) ∈ ws → indexed rr d) → client ≡ₚ prev →
  ∃ changes next, rangeChangesFor rr prev wds = Ok (changes, next) ∧
    shows rr next (fold_left write_doc ws docs) ∧ applyChanges client changes ≡ₚ next.
Proof.
  intros Hb Hs Hd H2 Hn Hix Hc. destruct (range_changes_fold rr b prev ws wds Hb H2 Hn Hix) as (cs & Hcs & Hfold).
  exists (omap id cs), (applyChanges prev (omap id cs)). unfold rangeChangesFor. rewrite Hcs. cbn [res_bind].
  assert (Hok : jm_ok client) by (destruct Hs as [Hs _]; unfold jm_ok in *; by rewrite Hc).
  assert (Hget : ∀ k, jm_get client k = jm_get prev k).
  { intros k. apply option_eq. intros v. rewrite !jm_get_elem by (done || apply Hs). by rewrite Hc. }
  destruct (applyChanges_get client prev (omap id cs) Hok (proj1 Hs) Hget) as (H3 & H4 & H5).
  split_and!; [done| |by apply jm_same_perm]. rewrite apply_changes_opt. by apply Hfold.
Qed.

(** ** Property *)

(** C17: incremental updates equal re-running. If the server's row map shows a range query's documents before a
    commit, the changes computed from the commit's written documents alone make it show the documents
    after the commit: the rows in the bounds that pass the filters, with their index keys; and a client
    holding the same rows, in any order, ends with the same rows and the same drift checksum. (For
    documents whose JSON form is the document itself.) *)
Theorem range_diff_exact rr b prev docs ws wds client :
  deserializeKeyRange (rr_bounds rr) = Ok b → shows rr prev docs → jm_ok docs →
  Forall2 publishes ws wds → NoDup ws.*1 → (∀ k d, (k, Some d) ∈ ws → indexed rr d) → client ≡ₚ prev →
  ∃ changes next, rangeChangesFor rr prev wds = Ok (changes, next) ∧
    shows rr next (fold_left write_doc ws docs) ∧
    applyChanges client changes ≡ₚ next ∧ driftChecksum (applyChanges client changes) = driftChecksum next.
Proof.
  intros Hb Hs Hd H2 Hn Hix Hc. destruct (range_diff_follows rr b prev docs ws wds client Hb Hs Hd H2 Hn Hix Hc) as (changes & next & H3 & H4 & H5).
  exists changes, next. split_and!; try done. by apply checksum_perm.
Qed.

(** Setting a list of distinct keys in turn. *)
Section fold_set.
Context {A B : Type} (key : A → jsstr) (val : A → B).

Lemma fold_jm_set_ok ds m : jm_ok m → jm_ok (fold_left (λ m d, jm_set m (key d) (val d)) ds m).
Proof. revert m. induction ds as [|d ds IH]; intros m Hm; simpl; [done|]. apply IH. by apply jm_set_ok. Qed.

Lemma fold_jm_set_get ds m k : NoDup (key <$> ds) →
  jm_get (fold_left (λ m d, jm_set m (key d) (val d)) ds m) k =
  match find (λ d, bool_decide (key d = k)) ds with Some d => Some (val d) | None => jm_get m k end.
Proof.
  revert m. induction ds as [|d ds IH]; intros m; [done|]. cbn [fmap list_fmap]. intros [Hn1 Hn2]%NoDup_cons.
  cbn [fold_left find]. rewrite IH by done. case_bool_decide as E.
  - destruct (find _ ds) as [d'|] eqn:Ef; [|subst k; by rewrite jm_get_set, decide_True].
    apply find_some in Ef as [Hin E'%bool_decide_eq_true]. exfalso. apply Hn1. apply list_elem_of_fmap. exists d'.
    split; [congruence|by apply list_elem_of_In].
  - destruct (find _ ds); [done|]. rewrite jm_get_set, decide_False; naive_solver.
Qed.
End fold_set.

Definition key_of (d : value) : jsstr := row_id (convexToJson d).
Definition order_of (rr : RangeRead) (d : value) : jsstr := default [] (member rr d).

Lemma keyed_rows rr ds : (∀ d, d ∈ ds → indexed rr d ∧ member rr d ≠ None) →
  traverse (λ row, let! ok := orderKeyFor rr row in Ok (row_id row, row, ok)) (convexToJson <$> ds) =
  Ok ((λ d, (key_of d, convexToJson d, order_of rr d)) <$> ds).
Proof.
  induction ds as [|d ds IH]; intros Hds; [done|]. cbn [fmap list_fmap traverse].
  destruct (Hds d) as ((Hp & k & Hk & _) & Hm); [left|]. unfold orderKeyFor at 1. rewrite Hp, Hk. cbn [res_bind].
  rewrite IH by (intros; apply Hds; by right). cbn [res_bind]. do 3 f_equal. unfold order_of, member in *. rewrite Hk in *.
  destruct (deserializeKeyRange _); [|done]. by destruct (_ && _).
Qed.

(** The initial answer of a range subscription: one row per document of the scan, in its order, and the
    row map the incremental updates start from. *)
Lemma range_reset_shows rr ds ts docs : jm_ok docs →
  (∀ d, d ∈ ds → (indexed rr d ∧ member rr d ≠ None) ∧ jm_get docs (key_of d) = Some d) →
  (∀ k d, jm_get docs k = Some d → member rr d ≠ None → d ∈ ds ∧ key_of d = k) → NoDup (key_of <$> ds) →
  ∃ changes next, rangeResetChanges rr (convexToJson <$> ds) ts = Ok (changes, next) ∧
    shows rr next docs ∧ applyChanges [] changes = next ∧ length changes = length ds.
Proof.
  intros Hd Hds Hall Hnd. unfold rangeResetChanges. rewrite keyed_rows by (intros; by apply Hds). cbn [res_bind].
  eexists _, _. split; [done|]. set (rv d := {| rv_row := convexToJson d; rv_ts := ts; rv_orderKey := Some (order_of rr d) |}).
  assert (Hmap : ∀ m, fold_left (λ m x, jm_set m x.1.1 {| rv_row := x.1.2; rv_ts := ts; rv_orderKey := Some x.2 |})
    ((λ d, (key_of d, convexToJson d, order_of rr d)) <$> ds) m = fold_left (λ m d, jm_set m (key_of d) (rv d)) ds m).
  { clear. induction ds as [|d ds IH]; intros m; simpl; auto. }
  split_and!; [rewrite Hmap; split| |by rewrite length_map, length_fmap].
  - apply fold_jm_set_ok, NoDup_nil_2.
  - intros k. rewrite fold_jm_set_get by done. destruct (find _ ds) as [d|] eqn:Ef.
    + apply find_some in Ef as [Hin%list_elem_of_In E%bool_decide_eq_true]. destruct (Hds d Hin) as ([_ Hm] & Hdk).
      rewrite <-E, Hdk. cbn [mbind option_bind fmap option_fmap option_map]. unfold row_of, shape, rv, order_of. simpl.
      by destruct (member rr d).
    + cbn [jm_get fmap option_fmap option_map]. destruct (jm_get docs k) as [d|] eqn:Ed; [|done]. cbn [mbind option_bind].
      unfold row_of. destruct (member rr d) eqn:Em; [|done]. exfalso.
      destruct (Hall k d Ed) as [Hin%list_elem_of_In E]; [congruence|].
      pose proof (find_none _ _ Ef d Hin) as Hb. by apply bool_decide_eq_false in Hb.
  - unfold applyChanges. generalize (@nil (jsstr * RowVersion)). clear. induction ds as [|d ds IH]; intros m; simpl; auto.
Qed.

(** A by-id subscription's map, reset to the document or to nothing, follows the document. *)
Lemma byid_diff_follows bi docId old new ts wd :
  wd_docId wd = docId → wd_newRow wd = new →
  let prev := (byIdResetChanges docId old ts).2 in
  let r := byIdChangesFor bi prev (Some wd) in
  r.2 = (byIdResetChanges docId new (wd_ts wd)).2 ∧ applyChanges prev r.1 = r.2.
Proof.
  intros <- <-. cbv zeta. unfold byIdChangesFor, byIdResetChanges.
  destruct (wd_newRow wd) as [row'|]; [destruct (negb _ || negb _)|];
    (destruct old as [row|]; simpl; rewrite ?decide_True by done; done).
Qed.

(** ** Witness *)
Definition wrange : RangeRead :=
  {| rr_keyspace := js "index:10001:by_creation"; rr_bounds := serializeKeyRange {| keyspace := js "i"; start := []; end_ := None |};
     rr_filters := [FCompare OpEq (js "n") (VStr (js "a"))]; rr_order := Asc; rr_fields := []; rr_pageMeta := None |}.
Definition wdoc (id : string) (n : value) : value := VObj [(js "_id", VStr (js id)); (js "n", n)].
Definition wpub (id : string) (n : option value) (ts : Z) : WrittenDoc :=
  {| wd_key := []; wd_keyspace := js "table:10001"; wd_docId := js id;
     wd_newRow := match n with Some n => Some (convexToJson (wdoc id n)) | None => None end; wd_wasPresent := true; wd_ts := ts |}.

Lemma range_diff_exact_witness :
  ∃ changes next, rangeChangesFor wrange [] [wpub "x" (Some (VStr (js "a"))) 7; wpub "y" (Some (VStr (js "b"))) 7] = Ok (changes, next) ∧
    List.map fst next = [js "x"] ∧ applyChanges [] changes ≡ₚ next.
Proof.
  destruct (range_diff_exact wrange {| keyspace := js "i"; start := []; end_ := None |} [] []
    [(js "x", Some (wdoc "x" (VStr (js "a")))); (js "y", Some (wdoc "y" (VStr (js "b"))))]
    [wpub "x" (Some (VStr (js "a"))) 7; wpub "y" (Some (VStr (js "b"))) 7] []) as (changes & next & H1 & H2 & H3 & _).
  - vm_compute. reflexivity.
  - split; [apply NoDup_nil_2|done].
  - apply NoDup_nil_2.
  - repeat constructor.
  - apply (bool_decide_unpack _). vm_compute. exact I.
  - intros k d Hin. apply elem_of_cons in Hin as [[= -> ->]|Hin]; [|apply list_elem_of_singleton in Hin as [= -> ->]].
    all: split; [vm_compute; reflexivity|]; eexists; split; [vm_compute; reflexivity|]; apply (bool_decide_unpack _); vm_compute; exact I.
  - done.
  - exists changes, next. split; [exact H1|]. split; [|exact H3]. vm_compute in H1. injection H1 as <- <-. reflexivity.
Defined.

(** A document that holds a bigint is not its own JSON form: a filter on the field sees the tagged object, so
    an edit of a matching document is published as its removal, and an index on the field cannot be
    computed at all. *)
Lemma bigint_row_dropped :
  let rr := {| rr_keyspace := js "index:10001:by_creation"; rr_bounds := rr_bounds wrange;
               rr_filters := [FCompare OpEq (js "n") (VBig 5)]; rr_order := Asc; rr_fields := []; rr_pageMeta := None |} in
  let ix := {| rr_keyspace := js "index:10001:by_n"; rr_bounds := rr_bounds wrange; rr_filters := []; rr_order := Asc;
               rr_fields := [js "n"]; rr_pageMeta := None |} in
  let doc := wdoc "x" (VBig 5) in
  let prev := [(js "x", {| rv_row := convexToJson doc; rv_ts := 1; rv_orderKey := member rr doc |})] in
  shows rr prev [(js "x", doc)] ∧ member rr doc ≠ None ∧ member ix doc ≠ None ∧
  rangeChangesFor rr prev [wpub "x" (Some (VBig 5)) 2] = Ok ([CRemove (js "x")], []) ∧
  orderKeyFor ix (convexToJson doc) = Err TypeError.
Proof.
  cbv zeta. split; [split; [apply NoDup_singleton|]|split_and!; vm_compute; (reflexivity || discriminate)].
  intros k. cbn [jm_get]. case_decide; [|done]. vm_compute. reflexivity.
Qed.
