(* ===== verification/SessionFlow.v ===== *)
(** Delivery of server frames to one session: the backpressure and heartbeat controllers of
    [packages/sync/src/session-controllers.ts], the version brackets of [packages/sync/src/protocol.ts] and
    the client reducer of [packages/sync/src/client-reducer.ts], and what a client that loses frames to
    backpressure ends up with. The clock is read once per call; a call of a controller is synchronous. *)
From S2P Require Import Prelude Numbers Values Json IndexKeys Ranges DocStore ExactlyOnce QueryEngine Subscriptions DiffSync.

(** ** The backpressure controller

    The socket is the transport's: its buffered amount and its [send] are parameters. *)
Record QueuedFrame (A : Type) := { qf_data : A; qf_undroppable : bool }.
Arguments qf_data {A}.
Arguments qf_undroppable {A}.

Record BackpressureOptions := {
  highWaterBytes : Z; maxQueuedFrames : Z; slowClientTimeoutMs : Z; maxUndroppableQueuedFrames : Z }.

(** The constructor's defaults; the undroppable cap defaults to the effective frame cap. *)
Definition new_options (high maxq slow maxu : option Z) : BackpressureOptions :=
  let q := default 200 maxq in
  {| highWaterBytes := default (1024 * 1024) high; maxQueuedFrames := q; slowClientTimeoutMs := default 30000 slow;
     maxUndroppableQueuedFrames := default q maxu |}.

Section backpressure.
Context {Socket A : Type} (bufferedAmount : Socket → Z) (socket_send : Socket → A → Socket).
Context (opts : BackpressureOptions).

(** [sent] is what was handed to the socket, [overflows] the calls of [onOverflow]. *)
Record Controller := {
  socket : Socket; sent : list (QueuedFrame A);
  queue : list (QueuedFrame A); droppedFrames : Z; undroppableQueuedCount : Z;
  overflowed : bool; backpressureSince : option Z; droppedThisEpisode : bool; overflows : nat }.

Definition new_Controller (sk : Socket) : Controller :=
  {| socket := sk; sent := []; queue := []; droppedFrames := 0; undroppableQueuedCount := 0; overflowed := false;
     backpressureSince := None; droppedThisEpisode := false; overflows := 0 |}.

Definition roomy (sk : Socket) : bool := bufferedAmount sk <? highWaterBytes opts.

(** [socket.send(frame.data)] *)
Definition transmit (c : Controller) (f : QueuedFrame A) : Controller :=
  {| socket := socket_send (socket c) (qf_data f); sent := sent c ++ [f]; queue := queue c;
     droppedFrames := droppedFrames c; undroppableQueuedCount := undroppableQueuedCount c; overflowed := overflowed c;
     backpressureSince := backpressureSince c; droppedThisEpisode := droppedThisEpisode c; overflows := overflows c |}.

Definition with_queue (c : Controller) (q : list (QueuedFrame A)) (n : Z) : Controller :=
  {| socket := socket c; sent := sent c; queue := q; droppedFrames := droppedFrames c; undroppableQueuedCount := n;
     overflowed := overflowed c; backpressureSince := backpressureSince c; droppedThisEpisode := droppedThisEpisode c;
     overflows := overflows c |}.

Definition with_episode (c : Controller) (since : option Z) (dropped : bool) : Controller :=
  {| socket := socket c; sent := sent c; queue := queue c; droppedFrames := droppedFrames c;
     undroppableQueuedCount := undroppableQueuedCount c; overflowed := overflowed c; backpressureSince := since;
     droppedThisEpisode := dropped; overflows := overflows c |}.

(** [_droppedFrames += n] and [markEpisodeDropped] *)
Definition count_drops (c : Controller) (n : Z) : Controller :=
  {| socket := socket c; sent := sent c; queue := queue c; droppedFrames := droppedFrames c + n;
     undroppableQueuedCount := undroppableQueuedCount c; overflowed := overflowed c;
     backpressureSince := backpressureSince c; droppedThisEpisode := true; overflows := overflows c |}.

Definition dropQueue (c : Controller) : Controller :=
  let survivors := filter (λ f, qf_undroppable f = true) (queue c) in
  let droppedCount := Z.of_nat (length (queue c)) - Z.of_nat (length survivors) in
  if droppedCount =? 0 then c
  else count_drops (with_queue c survivors (undroppableQueuedCount c)) droppedCount.

Definition countDrop (c : Controller) : Controller := count_drops c 1.

Definition overflow (c : Controller) : Controller :=
  if overflowed c then c
  else {| socket := socket c; sent := sent c; queue := queue c; droppedFrames := droppedFrames c;
          undroppableQueuedCount := undroppableQueuedCount c; overflowed := true;
          backpressureSince := backpressureSince c; droppedThisEpisode := droppedThisEpisode c;
          overflows := S (overflows c) |}.

(** The loop of [flush]: shift and send while the socket has room. *)
Fixpoint drain (c : Controller) (q : list (QueuedFrame A)) : Controller :=
  match q with
  | [] => with_queue c [] (undroppableQueuedCount c)
  | f :: q' =>
      if roomy (socket c) then
        drain (transmit (with_queue c q' (if qf_undroppable f then undroppableQueuedCount c - 1 else undroppableQueuedCount c)) f) q'
      else with_queue c q (undroppableQueuedCount c)
  end.

Definition since_or (c : Controller) (now : Z) : Controller :=
  match backpressureSince c with None => with_episode c (Some now) (droppedThisEpisode c) | Some _ => c end.

Definition slow (c : Controller) (now : Z) : bool :=
  match backpressureSince c with Some t => slowClientTimeoutMs opts <=? now - t | None => false end.

Definition flush (c : Controller) (now : Z) : Controller :=
  let c := drain c (queue c) in
  if Nat.eqb (length (queue c)) 0 && roomy (socket c) then with_episode c None false
  else
    let c := since_or c now in
    if Nat.ltb 0 (length (queue c)) && slow c now then dropQueue c else c.

Definition send (c : Controller) (now : Z) (data : A) (undroppable : bool) : Controller :=
  let f := {| qf_data := data; qf_undroppable := undroppable |} in
  let c := flush c now in
  if Nat.eqb (length (queue c)) 0 && roomy (socket c) then transmit c f
  else if undroppable then
    if maxUndroppableQueuedFrames opts <=? undroppableQueuedCount c then overflow c
    else with_queue c (queue c ++ [f]) (undroppableQueuedCount c + 1)
  else
    let c := since_or c now in
    if slow c now then countDrop (dropQueue c)
    else if maxQueuedFrames opts <=? Z.of_nat (length (queue c)) then countDrop c
    else with_queue c (queue c ++ [f]) (undroppableQueuedCount c).

(** A session's life: sends, periodic flushes, and the socket changing under the controller. *)
Inductive bp_op :=
  | BpSend (now : Z) (data : A) (undroppable : bool)
  | BpFlush (now : Z)
  | BpSocket (sk : Socket).

Definition bp_step (c : Controller) (op : bp_op) : Controller :=
  match op with
  | BpSend now data u => send c now data u
  | BpFlush now => flush c now
  | BpSocket sk =>
      {| socket := sk; sent := sent c; queue := queue c; droppedFrames := droppedFrames c;
         undroppableQueuedCount := undroppableQueuedCount c; overflowed := overflowed c;
         backpressureSince := backpressureSince c; droppedThisEpisode := droppedThisEpisode c; overflows := overflows c |}
  end.
Definition bp_run (sk : Socket) (ops : list bp_op) : Controller := fold_left bp_step ops (new_Controller sk).

(** The frames given to [send], in order. *)
Definition frame_of (op : bp_op) : option (QueuedFrame A) :=
  match op with BpSend _ data u => Some {| qf_data := data; qf_undroppable := u |} | _ => None end.
Definition offered (ops : list bp_op) : list (QueuedFrame A) := omap frame_of ops.
End backpressure.
Arguments Controller : clear implicits.
Arguments bp_op : clear implicits.

(** ** The heartbeat controller *)
Section heartbeat.
Context (canPing : bool) (missedPongLimit : Z).

Record Heartbeat := { hb_timer : bool; hb_missed : Z; hb_dead : bool; hb_deaths : nat }.
Definition new_Heartbeat : Heartbeat := {| hb_timer := false; hb_missed := 0; hb_dead := false; hb_deaths := 0 |}.

Definition hb_start (h : Heartbeat) : Heartbeat :=
  if negb canPing || hb_timer h then h
  else {| hb_timer := true; hb_missed := 0; hb_dead := false; hb_deaths := hb_deaths h |}.
Definition hb_stop (h : Heartbeat) : Heartbeat :=
  {| hb_timer := false; hb_missed := hb_missed h; hb_dead := hb_dead h; hb_deaths := hb_deaths h |}.
Definition noteActivity (h : Heartbeat) : Heartbeat :=
  {| hb_timer := hb_timer h; hb_missed := 0; hb_dead := hb_dead h; hb_deaths := hb_deaths h |}.
(** [fireDead] stops the timer and calls [onDead], once. *)
Definition fireDead (h : Heartbeat) : Heartbeat :=
  if hb_dead h then h else {| hb_timer := false; hb_missed := hb_missed h; hb_dead := true; hb_deaths := S (hb_deaths h) |}.
(** The interval timer fires [tick] only while it is armed; the pong comes back as an activity. *)
Definition tick (h : Heartbeat) : Heartbeat :=
  if hb_timer h then
    let h := {| hb_timer := hb_timer h; hb_missed := hb_missed h + 1; hb_dead := hb_dead h; hb_deaths := hb_deaths h |} in
    if missedPongLimit <=? hb_missed h then fireDead h else h
  else h.
End heartbeat.

(** ** The protocol's versions and the client reducer *)
Record StateVersion := { querySet : Z; v_ts : Z }.
Definition INITIAL_VERSION : StateVersion := {| querySet := 0; v_ts := 0 |}.
Definition versionsEqual (a b : StateVersion) : bool := (querySet a =? querySet b) && (v_ts a =? v_ts b).
Definition compareStateVersion (a b : StateVersion) : comparison :=
  if negb (querySet a =? querySet b) then if querySet a <? querySet b then Lt else Gt
  else if negb (v_ts a =? v_ts b) then if v_ts a <? v_ts b then Lt else Gt
  else Eq.
Definition isContiguous (prevEnd nextStart : StateVersion) : bool := versionsEqual prevEnd nextStart.

Record QueryRequest := {
  qr_queryId : Z; qr_udfPath : jsstr; qr_args : json; qr_resultHash : option jsstr; qr_sinceTs : option Z }.

(** A durable mutation's per-tab reference, and one unit of a drained batch: the fields of a [Mutation]. *)
Record ClientMutationRef := { cr_clientId : jsstr; cr_seq : Z }.
Record MutationBatchEntry := {
  me_requestId : jsstr; me_udfPath : jsstr; me_args : json; me_clientId : option jsstr; me_seq : option Z }.

Inductive ClientMessage :=
  | MConnect (clientId : option jsstr) (held ackedThrough : option (list ClientMutationRef)) (supportsQueryDiff : bool)
  | MModifyQuerySet (add : list QueryRequest) (remove : list Z)
  | MMutation (unit : MutationBatchEntry)
  | MMutationBatch (entries : list MutationBatchEntry)
  | MAction (requestId udfPath : jsstr) (args : json)
  | MEphemeralPublish (topic : jsstr) (event : json)
  | MSetAuth (token : option jsstr)
  | MSetAdminAuth (key : jsstr).

(** How a re-baseline renders: the bare [true] of a by-id reset, a mode with an optional direction, or a page
    with its pinned metadata. *)
Inductive DiffReset :=
  | ResetTrue
  | ResetById (orderDir : option Order)
  | ResetRange (orderDir : option Order)
  | ResetPage (orderDir : Order) (meta : PageMeta).

Inductive StateModification :=
  | QueryUpdated (queryId : Z) (value : json) (hash : option jsstr)
  | QueryFailed (queryId : Z) (error : jsstr)
  | QueryRemoved (queryId : Z)
  | QueryUnchanged (queryId : Z)
  | QueryDiff (queryId : Z) (changes : list Change) (checksum : jsstr) (reset : option DiffReset) (hash : option jsstr).

Record Bracket := { startVersion : StateVersion; endVersion : StateVersion; modifications : list StateModification }.

Inductive MutationOutcome := OutcomeOk (value : option json) | OutcomeError (error : jsstr).

(** The two shapes of a [MutationResponse]. *)
Inductive MutationReply :=
  | ReplyOk (value : option json) (ts : option Z) (replayed valueMissing : bool)
  | ReplyError (error : jsstr) (code : option jsstr).
Definition outcome_of (r : MutationReply) : MutationOutcome :=
  match r with ReplyOk v _ _ _ => OutcomeOk v | ReplyError e _ => OutcomeError e end.

(** [ClientMutationVerdict]: a presented reference with its verdict, [None] for "unknown". *)
Record ClientMutationVerdict := { cmv_clientId : jsstr; cmv_seq : Z; cmv_verdict : option ClientReplay }.

Inductive ServerMessage :=
  | Transition (b : Bracket)
  | MutationResponse (requestId : jsstr) (reply : MutationReply)
  | ActionResponse (requestId : jsstr) (reply : json + jsstr)
  | ConnectAck (known : bool) (results : list ClientMutationVerdict) (deploymentId : jsstr)
  | Broadcast (topic : jsstr) (event : json)
  | OtherMessage.

Record SyncClientState := {
  version : StateVersion; queries : list (Z * json); needsResync : bool;
  mutationResults : list (jsstr * MutationOutcome); broadcasts : list (jsstr * json) }.
Definition createClientState : SyncClientState :=
  {| version := INITIAL_VERSION; queries := []; needsResync := false; mutationResults := []; broadcasts := [] |}.

Definition apply_modification (qs : list (Z * json)) (m : StateModification) : list (Z * json) :=
  match m with
  | QueryUpdated q v _ => jm_set qs q v
  | QueryRemoved q => jm_delete qs q
  | _ => qs
  end.

Definition applyServerMessage (s : SyncClientState) (msg : ServerMessage) : SyncClientState :=
  match msg with
  | Transition b =>
      if negb (versionsEqual (startVersion b) (version s)) then
        {| version := version s; queries := queries s; needsResync := true;
           mutationResults := mutationResults s; broadcasts := broadcasts s |}
      else
        {| version := endVersion b; queries := fold_left apply_modification (modifications b) (queries s);
           needsResync := needsResync s; mutationResults := mutationResults s; broadcasts := broadcasts s |}
  | MutationResponse id r =>
      {| version := version s; queries := queries s; needsResync := needsResync s;
         mutationResults := jm_set (mutationResults s) id (outcome_of r); broadcasts := broadcasts s |}
  | Broadcast t e =>
      {| version := version s; queries := queries s; needsResync := needsResync s;
         mutationResults := mutationResults s; broadcasts := broadcasts s ++ [(t, e)] |}
  | ActionResponse _ _ | ConnectAck _ _ _ | OtherMessage => s
  end.

Definition receive (msgs : list ServerMessage) : SyncClientState := fold_left applyServerMessage msgs createClientState.

(** ** The session's brackets in the handler

    Every [Transition] the handler sends starts at [session.version] and moves it: a change of the query set
    or of the identity bumps [querySet], a fan-out moves [ts] to the commit's timestamp unless the
    invalidation is a global one, and an empty frontier moves [ts] alone. *)
Inductive session_event :=
  | EvQuerySet                                   (** [doModifyQuerySet] *)
  | EvSetAuth                                    (** [handleSetAuth] *)
  | EvFanout (commitTs : Z) (global : bool)      (** [sendSessionTransition] *)
  | EvFrontier (ts : Z).                         (** [emitEmptyFrontier] *)

Definition bump (v : StateVersion) (e : session_event) : StateVersion :=
  match e with
  | EvQuerySet | EvSetAuth => {| querySet := querySet v + 1; v_ts := v_ts v |}
  | EvFanout commitTs global => {| querySet := querySet v; v_ts := if global then v_ts v else commitTs |}
  | EvFrontier ts => {| querySet := querySet v; v_ts := ts |}
  end.

Fixpoint session_run (v : StateVersion) (evs : list (session_event * list StateModification)) : list Bracket :=
  match evs with
  | [] => []
  | (e, mods) :: evs' => {| startVersion := v; endVersion := bump v e; modifications := mods |} :: session_run (bump v e) evs'
  end.

(** The event moves the version forward, or is a global invalidation, which leaves it: the local commits come in
    timestamp order. *)
Definition forward (v : StateVersion) (e : session_event) : bool :=
  match e with
  | EvQuerySet | EvSetAuth => true
  | EvFanout commitTs global => global || (v_ts v <? commitTs)
  | EvFrontier ts => v_ts v <? ts
  end.
Fixpoint all_forward (v : StateVersion) (evs : list (session_event * list StateModification)) : bool :=
  match evs with [] => true | (e, _) :: evs' => forward v e && all_forward (bump v e) evs' end.

(** ** Facts about the controller *)
Section backpressure_facts.
Context {Socket A : Type} (bufferedAmount : Socket → Z) (socket_send : Socket → A → Socket).
Context (opts : BackpressureOptions).
Abbreviation ctl := (Controller Socket A).
Abbreviation frame := (QueuedFrame A).
Implicit Types (c : ctl) (q l : list frame) (f : frame).

Definition und q : list frame := filter (λ f, qf_undroppable f = true) q.
Definition dro q : list frame := filter (λ f, ¬ qf_undroppable f = true) q.
Definition kept c : list frame := sent c ++ queue c.

Lemma und_app q q' : und (q ++ q') = und q ++ und q'.
Proof. apply filter_app. Qed.
Lemma dro_app q q' : dro (q ++ q') = dro q ++ dro q'.
Proof. apply filter_app. Qed.
Lemma und_und q : und (und q) = und q.
Proof. unfold und. rewrite list_filter_filter. apply list_filter_iff. tauto. Qed.
Lemma dro_und q : dro (und q) = [].
Proof.
  unfold und, dro. rewrite list_filter_filter. induction q as [|f q IH]; [done|]. by rewrite filter_cons_False by tauto.
Qed.
Lemma length_und_dro q : length q = (length (und q) + length (dro q))%nat.
Proof.
  unfold und, dro. induction q as [|f q IH]; [done|]. rewrite !filter_cons. simpl.
  destruct (decide (qf_undroppable f = true)); destruct (decide (¬ qf_undroppable f = true)); try tauto; simpl; lia.
Qed.

(** The queue's accounting: the counter is right and both caps hold. *)
Record queue_ok c : Prop := {
  qo_count : undroppableQueuedCount c = Z.of_nat (length (und (queue c)));
  qo_und : Z.of_nat (length (und (queue c))) ≤ Z.max 0 (maxUndroppableQueuedFrames opts);
  qo_dro : Z.of_nat (length (dro (queue c))) ≤ Z.max 0 (maxQueuedFrames opts);
  qo_overflows : overflows c = if overflowed c then 1%nat else 0%nat }.

(** The fate of the frames offered so far. *)
Record frames_ok c (all : list frame) : Prop := {
  fo_order : kept c `sublist_of` all;
  fo_und : overflowed c = false → und (kept c) = und all;
  fo_dropped : overflowed c = false → droppedFrames c = Z.of_nat (length all) - Z.of_nat (length (kept c)) }.

(** [c'] transmits more of the queue than [c], nothing else. *)
Record drained c c' : Prop := {
  dr_kept : kept c' = kept c;
  dr_queue : ∃ q, queue c = q ++ queue c';
  dr_dropped : droppedFrames c' = droppedFrames c;
  dr_over : overflowed c' = overflowed c ∧ overflows c' = overflows c;
  dr_count : undroppableQueuedCount c' - Z.of_nat (length (und (queue c'))) =
             undroppableQueuedCount c - Z.of_nat (length (und (queue c))) }.

Lemma drain_drained c q : queue c = q → drained c (drain bufferedAmount socket_send opts c q).
Proof.
  revert c. induction q as [|f q IH]; intros c Hq; cbn [drain].
  - split; try done; simpl; [unfold kept; simpl; by rewrite Hq|by exists []; rewrite Hq|by rewrite Hq].
  - destruct (roomy _ _ _).
    + match goal with |- drained c (drain _ _ _ ?x q) => set (c1 := x) end.
      destruct (IH c1 eq_refl) as [H1 [q0 H2] H3 [H4 H5] H6]. split.
      * rewrite H1. unfold kept, c1. simpl. by rewrite Hq, <-(assoc_L (++)).
      * exists (f :: q0). rewrite Hq. cbn [app]. f_equal. exact H2.
      * by rewrite H3.
      * split; [by rewrite H4|by rewrite H5].
      * rewrite H6, Hq. unfold c1. cbn [transmit with_queue undroppableQueuedCount queue]. unfold und.
        rewrite filter_cons. case_decide as Hu; [rewrite Hu; simpl; lia|]. destruct (qf_undroppable f); [done|lia].
    + split; try done; simpl; [unfold kept; simpl; by rewrite Hq|by exists []|by rewrite Hq].
Qed.

Lemma drained_queue c c' : drained c c' → queue_ok c → queue_ok c'.
Proof.
  intros [H1 [q H2] H3 [H4 H5] H6] [Q1 Q2 Q3 Q4]. rewrite H2, und_app in Q2. rewrite H2, dro_app in Q3.
  rewrite length_app in Q2, Q3. split; [lia|lia|lia|by rewrite H5, H4].
Qed.

Lemma drained_frames c c' all : drained c c' → frames_ok c all → frames_ok c' all.
Proof. intros [H1 _ H3 [H4 _] _] [F1 F2 F3]. split; rewrite ?H1, ?H3, ?H4; done. Qed.

Lemma dropQueue_ok c all : queue_ok c → frames_ok c all → queue_ok (dropQueue c) ∧ frames_ok (dropQueue c) all ∧
  overflowed (dropQueue c) = overflowed c.
Proof.
  intros [Q1 Q2 Q3 Q4] [F1 F2 F3]. unfold dropQueue. case (Z.eqb_spec _ 0); intros Hz; [done|].
  fold (und (queue c)). split_and!; [split|split|]; simpl; try done.
  - by rewrite und_und.
  - by rewrite und_und.
  - rewrite dro_und. simpl. lia.
  - etrans; [|exact F1]. unfold kept. simpl. apply sublist_app; [done|]. apply sublist_filter.
  - intros Ho. rewrite <-F2 by done. unfold kept. simpl. by rewrite !und_app, und_und.
  - intros Ho. rewrite F3 by done. unfold kept. simpl. rewrite !length_app. lia.
Qed.

(** The episode bookkeeping touches neither the queue nor the frames. *)
Lemma with_episode_ok c all t d : queue_ok c → frames_ok c all →
  queue_ok (with_episode c t d) ∧ frames_ok (with_episode c t d) all.
Proof. intros [? ? ? ?] [? ? ?]. split; by split. Qed.

Lemma since_or_ok c all now : queue_ok c → frames_ok c all →
  queue_ok (since_or c now) ∧ frames_ok (since_or c now) all ∧ queue (since_or c now) = queue c.
Proof. intros. unfold since_or. destruct (backpressureSince c); [done|]. split_and!; [by apply (with_episode_ok c all)..|done]. Qed.

Lemma flush_ok c all now : queue_ok c → frames_ok c all →
  let c' := flush bufferedAmount socket_send opts c now in queue_ok c' ∧ frames_ok c' all.
Proof.
  intros Hq Hf. cbv zeta. unfold flush. pose proof (drain_drained c (queue c) eq_refl) as Hd.
  apply (drained_queue _ _ Hd) in Hq. apply (drained_frames _ _ _ Hd) in Hf. set (c1 := drain _ _ _ c _) in *.
  destruct (_ && _); [by apply with_episode_ok|]. destruct (since_or_ok c1 all now Hq Hf) as (Hq' & Hf' & _).
  destruct (_ && _); [|done]. destruct (dropQueue_ok _ _ Hq' Hf') as (? & ? & _). done.
Qed.

(** One more frame offered: kept at the end, or dropped. *)
Lemma frames_push c c' all f : frames_ok c all → kept c' = kept c ++ [f] → overflowed c' = overflowed c →
  droppedFrames c' = droppedFrames c → frames_ok c' (all ++ [f]).
Proof.
  intros [F1 F2 F3] Hk Ho Hd. split; rewrite Hk, ?Ho, ?Hd.
  - by apply sublist_app.
  - intros E. by rewrite !und_app, F2.
  - intros E. rewrite F3, !length_app by done. lia.
Qed.

Lemma und_single f : qf_undroppable f = false → und [f] = [].
Proof. intros Hu. unfold und. by rewrite filter_cons_False by congruence. Qed.

Lemma frames_drop c all f : frames_ok c all → qf_undroppable f = false → frames_ok (countDrop c) (all ++ [f]).
Proof.
  intros [F1 F2 F3] Hu. split; change (kept (countDrop c)) with (kept c); change (overflowed (countDrop c)) with (overflowed c).
  - by apply sublist_inserts_r.
  - intros E. by rewrite und_app, F2, und_single, app_nil_r.
  - intros E. simpl. rewrite F3, length_app by done. simpl. lia.
Qed.

Lemma overflow_ok c all f : queue_ok c → frames_ok c all →
  queue_ok (overflow c) ∧ frames_ok (overflow c) (all ++ [f]).
Proof.
  intros [Q1 Q2 Q3 Q4] [F1 F2 F3]. unfold overflow. destruct (overflowed c) eqn:E.
  - split; [split; try done; by rewrite E|]. split; [by apply sublist_inserts_r|by rewrite E..].
  - split; [split; simpl; try done; by rewrite Q4|]. split; simpl; [by apply sublist_inserts_r|done..].
Qed.

Lemma und_snoc q f : und (q ++ [f]) = und q ++ (if qf_undroppable f then [f] else []).
Proof. rewrite und_app. f_equal. unfold und. rewrite filter_cons. case_decide as E; [by rewrite E|]. by destruct (qf_undroppable f). Qed.
Lemma dro_snoc q f : dro (q ++ [f]) = dro q ++ (if qf_undroppable f then [] else [f]).
Proof. rewrite dro_app. f_equal. unfold dro. rewrite filter_cons. destruct (qf_undroppable f); case_decide; naive_solver. Qed.

Lemma send_ok c all now data u : queue_ok c → frames_ok c all →
  let c' := send bufferedAmount socket_send opts c now data u in
  queue_ok c' ∧ frames_ok c' (all ++ [{| qf_data := data; qf_undroppable := u |}]).
Proof.
  intros Hq Hf. cbv zeta. unfold send. destruct (flush_ok c all now Hq Hf) as [Hq' Hf'].
  set (c1 := flush _ _ _ c now) in *. clearbody c1. clear Hq Hf c. set (f := {| qf_data := data; qf_undroppable := u |}).
  destruct (_ && _) eqn:Er.
  { apply andb_true_iff in Er as [El%Nat.eqb_eq%nil_length_inv _]. split; [by destruct Hq'; split|].
    apply (frames_push c1); try done. unfold kept. simpl. by rewrite El, !app_nil_r. }
  destruct u.
  - case (Z.leb_spec); intros Hcap; [by apply overflow_ok|]. pose proof Hq' as [Q1 Q2 Q3 Q4]. split.
    + split; simpl; try done; rewrite ?und_snoc, ?dro_snoc, !length_app; simpl; lia.
    + apply (frames_push c1); try done. unfold kept. simpl. by rewrite (assoc_L (++)).
  - destruct (since_or_ok c1 all now Hq' Hf') as (Hq2 & Hf2 & _). set (c2 := since_or c1 now) in *. clearbody c2.
    destruct (slow opts c2 now).
    + destruct (dropQueue_ok _ _ Hq2 Hf2) as (Hq3 & Hf3 & _). split; [by destruct Hq3; split|by apply frames_drop].
    + case (Z.leb_spec); intros Hcap; [split; [by destruct Hq2; split|by apply frames_drop]|].
      pose proof Hq2 as [Q1 Q2 Q3 Q4]. split.
      * split; simpl; try done; rewrite ?und_snoc, ?dro_snoc, ?length_app; simpl; try lia.
        rewrite (length_und_dro (queue c2)) in Hcap. lia.
      * apply (frames_push c2); try done. unfold kept. simpl. by rewrite (assoc_L (++)).
Qed.

Lemma bp_run_ok sk ops : let c := bp_run bufferedAmount socket_send opts sk ops in queue_ok c ∧ frames_ok c (offered ops).
Proof.
  cbv zeta. unfold bp_run. induction ops as [|op ops IH] using rev_ind.
  - split; [split; simpl; try done; lia|]. by split.
  - rewrite fold_left_app. cbn [fold_left]. destruct IH as [Hq Hf]. set (c := fold_left _ ops _) in *. clearbody c.
    unfold offered in *. rewrite omap_app. destruct op as [now data u|now|sk']; cbn [bp_step omap list_omap frame_of].
    + by apply send_ok.
    + rewrite app_nil_r. by apply flush_ok.
    + rewrite app_nil_r. destruct Hq, Hf. split; by split.
Qed.
End backpressure_facts.

(** ** Facts about the client *)
Definition bracket_of (m : ServerMessage) : option Bracket := match m with Transition b => Some b | _ => None end.

Definition apply_bracket (qs : list (Z * json)) (b : Bracket) : list (Z * json) :=
  fold_left apply_modification (modifications b) qs.

Definition end_of (v : StateVersion) (bs : list Bracket) : StateVersion :=
  fold_left (λ _ b, endVersion b) bs v.

(** Strictly later, in both components. *)
Definition vlt (a b : StateVersion) : Prop := querySet a ≤ querySet b ∧ v_ts a ≤ v_ts b ∧ a ≠ b.

Lemma versionsEqual_true a b : versionsEqual a b = true ↔ a = b.
Proof.
  unfold versionsEqual. rewrite andb_true_iff, !Z.eqb_eq. destruct a, b; simpl. split; [by intros [-> ->]|by intros [= -> ->]].
Qed.

Lemma vlt_trans a b c : vlt a b → vlt b c → vlt a c.
Proof.
  intros (H1 & H2 & H3) (H4 & H5 & H6). split_and!; [lia|lia|]. intros ->. apply H3. destruct b, c; simpl in *. f_equal; lia.
Qed.

(** Each bracket starts where the one before it ends, and moves the version forward or not at all. *)
Fixpoint chained (v : StateVersion) (bs : list Bracket) : Prop :=
  match bs with
  | [] => True
  | b :: bs' => startVersion b = v ∧ (endVersion b = v ∨ vlt v (endVersion b)) ∧ chained (endVersion b) bs'
  end.

Lemma session_chained v evs : all_forward v evs = true → chained v (session_run v evs).
Proof.
  revert v. induction evs as [|[e mods] evs IH]; intros v; cbn [all_forward session_run chained]; [done|].
  intros [Hm Hr]%andb_true_iff. split_and!; [done| |by apply IH]. cbn [endVersion].
  assert (Hq : vlt v {| querySet := querySet v + 1; v_ts := v_ts v |}).
  { split_and!; cbn; [lia..|]. intros E. apply (f_equal querySet) in E. cbn in E. lia. }
  assert (Ht : ∀ ts, v_ts v < ts → vlt v {| querySet := querySet v; v_ts := ts |}).
  { intros ts Hlt. split_and!; cbn; [lia..|]. intros E. apply (f_equal v_ts) in E. cbn in E. lia. }
  destruct e as [| |cts []|ts]; cbn in Hm |- *; [by right|by right|left; by destruct v|right..]; by apply Ht, Z.ltb_lt.
Qed.

(** Every later bracket of a chain starts at its first version or strictly after it. *)
Lemma chained_later v bs b : chained v bs → b ∈ bs → startVersion b = v ∨ vlt v (startVersion b).
Proof.
  revert v. induction bs as [|b0 bs IH]; intros v; cbn [chained]; [by intros _ ?%elem_of_nil|].
  intros (E & Hv & Hc) [->|Hin]%elem_of_cons; [by left|].
  destruct (IH _ Hc Hin) as [->|H], Hv as [Hv|Hv]; [by left|by right|by rewrite Hv in H; right|right; by eapply vlt_trans].
Qed.
Lemma vlt_irrefl a b : vlt a b → vlt b a → False.
Proof. intros H1 H2. by destruct (vlt_trans _ _ _ H1 H2) as (_ & _ & ?). Qed.

(** The brackets left for a client that has lost one are never its next. *)
Lemma receive_stuck s bs : Forall (λ b, startVersion b ≠ version s) (omap bracket_of bs) →
  let s' := fold_left applyServerMessage bs s in
  version s' = version s ∧ queries s' = queries s ∧
  needsResync s' = needsResync s || negb (Nat.eqb (length (omap bracket_of bs)) 0).
Proof.
  cbv zeta. revert s. induction bs as [|m bs IH]; intros s Hs; cbn [fold_left omap list_omap] in *.
  - simpl. by rewrite orb_false_r.
  - destruct m as [b|id o|id a|kn rs dep|t e|]; cbn [bracket_of] in *.
    + apply Forall_cons in Hs as [Hb Hs]. cbn [applyServerMessage]. destruct (versionsEqual (startVersion b) (version s)) eqn:E.
      { by apply versionsEqual_true in E. }
      destruct (IH (applyServerMessage s (Transition b))) as (H1 & H2 & H3).
      { simpl. by rewrite E. }
      simpl in H1, H2, H3. rewrite E in H1, H2, H3. simpl in H1, H2, H3. simpl. rewrite H1, H2, H3.
      split_and!; try done. by rewrite orb_true_r.
    + apply (IH (applyServerMessage s (MutationResponse id o)) Hs).
    + apply (IH s Hs).
    + apply (IH s Hs).
    + apply (IH (applyServerMessage s (Broadcast t e)) Hs).
    + apply (IH s Hs).
Qed.

(** The bracket moves the version: every one but a global invalidation's. *)
Definition moving (b : Bracket) : bool := negb (versionsEqual (startVersion b) (endVersion b)).

(** What a client that got the subsequence [R] of a chain [T] of brackets holds: it applied the first [n] brackets it
    got. Of the first [m] of the chain these are all but brackets that do not move the version, and
    the flag is raised iff something after them arrived. *)
Record caught_up (flag : bool) (v0 : StateVersion) (qs : list (Z * json)) (T R : list Bracket) (s' : SyncClientState) (n m : nat) : Prop := {
  cu_prefix : (n ≤ length R)%nat ∧ (m ≤ length T)%nat;
  cu_taken : take n R `sublist_of` take m T ∧ List.filter moving (take n R) = List.filter moving (take m T);
  cu_version : version s' = end_of v0 (take m T);
  cu_queries : queries s' = fold_left apply_bracket (take n R) qs;
  cu_resync : needsResync s' = flag || Nat.ltb n (length R) }.

(** The next bracket of the chain is lost, and the version with it: nothing that arrives later applies. *)
Lemma receive_gap msgs s b0 T : vlt (version s) (endVersion b0) → chained (endVersion b0) T → omap bracket_of msgs `sublist_of` T →
  caught_up (needsResync s) (version s) (queries s) (b0 :: T) (omap bracket_of msgs) (fold_left applyServerMessage msgs s) 0 0.
Proof.
  intros Hv HT Hs. destruct (receive_stuck s msgs) as (H1 & H2 & H3).
  { apply Forall_forall. intros x Hx E. destruct (chained_later _ _ _ HT (elem_of_sublist _ _ _ Hx Hs)) as [El|Hl]; rewrite E in *.
    - rewrite El in Hv. by destruct Hv as (_ & _ & ?).
    - by eapply vlt_irrefl. }
  split; [split; lia|done|done|done|]. rewrite H3. by destruct (omap bracket_of msgs).
Qed.
(** A lost bracket that does not move the version goes unnoticed. *)
Lemma caught_up_skip flag qs b0 T R s' n m v : moving b0 = false → endVersion b0 = v → caught_up flag v qs T R s' n m →
  caught_up flag v qs (b0 :: T) R s' n (Datatypes.S m).
Proof.
  intros Hb Hv [[C1 C1'] [C2 C2'] C3 C4 C5]. split; [split; cbn; lia| |cbn; by rewrite Hv|done|done].
  cbn. rewrite Hb. split; [by apply sublist_cons|done].
Qed.
Lemma caught_up_apply flag qs b0 T R s' n m v : caught_up flag (endVersion b0) (apply_bracket qs b0) T R s' n m →
  caught_up flag v qs (b0 :: T) (b0 :: R) s' (Datatypes.S n) (Datatypes.S m).
Proof.
  intros [[C1 C1'] [C2 C2'] C3 C4 C5]. split; [split; cbn; lia| |done|done|done].
  cbn. rewrite C2'. split; [by apply sublist_skip|done].
Qed.

Lemma receive_chain msgs s T : chained (version s) T → omap bracket_of msgs `sublist_of` T →
  ∃ n m, caught_up (needsResync s) (version s) (queries s) T (omap bracket_of msgs) (fold_left applyServerMessage msgs s) n m.
Proof.
  revert s T. induction msgs as [|m msgs IH]; intros s T HT.
  { intros _. exists 0%nat, 0%nat. split; [cbn; split; lia|done|done|done|cbn; by rewrite orb_false_r]. }
  destruct m as [b|id o|id a|kn rs dep|t e|]; cbn [fold_left omap list_omap bracket_of].
  2:{ intros Hs. by apply (IH (applyServerMessage s (MutationResponse id o))). }
  2:{ intros Hs. by apply (IH s). }
  2:{ intros Hs. by apply (IH s). }
  2:{ intros Hs. by apply (IH (applyServerMessage s (Broadcast t e))). }
  2:{ intros Hs. by apply (IH s). }
  induction T as [|b0 T IHT]; intros Hs; [by apply sublist_nil_r in Hs|]. destruct HT as (E0 & Hv & HT).
  apply sublist_cons_r in Hs as [Hs|(R' & [= <- <-] & Hs)].
  - destruct Hv as [Hv|Hv]; [|exists 0%nat, 0%nat; by apply (receive_gap (Transition b :: msgs))].
    rewrite Hv in HT. destruct (IHT HT Hs) as (n & m & C). exists n, (Datatypes.S m). apply caught_up_skip; [|done..].
    unfold moving. by rewrite E0, Hv, (proj2 (versionsEqual_true _ _) eq_refl).
  - cbn [applyServerMessage]. rewrite E0, (proj2 (versionsEqual_true _ _) eq_refl). cbn [negb].
    match goal with |- context [fold_left applyServerMessage msgs ?x] => set (s1 := x) end.
    destruct (IH s1 T HT Hs) as (n & m & C). exists (Datatypes.S n), (Datatypes.S m). by apply caught_up_apply.
Qed.

(** ** Facts about the heartbeat *)

(** A run of ticks without a pong or message in between. *)
Lemma tick_silent canPing limit n h : hb_timer h = true → hb_dead h = false → 0 ≤ hb_missed h →
  hb_missed h + Z.of_nat n < limit →
  let h' := Nat.iter n (tick limit) h in
  hb_timer h' = true ∧ hb_dead h' = false ∧ hb_missed h' = hb_missed h + Z.of_nat n ∧ hb_deaths h' = hb_deaths h ∧
  hb_start canPing h' = h'.
Proof.
  cbv zeta. intros Ht Hd Hm. induction n as [|n IH]; intros Hn; cbn [Nat.iter nat_rect].
  - split_and!; try done; [lia|]. unfold hb_start. by rewrite Ht, orb_true_r.
  - destruct IH as (T1 & T2 & T3 & T4 & _); [lia|]. change (nat_rect _ _ _ n) with (Nat.iter n (tick limit) h) in *.
    set (h1 := Nat.iter n (tick limit) h) in *. clearbody h1. unfold tick. rewrite T1. cbn [hb_missed].
    destruct (Z.leb_spec limit (hb_missed h1 + 1)); [lia|]. simpl. split_and!; try done; [lia|].
    unfold hb_start. simpl. by rewrite orb_true_r.
Qed.

(** A session that stays silent for the whole limit is declared dead, once; a dead session stops ticking. *)
Lemma heartbeat_fires n h : hb_timer h = true → hb_dead h = false → hb_missed h = 0 →
  let limit := Z.of_nat (S n) in let h' := Nat.iter (S n) (tick limit) h in
  hb_dead h' = true ∧ hb_deaths h' = S (hb_deaths h) ∧ ∀ m, Nat.iter m (tick limit) h' = h'.
Proof.
  cbv zeta. intros Ht Hd Hm. destruct (tick_silent false (Z.of_nat (S n)) n h) as (T1 & T2 & T3 & T4 & _); [done|done|lia|lia|].
  set (limit := Z.of_nat (S n)) in *. change (Nat.iter (S n) (tick limit) h) with (tick limit (Nat.iter n (tick limit) h)).
  set (h1 := Nat.iter n (tick limit) h) in *.
  assert (E : tick limit h1 = {| hb_timer := false; hb_missed := hb_missed h1 + 1; hb_dead := true; hb_deaths := S (hb_deaths h) |}).
  { unfold tick. rewrite T1. cbn [hb_missed]. destruct (Z.leb_spec limit (hb_missed h1 + 1)); [|lia].
    unfold fireDead. cbn [hb_dead hb_missed hb_deaths]. by rewrite T2, T4. }
  rewrite E. split_and!; [done..|]. intros m. induction m as [|m IH]; [done|]. simpl in *. by rewrite IH.
Qed.

(** ** Properties *)
Lemma sublist_omap {A B} (f : A → option B) (l1 l2 : list A) : l1 `sublist_of` l2 → omap f l1 `sublist_of` omap f l2.
Proof.
  induction 1 as [|x l1 l2 _ IH|x l1 l2 _ IH]; cbn [omap list_omap]; [done|..].
  - destruct (f x); [by apply sublist_skip|done].
  - destruct (f x); [by apply sublist_cons|done].
Qed.

Lemma sublist_map {A B} (f : A → B) (l1 l2 : list A) : l1 `sublist_of` l2 → f <$> l1 `sublist_of` f <$> l2.
Proof. induction 1; simpl; [done|by apply sublist_skip|by apply sublist_cons]. Qed.

(** C40: the backpressure controller is bounded and honest, whatever the socket does: the queue never holds
    more than the two caps together; what was sent and what is queued are a subsequence, in order, of the
    frames offered; the session is killed at most once; and unless it is, every undroppable frame is
    sent or queued and the dropped ones are counted. *)
Theorem backpressure_contract {Socket A} (bufferedAmount : Socket → Z) (socket_send : Socket → A → Socket) opts sk ops :
  0 ≤ maxQueuedFrames opts → 0 ≤ maxUndroppableQueuedFrames opts →
  let c := bp_run bufferedAmount socket_send opts sk ops in
  Z.of_nat (length (queue c)) ≤ maxQueuedFrames opts + maxUndroppableQueuedFrames opts ∧
  sent c ++ queue c `sublist_of` offered ops ∧
  (overflows c = if overflowed c then 1%nat else 0%nat) ∧
  (overflowed c = false →
    filter (λ f, qf_undroppable f = true) (sent c ++ queue c) = filter (λ f, qf_undroppable f = true) (offered ops) ∧
    droppedFrames c = Z.of_nat (length (offered ops)) - Z.of_nat (length (sent c ++ queue c))).
Proof.
  cbv zeta. intros H1 H2. destruct (bp_run_ok bufferedAmount socket_send opts sk ops) as [[Q1 Q2 Q3 Q4] [F1 F2 F3]].
  rewrite length_und_dro. split_and!; [lia|done|done|]. intros Ho. split; auto.
Qed.

(** What a client receives of a session's frames. *)
Lemma frames_received {Socket} (bufferedAmount : Socket → Z) socket_send opts sk (ops : list (bp_op Socket ServerMessage)) evs :
  omap bracket_of (qf_data <$> offered ops) = session_run INITIAL_VERSION evs → all_forward INITIAL_VERSION evs = true →
  let c := bp_run bufferedAmount socket_send opts sk ops in
  let T := session_run INITIAL_VERSION evs in
  let R := omap bracket_of (qf_data <$> sent c) in
  let client := receive (qf_data <$> sent c) in
  ∃ n m, (n ≤ length R)%nat ∧ (m ≤ length T)%nat ∧
    take n R `sublist_of` take m T ∧ List.filter moving (take n R) = List.filter moving (take m T) ∧
    queries client = fold_left apply_bracket (take n R) [] ∧ version client = end_of INITIAL_VERSION (take m T) ∧
    needsResync client = Nat.ltb n (length R).
Proof.
  cbv zeta. intros Hoff Hmove. destruct (bp_run_ok bufferedAmount socket_send opts sk ops) as [_ [F1 _ _]].
  set (c := bp_run _ _ _ _ _) in *.
  destruct (receive_chain (qf_data <$> sent c) createClientState (session_run INITIAL_VERSION evs)) as (n & m & [[C1 C1'] [C2 C2'] C3 C4 C5]).
  - by apply session_chained.
  - rewrite <-Hoff. apply sublist_omap. apply sublist_map. etrans; [|exact F1]. unfold kept. by apply sublist_inserts_r.
  - exists n, m. split_and!; done.
Qed.

(** What losing frames can do. Whatever the controller drops, the client applied the first [n] brackets it got, and
    these are the first [m] the session sent but for brackets that do not move the version; its version is
    where those [m] end, and the resync flag is raised exactly when a bracket arrived after them. The
    local commits are fanned out in timestamp order; a global invalidation's bracket is the one that may
    be lost without a trace ([lost_global_frame_undetected]). *)
Theorem lost_frames_detected {Socket} (bufferedAmount : Socket → Z) socket_send opts sk (ops : list (bp_op Socket ServerMessage)) evs :
  omap bracket_of (qf_data <$> offered ops) = session_run INITIAL_VERSION evs → all_forward INITIAL_VERSION evs = true →
  let c := bp_run bufferedAmount socket_send opts sk ops in
  let T := session_run INITIAL_VERSION evs in
  let R := omap bracket_of (qf_data <$> sent c) in
  let client := receive (qf_data <$> sent c) in
  ∃ n m, (n ≤ length R)%nat ∧ (m ≤ length T)%nat ∧
    take n R `sublist_of` take m T ∧ List.filter moving (take n R) = List.filter moving (take m T) ∧
    queries client = fold_left apply_bracket (take n R) [] ∧ version client = end_of INITIAL_VERSION (take m T) ∧
    needsResync client = Nat.ltb n (length R).
Proof. apply frames_received. Qed.

(** ** Witnesses: a socket that fills up, over a queue of at most one frame *)
Definition full_then_open (q0 : Z) (msgs1 msgs2 : list ServerMessage) : list (bp_op Z ServerMessage) :=
  List.map (λ m, BpSend 0 m false) (firstn 1 msgs1) ++ [BpSocket 10] ++ List.map (λ m, BpSend 1 m false) (skipn 1 msgs1) ++
  [BpSocket q0] ++ List.map (λ m, BpSend 2 m false) msgs2.
Definition tight (q : Z) : BackpressureOptions := new_options (Some 10) (Some q) None (Some 1).

Lemma backpressure_contract_witness :
  let ops := [BpSocket 10; BpSend 0 1 false; BpSend 0 2 true; BpSend 0 3 false; BpSend 0 4 true] in
  let c := bp_run id (λ s _, s) (tight 1) 0 ops in
  qf_data <$> queue c = [1; 2] ∧ droppedFrames c = 1 ∧ overflowed c = true ∧ overflows c = 1%nat ∧
  sent c ++ queue c `sublist_of` offered ops.
Proof.
  cbv zeta. split_and!; try (vm_compute; reflexivity).
  apply (backpressure_contract id (λ s _, s) (tight 1) 0 [BpSocket 10; BpSend 0 1 false; BpSend 0 2 true; BpSend 0 3 false; BpSend 0 4 true]);
    vm_compute; discriminate.
Defined.

Definition some_events : list (session_event * list StateModification) :=
  [(EvQuerySet, [QueryUpdated 1 (JBool false) None]); (EvFanout 3 false, [QueryUpdated 1 (JBool true) None]);
   (EvFanout 5 false, [QueryUpdated 2 JNull None])].
Definition some_frames (evs : list (session_event * list StateModification)) : list (bp_op Z ServerMessage) :=
  let ms := List.map Transition (session_run INITIAL_VERSION evs) in full_then_open 0 (firstn 2 ms) (skipn 2 ms).

(** The second frame is dropped: the client keeps its first answer and knows that it must resync. *)
Lemma lost_frames_detected_witness :
  let c := bp_run id (λ s _, s) (tight 0) 0 (some_frames some_events) in
  let client := receive (qf_data <$> sent c) in
  length (sent c) = 2%nat ∧ needsResync client = true ∧ queries client = [(1, JBool false)].
Proof.
  cbv zeta. split; [vm_compute; reflexivity|].
  destruct (lost_frames_detected id (λ s _, s) (tight 0) 0 (some_frames some_events) some_events) as (n & m & H1 & H2 & H3 & H4 & H5 & H6 & H7);
    [vm_compute; reflexivity|vm_compute; reflexivity|].
  split; [vm_compute; reflexivity|]. clear H1 H2 H3 H4 H6 H7. vm_compute. reflexivity.
Defined.

(** A global invalidation's bracket does not move the version, so losing it goes unnoticed: with the same
    socket the client misses the update of query 1 for good and does not ask for a resync. *)
Lemma lost_global_frame_undetected :
  let evs := [(EvQuerySet, [QueryUpdated 1 (JBool false) None]); (EvFanout 0 true, [QueryUpdated 1 (JBool true) None]);
              (EvFanout 5 false, [QueryUpdated 2 JNull None])] in
  let client := receive (qf_data <$> sent (bp_run id (λ s _, s) (tight 0) 0 (some_frames evs))) in
  needsResync client = false ∧ version client = end_of INITIAL_VERSION (session_run INITIAL_VERSION evs) ∧
  jm_get (queries client) 1 = Some (JBool false) ∧
  jm_get (fold_left apply_bracket (session_run INITIAL_VERSION evs) []) 1 = Some (JBool true).
Proof. split_and!; vm_compute; reflexivity. Qed.
