(* ===== verification/ClientStore.v ===== *)
(** The client's layered query store: [packages/client/src/layered-store.ts] and the store an optimistic
    updater sees ([optimistic-store.ts]). A subscription object is shared by [byHash] and [byId], so the
    store is a heap of subscriptions and two maps of addresses. A JavaScript value held by a
    subscription is a [Ref], the value with the identity [===] compares. Notifications to listeners are
    appended to a trace; a listener neither throws nor calls back into the store. An updater is the
    tree of the calls it makes on its store: by the replay-purity rule of [optimistic-store.ts] it is a
    function of its arguments and of what those calls return. *)
From S2P Require Import Prelude Numbers Values Json IndexKeys Ranges DocStore QueryEngine Subscriptions DiffSync SessionFlow.

(** ** References and [===] *)
Record Ref := { r_id : nat; r_val : value }.

Definition is_object (v : value) : bool := match v with VBytes _ | VArr _ | VObj _ => true | _ => false end.
Definition prim_eq (a b : value) : bool :=
  match a, b with
  | VNull, VNull => true
  | VBool x, VBool y => Bool.eqb x y
  | VNum x, VNum y => SFeqb x y
  | VBig x, VBig y => x =? y
  | VStr x, VStr y => bool_decide (x = y)
  | _, _ => false
  end.
Definition strict_eq (a b : option Ref) : bool :=
  match a, b with
  | None, None => true
  | Some x, Some y =>
      if is_object (r_val x) then is_object (r_val y) && Nat.eqb (r_id x) (r_id y) else prim_eq (r_val x) (r_val y)
  | _, _ => false
  end.

(** ** Subscriptions and the store *)
Inductive RenderMode := ModeById | ModeRange | ModePage.

Record ClientSub := {
  cs_queryId : Z; cs_path : jsstr; cs_args : json; cs_hash : jsstr;
  serverValue : option Ref; composedValue : option Ref; answered : bool; lastHash : option jsstr;
  diffRows : option RowMap; renderMode : option RenderMode; orderDir : option Order; pageMeta : option PageMeta;
  listeners : list nat }.

Inductive Note := NUpdate (listener : nat) (v : Ref) | NError (listener : nat) (error : jsstr).

Record Store := {
  heap : list (nat * ClientSub); byHash : list (jsstr * nat); byId : list (Z * nat);
  next : nat; trace : list Note }.
Definition new_Store : Store := {| heap := []; byHash := []; byId := []; next := 0; trace := [] |}.

Definition with_heap (s : Store) (h : list (nat * ClientSub)) : Store :=
  {| heap := h; byHash := byHash s; byId := byId s; next := next s; trace := trace s |}.
Definition with_next (s : Store) (n : nat) : Store :=
  {| heap := heap s; byHash := byHash s; byId := byId s; next := n; trace := trace s |}.
Definition notify (s : Store) (ns : list Note) : Store :=
  {| heap := heap s; byHash := byHash s; byId := byId s; next := next s; trace := trace s ++ ns |}.
Definition upd_sub (s : Store) (p : nat) (f : ClientSub → ClientSub) : Store :=
  match jm_get (heap s) p with Some sub => with_heap s (jm_set (heap s) p (f sub)) | None => s end.

(** A freshly created JavaScript value. *)
Definition mint (s : Store) (v : value) : Ref * Store :=
  ({| r_id := next s; r_val := v |}, with_next s (S (next s))).

Definition create (s : Store) (queryId : Z) (path : jsstr) (args : json) (hash : jsstr) : nat * Store :=
  let sub := {| cs_queryId := queryId; cs_path := path; cs_args := args; cs_hash := hash; serverValue := None;
    composedValue := None; answered := false; lastHash := None; diffRows := None; renderMode := None;
    orderDir := None; pageMeta := None; listeners := [] |} in
  let p := next s in
  (p, {| heap := jm_set (heap s) p sub; byHash := jm_set (byHash s) hash p; byId := jm_set (byId s) queryId p;
         next := S p; trace := trace s |}).

Definition remove (s : Store) (hash : jsstr) : Store :=
  match jm_get (byHash s) hash ≫= jm_get (heap s) with
  | None => s
  | Some sub => {| heap := heap s; byHash := jm_delete (byHash s) hash; byId := jm_delete (byId s) (cs_queryId sub);
                   next := next s; trace := trace s |}
  end.

Definition with_server (v : option Ref) (h : option jsstr) (sub : ClientSub) : ClientSub :=
  {| cs_queryId := cs_queryId sub; cs_path := cs_path sub; cs_args := cs_args sub; cs_hash := cs_hash sub;
     serverValue := v; composedValue := composedValue sub; answered := true; lastHash := h; diffRows := None;
     renderMode := None; orderDir := None; pageMeta := None; listeners := listeners sub |}.
Definition setServerValue (s : Store) (p : nat) (v : option Ref) (h : option jsstr) : Store := upd_sub s p (with_server v h).

Definition with_answered (sub : ClientSub) : ClientSub :=
  {| cs_queryId := cs_queryId sub; cs_path := cs_path sub; cs_args := cs_args sub; cs_hash := cs_hash sub;
     serverValue := serverValue sub; composedValue := composedValue sub; answered := true; lastHash := lastHash sub;
     diffRows := diffRows sub; renderMode := renderMode sub; orderDir := orderDir sub; pageMeta := pageMeta sub;
     listeners := listeners sub |}.
Definition markAnswered (s : Store) (p : nat) : Store := upd_sub s p with_answered.
Definition markUnchanged (s : Store) (p : nat) : Store := upd_sub s p with_answered.

Definition with_lastHash (h : option jsstr) (sub : ClientSub) : ClientSub :=
  {| cs_queryId := cs_queryId sub; cs_path := cs_path sub; cs_args := cs_args sub; cs_hash := cs_hash sub;
     serverValue := serverValue sub; composedValue := composedValue sub; answered := answered sub; lastHash := h;
     diffRows := diffRows sub; renderMode := renderMode sub; orderDir := orderDir sub; pageMeta := pageMeta sub;
     listeners := listeners sub |}.
Definition with_composed (v : option Ref) (sub : ClientSub) : ClientSub :=
  {| cs_queryId := cs_queryId sub; cs_path := cs_path sub; cs_args := cs_args sub; cs_hash := cs_hash sub;
     serverValue := serverValue sub; composedValue := v; answered := answered sub; lastHash := lastHash sub;
     diffRows := diffRows sub; renderMode := renderMode sub; orderDir := orderDir sub; pageMeta := pageMeta sub;
     listeners := listeners sub |}.
Definition with_listeners (ls : list nat) (sub : ClientSub) : ClientSub :=
  {| cs_queryId := cs_queryId sub; cs_path := cs_path sub; cs_args := cs_args sub; cs_hash := cs_hash sub;
     serverValue := serverValue sub; composedValue := composedValue sub; answered := answered sub;
     lastHash := lastHash sub; diffRows := diffRows sub; renderMode := renderMode sub; orderDir := orderDir sub;
     pageMeta := pageMeta sub; listeners := ls |}.

(** ** Rendering a row map *)
Definition renderByIdValue (rows : RowMap) : res (option value) :=
  match rows with
  | [] => Ok None
  | (_, rv) :: _ => let! v := jsonToConvex (rv_row rv) in Ok (Some v)
  end.

(** The comparator of [sort] decodes both keys at each comparison, and a list of at most one row is
    not compared. *)
Definition sorted_rows (rows : list RowVersion) : res (list RowVersion) :=
  if Nat.leb (length rows) 1 then Ok rows
  else
    let! keyed := traverse (λ rv, let! k := base64ToBytes (default [] (rv_orderKey rv)) in Ok (k, rv)) rows in
    Ok (sort_by (λ a b, compareKeyBytes a.1 b.1) keyed).*2.

Definition renderRangeValue (rows : RowMap) (dir : Order) : res value :=
  let! entries := sorted_rows (jm_values rows) in
  let entries := match dir with Desc => reverse entries | Asc => entries end in
  let! vs := traverse (λ e, jsonToConvex (rv_row e)) entries in
  Ok (VArr vs).

Definition renderPageValue (rows : RowMap) (dir : Order) (meta : PageMeta) : res value :=
  let! page := renderRangeValue rows dir in
  Ok (VObj [(js "page", page);
            (js "nextCursor", match pm_nextCursor meta with Some c => VStr c | None => VNull end);
            (js "hasMore", VBool (pm_hasMore meta)); (js "scanCapped", VBool (pm_scanCapped meta))]).

(** The fields a reset sets before the changes are applied. *)
Definition apply_reset (reset : option DiffReset) (sub : ClientSub) : ClientSub :=
  let mode m od pm := {| cs_queryId := cs_queryId sub; cs_path := cs_path sub; cs_args := cs_args sub;
     cs_hash := cs_hash sub; serverValue := serverValue sub; composedValue := composedValue sub;
     answered := answered sub; lastHash := lastHash sub; diffRows := diffRows sub; renderMode := m;
     orderDir := od; pageMeta := pm; listeners := listeners sub |} in
  match reset with
  | None => sub
  | Some ResetTrue => mode (Some ModeById) (orderDir sub) (pageMeta sub)
  | Some (ResetById od) => mode (Some ModeById) od (pageMeta sub)
  | Some (ResetRange od) => mode (Some ModeRange) od (pageMeta sub)
  | Some (ResetPage od pm) => mode (Some ModePage) (Some od) (Some pm)
  end.
Definition with_rows (rows : RowMap) (sub : ClientSub) : ClientSub :=
  {| cs_queryId := cs_queryId sub; cs_path := cs_path sub; cs_args := cs_args sub; cs_hash := cs_hash sub;
     serverValue := serverValue sub; composedValue := composedValue sub; answered := answered sub;
     lastHash := lastHash sub; diffRows := Some rows; renderMode := renderMode sub; orderDir := orderDir sub;
     pageMeta := pageMeta sub; listeners := listeners sub |}.
Definition with_rendered (v : option Ref) (sub : ClientSub) : ClientSub :=
  {| cs_queryId := cs_queryId sub; cs_path := cs_path sub; cs_args := cs_args sub; cs_hash := cs_hash sub;
     serverValue := v; composedValue := composedValue sub; answered := true; lastHash := lastHash sub;
     diffRows := diffRows sub; renderMode := renderMode sub; orderDir := orderDir sub; pageMeta := pageMeta sub;
     listeners := listeners sub |}.

(** A page subscription always has its metadata ([sub.pageMeta!]): reading a field of a missing one throws, after the page
    has been rendered. *)
Definition render (sub : ClientSub) (rows : RowMap) : res (option value) :=
  match renderMode sub with
  | Some ModePage =>
      match pageMeta sub with
      | None => let! _ := renderRangeValue rows (default Asc (orderDir sub)) in Err TypeError
      | Some pm => let! v := renderPageValue rows (default Asc (orderDir sub)) pm in Ok (Some v)
      end
  | Some ModeRange => let! v := renderRangeValue rows (default Asc (orderDir sub)) in Ok (Some v)
  | _ => renderByIdValue rows
  end.

(** The subscription is mutated up to the point where a rendering throws. *)
Definition applyDiff (s : Store) (p : nat) (changes : list Change) (checksum : jsstr) (reset : option DiffReset)
    : Store * res bool :=
  match jm_get (heap s) p with
  | None => (s, Ok false)
  | Some sub0 =>
      let sub := apply_reset reset sub0 in
      let base := match reset with Some _ => [] | None => default [] (diffRows sub) end in
      let rows := applyChanges base changes in
      let s := upd_sub s p (λ _, with_rows rows sub) in
      match render (with_rows rows sub) rows with
      | Err e => (s, Err e)
      | Ok None => (upd_sub s p (with_rendered None), Ok (negb (bool_decide (driftChecksum rows = checksum))))
      | Ok (Some v) =>
          let '(r, s) := mint s v in
          (upd_sub s p (with_rendered (Some r)), Ok (negb (bool_decide (driftChecksum rows = checksum))))
      end
  end.

(** ** Optimistic updaters *)

(** A value an updater passes to [setQuery]: [undefined], the [n]th value it has read, or a new value. *)
Inductive newval := NvUndefined | NvRead (n : nat) | NvFresh (v : value).

(** The calls an updater makes, each with the rest of the updater by its answer; a read answers the value
    and its position among the values read so far is fixed by the order of the reads. *)
Inductive upd :=
  | UDone
  | UThrow (e : exn)
  | UGet (path : jsstr) (args : value) (k : option value → upd)
  | USet (path : jsstr) (args : value) (v : newval) (k : upd)
  | UGetAll (path : jsstr) (k : res (list (value * option value)) → upd)
  | UPlaceholder (table : jsstr) (k : jsstr → upd)
  | UNow (k : Z → upd).

Inductive MutationStatus :=
  | Unsent | Inflight | Completed (commitTs completedAt : Z) | Parked.

Record Seed := { entropy : jsstr; seed_now : Z }.
Record PendingMutation := {
  requestId : jsstr; pmu_udfPath : jsstr; pmu_args : json; update : option (value → upd); seed : Seed;
  touched : list jsstr; status : MutationStatus;
  clientId : option jsstr; seq : option Z; m_order : option Z; identityFingerprint : option jsstr;
  enqueuedAt : option Z; durable : bool }.

Definition with_touched (t : list jsstr) (e : PendingMutation) : PendingMutation :=
  {| requestId := requestId e; pmu_udfPath := pmu_udfPath e; pmu_args := pmu_args e; update := update e;
     seed := seed e; touched := t; status := status e; clientId := clientId e; seq := seq e; m_order := m_order e;
     identityFingerprint := identityFingerprint e; enqueuedAt := enqueuedAt e; durable := durable e |}.

Abbreviation Overlay := (list (jsstr * option Ref)).

(** One invocation of an updater: its own writes, the hashes it wrote, the values it has read, the ordinals of
    [placeholderId], and the next identity. *)
Record Run := {
  rn_local : Overlay; rn_touched : list jsstr; rn_reads : list (option Ref); rn_ordinals : list (jsstr * Z);
  rn_next : nat }.
Definition new_Run (n : nat) : Run := {| rn_local := []; rn_touched := []; rn_reads := []; rn_ordinals := []; rn_next := n |}.

Definition run_write (r : Run) (h : jsstr) (v : option Ref) (n : nat) : Run :=
  {| rn_local := jm_set (rn_local r) h v; rn_touched := set_add (rn_touched r) h; rn_reads := rn_reads r;
     rn_ordinals := rn_ordinals r; rn_next := n |}.
Definition run_read (r : Run) (vs : list (option Ref)) : Run :=
  {| rn_local := rn_local r; rn_touched := rn_touched r; rn_reads := rn_reads r ++ vs;
     rn_ordinals := rn_ordinals r; rn_next := rn_next r |}.
Definition run_ordinal (r : Run) (table : jsstr) (n : Z) : Run :=
  {| rn_local := rn_local r; rn_touched := rn_touched r; rn_reads := rn_reads r;
     rn_ordinals := jm_set (rn_ordinals r) table n; rn_next := rn_next r |}.

Definition set_value (r : Run) (v : newval) : option Ref * nat :=
  match v with
  | NvUndefined => (None, rn_next r)
  | NvRead n => (nth n (rn_reads r) None, rn_next r)
  | NvFresh v => (Some {| r_id := rn_next r; r_val := v |}, S (rn_next r))
  end.

Definition values_of (v : option Ref) : option value := r_val <$> v.

(** The live subscriptions, in the order of [byHash]. *)
Definition live (s : Store) : list ClientSub := omap (λ p : nat, jm_get (heap s) p) (jm_values (byHash s)).

Definition serverValueOf (s : Store) (hash : jsstr) : option Ref :=
  match jm_get (byHash s) hash ≫= jm_get (heap s) with Some sub => serverValue sub | None => None end.

Section recompose.
(** [JSON.stringify]. *)
Variable stringify : json → jsstr.

Definition queryHash (path : jsstr) (argsJson : json) : jsstr := path ++ js ":" ++ stringify argsJson.
Definition hash_of (path : jsstr) (args : value) : jsstr := queryHash path (convexToJson args).

Definition placeholder (sd : Seed) (table : jsstr) (n : Z) : jsstr :=
  entropy sd ++ js ":" ++ table ++ js ":" ++ string_of_int n.

Section run.
Context (s : Store) (overlay : Overlay) (sd : Seed).

Definition read (local : Overlay) (hash : jsstr) : option Ref :=
  match jm_get local hash with
  | Some v => v
  | None => match jm_get overlay hash with Some v => v | None => serverValueOf s hash end
  end.

Definition getAll (r : Run) (path : jsstr) : list (res value * option Ref) :=
  List.map (λ sub, (jsonToConvex (cs_args sub), read (rn_local r) (cs_hash sub)))
    (List.filter (λ sub, bool_decide (cs_path sub = path)) (live s)).

Fixpoint run_upd (u : upd) (r : Run) : Run * res unit :=
  match u with
  | UDone => (r, Ok tt)
  | UThrow e => (r, Err e)
  | UGet path args k =>
      let v := read (rn_local r) (hash_of path args) in
      run_upd (k (values_of v)) (run_read r [v])
  | USet path args nv k =>
      let '(v, n) := set_value r nv in
      run_upd k (run_write r (hash_of path args) v n)
  | UGetAll path k =>
      let found := getAll r path in
      match traverse (λ p, let! a := p.1 in Ok (a, values_of p.2)) found with
      | Err e => run_upd (k (Err e)) r
      | Ok out => run_upd (k (Ok out)) (run_read r found.*2)
      end
  | UPlaceholder table k =>
      let n := default 0 (jm_get (rn_ordinals r) table) in
      run_upd (k (placeholder sd table n)) (run_ordinal r table (n + 1))
  | UNow k => run_upd (k (seed_now sd)) r
  end.
End run.

(** [Reconciler.invokeUpdate]: the arguments are decoded before the updater is called. *)
Definition invokeUpdate (s : Store) (overlay : Overlay) (e : PendingMutation) (f : value → upd) (n : nat) : Run * res unit :=
  match jsonToConvex (pmu_args e) with
  | Err err => (new_Run n, Err err)
  | Ok a => run_upd s overlay (seed e) (f a) (new_Run n)
  end.

Record ReplayDrop := { rd_requestId : jsstr; rd_error : exn }.

(** The replay loop: the overlay, the dropped updaters, the entries with their [touched], the next identity. *)
Record Replay := { rp_overlay : Overlay; rp_dropped : list ReplayDrop; rp_entries : list PendingMutation; rp_next : nat }.

Definition replay_entry (s : Store) (acc : Replay) (e : PendingMutation) : Replay :=
  match update e with
  | None => {| rp_overlay := rp_overlay acc; rp_dropped := rp_dropped acc; rp_entries := rp_entries acc ++ [e];
               rp_next := rp_next acc |}
  | Some f =>
      let '(r, res) := invokeUpdate s (rp_overlay acc) e f (rp_next acc) in
      match res with
      | Err err => {| rp_overlay := rp_overlay acc;
                      rp_dropped := rp_dropped acc ++ [{| rd_requestId := requestId e; rd_error := err |}];
                      rp_entries := rp_entries acc ++ [e]; rp_next := rn_next r |}
      | Ok _ => {| rp_overlay := fold_left (λ ov h, jm_set ov h (default None (jm_get (rn_local r) h))) (rn_touched r) (rp_overlay acc);
                   rp_dropped := rp_dropped acc; rp_entries := rp_entries acc ++ [with_touched (rn_touched r) e];
                   rp_next := rn_next r |}
      end
  end.
Definition replay (s : Store) (entries : list PendingMutation) : Replay :=
  fold_left (replay_entry s) entries {| rp_overlay := []; rp_dropped := []; rp_entries := []; rp_next := next s |}.

Definition composed_next (overlay : Overlay) (sub : ClientSub) : option Ref :=
  match jm_get overlay (cs_hash sub) with Some v => v | None => serverValue sub end.

(** One round of the final loop over [byHash.values()]. *)
Definition compose_sub (overlay : Overlay) (force : list jsstr) (s : Store) (p : nat) : Store :=
  match jm_get (heap s) p with
  | None => s
  | Some sub =>
      let nv := composed_next overlay sub in
      if negb (strict_eq nv (composedValue sub)) || bool_decide (cs_hash sub ∈ force) then
        let s := upd_sub s p (with_composed nv) in
        match nv with None => s | Some v => notify s (List.map (λ l, NUpdate l v) (listeners sub)) end
      else s
  end.

Definition recompose (s : Store) (entries : list PendingMutation) (force : list jsstr) : Store * Replay :=
  let rp := replay s entries in
  (fold_left (compose_sub (rp_overlay rp) force) (jm_values (byHash s)) (with_next s (rp_next rp)), rp).

(** ** The specification: optimistic updates transform a map of query results *)
Definition view := jsstr → option value.
Definition view_set (w : view) (h : jsstr) (v : option value) : view := λ h', if decide (h' = h) then v else w h'.

Definition spec_value (reads : list (option value)) (nv : newval) : option value :=
  match nv with NvUndefined => None | NvRead n => nth n reads None | NvFresh v => Some v end.

(** What [getAllQueries] enumerates: path, arguments and hash of each live subscription. *)
Abbreviation QuerySet := (list (jsstr * json * jsstr)).
Definition queries_of (s : Store) : QuerySet := List.map (λ sub, (cs_path sub, cs_args sub, cs_hash sub)) (live s).

Fixpoint spec_upd (qs : QuerySet) (sd : Seed) (u : upd) (w : view) (reads : list (option value))
    (ords : list (jsstr * Z)) : res view :=
  match u with
  | UDone => Ok w
  | UThrow e => Err e
  | UGet path args k =>
      let v := w (hash_of path args) in spec_upd qs sd (k v) w (reads ++ [v]) ords
  | USet path args nv k => spec_upd qs sd k (view_set w (hash_of path args) (spec_value reads nv)) reads ords
  | UGetAll path k =>
      let found := List.map (λ q, (q.1.2, w q.2)) (List.filter (λ q, bool_decide (q.1.1 = path)) qs) in
      match traverse (λ p, let! a := jsonToConvex p.1 in Ok (a, p.2)) found with
      | Err e => spec_upd qs sd (k (Err e)) w reads ords
      | Ok out => spec_upd qs sd (k (Ok out)) w (reads ++ found.*2) ords
      end
  | UPlaceholder table k =>
      let n := default 0 (jm_get ords table) in
      spec_upd qs sd (k (placeholder sd table n)) w reads (jm_set ords table (n + 1))
  | UNow k => spec_upd qs sd (k (seed_now sd)) w reads ords
  end.

(** The effect of one pending mutation: nothing if it has no updater. *)
Definition spec_entry (qs : QuerySet) (e : PendingMutation) (w : view) : res view :=
  match update e with
  | None => Ok w
  | Some f => let! a := jsonToConvex (pmu_args e) in spec_upd qs (seed e) (f a) w [] []
  end.

(** All of them in order; one that throws contributes nothing. *)
Definition spec_replay (qs : QuerySet) (entries : list PendingMutation) (w : view) : view :=
  fold_left (λ w e, match spec_entry qs e w with Ok w' => w' | Err _ => w end) entries w.

Definition server_view (s : Store) : view := λ h, values_of (serverValueOf s h).

(** ** The store's well-formedness *)

(** A reference that exists: its identity has been handed out, and its value is the one of that identity. *)
Definition known (K : nat → value) (n : nat) (o : option Ref) : Prop :=
  ∀ r, o = Some r → (r_id r < n)%nat ∧ r_val r = K (r_id r).
Definition extends (K : nat → value) (n : nat) (K' : nat → value) (n' : nat) : Prop :=
  (n ≤ n')%nat ∧ ∀ i, (i < n)%nat → K' i = K i.

Record refs_ok (K : nat → value) (s : Store) : Prop := {
  ro_server : ∀ p sub, jm_get (heap s) p = Some sub → known K (next s) (serverValue sub);
  ro_composed : ∀ p sub, jm_get (heap s) p = Some sub → known K (next s) (composedValue sub) }.

(** The two maps name the same live subscriptions, each under its own hash and id. *)
Record maps_ok (s : Store) : Prop := {
  mo_heap : jm_ok (heap s); mo_hash : jm_ok (byHash s); mo_id : jm_ok (byId s);
  mo_fresh : ∀ p sub, jm_get (heap s) p = Some sub → (p < next s)%nat;
  mo_hash_sub : ∀ h p, jm_get (byHash s) h = Some p →
    ∃ sub, jm_get (heap s) p = Some sub ∧ cs_hash sub = h ∧ jm_get (byId s) (cs_queryId sub) = Some p;
  mo_id_sub : ∀ q p, jm_get (byId s) q = Some p →
    ∃ sub, jm_get (heap s) p = Some sub ∧ cs_queryId sub = q ∧ jm_get (byHash s) (cs_hash sub) = Some p }.

Definition store_ok (s : Store) : Prop := maps_ok s ∧ ∃ K, refs_ok K s.

(** ** Replay refines the specification *)
Lemma extends_refl K n : extends K n K n.
Proof. by split. Qed.
Lemma extends_trans K n K1 n1 K2 n2 : extends K n K1 n1 → extends K1 n1 K2 n2 → extends K n K2 n2.
Proof. intros [H1 H2] [H3 H4]. split; [lia|]. intros i Hi. rewrite H4, H2 by lia. done. Qed.
Lemma known_mono K n K' n' o : known K n o → extends K n K' n' → known K' n' o.
Proof. intros H [E1 E2] r Hr. destruct (H r Hr) as [H1 H2]. split; [lia|]. by rewrite E2. Qed.
Lemma known_none K n : known K n None.
Proof. by intros r [=]. Qed.
Lemma mint_known K n v :
  ∃ K', extends K n K' (S n) ∧ known K' (S n) (Some {| r_id := n; r_val := v |}).
Proof.
  exists (λ i, if decide (i = n) then v else K i). split; [split; [lia|]|].
  - intros i Hi. rewrite decide_False by lia. done.
  - intros r [= <-]. simpl. split; [lia|]. by rewrite decide_True.
Qed.

Definition overlay_known (K : nat → value) (n : nat) (ov : Overlay) : Prop := ∀ h v, jm_get ov h = Some v → known K n v.
Definition server_known (K : nat → value) (n : nat) (s : Store) : Prop := ∀ h, known K n (serverValueOf s h).
Record run_known (K : nat → value) (r : Run) : Prop := {
  rk_local : overlay_known K (rn_next r) (rn_local r);
  rk_reads : Forall (known K (rn_next r)) (rn_reads r) }.

Lemma jm_keys_set {K V} `{!EqDecision K} (m : list (K * V)) k v : jm_keys (jm_set m k v) = set_add (jm_keys m) k.
Proof.
  unfold jm_keys, set_add. induction m as [|[a b] m IH]; cbn [jm_set fmap list_fmap fst]; [done|].
  destruct (decide (k = a)) as [->|Hn]; cbn [fmap list_fmap fst].
  - destruct (decide (a ∈ a :: m.*1)) as [|H]; [done|]. exfalso. apply H. by left.
  - rewrite IH. destruct (decide (k ∈ m.*1)) as [H|H]; destruct (decide (k ∈ a :: m.*1)) as [H'|H']; try done.
    + exfalso. apply H'. by right.
    + apply elem_of_cons in H' as [->|H']; done.
Qed.

Section replay_run.
Context (s : Store) (ov : Overlay) (sd : Seed).

Lemma read_set local h v h' : read s ov (jm_set local h v) h' = if decide (h' = h) then v else read s ov local h'.
Proof. unfold read. rewrite jm_get_set. by case_decide. Qed.

Lemma traverse_getAll (w : view) r path : (∀ h, w h = values_of (read s ov (rn_local r) h)) →
  let found := List.map (λ q : jsstr * json * jsstr, (q.1.2, w q.2)) (List.filter (λ q, bool_decide (q.1.1 = path)) (queries_of s)) in
  traverse (λ p, let! a := p.1 in Ok (a, values_of p.2)) (getAll s ov r path) =
  traverse (λ p, let! a := jsonToConvex p.1 in Ok (a, p.2)) found ∧ found.*2 = values_of <$> (getAll s ov r path).*2.
Proof.
  intros Hw. cbv zeta. unfold getAll, queries_of. induction (live s) as [|sub l IH]; [done|].
  cbn [List.map List.filter]. cbn [fst snd]. case_bool_decide; [|exact IH]. cbn [List.map fmap list_fmap traverse]. cbn [fst snd].
  destruct IH as [IH1 IH2]. rewrite IH1, Hw. split; [done|]. f_equal. exact IH2.
Qed.

Lemma run_upd_spec u r (w : view) : (∀ h, w h = values_of (read s ov (rn_local r) h)) →
  match spec_upd (queries_of s) sd u w (values_of <$> rn_reads r) (rn_ordinals r), run_upd s ov sd u r with
  | Ok w', (r', Ok _) => ∀ h, w' h = values_of (read s ov (rn_local r') h)
  | Err e, (_, Err e') => e = e'
  | _, _ => False
  end.
Proof.
  revert r w. induction u as [|e|path args k IH|path args nv k IH|path k IH|table k IH|k IH]; intros r w Hw; cbn [spec_upd run_upd].
  - exact Hw.
  - done.
  - rewrite Hw. specialize (IH (values_of (read s ov (rn_local r) (hash_of path args)))
      (run_read r [read s ov (rn_local r) (hash_of path args)]) w Hw). cbn [run_read rn_reads rn_ordinals] in IH. by rewrite fmap_app in IH.
  - destruct (set_value r nv) as [v n] eqn:Ev.
    assert (Hv : spec_value (values_of <$> rn_reads r) nv = values_of v).
    { destruct nv; simplify_eq/=; try done. change (nth n0 (values_of <$> rn_reads r) (values_of None) = values_of (nth n0 (rn_reads r) None)).
      apply map_nth. }
    apply (IH (run_write r (hash_of path args) v n)). intros h. cbn [run_write rn_local]. rewrite read_set. unfold view_set. rewrite Hv. case_decide; [done|]. apply Hw.
  - destruct (traverse_getAll w r path Hw) as [-> ->].
    destruct (traverse _ _) as [out|e]; [|by apply IH].
    specialize (IH (Ok out) (run_read r (getAll s ov r path).*2) w Hw). cbn [run_read rn_reads rn_ordinals] in IH. by rewrite fmap_app in IH.
  - by apply (IH _ (run_ordinal r table (default 0 (jm_get (rn_ordinals r) table) + 1))).
  - by apply IH.
Qed.

Lemma run_upd_keys u r : jm_ok (rn_local r) → rn_touched r = jm_keys (rn_local r) →
  let r' := (run_upd s ov sd u r).1 in jm_ok (rn_local r') ∧ rn_touched r' = jm_keys (rn_local r').
Proof.
  revert r. induction u as [|e|path args k IH|path args nv k IH|path k IH|table k IH|k IH]; intros r Hl Ht; cbn [run_upd]; auto.
  - destruct (set_value r nv) as [v n]. apply IH; cbn [run_write rn_local rn_touched]; [by apply jm_set_ok|].
    rewrite Ht. symmetry. apply jm_keys_set.
  - destruct (traverse _ _); auto.
Qed.

Lemma read_known K r h : server_known K (rn_next r) s → overlay_known K (rn_next r) ov → run_known K r →
  known K (rn_next r) (read s ov (rn_local r) h).
Proof.
  intros Hs Ho Hr. unfold read. destruct (jm_get (rn_local r) h) eqn:E1; [by eapply rk_local|].
  destruct (jm_get ov h) eqn:E2; [by eapply Ho|apply Hs].
Qed.

Lemma run_upd_known K u r : server_known K (rn_next r) s → overlay_known K (rn_next r) ov → run_known K r →
  let r' := (run_upd s ov sd u r).1 in ∃ K', extends K (rn_next r) K' (rn_next r') ∧ run_known K' r'.
Proof.
  revert K r. induction u as [|e|path args k IH|path args nv k IH|path k IH|table k IH|k IH]; intros K r Hs Ho Hr; cbn [run_upd];
    try (exists K; split; [apply extends_refl|done]).
  - apply (IH _ K (run_read r [read s ov (rn_local r) (hash_of path args)])); try done.
    split; [apply Hr|]. apply Forall_app; split; [apply Hr|]. apply Forall_singleton. by apply (read_known K r).
  - assert (∃ v n K', set_value r nv = (v, n) ∧ extends K (rn_next r) K' n ∧ known K' n v) as (v & n & K' & -> & He & Hk).
    { destruct nv as [|i|v]; simpl.
      - eexists _, _, K. split; [done|]. split; [apply extends_refl|apply known_none].
      - eexists _, _, K. split; [done|]. split; [apply extends_refl|].
        destruct (nth_in_or_default i (rn_reads r) None) as [Hin| ->]; [|apply known_none].
        pose proof (rk_reads _ _ Hr) as Hf. rewrite Forall_forall in Hf. by apply Hf, list_elem_of_In.
      - destruct (mint_known K (rn_next r) v) as (K' & H1 & H2). eauto 10. }
    destruct (IH K' (run_write r (hash_of path args) v n)) as (K2 & H1 & H2).
    + intros h. by eapply known_mono.
    + intros h v' E. eapply known_mono; [by eapply Ho|done].
    + split; cbn [run_write rn_local rn_reads rn_next].
      * intros h v' E. rewrite jm_get_set in E. case_decide; [by simplify_eq|]. eapply known_mono; [by eapply rk_local|done].
      * eapply Forall_impl; [apply Hr|]. intros o Hok. by eapply known_mono.
    + exists K2. split; [|done]. by eapply extends_trans.
  - destruct (traverse _ _) as [out|e]; [|by apply IH].
    apply (IH _ K (run_read r (getAll s ov r path).*2)); try done. split; [apply Hr|]. apply Forall_app; split; [apply Hr|].
    apply Forall_forall. intros o Hin. apply list_elem_of_fmap in Hin as (p & -> & Hin). unfold getAll in Hin.
    apply list_elem_of_In, in_map_iff in Hin as (sub & <- & _). by apply (read_known K r).
  - apply (IH _ K (run_ordinal r table (default 0 (jm_get (rn_ordinals r) table) + 1))); try done. split; apply Hr.
  - by apply IH.
Qed.
End replay_run.

(** The overlay an accepted updater leaves: its own writes over the overlay before it. *)
Lemma merge_overlay (local ov : Overlay) h :
  jm_get (fold_left (λ ov h, jm_set ov h (default None (jm_get local h))) (jm_keys local) ov) h =
  match jm_get local h with Some v => Some v | None => jm_get ov h end.
Proof.
  assert (Hfold : ∀ ks ov, jm_get (fold_left (λ ov h, jm_set ov h (default None (jm_get local h))) ks ov) h =
    if decide (h ∈ ks) then Some (default None (jm_get local h)) else jm_get ov h).
  { induction ks as [|k ks IH]; intros ov'; cbn [fold_left]; [by rewrite decide_False by apply not_elem_of_nil|].
    rewrite IH, jm_get_set. destruct (decide (h ∈ ks)) as [Hi|Hi]; destruct (decide (h = k)) as [->|Hn].
    - by rewrite decide_True by (by left).
    - by rewrite decide_True by (by right).
    - by rewrite decide_True by (by left).
    - by rewrite decide_False by (by intros [?|?]%elem_of_cons). }
  rewrite Hfold. destruct (jm_get local h) as [v|] eqn:E.
  - rewrite decide_True; [done|]. destruct (decide (h ∈ jm_keys local)) as [|Hn]; [done|]. apply jm_get_None in Hn. congruence.
  - rewrite decide_False; [done|]. by apply jm_get_None.
Qed.

(** The replay loop so far, against the view it has built. *)
Record replay_ok (s : Store) (K : nat → value) (acc : Replay) (w : view) : Prop := {
  rep_view : ∀ h, w h = values_of (read s (rp_overlay acc) [] h);
  rep_overlay : overlay_known K (rp_next acc) (rp_overlay acc);
  rep_server : server_known K (rp_next acc) s }.

(** The entries whose updater does not throw when its turn comes. *)
Fixpoint survivors (qs : QuerySet) (entries : list PendingMutation) (w : view) : list PendingMutation :=
  match entries with
  | [] => []
  | e :: es => match spec_entry qs e w with Ok w' => e :: survivors qs es w' | Err _ => survivors qs es w end
  end.

Lemma spec_replay_survivors qs entries w : spec_replay qs (survivors qs entries w) w = spec_replay qs entries w.
Proof.
  unfold spec_replay. revert w. induction entries as [|e es IH]; intros w; [done|]. cbn [survivors fold_left].
  destruct (spec_entry qs e w) as [w'|err] eqn:E; [|apply IH]. cbn [fold_left]. rewrite E. apply IH.
Qed.

Lemma survivors_stable qs entries w : survivors qs (survivors qs entries w) w = survivors qs entries w.
Proof.
  revert w. induction entries as [|e es IH]; intros w; [done|]. cbn [survivors].
  destruct (spec_entry qs e w) as [w'|err] eqn:E; [|apply IH]. cbn [survivors]. rewrite E. by rewrite IH.
Qed.

(** Views are compared pointwise. *)
Definition view_equiv : relation view := pointwise_relation jsstr eq.
#[global] Instance view_equiv_equivalence : Equivalence view_equiv.
Proof. unfold view_equiv. apply _. Qed.

Definition res_equiv (a b : res view) : Prop :=
  match a, b with Ok w, Ok w' => view_equiv w w' | Err e, Err e' => e = e' | _, _ => False end.

#[global] Instance view_set_proper : Proper (view_equiv ==> eq ==> eq ==> view_equiv) view_set.
Proof. intros w w' Hw h ? <- v ? <- h'. unfold view_set. case_decide; [done|apply Hw]. Qed.

#[global] Instance spec_upd_proper qs sd u : Proper (view_equiv ==> eq ==> eq ==> res_equiv) (spec_upd qs sd u).
Proof.
  induction u as [|e|path args k IH|path args nv k IH|path k IH|table k IH|k IH]; intros w w' Hw reads ? <- ords ? <-; cbn [spec_upd];
    try done; try (by apply IH).
  - rewrite (Hw (hash_of path args)). by apply IH.
  - apply IH; [|done|done]. by apply view_set_proper.
  - replace (List.map (λ q : jsstr * json * jsstr, (q.1.2, w q.2)) (List.filter (λ q, bool_decide (q.1.1 = path)) qs))
      with (List.map (λ q : jsstr * json * jsstr, (q.1.2, w' q.2)) (List.filter (λ q, bool_decide (q.1.1 = path)) qs))
      by (apply List.map_ext; intros q; by rewrite (Hw q.2)).
    destruct (traverse _ _); by apply IH.
Qed.

#[global] Instance spec_entry_proper qs e : Proper (view_equiv ==> res_equiv) (spec_entry qs e).
Proof.
  intros w w' Hw. unfold spec_entry. destruct (update e); [|done]. destruct (jsonToConvex _); [|done]. cbn [res_bind].
  by apply spec_upd_proper.
Qed.

#[global] Instance spec_replay_proper qs es : Proper (view_equiv ==> view_equiv) (spec_replay qs es).
Proof.
  unfold spec_replay. induction es as [|e es IH]; intros w w' Hw; [done|]. cbn [fold_left]. apply IH.
  pose proof (spec_entry_proper qs e w w' Hw) as H. by destruct (spec_entry qs e w), (spec_entry qs e w').
Qed.

#[global] Instance survivors_proper qs es : Proper (view_equiv ==> eq) (survivors qs es).
Proof.
  induction es as [|e es IH]; intros w w' Hw; [done|]. cbn [survivors].
  pose proof (spec_entry_proper qs e w w' Hw) as H. destruct (spec_entry qs e w), (spec_entry qs e w'); try done; [f_equal|]; by apply IH.
Qed.

(** What one round of the loop adds: an entry with its new [touched], or a drop. *)
Definition outcome (e : PendingMutation) (w : view) (r : res view) (acc acc' : Replay) : Prop :=
  match r with
  | Ok w' => rp_dropped acc' = rp_dropped acc ∧ ∃ t, rp_entries acc' = rp_entries acc ++ [with_touched t e] ∧
      (∀ h, h ∉ t → w' h = w h) ∧
      (∀ h, jm_get (rp_overlay acc') h = jm_get (rp_overlay acc) h ∨ update e ≠ None ∧ h ∈ t)
  | Err x => rp_dropped acc' = rp_dropped acc ++ [{| rd_requestId := requestId e; rd_error := x |}] ∧
      rp_entries acc' = rp_entries acc ++ [e] ∧ rp_overlay acc' = rp_overlay acc
  end.

Lemma with_touched_same e : with_touched (touched e) e = e.
Proof. by destruct e. Qed.

Lemma replay_entry_spec s K acc w e : replay_ok s K acc w →
  let r := spec_entry (queries_of s) e w in
  ∃ K', extends K (rp_next acc) K' (rp_next (replay_entry s acc e)) ∧
    replay_ok s K' (replay_entry s acc e) (match r with Ok w' => w' | Err _ => w end) ∧
    outcome e w r acc (replay_entry s acc e).
Proof.
  intros [Hv Ho Hs]. cbv zeta. unfold replay_entry, spec_entry. destruct (update e) as [f|] eqn:Eu.
  2:{ exists K. split; [apply extends_refl|]. split; [by split|]. split; [done|]. exists (touched e). rewrite with_touched_same. split_and!; [done|done|by left]. }
  unfold invokeUpdate. destruct (jsonToConvex (pmu_args e)) as [a|err]; cbn [res_bind].
  2:{ exists K. split; [apply extends_refl|]. split; [by split|done]. }
  pose proof (run_upd_spec s (rp_overlay acc) (seed e) (f a) (new_Run (rp_next acc)) w Hv) as Hsp.
  destruct (run_upd_known s (rp_overlay acc) (seed e) K (f a) (new_Run (rp_next acc))) as (K' & He & Hk); [done|done|split; [done|constructor]|].
  destruct (run_upd_keys s (rp_overlay acc) (seed e) (f a) (new_Run (rp_next acc))) as [Hok Hkeys]; [apply jm_nil_ok|done|].
  cbn [rn_reads new_Run rn_ordinals fmap list_fmap rn_next] in *.
  destruct (run_upd s (rp_overlay acc) (seed e) (f a) (new_Run (rp_next acc))) as [r' [[]|err]]; cbn [fst] in *;
    destruct (spec_upd _ _ _ _ _ _) as [w'|err']; try done.
  2:{ subst err'. exists K'. split; [done|]. split; [|done]. split; cbn [rp_overlay rp_next]; [done| |].
      - intros h v E. eapply known_mono; [by eapply Ho|done].
      - intros h. by eapply known_mono. }
  exists K'. split; [done|]. split; [split; cbn [rp_overlay rp_next]|split; [done|]].
  - intros h. rewrite Hsp. unfold read. cbn [jm_get]. rewrite Hkeys, merge_overlay. by destruct (jm_get (rn_local r') h).
  - intros h v. rewrite Hkeys, merge_overlay. destruct (jm_get (rn_local r') h) as [v'|] eqn:E.
    + intros [= ->]. by eapply rk_local.
    + intros Hov. eapply known_mono; [by eapply Ho|done].
  - intros h. by eapply known_mono.
  - exists (rn_touched r'). split; [done|]. rewrite Hkeys. split.
    + intros h Hn%jm_get_None. rewrite Hsp, Hv. unfold read. by rewrite Hn.
    + intros h. cbn [rp_overlay]. rewrite ?Hkeys, merge_overlay.
      destruct (jm_get (rn_local r') h) as [v|] eqn:E; [right|by left]. split; [congruence|].
      destruct (decide (h ∈ jm_keys (rn_local r'))) as [|Hn]; [done|]. apply jm_get_None in Hn. congruence.
Qed.

(** The rounds of a replay: the entries afterwards, those kept, and the drops. *)
Inductive rounds (qs : QuerySet) : view → list PendingMutation → list PendingMutation → list PendingMutation →
    list ReplayDrop → Prop :=
  | rounds_nil w : rounds qs w [] [] [] []
  | rounds_ok w w' e t es es' keep drops : spec_entry qs e w = Ok w' → (∀ h, h ∉ t → w' h = w h) →
      rounds qs w' es es' keep drops →
      rounds qs w (e :: es) (with_touched t e :: es') (with_touched t e :: keep) drops
  | rounds_err w x e es es' keep drops : spec_entry qs e w = Err x → rounds qs w es es' keep drops →
      rounds qs w (e :: es) (e :: es') keep ({| rd_requestId := requestId e; rd_error := x |} :: drops).

Definition same_layer (e e' : PendingMutation) : Prop := ∃ t, e' = with_touched t e.

Lemma spec_entry_layer qs e e' w : same_layer e e' → spec_entry qs e' w = spec_entry qs e w.
Proof. by intros [t ->]. Qed.

Lemma spec_replay_layers qs es es' w : Forall2 same_layer es es' → spec_replay qs es' w = spec_replay qs es w.
Proof.
  unfold spec_replay. intros H. revert w. induction H as [|e e' es es' He _ IH]; intros w; [done|].
  cbn [fold_left]. by rewrite (spec_entry_layer qs e e' w He).
Qed.

Lemma survivors_layers qs es es' w : Forall2 same_layer es es' → Forall2 same_layer (survivors qs es w) (survivors qs es' w).
Proof.
  intros H. revert w. induction H as [|e e' es es' He _ IH]; intros w; [constructor|]. cbn [survivors].
  rewrite (spec_entry_layer qs e e' w He). destruct (spec_entry qs e w); [by constructor|done].
Qed.

Lemma rounds_keep qs w es es' keep drops : rounds qs w es es' keep drops → Forall2 same_layer (survivors qs es w) keep.
Proof.
  induction 1 as [|w w' e t es es' keep drops E Ht _ IH|w x e es es' keep drops E _ IH]; cbn [survivors]; [constructor| |].
  - rewrite E. constructor; [by exists t|done].
  - by rewrite E.
Qed.

Lemma rounds_layers qs w es es' keep drops : rounds qs w es es' keep drops → Forall2 same_layer es es'.
Proof.
  induction 1 as [|w w' e t es es' keep drops E Ht _ IH|w x e es es' keep drops E _ IH]; constructor; try done.
  - by exists t.
  - exists (touched e). by rewrite with_touched_same.
Qed.

(** Pending updates that replay without a throw and change nothing outside their [touched] sets. *)
Fixpoint layered (qs : QuerySet) (es : list PendingMutation) (w : view) : Prop :=
  match es with
  | [] => True
  | e :: es => ∃ w', spec_entry qs e w = Ok w' ∧ (∀ h, h ∉ touched e → w' h = w h) ∧ layered qs es w'
  end.

Lemma rounds_layered qs w es es' keep drops : rounds qs w es es' keep drops → layered qs keep w.
Proof.
  induction 1 as [|w w' e t es es' keep drops E Ht _ IH|w x e es es' keep drops E _ IH]; cbn [layered]; [done| |done].
  exists w'. rewrite (spec_entry_layer qs e (with_touched t e)) by (by exists t). done.
Qed.

Lemma layered_total qs es w : layered qs es w → survivors qs es w = es.
Proof.
  revert w. induction es as [|e es IH]; intros w; cbn [layered survivors]; [done|]. intros (w' & E & _ & H). rewrite E. by rewrite IH.
Qed.

Lemma layered_proper qs es w w2 : view_equiv w w2 → layered qs es w → layered qs es w2.
Proof.
  revert w w2. induction es as [|e es IH]; intros w w2 Hw; cbn [layered]; [done|]. intros (w' & E & Ht & H).
  pose proof (spec_entry_proper qs e w w2 Hw) as Hr. rewrite E in Hr. destruct (spec_entry qs e w2) as [w2'|]; [|done].
  exists w2'. split; [done|]. split; [|by eapply IH]. intros h Hh. rewrite <-(Hr h), <-(Hw h). by apply Ht.
Qed.

Lemma layered_app qs es1 es2 w : layered qs (es1 ++ es2) w ↔ layered qs es1 w ∧ layered qs es2 (spec_replay qs es1 w).
Proof.
  unfold spec_replay. revert w. induction es1 as [|e es1 IH]; intros w; cbn [app layered fold_left]; [tauto|]. split.
  - intros (w' & E & Ht & H). rewrite E. apply IH in H as [H1 H2]. split; [by exists w'|done].
  - intros [(w' & E & Ht & H1) H2]. rewrite E in H2. exists w'. split_and!; try done. by apply IH.
Qed.

Lemma spec_replay_app qs es1 es2 w : spec_replay qs (es1 ++ es2) w = spec_replay qs es2 (spec_replay qs es1 w).
Proof. apply fold_left_app. Qed.

(** What the replay depends on. *)
Definition layer_eq (e e' : PendingMutation) : Prop :=
  update e' = update e ∧ pmu_args e' = pmu_args e ∧ seed e' = seed e ∧ touched e' = touched e.

Lemma layered_eq qs es es' w : Forall2 layer_eq es es' → layered qs es w →
  layered qs es' w ∧ spec_replay qs es' w = spec_replay qs es w.
Proof.
  unfold spec_replay. intros H. revert w. induction H as [|e e' es es' (E1 & E2 & E3 & E4) _ IH]; intros w; cbn [layered fold_left]; [done|].
  intros (w' & E & Ht & Hl). assert (Ee : spec_entry qs e' w = Ok w') by (unfold spec_entry; by rewrite E1, E2, E3).
  rewrite E, Ee, E4. destruct (IH w' Hl) as [H1 ->]. split; [by exists w'|done].
Qed.

(** A layer that touched nothing can go without a rebuild. *)
Lemma layered_delete qs es1 e es2 w : update e = None ∨ touched e = [] → layered qs (es1 ++ e :: es2) w →
  layered qs (es1 ++ es2) w ∧ view_equiv (spec_replay qs (es1 ++ es2) w) (spec_replay qs (es1 ++ e :: es2) w).
Proof.
  intros He [H1 (w' & E & Ht & H2)]%layered_app. set (v := spec_replay qs es1 w) in *. assert (Hw : view_equiv w' v).
  { destruct He as [He|He]; [unfold spec_entry in E; rewrite He in E; by simplify_eq|]. intros h. apply Ht. rewrite He. apply not_elem_of_nil. }
  split.
  - apply layered_app. split; [done|]. by eapply layered_proper.
  - rewrite !spec_replay_app. fold v. unfold spec_replay at 2. cbn [fold_left]. rewrite E. fold (spec_replay qs es2 w').
    apply spec_replay_proper. by symmetry.
Qed.

Lemma survivors_sub qs es w e : e ∈ survivors qs es w → e ∈ es.
Proof.
  revert w. induction es as [|e' es IH]; intros w; cbn [survivors]; [done|]. destruct (spec_entry qs e' w).
  - intros [->|H]%elem_of_cons; [by left|right; by eapply IH].
  - intros H. right. by eapply IH.
Qed.

Lemma rounds_ids qs w es es' keep drops : rounds qs w es es' keep drops → requestId <$> es' = requestId <$> es.
Proof. intros H%rounds_layers. induction H as [|e e' es es' [t ->] _ IH]; [done|]. cbn. by f_equal. Qed.

(** What is kept is what no drop names. *)
Lemma rounds_filter qs w es es' keep drops : NoDup (requestId <$> es) → rounds qs w es es' keep drops →
  keep = filter (λ e, requestId e ∉ rd_requestId <$> drops) es' ∧ rd_requestId <$> drops ⊆ requestId <$> es.
Proof.
  intros Hnd H. revert Hnd.
  induction H as [|w w' e t es es' keep drops E Ht H IH|w x e es es' keep drops E H IH]; cbn [fmap list_fmap]; [done| |];
    intros [Hn Hnd]%NoDup_cons; destruct (IH Hnd) as [-> Hsub].
  - rewrite filter_cons_True by (cbn; intros Hin; by apply Hn, Hsub). split; [done|]. intros i Hi. right. by apply Hsub.
  - cbn [rd_requestId]. split; [|intros i [->|Hi]%elem_of_cons; [by left|right; by apply Hsub]].
    rewrite filter_cons_False by (intros Hin; apply Hin; by left).
    apply filter_ext_in. intros e' Hin. rewrite not_elem_of_cons. split; [|naive_solver]. intros Hni. split; [|done].
    intros Heq. apply Hn. rewrite <-Heq, <-(rounds_ids _ _ _ _ _ _ H). by apply list_elem_of_fmap_2.
Qed.

Lemma replay_fold s K acc w es : replay_ok s K acc w →
  let acc' := fold_left (replay_entry s) es acc in
  ∃ K' es' keep drops, extends K (rp_next acc) K' (rp_next acc') ∧ replay_ok s K' acc' (spec_replay (queries_of s) es w) ∧
    rp_entries acc' = rp_entries acc ++ es' ∧ rp_dropped acc' = rp_dropped acc ++ drops ∧
    rounds (queries_of s) w es es' keep drops ∧
    (∀ h, jm_get (rp_overlay acc') h = jm_get (rp_overlay acc) h ∨ ∃ e, e ∈ keep ∧ update e ≠ None ∧ h ∈ touched e).
Proof.
  revert K acc w. induction es as [|e es IH]; intros K acc w Hok; cbv zeta.
  - exists K, [], [], []. rewrite !app_nil_r. split; [apply extends_refl|]. split_and!; [done|done|done|constructor|by left].
  - cbn [fold_left]. destruct (replay_entry_spec s K acc w e Hok) as (K1 & He1 & Hok1 & Hout).
    destruct (IH K1 (replay_entry s acc e) _ Hok1) as (K2 & es' & keep & drops & He2 & Hok2 & Hes & Hdr & Hr & Hov).
    exists K2. unfold spec_replay. cbn [fold_left]. fold (spec_replay (queries_of s) es).
    destruct (spec_entry (queries_of s) e w) as [w'|x] eqn:E; cbn [outcome] in Hout.
    + destruct Hout as (Hd & t & Ht & Hsound & Htou). exists (with_touched t e :: es'), (with_touched t e :: keep), drops.
      split_and!; [by eapply extends_trans|done| | |by eapply rounds_ok|].
      * by rewrite Hes, Ht, <-app_assoc.
      * by rewrite Hdr, Hd.
      * intros h. destruct (Hov h) as [->|(e' & Hin & He')]; [|right; exists e'; split; [by right|done]].
        destruct (Htou h) as [->|Hx]; [by left|]. right. exists (with_touched t e). split; [by left|done].
    + destruct Hout as (Hd & Ht & Hsame). exists (e :: es'), keep, ({| rd_requestId := requestId e; rd_error := x |} :: drops).
      split_and!; [by eapply extends_trans|done| | |by eapply rounds_err|].
      * by rewrite Hes, Ht, <-app_assoc.
      * by rewrite Hdr, Hd, <-app_assoc.
      * intros h. rewrite <-Hsame. apply Hov.
Qed.

(** The final loop: each live subscription once. *)
Definition compose_one (overlay : Overlay) (force : list jsstr) (sub : ClientSub) : ClientSub :=
  let nv := composed_next overlay sub in
  if negb (strict_eq nv (composedValue sub)) || bool_decide (cs_hash sub ∈ force) then with_composed nv sub else sub.
Definition compose_notes (overlay : Overlay) (force : list jsstr) (sub : ClientSub) : list Note :=
  let nv := composed_next overlay sub in
  if negb (strict_eq nv (composedValue sub)) || bool_decide (cs_hash sub ∈ force) then
    match nv with None => [] | Some v => List.map (λ l, NUpdate l v) (listeners sub) end
  else [].

Lemma compose_fold ov force ps s : NoDup ps → jm_ok (heap s) →
  let s' := fold_left (compose_sub ov force) ps s in
  byHash s' = byHash s ∧ byId s' = byId s ∧ next s' = next s ∧ jm_ok (heap s') ∧
  (∀ p, jm_get (heap s') p = if decide (p ∈ ps) then compose_one ov force <$> jm_get (heap s) p else jm_get (heap s) p) ∧
  trace s' = trace s ++ concat (List.map (compose_notes ov force) (omap (λ p : nat, jm_get (heap s) p) ps)).
Proof.
  revert s. induction ps as [|p ps IH]; intros s Hnd Hh; cbv zeta.
  - split_and!; try done. cbn. by rewrite app_nil_r.
  - apply NoDup_cons in Hnd as [Hp Hnd]. cbn [fold_left].
    assert (H1 : let s1 := compose_sub ov force s p in byHash s1 = byHash s ∧ byId s1 = byId s ∧ next s1 = next s ∧ jm_ok (heap s1) ∧
      (∀ q, jm_get (heap s1) q = if decide (q = p) then compose_one ov force <$> jm_get (heap s) q else jm_get (heap s) q) ∧
      trace s1 = trace s ++ match jm_get (heap s) p with Some sub => compose_notes ov force sub | None => [] end).
    { unfold compose_sub, upd_sub, compose_one, compose_notes. cbv zeta. destruct (jm_get (heap s) p) as [sub|] eqn:Ep.
      - destruct (negb _ || _) eqn:Ef.
        + assert (Hg : ∀ q, jm_get (jm_set (heap s) p (with_composed (composed_next ov sub) sub)) q =
            if decide (q = p) then compose_one ov force <$> jm_get (heap s) q else jm_get (heap s) q).
          { intros q. rewrite jm_get_set. destruct (decide (q = p)) as [->|]; [|done]. rewrite Ep. cbn. unfold compose_one. by rewrite Ef. }
          destruct (composed_next ov sub) as [v|] eqn:En; cbn; (split_and!; try done; try by apply jm_set_ok).
          by rewrite app_nil_r.
        + split_and!; try done; [|by rewrite app_nil_r]. intros q. destruct (decide (q = p)) as [->|]; [|done]. rewrite Ep. cbn. by rewrite Ef.
      - split_and!; try done; [|by rewrite app_nil_r]. intros q. destruct (decide (q = p)) as [->|]; [|done]. by rewrite Ep. }
    destruct H1 as (Hb & Hi & Hn & Hh1 & Hg & Ht). destruct (IH (compose_sub ov force s p) Hnd Hh1) as (Hb2 & Hi2 & Hn2 & Hh2 & Hg2 & Ht2).
    split_and!; [congruence|congruence|congruence|done| |].
    + intros q. rewrite Hg2, Hg. destruct (decide (q ∈ ps)) as [Hq|Hq]; destruct (decide (q = p)) as [->|Hne]; try done.
      * rewrite decide_True by (by right). done.
      * rewrite decide_True by (by left). done.
      * rewrite decide_False by (by intros [?|?]%elem_of_cons). done.
    + rewrite Ht2, Ht, <-app_assoc. f_equal. cbn [omap list_omap].
      assert (Homap : omap (λ q : nat, jm_get (heap (compose_sub ov force s p)) q) ps = omap (λ q : nat, jm_get (heap s) q) ps).
      { clear -Hg Hp. induction ps as [|q ps IH]; [done|]. apply not_elem_of_cons in Hp as [Hne Hp]. cbn [omap list_omap].
        rewrite Hg, decide_False by done. by rewrite IH. }
      rewrite Homap. by destruct (jm_get (heap s) p).
Qed.

(** Equal under [===]: the same object, or primitives that compare equal (0 and -0 do). *)
Definition same_ref (a b : option Ref) : Prop :=
  a = b ∨ ∃ x y, a = Some x ∧ b = Some y ∧ is_object (r_val x) = false ∧ prim_eq (r_val y) (r_val x) = true.
Definition js_same (a b : option value) : Prop :=
  a = b ∨ ∃ x y, a = Some x ∧ b = Some y ∧ is_object x = false ∧ prim_eq y x = true.

Lemma same_ref_values a b : same_ref a b → js_same (values_of a) (values_of b).
Proof. intros [->|(x & y & -> & -> & H1 & H2)]; [by left|right]. by eexists _, _. Qed.

Lemma strict_eq_same K n a b : known K n a → known K n b → strict_eq a b = true → same_ref b a.
Proof.
  intros Ha Hb. destruct a as [a|], b as [b|]; try done; [|by left]. cbn [strict_eq].
  destruct (Ha a eq_refl) as [_ Va], (Hb b eq_refl) as [_ Vb]. destruct (is_object (r_val a)) eqn:Eo.
  - intros [_ E%Nat.eqb_eq]%andb_true_iff. left. f_equal. destruct a as [i v], b as [j v']; cbn in *. subst j. f_equal. congruence.
  - intros E. right. exists b, a. split_and!; try done. by destruct (r_val a), (r_val b).
Qed.

Lemma hash_values_nodup s : maps_ok s → NoDup (jm_values (byHash s)).
Proof.
  intros Hm. apply NoDup_fmap_2_strong; [|by eapply NoDup_fmap_1, mo_hash].
  intros [h1 p1] [h2 p2] H1 H2 E. cbn in E. subst p2.
  apply jm_get_elem in H1; [|apply Hm]. apply jm_get_elem in H2; [|apply Hm].
  destruct (mo_hash_sub _ Hm _ _ H1) as (s1 & E1 & <- & _). destruct (mo_hash_sub _ Hm _ _ H2) as (s2 & E2 & <- & _). congruence.
Qed.

Lemma elem_of_live s sub : maps_ok s →
  sub ∈ live s ↔ ∃ p, jm_get (byHash s) (cs_hash sub) = Some p ∧ jm_get (heap s) p = Some sub.
Proof.
  intros Hm. unfold live. rewrite list_elem_of_omap. unfold jm_values. split.
  - intros (p & Hin & Hp). apply list_elem_of_fmap in Hin as ([h p'] & -> & Hin). exists p'. split; [|done].
    apply jm_get_elem in Hin; [|apply Hm]. destruct (mo_hash_sub _ Hm _ _ Hin) as (s1 & E1 & <- & _). cbn in *. by simplify_eq.
  - intros (p & Hh & Hp). exists p. split; [|done]. apply list_elem_of_fmap. exists (cs_hash sub, p). split; [done|].
    by apply jm_get_in.
Qed.

Lemma live_server s sub : maps_ok s → sub ∈ live s → serverValueOf s (cs_hash sub) = serverValue sub.
Proof. intros Hm (p & Hh & Hp)%elem_of_live; [|done]. unfold serverValueOf. by rewrite Hh; cbn; rewrite Hp. Qed.

Lemma compose_one_fields ov force sub : let sub' := compose_one ov force sub in
  cs_queryId sub' = cs_queryId sub ∧ cs_path sub' = cs_path sub ∧ cs_args sub' = cs_args sub ∧ cs_hash sub' = cs_hash sub ∧
  serverValue sub' = serverValue sub ∧ diffRows sub' = diffRows sub ∧ answered sub' = answered sub.
Proof. unfold compose_one. cbv zeta. by destruct (_ || _). Qed.

(** The effect of the final loop on the heap alone. *)
Record composed_store (ov : Overlay) (force : list jsstr) (s s' : Store) : Prop := {
  co_hash : byHash s' = byHash s; co_id : byId s' = byId s; co_heap : jm_ok (heap s');
  co_get : ∀ p, jm_get (heap s') p =
    if decide (p ∈ jm_values (byHash s)) then compose_one ov force <$> jm_get (heap s) p else jm_get (heap s) p }.

Lemma composed_live ov force s s' : composed_store ov force s s' → live s' = compose_one ov force <$> live s.
Proof.
  intros Hc. unfold live. rewrite (co_hash _ _ _ _ Hc). assert (Hsub : ∀ p, p ∈ jm_values (byHash s) → p ∈ jm_values (byHash s)) by done.
  revert Hsub. generalize (jm_values (byHash s)) at 1 3 4 as ps. induction ps as [|p ps IH]; intros Hsub; [done|]. cbn [omap list_omap].
  rewrite IH by (intros; apply Hsub; by right). rewrite (co_get _ _ _ _ Hc), decide_True by (apply Hsub; by left).
  by destruct (jm_get (heap s) p).
Qed.

Lemma composed_server ov force s s' h : composed_store ov force s s' → serverValueOf s' h = serverValueOf s h.
Proof.
  intros Hc. unfold serverValueOf. rewrite (co_hash _ _ _ _ Hc). destruct (jm_get (byHash s) h) as [p|]; [|done]. cbn.
  rewrite (co_get _ _ _ _ Hc). case_decide; [|done]. destruct (jm_get (heap s) p); [|done]. cbn. apply compose_one_fields.
Qed.

Lemma composed_queries ov force s s' : composed_store ov force s s' → queries_of s' = queries_of s.
Proof.
  intros Hc. unfold queries_of. rewrite (composed_live _ _ _ _ Hc). induction (live s) as [|sub l IH]; [done|].
  cbn [fmap list_fmap List.map]. rewrite IH. destruct (compose_one_fields ov force sub) as (_ & -> & -> & -> & _). done.
Qed.

Lemma composed_maps ov force s s' : composed_store ov force s s' → (next s ≤ next s')%nat → maps_ok s → maps_ok s'.
Proof.
  intros Hc Hn Hm.
  assert (Hget : ∀ p sub, jm_get (heap s) p = Some sub → ∃ sub', jm_get (heap s') p = Some sub' ∧
    cs_hash sub' = cs_hash sub ∧ cs_queryId sub' = cs_queryId sub).
  { intros p sub Hp. rewrite (co_get _ _ _ _ Hc), Hp. case_decide; [|by eauto]. cbn. eexists. split; [done|]. split; apply compose_one_fields. }
  split; rewrite ?(co_hash _ _ _ _ Hc), ?(co_id _ _ _ _ Hc); try apply Hm; [apply Hc| | |].
  - intros p sub. rewrite (co_get _ _ _ _ Hc). destruct (jm_get (heap s) p) as [sub0|] eqn:Ep.
    + intros _. pose proof (mo_fresh _ Hm _ _ Ep). lia.
    + by case_decide.
  - intros h p Hh. destruct (mo_hash_sub _ Hm _ _ Hh) as (sub & Hp & <- & Hi). destruct (Hget _ _ Hp) as (sub' & E & E1 & E2).
    exists sub'. by rewrite E1, E2.
  - intros q p Hq. destruct (mo_id_sub _ Hm _ _ Hq) as (sub & Hp & <- & Hi). destruct (Hget _ _ Hp) as (sub' & E & E1 & E2).
    exists sub'. by rewrite E1, E2.
Qed.

(** The result of a recomposition, in one statement. *)
Record recomposed (s : Store) (es : list PendingMutation) (force : list jsstr) (s' : Store) (rp : Replay)
    (keep : list PendingMutation) : Prop := {
  rc_ok : store_ok s';
  rc_hash : byHash s' = byHash s; rc_id : byId s' = byId s; rc_queries : queries_of s' = queries_of s;
  rc_server : ∀ h, serverValueOf s' h = serverValueOf s h;
  rc_rounds : rounds (queries_of s) (server_view s) es (rp_entries rp) keep (rp_dropped rp);
  rc_live : live s' = compose_one (rp_overlay rp) force <$> live s;
  rc_trace : trace s' = trace s ++ concat (List.map (compose_notes (rp_overlay rp) force) (live s));
  rc_view : ∀ sub, sub ∈ live s' →
    js_same (values_of (composedValue sub)) (spec_replay (queries_of s) es (server_view s) (cs_hash sub));
  rc_touched : ∀ h, jm_get (rp_overlay rp) h = None ∨ ∃ e, e ∈ keep ∧ update e ≠ None ∧ h ∈ touched e;
  rc_base : ∀ sub, sub ∈ live s' → jm_get (rp_overlay rp) (cs_hash sub) = None → same_ref (composedValue sub) (serverValue sub) }.

Lemma compose_one_same K n ov force sub : known K n (composed_next ov sub) → known K n (composedValue sub) →
  same_ref (composedValue (compose_one ov force sub)) (composed_next ov sub).
Proof.
  intros Hn Hc. unfold compose_one. cbv zeta. destruct (negb _ || _) eqn:E; [by left|].
  apply orb_false_iff in E as [E%negb_false_iff _]. by eapply strict_eq_same.
Qed.

Lemma recompose_spec s es force : store_ok s →
  let '(s', rp) := recompose s es force in ∃ keep, recomposed s es force s' rp keep.
Proof.
  intros [Hm (K & Hro)]. unfold recompose.
  assert (Hsk : server_known K (next s) s).
  { intros h. unfold serverValueOf. destruct (jm_get (byHash s) h) as [p|]; [|apply known_none]. cbn.
    destruct (jm_get (heap s) p) eqn:Ep; [by eapply ro_server|apply known_none]. }
  destruct (replay_fold s K {| rp_overlay := []; rp_dropped := []; rp_entries := []; rp_next := next s |} (server_view s) es)
    as (K' & es' & keep & drops & He & Hok & Hes & Hdr & Hr & Hov); [split; [done|done|exact Hsk]|].
  fold (replay s es) in *. cbn [rp_overlay rp_next rp_entries rp_dropped app] in *. set (rp := replay s es) in *. exists keep.
  destruct (compose_fold (rp_overlay rp) force (jm_values (byHash s)) (with_next s (rp_next rp)) (hash_values_nodup s Hm) (mo_heap s Hm))
    as (Hb & Hi & Hnx & Hh & Hg & Ht). set (s' := fold_left _ _ _) in *. cbn [with_next byHash byId next heap trace] in *.
  assert (Hc : composed_store (rp_overlay rp) force s s') by (by split).
  assert (Hnle : (next s ≤ next s')%nat) by (rewrite Hnx; apply He).
  assert (Hknext : ∀ p sub, jm_get (heap s) p = Some sub → known K' (rp_next rp) (composed_next (rp_overlay rp) sub)).
  { intros p sub Hp. unfold composed_next. destruct (jm_get (rp_overlay rp) (cs_hash sub)) eqn:E; [by eapply (rep_overlay _ _ _ _ Hok)|].
    eapply known_mono; [by eapply ro_server|done]. }
  assert (Hkc : ∀ p sub, jm_get (heap s) p = Some sub → known K' (rp_next rp) (composedValue sub)).
  { intros p sub Hp. eapply known_mono; [by eapply ro_composed|done]. }
  assert (Hlive : ∀ sub', sub' ∈ live s' → ∃ sub, sub ∈ live s ∧ sub' = compose_one (rp_overlay rp) force sub ∧
    same_ref (composedValue sub') (composed_next (rp_overlay rp) sub)).
  { intros sub' Hin. rewrite (composed_live _ _ _ _ Hc) in Hin. apply list_elem_of_fmap in Hin as (sub & -> & Hin).
    exists sub. split; [done|]. split; [done|]. apply elem_of_live in Hin as (p & _ & Hp); [|done]. eapply compose_one_same; eauto. }
  split.
  - split; [by eapply composed_maps|]. exists K'. split; intros p sub; rewrite Hg, Hnx; destruct (jm_get (heap s) p) as [sub0|] eqn:Ep;
      case_decide; try done; intros [= <-].
    + destruct (compose_one_fields (rp_overlay rp) force sub0) as (_ & _ & _ & _ & -> & _). eapply known_mono; [by eapply ro_server|done].
    + eapply known_mono; [by eapply ro_server|done].
    + unfold compose_one. cbv zeta. destruct (_ || _); [by eapply Hknext|by eapply Hkc].
    + by eapply Hkc.
  - done.
  - done.
  - by eapply composed_queries.
  - intros h. by eapply composed_server.
  - by rewrite Hes, Hdr.
  - by apply composed_live.
  - exact Ht.
  - intros sub' Hin. destruct (Hlive sub' Hin) as (sub & Hs & Esub & Hsame). apply same_ref_values in Hsame.
    replace (spec_replay (queries_of s) es (server_view s) (cs_hash sub')) with (values_of (composed_next (rp_overlay rp) sub)); [done|].
    rewrite (rep_view _ _ _ _ Hok). unfold read, composed_next. cbn [jm_get]. subst sub'.
    destruct (compose_one_fields (rp_overlay rp) force sub) as (_ & _ & _ & -> & _). by rewrite live_server.
  - intros h. apply Hov.
  - intros sub' Hin. destruct (Hlive sub' Hin) as (sub & Hs & Esub & Hsame). revert Hsame. subst sub'.
    destruct (compose_one_fields (rp_overlay rp) force sub) as (_ & _ & _ & -> & -> & _). unfold composed_next. intros Hsame E. by rewrite E in Hsame.
Qed.
End recompose.

(** ** Well-formedness under the other operations *)
Definition keeps (f : ClientSub → ClientSub) : Prop := ∀ sub, cs_hash (f sub) = cs_hash sub ∧ cs_queryId (f sub) = cs_queryId sub.

Lemma upd_sub_get s p f q : jm_get (heap (upd_sub s p f)) q = if decide (q = p) then f <$> jm_get (heap s) q else jm_get (heap s) q.
Proof.
  unfold upd_sub. destruct (jm_get (heap s) p) as [sub|] eqn:Ep; cbn [with_heap heap].
  - rewrite jm_get_set. case_decide as E; [subst q; by rewrite Ep|done].
  - case_decide as E; [subst q; by rewrite Ep|done].
Qed.

Lemma upd_sub_same s p f : byHash (upd_sub s p f) = byHash s ∧ byId (upd_sub s p f) = byId s ∧ next (upd_sub s p f) = next s ∧
  trace (upd_sub s p f) = trace s.
Proof. unfold upd_sub. by destruct (jm_get _ _). Qed.

Lemma upd_sub_maps s p f : keeps f → maps_ok s → maps_ok (upd_sub s p f).
Proof.
  intros Hf Hm. destruct (upd_sub_same s p f) as (Eh & Ei & En & _).
  assert (Hget : ∀ q sub, jm_get (heap s) q = Some sub → ∃ sub', jm_get (heap (upd_sub s p f)) q = Some sub' ∧
    cs_hash sub' = cs_hash sub ∧ cs_queryId sub' = cs_queryId sub).
  { intros q sub Hq. rewrite upd_sub_get, Hq. case_decide; [|by eauto]. eexists. split; [done|]. apply Hf. }
  split; rewrite ?Eh, ?Ei, ?En; try apply Hm.
  - unfold upd_sub. destruct (jm_get _ _); [|apply Hm]. cbn. apply jm_set_ok, Hm.
  - intros q sub. rewrite upd_sub_get. destruct (jm_get (heap s) q) eqn:Eq; [intros _; by eapply mo_fresh|by case_decide].
  - intros h q Hh. destruct (mo_hash_sub _ Hm _ _ Hh) as (sub & Hp & <- & Hi). destruct (Hget _ _ Hp) as (sub' & E & E1 & E2).
    exists sub'. by rewrite E1, E2.
  - intros i q Hq. destruct (mo_id_sub _ Hm _ _ Hq) as (sub & Hp & <- & Hi). destruct (Hget _ _ Hp) as (sub' & E & E1 & E2).
    exists sub'. by rewrite E1, E2.
Qed.

Lemma upd_sub_refs K s p f :
  (∀ sub, jm_get (heap s) p = Some sub → known K (next s) (serverValue (f sub)) ∧ known K (next s) (composedValue (f sub))) →
  refs_ok K s → refs_ok K (upd_sub s p f).
Proof.
  intros Hf Hr. destruct (upd_sub_same s p f) as (_ & _ & En & _). split; intros q sub; rewrite upd_sub_get, En;
    (case_decide as E; [subst q|by eapply Hr]); destruct (jm_get (heap s) p) as [sub0|]; try done; intros [= <-]; by apply Hf.
Qed.

(** Updates that leave the two values alone. *)
Lemma upd_sub_ok s p f : keeps f → (∀ sub, serverValue (f sub) = serverValue sub ∧ composedValue (f sub) = composedValue sub) →
  store_ok s → store_ok (upd_sub s p f).
Proof.
  intros Hk Hv [Hm (K & Hr)]. split; [by apply upd_sub_maps|]. exists K. apply upd_sub_refs; [|done].
  intros sub Hp. destruct (Hv sub) as [-> ->]. split; by eapply Hr.
Qed.

(** Installing a fresh server value. *)
Lemma mint_set_ok s p v f : (∀ r, keeps (f r)) →
  (∀ r sub, serverValue (f r sub) = Some r ∧ composedValue (f r sub) = composedValue sub) →
  store_ok s → store_ok (upd_sub (mint s v).2 p (f (mint s v).1)).
Proof.
  intros Hk Hv [Hm (K & Hr)]. split.
  - apply upd_sub_maps; [done|]. split; try apply Hm. intros q sub Hq. pose proof (mo_fresh _ Hm _ _ Hq). cbn. lia.
  - destruct (mint_known K (next s) v) as (K' & He & Hn). exists K'. apply upd_sub_refs.
    + intros sub Hp. destruct (Hv (mint s v).1 sub) as [-> ->]. split; [done|]. eapply known_mono; [by eapply ro_composed|done].
    + split; intros q sub Hq; (eapply known_mono; [by eapply Hr|done]).
Qed.

Lemma notify_ok s ns : store_ok s → store_ok (notify s ns).
Proof. intros [Hm (K & Hr)]. split; [by split; apply Hm|exists K; by split; apply Hr]. Qed.

Lemma new_Store_ok : store_ok new_Store.
Proof. split; [split; try apply jm_nil_ok; done|]. exists (λ _, VNull). by split. Qed.

Lemma create_ok s q path args h : jm_get (byHash s) h = None → jm_get (byId s) q = None → store_ok s → store_ok (create s q path args h).2.
Proof.
  intros Hh Hq [Hm (K & Hr)]. assert (Hfresh : jm_get (heap s) (next s) = None).
  { destruct (jm_get (heap s) (next s)) eqn:E; [|done]. pose proof (mo_fresh _ Hm _ _ E). lia. }
  split.
  - split; cbn; try (apply jm_set_ok, Hm).
    + intros p sub. rewrite jm_get_set. case_decide as E; [subst; lia|]. intros Hp. pose proof (mo_fresh _ Hm _ _ Hp). lia.
    + intros h' p. rewrite jm_get_set. case_decide as E.
      * intros [= <-]. eexists. rewrite jm_get_set, decide_True by done. split; [done|]. split; [done|]. cbn. by rewrite jm_get_set, decide_True.
      * intros Hp. destruct (mo_hash_sub _ Hm _ _ Hp) as (sub & Hs & <- & Hi). exists sub. rewrite !jm_get_set.
        rewrite decide_False by congruence. rewrite decide_False by congruence. done.
    + intros q' p. rewrite jm_get_set. case_decide as E.
      * intros [= <-]. eexists. rewrite jm_get_set, decide_True by done. split; [done|]. split; [done|]. cbn. by rewrite jm_get_set, decide_True.
      * intros Hp. destruct (mo_id_sub _ Hm _ _ Hp) as (sub & Hs & <- & Hi). exists sub. rewrite !jm_get_set.
        rewrite decide_False by congruence. rewrite decide_False by congruence. done.
  - exists K. assert (He : extends K (next s) K (S (next s))) by (split; [lia|done]).
    split; cbn; intros p sub; rewrite jm_get_set; (case_decide; [intros [= <-]; apply known_none|]); intros Hp;
      (eapply known_mono; [by eapply Hr|done]).
Qed.

Lemma remove_store_ok s h : store_ok s → store_ok (remove s h).
Proof.
  intros [Hm (K & Hr)]. unfold remove. destruct (jm_get (byHash s) h) as [p|] eqn:Eh; [|by split; [|exists K]].
  destruct (mo_hash_sub _ Hm _ _ Eh) as (sub & Hs & Ehash & Hi). cbn. rewrite Hs. split; [|exists K; by split; apply Hr].
  split; cbn; try apply Hm; try (apply jm_delete_ok, Hm).
  - intros h' p'. rewrite jm_get_delete by apply Hm. case_decide as E; [done|]. intros Hp'.
    destruct (mo_hash_sub _ Hm _ _ Hp') as (sub' & Hs' & <- & Hi'). exists sub'. split; [done|]. split; [done|].
    rewrite jm_get_delete by apply Hm. rewrite decide_False; [done|]. intros Eq. rewrite Eq, Hi in Hi'. simplify_eq.
  - intros q p'. rewrite jm_get_delete by apply Hm. case_decide as E; [done|]. intros Hp'.
    destruct (mo_id_sub _ Hm _ _ Hp') as (sub' & Hs' & <- & Hi'). exists sub'. split; [done|]. split; [done|].
    rewrite jm_get_delete by apply Hm. rewrite decide_False; [done|]. intros Eq. rewrite Eq, Eh in Hi'. simplify_eq.
Qed.

Lemma apply_reset_same reset sub : cs_hash (apply_reset reset sub) = cs_hash sub ∧ cs_queryId (apply_reset reset sub) = cs_queryId sub ∧
  serverValue (apply_reset reset sub) = serverValue sub ∧ composedValue (apply_reset reset sub) = composedValue sub.
Proof. by destruct reset as [[]|]. Qed.

(** [applyDiff] as two heap updates: the rows, then the rendering. *)
Definition diff_rows (sub : ClientSub) (changes : list Change) (reset : option DiffReset) : RowMap :=
  applyChanges (match reset with Some _ => [] | None => default [] (diffRows sub) end) changes.

Lemma upd_sub_ext s p f g sub : jm_get (heap s) p = Some sub → f sub = g sub → upd_sub s p f = upd_sub s p g.
Proof. intros Hp E. unfold upd_sub. by rewrite Hp, E. Qed.

Lemma applyDiff_rows s p sub changes checksum reset : jm_get (heap s) p = Some sub →
  applyDiff s p changes checksum reset =
  let rows := diff_rows sub changes reset in
  let s1 := upd_sub s p (λ sub, with_rows rows (apply_reset reset sub)) in
  let drift := negb (bool_decide (driftChecksum rows = checksum)) in
  match render (apply_reset reset sub) rows with
  | Err e => (s1, Err e)
  | Ok None => (upd_sub s1 p (with_rendered None), Ok drift)
  | Ok (Some v) => (upd_sub (mint s1 v).2 p (with_rendered (Some (mint s1 v).1)), Ok drift)
  end.
Proof.
  intros Hp. unfold applyDiff. rewrite Hp. cbv zeta.
  replace (match reset with Some _ => [] | None => default [] (diffRows (apply_reset reset sub)) end)
    with (match reset with Some _ => [] | None => default [] (diffRows sub) end) by (by destruct reset).
  fold (diff_rows sub changes reset).
  set (rows := diff_rows sub changes reset).
  rewrite (upd_sub_ext s p (λ _, with_rows rows (apply_reset reset sub)) (λ sub, with_rows rows (apply_reset reset sub)) sub Hp eq_refl).
  replace (render (with_rows rows (apply_reset reset sub)) rows) with (render (apply_reset reset sub) rows) by done.
  destruct (render _ _) as [[v|]|e]; done.
Qed.

Lemma applyDiff_ok s p changes checksum reset : store_ok s → store_ok (applyDiff s p changes checksum reset).1.
Proof.
  intros Hs. destruct (jm_get (heap s) p) as [sub|] eqn:Ep; [|unfold applyDiff; by rewrite Ep].
  rewrite (applyDiff_rows _ _ _ _ _ _ Ep). cbv zeta.
  assert (H1 : ∀ rows, store_ok (upd_sub s p (λ sub, with_rows rows (apply_reset reset sub)))).
  { intros rows. apply upd_sub_ok; [|intros sub'; split; apply (apply_reset_same reset sub')|done].
    intros sub'. split; apply (apply_reset_same reset sub'). }
  destruct (render _ _) as [[v|]|e]; cbn [fst].
  - apply (mint_set_ok _ p v (λ r, with_rendered (Some r))); [done|done|apply H1].
  - destruct (H1 (diff_rows sub changes reset)) as [Hm (K & Hr)]. split; [by apply upd_sub_maps|]. exists K.
    apply upd_sub_refs; [|done]. intros sub' Hp'. split; [apply known_none|exact (ro_composed _ _ Hr _ _ Hp')].
  - apply H1.
Qed.
