(* ===== verification/Reconciler.v ===== *)
(** The client's reconcile chokepoint: [packages/client/src/reconcile.ts] with the mutation log
    ([mutation-log.ts]) and the close policy ([delivery-policy.ts]). Each event of the reconciler is a function on its state; an event that
    throws returns the error with the state it left behind. Console output is not modelled. *)
From S2P Require Import Prelude Numbers Values Json IndexKeys Ranges DocStore QueryEngine Subscriptions DiffSync SessionFlow ClientStore.

(** ** The mutation log *)
Abbreviation MutationLog := (list (jsstr * PendingMutation)).
Definition log_add (l : MutationLog) (e : PendingMutation) : MutationLog := jm_set l (requestId e) e.
Definition entriesInOrder (l : MutationLog) : list PendingMutation := jm_values l.

Definition with_status (st : MutationStatus) (e : PendingMutation) : PendingMutation :=
  {| requestId := requestId e; pmu_udfPath := pmu_udfPath e; pmu_args := pmu_args e; update := update e;
     seed := seed e; touched := touched e; status := st; clientId := clientId e; seq := seq e; m_order := m_order e;
     identityFingerprint := identityFingerprint e; enqueuedAt := enqueuedAt e; durable := durable e |}.
Definition without_update (e : PendingMutation) : PendingMutation :=
  {| requestId := requestId e; pmu_udfPath := pmu_udfPath e; pmu_args := pmu_args e; update := None;
     seed := seed e; touched := touched e; status := status e; clientId := clientId e; seq := seq e; m_order := m_order e;
     identityFingerprint := identityFingerprint e; enqueuedAt := enqueuedAt e; durable := durable e |}.

(** Mutating a logged entry in place. *)
Definition log_update (l : MutationLog) (rid : jsstr) (f : PendingMutation → PendingMutation) : MutationLog :=
  match jm_get l rid with Some e => jm_set l rid (f e) | None => l end.

(** ** The close policy *)
Record CloseDisposition := { cd_reject : list jsstr; cd_drop : list jsstr; cd_retain : list jsstr; cd_park : list jsstr }.

Definition dispose (armed : bool) (d : CloseDisposition) (e : PendingMutation) : CloseDisposition :=
  match status e with
  | Unsent | Parked =>
      {| cd_reject := cd_reject d; cd_drop := cd_drop d; cd_retain := cd_retain d ++ [requestId e]; cd_park := cd_park d |}
  | Inflight =>
      if armed && durable e then
        {| cd_reject := cd_reject d; cd_drop := cd_drop d ++ [requestId e]; cd_retain := cd_retain d;
           cd_park := cd_park d ++ [requestId e] |}
      else
        {| cd_reject := cd_reject d ++ [requestId e]; cd_drop := cd_drop d ++ [requestId e]; cd_retain := cd_retain d;
           cd_park := cd_park d |}
  | Completed _ _ =>
      {| cd_reject := cd_reject d; cd_drop := cd_drop d ++ [requestId e]; cd_retain := cd_retain d; cd_park := cd_park d |}
  end.
Definition closeDisposition (entries : list PendingMutation) (armed : bool) : CloseDisposition :=
  fold_left (dispose armed) entries {| cd_reject := []; cd_drop := []; cd_retain := []; cd_park := [] |}.

(** ** The reconciler *)
Definition versionCoversCommit (maxObservedTs commitTs : Z) : bool := (commitTs <=? maxObservedTs) && (0 <? commitTs).

(** [timers] holds the request ids with an armed gate timer; [drifts] the queries [onDrift] was called for. *)
Record Reconciler := {
  rstore : Store; log : MutationLog; observedTs : Z; timers : list jsstr; drifts : list Z }.
Definition new_Reconciler : Reconciler :=
  {| rstore := new_Store; log := []; observedTs := 0; timers := []; drifts := [] |}.

Definition with_store (r : Reconciler) (s : Store) : Reconciler :=
  {| rstore := s; log := log r; observedTs := observedTs r; timers := timers r; drifts := drifts r |}.
Definition with_log (r : Reconciler) (l : MutationLog) : Reconciler :=
  {| rstore := rstore r; log := l; observedTs := observedTs r; timers := timers r; drifts := drifts r |}.
Definition with_observed (r : Reconciler) (ts : Z) : Reconciler :=
  {| rstore := rstore r; log := log r; observedTs := ts; timers := timers r; drifts := drifts r |}.
Definition with_timers (r : Reconciler) (t : list jsstr) : Reconciler :=
  {| rstore := rstore r; log := log r; observedTs := observedTs r; timers := t; drifts := drifts r |}.
Definition onDrift (r : Reconciler) (q : Z) : Reconciler :=
  {| rstore := rstore r; log := log r; observedTs := observedTs r; timers := timers r; drifts := drifts r ++ [q] |}.

Definition clearTimer (r : Reconciler) (rid : jsstr) : Reconciler :=
  with_timers r (filter (λ x, x ≠ rid) (timers r)).
Definition armGateTimer (r : Reconciler) (rid : jsstr) : Reconciler :=
  let r := clearTimer r rid in with_timers r (timers r ++ [rid]).
Definition log_delete (r : Reconciler) (rid : jsstr) : Reconciler := with_log r (jm_delete (log r) rid).
(** [this.log.delete(rid); this.clearTimer(rid)] *)
Definition drop_entry (r : Reconciler) (rid : jsstr) : Reconciler := clearTimer (log_delete r rid) rid.

Definition unsentInOrder (r : Reconciler) : list PendingMutation :=
  List.filter (λ e, match status e with Unsent => true | _ => false end) (entriesInOrder (log r)).

Section reconciler.
Variable stringify : json → jsstr.

(** [store.recompose] over the log: the entries' [touched] sets are the log's. *)
Definition recompose_log (r : Reconciler) (force : list jsstr) : Reconciler * list ReplayDrop :=
  let '(s, rp) := recompose stringify (rstore r) (entriesInOrder (log r)) force in
  (with_log (with_store r s) (zip (jm_keys (log r)) (rp_entries rp)), rp_dropped rp).

Definition rebuild (r : Reconciler) (force : list jsstr) : Reconciler :=
  let '(r, dropped) := recompose_log r force in
  fold_left (λ r d, drop_entry r (rd_requestId d)) dropped r.

Definition initiate (r : Reconciler) (e : PendingMutation) : Reconciler * res unit :=
  let r := with_log r (log_add (log r) e) in
  match update e with
  | None => (r, Ok tt)
  | Some _ =>
      let '(r, dropped) := recompose_log r [] in
      let own := fold_left (λ o d, if bool_decide (rd_requestId d = requestId e) then Some (rd_error d) else o) dropped None in
      (fold_left (λ r d, drop_entry r (rd_requestId d)) dropped r, match own with Some err => Err err | None => Ok tt end)
  end.

Definition addHydrated (r : Reconciler) (e : PendingMutation) : Reconciler :=
  let r := with_log r (log_add (log r) e) in
  match update e with None => r | Some _ => rebuild r [] end.

Definition onVerdictAfterBaseline (r : Reconciler) (rid : jsstr) : Reconciler :=
  if jm_has (log r) rid then rebuild (drop_entry r rid) [] else r.

(** One modification of a transition; [unchanged] collects the hashes to notify. *)
Definition apply_mod (r : Reconciler) (unchanged : list jsstr) (m : StateModification) : Reconciler * list jsstr * res unit :=
  match m with
  | QueryUpdated q v h =>
      match jm_get (byId (rstore r)) q with
      | None => (r, unchanged, Ok tt)
      | Some p =>
          match jsonToConvex v with
          | Err e => (r, unchanged, Err e)
          | Ok v => let '(x, s) := mint (rstore r) v in (with_store r (setServerValue s p (Some x) h), unchanged, Ok tt)
          end
      end
  | QueryFailed q err =>
      match jm_get (byId (rstore r)) q with
      | None => (r, unchanged, Ok tt)
      | Some p =>
          let s := markAnswered (rstore r) p in
          let ls := match jm_get (heap s) p with Some sub => listeners sub | None => [] end in
          (with_store r (notify s (List.map (λ l, NError l err) ls)), unchanged, Ok tt)
      end
  | QueryUnchanged q =>
      match jm_get (byId (rstore r)) q with
      | None => (r, unchanged, Ok tt)
      | Some p =>
          let h := match jm_get (heap (rstore r)) p with Some sub => [cs_hash sub] | None => [] end in
          (with_store r (markUnchanged (rstore r) p), fold_left set_add h unchanged, Ok tt)
      end
  | QueryDiff q changes checksum reset h =>
      match jm_get (byId (rstore r)) q with
      | None => (r, unchanged, Ok tt)
      | Some p =>
          let sub := jm_get (heap (rstore r)) p in
          let uninitialised := match reset, sub with
            | None, Some sub => answered sub && match renderMode sub with None => true | Some _ => false end
            | _, _ => false
            end in
          if uninitialised then (onDrift (with_store r (upd_sub (rstore r) p (with_lastHash None))) q, unchanged, Ok tt)
          else match applyDiff (rstore r) p changes checksum reset with
          | (s, Err e) => (with_store r s, unchanged, Err e)
          | (s, Ok drift) =>
              let lh := match reset with Some _ => h | None => None end in
              let r := with_store r (upd_sub s p (with_lastHash lh)) in
              (if drift then onDrift r q else r, unchanged, Ok tt)
          end
      end
  | QueryRemoved _ => (r, unchanged, Ok tt)
  end.

Fixpoint apply_mods (r : Reconciler) (unchanged : list jsstr) (ms : list StateModification) : Reconciler * list jsstr * res unit :=
  match ms with
  | [] => (r, unchanged, Ok tt)
  | m :: ms => match apply_mod r unchanged m with
      | (r, u, Ok _) => apply_mods r u ms
      | x => x
      end
  end.

(** Dropping the layers whose commit the feed now covers. *)
Definition is_covered (obs : Z) (e : PendingMutation) : bool :=
  match status e with Completed ts _ => versionCoversCommit obs ts | _ => false end.
Definition drop_covered (r : Reconciler) : Reconciler :=
  fold_left (λ r' e, if is_covered (observedTs r) e then drop_entry r' (requestId e) else r') (entriesInOrder (log r)) r.

Definition ingestTransition (r : Reconciler) (ms : list StateModification) (endTs : Z) : Reconciler * res unit :=
  let r := with_observed r (Z.max (observedTs r) endTs) in
  match apply_mods r [] ms with
  | (r, unchanged, Ok _) => (rebuild (drop_covered r) unchanged, Ok tt)
  | (r, _, Err e) => (r, Err e)
  end.

Definition onMutationSuccess (r : Reconciler) (rid : jsstr) (ts : option Z) (now : Z) : Reconciler :=
  match jm_get (log r) rid with
  | None => r
  | Some e =>
      if match update e with None => true | Some _ => Nat.eqb (length (touched e)) 0 end then log_delete r rid
      else match ts with
      | None => rebuild (log_delete r rid) []
      | Some ts =>
          if ts <=? 0 then rebuild (log_delete r rid) []
          else if versionCoversCommit (observedTs r) ts then rebuild (log_delete r rid) []
          else armGateTimer (with_log r (log_update (log r) rid (with_status (Completed ts now)))) rid
      end
  end.

Definition onMutationFailure (r : Reconciler) (rid : jsstr) : Reconciler :=
  if jm_has (log r) rid then rebuild (drop_entry r rid) [] else r.

(** The gate timer's callback; it runs only while its timer is armed. *)
Definition gateTimeout (r : Reconciler) (rid : jsstr) : Reconciler :=
  if bool_decide (rid ∈ timers r) then
    let r := clearTimer r rid in
    match jm_get (log r) rid with
    | Some e => match status e with Completed _ _ => rebuild (log_delete r rid) [] | _ => r end
    | None => r
    end
  else r.

Record CloseResult := { rejectedInflight : list jsstr; parked : list jsstr }.
Definition closeSession (r : Reconciler) (armed : bool) : Reconciler * CloseResult :=
  let disp := closeDisposition (entriesInOrder (log r)) armed in
  let r := with_log r (fold_left (λ l rid, log_update l rid (λ e, without_update (with_status Parked e))) (cd_park disp) (log r)) in
  let r := fold_left (λ r rid, if bool_decide (rid ∈ cd_park disp) then r else drop_entry r rid) (cd_drop disp) r in
  (rebuild (with_observed r 0) [], {| rejectedInflight := cd_reject disp; parked := cd_park disp |}).

(** ** Invariant *)
Record rec_ok (r : Reconciler) : Prop := {
  re_store : store_ok (rstore r);
  re_log : jm_ok (log r);
  re_ids : ∀ rid e, jm_get (log r) rid = Some e → requestId e = rid;
  (** a completed layer has a real commit timestamp and an armed timer *)
  re_timer : ∀ rid e ts at_, jm_get (log r) rid = Some e → status e = Completed ts at_ → 0 < ts ∧ rid ∈ timers r }.

(** A completed layer is held only while the feed has not reached its commit. *)
Definition gated (r : Reconciler) : Prop :=
  ∀ rid e ts at_, jm_get (log r) rid = Some e → status e = Completed ts at_ → observedTs r < ts.

(** What every rebuild establishes: the composed values are the replay of the logged updates over the server's
    values, none of those updates throws or writes outside its [touched] set, and a query no update touched shows the server's own reference. *)
Record settled (r : Reconciler) : Prop := {
  se_view : ∀ sub, sub ∈ live (rstore r) →
    js_same (values_of (composedValue sub))
      (spec_replay stringify (queries_of (rstore r)) (entriesInOrder (log r)) (server_view (rstore r)) (cs_hash sub));
  se_base : ∀ sub, sub ∈ live (rstore r) →
    (∀ e, e ∈ entriesInOrder (log r) → update e ≠ None → cs_hash sub ∉ touched e) →
    same_ref (composedValue sub) (serverValue sub);
  se_layered : layered stringify (queries_of (rstore r)) (entriesInOrder (log r)) (server_view (rstore r)) }.

Definition as_log (es : list PendingMutation) : MutationLog := (λ e, (requestId e, e)) <$> es.

Lemma log_as_log l : jm_ok l → (∀ rid e, jm_get l rid = Some e → requestId e = rid) → l = as_log (entriesInOrder l).
Proof.
  intros Hok Hid. unfold as_log, entriesInOrder, jm_values. rewrite <-list_fmap_compose. symmetry.
  transitivity (id <$> l); [|apply list_fmap_id]. apply list_fmap_ext. intros i [rid e] Hi. cbn.
  rewrite (Hid rid e); [done|]. apply jm_get_elem; [done|]. by eapply list_elem_of_lookup_2.
Qed.

Lemma as_log_ids es : (as_log es).*1 = requestId <$> es.
Proof. unfold as_log. rewrite <-list_fmap_compose. done. Qed.
Lemma as_log_entries es : entriesInOrder (as_log es) = es.
Proof. unfold entriesInOrder, jm_values, as_log. rewrite <-list_fmap_compose. apply list_fmap_id. Qed.
Lemma as_log_get es rid e : jm_get (as_log es) rid = Some e → requestId e = rid ∧ e ∈ es.
Proof. intros H%jm_get_in. apply list_elem_of_fmap in H as (e' & [= -> ->] & H). done. Qed.
Lemma as_log_zip es es' : requestId <$> es' = requestId <$> es → zip (jm_keys (as_log es)) es' = as_log es'.
Proof.
  intros E. unfold jm_keys. rewrite as_log_ids, <-E. clear E. unfold as_log. induction es' as [|e es' IH]; [done|]. cbn. by f_equal.
Qed.

Lemma log_ids_nodup r : rec_ok r → NoDup (requestId <$> entriesInOrder (log r)).
Proof. intros Hr. rewrite <-as_log_ids, <-log_as_log; [apply Hr|apply Hr|apply Hr]. Qed.

(** Dropping several entries at once. *)
Lemma drop_entries ids r : jm_ok (log r) →
  fold_left drop_entry ids r =
    {| rstore := rstore r; log := filter (λ p, p.1 ∉ ids) (log r); observedTs := observedTs r;
       timers := filter (λ x, x ∉ ids) (timers r); drifts := drifts r |}.
Proof.
  revert r. induction ids as [|i ids IH]; intros r Hr; cbn [fold_left].
  - rewrite !filter_all_in by (intros; apply not_elem_of_nil). by destruct r.
  - rewrite IH by (cbn; by apply jm_delete_ok). cbn. f_equal.
    + rewrite jm_delete_filter by done. rewrite list_filter_filter. apply filter_ext_in. intros x _. rewrite not_elem_of_cons. tauto.
    + rewrite list_filter_filter. apply filter_ext_in. intros x _. rewrite not_elem_of_cons. tauto.
Qed.

Lemma drop_replayed ds r : fold_left (λ r d, drop_entry r (rd_requestId d)) ds r = fold_left drop_entry (rd_requestId <$> ds) r.
Proof. revert r. induction ds as [|d ds IH]; intros r; [done|]. apply IH. Qed.

Lemma filter_as_log (ids : list jsstr) es :
  filter (λ p, p.1 ∉ ids) (as_log es) = as_log (filter (λ e, requestId e ∉ ids) es).
Proof.
  unfold as_log. induction es as [|e es IH]; [done|]. cbn [fmap list_fmap]. rewrite !filter_cons. cbn [fst]. case_decide; [|done].
  cbn [fmap list_fmap]. by rewrite IH.
Qed.

(** The state a rebuild leaves: kept entries only, everything else as it was. *)
Lemma rebuild_state r force : rec_ok r → ∃ s' rp keep,
  recompose stringify (rstore r) (entriesInOrder (log r)) force = (s', rp) ∧
  recomposed stringify (rstore r) (entriesInOrder (log r)) force s' rp keep ∧
  rebuild r force = {| rstore := s'; log := as_log keep; observedTs := observedTs r;
    timers := filter (λ x, x ∉ rd_requestId <$> rp_dropped rp) (timers r); drifts := drifts r |}.
Proof.
  intros Hr. pose proof (recompose_spec stringify (rstore r) (entriesInOrder (log r)) force (re_store _ Hr)) as Hrc.
  unfold rebuild, recompose_log. destruct (recompose _ _ _ _) as [s' rp]. destruct Hrc as [keep Hrc]. exists s', rp, keep.
  split; [done|]. split; [done|]. pose proof (rc_rounds _ _ _ _ _ _ _ Hrc) as Hro.
  destruct (rounds_filter _ _ _ _ _ _ _ (log_ids_nodup r Hr) Hro) as [Hkeep _]. pose proof (rounds_ids _ _ _ _ _ _ _ Hro) as Hids.
  rewrite drop_replayed. rewrite (log_as_log (log r)) at 1 by apply Hr. rewrite (as_log_zip _ _ Hids).
  rewrite drop_entries by (cbn; unfold jm_ok; rewrite as_log_ids, Hids; by apply log_ids_nodup). cbn. f_equal.
  rewrite filter_as_log. by rewrite <-Hkeep.
Qed.

Lemma server_view_same s s' : (∀ h, serverValueOf s' h = serverValueOf s h) → view_equiv (server_view s') (server_view s).
Proof. intros H h. unfold server_view. by rewrite H. Qed.

(** The entries of a rebuilt log are entries of the old one, up to their [touched] sets. *)
Definition layers_from (l l' : MutationLog) : Prop :=
  ∀ rid e', jm_get l' rid = Some e' → ∃ e t, jm_get l rid = Some e ∧ e' = with_touched t e.

Lemma rebuild_spec r force : rec_ok r →
  let r' := rebuild r force in
  rec_ok r' ∧ settled r' ∧ layers_from (log r) (log r') ∧ observedTs r' = observedTs r ∧
  byHash (rstore r') = byHash (rstore r) ∧ byId (rstore r') = byId (rstore r) ∧
  view_equiv (server_view (rstore r')) (server_view (rstore r)) ∧
  Forall2 same_layer (survivors stringify (queries_of (rstore r)) (entriesInOrder (log r)) (server_view (rstore r))) (entriesInOrder (log r')).
Proof.
  intros Hr. destruct (rebuild_state r force Hr) as (s' & rp & keep & Erc & Hrc & ->). cbv zeta.
  pose proof (rc_rounds _ _ _ _ _ _ _ Hrc) as Hro. pose proof (rounds_keep _ _ _ _ _ _ _ Hro) as Hkeep.
  pose proof (rounds_filter _ _ _ _ _ _ _ (log_ids_nodup r Hr) Hro) as [Hfilter Hdrop]. pose proof (rounds_ids _ _ _ _ _ _ _ Hro) as Hids.
  assert (Hnd : NoDup (requestId <$> keep)).
  { rewrite Hfilter. apply (sublist_NoDup _ (requestId <$> rp_entries rp)); [by rewrite Hids; apply log_ids_nodup|].
    apply sublist_map, sublist_filter. }
  assert (Hfrom : layers_from (log r) (as_log keep)).
  { intros rid e' He'. apply as_log_get in He' as [<- Hin]. apply list_elem_of_lookup_1 in Hin as (i & Hi).
    destruct (Forall2_lookup_r _ _ _ _ _ Hkeep Hi) as (e & Hes%list_elem_of_lookup_2 & t & ->).
    exists e, t. split; [|done]. apply survivors_sub in Hes. rewrite (log_as_log (log r)) by apply Hr. apply jm_get_elem.
    - unfold jm_ok. rewrite as_log_ids. by apply log_ids_nodup.
    - apply list_elem_of_fmap. by exists e. }
  pose proof (server_view_same _ _ (rc_server _ _ _ _ _ _ _ Hrc)) as Hview.
  split_and!; cbn [rstore log observedTs]; try done; [split|split|apply Hrc|apply Hrc|by rewrite as_log_entries]; cbn [rstore log observedTs timers]; rewrite ?as_log_entries.
  - apply Hrc.
  - unfold jm_ok. by rewrite as_log_ids.
  - intros rid e He. by apply as_log_get in He as [].
  - intros rid e' ts at_ He' Hst. destruct (Hfrom rid e' He') as (e & t & He & ->). cbn in Hst.
    destruct (re_timer _ Hr _ _ _ _ He Hst) as (H1 & H3). split; [done|]. apply list_elem_of_filter. split; [|done].
    apply as_log_get in He' as [E Hin]. cbn in E. subst rid. rewrite Hfilter in Hin. apply list_elem_of_filter in Hin as [Hin _]. exact Hin.
  - intros sub Hsub. rewrite (rc_queries _ _ _ _ _ _ _ Hrc), (spec_replay_proper _ _ _ _ _ Hview _),
      (spec_replay_layers _ _ _ _ _ Hkeep), spec_replay_survivors. by apply Hrc.
  - intros sub Hsub Hno. apply (rc_base _ _ _ _ _ _ _ Hrc sub Hsub).
    destruct (rc_touched _ _ _ _ _ _ _ Hrc (cs_hash sub)) as [|(e & He & Hu & Ht)]; [done|]. by destruct (Hno e He Hu).
  - rewrite (rc_queries _ _ _ _ _ _ _ Hrc). eapply layered_proper; [by symmetry|]. by eapply rounds_layered.
Qed.

Lemma rebuild_gated r force : rec_ok r → gated r → gated (rebuild r force).
Proof.
  intros Hr Hg. destruct (rebuild_spec r force Hr) as (_ & _ & Hfrom & Hobs & _). intros rid e' ts at_ He' Hst. rewrite Hobs.
  destruct (Hfrom rid e' He') as (e & t & He & ->). by eapply Hg.
Qed.

(** ** Every event keeps the invariant *)
Lemma with_log_ok r l : rec_ok r → jm_ok l → (∀ rid e, jm_get l rid = Some e → requestId e = rid ∧
  (∀ ts at_, status e = Completed ts at_ → 0 < ts ∧ rid ∈ timers r)) → rec_ok (with_log r l).
Proof. intros Hr Hl H. split; cbn; [apply Hr|done|intros; by apply H|]. intros rid e ts at_ He Hst. by eapply (H rid e). Qed.

Lemma with_store_ok r s : rec_ok r → store_ok s → rec_ok (with_store r s).
Proof. intros Hr Hs. split; cbn; [done|apply Hr..]. Qed.

Lemma log_delete_ok r rid : rec_ok r → rec_ok (log_delete r rid).
Proof.
  intros Hr. apply with_log_ok; [done|apply jm_delete_ok, Hr|]. intros rid' e. rewrite jm_get_delete by apply Hr. case_decide; [done|].
  intros He. split; [by eapply re_ids|]. intros ts at_ Hst. by eapply re_timer.
Qed.

Lemma drop_entry_ok r rid : rec_ok r → rec_ok (drop_entry r rid).
Proof.
  intros Hr. pose proof (log_delete_ok r rid Hr) as Hd. split; try apply Hd.
  intros rid' e ts at_ He Hst. destruct (re_timer _ Hd _ _ _ _ He Hst) as [H1 H2]. split; [done|]. cbn. apply list_elem_of_filter.
  split; [|done]. cbn in He. rewrite jm_get_delete in He by apply Hr. by case_decide.
Qed.

Definition log_sub (r r' : Reconciler) : Prop := ∀ rid e, jm_get (log r') rid = Some e → jm_get (log r) rid = Some e.

Lemma drop_entry_sub r rid : rec_ok r → log_sub r (drop_entry r rid).
Proof. intros Hr rid' e. cbn. rewrite jm_get_delete by apply Hr. by case_decide. Qed.

Lemma gated_sub r r' : log_sub r r' → observedTs r' = observedTs r → gated r → gated r'.
Proof. intros Hs Ho Hg rid e ts at_ He Hst. rewrite Ho. eapply Hg; [by apply Hs|done]. Qed.

(** An entry that starts a life in the log is not completed. *)
Definition fresh_entry (e : PendingMutation) : Prop := ∀ ts at_, status e ≠ Completed ts at_.

Lemma log_add_ok r e : rec_ok r → fresh_entry e → rec_ok (with_log r (log_add (log r) e)).
Proof.
  intros Hr Hf. apply with_log_ok; [done|apply jm_set_ok, Hr|]. intros rid e'. unfold log_add. rewrite jm_get_set. case_decide as E.
  - intros [= <-]. split; [done|]. intros ts at_ Hst. by destruct (Hf ts at_).
  - intros He. split; [by eapply re_ids|]. intros ts at_ Hst. by eapply re_timer.
Qed.

Lemma log_add_gated r e : fresh_entry e → gated r → gated (with_log r (log_add (log r) e)).
Proof.
  intros Hf Hg rid e' ts at_. cbn. unfold log_add. rewrite jm_get_set. case_decide; [intros [= <-] Hst; by destruct (Hf ts at_)|apply Hg].
Qed.

Lemma initiate_state r e : (initiate r e).1 =
  match update e with None => with_log r (log_add (log r) e) | Some _ => rebuild (with_log r (log_add (log r) e)) [] end.
Proof. unfold initiate, rebuild. destruct (update e); [|done]. by destruct (recompose_log _ _). Qed.

Lemma apply_mod_ok r u m : rec_ok r → let '(r', _, _) := apply_mod r u m in
  rec_ok r' ∧ log r' = log r ∧ observedTs r' = observedTs r ∧ timers r' = timers r.
Proof.
  intros Hr. assert (Hd : ∀ q, rec_ok (onDrift r q)) by (intros q; split; apply Hr).
  destruct m as [q v h|q err|q|q|q changes checksum reset h]; cbn [apply_mod]; try done; destruct (jm_get (byId (rstore r)) q) as [p|]; try done.
  - destruct (jsonToConvex v) as [v'|]; [|done]. split_and!; try done. apply with_store_ok; [done|].
    apply (mint_set_ok (rstore r) p v' (λ x, with_server (Some x) h)); [by intros x sub|done|apply Hr].
  - split_and!; try done. apply with_store_ok; [done|]. apply notify_ok, upd_sub_ok; [by intros sub|done|apply Hr].
  - split_and!; try done. apply with_store_ok; [done|]. apply upd_sub_ok; [by intros sub|done|apply Hr].
  - destruct (match reset with None => _ | Some _ => _ end).
    + split_and!; try done. split; try apply Hr. cbn. apply upd_sub_ok; [by intros sub|done|apply Hr].
    + pose proof (applyDiff_ok (rstore r) p changes checksum reset (re_store _ Hr)) as Hs.
      destruct (applyDiff _ _ _ _ _) as [s [drift|e]]; cbn [fst] in Hs; [|by split_and!; try done; apply with_store_ok].
      assert (Hs' : store_ok (upd_sub s p (with_lastHash match reset with Some _ => h | None => None end)))
        by (apply upd_sub_ok; [by intros sub|done|done]).
      destruct drift; (split_and!; try done; split; cbn; [done|apply Hr..]).
Qed.

Lemma apply_mods_ok ms r u : rec_ok r → let '(r', _, _) := apply_mods r u ms in
  rec_ok r' ∧ log r' = log r ∧ observedTs r' = observedTs r ∧ timers r' = timers r.
Proof.
  revert r u. induction ms as [|m ms IH]; intros r u Hr; [done|]. cbn [apply_mods].
  pose proof (apply_mod_ok r u m Hr) as Hm. destruct (apply_mod r u m) as [[r1 u1] [[]|e]]; [|done].
  destruct Hm as (Hr1 & El & Eo & Et). specialize (IH r1 u1 Hr1). destruct (apply_mods r1 u1 ms) as [[r2 u2] x].
  destruct IH as (H1 & H2 & H3 & H4). split_and!; [done|congruence..].
Qed.

Lemma ingest_ok r ms endTs : rec_ok r →
  let '(r', x) := ingestTransition r ms endTs in rec_ok r' ∧ (x = Ok tt → gated r' ∧ settled r').
Proof.
  intros Hr. unfold ingestTransition. set (r0 := with_observed r (Z.max (observedTs r) endTs)).
  assert (H0 : rec_ok r0) by (split; apply Hr). pose proof (apply_mods_ok ms r0 [] H0) as Hm.
  destruct (apply_mods r0 [] ms) as [[r1 u] [[]|e]]; destruct Hm as (H1 & _); [|done].
  set (ids := requestId <$> List.filter (is_covered (observedTs r1)) (entriesInOrder (log r1))).
  assert (Hd : drop_covered r1 = fold_left drop_entry ids r1).
  { unfold drop_covered, ids. generalize (observedTs r1) as o. generalize r1 at 2 4 as r'. clear.
    induction (entriesInOrder (log r1)) as [|e es IH]; intros r' o; [done|]. cbn [fold_left List.filter].
    destruct (is_covered o e); cbn [fmap list_fmap fold_left]; apply IH. }
  rewrite Hd, drop_entries by apply H1. set (r2 := {| rstore := rstore r1 |}).
  assert (Hsub : log_sub r1 r2).
  { intros rid e. cbn. intros He%jm_get_in. apply list_elem_of_filter in He as [_ He]. by apply jm_get_elem; [apply H1|]. }
  assert (Hin : ∀ rid e, jm_get (log r2) rid = Some e → rid ∉ ids).
  { intros rid e. cbn. intros He%jm_get_in. by apply list_elem_of_filter in He as []. }
  assert (H2 : rec_ok r2).
  { split; [apply H1| | |].
    - cbn. unfold jm_ok. eapply sublist_NoDup; [|apply sublist_map, sublist_filter]. apply H1.
    - intros rid e He. apply Hsub in He. by eapply re_ids.
    - intros rid e ts at_ He Hst. destruct (re_timer _ H1 _ _ _ _ (Hsub _ _ He) Hst) as [Ht Hin2]. split; [done|]. cbn.
      apply list_elem_of_filter. split; [|done]. by eapply Hin. }
  assert (Hg2 : gated r2).
  { intros rid e ts at_ He Hst. destruct (re_timer _ H2 _ _ _ _ He Hst) as [Hts _]. cbn [observedTs r2].
    destruct (decide (observedTs r1 < ts)) as [|Hle]; [done|]. exfalso. apply (Hin rid e He). unfold ids. apply list_elem_of_fmap.
    exists e. split; [symmetry; by eapply re_ids|]. apply list_elem_of_In, filter_In. split.
    - apply Hsub in He. apply list_elem_of_In. unfold entriesInOrder, jm_values. apply list_elem_of_fmap. exists (rid, e). split; [done|]. by apply jm_get_in.
    - unfold is_covered, versionCoversCommit. rewrite Hst. apply andb_true_iff. rewrite Z.leb_le, Z.ltb_lt. lia. }
  destruct (rebuild_spec r2 u H2) as (H3 & Hs & _). split; [done|]. intros _. split; [by apply rebuild_gated|done].
Qed.

(** ** Closing a session *)
Definition parkable (armed : bool) (e : PendingMutation) : bool :=
  match status e with Inflight => armed && durable e | _ => false end.
Definition leaves (e : PendingMutation) : bool := match status e with Inflight | Completed _ _ => true | _ => false end.

Lemma closeDisposition_spec es armed : closeDisposition es armed =
  {| cd_reject := requestId <$> List.filter (λ e, match status e with Inflight => negb (armed && durable e) | _ => false end) es;
     cd_drop := requestId <$> List.filter leaves es; cd_retain := requestId <$> List.filter (λ e, negb (leaves e)) es;
     cd_park := requestId <$> List.filter (parkable armed) es |}.
Proof.
  unfold closeDisposition.
  assert (H : ∀ d, fold_left (dispose armed) es d =
    {| cd_reject := cd_reject d ++ (requestId <$> List.filter (λ e, match status e with Inflight => negb (armed && durable e) | _ => false end) es);
       cd_drop := cd_drop d ++ (requestId <$> List.filter leaves es);
       cd_retain := cd_retain d ++ (requestId <$> List.filter (λ e, negb (leaves e)) es);
       cd_park := cd_park d ++ (requestId <$> List.filter (parkable armed) es) |}); [|by rewrite H].
  induction es as [|e es IH]; intros d; cbn [fold_left List.filter]; [by cbn; rewrite !app_nil_r; destruct d|].
  rewrite IH. unfold dispose, leaves, parkable. destruct (status e); cbn [negb]; try (destruct (armed && durable e));
    cbn [negb cd_reject cd_drop cd_retain cd_park fmap list_fmap]; by rewrite <-?app_assoc.
Qed.

Lemma log_update_get l rid f rid' : jm_get (log_update l rid f) rid' = if decide (rid' = rid) then f <$> jm_get l rid' else jm_get l rid'.
Proof.
  unfold log_update. destruct (jm_get l rid) as [e|] eqn:E.
  - rewrite jm_get_set. case_decide; [subst; by rewrite E|done].
  - case_decide; [subst; by rewrite E|done].
Qed.
Lemma log_update_ok l rid f : jm_ok l → jm_ok (log_update l rid f).
Proof. intros H. unfold log_update. destruct (jm_get l rid); [by apply jm_set_ok|done]. Qed.

Lemma log_updates_get f ids l rid : NoDup ids →
  jm_get (fold_left (λ l rid, log_update l rid f) ids l) rid = if decide (rid ∈ ids) then f <$> jm_get l rid else jm_get l rid.
Proof.
  revert l. induction ids as [|i ids IH]; intros l; cbn [fold_left]; [by rewrite decide_False by apply not_elem_of_nil|].
  intros [Hi Hn]%NoDup_cons. rewrite IH, log_update_get by done. destruct (decide (rid ∈ ids)) as [H|H]; destruct (decide (rid = i)) as [->|Hne].
  - done.
  - by rewrite decide_True by (by right).
  - by rewrite decide_True by (by left).
  - by rewrite decide_False by (by intros [?|?]%elem_of_cons).
Qed.
Lemma log_updates_ok f ids l : jm_ok l → jm_ok (fold_left (λ l rid, log_update l rid f) ids l).
Proof. revert l. induction ids as [|i ids IH]; intros l Hl; [done|]. by apply IH, log_update_ok. Qed.

Lemma elem_of_entries r rid e : rec_ok r → jm_get (log r) rid = Some e ↔ e ∈ entriesInOrder (log r) ∧ requestId e = rid.
Proof.
  intros Hr. split.
  - intros He. split; [|by eapply re_ids]. apply list_elem_of_fmap. exists (rid, e). split; [done|by apply jm_get_in].
  - intros [Hin <-]. apply list_elem_of_fmap in Hin as ([rid e'] & E & Hin). cbn in E. subst e'.
    apply jm_get_elem in Hin; [|apply Hr]. by rewrite (re_ids _ Hr _ _ Hin).
Qed.

Lemma ids_of_filter r P rid e : rec_ok r → jm_get (log r) rid = Some e →
  rid ∈ requestId <$> List.filter P (entriesInOrder (log r)) ↔ P e = true.
Proof.
  intros Hr He. rewrite list_elem_of_fmap. split.
  - intros (e' & E & Hin). apply list_elem_of_In, filter_In in Hin as [Hin HP]. apply list_elem_of_In in Hin.
    assert (He' : jm_get (log r) rid = Some e') by (by apply elem_of_entries). congruence.
  - intros HP. apply elem_of_entries in He as [Hin <-]; [|done]. exists e. split; [done|]. apply list_elem_of_In, filter_In.
    split; [by apply list_elem_of_In|done].
Qed.

Lemma jm_get_filter_keys {A} (ids : list jsstr) (l : list (jsstr * A)) rid :
  jm_get (filter (λ p, p.1 ∉ ids) l) rid = if decide (rid ∈ ids) then None else jm_get l rid.
Proof.
  induction l as [|[k e] l IH]; [by destruct (decide (rid ∈ ids))|]. rewrite filter_cons. cbn [fst jm_get].
  destruct (decide (k ∉ ids)) as [Hk|Hk]; cbn [jm_get]; destruct (decide (rid = k)) as [->|]; try exact IH.
  - by rewrite decide_False.
  - rewrite IH. destruct (decide (k ∈ ids)); [done|]. by destruct Hk.
Qed.

Definition park (e : PendingMutation) : PendingMutation := without_update (with_status Parked e).

(** What an entry becomes at close. *)
Definition after_close (armed : bool) (e : PendingMutation) : option PendingMutation :=
  if parkable armed e then Some (park e) else if leaves e then None else Some e.

Definition close_state (r : Reconciler) (armed : bool) : Reconciler :=
  let disp := closeDisposition (entriesInOrder (log r)) armed in
  with_observed (fold_left (λ r rid, if bool_decide (rid ∈ cd_park disp) then r else drop_entry r rid) (cd_drop disp)
    (with_log r (fold_left (λ l rid, log_update l rid park) (cd_park disp) (log r)))) 0.

Lemma skip_fold (P : jsstr → Prop) `{!∀ x, Decision (P x)} ids r :
  fold_left (λ r rid, if bool_decide (P rid) then r else drop_entry r rid) ids r = fold_left drop_entry (filter (λ x, ¬ P x) ids) r.
Proof.
  revert r. induction ids as [|i ids IH]; intros r; [done|]. cbn [fold_left]. rewrite filter_cons, IH.
  case_bool_decide; [by rewrite decide_False by tauto|by rewrite decide_True].
Qed.

Lemma close_state_spec r armed : rec_ok r → rec_ok (close_state r armed) ∧ gated (close_state r armed) ∧
  ∀ rid, jm_get (log (close_state r armed)) rid = jm_get (log r) rid ≫= after_close armed.
Proof.
  intros Hr. unfold close_state. rewrite closeDisposition_spec. cbn [cd_park cd_drop]. rewrite skip_fold.
  set (es := entriesInOrder (log r)). set (pk := requestId <$> List.filter (parkable armed) es).
  set (l1 := fold_left (λ l rid, log_update l rid park) pk (log r)).
  assert (Hnd : NoDup (requestId <$> es)) by (by apply log_ids_nodup).
  assert (Hpk : NoDup pk).
  { eapply sublist_NoDup; [exact Hnd|]. apply sublist_map. clear. induction es as [|e es IH]; [done|]. cbn. destruct (parkable armed e); by constructor. }
  assert (Hl1 : jm_ok l1) by (apply log_updates_ok, Hr). rewrite drop_entries by exact Hl1. cbn [with_log rstore log observedTs timers drifts].
  set (dr := filter (λ x : jsstr, x ∉ pk) (requestId <$> List.filter leaves es)).
  assert (Hget : ∀ rid, jm_get (filter (λ p : jsstr * PendingMutation, p.1 ∉ dr) l1) rid = jm_get (log r) rid ≫= after_close armed).
  { intros rid. rewrite jm_get_filter_keys. unfold l1. rewrite log_updates_get by done. destruct (jm_get (log r) rid) as [e|] eqn:He.
    2:{ cbn. destruct (decide (rid ∈ dr)); [done|]. by destruct (decide (rid ∈ pk)). }
    cbn [mbind option_bind]. unfold after_close. destruct (parkable armed e) eqn:Ep.
    - assert (H1 : rid ∈ pk) by (by apply (ids_of_filter r _ rid e)). rewrite decide_False, decide_True; [done|done|].
      intros [Hno _]%list_elem_of_filter. done.
    - assert (H1 : rid ∉ pk) by (intros Hin; apply (ids_of_filter r _ rid e Hr He) in Hin; congruence). rewrite (decide_False (P := rid ∈ pk)) by done.
      destruct (leaves e) eqn:El.
      + rewrite decide_True; [done|]. apply list_elem_of_filter. split; [done|]. by apply (ids_of_filter r _ rid e).
      + rewrite decide_False; [done|]. intros [_ Hin]%list_elem_of_filter. apply (ids_of_filter r _ rid e Hr He) in Hin. congruence. }
  assert (Hst : ∀ rid e', jm_get (filter (λ p : jsstr * PendingMutation, p.1 ∉ dr) l1) rid = Some e' →
    requestId e' = rid ∧ ∀ ts at_, status e' ≠ Completed ts at_).
  { intros rid e'. rewrite Hget. destruct (jm_get (log r) rid) as [e|] eqn:He; [|done]. cbn. unfold after_close.
    pose proof (re_ids _ Hr _ _ He) as Hid. destruct (parkable armed e); [intros [= <-]; by split|].
    unfold leaves. destruct (status e) eqn:Es; try done; intros [= <-]; (split; [done|]); intros ts at_; by rewrite Es. }
  split_and!; [split|..]; cbn.
  - apply Hr.
  - unfold jm_ok. eapply sublist_NoDup; [|apply sublist_map, sublist_filter]. apply Hl1.
  - intros rid e He. by apply Hst.
  - intros rid e ts at_ He Hs. by destruct (proj2 (Hst rid e He) ts at_).
  - intros rid e ts at_ He Hs. by destruct (proj2 (Hst rid e He) ts at_).
  - exact Hget.
Qed.

Lemma closeSession_state r armed : (closeSession r armed).1 = rebuild (close_state r armed) [].
Proof. done. Qed.

(** ** The events of the reconciler and of its client *)
Inductive event :=
  | EvInitiate (e : PendingMutation)
  | EvIngest (ms : list StateModification) (endTs : Z)
  | EvSuccess (rid : jsstr) (ts : option Z) (now : Z)
  | EvFailure (rid : jsstr)
  | EvGateTimeout (rid : jsstr)
  | EvClose (armed : bool)
  | EvHydrate (e : PendingMutation)
  | EvVerdict (rid : jsstr)
  | EvStatus (rid : jsstr) (st : MutationStatus)      (** the client marks an entry sent or unsent *)
  | EvListeners (hash : jsstr) (ls : list nat)        (** a listener joins or leaves a subscription *)
  | EvDeliver (ns : list Note)                        (** a cached value delivered to a new listener *)
  | EvSubscribe (queryId : Z) (path : jsstr) (args : json) (hash : jsstr)
  | EvUnsubscribe (hash : jsstr).

Definition set_listeners (s : Store) (hash : jsstr) (ls : list nat) : Store :=
  match jm_get (byHash s) hash with Some p => upd_sub s p (with_listeners ls) | None => s end.

Definition rstep (r : Reconciler) (ev : event) : Reconciler :=
  match ev with
  | EvInitiate e => (initiate r e).1
  | EvIngest ms ts => (ingestTransition r ms ts).1
  | EvSuccess rid ts now => onMutationSuccess r rid ts now
  | EvFailure rid => onMutationFailure r rid
  | EvGateTimeout rid => gateTimeout r rid
  | EvClose armed => (closeSession r armed).1
  | EvHydrate e => addHydrated r e
  | EvVerdict rid => onVerdictAfterBaseline r rid
  | EvStatus rid st => with_log r (log_update (log r) rid (with_status st))
  | EvListeners h ls => with_store r (set_listeners (rstore r) h ls)
  | EvDeliver ns => with_store r (notify (rstore r) ns)
  | EvSubscribe q path args h => with_store r (create (rstore r) q path args h).2
  | EvUnsubscribe h => with_store r (remove (rstore r) h)
  end.

(** New entries have new ids and are not completed; frames decode; the client creates a subscription only
    for a hash it does not have, under a new query id, and never marks an entry completed itself. *)
Definition allowed (r : Reconciler) (ev : event) : Prop :=
  match ev with
  | EvInitiate e | EvHydrate e => fresh_entry e ∧ jm_get (log r) (requestId e) = None
  | EvIngest ms ts => (ingestTransition r ms ts).2 = Ok tt
  | EvSubscribe q _ _ h => jm_get (byHash (rstore r)) h = None ∧ jm_get (byId (rstore r)) q = None
  | EvStatus _ st => ∀ ts at_, st ≠ Completed ts at_
  | _ => True
  end.

Definition changes_queries (ev : event) : bool := match ev with EvSubscribe _ _ _ _ | EvUnsubscribe _ => true | _ => false end.

(** *** Invariant *)
Lemma log_update_rec_ok r rid f : rec_ok r → (∀ e, requestId (f e) = requestId e) →
  (∀ e ts at_, status (f e) = Completed ts at_ → 0 < ts ∧ rid ∈ timers r) → rec_ok (with_log r (log_update (log r) rid f)).
Proof.
  intros Hr Hid Hf. apply with_log_ok; [done|apply log_update_ok, Hr|]. intros rid' e. rewrite log_update_get.
  destruct (decide (rid' = rid)) as [->|Hne].
  - destruct (jm_get (log r) rid) as [e0|] eqn:E; [|done]. intros [= <-]. split; [rewrite Hid; by eapply re_ids|]. by eapply Hf.
  - intros He. split; [by eapply re_ids|]. intros ts at_ Hst. by eapply re_timer.
Qed.

Lemma timers_ok r t : rec_ok r → (∀ rid e ts at_, jm_get (log r) rid = Some e → status e = Completed ts at_ → rid ∈ t) → rec_ok (with_timers r t).
Proof. intros Hr Ht. split; try apply Hr. intros rid e ts at_ He Hst. split; [by eapply re_timer|by eapply Ht]. Qed.

Lemma success_completed r rid ts now e : rec_ok r → gated r → jm_get (log r) rid = Some e → 0 < ts → versionCoversCommit (observedTs r) ts = false →
  let r' := armGateTimer (with_log r (log_update (log r) rid (with_status (Completed ts now)))) rid in rec_ok r' ∧ gated r'.
Proof.
  intros Hr Hg He Hts Hcov. assert (Hobs : observedTs r < ts).
  { unfold versionCoversCommit in Hcov. apply andb_false_iff in Hcov as [H|H]; [apply Z.leb_gt in H; lia|apply Z.ltb_ge in H; lia]. }
  set (l := log_update (log r) rid (with_status (Completed ts now))). cbv zeta.
  assert (Hin : ∀ rid', rid' ∈ filter (λ x, x ≠ rid) (timers r) ++ [rid] ↔ rid' = rid ∨ rid' ∈ timers r).
  { intros rid'. rewrite elem_of_app, list_elem_of_filter, list_elem_of_singleton. destruct (decide (rid' = rid)); tauto. }
  assert (Hr1 : rec_ok (with_timers r (filter (λ x, x ≠ rid) (timers r) ++ [rid]))).
  { apply timers_ok; [done|]. intros rid' e' ts' at_ He' Hst. apply Hin. right. by eapply re_timer. }
  split.
  - apply (log_update_rec_ok (with_timers r (filter (λ x, x ≠ rid) (timers r) ++ [rid]))); [done|done|].
    intros e' ts' at_ [= <- _]. split; [done|]. cbn. apply Hin. by left.
  - intros rid' e' ts' at_. cbn. unfold l. rewrite log_update_get. case_decide; [|by apply Hg].
    destruct (jm_get (log r) rid'); [|done]. intros [= <-] [= <- _]. done.
Qed.

Lemma clear_idle_ok r rid : rec_ok r → (∀ e ts at_, jm_get (log r) rid = Some e → status e ≠ Completed ts at_) → rec_ok (clearTimer r rid).
Proof.
  intros Hr Hn. apply timers_ok; [done|]. intros rid' e ts at_ He Hst. apply list_elem_of_filter. split; [|by eapply re_timer].
  intros ->. by eapply Hn.
Qed.

Lemma success_ok r rid ts now : rec_ok r → gated r → rec_ok (onMutationSuccess r rid ts now) ∧ gated (onMutationSuccess r rid ts now).
Proof.
  intros Hr Hg. unfold onMutationSuccess. destruct (jm_get (log r) rid) as [e|] eqn:He; [|done].
  assert (Hd : rec_ok (log_delete r rid)) by (by apply log_delete_ok).
  assert (Hgd : gated (log_delete r rid)).
  { apply (gated_sub r); [|done|done]. intros rid' e'. cbn. rewrite jm_get_delete by apply Hr. by case_decide. }
  assert (Hrb : rec_ok (rebuild (log_delete r rid) []) ∧ gated (rebuild (log_delete r rid) [])).
  { split; [by apply rebuild_spec|by apply rebuild_gated]. }
  destruct (match update e with None => true | Some _ => Nat.eqb (length (touched e)) 0 end); [done|].
  destruct ts as [ts|]; [|done]. destruct (ts <=? 0) eqn:Et; [done|]. apply Z.leb_gt in Et.
  destruct (versionCoversCommit (observedTs r) ts) eqn:Ec; [done|]. by eapply success_completed.
Qed.

Lemma drop_rebuild_ok r rid : rec_ok r → gated r → let r' := rebuild (drop_entry r rid) [] in rec_ok r' ∧ gated r' ∧ settled r'.
Proof.
  intros Hr Hg. pose proof (drop_entry_ok r rid Hr) as Hd. cbv zeta. split_and!; [by apply rebuild_spec| |by apply rebuild_spec].
  apply rebuild_gated; [done|]. apply (gated_sub r); [by apply drop_entry_sub|done|done].
Qed.

Lemma step_ok r ev : rec_ok r → gated r → allowed r ev → rec_ok (rstep r ev) ∧ gated (rstep r ev).
Proof.
  intros Hr Hg Ha. destruct ev as [e|ms ts|rid ts now|rid|rid|armed|e|rid|rid st|h ls|ns|q path args h|h]; cbn [rstep].
  - destruct Ha as [Hf _]. pose proof (log_add_ok r e Hr Hf). pose proof (log_add_gated r e Hf Hg). rewrite initiate_state.
    destruct (update e); [|done]. split; [by apply rebuild_spec|by apply rebuild_gated].
  - pose proof (ingest_ok r ms ts Hr) as Hi. cbn in Ha. destruct (ingestTransition r ms ts) as [r' x]. cbn in *. destruct Hi as [H1 H2].
    split; [done|]. by apply H2.
  - by apply success_ok.
  - unfold onMutationFailure. destruct (jm_has _ _); [|done]. destruct (drop_rebuild_ok r rid Hr Hg) as (H1 & H2 & _). done.
  - unfold gateTimeout. case_bool_decide; [|done]. cbn [log clearTimer with_timers].
    destruct (jm_get (log r) rid) as [e|] eqn:He; [|split; [apply clear_idle_ok; [done|]; by rewrite He|done]].
    destruct (status e) eqn:Es; try (split; [apply clear_idle_ok; [done|]; intros e' ts at_ He'; simplify_eq; by rewrite Es|done]).
    destruct (drop_rebuild_ok r rid Hr Hg) as (H1 & H2 & _). done.
  - rewrite closeSession_state. destruct (close_state_spec r armed Hr) as (H1 & H2 & _). split; [by apply rebuild_spec|by apply rebuild_gated].
  - destruct Ha as [Hf _]. pose proof (log_add_ok r e Hr Hf). pose proof (log_add_gated r e Hf Hg). unfold addHydrated.
    destruct (update e); [|done]. split; [by apply rebuild_spec|by apply rebuild_gated].
  - unfold onVerdictAfterBaseline. destruct (jm_has _ _); [|done]. destruct (drop_rebuild_ok r rid Hr Hg) as (H1 & H2 & _). done.
  - cbn in Ha. split.
    + apply log_update_rec_ok; [done|done|]. intros e ts at_ Hst. by destruct (Ha ts at_).
    + intros rid' e ts at_. cbn. rewrite log_update_get. case_decide; [|by apply Hg].
      destruct (jm_get (log r) rid'); [|done]. intros [= <-] Hst. by destruct (Ha ts at_).
  - split; [|done]. apply with_store_ok; [done|]. unfold set_listeners. destruct (jm_get _ _); [|apply Hr]. apply upd_sub_ok; [by intros sub|done|apply Hr].
  - split; [|done]. apply with_store_ok; [done|]. apply notify_ok, Hr.
  - destruct Ha as [H1 H2]. split; [|done]. apply with_store_ok; [done|]. apply create_ok; [done|done|apply Hr].
  - split; [|done]. apply with_store_ok; [done|]. apply remove_store_ok, Hr.
Qed.

(** *** The composed view *)
Definition quiet (l : list PendingMutation) (h : jsstr) : Prop := ∀ e, e ∈ l → update e ≠ None → h ∉ touched e.

Lemma settled_with_log r r' : rstore r' = rstore r → settled r →
  layered stringify (queries_of (rstore r)) (entriesInOrder (log r')) (server_view (rstore r)) →
  view_equiv (spec_replay stringify (queries_of (rstore r)) (entriesInOrder (log r')) (server_view (rstore r)))
    (spec_replay stringify (queries_of (rstore r)) (entriesInOrder (log r)) (server_view (rstore r))) →
  (∀ h, quiet (entriesInOrder (log r')) h → quiet (entriesInOrder (log r)) h) → settled r'.
Proof.
  intros Es Hs Hl Hv Hq. split; rewrite Es.
  - intros sub Hsub. rewrite (Hv (cs_hash sub)). by apply Hs.
  - intros sub Hsub Hno. apply Hs; [done|]. exact (Hq _ Hno).
  - done.
Qed.

Lemma jm_split {A} (l : list (jsstr * A)) k v : jm_get l k = Some v → ∃ l1 l2, l = l1 ++ (k, v) :: l2 ∧
  jm_get l1 k = None ∧ jm_delete l k = l1 ++ l2 ∧ ∀ v', jm_set l k v' = l1 ++ (k, v') :: l2.
Proof.
  induction l as [|[k' v0] l IH]; [done|]. cbn [jm_get jm_set jm_delete]. destruct (decide (k = k')) as [->|Hn].
  - intros [= ->]. by exists [], l.
  - intros H. destruct (IH H) as (l1 & l2 & -> & H1 & H2 & H3). exists ((k', v0) :: l1), l2. cbn [jm_get app]. rewrite decide_False by done.
    split_and!; try done; [by rewrite H2|]. intros v'. by rewrite H3.
Qed.

Lemma settled_add r e : rec_ok r → settled r → update e = None → jm_get (log r) (requestId e) = None → settled (with_log r (log_add (log r) e)).
Proof.
  intros Hr Hs Hu Hn. assert (El : entriesInOrder (log_add (log r) e) = entriesInOrder (log r) ++ [e]).
  { unfold entriesInOrder, log_add, jm_values. rewrite jm_set_fresh by (by apply jm_get_None). by rewrite fmap_app. }
  apply (settled_with_log r); [done|done|..]; cbn [log with_log]; rewrite El.
  - apply layered_app. split; [apply Hs|]. cbn [layered]. unfold spec_entry. rewrite Hu. eauto.
  - rewrite spec_replay_app. unfold spec_replay at 1. cbn [fold_left]. unfold spec_entry at 1. by rewrite Hu.
  - intros h Hq e' He'. apply Hq. apply elem_of_app. by left.
Qed.

Lemma settled_delete r rid e : settled r → jm_get (log r) rid = Some e → update e = None ∨ touched e = [] → settled (log_delete r rid).
Proof.
  intros Hs He Hu. destruct (jm_split _ _ _ He) as (l1 & l2 & El & _ & Ed & _).
  assert (E1 : entriesInOrder (log r) = entriesInOrder l1 ++ e :: entriesInOrder l2).
  { rewrite El. unfold entriesInOrder, jm_values. by rewrite fmap_app. }
  assert (E2 : entriesInOrder (log (log_delete r rid)) = entriesInOrder l1 ++ entriesInOrder l2).
  { cbn. rewrite Ed. unfold entriesInOrder, jm_values. by rewrite fmap_app. }
  pose proof (se_layered _ Hs) as Hl. rewrite E1 in Hl. destruct (layered_delete _ _ _ _ _ _ Hu Hl) as [H1 H2].
  apply (settled_with_log r); [done|done|..]; rewrite ?E1, ?E2; [done|done|].
  intros h Hq e' He'. apply elem_of_app in He' as [Hin|[->|Hin]%elem_of_cons].
  - apply Hq. apply elem_of_app. by left.
  - destruct Hu as [Hu|Hu]; [by rewrite Hu|]. rewrite Hu. intros _. apply not_elem_of_nil.
  - apply Hq. apply elem_of_app. by right.
Qed.

Lemma settled_update r rid f : settled r → (∀ e, layer_eq e (f e)) → settled (with_log r (log_update (log r) rid f)).
Proof.
  intros Hs Hf. unfold log_update. destruct (jm_get (log r) rid) as [e|] eqn:He; [|by destruct r].
  destruct (jm_split _ _ _ He) as (l1 & l2 & El & _ & _ & Es).
  assert (E1 : entriesInOrder (log r) = entriesInOrder l1 ++ e :: entriesInOrder l2).
  { rewrite El. unfold entriesInOrder, jm_values. by rewrite fmap_app. }
  assert (E2 : entriesInOrder (jm_set (log r) rid (f e)) = entriesInOrder l1 ++ f e :: entriesInOrder l2).
  { rewrite Es. unfold entriesInOrder, jm_values. by rewrite fmap_app. }
  assert (H2 : Forall2 layer_eq (entriesInOrder (log r)) (entriesInOrder (jm_set (log r) rid (f e)))).
  { rewrite E1, E2. apply Forall2_app; [by apply Forall_Forall2_diag, Forall_true|]. constructor; [done|by apply Forall_Forall2_diag, Forall_true]. }
  destruct (layered_eq _ _ _ _ _ H2 (se_layered _ Hs)) as [H3 H4].
  apply (settled_with_log r); [done|done|done|cbn [log with_log]; by rewrite H4|]. cbn [log with_log].
  intros h Hq e' He' Hu. apply list_elem_of_lookup_1 in He' as (i & Hi). destruct (Forall2_lookup_l _ _ _ _ _ H2 Hi) as (e2 & Hi2 & (U & _ & _ & T)).
  rewrite <-T. apply Hq; [by eapply list_elem_of_lookup_2|congruence].
Qed.

Lemma settled_listeners r h ls : rec_ok r → settled r → settled (with_store r (set_listeners (rstore r) h ls)).
Proof.
  intros Hr Hs. unfold set_listeners. destruct (jm_get (byHash (rstore r)) h) as [p|] eqn:Eh; [|by destruct r].
  destruct (upd_sub_same (rstore r) p (with_listeners ls)) as (Ebh & _ & _ & _). set (s' := upd_sub _ _ _) in *.
  assert (Hget : ∀ q, jm_get (heap s') q = if decide (q = p) then with_listeners ls <$> jm_get (heap (rstore r)) q else jm_get (heap (rstore r)) q).
  { intros q. apply upd_sub_get. }
  assert (Hlive : ∀ (B : Type) (g : ClientSub → B), (∀ sub, g (with_listeners ls sub) = g sub) → List.map g (live s') = List.map g (live (rstore r))).
  { intros B g Hg. unfold live. rewrite Ebh. induction (jm_values (byHash (rstore r))) as [|q ps IH]; [done|]. cbn [omap list_omap]. rewrite Hget.
    destruct (decide (q = p)) as [->|]; destruct (jm_get (heap (rstore r)) _); cbn; rewrite ?IH, ?Hg; done. }
  assert (Hsrv : ∀ h', serverValueOf s' h' = serverValueOf (rstore r) h').
  { intros h'. unfold serverValueOf. rewrite Ebh. destruct (jm_get (byHash (rstore r)) h') as [q|]; [|done]. cbn. rewrite Hget.
    destruct (decide (q = p)) as [->|]; [|done]. by destruct (jm_get (heap (rstore r)) p). }
  assert (Hq : queries_of s' = queries_of (rstore r)) by (by apply Hlive). apply server_view_same in Hsrv as Hview.
  assert (Hin : ∀ sub', sub' ∈ live s' → ∃ sub, sub ∈ live (rstore r) ∧ cs_hash sub' = cs_hash sub ∧ composedValue sub' = composedValue sub ∧ serverValue sub' = serverValue sub).
  { intros sub' Hsub'. assert (Hx : (cs_hash sub', composedValue sub', serverValue sub') ∈ List.map (λ sub, (cs_hash sub, composedValue sub, serverValue sub)) (live s')).
    { apply list_elem_of_In, in_map_iff. exists sub'. split; [done|by apply list_elem_of_In]. }
    rewrite (Hlive _ (λ sub, (cs_hash sub, composedValue sub, serverValue sub))) in Hx by done.
    apply list_elem_of_In, in_map_iff in Hx as (sub & [= E1 E2 E3] & Hx). exists sub. split; [by apply list_elem_of_In|done]. }
  split; cbn [rstore log with_store]; fold s'.
  - intros sub' Hsub'. destruct (Hin sub' Hsub') as (sub & Hsub & -> & -> & _). rewrite Hq, (spec_replay_proper _ _ _ _ _ Hview _). by apply Hs.
  - intros sub' Hsub'. destruct (Hin sub' Hsub') as (sub & Hsub & -> & -> & ->). by apply Hs.
  - rewrite Hq. eapply layered_proper; [symmetry; exact Hview|apply Hs].
Qed.

Lemma settled_eq r r' : rstore r' = rstore r → log r' = log r → settled r → settled r'.
Proof. intros E1 E2 Hs. split; rewrite E1, E2; apply Hs. Qed.

Lemma success_settled r rid ts now : rec_ok r → settled r → settled (onMutationSuccess r rid ts now).
Proof.
  intros Hr Hs. unfold onMutationSuccess. destruct (jm_get (log r) rid) as [e|] eqn:He; [|done].
  assert (Hrb : settled (rebuild (log_delete r rid) [])) by (by apply rebuild_spec, log_delete_ok).
  destruct (match update e with None => true | Some _ => Nat.eqb (length (touched e)) 0 end) eqn:Eu.
  { eapply settled_delete; [done|done|]. destruct (update e); [right|by left]. apply Nat.eqb_eq in Eu. by apply length_zero_iff_nil. }
  destruct ts as [ts|]; [|done]. destruct (ts <=? 0); [done|]. destruct (versionCoversCommit _ _); [done|].
  eapply settled_eq; [| |apply (settled_update r rid (with_status (Completed ts now))); [done|by intros e']]; done.
Qed.

Lemma step_settled r ev : rec_ok r → gated r → allowed r ev → changes_queries ev = false → settled r → settled (rstep r ev).
Proof.
  intros Hr Hg Ha Hc Hs. destruct ev as [e|ms ts|rid ts now|rid|rid|armed|e|rid|rid st|h ls|ns|q path args h|h]; cbn [rstep]; try done.
  - destruct Ha as [Hf Hn]. rewrite initiate_state. destruct (update e) eqn:Eu; [by apply rebuild_spec, log_add_ok|by apply settled_add].
  - pose proof (ingest_ok r ms ts Hr) as Hi. cbn in Ha. destruct (ingestTransition r ms ts) as [r' x]. by apply Hi.
  - by apply success_settled.
  - unfold onMutationFailure. destruct (jm_has _ _); [|done]. by apply drop_rebuild_ok.
  - unfold gateTimeout. case_bool_decide; [|done]. cbn [log clearTimer with_timers].
    destruct (jm_get (log r) rid) as [e|] eqn:He; [|by apply (settled_eq r)].
    destruct (status e) eqn:Es; try (by apply (settled_eq r)). by destruct (drop_rebuild_ok r rid Hr Hg) as (_ & _ & Hx).
  - rewrite closeSession_state. destruct (close_state_spec r armed Hr) as (H1 & _). by apply rebuild_spec.
  - destruct Ha as [Hf Hn]. unfold addHydrated. destruct (update e) eqn:Eu; [by apply rebuild_spec, log_add_ok|by apply settled_add].
  - unfold onVerdictAfterBaseline. destruct (jm_has _ _); [|done]. by apply drop_rebuild_ok.
  - apply settled_update; [done|]. by intros e.
  - by apply settled_listeners.
  - destruct Hs as [H1 H2 H3]. by split.
Qed.

(** ** Reachable states *)
Inductive reachable : Reconciler → Prop :=
  | reach_new : reachable new_Reconciler
  | reach_step r ev : reachable r → allowed r ev → reachable (rstep r ev).

Lemma reachable_ok r : reachable r → rec_ok r ∧ gated r.
Proof.
  induction 1 as [|r ev _ [Hr Hg] Ha]; [|by apply step_ok]. split; [|done]. split; [apply new_Store_ok|apply jm_nil_ok|done|done].
Qed.

(** A run of events that are all allowed. *)
Inductive run : Reconciler → list event → Reconciler → Prop :=
  | run_nil r : run r [] r
  | run_cons r ev evs r' : allowed r ev → run (rstep r ev) evs r' → run r (ev :: evs) r'.

(** C29: the optimistic view is the replay. From the moment a transition is ingested, until the set of subscribed
    queries changes, and as long as the transitions that follow decode, what each subscription shows is the server's
    values with the surviving pending updates replayed over them in order: no surviving update throws, an
    update that threw has contributed nothing, and a query that no surviving update touched shows the server's
    own reference, not a copy. A query subscribed in between is in this view from the next replay on
    ([subscribed_under_layer]). *)
Theorem optimistic_view r ms ts evs r' : reachable r → run r (EvIngest ms ts :: evs) r' → Forall (λ ev, changes_queries ev = false) evs →
  layered stringify (queries_of (rstore r')) (entriesInOrder (log r')) (server_view (rstore r')) ∧
  ∀ sub, sub ∈ live (rstore r') →
    js_same (values_of (composedValue sub))
      (spec_replay stringify (queries_of (rstore r')) (entriesInOrder (log r')) (server_view (rstore r')) (cs_hash sub)) ∧
    (quiet (entriesInOrder (log r')) (cs_hash sub) → same_ref (composedValue sub) (serverValue sub)).
Proof.
  intros Hre Hrun Hf. inversion Hrun as [|? ? ? ? Ha Hrun']; subst. destruct (reachable_ok r Hre) as [Hr Hg].
  destruct (step_ok r (EvIngest ms ts) Hr Hg Ha) as [Hr1 Hg1].
  assert (Hs : settled (rstep r (EvIngest ms ts))).
  { cbn [rstep]. cbn in Ha. pose proof (ingest_ok r ms ts Hr) as Hi. destruct (ingestTransition r ms ts) as [x y]. by apply Hi. }
  assert (Hs' : settled r').
  { clear -Hrun' Hf Hr1 Hg1 Hs. induction Hrun' as [|r1 ev evs r2 Ha _ IH]; [done|]. apply Forall_cons in Hf as [Hc Hf].
    destruct (step_ok r1 ev Hr1 Hg1 Ha) as [Hr2 Hg2]. apply IH; [done|done|done|by apply step_settled]. }
  split; [apply Hs'|]. intros sub Hsub. split; [by apply Hs'|]. by apply Hs'.
Qed.

(** The gate. In every reachable state, a mutation acknowledged at a commit timestamp keeps its layer only
    while the client's feed has not reached that timestamp, and only under an armed timer whose firing
    removes it; every other layer belongs to a mutation that is not yet acknowledged. *)
Theorem gate_invariant r rid e : reachable r → jm_get (log r) rid = Some e → requestId e = rid ∧
  match status e with
  | Completed ts _ => 0 < ts ∧ observedTs r < ts ∧ rid ∈ timers r ∧ jm_get (log (gateTimeout r rid)) rid = None
  | _ => True
  end.
Proof.
  intros Hre He. destruct (reachable_ok r Hre) as [Hr Hg]. split; [by eapply re_ids|].
  destruct (status e) eqn:Es; try done. destruct (re_timer _ Hr _ _ _ _ He Es) as [H1 H2]. split_and!; try done; [by eapply Hg|].
  unfold gateTimeout. rewrite bool_decide_true by done. cbn [log clearTimer with_timers]. rewrite He, Es.
  destruct (rebuild_spec (log_delete (clearTimer r rid) rid) [] (drop_entry_ok r rid Hr)) as (_ & _ & Hfrom & _).
  destruct (jm_get (log (rebuild _ _)) rid) as [e'|] eqn:E'; [|done]. destruct (Hfrom rid e' E') as (e0 & t & H0 & _).
  cbn in H0. rewrite jm_get_delete, decide_True in H0; [done|done|apply Hr].
Qed.

Lemma survivors_layerless qs es w e : update e = None → e ∈ es → e ∈ survivors stringify qs es w.
Proof.
  intros Hu. revert w. induction es as [|e' es IH]; intros w; cbn [survivors]; [done|]. intros [->|Hin]%elem_of_cons.
  - unfold spec_entry. rewrite Hu. by left.
  - destruct (spec_entry stringify qs e' w); [right|]; by apply IH.
Qed.

Lemma rebuild_keeps r force rid e : rec_ok r → jm_get (log r) rid = Some e → update e = None →
  ∃ t, jm_get (log (rebuild r force)) rid = Some (with_touched t e).
Proof.
  intros Hr He Hu. destruct (rebuild_spec r force Hr) as (Hr' & _ & _ & _ & _ & _ & _ & Hf).
  apply elem_of_entries in He as [Hin <-]; [|done]. apply (survivors_layerless (queries_of (rstore r)) _ (server_view (rstore r)) e Hu) in Hin.
  apply list_elem_of_lookup_1 in Hin as (i & Hi). destruct (Forall2_lookup_l _ _ _ _ _ Hf Hi) as (e' & Hi' & t & ->).
  exists t. apply elem_of_entries; [done|]. split; [by eapply list_elem_of_lookup_2|done].
Qed.

(** What a lost connection does to pending mutations. Every in-flight mutation is either rejected, once and with
    its layer gone, or, when the server has proved it deduplicates and the mutation is durably stored, parked under its
    recorded identity without a layer; an acknowledged one just loses its layer; an unsent or parked one is
    kept, with its layer (unless that layer's updater throws when it is replayed). Nothing else is rejected,
    and no layer of a sent mutation crosses to the next session. *)
Theorem close_partition r armed rid e : reachable r → jm_get (log r) rid = Some e →
  let '(r', x) := closeSession r armed in
  observedTs r' = 0 ∧
  match status e with
  | Inflight =>
      if armed && durable e then rid ∈ parked x ∧ rid ∉ rejectedInflight x ∧ ∃ t, jm_get (log r') rid = Some (with_touched t (park e))
      else rid ∈ rejectedInflight x ∧ rid ∉ parked x ∧ jm_get (log r') rid = None
  | Completed _ _ => rid ∉ rejectedInflight x ∧ rid ∉ parked x ∧ jm_get (log r') rid = None
  | Unsent | Parked => rid ∉ rejectedInflight x ∧ rid ∉ parked x ∧
      (∀ e', jm_get (log r') rid = Some e' → ∃ t, e' = with_touched t e) ∧
      (update e = None → ∃ t, jm_get (log r') rid = Some (with_touched t e))
  end.
Proof.
  intros Hre He. destruct (reachable_ok r Hre) as [Hr _]. destruct (close_state_spec r armed Hr) as (Hc & _ & Hget).
  pose proof (closeSession_state r armed) as Est. destruct (closeSession r armed) as [r' x] eqn:Ex. cbn [fst] in Est. subst r'.
  destruct (rebuild_spec (close_state r armed) [] Hc) as (_ & _ & Hfrom & Hobs & _).
  assert (Hx : x = {| rejectedInflight := cd_reject (closeDisposition (entriesInOrder (log r)) armed);
    parked := cd_park (closeDisposition (entriesInOrder (log r)) armed) |}) by (unfold closeSession in Ex; by simplify_eq).
  rewrite closeDisposition_spec in Hx. subst x. cbn [rejectedInflight parked cd_reject cd_park]. split; [done|].
  assert (Hgone : after_close armed e = None → jm_get (log (rebuild (close_state r armed) [])) rid = None).
  { intros Ha. destruct (jm_get (log (rebuild _ _)) rid) as [e'|] eqn:E'; [|done]. destruct (Hfrom rid e' E') as (e0 & t & H0 & _).
    rewrite Hget, He in H0. cbn in H0. congruence. }
  assert (Hkept : ∀ e1, after_close armed e = Some e1 → jm_get (log (close_state r armed)) rid = Some e1) by (intros e1 Ha; by rewrite Hget, He).
  unfold after_close, parkable, leaves in *. destruct (status e) eqn:Es.
  1,4: rewrite !(ids_of_filter r _ rid e) by done; unfold parkable; rewrite !Es; split_and!; [done|done| |intros Hu; apply rebuild_keeps; auto];
    intros e' He'; destruct (Hfrom rid e' He') as (e0 & t & H0 & ->); rewrite (Hkept e eq_refl) in H0; simplify_eq; by exists t.
  - destruct (armed && durable e) eqn:Ea; rewrite !(ids_of_filter r _ rid e) by done; unfold parkable; rewrite !Es, Ea; split_and!; try done; [|by apply Hgone].
    by apply rebuild_keeps; [|apply Hkept|].
  - rewrite !(ids_of_filter r _ rid e) by done; unfold parkable; rewrite !Es. split_and!; [done|done|]. by apply Hgone.
Qed.
End reconciler.

(** ** Concrete runs *)
Definition plain_stringify (j : json) : jsstr := [].
Definition seed0 : Seed := {| entropy := js "e"; seed_now := 0 |}.
Definition show_one (args : value) : upd := USet (js "list") (VObj []) (NvFresh (VArr [VNull])) UDone.
Definition pending_entry (rid : jsstr) (u : option (value → upd)) (dur : bool) : PendingMutation :=
  {| requestId := rid; pmu_udfPath := js "add"; pmu_args := JNull; update := u; seed := seed0; touched := []; status := Inflight;
     clientId := None; seq := None; m_order := None; identityFingerprint := None; enqueuedAt := None; durable := dur |}.

Definition rrun (evs : list event) (r : Reconciler) : Reconciler := fold_left (rstep plain_stringify) evs r.
Definition allowedb (r : Reconciler) (ev : event) : bool :=
  match ev with
  | EvInitiate e | EvHydrate e =>
      match status e with Completed _ _ => false | _ => true end && match jm_get (log r) (requestId e) with None => true | _ => false end
  | EvIngest ms ts => match (ingestTransition plain_stringify r ms ts).2 with Ok _ => true | Err _ => false end
  | EvSubscribe q _ _ h => match jm_get (byHash (rstore r)) h, jm_get (byId (rstore r)) q with None, None => true | _, _ => false end
  | EvStatus _ st => match st with Completed _ _ => false | _ => true end
  | _ => true
  end.
Fixpoint allowed_run (r : Reconciler) (evs : list event) : bool :=
  match evs with [] => true | ev :: evs => allowedb r ev && allowed_run (rstep plain_stringify r ev) evs end.

Lemma allowedb_allowed r ev : allowedb r ev = true → allowed plain_stringify r ev.
Proof.
  destruct ev as [e|ms ts| | | | |e| |rid st| | |q path args h|h]; cbn; try done.
  - intros [H1 H2]%andb_true_iff. split; [intros ts at_ E; by rewrite E in H1|by destruct (jm_get _ _)].
  - by destruct (ingestTransition _ _ _ _) as [? [[]|]].
  - intros [H1 H2]%andb_true_iff. split; [intros ts at_ E; by rewrite E in H1|by destruct (jm_get _ _)].
  - intros H ts at_ ->. done.
  - destruct (jm_get (byHash _) _), (jm_get (byId _) _); done.
Qed.
Lemma rrun_run r evs : allowed_run r evs = true → run plain_stringify r evs (rrun evs r).
Proof.
  revert r. induction evs as [|ev evs IH]; intros r; cbn; [constructor|]. intros [H1 H2]%andb_true_iff.
  constructor; [by apply allowedb_allowed|by apply IH].
Qed.
Lemma rrun_reachable r evs : allowed_run r evs = true → reachable plain_stringify r → reachable plain_stringify (rrun evs r).
Proof.
  revert r. induction evs as [|ev evs IH]; intros r; cbn; [done|]. intros [H1 H2]%andb_true_iff Hr.
  apply IH; [done|]. apply reach_step; [done|by apply allowedb_allowed].
Qed.

(** A list subscription, two pending mutations (one durable) and a server value. *)
Definition opened : list event :=
  [EvSubscribe 1 (js "list") (JObj []) (js "list:"); EvInitiate (pending_entry (js "1") (Some show_one) false);
   EvInitiate (pending_entry (js "2") (Some show_one) true)].
Definition fed : list event := [EvSuccess (js "1") (Some 9) 0].

Lemma optimistic_view_witness :
  let r' := rrun (EvIngest [QueryUpdated 1 (JArr []) None] 5 :: fed) (rrun opened new_Reconciler) in
  layered plain_stringify (queries_of (rstore r')) (entriesInOrder (log r')) (server_view (rstore r')) ∧
  (values_of ∘ composedValue) <$> live (rstore r') = [Some (VArr [VNull])] ∧ (values_of ∘ serverValue) <$> live (rstore r') = [Some (VArr [])].
Proof.
  cbv zeta. split; [|by vm_compute].
  assert (Hre : reachable plain_stringify (rrun opened new_Reconciler)) by (apply rrun_reachable; [by vm_compute|constructor]).
  assert (Hrun := rrun_run (rrun opened new_Reconciler) (EvIngest [QueryUpdated 1 (JArr []) None] 5 :: fed) ltac:(by vm_compute)).
  destruct (optimistic_view plain_stringify _ _ _ _ _ Hre Hrun) as [H _]; [by repeat constructor|exact H].
Defined.

(** A subscription created while a pending layer writes its query shows nothing: [create] replays no layer, and nothing
    composes its value before the next replay, here the next transition's. *)
Lemma subscribed_under_layer :
  let r := rrun [EvInitiate (pending_entry (js "1") (Some show_one) false); EvSubscribe 1 (js "list") (JObj []) (js "list:")] new_Reconciler in
  reachable plain_stringify r ∧ (values_of ∘ composedValue) <$> live (rstore r) = [None] ∧
  spec_replay plain_stringify (queries_of (rstore r)) (entriesInOrder (log r)) (server_view (rstore r)) (js "list:") = Some (VArr [VNull]) ∧
  (values_of ∘ composedValue) <$> live (rstore (rrun [EvIngest [] 5] r)) = [Some (VArr [VNull])].
Proof.
  cbv zeta. split; [apply rrun_reachable; [by vm_compute|constructor]|]. by vm_compute.
Qed.

Lemma gate_invariant_witness :
  let r := rrun (opened ++ fed) new_Reconciler in
  (status <$> jm_get (log r) (js "1")) = Some (Completed 9 0) ∧ observedTs r < 9 ∧ js "1" ∈ timers r.
Proof.
  cbv zeta. set (r := rrun (opened ++ fed) new_Reconciler).
  assert (Hre : reachable plain_stringify r) by (apply rrun_reachable; [by vm_compute|constructor]).
  destruct (jm_get (log r) (js "1")) as [e|] eqn:E; [|by vm_compute in E].
  assert (Hs : status e = Completed 9 0) by (vm_compute in E; by injection E as <-).
  destruct (gate_invariant plain_stringify r (js "1") e Hre E) as [_ H]. rewrite Hs in H. clearbody r.
  cbn. rewrite Hs. destruct H as (_ & H1 & H2 & _). split_and!; [reflexivity|exact H1|exact H2].
Defined.

Lemma close_partition_witness :
  let '(r', x) := closeSession plain_stringify (rrun opened new_Reconciler) true in
  js "1" ∈ rejectedInflight x ∧ parked x = [js "2"] ∧ jm_get (log r') (js "1") = None.
Proof.
  set (r := rrun opened new_Reconciler).
  assert (Hre : reachable plain_stringify r) by (apply rrun_reachable; [by vm_compute|constructor]).
  destruct (jm_get (log r) (js "1")) as [e|] eqn:E; [|by vm_compute in E].
  assert (Hs : status e = Inflight ∧ durable e = false) by (vm_compute in E; by injection E as <-). destruct Hs as [Hs Hd].
  pose proof (close_partition plain_stringify r true (js "1") e Hre E) as H. rewrite Hs, Hd in H.
  assert (Hp : parked (closeSession plain_stringify r true).2 = [js "2"]) by (by vm_compute).
  destruct (closeSession plain_stringify r true) as [r' x]. cbn [snd] in Hp. destruct H as (_ & H1 & _ & H2). split_and!; assumption.
Defined.
