(* ===== verification/Client.v ===== *)
(** The client of a reactive backend: [packages/client/src/client.ts] without a durable outbox. Its public calls,
    the messages of its transport and the transport's closing and reopening are functions on one state;
    what it sends and the promises it settles are recorded in order. A mutation's entropy and the clock
    are arguments of the calls that read them. *)
From S2P Require Import Prelude Numbers Values Json IndexKeys Ranges DocStore QueryEngine Subscriptions DiffSync SessionFlow ClientStore Reconciler.

(** How a promise settled. *)
Inductive Settlement :=
  | Resolved (v : value)
  | Rejected (error : jsstr) (code : option jsstr)
  | ClientReset                 (** [OfflineClientResetError] *)
  | Undelivered                 (** [MutationUndeliveredError] *)
  | ConnectionClosed.           (** an action's promise at close *)

Record Client := {
  outboxOn : bool;              (** [this.outbox] is set *)
  rec : Reconciler; c_version : StateVersion; resyncing : bool; closed : bool; resumeSinceTs : Z;
  nextQueryId : Z; nextRequestId : Z; diffCapabilitySent : bool; hasSetAuth : bool; lastAuthToken : option jsstr;
  pendingMutationCallbacks : list jsstr; pendingActions : list jsstr;
  sent : list ClientMessage; settlements : list (jsstr * Settlement) }.

Definition new_Client : Client :=
  {| outboxOn := false; rec := new_Reconciler; c_version := INITIAL_VERSION; resyncing := false; closed := false; resumeSinceTs := 0;
     nextQueryId := 1; nextRequestId := 1; diffCapabilitySent := false; hasSetAuth := false; lastAuthToken := None;
     pendingMutationCallbacks := []; pendingActions := []; sent := []; settlements := [] |}.

Definition with_rec (c : Client) (r : Reconciler) : Client :=
  {| outboxOn := outboxOn c; rec := r; c_version := c_version c; resyncing := resyncing c; closed := closed c; resumeSinceTs := resumeSinceTs c;
     nextQueryId := nextQueryId c; nextRequestId := nextRequestId c; diffCapabilitySent := diffCapabilitySent c;
     hasSetAuth := hasSetAuth c; lastAuthToken := lastAuthToken c; pendingMutationCallbacks := pendingMutationCallbacks c;
     pendingActions := pendingActions c; sent := sent c; settlements := settlements c |}.
Definition with_session (c : Client) (v : StateVersion) (rs cl : bool) : Client :=
  {| outboxOn := outboxOn c; rec := rec c; c_version := v; resyncing := rs; closed := cl; resumeSinceTs := resumeSinceTs c;
     nextQueryId := nextQueryId c; nextRequestId := nextRequestId c; diffCapabilitySent := diffCapabilitySent c;
     hasSetAuth := hasSetAuth c; lastAuthToken := lastAuthToken c; pendingMutationCallbacks := pendingMutationCallbacks c;
     pendingActions := pendingActions c; sent := sent c; settlements := settlements c |}.
Definition with_counters (c : Client) (q m : Z) : Client :=
  {| outboxOn := outboxOn c; rec := rec c; c_version := c_version c; resyncing := resyncing c; closed := closed c; resumeSinceTs := resumeSinceTs c;
     nextQueryId := q; nextRequestId := m; diffCapabilitySent := diffCapabilitySent c;
     hasSetAuth := hasSetAuth c; lastAuthToken := lastAuthToken c; pendingMutationCallbacks := pendingMutationCallbacks c;
     pendingActions := pendingActions c; sent := sent c; settlements := settlements c |}.
Definition with_pending (c : Client) (pm pa : list jsstr) : Client :=
  {| outboxOn := outboxOn c; rec := rec c; c_version := c_version c; resyncing := resyncing c; closed := closed c; resumeSinceTs := resumeSinceTs c;
     nextQueryId := nextQueryId c; nextRequestId := nextRequestId c; diffCapabilitySent := diffCapabilitySent c;
     hasSetAuth := hasSetAuth c; lastAuthToken := lastAuthToken c; pendingMutationCallbacks := pm;
     pendingActions := pa; sent := sent c; settlements := settlements c |}.
Definition with_auth (c : Client) (token : option jsstr) : Client :=
  {| outboxOn := outboxOn c; rec := rec c; c_version := c_version c; resyncing := resyncing c; closed := closed c; resumeSinceTs := resumeSinceTs c;
     nextQueryId := nextQueryId c; nextRequestId := nextRequestId c; diffCapabilitySent := diffCapabilitySent c;
     hasSetAuth := true; lastAuthToken := token; pendingMutationCallbacks := pendingMutationCallbacks c;
     pendingActions := pendingActions c; sent := sent c; settlements := settlements c |}.
Definition with_capability (c : Client) (b : bool) (since : Z) : Client :=
  {| outboxOn := outboxOn c; rec := rec c; c_version := c_version c; resyncing := resyncing c; closed := closed c; resumeSinceTs := since;
     nextQueryId := nextQueryId c; nextRequestId := nextRequestId c; diffCapabilitySent := b;
     hasSetAuth := hasSetAuth c; lastAuthToken := lastAuthToken c; pendingMutationCallbacks := pendingMutationCallbacks c;
     pendingActions := pendingActions c; sent := sent c; settlements := settlements c |}.
Definition send_msg (c : Client) (m : ClientMessage) : Client :=
  {| outboxOn := outboxOn c; rec := rec c; c_version := c_version c; resyncing := resyncing c; closed := closed c; resumeSinceTs := resumeSinceTs c;
     nextQueryId := nextQueryId c; nextRequestId := nextRequestId c; diffCapabilitySent := diffCapabilitySent c;
     hasSetAuth := hasSetAuth c; lastAuthToken := lastAuthToken c; pendingMutationCallbacks := pendingMutationCallbacks c;
     pendingActions := pendingActions c; sent := sent c ++ [m]; settlements := settlements c |}.
Definition settle (c : Client) (rid : jsstr) (x : Settlement) : Client :=
  {| outboxOn := outboxOn c; rec := rec c; c_version := c_version c; resyncing := resyncing c; closed := closed c; resumeSinceTs := resumeSinceTs c;
     nextQueryId := nextQueryId c; nextRequestId := nextRequestId c; diffCapabilitySent := diffCapabilitySent c;
     hasSetAuth := hasSetAuth c; lastAuthToken := lastAuthToken c; pendingMutationCallbacks := pendingMutationCallbacks c;
     pendingActions := pendingActions c; sent := sent c; settlements := settlements c ++ [(rid, x)] |}.

(** [pendingMutationCallbacks.get(rid)] then [.delete(rid)] and settling the callback, if there was one. *)
Definition settleMutation (c : Client) (rid : jsstr) (x : Settlement) : Client :=
  let had := bool_decide (rid ∈ pendingMutationCallbacks c) in
  let c := with_pending c (filter (λ r, r ≠ rid) (pendingMutationCallbacks c)) (pendingActions c) in
  if had then settle c rid x else c.

Section client.
Variable stringify : json → jsstr.

Definition maybeSendDiffCapability (c : Client) : Client :=
  if outboxOn c || diffCapabilitySent c || closed c then c
  else send_msg (with_capability c true (resumeSinceTs c)) (MConnect None None None true).

Definition subscribe (c : Client) (path : jsstr) (args : value) (l : nat) : Client :=
  let argsJson := convexToJson args in
  let hash := queryHash stringify path argsJson in
  let c := match jm_get (byHash (rstore (rec c))) hash with
    | Some _ => c
    | None =>
        let q := nextQueryId c in
        let c := with_rec (with_counters c (q + 1) (nextRequestId c))
          (with_store (rec c) (create (rstore (rec c)) q path argsJson hash).2) in
        send_msg (maybeSendDiffCapability c)
          (MModifyQuerySet [{| qr_queryId := q; qr_udfPath := path; qr_args := argsJson; qr_resultHash := None; qr_sinceTs := None |}] [])
    end in
  match jm_get (byHash (rstore (rec c))) hash ≫= jm_get (heap (rstore (rec c))) with
  | None => c
  | Some sub =>
      let s := set_listeners (rstore (rec c)) hash (set_add (listeners sub) l) in
      let s := match composedValue sub with Some v => notify s [NUpdate l v] | None => s end in
      with_rec c (with_store (rec c) s)
  end.

(** The closure [subscribe] returns. *)
Definition unsubscribe (c : Client) (hash : jsstr) (l : nat) : Client :=
  match jm_get (byHash (rstore (rec c))) hash ≫= jm_get (heap (rstore (rec c))) with
  | None => c
  | Some sub =>
      let ls := filter (λ x, x ≠ l) (listeners sub) in
      let c := with_rec c (with_store (rec c) (set_listeners (rstore (rec c)) hash ls)) in
      if Nat.eqb (length ls) 0 then
        let c := send_msg c (MModifyQuerySet [] [cs_queryId sub]) in
        with_rec c (with_store (rec c) (remove (rstore (rec c)) hash))
      else c
  end.

Definition mutationMessage (e : PendingMutation) : ClientMessage := 
  MMutation {| me_requestId := requestId e; me_udfPath := pmu_udfPath e; me_args := pmu_args e; me_clientId := clientId e;
    me_seq := match clientId e with Some _ => seq e | None => None end |}.
Definition set_status (c : Client) (rid : jsstr) (st : MutationStatus) : Client :=
  with_rec c (with_log (rec c) (log_update (log (rec c)) rid (with_status st))).

(** [mutation]: an updater that throws makes the call throw, and nothing is sent. *)
Definition mutation (c : Client) (path : jsstr) (args : value) (optimisticUpdate : option (value → upd)) (sd : Seed) : Client * res unit :=
  let rid := string_of_int (nextRequestId c) in
  let c := with_counters c (nextQueryId c) (nextRequestId c + 1) in
  let e := {| requestId := rid; pmu_udfPath := path; pmu_args := convexToJson args; update := optimisticUpdate;
    seed := sd; touched := []; status := Unsent; clientId := None; seq := None; m_order := None;
    identityFingerprint := None; enqueuedAt := None; durable := false |} in
  let '(r, x) := initiate stringify (rec c) e in
  let c := with_rec c r in
  match x with
  | Err err => (c, Err err)
  | Ok _ =>
      let c := with_pending c (set_add (pendingMutationCallbacks c) rid) (pendingActions c) in
      (if closed c then set_status c rid Unsent
       else send_msg (set_status c rid Inflight) (mutationMessage e), Ok tt)
  end.

Definition action (c : Client) (path : jsstr) (args : value) : Client :=
  let rid := string_of_int (nextRequestId c) in
  let c := with_counters c (nextQueryId c) (nextRequestId c + 1) in
  send_msg (with_pending c (pendingMutationCallbacks c) (set_add (pendingActions c) rid)) (MAction rid path (convexToJson args)).

Definition setAuth (c : Client) (token : option jsstr) : Client := send_msg (with_auth c token) (MSetAuth token).

(** [resync]: reset the version and resubscribe every live query, echoing what the client holds. *)
Definition resync_request (c : Client) (sub : ClientSub) : QueryRequest :=
  {| qr_queryId := cs_queryId sub; qr_udfPath := cs_path sub; qr_args := cs_args sub;
     qr_resultHash := match serverValue sub with Some _ => if answered sub then lastHash sub else None | None => None end;
     qr_sinceTs := Some (Z.max (resumeSinceTs c) (observedTs (rec c))) |}.
Definition resync (c : Client) : Client :=
  let subs := omap (λ p : nat, jm_get (heap (rstore (rec c))) p) (jm_values (byId (rstore (rec c)))) in
  match subs with
  | [] => with_session c INITIAL_VERSION false (closed c)
  | _ => send_msg (with_session c INITIAL_VERSION true (closed c)) (MModifyQuerySet (List.map (resync_request c) subs) [])
  end.

(** [ingestTransition] with [onDrift] wired to [resync], which runs in the middle of the modifications. *)
Fixpoint ingest_mods (c : Client) (unchanged : list jsstr) (ms : list StateModification) : Client * list jsstr * res unit :=
  match ms with
  | [] => (c, unchanged, Ok tt)
  | m :: ms =>
      let '(r, u, x) := apply_mod (rec c) unchanged m in
      let drifted := negb (Nat.eqb (length (drifts r)) (length (drifts (rec c)))) in
      let c := with_rec c r in
      let c := if drifted then resync c else c in
      match x with Ok _ => ingest_mods c u ms | Err e => (c, u, Err e) end
  end.
Definition client_ingest (c : Client) (ms : list StateModification) (endTs : Z) : Client * res unit :=
  let c := with_rec c (with_observed (rec c) (Z.max (observedTs (rec c)) endTs)) in
  match ingest_mods c [] ms with
  | (c, unchanged, Ok _) => (with_rec c (rebuild stringify (drop_covered (rec c)) unchanged), Ok tt)
  | (c, _, Err e) => (c, Err e)
  end.

Definition onTransition (c : Client) (b : Bracket) : Client * res unit :=
  if resyncing c then
    match client_ingest c (modifications b) (v_ts (endVersion b)) with
    | (c, Ok _) => (with_session c (endVersion b) false (closed c), Ok tt)
    | x => x
    end
  else if negb (versionsEqual (startVersion b) (c_version c)) then (resync c, Ok tt)
  else match client_ingest c (modifications b) (v_ts (endVersion b)) with
    | (c, Ok _) => (with_session c (endVersion b) (resyncing c) (closed c), Ok tt)
    | x => x
    end.

(** The two shapes of a [MutationResponse]; a success whose value does not decode throws before its layer is
    handled. *)
Definition onMutationResponse (c : Client) (rid : jsstr) (r : res (option json * option Z)) (error : jsstr) (code : option jsstr) (now : Z) : Client * res unit :=
  match r with
  | Ok (v, ts) =>
      match (if bool_decide (rid ∈ pendingMutationCallbacks c) then jsonToConvex (default JNull v) else Ok VNull) with
      | Err e => (with_pending c (filter (λ r, r ≠ rid) (pendingMutationCallbacks c)) (pendingActions c), Err e)
      | Ok v =>
          let c := settleMutation c rid (Resolved v) in
          (with_rec c (onMutationSuccess stringify (rec c) rid ts now), Ok tt)
      end
  | Err _ =>
      let c := settleMutation c rid (Rejected error code) in
      (with_rec c (onMutationFailure stringify (rec c) rid), Ok tt)
  end.

Definition onActionResponse (c : Client) (rid : jsstr) (x : Settlement) : Client :=
  if bool_decide (rid ∈ pendingActions c) then
    settle (with_pending c (pendingMutationCallbacks c) (filter (λ r, r ≠ rid) (pendingActions c))) rid x
  else c.

Definition onTransportClosed (c : Client) : Client :=
  let c := with_session c (c_version c) (resyncing c) true in
  let c := with_capability c false (observedTs (rec c)) in
  let '(r, x) := closeSession stringify (rec c) false in
  let c := with_rec c r in
  let c := fold_left (λ c rid, settleMutation c rid Undelivered) (rejectedInflight x) c in
  let c := fold_left (λ c rid, settle c rid ConnectionClosed) (pendingActions c) c in
  with_pending c (pendingMutationCallbacks c) [].

Definition flush_one (c : Client) (e : PendingMutation) : Client :=
  send_msg (set_status c (requestId e) Inflight) (mutationMessage e).
Definition onTransportReopened (c : Client) : Client :=
  let c := with_session c (c_version c) (resyncing c) false in
  let c := if hasSetAuth c then send_msg c (MSetAuth (lastAuthToken c)) else c in
  let c := resync (maybeSendDiffCapability c) in
  fold_left flush_one (unsentInOrder (rec c)) c.

(** ** The client as a machine *)
Inductive cevent :=
  | CeSubscribe (path : jsstr) (args : value) (l : nat)
  | CeUnsubscribe (hash : jsstr) (l : nat)
  | CeMutation (path : jsstr) (args : value) (u : option (value → upd)) (sd : Seed)
  | CeAction (path : jsstr) (args : value)
  | CeSetAuth (token : option jsstr)
  | CeTransition (b : Bracket)
  | CeResponse (rid : jsstr) (r : res (option json * option Z)) (error : jsstr) (code : option jsstr) (now : Z)
  | CeActionResponse (rid : jsstr) (x : Settlement)
  | CeGateTimeout (rid : jsstr)
  | CeClosed
  | CeReopened.

Definition cstep (c : Client) (ev : cevent) : Client * res unit :=
  match ev with
  | CeSubscribe path args l => (subscribe c path args l, Ok tt)
  | CeUnsubscribe h l => (unsubscribe c h l, Ok tt)
  | CeMutation path args u sd => mutation c path args u sd
  | CeAction path args => (action c path args, Ok tt)
  | CeSetAuth token => (setAuth c token, Ok tt)
  | CeTransition b => onTransition c b
  | CeResponse rid r err code now => onMutationResponse c rid r err code now
  | CeActionResponse rid x => (onActionResponse c rid x, Ok tt)
  | CeGateTimeout rid => (with_rec c (gateTimeout stringify (rec c) rid), Ok tt)
  | CeClosed => (onTransportClosed c, Ok tt)
  | CeReopened => (onTransportReopened c, Ok tt)
  end.

(** Frames from the server decode; a call of the application may throw. *)
Definition callowed (c : Client) (ev : cevent) : Prop :=
  match ev with CeTransition _ | CeResponse _ _ _ _ _ => (cstep c ev).2 = Ok tt | _ => True end.

Inductive creachable : Client → Prop :=
  | creach_new : creachable new_Client
  | creach_step c ev : creachable c → callowed c ev → creachable (cstep c ev).1.

(** The ids of the mutations put on the wire, in order. *)
Definition sent_id (m : ClientMessage) : option jsstr := match m with MMutation u => Some (me_requestId u) | _ => None end.
Definition sent_ids (c : Client) : list jsstr := omap sent_id (sent c).

Definition issued (c : Client) (rid : jsstr) : Prop := ∃ n, 1 ≤ n < nextRequestId c ∧ rid = string_of_int n.

Record client_ok (c : Client) : Prop := {
  ci_rec : reachable stringify (rec c);
  ci_next : 1 ≤ nextRequestId c;
  ci_qids : ∀ q p, jm_get (byId (rstore (rec c))) q = Some p → q < nextQueryId c;
  ci_log : ∀ rid e, jm_get (log (rec c)) rid = Some e → issued c rid;
  ci_sent : NoDup (sent_ids c);
  ci_sent_issued : ∀ rid, rid ∈ sent_ids c → issued c rid;
  ci_unsent : ∀ rid e, jm_get (log (rec c)) rid = Some e → status e = Unsent → rid ∉ sent_ids c;
  ci_settled : NoDup (settlements c).*1;
  ci_settled_issued : ∀ rid, rid ∈ (settlements c).*1 → issued c rid;
  ci_pending : ∀ rid, rid ∈ pendingMutationCallbacks c → issued c rid ∧ rid ∉ (settlements c).*1 ∧ rid ∉ pendingActions c;
  ci_actions : NoDup (pendingActions c) ∧ ∀ rid, rid ∈ pendingActions c → issued c rid ∧ rid ∉ (settlements c).*1 }.

(** *** What an event of the reconciler does to the log *)
Definition same_call (e e' : PendingMutation) : Prop :=
  clientId e' = clientId e ∧ seq e' = seq e ∧ pmu_udfPath e' = pmu_udfPath e ∧ pmu_args e' = pmu_args e.
#[export] Instance same_call_preorder : PreOrder same_call.
Proof. split; [by intros e|]. intros e1 e2 e3 (?&?&?&?) (?&?&?&?). split_and!; congruence. Qed.
Definition log_from (r r' : Reconciler) : Prop :=
  ∀ rid e', jm_get (log r') rid = Some e' → ∃ e, jm_get (log r) rid = Some e ∧ same_call e e' ∧ (status e' = Unsent → status e = Unsent).

Lemma log_from_log r r' : log r' = log r → log_from r r'.
Proof. intros E rid e He. rewrite E in He. by exists e. Qed.
Lemma log_from_refl r : log_from r r.
Proof. by apply log_from_log. Qed.
Lemma log_from_trans r1 r2 r3 : log_from r1 r2 → log_from r2 r3 → log_from r1 r3.
Proof.
  intros H1 H2 rid e He. destruct (H2 rid e He) as (e2 & He2 & C2 & S2). destruct (H1 rid e2 He2) as (e1 & He1 & C1 & S1).
  exists e1. split_and!; [done|by transitivity e2|eauto].
Qed.
Lemma log_from_sub r r' : log_sub r r' → log_from r r'.
Proof. intros H rid e He. exists e. split; [by apply H|done]. Qed.
Lemma log_from_rebuild r force : rec_ok r → log_from r (rebuild stringify r force).
Proof.
  intros Hr rid e' He'. destruct (rebuild_spec stringify r force Hr) as (_ & _ & Hf & _). destruct (Hf rid e' He') as (e & t & He & ->).
  by exists e.
Qed.
Lemma log_delete_sub r rid : rec_ok r → log_sub r (log_delete r rid).
Proof. intros Hr rid' e. cbn. rewrite jm_get_delete by apply Hr. by case_decide. Qed.

Definition shrinks (ev : event) : bool :=
  match ev with
  | EvInitiate _ | EvHydrate _ | EvStatus _ _ => false
  | _ => true
  end.

Lemma step_log r ev : rec_ok r → shrinks ev = true → log_from r (rstep stringify r ev).
Proof.
  intros Hr Hs. assert (Hdrop : ∀ rid, log_from r (rebuild stringify (drop_entry r rid) [])).
  { intros rid. eapply log_from_trans; [apply log_from_sub; by apply drop_entry_sub|]. apply log_from_rebuild. by apply drop_entry_ok. }
  assert (Hdel : ∀ rid, log_from r (rebuild stringify (log_delete r rid) [])).
  { intros rid. eapply log_from_trans; [apply log_from_sub; by apply log_delete_sub|]. apply log_from_rebuild. by apply log_delete_ok. }
  destruct ev as [e|ms ts|rid ts now|rid|rid|armed|e|rid|rid st|h ls|ns|q path args h|h]; cbn [rstep]; try done;
    try (intros rid' e' He'; exists e'; by split).
  - unfold ingestTransition. set (r0 := with_observed r _). assert (H0 : rec_ok r0) by (split; apply Hr).
    pose proof (apply_mods_ok ms r0 [] H0) as Hm. destruct (apply_mods r0 [] ms) as [[r1 u] [[]|e]]; destruct Hm as (H1 & El & _); cbn [fst].
    + assert (Hl1 : log_from r r1) by by apply log_from_log. eapply log_from_trans; [exact Hl1|].
      assert (Hd : rec_ok (drop_covered r1) ∧ log_sub r1 (drop_covered r1)).
      { unfold drop_covered. generalize (observedTs r1). generalize (entriesInOrder (log r1)). intros es o.
        assert (Hgen : ∀ x, rec_ok x → log_sub r1 x → let y := fold_left (λ r' e, if is_covered o e then drop_entry r' (requestId e) else r') es x in rec_ok y ∧ log_sub r1 y).
        { induction es as [|e es IH]; intros x Hx Hsub; [done|]. cbn [fold_left]. apply IH; destruct (is_covered o e); try done.
          - by apply drop_entry_ok.
          - intros rid e' He'. apply Hsub. by apply (drop_entry_sub x (requestId e) Hx). }
        apply Hgen; [done|by intros rid e]. }
      destruct Hd as [Hd1 Hd2]. eapply log_from_trans; [by apply log_from_sub|by apply log_from_rebuild].
    + by apply log_from_log.
  - unfold onMutationSuccess. destruct (jm_get (log r) rid) as [e|] eqn:He; [|apply log_from_refl].
    destruct (match update e with None => true | Some _ => _ end); [apply log_from_sub; by apply log_delete_sub|].
    destruct ts as [ts|]; [|apply Hdel]. destruct (ts <=? 0); [apply Hdel|]. destruct (versionCoversCommit _ _); [apply Hdel|].
    intros rid' e'. cbn. rewrite log_update_get. destruct (jm_get (log r) rid') as [e0|]; [|by case_decide]. case_decide; intros [= <-]; by exists e0.
  - unfold onMutationFailure. destruct (jm_has _ _); [apply Hdrop|apply log_from_refl].
  - unfold gateTimeout. case_bool_decide; [|apply log_from_refl].
    assert (Hc : log_from r (clearTimer r rid)) by by apply log_from_log. destruct (jm_get _ _) as [e|]; [|done].
    destruct (status e); try done. apply Hdrop.
  - rewrite closeSession_state. destruct (close_state_spec r armed Hr) as (H1 & _ & Hg).
    eapply log_from_trans; [|by apply log_from_rebuild]. intros rid e'. rewrite Hg. destruct (jm_get (log r) rid) as [e|]; [|done]. cbn.
    intros He'. exists e. split; [done|]. unfold after_close, parkable, leaves in He'.
    destruct (status e) eqn:Es; [|destruct (armed && durable e)| |]; simplify_eq/=; by rewrite ?Es.
  - unfold onVerdictAfterBaseline. destruct (jm_has _ _); [apply Hdrop|apply log_from_refl].
Qed.

(** *** What it does to the query ids *)
Lemma upd_sub_byId s p f : byId (upd_sub s p f) = byId s.
Proof. apply upd_sub_same. Qed.
Lemma applyDiff_byId s p changes checksum reset : byId (applyDiff s p changes checksum reset).1 = byId s.
Proof.
  destruct (jm_get (heap s) p) as [sub|] eqn:Ep; [|unfold applyDiff; by rewrite Ep]. rewrite (applyDiff_rows _ _ _ _ _ _ Ep). cbv zeta.
  destruct (render _ _) as [[v|]|e]; cbn [fst]; rewrite ?upd_sub_byId; cbn [mint snd with_next byId]; by rewrite ?upd_sub_byId.
Qed.

Lemma apply_mods_byId ms r u : byId (rstore (apply_mods r u ms).1.1) = byId (rstore r).
Proof.
  assert (Hm : ∀ r u m, byId (rstore (apply_mod r u m).1.1) = byId (rstore r)).
  { clear. intros r u m. destruct m as [q v h|q err|q|q|q changes checksum reset h]; cbn [apply_mod]; try done;
      destruct (jm_get (byId (rstore r)) q) as [p|]; try done.
    - destruct (jsonToConvex v); [|done]. cbn. unfold setServerValue. by rewrite upd_sub_byId.
    - cbn. unfold markAnswered. by rewrite upd_sub_byId.
    - cbn. unfold markUnchanged. by rewrite upd_sub_byId.
    - destruct (match reset with None => _ | Some _ => _ end); [cbn; by rewrite upd_sub_byId|].
      pose proof (applyDiff_byId (rstore r) p changes checksum reset) as Hd.
      destruct (applyDiff _ _ _ _ _) as [s [[]|e]]; cbn in *; by rewrite ?upd_sub_byId. }
  revert r u. induction ms as [|m ms IH]; intros r u; [done|]. cbn [apply_mods]. specialize (Hm r u m).
  destruct (apply_mod r u m) as [[r1 u1] [[]|e]]; cbn in *; [|done]. by rewrite IH.
Qed.

Lemma fold_drop_store ids r : rstore (fold_left drop_entry ids r) = rstore r.
Proof. revert r. induction ids as [|i ids IH]; intros r; [done|]. cbn [fold_left]. by rewrite IH. Qed.

Lemma rebuild_byId r force : byId (rstore (rebuild stringify r force)) = byId (rstore r).
Proof.
  unfold rebuild, recompose_log, recompose. rewrite drop_replayed, fold_drop_store. cbn [rstore with_log with_store].
  generalize (rp_overlay (replay stringify (rstore r) (entriesInOrder (log r)))) as ov. intros ov.
  assert (H : ∀ ps s, byId (fold_left (compose_sub ov force) ps s) = byId s).
  { induction ps as [|p ps IH]; intros s; [done|]. cbn [fold_left]. rewrite IH. unfold compose_sub. destruct (jm_get _ _); [|done].
    destruct (_ || _); [|done]. destruct (composed_next _ _); cbn; by rewrite upd_sub_byId. }
  by rewrite H.
Qed.

Lemma step_byId r ev q p : changes_queries ev = false → jm_get (byId (rstore (rstep stringify r ev))) q = Some p → jm_get (byId (rstore r)) q = Some p.
Proof.
  intros Hc. destruct ev as [e|ms ts|rid ts now|rid|rid|armed|e|rid|rid st|h ls|ns|q' path args h|h]; cbn [rstep]; try done.
  - rewrite initiate_state. destruct (update e); [by rewrite rebuild_byId|done].
  - unfold ingestTransition. pose proof (apply_mods_byId ms (with_observed r (Z.max (observedTs r) ts)) []) as Hb.
    destruct (apply_mods _ _ _) as [[r1 u] [[]|e]]; cbn [fst rstore with_observed] in *; [|by rewrite Hb]. rewrite rebuild_byId. unfold drop_covered.
    assert (Hs : ∀ es o x, rstore (fold_left (λ r' e, if is_covered o e then drop_entry r' (requestId e) else r') es x) = rstore x).
    { clear. induction es as [|e es IH]; intros o x; [done|]. cbn [fold_left]. rewrite IH. by destruct (is_covered o e). }
    by rewrite Hs, Hb.
  - unfold onMutationSuccess. destruct (jm_get (log r) rid) as [e|]; [|done].
    destruct (match update e with None => true | Some _ => _ end); [done|]. destruct ts as [ts|]; [|by rewrite rebuild_byId].
    destruct (ts <=? 0); [by rewrite rebuild_byId|]. destruct (versionCoversCommit _ _); [by rewrite rebuild_byId|done].
  - unfold onMutationFailure. destruct (jm_has _ _); [by rewrite rebuild_byId|done].
  - unfold gateTimeout. case_bool_decide; [|done]. destruct (jm_get (log _) rid) as [e|]; [|done]. destruct (status e); try done. by rewrite rebuild_byId.
  - rewrite closeSession_state, rebuild_byId. unfold close_state. rewrite skip_fold. cbn [rstore with_observed]. by rewrite fold_drop_store.
  - unfold addHydrated. destruct (update e); [by rewrite rebuild_byId|done].
  - unfold onVerdictAfterBaseline. destruct (jm_has _ _); [by rewrite rebuild_byId|done].
  - cbn. unfold set_listeners. destruct (jm_get (byHash _) _); [by rewrite upd_sub_byId|done].
Qed.

(** ** Preservation *)
Lemma with_rec_ok c r : client_ok c → reachable stringify r → (∀ q p, jm_get (byId (rstore r)) q = Some p → q < nextQueryId c) →
  log_from (rec c) r → client_ok (with_rec c r).
Proof.
  intros [H1 H2 H3 H4 H5 H6 H7 H8 H9 H10 H11] Hr Hq Hl. split; try done; cbn.
  - intros rid e He. destruct (Hl rid e He) as (e0 & He0 & _). by eapply H4.
  - intros rid e He Hu. destruct (Hl rid e He) as (e0 & He0 & Hu0). eapply H7; [done|by apply Hu0].
Qed.

Lemma rec_step_ok c ev : client_ok c → allowed stringify (rec c) ev → shrinks ev = true → changes_queries ev = false →
  client_ok (with_rec c (rstep stringify (rec c) ev)).
Proof.
  intros Hc Ha Hs Hq. apply with_rec_ok; [done|apply reach_step; [apply Hc|done]| |].
  - intros q p Hp. apply (ci_qids _ Hc q p). by eapply step_byId.
  - apply step_log; [|done]. apply (reachable_ok stringify). apply Hc.
Qed.

Lemma send_msg_ok c m : sent_id m = None → client_ok c → client_ok (send_msg c m).
Proof.
  intros Hm [H1 H2 H3 H4 H5 H6 H7 H8 H9 H10 H11]. assert (E : sent_ids (send_msg c m) = sent_ids c).
  { unfold sent_ids. cbn. rewrite omap_app. cbn. rewrite Hm. apply app_nil_r. }
  split; try done; rewrite ?E; try done.
Qed.

Lemma session_ok c v rs cl : client_ok c → client_ok (with_session c v rs cl).
Proof. intros [H1 H2 H3 H4 H5 H6 H7 H8 H9 H10 H11]. by split. Qed.
Lemma capability_ok c b t : client_ok c → client_ok (with_capability c b t).
Proof. intros [H1 H2 H3 H4 H5 H6 H7 H8 H9 H10 H11]. by split. Qed.
Lemma auth_ok c t : client_ok c → client_ok (with_auth c t).
Proof. intros [H1 H2 H3 H4 H5 H6 H7 H8 H9 H10 H11]. by split. Qed.

Lemma issued_mono c c' rid : nextRequestId c ≤ nextRequestId c' → issued c rid → issued c' rid.
Proof. intros Hle (n & Hn & ->). exists n. split; [lia|done]. Qed.

Lemma counters_ok c q m : nextQueryId c ≤ q → nextRequestId c ≤ m → client_ok c → client_ok (with_counters c q m).
Proof.
  intros Hq Hm [H1 H2 H3 H4 H5 H6 H7 H8 H9 H10 H11]. assert (Hi : ∀ rid, issued c rid → issued (with_counters c q m) rid) by (intros rid; by apply issued_mono).
  split; try done; cbn.
  - lia.
  - intros q' p Hp. pose proof (H3 q' p Hp). lia.
  - intros rid e He. by eapply Hi, H4.
  - intros rid Hr. by apply Hi, H6.
  - intros rid Hr. by apply Hi, H9.
  - intros rid Hr. destruct (H10 rid Hr) as (A & B). split; [by apply Hi|done].
  - destruct H11 as [A B]. split; [done|]. intros rid Hr. destruct (B rid Hr). split; [by apply Hi|done].
Qed.

Lemma settle_ok c rid x : client_ok c → issued c rid → rid ∉ (settlements c).*1 → rid ∉ pendingMutationCallbacks c → rid ∉ pendingActions c →
  client_ok (settle c rid x).
Proof.
  intros [H1 H2 H3 H4 H5 H6 H7 H8 H9 H10 H11] Hi Hn Hp Ha.
  assert (Hin : ∀ y, y ∈ (settlements (settle c rid x)).*1 ↔ y ∈ (settlements c).*1 ∨ y = rid).
  { intros y. cbn. rewrite fmap_app, elem_of_app. cbn. by rewrite list_elem_of_singleton. }
  split; try done.
  - cbn. rewrite fmap_app. apply NoDup_app. split; [done|]. split; [|apply NoDup_singleton]. intros y Hy Hr. apply list_elem_of_singleton in Hr. by subst y.
  - intros y [Hy| ->]%Hin; [by apply H9|done].
  - intros y Hy. destruct (H10 y Hy) as (A & B & C). split_and!; try done. intros [Hs| ->]%Hin; done.
  - destruct H11 as [A B]. split; [done|]. intros y Hy. destruct (B y Hy) as [B1 B2]. split; [done|]. intros [Hs| ->]%Hin; done.
Qed.

Lemma forget_mutation_ok c rid : client_ok c → client_ok (with_pending c (filter (λ r, r ≠ rid) (pendingMutationCallbacks c)) (pendingActions c)).
Proof.
  intros [H1 H2 H3 H4 H5 H6 H7 H8 H9 H10 H11]. split; try done; cbn. intros y [_ Hy]%list_elem_of_filter. by apply H10.
Qed.

Lemma settleMutation_ok c rid x : client_ok c → client_ok (settleMutation c rid x).
Proof.
  intros Hc. unfold settleMutation. pose proof (forget_mutation_ok c rid Hc) as Hf. case_bool_decide as Hin; [|done].
  destruct (ci_pending _ Hc rid Hin) as (A & B & C). apply settle_ok; try done. cbn. intros [Hn _]%list_elem_of_filter. done.
Qed.
Lemma settleMutation_rec c rid x : rec (settleMutation c rid x) = rec c ∧ closed (settleMutation c rid x) = closed c ∧
  pendingActions (settleMutation c rid x) = pendingActions c.
Proof. unfold settleMutation. by case_bool_decide. Qed.

(** The bookkeeping of two clients agrees. *)
Record books_eq (c c' : Client) : Prop := {
  bk_q : nextQueryId c' = nextQueryId c; bk_m : nextRequestId c' = nextRequestId c; bk_sent : sent_ids c' = sent_ids c;
  bk_set : settlements c' = settlements c; bk_pm : pendingMutationCallbacks c' = pendingMutationCallbacks c;
  bk_pa : pendingActions c' = pendingActions c }.

Lemma books_refl c : books_eq c c.
Proof. by split. Qed.
Lemma books_trans c1 c2 c3 : books_eq c1 c2 → books_eq c2 c3 → books_eq c1 c3.
Proof. intros [] []. split; congruence. Qed.

Lemma books_ok c c' : books_eq c c' → client_ok (with_rec c (rec c')) → client_ok c'.
Proof.
  intros [E1 E2 E3 E4 E5 E6] [H1 H2 H3 H4 H5 H6 H7 H8 H9 H10 H11]. cbn in *.
  assert (Hi : ∀ rid, issued c' rid ↔ issued c rid) by (intros rid; unfold issued; by rewrite E2).
  change (sent_ids (with_rec c (rec c'))) with (sent_ids c) in *.
  split; rewrite ?E1, ?E2, ?E3, ?E4, ?E5, ?E6; try done; try (intros; apply Hi; eauto; done).
  - intros rid Hr. destruct (H10 rid Hr) as (A & B & C). split_and!; try done. by apply Hi.
  - destruct H11 as [A B]. split; [done|]. intros rid Hr. destruct (B rid Hr) as [B1 B2]. split; [by apply Hi|done].
Qed.

Lemma with_rec_same c : with_rec c (rec c) = c.
Proof. by destruct c. Qed.

Lemma resync_books c : books_eq c (resync c) ∧ rec (resync c) = rec c.
Proof.
  unfold resync. destruct (omap _ _) as [|sub subs]; [by split; [split|]|]. split; [|done]. split; try done.
  unfold sent_ids. cbn. rewrite omap_app. cbn. apply app_nil_r.
Qed.

Lemma ingest_mods_spec ms c u : let '(c', u', x) := ingest_mods c u ms in
  books_eq c c' ∧ (rec c', u', x) = apply_mods (rec c) u ms.
Proof.
  revert c u. induction ms as [|m ms IH]; intros c u; cbn [ingest_mods apply_mods]; [split; [apply books_refl|done]|].
  destruct (apply_mod (rec c) u m) as [[r1 u1] x] eqn:Em. set (c1 := if negb _ then _ else _).
  assert (H1 : books_eq c c1 ∧ rec c1 = r1).
  { unfold c1. destruct (negb _); [|by split; [by split|]]. destruct (resync_books (with_rec c r1)) as [Hb Hr]. split; [|done].
    eapply books_trans; [|exact Hb]. by split. }
  destruct H1 as [Hb1 Er1]. destruct x as [[]|e].
  - specialize (IH c1 u1). rewrite Er1 in IH. destruct (ingest_mods c1 u1 ms) as [[c' u'] x']. destruct IH as [Hb ->]. split; [|done].
    by eapply books_trans.
  - by rewrite Er1.
Qed.

Lemma client_ingest_spec c ms ts : let '(c', x) := client_ingest c ms ts in
  books_eq c c' ∧ (rec c', x) = ingestTransition stringify (rec c) ms ts.
Proof.
  unfold client_ingest, ingestTransition. set (c0 := with_rec c _). pose proof (ingest_mods_spec ms c0 []) as Hm.
  destruct (ingest_mods c0 [] ms) as [[c1 u] x]. destruct Hm as [Hb E]. change (rec c0) with (with_observed (rec c) (Z.max (observedTs (rec c)) ts)) in E.
  rewrite <-E. assert (Hb0 : books_eq c c1) by (eapply books_trans; [|exact Hb]; by split). destruct x as [[]|e]; [|done].
  split; [|done]. eapply books_trans; [exact Hb0|]. by split.
Qed.

Lemma ingest_client_ok c ms ts : client_ok c → (client_ingest c ms ts).2 = Ok tt → client_ok (client_ingest c ms ts).1.
Proof.
  intros Hc. pose proof (client_ingest_spec c ms ts) as Hs. destruct (client_ingest c ms ts) as [c' x]. cbn [fst snd]. intros ->.
  destruct Hs as [Hb E]. apply (books_ok c); [done|]. replace (rec c') with (rstep stringify (rec c) (EvIngest ms ts)) by (cbn; by rewrite <-E).
  apply rec_step_ok; try done. cbn. by rewrite <-E.
Qed.

Lemma transition_ok c b : client_ok c → (onTransition c b).2 = Ok tt → client_ok (onTransition c b).1.
Proof.
  intros Hc. unfold onTransition. pose proof (ingest_client_ok c (modifications b) (v_ts (endVersion b)) Hc) as Hi.
  destruct (resyncing c); [|destruct (negb _)].
  - destruct (client_ingest c _ _) as [c' [[]|e]]; cbn in *; [|done]. intros _. by apply session_ok, Hi.
  - intros _. cbn. destruct (resync_books c) as [Hb Hr]. apply (books_ok c); [done|]. rewrite Hr. by destruct c.
  - destruct (client_ingest c _ _) as [c' [[]|e]]; cbn in *; [|done]. intros _. by apply session_ok, Hi.
Qed.

Lemma response_ok c rid r err code now : client_ok c → (onMutationResponse c rid r err code now).2 = Ok tt → client_ok (onMutationResponse c rid r err code now).1.
Proof.
  intros Hc. unfold onMutationResponse. destruct r as [[v ts]|e].
  - destruct (if bool_decide _ then _ else _) as [v'|e']; [|done]. intros _. cbn [fst].
    apply (rec_step_ok (settleMutation c rid (Resolved v')) (EvSuccess rid ts now)); try done. by apply settleMutation_ok.
  - intros _. cbn [fst]. apply (rec_step_ok (settleMutation c rid (Rejected err code)) (EvFailure rid)); try done. by apply settleMutation_ok.
Qed.

Lemma action_response_ok c rid x : client_ok c → client_ok (onActionResponse c rid x).
Proof.
  intros Hc. unfold onActionResponse. case_bool_decide as Hin; [|done]. destruct (ci_actions _ Hc) as [Hnd Ha]. destruct (Ha rid Hin) as [A B].
  set (c1 := with_pending _ _ _). assert (H1 : client_ok c1).
  { destruct Hc as [H1 H2 H3 H4 H5 H6 H7 H8 H9 H10 H11]. split; try done; cbn.
    - intros y Hy. destruct (H10 y Hy) as (P & Q & R). split_and!; try done. intros [_ Hf]%list_elem_of_filter. done.
    - split; [by apply NoDup_filter|]. intros y [_ Hy]%list_elem_of_filter. by apply Ha. }
  apply settle_ok; try done; cbn.
  - intros Hp. by destruct (ci_pending _ Hc rid Hp) as (_ & _ & Hn).
  - intros [Hn _]%list_elem_of_filter. done.
Qed.

Lemma capability_send_ok c : client_ok c → client_ok (maybeSendDiffCapability c).
Proof. intros Hc. unfold maybeSendDiffCapability. destruct (_ || _); [done|]. by apply send_msg_ok, capability_ok. Qed.
Lemma capability_send_rec c : rec (maybeSendDiffCapability c) = rec c.
Proof. unfold maybeSendDiffCapability. by destruct (_ || _). Qed.

Lemma next_query_free c : client_ok c → jm_get (byId (rstore (rec c))) (nextQueryId c) = None.
Proof. intros Hc. destruct (jm_get _ _) as [p|] eqn:E; [|done]. pose proof (ci_qids _ Hc _ _ E). lia. Qed.

Lemma listen_ok c hash ls ns : client_ok c →
  client_ok (with_rec c (with_store (rec c) (notify (set_listeners (rstore (rec c)) hash ls) ns))).
Proof.
  intros Hc. pose proof (rec_step_ok c (EvListeners hash ls) Hc I eq_refl eq_refl) as H1.
  exact (rec_step_ok _ (EvDeliver ns) H1 I eq_refl eq_refl).
Qed.
Lemma listeners_ok c hash ls : client_ok c → client_ok (with_rec c (with_store (rec c) (set_listeners (rstore (rec c)) hash ls))).
Proof. intros Hc. exact (rec_step_ok c (EvListeners hash ls) Hc I eq_refl eq_refl). Qed.

Lemma subscribe_ok c path args l : client_ok c → client_ok (subscribe c path args l).
Proof.
  intros Hc. unfold subscribe. set (h := queryHash stringify path (convexToJson args)).
  set (c1 := match jm_get (byHash (rstore (rec c))) h with Some _ => c | None => _ end). assert (H1 : client_ok c1).
  { unfold c1. destruct (jm_get (byHash (rstore (rec c))) h) eqn:Eh; [done|]. apply send_msg_ok; [done|]. apply capability_send_ok.
    set (c0 := with_counters c (nextQueryId c + 1) (nextRequestId c)). assert (H0 : client_ok c0) by (apply counters_ok; [lia|lia|done]).
    apply (with_rec_ok c0).
    - done.
    - apply (reach_step stringify (rec c) (EvSubscribe (nextQueryId c) path (convexToJson args) h)); [apply Hc|]. split; [done|by apply next_query_free].
    - intros q p. cbn. rewrite jm_get_set. case_decide; [intros _; subst; lia|]. intros Hq. pose proof (ci_qids _ Hc _ _ Hq). lia.
    - by apply log_from_log. }
  destruct (jm_get (byHash (rstore (rec c1))) h ≫= _) as [sub|]; [|done]. destruct (composedValue sub); [by apply listen_ok|by apply listeners_ok].
Qed.

Lemma remove_client_ok c h : client_ok c → client_ok (with_rec c (with_store (rec c) (remove (rstore (rec c)) h))).
Proof.
  intros Hc. apply with_rec_ok; [done| | |by apply log_from_log].
  - apply (reach_step stringify (rec c) (EvUnsubscribe h)); [apply Hc|done].
  - intros q p. cbn. unfold remove. destruct (_ ≫= _) as [sub|]; [|apply Hc]. cbn. destruct (reachable_ok stringify (rec c) (ci_rec _ Hc)) as [Hr _].
    rewrite jm_get_delete by apply (re_store _ Hr). case_decide; [done|]. apply Hc.
Qed.

Lemma unsubscribe_ok c h l : client_ok c → client_ok (unsubscribe c h l).
Proof.
  intros Hc. unfold unsubscribe. destruct (_ ≫= _) as [sub|]; [|done]. set (ls := filter _ _). pose proof (listeners_ok c h ls Hc) as H1.
  destruct (Nat.eqb _ _); [|done]. by apply (remove_client_ok (send_msg _ _)), send_msg_ok.
Qed.

Lemma status_client_ok c rid st : client_ok c → (∀ ts at_, st ≠ Completed ts at_) → (st = Unsent → rid ∉ sent_ids c) → client_ok (set_status c rid st).
Proof.
  intros Hc Hst Hu. unfold set_status. destruct Hc as [H1 H2 H3 H4 H5 H6 H7 H8 H9 H10 H11]. split; try done; cbn.
  - apply (reach_step stringify (rec c) (EvStatus rid st)); done.
  - intros rid' e. rewrite log_update_get. destruct (jm_get (log (rec c)) rid') eqn:E; [|by case_decide]. intros _. by eapply H4.
  - intros rid' e. rewrite log_update_get. case_decide; [|by apply H7]. subst rid'. destruct (jm_get (log (rec c)) rid); [|done].
    intros [= <-]. exact Hu.
Qed.

Lemma send_mutation_ok c rid u : me_requestId u = rid → client_ok c → issued c rid → rid ∉ sent_ids c →
  (∀ e, jm_get (log (rec c)) rid = Some e → status e ≠ Unsent) → client_ok (send_msg c (MMutation u)).
Proof.
  intros <- [H1 H2 H3 H4 H5 H6 H7 H8 H9 H10 H11] Hi Hn Hl. set (rid := me_requestId u) in *.
  assert (E : sent_ids (send_msg c (MMutation u)) = sent_ids c ++ [rid]) by (unfold sent_ids; cbn; by rewrite omap_app).
  split; try done; rewrite E.
  - apply NoDup_app. split; [done|]. split; [|apply NoDup_singleton]. intros y Hy Hr. apply list_elem_of_singleton in Hr. by subst y.
  - intros y [Hy|Hy]%elem_of_app; [by apply H6|]. apply list_elem_of_singleton in Hy. by subst y.
  - intros rid' e He Hu [Hy|Hy]%elem_of_app; [by eapply H7|]. apply list_elem_of_singleton in Hy. subst rid'. by eapply Hl.
Qed.

Lemma string_issued c : issued c (string_of_int (nextRequestId c)) → False.
Proof. intros (n & Hn & E). apply string_of_int_inj in E. lia. Qed.

Lemma mutation_ok c path args u sd : client_ok c → client_ok (mutation c path args u sd).1.
Proof.
  intros Hc. unfold mutation. set (rid := string_of_int (nextRequestId c)). set (c0 := with_counters c _ _). set (e := {| requestId := rid |}).
  assert (H0 : client_ok c0) by (apply counters_ok; [lia|lia|done]).
  assert (Hnew : ¬ issued c rid) by exact (string_issued c). assert (Hi0 : issued c0 rid) by (exists (nextRequestId c); cbn; split; [pose proof (ci_next _ Hc); lia|done]).
  assert (Hns : rid ∉ sent_ids c0) by (intros Hin; by apply Hnew, (ci_sent_issued _ Hc)).
  assert (Hnl : jm_get (log (rec c)) rid = None) by (destruct (jm_get (log (rec c)) rid) eqn:E; [|done]; exfalso; by eapply Hnew, ci_log).
  pose proof (initiate_state stringify (rec c0) e) as Est. destruct (initiate stringify (rec c0) e) as [r x] eqn:Ei. cbn [fst] in Est.
  destruct (reachable_ok stringify (rec c) (ci_rec _ Hc)) as [Hr _].
  assert (Hfresh : fresh_entry e) by (by intros ts at_).
  assert (Hre : reachable stringify r).
  { replace r with (rstep stringify (rec c) (EvInitiate e)) by exact (f_equal fst Ei). apply reach_step; [apply Hc|done]. }
  assert (Hlog : ∀ rid' e', jm_get (log r) rid' = Some e' → rid' = rid ∨ ∃ e0, jm_get (log (rec c)) rid' = Some e0 ∧ (status e' = Unsent → status e0 = Unsent)).
  { assert (Hbase : ∀ rid' e', jm_get (log_add (log (rec c)) e) rid' = Some e' → rid' = rid ∨ jm_get (log (rec c)) rid' = Some e').
    { intros rid' e'. unfold log_add. rewrite jm_get_set. case_decide; [by left|by right]. }
    intros rid' e' He'. rewrite Est in He'. destruct (update e).
    - destruct (rebuild_spec stringify _ [] (log_add_ok (rec c) e Hr Hfresh)) as (_ & _ & Hf & _).
      destruct (Hf rid' e' He') as (e0 & t & H1 & ->). cbn in H1. destruct (Hbase _ _ H1) as [|]; [by left|right]. by exists e0.
    - cbn in He'. destruct (Hbase _ _ He'); [by left|right]. by exists e'. }
  assert (H1 : client_ok (with_rec c0 r)).
  { destruct H0 as [A1 A2 A3 A4 A5 A6 A7 A8 A9 A10 A11]. split; try done; cbn.
    - intros q p Hq. apply (A3 q p). apply (step_byId (rec c) (EvInitiate e)); [done|]. replace (rstep stringify (rec c) (EvInitiate e)) with r by (symmetry; exact (f_equal fst Ei)). done.
    - intros rid' e' He'. destruct (Hlog _ _ He') as [->|(e0 & He0 & _)]; [done|by eapply A4].
    - intros rid' e' He' Hu. destruct (Hlog _ _ He') as [->|(e0 & He0 & Hu0)]; [done|]. eapply A7; [done|by apply Hu0]. }
  destruct x as [[]|err]; [|exact H1]. cbn [fst].
  set (c2 := with_pending (with_rec c0 r) _ _). assert (H2 : client_ok c2).
  { destruct H1 as [A1 A2 A3 A4 A5 A6 A7 A8 A9 A10 A11]. split; try done; cbn. intros y Hy. apply set_add_in in Hy as [->|Hy]; [|by apply A10].
    split_and!; [done| |].
    - intros Hin. by apply Hnew, (ci_settled_issued _ Hc).
    - intros Hin. by apply Hnew, (proj2 (ci_actions _ Hc)). }
  assert (Hs2 : sent_ids c2 = sent_ids c0) by done.
  destruct (closed c2); [by apply status_client_ok|]. eapply send_mutation_ok; [reflexivity|..].
  - by apply status_client_ok.
  - done.
  - done.
  - intros e'. cbn. rewrite log_update_get, decide_True by done. destruct (jm_get (log r) rid); [|done]. by intros [= <-].
Qed.

Lemma action_ok c path args : client_ok c → client_ok (action c path args).
Proof.
  intros Hc. unfold action. apply send_msg_ok; [done|]. set (rid := string_of_int (nextRequestId c)). set (c0 := with_counters c _ _).
  assert (H0 : client_ok c0) by (apply counters_ok; [lia|lia|done]). assert (Hnew : ¬ issued c rid) by exact (string_issued c).
  assert (Hi0 : issued c0 rid) by (exists (nextRequestId c); cbn; split; [pose proof (ci_next _ Hc); lia|done]).
  destruct H0 as [A1 A2 A3 A4 A5 A6 A7 A8 A9 A10 A11]. split; try done; cbn.
  - intros y Hy. destruct (A10 y Hy) as (P & Q & R). split_and!; try done. intros Hin. apply set_add_in in Hin as [->|Hin]; [|done].
    by apply Hnew, (ci_pending _ Hc).
  - destruct A11 as [B1 B2]. split; [by apply set_add_nodup|]. intros y Hy. apply set_add_in in Hy as [->|Hy]; [|by apply B2].
    split; [done|]. intros Hin. by apply Hnew, (ci_settled_issued _ Hc).
Qed.

Lemma fold_undelivered ids c : client_ok c → let c' := fold_left (λ c rid, settleMutation c rid Undelivered) ids c in
  client_ok c' ∧ pendingActions c' = pendingActions c.
Proof.
  revert c. induction ids as [|i ids IH]; intros c Hc; [done|]. cbn [fold_left].
  destruct (IH (settleMutation c i Undelivered) (settleMutation_ok c i Undelivered Hc)) as [H1 H2]. split; [done|].
  cbv zeta in H2. rewrite H2. apply settleMutation_rec.
Qed.

Lemma fold_settle_pending l c pm pa : with_pending (fold_left (λ c rid, settle c rid ConnectionClosed) l c) pm pa =
  fold_left (λ c rid, settle c rid ConnectionClosed) l (with_pending c pm pa).
Proof. revert c. induction l as [|i l IH]; intros c; [done|]. cbn [fold_left]. by rewrite IH. Qed.

Lemma fold_settle_ok l c : client_ok c → pendingActions c = [] → NoDup l →
  (∀ rid, rid ∈ l → issued c rid ∧ rid ∉ (settlements c).*1 ∧ rid ∉ pendingMutationCallbacks c) →
  client_ok (fold_left (λ c rid, settle c rid ConnectionClosed) l c).
Proof.
  revert c. induction l as [|i l IH]; intros c Hc Hp Hnd Hl; [done|]. apply NoDup_cons in Hnd as [Hni Hnd]. cbn [fold_left].
  destruct (Hl i) as (A & B & C); [by left|]. apply IH; try done.
  - apply settle_ok; try done. rewrite Hp. apply not_elem_of_nil.
  - intros rid Hr. destruct (Hl rid) as (P & Q & R); [by right|]. split_and!; try done. cbn. rewrite fmap_app, elem_of_app. cbn.
    rewrite list_elem_of_singleton. intros [?|?]; [done|]. by subst.
Qed.

Lemma fold_settle_callbacks l c : pendingMutationCallbacks (fold_left (λ c rid, settle c rid ConnectionClosed) l c) = pendingMutationCallbacks c.
Proof. revert c. induction l as [|i l IH]; intros c; [done|]. cbn [fold_left]. by rewrite IH. Qed.

Lemma closed_ok c : client_ok c → client_ok (onTransportClosed c).
Proof.
  intros Hc. unfold onTransportClosed. set (c0 := with_capability _ _ _). assert (H0 : client_ok c0) by (by apply capability_ok, session_ok).
  destruct (closeSession stringify (rec c0) false) as [r x] eqn:Ex.
  assert (H1 : client_ok (with_rec c0 r)).
  { replace r with (rstep stringify (rec c0) (EvClose false)) by exact (f_equal fst Ex). by apply rec_step_ok. }
  destruct (fold_undelivered (rejectedInflight x) (with_rec c0 r) H1) as [H2 E2]. cbv zeta in H2, E2.
  set (c2 := fold_left _ (rejectedInflight x) _) in *. rewrite fold_settle_callbacks, fold_settle_pending.
  destruct (ci_actions _ H2) as [Hnd Ha]. apply fold_settle_ok; cbn.
  - destruct H2 as [A1 A2 A3 A4 A5 A6 A7 A8 A9 A10 A11]. split; try done; cbn.
    + intros rid Hr. destruct (A10 rid Hr) as (P & Q & R). split_and!; try done. apply not_elem_of_nil.
    + split; [apply NoDup_nil_2|]. intros rid Hr. by apply not_elem_of_nil in Hr.
  - done.
  - done.
  - intros rid Hr. destruct (Ha rid Hr) as [P Q]. split_and!; try done. intros Hp. by destruct (ci_pending _ H2 rid Hp) as (_ & _ & R).
Qed.

Lemma flush_client_ok es c : client_ok c → NoDup (requestId <$> es) →
  (∀ e, e ∈ es → ∃ e', jm_get (log (rec c)) (requestId e) = Some e' ∧ status e' = Unsent) →
  client_ok (fold_left flush_one es c) ∧ sent (fold_left flush_one es c) = sent c ++ (mutationMessage <$> es).
Proof.
  revert c. induction es as [|e es IH]; intros c Hc Hnd Hes; [by rewrite app_nil_r|]. cbn [fmap list_fmap] in *. apply NoDup_cons in Hnd as [Hni Hnd].
  destruct (Hes e) as (e0 & He0 & Hu0); [by left|]. cbn [fold_left].
  assert (H1 : client_ok (flush_one c e)).
  { eapply send_mutation_ok; [reflexivity|by apply status_client_ok|by eapply (ci_log _ Hc)|by eapply (ci_unsent _ Hc)|].
    intros e'. cbn. rewrite log_update_get, decide_True by done. rewrite He0. by intros [= <-]. }
  destruct (IH (flush_one c e) H1 Hnd) as [H2 H3].
  - intros e' Hin. destruct (Hes e') as (e1 & He1 & Hu1); [by right|]. exists e1. cbn. rewrite log_update_get, decide_False; [done|].
    intros E. apply Hni. rewrite <-E. by apply list_elem_of_fmap_2.
  - split; [done|]. rewrite H3. cbn. by rewrite <-app_assoc.
Qed.

Lemma unsent_in_log r e : rec_ok r → e ∈ unsentInOrder r → jm_get (log r) (requestId e) = Some e ∧ status e = Unsent.
Proof.
  intros Hr Hin. unfold unsentInOrder in Hin. apply list_elem_of_In, filter_In in Hin as [Hin Hs].
  split; [apply (elem_of_entries r); [done|]; split; [by apply list_elem_of_In|done]|]. by destruct (status e).
Qed.

Lemma unsent_nodup r : rec_ok r → NoDup (requestId <$> unsentInOrder r).
Proof.
  intros Hr. eapply sublist_NoDup; [by apply log_ids_nodup|]. apply sublist_map. unfold unsentInOrder.
  induction (entriesInOrder (log r)) as [|e es IH]; [done|]. cbn. destruct (status e); by constructor.
Qed.

(** What a reopened transport carries first: the identity, the capability, and the subscriptions again. *)
Definition reopening (c : Client) : list ClientMessage :=
  (if hasSetAuth c then [MSetAuth (lastAuthToken c)] else []) ++
  (if outboxOn c || diffCapabilitySent c then [] else [MConnect None None None true]) ++
  match omap (λ p : nat, jm_get (heap (rstore (rec c))) p) (jm_values (byId (rstore (rec c)))) with
  | [] => []
  | subs => [MModifyQuerySet (List.map (resync_request c) subs) []]
  end.
Lemma reopening_no_mutation c : omap sent_id (reopening c) = [].
Proof.
  unfold reopening. generalize (omap (λ p : nat, jm_get (heap (rstore (rec c))) p) (jm_values (byId (rstore (rec c))))). intros subs. rewrite !omap_app.
  by destruct (hasSetAuth c), (outboxOn c || diffCapabilitySent c), subs.
Qed.
Lemma resync_sent c : sent (resync c) = sent c ++
  match omap (λ p : nat, jm_get (heap (rstore (rec c))) p) (jm_values (byId (rstore (rec c)))) with
  | [] => []
  | subs => [MModifyQuerySet (List.map (resync_request c) subs) []]
  end.
Proof. unfold resync. destruct (omap _ _); [cbn; by rewrite app_nil_r|done]. Qed.

(** The messages a reopened transport carries: these, then every unsent mutation, oldest first. *)
Lemma reopened_spec c : client_ok c → client_ok (onTransportReopened c) ∧
  sent (onTransportReopened c) = sent c ++ reopening c ++ (mutationMessage <$> unsentInOrder (rec c)).
Proof.
  intros Hc. unfold onTransportReopened. set (c0 := with_session _ _ _ _). assert (H0 : client_ok c0) by (by apply session_ok).
  set (c1 := if hasSetAuth c0 then _ else c0). assert (H1 : client_ok c1) by (unfold c1; destruct (hasSetAuth c0); [by apply send_msg_ok|done]).
  assert (S1 : sent c1 = sent c ++ if hasSetAuth c then [MSetAuth (lastAuthToken c)] else []).
  { unfold c1, c0. cbn [hasSetAuth with_session]. destruct (hasSetAuth c); [done|]. cbn. by rewrite app_nil_r. }
  set (c2 := maybeSendDiffCapability c1). assert (S2 : sent c2 = sent c1 ++ if outboxOn c || diffCapabilitySent c then [] else [MConnect None None None true]).
  { unfold c2, maybeSendDiffCapability, c1, c0. cbn [hasSetAuth with_session]. destruct (hasSetAuth c); cbn;
      destruct (outboxOn c), (diffCapabilitySent c); cbn; by rewrite ?app_nil_r. }
  assert (E2 : rec c2 = rec c ∧ resumeSinceTs c2 = resumeSinceTs c).
  { unfold c2, maybeSendDiffCapability, c1, c0. cbn [hasSetAuth with_session]. destruct (hasSetAuth c); cbn;
      destruct (outboxOn c), (diffCapabilitySent c); done. }
  destruct (resync_books c2) as [Hb Hrec]. assert (H3 : client_ok (resync c2)).
  { apply (books_ok c2); [done|]. rewrite Hrec, with_rec_same. by apply capability_send_ok. }
  destruct E2 as [E2 T2]. rewrite Hrec, E2. destruct (reachable_ok stringify (rec c) (ci_rec _ Hc)) as [Hr _].
  destruct (flush_client_ok (unsentInOrder (rec c)) (resync c2) H3 (unsent_nodup _ Hr)) as [H4 S4].
  { intros e He. rewrite Hrec, E2. exists e. by apply unsent_in_log. }
  split; [done|]. rewrite S4, resync_sent, S2, S1, E2. unfold reopening. rewrite <-!app_assoc. do 4 f_equal.
  assert (Er : ∀ subs, List.map (resync_request c2) subs = List.map (resync_request c) subs).
  { intros subs. apply List.map_ext. intros s. unfold resync_request. by rewrite E2, T2. }
  destruct (omap _ _) as [|sub subs]; [done|]. by rewrite Er.
Qed.

Lemma cstep_ok c ev : client_ok c → callowed c ev → client_ok (cstep c ev).1.
Proof.
  intros Hc Ha. destruct ev as [path args l|h l|path args u sd|path args|token|b|rid r err code now|rid x|rid| |]; cbn [cstep fst].
  - by apply subscribe_ok.
  - by apply unsubscribe_ok.
  - by apply mutation_ok.
  - by apply action_ok.
  - by apply send_msg_ok, auth_ok.
  - by apply transition_ok.
  - by apply response_ok.
  - by apply action_response_ok.
  - by apply (rec_step_ok c (EvGateTimeout rid)).
  - by apply closed_ok.
  - by apply reopened_spec.
Qed.

Lemma creachable_ok c : creachable c → client_ok c.
Proof.
  induction 1 as [|c ev _ Hc Ha]; [|by apply cstep_ok]. split; cbn; try done; try apply NoDup_nil_2; try (intros; by apply not_elem_of_nil in H); try constructor.
  - apply NoDup_nil_2.
  - intros rid Hr. by apply not_elem_of_nil in Hr.
Qed.

(** C30: delivery without an outbox is at most once. However calls, responses, lost connections and reconnections
    interleave, if the server's frames decode, a mutation is put on the wire at most once over the life of the client, every promise is settled at most
    once, and a reopened transport carries exactly this: the identity if one was set, the diff capability, the live
    subscriptions again, and then the mutations the log still holds as unsent, in its order, none of which
    was ever sent. (A mutation made offline whose updater throws in a later replay is dropped from the log, and
    so never sent: [offline_mutation_lost].) *)
Theorem at_most_once_delivery c : creachable c →
  NoDup (sent_ids c) ∧ NoDup (settlements c).*1 ∧
  (∀ rid, rid ∈ pendingMutationCallbacks c → rid ∉ (settlements c).*1) ∧
  sent (onTransportReopened c) = sent c ++ reopening c ++ (mutationMessage <$> unsentInOrder (rec c)) ∧
  omap sent_id (reopening c) = [] ∧ ∀ e, e ∈ unsentInOrder (rec c) → requestId e ∉ sent_ids c.
Proof.
  intros Hre. pose proof (creachable_ok c Hre) as Hc. destruct (reachable_ok stringify (rec c) (ci_rec _ Hc)) as [Hr _].
  split_and!; [apply Hc|apply Hc|by intros rid Hin; apply (ci_pending _ Hc)|by apply reopened_spec|apply reopening_no_mutation|].
  intros e He. destruct (unsent_in_log _ _ Hr He). by eapply (ci_unsent _ Hc).
Qed.
End client.

(** ** Concrete runs *)
Definition crun (evs : list cevent) (c : Client) : Client := fold_left (λ c ev, (cstep plain_stringify c ev).1) evs c.

Lemma crun_reachable evs c : creachable plain_stringify c → Forall (λ ev, match ev with CeTransition _ | CeResponse _ _ _ _ _ => False | _ => True end) evs →
  creachable plain_stringify (crun evs c).
Proof.
  revert c. induction evs as [|ev evs IH]; intros c Hc Hf; [done|]. apply Forall_cons in Hf as [Hev Hf]. apply IH; [|done].
  apply creach_step; [done|]. by destruct ev.
Qed.

(** An updater that reads the length of every cached list. *)
Definition append_all (args : value) : upd :=
  UGetAll (js "list") (λ r, match r with
    | Err e => UThrow e
    | Ok qs => if forallb (λ q : value * option value, match q.2 with Some (VArr _) => true | _ => false end) qs then UDone else UThrow TypeError
    end).

Definition offline_run : list cevent :=
  [CeClosed; CeMutation (js "add") VNull (Some append_all) seed0; CeSubscribe (js "list") (VObj []) 0;
   CeMutation (js "add") VNull (Some show_one) seed0].

Lemma at_most_once_delivery_witness :
  let c := crun offline_run new_Client in
  NoDup (sent_ids c) ∧ sent (onTransportReopened c) = sent c ++ [MConnect None None None true;
     MModifyQuerySet [{| qr_queryId := 1; qr_udfPath := js "list"; qr_args := JObj []; qr_resultHash := None; qr_sinceTs := Some 0 |}] []] ++
     [MMutation {| me_requestId := js "2"; me_udfPath := js "add"; me_args := JNull; me_clientId := None; me_seq := None |}].
Proof.
  cbv zeta. assert (Hre : creachable plain_stringify (crun offline_run new_Client)).
  { apply crun_reachable; [constructor|]. repeat constructor. }
  destruct (at_most_once_delivery plain_stringify (crun offline_run new_Client) Hre) as (H1 & _). split; [exact H1|]. vm_compute. reflexivity.
Defined.

(** A mutation made while offline is forgotten when a later rebuild replays its updater and it throws (here because a
    new subscription has no value yet): its promise stays pending, and the reopened transport never sends it. *)
Lemma offline_mutation_lost :
  let c := crun offline_run new_Client in let c' := onTransportReopened c in
  js "1" ∈ pendingMutationCallbacks c' ∧ js "1" ∉ sent_ids c' ∧ jm_get (log (rec c')) (js "1") = None ∧ js "1" ∉ (settlements c').*1.
Proof.
  cbv zeta. split_and!; [|intros H|vm_compute; reflexivity|intros H].
  - apply (bool_decide_unpack _). vm_compute. exact I.
  - apply (bool_decide_pack _) in H. vm_compute in H. done.
  - apply (bool_decide_pack _) in H. vm_compute in H. done.
Qed.
