(* ===== verification/Outbox.v ===== *)
(** The durable queue of a client: [packages/client/src/outbox-storage.ts] and the resume handshake of
    [packages/client/src/connect-handshake.ts]. A store is the two maps of [memoryOutbox], in insertion order; its methods take effect when
    they are called. A client id is minted by the caller: [defaultMintClientId] draws it at random. *)
From S2P Require Import Prelude Numbers Values Json IndexKeys Ranges DocStore QueryEngine Subscriptions DiffSync SessionFlow ClientStore.

Inductive OutboxEntryStatus := OUnsent | OInflight | OParked | OCompleted | OFailed.
Record OutboxEntryError := { oe_message : jsstr; oe_code : option jsstr }.
Record OutboxEntry := {
  ob_clientId : jsstr; ob_seq : Z; ob_requestId : jsstr; ob_udfPath : jsstr; ob_args : json; ob_seed : Seed;
  ob_order : Z; ob_status : OutboxEntryStatus; ob_identityFingerprint : option jsstr; ob_outboxVersion : Z;
  ob_enqueuedAt : Z; ob_error : option OutboxEntryError }.
Record OutboxMeta := { nextSeq : Z; deployment : option jsstr }.
Record HydrateResult := { hy_entries : list OutboxEntry; hy_dropped : list OutboxEntry }.
Record OutboxStorage := { ob_entries : list (jsstr * OutboxEntry); ob_meta : list (jsstr * OutboxMeta) }.

#[export] Instance OutboxEntryStatus_dec : EqDecision OutboxEntryStatus.
Proof. solve_decision. Defined.

Definition OUTBOX_VERSION : Z := 1.
Definition DEFAULT_OUTBOX_MAX_QUEUE_SIZE : Z := 1000.

(** ** [memoryOutbox] *)
Definition memoryOutbox : OutboxStorage := {| ob_entries := []; ob_meta := [] |}.

(** [`${clientId}\0${seq}`] *)
Definition outbox_key (clientId : jsstr) (seq : Z) : jsstr := clientId ++ 0 :: string_of_int seq.

Definition with_entries (s : OutboxStorage) (es : list (jsstr * OutboxEntry)) : OutboxStorage :=
  {| ob_entries := es; ob_meta := ob_meta s |}.
Definition with_meta (s : OutboxStorage) (m : list (jsstr * OutboxMeta)) : OutboxStorage :=
  {| ob_entries := ob_entries s; ob_meta := m |}.

(** [{ ...existing, status, ...(error !== undefined ? { error } : {}) }] *)
Definition restatus (st : OutboxEntryStatus) (err : option OutboxEntryError) (e : OutboxEntry) : OutboxEntry :=
  {| ob_clientId := ob_clientId e; ob_seq := ob_seq e; ob_requestId := ob_requestId e; ob_udfPath := ob_udfPath e;
     ob_args := ob_args e; ob_seed := ob_seed e; ob_order := ob_order e; ob_status := st;
     ob_identityFingerprint := ob_identityFingerprint e; ob_outboxVersion := ob_outboxVersion e;
     ob_enqueuedAt := ob_enqueuedAt e; ob_error := match err with Some x => Some x | None => ob_error e end |}.

Definition append (s : OutboxStorage) (e : OutboxEntry) : OutboxStorage :=
  with_entries s (jm_set (ob_entries s) (outbox_key (ob_clientId e) (ob_seq e)) e).
Definition updateStatus (s : OutboxStorage) (clientId : jsstr) (seq : Z) (st : OutboxEntryStatus) (err : option OutboxEntryError) : OutboxStorage :=
  match jm_get (ob_entries s) (outbox_key clientId seq) with
  | Some e => with_entries s (jm_set (ob_entries s) (outbox_key clientId seq) (restatus st err e))
  | None => s
  end.
Definition dequeue (s : OutboxStorage) (clientId : jsstr) (seq : Z) : OutboxStorage :=
  with_entries s (jm_delete (ob_entries s) (outbox_key clientId seq)).

(** [(a, b) => a.order - b.order] *)
Definition by_order (a b : OutboxEntry) : comparison := ob_order a ?= ob_order b.

Definition current_version (e : OutboxEntry) : bool := ob_outboxVersion e =? OUTBOX_VERSION.
Definition dropStaleVersion (all : list OutboxEntry) : HydrateResult :=
  {| hy_entries := List.filter current_version all; hy_dropped := List.filter (λ e, negb (current_version e)) all |}.

Definition loadAll (s : OutboxStorage) : OutboxStorage * HydrateResult :=
  let r := dropStaleVersion (sort_by by_order (jm_values (ob_entries s))) in
  (fold_left (λ s e, dequeue s (ob_clientId e) (ob_seq e)) (hy_dropped r) s, r).

Definition getMeta (s : OutboxStorage) (clientId : jsstr) : option OutboxMeta := jm_get (ob_meta s) clientId.
Definition setMeta (s : OutboxStorage) (clientId : jsstr) (m : OutboxMeta) : OutboxStorage :=
  with_meta s (jm_set (ob_meta s) clientId m).
Definition listMetaClientIds (s : OutboxStorage) : list jsstr := jm_keys (ob_meta s).
Definition deleteMeta (s : OutboxStorage) (clientId : jsstr) : OutboxStorage := with_meta s (jm_delete (ob_meta s) clientId).

Definition mintIdentity (s : OutboxStorage) (dep : option jsstr) (clientId : jsstr) : OutboxStorage * Z :=
  let n := default 0 (nextSeq <$> getMeta s clientId) in
  (setMeta s clientId {| nextSeq := n; deployment := dep |}, n).

(** ** The resume handshake *)
Definition held_status (st : MutationStatus) : bool := match st with Completed _ _ => false | _ => true end.
Definition held_record (st : OutboxEntryStatus) : bool := match st with OUnsent | OInflight | OParked => true | _ => false end.

Definition outboxHeldFromLog (entries : list PendingMutation) : list ClientMutationRef :=
  omap (λ e, match clientId e, seq e with
             | Some c, Some s => if held_status (status e) then Some {| cr_clientId := c; cr_seq := s |} else None
             | _, _ => None
             end) entries.
Definition outboxHeldFromStore (entries : list OutboxEntry) : list ClientMutationRef :=
  omap (λ e, if held_record (ob_status e) then Some {| cr_clientId := ob_clientId e; cr_seq := ob_seq e |} else None) entries.

(** One round of the loop that finds the lowest held seq of each client. *)
Definition note_lowest (m : list (jsstr * Z)) (ref : ClientMutationRef) : list (jsstr * Z) :=
  match jm_get m (cr_clientId ref) with
  | Some cur => if cr_seq ref <? cur then jm_set m (cr_clientId ref) (cr_seq ref) else m
  | None => jm_set m (cr_clientId ref) (cr_seq ref)
  end.
Definition outboxAckedThrough (held : list ClientMutationRef) : list ClientMutationRef :=
  omap (λ p, if 0 <? p.2 then Some {| cr_clientId := p.1; cr_seq := p.2 - 1 |} else None) (fold_left note_lowest held []).

Definition buildConnectMessage (clientId : option jsstr) (held : list ClientMutationRef) : ClientMessage :=
  MConnect clientId (Some held) (Some (outboxAckedThrough held)) true.

(** ** The store *)
Lemma app_sep_inj (sep : Z) (a b x y : jsstr) : sep ∉ x → sep ∉ y → a ++ sep :: x = b ++ sep :: y → a = b ∧ x = y.
Proof.
  intros Hx Hy. revert b. induction a as [|c a IH]; intros [|d b] E; simplify_eq/=; try done.
  - destruct Hx. apply elem_of_app. right. left.
  - destruct Hy. apply elem_of_app. right. left.
  - destruct (IH b) as [-> ->]; done.
Qed.

Lemma nul_not_in_int n : 0 ∉ string_of_int n.
Proof.
  assert (H : ∀ m, 0 ≤ m → 0 ∉ dec_nonneg m).
  { intros m Hm Hin. destruct (dec_nonneg_spec m Hm) as (_ & Hd & _). rewrite forallb_Forall, Forall_forall in Hd. by specialize (Hd _ Hin). }
  unfold string_of_int. destruct (Z.ltb_spec n 0) as [Hn|Hn]; [|by apply H]. rewrite not_elem_of_cons. split; [done|]. apply H. lia.
Qed.

Lemma outbox_key_inj c s c' s' : outbox_key c s = outbox_key c' s' → c = c' ∧ s = s'.
Proof. intros [-> E]%app_sep_inj; try apply nul_not_in_int. by apply string_of_int_inj in E. Qed.

(** The record of a reference. *)
Definition stored (s : OutboxStorage) (c : jsstr) (q : Z) : option OutboxEntry := jm_get (ob_entries s) (outbox_key c q).

(** Every record is filed under its own reference. *)
Record outbox_ok (s : OutboxStorage) : Prop := {
  st_entries : jm_ok (ob_entries s);
  st_meta : jm_ok (ob_meta s);
  st_keys : ∀ k e, (k, e) ∈ ob_entries s → k = outbox_key (ob_clientId e) (ob_seq e) }.

Lemma memoryOutbox_ok : outbox_ok memoryOutbox.
Proof. split; [constructor|constructor|]. intros k e H. by apply not_elem_of_nil in H. Qed.

Definition is_ref (c : jsstr) (q : Z) (e : OutboxEntry) : Prop := c = ob_clientId e ∧ q = ob_seq e.

Lemma stored_append s e c q : stored (append s e) c q = if decide (is_ref c q e) then Some e else stored s c q.
Proof.
  unfold stored, append. cbn. rewrite jm_get_set. destruct (decide (is_ref c q e)) as [[-> ->]|Hn]; [by rewrite decide_True|].
  rewrite decide_False; [done|]. intros E. apply Hn. by apply outbox_key_inj in E as [-> ->].
Qed.

Lemma stored_updateStatus s c' q' st err c q : stored (updateStatus s c' q' st err) c q =
  if decide (c = c' ∧ q = q') then restatus st err <$> stored s c q else stored s c q.
Proof.
  unfold stored, updateStatus. destruct (jm_get (ob_entries s) (outbox_key c' q')) as [e|] eqn:E.
  - cbn. rewrite jm_get_set. destruct (decide (c = c' ∧ q = q')) as [[-> ->]|Hn]; [by rewrite decide_True, E|].
    rewrite decide_False; [done|]. intros E'. apply Hn. by apply outbox_key_inj in E' as [-> ->].
  - destruct (decide (c = c' ∧ q = q')) as [[-> ->]|Hn]; [by rewrite E|done].
Qed.

Lemma stored_dequeue s c' q' c q : outbox_ok s → stored (dequeue s c' q') c q = if decide (c = c' ∧ q = q') then None else stored s c q.
Proof.
  intros Hs. unfold stored, dequeue. cbn. rewrite jm_get_delete by apply Hs.
  destruct (decide (c = c' ∧ q = q')) as [[-> ->]|Hn]; [by rewrite decide_True|].
  rewrite decide_False; [done|]. intros E. apply Hn. by apply outbox_key_inj in E as [-> ->].
Qed.

Lemma stored_ref s c q e : outbox_ok s → stored s c q = Some e → ob_clientId e = c ∧ ob_seq e = q.
Proof. intros Hs He%jm_get_in. apply (st_keys _ Hs) in He. by apply outbox_key_inj in He as [-> ->]. Qed.

Lemma append_ok s e : outbox_ok s → outbox_ok (append s e).
Proof.
  intros Hs. assert (Hj : jm_ok (ob_entries (append s e))) by apply jm_set_ok, Hs. split; [done|apply Hs|].
  intros k e' Hin. apply jm_get_elem in Hin; [|done]. cbn in Hin. rewrite jm_get_set in Hin. case_decide; [by simplify_eq|].
  apply jm_get_in in Hin. by apply (st_keys _ Hs).
Qed.
Lemma updateStatus_ok s c q st err : outbox_ok s → outbox_ok (updateStatus s c q st err).
Proof.
  intros Hs. unfold updateStatus. destruct (jm_get _ _) as [e|] eqn:E; [|done]. destruct (stored_ref s c q e Hs E) as [<- <-].
  exact (append_ok s (restatus st err e) Hs).
Qed.
Lemma dequeue_ok s c q : outbox_ok s → outbox_ok (dequeue s c q).
Proof. intros Hs. split; [apply jm_delete_ok, Hs|apply Hs|]. intros k e Hin%jm_delete_sub. by apply (st_keys _ Hs). Qed.
Lemma setMeta_ok s c m : outbox_ok s → outbox_ok (setMeta s c m).
Proof. intros Hs. split; [apply Hs|apply jm_set_ok, Hs|apply Hs]. Qed.
Lemma deleteMeta_ok s c : outbox_ok s → outbox_ok (deleteMeta s c).
Proof. intros Hs. split; [apply Hs|apply jm_delete_ok, Hs|apply Hs]. Qed.

#[export] Instance by_order_order : CmpOrder by_order.
Proof.
  unfold by_order. split.
  - intros a. apply Z.compare_refl.
  - intros a b. apply Z.compare_antisym.
  - intros a b c. rewrite Z.compare_eq_iff. by intros ->.
  - intros a b c. rewrite !Z.compare_lt_iff. lia.
Qed.

Lemma dequeues_ok es s : outbox_ok s → outbox_ok (fold_left (λ s e, dequeue s (ob_clientId e) (ob_seq e)) es s).
Proof. revert s. induction es as [|e es IH]; intros s Hs; [done|]. by apply IH, dequeue_ok. Qed.

Lemma stored_dequeues es s c q : outbox_ok s → stored (fold_left (λ s e, dequeue s (ob_clientId e) (ob_seq e)) es s) c q =
  if bool_decide (Exists (is_ref c q) es) then None else stored s c q.
Proof.
  revert s. induction es as [|e es IH]; intros s Hs; [done|]. cbn [fold_left]. rewrite IH by by apply dequeue_ok.
  rewrite stored_dequeue by done. destruct (decide (is_ref c q e)) as [He|He].
  - rewrite (bool_decide_true (Exists _ (e :: es))) by by left. rewrite decide_True by exact He. by case_bool_decide.
  - rewrite (decide_False (P := c = ob_clientId e ∧ q = ob_seq e)) by exact He. do 2 case_bool_decide; try done.
    + destruct H0. by right.
    + by apply Exists_cons in H0 as [|].
Qed.

Lemma elem_of_values s e : outbox_ok s → e ∈ jm_values (ob_entries s) ↔ stored s (ob_clientId e) (ob_seq e) = Some e.
Proof.
  intros Hs. unfold jm_values. rewrite list_elem_of_fmap. split.
  - intros ((k & e') & -> & Hin). cbn. apply jm_get_elem; [apply Hs|]. by rewrite <-(st_keys _ Hs _ _ Hin).
  - intros He%jm_get_in. by exists (outbox_key (ob_clientId e) (ob_seq e), e).
Qed.

(** Hydrating returns the records of this version in their order and forgets the others. *)
Lemma loadAll_spec s : outbox_ok s → let '(s', r) := loadAll s in
  outbox_ok s' ∧ StronglySorted (cmp_le by_order) (hy_entries r) ∧ ob_meta s' = ob_meta s ∧
  (∀ e, e ∈ hy_entries r ↔ stored s' (ob_clientId e) (ob_seq e) = Some e) ∧
  (∀ c q, stored s' c q = match stored s c q with Some e => if current_version e then Some e else None | None => None end).
Proof.
  intros Hs. unfold loadAll. set (all := sort_by by_order (jm_values (ob_entries s))). cbn [hy_entries hy_dropped dropStaleVersion].
  set (s' := fold_left _ _ s). assert (Hin : ∀ e, e ∈ all ↔ stored s (ob_clientId e) (ob_seq e) = Some e).
  { intros e. unfold all. rewrite elem_of_sort_by. by apply elem_of_values. }
  assert (Hst : ∀ c q, stored s' c q = match stored s c q with Some e => if current_version e then Some e else None | None => None end).
  { intros c q. unfold s'. rewrite stored_dequeues by done. destruct (stored s c q) as [e|] eqn:E; [|by case_bool_decide].
    destruct (stored_ref _ _ _ _ Hs E) as [<- <-]. destruct (current_version e) eqn:Ev.
    - rewrite bool_decide_false; [done|]. intros (e' & Hd & Ec & Es)%Exists_exists. apply list_elem_of_In, List.filter_In in Hd as [Hd Hv].
      apply list_elem_of_In, Hin in Hd. rewrite <-Ec, <-Es, E in Hd. simplify_eq. by rewrite Ev in Hv.
    - rewrite bool_decide_true; [done|]. apply Exists_exists. exists e. split; [|done]. apply list_elem_of_In, List.filter_In.
      rewrite Ev. split; [|done]. by apply list_elem_of_In, Hin. }
  split_and!; [by apply dequeues_ok| | | |exact Hst].
  - assert (H : StronglySorted (cmp_le by_order) all) by apply sort_by_sorted, _. clear -H.
    induction H as [|e l Hl IH Hf]; [constructor|]. cbn. destruct (current_version e); [|done]. constructor; [done|].
    rewrite Forall_forall in *. intros x Hx. apply Hf. apply list_elem_of_In, List.filter_In in Hx as [Hx _]. by apply list_elem_of_In.
  - clear Hst Hin. unfold s'. generalize (List.filter (λ e, negb (current_version e)) all). intros l. clear. revert s.
    induction l as [|e l IH]; intros s; [done|]. cbn [fold_left]. by rewrite IH.
  - intros e. rewrite Hst. rewrite list_elem_of_In, List.filter_In, <-list_elem_of_In, Hin.
    destruct (stored s _ _) as [e'|]; [|by split; [intros []|]]. destruct (current_version e') eqn:Ev; split.
    + by intros [? _].
    + intros ?. by simplify_eq.
    + intros [? ?]. simplify_eq. by rewrite Ev in *.
    + done.
Qed.

(** ** What the handshake acknowledges *)
Lemma note_lowest_get m ref c : jm_get (note_lowest m ref) c =
  if decide (c = cr_clientId ref) then Some (match jm_get m c with Some cur => Z.min cur (cr_seq ref) | None => cr_seq ref end) else jm_get m c.
Proof.
  unfold note_lowest. destruct (jm_get m (cr_clientId ref)) as [cur|] eqn:E.
  - destruct (Z.ltb_spec (cr_seq ref) cur).
    + rewrite jm_get_set. case_decide; [subst; rewrite E; f_equal; lia|done].
    + case_decide; [subst; rewrite E; f_equal; lia|done].
  - rewrite jm_get_set. case_decide; [subst; by rewrite E|done].
Qed.
Lemma note_lowest_ok m ref : jm_ok m → jm_ok (note_lowest m ref).
Proof. intros H. unfold note_lowest. destruct (jm_get _ _); [destruct (_ <? _)|]; try done; by apply jm_set_ok. Qed.

Definition lowest (held : list ClientMutationRef) (c : jsstr) (q : Z) : Prop :=
  {| cr_clientId := c; cr_seq := q |} ∈ held ∧ ∀ r, r ∈ held → cr_clientId r = c → q ≤ cr_seq r.

Lemma lowest_fold held m : jm_ok m → let m' := fold_left note_lowest held m in jm_ok m' ∧
  ∀ c q, jm_get m' c = Some q ↔
    (jm_get m c = Some q ∨ {| cr_clientId := c; cr_seq := q |} ∈ held) ∧
    (∀ q', jm_get m c = Some q' → q ≤ q') ∧ (∀ r, r ∈ held → cr_clientId r = c → q ≤ cr_seq r).
Proof.
  revert m. induction held as [|ref held IH]; intros m Hm; cbn [fold_left].
  - split; [done|]. intros c q. split.
    + intros E. rewrite E. split_and!; [by left|intros; by simplify_eq|]. intros r H. by apply not_elem_of_nil in H.
    + intros ([?|H] & _); [done|]. by apply not_elem_of_nil in H.
  - destruct (IH (note_lowest m ref)) as [Hok IH']; [by apply note_lowest_ok|]. split; [done|]. intros c q. rewrite IH'.
    rewrite note_lowest_get. destruct ref as [rc rq]. cbn [cr_clientId cr_seq]. destruct (decide (c = rc)) as [->|Hne].
    + destruct (jm_get m rc) as [cur|] eqn:E; split.
      * intros (H1 & H2 & H3). specialize (H2 _ eq_refl). split_and!.
        -- destruct H1 as [[= <-]|H1]; [|right; by right]. destruct (Z.min_spec cur rq) as [[_ ->]|[_ ->]]; [by left|right; by left].
        -- intros q' [= <-]. lia.
        -- intros r [->|Hr]%elem_of_cons Hc; [cbn; lia|by apply H3].
      * intros (H1 & H2 & H3). specialize (H2 _ eq_refl). pose proof (H3 {| cr_clientId := rc; cr_seq := rq |} ltac:(left) eq_refl) as H4. cbn in H4.
        split_and!.
        -- destruct H1 as [[= ->]|[[= ->]|H1]%elem_of_cons]; [left; f_equal; lia|left; f_equal; lia|by right].
        -- intros q' [= <-]. lia.
        -- intros r Hr. apply H3. by right.
      * intros (H1 & H2 & H3). specialize (H2 _ eq_refl). split_and!; [|done|].
        -- right. destruct H1 as [[= <-]|H1]; [by left|by right].
        -- intros r [->|Hr]%elem_of_cons Hc; [cbn; lia|by apply H3].
      * intros (H1 & _ & H3). pose proof (H3 {| cr_clientId := rc; cr_seq := rq |} ltac:(left) eq_refl) as H4. cbn in H4. split_and!.
        -- destruct H1 as [?|[[= ->]|H1]%elem_of_cons]; [done|by left|by right].
        -- intros q' [= <-]. lia.
        -- intros r Hr. apply H3. by right.
    + split; intros (H1 & H2 & H3); (split_and!; [|done|]).
      * destruct H1; [by left|right; by right].
      * intros r [->|Hr]%elem_of_cons Hc; [cbn in Hc; by destruct Hne|by apply H3].
      * destruct H1 as [?|[[= -> _]|H1]%elem_of_cons]; [by left|done|by right].
      * intros r Hr. apply H3. by right.
Qed.

(** The resume handshake acknowledges, for each client whose history it presents, exactly the seqs below the
    lowest one still held: a reference is acknowledged if and only if its successor is held and no held seq
    of that client is smaller. The server prunes through what is acknowledged, so it never prunes the verdict of a held mutation. *)
Theorem acked_below_held held c q :
  {| cr_clientId := c; cr_seq := q |} ∈ outboxAckedThrough held ↔ 0 ≤ q ∧ lowest held c (q + 1).
Proof.
  unfold outboxAckedThrough, lowest. destruct (lowest_fold held []) as [Hok Hm]; [constructor|]. rewrite list_elem_of_omap. split.
  - intros ((c' & q') & Hin & E). cbn in E. destruct (Z.ltb_spec 0 q'); [|done]. simplify_eq. apply jm_get_elem in Hin; [|done].
    apply Hm in Hin as ([?|H1] & _ & H3); [done|]. replace (q' - 1 + 1) with q' by lia. split_and!; [lia|done|done].
  - intros (H0 & H1 & H2). exists (c, q + 1). split.
    + apply jm_get_elem; [done|]. apply Hm. split_and!; [by right|done|done].
    + cbn. destruct (Z.ltb_spec 0 (q + 1)); [|lia]. do 2 f_equal. lia.
Qed.
