(* ===== verification/FsOutbox.v ===== *)
(** The outbox on a file system: [packages/client/src/outbox-fs.ts]. A queue is a journal file of one line per
    operation. Every disk operation is a link of one promise chain; the model runs the links in order, one step per [await], and an
    operation of the client may come between any two steps. A crash keeps what was synced and any prefix of what was written since.
    [JSON.stringify], the decoding of a line and [Buffer.byteLength] are parameters; the lock file and the fallback to memory are not modelled. *)
From S2P Require Import Prelude Numbers Values Json IndexKeys Ranges DocStore QueryEngine Subscriptions DiffSync SessionFlow ClientStore Outbox.

Abbreviation bytes := (list Z).

Inductive JournalOp :=
  | JoAppend (e : OutboxEntry)
  | JoStatus (c : jsstr) (q : Z) (st : OutboxEntryStatus) (err : option OutboxEntryError)
  | JoDequeue (c : jsstr) (q : Z)
  | JoMeta (c : jsstr) (m : OutboxMeta)
  | JoMetaDelete (c : jsstr)
  | JoOther.                    (** a parsed line with another [op] *)

Definition applyOp (s : OutboxStorage) (op : JournalOp) : OutboxStorage :=
  match op with
  | JoAppend e => append s e
  | JoStatus c q st err => updateStatus s c q st err
  | JoDequeue c q => dequeue s c q
  | JoMeta c m => setMeta s c m
  | JoMetaDelete c => deleteMeta s c
  | JoOther => s
  end.
Definition applyOps (s : OutboxStorage) (ops : list JournalOp) : OutboxStorage := fold_left applyOp ops s.

Definition COMPACT_THRESHOLD : Z := 4096.
Definition state_size (s : OutboxStorage) : Z := Z.of_nat (length (ob_entries s) + length (ob_meta s)).

(** [raw.split("\n")] *)
Fixpoint split_nl (raw : bytes) : list bytes :=
  match raw with
  | [] => [[]]
  | c :: r => if c =? 10 then [] :: split_nl r
              else match split_nl r with x :: xs => (c :: x) :: xs | [] => [[c]] end
  end.

(** Where the flush link that is running stands; [FCompact] carries the lines of the state as [compact] read it. *)
Inductive phase :=
  | FIdle
  | FWrite (batch : list JournalOp)
  | FSync (batch : list JournalOp)
  | FCompact (batch : list JournalOp) (snapshot : bytes).

Inductive link := LFlush | LClose.

Record Fs := {
  fs_state : OutboxStorage; fs_opCount : Z; fs_pending : list JournalOp; fs_flushScheduled : bool;
  fs_tail : list link; fs_phase : phase; fs_closed : bool; fs_dead : bool;
  fs_file : bytes; fs_synced : nat; fs_quarantine : list bytes;
  fs_acked : OutboxStorage      (** the effect of the operations whose promise has resolved *) }.

(** What reading the journal found: the state, the number of operations, the length of the accepted prefix, the
    quarantined lines and where a torn tail is cut. *)
Record Opening := {
  op_state : OutboxStorage; op_count : Z; op_valid : nat; op_bad : list bytes; op_cut : option nat }.

Section fs.
Context (enc : JournalOp → bytes) (dec : bytes → option JournalOp) (byteLength : bytes → nat).
Variable fsync : bool.

Definition line (op : JournalOp) : bytes := enc op ++ [10].
Definition lines (ops : list JournalOp) : bytes := concat (line <$> ops).

(** ** Opening *)
Definition open_line (last trailing : bool) (a : Opening) (l : bytes) : Opening :=
  match l with
  | [] =>
      {| op_state := op_state a; op_count := op_count a; op_valid := if last then op_valid a else S (op_valid a);
         op_bad := op_bad a; op_cut := op_cut a |}
  | _ =>
      if last && negb trailing then
        {| op_state := op_state a; op_count := op_count a; op_valid := op_valid a; op_bad := op_bad a; op_cut := Some (op_valid a) |}
      else match dec l with
      | Some op =>
          {| op_state := applyOp (op_state a) op; op_count := op_count a + 1; op_valid := op_valid a + byteLength l + 1;
             op_bad := op_bad a; op_cut := op_cut a |}
      | None =>
          {| op_state := op_state a; op_count := op_count a; op_valid := op_valid a + byteLength l + 1;
             op_bad := op_bad a ++ [l]; op_cut := op_cut a |}
      end
  end.
Fixpoint open_lines (trailing : bool) (ls : list bytes) (a : Opening) : Opening :=
  match ls with
  | [] => a
  | l :: rest => open_lines trailing rest (open_line (match rest with [] => true | _ => false end) trailing a l)
  end.
Definition read_journal (raw : bytes) : Opening :=
  open_lines (bool_decide (last raw = Some 10)) (match raw with [] => [] | _ => split_nl raw end)
    {| op_state := memoryOutbox; op_count := 0; op_valid := 0; op_bad := []; op_cut := None |}.

(** The lines [compact] writes: the meta rows, then the records in their order. *)
Definition snapshot_ops (s : OutboxStorage) : list JournalOp :=
  List.map (λ p, JoMeta p.1 p.2) (ob_meta s) ++ List.map JoAppend (sort_by by_order (jm_values (ob_entries s))).
Definition snapshot (s : OutboxStorage) : bytes := lines (snapshot_ops s).

(** A new instance over the file a previous one left; [truncate] past the end would extend the file with zeros. *)
Definition openOnce (file : bytes) (quarantine : list bytes) : Fs :=
  let o := read_journal file in
  let file := match op_cut o with Some n => resize n 0 file | None => file end in
  {| fs_state := op_state o; fs_opCount := op_count o; fs_pending := []; fs_flushScheduled := false; fs_tail := [];
     fs_phase := if state_size (op_state o) <? op_count o then FCompact [] (snapshot (op_state o)) else FIdle;
     fs_closed := false; fs_dead := false; fs_file := file; fs_synced := length file;
     fs_quarantine := quarantine ++ op_bad o; fs_acked := op_state o |}.

(** ** Operations *)
Definition write (f : Fs) (op : JournalOp) : Fs :=
  {| fs_state := fs_state f; fs_opCount := fs_opCount f + 1; fs_pending := fs_pending f ++ [op]; fs_flushScheduled := true;
     fs_tail := if fs_flushScheduled f then fs_tail f else fs_tail f ++ [LFlush];
     fs_phase := fs_phase f; fs_closed := fs_closed f; fs_dead := fs_dead f; fs_file := fs_file f; fs_synced := fs_synced f;
     fs_quarantine := fs_quarantine f; fs_acked := fs_acked f |}.
Definition with_fstate (f : Fs) (s : OutboxStorage) : Fs :=
  {| fs_state := s; fs_opCount := fs_opCount f; fs_pending := fs_pending f; fs_flushScheduled := fs_flushScheduled f;
     fs_tail := fs_tail f; fs_phase := fs_phase f; fs_closed := fs_closed f; fs_dead := fs_dead f; fs_file := fs_file f;
     fs_synced := fs_synced f; fs_quarantine := fs_quarantine f; fs_acked := fs_acked f |}.
Definition journal (f : Fs) (op : JournalOp) : Fs := write (with_fstate f (applyOp (fs_state f) op)) op.

Definition fs_append (f : Fs) (e : OutboxEntry) : Fs := journal f (JoAppend e).
Definition fs_updateStatus (f : Fs) (c : jsstr) (q : Z) (st : OutboxEntryStatus) (err : option OutboxEntryError) : Fs :=
  if jm_has (ob_entries (fs_state f)) (outbox_key c q) then journal f (JoStatus c q st err) else f.
Definition fs_dequeue (f : Fs) (c : jsstr) (q : Z) : Fs :=
  if jm_has (ob_entries (fs_state f)) (outbox_key c q) then journal f (JoDequeue c q) else f.
Definition fs_setMeta (f : Fs) (c : jsstr) (m : OutboxMeta) : Fs := journal f (JoMeta c m).
Definition fs_deleteMeta (f : Fs) (c : jsstr) : Fs := journal f (JoMetaDelete c).
Definition fs_loadAll (f : Fs) : Fs * HydrateResult :=
  let r := dropStaleVersion (sort_by by_order (jm_values (ob_entries (fs_state f)))) in
  (fold_left (λ f e, journal f (JoDequeue (ob_clientId e) (ob_seq e))) (hy_dropped r) f, r).

(** ** The chain of disk operations *)
Definition with_disk (f : Fs) (opCount : Z) (ph : phase) (file : bytes) (synced : nat) (acked : OutboxStorage) : Fs :=
  {| fs_state := fs_state f; fs_opCount := opCount; fs_pending := fs_pending f; fs_flushScheduled := fs_flushScheduled f;
     fs_tail := fs_tail f; fs_phase := ph; fs_closed := fs_closed f; fs_dead := fs_dead f; fs_file := file; fs_synced := synced;
     fs_quarantine := fs_quarantine f; fs_acked := acked |}.
Definition with_link (f : Fs) (pending : list JournalOp) (scheduled : bool) (tail : list link) (ph : phase) (closed dead : bool) : Fs :=
  {| fs_state := fs_state f; fs_opCount := fs_opCount f; fs_pending := pending; fs_flushScheduled := scheduled; fs_tail := tail;
     fs_phase := ph; fs_closed := closed; fs_dead := dead; fs_file := fs_file f; fs_synced := fs_synced f;
     fs_quarantine := fs_quarantine f; fs_acked := fs_acked f |}.

(** The chain runs its next step. A link that throws leaves the chain rejected for good. *)
Definition disk_step (f : Fs) : Fs :=
  if fs_dead f then f
  else match fs_phase f with
  | FIdle =>
      match fs_tail f with
      | [] => f
      | LFlush :: tail =>
          match fs_pending f with
          | [] => with_link f [] false tail FIdle (fs_closed f) false
          | batch => if fs_closed f then with_link f [] false tail (FWrite batch) true true
                     else with_link f [] false tail (FWrite batch) (fs_closed f) false
          end
      | LClose :: tail =>
          with_link f (fs_pending f) (fs_flushScheduled f) tail
            (if state_size (fs_state f) <? fs_opCount f then FCompact [] (snapshot (fs_state f)) else FIdle) true false
      end
  | FWrite batch => with_disk f (fs_opCount f) (FSync batch) (fs_file f ++ lines batch) (fs_synced f) (fs_acked f)
  | FSync batch =>
      let synced := if fsync then length (fs_file f) else fs_synced f in
      if COMPACT_THRESHOLD <? fs_opCount f then
        with_disk f (fs_opCount f) (FCompact batch (snapshot (fs_state f))) (fs_file f) synced (fs_acked f)
      else with_disk f (fs_opCount f) FIdle (fs_file f) synced (applyOps (fs_acked f) batch)
  | FCompact batch snap =>
      with_disk f (state_size (fs_state f)) FIdle snap (length snap) (applyOps (fs_acked f) batch)
  end.

(** [compact] failing: the temporary file is dropped, the journal stays as it is. *)
Definition compact_failed (f : Fs) : Fs :=
  match fs_phase f with
  | FCompact batch _ => with_disk f (fs_opCount f) FIdle (fs_file f) (fs_synced f) (applyOps (fs_acked f) batch)
  | _ => f
  end.

(** A write or a sync failing: a prefix of the batch may be in the file. *)
Definition disk_failed (f : Fs) (n : nat) : Fs :=
  if fs_dead f then f
  else match fs_phase f with
  | FWrite batch =>
      with_link (with_disk f (fs_opCount f) (FWrite batch) (fs_file f ++ take n (lines batch)) (fs_synced f) (fs_acked f))
        (fs_pending f) (fs_flushScheduled f) (fs_tail f) (FWrite batch) (fs_closed f) true
  | FSync batch => with_link f (fs_pending f) (fs_flushScheduled f) (fs_tail f) (FSync batch) (fs_closed f) true
  | _ => f
  end.

Definition fs_close (f : Fs) : Fs :=
  with_link f (fs_pending f) (fs_flushScheduled f) (fs_tail f ++ [LClose]) (fs_phase f) (fs_closed f) (fs_dead f).

(** A crash leaves at least the synced prefix; a new instance opens what is left. *)
Definition crash (f : Fs) (n : nat) : Fs := openOnce (take (fs_synced f `max` n) (fs_file f)) (fs_quarantine f).

Inductive fevent :=
  | FeAppend (e : OutboxEntry)
  | FeStatus (c : jsstr) (q : Z) (st : OutboxEntryStatus) (err : option OutboxEntryError)
  | FeDequeue (c : jsstr) (q : Z)
  | FeMeta (c : jsstr) (m : OutboxMeta)
  | FeMetaDelete (c : jsstr)
  | FeLoad
  | FeClose
  | FeDisk
  | FeCompactFailed
  | FeDiskFailed (n : nat)
  | FeCrash (n : nat).

Definition fstep (f : Fs) (ev : fevent) : Fs :=
  match ev with
  | FeAppend e => fs_append f e
  | FeStatus c q st err => fs_updateStatus f c q st err
  | FeDequeue c q => fs_dequeue f c q
  | FeMeta c m => fs_setMeta f c m
  | FeMetaDelete c => fs_deleteMeta f c
  | FeLoad => (fs_loadAll f).1
  | FeClose => fs_close f
  | FeDisk => disk_step f
  | FeCompactFailed => compact_failed f
  | FeDiskFailed n => disk_failed f n
  | FeCrash n => crash f n
  end.
Definition frun (f : Fs) (evs : list fevent) : Fs := fold_left fstep evs f.

(** ** The effect of an operation on one reference *)
Definition op_entry (c : jsstr) (q : Z) (v : option OutboxEntry) (op : JournalOp) : option OutboxEntry :=
  match op with
  | JoAppend e => if decide (is_ref c q e) then Some e else v
  | JoStatus c' q' st err => if decide (c = c' ∧ q = q') then restatus st err <$> v else v
  | JoDequeue c' q' => if decide (c = c' ∧ q = q') then None else v
  | _ => v
  end.
Definition op_meta (c : jsstr) (v : option OutboxMeta) (op : JournalOp) : option OutboxMeta :=
  match op with
  | JoMeta c' m => if decide (c = c') then Some m else v
  | JoMetaDelete c' => if decide (c = c') then None else v
  | _ => v
  end.
(** An operation concerns a reference, or a client's meta row. *)
Definition concerns (c : jsstr) (q : Z) (op : JournalOp) : bool :=
  match op with
  | JoAppend e => bool_decide (is_ref c q e)
  | JoStatus c' q' _ _ | JoDequeue c' q' => bool_decide (c = c' ∧ q = q')
  | _ => false
  end.
Definition concerns_meta (c : jsstr) (op : JournalOp) : bool :=
  match op with JoMeta c' _ | JoMetaDelete c' => bool_decide (c = c') | _ => false end.

Lemma applyOp_ok s op : outbox_ok s → outbox_ok (applyOp s op).
Proof.
  intros Hs. destruct op; cbn; [by apply append_ok|by apply updateStatus_ok|by apply dequeue_ok|by apply setMeta_ok|by apply deleteMeta_ok|done].
Qed.
Lemma applyOps_ok s ops : outbox_ok s → outbox_ok (applyOps s ops).
Proof. revert s. induction ops as [|op ops IH]; intros s Hs; [done|]. by apply IH, applyOp_ok. Qed.

Lemma updateStatus_meta s c q st err : ob_meta (updateStatus s c q st err) = ob_meta s.
Proof. unfold updateStatus. by destruct (jm_get _ _). Qed.

Lemma stored_applyOp s op c q : outbox_ok s → stored (applyOp s op) c q = op_entry c q (stored s c q) op.
Proof.
  intros Hs. destruct op; cbn [applyOp op_entry]; try done; [apply stored_append|apply stored_updateStatus|by apply stored_dequeue].
Qed.
Lemma meta_applyOp s op c : outbox_ok s → getMeta (applyOp s op) c = op_meta c (getMeta s c) op.
Proof.
  intros Hs. unfold getMeta. destruct op; cbn [applyOp op_meta]; try done; [by rewrite updateStatus_meta|apply jm_get_set|].
  cbn. rewrite jm_get_delete by apply Hs. by case_decide.
Qed.
Lemma stored_applyOps ops s c q : outbox_ok s → stored (applyOps s ops) c q = fold_left (op_entry c q) ops (stored s c q).
Proof.
  revert s. induction ops as [|op ops IH]; intros s Hs; [done|]. cbn. rewrite <-stored_applyOp by done. by apply IH, applyOp_ok.
Qed.
Lemma meta_applyOps ops s c : outbox_ok s → getMeta (applyOps s ops) c = fold_left (op_meta c) ops (getMeta s c).
Proof.
  revert s. induction ops as [|op ops IH]; intros s Hs; [done|]. cbn. rewrite <-meta_applyOp by done. by apply IH, applyOp_ok.
Qed.

(** Two stores with the same rows. *)
Definition same_rows (s s' : OutboxStorage) : Prop :=
  (∀ c q, stored s c q = stored s' c q) ∧ (∀ c, getMeta s c = getMeta s' c).
#[export] Instance same_rows_equiv : Equivalence same_rows.
Proof.
  split.
  - by intros s.
  - intros s s' [H1 H2]. by split.
  - intros s1 s2 s3 [H1 H2] [H3 H4]. split; intros; [by rewrite H1|by rewrite H2].
Qed.
Lemma same_rows_applyOps ops s s' : outbox_ok s → outbox_ok s' → same_rows s s' → same_rows (applyOps s ops) (applyOps s' ops).
Proof.
  intros Hs Hs' [H1 H2]. split; intros.
  - by rewrite !stored_applyOps, H1 by done.
  - by rewrite !meta_applyOps, H2 by done.
Qed.

(** Replaying operations that have been applied changes nothing: on one reference they overwrite, or restamp. *)
Lemma op_entries_shape c q ops :
  (∃ w, ∀ v, fold_left (op_entry c q) ops v = w) ∨ (∀ v, fold_left (op_entry c q) ops v = v) ∨
  (∃ st err, ∀ v, fold_left (op_entry c q) ops v = restatus st err <$> v).
Proof.
  induction ops as [|op ops IH] using rev_ind; [right; by left|]. setoid_rewrite fold_left_app. cbn [fold_left].
  assert (Hconst : ∀ w, (∀ v, op_entry c q v op = w) → ∃ w, ∀ v, op_entry c q (fold_left (op_entry c q) ops v) op = w) by (intros w H; by exists w).
  assert (Hid : (∀ v, op_entry c q v op = v) → (∃ w, ∀ v, op_entry c q (fold_left (op_entry c q) ops v) op = w) ∨
    (∀ v, op_entry c q (fold_left (op_entry c q) ops v) op = v) ∨
    (∃ st err, ∀ v, op_entry c q (fold_left (op_entry c q) ops v) op = restatus st err <$> v)).
  { intros H. setoid_rewrite H. exact IH. }
  destruct op as [e|c' q' st err|c' q'|c' m|c'|]; cbn [op_entry] in *; try (by apply Hid).
  - destruct (decide (is_ref c q e)); [left; by eapply Hconst|by apply Hid].
  - destruct (decide (c = c' ∧ q = q')); [|by apply Hid]. destruct IH as [[w Hw]|[Hi|(st0 & err0 & Hr)]].
    + left. exists (restatus st err <$> w). intros v. by rewrite Hw.
    + right. right. exists st, err. intros v. by rewrite Hi.
    + right. right. exists st, (match err with Some x => Some x | None => err0 end). intros v. rewrite Hr. destruct v as [e|]; [|done]. cbn. f_equal.
      unfold restatus. cbn. by destruct err.
  - destruct (decide (c = c' ∧ q = q')); [left; by eapply Hconst|by apply Hid].
Qed.
Lemma op_entries_idem c q ops v : fold_left (op_entry c q) ops (fold_left (op_entry c q) ops v) = fold_left (op_entry c q) ops v.
Proof.
  destruct (op_entries_shape c q ops) as [[w Hw]|[Hi|(st & err & Hr)]]; [by rewrite !Hw|by rewrite !Hi|].
  rewrite !Hr. destruct v as [e|]; [|done]. cbn. f_equal. unfold restatus. cbn. by destruct err.
Qed.
Lemma op_metas_shape c ops : (∃ w, ∀ v, fold_left (op_meta c) ops v = w) ∨ (∀ v, fold_left (op_meta c) ops v = v).
Proof.
  induction ops as [|op ops IH] using rev_ind; [by right|]. setoid_rewrite fold_left_app. cbn [fold_left].
  destruct op as [e|c' q' st err|c' q'|c' m|c'|]; cbn [op_meta]; try done; (destruct (decide (c = c')); [left; by eexists|exact IH]).
Qed.
Lemma op_metas_idem c ops v : fold_left (op_meta c) ops (fold_left (op_meta c) ops v) = fold_left (op_meta c) ops v.
Proof. destruct (op_metas_shape c ops) as [[w Hw]|Hi]; [by rewrite !Hw|by rewrite !Hi]. Qed.
Lemma applyOps_idem ops s : outbox_ok s → same_rows (applyOps (applyOps s ops) ops) (applyOps s ops).
Proof.
  intros Hs. pose proof (applyOps_ok s ops Hs) as Ho. split; intros.
  - by rewrite !stored_applyOps, op_entries_idem by done.
  - by rewrite !meta_applyOps, op_metas_idem by done.
Qed.
Lemma applyOps_app s ops ops' : applyOps s (ops ++ ops') = applyOps (applyOps s ops) ops'.
Proof. apply fold_left_app. Qed.

Lemma untouched c q ops v : Forall (λ op, concerns c q op = false) ops → fold_left (op_entry c q) ops v = v.
Proof.
  revert v. induction ops as [|op ops IH]; intros v; [done|]. intros [H1 H2]%Forall_cons. cbn. rewrite IH by done.
  destruct op; cbn [concerns op_entry] in *; try done; apply bool_decide_eq_false in H1; by rewrite decide_False.
Qed.
Lemma untouched_meta c ops v : Forall (λ op, concerns_meta c op = false) ops → fold_left (op_meta c) ops v = v.
Proof.
  revert v. induction ops as [|op ops IH]; intros v; [done|]. intros [H1 H2]%Forall_cons. cbn. rewrite IH by done.
  destruct op; cbn [concerns_meta op_meta] in *; try done; apply bool_decide_eq_false in H1; by rewrite decide_False.
Qed.

(** A snapshot replays to the rows it was taken of. *)
Lemma entries_replay c q (es : list OutboxEntry) v : NoDup ((λ e, (ob_clientId e, ob_seq e)) <$> es) →
  fold_left (op_entry c q) (List.map JoAppend es) v =
    match List.find (λ e, bool_decide (is_ref c q e)) es with Some e => Some e | None => v end.
Proof.
  revert v. induction es as [|e es IH]; intros v; [done|]. cbn [fmap list_fmap]. intros [Hn Hd]%NoDup_cons. cbn. rewrite IH by done.
  case_bool_decide as He; [|by rewrite decide_False]. rewrite decide_True by done. destruct (List.find _ es) as [e'|] eqn:E; [|done].
  apply find_some in E as [Hin Hr]. apply bool_decide_eq_true in Hr. destruct Hn. apply list_elem_of_fmap. exists e'.
  destruct He as [-> ->], Hr as [-> ->]. split; [done|by apply list_elem_of_In].
Qed.

Lemma snapshot_rows s : outbox_ok s → same_rows (applyOps memoryOutbox (snapshot_ops s)) s.
Proof.
  intros Hs. pose proof memoryOutbox_ok as H0. split.
  - intros c q. rewrite stored_applyOps by done. unfold snapshot_ops. rewrite fold_left_app.
    rewrite (untouched c q (List.map _ (ob_meta s))) by (apply Forall_forall; intros op ([] & <- & _)%list_elem_of_In%in_map_iff; done).
    set (es := sort_by by_order (jm_values (ob_entries s))). assert (Hin : ∀ e, e ∈ es ↔ stored s (ob_clientId e) (ob_seq e) = Some e).
    { intros e. unfold es. rewrite elem_of_sort_by. by apply elem_of_values. }
    rewrite entries_replay.
    + destruct (List.find _ es) as [e|] eqn:E.
      * apply find_some in E as [He Hr]. apply bool_decide_eq_true in Hr as [-> ->]. symmetry. by apply Hin, list_elem_of_In.
      * destruct (stored s c q) as [e|] eqn:Es; [|done]. destruct (stored_ref _ _ _ _ Hs Es) as [<- <-].
        pose proof (find_none _ _ E e (proj1 (list_elem_of_In _ _) (proj2 (Hin e) Es))) as Hf. apply bool_decide_eq_false in Hf. by destruct Hf.
    + unfold es. rewrite sort_by_perm. apply (NoDup_fmap_1 (λ p : jsstr * Z, outbox_key p.1 p.2)). rewrite <-list_fmap_compose.
      unfold jm_values. rewrite <-list_fmap_compose. erewrite list_fmap_ext; [apply Hs|]. intros i [k e] Hi. cbn.
      by rewrite (st_keys _ Hs k e (list_elem_of_lookup_2 _ _ _ Hi)).
  - intros c. rewrite meta_applyOps by done. unfold snapshot_ops. rewrite fold_left_app.
    rewrite (untouched_meta c (List.map JoAppend _)) by (apply Forall_forall; intros op (e & <- & _)%list_elem_of_In%in_map_iff; done).
    unfold getMeta. cbn [ob_meta memoryOutbox jm_get]. pose proof (st_meta _ Hs) as Hm. revert Hm. generalize (ob_meta s). clear.
    assert (Hg : ∀ (l : list (jsstr * OutboxMeta)) (v : option OutboxMeta), jm_ok l → fold_left (op_meta c) (List.map (λ p, JoMeta p.1 p.2) l) v =
      match jm_get l c with Some m => Some m | None => v end).
    { induction l as [|[k m] l IH]; intros v Hl; [done|]. apply NoDup_cons in Hl as [Hn Hl]. cbn [fold_left List.map op_meta jm_get fst snd]. rewrite IH by done.
      destruct (decide (c = k)) as [->|Hne]; [|done]. by rewrite (proj2 (jm_get_None l k)). }
    intros l Hl. rewrite Hg by done. by destruct (jm_get l c).
Qed.
End fs.

(** ** Recovery *)

(** The operations a queue journals: each survives [JSON.stringify] and the decoding of its line, whose text has no raw
    newline and is as long as the bytes written; a record restamped by a journalled status can be journalled. *)
Record codec (enc : JournalOp → bytes) (dec : bytes → option JournalOp) (byteLength : bytes → nat) (P : JournalOp → Prop) : Prop := {
  co_dec : ∀ op, P op → dec (enc op) = Some op;
  co_text : ∀ op, P op → 10 ∉ enc op ∧ enc op ≠ [];
  co_length : ∀ op, P op → byteLength (enc op) = length (enc op);
  co_restatus : ∀ e c q st err, P (JoAppend e) → P (JoStatus c q st err) → P (JoAppend (restatus st err e));
  co_dequeue : ∀ e, P (JoAppend e) → P (JoDequeue (ob_clientId e) (ob_seq e)) }.

Section recovery.
Context (enc : JournalOp → bytes) (dec : bytes → option JournalOp) (byteLength : bytes → nat) (P : JournalOp → Prop).
Hypothesis Hcodec : codec enc dec byteLength P.
#[local] Abbreviation lines := (lines enc).
#[local] Abbreviation line := (line enc).
#[local] Abbreviation openOnce := (openOnce enc dec byteLength).
#[local] Abbreviation read_journal := (read_journal dec byteLength).
#[local] Abbreviation open_lines := (open_lines dec byteLength).
#[local] Abbreviation disk_step := (disk_step enc true).
#[local] Abbreviation fstep := (fstep enc dec byteLength true).

Lemma split_nl_line l r : 10 ∉ l → split_nl (l ++ 10 :: r) = l :: split_nl r.
Proof.
  induction l as [|c l IH]; intros Hn; [done|]. apply not_elem_of_cons in Hn as [Hc Hn]. cbn.
  rewrite (proj2 (Z.eqb_neq c 10)) by congruence. by rewrite IH.
Qed.
Lemma split_nl_tail l : 10 ∉ l → split_nl l = [l].
Proof.
  induction l as [|c l IH]; intros Hn; [done|]. apply not_elem_of_cons in Hn as [Hc Hn]. cbn.
  rewrite (proj2 (Z.eqb_neq c 10)) by congruence. by rewrite IH.
Qed.
Lemma split_nl_lines ops torn : Forall P ops → 10 ∉ torn → split_nl (lines ops ++ torn) = (enc <$> ops) ++ [torn].
Proof.
  intros HP Ht. induction HP as [|op ops Hop HP IH]; [by apply split_nl_tail|]. unfold FsOutbox.lines, FsOutbox.line in *. cbn.
  rewrite <-!(assoc_L (++)). cbn. rewrite split_nl_line by by apply (co_text _ _ _ _ Hcodec op). by rewrite IH.
Qed.

(** Reading whole lines, then a torn one or nothing. *)
Lemma open_lines_spec ops torn a : Forall P ops → op_cut a = None →
  let a' := open_lines (bool_decide (torn = [])) ((enc <$> ops) ++ [torn]) a in
  op_state a' = applyOps (op_state a) ops ∧ op_bad a' = op_bad a ∧
  op_count a' = op_count a + Z.of_nat (length ops) ∧
  op_cut a' = (if bool_decide (torn = []) then None else Some (op_valid a + length (lines ops)))%nat.
Proof.
  intros HP. revert a. induction HP as [|op ops Hop HP IH]; intros a Ha.
  - cbn. destruct torn as [|c t]; [rewrite bool_decide_true by done; cbn; split_and!; [done|done|lia|done]|].
    rewrite bool_decide_false by done. cbn. split_and!; [done|done|lia|f_equal; lia].
  - cbn [fmap list_fmap app FsOutbox.open_lines]. destruct (co_text _ _ _ _ Hcodec op Hop) as [Hnl Hne].
    assert (El : (match (enc <$> ops) ++ [torn] with [] => true | _ => false end) = false) by (by destruct (enc <$> ops)).
    rewrite El. unfold open_line at 1 2 3 4. destruct (enc op) as [|c l] eqn:E; [done|]. rewrite <-E. cbn [andb].
    rewrite (co_dec _ _ _ _ Hcodec op Hop), (co_length _ _ _ _ Hcodec op Hop).
    set (a1 := {| op_state := _; op_count := _; op_valid := _; op_bad := _; op_cut := _ |}).
    destruct (IH a1 Ha) as (H1 & H2 & H3 & H4). rewrite H1, H2, H3, H4. cbn [op_state op_count op_bad op_valid a1]. split_and!; [done|done| |].
    + rewrite length_cons. lia.
    + unfold FsOutbox.lines, FsOutbox.line. cbn. rewrite !length_app. cbn. case_bool_decide; [done|]. f_equal. lia.
Qed.

Lemma last_newline ops torn : Forall P ops → 10 ∉ torn → lines ops ++ torn ≠ [] → bool_decide (last (lines ops ++ torn) = Some 10) = bool_decide (torn = []).
Proof.
  intros HP Ht Hne. apply bool_decide_ext. destruct (decide (torn = [])) as [->|Hn].
  - rewrite app_nil_r in *. split; [done|]. intros _. destruct ops as [|op ops _] using rev_ind; [done|].
    unfold FsOutbox.lines, FsOutbox.line. rewrite fmap_app, concat_app. cbn. rewrite app_nil_r, (assoc_L (++)). apply last_snoc.
  - split; [|done]. intros Hl. destruct torn as [|x t _] using rev_ind; [done|]. rewrite (assoc_L (++)), last_snoc in Hl. simplify_eq.
    destruct Ht. apply elem_of_app. right. left.
Qed.

Lemma read_journal_spec ops torn : Forall P ops → 10 ∉ torn →
  let o := read_journal (lines ops ++ torn) in
  op_state o = applyOps memoryOutbox ops ∧ op_bad o = [] ∧ op_count o = Z.of_nat (length ops) ∧
  op_cut o = (if bool_decide (torn = []) then None else Some (length (lines ops))).
Proof.
  intros HP Ht. destruct (decide (lines ops ++ torn = [])) as [E|Hne].
  - apply app_nil in E as [E ->]. destruct ops as [|op ops]; [done|]. unfold FsOutbox.lines, FsOutbox.line in E. cbn in E.
    by destruct (enc op).
  - unfold FsOutbox.read_journal. rewrite last_newline by done. assert (Em : ∀ raw, raw ≠ [] → match raw with [] => [] | _ => split_nl raw end = split_nl raw) by (by intros []).
    rewrite Em by done. rewrite split_nl_lines by done. set (a := {| op_state := memoryOutbox |}).
    by destruct (open_lines_spec ops torn a HP eq_refl) as (H1 & H2 & H3 & H4).
Qed.

(** What a new instance makes of whole lines and a torn one. *)
Lemma openOnce_spec ops torn bad : Forall P ops → 10 ∉ torn →
  let f := openOnce (lines ops ++ torn) bad in
  fs_state f = applyOps memoryOutbox ops ∧ fs_acked f = fs_state f ∧ fs_file f = lines ops ∧ fs_synced f = length (lines ops) ∧
  fs_quarantine f = bad ∧ fs_pending f = [] ∧ fs_dead f = false ∧
  (fs_phase f = FIdle ∨ fs_phase f = FCompact [] (snapshot enc (fs_state f))).
Proof.
  intros HP Ht. destruct (read_journal_spec ops torn HP Ht) as (H1 & H2 & H3 & H4). unfold FsOutbox.openOnce. cbn.
  rewrite H1, H2, H3, H4. assert (Ef : match (if bool_decide (torn = []) then None else Some (length (lines ops))) with
    | Some n => resize n 0 (lines ops ++ torn) | None => lines ops ++ torn end = lines ops).
  { case_bool_decide as E; [subst torn; apply app_nil_r|]. by rewrite resize_app_le, resize_all by lia. }
  rewrite Ef, app_nil_r. split_and!; try done. destruct (_ <? _); [by right|by left].
Qed.

(** Cutting a journal anywhere leaves whole lines and at most one torn line. *)
Lemma take_lines ops n : Forall P ops → ∃ k torn, take n (lines ops) = lines (take k ops) ++ torn ∧ 10 ∉ torn.
Proof.
  intros HP. revert n. induction HP as [|op ops Hop HP IH]; intros n; [exists 0%nat, []; split; [by destruct n|apply not_elem_of_nil]|].
  destruct (co_text _ _ _ _ Hcodec op Hop) as [Hnl _]. unfold FsOutbox.lines in *. cbn.
  destruct (decide (n ≤ length (enc op))%nat) as [Hle|Hgt].
  - exists 0%nat, (take n (enc op)). cbn. unfold FsOutbox.line. rewrite <-(assoc_L (++)), take_app_le by done. split; [done|].
    intros Hin. destruct Hnl. rewrite <-(take_drop n (enc op)). apply elem_of_app. by left.
  - destruct (IH (n - length (line op))%nat) as (k & torn & E & Ht). exists (S k), torn. cbn. split; [|done].
    rewrite take_app, E. rewrite take_ge by (unfold FsOutbox.line; rewrite length_app; cbn; lia). by rewrite (assoc_L (++)).
Qed.
Lemma take_journal ops ops' n : Forall P ops → Forall P ops' → ∃ k torn,
  take (length (lines ops) `max` n) (lines (ops ++ ops')) = lines (ops ++ take k ops') ++ torn ∧ 10 ∉ torn.
Proof.
  intros HP HP'. destruct (take_lines ops' (n - length (lines ops)) HP') as (k & torn & E & Ht). exists k, torn. split; [|done].
  unfold FsOutbox.lines in *. rewrite !fmap_app, !concat_app, take_app, take_ge by lia.
  replace (_ `max` n - _)%nat with (n - length (concat (line <$> ops)))%nat by lia. rewrite E. by rewrite (assoc_L (++)).
Qed.

(** *** The invariant of the journal *)
Definition batch_of (f : Fs) : list JournalOp :=
  match fs_phase f with FIdle => [] | FWrite b | FSync b | FCompact b _ => b end.
(** The operations whose promise has not resolved. *)
Definition unacked (f : Fs) : list JournalOp := batch_of f ++ fs_pending f.

Definition rows_after (ops : list JournalOp) (f : Fs) (p : list JournalOp) : Prop :=
  same_rows (applyOps memoryOutbox ops) (applyOps (fs_acked f) p).

(** The synced lines replay to the acknowledged rows with a prefix [p] of the unacknowledged operations applied, as a
    compaction may have caught some of them. *)
Definition disk_inv (f : Fs) : Prop := ∃ base n, Forall P base ∧ fs_file f = lines base ++ take n (lines (batch_of f)) ∧
  fs_synced f = length (lines base) ∧
  match fs_phase f with
  | FIdle => n = 0%nat ∧ ∃ p, p `prefix_of` fs_pending f ∧ rows_after base f p
  | FWrite b => (fs_dead f = false → n = 0%nat) ∧ ∃ p, p `prefix_of` b ∧ rows_after base f p
  | FSync b => take n (lines b) = lines b ∧ ∃ p, p `prefix_of` b ∧ rows_after base f p
  | FCompact b snap => n = 0%nat ∧ (∃ p, p `prefix_of` fs_pending f ∧ rows_after base f (b ++ p)) ∧
      ∃ sops, Forall P sops ∧ snap = lines sops ∧ ∃ p, p `prefix_of` fs_pending f ∧ rows_after sops f (b ++ p)
  end.

Definition journalable (s : OutboxStorage) : Prop :=
  (∀ c q e, stored s c q = Some e → P (JoAppend e)) ∧ (∀ c m, getMeta s c = Some m → P (JoMeta c m)).

Record fs_inv (f : Fs) : Prop := {
  fi_state : outbox_ok (fs_state f);
  fi_acked : outbox_ok (fs_acked f);
  fi_ops : Forall P (unacked f);
  fi_rows : journalable (fs_state f);
  fi_ahead : same_rows (fs_state f) (applyOps (fs_acked f) (unacked f));
  fi_disk : disk_inv f }.

Lemma journalable_applyOp s op : outbox_ok s → journalable s → P op → journalable (applyOp s op).
Proof.
  intros Hs [H1 H2] Hop. split.
  - intros c q e. rewrite stored_applyOp by done. destruct op as [e'|c' q' st err|c' q'|c' m|c'|]; cbn [op_entry]; try apply H1.
    + case_decide; [intros [= <-]; done|apply H1].
    + case_decide; [|apply H1]. destruct (stored s c q) as [e0|] eqn:E; [|done]. intros [= <-]. eapply (co_restatus _ _ _ _ Hcodec); [by eapply H1|done].
    + case_decide; [done|apply H1].
  - intros c m. rewrite meta_applyOp by done. destruct op as [e'|c' q' st err|c' q'|c' m'|c'|]; cbn [op_meta]; try apply H2.
    + case_decide; [intros [= <-]; by subst|apply H2].
    + case_decide; [done|apply H2].
Qed.
Lemma journalable_applyOps ops s : outbox_ok s → journalable s → Forall P ops → journalable (applyOps s ops).
Proof.
  revert s. induction ops as [|op ops IH]; intros s Hs Hj HP; [done|]. apply Forall_cons in HP as [Hop HP].
  apply IH; [by apply applyOp_ok|by apply journalable_applyOp|done].
Qed.
Lemma journalable_rows s s' : same_rows s s' → journalable s → journalable s'.
Proof. intros [E1 E2] [H1 H2]. split; intros; [eapply H1; by rewrite E1|apply H2; by rewrite E2]. Qed.
Lemma journalable_nil : journalable memoryOutbox.
Proof. by split. Qed.

Lemma snapshot_journalable s : outbox_ok s → journalable s → Forall P (snapshot_ops s).
Proof.
  intros Hs [H1 H2]. apply Forall_app. split; apply Forall_forall; intros op Hop%list_elem_of_In.
  - apply in_map_iff in Hop as ([c m] & <- & Hin). cbn. apply H2. apply jm_get_elem; [apply Hs|by apply list_elem_of_In].
  - apply in_map_iff in Hop as (e & <- & Hin). apply list_elem_of_In in Hin. apply elem_of_sort_by, elem_of_values in Hin; [|done]. by eapply H1.
Qed.

Lemma prefix_replay s p b : outbox_ok s → p `prefix_of` b → same_rows (applyOps (applyOps s p) b) (applyOps s b).
Proof.
  intros Hs [q ->]. rewrite !applyOps_app. apply same_rows_applyOps; [by repeat apply applyOps_ok|by apply applyOps_ok|by apply applyOps_idem].
Qed.

(** *** Steps *)
Lemma journal_inv f op : fs_inv f → P op → fs_inv (journal f op).
Proof.
  intros [H1 H2 H3 H4 H5 H6] Hop. set (f' := journal f op). assert (Eu : unacked f' = unacked f ++ [op]) by (unfold unacked; symmetry; rewrite <-(assoc_L (++)); done).
  split; cbn.
  - by apply applyOp_ok.
  - done.
  - rewrite Eu. apply Forall_app. by split; [|apply Forall_singleton].
  - by apply journalable_applyOp.
  - rewrite Eu, applyOps_app. apply (same_rows_applyOps [op]); [done|by apply applyOps_ok|done].
  - destruct H6 as (base & n & HP & Ef & Es & Hph). exists base, n. split_and!; try done. cbn [fs_phase journal write with_fstate].
    assert (Hpre : ∀ p, p `prefix_of` fs_pending f → p `prefix_of` fs_pending f ++ [op]) by (intros p; by apply prefix_app_r).
    cbn. destruct (fs_phase f) as [|b|b|b snap]; [|done|done|].
    + destruct Hph as (Hn & p & Hp & Hr). split; [done|]. exists p. split; [by apply Hpre|done].
    + destruct Hph as (Hn & (p & Hp & Hr) & sops & Hs & E & p' & Hp' & Hr'). split; [done|]. split.
      * exists p. split; [by apply Hpre|done].
      * exists sops. split_and!; [done..|]. exists p'. split; [by apply Hpre|done].
Qed.

Lemma journals_inv ops f : fs_inv f → Forall P ops → fs_inv (fold_left journal ops f).
Proof. intros Hf HP. revert f Hf. induction HP as [|op ops Hop HP IH]; intros f Hf; [done|]. by apply IH, journal_inv. Qed.

Lemma load_inv f : fs_inv f → fs_inv (fs_loadAll f).1.
Proof.
  intros Hf. cbn. set (es := List.filter _ _). assert (E : ∀ es f, fold_left (λ f e, journal f (JoDequeue (ob_clientId e) (ob_seq e))) es f =
    fold_left journal (List.map (λ e, JoDequeue (ob_clientId e) (ob_seq e)) es) f) by (clear; induction es as [|e es IH]; intros f; [done|apply IH]).
  rewrite E. apply journals_inv; [done|]. apply Forall_forall. intros op (e & <- & Hin)%list_elem_of_In%in_map_iff.
  apply (co_dequeue _ _ _ _ Hcodec). apply List.filter_In in Hin as [Hin _]. apply list_elem_of_In, elem_of_sort_by, elem_of_values in Hin; [|apply Hf].
  by eapply (fi_rows _ Hf).
Qed.

(** Only the file, the phase and the acknowledged rows of an instance matter for these. *)
Lemma snapshot_after f b : fs_inv f → b ++ fs_pending f = unacked f →
  ∃ sops, Forall P sops ∧ snapshot enc (fs_state f) = lines sops ∧ ∃ p, p `prefix_of` fs_pending f ∧ rows_after sops f (b ++ p).
Proof.
  intros Hf Eu. exists (snapshot_ops (fs_state f)). split_and!; [apply snapshot_journalable; apply Hf|done|].
  exists (fs_pending f). split; [done|]. unfold rows_after. rewrite Eu. transitivity (fs_state f); [apply snapshot_rows, Hf|apply Hf].
Qed.

Lemma relink_inv f f' : fs_inv f → fs_state f' = fs_state f → fs_acked f' = fs_acked f → unacked f' = unacked f → disk_inv f' → fs_inv f'.
Proof. intros [H1 H2 H3 H4 H5 H6] E1 E2 E3 H. by split; rewrite ?E1, ?E2, ?E3. Qed.
(** Acknowledging the batch. *)
Lemma ack_inv f f' : fs_inv f → fs_state f' = fs_state f → fs_acked f' = applyOps (fs_acked f) (batch_of f) → unacked f' = fs_pending f →
  disk_inv f' → fs_inv f'.
Proof.
  intros [H1 H2 H3 H4 H5 H6] E1 E2 E3 H. apply Forall_app in H3 as [_ H3].
  split; rewrite ?E1, ?E2, ?E3; [done|by apply applyOps_ok|done|done| |done]. by rewrite <-applyOps_app.
Qed.

Lemma disk_step_inv f : fs_inv f → fs_inv (disk_step f).
Proof.
  intros Hf. unfold FsOutbox.disk_step. destruct (fs_dead f) eqn:Edead; [done|].
  pose proof Hf as [H1 H2 H3 H4 H5 (base & n & HP & Ef & Es & Hph)].
  destruct (fs_phase f) as [|b|b|b snap] eqn:Eph.
  - assert (Eb : batch_of f = []) by (unfold batch_of; by rewrite Eph). destruct Hph as (-> & p & Hp & Hr). rewrite take_0, app_nil_r in Ef.
    assert (Eu : unacked f = fs_pending f) by (unfold unacked; by rewrite Eb). destruct (fs_tail f) as [|[|] tail]; [done| |].
    + destruct (fs_pending f) as [|op ops] eqn:Epend.
      * apply (relink_inv f); [done..|by rewrite Eu|].
        exists base, 0%nat. rewrite take_0, app_nil_r. split_and!; try done. cbn. split; [done|]. by exists p.
      * assert (Hgo : ∀ cl dd, fs_inv (with_link f [] false tail (FWrite (op :: ops)) cl dd)).
        { intros cl dd. apply (relink_inv f); [done..| |].
          - rewrite Eu. apply app_nil_r.
          - exists base, 0%nat. rewrite take_0, app_nil_r. split_and!; try done. cbn. split; [done|]. by exists p. }
        destruct (fs_closed f); apply Hgo.
    + apply (relink_inv f); [done|done|done|rewrite Eu; by destruct (_ <? _)|].
      exists base, 0%nat. rewrite take_0, app_nil_r. split_and!; try done. cbn. destruct (_ <? _); (split; [done|]); [|by exists p].
      split; [by exists p|]. apply (snapshot_after f [] Hf). by rewrite Eu.
  - assert (Eb : batch_of f = b) by (unfold batch_of; by rewrite Eph). destruct Hph as (Hn & p & Hp & Hr). rewrite (Hn Edead), take_0, app_nil_r in Ef.
    apply (relink_inv f); [done..|unfold unacked; by rewrite Eb|].
    exists base, (length (lines b)). cbn. split_and!; [done|rewrite take_ge by done; by rewrite Ef|done|by apply take_ge|by exists p].
  - assert (Eb : batch_of f = b) by (unfold batch_of; by rewrite Eph). destruct Hph as (Hn & p & Hp & Hr). rewrite Eb, Hn in Ef.
    assert (Hb : Forall P b) by (rewrite <-Eb; by apply Forall_app in H3 as [? _]).
    assert (El : lines base ++ lines b = lines (base ++ b)) by (unfold FsOutbox.lines; by rewrite fmap_app, concat_app).
    assert (HP' : Forall P (base ++ b)) by by apply Forall_app.
    assert (Hr' : same_rows (applyOps memoryOutbox (base ++ b)) (applyOps (fs_acked f) b)).
    { rewrite applyOps_app. transitivity (applyOps (applyOps (fs_acked f) p) b); [|by apply prefix_replay].
      apply same_rows_applyOps; [apply applyOps_ok, memoryOutbox_ok|by apply applyOps_ok|done]. }
    destruct (_ <? _).
    + apply (relink_inv f); [done..|unfold unacked; by rewrite Eb|].
      exists (base ++ b), 0%nat. cbn. rewrite take_0, app_nil_r, <-El, <-Ef. split_and!; [done|done|done|done| |].
      * exists []. split; [apply prefix_nil|]. unfold rows_after. by rewrite app_nil_r.
      * apply (snapshot_after f b Hf). unfold unacked. by rewrite Eb.
    + apply (ack_inv f); [done|done|by rewrite Eb|done|].
      exists (base ++ b), 0%nat. cbn. rewrite app_nil_r, <-El, <-Ef. split_and!; [done..|]. exists []. split; [apply prefix_nil|done].
  - assert (Eb : batch_of f = b) by (unfold batch_of; by rewrite Eph). destruct Hph as (Hn & _ & sops & Hs & -> & p & Hp & Hr).
    apply (ack_inv f); [done|done|by rewrite Eb|done|].
    exists sops, 0%nat. cbn. rewrite app_nil_r. split_and!; [done..|]. exists p. split; [done|]. unfold rows_after. cbn. by rewrite <-applyOps_app.
Qed.

Lemma compact_failed_inv f : fs_inv f → fs_inv (compact_failed f).
Proof.
  intros Hf. unfold compact_failed. destruct (fs_phase f) as [|b|b|b snap] eqn:Eph; try done.
  assert (Eb : batch_of f = b) by (unfold batch_of; by rewrite Eph).
  destruct (fi_disk _ Hf) as (base & n & HP & Ef & Es & Hph). rewrite Eph in Hph. destruct Hph as (-> & (p & Hp & Hr) & _).
  apply (ack_inv f); [done|done|by rewrite Eb|done|]. exists base, 0%nat. cbn. rewrite take_0 in Ef. split_and!; [done..|].
  exists p. split; [done|]. unfold rows_after. cbn. by rewrite <-applyOps_app.
Qed.

Lemma disk_failed_inv f m : fs_inv f → fs_inv (disk_failed enc f m).
Proof.
  intros Hf. unfold disk_failed. destruct (fs_dead f) eqn:Hd; [done|]. destruct (fs_phase f) as [|b|b|b snap] eqn:Eph; try done;
    (assert (Eb : batch_of f = b) by (unfold batch_of; by rewrite Eph)); destruct (fi_disk _ Hf) as (base & n & HP & Ef & Es & Hph); rewrite Eph in Hph;
    destruct Hph as (Hn & p & Hp & Hr); (apply (relink_inv f); [done..|unfold unacked; by rewrite Eb|]).
  - rewrite (Hn Hd), take_0, app_nil_r in Ef. exists base, m. cbn. split_and!; [done|by rewrite Ef|done|done|by exists p].
  - exists base, n. cbn. rewrite Eb in Ef. split_and!; [done..|by exists p].
Qed.

Lemma openOnce_inv ops torn bad : Forall P ops → 10 ∉ torn → fs_inv (openOnce (lines ops ++ torn) bad).
Proof.
  intros HP Ht. destruct (openOnce_spec ops torn bad HP Ht) as (E1 & E2 & E3 & E4 & E5 & E6 & E7 & E8). set (f := openOnce _ _) in *.
  assert (Hok : outbox_ok (fs_state f)) by (rewrite E1; apply applyOps_ok, memoryOutbox_ok).
  assert (Hj : journalable (fs_state f)) by (rewrite E1; apply journalable_applyOps; [apply memoryOutbox_ok|apply journalable_nil|done]).
  assert (Eu : unacked f = []) by (unfold unacked, batch_of; rewrite E6; by destruct E8 as [-> | ->]).
  split; rewrite ?E2, ?Eu; try done. exists ops, 0%nat. rewrite take_0, app_nil_r. split_and!; try done.
  destruct E8 as [-> | ->]; (split; [done|]).
  - exists []. split; [apply prefix_nil|]. unfold rows_after. by rewrite E2, E1.
  - split; [exists []; split; [apply prefix_nil|unfold rows_after; by rewrite E2, E1]|]. exists (snapshot_ops (fs_state f)).
    split_and!; [by apply snapshot_journalable|done|]. exists []. split; [apply prefix_nil|]. unfold rows_after. rewrite E2. by apply snapshot_rows.
Qed.

(** What a crash leaves on disk: the synced lines, some of the batch that was being written, and a torn line. *)
Lemma crash_file f n : fs_inv f → ∃ base k torn, Forall P (base ++ take k (batch_of f)) ∧ 10 ∉ torn ∧
  take (fs_synced f `max` n) (fs_file f) = lines (base ++ take k (batch_of f)) ++ torn ∧
  ∃ p, p `prefix_of` unacked f ∧ rows_after base f p.
Proof.
  intros Hf. destruct (fi_disk _ Hf) as (base & m & HP & Ef & Es & Hph). pose proof (fi_ops _ Hf) as [Hb _]%Forall_app.
  assert (Hpre : ∃ p, p `prefix_of` unacked f ∧ rows_after base f p).
  { unfold unacked, batch_of. destruct (fs_phase f) as [|b|b|b snap].
    - destruct Hph as (_ & p & Hp & Hr). by exists p.
    - destruct Hph as (_ & p & Hp & Hr). exists p. split; [by apply prefix_app_r|done].
    - destruct Hph as (_ & p & Hp & Hr). exists p. split; [by apply prefix_app_r|done].
    - destruct Hph as (_ & (p & Hp & Hr) & _). exists (b ++ p). split; [by apply prefix_app|done]. }
  rewrite Ef, Es. rewrite take_app, take_ge by lia.
  replace (length (lines base) `max` n - length (lines base))%nat with (n - length (lines base))%nat by lia.
  rewrite take_take. destruct (take_lines (batch_of f) ((n - length (lines base)) `min` m) Hb) as (k & torn & -> & Ht).
  exists base, k, torn. split_and!; [by apply Forall_app; split; [|by apply Forall_take]|done| |done].
  unfold FsOutbox.lines. by rewrite fmap_app, concat_app, (assoc_L (++)).
Qed.

Lemma crash_inv f n : fs_inv f → fs_inv (crash enc dec byteLength f n).
Proof. intros Hf. destruct (crash_file f n Hf) as (base & k & torn & HP & Ht & E & _). unfold crash. rewrite E. by apply openOnce_inv. Qed.

Definition fallowed (ev : fevent) : Prop :=
  match ev with
  | FeAppend e => P (JoAppend e)
  | FeStatus c q st err => P (JoStatus c q st err)
  | FeDequeue c q => P (JoDequeue c q)
  | FeMeta c m => P (JoMeta c m)
  | FeMetaDelete c => P (JoMetaDelete c)
  | _ => True
  end.

Lemma fstep_inv f ev : fs_inv f → fallowed ev → fs_inv (fstep f ev).
Proof.
  intros Hf Ha. destruct ev as [e|c q st err|c q|c m|c| | | | |n|n]; cbn [FsOutbox.fstep].
  - by apply journal_inv.
  - unfold fs_updateStatus. destruct (jm_has _ _); [by apply journal_inv|done].
  - unfold fs_dequeue. destruct (jm_has _ _); [by apply journal_inv|done].
  - by apply journal_inv.
  - by apply journal_inv.
  - by apply load_inv.
  - apply (relink_inv f); try done. apply Hf.
  - by apply disk_step_inv.
  - by apply compact_failed_inv.
  - by apply disk_failed_inv.
  - by apply crash_inv.
Qed.

Inductive freachable : Fs → Prop :=
  | freach_new : freachable (openOnce [] [])
  | freach_step f ev : freachable f → fallowed ev → freachable (fstep f ev).

Lemma freachable_inv f : freachable f → fs_inv f.
Proof.
  induction 1 as [|f ev _ IH Ha]; [|by apply fstep_inv]. apply (openOnce_inv [] []); [constructor|apply not_elem_of_nil].
Qed.

(** C28: The file-system outbox loses no acknowledged write. However operations, flushes, compactions, disk failures
    and crashes interleave, and wherever a crash cuts the bytes written since the last sync, the instance that reopens the
    journal holds, for every reference and every meta row that no unresolved operation concerns, what the acknowledged
    operations made of it, which is also what the crashed instance showed; it quarantines no line. *)
Theorem fs_recovery f n : freachable f → let f' := crash enc dec byteLength f n in
  fs_quarantine f' = fs_quarantine f ∧
  (∀ c q, Forall (λ op, concerns c q op = false) (unacked f) →
     stored (fs_state f') c q = stored (fs_acked f) c q ∧ stored (fs_state f) c q = stored (fs_acked f) c q) ∧
  (∀ c, Forall (λ op, concerns_meta c op = false) (unacked f) →
     getMeta (fs_state f') c = getMeta (fs_acked f) c ∧ getMeta (fs_state f) c = getMeta (fs_acked f) c).
Proof.
  intros Hf%freachable_inv. destruct (crash_file f n Hf) as (base & k & torn & HP & Ht & E & p & Hp & [R1 R2]). unfold crash. cbv zeta. rewrite E.
  destruct (openOnce_spec _ torn (fs_quarantine f) HP Ht) as (E1 & _ & _ & _ & -> & _). rewrite E1, applyOps_app.
  pose proof (fi_acked _ Hf) as Ha. destruct (fi_ahead _ Hf) as [A1 A2]. pose proof (applyOps_ok _ base memoryOutbox_ok) as Hb.
  assert (Hsub : ∀ Q, Forall Q (unacked f) → Forall Q p ∧ Forall Q (take k (batch_of f))).
  { intros Q HQ. destruct Hp as [r Hr]. split; [rewrite Hr in HQ; by apply Forall_app in HQ as [? _]|].
    apply Forall_app in HQ as [HQ _]. by apply Forall_take. }
  split; [done|]. split; intros.
  - apply Hsub in H as H'. destruct H' as [Hp' Hk]. rewrite stored_applyOps by done. rewrite untouched by done. rewrite R1, A1, !stored_applyOps by done.
    by rewrite !untouched.
  - apply Hsub in H as H'. destruct H' as [Hp' Hk]. rewrite meta_applyOps by done. rewrite untouched_meta by done. rewrite R2, A2, !meta_applyOps by done.
    by rewrite !untouched_meta.
Qed.
End recovery.

(** ** A run *)
Definition row (q : Z) (st : OutboxEntryStatus) : OutboxEntry :=
  {| ob_clientId := js "c"; ob_seq := q; ob_requestId := js "1"; ob_udfPath := js "m:f"; ob_args := JNull;
     ob_seed := {| entropy := []; seed_now := 0 |}; ob_order := q; ob_status := st; ob_identityFingerprint := None;
     ob_outboxVersion := OUTBOX_VERSION; ob_enqueuedAt := 0; ob_error := None |}.

(** A line code for the operations of the run: a tag for the operation and its seq. *)
Definition demo_enc (op : JournalOp) : bytes :=
  match op with
  | JoAppend e => [match ob_status e with OUnsent => 65 | _ => 66 end; 48 + ob_seq e]
  | JoStatus _ q _ _ => [83; 48 + q]
  | JoDequeue _ q => [68; 48 + q]
  | _ => [79]
  end.
Definition demo_dec (l : bytes) : option JournalOp :=
  match l with
  | [65; x] => Some (JoAppend (row (x - 48) OUnsent))
  | [66; x] => Some (JoAppend (row (x - 48) OInflight))
  | [83; x] => Some (JoStatus (js "c") (x - 48) OInflight None)
  | [68; x] => Some (JoDequeue (js "c") (x - 48))
  | _ => None
  end.
Inductive demo_op : JournalOp → Prop :=
  | demo_append q : 0 ≤ q → demo_op (JoAppend (row q OUnsent))
  | demo_resent q : 0 ≤ q → demo_op (JoAppend (row q OInflight))
  | demo_status q : 0 ≤ q → demo_op (JoStatus (js "c") q OInflight None)
  | demo_dequeue q : 0 ≤ q → demo_op (JoDequeue (js "c") q).

Lemma demo_codec : codec demo_enc demo_dec length demo_op.
Proof.
  split.
  - intros op [q|q|q|q]; cbn -[Z.add Z.sub]; intros; do 3 f_equal; lia.
  - intros op [q|q|q|q]; cbn -[Z.add]; intros; (split; [|done]); rewrite !not_elem_of_cons; (split_and!; [lia|lia|apply not_elem_of_nil]).
  - done.
  - intros e c q st err H1 H2. inversion H2; subst; clear H2. inversion H1; subst; by apply demo_resent.
  - intros e H. inversion H; subst; by apply demo_dequeue.
Qed.

(** Two records are appended and flushed; the first is then taken off the queue, and the crash cuts its line. *)
Abbreviation demo_run := [FeAppend (row 0 OUnsent); FeAppend (row 1 OUnsent); FeDisk; FeDisk; FeDisk; FeDequeue (js "c") 0; FeDisk; FeDisk].
Abbreviation demo_fs := (frun demo_enc demo_dec length true (openOnce demo_enc demo_dec length [] []) demo_run).

Lemma fs_recovery_witness :
  stored (fs_state (crash demo_enc demo_dec length demo_fs 7)) (js "c") 1 = Some (row 1 OUnsent) ∧
  stored (fs_state demo_fs) (js "c") 0 = None ∧ length (fs_file demo_fs) = 9%nat ∧
  stored (fs_state (crash demo_enc demo_dec length demo_fs 7)) (js "c") 0 = Some (row 0 OUnsent).
Proof.
  split; [|vm_compute; by split_and!].
  assert (Hr : freachable demo_enc demo_dec length demo_op demo_fs).
  { cbn [frun fold_left]. repeat apply freach_step; try exact I; [apply freach_new|by apply demo_append|by apply demo_append|by apply demo_dequeue]. }
  destruct (fs_recovery demo_enc demo_dec length demo_op demo_codec demo_fs 7 Hr) as (_ & H & _).
  destruct (H (js "c") 1) as [-> _]; [vm_compute; repeat constructor|]. vm_compute. reflexivity.
Defined.

(** The cut of a torn tail is placed by the length of the decoded text. A corrupt line that is not UTF-8 decodes to
    replacement characters, which are longer than the bytes they stand for: the cut then keeps bytes of the torn tail, the next
    operation is written behind them, and the line that glues them is quarantined at the next opening although its write was acknowledged. *)
Definition replaced_length (l : bytes) : nat := sum_list_with (λ c, if 128 <=? c then 3%nat else 1%nat) l.

Lemma misplaced_cut_loses_acknowledged_write :
  let corrupt := [255; 10; 65] in
  let f := openOnce demo_enc demo_dec replaced_length corrupt [] in
  let f' := frun demo_enc demo_dec replaced_length true f [FeAppend (row 1 OUnsent); FeDisk; FeDisk; FeDisk] in
  unacked f' = [] ∧ stored (fs_acked f') (js "c") 1 = Some (row 1 OUnsent) ∧
  stored (fs_state (crash demo_enc demo_dec replaced_length f' 0)) (js "c") 1 = None.
Proof. vm_compute. by split_and!. Qed.
