(* ===== verification/OutboxClient.v ===== *)
(** The client with a durable outbox: the outbox paths of [packages/client/src/client.ts] and the drain of
    [packages/client/src/outbox-drain.ts]. What the client does without one is in [Client]; its state is the field [base] here. The
    store is a [memoryOutbox] other tabs may share. A continuation of a promise or a microtask is a pending job, and any pending job may run next: the
    theorems hold for every order the event loop can choose. A lock request is granted when the job that takes the lead runs. The digest of a
    token, the clock and the minted client ids are arguments. *)
From S2P Require Import Prelude Numbers Values Json IndexKeys Ranges DocStore QueryEngine Subscriptions DiffSync SessionFlow ClientStore Reconciler Client ExactlyOnce Outbox.

(** ** The drain's own state *)
Record Drain := {
  started : bool; leader : bool; stopped : bool; paused : bool; hydrated : bool;
  active : option (list (jsstr * PendingMutation)); flushScheduling : bool; transientAttempts : Z; intervalOn : bool;
  backoffTimers : list nat;     (** the backoff timers that have not fired *)
  backoffTimer : option nat;    (** the one [stop] and [onTransportClosed] can clear *)
  nextTimer : nat }.
Definition new_Drain : Drain :=
  {| started := false; leader := false; stopped := false; paused := false; hydrated := false; active := None; flushScheduling := false;
     transientAttempts := 0; intervalOn := false; backoffTimers := []; backoffTimer := None; nextTimer := 0 |}.

Definition with_flags (d : Drain) (st le sp pa hy : bool) : Drain :=
  {| started := st; leader := le; stopped := sp; paused := pa; hydrated := hy; active := active d; flushScheduling := flushScheduling d;
     transientAttempts := transientAttempts d; intervalOn := intervalOn d; backoffTimers := backoffTimers d; backoffTimer := backoffTimer d; nextTimer := nextTimer d |}.
Definition with_active (d : Drain) (a : option (list (jsstr * PendingMutation))) : Drain :=
  {| started := started d; leader := leader d; stopped := stopped d; paused := paused d; hydrated := hydrated d; active := a;
     flushScheduling := flushScheduling d; transientAttempts := transientAttempts d; intervalOn := intervalOn d;
     backoffTimers := backoffTimers d; backoffTimer := backoffTimer d; nextTimer := nextTimer d |}.
Definition with_pace (d : Drain) (fs : bool) (n : Z) (iv : bool) : Drain :=
  {| started := started d; leader := leader d; stopped := stopped d; paused := paused d; hydrated := hydrated d; active := active d;
     flushScheduling := fs; transientAttempts := n; intervalOn := iv;
     backoffTimers := backoffTimers d; backoffTimer := backoffTimer d; nextTimer := nextTimer d |}.
Definition with_timer (d : Drain) (ts : list nat) (h : option nat) (n : nat) : Drain :=
  {| started := started d; leader := leader d; stopped := stopped d; paused := paused d; hydrated := hydrated d; active := active d;
     flushScheduling := flushScheduling d; transientAttempts := transientAttempts d; intervalOn := intervalOn d;
     backoffTimers := ts; backoffTimer := h; nextTimer := n |}.
(** [clearTimeout(this.backoffTimer); this.backoffTimer = undefined] *)
Definition clear_backoff (d : Drain) : Drain :=
  match backoffTimer d with
  | Some t => with_timer d (filter (λ x, x ≠ t) (backoffTimers d)) None (nextTimer d)
  | None => d
  end.

Inductive OutboxBroadcastMessage :=
  | BEnqueued
  | BSettled (clientId : jsstr) (seq commitTs : Z)
  | BFailed (clientId : jsstr) (seq : Z) (code : option jsstr) (message : jsstr).

(** What is waiting in the event loop. *)
Inductive job :=
  | JLead                                                     (** [becomeLeader], once the lock is granted *)
  | JHydrate (es : list OutboxEntry)                          (** [hydrateOnce] after [loadAll] *)
  | JPruneList (ids : list jsstr)                             (** [pruneDeadMeta] after [listMetaClientIds] *)
  | JPrune (current : jsstr) (live ids : list jsstr)          (** its loop, after a [deleteMeta] *)
  | JLeadTail                                                 (** [becomeLeader] after [hydrateOnce] *)
  | JDrain                                                    (** [nudge]'s microtask *)
  | JFlush                                                    (** [maybeDrainNext] after [whenBaselineAdopted] *)
  | JAppended (rid : jsstr)                                   (** an [append] resolved *)
  | JChanged                                                  (** another write resolved *)
  | JFingerprint (token : jsstr)                              (** [sha256Hex(token)] in [setAuth] *)
  | JUnmanaged (token : jsstr)                                (** the same in [setSessionFingerprint(null)] *)
  | JSession (key : jsstr)                                    (** [sha256Hex(key)] *)
  | JMint (n : Z)                                             (** [mintIdentity] after [getMeta] *)
  | JMinted (n : Z)                                           (** its result, in the constructor *)
  | JResetMint (fresh : jsstr) (n : Z) (dep : option jsstr) (info : jsstr * jsstr * Z * Z)
  | JResetMeta (fresh : jsstr) (info : jsstr * jsstr * Z * Z)
  | JResetDone (info : jsstr * jsstr * Z * Z)
  | JMirror (es : list OutboxEntry)                           (** [mirrorFromStore] after [loadAll] *)
  | JRefire (es : list OutboxEntry).                          (** [refireDurableFailures] after [loadAll] *)

Record Ident := {
  outboxClientId : jsstr; outboxNextSeq : Z; outboxOrderCounter : Z; outboxFingerprint : jsstr;
  sessionFingerprintKey : option jsstr }.
Record Shake := {
  outboxArmed : bool; outboxDeploymentId : option jsstr; outboxAwaitingBaseline : bool; outboxPendingDrops : list jsstr;
  baselineWaiters : nat; outboxConnectSent : bool }.
Record Obs := {
  jobs : list job; failures : list (jsstr * Z * jsstr * OutboxEntryError); posts : list OutboxBroadcastMessage;
  resets : list (jsstr * jsstr * Z * Z); mirrorInFlight : bool; mirrorRerun : bool }.
Record OClient := { base : Client; store : OutboxStorage; ident : Ident; shake : Shake; drain : Drain; obs : Obs }.

Definition on_base (o : OClient) (c : Client) : OClient :=
  {| base := c; store := store o; ident := ident o; shake := shake o; drain := drain o; obs := obs o |}.
Definition on_store (o : OClient) (s : OutboxStorage) : OClient :=
  {| base := base o; store := s; ident := ident o; shake := shake o; drain := drain o; obs := obs o |}.
Definition on_ident (o : OClient) (i : Ident) : OClient :=
  {| base := base o; store := store o; ident := i; shake := shake o; drain := drain o; obs := obs o |}.
Definition on_shake (o : OClient) (h : Shake) : OClient :=
  {| base := base o; store := store o; ident := ident o; shake := h; drain := drain o; obs := obs o |}.
Definition on_drain (o : OClient) (d : Drain) : OClient :=
  {| base := base o; store := store o; ident := ident o; shake := shake o; drain := d; obs := obs o |}.
Definition on_obs (o : OClient) (b : Obs) : OClient :=
  {| base := base o; store := store o; ident := ident o; shake := shake o; drain := drain o; obs := b |}.
Definition on_rec (o : OClient) (r : Reconciler) : OClient := on_base o (with_rec (base o) r).
Definition olog (o : OClient) : MutationLog := log (rec (base o)).

Definition with_jobs (o : OClient) (js : list job) : OClient :=
  on_obs o {| jobs := js; failures := failures (obs o); posts := posts (obs o); resets := resets (obs o);
              mirrorInFlight := mirrorInFlight (obs o); mirrorRerun := mirrorRerun (obs o) |}.
Definition push_job (j : job) (o : OClient) : OClient := with_jobs o (jobs (obs o) ++ [j]).
Definition post (m : OutboxBroadcastMessage) (o : OClient) : OClient :=
  on_obs o {| jobs := jobs (obs o); failures := failures (obs o); posts := posts (obs o) ++ [m]; resets := resets (obs o);
              mirrorInFlight := mirrorInFlight (obs o); mirrorRerun := mirrorRerun (obs o) |}.
Definition with_mirror (o : OClient) (inflight rerun : bool) : OClient :=
  on_obs o {| jobs := jobs (obs o); failures := failures (obs o); posts := posts (obs o); resets := resets (obs o);
              mirrorInFlight := inflight; mirrorRerun := rerun |}.
Definition onClientResetCallback (info : jsstr * jsstr * Z * Z) (o : OClient) : OClient :=
  on_obs o {| jobs := jobs (obs o); failures := failures (obs o); posts := posts (obs o); resets := resets (obs o) ++ [info];
              mirrorInFlight := mirrorInFlight (obs o); mirrorRerun := mirrorRerun (obs o) |}.
Definition notifyMutationFailed (c : option jsstr) (q : option Z) (path : jsstr) (err : OutboxEntryError) (o : OClient) : OClient :=
  match c, q with
  | Some c, Some q =>
      on_obs o {| jobs := jobs (obs o); failures := failures (obs o) ++ [(c, q, path, err)]; posts := posts (obs o); resets := resets (obs o);
                  mirrorInFlight := mirrorInFlight (obs o); mirrorRerun := mirrorRerun (obs o) |}
  | _, _ => o
  end.

Definition with_identity (o : OClient) (c : jsstr) (n : Z) : OClient :=
  on_ident o {| outboxClientId := c; outboxNextSeq := n; outboxOrderCounter := outboxOrderCounter (ident o);
                outboxFingerprint := outboxFingerprint (ident o); sessionFingerprintKey := sessionFingerprintKey (ident o) |}.
Definition with_order (o : OClient) (n : Z) : OClient :=
  on_ident o {| outboxClientId := outboxClientId (ident o); outboxNextSeq := outboxNextSeq (ident o); outboxOrderCounter := n;
                outboxFingerprint := outboxFingerprint (ident o); sessionFingerprintKey := sessionFingerprintKey (ident o) |}.
Definition with_fingerprint (o : OClient) (fp : jsstr) (key : option jsstr) : OClient :=
  on_ident o {| outboxClientId := outboxClientId (ident o); outboxNextSeq := outboxNextSeq (ident o);
                outboxOrderCounter := outboxOrderCounter (ident o); outboxFingerprint := fp; sessionFingerprintKey := key |}.
Definition with_shake (o : OClient) (armed : bool) (dep : option jsstr) (aw : bool) (drops : list jsstr) (w : nat) (sent : bool) : OClient :=
  on_shake o {| outboxArmed := armed; outboxDeploymentId := dep; outboxAwaitingBaseline := aw; outboxPendingDrops := drops;
                baselineWaiters := w; outboxConnectSent := sent |}.
Definition with_baseline (o : OClient) (aw : bool) (drops : list jsstr) (w : nat) : OClient :=
  with_shake o (outboxArmed (shake o)) (outboxDeploymentId (shake o)) aw drops w (outboxConnectSent (shake o)).

(** ** Writes to the store: each resolves later *)
Definition nudge (o : OClient) : OClient :=
  if stopped (drain o) || negb (leader (drain o)) then o else push_job JDrain o.
(** [notifyOutboxChange]; the listeners only read *)
Definition notifyOutboxChange (o : OClient) : OClient := post BEnqueued o.

Definition outboxDequeue (c : jsstr) (q : Z) (o : OClient) : OClient := push_job JChanged (on_store o (dequeue (store o) c q)).
Definition outboxUpdateStatus (c : jsstr) (q : Z) (st : OutboxEntryStatus) (o : OClient) : OClient :=
  push_job JChanged (on_store o (updateStatus (store o) c q st None)).
Definition outboxMarkFailed (c : jsstr) (q : Z) (message : jsstr) (code : option jsstr) (o : OClient) : OClient :=
  push_job JChanged (on_store o (updateStatus (store o) c q OFailed (Some {| oe_message := message; oe_code := code |}))).
(** The record of an entry that has its outbox fields. *)
Definition toOutboxEntry (e : PendingMutation) : OutboxEntry :=
  {| ob_clientId := default [] (clientId e); ob_seq := default 0 (seq e); ob_requestId := requestId e; ob_udfPath := pmu_udfPath e;
     ob_args := pmu_args e; ob_seed := seed e; ob_order := default 0 (m_order e);
     ob_status := match status e with Unsent => OUnsent | _ => OInflight end;
     ob_identityFingerprint := identityFingerprint e; ob_outboxVersion := OUTBOX_VERSION; ob_enqueuedAt := default 0 (enqueuedAt e);
     ob_error := None |}.
Definition outboxAppend (e : PendingMutation) (o : OClient) : OClient :=
  push_job (JAppended (requestId e)) (on_store o (append (store o) (toOutboxEntry e))).

Definition dequeueOutboxEntry (e : option PendingMutation) (o : OClient) : OClient :=
  match e with
  | Some e => match clientId e, seq e with Some c, Some q => outboxDequeue c q o | _, _ => o end
  | None => o
  end.

(** [nextOutboxOrder] *)
Definition nextOutboxOrder (now : Z) (o : OClient) : OClient * Z :=
  let n := if now <=? outboxOrderCounter (ident o) then outboxOrderCounter (ident o) + 1 else now in (with_order o n, n).

Definition resolvePending (rid : jsstr) (v : value) (o : OClient) : OClient := on_base o (settleMutation (base o) rid (Resolved v)).
Definition rejectPending (rid : jsstr) (x : Settlement) (o : OClient) : OClient := on_base o (settleMutation (base o) rid x).
Definition hadAwaiter (rid : jsstr) (o : OClient) : bool := bool_decide (rid ∈ pendingMutationCallbacks (base o)).

Definition findOutboxEntry (c : jsstr) (q : Z) (o : OClient) : option PendingMutation :=
  List.find (λ e, bool_decide (clientId e = Some c ∧ seq e = Some q)) (entriesInOrder (olog o)).

Definition osend (m : ClientMessage) (o : OClient) : OClient := on_base o (send_msg (base o) m).

(** Setting a logged entry's status and its record's. *)
Definition setStatus (e : PendingMutation) (st : MutationStatus) (rs : OutboxEntryStatus) (o : OClient) : OClient :=
  let o := on_base o (set_status (base o) (requestId e) st) in
  match clientId e, seq e with Some c, Some q => outboxUpdateStatus c q rs o | _, _ => o end.

Definition set_durable (e : PendingMutation) : PendingMutation :=
  {| requestId := requestId e; pmu_udfPath := pmu_udfPath e; pmu_args := pmu_args e; update := update e;
     seed := seed e; touched := touched e; status := status e; clientId := clientId e; seq := seq e; m_order := m_order e;
     identityFingerprint := identityFingerprint e; enqueuedAt := enqueuedAt e; durable := true |}.
Definition rekey (c : jsstr) (q ord : Z) (e : PendingMutation) : PendingMutation :=
  {| requestId := requestId e; pmu_udfPath := pmu_udfPath e; pmu_args := pmu_args e; update := update e;
     seed := seed e; touched := touched e; status := status e; clientId := Some c; seq := Some q; m_order := Some ord;
     identityFingerprint := identityFingerprint e; enqueuedAt := enqueuedAt e; durable := durable e |}.

(** ** Reading the queue *)
Definition drain_eligible (e : PendingMutation) : bool :=
  match clientId e, seq e, status e with
  | Some _, Some _, (Unsent | Parked) => durable e
  | _, _, _ => false
  end.
Definition by_m_order (a b : PendingMutation) : comparison := default 0 (m_order a) ?= default 0 (m_order b).
Definition drainableEntries (o : OClient) : list PendingMutation :=
  sort_by by_m_order (List.filter drain_eligible (entriesInOrder (olog o))).
Definition outboxQueueDepth (o : OClient) : Z :=
  Z.of_nat (length (List.filter (λ e, match clientId e, status e with None, _ | _, Completed _ _ => false | _, _ => true end) (entriesInOrder (olog o)))).
Definition hasActiveChunk (d : Drain) : bool := match active d with Some _ => true | None => false end.
Definition hasOutboxBacklog (o : OClient) : bool :=
  hasActiveChunk (drain o) ||
  existsb (λ e, match status e with Unsent | Parked => true | _ => false end) (entriesInOrder (olog o)).
Definition handles (d : Drain) (rid : jsstr) : bool := match active d with Some m => jm_has m rid | None => false end.

(** [drainBatchEntry] *)
Definition batchEntry (e : PendingMutation) : MutationBatchEntry :=
  {| me_requestId := requestId e; me_udfPath := pmu_udfPath e; me_args := pmu_args e; me_clientId := clientId e; me_seq := seq e |}.

Definition canDrain (o : OClient) : bool :=
  leader (drain o) && negb (stopped (drain o)) && negb (paused (drain o)) && negb (hasActiveChunk (drain o)) &&
  negb (closed (base o)) && outboxArmed (shake o) && negb (Nat.eqb (length (drainableEntries o)) 0).

(** [maybeDrainNext] up to its [await]. *)
Definition maybeDrainNext (o : OClient) : OClient :=
  if flushScheduling (drain o) || negb (canDrain o) then o
  else
    let o := on_drain o (with_pace (drain o) true (transientAttempts (drain o)) (intervalOn (drain o))) in
    if outboxAwaitingBaseline (shake o) then with_baseline o true (outboxPendingDrops (shake o)) (S (baselineWaiters (shake o)))
    else push_job JFlush o.

Definition OFFLINE_IDENTITY_CHANGED : jsstr := js "OFFLINE_IDENTITY_CHANGED".
Definition OFFLINE_CLIENT_RESET : jsstr := js "OFFLINE_CLIENT_RESET".
Definition AUTH_REFRESH_UDF_PATH : jsstr := js "auth:refresh".
Definition NON_REPLAYABLE_MUTATION_DROPPED : jsstr := js "NON_REPLAYABLE_MUTATION_DROPPED".
Definition anon : jsstr := js "anon".
(** Error texts; only their presence matters. *)
Definition about_mutation (path rest : jsstr) : jsstr := js "mutation " ++ 34 :: path ++ 34 :: rest.
Definition failed_message (path : jsstr) : jsstr := about_mutation path (js " failed").
Definition identity_message (path : jsstr) : jsstr := about_mutation path (js " dropped: the session identity changed since it was queued").
Definition hydrate_message (path : jsstr) : jsstr := about_mutation path (js " dropped at hydrate: durable auth-refresh replay is never safe").
Definition reset_message : jsstr := js "the server disowned this client's mutation history (swept/foreign timeline)".
Definition unknown_path (e : option PendingMutation) : jsstr := match e with Some e => pmu_udfPath e | None => js "unknown" end.

Definition dropIfNonReplayable (e : OutboxEntry) (o : OClient) : option OClient :=
  if bool_decide (ob_udfPath e = AUTH_REFRESH_UDF_PATH) then
    Some (on_store o (updateStatus (store o) (ob_clientId e) (ob_seq e) OFailed
      (Some {| oe_message := hydrate_message (ob_udfPath e); oe_code := Some NON_REPLAYABLE_MUTATION_DROPPED |})))
  else None.

Section outbox_client.
Variable stringify : json → jsstr.
Variable sha256Hex : jsstr → jsstr.
(** The constructor's options. *)
Variable outboxMaxQueueSize : Z.
Variable chunkSize : nat.
Variable poisonPause : bool.
Variable optimisticUpdates : jsstr → option (value → upd).

Definition onFailure (rid : jsstr) (o : OClient) : OClient := on_rec o (onMutationFailure stringify (rec (base o)) rid).
Definition onSuccess (rid : jsstr) (ts : option Z) (now : Z) (o : OClient) : OClient := on_rec o (onMutationSuccess stringify (rec (base o)) rid ts now).
Definition dropNow (rid : jsstr) (o : OClient) : OClient := on_rec o (onVerdictAfterBaseline stringify (rec (base o)) rid).

Definition dropAfterBaseline (rid : jsstr) (o : OClient) : OClient :=
  if outboxAwaitingBaseline (shake o) then with_baseline o true (outboxPendingDrops (shake o) ++ [rid]) (baselineWaiters (shake o))
  else dropNow rid o.

(** ** Hydration *)
Definition hydrated_entry (o : OClient) (e : OutboxEntry) : PendingMutation :=
  {| requestId := string_of_int (nextRequestId (base o)); pmu_udfPath := ob_udfPath e; pmu_args := ob_args e;
     update := optimisticUpdates (ob_udfPath e); seed := ob_seed e; touched := []; status := Unsent;
     clientId := Some (ob_clientId e); seq := Some (ob_seq e); m_order := Some (ob_order e);
     identityFingerprint := ob_identityFingerprint e; enqueuedAt := Some (ob_enqueuedAt e); durable := true |}.
Definition next_request (o : OClient) : OClient := on_base o (with_counters (base o) (nextQueryId (base o)) (nextRequestId (base o) + 1)).
Definition addHydratedEntry (e : OutboxEntry) (o : OClient) : OClient :=
  match dropIfNonReplayable e o with
  | Some o => o
  | None =>
      match findOutboxEntry (ob_clientId e) (ob_seq e) o with
      | Some _ => o
      | None =>
          let o := with_order o (Z.max (outboxOrderCounter (ident o)) (ob_order e)) in
          let p := hydrated_entry o e in
          let o := next_request o in
          on_rec o (addHydrated stringify (rec (base o)) p)
      end
  end.

(** ** The handshake *)
Definition hasUndeliveredSubscription (o : OClient) : bool :=
  existsb (λ p, match jm_get (heap (rstore (rec (base o)))) p with Some s => negb (answered s) | None => false end)
    (jm_values (byId (rstore (rec (base o))))).
Definition markBaselineAdopted (o : OClient) : OClient :=
  let drops := outboxPendingDrops (shake o) in
  let w := baselineWaiters (shake o) in
  let o := with_baseline o false [] 0 in
  let o := fold_left (λ o rid, dropNow rid o) drops o in
  nudge (Nat.iter w (push_job JFlush) o).
Definition beginBaselineAwait (expectTransition : bool) (o : OClient) : OClient :=
  let o := with_baseline o expectTransition (outboxPendingDrops (shake o)) (baselineWaiters (shake o)) in
  if expectTransition then o else markBaselineAdopted o.
Definition sendConnect (o : OClient) : OClient :=
  osend (buildConnectMessage (Some (outboxClientId (ident o))) (outboxHeldFromLog (entriesInOrder (olog o)))) o.
Definition initiateHandshake (expectTransition : bool) (o : OClient) : OClient :=
  if outboxConnectSent (shake o) || closed (base o) then o
  else
    let h := shake o in
    let o := with_shake o (outboxArmed h) (outboxDeploymentId h) (outboxAwaitingBaseline h) (outboxPendingDrops h) (baselineWaiters h) true in
    sendConnect (beginBaselineAwait expectTransition o).

(** ** The drain *)
Definition drainSettleApplied (rid : jsstr) (v : value) (replayed : bool) (ts : option Z) (now : Z) (o : OClient) : OClient :=
  let entry := jm_get (olog o) rid in
  let o := resolvePending rid v o in
  let o := dequeueOutboxEntry entry o in
  match entry with
  | None => o
  | Some e =>
      let o := if replayed then dropAfterBaseline rid o else onSuccess rid ts now o in
      match clientId e, seq e with Some c, Some q => post (BSettled c q (default 0 ts)) o | _, _ => o end
  end.
Definition drainSettleTerminal (rid : jsstr) (code : option jsstr) (message : jsstr) (o : OClient) : OClient :=
  let entry := jm_get (olog o) rid in
  let had := hadAwaiter rid o in
  let o := rejectPending rid (Rejected message code) o in
  let c := entry ≫= clientId in let q := entry ≫= seq in
  let o := match c, q with Some c, Some q => outboxMarkFailed c q message code o | _, _ => o end in
  let o := match entry with Some _ => onFailure rid o | None => o end in
  let o := if had then o else notifyMutationFailed c q (unknown_path entry) {| oe_message := message; oe_code := code |} o in
  match c, q with Some c, Some q => post (BFailed c q code message) o | _, _ => o end.

(** The loop of [flushChunk] over the queue as it was read. *)
Fixpoint flush_loop (fp : jsstr) (all : list PendingMutation) (map : list (jsstr * PendingMutation)) (chunk : list MutationBatchEntry)
    (settledIdentityFailure : bool) (o : OClient) : OClient * list (jsstr * PendingMutation) * list MutationBatchEntry * bool :=
  match all with
  | [] => (o, map, chunk, settledIdentityFailure)
  | e :: all =>
      if Nat.leb chunkSize (length chunk) then (o, map, chunk, settledIdentityFailure)
      else if match identityFingerprint e with Some f => bool_decide (f ≠ fp) | None => false end then
        flush_loop fp all map chunk true
          (drainSettleTerminal (requestId e) (Some OFFLINE_IDENTITY_CHANGED) (identity_message (pmu_udfPath e)) o)
      else
        flush_loop fp all (jm_set map (requestId e) e) (chunk ++ [batchEntry e]) settledIdentityFailure (setStatus e Inflight OInflight o)
  end.
Definition flushChunk (o : OClient) : OClient :=
  let '(o, map, chunk, settledIdentityFailure) := flush_loop (outboxFingerprint (ident o)) (drainableEntries o) [] [] false o in
  match chunk with
  | [] => if settledIdentityFailure then nudge o else o
  | _ => osend (MMutationBatch chunk) (on_drain o (with_active (drain o) (Some map)))
  end.
(** [maybeDrainNext] after its [await]. *)
Definition resume_flush (o : OClient) : OClient :=
  let o := if canDrain o then flushChunk o else o in
  on_drain o (with_pace (drain o) false (transientAttempts (drain o)) (intervalOn (drain o))).

Definition onForwardProgress (o : OClient) : OClient :=
  let o := on_drain o (with_pace (drain o) (flushScheduling (drain o)) 0 (intervalOn (drain o))) in
  match active (drain o) with
  | Some [] => nudge (on_drain o (with_active (drain o) None))
  | _ => o
  end.
Definition revertActive (o : OClient) : OClient :=
  match active (drain o) with
  | None => o
  | Some m =>
      let o := fold_left (λ o e, setStatus e Unsent OUnsent o) (jm_values m) o in
      on_drain o (with_active (drain o) None)
  end.

Definition drop_active (rid : jsstr) (o : OClient) : OClient :=
  match active (drain o) with
  | Some m => on_drain o (with_active (drain o) (Some (jm_delete m rid)))
  | None => o
  end.
Definition onResponse (rid : jsstr) (msg : MutationReply) (now : Z) (o : OClient) : OClient * res unit :=
  match active (drain o) ≫= (λ m, jm_get m rid) with
  | None => (o, Ok tt)
  | Some e =>
      match msg with
      | ReplyOk v ts replayed valueMissing =>
          let o := drop_active rid o in
          match (if valueMissing then Ok VNull else match v with Some j => jsonToConvex j | None => Ok VNull end) with
          | Err x => (o, Err x)
          | Ok v => (onForwardProgress (drainSettleApplied rid v replayed ts now o), Ok tt)
          end
      | ReplyError error (Some code) =>
          if poisonPause then
            let d := drain o in
            let o := on_drain o (with_flags d (started d) (leader d) (stopped d) true (hydrated d)) in
            (revertActive o, Ok tt)
          else
            (onForwardProgress (drainSettleTerminal rid (Some code) (failed_message (pmu_udfPath e)) (drop_active rid o)), Ok tt)
      | ReplyError error None =>
          let d := drain o in
          let o := on_drain o (with_pace d (flushScheduling d) (transientAttempts d + 1) (intervalOn d)) in
          let o := revertActive o in
          let d := drain o in
          (on_drain o (with_timer d (backoffTimers d ++ [nextTimer d]) (Some (nextTimer d)) (S (nextTimer d))), Ok tt)
      end
  end.

Definition start (o : OClient) : OClient :=
  let d := drain o in
  if started d then o else push_job JLead (on_drain o (with_flags d true (leader d) (stopped d) (paused d) (hydrated d))).
Definition stop (o : OClient) : OClient :=
  let d := drain o in
  if stopped d then o
  else
    let d := with_active (with_flags d (started d) false true (paused d) (hydrated d)) None in
    on_drain o (clear_backoff (with_pace d (flushScheduling d) (transientAttempts d) false)).
Definition drain_onTransportClosed (o : OClient) : OClient :=
  let o := revertActive o in
  let d := drain o in on_drain o (clear_backoff (with_pace d (flushScheduling d) 0 (intervalOn d))).
Definition resume (o : OClient) : OClient :=
  let d := drain o in
  if negb (paused d) then o
  else nudge (on_drain o (with_pace (with_flags d (started d) (leader d) (stopped d) false (hydrated d)) (flushScheduling d) 0 (intervalOn d))).

(** [becomeLeader] up to its first [await]; [hydrateOnce] reads the store at once. *)
Definition becomeLeader (o : OClient) : OClient :=
  let d := drain o in
  if stopped d then o
  else
    let o := on_drain o (with_flags d (started d) true (stopped d) (paused d) true) in
    if hydrated d then push_job JLeadTail o
    else let '(s, r) := loadAll (store o) in push_job (JHydrate (hy_entries r)) (on_store o s).
Definition hydrate_one (o : OClient) (e : OutboxEntry) : OClient :=
  if held_record (ob_status e) then
    match dropIfNonReplayable e o with Some o => o | None => addHydratedEntry e o end
  else o.
Definition hydrateOnce (es : list OutboxEntry) (o : OClient) : OClient :=
  let o := fold_left hydrate_one es o in push_job (JPruneList (listMetaClientIds (store o))) o.
(** The loop of [pruneDeadMeta] up to its next [await]. *)
Fixpoint prune_next (current : jsstr) (live ids : list jsstr) (o : OClient) : OClient :=
  match ids with
  | [] => push_job JLeadTail o
  | id :: ids =>
      if bool_decide (id = current) || bool_decide (id ∈ live) then prune_next current live ids o
      else push_job (JPrune current live ids) (on_store o (deleteMeta (store o) id))
  end.
Definition pruneDeadMeta (ids : list jsstr) (o : OClient) : OClient :=
  prune_next (outboxClientId (ident o)) (omap clientId (drainableEntries o)) ids o.
Definition becomeLeader_tail (o : OClient) : OClient :=
  if stopped (drain o) then o
  else
    let o := if negb (closed (base o)) && negb (Nat.eqb (length (drainableEntries o)) 0) then initiateHandshake (hasUndeliveredSubscription o) o else o in
    let d := drain o in
    maybeDrainNext (on_drain o (with_pace d (flushScheduling d) (transientAttempts d) true)).

(** ** Calls of the application *)
Definition outbox_entry (o : OClient) (path : jsstr) (args : json) (u : option (value → upd)) (sd : Seed) (ord now : Z) : PendingMutation :=
  {| requestId := string_of_int (nextRequestId (base o)); pmu_udfPath := path; pmu_args := args; update := u; seed := sd; touched := [];
     status := Unsent; clientId := Some (outboxClientId (ident o)); seq := Some (outboxNextSeq (ident o)); m_order := Some ord;
     identityFingerprint := Some (outboxFingerprint (ident o)); enqueuedAt := Some now; durable := false |}.

(** [mutation]: [None] for the overflow's rejection; a transient call is one of a client without an outbox, except that
    the backlog is not looked at. *)
Definition o_mutation (path : jsstr) (args : value) (u : option (value → upd)) (sd : Seed) (transient : bool) (now : Z) (o : OClient)
    : OClient * option (res unit) :=
  if transient then let '(c, x) := mutation stringify (base o) path args u sd in (on_base o c, Some x)
  else if outboxMaxQueueSize <=? outboxQueueDepth o then (o, None)
  else
    let '(o, ord) := nextOutboxOrder now o in
    let e := outbox_entry o path (convexToJson args) u sd ord now in
    let o := with_identity (next_request o) (outboxClientId (ident o)) (outboxNextSeq (ident o) + 1) in
    let queueBusy := hasOutboxBacklog o in
    let '(r, x) := initiate stringify (rec (base o)) e in
    let o := on_rec o r in
    match x with
    | Err err => (o, Some (Err err))
    | Ok _ =>
        let c := base o in
        let c := with_pending c (set_add (pendingMutationCallbacks c) (requestId e)) (pendingActions c) in
        let '(c, st) := if closed c || queueBusy then (set_status c (requestId e) Unsent, Unsent)
                        else (send_msg (set_status c (requestId e) Inflight) (mutationMessage e), Inflight) in
        (outboxAppend (with_status st e) (on_base o c), Some (Ok tt))
    end.

Definition o_setAuth (token : option jsstr) (o : OClient) : OClient :=
  let o := on_base o (setAuth (base o) token) in
  match sessionFingerprintKey (ident o) with
  | Some _ => o
  | None => match token with
            | None | Some [] => with_fingerprint o anon None
            | Some t => push_job (JFingerprint t) o
            end
  end.
Definition setSessionFingerprint (sessionId : option jsstr) (o : OClient) : OClient :=
  match sessionId with
  | None =>
      let o := with_fingerprint o (outboxFingerprint (ident o)) None in
      match lastAuthToken (base o) with
      | None | Some [] => with_fingerprint o anon None
      | Some t => push_job (JUnmanaged t) o
      end
  | Some s =>
      let key := js "session:" ++ s in
      push_job (JSession key) (with_fingerprint o (outboxFingerprint (ident o)) (Some key))
  end.

Definition retryOutboxEntry (e : OutboxEntry) (now : Z) (o : OClient) : OClient :=
  match ob_status e with
  | OFailed =>
      let '(o, ord) := nextOutboxOrder now o in
      let p := outbox_entry o (ob_udfPath e) (ob_args e) (optimisticUpdates (ob_udfPath e)) (ob_seed e) ord now in
      let o := with_identity (next_request o) (outboxClientId (ident o)) (outboxNextSeq (ident o) + 1) in
      let o := on_rec o (addHydrated stringify (rec (base o)) p) in
      nudge (outboxDequeue (ob_clientId e) (ob_seq e) (outboxAppend p o))
  | _ => o
  end.
Definition dismissOutboxEntry (e : OutboxEntry) (o : OClient) : OClient :=
  match ob_status e with OFailed => outboxDequeue (ob_clientId e) (ob_seq e) o | _ => o end.

(** ** Messages of the transport *)
Definition o_onTransition (b : Bracket) (o : OClient) : OClient * res unit :=
  let adopts := resyncing (base o) || versionsEqual (startVersion b) (c_version (base o)) in
  let '(c, x) := onTransition stringify (base o) b in
  let o := on_base o c in
  match x with
  | Ok _ => (if adopts && outboxAwaitingBaseline (shake o) then markBaselineAdopted o else o, Ok tt)
  | Err e => (o, Err e)
  end.

Definition reply_value (r : MutationReply) : res (option json * option Z) :=
  match r with ReplyOk v ts _ _ => Ok (v, ts) | ReplyError _ _ => Err TypeError end.
Definition o_onMutationResponse (rid : jsstr) (msg : MutationReply) (now : Z) (o : OClient) : OClient * res unit :=
  if handles (drain o) rid then onResponse rid msg now o
  else
    let entry := jm_get (olog o) rid in
    let had := hadAwaiter rid o in
    let '(error, code) := match msg with ReplyError m c => (m, c) | _ => ([], None) end in
    let '(c, x) := onMutationResponse stringify (base o) rid (reply_value msg) error code now in
    let o := on_base o c in
    match msg, x with
    | _, Err e => (o, Err e)
    | ReplyOk _ _ _ _, Ok _ => (dequeueOutboxEntry entry o, Ok tt)
    | ReplyError _ _, Ok _ =>
        let c := entry ≫= clientId in let q := entry ≫= seq in
        let o := match c, q with Some c, Some q => outboxMarkFailed c q error code o | _, _ => o end in
        (if had then o else notifyMutationFailed c q (unknown_path entry) {| oe_message := error; oe_code := code |} o, Ok tt)
    end.

(** One classified reference of a [ConnectAck]. *)
Definition settle_failed (v : ClientMutationVerdict) (entry : option PendingMutation) (message : jsstr) (code : option jsstr) (o : OClient) : OClient :=
  let had := match entry with Some e => hadAwaiter (requestId e) o | None => false end in
  let o := match entry with Some e => rejectPending (requestId e) (Rejected message code) o | None => o end in
  let o := outboxMarkFailed (cmv_clientId v) (cmv_seq v) message code o in
  let o := match entry with Some e => onFailure (requestId e) o | None => o end in
  if had then o
  else notifyMutationFailed (Some (cmv_clientId v)) (Some (cmv_seq v)) (unknown_path entry) {| oe_message := message; oe_code := code |} o.
Definition settleVerdict (v : ClientMutationVerdict) (o : OClient) : OClient * res unit :=
  let entry := findOutboxEntry (cmv_clientId v) (cmv_seq v) o in
  match cmv_verdict v with
  | None => (o, Ok tt)
  | Some r =>
      match rp_verdict r with
      | RvApplied =>
          match (if rp_valueMissing r then Ok VNull else jsonToConvex (default JNull (rp_value r))) with
          | Err x => (o, Err x)
          | Ok x =>
              let o := match entry with Some e => resolvePending (requestId e) x o | None => o end in
              let o := outboxDequeue (cmv_clientId v) (cmv_seq v) o in
              (match entry with Some e => dropAfterBaseline (requestId e) o | None => o end, Ok tt)
          end
      | RvFailed => (settle_failed v entry (failed_message (unknown_path entry)) (rp_code r) o, Ok tt)
      | RvStale => (settle_failed v entry (js "mutation disowned (STALE_CLIENT)") (Some (default (js "STALE_CLIENT") (rp_code r))) o, Ok tt)
      end
  end.
Fixpoint settleVerdicts (vs : list ClientMutationVerdict) (o : OClient) : OClient * res unit :=
  match vs with
  | [] => (o, Ok tt)
  | v :: vs => match settleVerdict v o with (o, Ok _) => settleVerdicts vs o | x => x end
  end.

(** One entry of [onClientReset]'s loop; the counts are of the rejected and of the re-enqueued. *)
Definition reset_one (old fresh : jsstr) (now : Z) (st : OClient * Z * Z) (e : PendingMutation) : OClient * Z * Z :=
  let '(o, rejected, requeued) := st in
  let recorded := default old (clientId e) in
  match status e with
  | Parked =>
      let had := hadAwaiter (requestId e) o in
      let o := match seq e with Some q => outboxMarkFailed recorded q reset_message (Some OFFLINE_CLIENT_RESET) o | None => o end in
      let o := rejectPending (requestId e) ClientReset o in
      let o := onFailure (requestId e) o in
      let o := if had then o else notifyMutationFailed (Some recorded) (seq e) (pmu_udfPath e)
        {| oe_message := reset_message; oe_code := Some OFFLINE_CLIENT_RESET |} o in
      (o, rejected + 1, requeued)
  | Unsent =>
      let o := match seq e with Some q => outboxDequeue recorded q o | None => o end in
      let q := outboxNextSeq (ident o) in
      let o := with_identity o (outboxClientId (ident o)) (q + 1) in
      let '(o, ord) := nextOutboxOrder now o in
      let o := on_rec o (with_log (rec (base o)) (log_update (olog o) (requestId e) (rekey fresh q ord))) in
      (outboxAppend (rekey fresh q ord e) o, rejected, requeued + 1)
  | _ => (o, rejected, requeued)
  end.
Definition onClientReset (fresh : jsstr) (now : Z) (o : OClient) : OClient :=
  let old := outboxClientId (ident o) in
  let o := with_identity o fresh 0 in
  let '(o, rejected, requeued) := fold_left (reset_one old fresh now) (entriesInOrder (olog o)) (o, 0, 0) in
  push_job (JResetMint fresh (default 0 (nextSeq <$> getMeta (store o) fresh)) (outboxDeploymentId (shake o)) (old, fresh, requeued, rejected)) o.

Definition handleConnectAck (known : bool) (results : list ClientMutationVerdict) (dep fresh : jsstr) (now : Z) (o : OClient) : OClient * res unit :=
  let h := shake o in
  let o := with_shake o true (Some dep) (outboxAwaitingBaseline h) (outboxPendingDrops h) (baselineWaiters h) (outboxConnectSent h) in
  let o := on_store o (setMeta (store o) (outboxClientId (ident o)) {| nextSeq := outboxNextSeq (ident o); deployment := Some dep |}) in
  if known then match settleVerdicts results o with (o, Ok _) => (nudge o, Ok tt) | x => x end
  else (onClientReset fresh now o, Ok tt).

Definition o_onTransportClosed (o : OClient) : OClient :=
  let c := base o in
  let o := on_base o (with_capability (with_session c (c_version c) (resyncing c) true) false (resumeSinceTs c)) in
  let h := shake o in
  let o := with_shake o (outboxArmed h) (outboxDeploymentId h) (outboxAwaitingBaseline h) (outboxPendingDrops h) (baselineWaiters h) false in
  let o := drain_onTransportClosed o in
  let c := base o in
  let c := with_capability c (diffCapabilitySent c) (observedTs (rec c)) in
  let '(r, x) := closeSession stringify (rec c) (outboxArmed (shake o)) in
  let c := with_rec c r in
  let c := fold_left (λ c rid, settleMutation c rid Undelivered) (rejectedInflight x) c in
  let o := on_base o c in
  let o := fold_left (λ o rid, match jm_get (olog o) rid with
      | Some e => match clientId e, seq e with Some c, Some q => outboxUpdateStatus c q OParked o | _, _ => o end
      | None => o
      end) (parked x) o in
  let c := base o in
  let c := fold_left (λ c rid, settle c rid ConnectionClosed) (pendingActions c) c in
  on_base o (with_pending c (pendingMutationCallbacks c) []).

Definition o_onTransportReopened (o : OClient) : OClient :=
  let c := with_session (base o) (c_version (base o)) (resyncing (base o)) false in
  let c := if hasSetAuth c then send_msg c (MSetAuth (lastAuthToken c)) else c in
  let o := on_base o (resync (maybeSendDiffCapability c)) in
  nudge (initiateHandshake (resyncing (base o)) o).

Definition o_close (o : OClient) : OClient := o_onTransportClosed (stop o).

(** ** Other tabs *)
Definition isMirroredEntry (e : PendingMutation) (o : OClient) : bool := durable e && negb (hadAwaiter (requestId e) o).

Definition mirrorFromStore (o : OClient) : OClient :=
  if mirrorInFlight (obs o) then with_mirror o true true
  else let '(s, r) := loadAll (store o) in push_job (JMirror (hy_entries r)) (with_mirror (on_store o s) true false).
(** The record of a mirrored entry in the snapshot. *)
Definition mirror_key (c : jsstr) (q : Z) : jsstr := c ++ 58 :: string_of_int q.
Definition mirrored_record (es : list OutboxEntry) (key : jsstr) : option OutboxEntry :=
  jm_get (jm_of_list (List.map (λ e, (mirror_key (ob_clientId e) (ob_seq e), e)) es)) key.
Definition reconcile_mirror (es : list OutboxEntry) (o : OClient) (e : PendingMutation) : OClient :=
  match isMirroredEntry e o, clientId e, seq e, status e with
  | true, Some c, Some q, (Unsent | Inflight | Parked) =>
      if existsb (λ x, held_record (ob_status x) && bool_decide (mirror_key (ob_clientId x) (ob_seq x) = mirror_key c q)) es then o
      else match mirrored_record es (mirror_key c q) with
      | Some x =>
          match ob_status x with
          | OFailed => notifyMutationFailed (Some c) (Some q) (pmu_udfPath e)
              (default {| oe_message := failed_message (pmu_udfPath e); oe_code := None |} (ob_error x)) (onFailure (requestId e) o)
          | _ => dropAfterBaseline (requestId e) o
          end
      | None => dropAfterBaseline (requestId e) o
      end
  | _, _, _, _ => o
  end.
Definition mirror_pass (es : list OutboxEntry) (o : OClient) : OClient :=
  let o := fold_left (λ o e, if held_record (ob_status e) then addHydratedEntry e o else o) es o in
  let o := fold_left (reconcile_mirror es) (entriesInOrder (olog o)) o in
  if mirrorRerun (obs o) then let '(s, r) := loadAll (store o) in push_job (JMirror (hy_entries r)) (with_mirror (on_store o s) true false)
  else with_mirror o false false.

Definition onCrossTabSettle (c : jsstr) (q : Z) (outcome : Z + (option jsstr * jsstr)) (now : Z) (o : OClient) : OClient :=
  match findOutboxEntry c q o with
  | Some e =>
      if isMirroredEntry e o then
        match outcome with
        | inl commitTs => onSuccess (requestId e) (Some commitTs) now o
        | inr (code, message) =>
            notifyMutationFailed (clientId e) (seq e) (pmu_udfPath e) {| oe_message := message; oe_code := code |} (onFailure (requestId e) o)
        end
      else o
  | None => o
  end.
Definition handleOutboxBroadcastMessage (m : OutboxBroadcastMessage) (now : Z) (o : OClient) : OClient :=
  match m with
  | BEnqueued => mirrorFromStore o
  | BSettled c q ts => onCrossTabSettle c q (inl ts) now o
  | BFailed c q code message => onCrossTabSettle c q (inr (code, message)) now o
  end.

Definition refireDurableFailures (es : list OutboxEntry) (o : OClient) : OClient :=
  fold_left (λ o e, match ob_status e with
    | OFailed => notifyMutationFailed (Some (ob_clientId e)) (Some (ob_seq e)) (ob_udfPath e)
        (default {| oe_message := failed_message (ob_udfPath e); oe_code := None |} (ob_error e)) o
    | _ => o
    end) es o.

(** ** The event loop *)
Definition run_job (j : job) (o : OClient) : OClient :=
  match j with
  | JLead => becomeLeader o
  | JHydrate es => hydrateOnce es o
  | JPruneList ids => pruneDeadMeta ids o
  | JPrune current live ids => prune_next current live ids o
  | JLeadTail => becomeLeader_tail o
  | JDrain => maybeDrainNext o
  | JFlush => resume_flush o
  | JAppended rid =>
      notifyOutboxChange (nudge (on_rec o (with_log (rec (base o)) (log_update (olog o) rid set_durable))))
  | JChanged => notifyOutboxChange o
  | JFingerprint t => if bool_decide (lastAuthToken (base o) = Some t) then with_fingerprint o (sha256Hex t) (sessionFingerprintKey (ident o)) else o
  | JUnmanaged t =>
      match sessionFingerprintKey (ident o) with
      | None => if bool_decide (lastAuthToken (base o) = Some t) then with_fingerprint o (sha256Hex t) None else o
      | Some _ => o
      end
  | JSession key => if bool_decide (sessionFingerprintKey (ident o) = Some key) then with_fingerprint o (sha256Hex key) (Some key) else o
  | JMint n => push_job (JMinted n) (on_store o (setMeta (store o) (outboxClientId (ident o)) {| nextSeq := n; deployment := None |}))
  | JMinted n => with_identity o (outboxClientId (ident o)) (Z.max (outboxNextSeq (ident o)) n)
  | JResetMint fresh n dep info =>
      push_job (JResetMeta fresh info) (on_store o (setMeta (store o) fresh {| nextSeq := n; deployment := dep |}))
  | JResetMeta fresh info =>
      push_job (JResetDone info) (on_store o (setMeta (store o) fresh {| nextSeq := outboxNextSeq (ident o); deployment := outboxDeploymentId (shake o) |}))
  | JResetDone info => nudge (onClientResetCallback info o)
  | JMirror es => mirror_pass es o
  | JRefire es => refireDurableFailures es o
  end.

(** The constructor over a store, with the client id it mints. *)
Definition new_OClient (s : OutboxStorage) (fresh : jsstr) : OClient :=
  let c := new_Client in
  let c := {| outboxOn := true; rec := rec c; c_version := c_version c; resyncing := resyncing c; closed := closed c; resumeSinceTs := resumeSinceTs c;
     nextQueryId := nextQueryId c; nextRequestId := nextRequestId c; diffCapabilitySent := diffCapabilitySent c; hasSetAuth := hasSetAuth c;
     lastAuthToken := lastAuthToken c; pendingMutationCallbacks := []; pendingActions := []; sent := []; settlements := [] |} in
  let o := {| base := c; store := s;
     ident := {| outboxClientId := fresh; outboxNextSeq := 0; outboxOrderCounter := 0; outboxFingerprint := anon; sessionFingerprintKey := None |};
     shake := {| outboxArmed := false; outboxDeploymentId := None; outboxAwaitingBaseline := false; outboxPendingDrops := []; baselineWaiters := 0;
                 outboxConnectSent := false |};
     drain := new_Drain;
     obs := {| jobs := []; failures := []; posts := []; resets := []; mirrorInFlight := false; mirrorRerun := false |} |} in
  let o := push_job (JMint (default 0 (nextSeq <$> getMeta (store o) fresh))) o in
  let '(s, r) := loadAll (store o) in
  let o := push_job (JRefire (hy_entries r)) (on_store o s) in
  start (mirrorFromStore o).

Inductive oevent :=
  | OeMutation (path : jsstr) (args : value) (u : option (value → upd)) (sd : Seed) (transient : bool) (now : Z)
  | OeSubscribe (path : jsstr) (args : value) (l : nat)
  | OeUnsubscribe (hash : jsstr) (l : nat)
  | OeAction (path : jsstr) (args : value)
  | OeSetAuth (token : option jsstr)
  | OeSession (sessionId : option jsstr)
  | OeRetry (e : OutboxEntry) (now : Z)
  | OeDismiss (e : OutboxEntry)
  | OeTransition (b : Bracket)
  | OeResponse (rid : jsstr) (msg : MutationReply) (now : Z)
  | OeConnectAck (known : bool) (results : list ClientMutationVerdict) (dep fresh : jsstr) (now : Z)
  | OeActionResponse (rid : jsstr) (x : Settlement)
  | OeGateTimeout (rid : jsstr)
  | OeClosed
  | OeReopened
  | OeClose
  | OeInterval
  | OeBackoff (t : nat)
  | OeResume
  | OeBroadcast (m : OutboxBroadcastMessage) (now : Z)
  | OeJob (i : nat).

Definition fire_backoff (t : nat) (o : OClient) : OClient :=
  let d := drain o in
  if bool_decide (t ∈ backoffTimers d) then maybeDrainNext (on_drain o (with_timer d (filter (λ x, x ≠ t) (backoffTimers d)) None (nextTimer d))) else o.

Definition ostep (o : OClient) (ev : oevent) : OClient * res unit :=
  match ev with
  | OeMutation path args u sd transient now =>
      let '(o, x) := o_mutation path args u sd transient now o in (o, default (Ok tt) x)
  | OeSubscribe path args l => (on_base o (subscribe stringify (base o) path args l), Ok tt)
  | OeUnsubscribe h l => (on_base o (unsubscribe (base o) h l), Ok tt)
  | OeAction path args => (on_base o (action (base o) path args), Ok tt)
  | OeSetAuth token => (o_setAuth token o, Ok tt)
  | OeSession sid => (setSessionFingerprint sid o, Ok tt)
  | OeRetry e now => (retryOutboxEntry e now o, Ok tt)
  | OeDismiss e => (dismissOutboxEntry e o, Ok tt)
  | OeTransition b => o_onTransition b o
  | OeResponse rid msg now => o_onMutationResponse rid msg now o
  | OeConnectAck known results dep fresh now => handleConnectAck known results dep fresh now o
  | OeActionResponse rid x => (on_base o (onActionResponse (base o) rid x), Ok tt)
  | OeGateTimeout rid => (on_rec o (gateTimeout stringify (rec (base o)) rid), Ok tt)
  | OeClosed => (o_onTransportClosed o, Ok tt)
  | OeReopened => (o_onTransportReopened o, Ok tt)
  | OeClose => (o_close o, Ok tt)
  | OeInterval => (if intervalOn (drain o) then maybeDrainNext o else o, Ok tt)
  | OeBackoff t => (fire_backoff t o, Ok tt)
  | OeResume => (resume o, Ok tt)
  | OeBroadcast m now => (handleOutboxBroadcastMessage m now o, Ok tt)
  | OeJob i =>
      match jobs (obs o) !! i with
      | Some j => (run_job j (with_jobs o (delete i (jobs (obs o)))), Ok tt)
      | None => (o, Ok tt)
      end
  end.
Definition orun (o : OClient) (evs : list oevent) : OClient := fold_left (λ o ev, (ostep o ev).1) evs o.
End outbox_client.
