(* ===== verification/OutboxIdentity.v ===== *)
(** A reference of the outbox names one payload: whatever the tabs that share a queue do, and whatever order their event loops
    choose, two mutation units with the same client id and seq carry the same function and arguments. The server's
    receipts deduplicate by that reference, so this is what makes a resend safe. *)
From S2P Require Import Prelude Numbers Values Json IndexKeys Ranges DocStore QueryEngine Subscriptions DiffSync SessionFlow ClientStore Reconciler Client ExactlyOnce Outbox OutboxClient.

Abbreviation reference := (jsstr * Z)%type.
Abbreviation payload := (jsstr * json)%type.
Abbreviation claim := (reference * payload)%type.

Definition claim_of (c : option jsstr) (q : option Z) (path : jsstr) (args : json) : option claim :=
  match c, q with Some c, Some q => Some ((c, q), (path, args)) | _, _ => None end.
Definition entry_claim (e : PendingMutation) : option claim := claim_of (clientId e) (seq e) (pmu_udfPath e) (pmu_args e).
Definition unit_claim (u : MutationBatchEntry) : option claim := claim_of (me_clientId u) (me_seq u) (me_udfPath u) (me_args u).
Definition record_claim (e : OutboxEntry) : claim := ((ob_clientId e, ob_seq e), (ob_udfPath e, ob_args e)).

(** The mutation units a client has put on the wire. *)
Definition units_of (m : ClientMessage) : list MutationBatchEntry :=
  match m with MMutation u => [u] | MMutationBatch us => us | _ => [] end.
Definition wire_units (c : Client) : list MutationBatchEntry := concat (List.map units_of (sent c)).

Definition job_records (j : job) : list OutboxEntry := match j with JHydrate es | JMirror es => es | _ => [] end.

(** Every claim a tab can still make is in [G]. *)
Record within (G : list claim) (o : OClient) : Prop := {
  wi_wire : ∀ u x, u ∈ wire_units (base o) → unit_claim u = Some x → x ∈ G;
  wi_log : ∀ rid e x, jm_get (olog o) rid = Some e → entry_claim e = Some x → x ∈ G;
  wi_store : ∀ c q e, stored (store o) c q = Some e → record_claim e ∈ G;
  wi_active : ∀ m rid e x, active (drain o) = Some m → (rid, e) ∈ m → entry_claim e = Some x → x ∈ G;
  wi_jobs : ∀ j e, j ∈ jobs (obs o) → e ∈ job_records j → record_claim e ∈ G }.

Definition rec_inv (c : Client) : Prop :=
  rec_ok (rec c) ∧ gated (rec c) ∧ ∀ q p, jm_get (byId (rstore (rec c))) q = Some p → q < nextQueryId c.

(** A tab that mints under [C]. *)
Record tab_ok (G : list claim) (C : jsstr) (o : OClient) : Prop := {
  tk_cid : outboxClientId (ident o) = C;
  tk_bound : ∀ q p, ((C, q), p) ∈ G → q < outboxNextSeq (ident o);
  tk_rec : rec_inv (base o);
  tk_store : outbox_ok (store o);
  tk_within : within G o }.

Section identity.
Variable stringify : json → jsstr.
Variable sha256Hex : jsstr → jsstr.
Variable outboxMaxQueueSize : Z.
Variable chunkSize : nat.
Variable poisonPause : bool.
Variable optimisticUpdates : jsstr → option (value → upd).
Implicit Types (G : list claim) (o : OClient).

Lemma same_call_claim e e' : same_call e e' → entry_claim e' = entry_claim e.
Proof. unfold entry_claim. by intros (-> & -> & -> & ->). Qed.

Lemma entry_in_log G C o e x : tab_ok G C o → e ∈ entriesInOrder (olog o) → entry_claim e = Some x → x ∈ G.
Proof.
  intros Ho He Hx. destruct (tk_rec _ _ _ Ho) as (Hr & _). eapply (wi_log _ _ (tk_within _ _ _ Ho)); [|done].
  by apply (elem_of_entries (rec (base o)) (requestId e) e Hr).
Qed.

(** *** Primitives *)
Lemma base_ok G C o c : tab_ok G C o → rec c = rec (base o) → nextQueryId c = nextQueryId (base o) → wire_units c = wire_units (base o) →
  tab_ok G C (on_base o c).
Proof.
  intros [H1 H2 H3 H4 [W1 W2 W3 W4 W5]] E1 E2 E3. split; [done|done| |done|]; cbn.
  - unfold rec_inv. by rewrite E1, E2.
  - split; cbn; unfold olog in *; cbn; rewrite ?E1, ?E3; done.
Qed.
Lemma wire_send c m : wire_units (send_msg c m) = wire_units c ++ units_of m.
Proof. unfold wire_units. cbn. rewrite List.map_app, concat_app. cbn. by rewrite app_nil_r. Qed.
Lemma osend_ok G C o m : tab_ok G C o → (∀ u x, u ∈ units_of m → unit_claim u = Some x → x ∈ G) → tab_ok G C (osend m o).
Proof.
  intros [H1 H2 H3 H4 [W1 W2 W3 W4 W5]] Hm. split; [done|done|done|done|]. split; try done. intros u x. change (base (osend m o)) with (send_msg (base o) m). rewrite wire_send, elem_of_app.
  intros [Hu|Hu]; eauto.
Qed.

Definition same_books (o o' : OClient) : Prop :=
  base o' = base o ∧ store o' = store o ∧ outboxClientId (ident o') = outboxClientId (ident o) ∧ outboxNextSeq (ident o') = outboxNextSeq (ident o) ∧
  active (drain o') = active (drain o) ∧ jobs (obs o') = jobs (obs o).
Lemma same_books_ok G C o o' : tab_ok G C o → same_books o o' → tab_ok G C o'.
Proof.
  intros [H1 H2 H3 H4 [W1 W2 W3 W4 W5]] (E1 & E2 & E3 & E4 & E5 & E6).
  split; [by rewrite E3|by rewrite E4|by rewrite E1|by rewrite E2|]. split; unfold olog; rewrite ?E1, ?E2, ?E5, ?E6; done.
Qed.
Lemma shake_ok G C o h : tab_ok G C o → tab_ok G C (on_shake o h).
Proof. intros Ho. by apply (same_books_ok G C o). Qed.
Lemma order_ok G C o n : tab_ok G C o → tab_ok G C (with_order o n).
Proof. intros Ho. by apply (same_books_ok G C o). Qed.
Lemma fingerprint_ok G C o f k : tab_ok G C o → tab_ok G C (with_fingerprint o f k).
Proof. intros Ho. by apply (same_books_ok G C o). Qed.
Lemma mirror_ok G C o a b : tab_ok G C o → tab_ok G C (with_mirror o a b).
Proof. intros Ho. by apply (same_books_ok G C o). Qed.
Lemma post_ok G C o m : tab_ok G C o → tab_ok G C (post m o).
Proof. intros Ho. by apply (same_books_ok G C o). Qed.
Lemma reset_callback_ok G C o i : tab_ok G C o → tab_ok G C (onClientResetCallback i o).
Proof. intros Ho. by apply (same_books_ok G C o). Qed.
Lemma failed_ok G C o c q path err : tab_ok G C o → tab_ok G C (notifyMutationFailed c q path err o).
Proof. intros Ho. unfold notifyMutationFailed. destruct c, q; try done. by apply (same_books_ok G C o). Qed.
Lemma drain_same_ok G C o d : tab_ok G C o → active d = active (drain o) → tab_ok G C (on_drain o d).
Proof. intros Ho E. by apply (same_books_ok G C o). Qed.
Lemma drain_sub_ok G C o d : tab_ok G C o → (∀ m, active d = Some m → ∃ m', active (drain o) = Some m' ∧ ∀ x, x ∈ m → x ∈ m') → tab_ok G C (on_drain o d).
Proof.
  intros [H1 H2 H3 H4 [W1 W2 W3 W4 W5]] Hd. split; [done..|]. split; try done. cbn. intros m rid e x Hm Hin. destruct (Hd m Hm) as (m' & Hm' & Hsub).
  eapply W4; [done|by apply Hsub].
Qed.
Lemma drain_new_ok G C o d m : tab_ok G C o → active d = Some m → (∀ rid e x, (rid, e) ∈ m → entry_claim e = Some x → x ∈ G) → tab_ok G C (on_drain o d).
Proof.
  intros [H1 H2 H3 H4 [W1 W2 W3 W4 W5]] Hd Hm. split; [done..|]. split; try done. cbn. rewrite Hd. intros m' rid e x [= <-]. apply Hm.
Qed.
Lemma job_ok G C o j : tab_ok G C o → (∀ e, e ∈ job_records j → record_claim e ∈ G) → tab_ok G C (push_job j o).
Proof.
  intros [H1 H2 H3 H4 [W1 W2 W3 W4 W5]] Hj. split; [done..|]. split; try done. cbn. intros j' e Hin. apply elem_of_app in Hin as [Hin|Hin]; [by apply W5|].
  apply list_elem_of_singleton in Hin as ->. apply Hj.
Qed.
Lemma plain_job_ok G C o j : job_records j = [] → tab_ok G C o → tab_ok G C (push_job j o).
Proof. intros E Ho. apply job_ok; [done|]. rewrite E. intros e H. by apply not_elem_of_nil in H. Qed.
Lemma jobs_sub_ok G C o js : tab_ok G C o → (∀ j, j ∈ js → j ∈ jobs (obs o)) → tab_ok G C (with_jobs o js).
Proof. intros [H1 H2 H3 H4 [W1 W2 W3 W4 W5]] Hj. split; [done..|]. split; try done. cbn. eauto. Qed.

Lemma store_sub_ok G C o s : tab_ok G C o → outbox_ok s → (∀ c q e, stored s c q = Some e → record_claim e ∈ G) → tab_ok G C (on_store o s).
Proof. intros [H1 H2 H3 H4 [W1 W2 W3 W4 W5]] Hs Hc. split; [done..|]. by split. Qed.
Lemma dequeue_tab G C o c q : tab_ok G C o → tab_ok G C (on_store o (dequeue (store o) c q)).
Proof.
  intros Ho. pose proof (tk_store _ _ _ Ho) as Hs. apply store_sub_ok; [done|by apply dequeue_ok|]. intros c' q' e. rewrite stored_dequeue by done.
  case_decide; [done|]. apply (wi_store _ _ (tk_within _ _ _ Ho)).
Qed.
Lemma updateStatus_tab G C o c q st err : tab_ok G C o → tab_ok G C (on_store o (updateStatus (store o) c q st err)).
Proof.
  intros Ho. pose proof (tk_store _ _ _ Ho) as Hs. apply store_sub_ok; [done|by apply updateStatus_ok|]. intros c' q' e. rewrite stored_updateStatus.
  case_decide; [|apply (wi_store _ _ (tk_within _ _ _ Ho))]. destruct (stored _ c' q') as [e0|] eqn:E; [|done]. intros [= <-].
  exact (wi_store _ _ (tk_within _ _ _ Ho) _ _ _ E).
Qed.
Lemma append_tab G C o e : tab_ok G C o → record_claim e ∈ G → tab_ok G C (on_store o (append (store o) e)).
Proof.
  intros Ho He. pose proof (tk_store _ _ _ Ho) as Hs. apply store_sub_ok; [done|by apply append_ok|]. intros c' q' e'. rewrite stored_append.
  case_decide; [by intros [= <-]|]. apply (wi_store _ _ (tk_within _ _ _ Ho)).
Qed.
Lemma setMeta_tab G C o c m : tab_ok G C o → tab_ok G C (on_store o (setMeta (store o) c m)).
Proof. intros Ho. apply store_sub_ok; [done|apply setMeta_ok, Ho|]. apply (wi_store _ _ (tk_within _ _ _ Ho)). Qed.
Lemma deleteMeta_tab G C o c : tab_ok G C o → tab_ok G C (on_store o (deleteMeta (store o) c)).
Proof. intros Ho. apply store_sub_ok; [done|apply deleteMeta_ok, Ho|]. apply (wi_store _ _ (tk_within _ _ _ Ho)). Qed.
Lemma loadAll_tab G C o : tab_ok G C o → let '(s, r) := loadAll (store o) in
  tab_ok G C (on_store o s) ∧ ∀ e, e ∈ hy_entries r → record_claim e ∈ G.
Proof.
  intros Ho. pose proof (loadAll_spec (store o) (tk_store _ _ _ Ho)) as H. destruct (loadAll (store o)) as [s r]. destruct H as (H1 & _ & _ & H3 & H4).
  pose proof (wi_store _ _ (tk_within _ _ _ Ho)) as W.
  assert (Hs : ∀ c q e, stored s c q = Some e → record_claim e ∈ G).
  { intros c q e. rewrite H4. destruct (stored (store o) c q) as [e'|] eqn:E; [|done]. destruct (current_version e'); [|done]. intros [= <-]. by eapply W. }
  split; [by apply store_sub_ok|]. intros e He%H3. by eapply Hs.
Qed.

(** *** The reconciler *)
Lemma rec_ok_tab G C o r : tab_ok G C o → rec_ok r → gated r → (∀ q p, jm_get (byId (rstore r)) q = Some p → q < nextQueryId (base o)) →
  (∀ rid e x, jm_get (log r) rid = Some e → entry_claim e = Some x → x ∈ G) → tab_ok G C (on_rec o r).
Proof.
  intros [H1 H2 H3 H4 [W1 W2 W3 W4 W5]] Hr Hg Hq Hl. split; [done|done|by split_and!|done|]. by split.
Qed.
Lemma log_from_claims G o r : within G o → log_from (rec (base o)) r → ∀ rid e x, jm_get (log r) rid = Some e → entry_claim e = Some x → x ∈ G.
Proof.
  intros W Hf rid e x He Hx. destruct (Hf rid e He) as (e0 & He0 & Hc & _). apply (wi_log _ _ W rid e0); [done|]. by rewrite <-(same_call_claim _ _ Hc).
Qed.
Lemma rstep_tab G C o ev : tab_ok G C o → allowed stringify (rec (base o)) ev → shrinks ev = true → changes_queries ev = false →
  tab_ok G C (on_rec o (rstep stringify (rec (base o)) ev)).
Proof.
  intros Ho Ha Hs Hq. destruct (tk_rec _ _ _ Ho) as (Hr & Hg & Hqs). destruct (step_ok stringify _ ev Hr Hg Ha) as [H1 H2].
  apply rec_ok_tab; [done..| |apply (log_from_claims G o); [apply Ho|by apply step_log]].
  intros q p Hp. eapply Hqs. by eapply step_byId.
Qed.
Lemma failure_tab G C o rid : tab_ok G C o → tab_ok G C (onFailure stringify rid o).
Proof. intros Ho. by apply (rstep_tab G C o (EvFailure rid)). Qed.
Lemma success_tab G C o rid ts now : tab_ok G C o → tab_ok G C (onSuccess stringify rid ts now o).
Proof. intros Ho. by apply (rstep_tab G C o (EvSuccess rid ts now)). Qed.
Lemma dropNow_tab G C o rid : tab_ok G C o → tab_ok G C (dropNow stringify rid o).
Proof. intros Ho. by apply (rstep_tab G C o (EvVerdict rid)). Qed.

(** An entry joins the log. *)
Lemma hydrate_log_tab G C o p : tab_ok G C o → fresh_entry p → (∀ x, entry_claim p = Some x → x ∈ G) →
  tab_ok G C (on_rec o (addHydrated stringify (rec (base o)) p)).
Proof.
  intros Ho Hf Hp. destruct (tk_rec _ _ _ Ho) as (Hr & Hg & Hqs). pose proof (log_add_ok _ p Hr Hf) as Hr'. pose proof (log_add_gated _ p Hf Hg) as Hg'.
  assert (Hadd : ∀ rid e x, jm_get (log_add (log (rec (base o))) p) rid = Some e → entry_claim e = Some x → x ∈ G).
  { intros rid e x. unfold log_add. rewrite jm_get_set. case_decide; [intros [= <-]; apply Hp|]. apply (wi_log _ _ (tk_within _ _ _ Ho)). }
  unfold addHydrated. destruct (update p); [|by apply rec_ok_tab].
  apply rec_ok_tab; [done|by apply rebuild_spec|by apply rebuild_gated|by rewrite rebuild_byId|].
  intros rid e x He Hx. destruct (log_from_rebuild stringify _ [] Hr' rid e He) as (e0 & He0 & Hc & _). eapply Hadd; [exact He0|].
  by rewrite <-(same_call_claim _ _ Hc).
Qed.
Lemma initiate_hydrate r e : (initiate stringify r e).1 = addHydrated stringify r e.
Proof. by rewrite initiate_state. Qed.

(** Entries changed in place. *)
Lemma log_map_tab G C o rid f : tab_ok G C o → (∀ e, requestId (f e) = requestId e ∧ ((∀ ts at_, status (f e) ≠ Completed ts at_) ∨ status (f e) = status e)) →
  (∀ e x, jm_get (olog o) rid = Some e → entry_claim (f e) = Some x → x ∈ G) →
  tab_ok G C (on_rec o (with_log (rec (base o)) (log_update (olog o) rid f))).
Proof.
  intros Ho Hf Hc. destruct (tk_rec _ _ _ Ho) as (Hr & Hg & Hqs). apply rec_ok_tab; [done| | |done|].
  - apply with_log_ok; [done|apply log_update_ok, Hr|]. intros rid' e. rewrite log_update_get.
    destruct (decide (rid' = rid)) as [->|]; [|intros He; split; [by eapply re_ids|intros ts at_ Hst; by eapply re_timer]].
    destruct (jm_get (olog o) rid) as [e0|] eqn:E; [|done]. intros [= <-]. destruct (Hf e0) as [Hi Hst]. split; [rewrite Hi; by eapply re_ids|].
    intros ts at_ Hs. destruct Hst as [Hn|Hst]; [by destruct (Hn ts at_)|]. rewrite Hst in Hs. by eapply re_timer.
  - intros rid' e ts at_. cbn. rewrite log_update_get. case_decide; [|by apply Hg]. subst rid'.
    destruct (jm_get (olog o) rid) as [e0|] eqn:E; [|done]. intros [= <-] Hs. destruct (Hf e0) as [_ [Hn|Hst]]; [by destruct (Hn ts at_)|].
    rewrite Hst in Hs. by eapply Hg.
  - intros rid' e x. cbn. rewrite log_update_get. case_decide; [|apply (wi_log _ _ (tk_within _ _ _ Ho))]. subst rid'.
    destruct (jm_get (olog o) rid) as [e0|] eqn:E; [|done]. intros [= <-]. by apply Hc.
Qed.
Lemma status_tab G C o rid st : tab_ok G C o → (∀ ts at_, st ≠ Completed ts at_) → tab_ok G C (on_base o (set_status (base o) rid st)).
Proof.
  intros Ho Hst. apply (log_map_tab G C o rid (with_status st)); [done|intros e; split; [done|by left]|].
  intros e x He Hx. by eapply (wi_log _ _ (tk_within _ _ _ Ho)).
Qed.

(** *** Writes, settlements and the drain *)
Lemma settle_base_tab G C o rid x : tab_ok G C o → tab_ok G C (on_base o (settleMutation (base o) rid x)).
Proof. intros Ho. apply base_ok; [done|..]; unfold settleMutation; by case_bool_decide. Qed.
Lemma nudge_tab G C o : tab_ok G C o → tab_ok G C (nudge o).
Proof. intros Ho. unfold nudge. destruct (_ || _); [done|]. by apply plain_job_ok. Qed.
Lemma outboxDequeue_tab G C o c q : tab_ok G C o → tab_ok G C (outboxDequeue c q o).
Proof. intros Ho. by apply plain_job_ok, dequeue_tab. Qed.
Lemma outboxUpdateStatus_tab G C o c q st : tab_ok G C o → tab_ok G C (outboxUpdateStatus c q st o).
Proof. intros Ho. by apply plain_job_ok, updateStatus_tab. Qed.
Lemma outboxMarkFailed_tab G C o c q m code : tab_ok G C o → tab_ok G C (outboxMarkFailed c q m code o).
Proof. intros Ho. by apply plain_job_ok, updateStatus_tab. Qed.
Lemma dequeueOutboxEntry_tab G C o e : tab_ok G C o → tab_ok G C (dequeueOutboxEntry e o).
Proof. intros Ho. unfold dequeueOutboxEntry. destruct e as [e|]; [|done]. destruct (clientId e), (seq e); try done. by apply outboxDequeue_tab. Qed.
Lemma baseline_tab G C o aw drops w : tab_ok G C o → tab_ok G C (with_baseline o aw drops w).
Proof. apply shake_ok. Qed.
Lemma dropAfterBaseline_tab G C o rid : tab_ok G C o → tab_ok G C (dropAfterBaseline stringify rid o).
Proof. intros Ho. unfold dropAfterBaseline. destruct (outboxAwaitingBaseline _); [by apply baseline_tab|by apply dropNow_tab]. Qed.
Lemma setStatus_tab G C o e st rs : tab_ok G C o → (∀ ts at_, st ≠ Completed ts at_) → tab_ok G C (setStatus e st rs o).
Proof.
  intros Ho Hst. unfold setStatus. pose proof (status_tab G C o (requestId e) st Ho Hst). destruct (clientId e), (seq e); try done.
  by apply outboxUpdateStatus_tab.
Qed.
#[local] Hint Resolve settle_base_tab nudge_tab outboxDequeue_tab outboxUpdateStatus_tab outboxMarkFailed_tab dequeueOutboxEntry_tab
  dropAfterBaseline_tab failure_tab success_tab dropNow_tab post_ok failed_ok setStatus_tab shake_ok baseline_tab order_ok fingerprint_ok mirror_ok
  reset_callback_ok setMeta_tab deleteMeta_tab updateStatus_tab dequeue_tab : outbox.
#[local] Hint Extern 2 (tab_ok _ _ (on_drain _ _)) => apply drain_same_ok; [|done] : outbox.
#[local] Hint Extern 2 (tab_ok _ _ (push_job _ _)) => apply plain_job_ok; [done|] : outbox.

Lemma fold_tab {A} (f : OClient → A → OClient) (P : A → Prop) G C l o : (∀ o x, P x → tab_ok G C o → tab_ok G C (f o x)) → Forall P l → tab_ok G C o → tab_ok G C (fold_left f l o).
Proof. intros Hf HP. revert o. induction HP as [|x l Hx HP IH]; intros o Ho; [done|]. by apply IH, Hf. Qed.
Lemma fold_all_tab {A} (f : OClient → A → OClient) G C l o : (∀ o x, tab_ok G C o → tab_ok G C (f o x)) → tab_ok G C o → tab_ok G C (fold_left f l o).
Proof. intros Hf. apply (fold_tab f (λ _, True)); [intros; by apply Hf|]. by apply Forall_true. Qed.

Lemma drainSettleApplied_tab G C o rid v rp ts now : tab_ok G C o → tab_ok G C (drainSettleApplied stringify rid v rp ts now o).
Proof.
  intros Ho. unfold drainSettleApplied. assert (H1 : tab_ok G C (dequeueOutboxEntry (jm_get (olog o) rid) (resolvePending rid v o))) by (unfold resolvePending; auto with outbox).
  destruct (jm_get (olog o) rid) as [e|]; [|done]. destruct rp, (clientId e), (seq e); auto with outbox.
Qed.
Lemma drainSettleTerminal_tab G C o rid code m : tab_ok G C o → tab_ok G C (drainSettleTerminal stringify rid code m o).
Proof.
  intros Ho. unfold drainSettleTerminal, rejectPending. destruct (jm_get (olog o) rid) as [e|]; cbn; destruct (hadAwaiter rid o); try destruct (clientId e), (seq e);
    auto 10 with outbox.
Qed.
#[local] Hint Resolve drainSettleApplied_tab drainSettleTerminal_tab : outbox.

Definition claimed (G : list claim) (e : PendingMutation) : Prop := ∀ x, entry_claim e = Some x → x ∈ G.

Lemma flush_loop_tab fp G C all : Forall (claimed G) all → ∀ map chunk b o, tab_ok G C o →
  (∀ rid e, (rid, e) ∈ map → claimed G e) → (∀ u x, u ∈ chunk → unit_claim u = Some x → x ∈ G) →
  let '(o', map', chunk', _) := flush_loop stringify chunkSize fp all map chunk b o in
  tab_ok G C o' ∧ (∀ rid e, (rid, e) ∈ map' → claimed G e) ∧ (∀ u x, u ∈ chunk' → unit_claim u = Some x → x ∈ G).
Proof.
  induction 1 as [|e all He Hall IH]; intros map chunk b o Ho Hm Hc; cbn [flush_loop]; [done|]. destruct (Nat.leb _ _); [done|].
  destruct (match identityFingerprint e with Some f => _ | None => _ end); [apply IH; auto with outbox|].
  apply IH; [apply setStatus_tab; done| |].
  - intros rid e' Hin. assert (Hor : (rid, e') ∈ map ∨ e' = e).
    { clear -Hin. induction map as [|[k v] map IH]; cbn in Hin.
      - apply list_elem_of_singleton in Hin. right. by simplify_eq.
      - destruct (decide (requestId e = k)); apply elem_of_cons in Hin as [E|Hin].
        + right. by simplify_eq.
        + left. by right.
        + left. rewrite E. left.
        + destruct (IH Hin); [left; by right|by right]. }
    destruct Hor as [Hin'| ->]; [by eapply Hm|done].
  - intros u x [Hu|Hu]%elem_of_app; [by apply Hc|]. apply list_elem_of_singleton in Hu as ->. apply He.
Qed.

Lemma drainable_claimed G C o : tab_ok G C o → Forall (claimed G) (drainableEntries o).
Proof.
  intros Ho. apply Forall_forall. intros e He x Hx. apply elem_of_sort_by, list_elem_of_In, List.filter_In in He as [He%list_elem_of_In _].
  by eapply entry_in_log.
Qed.

Lemma flushChunk_tab G C o : tab_ok G C o → tab_ok G C (flushChunk stringify chunkSize o).
Proof.
  intros Ho. unfold flushChunk.
  pose proof (flush_loop_tab (outboxFingerprint (ident o)) G C _ (drainable_claimed G C o Ho) [] [] false o Ho) as H.
  destruct (flush_loop _ _ _ _ _ _ _ _) as [[[o' map] chunk] b]. destruct H as (H1 & H2 & H3).
  { intros rid e Hin. by apply not_elem_of_nil in Hin. } { intros u x Hin. by apply not_elem_of_nil in Hin. }
  destruct chunk as [|u chunk]; [destruct b; auto with outbox|]. apply osend_ok; [|done]. apply (drain_new_ok G C o' _ map); [done|done|].
  intros rid e x Hin. by apply (H2 rid e).
Qed.
Lemma resume_flush_tab G C o : tab_ok G C o → tab_ok G C (resume_flush stringify chunkSize o).
Proof.
  intros Ho. unfold resume_flush. pose proof (flushChunk_tab G C o Ho). destruct (canDrain o); auto with outbox.
Qed.
Lemma maybeDrainNext_tab G C o : tab_ok G C o → tab_ok G C (maybeDrainNext o).
Proof. intros Ho. unfold maybeDrainNext. destruct (_ || _); [done|]. cbv zeta. destruct (outboxAwaitingBaseline _); auto with outbox. Qed.
Lemma onForwardProgress_tab G C o : tab_ok G C o → tab_ok G C (onForwardProgress o).
Proof.
  intros Ho. unfold onForwardProgress. set (o1 := on_drain o _). assert (H1 : tab_ok G C o1) by (unfold o1; auto with outbox).
  destruct (active (drain o1)) as [[|]|]; try done. apply nudge_tab. by apply drain_sub_ok.
Qed.
Lemma revertActive_tab G C o : tab_ok G C o → tab_ok G C (revertActive o).
Proof.
  intros Ho. unfold revertActive. destruct (active (drain o)) as [m|] eqn:E; [|done]. set (o1 := fold_left _ _ o).
  assert (H1 : tab_ok G C o1) by (apply fold_all_tab; [intros; by apply setStatus_tab|done]). by apply drain_sub_ok.
Qed.
Lemma drop_active_tab G C o rid : tab_ok G C o → tab_ok G C (drop_active rid o).
Proof.
  intros Ho. unfold drop_active. destruct (active (drain o)) as [m|] eqn:E; [|done]. apply drain_sub_ok; [done|]. cbn. intros m' [= <-]. exists m.
  split; [done|]. intros x. apply jm_delete_sub.
Qed.
#[local] Hint Resolve flushChunk_tab resume_flush_tab maybeDrainNext_tab onForwardProgress_tab revertActive_tab drop_active_tab : outbox.

Lemma onResponse_tab G C o rid msg now : tab_ok G C o → tab_ok G C (onResponse stringify poisonPause rid msg now o).1.
Proof.
  intros Ho. unfold onResponse. destruct (active (drain o) ≫= _) as [e|]; [|done]. destruct msg as [v ts rp vm|error [code|]].
  - destruct (if vm then _ else _); cbn [fst]; auto with outbox.
  - destruct poisonPause; cbn [fst]; [apply revertActive_tab|]; auto with outbox.
  - cbn [fst]. apply drain_same_ok; [|done]. apply revertActive_tab. auto with outbox.
Qed.

Lemma clear_backoff_active d : active (clear_backoff d) = active d.
Proof. unfold clear_backoff. by destruct (backoffTimer d). Qed.
Lemma stop_tab G C o : tab_ok G C o → tab_ok G C (stop o).
Proof. intros Ho. unfold stop. destruct (stopped _); [done|]. apply drain_sub_ok; [done|]. cbv zeta. by rewrite clear_backoff_active. Qed.
Lemma drain_closed_tab G C o : tab_ok G C o → tab_ok G C (drain_onTransportClosed o).
Proof. intros Ho. unfold drain_onTransportClosed. apply drain_same_ok; [auto with outbox|]. by rewrite clear_backoff_active. Qed.
Lemma resume_tab G C o : tab_ok G C o → tab_ok G C (resume o).
Proof. intros Ho. unfold resume. destruct (negb _); auto with outbox. Qed.
#[local] Hint Resolve onResponse_tab stop_tab drain_closed_tab resume_tab : outbox.

(** *** Hydration and the handshake *)
Lemma next_request_tab G C o : tab_ok G C o → tab_ok G C (next_request o).
Proof. intros Ho. by apply base_ok. Qed.
Lemma dropIfNonReplayable_tab G C o e o' : tab_ok G C o → dropIfNonReplayable e o = Some o' → tab_ok G C o'.
Proof. intros Ho. unfold dropIfNonReplayable. case_bool_decide; [|done]. intros [= <-]. by apply updateStatus_tab. Qed.
Lemma addHydratedEntry_tab G C o e : record_claim e ∈ G → tab_ok G C o → tab_ok G C (addHydratedEntry stringify optimisticUpdates e o).
Proof.
  intros He Ho. unfold addHydratedEntry. destruct (dropIfNonReplayable e o) as [o'|] eqn:E; [by eapply dropIfNonReplayable_tab|].
  destruct (findOutboxEntry _ _ _); [done|]. apply hydrate_log_tab; [by apply next_request_tab, order_ok|done|]. cbn. intros x [= <-]. done.
Qed.
Lemma hydrateOnce_tab G C es o : Forall (λ e, record_claim e ∈ G) es → tab_ok G C o → tab_ok G C (hydrateOnce stringify optimisticUpdates es o).
Proof.
  intros Hes Ho. apply plain_job_ok; [done|]. apply (fold_tab _ (λ e, record_claim e ∈ G)); [|done|done]. intros o1 e He Ho1. unfold hydrate_one.
  destruct (held_record _); [|done]. destruct (dropIfNonReplayable e o1) as [o'|] eqn:E; [by eapply dropIfNonReplayable_tab|by apply addHydratedEntry_tab].
Qed.
Lemma prune_tab G C cur live ids o : tab_ok G C o → tab_ok G C (prune_next cur live ids o).
Proof. intros Ho. induction ids as [|id ids IH]; cbn; [auto with outbox|]. destruct (_ || _); [done|auto with outbox]. Qed.
Lemma markBaselineAdopted_tab G C o : tab_ok G C o → tab_ok G C (markBaselineAdopted stringify o).
Proof.
  intros Ho. unfold markBaselineAdopted. apply nudge_tab. set (o1 := fold_left _ _ _).
  assert (H1 : tab_ok G C o1) by (apply fold_all_tab; [intros; by apply dropNow_tab|by apply baseline_tab]).
  generalize (baselineWaiters (shake o)). induction n as [|n IH]; cbn; [done|]. by apply plain_job_ok.
Qed.
Lemma initiateHandshake_tab G C o b : tab_ok G C o → tab_ok G C (initiateHandshake stringify b o).
Proof.
  intros Ho. unfold initiateHandshake. destruct (_ || _); [done|]. apply osend_ok; [|intros u x H; by apply not_elem_of_nil in H].
  unfold beginBaselineAwait. destruct b; [|apply markBaselineAdopted_tab]; by apply baseline_tab, shake_ok.
Qed.
Lemma becomeLeader_tab G C o : tab_ok G C o → tab_ok G C (becomeLeader o).
Proof.
  intros Ho. unfold becomeLeader. destruct (stopped _); [done|]. set (o1 := on_drain o _). assert (H1 : tab_ok G C o1) by (unfold o1; auto with outbox).
  destruct (hydrated _); [auto with outbox|]. pose proof (loadAll_tab G C o1 H1) as H. destruct (loadAll (store o1)) as [s r]. destruct H as [H2 H3]. by apply job_ok.
Qed.
Lemma leader_tail_tab G C o : tab_ok G C o → tab_ok G C (becomeLeader_tail stringify o).
Proof.
  intros Ho. unfold becomeLeader_tail. destruct (stopped _); [done|]. apply maybeDrainNext_tab.
  destruct (_ && _); apply drain_same_ok; try done. by apply initiateHandshake_tab.
Qed.
Lemma mirrorFromStore_tab G C o : tab_ok G C o → tab_ok G C (mirrorFromStore o).
Proof.
  intros Ho. unfold mirrorFromStore. destruct (mirrorInFlight _); [auto with outbox|]. pose proof (loadAll_tab G C o Ho) as H. destruct (loadAll (store o)) as [s r].
  destruct H as [H2 H3]. apply job_ok; auto with outbox.
Qed.
Lemma mirror_pass_tab G C es o : Forall (λ e, record_claim e ∈ G) es → tab_ok G C o → tab_ok G C (mirror_pass stringify optimisticUpdates es o).
Proof.
  intros Hes Ho. unfold mirror_pass. set (o1 := fold_left _ es o). assert (H1 : tab_ok G C o1).
  { apply (fold_tab _ (λ e, record_claim e ∈ G)); [|done|done]. intros o2 e He Ho2. destruct (held_record _); [by apply addHydratedEntry_tab|done]. }
  set (o2 := fold_left _ _ o1). assert (H2 : tab_ok G C o2).
  { apply fold_all_tab; [|done]. intros o3 e Ho3. unfold reconcile_mirror. destruct (isMirroredEntry e o3), (clientId e), (seq e), (status e); try done.
    all: destruct (existsb _ _); [done|]; destruct (mirrored_record _ _) as [x|]; [destruct (ob_status x)|]; auto with outbox. }
  destruct (mirrorRerun _); [|auto with outbox]. pose proof (loadAll_tab G C o2 H2) as H. destruct (loadAll (store o2)) as [s r].
  destruct H as [H3 H4]. apply job_ok; auto with outbox.
Qed.
Lemma crossTab_tab G C o c q x now : tab_ok G C o → tab_ok G C (onCrossTabSettle stringify c q x now o).
Proof.
  intros Ho. unfold onCrossTabSettle. destruct (findOutboxEntry _ _ _); [|done]. destruct (isMirroredEntry _ _); [|done]. destruct x as [|[]]; auto with outbox.
Qed.
Lemma verdicts_tab G C vs o : tab_ok G C o → tab_ok G C (settleVerdicts stringify vs o).1.
Proof.
  revert o. induction vs as [|v vs IH]; intros o Ho; cbn [settleVerdicts]; [done|].
  assert (H1 : tab_ok G C (settleVerdict stringify v o).1).
  { unfold settleVerdict. destruct (cmv_verdict v) as [r|]; [|done].
    assert (Hf : ∀ e m code, tab_ok G C (settle_failed stringify v e m code o)).
    { intros e m code. unfold settle_failed, rejectPending. destruct e as [e|]; [destruct (hadAwaiter _ _)|]; auto 10 with outbox. }
    destruct (rp_verdict r); [|apply Hf|apply Hf]. destruct (if rp_valueMissing r then _ else _); [|done]. cbn [fst]. unfold resolvePending.
    destruct (findOutboxEntry _ _ _); auto with outbox. }
  destruct (settleVerdict stringify v o) as [o1 [[]|e]]; [by apply IH|done].
Qed.

(** *** What the client does as without an outbox *)
Record quiet_step (c c' : Client) : Prop := {
  qs_rec : rec_inv c → rec_inv c';
  qs_log : rec_inv c → log_from (rec c) (rec c');
  qs_wire : wire_units c' = wire_units c }.
#[local] Instance quiet_preorder : PreOrder quiet_step.
Proof.
  split; [intros c; split; [done|intros _; apply log_from_refl|done]|]. intros c1 c2 c3 [A1 A2 A3] [B1 B2 B3].
  split; [by eauto|intros H; eapply log_from_trans; eauto|congruence].
Qed.
Lemma quiet_tab G C o c : tab_ok G C o → quiet_step (base o) c → tab_ok G C (on_base o c).
Proof.
  intros Ho [Q1 Q2 Q3]. pose proof (tk_rec _ _ _ Ho) as Hr. pose proof (tk_within _ _ _ Ho) as W. destruct Ho as [H1 H2 _ H4 _].
  split; [done|done|by apply Q1|done|]. pose proof (log_from_claims G o (rec c) W (Q2 Hr)) as Hl. destruct W as [W1 W2 W3 W4 W5].
  split; cbn; [by rewrite Q3|exact Hl|done|done|done].
Qed.
Lemma quiet_step_same c c' : rec c' = rec c → nextQueryId c' = nextQueryId c → wire_units c' = wire_units c → quiet_step c c'.
Proof. intros E1 E2 E3. split; [unfold rec_inv; by rewrite E1, E2|intros _; apply log_from_log; by rewrite E1|done]. Qed.
Lemma quiet_send c m : units_of m = [] → quiet_step c (send_msg c m).
Proof. intros E. apply quiet_step_same; [done|done|]. by rewrite wire_send, E, app_nil_r. Qed.
Lemma quiet_rec c ev : allowed stringify (rec c) ev → shrinks ev = true → changes_queries ev = false → quiet_step c (with_rec c (rstep stringify (rec c) ev)).
Proof.
  intros Ha Hs Hq. split; [|intros (Hr & _); by apply step_log|done]. intros (Hr & Hg & Hqs). destruct (step_ok stringify _ ev Hr Hg Ha) as [H1 H2].
  split_and!; [done..|]. intros q p Hp. apply (Hqs q p). exact (step_byId stringify (rec c) ev q p Hq Hp).
Qed.
Lemma quiet_settle c rid x : quiet_step c (settleMutation c rid x).
Proof. apply quiet_step_same; unfold settleMutation; by case_bool_decide. Qed.

Lemma quiet_subscribe c path args l : quiet_step c (subscribe stringify c path args l).
Proof.
  unfold subscribe. set (h := queryHash stringify path (convexToJson args)).
  set (c1 := match jm_get (byHash (rstore (rec c))) h with Some _ => c | None => _ end). assert (H1 : quiet_step c c1).
  { unfold c1. destruct (jm_get (byHash (rstore (rec c))) h) eqn:Eh; [done|]. set (c0 := with_rec _ _).
    transitivity c0; [|transitivity (maybeSendDiffCapability c0); [|by apply quiet_send]].
    - split; [|intros _; by apply log_from_log|done]. intros (Hr & Hg & Hqs). assert (Hn : jm_get (byId (rstore (rec c))) (nextQueryId c) = None).
      { destruct (jm_get (byId (rstore (rec c))) (nextQueryId c)) as [p|] eqn:E; [|reflexivity]. pose proof (Hqs _ _ E). lia. }
      destruct (step_ok stringify (rec c) (EvSubscribe (nextQueryId c) path (convexToJson args) h) Hr Hg (conj Eh Hn)) as [A B].
      split_and!; [done|done|]. intros q p. cbn. rewrite jm_get_set. case_decide; [intros _; subst; lia|]. intros Hq. pose proof (Hqs _ _ Hq). lia.
    - unfold maybeSendDiffCapability. destruct (_ || _); [done|]. apply quiet_step_same; [done|done|]. rewrite wire_send. cbn. by rewrite app_nil_r. }
  transitivity c1; [done|]. destruct (jm_get (byHash (rstore (rec c1))) h ≫= _) as [sub|]; [|done].
  pose proof (quiet_rec c1 (EvListeners h (set_add (listeners sub) l)) I eq_refl eq_refl) as H2.
  destruct (composedValue sub) as [v|]; [|exact H2]. etransitivity; [exact H2|].
  exact (quiet_rec _ (EvDeliver [NUpdate l v]) I eq_refl eq_refl).
Qed.
Lemma quiet_unsubscribe c h l : quiet_step c (unsubscribe c h l).
Proof.
  unfold unsubscribe. destruct (_ ≫= _) as [sub|]; [|done]. set (ls := filter _ _). pose proof (quiet_rec c (EvListeners h ls) I eq_refl eq_refl) as H1.
  destruct (Nat.eqb _ _); [|exact H1]. etransitivity; [exact H1|]. set (c1 := with_rec c _).
  transitivity (send_msg c1 (MModifyQuerySet [] [cs_queryId sub])); [by apply quiet_send|]. set (c2 := send_msg c1 _).
  split; [|intros _; by apply log_from_log|done]. intros (Hr & Hg & Hqs). destruct (step_ok stringify (rec c2) (EvUnsubscribe h) Hr Hg I) as [A B].
  split_and!; [done|done|]. intros q p. cbn. unfold remove. destruct (_ ≫= _) as [sub'|]; [|apply Hqs]. cbn.
  rewrite jm_get_delete by apply (re_store _ Hr). case_decide; [done|]. apply Hqs.
Qed.
Lemma quiet_resync c : quiet_step c (resync c).
Proof.
  destruct (resync_books c) as [[E1 E2 E3 E4 E5 E6] Hr]. apply quiet_step_same; [done|done|]. unfold resync. destruct (omap _ _) as [|s ss]; [done|].
  rewrite wire_send. cbn. by rewrite app_nil_r.
Qed.
Lemma wire_ingest_mods ms c u : wire_units (ingest_mods c u ms).1.1 = wire_units c.
Proof.
  revert c u. induction ms as [|m ms IH]; intros c u; [done|]. cbn [ingest_mods]. destruct (apply_mod (rec c) u m) as [[r1 u1] x]. set (c1 := if negb _ then _ else _).
  assert (E : wire_units c1 = wire_units c) by (unfold c1; destruct (negb _); [apply (qs_wire _ _ (quiet_resync (with_rec c r1)))|done]).
  destruct x as [[]|e]; [by rewrite IH|done].
Qed.
Lemma quiet_ingest c ms ts : (client_ingest stringify c ms ts).2 = Ok tt → quiet_step c (client_ingest stringify c ms ts).1.
Proof.
  intros Hok. pose proof (client_ingest_spec stringify c ms ts) as Hs. assert (Hw : wire_units (client_ingest stringify c ms ts).1 = wire_units c).
  { unfold client_ingest. pose proof (wire_ingest_mods ms (with_rec c (with_observed (rec c) (Z.max (observedTs (rec c)) ts))) []) as H.
    by destruct (ingest_mods _ _ _) as [[c1 u] [[]|e]]. }
  destruct (client_ingest stringify c ms ts) as [c' x]. cbn [fst snd] in *. subst x. destruct Hs as [[E1 _ _ _ _ _] E].
  assert (Ha : allowed stringify (rec c) (EvIngest ms ts)) by (cbn; by rewrite <-E).
  assert (Er : rec c' = rstep stringify (rec c) (EvIngest ms ts)) by (cbn; by rewrite <-E).
  destruct (quiet_rec c (EvIngest ms ts) Ha eq_refl eq_refl) as [Q1 Q2 Q3]. split; [|intros H; rewrite Er; by apply Q2|done].
  intros H. destruct (Q1 H) as (A & B & D). unfold rec_inv. rewrite Er, E1. done.
Qed.
Lemma quiet_transition c b : (onTransition stringify c b).2 = Ok tt → quiet_step c (onTransition stringify c b).1.
Proof.
  unfold onTransition. pose proof (quiet_ingest c (modifications b) (v_ts (endVersion b))) as Hi. destruct (resyncing c); [|destruct (negb _)].
  - destruct (client_ingest _ _ _) as [c' [[]|e]]; [|done]. intros _. transitivity c'; [by apply Hi|by apply quiet_step_same].
  - intros _. apply quiet_resync.
  - destruct (client_ingest _ _ _) as [c' [[]|e]]; [|done]. intros _. transitivity c'; [by apply Hi|by apply quiet_step_same].
Qed.
Lemma quiet_response c rid r err code now : quiet_step c (onMutationResponse stringify c rid r err code now).1.
Proof.
  unfold onMutationResponse. destruct r as [[v ts]|e].
  - destruct (if bool_decide _ then _ else _) as [v'|e']; [|by apply quiet_step_same]. cbn [fst]. etransitivity; [apply (quiet_settle c rid (Resolved v'))|].
    by apply (quiet_rec _ (EvSuccess rid ts now)).
  - cbn [fst]. etransitivity; [apply (quiet_settle c rid (Rejected err code))|]. by apply (quiet_rec _ (EvFailure rid)).
Qed.
Lemma quiet_folds {A} (f : Client → A → Client) l c : (∀ c x, quiet_step c (f c x)) → quiet_step c (fold_left f l c).
Proof. intros Hf. revert c. induction l as [|x l IH]; intros c; [done|]. cbn. etransitivity; [apply Hf|apply IH]. Qed.
Lemma wire_settle c rid x : wire_units (settle c rid x) = wire_units c.
Proof. done. Qed.

(** *** The transport *)
Lemma closed_tab G C o : tab_ok G C o → tab_ok G C (o_onTransportClosed stringify o).
Proof.
  intros Ho. unfold o_onTransportClosed. set (o1 := drain_onTransportClosed _). assert (H1 : tab_ok G C o1).
  { apply drain_closed_tab. apply shake_ok. by apply quiet_tab, quiet_step_same. }
  set (c1 := with_capability (base o1) _ _). destruct (closeSession stringify (rec c1) (outboxArmed (shake o1))) as [r x] eqn:Ec.
  assert (Er : r = rstep stringify (rec c1) (EvClose (outboxArmed (shake o1)))) by (cbn [rstep]; by rewrite Ec).
  set (c2 := fold_left (λ c rid, settleMutation c rid Undelivered) (rejectedInflight x) (with_rec c1 r)).
  assert (H2 : tab_ok G C (on_base o1 c2)).
  { apply quiet_tab; [done|]. transitivity c1; [by apply quiet_step_same|]. transitivity (with_rec c1 r); [rewrite Er; by apply quiet_rec|].
    apply quiet_folds. intros; apply quiet_settle. }
  set (o3 := fold_left _ (parked x) (on_base o1 c2)). assert (H3 : tab_ok G C o3).
  { apply fold_all_tab; [|done]. intros o4 rid H4. destruct (jm_get (olog o4) rid) as [e|]; [|done]. destruct (clientId e), (seq e); auto with outbox. }
  apply quiet_tab; [done|]. etransitivity; [apply (quiet_folds (λ c rid, settle c rid ConnectionClosed) (pendingActions (base o3)))|by apply quiet_step_same].
  intros; by apply quiet_step_same.
Qed.
Lemma reopened_tab G C o : tab_ok G C o → tab_ok G C (o_onTransportReopened stringify o).
Proof.
  intros Ho. unfold o_onTransportReopened. apply nudge_tab, initiateHandshake_tab. apply quiet_tab; [done|].
  set (c0 := with_session _ _ _ _). transitivity c0; [by apply quiet_step_same|]. set (c1 := if hasSetAuth c0 then _ else _).
  transitivity c1; [unfold c1; destruct (hasSetAuth c0); [by apply quiet_send|done]|]. transitivity (maybeSendDiffCapability c1); [|apply quiet_resync].
  unfold maybeSendDiffCapability. destruct (_ || _); [done|]. apply quiet_step_same; [done|done|]. rewrite wire_send. cbn. by rewrite app_nil_r.
Qed.
Lemma transition_tab G C o b : tab_ok G C o → (o_onTransition stringify b o).2 = Ok tt → tab_ok G C (o_onTransition stringify b o).1.
Proof.
  intros Ho. unfold o_onTransition. pose proof (quiet_transition (base o) b) as Hq. destruct (onTransition stringify (base o) b) as [c [[]|e]]; [|done].
  intros _. pose proof (quiet_tab G C o c Ho (Hq eq_refl)). cbn [fst]. destruct (_ && _); [by apply markBaselineAdopted_tab|done].
Qed.
Lemma response_tab G C o rid msg now : tab_ok G C o → tab_ok G C (o_onMutationResponse stringify poisonPause rid msg now o).1.
Proof.
  intros Ho. unfold o_onMutationResponse. destruct (handles _ _); [by apply onResponse_tab|].
  destruct (match msg with ReplyError m c => (m, c) | _ => _ end) as [error code]. pose proof (quiet_response (base o) rid (reply_value msg) error code now) as Hq.
  destruct (onMutationResponse _ _ _ _ _ _ _) as [c x]. pose proof (quiet_tab G C o c Ho Hq) as H1. destruct msg, x; cbn [fst]; try done; [auto with outbox|].
  destruct (jm_get (olog o) rid ≫= clientId), (jm_get (olog o) rid ≫= seq), (hadAwaiter rid o); auto with outbox.
Qed.

(** *** Allocating a reference *)
Definition functional G : Prop := ∀ r p p', (r, p) ∈ G → (r, p') ∈ G → p = p'.
(** [G'] adds references of [C] only, and stays functional. *)
Record grows (G G' : list claim) (C : jsstr) : Prop := {
  gr_sub : ∀ x, x ∈ G → x ∈ G';
  gr_new : ∀ x, x ∈ G' → x ∈ G ∨ x.1.1 = C;
  gr_fun : functional G → functional G' }.
Lemma grows_refl G C : grows G G C.
Proof. split; eauto. Qed.
Lemma grows_trans G1 G2 G3 C : grows G1 G2 C → grows G2 G3 C → grows G1 G3 C.
Proof. intros [A1 A2 A3] [B1 B2 B3]. split; eauto. intros x [Hx|Hx]%B2; [by apply A2|by right]. Qed.

Lemma within_mono G G' o : (∀ x, x ∈ G → x ∈ G') → within G o → within G' o.
Proof. intros Hs [W1 W2 W3 W4 W5]. split; eauto. Qed.
Lemma tab_grows G G' C o : grows G G' C → (∀ q p, ((C, q), p) ∈ G' → q < outboxNextSeq (ident o)) → tab_ok G C o → tab_ok G' C o.
Proof. intros Hg Hb [H1 H2 H3 H4 H5]. split; try done. eapply within_mono; [apply Hg|done]. Qed.

Lemma alloc_tab G C o p : tab_ok G C o → let x := ((C, outboxNextSeq (ident o)), p) in
  grows G (x :: G) C ∧ tab_ok (x :: G) C (with_identity o C (outboxNextSeq (ident o) + 1)).
Proof.
  intros Ho x. assert (Hg : grows G (x :: G) C).
  { split.
    - intros y Hy. by right.
    - intros y [->|Hy]%elem_of_cons; [by right|by left].
    - intros Hf r a b [Ea|Ha]%elem_of_cons [Eb|Hb]%elem_of_cons; simplify_eq; try done.
      + pose proof (tk_bound _ _ _ Ho _ _ Hb). lia.
      + pose proof (tk_bound _ _ _ Ho _ _ Ha). lia.
      + by eapply Hf. }
  split; [done|]. destruct Ho as [H1 H2 H3 H4 H5]. split; try done.
  - cbn. intros q a [E|Hq]%elem_of_cons; [simplify_eq; lia|]. apply H2 in Hq. lia.
  - apply (within_mono G); [apply Hg|]. by destruct H5; split.
Qed.

Lemma nextOrder_eq now o : nextOutboxOrder now o = (with_order o (nextOutboxOrder now o).2, (nextOutboxOrder now o).2).
Proof. done. Qed.

Lemma outboxAppend_tab G C o e x : tab_ok G C o → entry_claim e = Some x → x ∈ G → tab_ok G C (outboxAppend e o).
Proof.
  intros Ho Hx Hin. apply plain_job_ok; [done|]. apply append_tab; [done|]. unfold record_claim, entry_claim, claim_of in *. cbn.
  destruct (clientId e), (seq e); simplify_eq/=. done.
Qed.

Lemma transient_tab G C o path args u sd : tab_ok G C o → tab_ok G C (on_base o (mutation stringify (base o) path args u sd).1).
Proof.
  intros Ho. unfold mutation. match goal with |- context [initiate _ _ ?x] => set (e := x) end. rewrite (surjective_pairing (initiate _ _ _)).
  pose proof (hydrate_log_tab G C _ e (next_request_tab G C o Ho)) as H1. rewrite <-initiate_hydrate in H1. cbn [rec base with_counters next_request on_base] in H1.
  assert (H2 : tab_ok G C (on_rec (next_request o) (initiate stringify (rec (base o)) e).1)) by (by apply H1).
  cbn [rec with_counters]. destruct (initiate stringify (rec (base o)) e).2 as [[]|err]; [|exact H2].
  set (o2 := on_rec (next_request o) _) in *. set (c3 := with_pending (base o2) (set_add (pendingMutationCallbacks (base o2)) (requestId e)) (pendingActions (base o2))).
  assert (H3 : tab_ok G C (on_base o2 c3)) by (by apply base_ok). change (closed _) with (closed c3). cbn [fst].
  destruct (closed c3); [exact (status_tab G C _ (requestId e) Unsent H3 ltac:(done))|].
  apply (osend_ok G C (on_base o2 (set_status c3 (requestId e) Inflight)) (mutationMessage e)); [exact (status_tab G C _ (requestId e) Inflight H3 ltac:(done))|].
  intros v x Hv. apply list_elem_of_singleton in Hv as ->. done.
Qed.

Lemma mutation_tab G C o path args u sd tr now : tab_ok G C o → ∃ G', grows G G' C ∧
  tab_ok G' C (o_mutation stringify outboxMaxQueueSize path args u sd tr now o).1.
Proof.
  intros Ho. unfold o_mutation. destruct tr.
  { exists G. split; [apply grows_refl|]. pose proof (transient_tab G C o path args u sd Ho) as H. by destruct (mutation _ _ _ _ _ _). }
  destruct (_ <=? _); [exists G; split; [apply grows_refl|done]|]. rewrite nextOrder_eq. set (n := (nextOutboxOrder now o).2).
  set (o1 := with_order o n). assert (H1 : tab_ok G C o1) by by apply order_ok. set (e := outbox_entry o1 path (convexToJson args) u sd n now).
  assert (Ec : outboxClientId (ident o1) = C) by apply H1. rewrite Ec.
  destruct (alloc_tab G C (next_request o1) (path, convexToJson args) (next_request_tab G C o1 H1)) as [Hg H2].
  set (x := ((C, outboxNextSeq (ident (next_request o1))), (path, convexToJson args))) in *. exists (x :: G). split; [done|].
  change (outboxNextSeq (ident (next_request o1))) with (outboxNextSeq (ident o1)) in H2. set (o2 := with_identity (next_request o1) C (outboxNextSeq (ident o1) + 1)) in *.
  assert (Hx : entry_claim e = Some x) by (unfold entry_claim, claim_of, x, e, outbox_entry; cbn [clientId seq pmu_udfPath pmu_args]; by rewrite Ec).
  assert (Hxin : x ∈ x :: G) by left. assert (He : claimed (x :: G) e) by (intros y Hy; congruence).
  pose proof (hydrate_log_tab (x :: G) C o2 e H2 ltac:(done) He) as H3. rewrite <-initiate_hydrate in H3.
  destruct (initiate stringify (rec (base o2)) e) as [r [[]|err]]; cbn [fst] in H3; [|done]. set (o3 := on_rec o2 r) in *.
  set (c4 := with_pending (base o3) (set_add (pendingMutationCallbacks (base o3)) (requestId e)) (pendingActions (base o3))).
  assert (H4 : tab_ok (x :: G) C (on_base o3 c4)) by (by apply base_ok).
  destruct (closed c4 || hasOutboxBacklog o2); cbn [fst].
  - eapply outboxAppend_tab; [exact (status_tab _ C _ (requestId e) Unsent H4 ltac:(done))|exact Hx|done].
  - eapply outboxAppend_tab; [|exact Hx|done].
    apply (osend_ok _ C (on_base o3 (set_status c4 (requestId e) Inflight)) (mutationMessage e)); [exact (status_tab _ C _ (requestId e) Inflight H4 ltac:(done))|].
    intros v y Hv. apply list_elem_of_singleton in Hv as ->. intros Hy. apply He. exact Hy.
Qed.

Lemma retry_tab G C o e now : tab_ok G C o → ∃ G', grows G G' C ∧ tab_ok G' C (retryOutboxEntry stringify optimisticUpdates e now o).
Proof.
  intros Ho. unfold retryOutboxEntry. destruct (ob_status e); try (exists G; split; [apply grows_refl|done]). rewrite nextOrder_eq. set (n := (nextOutboxOrder now o).2).
  set (o1 := with_order o n). assert (H1 : tab_ok G C o1) by by apply order_ok. set (p := outbox_entry o1 _ _ _ _ _ _).
  assert (Ec : outboxClientId (ident o1) = C) by apply H1. rewrite Ec.
  destruct (alloc_tab G C (next_request o1) (ob_udfPath e, ob_args e) (next_request_tab G C o1 H1)) as [Hg H2].
  set (x := ((C, outboxNextSeq (ident (next_request o1))), (ob_udfPath e, ob_args e))) in *. exists (x :: G). split; [done|].
  assert (Hx : entry_claim p = Some x) by (unfold entry_claim, claim_of, x, p, outbox_entry; cbn [clientId seq pmu_udfPath pmu_args]; by rewrite Ec).
  apply nudge_tab, outboxDequeue_tab. eapply outboxAppend_tab; [|exact Hx|left]. apply hydrate_log_tab; [exact H2|done|].
  intros y Hy. assert (y = x) as -> by congruence. left.
Qed.

(** *** A reset *)
Definition same_payload (e e' : PendingMutation) : Prop := pmu_udfPath e' = pmu_udfPath e ∧ pmu_args e' = pmu_args e.
Definition pay_from (l l' : MutationLog) : Prop := ∀ rid e', jm_get l' rid = Some e' → ∃ e, jm_get l rid = Some e ∧ same_payload e e'.
Lemma pay_from_log r r' : log_from r r' → pay_from (log r) (log r').
Proof. intros H rid e' He. destruct (H rid e' He) as (e & He0 & (_ & _ & E1 & E2) & _). exists e. by repeat split. Qed.

Lemma reset_one_tab old fresh now G o n m e : tab_ok G fresh o → (∀ e0, jm_get (olog o) (requestId e) = Some e0 → same_payload e e0) →
  let '(o', _, _) := reset_one stringify old fresh now (o, n, m) e in
  pay_from (olog o) (olog o') ∧ ∃ G', grows G G' fresh ∧ tab_ok G' fresh o'.
Proof.
  intros Ho Hpay. assert (Hid : pay_from (olog o) (olog o)) by (intros rid e' He; by exists e'). cbn [reset_one]. destruct (status e).
  - set (o1 := match seq e with Some q => outboxDequeue _ q o | None => o end). assert (H1 : tab_ok G fresh o1) by (unfold o1; destruct (seq e); auto with outbox).
    assert (El : olog o1 = olog o) by (unfold o1; by destruct (seq e)).
    destruct (alloc_tab G fresh o1 (pmu_udfPath e, pmu_args e) H1) as [Hg H2]. assert (Ec : outboxClientId (ident o1) = fresh) by apply H1. rewrite Ec.
    set (o2 := with_identity o1 fresh _) in *. rewrite nextOrder_eq. set (k := (nextOutboxOrder now o2).2). set (o3 := with_order o2 k).
    set (q := outboxNextSeq (ident o1)) in *. set (x := ((fresh, q), (pmu_udfPath e, pmu_args e))) in *.
    assert (El3 : olog o3 = olog o) by exact El. split.
    + intros rid e'. change (jm_get (log_update (olog o3) (requestId e) (rekey fresh q k)) rid = Some e' → ∃ e0, jm_get (olog o) rid = Some e0 ∧ same_payload e0 e').
      rewrite log_update_get, El3. destruct (jm_get (olog o) rid) as [e0|]; [|by case_decide]. case_decide; intros [= <-]; by exists e0.
    + exists (x :: G). split; [done|]. eapply outboxAppend_tab; [|done|left]. apply log_map_tab; [by apply order_ok|intros e0; split; [done|by right]|].
      intros e0 y He0. unfold entry_claim, claim_of. cbn. intros [= <-]. rewrite El3 in He0. destruct (Hpay e0 He0) as [-> ->]. left.
  - split; [done|]. exists G. split; [apply grows_refl|done].
  - split; [done|]. exists G. split; [apply grows_refl|done].
  - set (o1 := match seq e with Some q => outboxMarkFailed _ q _ _ o | None => o end). assert (H1 : tab_ok G fresh o1) by (unfold o1; destruct (seq e); auto with outbox).
    assert (E1 : rec (base o1) = rec (base o)) by (unfold o1; by destruct (seq e)).
    set (o2 := rejectPending (requestId e) ClientReset o1). assert (H2 : tab_ok G fresh o2) by (unfold o2, rejectPending; auto with outbox).
    assert (E2 : rec (base o2) = rec (base o)) by (unfold o2, rejectPending; cbn; destruct (settleMutation_rec (base o1) (requestId e) ClientReset) as (-> & _); done).
    assert (Hf : pay_from (olog o) (olog (onFailure stringify (requestId e) o2))).
    { change (olog o) with (log (rec (base o))). rewrite <-E2. apply pay_from_log. apply (step_log stringify (rec (base o2)) (EvFailure (requestId e))); [apply H2|done]. }
    split.
    + destruct (hadAwaiter _ _); [exact Hf|]. unfold notifyMutationFailed. destruct (seq e); exact Hf.
    + exists G. split; [apply grows_refl|]. destruct (hadAwaiter _ _); auto with outbox.
Qed.

Lemma reset_fold_tab old fresh now es : ∀ G o n m, tab_ok G fresh o → Forall (λ e, ∀ e0, jm_get (olog o) (requestId e) = Some e0 → same_payload e e0) es →
  let '(o', _, _) := fold_left (reset_one stringify old fresh now) es (o, n, m) in ∃ G', grows G G' fresh ∧ tab_ok G' fresh o'.
Proof.
  induction es as [|e es IH]; intros G o n m Ho Hes; [exists G; split; [apply grows_refl|done]|]. apply Forall_cons in Hes as [He Hes]. cbn [fold_left].
  pose proof (reset_one_tab old fresh now G o n m e Ho He) as H. destruct (reset_one _ _ _ _ _ _) as [[o1 n1] m1]. destruct H as [Hpay (G1 & Hg1 & H1)].
  specialize (IH G1 o1 n1 m1 H1). destruct (fold_left _ es _) as [[o' n'] m']. destruct IH as (G' & Hg & H').
  - eapply Forall_impl; [exact Hes|]. cbn. intros e1 Hp e0 He0. destruct (Hpay _ _ He0) as (e2 & He2 & E1 & E2). destruct (Hp e2 He2) as [E3 E4].
    split; congruence.
  - exists G'. split; [by eapply grows_trans|done].
Qed.

Lemma reset_tab G C fresh now o : tab_ok G C o → (∀ q p, ((fresh, q), p) ∉ G) → ∃ G', grows G G' fresh ∧ tab_ok G' fresh (onClientReset stringify fresh now o).
Proof.
  intros Ho Hfresh. unfold onClientReset. set (o1 := with_identity o fresh 0). assert (H1 : tab_ok G fresh o1).
  { destruct Ho as [A1 A2 A3 A4 A5]. split; try done; [intros q p Hq; by apply Hfresh in Hq|by destruct A5; split]. }
  pose proof (reset_fold_tab (outboxClientId (ident o)) fresh now (entriesInOrder (olog o1)) G o1 0 0 H1) as H.
  destruct (fold_left _ _ _) as [[o2 n] m]. destruct H as (G' & Hg & H2).
  - apply Forall_forall. intros e He e0 He0. destruct (tk_rec _ _ _ H1) as (Hr & _).
    pose proof (proj2 (elem_of_entries (rec (base o1)) (requestId e) e Hr) (conj He eq_refl)) as He1. unfold olog in He0.
    assert (e0 = e) as -> by congruence. by split.
  - exists G'. split; [done|]. by apply plain_job_ok.
Qed.

#[local] Abbreviation ostep := (ostep stringify sha256Hex outboxMaxQueueSize chunkSize poisonPause optimisticUpdates).

(** *** Every event of a tab *)
Definition frame_ok o (ev : oevent) : Prop := match ev with OeTransition _ => (ostep o ev).2 = Ok tt | _ => True end.
Definition mints (ev : oevent) : option jsstr := match ev with OeConnectAck false _ _ fresh _ => Some fresh | _ => None end.

Lemma job_tab G C o j : tab_ok G C o → Forall (λ e, record_claim e ∈ G) (job_records j) →
  tab_ok G C (run_job stringify sha256Hex chunkSize optimisticUpdates j o).
Proof.
  intros Ho Hj. destruct j as [|es|ids|cur live ids| | | |rid| |t|t|key|n|n|f n dep i|f i|i|es|es]; cbn [run_job].
  - by apply becomeLeader_tab.
  - by apply hydrateOnce_tab.
  - by apply prune_tab.
  - by apply prune_tab.
  - by apply leader_tail_tab.
  - auto with outbox.
  - auto with outbox.
  - apply post_ok, nudge_tab, log_map_tab; [done|intros e; split; [done|by right]|]. intros e x He Hx. by eapply (wi_log _ _ (tk_within _ _ _ Ho)).
  - by apply post_ok.
  - case_bool_decide; auto with outbox.
  - destruct (sessionFingerprintKey _); [done|]. case_bool_decide; auto with outbox.
  - case_bool_decide; auto with outbox.
  - apply plain_job_ok; [done|]. by apply setMeta_tab.
  - destruct Ho as [H1 H2 H3 H4 H5]. split; try done; [|by destruct H5; split]. cbn. intros q p Hq. apply H2 in Hq. lia.
  - apply plain_job_ok; [done|]. by apply setMeta_tab.
  - apply plain_job_ok; [done|]. by apply setMeta_tab.
  - auto with outbox.
  - by apply mirror_pass_tab.
  - apply fold_all_tab; [|done]. intros o1 e Ho1. destruct (ob_status e); auto with outbox.
Qed.

Lemma ostep_tab G C o ev : tab_ok G C o → frame_ok o ev → (∀ fresh, mints ev = Some fresh → ∀ q p, ((fresh, q), p) ∉ G) →
  ∃ G', grows G G' (default C (mints ev)) ∧ tab_ok G' (default C (mints ev)) (ostep o ev).1.
Proof.
  intros Ho Hok Hm. assert (Hstay : ∀ o', tab_ok G C o' → ∃ G', grows G G' C ∧ tab_ok G' C o') by (intros o' H; exists G; split; [apply grows_refl|done]).
  destruct ev as [path args u sd tr now|path args l|h l|path args|token|sid|e now|e|b|rid msg now|known vs dep fresh now|rid x|rid| | | | |t| |m now|i];
    cbn [OutboxClient.ostep fst]; cbn [mints default].
  - destruct (mutation_tab G C o path args u sd tr now Ho) as (G' & H1 & H2). exists G'. split; [done|]. by destruct (o_mutation _ _ _ _ _ _ _ _ _).
  - apply Hstay, quiet_tab; [done|apply quiet_subscribe].
  - apply Hstay, quiet_tab; [done|apply quiet_unsubscribe].
  - apply Hstay, quiet_tab; [done|]. etransitivity; [|by apply quiet_send]. by apply quiet_step_same.
  - apply Hstay. unfold o_setAuth. assert (H1 : tab_ok G C (on_base o (setAuth (base o) token))).
    { apply quiet_tab; [done|]. unfold setAuth. etransitivity; [|by apply quiet_send]. by apply quiet_step_same. }
    cbv zeta. destruct (sessionFingerprintKey _); [done|]. destruct token as [[|]|]; auto with outbox.
  - apply Hstay. unfold setSessionFingerprint. destruct sid; [auto with outbox|]. cbv zeta. destruct (lastAuthToken _) as [[|]|]; auto with outbox.
  - destruct (retry_tab G C o e now Ho) as (G' & H1 & H2). by exists G'.
  - apply Hstay. unfold dismissOutboxEntry. destruct (ob_status e); auto with outbox.
  - apply Hstay. by apply transition_tab.
  - apply Hstay. by apply response_tab.
  - unfold handleConnectAck. set (o1 := on_store _ _). assert (H1 : tab_ok G C o1) by (apply setMeta_tab, shake_ok; done).
    destruct known; cbn [mints default].
    + apply Hstay. pose proof (verdicts_tab G C vs o1 H1). destruct (settleVerdicts _ vs o1) as [o2 [[]|err]]; cbn [fst] in *; auto with outbox.
    + apply (reset_tab G C fresh now o1 H1). by apply Hm.
  - apply Hstay, quiet_tab; [done|]. unfold onActionResponse. case_bool_decide; [by apply quiet_step_same|done].
  - apply Hstay. by apply (rstep_tab G C o (EvGateTimeout rid)).
  - apply Hstay. by apply closed_tab.
  - apply Hstay. by apply reopened_tab.
  - apply Hstay. by apply closed_tab, stop_tab.
  - apply Hstay. destruct (intervalOn _); auto with outbox.
  - apply Hstay. unfold fire_backoff. cbv zeta. case_bool_decide; auto with outbox.
  - apply Hstay. by apply resume_tab.
  - apply Hstay. destruct m; [by apply mirrorFromStore_tab|by apply crossTab_tab|by apply crossTab_tab].
  - apply Hstay. destruct (jobs (obs o) !! i) as [j|] eqn:E; [|done]. cbn [fst]. apply job_tab.
    + apply jobs_sub_ok; [done|]. intros j'. apply list_elem_of_delete_inv.
    + apply Forall_forall. intros e He. apply (wi_jobs _ _ (tk_within _ _ _ Ho) j); [by eapply list_elem_of_lookup_2|done].
Qed.

(** ** Tabs that share a queue

    A reload is a tab that is opened and another that takes no further step. *)
Record System := { y_store : OutboxStorage; y_tabs : list OClient; y_minted : list jsstr }.
Definition new_System : System := {| y_store := memoryOutbox; y_tabs := []; y_minted := [] |}.
Definition shared (y : System) (o : OClient) : OClient := on_store o (y_store y).

Inductive yevent :=
  | YOpen (fresh : jsstr)
  | YTab (i : nat) (ev : oevent).

Definition ystep (y : System) (ev : yevent) : System :=
  match ev with
  | YOpen fresh =>
      let o := new_OClient (y_store y) fresh in
      {| y_store := store o; y_tabs := y_tabs y ++ [o]; y_minted := fresh :: y_minted y |}
  | YTab i ev =>
      match y_tabs y !! i with
      | None => y
      | Some o =>
          let o' := (ostep (shared y o) ev).1 in
          {| y_store := store o'; y_tabs := <[i := o']> (y_tabs y); y_minted := option_list (mints ev) ++ y_minted y |}
      end
  end.

(** A minted id is new; frames decode. *)
Definition yallowed (y : System) (ev : yevent) : Prop :=
  match ev with
  | YOpen fresh => fresh ∉ y_minted y
  | YTab i ev => ∀ o, y_tabs y !! i = Some o → frame_ok (shared y o) ev ∧ ∀ fresh, mints ev = Some fresh → fresh ∉ y_minted y
  end.
Inductive yreachable : System → Prop :=
  | yreach_new : yreachable new_System
  | yreach_step y ev : yreachable y → yallowed y ev → yreachable (ystep y ev).

Definition cid (o : OClient) : jsstr := outboxClientId (ident o).
Record sys_ok (y : System) (G : list claim) : Prop := {
  so_fun : functional G;
  so_minted : ∀ x, x ∈ G → x.1.1 ∈ y_minted y;
  so_cids : ∀ o, o ∈ y_tabs y → cid o ∈ y_minted y;
  so_nodup : NoDup (cid <$> y_tabs y);
  so_tabs : ∀ o, o ∈ y_tabs y → tab_ok G (cid o) (shared y o);
  so_store : outbox_ok (y_store y) ∧ ∀ c q e, stored (y_store y) c q = Some e → record_claim e ∈ G }.

Lemma new_tab_ok G s fresh : outbox_ok s → (∀ c q e, stored s c q = Some e → record_claim e ∈ G) → (∀ q p, ((fresh, q), p) ∉ G) →
  tab_ok G fresh (new_OClient s fresh).
Proof.
  intros Hs Hc Hf. unfold new_OClient. set (o0 := {| base := _; store := s |}). assert (H0 : tab_ok G fresh o0).
  { split; [done|intros q p Hq; by apply Hf in Hq| |done|].
    - split_and!; [split|..]; cbn; try done; [apply new_Store_ok|constructor].
    - split; cbn; try done; [intros u x H; by apply not_elem_of_nil in H|intros j e H; by apply not_elem_of_nil in H]. }
  set (o1 := push_job _ o0). assert (H1 : tab_ok G fresh o1) by by apply plain_job_ok.
  pose proof (loadAll_tab G fresh o1 H1) as H. destruct (loadAll (store o1)) as [s' r]. destruct H as [H2 H3].
  assert (H4 : tab_ok G fresh (mirrorFromStore (push_job (JRefire (hy_entries r)) (on_store o1 s')))) by (apply mirrorFromStore_tab, plain_job_ok; done).
  unfold start. destruct (started _); [done|]. apply plain_job_ok; [done|]. by apply drain_same_ok.
Qed.

Lemma on_store_same o : on_store o (store o) = o.
Proof. by destruct o. Qed.

Lemma shared_tab G G' C C' o s : tab_ok G C' o → grows G G' C → C' ≠ C → outbox_ok s → (∀ c q e, stored s c q = Some e → record_claim e ∈ G') →
  tab_ok G' C' (on_store o s).
Proof.
  intros Ho Hg Hne Hs Hc. pose proof (within_mono G G' o (gr_sub _ _ _ Hg) (tk_within _ _ _ Ho)) as [W1 W2 W3 W4 W5].
  destruct Ho as [H1 H2 H3 H4 _]. split; [done| |done|done|by split]. cbn. intros q p Hq. destruct (gr_new _ _ _ Hg _ Hq) as [Hin|E]; [by eapply H2|done].
Qed.

Lemma ystep_ok y ev G : sys_ok y G → yallowed y ev → ∃ G', sys_ok (ystep y ev) G'.
Proof.
  intros [F1 F2 F3 F4 F5 [F6 F7]] Ha. assert (Hfresh : ∀ f, f ∉ y_minted y → ∀ q p, ((f, q), p) ∉ G) by (intros f Hf q p Hq; by apply F2 in Hq).
  destruct ev as [fresh|i ev]; cbn [ystep yallowed] in *.
  - exists G. pose proof (new_tab_ok G (y_store y) fresh F6 F7 (Hfresh _ Ha)) as Hn. set (o := new_OClient (y_store y) fresh) in *.
    pose proof (tk_cid _ _ _ Hn) as Ec. split; cbn [y_store y_tabs y_minted].
    + done.
    + intros x Hx. right. by apply F2.
    + intros o' [Ho|Ho]%elem_of_app; [right; by apply F3|]. apply list_elem_of_singleton in Ho as ->. unfold cid. rewrite Ec. left.
    + rewrite fmap_app. apply NoDup_app. split; [done|]. split; [|apply NoDup_singleton]. intros c (o' & -> & Ho')%list_elem_of_fmap Hc.
      apply list_elem_of_singleton in Hc. apply F3 in Ho'. rewrite Hc in Ho'. unfold cid in Ho'. by rewrite Ec in Ho'.
    + intros o' [Ho|Ho]%elem_of_app.
      * apply (shared_tab G G fresh (cid o') (shared y o')); [by apply F5|apply grows_refl| |apply Hn|apply Hn]. intros E. apply F3 in Ho. by rewrite E in Ho.
      * apply list_elem_of_singleton in Ho as ->. unfold cid. rewrite Ec. unfold shared. cbn [y_store]. by rewrite on_store_same.
    + split; apply Hn.
  - destruct (y_tabs y !! i) as [o|] eqn:Ei; [|by exists G]. destruct (Ha o eq_refl) as [Hok Hmint]. pose proof (list_elem_of_lookup_2 _ _ _ Ei) as Hin.
    destruct (ostep_tab G (cid o) (shared y o) ev (F5 o Hin) Hok) as (G' & Hg & H').
    { intros f Hf. apply Hfresh. by apply Hmint. }
    set (o' := (ostep (shared y o) ev).1) in *. set (C := default (cid o) (mints ev)) in *. pose proof (tk_cid _ _ _ H') as Ec. exists G'.
    assert (HC : C ∈ option_list (mints ev) ++ y_minted y).
    { unfold C. destruct (mints ev) as [f|]; cbn; [left|by apply F3]. }
    assert (Hother : ∀ k x, y_tabs y !! k = Some x → k ≠ i → cid x ≠ C).
    { intros k x Hk Hne. unfold C. destruct (mints ev) as [f|] eqn:Em; cbn.
      - intros <-. by apply (Hmint _ eq_refl), F3, (list_elem_of_lookup_2 _ _ _ Hk).
      - intros E. destruct Hne. apply (NoDup_lookup (cid <$> y_tabs y) k i (cid x)); [done|by rewrite list_lookup_fmap, Hk|by rewrite list_lookup_fmap, Ei, E]. }
    assert (Hcase : ∀ x, x ∈ <[i:=o']> (y_tabs y) → x = o' ∨ (x ∈ y_tabs y ∧ cid x ≠ C)).
    { intros x (k & Hk)%list_elem_of_lookup_1. destruct (decide (k = i)) as [->|Hne].
      - rewrite list_lookup_insert_eq in Hk by (by eapply lookup_lt_Some). left. congruence.
      - rewrite list_lookup_insert_ne in Hk by done. right. split; [by eapply list_elem_of_lookup_2|by eapply Hother]. }
    split; cbn [y_store y_tabs y_minted].
    + apply Hg, F1.
    + intros x Hx. destruct (gr_new _ _ _ Hg _ Hx) as [Hx'| ->]; [apply elem_of_app; right; by apply F2|done].
    + intros x [->|[Hx _]]%Hcase; [unfold cid; by rewrite Ec|apply elem_of_app; right; by apply F3].
    + apply NoDup_alt. intros a b c. rewrite !list_lookup_fmap.
      assert (Hget : ∀ k, <[i:=o']> (y_tabs y) !! k = if decide (k = i) then Some o' else y_tabs y !! k).
      { intros k. destruct (decide (k = i)) as [->|]; [by apply list_lookup_insert_eq, (lookup_lt_Some _ _ _ Ei)|by apply list_lookup_insert_ne]. }
      rewrite !Hget. destruct (decide (a = i)) as [->|Ha'], (decide (b = i)) as [->|Hb']; [done|..].
      * intros [= <-]. destruct (y_tabs y !! b) as [x|] eqn:Hb; [|done]. intros [= E]. destruct (Hother b x Hb Hb'). rewrite E. exact Ec.
      * destruct (y_tabs y !! a) as [x|] eqn:Hx; [|done]. intros [= E] [= E']. destruct (Hother a x Hx Ha'). rewrite E, <-E'. exact Ec.
      * intros H1 H2. apply (NoDup_lookup (cid <$> y_tabs y) a b c); [done|by rewrite list_lookup_fmap|by rewrite list_lookup_fmap].
    + intros x [->|[Hx Hne]]%Hcase.
      * unfold cid. rewrite Ec. unfold shared. cbn [y_store]. by rewrite on_store_same.
      * apply (shared_tab G G' C (cid x) (shared y x)); [by apply F5|done|done|apply H'|apply H'].
    + split; apply H'.
Qed.

Lemma yreachable_ok y : yreachable y → ∃ G, sys_ok y G.
Proof.
  induction 1 as [|y ev _ [G HG] Ha]; [|by eapply ystep_ok]. exists []. split; cbn.
  - intros r p p' H. by apply not_elem_of_nil in H.
  - intros x H. by apply not_elem_of_nil in H.
  - intros x H. by apply not_elem_of_nil in H.
  - constructor.
  - intros x H. by apply not_elem_of_nil in H.
  - split; [apply memoryOutbox_ok|done].
Qed.

(** C26: A reference of the outbox names one mutation for good. In every state the tabs sharing a queue can reach, through
    any interleaving of calls, frames, closes, reloads, hydrations, drains, retries and resets, two mutation units any of them has put on the
    wire, directly or in a batch, with the same client id and seq have the same function path and arguments. The receipts
    the server files under that reference therefore answer for one mutation only. *)
Theorem outbox_reference_functional y o o' u u' c q : yreachable y → o ∈ y_tabs y → o' ∈ y_tabs y →
  u ∈ wire_units (base o) → u' ∈ wire_units (base o') →
  me_clientId u = Some c → me_seq u = Some q → me_clientId u' = Some c → me_seq u' = Some q →
  me_udfPath u = me_udfPath u' ∧ me_args u = me_args u'.
Proof.
  intros [G HG]%yreachable_ok Ho Ho' Hu Hu' E1 E2 E3 E4.
  assert (H1 : ((c, q), (me_udfPath u, me_args u)) ∈ G).
  { apply (wi_wire _ _ (tk_within _ _ _ (so_tabs _ _ HG o Ho)) u); [done|]. unfold unit_claim, claim_of. by rewrite E1, E2. }
  assert (H2 : ((c, q), (me_udfPath u', me_args u')) ∈ G).
  { apply (wi_wire _ _ (tk_within _ _ _ (so_tabs _ _ HG o' Ho')) u'); [done|]. unfold unit_claim, claim_of. by rewrite E3, E4. }
  pose proof (so_fun _ _ HG _ _ _ H1 H2). by simplify_eq.
Qed.
End identity.
