(* ===== verification/OutboxRuns.v ===== *)
(** Runs of the client with an outbox: the witness of [OutboxIdentity], and what a few runs show about the drain and the reset. *)
From S2P Require Import Prelude Numbers Values Json IndexKeys Ranges DocStore QueryEngine Subscriptions DiffSync SessionFlow ClientStore Reconciler Client ExactlyOnce Outbox OutboxClient OutboxIdentity.

Definition demo_sha (t : jsstr) : jsstr := js "h" ++ t.
Definition no_updates (path : jsstr) : option (value → upd) := None.
Definition ticks (n : nat) : list oevent := repeat (OeJob 0) n.
Definition call (path : jsstr) (now : Z) : oevent := OeMutation path VNull None seed0 false now.
Definition unknown (c : jsstr) (q : Z) : ClientMutationVerdict := {| cmv_clientId := c; cmv_seq := q; cmv_verdict := None |}.
#[local] Abbreviation demo_run := (orun plain_stringify demo_sha 1000 50 false no_updates).

(** A tab that has the lead and a handshake behind it. *)
Definition handshake (known : bool) (fresh : jsstr) (vs : list ClientMutationVerdict) : list oevent := [OeReopened; OeConnectAck known vs (js "d") fresh 0].
Definition boot : list oevent := ticks 12 ++ [OeClosed] ++ handshake true [] [] ++ ticks 8.
Definition booted : OClient := demo_run (new_OClient memoryOutbox (js "a")) boot.

Definition refs (o : OClient) : list (option jsstr * option Z) := List.map (λ u, (me_clientId u, me_seq u)) (wire_units (base o)).
Definition log_statuses (o : OClient) : list (jsstr * MutationStatus) := List.map (λ e, (requestId e, status e)) (entriesInOrder (olog o)).

(** A mutation sent on a connection that drops is parked, and the drain resends it under its reference. *)
Abbreviation resend := ([call (js "m:f") 5; OeJob 0; OeClosed] ++ handshake true [] [unknown (js "a") 0] ++ ticks 12).
Abbreviation demo_system := (fold_left (ystep plain_stringify demo_sha 1000 50 false no_updates) (List.map (YTab 0) (boot ++ resend))
  (ystep plain_stringify demo_sha 1000 50 false no_updates new_System (YOpen (js "a")))).

Lemma yrun_reachable evs y : yreachable plain_stringify demo_sha 1000 50 false no_updates y →
  Forall (λ ev, match ev with YTab _ (OeTransition _) | YTab _ (OeConnectAck false _ _ _ _) | YOpen _ => False | _ => True end) evs →
  yreachable plain_stringify demo_sha 1000 50 false no_updates (fold_left (ystep plain_stringify demo_sha 1000 50 false no_updates) evs y).
Proof.
  intros Hy Hf. revert y Hy. induction Hf as [|ev evs He Hf IH]; intros y Hy; [done|]. cbn [fold_left]. apply IH. apply yreach_step; [done|].
  destruct ev as [f|i ev]; [done|]. intros o _. split; [by destruct ev|]. intros fresh Hm. destruct ev as [| | | | | | | | | |[] vs dep f now| | | | | | | | | |]; done.
Qed.

(** The two units of a system of one tab that has sent two. *)
Definition two_units (y : System) : option (MutationBatchEntry * MutationBatchEntry) :=
  match y_tabs y with [o] => match wire_units (base o) with [u; u'] => Some (u, u') | _ => None end | _ => None end.
Lemma two_units_wire y u u' : two_units y = Some (u, u') → ∃ o, o ∈ y_tabs y ∧ wire_units (base o) = [u; u'].
Proof.
  unfold two_units. destruct (y_tabs y) as [|o [|]]; try done. destruct (wire_units (base o)) as [|v [|v' [|]]] eqn:E; try done.
  intros [= <- <-]. exists o. split; [left|done].
Qed.
Definition resent : MutationBatchEntry :=
  {| me_requestId := js "1"; me_udfPath := js "m:f"; me_args := JNull; me_clientId := Some (js "a"); me_seq := Some 0 |}.

Lemma outbox_reference_functional_witness :
  ∃ u u', two_units demo_system = Some (u, u') ∧ me_seq u = Some 0 ∧ me_seq u' = Some 0 ∧ me_udfPath u = me_udfPath u' ∧ me_args u = me_args u'.
Proof.
  assert (Hy : yreachable plain_stringify demo_sha 1000 50 false no_updates demo_system).
  { apply yrun_reachable.
    - apply yreach_step; [apply yreach_new|apply not_elem_of_nil].
    - unfold boot, handshake, tick. cbn. repeat constructor. }
  assert (E : two_units demo_system = Some (resent, resent)) by (vm_compute; reflexivity).
  exists resent, resent. split; [exact E|]. split; [reflexivity|]. split; [reflexivity|]. destruct (two_units_wire _ _ _ E) as (o & Ho & Ew).
  refine (outbox_reference_functional plain_stringify demo_sha 1000 50 false no_updates demo_system o o resent resent (js "a") 0 Hy Ho Ho _ _ eq_refl eq_refl eq_refl eq_refl);
    rewrite Ew; [left|right; left].
Defined.

(** A mutation in flight on a connection that drops before the server reads it is presented at the next handshake; the server has seen
    nothing of this client, answers that it does not know it, and the mutation is rejected although it can be resent. *)
Lemma reset_rejects_undelivered :
  let o := demo_run booted ([call (js "m:f") 5; OeJob 0; OeClosed] ++ handshake false (js "b") [unknown (js "a") 0] ++ ticks 12) in
  sent (base o) !! 2%nat = Some (MConnect (Some (js "a")) (Some [{| cr_clientId := js "a"; cr_seq := 0 |}]) (Some []) true) ∧
  settlements (base o) = [(js "1", ClientReset)] ∧ log_statuses o = [].
Proof. vm_compute. by split_and!. Qed.

(** A drained unit goes back to unsent when its connection drops: a reset then gives it a new reference and sends it again, so
    the server may run it twice if its first copy is still executing when the handshake is answered. *)
Lemma reset_resends_under_new_reference :
  let o := demo_run booted ([OeClosed; call (js "m:f") 5] ++ handshake true [] [unknown (js "a") 0] ++ ticks 12
    ++ [OeClosed] ++ handshake false (js "b") [unknown (js "a") 0] ++ ticks 12) in
  refs o = [(Some (js "a"), Some 0); (Some (js "b"), Some 0)] ∧ log_statuses o = [(js "1", Inflight)].
Proof. vm_compute. by split_and!. Qed.

(** A transient mutation made while the transport is down is neither flushed at the reopening nor drained: its promise stays
    pending, and the mutations after it find a backlog that never empties. *)
Lemma transient_unsent_never_sent :
  let refresh := OeMutation AUTH_REFRESH_UDF_PATH VNull None seed0 true 5 in
  let o := demo_run booted ([OeClosed; refresh] ++ handshake true [] [] ++ ticks 12 ++ [OeInterval] ++ ticks 4) in
  wire_units (base o) = [] ∧ log_statuses o = [(js "1", Unsent)] ∧ pendingMutationCallbacks (base o) = [js "1"] ∧ hasOutboxBacklog o = true ∧
  drainableEntries o = [].
Proof. vm_compute. by split_and!. Qed.

(** A reset makes it durable, under a new reference, and the drain sends it. *)
Lemma reset_makes_transient_durable :
  let refresh := OeMutation AUTH_REFRESH_UDF_PATH VNull None seed0 true 5 in
  let o := demo_run booted ([OeClosed; refresh] ++ handshake false (js "b") [] ++ ticks 12) in
  refs o = [(Some (js "b"), Some 0)] ∧ ob_udfPath <$> stored (store o) (js "b") 0 = Some AUTH_REFRESH_UDF_PATH.
Proof. vm_compute. by split_and!. Qed.

(** A mutation made before the digest of a new token is known carries the fingerprint of the identity before it: the drain
    drops it as queued under another identity. *)
Lemma fingerprint_lags_setAuth :
  let o := demo_run booted ([OeClosed; OeSetAuth (Some (js "t")); call (js "m:f") 5] ++ handshake true [] [unknown (js "a") 0] ++ ticks 12) in
  wire_units (base o) = [] ∧ (λ p, match p.2 with Rejected _ c => c | _ => None end) <$> settlements (base o) = [Some OFFLINE_IDENTITY_CHANGED].
Proof. vm_compute. by split_and!. Qed.

(** A wake of the drain does not look at the backoff timer: the interval resends while the timer is still armed. *)
Lemma interval_ignores_backoff :
  let o := demo_run booted ([OeClosed; call (js "m:f") 5] ++ handshake true [] [unknown (js "a") 0] ++ ticks 12
    ++ [OeResponse (js "1") (ReplyError (js "busy") None) 6] ++ ticks 2 ++ [OeInterval; OeJob 0]) in
  refs o = [(Some (js "a"), Some 0); (Some (js "a"), Some 0)] ∧ backoffTimers (drain o) = [0%nat].
Proof. vm_compute. by split_and!. Qed.

(** Once a session has been armed, the drain of a later session flushes before its [ConnectAck]. *)
Lemma flush_precedes_connect_ack :
  let o := demo_run booted ([OeClosed; call (js "m:f") 5; OeReopened] ++ ticks 8) in
  sent (base o) = sent (base booted) ++
    [MConnect (Some (js "a")) (Some [{| cr_clientId := js "a"; cr_seq := 0 |}]) (Some []) true;
     MMutationBatch [{| me_requestId := js "1"; me_udfPath := js "m:f"; me_args := JNull; me_clientId := Some (js "a"); me_seq := Some 0 |}]].
Proof. vm_compute. reflexivity. Qed.
