(* ===== verification/OutboxDrain.v ===== *)
(** The drain empties the queue. Against a server that decides every unit it is sent, the drain of [packages/client/src/outbox-drain.ts] sends
    the queue in its order, chunk by chunk, and settles each queued mutation once. *)
From S2P Require Import Prelude Numbers Values Json IndexKeys Ranges DocStore QueryEngine Subscriptions DiffSync SessionFlow ClientStore Reconciler Client ExactlyOnce Outbox OutboxClient OutboxIdentity OutboxRuns.

(** ** Sorting and filtering *)
Lemma insert_by_filter {A} (cmp : A → A → comparison) `{!CmpOrder cmp} (p : A → bool) x l : StronglySorted (cmp_le cmp) l →
  List.filter p (insert_by cmp x l) = if p x then insert_by cmp x (List.filter p l) else List.filter p l.
Proof.
  induction 1 as [|y l Hl IH Hy]; cbn; [by destruct (p x)|]. destruct (cmp x y) eqn:E; cbn.
  3: { rewrite IH. destruct (p y), (p x); try done. cbn. by rewrite E. }
  all: destruct (p x); [|done]; destruct (p y); cbn; [by rewrite E|]; symmetry; apply insert_by_le; rewrite Forall_forall in *; intros z Hz;
    apply (cmp_le_trans cmp _ y); [unfold cmp_le; congruence|]; apply Hy; apply list_elem_of_In, List.filter_In in Hz as [Hz _]; by apply list_elem_of_In.
Qed.
Lemma sort_by_filter {A} (cmp : A → A → comparison) `{!CmpOrder cmp} (p : A → bool) l : sort_by cmp (List.filter p l) = List.filter p (sort_by cmp l).
Proof.
  induction l as [|x l IH]; [done|]. change (sort_by cmp (x :: l)) with (insert_by cmp x (sort_by cmp l)). rewrite (insert_by_filter cmp p x _ (sort_by_sorted cmp l)).
  cbn [List.filter]. destruct (p x); [|done]. change (sort_by cmp (x :: List.filter p l)) with (insert_by cmp x (sort_by cmp (List.filter p l))). by rewrite IH.
Qed.
#[export] Instance by_m_order_order : CmpOrder by_m_order.
Proof.
  unfold by_m_order. split.
  - intros a. apply Z.compare_refl.
  - intros a b. apply Z.compare_antisym.
  - intros a b c. rewrite Z.compare_eq_iff. by intros ->.
  - intros a b c. rewrite !Z.compare_lt_iff. lia.
Qed.

Lemma filter_sub {A} (p : A → bool) l : List.filter p l `sublist_of` l.
Proof. induction l as [|x l IH]; [constructor|]. cbn. destruct (p x); by constructor. Qed.

(** ** Logs whose updaters do not throw *)

(** The updater returns, whatever it reads. *)
Fixpoint never_throws (u : upd) : Prop :=
  match u with
  | UDone => True
  | UThrow _ => False
  | UGet _ _ k => ∀ v, never_throws (k v)
  | USet _ _ _ k => never_throws k
  | UGetAll _ k => ∀ r, never_throws (k r)
  | UPlaceholder _ k => ∀ id, never_throws (k id)
  | UNow k => ∀ t, never_throws (k t)
  end.
Definition steady (e : PendingMutation) : Prop := ∀ f, update e = Some f → ∃ a, jsonToConvex (pmu_args e) = Ok a ∧ never_throws (f a).
Record steady_log (l : MutationLog) : Prop := {
  sl_ok : jm_ok l;
  sl_entry : ∀ rid e, (rid, e) ∈ l → requestId e = rid ∧ steady e }.

(** What the drain reads of a log: the entries not yet completed, without the queries their layers touched. *)
Definition bare (e : PendingMutation) : PendingMutation := with_touched [] e.
Definition waits (e : PendingMutation) : bool := match status e with Completed _ _ => false | _ => true end.
Definition core (l : MutationLog) : MutationLog := (λ p, (p.1, bare p.2)) <$> List.filter (λ p, waits p.2) l.

Lemma core_cons k e l : core ((k, e) :: l) = if waits e then (k, bare e) :: core l else core l.
Proof. unfold core. cbn. by destruct (waits e). Qed.
Lemma core_in k e l : (k, e) ∈ core l → ∃ e', (k, e') ∈ l ∧ e = bare e' ∧ waits e' = true.
Proof. intros ([k' e'] & [= -> ->] & [Hin%list_elem_of_In Hw]%list_elem_of_In%List.filter_In)%list_elem_of_fmap. by exists e'. Qed.
Lemma core_ok l : jm_ok l → jm_ok (core l).
Proof.
  unfold jm_ok. intros Hok. assert (E : (core l).*1 = (List.filter (λ p, waits p.2) l).*1) by (unfold core; by rewrite <-list_fmap_compose).
  rewrite E. apply (sublist_NoDup _ l.*1); [done|]. apply sublist_map, filter_sub.
Qed.
Lemma core_steady l : steady_log l → steady_log (core l).
Proof.
  intros [H1 H2]. split; [by apply core_ok|]. intros rid e (e' & Hin & -> & _)%core_in. exact (H2 rid e' Hin).
Qed.
Lemma core_has l rid : steady_log l → jm_has (core l) rid = true → jm_has l rid = true.
Proof.
  intros [Hok _] [e He]%bool_decide_eq_true. apply jm_get_in, core_in in He as (e' & Hin & _). apply bool_decide_eq_true. exists e'. by apply jm_get_elem.
Qed.
Lemma core_filter (P : jsstr → Prop) `{!∀ k, Decision (P k)} l : core (filter (λ p, P p.1) l) = filter (λ p, P p.1) (core l).
Proof.
  induction l as [|[k e] l IH]; [done|]. rewrite filter_cons, core_cons. cbn [fst]. destruct (decide (P k)), (waits e) eqn:E; rewrite ?core_cons, ?E.
  - rewrite filter_cons_True by done. by rewrite IH.
  - done.
  - by rewrite filter_cons_False by done.
  - done.
Qed.
Lemma core_outside (ids : list jsstr) l : core (filter (λ p, p.1 ∉ ids) l) = filter (λ p, p.1 ∉ ids) (core l).
Proof. exact (core_filter (λ k, k ∉ ids) l). Qed.
Lemma core_delete l rid : jm_ok l → core (jm_delete l rid) = jm_delete (core l) rid.
Proof. intros Hok. rewrite !jm_delete_filter by (try apply core_ok; done). exact (core_filter (λ k, k ≠ rid) l). Qed.

(** Entries that differ in what their layers touched. *)
Definition same_entries (l l' : MutationLog) : Prop := Forall2 (λ p p', ∃ t, p' = (p.1, with_touched t p.2)) l l'.
Lemma same_core l l' : same_entries l l' → core l' = core l.
Proof.
  induction 1 as [|[k e] p' l l' [t ->] _ IH]; [done|]. cbn [fst snd]. rewrite !core_cons, IH. change (waits (with_touched t e)) with (waits e).
  by destruct (waits e).
Qed.
Lemma same_steady l l' : same_entries l l' → steady_log l → steady_log l'.
Proof.
  intros H [H1 H2]. split.
  - unfold jm_ok. assert (E : l'.*1 = l.*1) by (clear -H; induction H as [|p p' l l' [t ->] _ IH]; [done|]; cbn; by rewrite IH). by rewrite E.
  - intros rid e Hin. clear H1. induction H as [|[k e0] p' l l' [t ->] _ IH]; [by apply elem_of_nil in Hin|]. cbn [fst snd] in *.
    apply elem_of_cons in Hin as [[= -> ->]|Hin]; [exact (H2 k e0 ltac:(left))|]. apply IH; [|done]. intros; apply H2; by right.
Qed.

Lemma run_returns stringify s ov sd u r : never_throws u → ∃ r', run_upd stringify s ov sd u r = (r', Ok tt).
Proof.
  revert r. induction u as [|e|path args k IH|path args v k IH|path k IH|t k IH|k IH]; intros r H; cbn in *; try done.
  - by eexists.
  - by apply IH.
  - destruct (set_value r v). by apply IH.
  - case_match; by apply IH.
  - by apply IH.
  - by apply IH.
Qed.
Lemma replay_steady stringify s es : Forall steady es → ∀ acc, let rp := fold_left (replay_entry stringify s) es acc in
  rp_dropped rp = rp_dropped acc ∧ ∃ es', rp_entries rp = rp_entries acc ++ es' ∧ Forall2 (λ e e', ∃ t, e' = with_touched t e) es es'.
Proof.
  induction 1 as [|e es He _ IH]; intros acc; cbn; [split; [done|]; exists []; by rewrite app_nil_r|].
  assert (H : rp_dropped (replay_entry stringify s acc e) = rp_dropped acc ∧
    ∃ t, rp_entries (replay_entry stringify s acc e) = rp_entries acc ++ [with_touched t e]).
  { unfold replay_entry. destruct (update e) as [f|] eqn:Eu; [|split; [done|]; exists (touched e); by destruct e].
    destruct (He f Eu) as (a & Ea & Hf). unfold invokeUpdate. rewrite Ea.
    destruct (run_returns stringify s (rp_overlay acc) (seed e) (f a) (new_Run (rp_next acc)) Hf) as [r' ->]. split; [done|]. by eexists. }
  destruct H as [D1 (t & E1)], (IH (replay_entry stringify s acc e)) as [D2 (es' & E2 & F2)]. split; [by rewrite D2|].
  exists (with_touched t e :: es'). rewrite E2, E1, <-(assoc_L (++)). split; [done|]. constructor; [by exists t|done].
Qed.
Lemma rebuild_steady stringify r force : steady_log (log r) → same_entries (log r) (log (rebuild stringify r force)).
Proof.
  intros [Hok He]. unfold rebuild, recompose_log, recompose, replay. set (acc := Build_Replay _ _ _ _).
  destruct (replay_steady stringify (rstore r) (entriesInOrder (log r))) with (acc := acc) as [D (es' & E & F)].
  - apply Forall_forall. intros e (p & -> & Hp)%list_elem_of_fmap. destruct p as [rid e]. by apply (He rid e).
  - cbv zeta in *. rewrite D, E. cbn. clear -F. unfold entriesInOrder, jm_values, jm_keys in *. revert es' F. unfold same_entries.
    induction (log r) as [|[k e] l IH]; intros es' F; [constructor|]. apply Forall2_cons_inv_l in F as (e' & es2 & [t ->] & F & ->).
    constructor; [by exists t|by apply IH].
Qed.

Lemma steady_delete l rid : steady_log l → steady_log (jm_delete l rid).
Proof. intros [H1 H2]. split; [by apply jm_delete_ok|]. intros rid' e Hin%jm_delete_sub. by apply H2. Qed.

(** Updating in place is a map over the log. *)
Lemma log_update_map l rid f : jm_ok l → log_update l rid f = (λ p, (p.1, if decide (p.1 = rid) then f p.2 else p.2)) <$> l.
Proof.
  unfold log_update. induction l as [|[k e] l IH]; intros Hok; [done|]. apply NoDup_cons in Hok as [Hn Hok]. cbn -[decide]. destruct (decide (rid = k)) as [->|Hne].
  - rewrite decide_True by done. f_equal. rewrite <-(list_fmap_id l) at 1. apply list_fmap_ext. intros i [k' e'] Hi. cbn -[decide].
    rewrite decide_False; [done|]. intros ->. apply Hn. apply list_elem_of_fmap. exists (k, e'). split; [done|]. by eapply list_elem_of_lookup_2.
  - rewrite decide_False by congruence. specialize (IH Hok). destruct (jm_get l rid) as [e0|]; cbn -[decide]; by rewrite <-IH.
Qed.

Definition mark (ids : list jsstr) (p : jsstr * PendingMutation) : jsstr * PendingMutation :=
  (p.1, if decide (p.1 ∈ ids) then with_status Inflight p.2 else p.2).
Lemma marked_keys ids l : (mark ids <$> l).*1 = l.*1.
Proof. rewrite <-list_fmap_compose. by apply list_fmap_ext. Qed.
Lemma steady_map l (f : jsstr → PendingMutation → PendingMutation) : (∀ k e, requestId (f k e) = requestId e ∧ update (f k e) = update e ∧ pmu_args (f k e) = pmu_args e) →
  steady_log l → steady_log ((λ p, (p.1, f p.1 p.2)) <$> l).
Proof.
  intros Hf [H1 H2]. split; [unfold jm_ok; by rewrite <-list_fmap_compose|]. intros rid e ([k e0] & [= -> ->] & Hin)%list_elem_of_fmap.
  destruct (H2 k e0 Hin) as [E S], (Hf k e0) as (F1 & F2 & F3). unfold steady. cbn [fst snd]. rewrite F1, F2, F3. done.
Qed.
Lemma steady_marked ids l : steady_log l → steady_log (mark ids <$> l).
Proof.
  intros Hs. refine (steady_map l (λ k e, if decide (k ∈ ids) then with_status Inflight e else e) _ Hs). intros k e. by case_decide.
Qed.
(** A completed entry is no longer waiting. *)
Lemma complete_steady l rid ts now : steady_log l → steady_log (log_update l rid (with_status (Completed ts now))) ∧
  core (log_update l rid (with_status (Completed ts now))) = jm_delete (core l) rid.
Proof.
  intros Hs. pose proof (sl_ok _ Hs) as Hok. rewrite log_update_map by done. split.
  { refine (steady_map l (λ k e, if decide (k = rid) then with_status (Completed ts now) e else e) _ Hs). intros k e. by case_decide. }
  rewrite jm_delete_filter by by apply core_ok. clear Hs Hok. induction l as [|[k e] l IH]; [done|]. rewrite fmap_cons, !core_cons. cbn -[decide filter].
  rewrite IH. destruct (decide (k = rid)) as [->|Hne]; destruct (waits e) eqn:E; cbn [waits status with_status]; rewrite ?E; try done.
  - by rewrite filter_cons_False by (cbn; tauto).
  - by rewrite filter_cons_True.
Qed.
Lemma mark_cons i ids l : jm_ok l → mark ids <$> log_update l i (with_status Inflight) = mark (i :: ids) <$> l.
Proof.
  intros Hok. rewrite log_update_map by done. rewrite <-list_fmap_compose. apply list_fmap_ext. intros _ [k e] _. unfold mark. cbn -[decide]. f_equal.
  destruct (decide (k = i)) as [->|Hne].
  - rewrite (decide_True (P := i ∈ i :: ids)) by left. by case_decide.
  - destruct (decide (k ∈ ids)); [by rewrite decide_True by by right|]. rewrite decide_False; [done|]. rewrite not_elem_of_cons. by split.
Qed.

Section drain.
Variable stringify : json → jsstr.
Variable sha256Hex : jsstr → jsstr.
Variable outboxMaxQueueSize : Z.
Variable chunkSize : nat.
Variable optimisticUpdates : jsstr → option (value → upd).
Implicit Types (o : OClient) (e : PendingMutation).
#[local] Abbreviation ostep := (ostep stringify sha256Hex outboxMaxQueueSize chunkSize false optimisticUpdates).
#[local] Abbreviation orun := (orun stringify sha256Hex outboxMaxQueueSize chunkSize false optimisticUpdates).

(** What the drain sees of a client. *)
Record View := {
  vw_log : MutationLog; vw_awaited : list jsstr; vw_settled : list (jsstr * Settlement); vw_sent : list ClientMessage;
  vw_closed : bool; vw_shake : Shake; vw_ident : Ident }.
Definition view o : View :=
  {| vw_log := olog o; vw_awaited := pendingMutationCallbacks (base o); vw_settled := settlements (base o); vw_sent := sent (base o);
     vw_closed := closed (base o); vw_shake := shake o; vw_ident := ident o |}.
Definition with_vlog (v : View) (l : MutationLog) : View :=
  {| vw_log := l; vw_awaited := vw_awaited v; vw_settled := vw_settled v; vw_sent := vw_sent v; vw_closed := vw_closed v;
     vw_shake := vw_shake v; vw_ident := vw_ident v |}.
Definition abs (v : View) : View := with_vlog v (core (vw_log v)).
(** Settling a call, if it is awaited. *)
Definition vsettle (v : View) (rid : jsstr) (x : Settlement) : View :=
  {| vw_log := vw_log v; vw_awaited := filter (λ r, r ≠ rid) (vw_awaited v);
     vw_settled := vw_settled v ++ (if bool_decide (rid ∈ vw_awaited v) then [(rid, x)] else []);
     vw_sent := vw_sent v; vw_closed := vw_closed v; vw_shake := vw_shake v; vw_ident := vw_ident v |}.

(** *** Primitives leave the drain alone *)
Lemma view_settle o rid x : view (on_base o (settleMutation (base o) rid x)) = vsettle (view o) rid x ∧
  drain (on_base o (settleMutation (base o) rid x)) = drain o.
Proof. split; [|done]. unfold view, vsettle, settleMutation, olog. cbn. case_bool_decide; cbn; by rewrite ?app_nil_r. Qed.
Lemma view_dequeue o x : view (dequeueOutboxEntry x o) = view o ∧ drain (dequeueOutboxEntry x o) = drain o.
Proof. unfold dequeueOutboxEntry. destruct x as [e|]; [|done]. by destruct (clientId e), (seq e). Qed.
Lemma view_failed o c q p err : view (notifyMutationFailed c q p err o) = view o ∧ drain (notifyMutationFailed c q p err o) = drain o.
Proof. unfold notifyMutationFailed. by destruct c, q. Qed.
Lemma view_setStatus o e st rs : view (setStatus e st rs o) = with_vlog (view o) (log_update (olog o) (requestId e) (with_status st)) ∧
  drain (setStatus e st rs o) = drain o.
Proof. unfold setStatus. by destruct (clientId e), (seq e). Qed.

(** Dropping a settled entry, or keeping its layer until the feed covers its commit. *)
Definition dropped (l l' : MutationLog) (rid : jsstr) : Prop := steady_log l' ∧ core l' = jm_delete (core l) rid.
Lemma dropped_rebuild r l rid force : steady_log l → log r = jm_delete l rid → dropped l (log (rebuild stringify r force)) rid.
Proof.
  intros Hs E. pose proof (steady_delete l rid Hs) as Hd. rewrite <-E in Hd. pose proof (rebuild_steady stringify r force Hd) as Hr. split.
  - by eapply same_steady.
  - rewrite (same_core _ _ Hr), E. apply core_delete, Hs.
Qed.
Lemma log_failure r rid : steady_log (log r) → jm_has (log r) rid = true → dropped (log r) (log (onMutationFailure stringify r rid)) rid.
Proof. intros Hs Hh. unfold onMutationFailure. rewrite Hh. by apply dropped_rebuild. Qed.
Lemma log_verdict r rid : steady_log (log r) → jm_has (log r) rid = true → dropped (log r) (log (onVerdictAfterBaseline stringify r rid)) rid.
Proof. apply log_failure. Qed.
Lemma log_success r rid ts now : steady_log (log r) → jm_has (log r) rid = true → dropped (log r) (log (onMutationSuccess stringify r rid ts now)) rid.
Proof.
  intros Hs Hh. unfold onMutationSuccess. apply bool_decide_eq_true in Hh as [e ->]. destruct (match update e with None => _ | Some _ => _ end).
  { split; [by apply steady_delete|apply core_delete, Hs]. }
  destruct ts as [ts|]; [|by apply dropped_rebuild]. destruct (ts <=? 0); [by apply dropped_rebuild|].
  destruct (versionCoversCommit _ _); [by apply dropped_rebuild|].
  exact (complete_steady (log r) rid ts now Hs).
Qed.
Lemma view_rec o r : view (on_rec o r) = with_vlog (view o) (log r) ∧ drain (on_rec o r) = drain o.
Proof. done. Qed.

(** *** A decided answer *)
Definition decided (r : MutationReply) : Prop :=
  match r with
  | ReplyOk v _ _ vm => vm = true ∨ ∀ j, v = Some j → ∃ x, jsonToConvex j = Ok x
  | ReplyError _ c => c ≠ None
  end.
Definition outcome (e : PendingMutation) (r : MutationReply) : Settlement :=
  match r with
  | ReplyOk v _ _ vm => Resolved (if vm then VNull else match v with Some j => match jsonToConvex j with Ok x => x | Err _ => VNull end | None => VNull end)
  | ReplyError _ c => Rejected (failed_message (pmu_udfPath e)) c
  end.

Lemma view_nudge o : view (nudge o) = view o ∧ drain (nudge o) = drain o.
Proof. unfold nudge. by destruct (_ || _). Qed.

(** What settling a call leaves: the call settled, its entry no longer waiting, the drain as it was. *)
Record settles o o' rid (x : Settlement) : Prop := {
  st_view : abs (view o') = with_vlog (vsettle (view o) rid x) (jm_delete (core (olog o)) rid);
  st_drain : drain o' = drain o;
  st_log : steady_log (olog o') }.
Lemma settles_view o o1 o' rid x : settles o o1 rid x → view o' = view o1 → drain o' = drain o1 → settles o o' rid x.
Proof.
  intros [V D S] EV ED. split; [by rewrite EV|by rewrite ED|]. change (steady_log (vw_log (view o'))). by rewrite EV.
Qed.
(** The reconciler's step, after the call has been settled. *)
Lemma settles_rec o o1 rid x l : view o1 = vsettle (view o) rid x → drain o1 = drain o → dropped (olog o1) l rid →
  ∀ o', view o' = with_vlog (view o1) l → drain o' = drain o1 → settles o o' rid x.
Proof.
  intros V1 D1 [Hs Hc] o' V2 D2. assert (El : olog o1 = olog o) by (change (olog o1) with (vw_log (view o1)); by rewrite V1).
  assert (El' : olog o' = l) by (change (olog o') with (vw_log (view o')); by rewrite V2). split; [|by rewrite D2|by rewrite El'].
  unfold abs. change (vw_log (view o')) with (olog o'). rewrite El', V2, V1, Hc, El. done.
Qed.

Lemma settleApplied_spec o rid v rp ts now : steady_log (olog o) → jm_has (olog o) rid = true → outboxAwaitingBaseline (shake o) = false →
  settles o (drainSettleApplied stringify rid v rp ts now o) rid (Resolved v).
Proof.
  intros Hp Hh Haw. unfold drainSettleApplied. pose proof Hh as [e0 He]%bool_decide_eq_true. rewrite He. destruct (view_settle o rid (Resolved v)) as [V1 D1].
  fold (resolvePending rid v o) in V1, D1. set (o1 := resolvePending rid v o) in *. destruct (view_dequeue o1 (Some e0)) as [V2 D2]. set (o2 := dequeueOutboxEntry _ o1) in *.
  assert (El : log (rec (base o2)) = olog o) by (change (log (rec (base o2))) with (vw_log (view o2)); by rewrite V2, V1).
  assert (Es : shake o2 = shake o) by (change (shake o2) with (vw_shake (view o2)); by rewrite V2, V1).
  set (o3 := if rp then _ else _). assert (H3 : settles o o3 rid (Resolved v)).
  { unfold o3. destruct rp.
    - unfold dropAfterBaseline. rewrite Es, Haw. unfold dropNow.
      eapply (settles_rec o o2); [by rewrite V2|by rewrite D2|apply log_verdict|..]; try done; change (olog o2) with (log (rec (base o2))); by rewrite El.
    - unfold onSuccess. eapply (settles_rec o o2); [by rewrite V2|by rewrite D2|apply log_success|..]; try done; change (olog o2) with (log (rec (base o2))); by rewrite El. }
  cbv zeta. destruct (clientId e0), (seq e0); try exact H3; by apply (settles_view o o3).
Qed.

Lemma settleTerminal_spec o rid code m : steady_log (olog o) → jm_has (olog o) rid = true →
  settles o (drainSettleTerminal stringify rid code m o) rid (Rejected m code).
Proof.
  intros Hp Hh. unfold drainSettleTerminal. pose proof Hh as [e0 He]%bool_decide_eq_true. rewrite He. cbn [mbind option_bind].
  destruct (view_settle o rid (Rejected m code)) as [V1 D1]. fold (rejectPending rid (Rejected m code) o) in V1, D1. set (o1 := rejectPending _ _ o) in *.
  cbv zeta. set (o2 := match clientId e0, seq e0 with Some c, Some q => outboxMarkFailed c q m code o1 | _, _ => o1 end).
  assert (H2 : view o2 = view o1 ∧ drain o2 = drain o1) by (unfold o2; by destruct (clientId e0), (seq e0)).
  destruct H2 as [V2 D2]. assert (El : log (rec (base o2)) = olog o) by (change (log (rec (base o2))) with (vw_log (view o2)); by rewrite V2, V1).
  assert (H3 : settles o (onFailure stringify rid o2) rid (Rejected m code)).
  { unfold onFailure. eapply (settles_rec o o2); [by rewrite V2|by rewrite D2|apply log_failure|..]; try done; change (olog o2) with (log (rec (base o2))); by rewrite El. }
  set (o3 := onFailure stringify rid o2) in *. set (o4 := if hadAwaiter rid o then _ else _).
  assert (H4 : view o4 = view o3 ∧ drain o4 = drain o3) by (unfold o4; destruct (hadAwaiter rid o); [done|apply view_failed]). destruct H4 as [V4 D4].
  assert (H5 : settles o o4 rid (Rejected m code)) by by apply (settles_view o o3). destruct (clientId e0), (seq e0); try exact H5; by apply (settles_view o o4).
Qed.

(** The chunk that is left, and the drain after an answer. *)
Definition rest (m : list (jsstr * PendingMutation)) : option (list (jsstr * PendingMutation)) := match m with [] => None | _ => Some m end.
Definition advanced (d : Drain) (m : list (jsstr * PendingMutation)) : Drain :=
  with_active (with_pace d (flushScheduling d) 0 (intervalOn d)) (rest m).

Lemma progress_spec o m : active (drain o) = Some m → view (onForwardProgress o) = view o ∧ drain (onForwardProgress o) = advanced (drain o) m.
Proof.
  intros Ha. unfold onForwardProgress, advanced. cbn [drain on_drain active with_pace]. rewrite Ha. destruct m as [|p m]; cbn [rest].
  - match goal with |- context [nudge ?x] => destruct (view_nudge x) as [-> ->] end. done.
  - split; [done|]. cbn. unfold with_active, with_pace. cbn. by rewrite Ha.
Qed.

(** The drain, after the call of its chunk's head has been settled. *)
Record answered o o' rid (x : Settlement) (m : list (jsstr * PendingMutation)) : Prop := {
  an_view : abs (view o') = with_vlog (vsettle (view o) rid x) (jm_delete (core (olog o)) rid);
  an_drain : drain o' = advanced (drain o) m;
  an_log : steady_log (olog o') }.
Lemma answer_spec o rid e m r now : steady_log (olog o) → jm_has (olog o) rid = true → outboxAwaitingBaseline (shake o) = false →
  active (drain o) = Some ((rid, e) :: m) → decided r →
  let '(o', x) := o_onMutationResponse stringify false rid r now o in
  x = Ok tt ∧ answered o o' rid (outcome e r) m.
Proof.
  intros Hp Hh Haw Ha Hd. assert (Hget : jm_get ((rid, e) :: m) rid = Some e) by (cbn -[decide]; by rewrite decide_True).
  assert (Hdel : jm_delete ((rid, e) :: m) rid = m) by (cbn -[decide]; by rewrite decide_True).
  unfold o_onMutationResponse, handles. rewrite Ha. unfold jm_has at 1. rewrite Hget. rewrite bool_decide_true by done.
  unfold onResponse. rewrite Ha. cbn [mbind option_bind]. rewrite Hget. set (o1 := drop_active rid o).
  assert (H1 : view o1 = view o ∧ drain o1 = with_active (drain o) (Some m)) by (unfold o1, drop_active; rewrite Ha, Hdel; done).
  destruct H1 as [V1 D1]. assert (El : olog o1 = olog o) by (change (olog o1) with (vw_log (view o1)); by rewrite V1).
  assert (Es : shake o1 = shake o) by (change (shake o1) with (vw_shake (view o1)); by rewrite V1).
  assert (Hend : ∀ o2 x, settles o1 o2 rid x → answered o (onForwardProgress o2) rid x m).
  { intros o2 x [V2 D2 S2]. destruct (progress_spec o2 m) as [V3 D3]; [by rewrite D2, D1|]. split.
    - by rewrite V3, V2, V1, El.
    - by rewrite D3, D2, D1.
    - change (steady_log (vw_log (view (onForwardProgress o2)))). by rewrite V3. }
  rewrite <-El in Hp, Hh. rewrite <-Es in Haw. destruct r as [v ts rp vm|err [code|]]; [| |done].
  - assert (Hv : (if vm then Ok VNull else match v with Some j => jsonToConvex j | None => Ok VNull end) =
      Ok (match outcome e (ReplyOk v ts rp vm) with Resolved x => x | _ => VNull end)).
    { cbn in *. destruct vm; [done|]. destruct v as [j|]; [|done]. destruct Hd as [?|Hd]; [done|]. by destruct (Hd j eq_refl) as [x ->]. }
    rewrite Hv. split; [done|]. by apply Hend, settleApplied_spec.
  - split; [done|]. by apply Hend, settleTerminal_spec.
Qed.

(** *** Flushing a chunk *)
Definition matches (fp : jsstr) (e : PendingMutation) : Prop := ∀ f, identityFingerprint e = Some f → f = fp.

Lemma mark_nil (l : MutationLog) : mark [] <$> l = l.
Proof. rewrite <-(list_fmap_id l) at 2. apply list_fmap_ext. intros _ [k e] _. unfold mark. cbn -[decide]. by rewrite decide_False by apply not_elem_of_nil. Qed.

Lemma chunk_loop_spec fp all : Forall (matches fp) all → NoDup (requestId <$> all) → ∀ map chunk o, jm_ok (olog o) →
  (∀ e, e ∈ all → requestId e ∉ map.*1) →
  let batch := take (chunkSize - length chunk) all in
  let '(o', map', chunk', b) := flush_loop stringify chunkSize fp all map chunk false o in
  view o' = with_vlog (view o) (mark (requestId <$> batch) <$> olog o) ∧ drain o' = drain o ∧ map' = map ++ as_log batch ∧
  chunk' = chunk ++ (batchEntry <$> batch) ∧ b = false.
Proof.
  intros Hm. induction Hm as [|e all He Hall IH]; intros Hnd map chunk o Hok Hmap; cbn [flush_loop].
  { rewrite take_nil. cbn. rewrite mark_nil, !app_nil_r. by destruct o. }
  cbn in Hnd. apply NoDup_cons in Hnd as [Hn Hnd]. destruct (Nat.leb_spec chunkSize (length chunk)) as [Hle|Hlt].
  { replace (chunkSize - length chunk)%nat with 0%nat by lia. cbn. rewrite mark_nil, !app_nil_r. by destruct o. }
  assert (Ef : (match identityFingerprint e with Some f => bool_decide (f ≠ fp) | None => false end) = false).
  { destruct (identityFingerprint e) as [f|] eqn:E; [|done]. rewrite (He f E). apply bool_decide_false. intros H. by apply H. }
  rewrite Ef. destruct (view_setStatus o e Inflight OInflight) as [V1 D1]. set (o1 := setStatus e Inflight OInflight o) in *.
  assert (El : olog o1 = log_update (olog o) (requestId e) (with_status Inflight)) by (change (olog o1) with (vw_log (view o1)); by rewrite V1).
  replace (chunkSize - length chunk)%nat with (S (chunkSize - length (chunk ++ [batchEntry e]))) by (rewrite length_app; cbn; lia). cbn [take].
  specialize (IH Hnd (jm_set map (requestId e) e) (chunk ++ [batchEntry e]) o1). cbv zeta in IH |- *. set (batch := take _ all) in *.
  destruct (flush_loop _ _ _ _ _ _ _ _) as [[[o' map'] chunk'] b]. destruct IH as (I1 & I2 & I3 & I4 & I5).
  - rewrite El. by apply log_update_ok.
  - intros e' Hin. rewrite jm_set_keys. intros [E|E]; [|by apply (Hmap e'); [right|]]. destruct Hn. rewrite <-E. apply list_elem_of_fmap. by exists e'.
  - split_and!; [|by rewrite I2| | |done].
    + rewrite I1, V1, El. cbn. by rewrite mark_cons.
    + rewrite I3, jm_set_fresh by (apply Hmap; left). by rewrite <-(assoc_L (++)).
    + rewrite I4. by rewrite <-(assoc_L (++)).
Qed.

(** *** Answering a chunk *)
Variable answer : MutationBatchEntry → MutationReply.
Variable now : Z.
Hypothesis Hdecided : ∀ u, decided (answer u).

Definition responses (batch : list PendingMutation) : list oevent := (λ e, OeResponse (requestId e) (answer (batchEntry e)) now) <$> batch.
Definition settle_batch (v : View) (batch : list PendingMutation) : View :=
  fold_left (λ v e, vsettle v (requestId e) (outcome e (answer (batchEntry e)))) batch v.

Lemma settle_batch_log batch v l : settle_batch (with_vlog v l) batch = with_vlog (settle_batch v batch) l.
Proof. revert v. induction batch as [|e batch IH]; intros v; [done|]. exact (IH (vsettle v (requestId e) (outcome e (answer (batchEntry e))))). Qed.
Lemma settle_batch_rest batch v : vw_log (settle_batch v batch) = vw_log v ∧ vw_sent (settle_batch v batch) = vw_sent v ∧
  vw_closed (settle_batch v batch) = vw_closed v ∧ vw_shake (settle_batch v batch) = vw_shake v ∧ vw_ident (settle_batch v batch) = vw_ident v.
Proof. revert v. induction batch as [|e batch IH]; intros v; [done|]. exact (IH (vsettle v (requestId e) (outcome e (answer (batchEntry e))))). Qed.

Lemma answers_spec batch : ∀ o, steady_log (olog o) → (∀ e, e ∈ batch → jm_has (core (olog o)) (requestId e) = true) → NoDup (requestId <$> batch) →
  outboxAwaitingBaseline (shake o) = false → active (drain o) = rest (as_log batch) →
  let o' := orun o (responses batch) in
  abs (view o') = with_vlog (settle_batch (view o) batch) (fold_left jm_delete (requestId <$> batch) (core (olog o))) ∧
  steady_log (olog o') ∧ (batch ≠ [] → drain o' = advanced (drain o) []).
Proof.
  induction batch as [|e batch IH]; intros o Hp Hh Hnd Haw Ha; [by split|]. cbn in Hnd. apply NoDup_cons in Hnd as [Hn Hnd].
  change (orun o (responses (e :: batch))) with (orun (ostep o (OeResponse (requestId e) (answer (batchEntry e)) now)).1 (responses batch)).
  cbn [OutboxClient.ostep]. pose proof (core_has _ _ Hp (Hh e ltac:(left))) as Hhe.
  pose proof (answer_spec o (requestId e) e (as_log batch) (answer (batchEntry e)) now Hp Hhe Haw Ha (Hdecided _)) as H.
  destruct (o_onMutationResponse _ _ _ _ _ o) as [o1 x]. destruct H as (_ & [V1 D1 S1]). cbn [fst].
  assert (El : core (olog o1) = jm_delete (core (olog o)) (requestId e)) by (change (core (olog o1)) with (vw_log (abs (view o1))); by rewrite V1).
  assert (Es : shake o1 = shake o) by (change (shake o1) with (vw_shake (abs (view o1))); by rewrite V1).
  destruct (IH o1) as (V2 & S2 & D2).
  - done.
  - intros e' He'. rewrite El. unfold jm_has. rewrite jm_get_delete by apply core_ok, Hp. rewrite decide_False; [apply Hh; by right|].
    intros E. destruct Hn. rewrite <-E. apply list_elem_of_fmap. by exists e'.
  - done.
  - by rewrite Es.
  - by rewrite D1.
  - cbv zeta. split_and!; [|done|intros _; destruct batch as [|e' batch]; [exact D1|by rewrite D2, D1]].
    rewrite V2, El. change (settle_batch (view o) (e :: batch)) with (settle_batch (vsettle (view o) (requestId e) (outcome e (answer (batchEntry e)))) batch).
    assert (Ev : ∀ l, with_vlog (settle_batch (view o1) batch) l = with_vlog (settle_batch (abs (view o1)) batch) l) by (intros l; unfold abs; by rewrite settle_batch_log).
    by rewrite Ev, V1, settle_batch_log.
Qed.

(** *** Rounds *)
Lemma deletes_filter ids (l : MutationLog) : jm_ok l → fold_left jm_delete ids l = filter (λ p, p.1 ∉ ids) l.
Proof.
  revert l. induction ids as [|i ids IH]; intros l Hl; cbn [fold_left].
  - symmetry. apply filter_all_in. intros; apply not_elem_of_nil.
  - rewrite IH by by apply jm_delete_ok. rewrite jm_delete_filter by done. rewrite list_filter_filter. apply filter_ext_in. intros x _. rewrite not_elem_of_cons. tauto.
Qed.
Lemma filter_marked ids (l : MutationLog) : filter (λ p, p.1 ∉ ids) (mark ids <$> l) = filter (λ p, p.1 ∉ ids) l.
Proof.
  induction l as [|[k e] l IH]; [done|]. rewrite fmap_cons, !filter_cons. cbn [fst mark]. destruct (decide (k ∉ ids)) as [Hn|Hn]; [|done].
  rewrite IH. unfold mark. cbn -[decide]. by rewrite (decide_False (P := k ∈ ids)).
Qed.

Definition outside (ids : list jsstr) (e : PendingMutation) : bool := negb (bool_decide (requestId e ∈ ids)).
Lemma filter_swap {A} (p q : A → bool) l : List.filter p (List.filter q l) = List.filter q (List.filter p l).
Proof. induction l as [|x l IH]; [done|]. cbn. destruct (q x) eqn:Q, (p x) eqn:P; cbn; rewrite ?Q, ?P, ?IH; done. Qed.
Lemma entries_outside ids l : steady_log l → entriesInOrder (filter (λ p, p.1 ∉ ids) l) = List.filter (outside ids) (entriesInOrder l).
Proof.
  intros [_ He]. unfold entriesInOrder, jm_values. induction l as [|[k e] l IH]; [done|]. rewrite filter_cons. cbn [fmap list_fmap List.filter fst snd].
  destruct (He k e) as [Ek _]; [left|]. unfold outside at 1. rewrite Ek. rewrite <-IH by (intros; apply He; by right).
  case_bool_decide; [rewrite decide_False by (intros Hn; by apply Hn)|rewrite decide_True by done]; done.
Qed.
Lemma filter_none {A} (p : A → bool) l : (∀ x, x ∈ l → p x = false) → List.filter p l = [].
Proof. induction l as [|x l IH]; intros H; [done|]. cbn. rewrite (H x) by left. apply IH. intros; apply H; by right. Qed.
Lemma filter_every {A} (p : A → bool) l : (∀ x, x ∈ l → p x = true) → List.filter p l = l.
Proof. induction l as [|x l IH]; intros H; [done|]. cbn. rewrite (H x) by left. f_equal. apply IH. intros; apply H; by right. Qed.
Lemma outside_drop n Q : NoDup (requestId <$> Q) → List.filter (outside (requestId <$> take n Q)) Q = drop n Q.
Proof.
  intros Hnd. rewrite <-(take_drop n Q) at 2. rewrite List.filter_app. rewrite <-(take_drop n Q) in Hnd at 1. rewrite fmap_app in Hnd. apply NoDup_app in Hnd as (_ & Hd & _).
  assert (H1 : List.filter (outside (requestId <$> take n Q)) (take n Q) = []).
  { apply filter_none. intros e He. unfold outside. rewrite bool_decide_true; [done|]. apply list_elem_of_fmap. by exists e. }
  rewrite H1. apply filter_every. intros e He. unfold outside. rewrite bool_decide_false; [done|]. intros Hin. apply (Hd _ Hin). apply list_elem_of_fmap. by exists e.
Qed.

(** A leader whose transport is open and armed, between two chunks, with a queue of the identity it has now, and no optimistic updater that
    throws. *)
Record ready o : Prop := {
  rd_log : steady_log (olog o);
  rd_flags : leader (drain o) = true ∧ stopped (drain o) = false ∧ paused (drain o) = false ∧ flushScheduling (drain o) = false ∧ intervalOn (drain o) = true;
  rd_active : active (drain o) = None;
  rd_open : closed (base o) = false ∧ outboxArmed (shake o) = true ∧ outboxAwaitingBaseline (shake o) = false;
  rd_identity : Forall (matches (outboxFingerprint (ident o))) (drainableEntries o) }.

(** The interval's tick, the flush it schedules, and the server's answers to the chunk in order. *)
Definition round o : list oevent :=
  [OeInterval; OeJob (length (jobs (obs o)))] ++ responses (take chunkSize (drainableEntries o)).

Lemma queue_ids o : steady_log (olog o) → NoDup (requestId <$> drainableEntries o).
Proof.
  intros [Hok He]. unfold drainableEntries. rewrite sort_by_perm. apply (sublist_NoDup _ (requestId <$> entriesInOrder (olog o))).
  - unfold entriesInOrder, jm_values. rewrite <-list_fmap_compose. erewrite list_fmap_ext; [exact Hok|]. intros i [k e] Hi. cbn.
    by apply (He k e), (list_elem_of_lookup_2 _ _ _ Hi).
  - apply sublist_map, filter_sub.
Qed.
Lemma queue_in_log o e : steady_log (olog o) → e ∈ drainableEntries o → ∃ k e', (k, e') ∈ core (olog o) ∧ requestId e = k.
Proof.
  intros [Hok He] Hin. apply elem_of_sort_by, list_elem_of_In, List.filter_In in Hin as [Hin%list_elem_of_In Hd].
  apply list_elem_of_fmap in Hin as ([k e'] & -> & Hin). cbn in *. destruct (He k e' Hin) as [E _]. exists k, (bare e'). split; [|done].
  apply list_elem_of_fmap. exists (k, e'). split; [done|]. apply list_elem_of_In, List.filter_In. split; [by apply list_elem_of_In|].
  unfold drain_eligible in Hd. unfold waits. cbn. by destruct (clientId e'), (seq e'), (status e').
Qed.

(** The queue, without what its layers touched. *)
Lemma queue_core o : bare <$> drainableEntries o = sort_by by_m_order (List.filter drain_eligible (entriesInOrder (core (olog o)))).
Proof.
  unfold drainableEntries. assert (E : List.filter drain_eligible (entriesInOrder (core (olog o))) = bare <$> List.filter drain_eligible (entriesInOrder (olog o))).
  { unfold entriesInOrder, jm_values. induction (olog o) as [|[k e] l IH]; [done|]. rewrite core_cons. cbn. destruct (waits e) eqn:Ew.
    - cbn. change (drain_eligible (bare e)) with (drain_eligible e). destruct (drain_eligible e); cbn; by rewrite IH.
    - rewrite IH. assert (drain_eligible e = false) as ->; [|done]. unfold drain_eligible, waits in *. by destruct (status e), (clientId e), (seq e). }
  by rewrite E, (sort_by_fmap bare by_m_order).
Qed.
Lemma bare_ids (l : list PendingMutation) : requestId <$> (bare <$> l) = requestId <$> l.
Proof. by rewrite <-list_fmap_compose. Qed.
Lemma matches_bare fp (l : list PendingMutation) : Forall (matches fp) (bare <$> l) ↔ Forall (matches fp) l.
Proof. by rewrite Forall_fmap. Qed.

Lemma view_queue o o' : olog o' = olog o → drainableEntries o' = drainableEntries o.
Proof. intros E. unfold drainableEntries. by rewrite E. Qed.

Lemma flushChunk_spec o : steady_log (olog o) → Forall (matches (outboxFingerprint (ident o))) (drainableEntries o) → chunkSize ≠ 0%nat → drainableEntries o ≠ [] → let Q := drainableEntries o in let batch := take chunkSize Q in
  let o' := flushChunk stringify chunkSize o in
  view o' = {| vw_log := mark (requestId <$> batch) <$> olog o; vw_awaited := pendingMutationCallbacks (base o); vw_settled := settlements (base o);
               vw_sent := sent (base o) ++ [MMutationBatch (batchEntry <$> batch)]; vw_closed := closed (base o); vw_shake := shake o; vw_ident := ident o |} ∧
  drain o' = with_active (drain o) (Some (as_log batch)).
Proof.
  intros Hp Hi Hn HQ. cbv zeta. unfold flushChunk. pose proof (queue_ids o Hp) as Hnd. set (Q := drainableEntries o) in *.
  pose proof (chunk_loop_spec (outboxFingerprint (ident o)) Q Hi Hnd [] [] o (sl_ok _ Hp) (λ e _, not_elem_of_nil _)) as H. cbv zeta in H.
  cbn [length] in H. rewrite Nat.sub_0_r in H. destruct (flush_loop _ _ _ _ _ _ _ _) as [[[o1 map] chunk] b]. destruct H as (V1 & D1 & -> & -> & _).
  cbn [app]. destruct (batchEntry <$> take chunkSize Q) as [|u us] eqn:Eb.
  { apply fmap_nil_inv in Eb. destruct chunkSize; [done|]. by destruct Q. }
  rewrite <-Eb. set (o2 := on_drain o1 _). change (view (osend ?m o2)) with (view (osend m o1)). split; [|by rewrite <-D1].
  assert (Hs : ∀ m, view (osend m o1) = {| vw_log := vw_log (view o1); vw_awaited := vw_awaited (view o1); vw_settled := vw_settled (view o1);
    vw_sent := vw_sent (view o1) ++ [m]; vw_closed := vw_closed (view o1); vw_shake := vw_shake (view o1); vw_ident := vw_ident (view o1) |}) by done.
  by rewrite Hs, V1.
Qed.

Definition settled_of (awaited : list jsstr) (batch : list PendingMutation) : list (jsstr * Settlement) :=
  omap (λ e, if bool_decide (requestId e ∈ awaited) then Some (requestId e, outcome e (answer (batchEntry e))) else None) batch.
Lemma settle_batch_settled batch v : NoDup (requestId <$> batch) →
  vw_settled (settle_batch v batch) = vw_settled v ++ settled_of (vw_awaited v) batch ∧
  vw_awaited (settle_batch v batch) = filter (λ r, r ∉ requestId <$> batch) (vw_awaited v).
Proof.
  revert v. induction batch as [|e batch IH]; intros v Hnd.
  { cbn. rewrite app_nil_r. split; [done|]. symmetry. apply filter_all_in. intros; apply not_elem_of_nil. }
  cbn in Hnd. apply NoDup_cons in Hnd as [Hn Hnd]. destruct (IH (vsettle v (requestId e) (outcome e (answer (batchEntry e)))) Hnd) as [I1 I2].
  change (settle_batch v (e :: batch)) with (settle_batch (vsettle v (requestId e) (outcome e (answer (batchEntry e)))) batch). rewrite I1, I2. cbn [vw_settled vw_awaited vsettle]. split.
  - rewrite <-(assoc_L (++)). f_equal. unfold settled_of at 2. cbn [omap list_omap]. fold (settled_of (vw_awaited v) batch).
    assert (E : settled_of (filter (λ r, r ≠ requestId e) (vw_awaited v)) batch = settled_of (vw_awaited v) batch).
    { unfold settled_of. clear -Hn. induction batch as [|e' batch IH]; [done|]. cbn in Hn. apply not_elem_of_cons in Hn as [Hne Hn]. cbn. rewrite IH by done.
      rewrite (bool_decide_ext _ (requestId e' ∈ vw_awaited v)); [done|]. rewrite list_elem_of_filter. naive_solver. }
    rewrite E. by case_bool_decide.
  - rewrite list_filter_filter. apply filter_ext_in. intros x _. cbn. rewrite not_elem_of_cons. tauto.
Qed.

Lemma round_spec o : ready o → chunkSize ≠ 0%nat → let Q := drainableEntries o in let batch := take chunkSize Q in let o' := orun o (round o) in
  ready o' ∧ bare <$> drainableEntries o' = bare <$> drop chunkSize Q ∧
  sent (base o') = sent (base o) ++ (match Q with [] => [] | _ => [MMutationBatch (batchEntry <$> batch)] end) ∧
  settlements (base o') = settlements (base o) ++ settled_of (pendingMutationCallbacks (base o)) batch ∧
  pendingMutationCallbacks (base o') = filter (λ r, r ∉ requestId <$> batch) (pendingMutationCallbacks (base o)).
Proof.
  intros Hr Hn. cbv zeta. pose proof Hr as [Hp (F1 & F2 & F3 & F4 & F5) Ha (O1 & O2 & O3) Hi]. set (Q := drainableEntries o) in *. set (batch := take chunkSize Q).
  set (o1 := if intervalOn (drain o) then maybeDrainNext o else o).
  assert (Hrun : orun o (round o) = orun (ostep o1 (OeJob (length (jobs (obs o))))).1 (responses batch)) by done. rewrite Hrun.
  assert (Hcan : canDrain o = negb (Nat.eqb (length Q) 0)).
  { unfold canDrain, hasActiveChunk. by rewrite F1, F2, F3, Ha, O1, O2. }
  destruct (decide (Q = [])) as [EQ|HQ].
  { assert (E1 : o1 = o) by (unfold o1, maybeDrainNext; rewrite F5, F4, Hcan, EQ; done). rewrite E1. cbn [OutboxClient.ostep]. rewrite lookup_ge_None_2 by done. cbn [fst].
    unfold batch. rewrite EQ, take_nil. cbn. fold Q. rewrite EQ, drop_nil, !app_nil_r. split_and!; try done. symmetry. apply filter_all_in. intros; apply not_elem_of_nil. }
  assert (Hc : canDrain o = true) by (rewrite Hcan; by destruct Q).
  assert (E1 : o1 = push_job JFlush (on_drain o (with_pace (drain o) true (transientAttempts (drain o)) (intervalOn (drain o))))).
  { unfold o1, maybeDrainNext. rewrite F5, F4, Hc. cbn. by rewrite O3. }
  set (o2 := on_drain o (with_pace (drain o) true (transientAttempts (drain o)) (intervalOn (drain o)))) in *.
  assert (Hj : (ostep o1 (OeJob (length (jobs (obs o))))).1 = resume_flush stringify chunkSize (with_jobs o2 (jobs (obs o)))).
  { rewrite E1. cbn [OutboxClient.ostep]. change (jobs (obs (push_job JFlush o2))) with (jobs (obs o) ++ [JFlush]).
    rewrite list_lookup_middle by done. cbn [fst run_job]. f_equal. rewrite delete_middle, app_nil_r. done. }
  rewrite Hj. set (o3 := with_jobs o2 (jobs (obs o))).
  assert (Hc3 : canDrain o3 = true) by exact Hc. unfold resume_flush. rewrite Hc3.
  destruct (flushChunk_spec o3 Hp Hi Hn HQ) as [V3 D3]. change (drainableEntries o3) with Q in V3, D3. fold batch in V3, D3. set (o4 := flushChunk _ _ o3) in *.
  set (o5 := on_drain o4 _). assert (V5 : view o5 = view o4) by done.
  assert (D5 : drain o5 = with_active (with_pace (drain o) false (transientAttempts (drain o)) (intervalOn (drain o))) (Some (as_log batch))) by (cbn; by rewrite D3).
  assert (Hb : batch ≠ []) by (unfold batch; destruct chunkSize; [done|by destruct Q]).
  assert (El : olog o5 = mark (requestId <$> batch) <$> olog o) by (change (olog o5) with (vw_log (view o5)); by rewrite V5, V3).
  assert (Hbq : ∀ e, e ∈ batch → e ∈ Q) by (intros e He; unfold batch in He; rewrite <-(take_drop chunkSize Q); apply elem_of_app; by left).
  assert (Hnd : NoDup (requestId <$> batch)) by (apply (sublist_NoDup _ (requestId <$> Q)); [by apply queue_ids|apply sublist_map, sublist_take]).
  destruct (answers_spec batch o5) as (V6 & S6 & D6).
  - rewrite El. by apply steady_marked.
  - intros e He. rewrite El. destruct (queue_in_log o e Hp (Hbq e He)) as (k & e0 & Hin & ->). apply bool_decide_eq_true.
    apply core_in in Hin as (e1 & Hin & -> & Hw). eexists. apply jm_get_elem; [apply core_ok, steady_marked, Hp|]. apply list_elem_of_fmap.
    exists (mark (requestId <$> batch) (k, e1)). split; [done|]. apply list_elem_of_In, List.filter_In. split; [apply list_elem_of_In, list_elem_of_fmap; by eexists|].
    cbn. by case_decide.
  - done.
  - change (shake o5) with (vw_shake (view o5)). by rewrite V5, V3.
  - rewrite D5. by destruct batch.
  - set (o6 := orun o5 (responses batch)) in *. specialize (D6 Hb). destruct (settle_batch_rest batch (view o5)) as (_ & R2 & R3 & R4 & R5).
    destruct (settle_batch_settled batch (view o5) Hnd) as [S1 S2].
    rewrite El, deletes_filter in V6 by (apply core_ok, steady_marked; done). rewrite <-core_outside, filter_marked in V6.
    assert (EQ6 : bare <$> drainableEntries o6 = bare <$> drop chunkSize Q).
    { rewrite queue_core. change (core (olog o6)) with (vw_log (abs (view o6))). rewrite V6. cbn [vw_log with_vlog]. rewrite core_outside.
      rewrite entries_outside, filter_swap, sort_by_filter, <-queue_core by (apply core_steady || apply _; done).
      fold Q. rewrite <-(bare_ids batch). unfold batch. rewrite (fmap_take bare), (fmap_drop bare). apply outside_drop. rewrite bare_ids. by apply queue_ids. }
    assert (Hshake : shake o6 = shake o) by (change (shake o6) with (vw_shake (abs (view o6))); rewrite V6; cbn; by rewrite R4, V5, V3).
    assert (Hident : ident o6 = ident o) by (change (ident o6) with (vw_ident (abs (view o6))); rewrite V6; cbn; by rewrite R5, V5, V3).
    assert (Hclosed : closed (base o6) = closed (base o)) by (change (closed (base o6)) with (vw_closed (abs (view o6))); rewrite V6; cbn; by rewrite R3, V5, V3).
    split_and!.
    + split.
      * done.
      * rewrite D6, D5. cbn. by split_and!.
      * by rewrite D6.
      * by rewrite Hclosed, Hshake.
      * apply matches_bare. rewrite EQ6. apply matches_bare. rewrite Hident. by apply Forall_drop.
    + done.
    + change (sent (base o6)) with (vw_sent (abs (view o6))). rewrite V6. cbn [vw_sent with_vlog]. rewrite R2, V5, V3. cbn. by destruct Q.
    + change (settlements (base o6)) with (vw_settled (abs (view o6))). rewrite V6. cbn [vw_settled with_vlog]. by rewrite S1, V5, V3.
    + change (pendingMutationCallbacks (base o6)) with (vw_awaited (abs (view o6))). rewrite V6. cbn [vw_awaited with_vlog]. by rewrite S2, V5, V3.
Qed.

(** *** The whole queue *)
Fixpoint rounds (n : nat) o : OClient := match n with O => o | S n => rounds n (orun o (round o)) end.

Lemma settled_of_filter (ids awaited : list jsstr) (l : list PendingMutation) : (∀ e, e ∈ l → requestId e ∉ ids) → settled_of (filter (λ r, r ∉ ids) awaited) l = settled_of awaited l.
Proof.
  unfold settled_of. induction l as [|e l IH]; intros H; [done|]. cbn. rewrite IH by (intros e' He'; apply H; by right).
  rewrite (bool_decide_ext _ (requestId e ∈ awaited)); [done|]. rewrite list_elem_of_filter. pose proof (H e (list_elem_of_here e l)). naive_solver.
Qed.
Lemma bare_same {B} (f : PendingMutation → B) (l l' : list PendingMutation) : (∀ e, f (bare e) = f e) → bare <$> l = bare <$> l' → f <$> l = f <$> l'.
Proof.
  intros Hf E. assert (H : ∀ l : list PendingMutation, f <$> l = f <$> (bare <$> l)) by (intros; rewrite <-list_fmap_compose; apply list_fmap_ext; intros; symmetry; apply Hf).
  by rewrite (H l), (H l'), E.
Qed.
Lemma settled_bare awaited (l l' : list PendingMutation) : bare <$> l = bare <$> l' → settled_of awaited l = settled_of awaited l'.
Proof.
  intros E. assert (H : ∀ l : list PendingMutation, settled_of awaited (bare <$> l) = settled_of awaited l).
  { unfold settled_of. induction l0 as [|e l0 IH]; [done|]. cbn. rewrite IH. done. }
  by rewrite <-(H l), E, H.
Qed.
Lemma settled_of_app awaited l l' : settled_of awaited (l ++ l') = settled_of awaited l ++ settled_of awaited l'.
Proof. apply omap_app. Qed.

Definition chunk_message (m : ClientMessage) : Prop := ∃ us, m = MMutationBatch us ∧ (length us ≤ chunkSize)%nat.

(** C27: The drain empties its queue. A leader is ready when its transport is open and armed, no chunk is in flight, its queue is of the
    identity it has, and no logged optimistic updater throws, whatever it reads. If its server decides every unit it is sent, then after as
    many rounds as there are chunks its queue is empty: it has sent exactly the queued mutations, each once and in their order, in batches no
    larger than the chunk size, and has settled each awaited one once, in that order, with what the server answered to it; no other promise
    was settled. (A mutation whose updater throws when a settlement replays the layers leaves the log unsent: [Client.offline_mutation_lost].) *)
Theorem drain_completes n o : ready o → chunkSize ≠ 0%nat → (length (drainableEntries o) ≤ n * chunkSize)%nat →
  let Q := drainableEntries o in let o' := rounds n o in
  ready o' ∧ drainableEntries o' = [] ∧
  (∃ ms, sent (base o') = sent (base o) ++ ms ∧ concat (units_of <$> ms) = batchEntry <$> Q ∧ Forall chunk_message ms) ∧
  settlements (base o') = settlements (base o) ++ settled_of (pendingMutationCallbacks (base o)) Q ∧
  pendingMutationCallbacks (base o') = filter (λ r, r ∉ requestId <$> Q) (pendingMutationCallbacks (base o)).
Proof.
  intros Hr Hn. cbv zeta. revert o Hr. induction n as [|n IH]; intros o Hr Hlen.
  { apply Nat.le_0_r, nil_length_inv in Hlen. cbn. rewrite Hlen. cbn. rewrite app_nil_r. split_and!; [done..| |done|].
    - exists []. by rewrite app_nil_r.
    - symmetry. apply filter_all_in. intros; apply not_elem_of_nil. }
  destruct (round_spec o Hr Hn) as (Hr1 & HQ1 & Hs1 & Ht1 & Hp1). set (o1 := orun o (round o)) in *. set (Q := drainableEntries o) in *.
  change (rounds (S n) o) with (rounds n o1).
  assert (Hl : length (drainableEntries o1) = length (drop chunkSize Q)) by (apply (f_equal length) in HQ1; by rewrite !length_fmap in HQ1).
  destruct (IH o1 Hr1) as (Hr2 & HQ2 & (ms & Hs2 & Hu2 & Hc2) & Ht2 & Hp2); [rewrite Hl, length_drop; lia|].
  rewrite (bare_same batchEntry _ _ (λ _, eq_refl) HQ1) in Hu2. rewrite (bare_same requestId _ _ (λ _, eq_refl) HQ1) in Hp2.
  rewrite (settled_bare _ _ _ HQ1) in Ht2.
  assert (Hnd : NoDup (requestId <$> take chunkSize Q ++ drop chunkSize Q)) by (rewrite take_drop; apply queue_ids, Hr).
  split_and!; [done..| | |].
  - exists ((match Q with [] => [] | _ => [MMutationBatch (batchEntry <$> take chunkSize Q)] end) ++ ms).
    rewrite Hs2, Hs1, <-(assoc_L (++)). split_and!; [done| |].
    + rewrite fmap_app, concat_app, Hu2. transitivity (batchEntry <$> take chunkSize Q ++ drop chunkSize Q); [|by rewrite take_drop]. rewrite fmap_app. f_equal. destruct Q; [by rewrite take_nil|]. apply app_nil_r.
    + apply Forall_app. split; [|done]. destruct Q; [done|]. apply Forall_singleton. eexists. split; [done|]. rewrite length_fmap, length_take. lia.
  - rewrite Ht2, Ht1, Hp1, <-(assoc_L (++)). f_equal.
    transitivity (settled_of (pendingMutationCallbacks (base o)) (take chunkSize Q ++ drop chunkSize Q)); [|by rewrite take_drop]. rewrite settled_of_app. f_equal. apply settled_of_filter.
    rewrite fmap_app in Hnd. apply NoDup_app in Hnd as (_ & Hd & _). intros e He Hin. apply (Hd _ Hin). apply list_elem_of_fmap. by exists e.
  - rewrite Hp2, Hp1, list_filter_filter. apply filter_ext_in. intros x _. cbn beta.
    assert (E : (x ∈ requestId <$> Q) ↔ (x ∈ requestId <$> take chunkSize Q) ∨ (x ∈ requestId <$> drop chunkSize Q)) by by rewrite <-elem_of_app, <-fmap_app, take_drop.
    rewrite E. tauto.
Qed.
End drain.

(** ** A run *)
Definition plain_logb (l : MutationLog) : bool :=
  bool_decide (NoDup l.*1) && forallb (λ p, bool_decide (requestId p.2 = p.1)) l.
Definition matchesb (fp : jsstr) (e : PendingMutation) : bool := match identityFingerprint e with Some f => bool_decide (f = fp) | None => true end.
Definition readyb (o : OClient) : bool :=
  plain_logb (olog o) &&
  (leader (drain o) && negb (stopped (drain o)) && negb (paused (drain o)) && negb (flushScheduling (drain o)) && intervalOn (drain o)) &&
  match active (drain o) with None => true | Some _ => false end &&
  (negb (closed (base o)) && outboxArmed (shake o) && negb (outboxAwaitingBaseline (shake o))) &&
  forallb (matchesb (outboxFingerprint (ident o))) (drainableEntries o).
Lemma readyb_ready o : readyb o = true → Forall (λ p, steady p.2) (olog o) → ready o.
Proof.
  unfold readyb, plain_logb. rewrite !andb_true_iff, !negb_true_iff, bool_decide_eq_true, !forallb_forall.
  intros (((([Hok He] & Hf) & Ha) & Ho) & Hi) Hs. split; [split; [done|]|tauto| |tauto|].
  - intros rid e Hin. rewrite Forall_forall in Hs. split; [|exact (Hs _ Hin)]. apply list_elem_of_In in Hin. by apply He, bool_decide_eq_true in Hin.
  - by destruct (active (drain o)).
  - apply Forall_forall. intros e Hin%list_elem_of_In. specialize (Hi _ Hin). unfold matchesb in Hi. intros f Ef. rewrite Ef in Hi. by apply bool_decide_eq_true in Hi.
Qed.

(** Two mutations are made while the transport is down, the first with an optimistic update; the server answers the first with a value and
    refuses the second. *)
Definition demo_answer (u : MutationBatchEntry) : MutationReply :=
  if bool_decide (me_udfPath u = js "m:f") then ReplyOk (Some (JStr (js "done"))) None false false else ReplyError (js "no") (Some (js "E")).
Abbreviation queued := (orun plain_stringify demo_sha 1000 1 false no_updates (new_OClient memoryOutbox (js "a"))
  (boot ++ [OeClosed; OeMutation (js "m:f") VNull (Some show_one) seed0 false 5; call (js "m:g") 6; OeReopened; OeJob 0; OeJob 0])).
Lemma demo_decided u : decided (demo_answer u).
Proof. unfold demo_answer. case_bool_decide; [|done]. right. intros j [= <-]. by eexists. Qed.
Lemma queued_steady : Forall (λ p, steady p.2) (olog queued).
Proof.
  let l := eval vm_compute in (olog queued) in change (Forall (λ p, steady p.2) l).
  repeat constructor; intros f [= <-]. by exists VNull.
Qed.
Definition completed (o o' : OClient) : Prop :=
  drainableEntries o' = [] ∧ settlements (base o') = settlements (base o) ++ settled_of demo_answer (pendingMutationCallbacks (base o)) (drainableEntries o).

Lemma drain_completes_witness : length (drainableEntries queued) = 2%nat ∧ length (settled_of demo_answer (pendingMutationCallbacks (base queued)) (drainableEntries queued)) = 2%nat ∧
  completed queued (rounds plain_stringify demo_sha 1000 1 no_updates demo_answer 9 2 queued).
Proof.
  split; [vm_compute; reflexivity|]. split; [vm_compute; reflexivity|].
  assert (Hr : ready queued) by (apply readyb_ready; [vm_compute; reflexivity|exact queued_steady]).
  assert (Hl : (length (drainableEntries queued) ≤ 2 * 1)%nat) by (apply Nat.leb_le; vm_compute; reflexivity).
  exact (match drain_completes plain_stringify demo_sha 1000 1 no_updates demo_answer 9 demo_decided 2 queued Hr (Nat.neq_succ_0 0) Hl with
    conj _ (conj H1 (conj _ (conj H2 _))) => conj H1 H2 end).
Defined.
