(* ===== verification/LiveQuery.v ===== *)
(** Live range queries, end to end: what the rows of the commit differ ([packages/sync/src/commit-differ.ts])
    show when the client ([packages/client/src/layered-store.ts]) renders them is the answer of the query on
    the documents as they are. The definitions are those of [DiffSync] and [ClientStore]; this file composes their theorems. *)
From S2P Require Import Prelude Numbers Values Json IndexKeys Ranges IdCodec DocStore QueryEngine Subscriptions DiffSync SessionFlow ClientStore.

(** ** The answer of a range query *)
Definition member_key (rr : RangeRead) (doc : value) : option bytes :=
  match extractIndexKey doc (rr_fields rr), deserializeKeyRange (rr_bounds rr) with
  | Ok k, Ok b => if keyInRange k b && forallb (evaluateFilter doc) (rr_filters rr) then Some k else None
  | _, _ => None
  end.
Definition member_entry (rr : RangeRead) (doc : value) : option (bytes * value) := (λ k, (k, doc)) <$> member_key rr doc.
Definition members_of (rr : RangeRead) (docs : list (jsstr * value)) : list (bytes * value) := omap (member_entry rr) docs.*2.

Definition by_key {A} (a b : bytes * A) : comparison := compareKeyBytes a.1 b.1.
Definition directed {A} (dir : Order) (l : list A) : list A := match dir with Desc => reverse l | Asc => l end.
(** The documents in the bounds that pass the filters, in index order. *)
Definition range_answer (rr : RangeRead) (docs : list (jsstr * value)) (dir : Order) : list value :=
  directed dir (sort_by by_key (members_of rr docs)).*2.

(** The documents the differ handles: indexable, their own JSON form, with index keys of their own. *)
Record range_docs (rr : RangeRead) (docs : list (jsstr * value)) : Prop := {
  rd_ok : jm_ok docs;
  rd_values : ∀ k d, jm_get docs k = Some d → value_okb d = true ∧ indexed rr d;
  rd_keys : NoDup (members_of rr docs).*1 }.

#[global] Instance by_key_order A : CmpOrder (@by_key A).
Proof.
  split; unfold by_key; intros *; [apply (cmp_refl compareKeyBytes)|apply (cmp_opp compareKeyBytes)|apply (cmp_subst compareKeyBytes)|apply (cmp_lt_trans compareKeyBytes)].
Qed.

Lemma member_base64 rr d : member rr d = bytesToBase64 <$> member_key rr d.
Proof. unfold member, member_key. destruct (extractIndexKey d (rr_fields rr)), (deserializeKeyRange (rr_bounds rr)); try done. by destruct (_ && _). Qed.

(** ** Sorting with distinct keys *)
Lemma sorted_strict {A} (l : list (bytes * A)) : NoDup l.*1 → StronglySorted (cmp_le by_key) l → StronglySorted (λ a b, by_key a b = Lt) l.
Proof.
  intros Hn. induction 1 as [|x l Hl IH Hx]; [constructor|]. cbn in Hn. apply NoDup_cons in Hn as [Hx1 Hn]. constructor; [by apply IH|].
  rewrite Forall_forall in Hx |- *. intros y Hy. specialize (Hx y Hy). unfold cmp_le, by_key in *. destruct (compareKeyBytes x.1 y.1) eqn:E; [|done|done].
  exfalso. apply Hx1. apply (cmp_eq compareKeyBytes) in E. rewrite E. by apply list_elem_of_fmap_2.
Qed.

Lemma sort_perm_eq {A} (l l' : list (bytes * A)) : NoDup l.*1 → l ≡ₚ l' → sort_by by_key l = sort_by by_key l'.
Proof.
  intros Hn Hp. apply (strictly_sorted_unique by_key).
  - apply sorted_strict; [by rewrite sort_by_perm|apply (sort_by_sorted by_key)].
  - apply sorted_strict; [by rewrite sort_by_perm, <-Hp|apply (sort_by_sorted by_key)].
  - intros x. by rewrite !elem_of_sort_by, Hp.
Qed.

(** ** Rendering a row map that shows the documents *)
Lemma jm_get_omap {K A B} `{EqDecision K} (f : A → option B) (m : list (K * A)) k : jm_ok m →
  jm_get (omap (λ p, (λ y, (p.1, y)) <$> f p.2) m) k = jm_get m k ≫= f.
Proof.
  induction m as [|[k' a] m IH]; intros Hm; [done|]. apply NoDup_cons in Hm as [Hk Hm]. cbn [fst] in Hk. cbn [omap list_omap fst snd].
  assert (Hnone : k' ∉ (omap (λ p, (λ y, (p.1, y)) <$> f p.2) m).*1).
  { intros ([k1 y] & E & ([k2 a2] & Hin & Ha)%list_elem_of_omap)%list_elem_of_fmap. cbn in *. subst k1. destruct (f a2); [|done].
    cbn in Ha. injection Ha as -> ->. apply Hk. change k' with (k', a2).1. by apply list_elem_of_fmap_2. }
  cbn [jm_get]. destruct (f a) as [y|] eqn:Ef; cbn [fmap option_fmap option_map jm_get]; (case_decide as E; [|by apply IH]).
  - cbn. by rewrite Ef.
  - subst k'. rewrite (proj2 (jm_get_None _ k)); [|done]. cbn. by rewrite Ef.
Qed.

Lemma omap_keys_ok {K A B} `{EqDecision K} (f : A → option B) (m : list (K * A)) : jm_ok m → jm_ok (omap (λ p, (λ y, (p.1, y)) <$> f p.2) m).
Proof.
  unfold jm_ok. induction m as [|[k a] m IH]; intros Hm; [constructor|]. apply NoDup_cons in Hm as [Hk Hm]. cbn [omap list_omap fst snd].
  destruct (f a) as [y|]; cbn [fmap option_fmap option_map]; [|by apply IH]. cbn [fmap list_fmap fst]. constructor; [|by apply IH].
  intros ([k1 y1] & E & ([k2 a2] & Hin & Ha)%list_elem_of_omap)%list_elem_of_fmap. cbn in *. subst k1. destruct (f a2); [|done].
  cbn in Ha. injection Ha as -> ->. apply Hk. change k with (k, a2).1. by apply list_elem_of_fmap_2.
Qed.

(** The row a member contributes. *)
Definition shown (p : bytes * value) : json * option jsstr := (convexToJson p.2, Some (bytesToBase64 p.1)).

Lemma shows_members rr m docs : shows rr m docs → jm_ok docs → shape <$> m.*2 ≡ₚ shown <$> members_of rr docs.
Proof.
  intros [Hm Hs] Hd.
  assert (Hp : (λ p : jsstr * RowVersion, (p.1, shape p.2)) <$> m ≡ₚ omap (λ p, (λ y, (p.1, y)) <$> row_of rr p.2) docs).
  { apply jm_same_perm.
    - unfold jm_ok. rewrite <-list_fmap_compose. exact Hm.
    - by apply omap_keys_ok.
    - intros k. rewrite jm_get_omap by done. rewrite <-Hs. clear Hs Hm. induction m as [|[k' v] m IH]; [done|]. cbn. case_decide; [done|apply IH]. }
  apply (fmap_Permutation snd) in Hp. rewrite <-list_fmap_compose in Hp.
  rewrite <-list_fmap_compose. etrans; [exact Hp|]. clear. unfold members_of.
  induction docs as [|[k d] docs IH]; [done|]. cbn [omap list_omap fmap list_fmap fst snd].
  unfold row_of at 1, member_entry at 1. rewrite member_base64. destruct (member_key rr d) as [b|]; cbn [fmap option_fmap option_map]; [|exact IH].
  cbn [fmap list_fmap]. by constructor.
Qed.

Lemma fmap_zip {A B C} (f : A → C) (g : B → C) (la : list A) (lb : list B) : f <$> la = g <$> lb →
  ∃ zs : list (B * A), la = zs.*2 ∧ lb = zs.*1 ∧ Forall (λ z, f z.2 = g z.1) zs.
Proof.
  revert lb. induction la as [|a la IH]; intros [|b lb] H; try done; [by exists []|]. cbn in H. injection H as E H.
  destruct (IH lb H) as (zs & -> & -> & Hz). exists ((b, a) :: zs). split_and!; [done|done|by constructor].
Qed.

Lemma traverse_fmap {A B C} (f : B → res C) (g : A → B) l : traverse f (g <$> l) = traverse (λ x, f (g x)) l.
Proof. induction l as [|x l IH]; cbn; [done|]. by rewrite IH. Qed.

Lemma sorted_rows_spec (zs : list ((bytes * value) * RowVersion)) :
  Forall (λ z, shape z.2 = shown z.1 ∧ Forall is_byte z.1.1) zs →
  sorted_rows zs.*2 = Ok (sort_by (λ a b, compareKeyBytes a.1.1 b.1.1) zs).*2.
Proof.
  intros Hz. unfold sorted_rows. rewrite length_fmap. destruct (Nat.leb_spec (length zs) 1) as [Hl|_].
  { destruct zs as [|z [|z' zs]]; [done|done|cbn in Hl; lia]. }
  rewrite traverse_fmap, (traverse_ok _ (λ z, (z.1.1, z.2))).
  - cbn [res_bind]. f_equal. rewrite (sort_by_fmap (λ z : (bytes * value) * RowVersion, (z.1.1, z.2)) (λ a b, compareKeyBytes a.1 b.1)).
    by rewrite <-list_fmap_compose.
  - eapply Forall_impl; [exact Hz|]. intros z [E Hb]. unfold shape, shown in E. injection E as _ E. rewrite E.
    change (default [] (Some (bytesToBase64 z.1.1))) with (bytesToBase64 z.1.1). by rewrite base64_roundtrip.
Qed.

Lemma directed_fmap {A B} (f : A → B) dir l : directed dir (f <$> l) = f <$> directed dir l.
Proof. destruct dir; [done|]. cbn. by rewrite fmap_reverse. Qed.
Lemma elem_of_directed {A} dir (l : list A) x : x ∈ directed dir l ↔ x ∈ l.
Proof. destruct dir; [done|]. cbn. apply elem_of_reverse. Qed.

(** Rendering rows that show the documents gives the answer of the query. *)
Lemma render_answer rr m docs dir : shows rr m docs → range_docs rr docs → renderRangeValue m dir = Ok (VArr (range_answer rr docs dir)).
Proof.
  intros Hs Hd. pose proof (shows_members rr m docs Hs (rd_ok _ _ Hd)) as Hp.
  apply Permutation_map_inv in Hp as (ps & E & Hperm). apply fmap_zip in E as (zs & Em & Eps & Hz).
  assert (Hz' : Forall (λ z, (shape z.2 = shown z.1 ∧ Forall is_byte z.1.1) ∧ value_okb z.1.2 = true) zs).
  { apply Forall_forall. intros z Hin. rewrite Forall_forall in Hz. specialize (Hz z Hin).
    assert (Hin' : z.1 ∈ members_of rr docs) by (rewrite Hperm, Eps; by apply list_elem_of_fmap_2).
    apply list_elem_of_omap in Hin' as (d & ([k d'] & -> & Hd')%list_elem_of_fmap & Hm). cbn [snd] in Hm. unfold member_entry in Hm.
    destruct (member_key rr d') as [b|] eqn:Ek; [|done]. injection Hm as Eq. rewrite <-Eq. cbn [fst snd].
    apply jm_get_elem in Hd'; [|apply Hd]. destruct (rd_values _ _ Hd k d' Hd') as (Hv & _ & k' & Hk & Hb). split; [|done].
    split; [by rewrite Hz, <-Eq|]. unfold member_key in Ek. rewrite Hk in Ek. destruct (deserializeKeyRange _); [|done]. destruct (_ && _); [|done]. by injection Ek as <-. }
  set (Z := sort_by (λ a b : (bytes * value) * RowVersion, compareKeyBytes a.1.1 b.1.1) zs).
  unfold renderRangeValue, jm_values. rewrite Em, sorted_rows_spec by (eapply Forall_impl; [exact Hz'|by intros z [? _]]). cbn [res_bind]. fold Z.
  change (match dir with Desc => reverse Z.*2 | Asc => Z.*2 end) with (directed dir Z.*2). rewrite directed_fmap, traverse_fmap.
  rewrite (traverse_ok _ (λ z, z.1.2)).
  - cbn [res_bind]. do 2 f_equal. unfold range_answer.
    rewrite (sort_perm_eq _ ps (rd_keys _ _ Hd) Hperm), Eps.
    rewrite (sort_by_fmap fst by_key). fold (@by_key value). change (sort_by (λ a b, by_key a.1 b.1) zs) with Z.
    rewrite <-list_fmap_compose, directed_fmap. done.
  - apply Forall_forall. intros z Hin. rewrite elem_of_directed in Hin. unfold Z in Hin. rewrite elem_of_sort_by in Hin.
    rewrite Forall_forall in Hz'. destruct (Hz' z Hin) as [[E _] Hv]. unfold shape, shown in E. injection E as E _. rewrite E. by apply jsonToConvex_convexToJson.
Qed.

(** ** The client's side of a diff *)
Lemma shows_perm rr m m' docs : m ≡ₚ m' → shows rr m docs → shows rr m' docs.
Proof.
  intros Hp [Hm Hs]. assert (Hm' : jm_ok m') by (unfold jm_ok; by rewrite <-Hp). split; [done|]. intros k. rewrite <-Hs. f_equal.
  apply option_eq. intros v. by rewrite !jm_get_elem, Hp.
Qed.

(** A range subscription of the client that shows the answer, with the server's rows. *)
Definition client_shows (rr : RangeRead) (docs : list (jsstr * value)) (dir : Order) (rows : RowMap) (s : Store) (p : nat) : Prop :=
  ∃ sub m r, jm_get (heap s) p = Some sub ∧ renderMode sub = Some ModeRange ∧ orderDir sub = Some dir ∧ diffRows sub = Some m ∧ m ≡ₚ rows ∧
    serverValue sub = Some r ∧ r_val r = VArr (range_answer rr docs dir).

Lemma applyDiff_range s p sub changes checksum reset rr docs dir rows :
  jm_get (heap s) p = Some sub →
  match reset with Some x => x = ResetRange (Some dir) | None => renderMode sub = Some ModeRange ∧ orderDir sub = Some dir end →
  let m := applyChanges (match reset with Some _ => [] | None => default [] (diffRows sub) end) changes in
  m ≡ₚ rows → shows rr rows docs → range_docs rr docs →
  ∃ s', applyDiff s p changes checksum reset = (s', Ok (negb (bool_decide (driftChecksum m = checksum)))) ∧ client_shows rr docs dir rows s' p.
Proof.
  cbv zeta. intros Hp Hr Hm Hs Hd. unfold applyDiff. rewrite Hp.
  set (base := match reset with Some _ => [] | None => default [] (diffRows sub) end) in *.
  assert (Eb : match reset with Some _ => [] | None => default [] (diffRows (apply_reset reset sub)) end = base) by (by destruct reset).
  rewrite Eb. set (m := applyChanges base changes) in *.
  assert (Hmode : renderMode (apply_reset reset sub) = Some ModeRange ∧ orderDir (apply_reset reset sub) = Some dir) by (destruct reset as [?|]; [by subst|done]).
  destruct Hmode as [M1 M2]. unfold render. cbn [renderMode orderDir with_rows]. rewrite M1, M2.
  change (default Asc (Some dir)) with dir. rewrite (render_answer rr m docs dir) by (done || by eapply shows_perm). cbn [res_bind].
  set (s1 := upd_sub s p _). unfold mint. eexists. split; [done|].
  assert (H1 : jm_get (heap s1) p = Some (with_rows m (apply_reset reset sub))).
  { unfold s1. rewrite upd_sub_get, decide_True by done. by rewrite Hp. }
  eexists _, m, _. split.
  { rewrite upd_sub_get, decide_True by done. cbn [heap with_next]. rewrite H1. done. }
  cbn. split_and!; done.
Qed.

(** The subscribe answer: the differ's rows, and a client that adopts them without drift. *)
Lemma range_subscribe rr docs dir ts s p sub : range_docs rr docs → (∃ b, deserializeKeyRange (rr_bounds rr) = Ok b) →
  (∀ k d, jm_get docs k = Some d → key_of d = k) → jm_get (heap s) p = Some sub →
  ∃ changes rows s', rangeResetChanges rr (convexToJson <$> range_answer rr docs dir) ts = Ok (changes, rows) ∧ shows rr rows docs ∧
    applyDiff s p changes (driftChecksum rows) (Some (ResetRange (Some dir))) = (s', Ok false) ∧ client_shows rr docs dir rows s' p.
Proof.
  intros Hd _ Hid Hp.
  assert (Hin : ∀ d, d ∈ range_answer rr docs dir ↔ ∃ k, jm_get docs k = Some d ∧ member rr d ≠ None).
  { intros d. unfold range_answer. rewrite elem_of_directed, list_elem_of_fmap. split.
    - intros ([b d'] & -> & Hin). rewrite elem_of_sort_by in Hin. apply list_elem_of_omap in Hin as (d0 & ([k d1] & -> & Hk)%list_elem_of_fmap & E).
      cbn [snd] in *. unfold member_entry in E. destruct (member_key rr d1) as [b'|] eqn:Em; [|done]. injection E as -> ->.
      exists k. split; [by apply jm_get_elem; [apply Hd|]|]. by rewrite member_base64, Em.
    - intros (k & Hk & Hm). rewrite member_base64 in Hm. destruct (member_key rr d) as [b|] eqn:Em; [|done]. exists (b, d). split; [done|].
      rewrite elem_of_sort_by. apply list_elem_of_omap. exists d. split; [|unfold member_entry; by rewrite Em].
      apply jm_get_in in Hk. by apply (list_elem_of_fmap_2 snd) in Hk. }
  assert (Hnd : NoDup (key_of <$> range_answer rr docs dir)).
  { assert (Hperm : range_answer rr docs dir ≡ₚ (members_of rr docs).*2).
    { unfold range_answer. rewrite <-(sort_by_perm by_key (members_of rr docs)) at 2. destruct dir; [done|]. cbn. by rewrite reverse_Permutation. }
    rewrite Hperm. clear Hperm Hin. pose proof (rd_ok _ _ Hd) as Hok. revert Hid. unfold members_of, jm_ok in *. clear Hd Hp.
    induction docs as [|[k d] docs IH]; intros Hid; [constructor|]. apply NoDup_cons in Hok as [Hk Hok]. cbn [fmap list_fmap omap list_omap snd fst] in *.
    assert (Hid' : ∀ k0 d0, jm_get docs k0 = Some d0 → key_of d0 = k0).
    { intros k0 d0 H0. apply Hid. cbn [jm_get]. rewrite decide_False; [done|]. intros ->. apply Hk. apply jm_get_in in H0. by apply (list_elem_of_fmap_2 fst) in H0. }
    unfold member_entry at 1. destruct (member_key rr d) as [b|]; cbn [fmap option_fmap option_map list_fmap]; [|by apply IH].
    cbn [snd]. constructor; [|by apply IH]. intros (d1 & E & ([b1 d2] & -> & Hin)%list_elem_of_fmap)%list_elem_of_fmap. cbn [snd] in E.
    apply list_elem_of_omap in Hin as (d0 & ([k3 d3] & -> & Hin)%list_elem_of_fmap & E3). cbn [snd] in *. unfold member_entry in E3.
    destruct (member_key rr d3); [|done]. injection E3 as -> ->. apply Hk. rewrite <-(Hid k d) by (cbn; by rewrite decide_True). rewrite E.
    rewrite (Hid' k3 d2); [by apply (list_elem_of_fmap_2 fst) in Hin|]. by apply jm_get_elem. }
  destruct (range_reset_shows rr (range_answer rr docs dir) ts docs) as (changes & rows & H1 & H2 & H3 & _).
  - apply Hd.
  - intros d (k & Hk & Hm)%Hin. rewrite (Hid k d Hk). split; [|done]. split; [|done]. by eapply rd_values.
  - intros k d Hk Hm. split; [|by apply Hid]. apply Hin. by exists k.
  - done.
  - destruct (applyDiff_range s p sub changes (driftChecksum rows) (Some (ResetRange (Some dir))) rr docs dir rows) as (s' & H4 & H5); try done.
    { by rewrite H3. } exists changes, rows, s'. split_and!; try done. rewrite H4, H3. by rewrite bool_decide_true.
Qed.

(** A commit: the differ's changes, and a client that follows without drift. *)
Lemma range_follow rr docs dir rows s p ws wds b : deserializeKeyRange (rr_bounds rr) = Ok b → shows rr rows docs → range_docs rr docs →
  client_shows rr docs dir rows s p → Forall2 publishes ws wds → NoDup ws.*1 → (∀ k d, (k, Some d) ∈ ws → indexed rr d) →
  range_docs rr (fold_left write_doc ws docs) →
  ∃ changes next s', rangeChangesFor rr rows wds = Ok (changes, next) ∧ shows rr next (fold_left write_doc ws docs) ∧
    applyDiff s p changes (driftChecksum next) None = (s', Ok false) ∧ client_shows rr (fold_left write_doc ws docs) dir next s' p.
Proof.
  intros Hb Hs Hd (sub & m & r & Hp & M1 & M2 & M3 & Hm & _) H2 Hn Hix Hd'.
  destruct (range_diff_follows rr b rows docs ws wds m Hb Hs (rd_ok _ _ Hd) H2 Hn Hix Hm) as (changes & next & H3 & H4 & H5).
  destruct (applyDiff_range s p sub changes (driftChecksum next) None rr (fold_left write_doc ws docs) dir next) as (s' & H6 & H7); try done.
  { by rewrite M3. } exists changes, next, s'. split_and!; try done. rewrite H6, M3.
  change (default [] (Some m)) with m. by rewrite (checksum_perm _ _ H5), bool_decide_true.
Qed.
