(* ===== verification/Handler.v ===== *)
(** The sync protocol handler: [packages/sync/src/handler.ts]. An asynchronous method is cut at its [await]s
    into synchronous pieces: the query-set changes and the fan-outs are jobs of one queue (the promise chain
    [notifyTail]), the other messages are tasks that interleave with it. What the executor answers is
    the input of the step that resumes the method, so a run of the handler is any sequence of steps.
    Session objects are shared by reference: a suspended method keeps its session after a disconnect. *)
From S2P Require Import Prelude Numbers Values Json IndexKeys Ranges IntervalIndex IdCodec DocStore ExactlyOnce Transactor.
From S2P Require Import QueryEngine Subscriptions DiffSync SessionFlow.

(** ** What the executor answers *)

(** A result the value codec cannot encode ([undefined]) is [None]. *)
Record QueryResult := {
  q_value : option value; q_tables : list jsstr; q_readRanges : list SerializedKeyRange; q_globalTables : list jsstr;
  q_diffableRange : option RangeRead; q_diffablePage : option (RangeRead * PageMeta) }.

Inductive RunMutationResult :=
  | MutationRan (v : option value) (tables : list jsstr) (writeRanges : list SerializedKeyRange) (commitTs : Z) (forwarded : bool)
  | MutationReplayed (r : MutationReplay)
  | MutationThrew (e : thrown) (message : jsstr) (committedTs : option Z).

Record WriteInvalidation := {
  wi_tables : list jsstr; wi_ranges : list SerializedKeyRange; wi_commitTs : Z;
  wi_writtenDocs : option (list WrittenDoc); wi_global : bool }.

Record HandlerOptions := {
  excludeOriginFromTransition : bool; autoNotifyOnMutation : bool; disableBackgroundTimers : bool;
  ho_backpressure : BackpressureOptions; ho_missedPongLimit : Z;
  ho_deploymentId : option jsstr }.        (** [None]: an executor without receipts *)

(** The engine call [execSub] makes, with what it read of the session. *)
Inductive Call :=
  | CallForbidden
  | CallAdmin (path : jsstr) (args : json)
  | CallQuery (path : jsstr) (args : json) (identity : option jsstr).

(** ** Suspended methods *)

(** The locals of one [doNotifyWrites] after its grouping. *)
Record Fan := {
  fn_inv : WriteInvalidation; fn_origin : option jsstr; fn_bySession : list (jsstr * list Subscription);
  originIsDiffCapable : bool }.

(** Jobs of [notifyTail]. A fan-out's remaining sessions are [None] in the origin's own turn. *)
Inductive Job :=
  | JModify (p : nat) (add : list QueryRequest) (remove : list Z)
  | JModifyWait (p : nat) (q : QueryRequest) (call : Call) (add : list QueryRequest) (remove : list Z) (mods : list StateModification)
  | JNotify (inv : WriteInvalidation) (origin : option jsstr)
  | JNotifyWait (f : Fan) (rest : option (list (jsstr * list Subscription))) (p : nat) (sub : Subscription) (call : Call)
      (subs : list Subscription) (mods : list StateModification)
  | JNotifyNext (f : Fan) (rest : option (list (jsstr * list Subscription)))
  | JNotifyGate (f : Fan) (gate : nat) (p : nat) (subs : list Subscription).

Inductive Task :=
  | TAuth (p : nat) (sub : Subscription) (call : Call) (subs : list Subscription) (mods : list StateModification)
  | TMutation (p : nat) (unit : MutationBatchEntry) (identity : option jsstr) (dedup : option ClientMutationRef) (batch : list MutationBatchEntry)
  | TNotified (p : nat) (unit : MutationBatchEntry) (job : nat) (batch : list MutationBatchEntry)
  | THeld (p : nat) (ref : ClientMutationRef) (held acked : list ClientMutationRef) (results : list ClientMutationVerdict) (recognizedAny : bool)
  | TAcked (p : nat) (ref : ClientMutationRef) (acked : list ClientMutationRef) (results : list ClientMutationVerdict) (recognizedAny : bool)
  | TPrune (p : nat) (ref : ClientMutationRef) (acked : list ClientMutationRef) (results : list ClientMutationVerdict) (recognizedAny : bool)
  | TAction (p : nat) (requestId path : jsstr) (args : json) (identity : option jsstr).

(** What a task is resumed with. *)
Inductive Reply :=
  | RQuery (r : QueryResult + jsstr)
  | RMutation (r : RunMutationResult)
  | RNotified
  | RVerdict (r : ClientMutationVerdict + jsstr)
  | RPruned (ok : bool)
  | RAction (r : option value + jsstr).

(** ** State *)
Record Session (Socket : Type) := {
  se_sessionId : jsstr; se_version : StateVersion; se_identity : option jsstr; se_privileged : bool;
  supportsQueryDiff : bool; se_bp : Controller Socket ServerMessage; se_hb : Heartbeat; se_closed : bool;
  se_offered : list ServerMessage }.       (** every message given to [send], in order *)
Arguments se_sessionId {_}. Arguments se_version {_}. Arguments se_identity {_}. Arguments se_privileged {_}.
Arguments supportsQueryDiff {_}. Arguments se_bp {_}. Arguments se_hb {_}. Arguments se_closed {_}. Arguments se_offered {_}.

(** [h_gates] maps a commit to its gate, a fresh number, and its session; a gate is resolved exactly when
    it leaves the map. *)
Record Handler (Socket : Type) := {
  h_heap : list (Session Socket); sessions : list (jsstr * nat); subscriptions : SubscriptionManager;
  pendingFrontiers : list (jsstr * Z); byIdRowMap : list (jsstr * RowMap);
  originResponseGates : list (Z * (nat * jsstr)); resumeRegistry : ResumeRegistry; globalSubscribes : nat;
  h_now : Z; notifyTail : list (nat * Job); h_done : list (nat * res unit); h_tasks : list (nat * Task); h_next : nat }.
Arguments h_heap {_}. Arguments sessions {_}. Arguments subscriptions {_}. Arguments pendingFrontiers {_}.
Arguments byIdRowMap {_}. Arguments originResponseGates {_}. Arguments resumeRegistry {_}. Arguments globalSubscribes {_}.
Arguments h_now {_}. Arguments notifyTail {_}. Arguments h_done {_}. Arguments h_tasks {_}. Arguments h_next {_}.

Definition new_Handler Socket : Handler Socket :=
  {| h_heap := []; sessions := []; subscriptions := new_SubscriptionManager; pendingFrontiers := []; byIdRowMap := [];
     originResponseGates := []; resumeRegistry := new_ResumeRegistry; globalSubscribes := 0; h_now := 0; notifyTail := [];
     h_done := []; h_tasks := []; h_next := 0 |}.

Section updates.
Context {Socket : Type}.
Implicit Types (h : Handler Socket) (s : Session Socket).

Definition with_heap h x : Handler Socket :=
  {| h_heap := x; sessions := sessions h; subscriptions := subscriptions h; pendingFrontiers := pendingFrontiers h;
     byIdRowMap := byIdRowMap h; originResponseGates := originResponseGates h; resumeRegistry := resumeRegistry h;
     globalSubscribes := globalSubscribes h; h_now := h_now h; notifyTail := notifyTail h; h_done := h_done h; h_tasks := h_tasks h; h_next := h_next h |}.
Definition with_sessions h x : Handler Socket :=
  {| h_heap := h_heap h; sessions := x; subscriptions := subscriptions h; pendingFrontiers := pendingFrontiers h;
     byIdRowMap := byIdRowMap h; originResponseGates := originResponseGates h; resumeRegistry := resumeRegistry h;
     globalSubscribes := globalSubscribes h; h_now := h_now h; notifyTail := notifyTail h; h_done := h_done h; h_tasks := h_tasks h; h_next := h_next h |}.
Definition with_subscriptions h x : Handler Socket :=
  {| h_heap := h_heap h; sessions := sessions h; subscriptions := x; pendingFrontiers := pendingFrontiers h;
     byIdRowMap := byIdRowMap h; originResponseGates := originResponseGates h; resumeRegistry := resumeRegistry h;
     globalSubscribes := globalSubscribes h; h_now := h_now h; notifyTail := notifyTail h; h_done := h_done h; h_tasks := h_tasks h; h_next := h_next h |}.
Definition with_frontiers h x : Handler Socket :=
  {| h_heap := h_heap h; sessions := sessions h; subscriptions := subscriptions h; pendingFrontiers := x;
     byIdRowMap := byIdRowMap h; originResponseGates := originResponseGates h; resumeRegistry := resumeRegistry h;
     globalSubscribes := globalSubscribes h; h_now := h_now h; notifyTail := notifyTail h; h_done := h_done h; h_tasks := h_tasks h; h_next := h_next h |}.
Definition with_rows h x : Handler Socket :=
  {| h_heap := h_heap h; sessions := sessions h; subscriptions := subscriptions h; pendingFrontiers := pendingFrontiers h;
     byIdRowMap := x; originResponseGates := originResponseGates h; resumeRegistry := resumeRegistry h;
     globalSubscribes := globalSubscribes h; h_now := h_now h; notifyTail := notifyTail h; h_done := h_done h; h_tasks := h_tasks h; h_next := h_next h |}.
Definition with_gates h x : Handler Socket :=
  {| h_heap := h_heap h; sessions := sessions h; subscriptions := subscriptions h; pendingFrontiers := pendingFrontiers h;
     byIdRowMap := byIdRowMap h; originResponseGates := x; resumeRegistry := resumeRegistry h;
     globalSubscribes := globalSubscribes h; h_now := h_now h; notifyTail := notifyTail h; h_done := h_done h; h_tasks := h_tasks h; h_next := h_next h |}.
Definition with_registry h x : Handler Socket :=
  {| h_heap := h_heap h; sessions := sessions h; subscriptions := subscriptions h; pendingFrontiers := pendingFrontiers h;
     byIdRowMap := byIdRowMap h; originResponseGates := originResponseGates h; resumeRegistry := x;
     globalSubscribes := globalSubscribes h; h_now := h_now h; notifyTail := notifyTail h; h_done := h_done h; h_tasks := h_tasks h; h_next := h_next h |}.
Definition with_globals h x : Handler Socket :=
  {| h_heap := h_heap h; sessions := sessions h; subscriptions := subscriptions h; pendingFrontiers := pendingFrontiers h;
     byIdRowMap := byIdRowMap h; originResponseGates := originResponseGates h; resumeRegistry := resumeRegistry h;
     globalSubscribes := x; h_now := h_now h; notifyTail := notifyTail h; h_done := h_done h; h_tasks := h_tasks h; h_next := h_next h |}.
Definition with_clock h x : Handler Socket :=
  {| h_heap := h_heap h; sessions := sessions h; subscriptions := subscriptions h; pendingFrontiers := pendingFrontiers h;
     byIdRowMap := byIdRowMap h; originResponseGates := originResponseGates h; resumeRegistry := resumeRegistry h;
     globalSubscribes := globalSubscribes h; h_now := x; notifyTail := notifyTail h; h_done := h_done h; h_tasks := h_tasks h; h_next := h_next h |}.
Definition with_tail h t d : Handler Socket :=
  {| h_heap := h_heap h; sessions := sessions h; subscriptions := subscriptions h; pendingFrontiers := pendingFrontiers h;
     byIdRowMap := byIdRowMap h; originResponseGates := originResponseGates h; resumeRegistry := resumeRegistry h;
     globalSubscribes := globalSubscribes h; h_now := h_now h; notifyTail := t; h_done := d; h_tasks := h_tasks h; h_next := h_next h |}.
Definition with_tasks h x n : Handler Socket :=
  {| h_heap := h_heap h; sessions := sessions h; subscriptions := subscriptions h; pendingFrontiers := pendingFrontiers h;
     byIdRowMap := byIdRowMap h; originResponseGates := originResponseGates h; resumeRegistry := resumeRegistry h;
     globalSubscribes := globalSubscribes h; h_now := h_now h; notifyTail := notifyTail h; h_done := h_done h; h_tasks := x; h_next := n |}.

Definition with_version s v : Session Socket :=
  {| se_sessionId := se_sessionId s; se_version := v; se_identity := se_identity s; se_privileged := se_privileged s;
     supportsQueryDiff := supportsQueryDiff s; se_bp := se_bp s; se_hb := se_hb s; se_closed := se_closed s; se_offered := se_offered s |}.
Definition with_access s i pr d : Session Socket :=
  {| se_sessionId := se_sessionId s; se_version := se_version s; se_identity := i; se_privileged := pr;
     supportsQueryDiff := d; se_bp := se_bp s; se_hb := se_hb s; se_closed := se_closed s; se_offered := se_offered s |}.
Definition with_bp s b o : Session Socket :=
  {| se_sessionId := se_sessionId s; se_version := se_version s; se_identity := se_identity s; se_privileged := se_privileged s;
     supportsQueryDiff := supportsQueryDiff s; se_bp := b; se_hb := se_hb s; se_closed := se_closed s; se_offered := o |}.
Definition with_hb s b c : Session Socket :=
  {| se_sessionId := se_sessionId s; se_version := se_version s; se_identity := se_identity s; se_privileged := se_privileged s;
     supportsQueryDiff := supportsQueryDiff s; se_bp := se_bp s; se_hb := b; se_closed := c; se_offered := se_offered s |}.

(** [update h p f]: an assignment to fields of a session object. *)
Definition update h (p : nat) (f : Session Socket → Session Socket) : Handler Socket := with_heap h (alter f p (h_heap h)).
(** [this.sessions.get(sid)] *)
Definition session_ref h (sid : jsstr) : option nat := jm_get (sessions h) sid.
Definition session_of h (sid : jsstr) : option (Session Socket) := session_ref h sid ≫= λ p, h_heap h !! p.
End updates.

(** ** Code that throws after changing the state *)
Definition hm (Socket A : Type) : Type := Handler Socket → Handler Socket * res A.
Definition hm_ret {Socket A} (a : A) : hm Socket A := λ h, (h, Ok a).
Definition hm_bind {Socket A B} (m : hm Socket A) (k : A → hm Socket B) : hm Socket B :=
  λ h, let '(h', r) := m h in match r with Ok a => k a h' | Err e => (h', Err e) end.
Definition hm_lift {Socket A} (r : res A) : hm Socket A := λ h, (h, r).
Definition hm_do {Socket} (f : Handler Socket → Handler Socket) : hm Socket unit := λ h, (f h, Ok tt).
Notation "'let*' x := m 'in' k" := (hm_bind m (λ x, k))
  (at level 10, x pattern, m at level 100, k at level 200) : helipod_scope.
Notation "'do*' m 'in' k" := (hm_bind m (λ _, k)) (at level 10, m at level 100, k at level 200) : helipod_scope.

Definition regKey (stringify : json → jsstr) (identity : option jsstr) (path : jsstr) (args : json) : jsstr :=
  default [] identity ++ 32 :: path ++ 32 :: stringify args.

(** [MutationResponse] and [ActionResponse] are never dropped. *)
Definition undroppable (msg : ServerMessage) : bool :=
  match msg with MutationResponse _ _ | ActionResponse _ _ => true | _ => false end.

Definition mutationResponseTs (commitTs : Z) : option Z := if 0 <? commitTs then Some commitTs else None.

(** [convexToJson] on a result: [undefined] is not a value. *)
Definition encode_result (v : option value) : res json := match v with Some v => Ok (convexToJson v) | None => Err TypeError end.

(** [(json as { page }).page] and [json as JSONValue[]], read by [rangeResetChanges]' loop. *)
Definition page_rows (j : json) : res (list json) :=
  match j with JObj kvs => match jm_get kvs (js "page") with Some (JArr l) => Ok l | _ => Err TypeError end | _ => Err TypeError end.
Definition array_rows (j : json) : res (list json) := match j with JArr l => Ok l | _ => Err TypeError end.
Definition null_row (j : json) : option json := match j with JNull => None | j => Some j end.

Definition group_add (m : list (jsstr * list Subscription)) (sub : Subscription) : list (jsstr * list Subscription) :=
  jm_set m (sessionId sub) (default [] (jm_get m (sessionId sub)) ++ [sub]).

Definition read_of (r : QueryResult) : option RangeRead :=
  match q_diffablePage r with
  | Some (d, m) => Some (pageReadFromDiffable d m)
  | None => rangeReadFromDiffable <$> q_diffableRange r
  end.
(** A result that is not a value is not a document either. *)
Definition byId_of (r : QueryResult) : res (option ByIdRead) := classifyByIdRead (default (VBool false) (q_value r)) (q_readRanges r).

Definition with_reads (sub : Subscription) (r : QueryResult) (b : option ByIdRead) (rk : option jsstr) : Subscription :=
  {| sessionId := sessionId sub; queryId := queryId sub; udfPath := udfPath sub; args := args sub; tables := q_tables r;
     readRanges := q_readRanges r; globalTables := Some (q_globalTables r); byId := b; range := read_of r; resumeKey := rk |}.

Section handler.
Context {Socket : Type} (bufferedAmount : Socket → Z) (socket_send : Socket → ServerMessage → Socket) (canPing : Socket → bool).
Context (hashValue stringify : json → jsstr) (errMessage : exn → jsstr) (verifyAdmin : jsstr → bool).
Context (opts : HandlerOptions).
Implicit Types (h : Handler Socket) (s : Session Socket).
Abbreviation HM := (hm Socket).

(** ** Sessions *)
Definition releaseOriginResponseGate (commitTs : Z) h : Handler Socket :=
  with_gates h (jm_delete (originResponseGates h) commitTs).

Definition registerOriginResponseGate (commitTs : Z) (origin : option jsstr) h : Handler Socket :=
  match origin with
  | None => h
  | Some o =>
      match session_of h o with
      | Some s =>
          if supportsQueryDiff s && negb (jm_has (originResponseGates h) commitTs) then
            with_tasks (with_gates h (jm_set (originResponseGates h) commitTs (h_next h, o))) (h_tasks h) (S (h_next h))
          else h
      | None => h
      end
  end.

Definition release_keys (g : ResumeRegistry) (subs : list Subscription) (now : Z) : ResumeRegistry :=
  fold_left (λ g sub, match resumeKey sub with Some ((_ :: _) as k) => rg_release g k now | _ => g end) subs g.

Definition clearByIdRowMapForSession (sid : jsstr) (rows : list (jsstr * RowMap)) : list (jsstr * RowMap) :=
  fold_left (λ rows key, if starts_with (sid ++ [32]) key then jm_delete rows key else rows) (jm_keys rows) rows.

Definition disconnect (sid : jsstr) h : Handler Socket :=
  let h := match session_ref h sid with Some p => update h p (λ s, with_hb s (hb_stop (se_hb s)) (se_closed s)) | None => h end in
  let h := with_registry h (release_keys (resumeRegistry h) (forSession (subscriptions h) sid) (h_now h)) in
  let h := with_subscriptions h (removeSession (subscriptions h) sid) in
  let h := with_sessions h (jm_delete (sessions h) sid) in
  let h := with_frontiers h (jm_delete (pendingFrontiers h) sid) in
  let h := with_rows h (clearByIdRowMapForSession sid (byIdRowMap h)) in
  fold_left (λ h g, if bool_decide (g.2.2 = sid) then releaseOriginResponseGate g.1 h else h) (originResponseGates h) h.

Definition reap (sid : jsstr) h : Handler Socket :=
  let h := match session_ref h sid with Some p => update h p (λ s, with_hb s (se_hb s) true) | None => h end in
  disconnect sid h.

Definition connect (sid : jsstr) (sk : Socket) h : Handler Socket :=
  let hb := if disableBackgroundTimers opts then new_Heartbeat else hb_start (canPing sk) new_Heartbeat in
  let s := {| se_sessionId := sid; se_version := INITIAL_VERSION; se_identity := None; se_privileged := false;
    supportsQueryDiff := false; se_bp := new_Controller sk; se_hb := hb; se_closed := false; se_offered := [] |} in
  with_sessions (with_heap h (h_heap h ++ [s])) (jm_set (sessions h) sid (length (h_heap h))).

(** [this.send]: the overflow of the undroppable queue reaps the session inside the call. *)
Definition send_frame (p : nat) (msg : ServerMessage) h : Handler Socket :=
  match h_heap h !! p with
  | None => h
  | Some s =>
      let bp := send bufferedAmount socket_send (ho_backpressure opts) (se_bp s) (h_now h) msg (undroppable msg) in
      let h := update h p (λ s, with_bp s bp (se_offered s ++ [msg])) in
      if negb (overflowed (se_bp s)) && overflowed bp then reap (se_sessionId s) h else h
  end.

Definition liveStats h : nat * nat := (length (sessions h), sm_size (subscriptions h)).

(** The last lines of the methods that push a [Transition]. *)
Definition push_transition (p : nat) (bumped : StateVersion → StateVersion) (mods : list StateModification) h : Handler Socket :=
  match h_heap h !! p with
  | None => h
  | Some s =>
      let start := se_version s in
      let h := update h p (λ s, with_version s (bumped start)) in
      send_frame p (Transition {| startVersion := start; endVersion := bumped start; modifications := mods |}) h
  end.
Definition bump_querySet (v : StateVersion) : StateVersion := {| querySet := querySet v + 1; v_ts := v_ts v |}.
Definition emitEmptyFrontier (p : nat) (ts : Z) h : Handler Socket :=
  push_transition p (λ v, {| querySet := querySet v; v_ts := ts |}) [] h.

Definition publishEphemeral (topic : jsstr) (event : json) (from : option jsstr) h : Handler Socket :=
  fold_left (λ h e, if bool_decide (Some e.1 = from) then h else send_frame e.2 (Broadcast topic event) h) (sessions h) h.

(** ** Running a subscription's query *)
Definition execSub s (path : jsstr) (args : json) : Call :=
  if starts_with (js "_admin:") path then if negb (se_privileged s) then CallForbidden else CallAdmin path args
  else CallQuery path args (se_identity s).
Definition Forbidden : jsstr := js "Forbidden: admin subscription requires admin auth".

Definition subs_add (sub : Subscription) : HM unit := λ h,
  let '(m, r) := add (subscriptions h) sub in (with_subscriptions h m, r).
Definition registry_upsert (key : jsstr) (r : QueryResult) (atTs : Z) (diffable : bool) : HM unit := λ h,
  let '(g, x) := upsert (resumeRegistry h) key (q_readRanges r) (q_tables r) atTs diffable (q_globalTables r) in (with_registry h g, x).
Definition retain_key (key : jsstr) : HM unit := hm_do (λ h, with_registry h (rg_retain (resumeRegistry h) key)).
Definition release_key (key : option jsstr) : HM unit := hm_do (λ h,
  match key with Some ((_ :: _) as k) => with_registry h (rg_release (resumeRegistry h) k (h_now h)) | _ => h end).
Definition fireGlobalSubscribe (globals : list jsstr) : HM unit := hm_do (λ h,
  match globals with [] => h | _ => with_globals h (S (globalSubscribes h)) end).
Definition set_rows (key : jsstr) (rows : RowMap) : HM unit := hm_do (λ h, with_rows h (jm_set (byIdRowMap h) key rows)).
Definition delete_rows (key : jsstr) : HM unit := hm_do (λ h, with_rows h (jm_delete (byIdRowMap h) key)).
Definition session_at (p : nat) : HM (Session Socket) := λ h,
  (h, match h_heap h !! p with Some s => Ok s | None => Err TypeError end).

(** The [catch] of the three loops over queries. *)
Definition catching (qid : Z) (m : HM StateModification) h : Handler Socket * StateModification :=
  let '(h', r) := m h in (h', match r with Ok x => x | Err e => QueryFailed qid (errMessage e) end).

(** [await this.execSub(...)] as the handler sees it. *)
Definition awaited (qid : Z) (call : Call) (r : QueryResult + jsstr) (m : QueryResult → HM StateModification) h : Handler Socket * StateModification :=
  match call, r with
  | CallForbidden, _ => (h, QueryFailed qid Forbidden)
  | _, inr message => (h, QueryFailed qid message)
  | _, inl r => catching qid (m r) h
  end.

(** ** Query-set changes *)
Definition resume_answer h s (q : QueryRequest) : option (Handler Socket * StateModification) :=
  match qr_sinceTs q with
  | None => None
  | Some since =>
      let rrKey := regKey stringify (se_identity s) (qr_udfPath q) (qr_args q) in
      match resume_skip (resumeRegistry h) rrKey since with
      | None => None
      | Some entry => Some (catching (qr_queryId q) (
          do* subs_add {| sessionId := se_sessionId s; queryId := qr_queryId q; udfPath := qr_udfPath q; args := qr_args q;
            tables := rl_tables entry; readRanges := rl_readRanges entry; globalTables := Some (rl_globalTables entry);
            byId := None; range := None; resumeKey := Some rrKey |} in
          do* retain_key rrKey in
          do* fireGlobalSubscribe (rl_globalTables entry) in
          hm_ret (QueryUnchanged (qr_queryId q))) h)
      end
  end.

(** The answer to a subscribe: unchanged when the client echoed its fingerprint. *)
Definition fingerprinted (q : QueryRequest) (j : json) (m : jsstr → StateModification) : StateModification :=
  if bool_decide (qr_resultHash q = Some (hashValue j)) then QueryUnchanged (qr_queryId q) else m (hashValue j).

Definition subscribe_answer s (q : QueryRequest) (r : QueryResult) (b : option ByIdRead) : HM StateModification :=
  let* j := hm_lift (encode_result (q_value r)) in
  let qid := qr_queryId q in
  let key := subKey (se_sessionId s) qid in
  let ts := v_ts (se_version s) in
  if negb (supportsQueryDiff s) then hm_ret (fingerprinted q j (λ hash, QueryUpdated qid j (Some hash))) else
  match q_diffablePage r, q_diffableRange r, b with
  | Some (d, meta), _, _ =>
      let page := pageReadFromDiffable d meta in
      let* rows := hm_lift (page_rows j) in
      let* (changes, next) := hm_lift (rangeResetChanges page rows ts) in
      do* set_rows key next in
      hm_ret (fingerprinted q j (λ hash, QueryDiff qid changes (driftChecksum next) (Some (ResetPage (rr_order page) meta)) (Some hash)))
  | None, Some d, _ =>
      let rr := rangeReadFromDiffable d in
      let* rows := hm_lift (array_rows j) in
      let* (changes, next) := hm_lift (rangeResetChanges rr rows ts) in
      do* set_rows key next in
      hm_ret (fingerprinted q j (λ hash, QueryDiff qid changes (driftChecksum next) (Some (ResetRange (Some (rr_order rr)))) (Some hash)))
  | None, None, Some b =>
      let '(changes, next) := byIdResetChanges (bi_docId b) (null_row j) ts in
      do* set_rows key next in
      hm_ret (fingerprinted q j (λ hash, QueryDiff qid changes (driftChecksum next) (Some ResetTrue) (Some hash)))
  | None, None, None => hm_ret (fingerprinted q j (λ hash, QueryUpdated qid j (Some hash)))
  end.

Definition is_diffable (r : QueryResult) (b : option ByIdRead) : bool :=
  match read_of r, b with None, None => false | _, _ => true end.

Definition fresh_subscription s (q : QueryRequest) (r : QueryResult) (b : option ByIdRead) : Subscription :=
  {| sessionId := se_sessionId s; queryId := qr_queryId q; udfPath := qr_udfPath q; args := qr_args q;
     tables := q_tables r; readRanges := q_readRanges r; globalTables := Some (q_globalTables r); byId := b;
     range := read_of r; resumeKey := Some (regKey stringify (se_identity s) (qr_udfPath q) (qr_args q)) |}.

(** One [add] of [doModifyQuerySet] from its [await] on. *)
Definition subscribed (p : nat) (q : QueryRequest) (r : QueryResult) : HM StateModification :=
  let* b := hm_lift (byId_of r) in
  let* s := session_at p in
  let rrKey := regKey stringify (se_identity s) (qr_udfPath q) (qr_args q) in
  do* subs_add (fresh_subscription s q r b) in
  do* fireGlobalSubscribe (q_globalTables r) in
  do* registry_upsert rrKey r (v_ts (se_version s)) (is_diffable r b) in
  do* retain_key rrKey in
  subscribe_answer s q r b.

Definition remove_query (sid : jsstr) (qid : Z) h : Handler Socket :=
  let h := (release_key (sm_get (subscriptions h) sid qid ≫= resumeKey) h).1 in
  let h := with_subscriptions h (remove (subscriptions h) sid qid) in
  with_rows h (jm_delete (byIdRowMap h) (subKey sid qid)).

Definition modify_finish (p : nat) (removes : list Z) (mods : list StateModification) h : Handler Socket :=
  match h_heap h !! p with
  | None => h
  | Some s =>
      let h := fold_left (λ h qid, remove_query (se_sessionId s) qid h) removes h in
      push_transition p bump_querySet (mods ++ List.map QueryRemoved removes) h
  end.

(** The loop of [doModifyQuerySet] up to its next [await]. *)
Fixpoint modify_loop (p : nat) (adds : list QueryRequest) (removes : list Z) (mods : list StateModification) h
    : Handler Socket * (Job + res unit) :=
  match adds with
  | [] => (modify_finish p removes mods h, inr (Ok tt))
  | q :: adds' =>
      match h_heap h !! p with
      | None => (h, inr (Err TypeError))
      | Some s =>
          match resume_answer h s q with
          | Some (h', m) => modify_loop p adds' removes (mods ++ [m]) h'
          | None => (h, inl (JModifyWait p q (execSub s (qr_udfPath q) (qr_args q)) adds' removes mods))
          end
      end
  end.

(** ** Fan-out *)

(** The incremental arms of [sendSessionTransition]. *)
Definition range_arm (sub : Subscription) (rr : RangeRead) (docs : list WrittenDoc) : HM StateModification := λ h,
  let key := subKey (sessionId sub) (queryId sub) in
  (let* wds := hm_lift (docs_of_table rr docs) in
   let* (changes, next) := hm_lift (rangeChangesFor rr (default [] (jm_get (byIdRowMap h) key)) wds) in
   do* set_rows key next in
   hm_ret (QueryDiff (queryId sub) changes (driftChecksum next) None None)) h.
Definition byId_arm (sub : Subscription) (b : ByIdRead) (docs : list WrittenDoc) : HM StateModification := λ h,
  let key := subKey (sessionId sub) (queryId sub) in
  let wd := find (λ w, bool_decide (wd_keyspace w = bi_keyspace b) && bool_decide (wd_key w = bi_key b)) docs in
  let '(changes, next) := byIdChangesFor b (default [] (jm_get (byIdRowMap h) key)) wd in
  (do* set_rows key next in hm_ret (QueryDiff (queryId sub) changes (driftChecksum next) None None)) h.

Definition diff_arm s (sub : Subscription) (inv : WriteInvalidation) h : option (Handler Socket * StateModification) :=
  if supportsQueryDiff s then
    match wi_writtenDocs inv, range sub, byId sub with
    | Some docs, Some rr, _ => Some (catching (queryId sub) (range_arm sub rr docs) h)
    | Some docs, None, Some b => Some (catching (queryId sub) (byId_arm sub b docs) h)
    | _, _, _ => None
    end
  else None.

Definition same_byId (a b : option ByIdRead) : bool :=
  match a, b with
  | Some a, Some b => bool_decide (bi_keyspace a = bi_keyspace b) && bool_decide (bi_key a = bi_key b)
  | None, _ => true
  | Some _, None => false
  end.

(** The re-run of a subscription from its [await] on. *)
Definition rerun (sub : Subscription) (inv : WriteInvalidation) (r : QueryResult) : HM StateModification :=
  let* b := hm_lift (byId_of r) in
  let key := subKey (sessionId sub) (queryId sub) in
  do* subs_add (with_reads sub r b (resumeKey sub)) in
  do* fireGlobalSubscribe (q_globalTables r) in
  do* (match resumeKey sub with Some ((_ :: _) as k) => registry_upsert k r (wi_commitTs inv) (is_diffable r b) | _ => hm_ret tt end) in
  do* (if same_byId (byId sub) b then hm_ret tt else delete_rows key) in
  do* (match range sub with Some _ => delete_rows key | None => hm_ret tt end) in
  let* j := hm_lift (encode_result (q_value r)) in
  hm_ret (QueryUpdated (queryId sub) j (Some (hashValue j))).

Definition push_fanout (p : nat) (inv : WriteInvalidation) (mods : list StateModification) h : Handler Socket :=
  push_transition p (λ v, {| querySet := querySet v; v_ts := if wi_global inv then v_ts v else wi_commitTs inv |}) mods h.

(** The loop of [sendSessionTransition] up to its next [await]; its caller awaits it too. *)
Fixpoint transition_loop (f : Fan) (rest : option (list (jsstr * list Subscription))) (p : nat) (subs : list Subscription)
    (mods : list StateModification) h : Handler Socket * (Job + res unit) :=
  match subs with
  | [] => (push_fanout p (fn_inv f) mods h, inl (JNotifyNext f rest))
  | sub :: subs' =>
      match h_heap h !! p with
      | None => (h, inr (Err TypeError))
      | Some s =>
          match diff_arm s sub (fn_inv f) h with
          | Some (h', m) => transition_loop f rest p subs' (mods ++ [m]) h'
          | None => (h, inl (JNotifyWait f rest p sub (execSub s (udfPath sub) (args sub)) subs' mods))
          end
      end
  end.

Definition advanceOriginFrontier (f : Fan) h : Handler Socket :=
  match fn_origin f with
  | Some ((_ :: _) as o) =>
      if jm_has (fn_bySession f) o then h
      else match session_ref h o, session_of h o with
      | Some p, Some s =>
          if wi_commitTs (fn_inv f) <=? v_ts (se_version s) then h
          else let h := emitEmptyFrontier p (wi_commitTs (fn_inv f)) h in with_frontiers h (jm_delete (pendingFrontiers h) o)
      | _, _ => h
      end
  | _ => h
  end.

Definition sweep_one (drainTs : Z) (bySession : list (jsstr * list Subscription)) h (e : jsstr * Z) : Handler Socket :=
  if drainTs <? e.2 then h
  else
    let h := match session_ref h e.1, session_of h e.1 with
      | Some p, Some s => if (v_ts (se_version s) <? e.2) && negb (jm_has bySession e.1) then emitEmptyFrontier p e.2 h else h
      | _, _ => h
      end in
    with_frontiers h (jm_delete (pendingFrontiers h) e.1).
Definition sweepPendingFrontiers (drainTs : Z) (bySession : list (jsstr * list Subscription)) h : Handler Socket :=
  fold_left (sweep_one drainTs bySession) (pendingFrontiers h) h.

Definition fan_finish (f : Fan) h : Handler Socket * (Job + res unit) :=
  (if wi_global (fn_inv f) then h
   else sweepPendingFrontiers (wi_commitTs (fn_inv f)) (fn_bySession f) (advanceOriginFrontier f h), inr (Ok tt)).

(** The origin's own turn. A session gone by now is [undefined], and reading its version throws. *)
Definition fan_origin (f : Fan) h : Handler Socket * (Job + res unit) :=
  match fn_origin f with
  | Some o =>
      if originIsDiffCapable f then
        let subs := default [] (jm_get (fn_bySession f) o) in
        match session_ref h o with
        | None => (h, inr (Err TypeError))
        | Some p =>
            match jm_get (originResponseGates h) (wi_commitTs (fn_inv f)) with
            | Some (g, _) => (h, inl (JNotifyGate f g p subs))
            | None => transition_loop f None p subs [] h
            end
        end
      else fan_finish f h
  | None => fan_finish f h
  end.

(** The loop of [doNotifyWrites] over its sessions. *)
Fixpoint fan_loop (f : Fan) (rest : list (jsstr * list Subscription)) h : Handler Socket * (Job + res unit) :=
  match rest with
  | [] => fan_origin f h
  | (sid, subs) :: rest' =>
      if originIsDiffCapable f && bool_decide (Some sid = fn_origin f) then fan_loop f rest' h
      else match session_ref h sid with
      | None => fan_loop f rest' h
      | Some p => transition_loop f (Some rest') p subs [] h
      end
  end.

Definition group_affected (affected : list Subscription) (origin : option jsstr) : list (jsstr * list Subscription) :=
  fold_left (λ m sub, if excludeOriginFromTransition opts && bool_decide (Some (sessionId sub) = origin) then m else group_add m sub) affected [].

Definition origin_diff_capable h (bySession : list (jsstr * list Subscription)) (origin : option jsstr) : bool :=
  match origin with
  | Some ((_ :: _) as o) => jm_has bySession o && match session_of h o with Some s => supportsQueryDiff s | None => false end
  | _ => false
  end.

Definition notify_start (inv : WriteInvalidation) (origin : option jsstr) h : Handler Socket * (Job + res unit) :=
  match (if wi_global inv then Ok (resumeRegistry h) else advanceOnCommit (resumeRegistry h) (wi_ranges inv) (wi_tables inv) (wi_commitTs inv)) with
  | Err e => (h, inr (Err e))
  | Ok g =>
      let h := with_registry h (sweep g (h_now h)) in
      match findAffectedByRanges (subscriptions h) (wi_ranges inv) (wi_tables inv) with
      | Err e => (h, inr (Err e))
      | Ok affected =>
          let bySession := group_affected affected origin in
          fan_loop {| fn_inv := inv; fn_origin := origin; fn_bySession := bySession;
            originIsDiffCapable := origin_diff_capable h bySession origin |} bySession h
      end
  end.

(** ** The queue of [notifyTail] *)
Definition enqueue (j : Job) h : Handler Socket :=
  with_tasks (with_tail h (notifyTail h ++ [(h_next h, j)]) (h_done h)) (h_tasks h) (S (h_next h)).
Definition notifyWrites (inv : WriteInvalidation) (origin : option jsstr) h : Handler Socket := enqueue (JNotify inv origin) h.

(** A step of the job at the head; [None] while it is parked on a gate. *)
Definition run_job (j : Job) (r : QueryResult + jsstr) h : option (Handler Socket * (Job + res unit)) :=
  match j with
  | JModify p adds removes => Some (modify_loop p adds removes [] h)
  | JModifyWait p q call adds removes mods =>
      let '(h', m) := awaited (qr_queryId q) call r (subscribed p q) h in Some (modify_loop p adds removes (mods ++ [m]) h')
  | JNotify inv origin => Some (notify_start inv origin h)
  | JNotifyWait f rest p sub call subs mods =>
      let '(h', m) := awaited (queryId sub) call r (rerun sub (fn_inv f)) h in Some (transition_loop f rest p subs (mods ++ [m]) h')
  | JNotifyNext f (Some rest) => Some (fan_loop f rest h)
  | JNotifyNext f None => Some (fan_finish f h)
  | JNotifyGate f g p subs =>
      if bool_decide (g ∈ (originResponseGates h).*2.*1) then None else Some (transition_loop f None p subs [] h)
  end.

Definition step_tail (r : QueryResult + jsstr) h : Handler Socket :=
  match notifyTail h with
  | [] => h
  | (i, j) :: t =>
      match run_job j r h with
      | None => h
      | Some (h', inl j') => with_tail h' (match notifyTail h' with _ :: t' => (i, j') :: t' | [] => [] end) (h_done h')
      | Some (h', inr x) => with_tail h' (drop 1 (notifyTail h')) (h_done h' ++ [(i, x)])
      end
  end.

(** ** Tasks *)
Definition spawn (t : Task) h : Handler Socket := with_tasks h (h_tasks h ++ [(h_next h, t)]) (S (h_next h)).
Definition retask (i : nat) (t : option Task) h : Handler Socket :=
  with_tasks h (match t with Some t => jm_set (h_tasks h) i t | None => jm_delete (h_tasks h) i end) (h_next h).

(** *** Authentication *)
Definition reauthenticated (p : nat) (sub : Subscription) (r : QueryResult) : HM StateModification :=
  let* b := hm_lift (byId_of r) in
  let* s := session_at p in
  let newResumeKey := regKey stringify (se_identity s) (udfPath sub) (args sub) in
  do* registry_upsert newResumeKey r (v_ts (se_version s)) (is_diffable r b) in
  do* (if bool_decide (resumeKey sub = Some newResumeKey) then hm_ret tt
       else do* retain_key newResumeKey in release_key (resumeKey sub)) in
  do* subs_add (with_reads sub r b (Some newResumeKey)) in
  do* fireGlobalSubscribe (q_globalTables r) in
  let key := subKey (se_sessionId s) (queryId sub) in
  let* j := hm_lift (encode_result (q_value r)) in
  match b, supportsQueryDiff s with
  | Some b, true =>
      let '(changes, next) := byIdResetChanges (bi_docId b) (null_row j) (v_ts (se_version s)) in
      do* set_rows key next in
      hm_ret (QueryDiff (queryId sub) changes (driftChecksum next) (Some ResetTrue) None)
  | _, _ =>
      do* delete_rows key in
      hm_ret (QueryUpdated (queryId sub) j (Some (hashValue j)))
  end.

(** The loop of [handleSetAuth] up to its next [await]. *)
Definition auth_next (p : nat) (subs : list Subscription) (mods : list StateModification) h : Handler Socket * option Task :=
  match subs with
  | [] => (push_transition p bump_querySet mods h, None)
  | sub :: subs' =>
      match h_heap h !! p with
      | None => (h, None)
      | Some s => (h, Some (TAuth p sub (execSub s (udfPath sub) (args sub)) subs' mods))
      end
  end.

(** *** Mutations *)
Definition dedup_of (u : MutationBatchEntry) : option ClientMutationRef :=
  match me_clientId u, me_seq u with Some c, Some n => Some {| cr_clientId := c; cr_seq := n |} | _, _ => None end.

Definition batch_next (p : nat) (batch : list MutationBatchEntry) h : option Task :=
  match batch, h_heap h !! p with
  | u :: batch', Some s => Some (TMutation p u (se_identity s) (dedup_of u) batch')
  | _, _ => None
  end.

Definition replay_reply (r : MutationReplay) : res MutationReply :=
  match mr_verdict r with
  | RvApplied =>
      let ts := mr_commitTs r ≫= mutationResponseTs in
      if mr_valueMissing r then Ok (ReplyOk None ts true true)
      else let! j := encode_result (mr_value r) in Ok (ReplyOk (Some j) ts true false)
  | v =>
      let stale := match v with RvStale => Some (js "STALE_CLIENT") | _ => None end in
      let code := match mr_code r with Some c => Some c | None => stale end in
      Ok (ReplyError (default (js "mutation failed") code) code)
  end.

(** The [catch] of [processMutation]; the flag says whether the batch goes on. *)
Definition fail_mutation (p : nat) (u : MutationBatchEntry) (message : jsstr) (code : option jsstr) (committedTs : option Z) h : Handler Socket :=
  let h := match committedTs with Some ts => releaseOriginResponseGate ts h | None => h end in
  send_frame p (MutationResponse (me_requestId u) (ReplyError message code)) h.

Definition thrown_code (e : thrown) : option jsstr := match e with HelipodErr c false => Some c | _ => None end.

Definition note_frontier (sid : jsstr) (commitTs : Z) h : Handler Socket :=
  match jm_get (pendingFrontiers h) sid with
  | Some prev => if prev <? commitTs then with_frontiers h (jm_set (pendingFrontiers h) sid commitTs) else h
  | None => with_frontiers h (jm_set (pendingFrontiers h) sid commitTs)
  end.

(** [processMutation] from the return of [runMutation], and the batch loop around it. *)
Definition mutation_returned (p : nat) (u : MutationBatchEntry) (batch : list MutationBatchEntry) (r : RunMutationResult) h
    : Handler Socket * option Task :=
  let continue h := (h, batch_next p batch h) in
  match r with
  | MutationReplayed r =>
      match replay_reply r with
      | Ok reply => continue (send_frame p (MutationResponse (me_requestId u) reply) h)
      | Err e => continue (fail_mutation p u (errMessage e) None None h)
      end
  | MutationRan v tabs ranges commitTs forwarded =>
      match encode_result v with
      | Err e => continue (fail_mutation p u (errMessage e) None None h)
      | Ok j =>
          let h := send_frame p (MutationResponse (me_requestId u) (ReplyOk (Some j) (mutationResponseTs commitTs) false false)) h in
          let h := releaseOriginResponseGate commitTs h in
          match h_heap h !! p with
          | None => (h, None)
          | Some s =>
              let h := if forwarded && (0 <? commitTs) then note_frontier (se_sessionId s) commitTs h else h in
              if autoNotifyOnMutation opts then
                (notifyWrites {| wi_tables := tabs; wi_ranges := ranges; wi_commitTs := commitTs; wi_writtenDocs := None; wi_global := false |}
                   (Some (se_sessionId s)) h, Some (TNotified p u (h_next h) batch))
              else continue h
          end
      end
  | MutationThrew e message committedTs =>
      let h := fail_mutation p u message (thrown_code e) committedTs h in
      if isRetryableError e then (h, None) else continue h
  end.

(** *** The resume handshake *)
Definition connect_next (p : nat) (presented : bool) (held acked : list ClientMutationRef) (results : list ClientMutationVerdict)
    (recognizedAny : bool) h : Handler Socket * option Task :=
  match held, acked, ho_deploymentId opts with
  | ref :: held', _, _ => (h, Some (THeld p ref held' acked results recognizedAny))
  | [], ref :: acked', _ => (h, Some (TAcked p ref acked' results recognizedAny))
  | [], [], Some dep => (send_frame p (ConnectAck (if presented then recognizedAny else true) results dep) h, None)
  | [], [], None => (h, None)
  end.

Definition recognized (v : ClientMutationVerdict) : bool := match cmv_verdict v with Some _ => true | None => false end.

(** Resuming a task; [None] for a reply of another kind. *)
Definition run_task (t : Task) (r : Reply) h : option (Handler Socket * option Task) :=
  match t, r with
  | TAuth p sub call subs mods, RQuery r =>
      let '(h', m) := awaited (queryId sub) call r (reauthenticated p sub) h in Some (auth_next p subs (mods ++ [m]) h')
  | TMutation p u _ _ batch, RMutation r => Some (mutation_returned p u batch r h)
  | TNotified p u job batch, RNotified =>
      match jm_get (h_done h) job with
      | None => None
      | Some (Ok _) => Some (h, batch_next p batch h)
      | Some (Err e) => let h := fail_mutation p u (errMessage e) None None h in Some (h, batch_next p batch h)
      end
  | THeld p ref held acked results rec, RVerdict (inl v) =>
      Some (connect_next p true held acked (results ++ [v]) (rec || recognized v) h)
  | TAcked p ref acked results rec, RVerdict (inl v) => Some (h, Some (TPrune p ref acked results (rec || recognized v)))
  | TPrune p ref acked results rec, RPruned true => Some (connect_next p true [] acked results rec h)
  | THeld _ _ _ _ _ _, RVerdict (inr _) | TAcked _ _ _ _ _, RVerdict (inr _) | TPrune _ _ _ _ _, RPruned false => Some (h, None)
  | TAction p rid _ _ _, RAction r =>
      let reply := match r with
        | inl v => match encode_result v with Ok j => inl j | Err e => inr (errMessage e) end
        | inr message => inr message
        end in
      Some (send_frame p (ActionResponse rid reply) h, None)
  | _, _ => None
  end.

Definition step_task (i : nat) (r : Reply) h : Handler Socket :=
  match jm_get (h_tasks h) i with
  | None => h
  | Some t => match run_task t r h with Some (h', t') => retask i t' h' | None => h end
  end.

(** ** Messages *)
Definition begin_task (x : Handler Socket * option Task) : Handler Socket := match x.2 with Some t => spawn t x.1 | None => x.1 end.

Definition handleConnect (p : nat) (clientId : option jsstr) (held acked : option (list ClientMutationRef)) (diff : bool) h : Handler Socket :=
  let h := update h p (λ s, with_access s (se_identity s) (se_privileged s) diff) in
  match clientId, held, acked, ho_deploymentId opts with
  | None, None, None, _ | _, _, _, None => h
  | _, _, _, Some _ =>
      let held := default [] held in let acked := default [] acked in
      begin_task (connect_next p (negb (Nat.eqb (length held + length acked) 0)) held acked [] false h)
  end.

Definition handleSetAuth (p : nat) (token : option jsstr) h : Handler Socket :=
  let h := update h p (λ s, with_access s token (se_privileged s) (supportsQueryDiff s)) in
  match h_heap h !! p with
  | None => h
  | Some s => begin_task (auth_next p (forSession (subscriptions h) (se_sessionId s)) [] h)
  end.

Definition handleMessage (sid : jsstr) (m : ClientMessage) h : Handler Socket :=
  match session_ref h sid, session_of h sid with
  | Some p, Some s =>
      let h := update h p (λ s, with_hb s (noteActivity (se_hb s)) (se_closed s)) in
      match m with
      | MConnect c held acked diff => handleConnect p c held acked diff h
      | MModifyQuerySet adds removes => enqueue (JModify p adds removes) h
      | MMutation u => begin_task (h, batch_next p [u] h)
      | MMutationBatch us => begin_task (h, batch_next p us h)
      | MAction rid path args => spawn (TAction p rid path args (se_identity s)) h
      | MEphemeralPublish topic event => publishEphemeral topic event (Some sid) h
      | MSetAuth token => handleSetAuth p token h
      | MSetAdminAuth key => update h p (λ s, with_access s (se_identity s) (verifyAdmin key) (supportsQueryDiff s))
      end
  | _, _ => h
  end.

(** ** Runs *)

(** The periodic sweep. *)
Definition flush_sweep h : Handler Socket :=
  if disableBackgroundTimers opts then h
  else
    let h := fold_left (λ h e, update h e.2 (λ s, with_bp s (flush bufferedAmount socket_send (ho_backpressure opts) (se_bp s) (h_now h)) (se_offered s))) (sessions h) h in
    with_registry h (sweep (resumeRegistry h) (h_now h)).

(** A tick of a session's heartbeat, whose death reaps the session. *)
Definition beat (p : nat) h : Handler Socket :=
  match h_heap h !! p with
  | None => h
  | Some s =>
      let hb := tick (ho_missedPongLimit opts) (se_hb s) in
      let h := update h p (λ s, with_hb s hb (se_closed s)) in
      if negb (hb_dead (se_hb s)) && hb_dead hb then reap (se_sessionId s) h else h
  end.

Inductive hevent :=
  | HClock (now : Z)
  | HSocket (p : nat) (sk : Socket)
  | HConnect (sid : jsstr) (sk : Socket)
  | HDisconnect (sid : jsstr)
  | HMessage (sid : jsstr) (m : ClientMessage)
  | HNotify (inv : WriteInvalidation) (origin : option jsstr)
  | HGate (commitTs : Z) (origin : option jsstr)
  | HTail (r : QueryResult + jsstr)
  | HTask (i : nat) (r : Reply)
  | HPublish (topic : jsstr) (event : json) (from : option jsstr)
  | HFlush
  | HPong (p : nat)
  | HBeat (p : nat).

Definition hstep h (ev : hevent) : Handler Socket :=
  match ev with
  | HClock now => with_clock h now
  | HSocket p sk => update h p (λ s, with_bp s (bp_step bufferedAmount socket_send (ho_backpressure opts) (se_bp s) (BpSocket sk)) (se_offered s))
  | HConnect sid sk => connect sid sk h
  | HDisconnect sid => disconnect sid h
  | HMessage sid m => handleMessage sid m h
  | HNotify inv origin => notifyWrites inv origin h
  | HGate ts origin => registerOriginResponseGate ts origin h
  | HTail r => step_tail r h
  | HTask i r => step_task i r h
  | HPublish topic event from => publishEphemeral topic event from h
  | HFlush => flush_sweep h
  | HPong p => update h p (λ s, with_hb s (noteActivity (se_hb s)) (se_closed s))
  | HBeat p => beat p h
  end.
Definition hrun (evs : list hevent) : Handler Socket := fold_left hstep evs (new_Handler Socket).
End handler.
