(* ===== verification/HandlerFlow.v ===== *)
(** Facts about the runs of the handler ([packages/sync/src/handler.ts]): the brackets every session sends. *)
From S2P Require Import Prelude Numbers Values Json IndexKeys Ranges IntervalIndex IdCodec DocStore ExactlyOnce Transactor.
From S2P Require Import QueryEngine Subscriptions DiffSync SessionFlow Handler.

(** ** Runs of a session's versions *)
Definition run_end (v : StateVersion) (evs : list (session_event * list StateModification)) : StateVersion := fold_left bump evs.*1 v.

Lemma session_run_app v e1 e2 : session_run v (e1 ++ e2) = session_run v e1 ++ session_run (run_end v e1) e2.
Proof. revert v. induction e1 as [|[e m] e1 IH]; intros v; [done|]. cbn. by rewrite IH. Qed.
Lemma run_end_app v e1 e2 : run_end v (e1 ++ e2) = run_end (run_end v e1) e2.
Proof. unfold run_end. by rewrite fmap_app, fold_left_app. Qed.
Lemma all_forward_app v e1 e2 : all_forward v (e1 ++ e2) = all_forward v e1 && all_forward (run_end v e1) e2.
Proof. revert v. induction e1 as [|[e m] e1 IH]; intros v; [done|]. cbn. by rewrite IH, andb_assoc. Qed.

(** The frame a message becomes. *)
Definition frame (msg : ServerMessage) : QueuedFrame ServerMessage := {| qf_data := msg; qf_undroppable := undroppable msg |}.

Section flow.
Context {Socket : Type} (bufferedAmount : Socket → Z) (socket_send : Socket → ServerMessage → Socket) (canPing : Socket → bool).
Context (hashValue stringify : json → jsstr) (errMessage : exn → jsstr) (verifyAdmin : jsstr → bool).
Context (opts : HandlerOptions).
Implicit Types (h : Handler Socket) (s : Session Socket).
Abbreviation events := (list (session_event * list StateModification)).
Abbreviation bps := (bp_step bufferedAmount socket_send (ho_backpressure opts)).
Abbreviation push := (push_transition bufferedAmount socket_send opts).
Abbreviation sendf := (send_frame bufferedAmount socket_send opts).

(** ** How a session object changes: it emits brackets for the given events *)
Record session_ext s (evs : events) s' : Prop := {
  sx_id : se_sessionId s' = se_sessionId s;
  sx_version : se_version s' = run_end (se_version s) evs;
  sx_frames : ∃ new ops, se_offered s' = se_offered s ++ new ∧ omap bracket_of new = session_run (se_version s) evs ∧
    se_bp s' = fold_left bps ops (se_bp s) ∧ offered ops = frame <$> new }.

Lemma session_ext_refl s : session_ext s [] s.
Proof. split; [done..|]. exists [], []. by rewrite app_nil_r. Qed.
Lemma session_ext_trans s1 e1 s2 e2 s3 : session_ext s1 e1 s2 → session_ext s2 e2 s3 → session_ext s1 (e1 ++ e2) s3.
Proof.
  intros [A1 A2 (n1 & o1 & A3 & A4 & A5 & A6)] [B1 B2 (n2 & o2 & B3 & B4 & B5 & B6)]. split.
  - by rewrite B1.
  - by rewrite B2, A2, run_end_app.
  - exists (n1 ++ n2), (o1 ++ o2). split_and!.
    + by rewrite B3, A3, app_assoc.
    + by rewrite omap_app, A4, B4, A2, session_run_app.
    + by rewrite B5, A5, fold_left_app.
    + unfold offered in *. by rewrite omap_app, A6, B6, fmap_app.
Qed.

(** Jobs that a message or a task may append to the queue. *)
Definition fresh_job (j : nat * Job) : Prop :=
  match j.2 with JModify _ _ _ => True | JNotify _ _ => autoNotifyOnMutation opts = true | _ => False end.

(** [ext h E h']: every session object emits the brackets of its events, no object appears, no session is
    connected and the queue at most grows. *)
Record ext h (E : nat → events) h' : Prop := {
  ex_length : length (h_heap h') = length (h_heap h);
  ex_refs : ∀ e, e ∈ sessions h' → e ∈ sessions h;
  ex_tail : ∃ new, notifyTail h' = notifyTail h ++ new ∧ Forall fresh_job new;
  ex_sessions : ∀ p s, h_heap h !! p = Some s → ∃ s', h_heap h' !! p = Some s' ∧ session_ext s (E p) s' }.
Definition quiet h h' : Prop := ext h (λ _, []) h'.

Lemma ext_trans h1 E1 h2 E2 h3 : ext h1 E1 h2 → ext h2 E2 h3 → ext h1 (λ p, E1 p ++ E2 p) h3.
Proof.
  intros [L1 R1 (n1 & T1 & F1) H1] [L2 R2 (n2 & T2 & F2) H2]. split; [by rewrite L2|by auto| |].
  { exists (n1 ++ n2). rewrite T2, T1, app_assoc. split; [done|]. by apply Forall_app. }
  intros p s Hs. destruct (H1 p s Hs) as (s2 & Hs2 & X1).
  destruct (H2 p s2 Hs2) as (s3 & Hs3 & X2). exists s3. split; [done|]. by eapply session_ext_trans.
Qed.
(** Only fields that hold no session, no reference and no job differ. *)
Definition same h h' : Prop := (h_heap h', sessions h', notifyTail h') = (h_heap h, sessions h, notifyTail h).
Lemma quiet_jobs h h' new : h_heap h' = h_heap h → (∀ e, e ∈ sessions h' → e ∈ sessions h) →
  notifyTail h' = notifyTail h ++ new → Forall fresh_job new → quiet h h'.
Proof.
  intros E R T F. split; [by rewrite E|done|by exists new|]. intros p s Hs. exists s. rewrite E. split; [done|apply session_ext_refl].
Qed.
Lemma quiet_same h h' : same h h' → quiet h h'.
Proof. intros [= E1 E2 E3]. apply (quiet_jobs h h' []); [done| |by rewrite app_nil_r|done]. by rewrite E2. Qed.
#[local] Instance quiet_preorder : PreOrder quiet.
Proof. split; [intros h; by apply quiet_same|]. intros h1 h2 h3 H1 H2. exact (ext_trans _ _ _ _ _ H1 H2). Qed.
Lemma ext_quiet_r h1 E h2 h3 : ext h1 E h2 → quiet h2 h3 → ext h1 E h3.
Proof.
  intros H1 H2. destruct (ext_trans _ _ _ _ _ H1 H2) as [L R T H]. split; [done..|]. intros p s Hs. destruct (H p s Hs) as (s' & Hs' & X).
  rewrite app_nil_r in X. eauto.
Qed.
Lemma ext_quiet_l h1 E h2 h3 : quiet h1 h2 → ext h2 E h3 → ext h1 E h3.
Proof. intros H1 H2. exact (ext_trans _ _ _ _ _ H1 H2). Qed.

(** An assignment to one session object. *)
Lemma update_ext h p f evs : (∀ s, h_heap h !! p = Some s → session_ext s evs (f s)) →
  ext h (λ p', if decide (p' = p) then evs else []) (update h p f).
Proof.
  intros Hf. split; [apply length_alter|done|by exists []; rewrite app_nil_r|]. intros p' s Hs. cbn. destruct (decide (p' = p)) as [->|Hne].
  - exists (f s). rewrite list_lookup_alter_eq, Hs. split; [done|by apply Hf].
  - exists s. rewrite list_lookup_alter_ne by done. split; [done|apply session_ext_refl].
Qed.
Lemma update_quiet h p f : (∀ s, h_heap h !! p = Some s → session_ext s [] (f s)) → quiet h (update h p f).
Proof.
  intros Hf. destruct (update_ext h p f [] Hf) as [L R T H]. split; [done..|]. intros p' s Hs. destruct (H p' s Hs) as (s' & ? & X).
  exists s'. split; [done|]. by destruct (decide (p' = p)).
Qed.
(** Fields that carry no version and no frames. *)
Lemma access_ext s i pr d : session_ext s [] (with_access s i pr d).
Proof. split; [done..|]. exists [], []. cbn. by rewrite app_nil_r. Qed.
Lemma hb_ext s b c : session_ext s [] (with_hb s b c).
Proof. split; [done..|]. exists [], []. cbn. by rewrite app_nil_r. Qed.
(** A flush or a change of the socket. *)
Lemma bp_ext s op : frame_of op = None → session_ext s [] (with_bp s (bps (se_bp s) op) (se_offered s)).
Proof. intros Ho. split; [done..|]. exists [], [op]. unfold offered. cbn. by rewrite app_nil_r, Ho. Qed.

Lemma fold_quiet {A} (f : Handler Socket → A → Handler Socket) l h : (∀ h x, quiet h (f h x)) → quiet h (fold_left f l h).
Proof. intros Hf. revert h. induction l as [|x l IH]; intros h; [reflexivity|]. cbn. etrans; [apply Hf|apply IH]. Qed.

Lemma disconnect_quiet sid h : quiet h (disconnect sid h).
Proof.
  unfold disconnect. set (h1 := match session_ref h sid with Some _ => _ | None => _ end).
  assert (H1 : quiet h h1). { subst h1. case_match; [|reflexivity]. apply update_quiet. intros. apply hb_ext. }
  etrans; [exact H1|]. clearbody h1. cbv zeta. etrans; [|apply fold_quiet; intros; case_match; [by apply quiet_same|reflexivity]].
  apply (quiet_jobs _ _ []); [done| |by rewrite app_nil_r|done]. intros e. cbn. apply jm_delete_sub.
Qed.
Lemma reap_quiet sid h : quiet h (reap sid h).
Proof.
  unfold reap. etrans; [|apply disconnect_quiet]. case_match; [|reflexivity]. apply update_quiet. intros. apply hb_ext.
Qed.

Lemma send_frame_ext p msg h (E : events) : (∀ s, h_heap h !! p = Some s → omap bracket_of [msg] = session_run (se_version s) E ∧
    se_version s = run_end (se_version s) E) →
  ext h (λ p', if decide (p' = p) then E else []) (sendf p msg h).
Proof.
  intros HE. unfold send_frame. destruct (h_heap h !! p) as [s|] eqn:Hp.
  - set (bp := send _ _ _ _ _ _ _). set (h1 := update h p _).
    assert (H1 : ext h (λ p', if decide (p' = p) then E else []) h1).
    { apply update_ext. intros s' Hs'. assert (s' = s) as -> by congruence. destruct (HE s eq_refl) as [E1 E2]. split; [done|exact E2|].
      exists [msg], [BpSend (h_now h) msg (undroppable msg)]. done. }
    case_match; [|exact H1]. eapply ext_quiet_r; [exact H1|apply reap_quiet].
  - split; [done..|by exists []; rewrite app_nil_r|]. intros p' s Hs. destruct (decide (p' = p)) as [->|]; [congruence|]. exists s. split; [done|apply session_ext_refl].
Qed.

Lemma send_quiet p msg h : bracket_of msg = None → quiet h (sendf p msg h).
Proof.
  intros Hm. destruct (send_frame_ext p msg h []) as [L R T H].
  - intros s _. cbn. by rewrite Hm.
  - split; [done..|]. intros p' s Hs. destruct (H p' s Hs) as (s' & ? & X). exists s'. split; [done|]. by destruct (decide (p' = p)).
Qed.

Lemma update_update h p f g : update (update h p f) p g = update h p (g ∘ f).
Proof.
  unfold update, with_heap. cbn. f_equal. apply list_eq. intros i. destruct (decide (i = p)) as [->|].
  - rewrite !list_lookup_alter_eq. by destruct (h_heap h !! p).
  - by rewrite !list_lookup_alter_ne.
Qed.

(** Pushing a transition is one event of its session. *)
Lemma push_ext p bumped mods h e : (∀ v, bumped v = bump v e) →
  ext h (λ p', if decide (p' = p) then [(e, mods)] else []) (push p bumped mods h).
Proof.
  intros He. unfold push_transition. destruct (h_heap h !! p) as [s|] eqn:Hp.
  2:{ split; [done..|by exists []; rewrite app_nil_r|]. intros p' s Hs. destruct (decide (p' = p)) as [->|]; [congruence|]. exists s. split; [done|apply session_ext_refl]. }
  unfold send_frame. cbn [h_heap update with_heap]. rewrite list_lookup_alter_eq, Hp. cbn [fmap option_fmap option_map].
  set (msg := Transition _). set (bp := send _ _ _ _ _ _ _).
  change (with_heap h (alter (λ s, with_version s (bumped (se_version s))) p (h_heap h))) with (update h p (λ s, with_version s (bumped (se_version s)))).
  match goal with |- ext h _ (if _ then reap _ ?x else _) => set (h1 := x) end.
  assert (H1 : ext h (λ p', if decide (p' = p) then [(e, mods)] else []) h1).
  { subst h1. rewrite update_update. apply update_ext. intros s' Hs'. assert (s' = s) as -> by congruence. split; [done|cbn; apply He|].
    exists [msg], [BpSend (h_now h) msg (undroppable msg)]. split_and!; [done| |done|done].
    subst msg. cbn. by rewrite He. }
  case_match; [|exact H1]. eapply ext_quiet_r; [exact H1|apply reap_quiet].
Qed.

(** ** Steps that leave the session objects alone *)
Abbreviation pure_hm m := (∀ h, same h (m h).1).
Lemma bind_heap {A B} (m : hm Socket A) (k : A → hm Socket B) : pure_hm m → (∀ a, pure_hm (k a)) → pure_hm (hm_bind m k).
Proof. intros Hm Hk h. unfold hm_bind. specialize (Hm h). destruct (m h) as [h' [a|e]]; cbn in *; [|done]. unfold same in *. by rewrite Hk. Qed.
Lemma subs_add_heap sub : pure_hm (subs_add (Socket := Socket) sub).
Proof. intros h. unfold subs_add. by destruct (add (subscriptions h) sub). Qed.
Lemma registry_upsert_heap k r t d : pure_hm (registry_upsert (Socket := Socket) k r t d).
Proof. intros h. unfold registry_upsert. by destruct (upsert _ _ _ _ _ _ _). Qed.
Lemma release_key_heap k : pure_hm (release_key (Socket := Socket) k).
Proof. intros h. unfold release_key, hm_do. by destruct k as [[|]|]. Qed.
Lemma fire_heap g : pure_hm (fireGlobalSubscribe (Socket := Socket) g).
Proof. intros h. by destruct g. Qed.
Lemma session_at_heap p : pure_hm (session_at (Socket := Socket) p).
Proof. done. Qed.
Create HintDb hheap.
#[local] Hint Resolve session_at_heap subs_add_heap registry_upsert_heap release_key_heap fire_heap : hheap.
Ltac hm_heap := cbv zeta; repeat first
  [ done
  | solve [eauto with hheap]
  | apply bind_heap; [|intros ?]; cbv zeta
  | match goal with |- ∀ h, same h ((match ?x with _ => _ end) h).1 => destruct x
    | |- ∀ h, same h ((let '(_, _) := ?x in _) h).1 => destruct x end ].

Lemma subscribe_answer_heap s q r b : pure_hm (subscribe_answer hashValue s q r b).
Proof. unfold subscribe_answer. hm_heap. Qed.
#[local] Hint Resolve subscribe_answer_heap : hheap.
Lemma subscribed_heap p q r : pure_hm (subscribed hashValue stringify p q r).
Proof. unfold subscribed. hm_heap. Qed.
Lemma rerun_heap sub inv r : pure_hm (rerun hashValue sub inv r).
Proof. unfold rerun. hm_heap. Qed.
Lemma reauthenticated_heap p sub r : pure_hm (reauthenticated hashValue stringify p sub r).
Proof. unfold reauthenticated. hm_heap. Qed.
Lemma range_arm_heap sub rr docs : pure_hm (range_arm (Socket := Socket) sub rr docs).
Proof. intros h. unfold range_arm.
  generalize (default [] (jm_get (byIdRowMap h) (subKey (sessionId sub) (queryId sub)))). intros rows. revert h. hm_heap. Qed.
Lemma byId_arm_heap sub b docs : pure_hm (byId_arm (Socket := Socket) sub b docs).
Proof. intros h. unfold byId_arm. by destruct (byIdChangesFor _ _ _). Qed.

(** ** Steps that keep every session's timestamp: changes of the query set and of the identity, global invalidations *)
Definition keeps_ts (e : session_event) : bool :=
  match e with EvQuerySet | EvSetAuth => true | EvFanout _ global => global | EvFrontier _ => false end.
Definition steps h h' : Prop := ∃ E, ext h E h'.
Definition static h h' : Prop := ∃ E, ext h E h' ∧ ∀ p, forallb keeps_ts (E p).*1 = true.

Lemma quiet_static h h' : quiet h h' → static h h'.
Proof. intros H. by exists (λ _, []). Qed.
Lemma static_steps h h' : static h h' → steps h h'.
Proof. intros (E & H & _). by exists E. Qed.
#[local] Instance static_preorder : PreOrder static.
Proof.
  split; [intros h; by apply quiet_static, quiet_same|]. intros h1 h2 h3 (E1 & H1 & K1) (E2 & H2 & K2).
  exists (λ p, E1 p ++ E2 p). split; [by eapply ext_trans|]. intros p. by rewrite fmap_app, forallb_app, K1, K2.
Qed.
#[local] Instance steps_preorder : PreOrder steps.
Proof.
  split; [intros h; exists (λ _, []); by apply quiet_same|]. intros h1 h2 h3 [E1 H1] [E2 H2]. eexists. by eapply ext_trans.
Qed.
Lemma same_static h h' : same h h' → static h h'.
Proof. intros H. by apply quiet_static, quiet_same. Qed.
Lemma push_static p mods h : static h (push p bump_querySet mods h).
Proof.
  eexists. split; [by apply (push_ext p bump_querySet mods h EvQuerySet)|]. intros p'. cbn. by destruct (decide (p' = p)).
Qed.
Lemma send_static p msg h : bracket_of msg = None → static h (sendf p msg h).
Proof. intros. by apply quiet_static, send_quiet. Qed.
Lemma update_static h p f : (∀ s, h_heap h !! p = Some s → session_ext s [] (f s)) → static h (update h p f).
Proof. intros. by apply quiet_static, update_quiet. Qed.
Lemma fold_static {A} (f : Handler Socket → A → Handler Socket) l h : (∀ h x, static h (f h x)) → static h (fold_left f l h).
Proof. intros Hf. revert h. induction l as [|x l IH]; intros h; [reflexivity|]. cbn. etrans; [apply Hf|apply IH]. Qed.

Lemma awaited_static qid call r m h : (∀ r, pure_hm (m r)) → static h (awaited errMessage qid call r m h).1.
Proof.
  intros Hm. apply same_static. unfold awaited, catching. destruct call, r as [r|]; cbn; try done; specialize (Hm r h); by destruct (m r h).
Qed.
Lemma catching_static qid m h : pure_hm m → static h (catching errMessage qid m h).1.
Proof. intros Hm. apply same_static. unfold catching. specialize (Hm h). by destruct (m h). Qed.

Lemma modify_finish_static p removes mods h : static h (modify_finish bufferedAmount socket_send opts p removes mods h).
Proof.
  unfold modify_finish. destruct (h_heap h !! p) as [s|]; [|reflexivity]. etrans; [|apply push_static]. apply fold_static. intros h0 qid.
  apply same_static. unfold remove_query. cbn. apply release_key_heap.
Qed.
Lemma resume_answer_static h s q h' m : resume_answer stringify errMessage h s q = Some (h', m) → static h h'.
Proof.
  unfold resume_answer. destruct (qr_sinceTs q); [|done]. destruct (resume_skip _ _ _); [|done]. intros [= E].
  assert (h' = (h', m).1) as -> by done. rewrite <-E. apply catching_static. hm_heap.
Qed.
Abbreviation modify := (modify_loop bufferedAmount socket_send stringify errMessage opts).
Lemma modify_loop_static p adds removes mods h : static h (modify p adds removes mods h).1.
Proof.
  revert mods h. induction adds as [|q adds IH]; intros mods h; cbn; [apply modify_finish_static|].
  destruct (h_heap h !! p) as [s|]; [|reflexivity]. destruct (resume_answer _ _ h s q) as [[h' m]|] eqn:E; [|reflexivity].
  etrans; [by eapply resume_answer_static|apply IH].
Qed.

(** ** Fan-out *)
Lemma diff_arm_static s sub inv h h' m : diff_arm errMessage s sub inv h = Some (h', m) → static h h'.
Proof.
  unfold diff_arm. destruct (supportsQueryDiff s); [|done]. destruct (wi_writtenDocs inv) as [docs|]; [|done].
  destruct (range sub) as [rr|]; [|destruct (byId sub) as [b|]; [|done]]; intros [= E];
    (assert (h' = (h', m).1) as -> by done); rewrite <-E; apply catching_static; [apply range_arm_heap|apply byId_arm_heap].
Qed.
Abbreviation transition := (transition_loop bufferedAmount socket_send errMessage opts).
Lemma push_steps p bumped mods h e : (∀ v, bumped v = bump v e) → steps h (push p bumped mods h).
Proof. intros. eexists. by apply push_ext. Qed.
Lemma push_fanout_steps p inv mods h : steps h (push_fanout bufferedAmount socket_send opts p inv mods h).
Proof. by apply push_steps with (e := EvFanout (wi_commitTs inv) (wi_global inv)). Qed.
Lemma transition_loop_steps f rest p subs mods h : steps h (transition f rest p subs mods h).1.
Proof.
  revert mods h. induction subs as [|sub subs IH]; intros mods h; cbn; [apply push_fanout_steps|].
  destruct (h_heap h !! p) as [s|]; [|reflexivity]. destruct (diff_arm _ s sub _ h) as [[h' m]|] eqn:E; [|reflexivity].
  etrans; [by eapply static_steps, diff_arm_static|apply IH].
Qed.
Lemma frontier_steps p ts h : steps h (emitEmptyFrontier bufferedAmount socket_send opts p ts h).
Proof. by apply push_steps with (e := EvFrontier ts). Qed.
Lemma same_steps h h' : same h h' → steps h h'.
Proof. intros. by apply static_steps, same_static. Qed.
Lemma fold_steps {A} (f : Handler Socket → A → Handler Socket) l h : (∀ h x, steps h (f h x)) → steps h (fold_left f l h).
Proof. intros Hf. revert h. induction l as [|x l IH]; intros h; [reflexivity|]. cbn. etrans; [apply Hf|apply IH]. Qed.
Lemma advance_steps f h : steps h (advanceOriginFrontier bufferedAmount socket_send opts f h).
Proof.
  unfold advanceOriginFrontier. repeat case_match; try reflexivity. etrans; [apply frontier_steps|by apply same_steps].
Qed.
Lemma fan_finish_steps f h : steps h (fan_finish bufferedAmount socket_send opts f h).1.
Proof.
  unfold fan_finish. cbn. destruct (wi_global _); [reflexivity|]. etrans; [apply advance_steps|]. apply fold_steps. intros h0 e.
  unfold sweep_one. case_match; [reflexivity|]. match goal with |- steps _ (with_frontiers ?x _) => transitivity x; [|by apply same_steps] end.
  repeat case_match; try reflexivity. apply frontier_steps.
Qed.
Abbreviation fanl := (fan_loop bufferedAmount socket_send errMessage opts).
Lemma fan_origin_steps f h : steps h (fan_origin bufferedAmount socket_send errMessage opts f h).1.
Proof.
  unfold fan_origin. destruct (fn_origin f) as [o|]; [|apply fan_finish_steps]. destruct (originIsDiffCapable f); [|apply fan_finish_steps].
  destruct (session_ref h o); [|reflexivity]. destruct (jm_get _ _) as [[g ?]|]; [reflexivity|]. apply transition_loop_steps.
Qed.
Lemma fan_loop_steps f rest h : steps h (fanl f rest h).1.
Proof.
  induction rest as [|[sid subs] rest IH]; cbn; [apply fan_origin_steps|]. case_match; [done|].
  destruct (session_ref h sid); [apply transition_loop_steps|done].
Qed.
Lemma notify_start_steps inv origin h : steps h (notify_start bufferedAmount socket_send errMessage opts inv origin h).1.
Proof.
  unfold notify_start. destruct (if wi_global inv then _ else _) as [g|]; [|reflexivity]. cbn.
  destruct (findAffectedByRanges _ _ _); [|by apply same_steps]. etrans; [|apply fan_loop_steps]. by apply same_steps.
Qed.

(** ** Tasks and messages *)
Lemma auth_next_static p subs mods h : static h (auth_next bufferedAmount socket_send opts p subs mods h).1.
Proof. unfold auth_next. destruct subs; cbn; [apply push_static|]. by destruct (h_heap h !! p). Qed.
Lemma fail_mutation_static p u message code committedTs h : static h (fail_mutation bufferedAmount socket_send opts p u message code committedTs h).
Proof. unfold fail_mutation. etrans; [|by apply send_static]. by destruct committedTs; apply same_static. Qed.
Lemma mutation_returned_static p u batch r h : static h (mutation_returned bufferedAmount socket_send errMessage opts p u batch r h).1.
Proof.
  unfold mutation_returned. destruct r as [v tabs ranges c fwd|r|e message c]; cbv zeta.
  - destruct (encode_result v) as [j|e]; [|apply fail_mutation_static].
    match goal with |- context [releaseOriginResponseGate c ?x] => set (h1 := x) end.
    assert (H1 : static h h1) by by apply send_static. cbn. destruct (h_heap h1 !! p) as [s|]; cbn.
    2:{ etrans; [exact H1|by apply same_static]. }
    etrans; [exact H1|]. set (h2 := if fwd && (0 <? c) then _ else _). assert (H2 : same h1 h2).
    { subst h2. case_match; [|done]. unfold note_frontier. by repeat case_match. }
    etrans; [by apply same_static|]. destruct (autoNotifyOnMutation opts) eqn:Ha; [|reflexivity].
    apply quiet_static. by apply (quiet_jobs _ _ [(h_next h2, JNotify {| wi_tables := tabs; wi_ranges := ranges; wi_commitTs := c; wi_writtenDocs := None; wi_global := false |} (Some (se_sessionId s)))]);
      [done|done|done|constructor].
  - destruct (replay_reply r); [by apply send_static|apply fail_mutation_static].
  - destruct (isRetryableError e); apply fail_mutation_static.
Qed.
Lemma connect_next_static p pr held acked results rec h : static h (connect_next bufferedAmount socket_send opts p pr held acked results rec h).1.
Proof. unfold connect_next. destruct held, acked, (ho_deploymentId opts); cbn; try reflexivity. by apply send_static. Qed.
Lemma run_task_static t r h h' t' :
  run_task bufferedAmount socket_send hashValue stringify errMessage opts t r h = Some (h', t') → static h h'.
Proof.
  intros E. assert (E' : h' = (h', t').1) by done. revert E E'. generalize (h', t'). intros [h2 t2] E. cbn. intros ->.
  destruct t, r; cbn in E; try done; repeat case_match; try done; simplify_eq;
    repeat match goal with
    | H : awaited _ _ _ _ _ _ = (?a, ?b) |- _ => apply (f_equal fst) in H; cbn in H
    | H : auth_next _ _ _ _ _ _ _ = _ |- _ => apply (f_equal fst) in H; cbn in H
    | H : mutation_returned _ _ _ _ _ _ _ _ _ = _ |- _ => apply (f_equal fst) in H; cbn in H
    | H : connect_next _ _ _ _ _ _ _ _ _ _ = _ |- _ => apply (f_equal fst) in H; cbn in H
    end; subst; try reflexivity; try apply connect_next_static; try apply mutation_returned_static; try apply fail_mutation_static; try by apply send_static.
  etrans; [|apply auth_next_static]. apply awaited_static. intros r1. apply reauthenticated_heap.
Qed.
Lemma step_task_static i r h : static h (step_task bufferedAmount socket_send hashValue stringify errMessage opts i r h).
Proof.
  unfold step_task. destruct (jm_get (h_tasks h) i) as [t|]; [|reflexivity]. destruct (run_task _ _ _ _ _ _ t r h) as [[h' t']|] eqn:E; [|reflexivity].
  etrans; [by eapply run_task_static|]. by apply same_static.
Qed.
Lemma start_static x h : static h x.1 → static h (begin_task x).
Proof. intros H. etrans; [exact H|]. unfold begin_task. destruct x as [h' [t|]]; by apply same_static. Qed.
Lemma publish_static topic event from h : static h (publishEphemeral bufferedAmount socket_send opts topic event from h).
Proof. apply fold_static. intros h0 e. case_match; [reflexivity|]. by apply send_static. Qed.
Lemma handleMessage_static sid m h : static h (handleMessage bufferedAmount socket_send verifyAdmin opts sid m h).
Proof.
  unfold handleMessage. destruct (session_ref h sid) as [p|]; [|reflexivity]. destruct (session_of h sid) as [s|]; [|reflexivity].
  set (h1 := update h p _). assert (H1 : static h h1) by (apply update_static; intros; apply hb_ext).
  etrans; [exact H1|]. clearbody h1. clear H1. destruct m.
  - unfold handleConnect. set (h2 := update h1 p _). assert (H2 : static h1 h2) by (apply update_static; intros; apply access_ext).
    clearbody h2. etrans; [exact H2|]. repeat case_match; try reflexivity; apply start_static, connect_next_static.
  - apply quiet_static. by apply (quiet_jobs _ _ [(h_next h1, JModify p add remove)]); [done|done|done|constructor].
  - by apply start_static.
  - by apply start_static.
  - by apply same_static.
  - apply publish_static.
  - unfold handleSetAuth. set (h2 := update h1 p _). assert (H2 : static h1 h2) by (apply update_static; intros; apply access_ext).
    clearbody h2. etrans; [exact H2|]. cbv zeta. destruct (h_heap h2 !! p); [|reflexivity]. apply start_static, auth_next_static.
  - apply update_static; intros; apply access_ext.
Qed.
Lemma flush_sweep_static h : static h (flush_sweep bufferedAmount socket_send opts h).
Proof.
  unfold flush_sweep. destruct (disableBackgroundTimers opts); [reflexivity|]. cbv zeta.
  match goal with |- static _ (with_registry ?x _) => transitivity x; [|by apply same_static] end. apply fold_static. intros h0 [sid p].
  apply update_static. intros s _. by apply (bp_ext s (BpFlush (h_now h0))).
Qed.
Lemma beat_static p h : static h (beat opts p h).
Proof.
  unfold beat. destruct (h_heap h !! p) as [s|]; [|reflexivity]. set (h1 := update h p _).
  assert (H1 : static h h1) by (apply update_static; intros; apply hb_ext). clearbody h1. case_match; [|exact H1].
  etrans; [exact H1|]. apply quiet_static, reap_quiet.
Qed.

Abbreviation runj := (run_job bufferedAmount socket_send hashValue stringify errMessage opts).
Lemma run_job_steps j r h h' x : runj j r h = Some (h', x) → steps h h'.
Proof.
  intros E. assert (E' : h' = (h', x).1) by done. revert E'. destruct j; cbn in E.
  - injection E as E. rewrite <-E. intros ->. apply static_steps, modify_loop_static.
  - destruct (awaited _ _ _ _ _ _) as [h1 m] eqn:Ea. injection E as E. rewrite <-E. intros ->. apply (f_equal fst) in Ea. cbn in Ea. subst h1.
    apply static_steps. etrans; [|apply modify_loop_static]. apply awaited_static. intros. apply subscribed_heap.
  - injection E as E. rewrite <-E. intros ->. apply notify_start_steps.
  - destruct (awaited _ _ _ _ _ _) as [h1 m] eqn:Ea. injection E as E. rewrite <-E. intros ->. apply (f_equal fst) in Ea. cbn in Ea. subst h1.
    etrans; [|apply transition_loop_steps]. apply static_steps, awaited_static. intros. apply rerun_heap.
  - destruct rest as [rest|]; injection E as E; rewrite <-E; intros ->; [apply fan_loop_steps|apply fan_finish_steps].
  - destruct (bool_decide _); [done|]. injection E as E. rewrite <-E. intros ->. apply transition_loop_steps.
Qed.
Abbreviation stail := (step_tail bufferedAmount socket_send hashValue stringify errMessage opts).
Lemma step_tail_cases r h : stail r h = h ∨
  ∃ i j t h' x, notifyTail h = (i, j) :: t ∧ runj j r h = Some (h', x) ∧ h_heap (stail r h) = h_heap h' ∧ sessions (stail r h) = sessions h' ∧
    notifyTail (stail r h) = match x with inl j' => (i, j') :: drop 1 (notifyTail h') | inr _ => drop 1 (notifyTail h') end.
Proof.
  unfold step_tail. destruct (notifyTail h) as [|[i j] t] eqn:Et; [by left|]. destruct (runj j r h) as [[h' x]|] eqn:E; [|by left].
  right. exists i, j, t, h', x. destruct (run_job_steps _ _ _ _ _ E) as (Ev & [_ _ (new & T & _) _]). rewrite Et in T. destruct x as [j'|x].
  - split_and!; try done. cbn. by rewrite T.
  - by split_and!.
Qed.

(** ** Every session's frames are the brackets of some events, in every interleaving *)
Definition session_history (strict : bool) s : Prop := ∃ sk ops evs,
  se_bp s = bp_run bufferedAmount socket_send (ho_backpressure opts) sk ops ∧ offered ops = frame <$> se_offered s ∧
  omap bracket_of (se_offered s) = session_run INITIAL_VERSION evs ∧ se_version s = run_end INITIAL_VERSION evs ∧
  (strict = true → all_forward INITIAL_VERSION evs = true).

Lemma session_history_ext strict s E s' : session_history strict s → session_ext s E s' →
  (strict = true → all_forward (se_version s) E = true) → session_history strict s'.
Proof.
  intros (sk & ops & evs & A1 & A2 & A3 & A4 & A5) [B1 B2 (new & ops' & B3 & B4 & B5 & B6)] HE. exists sk, (ops ++ ops'), (evs ++ E). split_and!.
  - rewrite B5, A1. unfold bp_run. by rewrite fold_left_app.
  - unfold offered in *. by rewrite omap_app, A2, B6, B3, fmap_app.
  - by rewrite B3, omap_app, A3, B4, session_run_app, A4.
  - by rewrite B2, A4, run_end_app.
  - intros Hs. by rewrite all_forward_app, A5, <-A4, HE.
Qed.
Lemma steps_history h h' : steps h h' → (∀ p s, h_heap h !! p = Some s → session_history false s) →
  ∀ p s, h_heap h' !! p = Some s → session_history false s.
Proof.
  intros (E & [L _ _ H]) Hh p s' Hs'. assert (Hp : is_Some (h_heap h !! p)).
  { apply lookup_lt_is_Some. rewrite <-L. by eapply lookup_lt_Some. }
  destruct Hp as [s Hs]. destruct (H p s Hs) as (s2 & Hs2 & X). assert (s2 = s') as -> by congruence. by eapply session_history_ext; [apply (Hh p)| |].
Qed.
Lemma new_history strict sid sk hb : session_history strict
  {| se_sessionId := sid; se_version := INITIAL_VERSION; se_identity := None; se_privileged := false; supportsQueryDiff := false;
     se_bp := new_Controller sk; se_hb := hb; se_closed := false; se_offered := [] |}.
Proof. exists sk, [], []. done. Qed.

Abbreviation step := (hstep bufferedAmount socket_send canPing hashValue stringify errMessage verifyAdmin opts).
Abbreviation run := (hrun bufferedAmount socket_send canPing hashValue stringify errMessage verifyAdmin opts).
(** Every event but a connect, a step of the queue, and a direct notification. *)
Lemma hstep_static h ev : match ev with HConnect _ _ | HTail _ | HNotify _ _ => True | _ => static h (step h ev) end.
Proof.
  destruct ev as [now|p sk|sid sk|sid|sid m|inv o|ts o|r|i r|t e f| |p|p]; cbn; try done.
  - by apply same_static.
  - apply update_static. intros s _. by apply (bp_ext s (BpSocket sk)).
  - apply quiet_static, disconnect_quiet.
  - apply handleMessage_static.
  - apply same_static. unfold registerOriginResponseGate. by repeat case_match.
  - apply step_task_static.
  - apply publish_static.
  - apply flush_sweep_static.
  - apply update_static. intros. apply hb_ext.
  - apply beat_static.
Qed.
Lemma hstep_history h ev : (∀ p s, h_heap h !! p = Some s → session_history false s) →
  ∀ p s, h_heap (step h ev) !! p = Some s → session_history false s.
Proof.
  intros Hh p s. pose proof (hstep_static h ev) as Hst.
  destruct ev as [now|q sk|sid sk|sid|sid m|inv o|ts o|r|i r|t e f| |q|q]; try (by apply (steps_history h); [apply static_steps, Hst|]).
  - cbn. rewrite lookup_app_Some. intros [Hs|[_ Hs]]; [by eapply Hh|]. apply list_lookup_singleton_Some in Hs as [_ <-]. apply new_history.
  - cbn. apply Hh.
  - cbn. destruct (step_tail_cases r h) as [->|(i & j & t & h' & x & _ & E & -> & _)]; [by apply Hh|].
    by eapply steps_history; [eapply run_job_steps|].
Qed.
Lemma hrun_history evs p s : h_heap (run evs) !! p = Some s → session_history false s.
Proof.
  assert (H : ∀ h, (∀ p s, h_heap h !! p = Some s → session_history false s) → ∀ p s, h_heap (fold_left step evs h) !! p = Some s → session_history false s).
  { induction evs as [|ev evs IH]; intros h Hh; [done|]. cbn. apply IH. by apply hstep_history. }
  by apply H.
Qed.

(** ** Local commits fanned out in order: no bracket moves its version back *)
Definition ts_of s : Z := v_ts (se_version s).

Record good (L : Z) h : Prop := {
  go_refs : ∀ sid p, (sid, p) ∈ sessions h → ∃ s, h_heap h !! p = Some s ∧ se_sessionId s = sid;
  go_history : ∀ p s, h_heap h !! p = Some s → session_history true s;
  go_capped : ∀ p s, h_heap h !! p = Some s → ts_of s ≤ L }.

Definition below h (L : Z) (sids : list jsstr) : Prop := ∀ p s, h_heap h !! p = Some s → se_sessionId s ∈ sids → ts_of s < L.

(** The sessions a fan-out has still to reach: the origin comes last when it waits for its gate. *)
Definition own_turn (f : Fan) (sid : jsstr) : bool := originIsDiffCapable f && bool_decide (Some sid = fn_origin f).
Definition todo (f : Fan) (rest : option (list (jsstr * list Subscription))) : list jsstr :=
  match rest with
  | None => []
  | Some rest => filter (λ sid, own_turn f sid = false) rest.*1 ++ (if originIsDiffCapable f then option_list (fn_origin f) else [])
  end.
Definition fan_ok (L : Z) (f : Fan) : Prop := wi_global (fn_inv f) = false ∧ wi_commitTs (fn_inv f) = L ∧ 0 < L.
Definition ahead (L : Z) h (p : nat) (sids : list jsstr) : Prop := ∃ s, h_heap h !! p = Some s ∧ ts_of s < L ∧ se_sessionId s ∉ sids.
Definition job_ok (L : Z) h (j : Job) : Prop :=
  match j with
  | JModify _ _ _ | JModifyWait _ _ _ _ _ _ => True
  | JNotify _ _ => True
  | JNotifyWait f rest p _ _ _ _ =>
      wi_global (fn_inv f) = true ∨ fan_ok L f ∧ NoDup (todo f rest) ∧ below h L (todo f rest) ∧ ahead L h p (todo f rest)
  | JNotifyNext f rest => wi_global (fn_inv f) = true ∨ fan_ok L f ∧ NoDup (todo f rest) ∧ below h L (todo f rest)
  | JNotifyGate f _ p _ => wi_global (fn_inv f) = true ∨ fan_ok L f ∧ ahead L h p []
  end.

Lemma ext_back h E h' p s' : ext h E h' → h_heap h' !! p = Some s' → ∃ s, h_heap h !! p = Some s ∧ session_ext s (E p) s'.
Proof.
  intros [L _ _ H] Hs'. assert (Hp : is_Some (h_heap h !! p)).
  { apply lookup_lt_is_Some. rewrite <-L. by eapply lookup_lt_Some. }
  destruct Hp as [s Hs]. exists s. destruct (H p s Hs) as (s2 & Hs2 & X). split; [done|]. by assert (s2 = s') as -> by congruence.
Qed.
Lemma ext_good L h E h' : good L h → ext h E h' →
  (∀ p s, h_heap h !! p = Some s → all_forward (se_version s) (E p) = true ∧ v_ts (run_end (se_version s) (E p)) ≤ L) → good L h'.
Proof.
  intros [G1 G2 G3] X HE. split.
  - intros sid p Hp. destruct (G1 sid p) as (s & Hs & Hid); [by apply (ex_refs _ _ _ X)|].
    destruct (ex_sessions _ _ _ X p s Hs) as (s' & Hs' & [I1 _ _]). exists s'. by rewrite I1.
  - intros p s' Hs'. destruct (ext_back _ _ _ _ _ X Hs') as (s & Hs & Y). eapply session_history_ext; [by eapply G2|exact Y|]. intros _. by eapply HE.
  - intros p s' Hs'. destruct (ext_back _ _ _ _ _ X Hs') as (s & Hs & [_ I2 _]). unfold ts_of. rewrite I2. by eapply HE.
Qed.
Lemma keeps_ts_forward v (E : events) : forallb keeps_ts E.*1 = true → all_forward v E = true ∧ v_ts (run_end v E) = v_ts v.
Proof.
  revert v. induction E as [|[e m] E IH]; intros v; cbn; [done|]. intros [He HE]%andb_true_iff. destruct (IH (bump v e) HE) as [I1 I2].
  unfold run_end in *. cbn in *. rewrite I1, I2. by destruct e as [| |c []|].
Qed.
(** Everything but the order of events is kept by a static step. *)
Lemma static_back h h' p s' : static h h' → h_heap h' !! p = Some s' → ∃ s, h_heap h !! p = Some s ∧ se_sessionId s' = se_sessionId s ∧ ts_of s' = ts_of s.
Proof.
  intros (E & X & K) Hs'. destruct (ext_back _ _ _ _ _ X Hs') as (s & Hs & [I1 I2 _]). exists s. split_and!; [done..|].
  unfold ts_of. rewrite I2. by apply keeps_ts_forward.
Qed.
Lemma static_good L h h' : good L h → static h h' → good L h'.
Proof.
  intros G (E & X & K). eapply ext_good; [done|exact X|]. intros p s Hs. destruct (keeps_ts_forward (se_version s) (E p) (K p)) as [I1 I2].
  split; [done|]. rewrite I2. by apply (go_capped _ _ G p).
Qed.
Lemma static_below L h h' sids : static h h' → below h L sids → below h' L sids.
Proof. intros X Hb p s' Hs' Hid. destruct (static_back _ _ _ _ X Hs') as (s & Hs & E1 & E2). rewrite E2. apply (Hb p s Hs). by rewrite <-E1. Qed.
Lemma static_ahead L h h' p sids : static h h' → ahead L h p sids → ahead L h' p sids.
Proof.
  intros (E & X & K) (s & Hs & H1 & H2). destruct (ex_sessions _ _ _ X p s Hs) as (s' & Hs' & [I1 I2 _]). exists s'. split; [done|].
  unfold ts_of. rewrite I1, I2, (proj2 (keeps_ts_forward _ _ (K p))). done.
Qed.
Lemma static_job_ok L h h' j : static h h' → job_ok L h j → job_ok L h' j.
Proof. intros X. destruct j; cbn; intuition eauto using static_below, static_ahead. Qed.

(** Moving one session's timestamp up. *)
Lemma push_good L h p bumped mods e c : (∀ v, bumped v = bump v e) → e = EvFanout c false ∨ e = EvFrontier c → c ≤ L → good L h →
  (∀ s, h_heap h !! p = Some s → ts_of s < c) →
  good L (push p bumped mods h) ∧
  ∀ sids, (∀ s, h_heap h !! p = Some s → se_sessionId s ∉ sids) → below h L sids → below (push p bumped mods h) L sids.
Proof.
  intros He Hc HL G Hlt. pose proof (push_ext p bumped mods h e He) as X. split.
  - eapply ext_good; [done|exact X|]. intros p' s Hs. cbn. destruct (decide (p' = p)) as [->|].
    + specialize (Hlt s Hs). unfold ts_of in Hlt. destruct Hc as [->| ->]; cbn; (split; [|done]); rewrite andb_true_r; by apply Z.ltb_lt.
    + split; [done|]. by apply (go_capped _ _ G p').
  - intros sids Hn Hb p' s' Hs' Hid. destruct (ext_back _ _ _ _ _ X Hs') as (s & Hs & [I1 I2 _]). rewrite I1 in Hid.
    destruct (decide (p' = p)) as [->|]; [by destruct (Hn s Hs)|]. unfold ts_of. rewrite I2. by apply (Hb p' s).
Qed.

Definition suspended (j : Job) : Prop := match j with JModify _ _ _ | JNotify _ _ => False | _ => True end.
Definition outcome_good (L : Z) (x : Handler Socket * (Job + res unit)) : Prop :=
  good L x.1 ∧ match x.2 with inl j => suspended j ∧ job_ok L x.1 j | inr _ => True end.

(** *** The fan-out of a global invalidation *)
Definition job_global (j : Job) : Prop :=
  match j with
  | JNotifyWait f _ _ _ _ _ _ | JNotifyNext f _ | JNotifyGate f _ _ _ => wi_global (fn_inv f) = true
  | _ => False
  end.
Definition outcome_global h (x : Handler Socket * (Job + res unit)) : Prop :=
  static h x.1 ∧ match x.2 with inl j => job_global j | inr _ => True end.
Lemma outcome_global_good L h x : good L h → outcome_global h x → outcome_good L x.
Proof. intros G [S Hj]. split; [by eapply static_good|]. destruct x.2 as [j|]; [|done]. destruct j; try done; split; try done; by left. Qed.
Lemma outcome_global_l h h' x : static h h' → outcome_global h' x → outcome_global h x.
Proof. intros S [S' Hj]. split; [by etrans|done]. Qed.
Section global.
Context (f : Fan) (Hf : wi_global (fn_inv f) = true).
Lemma transition_loop_global rest p subs mods h : outcome_global h (transition f rest p subs mods h).
Proof using Hf.
  revert mods h. induction subs as [|sub subs IH]; intros mods h; cbn.
  - split; [|done]. eexists. split; [by apply (push_ext p _ mods h (EvFanout (wi_commitTs (fn_inv f)) (wi_global (fn_inv f))))|].
    intros p'. cbn. case_decide; [|done]. cbn. by rewrite Hf.
  - destruct (h_heap h !! p) as [s|]; [|by split]. destruct (diff_arm _ s sub _ h) as [[h' m]|] eqn:E; [|by split].
    apply diff_arm_static in E. by eapply outcome_global_l.
Qed.
Lemma fan_finish_global h : outcome_global h (fan_finish bufferedAmount socket_send opts f h).
Proof using Hf. unfold fan_finish. by rewrite Hf. Qed.
Lemma fan_origin_global h : outcome_global h (fan_origin bufferedAmount socket_send errMessage opts f h).
Proof using Hf.
  unfold fan_origin. destruct (fn_origin f) as [o|]; [|apply fan_finish_global]. destruct (originIsDiffCapable f); [|apply fan_finish_global].
  destruct (session_ref h o); [|by split]. destruct (jm_get _ _) as [[g ?]|]; [by split|apply transition_loop_global].
Qed.
Lemma fan_loop_global rest h : outcome_global h (fanl f rest h).
Proof using Hf.
  induction rest as [|[sid subs] rest IH]; cbn; [apply fan_origin_global|]. case_match; [done|].
  destruct (session_ref h sid); [apply transition_loop_global|done].
Qed.
End global.
Lemma notify_start_global L inv origin h : wi_global inv = true → good L h →
  outcome_good L (notify_start bufferedAmount socket_send errMessage opts inv origin h).
Proof.
  intros Hg G. apply (outcome_global_good L h); [done|]. unfold notify_start. rewrite Hg. cbv zeta.
  set (h1 := with_registry h _). assert (S1 : static h h1) by by apply same_static.
  destruct (findAffectedByRanges _ _ _); [|by split]. eapply outcome_global_l; [exact S1|]. by apply fan_loop_global.
Qed.

(** *** The fan-out of a local commit *)
Lemma transition_loop_good L f rest p subs mods h : fan_ok L f → good L h → NoDup (todo f rest) → below h L (todo f rest) → ahead L h p (todo f rest) →
  outcome_good L (transition f rest p subs mods h).
Proof.
  intros Hf. revert mods h. induction subs as [|sub subs IH]; intros mods h G Hn Hb Ha; cbn.
  - destruct Hf as (F1 & F2 & F3) eqn:Ef. clear Ef. destruct Ha as (s & Hs & H1 & H2). unfold push_fanout.
    destruct (push_good L h p (λ v, {| querySet := querySet v; v_ts := if wi_global (fn_inv f) then v_ts v else wi_commitTs (fn_inv f) |}) mods (EvFanout L false) L) as [G' B'].
    + intros v. cbn. by rewrite F1, F2.
    + by left.
    + done.
    + done.
    + intros s' Hs'. by assert (s' = s) as -> by congruence.
    + split; [exact G'|]. cbn. split; [done|]. right. split_and!; [done..|]. apply B'; [|done]. intros s' Hs'. by assert (s' = s) as -> by congruence.
  - pose proof Ha as (s & Hs & H1 & H2). rewrite Hs. destruct (diff_arm _ s sub _ h) as [[h' m]|] eqn:E; [|split; [done|]; split; [done|by right]].
    apply diff_arm_static in E. apply IH; [by eapply static_good|done|by eapply static_below|by eapply static_ahead].
Qed.

(** An empty frontier, up to the commit being drained. *)
Lemma frontier_good L c p h : c ≤ L → good L h → (∀ s, h_heap h !! p = Some s → ts_of s < c) →
  good L (emitEmptyFrontier bufferedAmount socket_send opts p c h).
Proof. intros. unfold emitEmptyFrontier. by eapply (push_good L h p _ _ (EvFrontier c) c); [|right| | |]. Qed.
Lemma session_of_ref h o p s : session_ref h o = Some p → session_of h o = Some s → h_heap h !! p = Some s.
Proof. unfold session_of. by intros ->. Qed.
Lemma fan_finish_good L f h : fan_ok L f → good L h → outcome_good L (fan_finish bufferedAmount socket_send opts f h).
Proof.
  intros (F1 & F2 & F3) G. unfold fan_finish. rewrite F1. split; [|done]. cbn.
  set (h1 := advanceOriginFrontier _ _ _ f h). assert (G1 : good L h1).
  { subst h1. unfold advanceOriginFrontier. repeat case_match; try done.
    match goal with |- good L (with_frontiers ?x _) => apply (static_good L x); [|by apply same_static] end.
    apply frontier_good; [lia|done|]. intros s' Hs'. unfold ts_of. erewrite session_of_ref in Hs' by done. simplify_eq. by apply Z.leb_gt. }
  clearbody h1. unfold sweepPendingFrontiers. generalize (pendingFrontiers h1). intros l. revert h1 G1. induction l as [|e l IH]; intros h1 G1; [done|].
  cbn. apply IH. unfold sweep_one. destruct (Z.ltb_spec (wi_commitTs (fn_inv f)) e.2); [done|].
  match goal with |- good L (with_frontiers ?x _) => assert (G2 : good L x) end.
  { repeat case_match; try done. apply frontier_good; [lia|done|]. intros s' Hs'. erewrite session_of_ref in Hs' by done. simplify_eq.
    match goal with H : _ && _ = true |- _ => by apply andb_true_iff in H as [?%Z.ltb_lt _] end. }
  eapply static_good; [exact G2|by apply same_static].
Qed.

Lemma todo_cons f sid subs rest : own_turn f sid = false → todo f (Some ((sid, subs) :: rest)) = sid :: todo f (Some rest).
Proof. intros H. unfold todo. change (((sid, subs) :: rest).*1) with (sid :: rest.*1). by rewrite filter_cons_True. Qed.
Lemma todo_own f sid subs rest : own_turn f sid = true → todo f (Some ((sid, subs) :: rest)) = todo f (Some rest).
Proof. intros H. unfold todo. change (((sid, subs) :: rest).*1) with (sid :: rest.*1). rewrite filter_cons_False; [done|]. by rewrite H. Qed.
Lemma ref_ahead L h sid p sids : good L h → session_ref h sid = Some p → below h L [sid] → sid ∉ sids → ahead L h p sids.
Proof.
  intros G Hp%jm_get_in Hb Hn. destruct (go_refs _ _ G sid p Hp) as (s & Hs & Hid). exists s. split_and!; [done| |by rewrite Hid].
  apply (Hb p s Hs). rewrite Hid. by left.
Qed.
Lemma below_sub L h sids sids' : sids' ⊆ sids → below h L sids → below h L sids'.
Proof. intros Hs Hb p s Hp Hid. by eapply Hb, Hs. Qed.

Lemma fan_origin_good L f h : fan_ok L f → good L h → below h L (todo f (Some [])) → outcome_good L (fan_origin bufferedAmount socket_send errMessage opts f h).
Proof.
  intros Hf G Hb. unfold fan_origin. destruct (fn_origin f) as [o|] eqn:Eo; [|by apply fan_finish_good].
  destruct (originIsDiffCapable f) eqn:Eg; [|by apply fan_finish_good]. destruct (session_ref h o) as [p|] eqn:Ep; [|by split].
  assert (Ha : ahead L h p []).
  { apply (ref_ahead L h o p []); [done..| |by apply not_elem_of_nil]. unfold todo in Hb. by rewrite Eg, Eo in Hb. }
  destruct (jm_get _ _) as [[g ?]|]; [split; [done|]; split; [done|by right]|]. apply transition_loop_good; [done|done|apply NoDup_nil_2| |done]. by intros ? ? _ ?%elem_of_nil.
Qed.
Lemma fan_loop_good L f rest h : fan_ok L f → good L h → NoDup (todo f (Some rest)) → below h L (todo f (Some rest)) → outcome_good L (fanl f rest h).
Proof.
  intros Hf G. induction rest as [|[sid subs] rest IH]; intros Hn Hb; cbn; [by apply fan_origin_good|].
  change (originIsDiffCapable f && bool_decide (Some sid = fn_origin f)) with (own_turn f sid). destruct (own_turn f sid) eqn:Et.
  { rewrite todo_own in Hn, Hb by done. by apply IH. }
  rewrite todo_cons in Hn, Hb by done. apply NoDup_cons in Hn as [Hn1 Hn].
  assert (Hb' : below h L (todo f (Some rest))) by (eapply below_sub; [|exact Hb]; set_solver).
  destruct (session_ref h sid) as [p|] eqn:Ep; [|by apply IH]. apply transition_loop_good; try done.
  eapply ref_ahead; [done|done| |done]. eapply below_sub; [|exact Hb]. set_solver.
Qed.

Lemma group_ok affected origin m : jm_ok m → jm_ok (fold_left (λ m sub, if excludeOriginFromTransition opts && bool_decide (Some (sessionId sub) = origin) then m else group_add m sub) affected m).
Proof.
  revert m. induction affected as [|sub l IH]; intros m Hm; [done|]. cbn. apply IH. case_match; [done|]. by apply jm_set_ok.
Qed.
Lemma notify_start_good L inv origin h : wi_global inv = false → L < wi_commitTs inv → 0 ≤ L → good L h →
  outcome_good (wi_commitTs inv) (notify_start bufferedAmount socket_send errMessage opts inv origin h).
Proof.
  intros Hg Hc HL [G1 G2 G3]. set (c := wi_commitTs inv) in *.
  assert (G : good c h) by (split; [done..|]; intros p s Hs; specialize (G3 p s Hs); lia).
  assert (Hlt : ∀ sids, below h c sids) by (intros sids p s Hs _; specialize (G3 p s Hs); lia).
  unfold notify_start. rewrite Hg. destruct (advanceOnCommit _ _ _ _) as [g|]; [|by split].
  destruct (findAffectedByRanges _ _ _); cbn [resumeRegistry with_registry subscriptions].
  2:{ split; [|done]. eapply static_good; [exact G|by apply same_static]. }
  set (h1 := with_registry h _). assert (S1 : static h h1) by by apply same_static.
  apply fan_loop_good.
  - split; [done|]. split; [done|]. cbn. subst c. lia.
  - by eapply static_good.
  - unfold todo. cbn. apply NoDup_app. split_and!.
    + apply NoDup_filter. apply (group_ok a origin []). constructor.
    + intros sid [H1 _]%list_elem_of_filter. unfold own_turn in H1. cbn in H1. destruct (origin_diff_capable h1 _ origin); [|by intros ?%elem_of_nil].
      destruct origin as [o|]; cbn; [|by intros ?%elem_of_nil]. rewrite list_elem_of_singleton. intros ->. by rewrite bool_decide_true in H1.
    + case_match; [|constructor]. destruct origin; cbn; [apply NoDup_singleton|constructor].
  - eapply static_below; [exact S1|]. apply Hlt.
Qed.

Definition waiting (e : nat * Job) : Prop :=
  match e.2 with JModify _ _ _ | JNotify _ _ => True | _ => False end.
(** The local commits waiting for their fan-out, and the last one begun once a job has run. *)
Definition pending (e : nat * Job) : option Z :=
  match e.2 with JNotify inv _ => if wi_global inv then None else Some (wi_commitTs inv) | _ => None end.
Definition begun (L : Z) (j : Job) : Z := default L (pending (0%nat, j)).
Definition head_ok (L : Z) h (t : list (nat * Job)) : Prop := match t with [] => True | e :: t' => job_ok L h e.2 ∧ Forall waiting t' end.
(** The jobs behind the head have not started; their commits come in order, after the one being drained. *)
Record tail_ok (L H : Z) h (t : list (nat * Job)) : Prop := {
  to_head : head_ok L h t;
  to_sorted : StronglySorted Z.lt (L :: omap pending t);
  to_max : Forall (λ c, c ≤ H) (omap pending t) }.
Definition ordered (H : Z) h : Prop := ∃ L, 0 ≤ L ≤ H ∧ good L h ∧ tail_ok L H h (notifyTail h).

Lemma waiting_job_ok L h e : waiting e → job_ok L h e.2.
Proof. unfold waiting. by destruct e as [i []]. Qed.
Lemma head_ok_app L h t new : head_ok L h t → Forall waiting new → head_ok L h (t ++ new).
Proof.
  destruct t as [|e t]; cbn; intros H Hn; [|destruct H as [H1 H2]; split; [done|by apply Forall_app]].
  destruct new as [|e new]; cbn; [done|]. apply Forall_cons in Hn as [Hw Hn]. split; [by apply waiting_job_ok|done].
Qed.
Lemma fresh_waiting new : autoNotifyOnMutation opts = false → Forall fresh_job new → Forall waiting new ∧ omap pending new = [].
Proof.
  intros Ha. induction 1 as [|[i j] new Hj _ [IH1 IH2]]; [done|]. unfold fresh_job in Hj. destruct j; cbn in Hj; try done; [|congruence].
  split; [by constructor|]. cbn. exact IH2.
Qed.
Lemma static_ordered H h h' : autoNotifyOnMutation opts = false → ordered H h → static h h' → ordered H h'.
Proof.
  intros Ha (L & HL & G & [T1 T2 T3]) S. exists L. split; [done|]. split; [by eapply static_good|]. pose proof S as (E & [_ _ (new & Hn & Hf) _] & _).
  destruct (fresh_waiting new Ha Hf) as [W1 W2]. rewrite Hn. split.
  - apply head_ok_app; [|done]. destruct (notifyTail h) as [|e t]; [done|]. destruct T1 as [T1 T1']. split; [by eapply static_job_ok|done].
  - by rewrite omap_app, W2, app_nil_r.
  - by rewrite omap_app, W2, app_nil_r.
Qed.

Lemma modify_loop_good L p adds removes mods h : good L h → outcome_good L (modify p adds removes mods h).
Proof.
  intros G. split; [by eapply static_good, modify_loop_static|]. generalize ((modify p adds removes mods h).1) as h0. intros h0. clear G.
  revert mods h. induction adds as [|q adds IH]; intros mods h; cbn; [done|].
  destruct (h_heap h !! p); [|done]. destruct (resume_answer _ _ h _ q) as [[h1 m]|]; [|done]. apply IH.
Qed.
Lemma run_job_good L j r h h' x : job_ok L h j → good L h → 0 ≤ L → runj j r h = Some (h', x) →
  (∀ c, pending (0%nat, j) = Some c → L < c) → outcome_good (begun L j) (h', x).
Proof.
  intros Hj G HL E. destruct j; cbn [runj run_job] in E.
  - injection E as E. intros _. rewrite <-E. by apply modify_loop_good.
  - destruct (awaited _ _ _ _ _ _) as [h1 m] eqn:Ea. injection E as E. intros _. rewrite <-E. apply (f_equal fst) in Ea. cbn in Ea.
    apply modify_loop_good. eapply static_good; [exact G|]. rewrite <-Ea. apply awaited_static. intros. apply subscribed_heap.
  - injection E as E. intros Hc. rewrite <-E. unfold begun, pending in *. cbn [snd] in *.
    destruct (wi_global inv) eqn:Hg; [by apply notify_start_global|]. by apply (notify_start_good L); [|apply Hc|..].
  - destruct (awaited _ _ _ _ _ _) as [h1 m] eqn:Ea. injection E as E. intros _. rewrite <-E. apply (f_equal fst) in Ea. cbn in Ea.
    assert (S : static h h1) by (rewrite <-Ea; apply awaited_static; intros; apply rerun_heap). destruct Hj as [Hj|(J1 & J2 & J3 & J4)].
    { eapply outcome_global_good, transition_loop_global; [by eapply static_good|done]. }
    apply transition_loop_good; [done|by eapply static_good|done|by eapply static_below|by eapply static_ahead].
  - destruct Hj as [Hj|(J1 & J2 & J3)].
    { intros _. apply (outcome_global_good L h); [done|].
      destruct rest as [rest|]; apply (inj Some) in E; rewrite <-E; [by apply fan_loop_global|by apply fan_finish_global]. }
    destruct rest as [rest|]; apply (inj Some) in E; intros _; rewrite <-E; [by apply fan_loop_good|by apply fan_finish_good].
  - destruct (bool_decide _); [done|]. injection E as E. intros _. rewrite <-E. destruct Hj as [Hj|(J1 & J2)].
    { by eapply outcome_global_good, transition_loop_global. }
    apply transition_loop_good; [done|done|apply NoDup_nil_2| |done]. by intros ? ? _ ?%elem_of_nil.
Qed.

Lemma tail_step_ok L L' H h h' i j t (x : Job + res unit) : tail_ok L H h ((i, j) :: t) → outcome_good L' (h', x) →
  L' = begun L j →
  tail_ok L' H h' (match x with inl j' => (i, j') :: t | inr _ => t end) ∧ (L' = L ∨ L < L' ≤ H).
Proof.
  intros [[T0 T1] T2 T3] [_ Hx] EL. cbn in Hx.
  assert (Hs : StronglySorted Z.lt (L' :: omap pending t) ∧ Forall (λ c, c ≤ H) (omap pending t) ∧ (L' = L ∨ L < L' ≤ H)).
  { unfold begun in EL. cbn [omap list_omap] in T2, T3. change (pending (i, j)) with (pending (0%nat, j)) in *.
    destruct (pending (0%nat, j)) as [c|]; cbn in EL; subst L'; [|by split_and!; [| |left]].
    apply StronglySorted_inv in T2 as [T2 T2']. apply Forall_cons in T2' as [T2' _]. apply Forall_cons in T3 as [T3 T3'].
    split_and!; [done..|by right]. }
  destruct Hs as (S1 & S2 & S3). split; [|done]. destruct x as [j'|r].
  - destruct (pending (i, j')) as [c|] eqn:Ep.
    + (* a suspended job is not a fresh notification *)
      exfalso. destruct Hx as [Hx _]. by destruct j'.
    + destruct Hx as [_ Hx]. split; [by split|..]; cbn [omap list_omap]; by rewrite Ep.
  - split; [|done..]. destruct t as [|e t]; [done|]. apply Forall_cons in T1 as [W1 W2]. split; [by apply waiting_job_ok|done].
Qed.

(** A notification joins the queue. *)
Lemma tail_snoc_ok L H H' h e : H ≤ H' → L ≤ H → waiting e → (∀ c, pending e = Some c → H < c ≤ H') → tail_ok L H h (notifyTail h) →
  tail_ok L H' h (notifyTail h ++ [e]).
Proof.
  intros HH HL He Hc [T1 T2 T3]. assert (T3' : Forall (λ c, c ≤ H') (omap pending (notifyTail h))).
  { eapply Forall_impl; [exact T3|]. cbn. intros. lia. }
  split; [apply head_ok_app; [done|by constructor]|..]; rewrite omap_app; cbn [omap list_omap]; destruct (pending e) as [c|]; rewrite ?app_nil_r; try done.
  - specialize (Hc c eq_refl). change (StronglySorted Z.lt ((L :: omap pending (notifyTail h)) ++ [c])).
    apply StronglySorted_app. split_and!; [|done|by repeat constructor]. intros x y Hx Hy. apply list_elem_of_singleton in Hy as ->.
    apply elem_of_cons in Hx as [->|Hx]; [lia|]. rewrite Forall_forall in T3. specialize (T3 x Hx). cbn in T3. lia.
  - specialize (Hc c eq_refl). apply Forall_app. split; [done|repeat constructor; lia].
Qed.

(** Local commits are notified in timestamp order; global invalidations come in between at any time. *)
Definition notified (H : Z) (ev : hevent (Socket := Socket)) : Z :=
  match ev with HNotify inv _ => if wi_global inv then H else wi_commitTs inv | _ => H end.
Definition event_in_order (H : Z) (ev : hevent (Socket := Socket)) : bool :=
  match ev with HNotify inv _ => wi_global inv || (H <? wi_commitTs inv) | _ => true end.
Fixpoint in_order (H : Z) (evs : list (hevent (Socket := Socket))) : bool :=
  match evs with [] => true | ev :: evs' => event_in_order H ev && in_order (notified H ev) evs' end.

Lemma connect_ordered H sid sk h : ordered H h → ordered H (connect canPing opts sid sk h).
Proof.
  intros (L & HL & [G1 G2 G3] & [T1 T2 T3]). exists L. split; [done|].
  assert (Hold : ∀ p s, h_heap h !! p = Some s → h_heap (connect canPing opts sid sk h) !! p = Some s).
  { intros p s Hs. cbn. rewrite lookup_app_l; [done|]. by eapply lookup_lt_Some. }
  assert (Hnew : ∀ p s, h_heap (connect canPing opts sid sk h) !! p = Some s → h_heap h !! p = Some s ∨ (session_history true s ∧ ts_of s = 0)).
  { intros p s. cbn. rewrite lookup_app_Some. intros [Hs|[_ Hs]]; [by left|right]. apply list_lookup_singleton_Some in Hs as [_ <-]. split; [apply new_history|done]. }
  split.
  - split.
    + intros sid' p Hp. cbn in Hp. assert (Hp' : (sid', p) ∈ sessions h ∨ (sid' = sid ∧ p = length (h_heap h))).
      { clear -Hp. induction (sessions h) as [|[k v] m IH]; cbn in Hp; [set_solver|]. case_decide; set_solver. }
      destruct Hp' as [Hp'|[-> ->]].
      * destruct (G1 _ _ Hp') as (s & Hs & Hid). exists s. split; [by apply Hold|done].
      * eexists. split; [cbn; rewrite lookup_app_r, Nat.sub_diag by done; reflexivity|reflexivity].
    + intros p s Hs. destruct (Hnew p s Hs) as [Hs'|[? _]]; [by eapply G2|done].
    + intros p s Hs. destruct (Hnew p s Hs) as [Hs'|[_ ->]]; [by eapply G3|lia].
  - split; [|done..]. cbn [notifyTail connect with_sessions with_heap]. destruct (notifyTail h) as [|e t]; [done|]. destruct T1 as [T1 T1']. split; [|done].
    assert (Hb : ∀ sids, 0 < L → below h L sids → below (connect canPing opts sid sk h) L sids).
    { intros sids H0 Hb p s Hs Hid. destruct (Hnew p s Hs) as [Hs'|[_ ->]]; [by eapply Hb|done]. }
    assert (Hah : ∀ p sids, ahead L h p sids → ahead L (connect canPing opts sid sk h) p sids).
    { intros p sids (s & Hs & Ha). exists s. split; [by apply Hold|done]. }
    destruct e as [i j]. cbn in *. destruct j; cbn in *; try done; unfold fan_ok in *; naive_solver.
Qed.

Lemma hstep_ordered H h ev : autoNotifyOnMutation opts = false → event_in_order H ev = true → ordered H h → ordered (notified H ev) (step h ev).
Proof.
  intros Ha Hev Ho. pose proof (hstep_static h ev) as Hst.
  destruct ev as [now|q sk|sid sk|sid|sid m|inv o|ts o|r|i r|t e f| |q|q]; cbn [notified];
    try (by apply (static_ordered H h); [done|done|exact Hst]).
  - by apply connect_ordered.
  - destruct Ho as (L & HL & G & T). cbn in Hev. set (H' := if wi_global inv then H else wi_commitTs inv).
    assert (HH : H ≤ H') by (subst H'; destruct (wi_global inv); [lia|]; apply Z.ltb_lt in Hev; lia).
    exists L. split; [lia|]. split; [by destruct G|]. destruct (tail_snoc_ok L H H' h (h_next h, JNotify inv o)) as [U1 U2 U3]; [lia..|done| |done|by split].
    unfold pending. cbn [snd]. subst H'. intros c. destruct (wi_global inv); [done|]. intros [= <-]. apply Z.ltb_lt in Hev. lia.
  - cbn. destruct (step_tail_cases r h) as [->|(i & j & t & h' & x & Et & E & E1 & E2 & E3)]; [done|].
    destruct Ho as (L & HL & G & T). rewrite Et in T. pose proof T as [[T1 T1'] T2 T3].
    assert (Hc : ∀ c, pending (0%nat, j) = Some c → L < c).
    { intros c Hc. cbn [omap list_omap] in T2. change (pending (i, j)) with (pending (0%nat, j)) in T2. rewrite Hc in T2.
      apply StronglySorted_inv in T2 as [_ T2]. by apply Forall_cons in T2 as [T2 _]. }
    pose proof (run_job_good L j r h h' x T1 G (proj1 HL) E Hc) as Hg.
    destruct (tail_step_ok L _ H h h' i j t x T Hg eq_refl) as [T' HL'].
    destruct (run_job_steps _ _ _ _ _ E) as (Ev & [_ _ (new & Hn & Hf) _]). rewrite Et in Hn. cbn in Hn.
    destruct (fresh_waiting new Ha Hf) as [W1 W2].
    set (L' := begun L j) in *. clearbody L'. exists L'. split; [lia|].
    assert (Hsame : h_heap (stail r h) = h_heap h' ∧ sessions (stail r h) = sessions h') by done.
    destruct Hg as [[G1 G2 G3] _]. cbn [fst] in G1, G2, G3. split.
    { split; [|by rewrite E1..]. intros sid p. rewrite E2, E1. apply G1. }
    assert (Hj : ∀ j0, job_ok L' h' j0 → job_ok L' (stail r h) j0).
    { intros j0. unfold job_ok, below, ahead. rewrite E1. done. }
    rewrite E3, Hn. change (drop 1 ((i, j) :: t ++ new)) with (t ++ new). destruct T' as [U1 U2 U3].
    assert (Happ : head_ok L' h' ((match x with inl j' => (i, j') :: t | inr _ => t end) ++ new)) by by apply head_ok_app.
    assert (Heq : (match x with inl j' => (i, j') :: t ++ new | inr _ => t ++ new end) = (match x with inl j' => (i, j') :: t | inr _ => t end) ++ new) by by destruct x.
    rewrite Heq. split.
    + destruct ((match x with inl j' => (i, j') :: t | inr _ => t end) ++ new) as [|e l]; [done|]. destruct Happ as [A1 A2]. split; [by apply Hj|done].
    + by rewrite omap_app, W2, app_nil_r.
    + by rewrite omap_app, W2, app_nil_r.
Qed.

Lemma hrun_ordered evs : autoNotifyOnMutation opts = false → in_order 0 evs = true → ∀ p s, h_heap (run evs) !! p = Some s → session_history true s.
Proof.
  intros Ha. assert (H : ∀ evs H h, in_order H evs = true → ordered H h → ∃ H', ordered H' (fold_left step evs h)).
  { clear evs. induction evs as [|ev evs IH]; intros H h Hi Ho; [by exists H|]. cbn in Hi. apply andb_true_iff in Hi as [H1 H2].
    cbn. eapply IH; [exact H2|]. by apply hstep_ordered. }
  intros Hi p s Hs. destruct (H evs 0 (new_Handler Socket) Hi) as (H' & L & _ & G & _).
  - exists 0. split; [lia|]. split; [split; set_solver|]. split; cbn; [done|by repeat constructor|done].
  - by eapply (go_history _ _ G).
Qed.

(** A fan-out parked on a registered gate holds the queue. *)
Definition parked h : bool :=
  match notifyTail h with (_, JNotifyGate _ g _ _) :: _ => bool_decide (g ∈ (originResponseGates h).*2.*1) | _ => false end.
Lemma parked_stuck h rs : parked h = true → fold_left step (HTail <$> rs) h = h.
Proof.
  intros Hp. induction rs as [|r rs IH]; [done|]. cbn [fmap list_fmap fold_left]. assert (E : step h (HTail r) = h).
  { cbn. unfold step_tail, parked in *. destruct (notifyTail h) as [|[i []] t]; try done. cbn. by rewrite Hp. }
  by rewrite E.
Qed.

(** C20: whatever the interleaving of messages, re-runs, fan-outs and disconnects, every session sends the
    brackets of a sequence of version bumps that starts at the initial version and ends at the session's own:
    consecutive transitions are contiguous, and the controller was given exactly the messages sent. *)
Theorem handler_brackets_contiguous (evs : list (hevent (Socket := Socket))) p s :
  h_heap (run evs) !! p = Some s →
  ∃ sk ops bumps, se_bp s = bp_run bufferedAmount socket_send (ho_backpressure opts) sk ops ∧ offered ops = frame <$> se_offered s ∧
    omap bracket_of (se_offered s) = session_run INITIAL_VERSION bumps ∧ se_version s = run_end INITIAL_VERSION bumps.
Proof. intros Hs. destruct (hrun_history evs p s Hs) as (sk & ops & bumps & H1 & H2 & H3 & H4 & _). by exists sk, ops, bumps. Qed.

(** C19: what a client of the handler can miss. The runtime notifies its commits itself
    ([autoNotifyOnMutation: false], runtime.ts:671), in timestamp order; global-table invalidations come in between at
    any time. In every interleaving, and whatever a session's controller drops, its client applied the first
    [n] transitions it got, and among the first [m] the handler pushed these are all but transitions that
    do not move the version, which only a global invalidation's does; its version is where those [m]
    end, and it has raised its resync flag exactly if a transition reached it after them. *)
Theorem handler_losses_detected (evs : list (hevent (Socket := Socket))) p s :
  autoNotifyOnMutation opts = false → in_order 0 evs = true → h_heap (run evs) !! p = Some s →
  let T := omap bracket_of (se_offered s) in
  let received := qf_data <$> sent (se_bp s) in
  let R := omap bracket_of received in
  let client := receive received in
  ∃ n m, (n ≤ length R)%nat ∧ (m ≤ length T)%nat ∧
    take n R `sublist_of` take m T ∧ List.filter moving (take n R) = List.filter moving (take m T) ∧
    queries client = fold_left apply_bracket (take n R) [] ∧ version client = end_of INITIAL_VERSION (take m T) ∧
    needsResync client = Nat.ltb n (length R).
Proof.
  intros Ha Hi Hs. destruct (hrun_ordered evs Ha Hi p s Hs) as (sk & ops & bumps & H1 & H2 & H3 & H4 & H5). cbv zeta. rewrite H3, H1.
  apply frames_received; [|by apply H5]. rewrite H2, <-H3. f_equal. rewrite <-list_fmap_compose. apply list_fmap_id.
Qed.
End flow.
