(* ===== verification/HandlerRuns.v ===== *)
(** Runs of the handler ([packages/sync/src/handler.ts]) on concrete sequences of events: the instances of its
    theorems, and interleavings its comments do not foresee. *)
From S2P Require Import Prelude Numbers Values Json IndexKeys Ranges IntervalIndex IdCodec DocStore ExactlyOnce Transactor.
From S2P Require Import QueryEngine Subscriptions DiffSync SessionFlow Handler HandlerFlow.

(** A socket that shows the bytes it holds; every value is its own fingerprint and its own message. *)
Definition run_options : HandlerOptions :=
  {| excludeOriginFromTransition := false; autoNotifyOnMutation := false; disableBackgroundTimers := false;
     ho_backpressure := new_options (Some 10) (Some 0) None (Some 1); ho_missedPongLimit := 2; ho_deploymentId := Some (js "d") |}.
Definition flat (j : json) : jsstr := match j with JStr s => s | _ => js "?" end.
Abbreviation rsession := (Session Z).
Abbreviation hr := (hrun (Socket := Z) id (λ z _, z) (λ _, false) flat flat (λ _, js "error") (λ _, false) run_options).
Abbreviation hr_from := (fold_left (hstep (Socket := Z) id (λ z _, z) (λ _, false) flat flat (λ _, js "error") (λ _, false) run_options)).

(** A query that reads the table [t] whole, and a commit that writes to it. *)
Definition answer_of (v : option value) : QueryResult + jsstr :=
  inl {| q_value := v; q_tables := [js "t"]; q_readRanges := []; q_globalTables := []; q_diffableRange := None; q_diffablePage := None |}.
Definition says (v : string) : QueryResult + jsstr := answer_of (Some (VStr (js v))).
Definition request (qid : Z) : QueryRequest :=
  {| qr_queryId := qid; qr_udfPath := js "list"; qr_args := JNull; qr_resultHash := None; qr_sinceTs := None |}.
Definition commit_at (c : Z) : WriteInvalidation :=
  {| wi_tables := [js "t"]; wi_ranges := []; wi_commitTs := c; wi_writtenDocs := Some []; wi_global := false |}.
Definition subscribe_run (sid : string) (v : string) : list (hevent (Socket := Z)) :=
  [HConnect (js sid) 0; HMessage (js sid) (MModifyQuerySet [request 1] []); HTail (says v); HTail (says v)].
Definition unit1 : MutationBatchEntry := {| me_requestId := js "r"; me_udfPath := js "m"; me_args := JNull; me_clientId := None; me_seq := None |}.

Definition frames_of (h : Handler Z) (p : nat) : list ServerMessage := default [] (se_offered <$> h_heap h !! p).

(** *** The theorems, applied *)
Definition lossy_run : list (hevent (Socket := Z)) :=
  subscribe_run "a" "old" ++ [HNotify (commit_at 3) None; HTail (says "mid"); HSocket 0 10; HTail (says "mid"); HTail (says "mid"); HTail (says "mid");
    HSocket 0 0; HNotify (commit_at 5) None; HTail (says "new"); HTail (says "new"); HTail (says "new")].
Lemma handler_brackets_contiguous_witness :
  let h := hr lossy_run in
  is_Some (h_heap h !! 0%nat) ∧ (se_version <$> h_heap h !! 0%nat) = Some {| querySet := 1; v_ts := 5 |} ∧
  ∃ bumps, omap bracket_of (frames_of h 0) = session_run INITIAL_VERSION bumps.
Proof.
  cbv zeta. split; [vm_compute; eexists; reflexivity|]. split; [vm_compute; reflexivity|].
  destruct (h_heap (hr lossy_run) !! 0%nat) as [s|] eqn:E; [|vm_compute in E; discriminate E].
  destruct (handler_brackets_contiguous id (λ z _, z) (λ _, false) flat flat (λ _, js "error") (λ _, false) run_options lossy_run 0 s E)
    as (sk & ops & bumps & _ & _ & H & _).
  exists bumps. unfold frames_of. rewrite E. exact H.
Defined.
(** Of four fan-outs the controller drops two. The first dropped one is a global invalidation's, and the client goes on
    without it; the second is a local commit's, and the client keeps the answer before it and asks for a resync. *)
Definition global_write : WriteInvalidation :=
  {| wi_tables := [js "t"]; wi_ranges := []; wi_commitTs := 0; wi_writtenDocs := None; wi_global := true |}.
Definition fan_out (full : bool) (inv : WriteInvalidation) (v : string) : list (hevent (Socket := Z)) :=
  [HSocket 0 (if full then 10 else 0); HNotify inv None; HTail (says v); HTail (says v); HTail (says v)].
Definition mixed_run : list (hevent (Socket := Z)) :=
  subscribe_run "a" "old" ++ fan_out true global_write "lost" ++ fan_out false (commit_at 3) "mid" ++ fan_out true (commit_at 5) "late" ++
  fan_out false (commit_at 7) "new".
Lemma handler_losses_detected_witness :
  let h := hr mixed_run in
  let received := qf_data <$> default [] ((λ s, sent (se_bp s)) <$> h_heap h !! 0%nat) in
  notifyTail h = [] ∧ length (omap bracket_of (frames_of h 0)) = 5%nat ∧ length (omap bracket_of received) = 3%nat ∧
  needsResync (receive received) = true ∧ queries (receive received) = [(1, JStr (js "mid"))] ∧
  ∃ n m, List.filter moving (take n (omap bracket_of received)) = List.filter moving (take m (omap bracket_of (frames_of h 0))).
Proof.
  cbv zeta. do 5 (split; [vm_compute; reflexivity|]). unfold frames_of.
  destruct (h_heap (hr mixed_run) !! 0%nat) as [s|] eqn:E; [|vm_compute in E; discriminate E].
  destruct (handler_losses_detected id (λ z _, z) (λ _, false) flat flat (λ _, js "error") (λ _, false) run_options mixed_run 0 s)
    as (n & m & _ & _ & _ & H & _); [vm_compute; reflexivity|vm_compute; reflexivity|exact E|].
  exists n, m. exact H.
Defined.

(** *** Interleavings *)

(** [handleSetAuth] does not run on [notifyTail]: its re-run, begun before commit 5, is pushed after that commit's
    transition under contiguous brackets, and the client is left with the value from before the commit. *)
Definition reauth_run : list (hevent (Socket := Z)) :=
  subscribe_run "a" "old" ++ [HMessage (js "a") (MSetAuth (Some (js "u"))); HNotify (commit_at 5) None; HTail (says "new"); HTail (says "new");
    HTail (says "new"); HTail (says "new"); HTask 1 (RQuery (says "old"))].
Lemma setAuth_overwrites_newer_value :
  let client := receive (frames_of (hr reauth_run) 0) in
  version client = {| querySet := 2; v_ts := 5 |} ∧ needsResync client = false ∧ queries client = [(1, JStr (js "old"))] ∧
  omap bracket_of (frames_of (hr reauth_run) 0) ≠ [] ∧
  modifications <$> omap bracket_of (frames_of (hr reauth_run) 0) =
    [[QueryUpdated 1 (JStr (js "old")) (Some (js "old"))]; [QueryUpdated 1 (JStr (js "new")) (Some (js "new"))];
     [QueryUpdated 1 (JStr (js "old")) (Some (js "old"))]].
Proof. split_and!; vm_compute; done. Qed.

(** A session that disconnects while its subscribe awaits the engine leaves a subscription behind: no session will
    release it, and its resume entry is retained for ever. *)
Definition vanished_run : list (hevent (Socket := Z)) :=
  [HConnect (js "a") 0; HMessage (js "a") (MModifyQuerySet [request 1] []); HTail (says "x"); HDisconnect (js "a"); HTail (says "x")].
Lemma subscription_outlives_session :
  let h := hr vanished_run in
  sessions h = [] ∧ notifyTail h = [] ∧ h_tasks h = [] ∧ sessionId <$> jm_values (byKey (subscriptions h)) = [js "a"] ∧
  (λ e, (refCount e, expiresAtMs e)) <$> jm_values (rg_entries (resumeRegistry h)) = [(1, None)].
Proof. cbv zeta. split_and!; vm_compute; reflexivity. Qed.

(** A client that resyncs subscribes its queries again: the second answer retains the resume entry again, so
    that it outlives the session. *)
Definition resync_run : list (hevent (Socket := Z)) :=
  subscribe_run "a" "x" ++ [HMessage (js "a") (MModifyQuerySet [request 1] []); HTail (says "x"); HTail (says "x"); HDisconnect (js "a")].
Lemma resync_leaks_resume_entry :
  let h := hr resync_run in
  sessions h = [] ∧ byKey (subscriptions h) = [] ∧
  (λ e, (refCount e, expiresAtMs e)) <$> jm_values (rg_entries (resumeRegistry h)) = [(1, None)].
Proof. cbv zeta. split_and!; vm_compute; reflexivity. Qed.

(** A subscribe awaiting the engine while the identity changes: its query ran for the old identity, [handleSetAuth] did
    not see the subscription, and the answer is delivered and kept under the new identity. *)
Definition identity_run : list (hevent (Socket := Z)) :=
  [HConnect (js "a") 0; HMessage (js "a") (MModifyQuerySet [request 1] []); HTail (says "x"); HMessage (js "a") (MSetAuth (Some (js "u")))].
Lemma answer_of_previous_identity :
  let h := hr identity_run in let h' := hr (identity_run ++ [HTail (says "x")]) in
  snd <$> notifyTail h = [JModifyWait 0 (request 1) (CallQuery (js "list") JNull None) [] [] []] ∧
  (se_identity <$> h_heap h' !! 0%nat) = Some (Some (js "u")) ∧ notifyTail h' = [] ∧ h_tasks h' = [] ∧
  queries (receive (frames_of h' 0)) = [(1, JStr (js "x"))] ∧
  jm_keys (rg_entries (resumeRegistry h')) = [regKey flat (Some (js "u")) (js "list") JNull].
Proof. cbv zeta. split_and!; vm_compute; reflexivity. Qed.

(** A mutation whose function returns nothing: its commit registered a gate, encoding [undefined] throws before the
    release, and the error carries no commit timestamp. The client is told the mutation failed, and its own
    fan-out stays parked: no step of the queue does anything until the session disconnects. *)
Definition undefined_run : list (hevent (Socket := Z)) :=
  subscribe_run "a" "old" ++ [HConnect (js "b") 0; HMessage (js "a") (MConnect None None None true); HMessage (js "a") (MMutation unit1);
    HGate 5 (Some (js "a")); HNotify (commit_at 5) (Some (js "a")); HTask 1 (RMutation (MutationRan None [js "t"] [] 5 false));
    HTail (says "new"); HMessage (js "b") (MModifyQuerySet [request 1] [])].
Lemma undefined_result_wedges_fanout :
  let h := hr undefined_run in
  MutationResponse (js "r") (ReplyError (js "error") None) ∈ frames_of h 0 ∧ h_tasks h = [] ∧ length (notifyTail h) = 2%nat ∧
  (∀ rs, hr_from (HTail <$> rs) h = h) ∧ (session_ref h (js "b") = Some 1%nat ∧ frames_of h 1 = []).
Proof.
  cbv zeta. split_and!; [|vm_compute; reflexivity|vm_compute; reflexivity| |vm_compute; reflexivity|vm_compute; reflexivity].
  - assert (E : frames_of (hr undefined_run) 0 !! 1%nat = Some (MutationResponse (js "r") (ReplyError (js "error") None))) by (vm_compute; reflexivity).
    by eapply list_elem_of_lookup_2.
  - intros rs. apply parked_stuck. vm_compute. reflexivity.
Qed.

(** The origin disconnects while its commit's fan-out awaits another session's re-run: the handler then reads the version
    of a session that is gone, and the whole notification is rejected. *)
Definition origin_gone_run : list (hevent (Socket := Z)) :=
  subscribe_run "a" "x" ++ subscribe_run "b" "x" ++ [HMessage (js "a") (MConnect None None None true); HMessage (js "a") (MMutation unit1);
    HGate 5 (Some (js "a")); HNotify (commit_at 5) (Some (js "a")); HTask 2 (RMutation (MutationRan (Some VNull) [js "t"] [] 5 false));
    HTail (says "y"); HDisconnect (js "a"); HTail (says "y"); HTail (says "y")].
Lemma fanout_rejected_when_origin_leaves :
  let h := hr origin_gone_run in notifyTail h = [] ∧ last (h_done h) = Some (4%nat, Err TypeError).
Proof. cbv zeta. split; vm_compute; reflexivity. Qed.

(** A diff-capable client whose reconnect is answered unchanged keeps its rows at their own timestamps, while the
    new session reseeds them at its initial one: after the next write the checksums differ, and the client
    discards a view that was right. *)
Definition listed (docs : list value) : QueryResult + jsstr :=
  inl {| q_value := Some (VArr docs); q_tables := [js "t"]; q_readRanges := []; q_globalTables := []; q_diffableRange := Some wrange; q_diffablePage := None |}.
Definition hit (n : string) (id : string) (ts : Z) : WriteInvalidation :=
  {| wi_tables := [js "t"]; wi_ranges := []; wi_commitTs := ts; wi_writtenDocs := Some [wpub id (Some (VStr (js n))) ts]; wi_global := false |}.
Definition first_session : list (hevent (Socket := Z)) :=
  [HConnect (js "a") 0; HMessage (js "a") (MConnect None None None true); HMessage (js "a") (MModifyQuerySet [request 1] []);
   HTail (listed []); HTail (listed []); HNotify (hit "a" "x" 3) None; HTail (listed []); HTail (listed []); HTail (listed [])].
Definition resumed_session : list (hevent (Socket := Z)) :=
  let q := {| qr_queryId := 1; qr_udfPath := js "list"; qr_args := JNull; qr_resultHash := Some (js "?"); qr_sinceTs := Some 3 |} in
  let rows := listed [wdoc "x" (VStr (js "a"))] in
  [HDisconnect (js "a"); HConnect (js "b") 0; HMessage (js "b") (MConnect None None None true); HMessage (js "b") (MModifyQuerySet [q] []);
   HTail rows; HTail rows; HNotify (hit "a" "y" 7) None; HTail rows; HTail rows; HTail rows].
Lemma resumed_rows_drift :
  let client := default [] (jm_get (byIdRowMap (hr first_session)) (subKey (js "a") 1)) in
  let changes := [CAdd (js "y") (convexToJson (wdoc "y" (VStr (js "a")))) 7 (member wrange (wdoc "y" (VStr (js "a"))))] in
  let checksum := driftChecksum (default [] (jm_get (byIdRowMap (hr (first_session ++ resumed_session))) (subKey (js "b") 1))) in
  client.*1 = [js "x"] ∧
  modifications <$> omap bracket_of (frames_of (hr (first_session ++ resumed_session)) 1) =
    [[QueryUnchanged 1]; [QueryDiff 1 changes checksum None None]] ∧
  (applyChanges client changes).*1 = [js "x"; js "y"] ∧ driftChecksum (applyChanges client changes) ≠ checksum.
Proof. cbv zeta. split_and!; [vm_compute; reflexivity..|]. vm_compute. discriminate. Qed.
