(* ===== verification/LiveSession.v ===== *)
(** A live range query through the handler and the client: the answer [doModifyQuerySet] sends for a subscribe, and the
    diffs [sendSessionTransition] sends for the commits that follow ([packages/sync/src/handler.ts]), applied by
    the client's store ([packages/client/src/layered-store.ts]), show the query's answer on the documents as they are. *)
From S2P Require Import Prelude Numbers Values Json IndexKeys Ranges IntervalIndex IdCodec DocStore ExactlyOnce Transactor.
From S2P Require Import QueryEngine Subscriptions DiffSync SessionFlow ClientStore LiveQuery Handler.

(** The client's side of a modification for its subscription at [cp]; [true] is a drift. *)
Definition client_diff (s : Store) (cp : nat) (m : StateModification) : Store * res bool :=
  match m with QueryDiff _ changes checksum reset _ => applyDiff s cp changes checksum reset | _ => (s, Err TypeError) end.

(** One commit: what it did to the table's documents, and its invalidation. *)
Record Commit := { cm_writes : list (jsstr * option value); cm_inv : WriteInvalidation }.
Definition commit_docs (docs : list (jsstr * value)) (c : Commit) : list (jsstr * value) := fold_left write_doc (cm_writes c) docs.

Section live.
Context {Socket : Type} (hashValue stringify : json → jsstr) (errMessage : exn → jsstr).
Implicit Types (h : Handler Socket).

(** The diffs of a sequence of commits, each applied by the client; [None] on a re-run, an error or a drift. *)
Fixpoint live_run (sess : Session Socket) (sub : Subscription) (cp : nat) h (s : Store) (cs : list Commit) : option (Handler Socket * Store) :=
  match cs with
  | [] => Some (h, s)
  | c :: cs' =>
      match diff_arm errMessage sess sub (cm_inv c) h with
      | Some (h', m) => match client_diff s cp m with (s', Ok false) => live_run sess sub cp h' s' cs' | _ => None end
      | None => None
      end
  end.

(** A commit the differ handles: its written documents are published, and the documents stay indexable. *)
Record commit_ok (rr : RangeRead) (docs : list (jsstr * value)) (c : Commit) : Prop := {
  co_published : ∃ wds wds', wi_writtenDocs (cm_inv c) = Some wds ∧ docs_of_table rr wds = Ok wds' ∧ Forall2 publishes (cm_writes c) wds';
  co_once : NoDup (cm_writes c).*1;
  co_indexed : ∀ k d, (k, Some d) ∈ cm_writes c → indexed rr d;
  co_after : range_docs rr (commit_docs docs c) }.
Fixpoint commits_ok (rr : RangeRead) (docs : list (jsstr * value)) (cs : list Commit) : Prop :=
  match cs with [] => True | c :: cs' => commit_ok rr docs c ∧ commits_ok rr (commit_docs docs c) cs' end.

(** Server and client agree on the documents. *)
Definition in_sync (rr : RangeRead) (docs : list (jsstr * value)) (sub : Subscription) (cp : nat) h (s : Store) : Prop :=
  ∃ rows, jm_get (byIdRowMap h) (subKey (sessionId sub) (queryId sub)) = Some rows ∧ shows rr rows docs ∧ range_docs rr docs ∧
    client_shows rr docs (rr_order rr) rows s cp.

Lemma live_step rr b docs sess sub cp h s c : deserializeKeyRange (rr_bounds rr) = Ok b → supportsQueryDiff sess = true → range sub = Some rr →
  in_sync rr docs sub cp h s → commit_ok rr docs c →
  ∃ h' s' m, diff_arm errMessage sess sub (cm_inv c) h = Some (h', m) ∧ client_diff s cp m = (s', Ok false) ∧ in_sync rr (commit_docs docs c) sub cp h' s'.
Proof.
  intros Hb Hd Hr (rows & Hrows & Hs & Hdocs & Hc) [(wds & wds' & W1 & W2 & W3) N I A].
  destruct (range_follow rr docs (rr_order rr) rows s cp (cm_writes c) wds' b) as (changes & next & s' & F1 & F2 & F3 & F4); try done.
  unfold diff_arm. rewrite Hd, W1, Hr. unfold catching, range_arm. rewrite Hrows. cbn [default from_option id]. unfold hm_bind, hm_lift. rewrite W2, F1. cbn.
  eexists _, s', _. split; [reflexivity|]. split; [exact F3|]. exists next. cbn. rewrite jm_get_set, decide_True by done. done.
Qed.
Lemma live_run_in_sync rr b sess sub cp cs docs h s : deserializeKeyRange (rr_bounds rr) = Ok b → supportsQueryDiff sess = true → range sub = Some rr →
  in_sync rr docs sub cp h s → commits_ok rr docs cs →
  ∃ h' s', live_run sess sub cp h s cs = Some (h', s') ∧ in_sync rr (fold_left commit_docs cs docs) sub cp h' s'.
Proof.
  intros Hb Hd Hr. revert docs h s. induction cs as [|c cs IH]; intros docs h s Hi; [by exists h, s|]. intros [Hc Hcs].
  destruct (live_step rr b docs sess sub cp h s c Hb Hd Hr Hi Hc) as (h1 & s1 & m & E1 & E2 & H1). cbn. rewrite E1, E2. by apply IH.
Qed.


(** The answer of a subscribe whose engine run returned the query's answer. *)
Record answers (rr : RangeRead) (docs : list (jsstr * value)) (r : QueryResult) : Prop := {
  an_value : q_value r = Some (VArr (range_answer rr docs (rr_order rr)));
  an_range : rangeReadFromDiffable <$> q_diffableRange r = Some rr;
  an_page : q_diffablePage r = None;
  an_reads : ∃ krs, traverse deserializeKeyRange (q_readRanges r) = Ok krs }.

Lemma index_returns ri key rs ts krs : traverse deserializeKeyRange rs = Ok krs → (index ri key rs ts).2 = Ok tt.
Proof. intros H. unfold index. destruct rs as [|x rs]; [done|]. by rewrite H. Qed.
Lemma add_returns m sub krs : traverse deserializeKeyRange (readRanges sub) = Ok krs → (add m sub).2 = Ok tt ∧ jm_get (byKey (add m sub).1) (sub_key sub) = Some sub.
Proof.
  intros H. unfold add. pose proof (index_returns (sm_index (removeKey m (sub_key sub))) (sub_key sub) (readRanges sub) (tables sub) krs H) as E.
  destruct (index _ _ _ _) as [ri [[]|e]]; [|done]. cbn. by rewrite jm_get_set, decide_True.
Qed.
Lemma upsert_returns g key rs ts t d gl krs : traverse deserializeKeyRange rs = Ok krs → (upsert g key rs ts t d gl).2 = Ok tt.
Proof.
  intros H. unfold upsert. pose proof (index_returns (rg_unindex g key) key rs ts krs H) as E. by destruct (index _ _ _ _) as [ri x].
Qed.
(** An array is not a document. *)
Lemma byId_array rs l krs : traverse deserializeKeyRange rs = Ok krs → classifyByIdRead (VArr l) rs = Ok None.
Proof.
  intros H. unfold classifyByIdRead. destruct rs as [|x [|]]; try done. cbn in H. destruct (deserializeKeyRange x) as [k|] eqn:E; [|done].
  unfold isPointRange. destruct (negb _); [done|]. destruct (s_end x); [|done]. rewrite E. cbn. by destruct (end_ k); [destruct (cmp_eqb _)|].
Qed.

Lemma subscribe_in_sync rr docs sess p q r h s cp csub b : deserializeKeyRange (rr_bounds rr) = Ok b → range_docs rr docs →
  (∀ k d, jm_get docs k = Some d → key_of d = k) → answers rr docs r → qr_resultHash q = None →
  h_heap h !! p = Some sess → supportsQueryDiff sess = true → jm_get (heap s) cp = Some csub →
  ∃ h' s' m, subscribed hashValue stringify p q r h = (h', Ok m) ∧ client_diff s cp m = (s', Ok false) ∧
    sm_get (subscriptions h') (se_sessionId sess) (qr_queryId q) = Some (fresh_subscription stringify sess q r None) ∧
    in_sync rr docs (fresh_subscription stringify sess q r None) cp h' s'.
Proof.
  intros Hb Hdocs Hid [V R P (krs & K)] Hh Hp Hd Hcs.
  assert (Hread : read_of r = Some rr) by (unfold read_of; by rewrite P).
  destruct (range_subscribe rr docs (rr_order rr) (v_ts (se_version sess)) s cp csub) as (changes & rows & s' & R1 & R2 & R3 & R4); [done|by exists b|done|done|].
  assert (Eby : byId_of r = Ok None) by (unfold byId_of; rewrite V; by eapply byId_array).
  unfold subscribed. unfold hm_bind at 1, hm_lift at 1. rewrite Eby. unfold hm_bind at 1, session_at. rewrite Hp.
  set (sub := fresh_subscription stringify sess q r None). destruct (add_returns (subscriptions h) sub krs K) as [A1 A2].
  unfold hm_bind at 1, subs_add at 1. destruct (add (subscriptions h) sub) as [m1 x1] eqn:E1. cbn in A1, A2. subst x1.
  unfold hm_bind at 1, fireGlobalSubscribe, hm_do at 1. set (h1 := match q_globalTables r with [] => _ | _ => _ end).
  assert (B1 : byIdRowMap h1 = byIdRowMap h ∧ subscriptions h1 = m1) by (subst h1; by destruct (q_globalTables r)). clearbody h1.
  unfold hm_bind at 1, registry_upsert at 1. match goal with |- context [upsert ?g ?k ?a ?b ?c ?d ?e] => pose proof (upsert_returns g k a b c d e krs K) as U end.
  destruct (upsert _ _ _ _ _ _ _) as [g x2]. cbn in U. subst x2. unfold hm_bind at 1, retain_key, hm_do at 1.
  unfold subscribe_answer. unfold hm_bind at 1, hm_lift at 1. rewrite V. cbn [encode_result]. rewrite Hd, P. cbn [negb].
  destruct (q_diffableRange r) as [d|]; [|done]. cbn in R. injection R as ->. unfold hm_bind at 1, hm_lift at 1. cbn [convexToJson array_rows].
  unfold hm_bind at 1, hm_lift at 1. change (List.map convexToJson (range_answer rr docs (rr_order rr))) with (convexToJson <$> range_answer rr docs (rr_order rr)).
  rewrite R1. unfold hm_bind, set_rows, hm_do, hm_ret, fingerprinted. rewrite Hh. cbn [bool_decide].
  eexists _, s', _. split; [reflexivity|]. split; [exact R3|]. cbn. destruct B1 as [B1 B2]. split.
  - unfold sm_get. cbn. rewrite B2. exact A2.
  - exists rows. cbn. by rewrite jm_get_set, decide_True.
Qed.

(** C18: a live range query never goes stale. The client subscribes without a base to resume from, through the handler, and applies the
    diffs of a sequence of commits. Before and after each commit, the table's documents are ones the differ handles
    ([range_docs], [commit_ok]): each is its own JSON form (no bigint, bytes or non-finite number in it), its index key
    can be extracted, no two of the bounds share an index key, and the commit publishes what it wrote, each
    document once. Then the client ends up showing exactly the documents in the query's bounds that
    pass its filters, in index order, as the last commit left them, and at no point do the two
    checksums disagree. (Where a document is not its own JSON form, an edit of a matching row is dropped:
    [DiffSync.bigint_row_dropped].) *)
Theorem live_range_query rr docs sess p q r h s cp csub b cs : deserializeKeyRange (rr_bounds rr) = Ok b → range_docs rr docs →
  (∀ k d, jm_get docs k = Some d → key_of d = k) → answers rr docs r → qr_resultHash q = None →
  h_heap h !! p = Some sess → supportsQueryDiff sess = true → jm_get (heap s) cp = Some csub → commits_ok rr docs cs →
  ∃ h1 m s1 h2 s2 csub' v, subscribed hashValue stringify p q r h = (h1, Ok m) ∧ client_diff s cp m = (s1, Ok false) ∧
    live_run sess (fresh_subscription stringify sess q r None) cp h1 s1 cs = Some (h2, s2) ∧
    jm_get (heap s2) cp = Some csub' ∧ serverValue csub' = Some v ∧
    r_val v = VArr (range_answer rr (fold_left commit_docs cs docs) (rr_order rr)).
Proof.
  intros Hb Hdocs Hid Ha Hq Hp Hd Hcs Hco.
  destruct (subscribe_in_sync rr docs sess p q r h s cp csub b Hb Hdocs Hid Ha Hq Hp Hd Hcs) as (h1 & s1 & m & E1 & E2 & _ & H1).
  destruct (live_run_in_sync rr b sess (fresh_subscription stringify sess q r None) cp cs docs h1 s1 Hb Hd) as (h2 & s2 & E3 & rows & _ & _ & _ & H2);
    [destruct Ha as [_ R P _]; cbn; unfold read_of; by rewrite P|done|done|].
  destruct H2 as (csub' & m' & v & C1 & _ & _ & _ & _ & C2 & C3). by exists h1, m, s1, h2, s2, csub', v.
Qed.
End live.

(** ** Checking documents *)
Definition docs_check (rr : RangeRead) (docs : list (jsstr * value)) : bool :=
  bool_decide (NoDup docs.*1) && bool_decide (NoDup (members_of rr docs).*1) &&
  forallb (λ p, value_okb p.2 &&
    match extractIndexKey p.2 (rr_fields rr) with Ok k => bool_decide (Forall is_byte k) | Err _ => false end) docs.
Lemma docs_check_ok rr docs : docs_check rr docs = true → Forall (λ p, plain p.2) docs → range_docs rr docs.
Proof.
  unfold docs_check. rewrite !andb_true_iff, !bool_decide_eq_true, forallb_forall, Forall_forall. intros [[H1 H2] H3] H4. split; [done| |done].
  intros k d Hk%jm_get_in. pose proof (H4 _ Hk) as Hpl. apply list_elem_of_In, H3 in Hk. cbn in Hk. apply andb_true_iff in Hk as [K1 K3].
  split; [done|]. split; [exact Hpl|]. destruct (extractIndexKey d (rr_fields rr)) as [k'|]; [|done]. exists k'. split; [done|]. by apply bool_decide_eq_true in K3.
Qed.

(** A query for the documents with [n = "a"], and two commits that add one, retitle one and delete one. *)
Definition live_docs : list (jsstr * value) := [(js "x", wdoc "x" (VStr (js "a"))); (js "z", wdoc "z" (VStr (js "b")))].
Definition live_commit (ws : list (string * option value)) (ts : Z) : Commit :=
  {| cm_writes := List.map (λ w, (js w.1, wdoc w.1 <$> w.2)) ws;
     cm_inv := {| wi_tables := [js "t"]; wi_ranges := []; wi_commitTs := ts; wi_writtenDocs := Some (List.map (λ w, wpub w.1 w.2 ts) ws); wi_global := false |} |}.
Definition live_commits : list Commit :=
  [live_commit [("y"%string, Some (VStr (js "a"))); ("z"%string, Some (VStr (js "a")))] 3; live_commit [("x"%string, None)] 5].
Definition live_answer : QueryResult :=
  {| q_value := Some (VArr (range_answer wrange live_docs Asc)); q_tables := [js "t"]; q_readRanges := []; q_globalTables := [];
     q_diffableRange := Some wrange; q_diffablePage := None |}.
Definition live_request : QueryRequest := {| qr_queryId := 1; qr_udfPath := js "list"; qr_args := JNull; qr_resultHash := None; qr_sinceTs := None |}.
Definition live_session : Session unit :=
  {| se_sessionId := js "s"; se_version := INITIAL_VERSION; se_identity := None; se_privileged := false; supportsQueryDiff := true;
     se_bp := new_Controller tt; se_hb := new_Heartbeat; se_closed := false; se_offered := [] |}.
Definition live_handler : Handler unit := with_heap (new_Handler unit) [live_session].
Definition live_store : Store := (create new_Store 1 (js "list") JNull (js "h")).2.

Ltac live_indexed := split; [reflexivity|]; eexists; split; [vm_compute; reflexivity|apply (bool_decide_unpack _); vm_compute; exact I].
Lemma live_docs_ok docs : docs_check wrange docs = true → Forall (λ p, ∃ id n, p.2 = wdoc id (VStr (js n))) docs → range_docs wrange docs.
Proof. intros Hc Hp. apply docs_check_ok; [done|]. eapply Forall_impl; [exact Hp|]. cbn. intros p (id & n & ->). reflexivity. Qed.

Lemma live_range_query_witness :
  ∃ s2 csub v, (∃ h1 s1 h2, live_run (Socket := unit) (λ _, []) live_session (fresh_subscription (λ _, []) live_session live_request live_answer None) 0 h1 s1 live_commits = Some (h2, s2)) ∧
    jm_get (heap s2) 0%nat = Some csub ∧ serverValue csub = Some v ∧
    r_val v = VArr [wdoc "y" (VStr (js "a")); wdoc "z" (VStr (js "a"))].
Proof.
  destruct (live_range_query (Socket := unit) (λ _, []) (λ _, []) (λ _, []) wrange live_docs live_session 0 live_request live_answer live_handler live_store 0
    (default {| cs_queryId := 0; cs_path := []; cs_args := JNull; cs_hash := []; serverValue := None; composedValue := None; answered := false;
       lastHash := None; diffRows := None; renderMode := None; orderDir := None; pageMeta := None; listeners := [] |} (jm_get (heap live_store) 0%nat))
    {| keyspace := js "i"; start := []; end_ := None |} live_commits) as (h1 & m & s1 & h2 & s2 & csub & v & _ & _ & E & E1 & E2 & E3).
  - vm_compute. reflexivity.
  - apply live_docs_ok; [vm_compute; reflexivity|]. repeat constructor; eauto.
  - intros k d [[= -> ->]|[[= -> ->]|[]%elem_of_nil]%elem_of_cons]%jm_get_in%elem_of_cons; vm_compute; reflexivity.
  - split; [reflexivity..|]. exists []. reflexivity.
  - reflexivity.
  - reflexivity.
  - reflexivity.
  - reflexivity.
  - split; [|split; [|done]]; split.
    + eexists _, _. split; [reflexivity|]. split; [vm_compute; reflexivity|]. repeat constructor.
    + apply (bool_decide_unpack _). vm_compute. exact I.
    + intros k d [[= -> ->]|[[= -> ->]|[]%elem_of_nil]%elem_of_cons]%elem_of_cons; live_indexed.
    + apply live_docs_ok; [vm_compute; reflexivity|]. repeat constructor; eauto.
    + eexists _, _. split; [reflexivity|]. split; [vm_compute; reflexivity|]. repeat constructor.
    + apply (bool_decide_unpack _). vm_compute. exact I.
    + intros k d [[= <-]|[]%elem_of_nil]%elem_of_cons.
    + apply live_docs_ok; [vm_compute; reflexivity|]. repeat constructor; eauto.
  - exists s2, csub, v. split; [by exists h1, s1, h2|]. split; [exact E1|]. split; [exact E2|]. rewrite E3. vm_compute. reflexivity.
Defined.
