(* ===== verification/Segments.v ===== *)
(** The segment and snapshot codec of the object-storage substrate ([ee/packages/objectstore-substrate/src/segment.ts], [snapshot.ts]): the rows of a
    commit as JSON-safe wire objects, timestamps as decimal strings and bytes as base64. A wire object stands for its UTF-8 JSON text
    ([serializeValue] is a value's transport form after that text: the sign of a zero is lost). *)
From S2P Require Import Prelude Numbers Values IndexKeys Json IdCodec DocStore.

(** [BigInt(text)] of the decimal strings [toString] writes *)
Definition bigint_of_string (s : jsstr) : res Z := match parseInt10 s with Some n => Ok n | None => Err SyntaxError end.

Record SegmentPayload := { sp_documents : list DocumentLogEntry; sp_indexUpdates : list IndexWrite }.
Record SnapshotPayload := { sn_frontierTs : Z; sn_segBase : Z; sn_documents : list DocumentLogEntry; sn_indexUpdates : list IndexWrite }.

(** ** Wire shapes *)
Record WireInternalDocumentId := { wi_tableNumber : Z; wi_internalId : jsstr }.
Record WireResolvedDocument := { wr_id : WireInternalDocumentId; wr_value : json }.
Record WireDocumentLogEntry := { wd_ts : jsstr; wd_id : WireInternalDocumentId; wd_value : option WireResolvedDocument; wd_prev_ts : option jsstr }.
Inductive WireDatabaseIndexValue := WDeleted | WNonClustered (docId : WireInternalDocumentId).
Record WireDatabaseIndexUpdate := { wu_indexId : jsstr; wu_key : jsstr; wu_value : WireDatabaseIndexValue }.
Record WireIndexWrite := { ww_ts : jsstr; ww_update : WireDatabaseIndexUpdate }.
Record WireSegmentPayload := { ws_documents : list WireDocumentLogEntry; ws_indexUpdates : list WireIndexWrite }.
Record WireSnapshotPayload := { wn_frontierTs : jsstr; wn_segBase : Z; wn_documents : list WireDocumentLogEntry; wn_indexUpdates : list WireIndexWrite }.

#[global] Instance WireInternalDocumentId_eq_dec : EqDecision WireInternalDocumentId.
Proof. solve_decision. Defined.
#[global] Instance WireResolvedDocument_eq_dec : EqDecision WireResolvedDocument.
Proof. solve_decision. Defined.
#[global] Instance WireDocumentLogEntry_eq_dec : EqDecision WireDocumentLogEntry.
Proof. solve_decision. Defined.
#[global] Instance WireDatabaseIndexValue_eq_dec : EqDecision WireDatabaseIndexValue.
Proof. solve_decision. Defined.
#[global] Instance WireDatabaseIndexUpdate_eq_dec : EqDecision WireDatabaseIndexUpdate.
Proof. solve_decision. Defined.
#[global] Instance WireIndexWrite_eq_dec : EqDecision WireIndexWrite.
Proof. solve_decision. Defined.
#[global] Instance WireSegmentPayload_eq_dec : EqDecision WireSegmentPayload.
Proof. solve_decision. Defined.
#[global] Instance WireSnapshotPayload_eq_dec : EqDecision WireSnapshotPayload.
Proof. solve_decision. Defined.

(** ** Rows *)
Definition encodeId (id : InternalDocumentId) : WireInternalDocumentId :=
  {| wi_tableNumber := tableNumber id; wi_internalId := bytesToBase64 (internalId id) |}.
Definition decodeId (w : WireInternalDocumentId) : res InternalDocumentId :=
  let! b := base64ToBytes (wi_internalId w) in Ok {| tableNumber := wi_tableNumber w; internalId := b |}.
Definition encodeResolvedDocument (d : ResolvedDocument) : WireResolvedDocument := {| wr_id := encodeId (rd_id d); wr_value := serializeValue (rd_value d) |}.
Definition decodeResolvedDocument (w : WireResolvedDocument) : res ResolvedDocument :=
  let! id := decodeId (wr_id w) in let! v := jsonToConvex (wr_value w) in Ok {| rd_id := id; rd_value := v |}.
(** [x === null ? null : f(x)] *)
Definition nullable {A B} (f : A → res B) (x : option A) : res (option B) := match x with None => Ok None | Some a => let! b := f a in Ok (Some b) end.
Definition encodeDocumentLogEntry (e : DocumentLogEntry) : WireDocumentLogEntry :=
  {| wd_ts := string_of_int (le_ts e); wd_id := encodeId (le_id e); wd_value := option_map encodeResolvedDocument (le_value e);
     wd_prev_ts := option_map string_of_int (le_prev_ts e) |}.
Definition decodeDocumentLogEntry (w : WireDocumentLogEntry) : res DocumentLogEntry :=
  let! ts := bigint_of_string (wd_ts w) in
  let! id := decodeId (wd_id w) in
  let! v := nullable decodeResolvedDocument (wd_value w) in
  let! p := nullable bigint_of_string (wd_prev_ts w) in
  Ok {| le_ts := ts; le_id := id; le_value := v; le_prev_ts := p |}.
Definition encodeIndexValue (v : DatabaseIndexValue) : WireDatabaseIndexValue :=
  match v with Deleted => WDeleted | NonClustered id => WNonClustered (encodeId id) end.
Definition decodeIndexValue (w : WireDatabaseIndexValue) : res DatabaseIndexValue :=
  match w with WDeleted => Ok Deleted | WNonClustered id => let! id := decodeId id in Ok (NonClustered id) end.
Definition encodeIndexUpdate (u : DatabaseIndexUpdate) : WireDatabaseIndexUpdate :=
  {| wu_indexId := iu_indexId u; wu_key := bytesToBase64 (iu_key u); wu_value := encodeIndexValue (iu_value u) |}.
Definition decodeIndexUpdate (w : WireDatabaseIndexUpdate) : res DatabaseIndexUpdate :=
  let! k := base64ToBytes (wu_key w) in let! v := decodeIndexValue (wu_value w) in Ok {| iu_indexId := wu_indexId w; iu_key := k; iu_value := v |}.
Definition encodeIndexWrite (w : IndexWrite) : WireIndexWrite := {| ww_ts := string_of_int (iw_ts w); ww_update := encodeIndexUpdate (iw_update w) |}.
Definition decodeIndexWrite (w : WireIndexWrite) : res IndexWrite :=
  let! ts := bigint_of_string (ww_ts w) in let! u := decodeIndexUpdate (ww_update w) in Ok {| iw_ts := ts; iw_update := u |}.

Definition encodeDocumentLogEntries : list DocumentLogEntry → list WireDocumentLogEntry := List.map encodeDocumentLogEntry.
Definition decodeDocumentLogEntries : list WireDocumentLogEntry → res (list DocumentLogEntry) := traverse decodeDocumentLogEntry.
Definition encodeIndexWrites : list IndexWrite → list WireIndexWrite := List.map encodeIndexWrite.
Definition decodeIndexWrites : list WireIndexWrite → res (list IndexWrite) := traverse decodeIndexWrite.

(** ** Objects *)
Definition encodeSegment (p : SegmentPayload) : WireSegmentPayload :=
  {| ws_documents := encodeDocumentLogEntries (sp_documents p); ws_indexUpdates := encodeIndexWrites (sp_indexUpdates p) |}.
Definition decodeSegment (w : WireSegmentPayload) : res SegmentPayload :=
  let! docs := decodeDocumentLogEntries (ws_documents w) in let! idx := decodeIndexWrites (ws_indexUpdates w) in
  Ok {| sp_documents := docs; sp_indexUpdates := idx |}.
Definition encodeSnapshot (p : SnapshotPayload) : WireSnapshotPayload :=
  {| wn_frontierTs := string_of_int (sn_frontierTs p); wn_segBase := sn_segBase p;
     wn_documents := encodeDocumentLogEntries (sn_documents p); wn_indexUpdates := encodeIndexWrites (sn_indexUpdates p) |}.
Definition decodeSnapshot (w : WireSnapshotPayload) : res SnapshotPayload :=
  let! ts := bigint_of_string (wn_frontierTs w) in
  let! docs := decodeDocumentLogEntries (wn_documents w) in let! idx := decodeIndexWrites (wn_indexUpdates w) in
  Ok {| sn_frontierTs := ts; sn_segBase := wn_segBase w; sn_documents := docs; sn_indexUpdates := idx |}.

(** ** Round trips *)
Definition bytes_ok (id : InternalDocumentId) : Prop := Forall is_byte (internalId id) ∧ 0 ≤ tableNumber id.
Record entry_ok (e : DocumentLogEntry) : Prop := {
  eo_ts : 0 ≤ le_ts e;
  eo_id : bytes_ok (le_id e);
  eo_prev : ∀ p, le_prev_ts e = Some p → 0 ≤ p;
  eo_value : ∀ d, le_value e = Some d → bytes_ok (rd_id d) ∧ value_okb (rd_value d) = true }.
Record write_ok (w : IndexWrite) : Prop := {
  wo_ts : 0 ≤ iw_ts w;
  wo_key : Forall is_byte (iu_key (iw_update w));
  wo_id : ∀ id, iu_value (iw_update w) = NonClustered id → bytes_ok id }.
(** The entry a text keeps: its value in canonical form *)
Definition canon_doc (d : ResolvedDocument) : ResolvedDocument := {| rd_id := rd_id d; rd_value := canon (rd_value d) |}.
Definition canon_log (e : DocumentLogEntry) : DocumentLogEntry :=
  {| le_ts := le_ts e; le_id := le_id e; le_value := option_map canon_doc (le_value e); le_prev_ts := le_prev_ts e |}.
Definition canon_segment (p : SegmentPayload) : SegmentPayload :=
  {| sp_documents := List.map canon_log (sp_documents p); sp_indexUpdates := sp_indexUpdates p |}.
Definition canon_snapshot (p : SnapshotPayload) : SnapshotPayload :=
  {| sn_frontierTs := sn_frontierTs p; sn_segBase := sn_segBase p; sn_documents := List.map canon_log (sn_documents p);
     sn_indexUpdates := sn_indexUpdates p |}.

Lemma canon_idem v : canon (canon v) = canon v.
Proof.
  induction v as [|b|n|z|s|b|l IH|kvs IH] using value_nested_ind; try done.
  - cbn [canon normalizeValue]. destruct (sf n) as [[]| | |] eqn:E; cbn [canon normalizeValue]; rewrite ?E; done.
  - cbn [canon]. f_equal. rewrite List.map_map. apply List.map_ext_in. intros x Hx%list_elem_of_In. rewrite Forall_forall in IH. auto.
  - rewrite !canon_obj. f_equal. induction IH as [|[k w] l Hx _ IHl]; [done|]. csimpl. simpl in Hx. unfold canon_entry at 1 2 3. cbn [fst snd].
    rewrite Hx. by f_equal.
Qed.
Lemma serialize_canon v : value_okb v = true → serializeValue (canon v) = serializeValue v.
Proof. intros H. rewrite !serializeValue_canon by (by rewrite ?canon_ok). by rewrite canon_idem. Qed.
Lemma doc_row_canon shard e : entry_ok e → doc_row shard (canon_log e) = doc_row shard e.
Proof.
  intros [_ _ _ Hv]. unfold doc_row, canon_log. cbn [le_ts le_id le_prev_ts le_value]. destruct (le_value e) as [d|]; [|done].
  cbn [option_map rd_value canon_doc]. destruct (Hv d eq_refl). by rewrite serialize_canon.
Qed.
Lemma canon_log_ok e : entry_ok e → entry_ok (canon_log e).
Proof.
  intros [H1 H2 H3 H4]. split; try done. cbn [canon_log le_value]. intros d. destruct (le_value e) as [d'|]; [|done]. intros [= <-].
  cbn [canon_doc rd_id rd_value]. rewrite canon_ok. auto.
Qed.

Lemma decode_encodeId id : bytes_ok id → decodeId (encodeId id) = Ok id.
Proof. intros [H _]. unfold decodeId, encodeId. cbn [wi_internalId wi_tableNumber]. rewrite base64_roundtrip by done. by destruct id. Qed.
Lemma bigint_of_string_of_int n : 0 ≤ n → bigint_of_string (string_of_int n) = Ok n.
Proof. intros H. unfold bigint_of_string. by rewrite parseInt10_string_of_int. Qed.
Lemma traverse_map_ok {A B} (f : A → B) (g : B → res A) (h : A → A) l :
  Forall (λ a, g (f a) = Ok (h a)) l → traverse g (List.map f l) = Ok (List.map h l).
Proof. induction 1 as [|a l E _ IH]; [done|]. cbn. by rewrite E, IH. Qed.
Lemma decode_encodeEntry e : entry_ok e → decodeDocumentLogEntry (encodeDocumentLogEntry e) = Ok (canon_log e).
Proof.
  intros [Hts Hid Hp Hv]. unfold decodeDocumentLogEntry, encodeDocumentLogEntry. cbn [wd_ts wd_id wd_value wd_prev_ts].
  rewrite bigint_of_string_of_int, decode_encodeId by done. cbn [res_bind].
  assert (nullable decodeResolvedDocument (option_map encodeResolvedDocument (le_value e)) = Ok (option_map canon_doc (le_value e))) as ->.
  { destruct (le_value e) as [d|]; [|done]. destruct (Hv d eq_refl) as [Hb Ho]. cbn [option_map nullable].
    unfold decodeResolvedDocument, encodeResolvedDocument. cbn [wr_id wr_value]. rewrite decode_encodeId by done. cbn [res_bind].
    pose proof (parse_serialize _ Ho) as E. unfold parseValue in E. by rewrite E. }
  assert (nullable bigint_of_string (option_map string_of_int (le_prev_ts e)) = Ok (le_prev_ts e)) as ->.
  { destruct (le_prev_ts e) as [p|]; [|done]. cbn [option_map nullable]. by rewrite bigint_of_string_of_int by auto. }
  done.
Qed.
Lemma decode_encodeWrite w : write_ok w → decodeIndexWrite (encodeIndexWrite w) = Ok w.
Proof.
  intros [Hts Hk Hv]. unfold decodeIndexWrite, encodeIndexWrite. cbn [ww_ts ww_update]. rewrite bigint_of_string_of_int by done. cbn [res_bind].
  unfold decodeIndexUpdate, encodeIndexUpdate. cbn [wu_key wu_value wu_indexId]. rewrite base64_roundtrip by done. cbn [res_bind].
  destruct w as [ts [ix k v]]. cbn [iw_update iu_key iu_value iu_indexId iw_ts] in *. destruct v as [|id]; [done|]. cbn [encodeIndexValue decodeIndexValue].
  by rewrite decode_encodeId by auto.
Qed.
Lemma decode_encodeEntries l : Forall entry_ok l → decodeDocumentLogEntries (encodeDocumentLogEntries l) = Ok (List.map canon_log l).
Proof. intros H. apply traverse_map_ok. eapply Forall_impl; [exact H|apply decode_encodeEntry]. Qed.
Lemma decode_encodeWrites l : Forall write_ok l → decodeIndexWrites (encodeIndexWrites l) = Ok l.
Proof.
  intros H. rewrite <-(List.map_id l) at 2. apply (traverse_map_ok _ _ (λ x, x)). eapply Forall_impl; [exact H|apply decode_encodeWrite].
Qed.
(** What a commit or a snapshot writes to the bucket is what a bootstrap reads back, its values in canonical form. *)
Lemma decode_encodeSegment p : Forall entry_ok (sp_documents p) → Forall write_ok (sp_indexUpdates p) →
  decodeSegment (encodeSegment p) = Ok (canon_segment p).
Proof.
  intros Hd Hi. unfold decodeSegment, encodeSegment. cbn [ws_documents ws_indexUpdates].
  rewrite decode_encodeEntries by done. cbn [res_bind]. by rewrite decode_encodeWrites.
Qed.
Lemma decode_encodeSnapshot p : 0 ≤ sn_frontierTs p → Forall entry_ok (sn_documents p) → Forall write_ok (sn_indexUpdates p) →
  decodeSnapshot (encodeSnapshot p) = Ok (canon_snapshot p).
Proof.
  intros Ht Hd Hi. unfold decodeSnapshot, encodeSnapshot. cbn [wn_frontierTs wn_segBase wn_documents wn_indexUpdates].
  rewrite bigint_of_string_of_int by done. cbn [res_bind]. rewrite decode_encodeEntries by done. cbn [res_bind]. by rewrite decode_encodeWrites.
Qed.
