(* ===== verification/ObjectStore.v ===== *)
(** The bucket the object-storage substrate commits to, and the programs over it: the calls of an [ObjectStore] as
    [packages/objectstore-fs/src/fs-objectstore.ts] answers them, the manifest ([ee/packages/objectstore-substrate/src/manifest.ts]), consumer
    watermarks ([consumers.ts]), snapshot objects ([snapshot.ts]) and the cross-shard frontier ([frontier.ts]). *)
From S2P Require Import Prelude Numbers Values Json IdCodec DocStore Segments.

(** ** Objects *)

(** [Manifest]; its decimal-string timestamps and lease deadline are the integers they spell. *)
Record Manifest := {
  m_epoch : Z; m_frontierTs : Z; m_tsCounter : Z; m_segments : list Z; m_nextSeqno : Z; m_writerId : jsstr; m_leaseExpiresAt : Z;
  m_snapshotTs : option Z; m_snapshotSegBase : option Z }.
#[global] Instance Manifest_eq_dec : EqDecision Manifest.
Proof. solve_decision. Defined.

(** What an object of a shard's key space holds: a JSON text, kept as the value it spells. *)
Inductive body :=
  | BManifest (m : Manifest)
  | BSegment (w : WireSegmentPayload)
  | BSnapshot (w : WireSnapshotPayload)
  | BWatermark (appliedSeqno : Z).
#[global] Instance body_eq_dec : EqDecision body.
Proof. solve_decision. Defined.

(** The objects by key. An etag is derived from the content of an object, so it is modelled as that content. *)
Definition bucket : Type := list (jsstr * body).

Definition os_get (b : bucket) (key : jsstr) : option body := jm_get b key.
Definition os_putImmutable (b : bucket) (key : jsstr) (x : body) : bucket :=
  match os_get b key with Some _ => b | None => jm_set b key x end.
Definition os_casPut (b : bucket) (key : jsstr) (x : body) (ifMatch : option body) : res bucket :=
  match ifMatch, os_get b key with
  | None, Some _ => Err CasConflict
  | None, None => Ok (jm_set b key x)
  | Some e, Some c => if decide (c = e) then Ok (jm_set b key x) else Err CasConflict
  | Some _, None => Err CasConflict
  end.
Definition os_list (b : bucket) (prefix : jsstr) : list jsstr := List.filter (starts_with prefix) b.*1.
Definition os_delete (b : bucket) (key : jsstr) : bucket := jm_delete b key.

(** ** Calls *)
Inductive oscall :=
  | CGet (key : jsstr)
  | CPut (key : jsstr) (x : body)
  | CCas (key : jsstr) (x : body) (ifMatch : option body)
  | CList (prefix : jsstr)
  | CDelete (key : jsstr).
Inductive osreply :=
  | RBody (x : option body)
  | REtag (x : body)
  | RKeys (ks : list jsstr)
  | RUnit.

(** The answer of the store and the bucket it leaves *)
Definition os_exec (b : bucket) (c : oscall) : res osreply * bucket :=
  match c with
  | CGet k => (Ok (RBody (os_get b k)), b)
  | CPut k x => (Ok RUnit, os_putImmutable b k x)
  | CCas k x e => match os_casPut b k x e with Ok b' => (Ok (REtag x), b') | Err e => (Err e, b) end
  | CList p => (Ok (RKeys (os_list b p)), b)
  | CDelete k => (Ok RUnit, os_delete b k)
  end.

(** ** Programs: asynchronous code suspended at its calls, other code may run at each [await] *)
Inductive prog (A : Type) : Type :=
  | Done (a : A)
  | Call (c : oscall) (k : res osreply → prog A).
Arguments Done {A} _.
Arguments Call {A} _ _.
Fixpoint pbind {A B} (p : prog A) (f : A → prog B) : prog B :=
  match p with Done a => f a | Call c k => Call c (λ r, pbind (k r) f) end.

(** Code with an object's fields [S] that returns or throws *)
Definition M (S A : Type) : Type := S → prog (S * res A).
Definition mret {S A} (a : A) : M S A := λ s, Done (s, Ok a).
Definition mthrow {S A} (e : exn) : M S A := λ s, Done (s, Err e).
Definition mlift {S A} (r : res A) : M S A := λ s, Done (s, r).
Definition mbind' {S A B} (m : M S A) (f : A → M S B) : M S B :=
  λ s, pbind (m s) (λ x, match x.2 with Ok a => f a x.1 | Err e => Done (x.1, Err e) end).
Definition mtry {S A} (m : M S A) (h : exn → M S A) : M S A :=
  λ s, pbind (m s) (λ x, match x.2 with Ok a => Done x | Err e => h e x.1 end).
Definition mstate {S} : M S S := λ s, Done (s, Ok s).
Definition mset {S} (f : S → S) : M S unit := λ s, Done (f s, Ok tt).
Notation "'let@' x := m 'in' k" := (mbind' m (λ x, k)) (at level 10, x pattern, m at level 100, k at level 200) : helipod_scope.
Notation "'do@' m 'in' k" := (mbind' m (λ _, k)) (at level 10, m at level 100, k at level 200) : helipod_scope.

Definition call {S} (c : oscall) : M S osreply := λ s, Call c (λ r, Done (s, r)).
Definition c_get {S} (key : jsstr) : M S (option body) :=
  let@ r := call (CGet key) in match r with RBody x => mret x | _ => mthrow TypeError end.
Definition c_put {S} (key : jsstr) (x : body) : M S unit := do@ call (CPut key x) in mret tt.
Definition c_cas {S} (key : jsstr) (x : body) (ifMatch : option body) : M S body :=
  let@ r := call (CCas key x ifMatch) in match r with REtag e => mret e | _ => mthrow TypeError end.
Definition c_list {S} (prefix : jsstr) : M S (list jsstr) :=
  let@ r := call (CList prefix) in match r with RKeys ks => mret ks | _ => mthrow TypeError end.
Definition c_delete {S} (key : jsstr) : M S unit := do@ call (CDelete key) in mret tt.

Definition isCasConflict (e : exn) : bool := match e with CasConflict => true | _ => false end.

(** ** Keys *)
Definition manifestKey (shard : jsstr) : jsstr := js "s" ++ shard ++ js "/manifest".
Definition segPrefix (shard : jsstr) : jsstr := js "s" ++ shard ++ js "/seg/".
Definition segmentKey (shard : jsstr) (seqno : Z) : jsstr := segPrefix shard ++ string_of_int seqno.
Definition snapPrefix (shard : jsstr) : jsstr := js "s" ++ shard ++ js "/snap/".
Definition snapshotKey (shard : jsstr) (ts : Z) : jsstr := snapPrefix shard ++ string_of_int ts.
Definition consumersPrefix (shard : jsstr) : jsstr := js "s" ++ shard ++ js "/consumers/".
Definition consumerKey (shard consumerId : jsstr) : jsstr := consumersPrefix shard ++ consumerId.

(** [key.slice(key.lastIndexOf("/") + 1)] *)
Fixpoint after_slash (acc s : jsstr) : jsstr :=
  match s with [] => rev acc | c :: s' => if c =? 47 then after_slash [] s' else after_slash (c :: acc) s' end.
Definition key_suffix (key : jsstr) : jsstr := after_slash [] key.
(** The integer a key's suffix spells ([Number(suffix)] with [Number.isInteger], [/^\d+$/] with [BigInt]): exact on the decimal spellings the
    keys are written with, [None] elsewhere. *)
Definition suffix_int (key : jsstr) : option Z :=
  let s := key_suffix key in
  match s with [] => None | _ => if forallb is_digit s then parseInt10 s else None end.

(** ** Manifest *)
Definition emptyManifest : Manifest :=
  {| m_epoch := 0; m_frontierTs := 0; m_tsCounter := 0; m_segments := []; m_nextSeqno := 0; m_writerId := []; m_leaseExpiresAt := 0;
     m_snapshotTs := None; m_snapshotSegBase := None |}.
Record Cached := { c_manifest : Manifest; c_etag : body }.
Definition readManifest {S} (shard : jsstr) : M S (option Cached) :=
  let@ entry := c_get (manifestKey shard) in
  match entry with
  | None => mret None
  | Some (BManifest m) => mret (Some {| c_manifest := m; c_etag := BManifest m |})
  | Some _ => mthrow TypeError
  end.
Definition createManifest {S} (shard : jsstr) : M S Cached :=
  let@ etag := c_cas (manifestKey shard) (BManifest emptyManifest) None in mret {| c_manifest := emptyManifest; c_etag := etag |}.
Definition casManifest {S} (shard : jsstr) (next : Manifest) (ifMatch : body) : M S body := c_cas (manifestKey shard) (BManifest next) (Some ifMatch).

(** ** Snapshot objects *)
Definition writeSnapshot {S} (shard : jsstr) (p : SnapshotPayload) : M S unit :=
  c_put (snapshotKey shard (sn_frontierTs p)) (BSnapshot (encodeSnapshot p)).
Definition readSnapshot {S} (shard : jsstr) (ts : Z) : M S (option SnapshotPayload) :=
  let@ entry := c_get (snapshotKey shard ts) in
  match entry with
  | None => mret None
  | Some (BSnapshot w) => let@ p := mlift (decodeSnapshot w) in mret (Some p)
  | Some _ => mthrow TypeError
  end.

(** ** Consumer watermarks *)
Fixpoint publish_loop {S} (key : jsstr) (x : body) (attempts : nat) : M S unit :=
  match attempts with
  | O => mthrow (PlainError "publishConsumerWatermark exhausted retries")
  | Datatypes.S attempts' =>
      let@ existing := c_get key in
      mtry (do@ c_cas key x existing in mret tt)
        (λ e, if isCasConflict e then publish_loop key x attempts' else mthrow e)
  end.
Definition publishConsumerWatermark {S} (shard consumerId : jsstr) (appliedSeqno : Z) : M S unit :=
  publish_loop (consumerKey shard consumerId) (BWatermark appliedSeqno) 5.
Fixpoint read_watermarks {S} (prefix : jsstr) (keys : list jsstr) : M S (list (jsstr * Z)) :=
  match keys with
  | [] => mret []
  | key :: keys' =>
      let@ entry := c_get key in
      match entry with
      | None => read_watermarks prefix keys'
      | Some (BWatermark n) =>
          let@ out := read_watermarks prefix keys' in mret ((drop (length prefix) key, n) :: out)
      | Some _ => mthrow TypeError
      end
  end.
Definition readConsumerWatermarks {S} (shard : jsstr) : M S (list (jsstr * Z)) :=
  let@ keys := c_list (consumersPrefix shard) in read_watermarks (consumersPrefix shard) keys.
Definition removeConsumer {S} (shard consumerId : jsstr) : M S unit := c_delete (consumerKey shard consumerId).

(** ** Cross-shard frontier *)
Fixpoint frontier_loop {S} (shards : list jsstr) (min : option Z) : M S Z :=
  match shards with
  | [] => mret (default 0 min)
  | shard :: shards' =>
      let@ entry := readManifest shard in
      match entry with
      | None => mret 0
      | Some c =>
          let ts := m_frontierTs (c_manifest c) in
          frontier_loop shards' (match min with None => Some ts | Some t => if ts <? t then Some ts else min end)
      end
  end.
Definition readGlobalFrontier {S} (shards : list jsstr) : M S Z := match shards with [] => mret 0 | _ => frontier_loop shards None end.

(** A program run without interference *)
Fixpoint run_prog {A} (b : bucket) (p : prog A) : bucket * A :=
  match p with Done a => (b, a) | Call c k => let '(r, b') := os_exec b c in run_prog b' (k r) end.
