(* ===== verification/ObjectDocStore.v ===== *)
(** [ObjectStoreDocStore] ([ee/packages/objectstore-substrate/src/object-doc-store.ts], [apply-snapshot.ts]): a shard's document store whose durable
    log is a bucket. Each method is a program over the bucket's calls and the instance's own fields; the in-process mutex is the one program at a
    time of the system below. *)
From S2P Require Import Prelude Numbers Values Json IdCodec DocStore Segments ObjectStore.

Definition SNAPSHOT_EVERY : Z := 8.

(** ** The instance *)
Record Lease := { h_epoch : Z; h_writerId : jsstr }.
Record Inst := {
  i_local : db; i_cached : Cached; i_nextSeqno : Z; i_poisoned : bool; i_held : option Lease; i_committedSegmentsSinceSnapshot : Z }.
Definition set_local (d : db) (i : Inst) : Inst :=
  {| i_local := d; i_cached := i_cached i; i_nextSeqno := i_nextSeqno i; i_poisoned := i_poisoned i; i_held := i_held i;
     i_committedSegmentsSinceSnapshot := i_committedSegmentsSinceSnapshot i |}.
Definition set_cached (c : Cached) (i : Inst) : Inst :=
  {| i_local := i_local i; i_cached := c; i_nextSeqno := i_nextSeqno i; i_poisoned := i_poisoned i; i_held := i_held i;
     i_committedSegmentsSinceSnapshot := i_committedSegmentsSinceSnapshot i |}.
Definition set_next (n : Z) (i : Inst) : Inst :=
  {| i_local := i_local i; i_cached := i_cached i; i_nextSeqno := n; i_poisoned := i_poisoned i; i_held := i_held i;
     i_committedSegmentsSinceSnapshot := i_committedSegmentsSinceSnapshot i |}.
Definition set_poisoned (b : bool) (i : Inst) : Inst :=
  {| i_local := i_local i; i_cached := i_cached i; i_nextSeqno := i_nextSeqno i; i_poisoned := b; i_held := i_held i;
     i_committedSegmentsSinceSnapshot := i_committedSegmentsSinceSnapshot i |}.
Definition set_held (h : option Lease) (i : Inst) : Inst :=
  {| i_local := i_local i; i_cached := i_cached i; i_nextSeqno := i_nextSeqno i; i_poisoned := i_poisoned i; i_held := h;
     i_committedSegmentsSinceSnapshot := i_committedSegmentsSinceSnapshot i |}.
Definition set_since (n : Z) (i : Inst) : Inst :=
  {| i_local := i_local i; i_cached := i_cached i; i_nextSeqno := i_nextSeqno i; i_poisoned := i_poisoned i; i_held := i_held i;
     i_committedSegmentsSinceSnapshot := n |}.
Definition new_Inst (local : db) (cached : Cached) : Inst :=
  {| i_local := local; i_cached := cached; i_nextSeqno := 0; i_poisoned := false; i_held := None; i_committedSegmentsSinceSnapshot := 0 |}.

(** ** Restoring a snapshot *)
(** The rows of [local] the snapshot dropped, as tombstones at its frontier *)
Definition dropped_docs (current : list DocumentLogEntry) (snap : SnapshotPayload) (frontierTs : Z) : list DocumentLogEntry :=
  let snapshotIds := List.map (λ d, documentIdKey (le_id d)) (sn_documents snap) in
  List.map (λ d, {| le_ts := frontierTs; le_id := le_id d; le_value := None; le_prev_ts := Some (le_ts d) |})
    (List.filter (λ d, negb (bool_decide (documentIdKey (le_id d) ∈ snapshotIds))) current).
Definition applySnapshotState (local : db) (snap : SnapshotPayload) (frontierTs : Z) : res (db * list DocumentLogEntry) :=
  let! currentState := dumpCurrentState local in
  let deletedDocs := dropped_docs currentState.1 snap frontierTs in
  let! local := match deletedDocs with [] => Ok local | _ => write local deletedDocs [] CSOverwrite None end in
  let! local := write local (sn_documents snap) (sn_indexUpdates snap) CSOverwrite None in
  Ok (local, deletedDocs).

(** [await this.local.write(...)] *)
Definition local_write (docs : list DocumentLogEntry) (idx : list IndexWrite) (shardId : option jsstr) : M Inst unit :=
  let@ i := mstate in let@ d := mlift (write (i_local i) docs idx CSOverwrite shardId) in mset (set_local d).

(** A unit at its timestamp, and a batch at consecutive ones *)
Definition stamp_unit (u : CommitUnit) (ts : Z) : SegmentPayload :=
  {| sp_documents := List.map (stamp_doc ts) (cu_documents u); sp_indexUpdates := List.map (stamp_idx ts) (cu_indexUpdates u) |}.
Fixpoint stamp_units (units : list CommitUnit) (floor : Z) : list (SegmentPayload * Z) :=
  match units with [] => [] | u :: units' => (stamp_unit u (floor + 1), floor + 1) :: stamp_units units' (floor + 1) end.
Definition batch_payload (stamped : list (SegmentPayload * Z)) : SegmentPayload :=
  {| sp_documents := List.concat (List.map (λ u, sp_documents u.1) stamped);
     sp_indexUpdates := List.concat (List.map (λ u, sp_indexUpdates u.1) stamped) |}.

Inductive acquired := Acquired | NotAcquired (heldBy : jsstr) (expiresAt : Z).

(** The manifests the operations install *)
Definition claimed_manifest (m : Manifest) (writerId : jsstr) (leaseExpiresAt : Z) : Manifest :=
  {| m_epoch := m_epoch m + 1; m_frontierTs := m_frontierTs m; m_tsCounter := m_tsCounter m; m_segments := m_segments m;
     m_nextSeqno := if 0 <? m_epoch m then m_nextSeqno m + 1 else m_nextSeqno m; m_writerId := writerId; m_leaseExpiresAt := leaseExpiresAt;
     m_snapshotTs := m_snapshotTs m; m_snapshotSegBase := m_snapshotSegBase m |}.
Definition leased_manifest (m : Manifest) (writerId : jsstr) (leaseExpiresAt : Z) : Manifest :=
  {| m_epoch := m_epoch m; m_frontierTs := m_frontierTs m; m_tsCounter := m_tsCounter m; m_segments := m_segments m;
     m_nextSeqno := m_nextSeqno m; m_writerId := writerId; m_leaseExpiresAt := leaseExpiresAt;
     m_snapshotTs := m_snapshotTs m; m_snapshotSegBase := m_snapshotSegBase m |}.
Definition committed_manifest (m : Manifest) (epoch maxTs seqno : Z) : Manifest :=
  {| m_epoch := epoch; m_frontierTs := maxTs; m_tsCounter := maxTs; m_segments := m_segments m ++ [seqno];
     m_nextSeqno := seqno + 1; m_writerId := m_writerId m; m_leaseExpiresAt := m_leaseExpiresAt m;
     m_snapshotTs := m_snapshotTs m; m_snapshotSegBase := m_snapshotSegBase m |}.
Definition snapshot_manifest (m : Manifest) (ts segBase : Z) : Manifest :=
  {| m_epoch := m_epoch m; m_frontierTs := m_frontierTs m; m_tsCounter := m_tsCounter m;
     m_segments := List.filter (λ s, segBase <? s) (m_segments m); m_nextSeqno := m_nextSeqno m; m_writerId := m_writerId m;
     m_leaseExpiresAt := m_leaseExpiresAt m; m_snapshotTs := Some ts; m_snapshotSegBase := Some segBase |}.

Section Store.
Variable shard : jsstr.

(** ** Materialization *)
Fixpoint replay_segments (segments : list Z) (appliedThrough : Z) : M Inst unit :=
  match segments with
  | [] => mret tt
  | seqno :: rest =>
      if seqno <=? appliedThrough then replay_segments rest appliedThrough
      else
        let@ entry := c_get (segmentKey shard seqno) in
        match entry with
        | None => mthrow (PlainError "missing segment referenced by manifest")
        | Some (BSegment w) =>
            let@ payload := mlift (decodeSegment w) in
            do@ local_write (sp_documents payload) (sp_indexUpdates payload) None in
            replay_segments rest seqno
        | Some _ => mthrow TypeError
        end
  end.
(** The snapshot part: the highest seqno then applied *)
Definition restore_snapshot (manifest : Manifest) (appliedThrough : Z) : M Inst Z :=
  match m_snapshotTs manifest, m_snapshotSegBase manifest with
  | Some ts, Some segBase =>
      if appliedThrough <? segBase then
        let@ snap := readSnapshot shard ts in
        match snap with
        | None => mthrow (PlainError "missing snapshot referenced by manifest (torn state)")
        | Some snap =>
            let@ i := mstate in
            let@ (d, _) := mlift (applySnapshotState (i_local i) snap (sn_frontierTs snap)) in
            do@ mset (set_local d) in mret segBase
        end
      else mret appliedThrough
  | _, _ => mret appliedThrough
  end.
Definition materializeTo (manifest : Manifest) : M Inst unit :=
  let@ i := mstate in
  let@ appliedThrough := restore_snapshot manifest (i_nextSeqno i - 1) in
  do@ replay_segments (m_segments manifest) appliedThrough in
  mset (set_next (m_nextSeqno manifest)).

(** [open]: the manifest read or created, and a new instance bootstrapped over [local] *)
Definition read_or_create : M Inst Cached :=
  let@ cached := readManifest shard in
  match cached with
  | Some c => mret c
  | None =>
      mtry (createManifest shard)
        (λ e, if negb (isCasConflict e) then mthrow e
              else let@ c := readManifest shard in match c with Some c => mret c | None => mthrow e end)
  end.
Definition open : M Inst unit :=
  let@ cached := read_or_create in
  let@ i := mstate in
  do@ mset (λ _, new_Inst (i_local i) cached) in
  materializeTo (c_manifest cached).

(** ** Lease *)
Definition acquire (writerId : jsstr) (leaseTtlMs now : Z) : M Inst acquired :=
  let@ fresh := readManifest shard in
  match fresh with
  | None => mthrow (PlainError "acquire() found no manifest")
  | Some fresh =>
      let manifest := c_manifest fresh in
      if negb (bool_decide (m_writerId manifest = [])) && (now <=? m_leaseExpiresAt manifest) && negb (bool_decide (m_writerId manifest = writerId))
      then mret (NotAcquired (m_writerId manifest) (m_leaseExpiresAt manifest))
      else
        do@ materializeTo manifest in
        let next := claimed_manifest manifest writerId (now + leaseTtlMs) in
        mtry
          (let@ newEtag := casManifest shard next (c_etag fresh) in
           do@ mset (set_cached {| c_manifest := next; c_etag := newEtag |}) in
           do@ mset (set_held (Some {| h_epoch := m_epoch next; h_writerId := writerId |})) in
           do@ mset (set_poisoned false) in
           do@ mset (set_next (m_nextSeqno next)) in
           mret Acquired)
          (λ e,
             if negb (isCasConflict e) then do@ mset (set_poisoned true) in mthrow e
             else
               let@ reread := readManifest shard in
               match reread with
               | None => mthrow e
               | Some c => mret (NotAcquired (m_writerId (c_manifest c)) (m_leaseExpiresAt (c_manifest c)))
               end)
  end.
Definition heartbeat (now leaseTtlMs : Z) : M Inst unit :=
  let@ i := mstate in
  match i_held i with
  | None => mthrow FencedError
  | Some _ =>
      if i_poisoned i then mthrow FencedError
      else
        let m := c_manifest (i_cached i) in
        let next := leased_manifest m (m_writerId m) (now + leaseTtlMs) in
        mtry
          (let@ etag := casManifest shard next (c_etag (i_cached i)) in
           mset (set_cached {| c_manifest := next; c_etag := etag |}))
          (λ _, do@ mset (set_poisoned true) in do@ mset (set_held None) in mthrow FencedError)
  end.
Definition release : M Inst unit := mset (set_held None).
Definition relinquish : M Inst unit :=
  let@ i := mstate in
  match i_held i with
  | None => mret tt
  | Some _ =>
      let next := leased_manifest (c_manifest (i_cached i)) [] 0 in
      do@ mtry
        (let@ etag := casManifest shard next (c_etag (i_cached i)) in
         mset (set_cached {| c_manifest := next; c_etag := etag |}))
        (λ _, mret tt) in
      mset (set_held None)
  end.

(** ** Commit *)
Fixpoint apply_stamped (stamped : list (SegmentPayload * Z)) (shardId : option jsstr) : M Inst unit :=
  match stamped with
  | [] => mret tt
  | u :: rest => do@ local_write (sp_documents u.1) (sp_indexUpdates u.1) shardId in apply_stamped rest shardId
  end.
(** The exclusive part of [commitWriteBatch] *)
Definition commitExclusive (units : list CommitUnit) (shardId : option jsstr) : M Inst (list Z) :=
  let@ i := mstate in
  match i_held i with
  | None => mthrow (PlainError "not the lease owner")
  | Some held =>
      if Nat.eqb (length units) 0 then mret []
      else if i_poisoned i then mthrow (PlainError "poisoned")
      else if negb (m_epoch (c_manifest (i_cached i)) =? h_epoch held) then do@ mset (set_poisoned true) in mthrow FencedError
      else
        let m := c_manifest (i_cached i) in
        let localMax := maxTimestamp (i_local i) in
        let floor := if localMax <? m_tsCounter m then m_tsCounter m else localMax in
        let stamped := stamp_units units floor in
        let tsList := List.map snd stamped in
        let maxTs := List.last tsList floor in
        let seqno := i_nextSeqno i in
        do@ c_put (segmentKey shard seqno) (BSegment (encodeSegment (batch_payload stamped))) in
        let next := committed_manifest m (h_epoch held) maxTs seqno in
        let@ etag := mtry (casManifest shard next (c_etag (i_cached i)))
          (λ e, do@ mset (set_poisoned true) in
                if isCasConflict e then do@ mset (set_held None) in mthrow FencedError else mthrow e) in
        do@ mtry (apply_stamped stamped shardId)
          (λ _, do@ mset (set_poisoned true) in mthrow (PlainError "post-commit local apply failed")) in
        do@ mset (set_cached {| c_manifest := next; c_etag := etag |}) in
        do@ mset (set_next (seqno + 1)) in
        do@ mset (λ i, set_since (i_committedSegmentsSinceSnapshot i + 1) i) in
        mret tsList
  end.

(** ** Snapshots *)
Definition snapshot : M Inst unit :=
  let@ i := mstate in
  if i_poisoned i then mthrow (PlainError "poisoned")
  else if i_nextSeqno i =? 0 then mret tt
  else
    let@ dump := mlift (dumpCurrentState (i_local i)) in
    let m := c_manifest (i_cached i) in
    let frontierTs := m_frontierTs m in
    let segBase := i_nextSeqno i - 1 in
    do@ writeSnapshot shard {| sn_frontierTs := frontierTs; sn_segBase := segBase; sn_documents := dump.1; sn_indexUpdates := dump.2 |} in
    let next := snapshot_manifest m frontierTs segBase in
    do@ mtry
      (let@ etag := casManifest shard next (c_etag (i_cached i)) in
       mset (set_cached {| c_manifest := next; c_etag := etag |}))
      (λ e, do@ mset (set_poisoned true) in if isCasConflict e then mthrow FencedError else mthrow e) in
    mset (set_since 0).
Definition maybeSnapshot : M Inst unit :=
  let@ i := mstate in
  if i_poisoned i then mret tt
  else if i_committedSegmentsSinceSnapshot i <? SNAPSHOT_EVERY then mret tt
  else snapshot.
Definition maybeSnapshotBestEffort : M Inst unit := mtry maybeSnapshot (λ _, mret tt).
(** With nothing queued on the mutex between the two parts *)
Definition commitWriteBatch (units : list CommitUnit) (shardId : option jsstr) : M Inst (list Z) :=
  let@ tsList := commitExclusive units shardId in
  do@ maybeSnapshotBestEffort in
  mret tsList.
Definition commitWrite (docs : list DocumentLogEntry) (idx : list IndexWrite) (shardId : option jsstr) (meta : Meta) : M Inst Z :=
  let@ out := commitWriteBatch [{| cu_documents := docs; cu_indexUpdates := idx; cu_meta := meta |}] shardId in
  match out with ts :: _ => mret ts | [] => mthrow TypeError end.

(** ** Reclaiming superseded objects *)
(** One deletion loop of [gc]: the keys whose suffix is an integer the predicate accepts *)
Fixpoint delete_where (doomed : Z → bool) (keys : list jsstr) : M Inst Z :=
  match keys with
  | [] => mret 0
  | key :: keys' =>
      match suffix_int key with
      | Some n =>
          if doomed n then do@ c_delete key in let@ k := delete_where doomed keys' in mret (k + 1)
          else delete_where doomed keys'
      | None => delete_where doomed keys'
      end
  end.
(** [Math.min(...)] of the watermarks and the snapshot's base *)
Definition gc_floor (segBase : Z) (watermarks : list (jsstr * Z)) : Z := fold_left (λ f w, Z.min f w.2) watermarks segBase.
Definition gc : M Inst (Z * Z) :=
  let@ i := mstate in
  if i_poisoned i then mthrow (PlainError "poisoned")
  else
    match i_held i with
    | None => mret (0, 0)
    | Some held =>
        let@ fresh := readManifest shard in
        match fresh with
        | None => mthrow (PlainError "gc() found no manifest")
        | Some fresh =>
            if negb (m_epoch (c_manifest fresh) =? h_epoch held) then
              do@ mset (set_poisoned true) in do@ mset (set_held None) in mret (0, 0)
            else
              do@ mset (set_cached fresh) in
              match m_snapshotTs (c_manifest fresh), m_snapshotSegBase (c_manifest fresh) with
              | Some keepSnap, Some segBase =>
                  let@ watermarks := readConsumerWatermarks shard in
                  let floor := gc_floor segBase watermarks in
                  let@ segKeys := c_list (segPrefix shard) in
                  let@ deletedSegments := delete_where (λ seqno, seqno <=? floor) segKeys in
                  let@ snapKeys := c_list (snapPrefix shard) in
                  let@ deletedSnapshots := delete_where (λ ts, ts <? keepSnap) snapKeys in
                  mret (deletedSegments, deletedSnapshots)
              | _, _ => mret (0, 0)
              end
        end
    end.
End Store.
