(* ===== verification/ObjectLog.v ===== *)
(** The document rows of a local store and of the durable log, compared by what reads see: the newest revision of each document. Lemmas on
    overlay writes, dumps and snapshot restores, used for [ObjectStoreDocStore]. *)
From S2P Require Import Prelude Numbers Values IndexKeys Json IdCodec DocStore Segments ObjectStore ObjectDocStore.

Lemma elem_lfilter {A} (f : A → bool) l x : x ∈ List.filter f l ↔ x ∈ l ∧ f x = true.
Proof. rewrite !list_elem_of_In. apply List.filter_In. Qed.

(** ** Rows and what is live in them *)
Record lrow := { l_key : jsstr * bytes; l_ts : Z; l_prev : option Z; l_value : option json }.
Definition id_key (id : InternalDocumentId) : jsstr * bytes := (encodeStorageTableId (tableNumber id), internalId id).
Definition strip (r : docRow) : lrow := {| l_key := (d_table r, d_internal r); l_ts := d_ts r; l_prev := d_prev r; l_value := d_value r |}.
Definition entry_row (e : DocumentLogEntry) : lrow :=
  {| l_key := id_key (le_id e); l_ts := le_ts e; l_prev := le_prev_ts e; l_value := option_map (λ d, serializeValue (rd_value d)) (le_value e) |}.
Definition l_pk (r : lrow) : jsstr * bytes * Z := (l_key r, l_ts r).
Definition live (L : list lrow) (r : lrow) : Prop := r ∈ L ∧ l_value r ≠ None ∧ ∀ r', r' ∈ L → l_key r' = l_key r → l_ts r' ≤ l_ts r.
(** The newest timestamp, 0 of none *)
Definition top (L : list lrow) : Z := foldr (λ r m, Z.max (l_ts r) m) 0 L.

Lemma strip_doc_row sh e : strip (doc_row sh e) = entry_row e.
Proof. done. Qed.
Lemma strip_pk r : doc_pk r = l_pk (strip r).
Proof. done. Qed.
Lemma entry_row_canon e : entry_ok e → entry_row (canon_log e) = entry_row e.
Proof. intros H. rewrite <-!(strip_doc_row []). by rewrite doc_row_canon. Qed.
Lemma top_cons r L : top (r :: L) = Z.max (l_ts r) (top L).
Proof. done. Qed.
Lemma top_nonneg L : 0 ≤ top L.
Proof. induction L as [|r L IH]; [done|]. rewrite top_cons. lia. Qed.
Lemma top_ub L r : r ∈ L → l_ts r ≤ top L.
Proof. induction L as [|x L IH]; [by intros ?%elem_of_nil|]. rewrite top_cons. intros [->|H]%elem_of_cons; [lia|]. specialize (IH H). lia. Qed.
Lemma top_le L n : 0 ≤ n → (∀ r, r ∈ L → l_ts r ≤ n) → top L ≤ n.
Proof.
  intros Hn. induction L as [|x L IH]; intros H; [done|]. rewrite top_cons. apply Z.max_lub; [apply H, elem_of_cons; by left|].
  apply IH. intros r Hr. apply H, elem_of_cons. by right.
Qed.
Lemma top_app L X : top (L ++ X) = Z.max (top L) (top X).
Proof. induction L as [|r L IH]; [pose proof (top_nonneg X); cbn [app]; unfold top at 2; cbn; lia|]. cbn [app]. rewrite !top_cons, IH. lia. Qed.
Lemma live_ext L L' r : (∀ x, x ∈ L ↔ x ∈ L') → live L r ↔ live L' r.
Proof. intros H. unfold live. setoid_rewrite H. done. Qed.
Lemma live_app L L' X r : (∀ r, live L r ↔ live L' r) → (∀ x y, x ∈ L ∨ x ∈ L' → y ∈ X → l_ts x < l_ts y) → live (L ++ X) r ↔ live (L' ++ X) r.
Proof.
  assert (∀ A B, (∀ r, live A r ↔ live B r) → (∀ x y, x ∈ A ∨ x ∈ B → y ∈ X → l_ts x < l_ts y) → live (A ++ X) r → live (B ++ X) r) as Hx.
  { intros A B H Hts ([Hr|Hr]%elem_of_app & Hv & Hm).
    - assert (live A r) as Ha by (split_and!; try done; intros r' Hr'; apply Hm; apply elem_of_app; by left).
      apply H in Ha as (Hb & _ & Hm'). split_and!; try done; [apply elem_of_app; by left|]. intros r' [Hr'|Hr']%elem_of_app K; [by apply Hm'|].
      apply Hm; [apply elem_of_app; by right|done].
    - split_and!; try done; [apply elem_of_app; by right|]. intros r' [Hr'|Hr']%elem_of_app K.
      + apply Z.lt_le_incl, Hts; auto.
      + apply Hm; [apply elem_of_app; by right|done]. }
  intros H Hts. split; apply Hx; try done. intros x y [Hx'|Hx']; apply Hts; auto.
Qed.
(** Two live revisions of a document are one. *)
Lemma live_unique L r r' : NoDup (l_pk <$> L) → live L r → live L r' → l_key r = l_key r' → r = r'.
Proof.
  intros Hnd (H1 & _ & M1) (H2 & _ & M2) K. assert (l_pk r = l_pk r').
  { unfold l_pk. rewrite K. f_equal. specialize (M1 _ H2 (eq_sym K)). specialize (M2 _ H1 K). lia. }
  apply list_elem_of_lookup in H1 as [i Hi], H2 as [j Hj].
  enough (i = j) as -> by congruence. apply (NoDup_lookup (l_pk <$> L) i j (l_pk r)); [done| |].
  - by rewrite list_lookup_fmap, Hi.
  - rewrite list_lookup_fmap, Hj. cbn. by f_equal.
Qed.

(** ** [INSERT OR REPLACE] *)
Lemma insert_overwrite rows new : NoDup (doc_pk <$> new) → ∃ rows', insert_docs CSOverwrite rows new = Ok rows' ∧
  (∀ x, x ∈ rows' ↔ x ∈ new ∨ (x ∈ rows ∧ doc_pk x ∉ (doc_pk <$> new))) ∧ (NoDup (doc_pk <$> rows) → NoDup (doc_pk <$> rows')).
Proof.
  revert rows. induction new as [|r new IH]; intros rows Hnd; cbn [insert_docs].
  { exists rows. split_and!; [done| |done]. intros x. rewrite elem_of_nil. csimpl. split; [|tauto]. intros. right. split; [done|apply not_elem_of_nil]. }
  csimpl in Hnd. apply NoDup_cons in Hnd as [Hr Hnd]. cbn [insert_doc res_bind].
  destruct (IH (List.filter (λ x, negb (bool_decide (doc_pk x = doc_pk r))) rows ++ [r]) Hnd) as (rows' & E & Hx & Hk).
  exists rows'. rewrite E. split_and!; [done| |].
  - intros x. rewrite Hx, elem_of_app, list_elem_of_singleton, elem_lfilter, negb_true_iff, bool_decide_eq_false.
    csimpl. rewrite !elem_of_cons. split.
    + intros [H|[[[H1 H2]| ->] H3]]; [by auto| |by auto]. right. split; [done|]. intros [?|?]; auto.
    + intros [[-> |H]|[H1 H2]]; [|by auto|]; right; (split; [|tauto]); [by right|left; split; [done|tauto]].
  - intros Hrows. apply Hk. rewrite fmap_app. csimpl. apply NoDup_app. split; [by apply NoDup_filter_map|]. split; [|apply NoDup_singleton].
    intros pk (x & -> & Hx')%list_elem_of_fmap Ex%list_elem_of_singleton.
    apply elem_lfilter in Hx' as [_ Hx']. apply negb_true_iff, bool_decide_eq_false in Hx'. done.
Qed.

(** ** A local store that shows the log's state *)
Definition doc_ok (r : docRow) : Prop := ∃ sh e, entry_ok e ∧ r = doc_row sh e.
Definition idx_ok (r : idxRow) : Prop := ∃ sh w, write_ok w ∧ r = idx_row sh w.
Definition rows_of (d : db) : list lrow := strip <$> documents d.
Record shows (d : db) (L : list lrow) : Prop := {
  sh_pk : NoDup (doc_pk <$> documents d);
  sh_docs : Forall doc_ok (documents d);
  sh_idx : Forall idx_ok (indexes d);
  sh_top : ∀ r, r ∈ rows_of d → l_ts r ≤ top L;
  sh_live : ∀ r, live (rows_of d) r ↔ live L r }.

Lemma pk_rows d : l_pk <$> rows_of d = doc_pk <$> documents d.
Proof. unfold rows_of. by rewrite <-list_fmap_compose. Qed.
Lemma shows_empty d : documents d = [] → indexes d = [] → shows d [].
Proof. intros E1 E2. split; unfold rows_of; rewrite ?E1, ?E2; try constructor; csimpl; set_solver. Qed.
Lemma shows_max d L : shows d L → maxTimestamp d ≤ top L.
Proof.
  intros H. unfold maxTimestamp. destruct (sql_max _) as [m|] eqn:E; [|apply top_nonneg]. apply sql_max_Some in E as [E _].
  apply list_elem_of_In, in_map_iff in E as (r & <- & Hr%list_elem_of_In). apply (sh_top _ _ H (strip r)). apply list_elem_of_fmap. by exists r.
Qed.

Lemma entries_pk sh es : doc_pk <$> List.map (doc_row sh) es = l_pk <$> List.map entry_row es.
Proof. induction es as [|e es IH]; [done|]. cbn. f_equal. done. Qed.
Lemma strip_entries sh es : strip <$> List.map (doc_row sh) es = List.map entry_row es.
Proof. induction es as [|e es IH]; [done|]. cbn. by f_equal. Qed.
Lemma idx_write_ok sh idx rows : Forall idx_ok rows → Forall write_ok idx →
  Forall idx_ok (fold_left replace_idx (List.map (idx_row sh) idx) rows).
Proof.
  intros Hr Hw. apply Forall_forall. intros x [Hx|Hx]%fold_replace_elem; [|by eapply Forall_forall in Hr].
  apply list_elem_of_In, in_map_iff in Hx as (w & <- & Hw'%list_elem_of_In). eapply Forall_forall in Hw; [|done]. by exists sh, w.
Qed.

(** An overlay write, by membership *)
Lemma write_rows d es idx sh : NoDup (l_pk <$> List.map entry_row es) → Forall entry_ok es → Forall write_ok idx →
  NoDup (doc_pk <$> documents d) → Forall doc_ok (documents d) → Forall idx_ok (indexes d) →
  ∃ d', write d es idx CSOverwrite sh = Ok d' ∧ NoDup (doc_pk <$> documents d') ∧ Forall doc_ok (documents d') ∧ Forall idx_ok (indexes d') ∧
    ∀ x, x ∈ rows_of d' ↔ x ∈ List.map entry_row es ∨ (x ∈ rows_of d ∧ l_pk x ∉ (l_pk <$> List.map entry_row es)).
Proof.
  intros Hnd He Hw Hpk Hdo Hio. unfold write, insertRows. set (s := default DEFAULT_SHARD sh).
  destruct (insert_overwrite (documents d) (List.map (doc_row s) es)) as (rows' & E & Hx & Hk); [by rewrite entries_pk|].
  rewrite E. cbn [res_bind]. eexists. split; [done|]. cbn [with_log documents indexes]. split_and!; [by apply Hk| |by apply idx_write_ok|].
  - apply Forall_forall. intros r [Hr|[Hr _]]%Hx; [|by eapply Forall_forall in Hdo].
    apply list_elem_of_In, in_map_iff in Hr as (e & <- & Hr%list_elem_of_In). eapply Forall_forall in He; [|done]. by exists s, e.
  - intros x. unfold rows_of. cbn [documents with_log]. rewrite <-(entries_pk s es), <-(strip_entries s es), !(list_elem_of_fmap strip). split.
    + intros (r & -> & [Hr|[Hr Hn]]%Hx); [left; by exists r|]. right. split; [by exists r|exact Hn].
    + intros [(r & -> & Hr)|[(r & -> & Hr) Hn]]; exists r; (split; [done|]); apply Hx; [by left|right]. by split.
Qed.

(** The rows of a commit, newer than everything before them *)
Lemma shows_write d L es idx sh : shows d L → NoDup (l_pk <$> List.map entry_row es) → Forall entry_ok es → Forall write_ok idx →
  (∀ e, e ∈ es → top L < le_ts e) →
  ∃ d', write d es idx CSOverwrite sh = Ok d' ∧ shows d' (L ++ List.map entry_row es).
Proof.
  intros [H1 H2 H3 H4 H5] Hnd He Hw Hts. destruct (write_rows d es idx sh Hnd He Hw H1 H2 H3) as (d' & E & P1 & P2 & P3 & Hx).
  exists d'. split; [done|].
  assert (∀ x, x ∈ List.map entry_row es → top L < l_ts x) as Hn.
  { intros x (e & <- & Hin%list_elem_of_In)%list_elem_of_In%in_map_iff. by apply Hts. }
  assert (∀ x, x ∈ rows_of d' ↔ x ∈ rows_of d ++ List.map entry_row es) as Hx'.
  { intros x. rewrite Hx, elem_of_app. split; [tauto|]. intros [Hr|Hr]; [|by left]. right. split; [done|].
    intros (y & Ey & Hy)%list_elem_of_fmap. specialize (Hn y Hy). specialize (H4 x Hr). unfold l_pk in Ey. injection Ey as _ Ey. lia. }
  split; try done.
  - intros r [Hr|Hr]%Hx'%elem_of_app; [|apply top_ub, elem_of_app; by right].
    specialize (H4 r Hr). rewrite top_app. lia.
  - intros r. rewrite (live_ext _ _ _ Hx'). apply live_app; [done|]. intros x y Hxy Hy. specialize (Hn y Hy).
    destruct Hxy as [Hxy|Hxy]; [specialize (H4 x Hxy); lia|]. pose proof (top_ub _ _ Hxy). lia.
Qed.

(** ** Dumps *)
(** What a snapshot of the state [L] shows holds: each live revision, once. *)
Record dumps (es : list DocumentLogEntry) (idx : list IndexWrite) (L : list lrow) : Prop := {
  du_docs : Forall entry_ok es;
  du_idx : Forall write_ok idx;
  du_keys : NoDup (l_key <$> List.map entry_row es);
  du_live : ∀ r, r ∈ List.map entry_row es ↔ live L r }.

Lemma traverse_each {A B} (f : A → res B) (P : A → B → Prop) l : (∀ x, x ∈ l → ∃ y, f x = Ok y ∧ P x y) → ∃ ys, traverse f l = Ok ys ∧ Forall2 P l ys.
Proof.
  induction l as [|x l IH]; intros H; [by exists []|]. destruct (H x) as (y & E & Hy); [apply elem_of_cons; by left|].
  destruct IH as (ys & Es & Hys); [intros z Hz; apply H, elem_of_cons; by right|]. exists (y :: ys). cbn. rewrite E. cbn. rewrite Es. split; [done|]. by constructor.
Qed.
Lemma entry_of_doc r : doc_ok r → ∃ e, entry_of_row r = Ok e ∧ entry_ok e ∧ entry_row e = strip r.
Proof.
  intros (sh & e & [H1 [H2 H2'] H3 H4] & ->). unfold entry_of_row. cbn [doc_row d_table d_internal d_ts d_prev d_value].
  rewrite decode_encodeStorageTableId by done. cbn [res_bind]. set (id := {| tableNumber := tableNumber (le_id e); internalId := internalId (le_id e) |}).
  assert (id = le_id e) as -> by (unfold id; by destruct (le_id e)).
  destruct (le_value e) as [v|] eqn:Ev.
  - destruct (H4 v eq_refl) as [Hb Ho]. rewrite (parse_serialize _ Ho). cbn [res_bind]. eexists. split; [done|]. split.
    + split; try done. intros d [= <-]. cbn [rd_id rd_value]. by rewrite canon_ok.
    + unfold entry_row, strip, doc_row. cbn [le_id le_ts le_prev_ts le_value d_table d_internal d_ts d_prev d_value option_map rd_value]. by rewrite Ev, serialize_canon.
  - eexists. split; [done|]. split; [by split|]. unfold entry_row, strip, doc_row. cbn. by rewrite Ev.
Qed.
Lemma write_of_idx r : idx_ok r → ∃ w, write_of_row r = Ok w ∧ write_ok w.
Proof.
  intros (sh & w & [H1 H2 H3] & ->). unfold write_of_row, idx_row. destruct w as [ts [ix k v]]. cbn in *. destruct v as [|id]; cbn.
  - eexists. by split.
  - destruct (H3 id eq_refl) as [Hb Ht]. rewrite decode_encodeStorageTableId by done. cbn. eexists. split; [done|]. split; try done.
    intros id' [= <-]. by split.
Qed.
Lemma latest_live d r : r ∈ documents d →
  bool_decide (doc_max_ts d (d_table r) (d_internal r) None = Some (d_ts r)) && bool_decide (is_Some (d_value r)) = true ↔ live (rows_of d) (strip r).
Proof.
  intros Hr. rewrite andb_true_iff, !bool_decide_eq_true. unfold doc_max_ts. rewrite sql_max_Some.
  assert (∀ x, x ∈ List.map d_ts (revisions d (d_table r) (d_internal r) None) ↔ ∃ r', r' ∈ documents d ∧ l_key (strip r') = l_key (strip r) ∧ d_ts r' = x) as Hx.
  { intros x. rewrite list_elem_of_In, in_map_iff. setoid_rewrite <-list_elem_of_In. setoid_rewrite elem_of_revisions.
    unfold strip. cbn [l_key]. split.
    - intros (r' & <- & H1 & <- & <- & _). by exists r'.
    - intros (r' & H & [= E1 E2] & <-). exists r'. by split_and!. }
  split.
  - intros [[_ Hm] [t Ht]]. split; [apply list_elem_of_fmap; by exists r|]. cbn [l_value strip]. split; [by rewrite Ht|].
    intros r' (r0 & -> & Hr0)%list_elem_of_fmap K. apply Hm, Hx. by exists r0.
  - intros (_ & Hv & Hm). split; [|by apply not_eq_None_Some]. split; [apply Hx; by exists r|]. intros x (r' & Hr' & K & <-)%Hx.
    apply (Hm (strip r')); [|done]. apply list_elem_of_fmap. by exists r'.
Qed.
Lemma Forall2_fmap_eq {A B C} (f : A → C) (g : B → C) l l' : Forall2 (λ x y, g y = f x) l l' → List.map g l' = f <$> l.
Proof. induction 1 as [|x y l l' E _ IH]; [done|]. cbn. by rewrite E, IH. Qed.
Lemma Forall2_right {A B} (P : A → B → Prop) (Q : B → Prop) l l' : Forall2 P l l' → (∀ x y, P x y → Q y) → Forall Q l'.
Proof. induction 1; constructor; eauto. Qed.

Lemma dump_spec d L : shows d L → ∃ es idx, dumpCurrentState d = Ok (es, idx) ∧ dumps es idx L.
Proof.
  intros Hd. pose proof Hd as [H1 H2 H3 H4 H5]. unfold dumpCurrentState.
  destruct (traverse_each entry_of_row (λ r e, entry_ok e ∧ entry_row e = strip r) (dump_docs d)) as (es & E & Hes).
  { intros r Hr. unfold dump_docs in Hr. rewrite sort_by_perm in Hr. apply elem_lfilter in Hr as [Hr _].
    apply entry_of_doc. by eapply Forall_forall in H2. }
  destruct (traverse_each write_of_row (λ _ w, write_ok w) (dump_idx d)) as (idx & Ei & Hidx).
  { intros r Hr. unfold dump_idx in Hr. rewrite sort_by_perm in Hr. apply elem_lfilter in Hr as [Hr _].
    apply write_of_idx. by eapply Forall_forall in H3. }
  exists es, idx. rewrite E. cbn [res_bind]. rewrite Ei. cbn [res_bind]. split; [done|].
  assert (List.map entry_row es = strip <$> dump_docs d) as Em.
  { apply Forall2_fmap_eq. eapply Forall2_impl; [exact Hes|]. by intros ? ? []. }
  assert (∀ r, r ∈ strip <$> dump_docs d ↔ live L r) as Hl.
  { intros r. rewrite <-H5, list_elem_of_fmap. unfold dump_docs. setoid_rewrite sort_by_perm. setoid_rewrite elem_lfilter. split.
    - intros (x & -> & Hx & Hb). by apply latest_live.
    - intros Hlv. pose proof Hlv as [Hr _]. apply list_elem_of_fmap in Hr as (x & -> & Hx). exists x. split_and!; try done. by apply latest_live. }
  split.
  - eapply Forall2_right; [exact Hes|]. by intros ? ? [].
  - eapply Forall2_right; [exact Hidx|]. done.
  - rewrite Em. assert (NoDup (doc_pk <$> dump_docs d)) as Hnd.
    { unfold dump_docs. rewrite sort_by_perm. by apply NoDup_filter_map. }
    assert (NoDup (strip <$> dump_docs d)) as Hns.
    { apply (NoDup_fmap_1 l_pk). rewrite <-list_fmap_compose. exact Hnd. }
    apply NoDup_fmap_2_strong; [|done]. intros x y Hx Hy K. apply Hl, H5 in Hx. apply Hl, H5 in Hy.
    eapply live_unique; try done. by rewrite pk_rows.
  - intros r. by rewrite Em.
Qed.

(** ** Restores *)
Lemma id_key_eq a b : bytes_ok a → bytes_ok b → id_key a = id_key b → a = b.
Proof.
  intros [_ Ha] [_ Hb] [= E1 E2]. apply (f_equal decodeStorageTableId) in E1. rewrite !decode_encodeStorageTableId in E1 by done.
  destruct a, b. cbn in *. congruence.
Qed.
Lemma documentIdKey_key a b : bytes_ok a → bytes_ok b → documentIdKey a = documentIdKey b ↔ id_key a = id_key b.
Proof.
  intros Ha Hb. split; intros E; [|by rewrite (id_key_eq a b)]. destruct Ha, Hb. by rewrite (documentIdKey_inj a b).
Qed.
(** The tombstones a restore appends: the live documents of [cur] the snapshot has no row for *)
Lemma dropped_spec cur snap F : Forall entry_ok cur → Forall entry_ok (sn_documents snap) → 0 ≤ F →
  Forall entry_ok (dropped_docs cur snap F) ∧
  (NoDup (l_key <$> List.map entry_row cur) → NoDup (l_pk <$> List.map entry_row (dropped_docs cur snap F))) ∧
  ∀ k, (k ∈ (l_key <$> List.map entry_row cur) ∧ k ∉ (l_key <$> List.map entry_row (sn_documents snap))) ↔
       (∃ t, t ∈ List.map entry_row (dropped_docs cur snap F) ∧ l_key t = k ∧ l_ts t = F ∧ l_value t = None).
Proof.
  intros Hc Hs HF.
  assert (∀ e, e ∈ cur → documentIdKey (le_id e) ∈ List.map (λ d, documentIdKey (le_id d)) (sn_documents snap) ↔
    id_key (le_id e) ∈ l_key <$> List.map entry_row (sn_documents snap)) as Hk.
  { intros e He. eapply Forall_forall in Hc; [|done]. rewrite list_elem_of_In, in_map_iff, list_elem_of_fmap. split.
    - intros (d & E & Hd). exists (entry_row d). split; [|apply list_elem_of_In, in_map_iff; by exists d]. cbn.
      apply list_elem_of_In in Hd. eapply Forall_forall in Hs; [|done]. apply documentIdKey_key; [apply Hc|apply Hs|done].
    - intros (r & E & (d & <- & Hd)%list_elem_of_In%in_map_iff). exists d. split; [|done]. apply list_elem_of_In in Hd.
      eapply Forall_forall in Hs; [|done]. apply documentIdKey_key; [apply Hs|apply Hc|done]. }
  unfold dropped_docs. set (keep := List.filter _ cur).
  assert (∀ e, e ∈ keep ↔ e ∈ cur ∧ id_key (le_id e) ∉ (l_key <$> List.map entry_row (sn_documents snap))) as Hkeep.
  { intros e. unfold keep. rewrite elem_lfilter, negb_true_iff, bool_decide_eq_false. split; intros [H1 H2]; (split; [done|]); by rewrite Hk in *. }
  split_and!.
  - apply Forall_forall. intros e (d & <- & Hd%list_elem_of_In)%list_elem_of_In%in_map_iff. apply Hkeep in Hd as [Hd _].
    eapply Forall_forall in Hc; [|done]. destruct Hc as [C1 C2 _ _]. split; cbn; try done. by intros p [= <-].
  - intros Hnd. rewrite !List.map_map. apply (NoDup_fmap_1 (λ x : jsstr * bytes * Z, x.1)). rewrite <-list_fmap_compose.
    change (List.map ?f ?l) with (f <$> l) in *. rewrite <-list_fmap_compose in *. cbn. unfold keep. by apply NoDup_filter_map.
  - intros k. split.
    + intros [(r & -> & (e & <- & He%list_elem_of_In)%list_elem_of_In%in_map_iff)%list_elem_of_fmap Hn]. eexists. split.
      * apply list_elem_of_In, in_map_iff. eexists. split; [done|]. apply in_map_iff. exists e. split; [done|]. apply list_elem_of_In, Hkeep. by split.
      * done.
    + intros (t & (e' & <- & (e & <- & He%list_elem_of_In)%in_map_iff)%list_elem_of_In%in_map_iff & <- & _ & _). apply Hkeep in He as [He Hn].
      split; [|done]. apply list_elem_of_fmap. exists (entry_row e). split; [done|]. apply list_elem_of_In, in_map_iff. exists e. by rewrite <-list_elem_of_In.
Qed.
Lemma keys_pk (L : list lrow) : NoDup (l_key <$> L) → NoDup (l_pk <$> L).
Proof. intros H. apply (NoDup_fmap_1 (λ x : jsstr * bytes * Z, x.1)). by rewrite <-list_fmap_compose. Qed.
Lemma live_in_prefix L X r : (∀ x, x ∈ X → top L < l_ts x) → live (L ++ X) r → l_ts r ≤ top L → live L r.
Proof.
  intros HX (Hr & Hv & Hm) Ht. apply elem_of_app in Hr as [Hr|Hr]; [|specialize (HX _ Hr); lia]. split_and!; try done.
  intros r' Hr'. apply Hm, elem_of_app. by left.
Qed.

(** The rows of a store after a restore show what the snapshot shows: it shows the state of a longer log, the tombstones end what is no longer live. *)
Lemma restore_live (R T S L1 X : list lrow) : let L2 := L1 ++ X in
  (∀ r, r ∈ R → l_ts r ≤ top L1) → (∀ r, live R r ↔ live L1 r) → NoDup (l_key <$> S) → (∀ r, r ∈ S ↔ live L2 r) → (∀ x, x ∈ X → top L1 < l_ts x) →
  (∀ t, t ∈ T → l_ts t = top L2 ∧ l_value t = None) →
  (∀ k, (∃ t, t ∈ T ∧ l_key t = k) ↔ (∃ r, live R r ∧ l_key r = k) ∧ k ∉ (l_key <$> S)) →
  ∀ R2 : list lrow, (∀ x, x ∈ R2 ↔ x ∈ S ∨ ((x ∈ T ∨ (x ∈ R ∧ l_pk x ∉ (l_pk <$> T))) ∧ l_pk x ∉ (l_pk <$> S))) →
  (∀ x, x ∈ R2 → l_ts x ≤ top L2) ∧ ∀ r, live R2 r ↔ live L2 r.
Proof.
  intros L2 HR HL HS HSl HX HT HTk R2 HR2.
  assert (top L1 ≤ top L2) as Htop by (unfold L2; rewrite top_app; lia).
  assert (∀ x, x ∈ R2 → l_ts x ≤ top L2) as Hub.
  { intros x [Hx|[[Hx|[Hx _]] _]]%HR2; [by apply top_ub, HSl|by rewrite (proj1 (HT x Hx))|]. specialize (HR x Hx). lia. }
  assert (∀ s, s ∈ S → ∀ x, x ∈ R2 → l_key x = l_key s → l_ts x ≤ l_ts s) as Hmax.
  { intros s Hs x [Hx|[[Hx|[Hx _]] _]]%HR2 K.
    - enough (x = s) as -> by done. apply list_elem_of_lookup in Hx as [i Hi], Hs as [j Hj].
      assert (i = j) as ->; [|congruence]. apply (NoDup_lookup (l_key <$> S) i j (l_key s)); [done| |];
        rewrite list_lookup_fmap; [by rewrite Hi; cbn; rewrite K|by rewrite Hj].
    - exfalso. destruct (proj1 (HTk (l_key s))) as [_ Hn]; [by exists x|]. apply Hn. by apply list_elem_of_fmap_2.
    - destruct (decide (l_ts s ≤ top L1)) as [Hle|]; [|specialize (HR x Hx); lia]. apply HSl in Hs.
      pose proof (live_in_prefix _ _ _ HX Hs Hle) as (_ & _ & Hm)%HL. by apply Hm. }
  split; [done|]. intros r. split.
  - intros (Hr & Hv & Hm). pose proof Hr as Hr0. apply HR2 in Hr as [Hr|[[Hr|[Hr HnT]] HnS]]; [by apply HSl|by destruct (HT r Hr)|].
    destruct (decide (l_key r ∈ l_key <$> S)) as [(s & K & Hs)%list_elem_of_fmap|Hk].
    { exfalso. apply HnS. apply list_elem_of_fmap. exists s. split; [|done]. unfold l_pk. rewrite K. f_equal.
      pose proof (Hmax s Hs r Hr0 K). specialize (Hm s (proj2 (HR2 s) (or_introl Hs)) (eq_sym K)). lia. }
    exfalso. assert (live R r) as Hlr.
    { split_and!; try done. intros r' Hr' K. destruct (decide (l_pk r' ∈ l_pk <$> T)) as [(t & Et & Ht)%list_elem_of_fmap|Hn].
      - unfold l_pk in Et. injection Et as Ek Et. rewrite Et. apply Hm; [|congruence]. apply HR2. right. split; [by left|].
        intros (s & Es & Hs)%list_elem_of_fmap. unfold l_pk in Es. injection Es as Es _. apply Hk. apply list_elem_of_fmap. exists s. split; [congruence|done].
      - apply Hm; [|done]. apply HR2. right. split; [by right|]. intros (s & Es & Hs)%list_elem_of_fmap. unfold l_pk in Es. injection Es as Es _.
        apply Hk. apply list_elem_of_fmap. exists s. split; [congruence|done]. }
    destruct (proj2 (HTk (l_key r))) as (t & Ht & K); [split; [by exists r|done]|]. destruct (HT t Ht) as [Ets _].
    apply HnT. apply list_elem_of_fmap. exists t. split; [|done]. unfold l_pk. rewrite K. f_equal.
    assert (t ∈ R2) as Ht2. { apply HR2. right. split; [by left|]. intros (s & Es & Hs)%list_elem_of_fmap. unfold l_pk in Es. injection Es as Es _.
      apply Hk. apply list_elem_of_fmap. exists s. split; [congruence|done]. }
    specialize (Hm t Ht2 K). specialize (HR r Hr). lia.
  - intros Hlv. pose proof Hlv as Hs%HSl. split_and!; [by apply HR2; left|by destruct Hlv as (_ & ? & _)|]. intros x Hx K. by apply Hmax.
Qed.

Lemma shows_restore d L1 X snap : let L2 := L1 ++ X in
  shows d L1 → (∀ x, x ∈ X → top L1 < l_ts x) → dumps (sn_documents snap) (sn_indexUpdates snap) L2 →
  ∃ d' del, applySnapshotState d snap (top L2) = Ok (d', del) ∧ shows d' L2.
Proof.
  intros L2 Hd HX [S1 S2 S3 S4]. pose proof Hd as [H1 H2 H3 H4 H5].
  destruct (dump_spec d L1 Hd) as (cur & idx & E & [C1 C2 C3 C4]). unfold applySnapshotState. rewrite E. cbn [res_bind fst].
  destruct (dropped_spec cur snap (top L2) C1 S1 (top_nonneg _)) as (D1 & D2 & D3). set (T := dropped_docs cur snap (top L2)) in *.
  assert (∃ d1, match T with [] => Ok d | _ => write d T [] CSOverwrite None end = Ok d1 ∧ NoDup (doc_pk <$> documents d1) ∧ Forall doc_ok (documents d1) ∧
    Forall idx_ok (indexes d1) ∧ ∀ x, x ∈ rows_of d1 ↔ x ∈ List.map entry_row T ∨ (x ∈ rows_of d ∧ l_pk x ∉ (l_pk <$> List.map entry_row T))) as (d1 & E1 & P1 & P2 & P3 & P4).
  { destruct T eqn:ET; [exists d; split_and!; try done; intros x; cbn; set_solver|]. rewrite <-ET in *.
    destruct (write_rows d T [] None (D2 C3) D1 ltac:(constructor) H1 H2 H3) as (d1 & W & W'). exists d1. by split. }
  rewrite E1. cbn [res_bind].
  destruct (write_rows d1 (sn_documents snap) (sn_indexUpdates snap) None (keys_pk _ S3) S1 S2 P1 P2 P3) as (d2 & E2 & Q1 & Q2 & Q3 & Q4).
  rewrite E2. cbn [res_bind]. exists d2, T. split; [done|].
  destruct (restore_live (rows_of d) (List.map entry_row T) (List.map entry_row (sn_documents snap)) L1 X H4 H5 S3 S4 HX) with (R2 := rows_of d2) as [R1 R2].
  - intros t Ht. split.
    + apply list_elem_of_In, in_map_iff in Ht as (e & <- & He). unfold T, dropped_docs in He. by apply in_map_iff in He as (c & <- & _).
    + apply list_elem_of_In, in_map_iff in Ht as (e & <- & He). unfold T, dropped_docs in He. by apply in_map_iff in He as (c & <- & _).
  - intros k. assert ((∃ t, t ∈ List.map entry_row T ∧ l_key t = k) ↔ ∃ t, t ∈ List.map entry_row T ∧ l_key t = k ∧ l_ts t = top L2 ∧ l_value t = None) as ->.
    { split; [|naive_solver]. intros (t & Ht & K). exists t. split_and!; try done;
        apply list_elem_of_In, in_map_iff in Ht as (e & <- & He); unfold T, dropped_docs in He; by apply in_map_iff in He as (c & <- & _). }
    rewrite <-D3. rewrite list_elem_of_fmap. setoid_rewrite C4. setoid_rewrite H5. split; intros [(r & A & B) C]; (split; [by exists r|done]).
  - intros x. rewrite Q4, P4. done.
  - by split.
Qed.

(** Two stores that show one log answer every read alike. *)
Lemma get_live d id : NoDup (doc_pk <$> documents d) →
  match latest_row (revisions d (encodeStorageTableId (tableNumber id)) (internalId id) None) with
  | Some row => row ∈ documents d ∧ l_key (strip row) = id_key id ∧ (d_value row ≠ None → live (rows_of d) (strip row)) ∧
                (d_value row = None → ∀ r, live (rows_of d) r → l_key r ≠ id_key id)
  | None => ∀ r, live (rows_of d) r → l_key r ≠ id_key id
  end.
Proof.
  intros Hnd. destruct (latest_row _) as [row|] eqn:E.
  - apply latest_row_Some in E as [Hr Hm]. apply elem_of_revisions in Hr as (Hr & K1 & K2 & _).
    assert (∀ r', r' ∈ rows_of d → l_key r' = id_key id → l_ts r' ≤ d_ts row) as Hmax.
    { intros r' (x & -> & Hx)%list_elem_of_fmap K. apply Hm, elem_of_revisions. injection K as ? ?. by split_and!. }
    split_and!; [done|unfold strip, id_key; cbn; by rewrite K1, K2| |].
    + intros Hv. split; [apply list_elem_of_fmap; by exists row|]. split; [done|]. intros r' Hr' K. apply Hmax; [done|]. rewrite K. unfold strip, id_key. cbn. by rewrite K1, K2.
    + intros Hv r (Hr' & Hv' & Hm') K. specialize (Hm' (strip row)). pose proof (Hmax r Hr' K). apply list_elem_of_fmap in Hr' as (x & -> & Hx).
      assert (x = row) as ->; [|done]. assert (strip row ∈ rows_of d) as Hrow by (apply list_elem_of_fmap; by exists row).
      specialize (Hm' Hrow). assert (l_key (strip row) = l_key (strip x)) as K3 by (rewrite K; unfold strip, id_key; cbn; by rewrite K1, K2).
      specialize (Hm' K3). assert (doc_pk x = doc_pk row) as Epk. { rewrite !strip_pk. unfold l_pk. rewrite K3. f_equal. cbn in *. lia. }
      apply list_elem_of_lookup in Hx as [i Hi], Hr as [j Hj]. assert (i = j) as ->; [|congruence].
      apply (NoDup_lookup (doc_pk <$> documents d) i j (doc_pk x)); [done| |]; rewrite list_lookup_fmap; [by rewrite Hi|]. rewrite Hj. cbn. by rewrite Epk.
  - apply latest_row_None in E. intros r (Hr & _ & _) K. apply list_elem_of_fmap in Hr as (x & -> & Hx).
    assert (x ∈ revisions d (encodeStorageTableId (tableNumber id)) (internalId id) None) as Hin.
    { apply elem_of_revisions. injection K as ? ?. by split_and!. }
    rewrite E in Hin. by apply elem_of_nil in Hin.
Qed.
Lemma get_same d d' id : NoDup (doc_pk <$> documents d) → NoDup (doc_pk <$> documents d') →
  (∀ r, live (rows_of d) r ↔ live (rows_of d') r) → get d id None = get d' id None.
Proof.
  intros H H' Hl. pose proof (get_live d id H) as G. pose proof (get_live d' id H') as G'. unfold get.
  destruct (latest_row (revisions d _ _ _)) as [r|], (latest_row (revisions d' _ _ _)) as [r'|]; try done.
  - destruct G as (Hr & K & Hv & Hn), G' as (Hr' & K' & Hv' & Hn').
    destruct (d_value r) as [t|] eqn:E, (d_value r') as [t'|] eqn:E'; try done.
    + assert (strip r = strip r') as Es.
      { eapply (live_unique (rows_of d)); [by rewrite pk_rows|by apply Hv|by apply Hl, Hv'|by rewrite K, K']. }
      unfold strip in Es. injection Es as _ _ Ets Ep Ev. rewrite E, E' in Ev. injection Ev as ->. by rewrite Ets, Ep.
    + exfalso. apply (Hn' eq_refl (strip r)); [by apply Hl, Hv|done].
    + exfalso. apply (Hn eq_refl (strip r')); [by apply Hl, Hv'|done].
  - destruct G as (Hr & K & Hv & Hn). destruct (d_value r) as [t|] eqn:E; [|done]. exfalso. apply (G' (strip r)); [by apply Hl, Hv|done].
  - destruct G' as (Hr & K & Hv & Hn). destruct (d_value r') as [t|] eqn:E; [|done]. exfalso. apply (G (strip r')); [by apply Hl, Hv|done].
Qed.
