(* ===== verification/ObjectSystem.v ===== *)
(** Processes sharing a shard's bucket: each runs one operation of its [ObjectStoreDocStore] at a time, other processes' calls fall between its own,
    calls fail with or without taking effect, processes crash. The log of the commits the manifest's writes made durable is a ghost of the world. *)
From stdpp Require Import gmap.
From S2P Require Import Prelude Numbers Values IndexKeys Json IdCodec DocStore Segments ObjectStore ObjectDocStore ObjectLog.

(** ** The bucket with its log *)
Record shared := { g_bucket : bucket; g_hist : list (Z * WireSegmentPayload); g_owner : gmap Z nat }.

(** A call's effect, or not, and whether its answer arrives: a failed call throws anything, a conflict included (a client library that repeats a
    request whose first attempt landed reports one). *)
Inductive outcome := Answered | NotApplied (e : exn) | AnswerLost (e : exn).

(** The steps of a run that the store's promises do not survive: a segment upload that lands although it throws; [acquire] started on an
    instance that still believes it holds a lease; a snapshot started on an instance whose cursor is not its cached manifest's. The system takes
    them like any other step and a run lists those it took. *)
Inductive fault := LostUpload | EagerAcquire | EarlySnapshot.
Definition call_faults (c : oscall) (o : outcome) : list fault :=
  match c, o with CPut _ (BSegment _), AnswerLost _ => [LostUpload] | _, _ => [] end.

Section System.
Context (shard : jsstr).

Definition cur (g : shared) : Manifest := match os_get (g_bucket g) (manifestKey shard) with Some (BManifest m) => m | _ => emptyManifest end.
Definition seg (g : shared) (n : Z) : option body := os_get (g_bucket g) (segmentKey shard n).
Definition snap (g : shared) (ts : Z) : option body := os_get (g_bucket g) (snapshotKey shard ts).

(** A manifest write that advances the frontier appends the last segment it references to the log; one that advances the epoch makes the writer its
    owner. *)
Definition log_after (c : oscall) (r : res osreply) (g : shared) : list (Z * WireSegmentPayload) :=
  match c, r with
  | CCas k (BManifest m') _, Ok _ =>
      if bool_decide (k = manifestKey shard) && (m_frontierTs (cur g) <? m_frontierTs m') then
        match last (m_segments m') with
        | Some s => match seg g s with Some (BSegment w) => g_hist g ++ [(s, w)] | _ => g_hist g end
        | None => g_hist g
        end
      else g_hist g
  | _, _ => g_hist g
  end.
Definition owner_after (me : nat) (c : oscall) (r : res osreply) (g : shared) : gmap Z nat :=
  match c, r with
  | CCas k (BManifest m') _, Ok _ =>
      if bool_decide (k = manifestKey shard) && (m_epoch (cur g) <? m_epoch m') then <[m_epoch m' := me]> (g_owner g) else g_owner g
  | _, _ => g_owner g
  end.
Definition apply_call (me : nat) (c : oscall) (g : shared) : res osreply * shared :=
  let r := os_exec (g_bucket g) c in
  (r.1, {| g_bucket := r.2; g_hist := log_after c r.1 g; g_owner := owner_after me c r.1 g |}).
Definition exec (me : nat) (c : oscall) (o : outcome) (g : shared) : res osreply * shared :=
  match o with
  | Answered => apply_call me c g
  | NotApplied e => (Err e, g)
  | AnswerLost e => (Err e, (apply_call me c g).2)
  end.

(** ** Operations of a process *)
Inductive opcall :=
  | OpOpen
  | OpAcquire (writerId : jsstr) (leaseTtlMs now : Z)
  | OpHeartbeat (now leaseTtlMs : Z)
  | OpRelease
  | OpRelinquish
  | OpCommit (units : list CommitUnit) (shardId : option jsstr)
  | OpSnapshot
  | OpMaybeSnapshot
  | OpGc
  | OpPublish (consumerId : jsstr) (appliedSeqno : Z)
  | OpRemoveConsumer (consumerId : jsstr).
Definition unit_result {A} (m : M Inst A) : M Inst (list Z) := let@ _ := m in mret [].
Definition op_prog (op : opcall) : M Inst (list Z) :=
  match op with
  | OpOpen => unit_result (open shard)
  | OpAcquire wid ttl now => unit_result (acquire shard wid ttl now)
  | OpHeartbeat now ttl => unit_result (heartbeat shard now ttl)
  | OpRelease => unit_result release
  | OpRelinquish => unit_result (relinquish shard)
  | OpCommit units shardId => commitExclusive shard units shardId
  | OpSnapshot => unit_result (snapshot shard)
  | OpMaybeSnapshot => unit_result (maybeSnapshotBestEffort shard)
  | OpGc => unit_result (gc shard)
  | OpPublish cid n => unit_result (publishConsumerWatermark shard cid n)
  | OpRemoveConsumer cid => unit_result (removeConsumer shard cid)
  end.

(** A batch as the transactor hands it over: well-formed rows, each document written once per unit *)
Definition unit_wire_ok (u : CommitUnit) : Prop :=
  cu_documents u ≠ [] ∧ Forall (λ e, entry_ok (stamp_doc 0 e)) (cu_documents u) ∧ Forall (λ w, write_ok (stamp_idx 0 w)) (cu_indexUpdates u) ∧
  NoDup (id_key <$> (le_id <$> cu_documents u)).
(** When an operation may start: [open] makes the instance, and a batch is the transactor's. *)
Definition startable (op : opcall) : Prop :=
  match op with OpOpen => False | OpCommit units _ => Forall unit_wire_ok units | _ => True end.
Definition start_faults (op : opcall) (i : Inst) : list fault :=
  match op with
  | OpAcquire _ _ _ => match i_held i with Some _ => if i_poisoned i then [] else [EagerAcquire] | None => [] end
  | OpSnapshot | OpMaybeSnapshot => if i_nextSeqno i =? m_nextSeqno (c_manifest (i_cached i)) then [] else [EarlySnapshot]
  | _ => []
  end.

Record Node := { nd_inst : Inst; nd_run : option (opcall * prog (Inst * res (list Z))) }.
(** An acknowledged commit: the batch, the timestamps returned *)
Record world := { w_shared : shared; w_nodes : gmap nat Node; w_acks : list (list CommitUnit * list Z) }.
Definition blank_inst : Inst := new_Inst empty_db {| c_manifest := emptyManifest; c_etag := BManifest emptyManifest |}.
Definition with_nodes (w : world) (ns : gmap nat Node) : world := {| w_shared := w_shared w; w_nodes := ns; w_acks := w_acks w |}.
Definition init_world : world := {| w_shared := {| g_bucket := []; g_hist := []; g_owner := ∅ |}; w_nodes := ∅; w_acks := [] |}.
Definition acked (op : opcall) (r : res (list Z)) : list (list CommitUnit * list Z) :=
  match op, r with OpCommit units _, Ok tss => match units with [] => [] | _ => [(units, tss)] end | _, _ => [] end.

Inductive sstep (w : world) : list fault → world → Prop :=
  | s_spawn me : w_nodes w !! me = None →
      sstep w [] (with_nodes w (<[me := {| nd_inst := blank_inst; nd_run := Some (OpOpen, op_prog OpOpen blank_inst) |}]> (w_nodes w)))
  | s_start me i op : w_nodes w !! me = Some {| nd_inst := i; nd_run := None |} → startable op →
      sstep w (start_faults op i) (with_nodes w (<[me := {| nd_inst := i; nd_run := Some (op, op_prog op i) |}]> (w_nodes w)))
  | s_call me i op c k o r g : w_nodes w !! me = Some {| nd_inst := i; nd_run := Some (op, Call c k) |} →
      exec me c o (w_shared w) = (r, g) →
      sstep w (call_faults c o) {| w_shared := g; w_nodes := <[me := {| nd_inst := i; nd_run := Some (op, k r) |}]> (w_nodes w); w_acks := w_acks w |}
  (* [boot] does not catch what [open] and [acquire] throw *)
  | s_finish me i op i' r : w_nodes w !! me = Some {| nd_inst := i; nd_run := Some (op, Done (i', r)) |} →
      sstep w [] {| w_shared := w_shared w;
                 w_nodes := match op, r with OpOpen, Err _ | OpAcquire _ _ _, Err _ => delete me (w_nodes w) | _, _ => <[me := {| nd_inst := i'; nd_run := None |}]> (w_nodes w) end;
                 w_acks := w_acks w ++ acked op r |}
  | s_crash me : sstep w [] (with_nodes w (delete me (w_nodes w))).
(** A run from the empty bucket, with the faults it took. *)
Inductive run : list fault → world → Prop :=
  | run_init : run [] init_world
  | run_step fs w l w' : run fs w → sstep w l w' → run (fs ++ l) w'.
Definition reachable (w : world) : Prop := ∃ fs, run fs w.
(** Reached without a fault. *)
Definition sound_run (w : world) : Prop := ∃ fs, run fs w ∧ LostUpload ∉ fs ∧ EagerAcquire ∉ fs ∧ EarlySnapshot ∉ fs.
Lemma no_fault (fs : list fault) : LostUpload ∉ fs → EagerAcquire ∉ fs → EarlySnapshot ∉ fs → fs = [].
Proof. intros H1 H2 H3. destruct fs as [|[] fs]; [done|..]; exfalso; [apply H1|apply H2|apply H3]; left. Qed.

(** ** The log *)
Definition seg_rows (w : WireSegmentPayload) : list lrow := match decodeSegment w with Ok p => List.map entry_row (sp_documents p) | Err _ => [] end.
Definition log_rows (h : list (Z * WireSegmentPayload)) : list lrow := List.concat (List.map (λ x, seg_rows x.2) h).
(** The commits below a cursor *)
Definition below (n : Z) (h : list (Z * WireSegmentPayload)) : list (Z * WireSegmentPayload) := List.filter (λ x, x.1 <? n) h.
(** The reference: the log's segments written in order to an empty store *)
Fixpoint replay_log (d : db) (h : list (Z * WireSegmentPayload)) : res db :=
  match h with
  | [] => Ok d
  | x :: h' => let! p := decodeSegment x.2 in let! d := write d (sp_documents p) (sp_indexUpdates p) CSOverwrite None in replay_log d h'
  end.
End System.
