(* ===== verification/ObjectInv.v ===== *)
(** The invariant of the shared bucket, what a process may rely on of the others, and that each call an operation makes keeps both. *)
From stdpp Require Import gmap.
From S2P Require Import Prelude Numbers Values IndexKeys Json IdCodec DocStore Segments ObjectStore ObjectDocStore ObjectLog ObjectSystem.

(** ** The log *)
Abbreviation log := (list (Z * WireSegmentPayload)).
Record seg_ok (w : WireSegmentPayload) (p : SegmentPayload) : Prop := {
  so_decode : decodeSegment w = Ok p;
  so_docs : sp_documents p ≠ [];
  so_entries : Forall entry_ok (sp_documents p);
  so_writes : Forall write_ok (sp_indexUpdates p);
  so_pk : NoDup (l_pk <$> List.map entry_row (sp_documents p)) }.
Record hist_ok (h : log) : Prop := {
  ho_seg : ∀ x, x ∈ h → 0 ≤ x.1 ∧ ∃ p, seg_ok x.2 p;
  ho_sorted : ∀ h1 x h2 y, h = h1 ++ x :: h2 → y ∈ h1 → y.1 < x.1;
  ho_ts : ∀ h1 x h2 r, h = h1 ++ x :: h2 → r ∈ seg_rows x.2 → top (log_rows h1) < l_ts r }.

Lemma log_rows_app a b : log_rows (a ++ b) = log_rows a ++ log_rows b.
Proof. unfold log_rows. by rewrite List.map_app, List.concat_app. Qed.
Lemma elem_log_rows h r : r ∈ log_rows h ↔ ∃ x, x ∈ h ∧ r ∈ seg_rows x.2.
Proof.
  unfold log_rows. rewrite list_elem_of_In, in_concat. setoid_rewrite in_map_iff. setoid_rewrite <-list_elem_of_In. split.
  - intros (l & (x & <- & Hx) & Hr). by exists x.
  - intros (x & Hx & Hr). eexists. split; [by exists x|done].
Qed.
Lemma elem_below n h x : x ∈ below n h ↔ x ∈ h ∧ x.1 < n.
Proof. unfold below. rewrite elem_lfilter, Z.ltb_lt. done. Qed.
Lemma below_app n a b : below n (a ++ b) = below n a ++ below n b.
Proof. apply List.filter_app. Qed.
Lemma below_none n h : (∀ x, x ∈ h → n ≤ x.1) → below n h = [].
Proof. intros H. apply filter_false_nil. apply Forall_forall. intros x Hx. apply Z.ltb_ge. auto. Qed.
Lemma below_all n h : (∀ x, x ∈ h → x.1 < n) → below n h = h.
Proof. induction h as [|x h IH]; intros H; [done|]. cbn. rewrite (proj2 (Z.ltb_lt _ _)) by (apply H, elem_of_cons; by left). f_equal. apply IH. intros y Hy. apply H, elem_of_cons. by right. Qed.
Lemma hist_ok_prefix a b : hist_ok (a ++ b) → hist_ok a.
Proof.
  intros [H1 H2 H3]. split.
  - intros x Hx. apply H1, elem_of_app. by left.
  - intros h1 x h2 y -> Hy. apply (H2 h1 x (h2 ++ b)); [by rewrite <-(assoc_L (++))|done].
  - intros h1 x h2 r -> Hr. apply (H3 h1 x (h2 ++ b)); [by rewrite <-(assoc_L (++))|done].
Qed.
Lemma below_split n h : hist_ok h → ∃ X, h = below n h ++ X ∧ ∀ x, x ∈ X → n ≤ x.1.
Proof.
  induction h as [|x h IH] using rev_ind; intros H; [exists []; split; [done|by intros ? ?%elem_of_nil]|]. destruct (IH (hist_ok_prefix _ _ H)) as (X & E & HX).
  rewrite below_app. destruct (decide (x.1 < n)) as [Hx|Hx].
  - exists []. rewrite app_nil_r. split; [|by intros ? ?%elem_of_nil]. f_equal.
    + symmetry. apply below_all. intros y Hy. apply (ho_sorted _ H h x [] y) in Hy; [lia|done].
    + cbn. by rewrite (proj2 (Z.ltb_lt _ _)).
  - exists (X ++ [x]). cbn. rewrite (proj2 (Z.ltb_ge _ _)) by lia. rewrite app_nil_r, (assoc_L (++)), <-E. split; [done|].
    intros y [Hy| ->%list_elem_of_singleton]%elem_of_app; [by apply HX|lia].
Qed.
Lemma seg_rows_ok w p : seg_ok w p → seg_rows w = List.map entry_row (sp_documents p).
Proof. intros [H _ _ _ _]. unfold seg_rows. by rewrite H. Qed.
Lemma seg_rows_ne w p : seg_ok w p → seg_rows w ≠ [].
Proof. intros H. rewrite (seg_rows_ok _ _ H). destruct H as [_ H _ _ _]. by destruct (sp_documents p). Qed.
Lemma rows_after h X r : hist_ok (h ++ X) → r ∈ log_rows X → top (log_rows h) < l_ts r.
Proof.
  intros H (x & (X1 & X2 & ->)%list_elem_of_split & Hr)%elem_log_rows.
  pose proof (ho_ts _ H (h ++ X1) x X2 r) as Ht. rewrite <-(assoc_L (++)) in Ht. specialize (Ht eq_refl Hr).
  rewrite log_rows_app, top_app in Ht. lia.
Qed.
Lemma below_mono a b h : hist_ok h → a ≤ b → ∃ X, below b h = below a h ++ X ∧ (∀ x, x ∈ X → a ≤ x.1) ∧ hist_ok (below a h ++ X).
Proof.
  intros H Hab. destruct (below_split b h H) as (Y & E & HY). pose proof H as Hb. rewrite E in Hb. apply hist_ok_prefix in Hb.
  destruct (below_split a (below b h) Hb) as (X & EX & HX). exists X.
  assert (below a (below b h) = below a h) as Ea.
  { rewrite E at 2. rewrite below_app, (below_none a Y), app_nil_r; [done|]. intros x Hx. specialize (HY x Hx). lia. }
  rewrite Ea in EX. split_and!; [done|done|by rewrite <-EX].
Qed.
(** The frontier tells how much of the log it covers. *)
Lemma top_below a b h : hist_ok h → top (log_rows (below a h)) = top (log_rows (below b h)) → below a h = below b h.
Proof.
  assert (∀ a b, a ≤ b → hist_ok h → top (log_rows (below a h)) = top (log_rows (below b h)) → below a h = below b h) as Hw.
  { clear a b. intros a b Hab H E. destruct (below_mono a b h H Hab) as (X & EX & _ & Hok). rewrite EX. destruct X as [|x X]; [by rewrite app_nil_r|].
    exfalso. assert (x ∈ h) as Hx by (eapply (elem_below b); rewrite EX; set_solver).
    destruct (ho_seg _ H x Hx) as (_ & p & Hp). destruct (seg_rows x.2) as [|r rs] eqn:Er; [by apply (seg_rows_ne _ _ Hp)|].
    assert (r ∈ log_rows (x :: X)) as Hr by (apply elem_log_rows; exists x; rewrite Er; set_solver).
    pose proof (rows_after _ _ r Hok Hr). rewrite EX, log_rows_app, top_app in E. pose proof (top_ub _ _ Hr). lia. }
  intros H E. destruct (Z.le_ge_cases a b); [by apply Hw|symmetry; by apply Hw].
Qed.
(** The next commit after a cursor *)
Lemma below_next h a s w : hist_ok h → (s, w) ∈ h → a ≤ s → (∀ x, x ∈ h → a ≤ x.1 → s ≤ x.1) → below (s + 1) h = below a h ++ [(s, w)].
Proof.
  intros H (h1 & h2 & ->)%list_elem_of_split Has Hn.
  assert (∀ y, y ∈ h1 → y.1 < s) as H1 by (intros y Hy; apply (ho_sorted _ H h1 (s, w) h2 y eq_refl Hy)).
  assert (∀ y, y ∈ h2 → s < y.1) as H2.
  { intros y (k1 & k2 & ->)%list_elem_of_split. apply (ho_sorted _ H (h1 ++ (s, w) :: k1) y k2 (s, w)); [by rewrite <-(assoc_L (++))|set_solver]. }
  assert (∀ y, y ∈ h1 → y.1 < a) as H1a.
  { intros y Hy. destruct (decide (a ≤ y.1)) as [Hc|]; [|lia]. specialize (Hn y (proj2 (elem_of_app _ _ _) (or_introl Hy)) Hc). specialize (H1 y Hy). lia. }
  rewrite !below_app. cbn [below List.filter fst]. fold (below (s + 1) h2) (below a h2). rewrite (proj2 (Z.ltb_lt s (s + 1))) by lia. rewrite (proj2 (Z.ltb_ge s a)) by lia.
  rewrite (below_all (s + 1) h1) by (intros y Hy; specialize (H1 y Hy); lia). rewrite (below_all a h1) by done.
  rewrite (below_none (s + 1) h2), (below_none a h2) by (intros y Hy; specialize (H2 y Hy); lia). by rewrite app_nil_r.
Qed.
Lemma hist_ok_snoc h s w p : hist_ok h → 0 ≤ s → (∀ x, x ∈ h → x.1 < s) → seg_ok w p → (∀ r, r ∈ seg_rows w → top (log_rows h) < l_ts r) →
  hist_ok (h ++ [(s, w)]).
Proof.
  intros [H1 H2 H3] Hs Hlt Hp Hts. split.
  - intros x [Hx| ->%list_elem_of_singleton]%elem_of_app; [auto|]. split; [done|by exists p].
  - intros h1 x h2 y E Hy. destruct h2 as [|z h2 _] using rev_ind.
    + apply app_inj_tail in E as [-> <-]. by apply Hlt.
    + rewrite app_comm_cons, (assoc_L (++)) in E. apply app_inj_tail in E as [-> <-]. by apply (H2 h1 x h2).
  - intros h1 x h2 r E Hr. destruct h2 as [|z h2 _] using rev_ind.
    + apply app_inj_tail in E as [-> <-]. by apply Hts.
    + rewrite app_comm_cons, (assoc_L (++)) in E. apply app_inj_tail in E as [-> <-]. by apply (H3 h1 x h2).
Qed.
(** A payload as a bootstrap reads it back *)
Lemma dumps_canon es idx L : dumps es idx L → dumps (List.map canon_log es) idx L.
Proof.
  intros [H1 H2 H3 H4]. assert (List.map entry_row (List.map canon_log es) = List.map entry_row es) as E.
  { clear -H1. induction H1 as [|e es He _ IH]; [done|]. cbn. rewrite entry_row_canon by done. by f_equal. }
  split; [|done|by rewrite E|by rewrite E]. clear -H1. induction H1; cbn; constructor; [by apply canon_log_ok|done].
Qed.
Lemma encode_seg_ok p : sp_documents p ≠ [] → Forall entry_ok (sp_documents p) → Forall write_ok (sp_indexUpdates p) →
  NoDup (l_pk <$> List.map entry_row (sp_documents p)) → seg_ok (encodeSegment p) (canon_segment p) ∧ seg_rows (encodeSegment p) = List.map entry_row (sp_documents p).
Proof.
  intros H1 H2 H3 H4. assert (List.map entry_row (List.map canon_log (sp_documents p)) = List.map entry_row (sp_documents p)) as E.
  { clear -H2. induction H2 as [|e es He _ IH]; [done|]. cbn. rewrite entry_row_canon by done. by f_equal. }
  assert (seg_ok (encodeSegment p) (canon_segment p)) as Hs.
  { split; cbn; [by apply decode_encodeSegment|by destruct (sp_documents p)| |done|by rewrite E].
    clear -H2. induction H2; cbn; constructor; [by apply canon_log_ok|done]. }
  split; [done|]. by rewrite (seg_rows_ok _ _ Hs).
Qed.

(** ** Keys *)
Lemma tails_ne (k : nat) (p q a b : jsstr) : (k ≤ length p)%nat → (k ≤ length q)%nat → take k p ≠ take k q → p ++ a ≠ q ++ b.
Proof. intros Hp Hq H E. apply H. apply (f_equal (take k)) in E. by rewrite !take_app_le in E by done. Qed.
Lemma shard_tail (shard a b : jsstr) : js "s" ++ shard ++ a = js "s" ++ shard ++ b → a = b.
Proof. intros E. by apply app_inv_head, app_inv_head in E. Qed.
Ltac keys_differ k :=
  unfold manifestKey, segmentKey, snapshotKey, consumerKey, segPrefix, snapPrefix, consumersPrefix; rewrite <-?(assoc_L (++)); intros E; apply shard_tail in E;
  (rewrite <-(app_nil_r (js "/manifest")) in E || idtac); revert E; apply (tails_ne k); vm_compute; (lia || done).
Section Keys.
Context (shard : jsstr).
Lemma manifest_seg s : manifestKey shard ≠ segPrefix shard ++ s. Proof. keys_differ 2%nat. Qed.
Lemma manifest_snap s : manifestKey shard ≠ snapPrefix shard ++ s. Proof. keys_differ 2%nat. Qed.
Lemma manifest_consumer s : manifestKey shard ≠ consumersPrefix shard ++ s. Proof. keys_differ 2%nat. Qed.
Lemma seg_snap s t : segPrefix shard ++ s ≠ snapPrefix shard ++ t. Proof. keys_differ 3%nat. Qed.
Lemma seg_consumer s t : segPrefix shard ++ s ≠ consumersPrefix shard ++ t. Proof. keys_differ 3%nat. Qed.
Lemma snap_consumer s t : snapPrefix shard ++ s ≠ consumersPrefix shard ++ t. Proof. keys_differ 3%nat. Qed.
Lemma segmentKey_inj n m : segmentKey shard n = segmentKey shard m → n = m.
Proof. unfold segmentKey. intros E%app_inv_head. by apply string_of_int_inj. Qed.
Lemma snapshotKey_inj n m : snapshotKey shard n = snapshotKey shard m → n = m.
Proof. unfold snapshotKey. intros E%app_inv_head. by apply string_of_int_inj. Qed.
Lemma starts_with_app p s : starts_with p s = true → ∃ t, s = p ++ t.
Proof.
  revert s. induction p as [|x p IH]; intros s H; [by exists s|]. destruct s as [|y s]; [done|]. cbn in H. apply andb_true_iff in H as [->%Z.eqb_eq H].
  destruct (IH s H) as [t ->]. by exists t.
Qed.
End Keys.
Lemma after_slash_app acc a b : after_slash acc (a ++ 47 :: b) = after_slash [] b.
Proof. revert acc. induction a as [|c a IH]; intros acc; cbn; [done|]. destruct (c =? 47); apply IH. Qed.
Lemma after_slash_none acc b : 47 ∉ b → after_slash acc b = rev acc ++ b.
Proof.
  revert acc. induction b as [|c b IH]; intros acc H; cbn; [by rewrite app_nil_r|]. apply not_elem_of_cons in H as [H1 H2].
  rewrite (proj2 (Z.eqb_neq _ _)) by congruence. rewrite IH by done. cbn. by rewrite <-(assoc_L (++)).
Qed.
Lemma suffix_int_key p n : 0 ≤ n → suffix_int (p ++ 47 :: string_of_int n) = Some n.
Proof.
  intros Hn. unfold suffix_int, key_suffix. rewrite after_slash_app, after_slash_none by (apply (sep_not_digit slash); by right). cbn [rev app].
  rewrite parseInt10_string_of_int by done. pose proof (string_of_int_digits n Hn) as Hd. destruct (string_of_int n) as [|c s] eqn:E.
  - pose proof (parseInt10_string_of_int n Hn) as Hp. rewrite E in Hp. done.
  - rewrite (proj2 (forallb_Forall _ _)); [done|]. eapply Forall_impl; [exact Hd|]. intros x Hx. unfold is_digit. cbn beta in Hx. rewrite andb_true_iff, !Z.leb_le. exact Hx.
Qed.
Lemma suffix_seg shard n : 0 ≤ n → suffix_int (segmentKey shard n) = Some n.
Proof.
  intros Hn. rewrite <-(suffix_int_key (js "s" ++ shard ++ js "/seg") n Hn). f_equal. unfold segmentKey, segPrefix.
  rewrite <-!(assoc_L (++)). f_equal.
Qed.
Lemma suffix_snap shard n : 0 ≤ n → suffix_int (snapshotKey shard n) = Some n.
Proof.
  intros Hn. rewrite <-(suffix_int_key (js "s" ++ shard ++ js "/snap") n Hn). f_equal. unfold snapshotKey, snapPrefix.
  rewrite <-!(assoc_L (++)). f_equal.
Qed.

(** ** The invariant *)
Section Invariant.
Context (shard : jsstr).
Notation cur := (cur shard).
Notation seg := (seg shard).
Notation snap := (snap shard).
Definition rows_at (n : Z) (g : shared) : list lrow := log_rows (below n (g_hist g)).

(** A manifest that was the current one once *)
Record past (m : Manifest) (g : shared) : Prop := {
  pa_next : 0 ≤ m_nextSeqno m ≤ m_nextSeqno (cur g);
  pa_epoch : 0 ≤ m_epoch m ≤ m_epoch (cur g);
  pa_ts : m_frontierTs m = top (rows_at (m_nextSeqno m) g);
  pa_counter : m_tsCounter m = m_frontierTs m;
  pa_segs : ∀ s, s ∈ m_segments m → s < m_nextSeqno m ∧ s ∈ (g_hist g).*1;
  pa_sorted : StronglySorted Z.lt (m_segments m);
  pa_cover : ∀ x, x ∈ g_hist g → x.1 < m_nextSeqno m → x.1 ∈ m_segments m ∨ ∃ b, m_snapshotSegBase m = Some b ∧ x.1 ≤ b;
  pa_above : ∀ b s, m_snapshotSegBase m = Some b → s ∈ m_segments m → b < s;
  pa_base : ∀ b, m_snapshotSegBase m = Some b → 0 ≤ b < m_nextSeqno m ∧ m_snapshotTs m = Some (top (rows_at (b + 1) g)) ∧
            ∃ b', m_snapshotSegBase (cur g) = Some b' ∧ b ≤ b';
  pa_snap : ∀ ts, m_snapshotTs m = Some ts → ∃ b, m_snapshotSegBase m = Some b;
  pa_zero : m_epoch m = 0 → m_nextSeqno m = 0 }.
(** A snapshot object: the state of the log at the frontier it is named after *)
Definition snap_good (g : shared) (ts : Z) (x : body) : Prop :=
  0 ≤ ts ∧ ∃ w p k, x = BSnapshot w ∧ decodeSnapshot w = Ok p ∧ sn_frontierTs p = ts ∧ k ≤ m_nextSeqno (cur g) ∧ ts = top (rows_at k g) ∧
    dumps (sn_documents p) (sn_indexUpdates p) (rows_at k g).

Record inv (g : shared) : Prop := {
  g_keys : jm_ok (g_bucket g);
  g_manifest : ∀ x, os_get (g_bucket g) (manifestKey shard) = Some x → ∃ m, x = BManifest m;
  g_past : past (cur g) g;
  g_log : hist_ok (g_hist g);
  g_below : ∀ x, x ∈ g_hist g → x.1 < m_nextSeqno (cur g);
  g_segs : ∀ s, s ∈ m_segments (cur g) → ∃ w, seg g s = Some (BSegment w);
  g_objs : ∀ n x, seg g n = Some x → 0 ≤ n ∧ (n < m_nextSeqno (cur g) ∨ (n = m_nextSeqno (cur g) ∧ 1 ≤ m_epoch (cur g)));
  g_same : ∀ n w x, (n, w) ∈ g_hist g → seg g n = Some x → x = BSegment w;
  g_snaps : ∀ ts x, snap g ts = Some x → snap_good g ts x;
  g_snapcur : ∀ ts, m_snapshotTs (cur g) = Some ts → ∃ x, snap g ts = Some x }.

(** ** What a process relies on of the others *)
Record rely (me : nat) (g g' : shared) : Prop := {
  r_epoch : m_epoch (cur g) ≤ m_epoch (cur g');
  r_next : m_nextSeqno (cur g) ≤ m_nextSeqno (cur g');
  r_owner : ∀ e, e ≤ m_epoch (cur g) → g_owner g' !! e = g_owner g !! e;
  r_hist : ∃ X, g_hist g' = g_hist g ++ X ∧ ∀ x, x ∈ X → m_nextSeqno (cur g) ≤ x.1 ∧
             (1 ≤ m_epoch (cur g) → g_owner g !! m_epoch (cur g) = Some me → m_nextSeqno (cur g) < x.1);
  r_base : ∀ b, m_snapshotSegBase (cur g) = Some b → ∃ b', m_snapshotSegBase (cur g') = Some b' ∧ b ≤ b';
  r_bump : m_epoch (cur g) < m_epoch (cur g') → 1 ≤ m_epoch (cur g) → m_nextSeqno (cur g) < m_nextSeqno (cur g');
  r_mine : m_epoch (cur g') = m_epoch (cur g) → g_owner g !! m_epoch (cur g) = Some me →
             m_nextSeqno (cur g') = m_nextSeqno (cur g) ∧ ∀ n, m_nextSeqno (cur g) ≤ n → seg g' n = seg g n;
  r_snapts : ∀ t, m_snapshotTs (cur g) = Some t → ∃ t', m_snapshotTs (cur g') = Some t' ∧ t ≤ t';
  r_snap : ∀ ts x, snap g ts = Some x → (∃ x', snap g' ts = Some x') ∨ ∃ t, m_snapshotTs (cur g') = Some t ∧ ts < t }.

Lemma rely_refl me g : rely me g g.
Proof.
  split; try done; try lia; [exists []; rewrite app_nil_r; split; [done|by intros ? ?%elem_of_nil]|intros b ->; by exists b
    |intros t ->; by exists t|intros ts x Hx; left; by exists x].
Qed.
Lemma rely_trans me g1 g2 g3 : rely me g1 g2 → rely me g2 g3 → rely me g1 g3.
Proof.
  intros [E1 N1 O1 (X1 & H1 & HX1) B1 U1 M1 S1 K1] [E2 N2 O2 (X2 & H2 & HX2) B2 U2 M2 S2 K2]. split; try lia.
  - intros e He. rewrite O2 by lia. by apply O1.
  - exists (X1 ++ X2). rewrite H2, H1, <-(assoc_L (++)). split; [done|]. intros x [Hx|Hx]%elem_of_app; [by apply HX1|].
    destruct (HX2 x Hx) as [Hn Hm]. split; [lia|]. intros He Ho. destruct (decide (m_epoch (cur g2) = m_epoch (cur g1))) as [Ee|Ee].
    + destruct (M1 Ee Ho) as [En _]. rewrite <-En. apply Hm; [lia|]. rewrite Ee. rewrite O1; done.
    + assert (m_nextSeqno (cur g1) < m_nextSeqno (cur g2)) by (apply U1; lia). lia.
  - intros b Hb. destruct (B1 b Hb) as (b' & Hb' & ?). destruct (B2 b' Hb') as (b2 & Hb2 & ?). exists b2. split; [done|lia].
  - intros Ee Ho. assert (m_epoch (cur g2) = m_epoch (cur g1)) as E12 by lia. destruct (M1 E12 Ho) as [En Es].
    destruct M2 as [En2 Es2]; [lia|rewrite E12; rewrite O1; done|]. split; [lia|]. intros n Hn. rewrite Es2 by lia. by apply Es.
  - intros t Ht. destruct (S1 t Ht) as (t1 & Ht1 & ?). destruct (S2 t1 Ht1) as (t2 & Ht2 & ?). exists t2. split; [done|lia].
  - intros ts x Hx. destruct (K1 ts x Hx) as [[y Hy]|(t & Ht & Hlt)]; [by apply (K2 ts y)|]. right. destruct (S2 t Ht) as (t2 & Ht2 & ?).
    exists t2. split; [done|lia].
Qed.
(** What a call leaves to every other process *)
Definition guar (me : nat) (g g' : shared) : Prop := ∀ j, j ≠ me → rely j g g'.

Lemma rows_stable me n g g' : rely me g g' → n ≤ m_nextSeqno (cur g) → rows_at n g' = rows_at n g.
Proof.
  intros [_ _ _ (X & H & HX) _ _ _ _ _] Hn. unfold rows_at. rewrite H, below_app, (below_none n X), app_nil_r; [done|].
  intros x Hx. destruct (HX x Hx). lia.
Qed.
Lemma past_stable me m g g' : rely me g g' → past m g → past m g'.
Proof.
  intros R [P1 P2 P3 P4 P5 P6 P7 P8 P9 P10 P11]. pose proof (rows_stable me (m_nextSeqno m) g g' R ltac:(lia)) as En. pose proof R as [E N _ (X & H & HX) B _ _ _ _].
  split; try done; try lia.
  - by rewrite En.
  - intros s Hs. destruct (P5 s Hs). split; [done|]. rewrite H, fmap_app. apply elem_of_app. by left.
  - intros x Hx Hlt. rewrite H in Hx. apply elem_of_app in Hx as [Hx|Hx]; [by apply P7|]. destruct (HX x Hx). lia.
  - intros b Hb. destruct (P9 b Hb) as (Hr & Ht & b' & Hb' & Hle). split_and!; [lia|lia| |].
    + rewrite (rows_stable me (b + 1) g g' R); [done|lia].
    + destruct (B b' Hb') as (b2 & Hb2 & ?). exists b2. split; [done|lia].
Qed.
Lemma snap_good_stable me g g' ts x : rely me g g' → snap_good g ts x → snap_good g' ts x.
Proof.
  intros R (H0 & w & p & k & Hx & Hd & Hf & Hk & Ht & Hs). split; [done|]. exists w, p, k. rewrite (rows_stable me k g g' R) by done.
  pose proof (r_next _ _ _ R). split_and!; try done. lia.
Qed.

Lemma top_rows_mono a b g : inv g → a ≤ b → top (rows_at a g) ≤ top (rows_at b g).
Proof.
  intros I Hab. unfold rows_at. destruct (below_mono a b _ (g_log _ I) Hab) as (X & -> & _). rewrite log_rows_app, top_app. lia.
Qed.

(** ** Calls *)
(** A segment a process may upload: past the log, and below the cursor unless it owns the epoch *)
Definition put_ok (me : nat) (n : Z) (g : shared) : Prop :=
  0 ≤ n ∧ n ∉ (g_hist g).*1 ∧
  (n < m_nextSeqno (cur g) ∨ (n = m_nextSeqno (cur g) ∧ 1 ≤ m_epoch (cur g) ∧ g_owner g !! m_epoch (cur g) = Some me)).
Definition seg_change (me : nat) (g g' : shared) : Prop := ∀ n,
  seg g' n = seg g n ∨ (seg g' n = None ∧ ∃ b, m_snapshotSegBase (cur g) = Some b ∧ n ≤ b) ∨
  (seg g n = None ∧ (∃ w, seg g' n = Some (BSegment w)) ∧ put_ok me n g).
Definition snap_change (g g' : shared) : Prop := ∀ ts,
  snap g' ts = snap g ts ∨ (snap g' ts = None ∧ ∃ t, m_snapshotTs (cur g) = Some t ∧ ts < t) ∨
  (snap g ts = None ∧ ∃ x, snap g' ts = Some x ∧ snap_good g ts x).

Lemma frame_rely me j g g' : inv g → cur g' = cur g → g_hist g' = g_hist g → g_owner g' = g_owner g → seg_change me g g' → snap_change g g' → j ≠ me → rely j g g'.
Proof.
  intros I Ec Eh Eo Hs Hsn Hj. split; rewrite ?Ec; try done; try lia.
  - intros e _. by rewrite Eo.
  - exists []. rewrite app_nil_r. split; [done|by intros ? ?%elem_of_nil].
  - intros b ->. exists b. by split.
  - intros _ Ho. split; [done|]. intros n Hn. destruct (Hs n) as [E|[[E (b & Hb & Hle)]|[E (_ & _ & _ & Hput)]]]; [done| |].
    + destruct (pa_base _ _ (g_past _ I) b Hb) as (Hb' & _). lia.
    + destruct Hput as [?|(_ & _ & Ho')]; [lia|congruence].
  - intros t ->. exists t. by split.
  - intros ts x Hx. destruct (Hsn ts) as [E|[[E H]|[E _]]]; [left; exists x; congruence|by right|congruence].
Qed.
Lemma frame_inv me g g' : inv g → jm_ok (g_bucket g') → (∀ x, os_get (g_bucket g') (manifestKey shard) = Some x → ∃ m, x = BManifest m) →
  cur g' = cur g → g_hist g' = g_hist g → g_owner g' = g_owner g → seg_change me g g' → snap_change g g' → inv g' ∧ guar me g g'.
Proof.
  intros I Hk Hm Ec Eh Eo Hs Hn.
  assert (guar me g g') as Hg by (intros j Hj; by apply (frame_rely me)).
  assert (∃ j, j ≠ me) as [j Hj] by (exists (S me); lia). pose proof (Hg j Hj) as R.
  split; [|done]. pose proof I as [_ _ I3 I4 I5 I6 I7 I8 I9 I10]. split; try done; rewrite ?Ec, ?Eh; try done.
  - by apply (past_stable j _ g).
  - intros s Hse. destruct (I6 s Hse) as [w Hw]. exists w. destruct (Hs s) as [E|[[E (b & Hb & Hle)]|[E _]]]; [congruence| |congruence].
    pose proof (pa_above _ _ I3 b s Hb Hse). lia.
  - intros n x Hx. destruct (Hs n) as [E|[[E _]|(E & _ & H0 & _ & Hp)]]; [rewrite E in Hx; by apply (I7 n x)|congruence|]. split; [done|]. tauto.
  - intros n w x Hx Hx'. destruct (Hs n) as [E|[[E _]|(E & _ & _ & Hn' & _)]]; [rewrite E in Hx'; by apply (I8 n)|congruence|].
    exfalso. apply Hn'. apply list_elem_of_fmap. by exists (n, w).
  - intros ts x Hx. destruct (Hn ts) as [E|[[E _]|(_ & y & Hy & Hgood)]]; [rewrite E in Hx|congruence|].
    + apply (snap_good_stable j g); [done|]. by apply I9.
    + assert (x = y) as -> by congruence. by apply (snap_good_stable j g).
  - intros ts Hts. destruct (I10 ts Hts) as [x Hx]. destruct (Hn ts) as [E|[[E (t & Ht & Hlt)]|(E & _)]]; [exists x; congruence| |congruence].
    rewrite Hts in Ht. injection Ht as ->. lia.
Qed.

(** A successful write of the manifest *)
Inductive installs (me : nat) (g : shared) : Manifest → Prop :=
  | in_claim wid le : installs me g (claimed_manifest (cur g) wid le)
  | in_lease wid le : installs me g (leased_manifest (cur g) wid le)
  | in_commit maxTs w p : seg g (m_nextSeqno (cur g)) = Some (BSegment w) → seg_ok w p → 1 ≤ m_epoch (cur g) → g_owner g !! m_epoch (cur g) = Some me →
      (∀ r, r ∈ seg_rows w → m_frontierTs (cur g) < l_ts r) → maxTs = top (seg_rows w) →
      installs me g (committed_manifest (cur g) (m_epoch (cur g)) maxTs (m_nextSeqno (cur g)))
  | in_snapshot x : snap g (m_frontierTs (cur g)) = Some x → m_nextSeqno (cur g) ≠ 0 →
      installs me g (snapshot_manifest (cur g) (m_frontierTs (cur g)) (m_nextSeqno (cur g) - 1)).
Definition hist_of (m' : Manifest) (g : shared) : log :=
  if m_frontierTs (cur g) <? m_frontierTs m' then
    match last (m_segments m') with
    | Some s => match seg g s with Some (BSegment w) => g_hist g ++ [(s, w)] | _ => g_hist g end
    | None => g_hist g
    end
  else g_hist g.
Definition owner_of (me : nat) (m' : Manifest) (g : shared) : gmap Z nat :=
  if m_epoch (cur g) <? m_epoch m' then <[m_epoch m' := me]> (g_owner g) else g_owner g.

Lemma all_below g : inv g → rows_at (m_nextSeqno (cur g)) g = log_rows (g_hist g).
Proof. intros I. unfold rows_at. rewrite below_all; [done|]. apply (g_below _ I). Qed.

Lemma hist_same m' g : m_frontierTs m' = m_frontierTs (cur g) → hist_of m' g = g_hist g.
Proof. intros E. unfold hist_of. rewrite E, Z.ltb_irrefl. done. Qed.
Lemma owner_same me m' g : m_epoch m' = m_epoch (cur g) → owner_of me m' g = g_owner g.
Proof. intros E. unfold owner_of. rewrite E, Z.ltb_irrefl. done. Qed.

(** The bucket after the write *)
Record installed (me : nat) (g g' : shared) (m' : Manifest) : Prop := {
  is_keys : jm_ok (g_bucket g');
  is_manifest : ∀ x, os_get (g_bucket g') (manifestKey shard) = Some x → ∃ m, x = BManifest m;
  is_cur : cur g' = m';
  is_hist : g_hist g' = hist_of m' g;
  is_owner : g_owner g' = owner_of me m' g;
  is_seg : ∀ n, seg g' n = seg g n;
  is_snap : ∀ ts, snap g' ts = snap g ts }.

(** The rest of the invariant, where the log does not move *)
Lemma quiet_install me g g' m' : inv g → installed me g g' m' → m_frontierTs m' = m_frontierTs (cur g) → m_nextSeqno (cur g) ≤ m_nextSeqno m' → m_epoch (cur g) ≤ m_epoch m' →
  (∀ s, s ∈ m_segments m' → s ∈ m_segments (cur g)) → (∀ ts, m_snapshotTs m' = Some ts → ∃ x, snap g ts = Some x) →
  (m_nextSeqno (cur g) < m_nextSeqno m' ∨ m_nextSeqno m' = m_nextSeqno (cur g)) →
  (∀ b, m_snapshotSegBase (cur g) = Some b → ∃ b', m_snapshotSegBase m' = Some b' ∧ b ≤ b') →
  (m_epoch (cur g) < m_epoch m' → 1 ≤ m_epoch (cur g) → m_nextSeqno (cur g) < m_nextSeqno m') →
  (m_epoch m' = m_epoch (cur g) → m_nextSeqno m' = m_nextSeqno (cur g)) →
  (∀ t, m_snapshotTs (cur g) = Some t → ∃ t', m_snapshotTs m' = Some t' ∧ t ≤ t') →
  (past m' g' → inv g' ∧ guar me g g') ∧ guar me g g'.
Proof.
  intros I [Hk Hm Ec Eh Eo Es En] Hf Hn He Hseg Hsnap Hn2 Hb Hbump Hmine Hst. rewrite hist_same in Eh by done.
  assert (guar me g g') as Hg.
  { intros j Hj. split; rewrite ?Ec; try done.
    - intros e Hle. rewrite Eo. unfold owner_of. destruct (Z.ltb_spec (m_epoch (cur g)) (m_epoch m')); [|done]. rewrite lookup_insert_ne by lia. done.
    - exists []. rewrite app_nil_r. split; [done|by intros ? ?%elem_of_nil].
    - intros E _. split; [by apply Hmine|]. intros n _. apply Es.
    - intros ts x Hx. left. exists x. by rewrite En. }
  split; [|done]. intros Hp. split; [|done]. assert (∃ j, j ≠ me) as [j Hj] by (exists (S me); lia). pose proof (Hg j Hj) as R.
  pose proof I as [_ _ I3 I4 I5 I6 I7 I8 I9 I10]. split; try done; rewrite ?Ec, ?Eh; try done.
  - intros x Hx. specialize (I5 x Hx). lia.
  - intros s Hs. rewrite Es. by apply I6, Hseg.
  - intros n x Hx. rewrite Es in Hx. destruct (I7 n x Hx) as [H0 H1]. split; [done|]. destruct H1 as [?|[? ?]]; lia.
  - intros n w x Hx. rewrite Es. by apply I8.
  - intros ts x Hx. rewrite En in Hx. apply (snap_good_stable j g); [done|]. by apply I9.
  - intros ts Hts. rewrite En. by apply Hsnap.
Qed.
Lemma install_claim me g g' m' wid le : inv g → installed me g g' m' → m' = claimed_manifest (cur g) wid le → inv g' ∧ guar me g g'.
Proof.
  intros I H E. pose proof H as [Hk Hm Ec Eh Eo Es En]. pose proof (g_past _ I) as P. pose proof P as [P1 P2 P3 P4 P5 P6 P7 P8 P9 P10 P11].
  assert (m_nextSeqno m' = m_nextSeqno (cur g) + 1 ∨ (m_epoch (cur g) = 0 ∧ m_nextSeqno m' = m_nextSeqno (cur g))) as Hn.
  { subst m'. cbn. destruct (Z.ltb_spec 0 (m_epoch (cur g))); [by left|right]. split; lia. }
  assert (m_epoch m' = m_epoch (cur g) + 1) as He by (by subst m').
  destruct (quiet_install me g g' m' I H) as [Hq Hg]; try (subst m'; cbn; done); try lia.
  - subst m'. cbn. apply (g_snapcur _ I).
  - subst m'. cbn. intros b ->. exists b. by split.
  - subst m'. cbn. intros t ->. exists t. by split.
  - apply Hq. assert (∃ j, j ≠ me) as [j Hj] by (exists (S me); lia). pose proof (past_stable j _ g g' (Hg j Hj) P) as [_ _ Q3 Q4 Q5 Q6 Q7 Q8 Q9 Q10 _].
    assert (g_hist g' = g_hist g) as Eh' by (rewrite Eh; apply hist_same; by subst m').
    assert (rows_at (m_nextSeqno m') g' = rows_at (m_nextSeqno (cur g)) g) as Er.
    { rewrite all_below by done. unfold rows_at. rewrite Eh', below_all; [done|]. intros x Hx. pose proof (g_below _ I x Hx). lia. }
    split; rewrite ?Ec; try lia.
    + rewrite Er. by subst m'.
    + by subst m'.
    + intros s Hs. subst m'. destruct (P5 s Hs). rewrite Eh'. split; [lia|done].
    + by subst m'.
    + intros x Hx _. rewrite Eh' in Hx. subst m'. apply P7; [done|]. by apply (g_below _ I).
    + by subst m'.
    + intros b Hb. subst m'. destruct (Q9 b Hb) as (? & ? & ?). split_and!; [lia|lia|done|exists b; by split].
    + by subst m'.
Qed.
Lemma install_lease me g g' m' wid le : inv g → installed me g g' m' → m' = leased_manifest (cur g) wid le → inv g' ∧ guar me g g'.
Proof.
  intros I H E. pose proof H as [Hk Hm Ec Eh Eo Es En]. pose proof (g_past _ I) as P.
  destruct (quiet_install me g g' m' I H) as [Hq Hg]; try (subst m'; cbn; done); try (subst m'; cbn; lia).
  - subst m'. cbn. apply (g_snapcur _ I).
  - subst m'. cbn. intros b ->. exists b. by split.
  - subst m'. cbn. intros t ->. exists t. by split.
  - subst m'. apply Hq. assert (∃ j, j ≠ me) as [j Hj] by (exists (S me); lia).
    pose proof (past_stable j _ g g' (Hg j Hj) P) as [Q1 Q2 Q3 Q4 Q5 Q6 Q7 Q8 Q9 Q10 Q11]. split; rewrite ?Ec; try done.
    + by rewrite Ec in Q1.
    + by rewrite Ec in Q2.
    + intros b Hb. specialize (Q9 b Hb). by rewrite Ec in Q9.
Qed.
Lemma install_snapshot me g g' m' x : inv g → installed me g g' m' → m' = snapshot_manifest (cur g) (m_frontierTs (cur g)) (m_nextSeqno (cur g) - 1) →
  snap g (m_frontierTs (cur g)) = Some x → m_nextSeqno (cur g) ≠ 0 → inv g' ∧ guar me g g'.
Proof.
  intros I H E Hx Hn0. pose proof H as [Hk Hm Ec Eh Eo Es En]. pose proof (g_past _ I) as P. pose proof P as [P1 P2 P3 P4 P5 P6 P7 P8 P9 P10 P11].
  assert (∀ s, s ∉ m_segments m') as Hsegs.
  { intros s Hs. subst m'. cbn in Hs. apply elem_lfilter in Hs as [Hs Hlt%Z.ltb_lt]. destruct (P5 s Hs). lia. }
  destruct (quiet_install me g g' m' I H) as [Hq Hg]; try (subst m'; cbn; done); try (subst m'; cbn; lia).
  - intros s Hs. by apply Hsegs in Hs.
  - subst m'. cbn. intros ts [= <-]. by exists x.
  - subst m'. cbn. intros b Hb. destruct (P9 b Hb) as (Hb' & _). eexists. split; [done|lia].
  - subst m'. cbn. intros t Ht. destruct (P10 t Ht) as [b Hb]. destruct (P9 b Hb) as (Hb' & Et & _). rewrite Ht in Et. injection Et as ->.
    eexists. split; [done|]. rewrite P3. apply top_rows_mono; [done|lia].
  - apply Hq. assert (g_hist g' = g_hist g) as Eh' by (rewrite Eh; apply hist_same; by subst m').
    assert (rows_at (m_nextSeqno m') g' = rows_at (m_nextSeqno (cur g)) g) as Er by (unfold rows_at; rewrite Eh'; by subst m').
    split; rewrite ?Ec; try (subst m'; cbn; lia).
    + rewrite Er. subst m'. done.
    + intros s Hs. by apply Hsegs in Hs.
    + destruct (m_segments m') as [|s l] eqn:El; [constructor|]. exfalso. apply (Hsegs s). set_solver.
    + intros y Hy Hlt. right. subst m'. cbn in *. eexists. split; [done|lia].
    + intros b s _ Hs. by apply Hsegs in Hs.
    + intros b Hb. subst m'. cbn in *. injection Hb as <-. split_and!; [lia|lia| |eexists; split; [done|lia]].
      replace (m_nextSeqno (cur g) - 1 + 1) with (m_nextSeqno (cur g)) by lia. unfold rows_at. rewrite Eh'. by rewrite P3.
    + subst m'. cbn. intros ts [= <-]. by eexists.
Qed.

Lemma hist_commit g maxTs w n e : seg g n = Some (BSegment w) → m_frontierTs (cur g) < maxTs →
  hist_of (committed_manifest (cur g) e maxTs n) g = g_hist g ++ [(n, w)].
Proof.
  intros Hs Hlt. unfold hist_of. cbn [committed_manifest m_frontierTs m_segments]. rewrite (proj2 (Z.ltb_lt _ _)) by done.
  rewrite last_snoc. by rewrite Hs.
Qed.
Lemma top_seg w p t : seg_ok w p → (∀ r, r ∈ seg_rows w → t < l_ts r) → t < top (seg_rows w).
Proof.
  intros Hp Ht. pose proof (seg_rows_ne _ _ Hp) as Hne. destruct (seg_rows w) as [|r l]; [done|]. specialize (Ht r ltac:(set_solver)).
  rewrite top_cons. lia.
Qed.
Lemma install_commit me g g' m' w p : inv g → installed me g g' m' →
  m' = committed_manifest (cur g) (m_epoch (cur g)) (top (seg_rows w)) (m_nextSeqno (cur g)) →
  seg g (m_nextSeqno (cur g)) = Some (BSegment w) → seg_ok w p → 1 ≤ m_epoch (cur g) → g_owner g !! m_epoch (cur g) = Some me →
  (∀ r, r ∈ seg_rows w → m_frontierTs (cur g) < l_ts r) → (inv g' ∧ guar me g g') ∧ g_hist g' = g_hist g ++ [(m_nextSeqno (cur g), w)].
Proof.
  intros I H E Hs Hp He Ho Hts. pose proof H as [Hk Hm Ec Eh Eo Es En]. pose proof (g_past _ I) as P.
  pose proof P as [P1 P2 P3 P4 P5 P6 P7 P8 P9 P10 P11]. set (n := m_nextSeqno (cur g)) in *.
  pose proof (top_seg w p _ Hp Hts) as Htop.
  assert (g_hist g' = g_hist g ++ [(n, w)]) as Eh' by (rewrite Eh, E; by apply hist_commit). split; [|done].
  assert (g_owner g' = g_owner g) as Eo' by (rewrite Eo; apply owner_same; by subst m').
  pose proof (all_below _ I) as Eall. fold n in Eall.
  assert (hist_ok (g_hist g')) as Hok.
  { rewrite Eh'. eapply hist_ok_snoc; [apply (g_log _ I)|lia|apply (g_below _ I)|done|]. intros r Hr. rewrite <-Eall, <-P3. by apply Hts. }
  assert (∀ k, k ≤ n → rows_at k g' = rows_at k g) as Erk.
  { intros k Hle. unfold rows_at. rewrite Eh', below_app, (below_none k [(n, w)]), app_nil_r; [done|]. intros x ->%list_elem_of_singleton. done. }
  assert (rows_at (n + 1) g' = rows_at n g ++ seg_rows w) as Ern.
  { unfold rows_at at 1. rewrite Eh', below_all; [|intros x [Hx| ->%list_elem_of_singleton]%elem_of_app; [pose proof (g_below _ I x Hx); unfold n; lia|cbn; lia]].
    rewrite log_rows_app, Eall. unfold log_rows at 2. cbn. by rewrite app_nil_r. }
  assert (guar me g g') as Hg.
  { intros j Hj. split; rewrite ?Ec; try (subst m'; cbn; lia).
    - intros e _. by rewrite Eo'.
    - exists [(n, w)]. split; [done|]. intros x ->%list_elem_of_singleton. cbn. split; [done|]. intros _ Ho'. congruence.
    - subst m'. cbn. intros b ->. exists b. by split.
    - intros _ Ho'. congruence.
    - subst m'. cbn. intros t ->. exists t. by split.
    - intros ts x Hx. left. exists x. by rewrite En. }
  split; [|done]. assert (m_nextSeqno m' = n + 1) as Enx by (by subst m'). assert (m_epoch m' = m_epoch (cur g)) as Eep by (by subst m').
  assert (snap_good_all : ∀ ts x, snap_good g ts x → snap_good g' ts x).
  { intros ts x (H0 & w' & p' & k & H1 & H2 & H3 & H4 & H5 & H6). split; [done|]. exists w', p', k. rewrite Erk, Ec, Enx by done. split_and!; try done. lia. }
  split; rewrite ?Ec; try done.
  - split; rewrite ?Ec, ?Enx; try (subst m'; cbn; lia).
    + rewrite Ern, top_app, <-P3. subst m'. cbn. lia.
    + intros s Hse. subst m'. cbn in Hse. rewrite Eh', fmap_app. apply elem_of_app in Hse as [Hse| ->%list_elem_of_singleton].
      * destruct (P5 s Hse). split; [lia|]. apply elem_of_app. by left.
      * split; [lia|]. apply elem_of_app. right. cbn. set_solver.
    + subst m'. cbn. clear -P5 P6. induction P6 as [|s l Hl IH Hall]; [repeat constructor|]. cbn. constructor; [apply IH; intros; apply P5; set_solver|].
      apply Forall_app. split; [done|]. constructor; [|done]. destruct (P5 s ltac:(set_solver)). done.
    + intros x Hx _. rewrite Eh' in Hx. subst m'. cbn. apply elem_of_app in Hx as [Hx| ->%list_elem_of_singleton].
      * destruct (P7 x Hx (g_below _ I x Hx)) as [Hin|Hb]; [left|by right]. apply elem_of_app. by left.
      * left. apply elem_of_app. right. set_solver.
    + intros b s Hb Hse. subst m'. cbn in *. apply elem_of_app in Hse as [Hse| ->%list_elem_of_singleton]; [by apply (P8 b s)|].
      destruct (P9 b Hb) as (? & _). lia.
    + intros b Hb. subst m'. cbn in *. destruct (P9 b Hb) as (? & ? & _). split_and!; [lia|lia| |exists b; by split]. rewrite Erk by lia. done.
    + subst m'. cbn. done.
  - intros x Hx. rewrite Enx. rewrite Eh' in Hx. apply elem_of_app in Hx as [Hx| ->%list_elem_of_singleton]; [pose proof (g_below _ I x Hx); unfold n; lia|cbn; lia].
  - intros s Hse. rewrite Es. subst m'. cbn in Hse. apply elem_of_app in Hse as [Hse| ->%list_elem_of_singleton]; [by apply (g_segs _ I)|by exists w].
  - intros k x Hx. rewrite Es in Hx. destruct (g_objs _ I k x Hx) as [H0 H1]. rewrite Enx, Eep. fold n in H1. split; [done|]. lia.
  - intros k w' x Hx Hx'. rewrite Es in Hx'. rewrite Eh' in Hx. apply elem_of_app in Hx as [Hx|[= -> ->]%list_elem_of_singleton]; [by apply (g_same _ I k)|congruence].
  - intros ts x Hx. rewrite En in Hx. apply snap_good_all. by apply (g_snaps _ I).
  - intros ts Hts'. rewrite En. apply (g_snapcur _ I). by subst m'.
Qed.

(** ** The calls of the operations *)
Lemma get_set_other (b : bucket) k k' x : k' ≠ k → os_get (jm_set b k x) k' = os_get b k'.
Proof. intros H. unfold os_get. rewrite jm_get_set. by rewrite decide_False. Qed.
Lemma get_set_same (b : bucket) k x : os_get (jm_set b k x) k = Some x.
Proof. unfold os_get. rewrite jm_get_set. by rewrite decide_True. Qed.
Lemma cur_eq g g' : os_get (g_bucket g') (manifestKey shard) = os_get (g_bucket g) (manifestKey shard) → cur g' = cur g.
Proof. intros E. unfold ObjectSystem.cur. by rewrite E. Qed.
Lemma exec_same g : {| g_bucket := g_bucket g; g_hist := g_hist g; g_owner := g_owner g |} = g.
Proof. by destruct g. Qed.

Lemma exec_cases me c o g r g' : exec shard me c o g = (r, g') →
  (g' = g ∧ ∃ e, r = Err e) ∨
  (g' = (apply_call shard me c g).2 ∧ (r = (apply_call shard me c g).1 ∨ ∃ e, r = Err e ∧ o = AnswerLost e)).
Proof. destruct o; cbn; intros [= <- <-]; [right; split; [done|by left]|left; eauto|right; split; [done|right; eauto]]. Qed.
Lemma call_get me k o g r g' : exec shard me (CGet k) o g = (r, g') → g' = g ∧ ((∃ e, r = Err e) ∨ r = Ok (RBody (os_get (g_bucket g) k))).
Proof. intros [[-> H]|[-> [->|(e & -> & _)]]]%exec_cases; unfold apply_call; cbn; rewrite ?exec_same; eauto. Qed.
Lemma call_list me k o g r g' : exec shard me (CList k) o g = (r, g') → g' = g ∧ ((∃ e, r = Err e) ∨ r = Ok (RKeys (os_list (g_bucket g) k))).
Proof. intros [[-> H]|[-> [->|(e & -> & _)]]]%exec_cases; unfold apply_call; cbn; rewrite ?exec_same; eauto. Qed.

Lemma put_other_bucket b k x k' : k' ≠ k → os_get (os_putImmutable b k x) k' = os_get b k'.
Proof. intros H. unfold os_putImmutable. destruct (os_get b k); [done|]. by apply get_set_other. Qed.
Lemma put_ok_keys b k x : jm_ok b → jm_ok (os_putImmutable b k x).
Proof. intros H. unfold os_putImmutable. destruct (os_get b k); [done|]. by apply jm_set_ok. Qed.
Lemma put_here b k x : os_get (os_putImmutable b k x) k = match os_get b k with Some y => Some y | None => Some x end.
Proof. unfold os_putImmutable. destruct (os_get b k) eqn:E; [done|]. apply get_set_same. Qed.

Lemma call_put_seg me n w o g r g' : inv g → put_ok me n g → exec shard me (CPut (segmentKey shard n) (BSegment w)) o g = (r, g') → (∀ e, o ≠ AnswerLost e) →
  (inv g' ∧ guar me g g') ∧ cur g' = cur g ∧ g_hist g' = g_hist g ∧ g_owner g' = g_owner g ∧
  ((g' = g ∧ ∃ e, r = Err e) ∨ (r = Ok RUnit ∧ seg g' n = match seg g n with Some y => Some y | None => Some (BSegment w) end)).
Proof.
  intros I Hp [[-> He]|[-> H]]%exec_cases Ho; [split_and!; try done; [intros j _; apply rely_refl|by left]|].
  destruct H as [->|(e & -> & ?)]; [|by destruct (Ho e)]. unfold apply_call. cbn [os_exec fst snd]. set (g' := {| g_bucket := _ |}).
  assert (cur g' = cur g) as Ec by (apply cur_eq, put_other_bucket, manifest_seg).
  assert (∀ k, seg g' k = if decide (k = n) then match seg g n with Some y => Some y | None => Some (BSegment w) end else seg g k) as Es.
  { intros k. case_decide as E; [subst k; apply put_here|]. apply put_other_bucket. by intros ?%segmentKey_inj. }
  split; [|split_and!; try done; right; split; [done|]; rewrite Es; by rewrite decide_True].
  apply (frame_inv me g g' I); try done.
  - apply put_ok_keys, (g_keys _ I).
  - intros x. cbn [g' g_bucket]. rewrite put_other_bucket by apply manifest_seg. apply (g_manifest _ I).
  - intros k. rewrite Es. case_decide as E; [subst k|by left]. destruct (seg g n) eqn:En; [by left|]. right. right. split_and!; [done|by exists w|done].
  - intros ts. left. apply put_other_bucket. intros E. by apply (seg_snap shard (string_of_int n) (string_of_int ts)).
Qed.
Lemma call_put_snap me ts w o g r g' : inv g → snap_good g ts (BSnapshot w) → exec shard me (CPut (snapshotKey shard ts) (BSnapshot w)) o g = (r, g') →
  (inv g' ∧ guar me g g') ∧ cur g' = cur g ∧ g_hist g' = g_hist g ∧ g_owner g' = g_owner g ∧ (∀ n, seg g' n = seg g n) ∧
  ((∃ e, r = Err e) ∨ (r = Ok RUnit ∧ ∃ x, snap g' ts = Some x)).
Proof.
  intros I Hp [[-> He]|[-> H]]%exec_cases; [split_and!; try done; [intros j _; apply rely_refl|by left]|].
  unfold apply_call in *. cbn [os_exec fst snd] in *. set (g' := {| g_bucket := _ |}) in *.
  assert (cur g' = cur g) as Ec by (apply cur_eq, put_other_bucket, manifest_snap).
  assert (∀ k, snap g' k = if decide (k = ts) then match snap g ts with Some y => Some y | None => Some (BSnapshot w) end else snap g k) as Es.
  { intros k. case_decide as E; [subst k; apply put_here|]. apply put_other_bucket. by intros ?%snapshotKey_inj. }
  assert (∀ n, seg g' n = seg g n) as Esg by (intros n; apply put_other_bucket; intros E; by apply (seg_snap shard (string_of_int n) (string_of_int ts))).
  split; [|split_and!; try done].
  - apply (frame_inv me g g' I); try done.
    + apply put_ok_keys, (g_keys _ I).
    + intros x. cbn [g' g_bucket]. rewrite put_other_bucket by apply manifest_snap. apply (g_manifest _ I).
    + intros n. left. apply Esg.
    + intros k. rewrite Es. case_decide as E; [subst k|by left]. destruct (snap g ts) eqn:En; [by left|]. right. right. split; [done|]. by eexists.
  - destruct H as [->|(e & -> & _)]; [right|left; eauto]. split; [done|]. rewrite Es, decide_True by done. destruct (snap g ts); by eexists.
Qed.

(** A write of the manifest over what the writer read *)
Lemma cas_installed me g m' e b' : inv g → os_casPut (g_bucket g) (manifestKey shard) (BManifest m') e = Ok b' →
  installed me g (apply_call shard me (CCas (manifestKey shard) (BManifest m') e) g).2 m' ∧
  (apply_call shard me (CCas (manifestKey shard) (BManifest m') e) g).1 = Ok (REtag (BManifest m')) ∧ (∀ m, e = Some (BManifest m) → cur g = m) ∧
  (e = None → cur g = emptyManifest).
Proof.
  intros I E. unfold apply_call. cbn [os_exec]. rewrite E. cbn [fst snd log_after owner_after]. rewrite bool_decide_true by done. cbn [andb].
  assert (b' = jm_set (g_bucket g) (manifestKey shard) (BManifest m')) as ->.
  { unfold os_casPut in E. destruct e, (os_get _ _); try done; [|congruence]. case_decide; congruence. }
  split_and!.
  - split; cbn [g_bucket]; try done.
    + apply jm_set_ok, (g_keys _ I).
    + intros x. rewrite get_set_same. intros [= <-]. by eexists.
    + unfold ObjectSystem.cur. cbn [g_bucket]. by rewrite get_set_same.
    + intros n. apply get_set_other. intros E'. symmetry in E'. by apply (manifest_seg shard) in E'.
    + intros n. apply get_set_other. intros E'. symmetry in E'. by apply (manifest_snap shard) in E'.
  - done.
  - intros m ->. unfold os_casPut in E. unfold ObjectSystem.cur. destruct (os_get _ _) as [c|]; [|done]. case_decide as Ed; [|done]. by rewrite Ed.
  - intros ->. unfold os_casPut in E. unfold ObjectSystem.cur. by destruct (os_get _ _).
Qed.
Lemma cas_conflict me g m' e er : os_casPut (g_bucket g) (manifestKey shard) (BManifest m') e = Err er →
  apply_call shard me (CCas (manifestKey shard) (BManifest m') e) g = (Err CasConflict, g).
Proof.
  intros E. unfold apply_call. cbn [os_exec]. rewrite E. cbn [fst snd log_after owner_after]. rewrite exec_same. f_equal. f_equal.
  unfold os_casPut in E. destruct e, (os_get _ _); try congruence. case_decide; congruence.
Qed.
Lemma install_inv me g g' m' : inv g → installs me g m' → installed me g g' m' → inv g' ∧ guar me g g'.
Proof.
  intros I H Hi. inversion H as [wid le E|wid le E|maxTs w p Hs Hp He Ho Hts -> E|x Hx Hn E]; subst.
  - by eapply install_claim.
  - by eapply install_lease.
  - by eapply install_commit.
  - by eapply install_snapshot.
Qed.
Lemma call_cas me m m' o g r g' : inv g → (cur g = m → installs me g m') →
  exec shard me (CCas (manifestKey shard) (BManifest m') (Some (BManifest m))) o g = (r, g') →
  (inv g' ∧ guar me g g') ∧
  ((r = Ok (REtag (BManifest m')) ∧ cur g = m ∧ installed me g g' m') ∨ ∃ e, r = Err e).
Proof.
  intros I Hin H%exec_cases.
  destruct (os_casPut (g_bucket g) (manifestKey shard) (BManifest m') (Some (BManifest m))) as [b'|e] eqn:E.
  - destruct (cas_installed me g m' _ b' I E) as (Hi & Hr & Hc & _). specialize (Hc m eq_refl).
    destruct H as [[-> He]|[-> [->|(e & -> & _)]]].
    + split; [split; [done|intros j _; apply rely_refl]|]. by right.
    + split; [by apply (install_inv me _ _ m'); auto|]. left. by rewrite Hr.
    + split; [by apply (install_inv me _ _ m'); auto|]. right. eauto.
  - rewrite (cas_conflict me g m' _ e E) in H. destruct H as [[-> H]|[-> H]]; (split; [split; [done|intros j _; apply rely_refl]|]); right; [done|].
    destruct H as [->|(e' & -> & _)]; cbn; eauto.
Qed.
Lemma call_create me o g r g' : inv g → exec shard me (CCas (manifestKey shard) (BManifest emptyManifest) None) o g = (r, g') →
  (inv g' ∧ guar me g g') ∧ (r = Ok (REtag (BManifest emptyManifest)) ∧ cur g' = emptyManifest ∨ ∃ e, r = Err e).
Proof.
  intros I H%exec_cases. destruct (os_casPut (g_bucket g) (manifestKey shard) (BManifest emptyManifest) None) as [b'|e] eqn:E.
  - destruct (cas_installed me g _ _ b' I E) as (Hi & Hr & _ & Hc). specialize (Hc eq_refl).
    assert (∀ g', g' = (apply_call shard me (CCas (manifestKey shard) (BManifest emptyManifest) None) g).2 → inv g' ∧ guar me g g') as Hig.
    { intros g2 ->. eapply install_lease; [done|exact Hi|]. by rewrite Hc. }
    destruct H as [[-> He]|[-> [->|(e & -> & _)]]].
    + split; [split; [done|intros j _; apply rely_refl]|]. by right.
    + split; [by apply Hig|]. left. split; [done|]. apply (is_cur _ _ _ _ Hi).
    + split; [by apply Hig|]. right. eauto.
  - rewrite (cas_conflict me g _ _ e E) in H. destruct H as [[-> H]|[-> H]]; (split; [split; [done|intros j _; apply rely_refl]|]); right; [done|].
    destruct H as [->|(e' & -> & _)]; cbn; eauto.
Qed.

(** Writes and deletions of keys the invariant does not read *)
Lemma frame_all g g' : (∀ me, inv g' ∧ guar me g g') → inv g' ∧ ∀ j, rely j g g'.
Proof. intros H. split; [apply (H 0%nat)|]. intros j. destruct (H (S j)) as [_ Hg]. apply Hg. lia. Qed.
Definition free_key (k : jsstr) : Prop := k ≠ manifestKey shard ∧ (∀ n, k ≠ segmentKey shard n) ∧ ∀ n, k ≠ snapshotKey shard n.
Lemma consumer_free cid : free_key (consumerKey shard cid).
Proof.
  split_and!.
  - intros E. by apply (manifest_consumer shard cid).
  - intros n E. by apply (seg_consumer shard (string_of_int n) cid).
  - intros n E. by apply (snap_consumer shard (string_of_int n) cid).
Qed.
Lemma call_cas_free me k n e o g r g' : inv g → free_key k → exec shard me (CCas k (BWatermark n) e) o g = (r, g') → inv g' ∧ ∀ j, rely j g g'.
Proof.
  intros I (F1 & F2 & F3) H%exec_cases.
  assert (g' = g ∨ g' = {| g_bucket := jm_set (g_bucket g) k (BWatermark n); g_hist := g_hist g; g_owner := g_owner g |}) as [->| ->].
  { unfold apply_call in H. cbn [os_exec] in H. destruct (os_casPut _ _ _ _) as [b'|er] eqn:E; cbn in H.
    - destruct H as [[-> _]|[-> _]]; [by left|right]. f_equal. unfold os_casPut in E. destruct e, (os_get _ _); try done; [|congruence]. case_decide; congruence.
    - rewrite exec_same in H. destruct H as [[-> _]|[-> _]]; by left. }
  { split; [done|intros j; apply rely_refl]. }
  set (g2 := {| g_bucket := _ |}). assert (∀ k', k' ≠ k → os_get (g_bucket g2) k' = os_get (g_bucket g) k') as Hk by (intros; by apply get_set_other).
  apply frame_all. intros me'. apply (frame_inv me' g g2 I); try done.
  - apply jm_set_ok, (g_keys _ I).
  - intros x. rewrite Hk by done. apply (g_manifest _ I).
  - by apply cur_eq, Hk.
  - intros i. left. by apply Hk.
  - intros i. left. by apply Hk.
Qed.
Lemma call_delete me k o g r g' : inv g → k ≠ manifestKey shard →
  (∀ n, 0 ≤ n → k = segmentKey shard n → ∃ b, m_snapshotSegBase (cur g) = Some b ∧ n ≤ b) →
  (∀ ts, 0 ≤ ts → k = snapshotKey shard ts → ∃ t, m_snapshotTs (cur g) = Some t ∧ ts < t) →
  exec shard me (CDelete k) o g = (r, g') → inv g' ∧ (∀ j, rely j g g') ∧ ((∃ e, r = Err e) ∨ r = Ok RUnit).
Proof.
  intros I Hm Hs Hn H%exec_cases. destruct H as [[-> He]|[-> H]]; [split_and!; [done|intros j; apply rely_refl|by left]|].
  unfold apply_call in *. cbn [os_exec fst snd log_after owner_after] in *. set (g2 := {| g_bucket := _ |}).
  assert (∀ k', os_get (g_bucket g2) k' = if decide (k' = k) then None else os_get (g_bucket g) k') as Hk.
  { intros k'. apply jm_get_delete, (g_keys _ I). }
  assert (cur g2 = cur g) as Ec by (apply cur_eq; rewrite Hk; by rewrite decide_False).
  apply and_assoc; split; [|destruct H as [->|(e & -> & _)]; [by right|left; eauto]]. apply frame_all. intros me'. apply (frame_inv me' g g2 I); try done.
  - apply jm_delete_ok, (g_keys _ I).
  - intros x. rewrite Hk, decide_False by done. apply (g_manifest _ I).
  - intros n. unfold ObjectSystem.seg. rewrite Hk. case_decide as E; [|by left]. destruct (seg g n) as [x|] eqn:Ex; unfold ObjectSystem.seg in Ex; [|by left; rewrite Ex].
    right. left. split; [done|]. apply Hs; [|done]. by apply (g_objs _ I n x).
  - intros ts. unfold ObjectSystem.snap. rewrite Hk. case_decide as E; [|by left]. destruct (snap g ts) as [x|] eqn:Ex; unfold ObjectSystem.snap in Ex; [|by left; rewrite Ex].
    right. left. split; [done|]. apply Hn; [|done]. by apply (g_snaps _ I ts x).
Qed.
End Invariant.
