(* ===== verification/ObjectSafety.v ===== *)
(** What an [ObjectStoreDocStore]'s processes guarantee together: every operation keeps the bucket's invariant and its own instance's, acknowledged
    commits stay in the log a bootstrap reads, a local store shows that log. *)
From stdpp Require Import gmap.
From S2P Require Import Prelude Numbers Values IndexKeys Json IdCodec DocStore Segments ObjectStore ObjectDocStore ObjectLog ObjectSystem ObjectInv.

Section Safety.
Context (shard : jsstr).
Notation cur := (cur shard).
Notation seg := (seg shard).
Notation snap := (snap shard).
Notation inv := (inv shard).
Notation past := (past shard).
Notation rely := (rely shard).
Notation guar := (guar shard).

(** ** Running a program among others *)
Fixpoint good {A} (me : nat) (p : prog A) (Q : A → shared → Prop) (g : shared) : Prop :=
  match p with
  | Done a => Q a g
  | Call c k => ∀ g1, rely me g g1 → inv g1 → ∀ o r g2, call_faults c o = [] → exec shard me c o g1 = (r, g2) →
      (inv g2 ∧ guar me g1 g2) ∧ good me (k r) Q g2
  end.
Definition wp {A} (me : nat) (m : M Inst A) (Q : Inst → res A → shared → Prop) (i : Inst) (g : shared) : Prop :=
  good me (m i) (λ x, Q x.1 x.2) g.

Lemma good_bind {A B} me (p : prog A) (f : A → prog B) Q g : good me p (λ a g', good me (f a) Q g') g → good me (pbind p f) Q g.
Proof. revert g. induction p as [a|c k IH]; intros g; cbn; [done|]. intros H g1 R I o r g2 Ho E. destruct (H g1 R I o r g2 Ho E) as [H1 H2]. split; [done|]. by apply IH. Qed.
Lemma good_mono {A} me (p : prog A) (Q Q' : A → shared → Prop) g : (∀ a g', Q a g' → Q' a g') → good me p Q g → good me p Q' g.
Proof. intros HQ. revert g. induction p as [a|c k IH]; intros g; cbn; [apply HQ|]. intros H g1 R I o r g2 Ho E. destruct (H g1 R I o r g2 Ho E). split; [done|]. by apply IH. Qed.
Lemma good_stable {A} me (p : prog A) (Q : A → shared → Prop) g g' : (∀ a g g', rely me g g' → Q a g → Q a g') → rely me g g' → good me p Q g → good me p Q g'.
Proof. destruct p as [a|c k]; cbn; intros HQ R; [by apply HQ|]. intros H g1 R1. apply H. by eapply rely_trans. Qed.
Lemma wp_bind {A B} me (m : M Inst A) (f : A → M Inst B) Q i g :
  wp me m (λ i' r g', match r with Ok a => wp me (f a) Q i' g' | Err e => Q i' (Err e) g' end) i g → wp me (mbind' m f) Q i g.
Proof. unfold wp, mbind'. intros H. apply good_bind. eapply good_mono; [|exact H]. intros [i' [a|e]] g'; done. Qed.
Lemma wp_try {A} me (m : M Inst A) (h : exn → M Inst A) Q i g :
  wp me m (λ i' r g', match r with Ok a => Q i' (Ok a) g' | Err e => wp me (h e) Q i' g' end) i g → wp me (mtry m h) Q i g.
Proof. unfold wp, mtry. intros H. apply good_bind. eapply good_mono; [|exact H]. intros [i' [a|e]] g'; done. Qed.
Lemma wp_mono {A} me (m : M Inst A) (Q Q' : Inst → res A → shared → Prop) i g : (∀ i' r g', Q i' r g' → Q' i' r g') → wp me m Q i g → wp me m Q' i g.
Proof. intros H. apply good_mono. intros [i' r] g'. apply H. Qed.

(** Reading calls *)
Lemma wp_get me k Q i g : (∀ g1, rely me g g1 → inv g1 → (∀ e, Q i (Err e) g1) ∧ Q i (Ok (os_get (g_bucket g1) k)) g1) → wp me (c_get k) Q i g.
Proof.
  intros H g1 R I o r g2 _ E. apply call_get in E as [-> Hr]. split; [split; [done|intros j _; apply rely_refl]|]. destruct (H g1 R I). destruct Hr as [[e ->]| ->]; cbn; auto.
Qed.
Lemma wp_list me k Q i g : (∀ g1, rely me g g1 → inv g1 → (∀ e, Q i (Err e) g1) ∧ Q i (Ok (os_list (g_bucket g1) k)) g1) → wp me (c_list k) Q i g.
Proof.
  intros H g1 R I o r g2 _ E. apply call_list in E as [-> Hr]. split; [split; [done|intros j _; apply rely_refl]|]. destruct (H g1 R I). destruct Hr as [[e ->]| ->]; cbn; auto.
Qed.
Lemma wp_readManifest me Q i g :
  (∀ g1, rely me g g1 → inv g1 → (∀ e, Q i (Err e) g1) ∧ Q i (Ok None) g1 ∧ Q i (Ok (Some {| c_manifest := cur g1; c_etag := BManifest (cur g1) |})) g1) →
  wp me (readManifest shard) Q i g.
Proof.
  intros H. apply wp_bind, wp_get. intros g1 R I. destruct (H g1 R I) as (H1 & H2 & H3). split; [intros e; apply H1|].
  destruct (os_get (g_bucket g1) (manifestKey shard)) as [x|] eqn:E; [|done]. destruct (g_manifest _ _ I x E) as [m ->].
  assert (cur g1 = m) as Ec by (unfold ObjectSystem.cur; by rewrite E). unfold wp. cbn. by rewrite <-Ec.
Qed.
Lemma wp_readSnapshot me ts Q i g :
  (∀ g1, rely me g g1 → inv g1 → (∀ e, Q i (Err e) g1) ∧ Q i (Ok None) g1 ∧
     ∀ p k, sn_frontierTs p = ts → k ≤ m_nextSeqno (cur g1) → ts = top (rows_at k g1) → dumps (sn_documents p) (sn_indexUpdates p) (rows_at k g1) → Q i (Ok (Some p)) g1) →
  wp me (readSnapshot shard ts) Q i g.
Proof.
  intros H. apply wp_bind, wp_get. intros g1 R I. destruct (H g1 R I) as (H1 & H2 & H3). split; [intros e; apply H1|].
  destruct (os_get (g_bucket g1) (snapshotKey shard ts)) as [x|] eqn:E; [|done].
  destruct (g_snaps _ _ I ts x E) as (_ & w & p & k & -> & Hd & Hf & Hk & Ht & Hdu). apply wp_bind. unfold wp, mlift. cbn. rewrite Hd. cbn. by apply (H3 p k).
Qed.

(** ** Materialization *)
Lemma wp_local_write me docs idx sh Q i g d : write (i_local i) docs idx CSOverwrite sh = Ok d → Q (set_local d i) (Ok tt) g →
  wp me (local_write docs idx sh) Q i g.
Proof. intros E H. unfold wp, local_write, mbind', mstate, mlift, mset. cbn. rewrite E. exact H. Qed.
Lemma below_eq a b h : a ≤ b → (∀ x, x ∈ h → a ≤ x.1 → b ≤ x.1) → below a h = below b h.
Proof.
  intros Hab H. apply filter_ext_in_b. intros x Hx. specialize (H x Hx). apply eq_true_iff_eq. rewrite !Z.ltb_lt. lia.
Qed.
Lemma rows_snoc g a s w : inv g → (s, w) ∈ g_hist g → a ≤ s → (∀ x, x ∈ g_hist g → a ≤ x.1 → s ≤ x.1) →
  rows_at (s + 1) g = rows_at a g ++ seg_rows w ∧ ∀ r, r ∈ seg_rows w → top (rows_at a g) < l_ts r.
Proof.
  intros I Hin Has Hn. pose proof (below_next _ a s w (g_log _ _ I) Hin Has Hn) as E. unfold rows_at. rewrite E, log_rows_app. split.
  - unfold log_rows at 2. cbn. by rewrite app_nil_r.
  - intros r Hr. destruct (below_split (s + 1) _ (g_log _ _ I)) as (X & EX & _). pose proof (g_log _ _ I) as Hok. rewrite EX in Hok.
    apply hist_ok_prefix in Hok. rewrite E in Hok. apply (rows_after _ [(s, w)]); [done|]. apply elem_log_rows. exists (s, w). split; [set_solver|done].
Qed.
Lemma wp_replay me m i0 segs : ∀ a d Q g, inv g → past m g → shows d (rows_at (a + 1) g) → 0 ≤ a + 1 ≤ m_nextSeqno m →
  (∀ s, s ∈ segs → s ∈ m_segments m) → StronglySorted Z.lt segs → (∀ x, x ∈ g_hist g → a < x.1 → x.1 < m_nextSeqno m → x.1 ∈ segs) →
  (∀ g1 d', rely me g g1 → inv g1 → shows d' (rows_at (m_nextSeqno m) g1) → Q (set_local d' i0) (Ok tt) g1) → (∀ i' e g1, Q i' (Err e) g1) →
  wp me (replay_segments shard segs a) Q (set_local d i0) g.
Proof.
  induction segs as [|s segs IH]; intros a d Q g I P Hd Ha Hs Hso Hc HQ HE; cbn [replay_segments].
  { apply HQ; [apply rely_refl|done|]. unfold rows_at in *. rewrite <-(below_eq (a + 1) (m_nextSeqno m)); [done|lia|].
    intros x Hx Hle. destruct (Z.le_gt_cases (m_nextSeqno m) x.1); [done|].
    assert (x.1 ∈ @nil Z) as Hin by (apply Hc; [done|lia|lia]). by apply elem_of_nil in Hin. }
  inversion Hso as [|? ? Hso' Hall]; subst. rewrite Forall_forall in Hall. destruct (Z.leb_spec s a) as [Hle|Hlt].
  { apply IH; try done; [intros; apply Hs; set_solver|]. intros x Hx H1 H2. specialize (Hc x Hx H1 H2). apply elem_of_cons in Hc as [E|?]; [lia|done]. }
  apply wp_bind, wp_get. intros g1 R I1. split; [intros e; apply HE|]. destruct (os_get (g_bucket g1) (segmentKey shard s)) as [x|] eqn:E; [|apply HE].
  pose proof (past_stable _ me m g g1 R P) as P1. destruct (pa_segs _ _ _ P1 s) as [Hsn ((s' & w) & -> & Hw)%list_elem_of_fmap]; [apply Hs; set_solver|]. cbn [fst] in *.
  pose proof (g_same _ _ I1 s' w x Hw E) as ->. destruct (ho_seg _ (g_log _ _ I1) _ Hw) as (Hs0 & p & Hp). cbn [fst snd] in *.
  assert (∀ x, x ∈ g_hist g1 → a < x.1 → x.1 < m_nextSeqno m → x.1 ∈ s' :: segs) as Hc1.
  { intros y Hy H1 H2. destruct (r_hist _ _ _ _ R) as (X & EX & HX). rewrite EX in Hy. apply elem_of_app in Hy as [Hy|Hy]; [by apply Hc|].
    destruct (HX y Hy) as [? _]. pose proof (pa_next _ _ _ P). lia. }
  destruct (rows_snoc g1 (a + 1) s' w I1 Hw) as [Er Et]; [lia| |].
  { intros y Hy Hle. destruct (Z.le_gt_cases (m_nextSeqno m) y.1); [lia|]. destruct (proj1 (elem_of_cons _ _ _) (Hc1 y Hy ltac:(lia) ltac:(lia))) as [Ey|Hin]; [lia|].
    specialize (Hall _ Hin). lia. }
  rewrite <-(rows_stable _ me (a + 1) g g1 R) in Hd by (pose proof (pa_next _ _ _ P); lia).
  destruct (shows_write d (rows_at (a + 1) g1) (sp_documents p) (sp_indexUpdates p) None Hd) as (d' & Ew & Hd'); try apply Hp.
  { intros e He. apply (Et (entry_row e)). rewrite (seg_rows_ok _ _ Hp). apply list_elem_of_In, in_map_iff. exists e. by rewrite <-list_elem_of_In. }
  rewrite <-(seg_rows_ok _ _ Hp), <-Er in Hd'.
  apply wp_bind. unfold wp at 1, mlift. cbn [good fst snd]. rewrite (so_decode _ _ Hp). apply wp_bind. eapply wp_local_write; [exact Ew|].
  change (set_local d' (set_local d i0)) with (set_local d' i0). apply IH; try done.
  - lia.
  - intros; apply Hs; set_solver.
  - intros y Hy H1 H2. specialize (Hc1 y Hy ltac:(lia) H2). apply elem_of_cons in Hc1 as [Ey|?]; [lia|done].
  - intros g2 d2 R2. apply HQ. by eapply rely_trans.
Qed.
Lemma wp_materialize me m i Q g : inv g → past m g → shows (i_local i) (rows_at (i_nextSeqno i) g) → 0 ≤ i_nextSeqno i ≤ m_nextSeqno m →
  (∀ g1 d', rely me g g1 → inv g1 → shows d' (rows_at (m_nextSeqno m) g1) → Q (set_next (m_nextSeqno m) (set_local d' i)) (Ok tt) g1) → (∀ i' e g1, Q i' (Err e) g1) →
  wp me (materializeTo shard m) Q i g.
Proof.
  intros I P Hd Hn HQ HE. unfold materializeTo. apply wp_bind. unfold wp at 1, mstate. cbn [good fst snd]. apply wp_bind.
  assert (∀ a d g1, rely me g g1 → inv g1 → shows d (rows_at (a + 1) g1) → 0 ≤ a + 1 ≤ m_nextSeqno m → (∀ b, m_snapshotSegBase m = Some b → b ≤ a) →
    wp me (mbind' (replay_segments shard (m_segments m) a) (λ _ : (), mset (set_next (m_nextSeqno m)))) Q (set_local d i) g1) as Hrest.
  { intros a d g1 R I1 Hd1 Ha Hb. apply wp_bind. pose proof (past_stable _ me m g g1 R P) as P1. eapply (wp_replay me m i); try done.
    - apply (pa_sorted _ _ _ P1).
    - intros x Hx H1 H2. destruct (pa_cover _ _ _ P1 x Hx H2) as [?|(b & E & Hle)]; [done|]. specialize (Hb b E). lia.
    - intros g2 d' R2 I2 Hd2. unfold wp, mset. cbn [good fst snd]. change (set_next (m_nextSeqno m) (set_local d' i)) with (set_next (m_nextSeqno m) (set_local d' i)).
      apply HQ; try done. by eapply rely_trans. }
  assert (∀ b, m_snapshotSegBase m = Some b → ¬ i_nextSeqno i - 1 < b → wp me (mret (i_nextSeqno i - 1)) (λ i' r g', match r with
      | Ok a => wp me (mbind' (replay_segments shard (m_segments m) a) (λ _ : (), mset (set_next (m_nextSeqno m)))) Q i' g' | Err e => Q i' (Err e) g' end) i g) as Hskip.
  { intros b Eb Hnb. unfold wp at 1, mret. cbn [good fst snd]. replace i with (set_local (i_local i) i) at 2 by (by destruct i). apply Hrest; try done.
    - apply rely_refl.
    - replace (i_nextSeqno i - 1 + 1) with (i_nextSeqno i) by lia. done.
    - lia.
    - intros b' Eb'. rewrite Eb in Eb'. injection Eb' as <-. lia. }
  unfold restore_snapshot. destruct (m_snapshotTs m) as [ts|] eqn:Ets.
  2: { assert (m_snapshotSegBase m = None) as Eb.
    { destruct (m_snapshotSegBase m) as [b|] eqn:Eb; [|done]. destruct (pa_base _ _ _ P b Eb) as (_ & E & _). congruence. }
    unfold wp at 1, mret. cbn [good fst snd]. replace i with (set_local (i_local i) i) at 2 by (by destruct i). apply Hrest; try done.
    - apply rely_refl.
    - replace (i_nextSeqno i - 1 + 1) with (i_nextSeqno i) by lia. done.
    - lia.
    - intros b' Eb'. congruence. }
  destruct (pa_snap _ _ _ P ts Ets) as [b Eb]. rewrite Eb. destruct (Z.ltb_spec (i_nextSeqno i - 1) b) as [Hlt|Hge]; [|by apply (Hskip b Eb); lia].
  apply wp_bind, wp_readSnapshot. intros g1 R I1. split_and!; [intros; apply HE|apply HE|]. intros p k Hf Hk Ht Hdu.
  pose proof (past_stable _ me m g g1 R P) as P1. destruct (pa_base _ _ _ P1 b Eb) as (Hb & Ets' & _). rewrite Ets in Ets'. injection Ets' as Ets'.
  assert (rows_at k g1 = rows_at (b + 1) g1) as Ek.
  { unfold rows_at in *. f_equal. apply top_below; [apply (g_log _ _ I1)|]. congruence. }
  rewrite Ek in Hdu. rewrite <-(rows_stable _ me (i_nextSeqno i) g g1 R) in Hd by (pose proof (pa_next _ _ _ P); lia).
  destruct (below_mono (i_nextSeqno i) (b + 1) _ (g_log _ _ I1) ltac:(lia)) as (X & EX & _ & Hok).
  destruct (shows_restore (i_local i) (rows_at (i_nextSeqno i) g1) (log_rows X) p Hd) as (d' & del & Er & Hd').
  - intros x Hx. by apply (rows_after _ X).
  - unfold rows_at in *. rewrite EX, log_rows_app in Hdu. done.
  - assert (rows_at (i_nextSeqno i) g1 ++ log_rows X = rows_at (b + 1) g1) as Eb1 by (unfold rows_at; by rewrite EX, log_rows_app).
    rewrite Eb1 in Er, Hd'. apply wp_bind. unfold wp at 1, mstate. cbn [good fst snd]. apply wp_bind. unfold wp at 1, mlift. cbn [good fst snd].
    rewrite Hf, Ets', Er. cbn [good fst snd]. unfold wp at 1, mbind', mset, mret. cbn [pbind good fst snd]. apply Hrest; try done; [lia|]. intros b' Eb'. rewrite Eb in Eb'. injection Eb' as <-. lia.
Qed.

(** ** The invariant of an instance *)
Record base_ok (i : Inst) (g : shared) : Prop := {
  b_etag : c_etag (i_cached i) = BManifest (c_manifest (i_cached i));
  b_past : past (c_manifest (i_cached i)) g;
  b_next : m_nextSeqno (c_manifest (i_cached i)) ≤ i_nextSeqno i ≤ m_nextSeqno (cur g);
  b_shows : shows (i_local i) (rows_at (i_nextSeqno i) g) }.
(** The cursor of a holder of epoch [e]: the next free one while it owns the bucket, one no log entry uses once another does *)
Record holds (me : nat) (i : Inst) (g : shared) (e : Z) : Prop := {
  h_owner : g_owner g !! e = Some me;
  h_range : 1 ≤ e ≤ m_epoch (cur g);
  h_cached : m_epoch (c_manifest (i_cached i)) = e;
  h_next : i_nextSeqno i = m_nextSeqno (c_manifest (i_cached i));
  h_cur : e = m_epoch (cur g) → i_nextSeqno i = m_nextSeqno (cur g);
  h_old : e < m_epoch (cur g) → i_nextSeqno i < m_nextSeqno (cur g);
  h_log : i_nextSeqno i ∉ (g_hist g).*1 }.
Definition free_slot (i : Inst) (g : shared) (e : Z) : Prop := e = m_epoch (cur g) → seg g (i_nextSeqno i) = None.
Record inst_ok (me : nat) (i : Inst) (g : shared) : Prop := {
  io_base : base_ok i g;
  io_holds : ∀ l, i_held i = Some l → i_poisoned i = false → holds me i g (h_epoch l) ∧ free_slot i g (h_epoch l) }.

Lemma base_stable j i g g' : rely j g g' → base_ok i g → base_ok i g'.
Proof.
  intros R [H1 H2 H3 H4]. split; [done|by eapply past_stable| |rewrite (rows_stable _ j _ g g' R); [done|lia]].
  pose proof (r_next _ _ _ _ R). lia.
Qed.
Lemma guar_base me i g g' : guar me g g' → base_ok i g → base_ok i g'.
Proof. intros H. apply (base_stable (S me)). apply H. lia. Qed.
Lemma holds_stable me i g g' e : rely me g g' → holds me i g e → holds me i g' e.
Proof.
  intros [R1 R2 R3 (X & EX & HX) R5 R6 R7 R8 R9] [H1 H2 H3 H4 H5 H6 H7]. split; try done; try lia.
  - rewrite R3 by lia. done.
  - intros E. assert (m_epoch (cur g) = e) as E' by lia. destruct R7 as [R7 _]; [lia|congruence|]. rewrite R7. by apply H5.
  - rewrite EX, fmap_app. intros [Hin|(x & Ex & Hx)%list_elem_of_fmap]%elem_of_app; [done|]. destruct (HX x Hx) as [Hn Hm].
    destruct (decide (e = m_epoch (cur g))) as [->|].
    + specialize (Hm ltac:(lia) H1). rewrite H5 in Ex by done. lia.
    + assert (i_nextSeqno i < m_nextSeqno (cur g)) by (apply H6; lia). lia.
Qed.
Lemma slot_same me i g g' e : rely me g g' → holds me i g e → e = m_epoch (cur g') → e = m_epoch (cur g) ∧ seg g' (i_nextSeqno i) = seg g (i_nextSeqno i).
Proof.
  intros R H E. pose proof (h_range _ _ _ _ H). pose proof (r_epoch _ _ _ _ R). split; [lia|]. destruct (r_mine _ _ _ _ R) as [_ Hs]; [lia| |].
  - rewrite <-(h_owner _ _ _ _ H). f_equal. lia.
  - apply Hs. rewrite (h_cur _ _ _ _ H); lia.
Qed.
Lemma inst_stable me i g g' : rely me g g' → inst_ok me i g → inst_ok me i g'.
Proof.
  intros R [B H]. split; [by eapply base_stable|]. intros l El Ep. destruct (H l El Ep) as [Hh Hf]. split; [by eapply holds_stable|].
  intros E. destruct (slot_same _ _ _ _ _ R Hh E) as [E' ->]. by apply Hf.
Qed.
Lemma inst_base me i g : base_ok i g → i_held i = None ∨ i_poisoned i = true → inst_ok me i g.
Proof. intros B [H|H]; split; try done; intros l El Ep; congruence. Qed.
Lemma base_same i i' g : i_cached i' = i_cached i → i_nextSeqno i' = i_nextSeqno i → i_local i' = i_local i → base_ok i g → base_ok i' g.
Proof. intros E1 E2 E3 [H1 H2 H3 H4]. split; rewrite ?E1, ?E2, ?E3; done. Qed.
(** An instance that has just installed the manifest *)
Lemma base_installed i i' me g g' m' : inv g' → installed shard me g g' m' → c_manifest (i_cached i') = m' → c_etag (i_cached i') = BManifest m' →
  i_nextSeqno i' = m_nextSeqno m' → i_local i' = i_local i → i_nextSeqno i = m_nextSeqno (cur g) → g_hist g' = g_hist g →
  m_nextSeqno (cur g) ≤ m_nextSeqno m' → inv g → base_ok i g → base_ok i' g'.
Proof.
  intros I' Hi Em Ee En El Ei Eh Hle I B. pose proof (is_cur _ _ _ _ _ Hi) as Ec. split.
  - by rewrite Em, Ee.
  - rewrite Em, <-Ec. apply (g_past _ _ I').
  - rewrite Em, En, Ec. lia.
  - rewrite El, En. pose proof (b_shows _ _ B) as Hs. rewrite Ei in Hs. unfold rows_at in *. rewrite Eh.
    rewrite <-(below_eq (m_nextSeqno (cur g)) (m_nextSeqno m')); [done|done|]. intros x Hx Hge. pose proof (g_below _ _ I x Hx). lia.
Qed.

(** ** Lease operations *)
Lemma wp_cas me m m' Q i g :
  (∀ g1, rely me g g1 → inv g1 → (cur g1 = m → installs shard me g1 m') ∧
    ∀ g2, inv g2 → guar me g1 g2 → (cur g1 = m → installed shard me g1 g2 m' → Q i (Ok (BManifest m')) g2) ∧
      ∀ e, Q i (Err e) g2) →
  wp me (casManifest shard m' (BManifest m)) Q i g.
Proof.
  intros H g1 R I o r g2 _ E. destruct (H g1 R I) as [H1 H2]. destruct (call_cas _ _ _ _ _ _ _ _ I H1 E) as [[I2 G2] Hr]. split; [done|].
  destruct (H2 g2 I2 G2) as (Q1 & Q2). destruct Hr as [(-> & Ec & Hi)|[e ->]]; cbn; auto.
Qed.
(** The lease keeps everything but the deadline: what an instance knows survives its own lease write. *)
Lemma own_lease me i i' g g' m' wid le : inv g → inv g' → installed shard me g g' m' → m' = leased_manifest (cur g) wid le →
  c_manifest (i_cached i) = cur g → i' = set_cached {| c_manifest := m'; c_etag := BManifest m' |} i →
  inst_ok me i g → inst_ok me i' g' ∨ i_nextSeqno i ≠ m_nextSeqno (cur g).
Proof.
  intros I I' Hi Em Ec -> [B H]. destruct (decide (i_nextSeqno i = m_nextSeqno (cur g))) as [En|]; [left|by right].
  assert (g_hist g' = g_hist g) as Eh by (rewrite (is_hist _ _ _ _ _ Hi); apply hist_same; by subst m').
  assert (g_owner g' = g_owner g) as Eo by (rewrite (is_owner _ _ _ _ _ Hi); apply owner_same; by subst m').
  pose proof (is_cur _ _ _ _ _ Hi) as Ecur. split.
  - apply (base_installed i _ me g g' m'); try done; subst m'; cbn; done || lia.
  - intros l El Ep. destruct (H l El Ep) as [[H1 H2 H3 H4 H5 H6 H7] Hf]. split.
    + split; cbn [i_cached set_cached c_manifest i_nextSeqno]; rewrite ?Ecur, ?Eo, ?Eh; subst m'; cbn [leased_manifest m_epoch m_nextSeqno]; try done; congruence.
    + intros E. cbn [i_nextSeqno set_cached]. rewrite (is_seg _ _ _ _ _ Hi). apply Hf. rewrite Ecur in E. by subst m'.
Qed.
Lemma wp_unit {A} me (m : M Inst A) i g :
  wp me m (λ i' r g', inst_ok me i' g') i g → wp me (unit_result m) (λ i' r g', inst_ok me i' g') i g.
Proof. intros H. apply wp_bind. eapply wp_mono; [|exact H]. intros i' [a|e] g' Hq; done. Qed.

Lemma heartbeat_ok me i g now ttl : inst_ok me i g → wp me (heartbeat shard now ttl) (λ i' r g', inst_ok me i' g') i g.
Proof.
  intros Hi. unfold heartbeat. apply wp_bind. unfold wp at 1, mstate. cbn [good fst snd]. destruct (i_held i) as [l|] eqn:El; [|done].
  destruct (i_poisoned i) eqn:Ep; [done|]. destruct Hi as [B H]. rewrite (b_etag _ _ B). apply wp_try, wp_bind, wp_cas. intros g1 R I1. split.
  { intros <-. apply in_lease. }
  pose proof (inst_stable me i g g1 R (Build_inst_ok _ _ _ B H)) as Hi1. intros g2 I2 G2. split_and!.
  - intros Ec Hin. destruct (own_lease me i (set_cached {| c_manifest := leased_manifest (c_manifest (i_cached i)) (m_writerId (c_manifest (i_cached i))) (now + ttl);
      c_etag := BManifest (leased_manifest (c_manifest (i_cached i)) (m_writerId (c_manifest (i_cached i))) (now + ttl)) |} i) g1 g2 _ (m_writerId (cur g1)) (now + ttl) I1 I2 Hin) as [Hq|Hn]; try done;
      [by rewrite Ec|].
    exfalso. apply Hn. destruct Hi1 as [B1 H1]. destruct (H1 l El Ep) as [Hh _]. rewrite (h_next _ _ _ _ Hh). by rewrite Ec.
  - intros e. unfold wp. cbn. apply inst_base; [|by left]. apply (base_same i); try done. eapply guar_base; [done|apply Hi1].
Qed.
Lemma release_ok me i g : inst_ok me i g → wp me release (λ i' r g', inst_ok me i' g') i g.
Proof. intros [B H]. unfold wp, release, mset. cbn. apply inst_base; [|by left]. by apply (base_same i). Qed.
Lemma relinquish_ok me i g : inst_ok me i g → wp me (relinquish shard) (λ i' r g', inst_ok me i' g') i g.
Proof.
  intros Hi. unfold relinquish. apply wp_bind. unfold wp at 1, mstate. cbn [good fst snd]. destruct (i_held i) as [l|] eqn:El; [|done].
  pose proof Hi as [B H]. rewrite (b_etag _ _ B). apply wp_bind, wp_try, wp_bind, wp_cas. intros g1 R I1. split.
  { intros <-. apply in_lease. }
  pose proof (inst_stable me i g g1 R Hi) as Hi1. intros g2 I2 G2. split_and!.
  - intros Ec Hin. unfold wp, mset. cbn [good fst snd]. apply inst_base; [|by left].
    eapply (base_same (set_cached {| c_manifest := leased_manifest (c_manifest (i_cached i)) [] 0; c_etag := BManifest (leased_manifest (c_manifest (i_cached i)) [] 0) |} i)); try done.
    assert (i_nextSeqno i = m_nextSeqno (cur g1)) as En by (pose proof (b_next _ _ (io_base _ _ _ Hi1)) as Hb; rewrite <-Ec in Hb; lia).
    apply (base_installed i _ me g1 g2 (leased_manifest (c_manifest (i_cached i)) [] 0)); try done; try (cbn; rewrite <-Ec; lia).
    + rewrite (is_hist _ _ _ _ _ Hin). apply hist_same. cbn. by rewrite <-Ec.
    + apply Hi1.
  - intros e. unfold wp. cbn. apply inst_base; [|by left]. apply (base_same i); try done. eapply guar_base; [done|apply Hi1].
Qed.

(** An instance may start [acquire] when it holds no lease it would commit under. *)
Lemma acquire_ok me i g wid ttl now : inv g → inst_ok me i g → i_held i = None ∨ i_poisoned i = true →
  wp me (acquire shard wid ttl now) (λ i' r g', match r with Ok _ => inst_ok me i' g' | Err _ => True end) i g.
Proof.
  intros I0 Hi Hh. unfold acquire. apply wp_bind, wp_readManifest. intros g1 R I. split_and!; [done..|]. cbn [c_manifest c_etag]. set (m := cur g1).
  pose proof (inst_stable me i g g1 R Hi) as Hi1. pose proof (io_base _ _ _ Hi1) as B.
  destruct (negb _ && _ && negb _); [exact Hi1|]. apply wp_bind. pose proof (pa_next _ _ _ (b_past _ _ B)) as Hn0. pose proof (b_next _ _ B) as Hn1.
  apply wp_materialize; [done|apply (g_past _ _ I)|apply (b_shows _ _ B)|unfold m; lia| |done]. intros g2 d R2 I2 Hd.
  set (i2 := set_next (m_nextSeqno m) (set_local d i)).
  assert (base_ok i2 g2) as B2.
  { split; [apply (b_etag _ _ B)|by eapply past_stable, (b_past _ _ B)| |done]. cbn. pose proof (r_next _ _ _ _ R2). unfold m in *. lia. }
  apply wp_try, wp_bind, wp_cas. intros g3 R3 I3. split; [intros <-; apply in_claim|].
  pose proof (base_stable me i2 _ _ R3 B2) as B3. intros g4 I4 G4. split_and!.
  - intros Ec Hin. unfold wp, mbind', mset, mret. cbn [pbind good fst snd]. set (m' := claimed_manifest m wid (now + ttl)) in *.
    assert (g_hist g4 = g_hist g3) as Eh by (rewrite (is_hist _ _ _ _ _ Hin); apply hist_same; unfold m'; cbn; by rewrite Ec).
    pose proof (is_cur _ _ _ _ _ Hin) as Ec4. pose proof (pa_epoch _ _ _ (g_past _ _ I3)) as He. rewrite Ec in He.
    assert (m_nextSeqno m ≤ m_nextSeqno m') as Hle by (unfold m'; cbn; destruct (0 <? m_epoch m); lia).
    split.
    + apply (base_installed i2 _ me g3 g4 m'); try done; rewrite ?Ec; done.
    + intros l [= <-] _. cbn [h_epoch]. split.
      * split; cbn [i_cached set_next set_poisoned set_held set_cached i_nextSeqno c_manifest]; rewrite ?Ec4; try done.
        -- rewrite (is_owner _ _ _ _ _ Hin). unfold owner_of. rewrite Ec. unfold m'. cbn [claimed_manifest m_epoch].
           rewrite (proj2 (Z.ltb_lt _ _)) by lia. by rewrite lookup_insert_eq.
        -- unfold m'. cbn. lia.
        -- unfold m'. cbn. lia.
        -- rewrite Eh. intros (x & Ex & Hx)%list_elem_of_fmap. pose proof (g_below _ _ I3 x Hx). rewrite Ec in *. lia.
      * intros _. cbn [i_nextSeqno set_next]. rewrite (is_seg _ _ _ _ _ Hin). destruct (seg g3 (m_nextSeqno m')) as [x|] eqn:Ex; [exfalso|done].
        apply (g_objs _ _ I3) in Ex as [H0 H1]. rewrite Ec in H1. pose proof (pa_zero _ _ _ (g_past _ _ I3)) as Hz. rewrite Ec in Hz.
        unfold m' in *. cbn in *. destruct (Z.ltb_spec 0 (m_epoch m)); lia.
  - intros e. destruct (isCasConflict e); cbn [negb]; [|done]. apply wp_bind, wp_readManifest. intros g5 R5 I5. split_and!; [done..|]. apply inst_base; [|done].
    eapply base_stable; [done|]. by eapply guar_base.
Qed.
Lemma wp_create me Q i g :
  (∀ g1, rely me g g1 → inv g1 → ∀ g2, inv g2 → guar me g1 g2 →
    (cur g2 = emptyManifest → Q i (Ok {| c_manifest := emptyManifest; c_etag := BManifest emptyManifest |}) g2) ∧
    ∀ e, Q i (Err e) g2) → wp me (createManifest shard) Q i g.
Proof.
  intros H. apply wp_bind. intros g1 R I o r g2 _ E. destruct (call_create _ _ _ _ _ _ I E) as [[I2 G2] Hr]. split; [done|].
  destruct (H g1 R I g2 I2 G2) as (Q1 & Q2). destruct Hr as [[-> Ec]|[e ->]]; cbn; auto.
Qed.
Lemma read_or_create_ok me i g (Q : Inst → res Cached → shared → Prop) : inv g →
  (∀ g' c, inv g' → past (c_manifest c) g' → c_etag c = BManifest (c_manifest c) → Q i (Ok c) g') → (∀ i' e g', Q i' (Err e) g') →
  wp me (read_or_create shard) Q i g.
Proof.
  intros I HQ HE. unfold read_or_create. apply wp_bind, wp_readManifest. intros g1 R I1. split_and!; [intros; apply HE| |].
  - apply wp_try, wp_create. intros g2 R2 I2 g3 I3 G3. split_and!.
    + intros Ec. apply HQ; [done|cbn; rewrite <-Ec; apply (g_past _ _ I3)|done].
    + intros e. destruct (isCasConflict e); cbn [negb]; [|apply HE]. apply wp_bind, wp_readManifest. intros g4 R4 I4. split_and!; [intros; apply HE|apply HE|]. apply HQ; [done|apply (g_past _ _ I4)|done].
  - apply HQ; [done|apply (g_past _ _ I1)|done].
Qed.
Lemma rows_at_0 g : inv g → rows_at 0 g = [].
Proof. intros I. unfold rows_at. rewrite below_none; [done|]. intros x Hx. by apply (ho_seg _ (g_log _ _ I)). Qed.
Lemma open_ok me g : inv g → wp me (open shard) (λ i' r g', match r with Ok _ => inst_ok me i' g' ∧ i_nextSeqno i' = m_nextSeqno (c_manifest (i_cached i')) | Err _ => True end) blank_inst g.
Proof.
  intros I0. unfold open. apply wp_bind, read_or_create_ok; [done| |done]. intros g1 c I P Ee. apply wp_bind. unfold wp at 1, mstate. cbn [good fst snd].
  apply wp_bind. unfold wp at 1, mset. cbn [good fst snd]. pose proof (pa_next _ _ _ P) as Hn.
  apply wp_materialize; try done; [|cbn; lia|].
  - cbn. rewrite rows_at_0 by done. by apply shows_empty.
  - intros g2 d R2 I2 Hd. split; [|done]. apply inst_base; [|by left]. split; cbn; try done; [by eapply past_stable|]. pose proof (r_next _ _ _ _ R2). lia.
Qed.

(** ** Commits *)
Lemma stamped_entry ts e : 0 ≤ ts → entry_ok (stamp_doc 0 e) → entry_ok (stamp_doc ts e).
Proof. intros Hts [H1 H2 H3 H4]. by split. Qed.
Lemma stamped_write ts w : 0 ≤ ts → write_ok (stamp_idx 0 w) → write_ok (stamp_idx ts w).
Proof. intros Hts [H1 H2 H3]. by split. Qed.
Lemma stamp_unit_ok u ts : 0 ≤ ts → unit_wire_ok u →
  sp_documents (stamp_unit u ts) ≠ [] ∧ Forall entry_ok (sp_documents (stamp_unit u ts)) ∧ Forall write_ok (sp_indexUpdates (stamp_unit u ts)) ∧
  NoDup (l_pk <$> List.map entry_row (sp_documents (stamp_unit u ts))) ∧ ∀ r, r ∈ List.map entry_row (sp_documents (stamp_unit u ts)) → l_ts r = ts.
Proof.
  intros Hts (H1 & H2 & H3 & H4). cbn [stamp_unit sp_documents sp_indexUpdates]. split_and!.
  - by destruct (cu_documents u).
  - clear -H2 Hts. induction H2; cbn; constructor; [by apply stamped_entry|done].
  - clear -H3 Hts. induction H3; cbn; constructor; [by apply stamped_write|done].
  - apply (NoDup_fmap_1 (λ x : jsstr * bytes * Z, x.1)). rewrite <-list_fmap_compose.
    replace ((λ x : jsstr * bytes * Z, x.1) ∘ l_pk <$> List.map entry_row (List.map (stamp_doc ts) (cu_documents u))) with (id_key <$> (le_id <$> cu_documents u)); [done|].
    clear. induction (cu_documents u) as [|e es IH]; [done|]. cbn. by f_equal.
  - intros r (e & <- & (e' & <- & _)%in_map_iff)%list_elem_of_In%in_map_iff. done.
Qed.
Definition batch_docs (units : list CommitUnit) (floor : Z) : list DocumentLogEntry := sp_documents (batch_payload (stamp_units units floor)).
Lemma batch_docs_cons u units floor : batch_docs (u :: units) floor = sp_documents (stamp_unit u (floor + 1)) ++ batch_docs units (floor + 1).
Proof. done. Qed.
Lemma last_default {A} (l : list A) a b : l ≠ [] → List.last l a = List.last l b.
Proof. induction l as [|x [|y l] IH]; intros H; [done|done|]. by apply IH. Qed.
Lemma stamp_last units : ∀ floor, List.last (List.map snd (stamp_units units floor)) floor = floor + Z.of_nat (length units).
Proof.
  induction units as [|u units IH]; intros floor; [cbn; lia|]. cbn [stamp_units List.map snd length]. specialize (IH (floor + 1)).
  destruct (List.map snd (stamp_units units (floor + 1))) as [|x l] eqn:E.
  - destruct units; [cbn; lia|done].
  - change (List.last (x :: l) floor = floor + Z.of_nat (S (length units))). rewrite (last_default _ floor (floor + 1)) by done. rewrite IH. lia.
Qed.
Lemma batch_ok units : ∀ floor, 0 ≤ floor → Forall unit_wire_ok units →
  Forall entry_ok (batch_docs units floor) ∧ Forall write_ok (sp_indexUpdates (batch_payload (stamp_units units floor))) ∧
  NoDup (l_pk <$> List.map entry_row (batch_docs units floor)) ∧ (∀ r, r ∈ List.map entry_row (batch_docs units floor) → floor < l_ts r) ∧
  (units ≠ [] → batch_docs units floor ≠ [] ∧ top (List.map entry_row (batch_docs units floor)) = List.last (List.map snd (stamp_units units floor)) floor).
Proof.
  induction units as [|u units IH]; intros floor Hf Hu.
  { split_and!; try constructor; try done. by intros r ?%elem_of_nil. }
  apply Forall_cons in Hu as [Hu Hus]. destruct (IH (floor + 1) ltac:(lia) Hus) as (H1 & H2 & H3 & H4 & H5).
  destruct (stamp_unit_ok u (floor + 1) ltac:(lia) Hu) as (U1 & U2 & U3 & U4 & U5). rewrite batch_docs_cons, List.map_app.
  assert (∀ r, r ∈ List.map entry_row (sp_documents (stamp_unit u (floor + 1))) ++ List.map entry_row (batch_docs units (floor + 1)) → floor < l_ts r) as Hlt.
  { intros r [Hr|Hr]%elem_of_app; [rewrite (U5 r Hr); lia|]. specialize (H4 r Hr). lia. }
  split_and!; try done.
  - by apply Forall_app.
  - change (Forall write_ok (sp_indexUpdates (stamp_unit u (floor + 1)) ++ sp_indexUpdates (batch_payload (stamp_units units (floor + 1))))). by apply Forall_app.
  - rewrite fmap_app. apply NoDup_app. split_and!; [done| |done]. intros pk (x & -> & Hx)%list_elem_of_fmap (y & E & Hy)%list_elem_of_fmap.
    specialize (H4 y Hy). specialize (U5 x Hx). unfold l_pk in E. injection E as _ E. lia.
  - intros _. split; [by destruct (sp_documents (stamp_unit u (floor + 1)))|]. rewrite top_app.
    assert (top (List.map entry_row (sp_documents (stamp_unit u (floor + 1)))) = floor + 1) as ->.
    { apply Z.le_antisymm; [apply top_le; [lia|]; intros r Hr; by rewrite (U5 r Hr)|].
      destruct (sp_documents (stamp_unit u (floor + 1))) as [|e es]; [done|]. rewrite <-(U5 (entry_row e)) at 1 by (cbn; set_solver).
      apply top_ub. cbn. set_solver. }
    rewrite stamp_last. cbn [length]. destruct units as [|u' units']; [cbn; lia|]. destruct H5 as [_ ->]; [done|]. rewrite stamp_last. cbn [length]. lia.
Qed.
Lemma apply_stamped_ok me units sh : ∀ floor d L, Forall unit_wire_ok units → shows d L → top L ≤ floor → ∃ d',
  (∀ i Q g, i_local i = d → Q (set_local d' i) (Ok tt) g → wp me (apply_stamped (stamp_units units floor) sh) Q i g) ∧
  shows d' (L ++ List.map entry_row (batch_docs units floor)).
Proof.
  induction units as [|u units IH]; intros floor d L Hu Hd Ht.
  { exists d. split; [|cbn; by rewrite app_nil_r]. intros i Q g <- HQ. unfold wp. cbn. by destruct i. }
  apply Forall_cons in Hu as [Hu Hus]. pose proof (top_nonneg L) as H0. destruct (stamp_unit_ok u (floor + 1) ltac:(lia) Hu) as (U1 & U2 & U3 & U4 & U5).
  destruct (shows_write d L (sp_documents (stamp_unit u (floor + 1))) (sp_indexUpdates (stamp_unit u (floor + 1))) sh Hd U4 U2 U3) as (d1 & E & Hd1).
  { intros e He. assert (le_ts e = floor + 1) as ->; [|lia]. apply (U5 (entry_row e)). apply list_elem_of_In, in_map_iff. exists e. by rewrite <-list_elem_of_In. }
  destruct (IH (floor + 1) d1 _ Hus Hd1) as (d2 & Hw & Hd2).
  { rewrite top_app. apply Z.max_lub; [lia|]. apply top_le; [lia|]. intros r Hr. by rewrite (U5 r Hr). }
  exists d2. rewrite batch_docs_cons, List.map_app, (assoc_L (++)). split; [|done]. intros i Q g <- HQ. cbn [stamp_units apply_stamped].
  apply wp_bind. eapply wp_local_write; [exact E|]. by apply Hw.
Qed.

(** The batch is in the log under the timestamps returned. *)
Definition logged (units : list CommitUnit) (tss : list Z) (g : shared) : Prop := ∃ floor n,
  tss = List.map snd (stamp_units units floor) ∧ (n, encodeSegment (batch_payload (stamp_units units floor))) ∈ g_hist g.
Lemma wp_put_seg me n w Q i g :
  (∀ g1, rely me g g1 → inv g1 → put_ok shard me n g1 ∧ ∀ g2, inv g2 → guar me g1 g2 → cur g2 = cur g1 → g_hist g2 = g_hist g1 → g_owner g2 = g_owner g1 →
    (g2 = g1 → ∀ e, Q i (Err e) g2) ∧
    (seg g2 n = match seg g1 n with Some y => Some y | None => Some (BSegment w) end → Q i (Ok tt) g2)) →
  wp me (c_put (segmentKey shard n) (BSegment w)) Q i g.
Proof.
  intros H. apply wp_bind. intros g1 R I o r g2 Ho E. destruct (H g1 R I) as [Hp H2].
  destruct (call_put_seg _ _ _ _ _ _ _ _ I Hp E) as ([I2 G2] & Ec & Eh & Eo & Hr); [intros e ->; by cbn in Ho|]. split; [done|].
  destruct (H2 g2 I2 G2 Ec Eh Eo) as [Q1 Q2]. destruct Hr as [[-> [e ->]]|[-> Es]]; cbn; auto.
Qed.
Lemma holds_frame me i g g' e : cur g' = cur g → g_hist g' = g_hist g → g_owner g' = g_owner g → holds me i g e → holds me i g' e.
Proof. intros Ec Eh Eo [H1 H2 H3 H4 H5 H6 H7]. split; rewrite ?Ec, ?Eh, ?Eo; done. Qed.
Lemma base_frame i g g' : cur g' = cur g → g_hist g' = g_hist g → base_ok i g → inv g' → inv g → base_ok i g'.
Proof.
  intros Ec Eh [H1 H2 H3 H4] I' I. split; rewrite ?Ec; try done; [|unfold rows_at; by rewrite Eh].
  destruct H2. split; rewrite ?Ec, ?Eh; unfold rows_at in *; rewrite ?Eh; done.
Qed.
(** The manifest write of a holder's commit *)
Section CommitCas.
Context (me : nat) (i : Inst) (l : Lease) (units : list CommitUnit) (floor : Z).
Context (El : i_held i = Some l) (Ep : i_poisoned i = false) (Hu : Forall unit_wire_ok units) (Hne : units ≠ []).
Let m := c_manifest (i_cached i).
Let n := i_nextSeqno i.
Let stamped := stamp_units units floor.
Let w := encodeSegment (batch_payload stamped).
Let m' := committed_manifest m (h_epoch l) (List.last (List.map snd stamped) floor) n.
Context (Hf0 : 0 ≤ floor) (Hfm : m_frontierTs m ≤ floor).

Lemma commit_seg : ∃ p, seg_ok w p ∧ seg_rows w = List.map entry_row (batch_docs units floor) ∧ top (seg_rows w) = List.last (List.map snd stamped) floor ∧
  ∀ r, r ∈ seg_rows w → floor < l_ts r.
Proof.
  destruct (batch_ok units floor Hf0 Hu) as (H1 & H2 & H3 & H4 & H5). destruct (H5 Hne) as [H6 H7].
  destruct (encode_seg_ok (batch_payload stamped) H6 H1 H2 H3) as [Hs Er]. eexists. split; [exact Hs|]. unfold w. rewrite Er. by split_and!.
Qed.
Lemma commit_installs g : inv g → holds me i g (h_epoch l) → (h_epoch l = m_epoch (cur g) → seg g n = Some (BSegment w)) → cur g = m → installs shard me g m'.
Proof.
  intros I Hh Hs Ec. destruct commit_seg as (p & Hp & Er & Et & Hlt). pose proof (h_cached _ _ _ _ Hh) as He. pose proof (h_range _ _ _ _ Hh) as Hr.
  assert (h_epoch l = m_epoch (cur g)) as Ee by (rewrite Ec; done). assert (n = m_nextSeqno (cur g)) as En by (by apply (h_cur _ _ _ _ Hh)).
  unfold m'. rewrite <-Ec, En, Ee, <-Et. eapply in_commit; [rewrite <-En; by apply Hs|exact Hp|lia|rewrite <-Ee; apply (h_owner _ _ _ _ Hh)| |done].
  intros r Hr'. specialize (Hlt r Hr'). rewrite Ec. lia.
Qed.
Lemma commit_installed g g' d' : inv g → inv g' → base_ok i g → holds me i g (h_epoch l) → (h_epoch l = m_epoch (cur g) → seg g n = Some (BSegment w)) →
  cur g = m → installed shard me g g' m' → shows d' (rows_at n g ++ List.map entry_row (batch_docs units floor)) → ∀ i',
  i_cached i' = {| c_manifest := m'; c_etag := BManifest m' |} → i_nextSeqno i' = n + 1 → i_local i' = d' → i_held i' = Some l →
  inst_ok me i' g' ∧ logged units (List.map snd stamped) g'.
Proof.
  intros I I' B Hh Hs Ec Hin Hd i' E1 E2 E3 E4. destruct commit_seg as (p & Hp & Er & Et & Hlt).
  pose proof (h_cached _ _ _ _ Hh) as He. pose proof (h_range _ _ _ _ Hh) as Hr.
  assert (h_epoch l = m_epoch (cur g)) as Ee by (rewrite Ec; done). assert (n = m_nextSeqno (cur g)) as En by (by apply (h_cur _ _ _ _ Hh)).
  specialize (Hs Ee). assert (g_hist g' = g_hist g ++ [(n, w)]) as Eh.
  { rewrite (is_hist _ _ _ _ _ Hin). unfold m'. rewrite <-Ec. apply hist_commit; [done|]. rewrite <-Et. rewrite Ec.
    apply (top_seg w p); [done|]. intros r Hr'. specialize (Hlt r Hr'). lia. }
  assert (g_owner g' = g_owner g) as Eo by (rewrite (is_owner _ _ _ _ _ Hin); apply owner_same; unfold m'; cbn; by rewrite Ee).
  pose proof (is_cur _ _ _ _ _ Hin) as Ec'.
  assert (rows_at (n + 1) g' = rows_at n g ++ seg_rows w) as Ern.
  { unfold rows_at. rewrite Eh, below_app, log_rows_app. cbn. rewrite (proj2 (Z.ltb_lt n (n + 1))) by lia. unfold log_rows at 2. cbn. rewrite app_nil_r.
    rewrite (below_eq n (n + 1)); [done|lia|]. intros x Hx Hge. pose proof (g_below _ _ I x Hx). lia. }
  split.
  - split.
    + split; rewrite ?E1, ?E2, ?E3; cbn [c_manifest c_etag]; try done.
      * rewrite <-Ec'. apply (g_past _ _ I').
      * rewrite Ec'. cbn. lia.
      * rewrite Ern, Er. done.
    + intros l' El' _. assert (l' = l) as -> by congruence. split.
      * split; rewrite ?E1, ?E2, ?Eo, ?Ec'; cbn [c_manifest m' committed_manifest m_epoch m_nextSeqno]; try done; try lia; [apply (h_owner _ _ _ _ Hh)|].
        rewrite Eh, fmap_app. intros [(x & Ex & Hx)%list_elem_of_fmap|Hx]%elem_of_app; [pose proof (g_below _ _ I x Hx); lia|]. cbn in Hx. set_solver by lia.
      * intros _. rewrite E2, (is_seg _ _ _ _ _ Hin). destruct (seg g (n + 1)) as [x|] eqn:Ex; [exfalso|done]. apply (g_objs _ _ I) in Ex. lia.
  - exists floor, n. split; [done|]. rewrite Eh. apply elem_of_app. right. set_solver.
Qed.
End CommitCas.

Lemma commit_ok me i g units sh : inv g → inst_ok me i g → Forall unit_wire_ok units →
  wp me (commitExclusive shard units sh) (λ i' r g', inst_ok me i' g' ∧ ∀ tss, r = Ok tss → units ≠ [] → logged units tss g') i g.
Proof.
  intros I0 Hi Hu. unfold commitExclusive. apply wp_bind. unfold wp at 1, mstate. cbn [good fst snd].
  destruct (i_held i) as [l|] eqn:El; [|by split]. destruct (Nat.eqb_spec (length units) 0) as [E0|Hne]; [split; [done|]; by destruct units|].
  destruct (i_poisoned i) eqn:Ep; [by split|]. set (m := c_manifest (i_cached i)). pose proof Hi as [B H]. destruct (H l El Ep) as [Hh Hf].
  rewrite (proj2 (Z.eqb_eq (m_epoch m) (h_epoch l))) by apply Hh. cbn [negb].
  set (floor := if maxTimestamp (i_local i) <? m_tsCounter m then m_tsCounter m else maxTimestamp (i_local i)).
  assert (m_frontierTs m ≤ floor ∧ maxTimestamp (i_local i) ≤ floor) as [Hfm Hfl].
  { pose proof (pa_counter _ _ _ (b_past _ _ B)) as Ec. fold m in Ec. unfold floor. destruct (Z.ltb_spec (maxTimestamp (i_local i)) (m_tsCounter m)); lia. }
  assert (0 ≤ m_frontierTs m) as Hm0 by (unfold m; rewrite (pa_ts _ _ _ (b_past _ _ B)); apply top_nonneg).
  assert (units ≠ []) as Hne' by (by destruct units). set (w := encodeSegment (batch_payload (stamp_units units floor))).
  apply wp_bind, wp_put_seg. intros g1 R I. pose proof (inst_stable me i g g1 R Hi) as [B1 H1]. destruct (H1 l El Ep) as [Hh1 Hf1]. split.
  { split_and!; [pose proof (pa_next _ _ _ (b_past _ _ B1)); pose proof (b_next _ _ B1); lia|apply Hh1|]. pose proof (h_range _ _ _ _ Hh1).
    destruct (decide (h_epoch l = m_epoch (cur g1))) as [E|]; [right; rewrite <-E; split_and!; [by apply Hh1|lia|apply Hh1]|left; apply Hh1; lia]. }
  intros g2 I2 G2 Ec2 Eh2 Eo2. pose proof (base_frame i g1 g2 Ec2 Eh2 B1 I2 I) as B2. pose proof (holds_frame me i g1 g2 _ Ec2 Eh2 Eo2 Hh1) as Hh2.
  split; [intros -> e; by split|]. intros Es2.
  assert (h_epoch l = m_epoch (cur g2) → seg g2 (i_nextSeqno i) = Some (BSegment w)) as Hs2.
  { intros E. rewrite Es2. rewrite Ec2 in E. by rewrite (Hf1 E). }
  cbn beta. apply wp_bind, wp_try. rewrite (b_etag _ _ B). apply wp_cas. intros g3 R3 I3.
  pose proof (base_stable me i g2 g3 R3 B2) as B3. pose proof (holds_stable me i g2 g3 _ R3 Hh2) as Hh3.
  assert (h_epoch l = m_epoch (cur g3) → seg g3 (i_nextSeqno i) = Some (BSegment w)) as Hs3.
  { intros E. destruct (slot_same _ _ _ _ _ R3 Hh2 E) as [E' ->]. by apply Hs2. }
  split; [intros Ec; by apply (commit_installs me i l units floor Hu Hne' ltac:(lia) Hfm g3)|]. intros g4 I4 G4. split_and!.
  - intros Ec Hin. destruct (apply_stamped_ok me units sh floor (i_local i) (rows_at (i_nextSeqno i) g3) Hu (b_shows _ _ B3)) as (d' & Hw & Hd').
    { pose proof (pa_ts _ _ _ (b_past _ _ B3)) as Et. fold m in Et. rewrite (h_next _ _ _ _ Hh3). fold m. lia. }
    apply wp_bind, wp_try. apply Hw; [done|]. unfold wp, mbind', mset, mret. cbn [pbind good fst snd].
    destruct (commit_installed me i l units floor El Ep Hu Hne' ltac:(lia) Hfm g3 g4 d' I3 I4 B3 Hh3 Hs3 Ec Hin Hd'
      (set_since (i_committedSegmentsSinceSnapshot i + 1) (set_next (i_nextSeqno i + 1) (set_cached {| c_manifest := committed_manifest m (h_epoch l)
        (List.last (List.map snd (stamp_units units floor)) floor) (i_nextSeqno i); c_etag := BManifest (committed_manifest m (h_epoch l)
        (List.last (List.map snd (stamp_units units floor)) floor) (i_nextSeqno i)) |} (set_local d' i))))) as [Q1 Q2]; try done.
    split; [exact Q1|]. by intros tss [= <-] _.
  - intros e. assert (base_ok i g4) as B4 by (by eapply guar_base). destruct (isCasConflict e) eqn:Ee; unfold wp; cbn; rewrite ?Ee; (split; [|done]);
      (apply inst_base; [by apply (base_same i)|]); [by left|by right].
Qed.

(** ** Snapshots *)
Lemma wp_put_snap me ts w Q i g :
  (∀ g1, rely me g g1 → inv g1 → snap_good shard g1 ts (BSnapshot w) ∧ ∀ g2, inv g2 → guar me g1 g2 → cur g2 = cur g1 → g_hist g2 = g_hist g1 → g_owner g2 = g_owner g1 →
    (∀ n, seg g2 n = seg g1 n) → (∀ e, Q i (Err e) g2) ∧ ((∃ x, snap g2 ts = Some x) → Q i (Ok tt) g2)) →
  wp me (c_put (snapshotKey shard ts) (BSnapshot w)) Q i g.
Proof.
  intros H. apply wp_bind. intros g1 R I o r g2 Ho E. destruct (H g1 R I) as [Hp H2].
  destruct (call_put_snap _ _ _ _ _ _ _ _ I Hp E) as ([I2 G2] & Ec & Eh & Eo & Es & Hr). split; [done|].
  destruct (H2 g2 I2 G2 Ec Eh Eo Es) as [Q1 Q2]. destruct Hr as [[e ->]|[-> Ex]]; cbn; auto.
Qed.
Lemma inst_frame me i g g' : cur g' = cur g → g_hist g' = g_hist g → g_owner g' = g_owner g → (∀ n, seg g' n = seg g n) → inv g → inv g' → inst_ok me i g → inst_ok me i g'.
Proof.
  intros Ec Eh Eo Es I I' [B H]. split; [by eapply base_frame|]. intros l El Ep. destruct (H l El Ep) as [Hh Hf]. split; [by eapply holds_frame|].
  intros E. rewrite Es. apply Hf. by rewrite <-Ec.
Qed.
Lemma snapshot_ok me i g : inv g → inst_ok me i g → i_nextSeqno i = m_nextSeqno (c_manifest (i_cached i)) →
  wp me (snapshot shard) (λ i' r g', inst_ok me i' g') i g.
Proof.
  intros I0 Hi En. unfold snapshot. apply wp_bind. unfold wp at 1, mstate. cbn [good fst snd]. destruct (i_poisoned i) eqn:Ep; [done|].
  destruct (Z.eqb_spec (i_nextSeqno i) 0) as [|Hn0]; [done|]. pose proof Hi as [B _]. set (m := c_manifest (i_cached i)) in *.
  destruct (dump_spec _ _ (b_shows _ _ B)) as (es & idx & Ed & Hdu). apply wp_bind. unfold wp at 1, mlift. cbn [good fst snd]. rewrite Ed. cbn [good fst snd].
  set (p := {| sn_frontierTs := m_frontierTs m; sn_segBase := i_nextSeqno i - 1; sn_documents := es; sn_indexUpdates := idx |}).
  apply wp_bind. apply wp_put_snap. intros g1 R I. pose proof (inst_stable me i g g1 R Hi) as Hi1. pose proof (io_base _ _ _ Hi1) as B1.
  assert (m_frontierTs m = top (rows_at (i_nextSeqno i) g1)) as Et by (rewrite En; apply (pa_ts _ _ _ (b_past _ _ B1))). split.
  { assert (0 ≤ m_frontierTs m) as H0 by (rewrite Et; apply top_nonneg). split; [done|]. eexists _, (canon_snapshot p), (i_nextSeqno i). split; [done|].
    rewrite <-(rows_stable _ me _ g g1 R) in Hdu by apply (b_next _ _ B). split; [by apply decode_encodeSnapshot; [|apply (du_docs _ _ _ Hdu)|apply (du_idx _ _ _ Hdu)]|].
    split_and!; [done|apply (b_next _ _ B1)|done|]. by apply dumps_canon. }
  intros g2 I2 G2 Ec2 Eh2 Eo2 Es2. pose proof (inst_frame me i g1 g2 Ec2 Eh2 Eo2 Es2 I I2 Hi1) as Hi2. split; [done|]. intros [x Hx]. cbn beta.
  apply wp_bind, wp_try, wp_bind. rewrite (b_etag _ _ B). fold m. apply wp_cas. intros g3 R3 I3. pose proof (inst_stable me i g2 g3 R3 Hi2) as Hi3.
  assert (cur g3 = m → ∃ x', snap g3 (m_frontierTs m) = Some x') as Hsnap.
  { intros Ec. destruct (r_snap _ _ _ _ R3 _ _ Hx) as [?|(t & Ht & Hlt)]; [done|]. exfalso. pose proof (g_past _ _ I3) as P3.
    destruct (pa_snap _ _ _ P3 t Ht) as [b Hb]. destruct (pa_base _ _ _ P3 b Hb) as (Hbn & Et' & _). rewrite Ht in Et'. injection Et' as ->.
    pose proof (top_rows_mono _ (b + 1) (m_nextSeqno (cur g3)) g3 I3 ltac:(lia)) as Hle. rewrite <-(pa_ts _ _ _ P3), Ec in Hle. change (sn_frontierTs p) with (m_frontierTs m) in Hlt. lia. }
  split; [intros Ec; destruct (Hsnap Ec) as [x' Hx']; rewrite <-Ec in Hx' |- *; rewrite En, <-Ec; eapply in_snapshot; [done|rewrite Ec, <-En; done]|].
  intros g4 I4 G4. split_and!.
  - intros Ec Hin. unfold wp, mbind', mset. cbn [pbind good fst snd]. set (m' := snapshot_manifest m (m_frontierTs m) (i_nextSeqno i - 1)) in *.
    assert (g_hist g4 = g_hist g3) as Eh by (rewrite (is_hist _ _ _ _ _ Hin); apply hist_same; unfold m'; cbn; by rewrite Ec).
    assert (g_owner g4 = g_owner g3) as Eo by (rewrite (is_owner _ _ _ _ _ Hin); apply owner_same; unfold m'; cbn; by rewrite Ec).
    pose proof (is_cur _ _ _ _ _ Hin) as Ec4. split.
    + apply (base_installed i _ me g3 g4 m'); try done; [by rewrite Ec|by rewrite Ec|apply Hi3].
    + intros l El Ep'. destruct (io_holds _ _ _ Hi3 l El Ep) as [[H1 H2 H3 H4 H5 H6 H7] Hf]. split.
      * split; cbn [i_cached set_since set_cached i_nextSeqno c_manifest]; rewrite ?Ec4, ?Eo, ?Eh; unfold m'; cbn [snapshot_manifest m_epoch m_nextSeqno]; try done; rewrite Ec in *; done.
      * intros E. cbn [i_nextSeqno set_since set_cached]. rewrite (is_seg _ _ _ _ _ Hin). apply Hf. rewrite Ec4 in E. unfold m' in E. cbn in E. by rewrite Ec.
  - intros e. destruct (isCasConflict e) eqn:Ee; unfold wp; cbn; rewrite ?Ee; (apply inst_base; [|by right]); (apply (base_same i); try done);
      (eapply guar_base; [done|apply Hi3]).
Qed.
Lemma maybeSnapshot_ok me i g : inv g → inst_ok me i g → i_nextSeqno i = m_nextSeqno (c_manifest (i_cached i)) →
  wp me (maybeSnapshotBestEffort shard) (λ i' r g', inst_ok me i' g') i g.
Proof.
  intros I Hi En. unfold maybeSnapshotBestEffort. apply wp_try. eapply (wp_mono me _ (λ i' r g', inst_ok me i' g')); [by intros ? [] ?|].
  unfold maybeSnapshot. apply wp_bind. unfold wp at 1, mstate. cbn [good fst snd]. destruct (i_poisoned i); [done|]. destruct (_ <? _); [done|]. by apply snapshot_ok.
Qed.

(** ** Reclamation and consumers *)
Lemma wp_watermarks me prefix keys : ∀ (Q : Inst → res (list (jsstr * Z)) → shared → Prop) i g, inv g →
  (∀ g1 r, rely me g g1 → inv g1 → Q i r g1) → wp me (read_watermarks prefix keys) Q i g.
Proof.
  induction keys as [|key keys IH]; intros Q i g I H; cbn [read_watermarks]; [apply H; [apply rely_refl|done]|].
  apply wp_bind, wp_get. intros g1 R1 I1. split; [intros e; by apply H|]. destruct (os_get _ key) as [[m|w|w|n]|]; try (by apply H).
  - apply wp_bind, IH; [done|]. intros g2 [out|e] R2 I2; (apply H; [by eapply rely_trans|done]).
  - apply IH; [done|]. intros g2 r R2. apply H. by eapply rely_trans.
Qed.
(** A key the current snapshot makes superfluous *)
Definition superseded (key : jsstr) (g : shared) : Prop :=
  key ≠ manifestKey shard ∧ (∀ n, 0 ≤ n → key = segmentKey shard n → ∃ b, m_snapshotSegBase (cur g) = Some b ∧ n ≤ b) ∧
  ∀ ts, 0 ≤ ts → key = snapshotKey shard ts → ∃ t, m_snapshotTs (cur g) = Some t ∧ ts < t.
Lemma superseded_stable me key g g' : rely me g g' → superseded key g → superseded key g'.
Proof.
  intros R (H1 & H2 & H3). split_and!; [done| |].
  - intros n Hn E. destruct (H2 n Hn E) as (b & Hb & ?). destruct (r_base _ _ _ _ R b Hb) as (b' & Hb' & ?). exists b'. split; [done|lia].
  - intros ts Hts E. destruct (H3 ts Hts E) as (t & Ht & ?). destruct (r_snapts _ _ _ _ R t Ht) as (t' & Ht' & ?). exists t'. split; [done|lia].
Qed.
Lemma wp_delete_where me doomed keys : ∀ (Q : Inst → res Z → shared → Prop) i g, inv g →
  (∀ key n, key ∈ keys → suffix_int key = Some n → doomed n = true → superseded key g) →
  (∀ g1 r, rely me g g1 → inv g1 → Q i r g1) → wp me (delete_where doomed keys) Q i g.
Proof.
  induction keys as [|key keys IH]; intros Q i g I Hk H; cbn [delete_where]; [apply H; [apply rely_refl|done]|].
  assert (∀ g1, rely me g g1 → ∀ key n, key ∈ keys → suffix_int key = Some n → doomed n = true → superseded key g1) as Hk1.
  { intros g1 R key' n Hin E D. eapply superseded_stable; [done|]. apply (Hk key' n); [set_solver|done|done]. }
  destruct (suffix_int key) as [n|] eqn:En; [|apply IH; [done|apply Hk1, rely_refl|done]].
  destruct (doomed n) eqn:Ed; [|apply IH; [done|apply Hk1, rely_refl|done]].
  pose proof (Hk key n ltac:(set_solver) En Ed) as Hsup. apply wp_bind, wp_bind. intros g1 R1 I1 o r g2 _ E.
  destruct (superseded_stable _ _ _ _ R1 Hsup) as (S1 & S2 & S3). destruct (call_delete _ _ _ _ _ _ _ I1 S1 S2 S3 E) as (I2 & R2 & Hr).
  split; [split; [done|intros j _; apply R2]|]. assert (rely me g g2) as R by (eapply rely_trans; [exact R1|apply R2]).
  destruct Hr as [[e ->]| ->]; [by apply H|]. change (wp me (mbind' (delete_where doomed keys) (λ k, mret (k + 1))) Q i g2).
  apply wp_bind, IH; [done|by apply Hk1|]. intros g3 [k|e] R3 I3; (apply H; [by eapply rely_trans|done]).
Qed.
Lemma gc_floor_le segBase ws : gc_floor segBase ws ≤ segBase.
Proof. unfold gc_floor. revert segBase. induction ws as [|w ws IH]; intros b; cbn; [lia|]. specialize (IH (Z.min b w.2)). lia. Qed.
Lemma seg_superseded g t b n : m_snapshotSegBase (cur g) = Some b → suffix_int (segPrefix shard ++ t) = Some n → n ≤ b → superseded (segPrefix shard ++ t) g.
Proof.
  intros Hb En Hle. split_and!.
  - intros E. by apply (manifest_seg shard t).
  - intros k Hk E. rewrite E, suffix_seg in En by done. injection En as ->. exists b. by split.
  - intros ts _ E. exfalso. by apply (seg_snap shard t (string_of_int ts)).
Qed.
Lemma snap_superseded g t keep n : m_snapshotTs (cur g) = Some keep → suffix_int (snapPrefix shard ++ t) = Some n → n < keep → superseded (snapPrefix shard ++ t) g.
Proof.
  intros Hb En Hlt. split_and!.
  - intros E. by apply (manifest_snap shard t).
  - intros k _ E. exfalso. by apply (seg_snap shard (string_of_int k) t).
  - intros k Hk E. rewrite E, suffix_snap in En by done. injection En as ->. exists keep. by split.
Qed.
Lemma elem_os_list b p k : k ∈ os_list b p → ∃ t, k = p ++ t.
Proof. intros [_ H]%elem_lfilter. by apply starts_with_app. Qed.
Lemma gc_ok me i g : inv g → inst_ok me i g → wp me (gc shard) (λ i' r g', inst_ok me i' g') i g.
Proof.
  intros I0 Hi. unfold gc. apply wp_bind. unfold wp at 1, mstate. cbn [good fst snd]. destruct (i_poisoned i) eqn:Ep; [done|].
  destruct (i_held i) as [l|] eqn:El; [|done]. apply wp_bind, wp_readManifest. intros g1 R I. pose proof (inst_stable me i g g1 R Hi) as Hi1.
  split_and!; [done..|]. cbn [c_manifest]. destruct (Z.eqb_spec (m_epoch (cur g1)) (h_epoch l)) as [Ee|]; cbn [negb].
  2: { unfold wp. cbn. apply inst_base; [|by left]. by apply (base_same i), Hi1. }
  apply wp_bind. unfold wp at 1, mset. cbn [good fst snd]. set (i1 := set_cached _ i).
  destruct Hi1 as [B1 H1]. destruct (H1 l El Ep) as [[H2 H3 H4 H5 H6 H7 H8] Hf].
  assert (inst_ok me i1 g1) as Hi2.
  { split; [split; cbn; [done|apply (g_past _ _ I)|rewrite <-H6; lia|apply (b_shows _ _ B1)]|]. intros l' El' _. assert (l' = l) as -> by (cbn in El'; congruence).
    split; [split; cbn; try done; by rewrite H6|done]. }
  clearbody i1. clear B1 H1 Hf H2 H3 H4 H5 H6 H7 H8.
  destruct (m_snapshotTs (cur g1)) as [keep|] eqn:Ets; [|done]. destruct (m_snapshotSegBase (cur g1)) as [b|] eqn:Eb; [|done].
  apply wp_bind, wp_bind, wp_list. intros g2 R2 I2. pose proof (inst_stable _ _ _ _ R2 Hi2) as Hi3. split; [done|].
  apply wp_watermarks; [done|]. intros g3 [ws|e] R3 I3; pose proof (inst_stable _ _ _ _ R3 Hi3) as Hi4; [|done].
  apply wp_bind, wp_list. intros g4 R4 I4. pose proof (inst_stable _ _ _ _ R4 Hi4) as Hi5. split; [done|].
  assert (rely me g1 g4) as R14 by (eapply rely_trans; [exact R2|]; eapply rely_trans; [exact R3|exact R4]).
  destruct (r_base _ _ _ _ R14 b Eb) as (b4 & Eb4 & Hb4).
  apply wp_bind, wp_delete_where; [done| |].
  { intros key n (t & ->)%elem_os_list En Hle%Z.leb_le. eapply seg_superseded; [done|done|]. pose proof (gc_floor_le b ws). lia. }
  intros g5 [k|e] R5 I5; pose proof (inst_stable _ _ _ _ R5 Hi5) as Hi6; [|done].
  apply wp_bind, wp_list. intros g6 R6 I6. pose proof (inst_stable _ _ _ _ R6 Hi6) as Hi7. split; [done|].
  assert (rely me g1 g6) as R16 by (eapply rely_trans; [exact R14|]; eapply rely_trans; [exact R5|exact R6]).
  destruct (r_snapts _ _ _ _ R16 keep Ets) as (t6 & Et6 & Ht6).
  apply wp_bind, wp_delete_where; [done| |].
  { intros key n (t & ->)%elem_os_list En Hlt%Z.ltb_lt. eapply snap_superseded; [done|done|]. lia. }
  intros g7 [k'|e] R7 I7; exact (inst_stable _ _ _ _ R7 Hi7).
Qed.
Lemma publish_ok me i g cid n : inv g → inst_ok me i g → wp me (publishConsumerWatermark shard cid n) (λ i' r g', inst_ok me i' g') i g.
Proof.
  intros I Hi. unfold publishConsumerWatermark. generalize 5%nat as k. intros k. revert g I Hi. induction k as [|k IH]; intros g I Hi; cbn [publish_loop]; [done|].
  apply wp_bind, wp_get. intros g1 R1 I1. pose proof (inst_stable _ _ _ _ R1 Hi) as Hi1. split; [done|].
  apply wp_try, wp_bind, wp_bind. intros g2 R2 I2 o r g3 _ E. destruct (call_cas_free _ _ _ _ _ _ _ _ _ I2 (consumer_free shard cid) E) as [I3 R3].
  split; [split; [done|intros j _; apply R3]|]. pose proof (inst_stable _ _ _ _ R2 Hi1) as Hi2. pose proof (inst_stable _ _ _ _ (R3 me) Hi2) as Hi3.
  destruct r as [[x|x|ks|]|e]; try exact Hi3. change (wp me (if isCasConflict e then publish_loop (consumerKey shard cid) (BWatermark n) k else mthrow e) (λ i' r g', inst_ok me i' g') i g3).
  destruct (isCasConflict e); [by apply IH|done].
Qed.
Lemma remove_consumer_ok me i g cid : inv g → inst_ok me i g → wp me (removeConsumer shard cid) (λ i' r g', inst_ok me i' g') i g.
Proof.
  intros I Hi. apply wp_bind. intros g1 R1 I1 o r g2 _ E. destruct (consumer_free shard cid) as (F1 & F2 & F3).
  destruct (call_delete _ _ _ _ _ _ _ I1 F1 (λ n _ E', False_ind _ (F2 n E')) (λ n _ E', False_ind _ (F3 n E')) E) as (I2 & R2 & Hr).
  split; [split; [done|intros j _; apply R2]|]. pose proof (inst_stable _ _ _ _ (R2 me) (inst_stable _ _ _ _ R1 Hi)) as Hi2. by destruct Hr as [[e ->]| ->].
Qed.

(** ** The system *)
Definition op_post (me : nat) (op : opcall) (x : Inst * res (list Z)) (g : shared) : Prop :=
  match op, x.2 with
  | OpOpen, Err _ | OpAcquire _ _ _, Err _ => True
  | OpCommit units _, Ok tss => inst_ok me x.1 g ∧ (units ≠ [] → logged units tss g)
  | _, _ => inst_ok me x.1 g
  end.
Lemma logged_stable me units tss g g' : rely me g g' → logged units tss g → logged units tss g'.
Proof.
  intros R (floor & n & E & Hn). destruct (r_hist _ _ _ _ R) as (X & EX & _). exists floor, n. split; [done|]. rewrite EX. apply elem_of_app. by left.
Qed.
Lemma op_post_stable me op x g g' : rely me g g' → op_post me op x g → op_post me op x g'.
Proof.
  intros R. unfold op_post. destruct op, (x.2); try done; try apply (inst_stable _ _ _ _ R). intros [H1 H2]. split; [by eapply inst_stable|].
  intros Hu. by eapply logged_stable, H2.
Qed.
Lemma op_ok me op i g : inv g → startable op → start_faults op i = [] → inst_ok me i g → good me (op_prog shard op i) (op_post me op) g.
Proof.
  intros I Hs Hf Hi. assert (∀ A (m : M Inst A), (∀ x, op_post me op x = inst_ok me x.1) → wp me m (λ i' r g', inst_ok me i' g') i g → good me (unit_result m i) (op_post me op) g) as Hu.
  { intros A m E H. eapply good_mono; [|apply wp_unit, H]. intros x g'. by rewrite E. }
  destruct op as [|wid ttl now|now ttl| | |units sh| | | |cid n|cid]; cbn [op_prog]; try (apply Hu; [by intros [? []]|]).
  - done.
  - assert (i_held i = None ∨ i_poisoned i = true) as Hh by (cbn in Hf; destruct (i_held i); [destruct (i_poisoned i); auto; done|by left]).
    apply (good_bind me (acquire shard wid ttl now i)). eapply good_mono; [|by apply acquire_ok]. intros [i' [a|e]] g'; cbn; done.
  - by apply heartbeat_ok.
  - by apply release_ok.
  - by apply relinquish_ok.
  - eapply good_mono; [|by apply commit_ok]. intros [i' [tss|e]] g' [H1 H2]; cbn in *; [|done]. split; [done|]. by apply H2.
  - cbn in Hf. destruct (Z.eqb_spec (i_nextSeqno i) (m_nextSeqno (c_manifest (i_cached i)))); [|done]. by apply snapshot_ok.
  - cbn in Hf. destruct (Z.eqb_spec (i_nextSeqno i) (m_nextSeqno (c_manifest (i_cached i)))); [|done]. by apply maybeSnapshot_ok.
  - by apply gc_ok.
  - by apply publish_ok.
  - by apply remove_consumer_ok.
Qed.
Lemma open_op_ok me g : inv g → good me (op_prog shard OpOpen blank_inst) (op_post me OpOpen) g.
Proof. intros I. apply (good_bind me (open shard blank_inst)). eapply good_mono; [|by apply open_ok]. intros [i' [a|e]] g'; cbn; [by intros []|done]. Qed.

Record winv (w : world) : Prop := {
  wi_inv : inv (w_shared w);
  wi_nodes : ∀ me nd, w_nodes w !! me = Some nd →
    match nd_run nd with None => inst_ok me (nd_inst nd) (w_shared w) | Some (op, p) => good me p (op_post me op) (w_shared w) end;
  wi_acks : ∀ units tss, (units, tss) ∈ w_acks w → logged units tss (w_shared w) }.
Lemma init_inv : inv (w_shared init_world).
Proof.
  split; cbn; try done.
  - constructor.
  - split; cbn; try done; try lia; first [apply SSorted_nil|by intros ? ?%elem_of_nil].
  - split; try by intros ? ?%elem_of_nil.
    + by intros [] ? ? ?.
    + by intros [] ? ? ?.
  - by intros ? ?%elem_of_nil.
  - by intros ? ?%elem_of_nil.
Qed.
Lemma node_stable me nd g g' : rely me g g' →
  match nd_run nd with None => inst_ok me (nd_inst nd) g | Some (op, p) => good me p (op_post me op) g end →
  match nd_run nd with None => inst_ok me (nd_inst nd) g' | Some (op, p) => good me p (op_post me op) g' end.
Proof. intros R. destruct (nd_run nd) as [[op p]|]; [apply good_stable; [intros; by eapply op_post_stable|done]|by apply inst_stable]. Qed.
Lemma winv_step w w' : winv w → sstep shard w [] w' → winv w'.
Proof.
  intros [I N A] H. remember [] as l eqn:Hl. destruct H as [me Hn|me i op Hn Hs|me i op c k o r g Hn E|me i op i' r Hn|me]; split; cbn [w_shared w_nodes w_acks with_nodes] in *; try done.
  - intros j nd [[<- <-]|[? Hj]]%lookup_insert_Some; [by apply open_op_ok|by apply N].
  - intros j nd [[<- <-]|[? Hj]]%lookup_insert_Some; [|by apply N]. apply op_ok; [done|done|done|]. apply (N me _ Hn).
  - destruct (N me _ Hn (w_shared w) (rely_refl _ _ _) I o r g Hl E) as [[I' _] _]. done.
  - destruct (N me _ Hn (w_shared w) (rely_refl _ _ _) I o r g Hl E) as [[I' G'] Hk].
    intros j nd [[<- <-]|[Hne Hj]]%lookup_insert_Some; [done|]. apply (node_stable _ _ _ _ (G' j (not_eq_sym Hne))). by apply N.
  - destruct (N me _ Hn (w_shared w) (rely_refl _ _ _) I o r g Hl E) as [[_ G'] _]. intros units tss Hin. apply (logged_stable (S me) _ _ (w_shared w)); [|by apply A]. apply G'. lia.
  - pose proof (N me _ Hn) as Hg. cbn in Hg. intros j nd Hj.
    assert (j = me ∧ nd = {| nd_inst := i'; nd_run := None |} ∧ inst_ok me i' (w_shared w) ∨ w_nodes w !! j = Some nd) as [(-> & -> & Hok)|Hj']; [|done|by apply N].
    unfold op_post in Hg. cbn in Hg. destruct op, r; first [apply lookup_delete_Some in Hj as [? Hj]; by right|apply lookup_insert_Some in Hj as [[<- <-]|[? Hj]]; [left|by right]];
      split_and!; try done; by destruct Hg.
  - intros units tss [Hin|Hin]%elem_of_app; [by apply A|]. pose proof (N me _ Hn) as Hg. cbn in Hg. destruct op; try by apply elem_of_nil in Hin.
    destruct r as [tss'|e]; [|by apply elem_of_nil in Hin]. cbn in Hin. destruct units0 as [|u us]; [by apply elem_of_nil in Hin|].
    apply list_elem_of_singleton in Hin as [= -> ->]. destruct Hg as [_ Hg]. by apply Hg.
  - intros j nd [? Hj]%lookup_delete_Some. by apply N.
Qed.
Lemma winv_run w : sound_run shard w → winv w.
Proof.
  intros (fs & H & H1 & H2 & H3). pose proof (no_fault fs H1 H2 H3) as E. clear H1 H2 H3. induction H as [|fs w l w' _ IH Hs].
  - split; cbn; [apply init_inv|by intros ? ? ?%lookup_empty_Some|by intros ? ? ?%elem_of_nil].
  - apply app_eq_nil in E as [-> ->]. eapply winv_step; [by apply IH|done].
Qed.

(** ** A bootstrap of the bucket as it is *)
Lemma run_bind {A B} b (p : prog A) (f : A → prog B) : run_prog b (pbind p f) = let '(b', a) := run_prog b p in run_prog b' (f a).
Proof. revert b. induction p as [a|c k IH]; intros b; cbn; [done|]. destruct (os_exec b c) as [r b']. apply IH. Qed.
Lemma run_replay g m i0 segs : ∀ a d, inv g → past m g → shows d (rows_at (a + 1) g) → 0 ≤ a + 1 ≤ m_nextSeqno m →
  (∀ s, s ∈ segs → s ∈ m_segments m ∧ ∃ w, seg g s = Some (BSegment w)) → StronglySorted Z.lt segs → (∀ x, x ∈ g_hist g → a < x.1 → x.1 < m_nextSeqno m → x.1 ∈ segs) →
  ∃ d', run_prog (g_bucket g) (replay_segments shard segs a (set_local d i0)) = (g_bucket g, (set_local d' i0, Ok tt)) ∧ shows d' (rows_at (m_nextSeqno m) g).
Proof.
  induction segs as [|s segs IH]; intros a d I P Hd Ha Hs Hso Hc; cbn [replay_segments].
  { exists d. split; [done|]. unfold rows_at in *. rewrite <-(below_eq (a + 1) (m_nextSeqno m)); [done|lia|].
    intros x Hx Hle. destruct (Z.le_gt_cases (m_nextSeqno m) x.1); [done|]. assert (x.1 ∈ @nil Z) as Hin by (apply Hc; [done|lia|lia]). by apply elem_of_nil in Hin. }
  inversion Hso as [|? ? Hso' Hall]; subst. rewrite Forall_forall in Hall. destruct (Z.leb_spec s a) as [Hle|Hlt].
  { apply IH; try done; [intros; apply Hs; set_solver|]. intros x Hx H1 H2. specialize (Hc x Hx H1 H2). apply elem_of_cons in Hc as [E|?]; [lia|done]. }
  destruct (Hs s ltac:(set_solver)) as [Hsm [w E]]. destruct (pa_segs _ _ _ P s Hsm) as [Hsn ((s' & w') & -> & Hw)%list_elem_of_fmap]. cbn [fst] in *.
  pose proof (g_same _ _ I s' w' _ Hw E) as [= ->]. destruct (ho_seg _ (g_log _ _ I) _ Hw) as (Hs0 & p & Hp). cbn [fst snd] in *.
  destruct (rows_snoc g (a + 1) s' w' I Hw) as [Er Et]; [lia| |].
  { intros y Hy Hle. destruct (Z.le_gt_cases (m_nextSeqno m) y.1); [lia|]. destruct (proj1 (elem_of_cons _ _ _) (Hc y Hy ltac:(lia) ltac:(lia))) as [Ey|Hin]; [lia|].
    specialize (Hall _ Hin). lia. }
  destruct (shows_write d (rows_at (a + 1) g) (sp_documents p) (sp_indexUpdates p) None Hd) as (d' & Ew & Hd'); try apply Hp.
  { intros e He. apply (Et (entry_row e)). rewrite (seg_rows_ok _ _ Hp). apply list_elem_of_In, in_map_iff. exists e. by rewrite <-list_elem_of_In. }
  rewrite <-(seg_rows_ok _ _ Hp), <-Er in Hd'. destruct (IH s' d' I P Hd') as (d2 & E2 & Hd2); try done; [lia|intros; apply Hs; set_solver| |].
  { intros y Hy H1 H2. specialize (Hc y Hy ltac:(lia) H2). apply elem_of_cons in Hc as [Ey|?]; [lia|done]. }
  exists d2. split; [|done]. rewrite <-E2. unfold c_get, call, mlift, local_write, mstate, mset, mret, mbind'. cbn [pbind run_prog os_exec fst snd].
  unfold ObjectSystem.seg in E. rewrite E. cbn [pbind run_prog fst snd]. rewrite (so_decode _ _ Hp). cbn [pbind run_prog fst snd i_local set_local]. rewrite Ew. done.
Qed.
End Safety.
