(* ===== verification/ObjectDurable.v ===== *)
(** The promises of the object-storage substrate, for every run of processes over one bucket: acknowledged commits are in the log, the log is ordered,
    one process owns an epoch, and opening a store over the bucket always succeeds and shows the log's replay. *)
From stdpp Require Import gmap.
From S2P Require Import Prelude Numbers Values IndexKeys Json IdCodec DocStore Segments ObjectStore ObjectDocStore ObjectLog ObjectSystem ObjectInv ObjectSafety.

Section Durable.
Context (shard : jsstr).
Notation cur := (cur shard).
Notation inv := (inv shard).

(** ** The reference *)
Lemma replay_shows h : ∀ h0 d, hist_ok (h0 ++ h) → shows d (log_rows h0) → ∃ d', replay_log d h = Ok d' ∧ shows d' (log_rows (h0 ++ h)).
Proof.
  induction h as [|[n w] h IH]; intros h0 d Hok Hd; [exists d; by rewrite app_nil_r|].
  destruct (ho_seg _ Hok (n, w)) as (_ & p & Hp); [apply elem_of_app; right; apply elem_of_cons; by left|]. cbn [snd] in Hp.
  pose proof (ho_ts _ Hok h0 (n, w) h) as Ht. destruct (shows_write d (log_rows h0) (sp_documents p) (sp_indexUpdates p) None Hd) as (d' & E & Hd'); try apply Hp.
  { intros e He. apply (Ht (entry_row e) eq_refl). cbn [snd]. rewrite (seg_rows_ok _ _ Hp). apply list_elem_of_In, in_map_iff. exists e. by rewrite <-list_elem_of_In. }
  destruct (IH (h0 ++ [(n, w)]) d') as (d2 & E2 & Hd2).
  - by rewrite <-(assoc_L (++)).
  - rewrite log_rows_app. unfold log_rows at 2. cbn. by rewrite app_nil_r, (seg_rows_ok _ _ Hp).
  - exists d2. cbn [replay_log snd]. rewrite (so_decode _ _ Hp). cbn [res_bind]. rewrite E. cbn [res_bind]. split; [done|]. by rewrite <-(assoc_L (++)) in Hd2.
Qed.
Lemma replay_ok h : hist_ok h → ∃ d, replay_log empty_db h = Ok d ∧ shows d (log_rows h).
Proof. intros H. apply (replay_shows h []); [done|]. by apply shows_empty. Qed.
Lemma shows_get d d' L id : shows d L → shows d' L → get d id None = get d' id None.
Proof. intros H H'. apply get_same; [apply H|apply H'|]. intros r. by rewrite (sh_live _ _ H), (sh_live _ _ H'). Qed.

(** ** Opening *)
Lemma run_restore g i : inv g → i_nextSeqno i = 0 → shows (i_local i) [] → ∃ a d,
  run_prog (g_bucket g) (restore_snapshot shard (cur g) (i_nextSeqno i - 1) i) = (g_bucket g, (set_local d i, Ok a)) ∧
  shows d (rows_at (a + 1) g) ∧ 0 ≤ a + 1 ≤ m_nextSeqno (cur g) ∧ ∀ b, m_snapshotSegBase (cur g) = Some b → b ≤ a.
Proof.
  intros I En Hd. pose proof (g_past _ _ I) as P. pose proof (pa_next _ _ _ P) as Hn. unfold restore_snapshot. rewrite En.
  destruct (m_snapshotTs (cur g)) as [ts|] eqn:Ets.
  2: { exists (-1), (i_local i). split; [by destruct i|]. split; [by rewrite (rows_at_0 shard)|]. split; [lia|]. intros b Eb. destruct (pa_base _ _ _ P b Eb) as (_ & E & _). congruence. }
  destruct (pa_snap _ _ _ P ts Ets) as [b Eb]. rewrite Eb. destruct (pa_base _ _ _ P b Eb) as (Hb & Ets' & _). rewrite Ets in Ets'. injection Ets' as Ets'.
  rewrite (proj2 (Z.ltb_lt (0 - 1) b)) by lia. destruct (g_snapcur _ _ I ts Ets) as [x Ex]. destruct (g_snaps _ _ I ts x Ex) as (_ & w & p & k & -> & Hdec & Hf & Hk & Ht & Hdu).
  assert (rows_at k g = rows_at (b + 1) g) as Ek by (unfold rows_at in *; f_equal; apply top_below; [apply (g_log _ _ I)|congruence]).
  rewrite Ek in Hdu. destruct (shows_restore (i_local i) [] (rows_at (b + 1) g) p Hd) as (d' & del & Er & Hd').
  - intros y (z & Hz & Hy)%elem_log_rows. apply elem_below in Hz as [Hz _]. destruct (ho_seg _ (g_log _ _ I) z Hz) as (_ & q & Hq).
    apply list_elem_of_split in Hz as (h1 & h2 & E). pose proof (ho_ts _ (g_log _ _ I) h1 z h2 y E Hy). pose proof (top_nonneg (log_rows h1)). cbn. lia.
  - done.
  - exists b, d'. split; [|split; [done|split; [lia|intros b' [= <-]; lia]]].
    unfold readSnapshot, c_get, call, mlift, mstate, mset, mret, mbind'. cbn [pbind run_prog os_exec fst snd].
    unfold snap in Ex. rewrite Ex. cbn [pbind run_prog fst snd]. rewrite Hdec. cbn [pbind run_prog fst snd]. rewrite Hf, Ets'. cbn [app] in Er. rewrite Er. done.
Qed.
Lemma run_materialize g c : inv g → c_manifest c = cur g → ∃ i, 
  run_prog (g_bucket g) (materializeTo shard (cur g) (new_Inst empty_db c)) = (g_bucket g, (i, Ok tt)) ∧ shows (i_local i) (log_rows (g_hist g)) ∧
  i_nextSeqno i = m_nextSeqno (cur g).
Proof.
  intros I Ec. pose proof (g_past _ _ I) as P. destruct (run_restore g (new_Inst empty_db c) I eq_refl) as (a & d & E & Hd & Ha & Hb); [by apply shows_empty|].
  destruct (run_replay shard g (cur g) (new_Inst empty_db c) (m_segments (cur g)) a d I P Hd Ha) as (d' & E' & Hd').
  - intros s Hs. split; [done|]. by apply (g_segs _ _ I).
  - apply (pa_sorted _ _ _ P).
  - intros x Hx H1 H2. destruct (pa_cover _ _ _ P x Hx H2) as [?|(b & Eb & Hle)]; [done|]. specialize (Hb b Eb). lia.
  - exists (set_next (m_nextSeqno (cur g)) (set_local d' (new_Inst empty_db c))). split; [|split; [|done]].
    + unfold materializeTo, mbind' at 1, mstate. cbn [pbind fst snd]. unfold mbind' at 1. rewrite run_bind, E. cbn [fst snd]. unfold mbind' at 1.
      rewrite run_bind, E'. done.
    + cbn. rewrite <-(all_below shard g I). done.
Qed.
Lemma run_open g : inv g → ∃ b' i, run_prog (g_bucket g) (open shard blank_inst) = (b', (i, Ok tt)) ∧ shows (i_local i) (log_rows (g_hist g)) ∧
  i_nextSeqno i = m_nextSeqno (cur g).
Proof.
  intros I. destruct (os_get (g_bucket g) (manifestKey shard)) as [x|] eqn:Ex.
  - destruct (g_manifest _ _ I x Ex) as [m ->]. assert (cur g = m) as Ec by (unfold ObjectSystem.cur; by rewrite Ex).
    destruct (run_materialize g {| c_manifest := m; c_etag := BManifest m |} I (eq_sym Ec)) as (i & E & Hd & Hn). exists (g_bucket g), i. split; [|done].
    rewrite <-E, Ec. unfold open, read_or_create, readManifest, c_get, call, mbind', mstate, mset, mret. cbn [pbind run_prog os_exec fst snd]. rewrite Ex.
    done.
  - assert (cur g = emptyManifest) as Ec by (unfold ObjectSystem.cur; by rewrite Ex).
    eexists _, (set_next 0 (new_Inst empty_db {| c_manifest := emptyManifest; c_etag := BManifest emptyManifest |})). split; [|rewrite Ec; split; [|done]].
    + unfold open, read_or_create, readManifest, createManifest, c_get, c_cas, call, mbind', mtry, mstate, mset, mret. cbn [pbind run_prog os_exec fst snd]. rewrite Ex.
      cbn [pbind run_prog os_exec fst snd].
      assert (os_casPut (g_bucket g) (manifestKey shard) (BManifest emptyManifest) None = Ok (jm_set (g_bucket g) (manifestKey shard) (BManifest emptyManifest))) as ->
        by (unfold os_casPut; by rewrite Ex).
      cbn [pbind run_prog fst snd]. reflexivity.
    + assert (g_hist g = []) as ->; [|by apply shows_empty]. destruct (g_hist g) as [|y h] eqn:Eh; [done|exfalso].
      assert (y ∈ g_hist g) as Hy by (rewrite Eh; apply elem_of_cons; by left). pose proof (g_below _ _ I y Hy) as Hlt. rewrite Ec in Hlt.
      destruct (ho_seg _ (g_log _ _ I) y Hy) as [H0 _]. cbn in Hlt. lia.
Qed.

(** ** The promises *)

(** C12: Let processes open, claim, renew and give up leases, commit, snapshot, reclaim and crash over a bucket, with calls that fail or whose
    answers are lost, in a run without the three faults: every segment upload that throws did not land, [acquire] is called on no instance that
    believes it holds a lease, and a snapshot is taken where the cursor is the cached manifest's (as after a commit). Then a commit acknowledged to its caller is in the durable log: one segment holds exactly its batch at the timestamps returned, and
    that segment is still referenced and readable, or the current snapshot covers it. With a lost upload or an eager [acquire] it may be lost
    ([lost_upload_swallows_commit], [eager_acquire_swallows_commit]). *)
Theorem acknowledged_commits_durable w units tss : sound_run shard w → (units, tss) ∈ w_acks w → ∃ floor n,
  let batch := encodeSegment (batch_payload (stamp_units units floor)) in
  tss = List.map snd (stamp_units units floor) ∧ (n, batch) ∈ g_hist (w_shared w) ∧
  ((n ∈ m_segments (cur (w_shared w)) ∧ seg shard (w_shared w) n = Some (BSegment batch)) ∨
   ∃ b ts x, m_snapshotSegBase (cur (w_shared w)) = Some b ∧ n ≤ b ∧ m_snapshotTs (cur (w_shared w)) = Some ts ∧ snap shard (w_shared w) ts = Some x).
Proof.
  intros [I _ A]%winv_run Hack. destruct (A units tss Hack) as (floor & n & E & Hin). exists floor, n. cbv zeta. split; [done|]. split; [done|].
  pose proof (g_past _ _ I) as P. destruct (pa_cover _ _ _ P _ Hin (g_below _ _ I _ Hin)) as [Hs|(b & Eb & Hle)]; cbn [fst] in *.
  - left. split; [done|]. destruct (g_segs _ _ I n Hs) as [w' Hw']. rewrite (g_same _ _ I n _ _ Hin Hw') in Hw'. exact Hw'.
  - right. destruct (pa_base _ _ _ P b Eb) as (_ & Ets & _). destruct (g_snapcur _ _ I _ Ets) as [x Hx]. eauto 10.
Qed.


(** In such a run, a process between operations serves the log: the local store of every instance, however it opened, caught up, committed, lost a lease or took
    one over, answers every read as the replay of the log below its cursor. *)
Theorem local_store_serves_log w me i : sound_run shard w → w_nodes w !! me = Some {| nd_inst := i; nd_run := None |} →
  ∃ d, replay_log empty_db (below (i_nextSeqno i) (g_hist (w_shared w))) = Ok d ∧ ∀ id, get (i_local i) id None = get d id None.
Proof.
  intros [I N _]%winv_run Hn. pose proof (N me _ Hn) as Hi. cbn in Hi. pose proof (b_shows _ _ _ (io_base _ _ _ _ Hi)) as Hd.
  destruct (below_split (i_nextSeqno i) _ (g_log _ _ I)) as (X & EX & _). pose proof (g_log _ _ I) as Hok. rewrite EX in Hok.
  destruct (replay_ok _ (hist_ok_prefix _ _ Hok)) as (d & Er & Hd'). exists d. split; [done|]. intros id. by eapply shows_get.
Qed.

(** C14: In a run without those faults the log is one totally ordered history: each commit's segment number and every timestamp in it exceed those of all commits before it,
    across takeovers; and no two idle processes hold unrevoked leases of one epoch. *)
Theorem log_totally_ordered w : sound_run shard w →
  (∀ h1 x h2 y, g_hist (w_shared w) = h1 ++ x :: h2 → y ∈ h1 →
     y.1 < x.1 ∧ ∀ r r', r ∈ seg_rows x.2 → r' ∈ seg_rows y.2 → l_ts r' < l_ts r) ∧
  ∀ a b i j l l', w_nodes w !! a = Some {| nd_inst := i; nd_run := None |} → w_nodes w !! b = Some {| nd_inst := j; nd_run := None |} →
    i_held i = Some l → i_poisoned i = false → i_held j = Some l' → i_poisoned j = false → h_epoch l = h_epoch l' → a = b.
Proof.
  intros [I N _]%winv_run. split.
  - intros h1 x h2 y E Hy. split; [by apply (ho_sorted _ (g_log _ _ I) h1 x h2)|]. intros r r' Hr Hr'.
    pose proof (ho_ts _ (g_log _ _ I) h1 x h2 r E Hr). assert (l_ts r' ≤ top (log_rows h1)); [|lia]. apply top_ub, elem_log_rows. by exists y.
  - intros a b i j l l' Ha Hb El Ep El' Ep' Ee. pose proof (N a _ Ha) as [_ Hi]. pose proof (N b _ Hb) as [_ Hj]. cbn in Hi, Hj.
    destruct (Hi l El Ep) as [[H1 _ _ _ _ _ _] _]. destruct (Hj l' El' Ep') as [[H2 _ _ _ _ _ _] _]. rewrite Ee in H1. rewrite H1 in H2. by injection H2.
Qed.
End Durable.
