(* ===== verification/ObjectRuns.v ===== *)
(** Concrete runs of the object-storage substrate: a takeover with a crash, a snapshot and a reclamation as the instance of the promises of
    [ObjectDurable], and runs outside their assumptions. *)
From stdpp Require Import gmap.
From S2P Require Import Prelude Numbers Values IndexKeys Json IdCodec DocStore Segments ObjectStore ObjectDocStore ObjectLog ObjectSystem ObjectInv ObjectSafety ObjectDurable.

(** ** Driving the step relation *)
Definition bytes_okb (id : InternalDocumentId) : bool := forallb byteb (internalId id) && (0 <=? tableNumber id).
Definition entry_wire_okb (e : DocumentLogEntry) : bool :=
  bytes_okb (le_id e) && match le_prev_ts e with Some p => 0 <=? p | None => true end &&
  match le_value e with Some d => bytes_okb (rd_id d) && value_okb (rd_value d) | None => true end.
Definition write_wire_okb (w : IndexWrite) : bool :=
  forallb byteb (iu_key (iw_update w)) && match iu_value (iw_update w) with NonClustered id => bytes_okb id | Deleted => true end.
Definition unit_wire_okb (u : CommitUnit) : bool :=
  negb (Nat.eqb (length (cu_documents u)) 0) && forallb entry_wire_okb (cu_documents u) && forallb write_wire_okb (cu_indexUpdates u) &&
  bool_decide (NoDup (id_key <$> (le_id <$> cu_documents u))).
Lemma bytes_okb_ok id : bytes_okb id = true → bytes_ok id.
Proof. unfold bytes_okb. rewrite andb_true_iff, byteb_Forall, Z.leb_le. done. Qed.
Lemma entry_wire_ok ts e : 0 ≤ ts → entry_wire_okb e = true → entry_ok (stamp_doc ts e).
Proof.
  intros Hts. unfold entry_wire_okb. rewrite !andb_true_iff. intros [[H1 H2] H3]. split; cbn; [done|by apply bytes_okb_ok| |].
  - intros p E. rewrite E in H2. by apply Z.leb_le.
  - intros d E. rewrite E in H3. apply andb_true_iff in H3 as [H3 H4]. split; [by apply bytes_okb_ok|done].
Qed.
Lemma write_wire_ok ts w : 0 ≤ ts → write_wire_okb w = true → write_ok (stamp_idx ts w).
Proof.
  intros Hts. unfold write_wire_okb. rewrite andb_true_iff, byteb_Forall. intros [H1 H2]. split; cbn; [done|done|]. intros id E. rewrite E in H2. by apply bytes_okb_ok.
Qed.
Lemma unit_wire_okb_ok u : unit_wire_okb u = true → unit_wire_ok u.
Proof.
  unfold unit_wire_okb. rewrite !andb_true_iff, negb_true_iff, Nat.eqb_neq, bool_decide_eq_true. intros [[[H1 H2] H3] H4]. split_and!; [by destruct (cu_documents u)| | |done].
  - rewrite forallb_Forall in H2. eapply Forall_impl; [exact H2|]. intros e. by apply entry_wire_ok.
  - rewrite forallb_Forall in H3. eapply Forall_impl; [exact H3|]. intros w. by apply write_wire_ok.
Qed.

Section Drive.
Context (shard : jsstr).
Definition startableb (op : opcall) : bool :=
  match op with OpOpen => false | OpCommit units _ => forallb unit_wire_okb units | _ => true end.
Lemma startableb_ok op : startableb op = true → startable op.
Proof. destruct op; cbn; try done. rewrite forallb_Forall. intros H. eapply Forall_impl; [exact H|apply unit_wire_okb_ok]. Qed.

(** What happens next; what cannot happen changes nothing *)
Inductive action := ASpawn (me : nat) | AStart (me : nat) (op : opcall) | ACall (me : nat) (o : outcome) | AFinish (me : nat) | ACrash (me : nat).
Definition act (a : action) (w : world) : world :=
  match a with
  | ASpawn me => match w_nodes w !! me with
      | None => with_nodes w (<[me := {| nd_inst := blank_inst; nd_run := Some (OpOpen, op_prog shard OpOpen blank_inst) |}]> (w_nodes w))
      | Some _ => w end
  | AStart me op => match w_nodes w !! me with
      | Some {| nd_inst := i; nd_run := None |} =>
          if startableb op then with_nodes w (<[me := {| nd_inst := i; nd_run := Some (op, op_prog shard op i) |}]> (w_nodes w)) else w
      | _ => w end
  | ACall me o => match w_nodes w !! me with
      | Some {| nd_inst := i; nd_run := Some (op, Call c k) |} =>
          {| w_shared := (exec shard me c o (w_shared w)).2;
             w_nodes := <[me := {| nd_inst := i; nd_run := Some (op, k (exec shard me c o (w_shared w)).1) |}]> (w_nodes w); w_acks := w_acks w |}
      | _ => w end
  | AFinish me => match w_nodes w !! me with
      | Some {| nd_inst := _; nd_run := Some (op, Done (i', r)) |} =>
          {| w_shared := w_shared w;
             w_nodes := match op, r with OpOpen, Err _ | OpAcquire _ _ _, Err _ => delete me (w_nodes w) | _, _ => <[me := {| nd_inst := i'; nd_run := None |}]> (w_nodes w) end;
             w_acks := w_acks w ++ acked op r |}
      | _ => w end
  | ACrash me => with_nodes w (delete me (w_nodes w))
  end.
(** The faults of what happens next. *)
Definition act_faults (a : action) (w : world) : list fault :=
  match a with
  | AStart me op => match w_nodes w !! me with
      | Some {| nd_inst := i; nd_run := None |} => if startableb op then start_faults op i else []
      | _ => [] end
  | ACall me o => match w_nodes w !! me with
      | Some {| nd_inst := _; nd_run := Some (_, Call c _) |} => call_faults c o
      | _ => [] end
  | _ => []
  end.
Definition do_act (x : list fault * world) (a : action) : list fault * world := (x.1 ++ act_faults a x.2, act a x.2).
Definition driven (acts : list action) : list fault * world := fold_left do_act acts ([], init_world).
Definition drive (acts : list action) : world := (driven acts).2.
Lemma act_step a w : sstep shard w (act_faults a w) (act a w) ∨ act_faults a w = [] ∧ act a w = w.
Proof.
  destruct a as [me|me op|me o|me|me]; cbn [act act_faults].
  - destruct (w_nodes w !! me) eqn:E; [by right|]. left. by apply s_spawn.
  - destruct (w_nodes w !! me) as [[i [r|]]|] eqn:E; [by right| |by right]. destruct (startableb op) eqn:Es; [|by right]. left. apply s_start; [done|by apply startableb_ok].
  - destruct (w_nodes w !! me) as [[i [[op [x|c k]]|]]|] eqn:E; try by right. left. eapply s_call; [exact E|]. by destruct (exec shard me c o (w_shared w)).
  - destruct (w_nodes w !! me) as [[i [[op [[i' r]|c k]]|]]|] eqn:E; try by right. left. by apply (s_finish shard w me i).
  - left. apply s_crash.
Qed.
Lemma driven_run acts : run shard (driven acts).1 (driven acts).2.
Proof.
  unfold driven. assert (H : run shard ([] : list fault, init_world).1 ([] : list fault, init_world).2) by constructor. revert H.
  generalize ([] : list fault, init_world) as x. induction acts as [|a acts IH]; intros x H; [done|]. cbn [fold_left]. apply IH. cbn.
  destruct (act_step a x.2) as [Hs|[-> ->]]; [by eapply run_step|]. by rewrite app_nil_r.
Qed.
Lemma drive_reachable acts : reachable shard (drive acts).
Proof. eexists. apply driven_run. Qed.
Lemma replay_sound acts : (driven acts).1 = [] → sound_run shard (drive acts).
Proof. intros E. exists (driven acts).1. split; [apply driven_run|]. rewrite E. split_and!; apply not_elem_of_nil. Qed.
(** One operation, its calls answered as given, then normally *)
Definition calls (me : nat) (outs : list outcome) : list action := List.map (ACall me) (outs ++ repeat Answered 24) ++ [AFinish me].
Definition spawn (me : nat) : list action := ASpawn me :: calls me [].
Definition run_op (me : nat) (op : opcall) (outs : list outcome) : list action := AStart me op :: calls me outs.
End Drive.

(** ** A deployment of two processes *)
Definition sh0 : jsstr := js "0".
Definition doc (n : Z) : InternalDocumentId := {| tableNumber := 7; internalId := [n; 1] |}.
Definition put_doc (n : Z) (text : string) : CommitUnit :=
  {| cu_documents := [{| le_ts := 0; le_id := doc n; le_value := Some {| rd_id := doc n; rd_value := VObj [(js "v", VStr (js text))] |}; le_prev_ts := None |}];
     cu_indexUpdates := [{| iw_ts := 0; iw_update := {| iu_indexId := js "7/by_v"; iu_key := [n]; iu_value := NonClustered (doc n) |} |}]; cu_meta := None |}.
Definition del_doc (n ts : Z) : CommitUnit :=
  {| cu_documents := [{| le_ts := 0; le_id := doc n; le_value := None; le_prev_ts := Some ts |}];
     cu_indexUpdates := [{| iw_ts := 0; iw_update := {| iu_indexId := js "7/by_v"; iu_key := [n]; iu_value := Deleted |} |}]; cu_meta := None |}.
Definition commit_op (units : list CommitUnit) : opcall := OpCommit units None.
Definition lost : outcome := AnswerLost (PlainError "network").
(** The first process commits, stalls between its upload and its manifest write; the second takes over, deletes a document, snapshots, reclaims and
    commits again; the first resumes and is fenced. *)
Definition takeover : list action :=
  spawn 0 ++ run_op 0 (OpAcquire (js "a") 10 0) [] ++ run_op 0 (commit_op [put_doc 1 "one"; put_doc 2 "two"]) [] ++
  [AStart 0 (commit_op [put_doc 3 "stalled"]); ACall 0 Answered] ++
  spawn 1 ++ run_op 1 (OpAcquire (js "b") 10 20) [] ++ run_op 1 (commit_op [del_doc 1 1]) [] ++ run_op 1 OpSnapshot [] ++ run_op 1 OpGc [] ++
  run_op 1 (commit_op [put_doc 4 "four"]) [] ++ run_op 1 (OpHeartbeat 25 10) [lost] ++ calls 0 [].
Definition takeover_world : world := drive sh0 takeover.
Example takeover_acks : w_acks takeover_world = [([put_doc 1 "one"; put_doc 2 "two"], [1; 2]); ([del_doc 1 1], [3]); ([put_doc 4 "four"], [4])].
Proof. vm_compute. reflexivity. Qed.
Example takeover_manifest : let m := cur sh0 (w_shared takeover_world) in
  (m_epoch m, m_frontierTs m, m_segments m, m_nextSeqno m, m_snapshotTs m, m_snapshotSegBase m) = (2, 4, [3], 4, Some 3, Some 2) ∧
  (g_hist (w_shared takeover_world)).*1 = [0; 2; 3].
Proof. vm_compute. done. Qed.

(** ** Instances of the promises *)
Lemma acknowledged_commits_durable_witness :
  sound_run sh0 takeover_world ∧ ([put_doc 4 "four"], [4]) ∈ w_acks takeover_world ∧
  ∃ floor n, let batch := encodeSegment (batch_payload (stamp_units [put_doc 4 "four"] floor)) in
    [4] = List.map snd (stamp_units [put_doc 4 "four"] floor) ∧ (n, batch) ∈ g_hist (w_shared takeover_world) ∧
    ((n ∈ m_segments (cur sh0 (w_shared takeover_world)) ∧ seg sh0 (w_shared takeover_world) n = Some (BSegment batch)) ∨
     ∃ b ts x, m_snapshotSegBase (cur sh0 (w_shared takeover_world)) = Some b ∧ n ≤ b ∧ m_snapshotTs (cur sh0 (w_shared takeover_world)) = Some ts ∧
       snap sh0 (w_shared takeover_world) ts = Some x).
Proof.
  assert (sound_run sh0 takeover_world) as Hr by (apply replay_sound; vm_compute; reflexivity).
  assert (([put_doc 4 "four"], [4]) ∈ w_acks takeover_world) as Ha by (rewrite takeover_acks; apply elem_of_cons; right; apply elem_of_cons; right; by left).
  split; [exact Hr|]. split; [exact Ha|]. exact (acknowledged_commits_durable sh0 takeover_world _ _ Hr Ha).
Defined.
(** The texts an opened store shows of the demonstration's documents *)
Definition text_at (d : db) (n : Z) : option jsstr :=
  match get d (doc n) None with Ok (Some ld) => match rd_value (ld_value ld) with VObj [(_, VStr s)] => Some s | _ => None end | _ => None end.
Definition opened (b : bucket) : db := i_local (run_prog b (open sh0 blank_inst)).2.1.
Definition instance_at (w : world) (me : nat) : Inst := match w_nodes w !! me with Some nd => nd_inst nd | None => blank_inst end.
Lemma local_store_serves_log_witness : let i := instance_at takeover_world 0 in
  sound_run sh0 takeover_world ∧ w_nodes takeover_world !! 0%nat = Some {| nd_inst := i; nd_run := None |} ∧ i_nextSeqno i = 1 ∧
  ∃ d, replay_log empty_db (below (i_nextSeqno i) (g_hist (w_shared takeover_world))) = Ok d ∧ ∀ id, get (i_local i) id None = get d id None.
Proof.
  intros i. assert (sound_run sh0 takeover_world) as Hr by (apply replay_sound; vm_compute; reflexivity).
  assert (w_nodes takeover_world !! 0%nat = Some {| nd_inst := i; nd_run := None |}) as Hn by (vm_compute; reflexivity).
  split; [exact Hr|]. split; [exact Hn|]. split; [vm_compute; reflexivity|]. exact (local_store_serves_log sh0 takeover_world 0 i Hr Hn).
Defined.
Lemma log_totally_ordered_witness : sound_run sh0 takeover_world ∧ (g_hist (w_shared takeover_world)).*1 = [0; 2; 3] ∧
  (∀ h1 x h2 y, g_hist (w_shared takeover_world) = h1 ++ x :: h2 → y ∈ h1 →
     y.1 < x.1 ∧ ∀ r r', r ∈ seg_rows x.2 → r' ∈ seg_rows y.2 → l_ts r' < l_ts r).
Proof.
  assert (sound_run sh0 takeover_world) as Hr by (apply replay_sound; vm_compute; reflexivity). split; [exact Hr|]. split; [vm_compute; reflexivity|].
  exact (proj1 (log_totally_ordered sh0 takeover_world Hr)).
Defined.

(** ** Outside the assumptions *)

(** An upload that lands although it throws: [commitWriteBatch] calls [putImmutable] outside its [try], so the instance keeps its cursor and goes on;
    the next batch reuses the segment number, its bytes are dropped by the keep-first write, its manifest write succeeds, and it is acknowledged. The
    bucket holds the first, failed batch in its place. *)
Definition lossy_run : list action :=
  spawn 0 ++ run_op 0 (OpAcquire (js "a") 10 0) [] ++ run_op 0 (commit_op [put_doc 1 "failed"]) [lost] ++ run_op 0 (commit_op [put_doc 2 "acknowledged"]) [].
Definition lossy_world : world := drive sh0 lossy_run.
Theorem lost_upload_swallows_commit : run sh0 [LostUpload] lossy_world ∧ w_acks lossy_world = [([put_doc 2 "acknowledged"], [1])] ∧
  List.map (text_at (opened (g_bucket (w_shared lossy_world)))) [1; 2] = [Some (js "failed"); None].
Proof. split; [assert ((driven sh0 lossy_run).1 = [LostUpload]) as <- by (vm_compute; reflexivity); apply driven_run|]. vm_compute. done. Qed.

(** [acquire] on an instance that still holds a lease it lost without noticing: losing the claim's race it has already moved its cursor to the live
    owner's, unpoisoned and with its old lease, so its next commit uploads at the owner's next segment number before its manifest write is refused; the
    owner's own commit is then dropped by the keep-first write and acknowledged. *)
Definition eager_run : list action :=
  spawn 0 ++ run_op 0 (OpAcquire (js "a") 10 0) [] ++ spawn 1 ++ run_op 1 (OpAcquire (js "b") 10 20) [] ++
  [AStart 0 (OpAcquire (js "a") 10 40); ACall 0 Answered] ++ run_op 1 (OpHeartbeat 41 10) [] ++ calls 0 [] ++
  run_op 0 (commit_op [put_doc 1 "fenced"]) [] ++ run_op 1 (commit_op [put_doc 2 "acknowledged"]) [].
Definition eager_world : world := drive sh0 eager_run.
Theorem eager_acquire_swallows_commit : run sh0 [EagerAcquire] eager_world ∧ w_acks eager_world = [([put_doc 2 "acknowledged"], [1])] ∧
  List.map (text_at (opened (g_bucket (w_shared eager_world)))) [1; 2] = [Some (js "fenced"); None].
Proof. split; [assert ((driven sh0 eager_run).1 = [EagerAcquire]) as <- by (vm_compute; reflexivity); apply driven_run|]. vm_compute. done. Qed.

(** The filesystem adapter's [putImmutable] reads and then writes without the key's mutex: of two racing uploads the later write wins. *)
Definition fs_put_write (existing : option body) (b : bucket) (key : jsstr) (x : body) : bucket :=
  match existing with Some _ => b | None => jm_set b key x end.
Theorem fs_put_not_keep_first : let k := segmentKey sh0 0 in let r1 := os_get [] k in let r2 := os_get [] k in
  let b1 := fs_put_write r1 [] k (BWatermark 1) in let b2 := fs_put_write r2 b1 k (BWatermark 2) in
  os_get b1 k = Some (BWatermark 1) ∧ os_get b2 k = Some (BWatermark 2).
Proof. vm_compute. done. Qed.
