(* ===== verification/Scheduler.v ===== *)
(** The scheduler component ([components/scheduler/src]): the [jobs], [job_args] and [crons] tables, the [ctx.scheduler] facade
    ([facade.ts]), the internal modules a driver calls ([modules.ts], [backoff.ts]) and the cron registry ([crons.ts]). Each function here is the
    body of one mutation (or a call inside one): it reads and writes the tables of its transaction at that transaction's fixed clock. Times are
    integral milliseconds, JSON payloads are values, the objects the scheduler itself passes as arguments are constructors of [JobArgs]. *)
From stdpp Require Import gmap.
From S2P Require Import Prelude Values Json.

(** ** Tables ([schema.ts]) *)
Inductive JobState := JPending | JInProgress | JSuccess | JFailed | JCanceled.
Inductive JobKind := KMutation | KAction.
#[global] Instance JobState_eq_dec : EqDecision JobState.
Proof. solve_decision. Defined.
#[global] Instance JobKind_eq_dec : EqDecision JobKind.
Proof. solve_decision. Defined.

(** [OnCompleteResult] *)
Inductive OnCompleteResult := OSuccess (v : json) | OFailed (error : jsstr) | OCanceled.
(** What a job is called with: an application's JSON, the arguments of [_cronTick], of an [onComplete] callback, of the workflow component's
    modules ([{workflowId}], the step reference they pass as [context]), of a compensation, of a workflow's own callback *)
Inductive JobArgs :=
  | AValue (v : json)
  | ACron (cronName : jsstr) (jobId : option jsstr)
  | ACompletion (jobId : jsstr) (context : option JobArgs) (result : OnCompleteResult)
  | AWorkflow (workflowId : jsstr)
  | AStep (workflowId : jsstr) (stepNumber : Z) (generationNumber : Z)
  | AUndo (args : json) (result : option json)
  | AWorkflowDone (workflowId : jsstr) (context : option json) (result : OnCompleteResult).

Record Job := {
  job_fnPath : jsstr; job_kind : JobKind; job_state : JobState; job_nextTs : Z; job_attempts : Z; job_maxFailures : Z;
  job_leaseHolder : option jsstr; job_leaseExpiresAt : option Z; job_idempotencyKey : option jsstr; job_appVersion : option jsstr;
  job_name : option jsstr; job_hasArgs : bool; job_onComplete : option jsstr; job_parentId : option jsstr; job_completedTs : option Z;
  job_lastError : option jsstr }.
Record ArgsRow := { ar_id : jsstr; ar_jobId : jsstr; ar_args : JobArgs; ar_context : option JobArgs }.

(** [CronSpec], [CatchUpPolicy]; a [crons] row, its [spec] the value its JSON text spells *)
Inductive CronSpec := SInterval (ms : Z) | SCron (expr : jsstr).
Inductive CatchUpPolicy := Skip | FireOnce | FireAll.
#[global] Instance CronSpec_eq_dec : EqDecision CronSpec.
Proof. solve_decision. Defined.
#[global] Instance CatchUpPolicy_eq_dec : EqDecision CatchUpPolicy.
Proof. solve_decision. Defined.
Record CronRow := {
  cr_id : jsstr; cr_name : jsstr; cr_spec : CronSpec; cr_tz : jsstr; cr_catchUp : CatchUpPolicy; cr_lastScheduledTs : option Z;
  cr_workFnPath : jsstr; cr_workArgs : json; cr_cadenceJobId : option jsstr }.

(** The tables; [crons] in creation order. Document ids are drawn one after the other from a supply. *)
Record Sched := { s_jobs : gmap jsstr Job; s_args : list ArgsRow; s_crons : list CronRow; s_minted : nat }.
Definition empty_sched : Sched := {| s_jobs := ∅; s_args := []; s_crons := []; s_minted := 0 |}.
Definition with_jobs (d : Sched) (js : gmap jsstr Job) : Sched :=
  {| s_jobs := js; s_args := s_args d; s_crons := s_crons d; s_minted := s_minted d |}.
Definition put_job (id : jsstr) (j : Job) (d : Sched) : Sched := with_jobs d (<[id := j]> (s_jobs d)).
Definition with_args (d : Sched) (rows : list ArgsRow) : Sched :=
  {| s_jobs := s_jobs d; s_args := rows; s_crons := s_crons d; s_minted := s_minted d |}.
Definition with_crons (d : Sched) (rows : list CronRow) : Sched :=
  {| s_jobs := s_jobs d; s_args := s_args d; s_crons := rows; s_minted := s_minted d |}.

(** A scan of an index of [jobs]: the rows that match, in the order of the index, ids breaking ties *)
Definition by_id (a b : jsstr * Job) : comparison := lexcmp Z.compare a.1 b.1.
Definition by_next_ts (a b : jsstr * Job) : comparison :=
  match job_nextTs a.2 ?= job_nextTs b.2 with Eq => by_id a b | c => c end.
Definition scan_jobs (order : jsstr * Job → jsstr * Job → comparison) (P : Job → bool) (d : Sched) : list (jsstr * Job) :=
  sort_by order (List.filter (λ p, P p.2) (map_to_list (s_jobs d))).
Definition args_of (jobId : jsstr) (d : Sched) : option ArgsRow := List.find (λ r, bool_decide (ar_jobId r = jobId)) (s_args d).

(** ** [facade.ts] *)
Record EnqueueOpts := {
  eo_runAfter : option Z; eo_runAt : option Z; eo_maxFailures : option Z; eo_name : option jsstr; eo_onComplete : option jsstr;
  eo_context : option JobArgs; eo_idempotencyKey : option jsstr }.
Definition no_opts : EnqueueOpts :=
  {| eo_runAfter := None; eo_runAt := None; eo_maxFailures := None; eo_name := None; eo_onComplete := None; eo_context := None; eo_idempotencyKey := None |}.
Definition at_time (ts : Z) (o : EnqueueOpts) : EnqueueOpts :=
  {| eo_runAfter := eo_runAfter o; eo_runAt := Some ts; eo_maxFailures := eo_maxFailures o; eo_name := eo_name o; eo_onComplete := eo_onComplete o;
     eo_context := eo_context o; eo_idempotencyKey := eo_idempotencyKey o |}.
(** The stubs of [facade.ts] *)
Definition currentAppVersion : option jsstr := None.
Definition currentJobId : option jsstr := None.

Definition is_state (s : JobState) (j : Job) : bool := bool_decide (job_state j = s).

Section Scheduler.
(** The ids documents get, the registered kind of a function path, and [cron-parser]: the next and the previous time an expression matches in a time
    zone, strictly after and strictly before a date *)
Context (newId : nat → jsstr) (functionKind : jsstr → option JobKind).
Context (parseNext parsePrev : jsstr → jsstr → Z → res Z).

Definition by_idempotency (key : jsstr) (d : Sched) : option (jsstr * Job) :=
  List.head (scan_jobs by_id (λ j, bool_decide (job_idempotencyKey j = Some key)) d).
Definition enqueueInternal (kindOf : jsstr → JobKind) (now : Z) (fnPath : jsstr) (args : JobArgs) (opts : EnqueueOpts) (d : Sched) : jsstr * Sched :=
  match eo_idempotencyKey opts ≫= (λ key, by_idempotency key d) with
  | Some found => (found.1, d)
  | None =>
      let parentId := currentJobId in
      let parentCanceled := match parentId ≫= (λ p, s_jobs d !! p) with Some p => is_state JCanceled p | None => false end in
      let kind := kindOf fnPath in
      let nextTs := match eo_runAt opts with Some ts => ts | None => match eo_runAfter opts with Some ms => now + Z.max 0 ms | None => now end end in
      let jobId := newId (s_minted d) in
      let job := {| job_fnPath := fnPath; job_kind := kind; job_state := if parentCanceled then JCanceled else JPending; job_nextTs := nextTs;
                    job_attempts := 0; job_maxFailures := default (if decide (kind = KAction) then 1 else 4) (eo_maxFailures opts);
                    job_leaseHolder := None; job_leaseExpiresAt := None; job_idempotencyKey := eo_idempotencyKey opts;
                    job_appVersion := currentAppVersion; job_name := eo_name opts; job_hasArgs := true; job_onComplete := eo_onComplete opts;
                    job_parentId := parentId; job_completedTs := if parentCanceled then Some now else None; job_lastError := None |} in
      let row := {| ar_id := newId (S (s_minted d)); ar_jobId := jobId; ar_args := args; ar_context := eo_context opts |} in
      (jobId, {| s_jobs := <[jobId := job]> (s_jobs d); s_args := s_args d ++ [row]; s_crons := s_crons d; s_minted := S (S (s_minted d)) |})
  end.
(** [kindOf]'s default, and the one [schedulerContext] passes *)
Definition always_mutation (_ : jsstr) : JobKind := KMutation.
Definition kindOf (fnPath : jsstr) : JobKind := if decide (functionKind fnPath = Some KAction) then KAction else KMutation.

Definition fireOnComplete (now : Z) (jobId : jsstr) (onComplete : option jsstr) (result : OnCompleteResult) (d : Sched) : Sched :=
  match onComplete with
  | None => d
  | Some fn => (enqueueInternal always_mutation now fn (ACompletion jobId (args_of jobId d ≫= ar_context) result) (at_time now no_opts) d).2
  end.

(** [schedulerContext] *)
Definition runAfter (now delayMs : Z) (fnPath : jsstr) (args : JobArgs) (d : Sched) : jsstr * Sched :=
  enqueueInternal kindOf now fnPath args (at_time (now + Z.max 0 delayMs) no_opts) d.
Definition runAt (now ts : Z) (fnPath : jsstr) (args : JobArgs) (d : Sched) : jsstr * Sched :=
  enqueueInternal kindOf now fnPath args (at_time ts no_opts) d.
Definition enqueue (now : Z) (fnPath : jsstr) (args : JobArgs) (opts : EnqueueOpts) (d : Sched) : jsstr * Sched :=
  enqueueInternal kindOf now fnPath args opts d.
Definition canceled (now : Z) (j : Job) : Job :=
  {| job_fnPath := job_fnPath j; job_kind := job_kind j; job_state := JCanceled; job_nextTs := job_nextTs j; job_attempts := job_attempts j;
     job_maxFailures := job_maxFailures j; job_leaseHolder := job_leaseHolder j; job_leaseExpiresAt := job_leaseExpiresAt j;
     job_idempotencyKey := job_idempotencyKey j; job_appVersion := job_appVersion j; job_name := job_name j; job_hasArgs := job_hasArgs j;
     job_onComplete := job_onComplete j; job_parentId := job_parentId j; job_completedTs := Some now; job_lastError := job_lastError j |}.
Definition cancel_one (now : Z) (id : jsstr) (j : Job) (d : Sched) : Sched :=
  if is_state JPending j then fireOnComplete now id (job_onComplete j) OCanceled (put_job id (canceled now j) d) else d.
(** The breadth-first walk: one turn of its [while] loop, which does nothing once the queue is empty *)
Definition cancel_child (now : Z) (w : list jsstr * list jsstr * Sched) (child : jsstr * Job) : list jsstr * list jsstr * Sched :=
  let '(queue, seen, d) := w in
  if bool_decide (child.1 ∈ seen) then w else (queue ++ [child.1], seen ++ [child.1], cancel_one now child.1 child.2 d).
Definition cancel_turn (now : Z) (w : list jsstr * list jsstr * Sched) : list jsstr * list jsstr * Sched :=
  let '(queue, seen, d) := w in
  match queue with
  | [] => w
  | parentId :: rest =>
      fold_left (cancel_child now) (scan_jobs by_id (λ j, bool_decide (job_parentId j = Some parentId)) d) (rest, seen, d)
  end.
Definition cancel_walk (turns : nat) (now : Z) (id : jsstr) (d : Sched) : list jsstr * list jsstr * Sched :=
  Nat.iter turns (cancel_turn now) ([id], [id], d).
Definition cancel (now : Z) (id : jsstr) (d : Sched) : Sched :=
  let d := match s_jobs d !! id with Some job => cancel_one now id job d | None => d end in
  (cancel_walk (S (size (s_jobs d))) now id d).2.

(** ** [modules.ts] *)
Definition BATCH_CAP : nat := 64.
Definition CATCHUP_CAP : nat := 1000.
Definition LEASE_MS : Z := 30000.
Definition SWEEP_MS : Z := 30000.
Definition driver_name : jsstr := js "driver".
Definition lease_expired : jsstr := js "lease expired: driver did not complete the job before its lease deadline (infra kill)".

(** [computeBackoff]: [Math.round(250 * 2 ** (attempts + 1) * (0.5 + 0.5 * rng()))] with [rng()] the [r]-th multiple of [2^-32]; the double is exact
    while it is finite *)
Definition computeBackoff (attempts r : Z) : Z := (250 * 2 ^ (attempts + 1) * (2 ^ 32 + r) + 2 ^ 32) / 2 ^ 33.

Definition _peekDue (now : Z) (d : Sched) : list (jsstr * Job) * option Z :=
  let due := take BATCH_CAP (scan_jobs by_next_ts (λ j, is_state JPending j && (job_nextTs j <=? now)) d) in
  let future := take 1 (scan_jobs by_next_ts (λ j, is_state JPending j && (now <? job_nextTs j)) d) in
  (due, (λ p, job_nextTs p.2) <$> List.head future).

Record ClaimResult := { cl_jobId : jsstr; cl_fnPath : jsstr; cl_kind : JobKind; cl_args : JobArgs; cl_context : option JobArgs; cl_onComplete : option jsstr }.
(** [{...job, state, attempts, nextTs, completedTs, lastError, leaseHolder, leaseExpiresAt}] *)
Definition with_state (st : JobState) (attempts nextTs : Z) (completedTs : option Z) (lastError leaseHolder : option jsstr) (leaseExpiresAt : option Z) (j : Job) : Job :=
  {| job_fnPath := job_fnPath j; job_kind := job_kind j; job_state := st; job_nextTs := nextTs; job_attempts := attempts;
     job_maxFailures := job_maxFailures j; job_leaseHolder := leaseHolder; job_leaseExpiresAt := leaseExpiresAt;
     job_idempotencyKey := job_idempotencyKey j; job_appVersion := job_appVersion j; job_name := job_name j; job_hasArgs := job_hasArgs j;
     job_onComplete := job_onComplete j; job_parentId := job_parentId j; job_completedTs := completedTs; job_lastError := lastError |}.
Definition claimed (now : Z) (j : Job) : Job :=
  with_state JInProgress (job_attempts j) (job_nextTs j) (job_completedTs j) (job_lastError j) (Some driver_name) (Some (now + LEASE_MS)) j.
Definition succeeded (now : Z) (j : Job) : Job :=
  with_state JSuccess (job_attempts j) (job_nextTs j) (Some now) (job_lastError j) None None j.
Definition dead_lettered (now attempts : Z) (error : jsstr) (j : Job) : Job :=
  with_state JFailed attempts (job_nextTs j) (Some now) (Some error) None None j.
Definition retried (nextTs attempts : Z) (error : jsstr) (j : Job) : Job :=
  with_state JPending attempts nextTs (job_completedTs j) (Some error) None None j.

Definition _claim (now : Z) (jobId : jsstr) (d : Sched) : option ClaimResult * Sched :=
  match s_jobs d !! jobId with
  | None => (None, d)
  | Some job =>
      if negb (is_state JPending job) then (None, d)
      else
        let argRow := args_of jobId d in
        (Some {| cl_jobId := jobId; cl_fnPath := job_fnPath job; cl_kind := job_kind job; cl_args := default (AValue JNull) (ar_args <$> argRow);
                 cl_context := argRow ≫= ar_context; cl_onComplete := job_onComplete job |},
         put_job jobId (claimed now job) d)
  end.

(** [JobResult]; the driver turns a function that returned [undefined] into [null] *)
Inductive JobResult := RSuccess (v : json) | RFailed (error : jsstr) (retryable : option bool).
Definition _complete (now r : Z) (jobId : jsstr) (result : JobResult) (d : Sched) : Sched :=
  match s_jobs d !! jobId with
  | None => d
  | Some job =>
      if negb (is_state JInProgress job) then d
      else
        match result with
        | RSuccess v => fireOnComplete now jobId (job_onComplete job) (OSuccess v) (put_job jobId (succeeded now job) d)
        | RFailed error retryable =>
            let attempts := job_attempts job + 1 in
            if (job_maxFailures job <=? attempts) || negb (default true retryable) then
              fireOnComplete now jobId (job_onComplete job) (OFailed error) (put_job jobId (dead_lettered now attempts error job) d)
            else put_job jobId (retried (now + computeBackoff attempts r) attempts error job) d
        end
  end.

Definition reclaim_one (now : Z) (d : Sched) (p : jsstr * Job) : Sched :=
  let '(jobId, job) := p in
  let attempts := job_attempts job + 1 in
  if bool_decide (job_kind job = KMutation) && (attempts <? job_maxFailures job) then put_job jobId (retried now attempts lease_expired job) d
  else fireOnComplete now jobId (job_onComplete job) (OFailed lease_expired) (put_job jobId (dead_lettered now attempts lease_expired job) d).
(** A missing [leaseExpiresAt] sorts below every number *)
Definition lease_before (now : Z) (j : Job) : bool := match job_leaseExpiresAt j with Some t => t <? now | None => true end.
Definition expired_jobs (now : Z) (d : Sched) : list (jsstr * Job) :=
  take BATCH_CAP (scan_jobs by_next_ts (λ j, is_state JInProgress j && lease_before now j) d).
Definition _reclaim (now : Z) (d : Sched) : Z * Sched :=
  let expired := expired_jobs now d in (Z.of_nat (length expired), fold_left (reclaim_one now) expired d).

(** The mutations behind the action facade *)
Definition _enqueue (now : Z) (fnPath : jsstr) (args : JobArgs) (runAtMs : Z) (d : Sched) : jsstr * Sched := runAt now runAtMs fnPath args d.
Definition _cancel (now : Z) (id : jsstr) (d : Sched) : Sched := cancel now id d.

(** ** [crons.ts] *)
Record CronRegistryEntry := { ce_name : jsstr; ce_spec : CronSpec; ce_tz : jsstr; ce_catchUp : CatchUpPolicy; ce_workFnPath : jsstr; ce_workArgs : json }.
Record IntervalPeriod := { ip_seconds : option Z; ip_minutes : option Z; ip_hours : option Z }.
Record CronOpts := { co_tz : option jsstr; co_catchUp : option CatchUpPolicy }.
Definition UTC : jsstr := js "UTC".
Definition register (name : jsstr) (spec : CronSpec) (opts : CronOpts) (fnPath : jsstr) (args : json) (entries : list CronRegistryEntry) : res (list CronRegistryEntry) :=
  if existsb (λ e, bool_decide (ce_name e = name)) entries then Err (PlainError "cron identifiers must be unique")
  else Ok (entries ++ [{| ce_name := name; ce_spec := spec; ce_tz := default UTC (co_tz opts); ce_catchUp := default Skip (co_catchUp opts);
                          ce_workFnPath := fnPath; ce_workArgs := args |}]).
Definition interval (name : jsstr) (p : IntervalPeriod) (fnPath : jsstr) (args : json) (opts : CronOpts) (entries : list CronRegistryEntry) : res (list CronRegistryEntry) :=
  let ms := default 0 (ip_seconds p) * 1000 + default 0 (ip_minutes p) * 60000 + default 0 (ip_hours p) * 3600000 in
  if ms <=? 0 then Err (PlainError "interval must resolve to a positive duration") else register name (SInterval ms) opts fnPath args entries.
Definition cron (name expr fnPath : jsstr) (args : json) (opts : CronOpts) (entries : list CronRegistryEntry) : res (list CronRegistryEntry) :=
  register name (SCron expr) opts fnPath args entries.
Definition utc_opts (catchUp : option CatchUpPolicy) : CronOpts := {| co_tz := Some UTC; co_catchUp := catchUp |}.
Definition daily (name : jsstr) (hourUTC minuteUTC : Z) (fnPath : jsstr) (args : json) (catchUp : option CatchUpPolicy) (entries : list CronRegistryEntry) :=
  register name (SCron (string_of_int minuteUTC ++ js " " ++ string_of_int hourUTC ++ js " * * *")) (utc_opts catchUp) fnPath args entries.
Definition hourly (name : jsstr) (minuteUTC : Z) (fnPath : jsstr) (args : json) (catchUp : option CatchUpPolicy) (entries : list CronRegistryEntry) :=
  register name (SCron (string_of_int minuteUTC ++ js " * * * *")) (utc_opts catchUp) fnPath args entries.
(** [dayOfWeek] as its number in [DAY_NUMBERS] *)
Definition weekly (name : jsstr) (dayOfWeek hourUTC minuteUTC : Z) (fnPath : jsstr) (args : json) (catchUp : option CatchUpPolicy) (entries : list CronRegistryEntry) :=
  register name (SCron (string_of_int minuteUTC ++ js " " ++ string_of_int hourUTC ++ js " * * " ++ string_of_int dayOfWeek)) (utc_opts catchUp) fnPath args entries.
Definition monthly (name : jsstr) (day hourUTC minuteUTC : Z) (fnPath : jsstr) (args : json) (catchUp : option CatchUpPolicy) (entries : list CronRegistryEntry) :=
  register name (SCron (string_of_int minuteUTC ++ js " " ++ string_of_int hourUTC ++ js " " ++ string_of_int day ++ js " * *")) (utc_opts catchUp) fnPath args entries.

Definition computeNextRun (spec : CronSpec) (tz : jsstr) (afterTs : Z) : res Z :=
  match spec with SInterval ms => Ok (afterTs + ms) | SCron expr => parseNext expr tz afterTs end.
Definition computePrevRun (spec : CronSpec) (tz : jsstr) (atOrBeforeTs : Z) : res Z :=
  match spec with SInterval _ => Err (PlainError "interval specs are anchor-relative") | SCron expr => parsePrev expr tz (atOrBeforeTs + 1) end.

Definition _cronTick_path : jsstr := js "scheduler:_cronTick".
Definition patch_args (jobId : jsstr) (args : JobArgs) (d : Sched) : Sched :=
  match args_of jobId d with
  | None => d
  | Some row => with_args d (List.map (λ r, if bool_decide (ar_id r = ar_id row)
                  then {| ar_id := ar_id r; ar_jobId := ar_jobId row; ar_args := args; ar_context := ar_context row |} else r) (s_args d))
  end.
Definition cadence_opts (cronName : jsstr) (ts : Z) : EnqueueOpts :=
  {| eo_runAfter := None; eo_runAt := Some ts; eo_maxFailures := None; eo_name := Some cronName; eo_onComplete := None; eo_context := None;
     eo_idempotencyKey := None |}.
Definition enqueueCadenceJob (now : Z) (cronName : jsstr) (ts : Z) (d : Sched) : jsstr * Sched :=
  let '(jobId, d) := enqueueInternal always_mutation now _cronTick_path (ACron cronName None) (cadence_opts cronName ts) d in
  (jobId, patch_args jobId (ACron cronName (Some jobId)) d).

(** The occurrences of a tick: what to fire, the cadence's next time, the new anchor *)
Definition interval_due (period : Z) (catchUp : CatchUpPolicy) (anchor now : Z) : list Z * Z * Z :=
  let elapsed := now - anchor in
  let n := if 0 <=? elapsed then elapsed / period else 0 in
  if n =? 0 then ([], anchor + period, anchor)
  else if n =? 1 then ([anchor + period], anchor + period + period, anchor + period)
  else
    let lastOccurrence := anchor + n * period in
    let toFire := match catchUp with
                  | FireAll => List.map (λ i, anchor + (Z.of_nat i + 1) * period) (seq 0 (Z.to_nat (Z.min n (Z.of_nat CATCHUP_CAP))))
                  | FireOnce => [lastOccurrence]
                  | Skip => [] end in
    (toFire, lastOccurrence + period, lastOccurrence).
(** The loop of ["fireAll"] over an expression: at most [room] more occurrences *)
Fixpoint materialize (spec : CronSpec) (tz : jsstr) (now : Z) (room : nat) (cursor : Z) : res (list Z) :=
  if cursor <=? now then
    match room with
    | O => Ok []
    | S room => let! next := computeNextRun spec tz cursor in let! rest := materialize spec tz now room next in Ok (cursor :: rest)
    end
  else Ok [].
Definition cron_due (spec : CronSpec) (tz : jsstr) (catchUp : CatchUpPolicy) (anchor now : Z) : res (list Z * Z * Z) :=
  let! firstAfterAnchor := computeNextRun spec tz anchor in
  if now <? firstAfterAnchor then Ok ([], firstAfterAnchor, anchor)
  else
    let! secondAfterAnchor := computeNextRun spec tz firstAfterAnchor in
    if now <? secondAfterAnchor then Ok ([firstAfterAnchor], secondAfterAnchor, firstAfterAnchor)
    else
      let! next := computeNextRun spec tz now in
      let! lastOccurrence := computePrevRun spec tz now in
      match catchUp with
      | FireAll => let! toFire := materialize spec tz now CATCHUP_CAP firstAfterAnchor in Ok (toFire, next, lastOccurrence)
      | FireOnce => Ok ([lastOccurrence], next, lastOccurrence)
      | Skip => Ok ([], next, lastOccurrence)
      end.
Definition due_occurrences (spec : CronSpec) (tz : jsstr) (catchUp : CatchUpPolicy) (anchor now : Z) : res (list Z * Z * Z) :=
  match spec with SInterval period => Ok (interval_due period catchUp anchor now) | SCron _ => cron_due spec tz catchUp anchor now end.

Definition occurrence_key (cronName : jsstr) (fireTs : Z) : jsstr := cronName ++ js ":" ++ string_of_int fireTs.
Definition work_opts (cronName : jsstr) (fireTs : Z) : EnqueueOpts :=
  {| eo_runAfter := None; eo_runAt := Some fireTs; eo_maxFailures := None; eo_name := Some cronName; eo_onComplete := None; eo_context := None;
     eo_idempotencyKey := Some (occurrence_key cronName fireTs) |}.
Definition fire_work (now : Z) (c : CronRow) (d : Sched) (fireTs : Z) : Sched :=
  (enqueue now (cr_workFnPath c) (AValue (cr_workArgs c)) (work_opts (cr_name c) fireTs) d).2.
Definition replace_cron (c : CronRow) (d : Sched) : Sched :=
  with_crons d (List.map (λ r, if bool_decide (cr_id r = cr_id c) then c else r) (s_crons d)).
Definition reanchored (c : CronRow) (lastScheduledTs : Z) (cadenceJobId : jsstr) : CronRow :=
  {| cr_id := cr_id c; cr_name := cr_name c; cr_spec := cr_spec c; cr_tz := cr_tz c; cr_catchUp := cr_catchUp c;
     cr_lastScheduledTs := Some lastScheduledTs; cr_workFnPath := cr_workFnPath c; cr_workArgs := cr_workArgs c; cr_cadenceJobId := Some cadenceJobId |}.
Definition cron_named (name : jsstr) (d : Sched) : option CronRow := List.find (λ r, bool_decide (cr_name r = name)) (s_crons d).
Definition _cronTick (now : Z) (cronName : jsstr) (jobId : option jsstr) (d : Sched) : res Sched :=
  match cron_named cronName d with
  | None => Ok d
  | Some c =>
      if match jobId, cr_cadenceJobId c with Some me, Some live => negb (bool_decide (live = me)) | _, _ => false end then Ok d
      else
        let anchor := default now (cr_lastScheduledTs c) in
        let! due := due_occurrences (cr_spec c) (cr_tz c) (cr_catchUp c) anchor now in
        let '(toFire, next, newLastScheduledTs) := due in
        let d := fold_left (fire_work now c) toFire d in
        let '(cadenceJobId, d) := enqueueCadenceJob now (cr_name c) next d in
        Ok (replace_cron (reanchored c newLastScheduledTs cadenceJobId) d)
  end.

(** [reconcileCrons], the component's boot step *)
Definition cancel_cadence (now : Z) (cadenceJobId : option jsstr) (d : Sched) : Sched :=
  match cadenceJobId with
  | None => d
  | Some id => match s_jobs d !! id with Some job => if is_state JPending job then put_job id (canceled now job) d else d | None => d end
  end.
Definition drop_cron (now : Z) (names : list jsstr) (d : Sched) (row : CronRow) : Sched :=
  if bool_decide (cr_name row ∈ names) then d
  else let d := cancel_cadence now (cr_cadenceJobId row) d in with_crons d (List.filter (λ r, negb (bool_decide (cr_id r = cr_id row))) (s_crons d)).
Definition entry_row (e : CronRegistryEntry) (id : jsstr) (anchor : Z) (cadenceJobId : option jsstr) : CronRow :=
  {| cr_id := id; cr_name := ce_name e; cr_spec := ce_spec e; cr_tz := ce_tz e; cr_catchUp := ce_catchUp e; cr_lastScheduledTs := Some anchor;
     cr_workFnPath := ce_workFnPath e; cr_workArgs := ce_workArgs e; cr_cadenceJobId := cadenceJobId |}.
Definition insert_cron (e : CronRegistryEntry) (now : Z) (d : Sched) : jsstr * Sched :=
  let id := newId (s_minted d) in
  (id, {| s_jobs := s_jobs d; s_args := s_args d; s_crons := s_crons d ++ [entry_row e id now None]; s_minted := S (s_minted d) |}).
(** [JSON.stringify] of two specs or two argument values gives equal text exactly when they are equal, the sign of a zero aside *)
Definition spec_changed (row : CronRow) (e : CronRegistryEntry) : bool :=
  negb (bool_decide (cr_spec row = ce_spec e)) || negb (bool_decide (cr_tz row = ce_tz e)) || negb (bool_decide (cr_workFnPath row = ce_workFnPath e)) ||
  negb (bool_decide (cr_workArgs row = ce_workArgs e)).
Definition has_live_cadence (row : CronRow) (d : Sched) : bool :=
  match cr_cadenceJobId row ≫= λ id, s_jobs d !! id with Some job => is_state JPending job || is_state JInProgress job | None => false end.
Definition with_catchUp (row : CronRow) (p : CatchUpPolicy) : CronRow :=
  {| cr_id := cr_id row; cr_name := cr_name row; cr_spec := cr_spec row; cr_tz := cr_tz row; cr_catchUp := p;
     cr_lastScheduledTs := cr_lastScheduledTs row; cr_workFnPath := cr_workFnPath row; cr_workArgs := cr_workArgs row;
     cr_cadenceJobId := cr_cadenceJobId row |}.
Definition with_cadence (row : CronRow) (id : jsstr) : CronRow :=
  {| cr_id := cr_id row; cr_name := cr_name row; cr_spec := cr_spec row; cr_tz := cr_tz row; cr_catchUp := cr_catchUp row;
     cr_lastScheduledTs := cr_lastScheduledTs row; cr_workFnPath := cr_workFnPath row; cr_workArgs := cr_workArgs row; cr_cadenceJobId := Some id |}.
(** The last write of an entry spreads the row as it was read at the start: a policy edit made in the same pass is written back to the old policy *)
Definition reconcile_entry (now : Z) (existing : list CronRow) (d : Sched) (e : CronRegistryEntry) : res Sched :=
  match List.find (λ r, bool_decide (cr_name r = ce_name e)) (rev existing) with
  | None =>
      let '(cronId, d) := insert_cron e now d in
      let! firstRun := computeNextRun (ce_spec e) (ce_tz e) now in
      let '(cadenceJobId, d) := enqueueCadenceJob now (ce_name e) firstRun d in
      Ok (replace_cron (entry_row e cronId now (Some cadenceJobId)) d)
  | Some row =>
      if spec_changed row e then
        let d := cancel_cadence now (cr_cadenceJobId row) d in
        let! firstRun := computeNextRun (ce_spec e) (ce_tz e) now in
        let '(cadenceJobId, d) := enqueueCadenceJob now (ce_name e) firstRun d in
        Ok (replace_cron (entry_row e (cr_id row) now (Some cadenceJobId)) d)
      else
        let d := if bool_decide (cr_catchUp row = ce_catchUp e) then d else replace_cron (with_catchUp row (ce_catchUp e)) d in
        if has_live_cadence row d then Ok d
        else
          let! nextRun := computeNextRun (ce_spec e) (ce_tz e) (default now (cr_lastScheduledTs row)) in
          let '(newCadenceJobId, d) := enqueueCadenceJob now (ce_name e) nextRun d in
          Ok (replace_cron (with_cadence row newCadenceJobId) d)
  end.
Fixpoint reconcile_entries (now : Z) (existing : list CronRow) (entries : list CronRegistryEntry) (d : Sched) : res Sched :=
  match entries with
  | [] => Ok d
  | e :: rest => let! d := reconcile_entry now existing d e in reconcile_entries now existing rest d
  end.
Definition reconcileCrons (now : Z) (registry : list CronRegistryEntry) (d : Sched) : res Sched :=
  let existing := s_crons d in
  reconcile_entries now existing registry (fold_left (drop_cron now (List.map ce_name registry)) existing d).
End Scheduler.
