(* ===== verification/SchedulerSystem.v ===== *)
(** The scheduler at work ([components/scheduler/src/driver.ts] over the modules of [Scheduler]): any number of processes over one store, each with a
    driver. Every function call of a driver is one transaction, hence one step; commits notify the drivers, clocks advance, processes crash and
    start, and application mutations enqueue and cancel at any moment. *)
From stdpp Require Import gmap.
From S2P Require Import Prelude Values Json Scheduler.

#[global] Instance Job_eq_dec : EqDecision Job.
Proof. solve_decision. Defined.

Section System.
Context (newId : nat → jsstr) (functionKind : jsstr → option JobKind) (parseNext parsePrev : jsstr → jsstr → Z → res Z).
(** The host's stretch of a backstop period *)
Context (backstopMs : Z → Z).
(** May a driver's own calls fail? *)
Context (faults : bool).

(** ** The application *)
(** What a mutation does to the scheduler's tables, in order; the arguments only the scheduler passes are not an application's *)
Inductive fop :=
  | FEnqueue (fnPath : jsstr) (args : JobArgs) (opts : EnqueueOpts)
  | FCancel (id : jsstr).
Definition run_op (now : Z) (d : Sched) (o : fop) : Sched :=
  match o with
  | FEnqueue fnPath args opts => (enqueue newId functionKind now fnPath args opts d).2
  | FCancel id => cancel newId now id d
  end.
Definition run_ops (now : Z) (ops : list fop) (d : Sched) : Sched := fold_left (run_op now) ops d.
Definition plain_op (o : fop) : Prop := match o with FEnqueue _ (ACompletion _ _ _) _ => False | _ => True end.

(** The rest of the database, and the registered functions other than the scheduler's: a mutation called with these arguments on this database, at
    this clock, may perform these scheduler calls, leave this database and return this. *)
Context {E : Type} (app_fn : jsstr → JobArgs → Z → Sched → E → list fop → E → json → Prop).
(** The mutations clients and actions call *)
Context (app_call : Z → Sched → E → list fop → E → Prop).

(** ** The driver *)
(** Where [runPass] is: about to call [_peekDue]; between two jobs of the batch; inside a function; about to call [_complete]; past its loop *)
Inductive phase :=
  | Idle
  | Peek
  | Loop (due : list (jsstr * Job)) (earliest : option Z)
  | Running (c : ClaimResult) (due : list (jsstr * Job)) (earliest : option Z)
  | Ran (c : ClaimResult) (result : JobResult) (due : list (jsstr * Job)) (earliest : option Z)
  | Ending.
Record Driver := {
  dr_phase : phase;
  dr_pendingWake : bool;
  dr_timer : option Z;
  dr_sweepTimer : option Z;
  dr_sweeping : bool;
  dr_stopped : bool;
  dr_notified : bool (* a commit to [scheduler/*] whose notification is under way *);
  dr_failed : bool (* what happened: a failed call cut the latest pass short *) }.
Definition in_call (x : Driver) : bool := match dr_phase x with Peek | Loop (_ :: _) _ | Ran _ _ _ _ => true | _ => false end.
Definition running (x : Driver) : bool := match dr_phase x with Idle => false | _ => true end.
Definition with_phase (x : Driver) (ph : phase) : Driver :=
  {| dr_phase := ph; dr_pendingWake := dr_pendingWake x; dr_timer := dr_timer x; dr_sweepTimer := dr_sweepTimer x; dr_sweeping := dr_sweeping x;
     dr_stopped := dr_stopped x; dr_notified := dr_notified x; dr_failed := dr_failed x |}.
Definition with_pending (x : Driver) (b : bool) : Driver :=
  {| dr_phase := dr_phase x; dr_pendingWake := b; dr_timer := dr_timer x; dr_sweepTimer := dr_sweepTimer x; dr_sweeping := dr_sweeping x;
     dr_stopped := dr_stopped x; dr_notified := dr_notified x; dr_failed := dr_failed x |}.
Definition with_timer (x : Driver) (t : option Z) : Driver :=
  {| dr_phase := dr_phase x; dr_pendingWake := dr_pendingWake x; dr_timer := t; dr_sweepTimer := dr_sweepTimer x; dr_sweeping := dr_sweeping x;
     dr_stopped := dr_stopped x; dr_notified := dr_notified x; dr_failed := dr_failed x |}.
Definition with_sweep (x : Driver) (t : option Z) (sweeping : bool) : Driver :=
  {| dr_phase := dr_phase x; dr_pendingWake := dr_pendingWake x; dr_timer := dr_timer x; dr_sweepTimer := t; dr_sweeping := sweeping;
     dr_stopped := dr_stopped x; dr_notified := dr_notified x; dr_failed := dr_failed x |}.
Definition with_notified (x : Driver) (b : bool) : Driver :=
  {| dr_phase := dr_phase x; dr_pendingWake := dr_pendingWake x; dr_timer := dr_timer x; dr_sweepTimer := dr_sweepTimer x; dr_sweeping := dr_sweeping x;
     dr_stopped := dr_stopped x; dr_notified := b; dr_failed := dr_failed x |}.

Definition with_failed (x : Driver) (b : bool) : Driver :=
  {| dr_phase := dr_phase x; dr_pendingWake := dr_pendingWake x; dr_timer := dr_timer x; dr_sweepTimer := dr_sweepTimer x; dr_sweeping := dr_sweeping x;
     dr_stopped := dr_stopped x; dr_notified := dr_notified x; dr_failed := b |}.

(** [iterate], [wake], [armSweep]; a pass begins by clearing [pendingWake] *)
Definition begin_pass (x : Driver) : Driver := with_failed (with_pending (with_phase x Peek) false) false.
Definition iterate (x : Driver) : Driver := if running x then with_pending x true else begin_pass x.
Definition wake (x : Driver) : Driver := if dr_stopped x then x else iterate x.
Definition armSweep (now : Z) (x : Driver) : Driver :=
  if dr_stopped x then with_sweep x (dr_sweepTimer x) false else with_sweep x (Some (now + backstopMs SWEEP_MS)) false.
(** [start] and [stop] *)
Definition start (now : Z) : Driver :=
  armSweep now (wake {| dr_phase := Idle; dr_pendingWake := false; dr_timer := None; dr_sweepTimer := None; dr_sweeping := false;
                        dr_stopped := false; dr_notified := false; dr_failed := false |}).
Definition stop (x : Driver) : Driver :=
  {| dr_phase := dr_phase x; dr_pendingWake := dr_pendingWake x; dr_timer := None; dr_sweepTimer := None; dr_sweeping := dr_sweeping x;
     dr_stopped := true; dr_notified := false; dr_failed := dr_failed x |}.
(** The end of a pass: its loop's test, the timer, then [iterate]'s [finally] *)
Definition end_of_batch (earliest : option Z) (x : Driver) : Driver :=
  if dr_pendingWake x then begin_pass x
  else with_phase (with_timer x (if dr_stopped x then None else earliest)) Ending.
Definition settle (x : Driver) : Driver := let x := with_phase x Idle in if dr_pendingWake x then wake x else x.

(** ** The world *)
Record World := {
  w_now : Z; w_db : Sched; w_rest : E; w_procs : gmap nat Driver;
  (* what happened: functions started for a job, mutations committed for a job, calls of [_complete] *)
  w_starts : list jsstr; w_effects : list jsstr; w_completes : list (jsstr * JobResult) }.
Definition notify (d d' : Sched) (ps : gmap nat Driver) : gmap nat Driver :=
  if bool_decide (s_jobs d' = s_jobs d) then ps else (λ x, if dr_stopped x then x else with_notified x true) <$> ps.
(** A committed transaction, with the new states of the process that ran it *)
Definition commit_db (w : World) (d' : Sched) (e' : E) (ps : gmap nat Driver) : World :=
  {| w_now := w_now w; w_db := d'; w_rest := e'; w_procs := notify (w_db w) d' ps; w_starts := w_starts w; w_effects := w_effects w;
     w_completes := w_completes w |}.
Definition set_procs (w : World) (ps : gmap nat Driver) : World :=
  {| w_now := w_now w; w_db := w_db w; w_rest := w_rest w; w_procs := ps; w_starts := w_starts w; w_effects := w_effects w;
     w_completes := w_completes w |}.
Definition log_start (id : jsstr) (w : World) : World :=
  {| w_now := w_now w; w_db := w_db w; w_rest := w_rest w; w_procs := w_procs w; w_starts := w_starts w ++ [id]; w_effects := w_effects w;
     w_completes := w_completes w |}.
Definition log_effect (id : jsstr) (w : World) : World :=
  {| w_now := w_now w; w_db := w_db w; w_rest := w_rest w; w_procs := w_procs w; w_starts := w_starts w; w_effects := w_effects w ++ [id];
     w_completes := w_completes w |}.
Definition log_complete (id : jsstr) (r : JobResult) (w : World) : World :=
  {| w_now := w_now w; w_db := w_db w; w_rest := w_rest w; w_procs := w_procs w; w_starts := w_starts w; w_effects := w_effects w;
     w_completes := w_completes w ++ [(id, r)] |}.

(** A mutation run for a job: the scheduler's own [_cronTick], or the application's *)
Inductive job_mutation (fnPath : jsstr) (args : JobArgs) (now : Z) (d : Sched) (e : E) : Sched → E → json → Prop :=
  | jm_tick cronName jobId d' : fnPath = _cronTick_path → args = ACron cronName jobId →
      _cronTick newId functionKind parseNext parsePrev now cronName jobId d = Ok d' → job_mutation fnPath args now d e d' e JNull
  | jm_app ops e' v : fnPath ≠ _cronTick_path → Forall plain_op ops → app_fn fnPath args now d e ops e' v →
      job_mutation fnPath args now d e (run_ops now ops d) e' v.

Inductive wstep (w : World) : World → Prop :=
  | ws_tick now : w_now w ≤ now →
      wstep w {| w_now := now; w_db := w_db w; w_rest := w_rest w; w_procs := w_procs w; w_starts := w_starts w; w_effects := w_effects w;
                 w_completes := w_completes w |}
  | ws_app ops e' : Forall plain_op ops → app_call (w_now w) (w_db w) (w_rest w) ops e' →
      wstep w (commit_db w (run_ops (w_now w) ops (w_db w)) e' (w_procs w))
  (* a process starts: its boot step, then its driver *)
  | ws_boot p registry d' : w_procs w !! p = None → reconcileCrons newId parseNext (w_now w) registry (w_db w) = Ok d' →
      wstep w (commit_db w d' (w_rest w) (<[p := start (w_now w)]> (w_procs w)))
  | ws_crash p : wstep w (set_procs w (delete p (w_procs w)))
  | ws_stop p x : w_procs w !! p = Some x → wstep w (set_procs w (<[p := stop x]> (w_procs w)))
  (* a commit notification arrives; the timer fires *)
  | ws_notified p x : w_procs w !! p = Some x → dr_notified x = true →
      wstep w (set_procs w (<[p := wake (with_notified x false)]> (w_procs w)))
  | ws_timer p x t : w_procs w !! p = Some x → dr_timer x = Some t → t ≤ w_now w →
      wstep w (set_procs w (<[p := wake (with_timer x None)]> (w_procs w)))
  | ws_peek p x due earliest : w_procs w !! p = Some x → dr_phase x = Peek → _peekDue (w_now w) (w_db w) = (due, earliest) →
      wstep w (set_procs w (<[p := with_phase x (Loop due earliest)]> (w_procs w)))
  | ws_claim p x j due earliest c d' : w_procs w !! p = Some x → dr_phase x = Loop (j :: due) earliest → _claim (w_now w) j.1 (w_db w) = (Some c, d') →
      wstep w (log_start j.1 (commit_db w d' (w_rest w) (<[p := with_phase x (Running c due earliest)]> (w_procs w))))
  | ws_claim_lost p x j due earliest : w_procs w !! p = Some x → dr_phase x = Loop (j :: due) earliest → (_claim (w_now w) j.1 (w_db w)).1 = None →
      wstep w (set_procs w (<[p := with_phase x (Loop due earliest)]> (w_procs w)))
  (* the function runs: a mutation commits and returns; anything else returns or throws *)
  | ws_mutation p x c due earliest d' e' v : w_procs w !! p = Some x → dr_phase x = Running c due earliest → functionKind (cl_fnPath c) ≠ Some KAction →
      job_mutation (cl_fnPath c) (cl_args c) (w_now w) (w_db w) (w_rest w) d' e' v →
      wstep w (log_effect (cl_jobId c) (commit_db w d' e' (<[p := with_phase x (Ran c (RSuccess v) due earliest)]> (w_procs w))))
  | ws_action p x c due earliest v : w_procs w !! p = Some x → dr_phase x = Running c due earliest → functionKind (cl_fnPath c) = Some KAction →
      wstep w (set_procs w (<[p := with_phase x (Ran c (RSuccess v) due earliest)]> (w_procs w)))
  | ws_throws p x c due earliest error retryable : w_procs w !! p = Some x → dr_phase x = Running c due earliest →
      wstep w (set_procs w (<[p := with_phase x (Ran c (RFailed error (Some retryable)) due earliest)]> (w_procs w)))
  | ws_complete p x c r due earliest rnd : w_procs w !! p = Some x → dr_phase x = Ran c r due earliest → 0 ≤ rnd < 2 ^ 32 →
      wstep w (log_complete (cl_jobId c) r (commit_db w (_complete newId (w_now w) rnd (cl_jobId c) r (w_db w)) (w_rest w)
                 (<[p := with_phase x (Loop due earliest)]> (w_procs w))))
  | ws_batch_end p x earliest : w_procs w !! p = Some x → dr_phase x = Loop [] earliest →
      wstep w (set_procs w (<[p := end_of_batch earliest x]> (w_procs w)))
  | ws_settle p x : w_procs w !! p = Some x → dr_phase x = Ending → wstep w (set_procs w (<[p := settle x]> (w_procs w)))
  (* a call of the driver fails, without effect: the pass ends without its last lines *)
  | ws_fault p x : w_procs w !! p = Some x → faults = true → in_call x = true →
      wstep w (set_procs w (<[p := with_failed (with_phase x Ending) true]> (w_procs w)))
  | ws_sweep p x t : w_procs w !! p = Some x → dr_sweepTimer x = Some t → t ≤ w_now w → dr_sweeping x = false →
      wstep w (set_procs w (<[p := with_sweep x None true]> (w_procs w)))
  | ws_reclaim p x : w_procs w !! p = Some x → dr_sweeping x = true →
      wstep w (commit_db w (_reclaim newId (w_now w) (w_db w)).2 (w_rest w) (<[p := armSweep (w_now w) x]> (w_procs w)))
  | ws_reclaim_fault p x : w_procs w !! p = Some x → dr_sweeping x = true → faults = true →
      wstep w (set_procs w (<[p := armSweep (w_now w) x]> (w_procs w))).
Definition init_world (e : E) : World :=
  {| w_now := 0; w_db := empty_sched; w_rest := e; w_procs := ∅; w_starts := []; w_effects := []; w_completes := [] |}.
Definition reachable (e : E) (w : World) : Prop := rtc wstep (init_world e) w.
End System.
