(* ===== verification/SchedulerSafety.v ===== *)
(** Well-formed scheduler tables, and what every mutation of the scheduler does to them: the facade, the cron tick and the boot step are sequences of
    three primitive changes (a new job, a pending job canceled and reported, new [crons] rows), which keep the tables well-formed. *)
From stdpp Require Import gmap.
From S2P Require Import Prelude Values Json Scheduler SchedulerSystem.

Definition terminal (j : Job) : bool := match job_state j with JPending | JInProgress => false | _ => true end.
Definition budget (j : Job) : Z := Z.max 1 (job_maxFailures j).
(** The context a job was enqueued with *)
Definition context_of (id : jsstr) (d : Sched) : option JobArgs := args_of id d ≫= ar_context.

Section Safety.
Context (newId : nat → jsstr) `{!Inj (=) (=) newId} (functionKind : jsstr → option JobKind) (parseNext parsePrev : jsstr → jsstr → Z → res Z).

(** ** Well-formed tables *)
Definition job_wf (j : Job) : Prop :=
  0 ≤ job_attempts j ∧ job_attempts j ≤ budget j ∧ (job_state j ≠ JFailed → job_attempts j < budget j) ∧ job_parentId j = None.
Definition cron_ok (d : Sched) (c : CronRow) : Prop :=
  ∀ id, cr_cadenceJobId c = Some id → ∃ j, s_jobs d !! id = Some j ∧ job_onComplete j = None.
Record wf (d : Sched) : Prop := {
  wf_ids : ∀ id j, s_jobs d !! id = Some j → ∃ k, (k < s_minted d)%nat ∧ id = newId k;
  wf_rows : ∀ r, r ∈ s_args d → is_Some (s_jobs d !! ar_jobId r) ∧ ∃ k, (k < s_minted d)%nat ∧ ar_id r = newId k;
  wf_keys : ∀ id id' j j' key, s_jobs d !! id = Some j → s_jobs d !! id' = Some j' → job_idempotencyKey j = Some key →
    job_idempotencyKey j' = Some key → id = id';
  wf_jobs : ∀ id j, s_jobs d !! id = Some j → job_wf j;
  wf_crons : Forall (cron_ok d) (s_crons d) }.

(** ** The primitive changes *)
Definition add_job (j : Job) (args : JobArgs) (context : option JobArgs) (d : Sched) : Sched :=
  {| s_jobs := <[newId (s_minted d) := j]> (s_jobs d);
     s_args := s_args d ++ [{| ar_id := newId (S (s_minted d)); ar_jobId := newId (s_minted d); ar_args := args; ar_context := context |}];
     s_crons := s_crons d; s_minted := S (S (s_minted d)) |}.
Definition born (d : Sched) (j : Job) : Prop :=
  job_state j = JPending ∧ job_attempts j = 0 ∧ job_parentId j = None ∧
  ∀ key id j', job_idempotencyKey j = Some key → s_jobs d !! id = Some j' → job_idempotencyKey j' ≠ Some key.
Definition plain_args (a : JobArgs) : Prop := match a with ACompletion _ _ _ => False | _ => True end.
Inductive prim (now : Z) (d : Sched) : Sched → Prop :=
  | p_add j args context : born d j → plain_args args → prim now d (add_job j args context d)
  | p_cancel id j : s_jobs d !! id = Some j → job_state j = JPending →
      prim now d (fireOnComplete newId now id (job_onComplete j) OCanceled (put_job id (canceled now j) d))
  | p_crons rows n : (s_minted d ≤ n)%nat → Forall (cron_ok d) rows →
      prim now d {| s_jobs := s_jobs d; s_args := s_args d; s_crons := rows; s_minted := n |}.

Lemma fresh_job d n : wf d → (s_minted d ≤ n)%nat → s_jobs d !! newId n = None.
Proof. intros W Hn. destruct (s_jobs d !! newId n) eqn:E; [|done]. apply (wf_ids d W) in E as (k & Hk & Ek%(inj newId)). lia. Qed.
Lemma fresh_row d n r : wf d → (s_minted d ≤ n)%nat → r ∈ s_args d → ar_id r ≠ newId n ∧ ar_jobId r ≠ newId n.
Proof.
  intros W Hn Hr. apply (wf_rows d W) in Hr as [[j Hj] (k & Hk & E)]. split; [rewrite E; intros ?%(inj newId); lia|].
  intros E'. rewrite E', fresh_job in Hj by done. done.
Qed.

(** [fireOnComplete] adds the callback's job *)
Definition callback_job (now : Z) (fn : jsstr) : Job :=
  {| job_fnPath := fn; job_kind := KMutation; job_state := JPending; job_nextTs := now; job_attempts := 0; job_maxFailures := 4; job_leaseHolder := None;
     job_leaseExpiresAt := None; job_idempotencyKey := None; job_appVersion := currentAppVersion; job_name := None; job_hasArgs := true;
     job_onComplete := None; job_parentId := None; job_completedTs := None; job_lastError := None |}.
Lemma fireOnComplete_add now id onComplete result d : fireOnComplete newId now id onComplete result d =
  match onComplete with None => d | Some fn => add_job (callback_job now fn) (ACompletion id (context_of id d) result) None d end.
Proof. by destruct onComplete. Qed.
Lemma callback_job_born now fn d : born d (callback_job now fn).
Proof. split; [done|]. split; [done|]. split; [done|]. done. Qed.

Lemma wf_put d id j j' : wf d → s_jobs d !! id = Some j → job_wf j' → job_idempotencyKey j' = job_idempotencyKey j → job_onComplete j' = job_onComplete j →
  wf (put_job id j' d).
Proof.
  intros W Hj Hj' Hk Hc. assert (H : ∀ i x, <[id := j']> (s_jobs d) !! i = Some x →
    ∃ y, s_jobs d !! i = Some y ∧ job_wf x ∧ job_idempotencyKey x = job_idempotencyKey y ∧ job_onComplete x = job_onComplete y).
  { intros i x [[<- <-]|[Hi Hx]]%lookup_insert_Some; [by exists j|]. exists x. split; [done|]. split; [|done]. by apply (wf_jobs d W i). }
  split; cbn.
  - intros i x (y & Hy & _)%H. by apply (wf_ids d W i y).
  - intros r Hr. apply (wf_rows d W) in Hr as [[y Hy] Hk']. split; [|done]. destruct (decide (id = ar_jobId r)) as [->|Hne].
    + rewrite lookup_insert_eq. done.
    + rewrite lookup_insert_ne by done. by exists y.
  - intros i i' x x' key (y & Hy & _ & E & _)%H (y' & Hy' & _ & E' & _)%H Hx Hx'. apply (wf_keys d W i i' y y' key); congruence.
  - intros i x (y & _ & ? & _)%H. done.
  - apply (Forall_impl _ _ _ (wf_crons d W)). intros c Hc' i Hi. destruct (Hc' i Hi) as (y & Hy & Hn). cbn. destruct (decide (id = i)) as [->|Hne].
    + exists j'. rewrite lookup_insert_eq. split; [done|]. congruence.
    + exists y. by rewrite lookup_insert_ne.
Qed.
Lemma wf_add d j args context : wf d → born d j → job_wf j → wf (add_job j args context d).
Proof.
  intros W (Hs & Ha & Hp & Hk) Hj. pose proof (fresh_job d _ W (le_n _)) as Hf.
  assert (Hold : ∀ i x, s_jobs d !! i = Some x → <[newId (s_minted d) := j]> (s_jobs d) !! i = Some x).
  { intros i x Hx. rewrite lookup_insert_ne; [done|]. congruence. }
  split; cbn.
  - intros i x [[<- <-]|[Hi (k & ? & ->)%(wf_ids d W)]]%lookup_insert_Some; [exists (s_minted d)|exists k]; split; auto; lia.
  - intros r [Hr| ->%list_elem_of_singleton]%elem_of_app.
    + apply (wf_rows d W) in Hr as [[y Hy] (k & Hk' & E)]. split; [exists y; by apply Hold|]. exists k. split; [lia|done].
    + cbn. rewrite lookup_insert_eq. split; [done|]. exists (S (s_minted d)). split; [lia|done].
  - intros i i' x x' key [[<- <-]|[Hi Hx]]%lookup_insert_Some [[<- <-]|[Hi' Hx']]%lookup_insert_Some Ex Ex'; try done.
    + by destruct (Hk key i' x').
    + by destruct (Hk key i x).
    + by apply (wf_keys d W i i' x x' key).
  - intros i x [[<- <-]|[Hi Hx]]%lookup_insert_Some; [done|]. by apply (wf_jobs d W i).
  - apply (Forall_impl _ _ _ (wf_crons d W)). intros c Hc i Hi. destruct (Hc i Hi) as (y & Hy & Hn). exists y. split; [by apply Hold|done].
Qed.
Lemma wf_fire now id onComplete result d : wf d → wf (fireOnComplete newId now id onComplete result d).
Proof.
  intros W. rewrite fireOnComplete_add. destruct onComplete as [fn|]; [|done]. apply wf_add; [done|apply callback_job_born|].
  repeat split; unfold budget; cbn; lia.
Qed.
Lemma born_wf d j : born d j → job_wf j.
Proof. intros (Hs & Ha & Hp & _). unfold job_wf, budget, terminal. rewrite Hs, Ha. repeat split; auto; lia. Qed.
Lemma canceled_wf now j : job_wf j → job_state j = JPending → job_wf (canceled now j).
Proof. intros (? & ? & H & ?) Hs. repeat split; cbn; [done..| |done]. intros _. apply H. by rewrite Hs. Qed.
Lemma wf_prim now d d' : prim now d d' → wf d → wf d'.
Proof.
  intros [j args context Hb Hp|id j Hj Hs|rows n Hn Hr] W.
  - apply wf_add; [done..|]. by eapply born_wf.
  - apply wf_fire. apply (wf_put d id j); [done..| |done|done]. apply canceled_wf; [by apply (wf_jobs d W id)|done].
  - destruct W as [A B C D F]. split; cbn; [| |exact C|exact D|exact Hr].
    + intros i x Hx. destruct (A i x Hx) as (k & ? & ?). exists k. split; [lia|done].
    + intros r Hrow. destruct (B r Hrow) as [? (k & ? & ?)]. split; [done|]. exists k. split; [lia|done].
Qed.
Lemma wf_prims now d d' : rtc (prim now) d d' → wf d → wf d'.
Proof. induction 1 as [|d d1 d2 H _ IH]; [done|]. intros W. apply IH. by eapply wf_prim. Qed.

(** ** The facade and the crons, as primitive changes *)
Lemma elem_of_scan order P d x : x ∈ scan_jobs order P d ↔ s_jobs d !! x.1 = Some x.2 ∧ P x.2 = true.
Proof.
  unfold scan_jobs. rewrite elem_of_sort_by, list_elem_of_In, filter_In, <- list_elem_of_In. destruct x as [id j]. cbn.
  by rewrite elem_of_map_to_list.
Qed.
Lemma scan_nil order P d : (∀ id j, s_jobs d !! id = Some j → P j = false) → scan_jobs order P d = [].
Proof.
  intros H. destruct (scan_jobs order P d) as [|x l] eqn:E; [done|]. assert (Hx : x ∈ scan_jobs order P d) by (rewrite E; left).
  apply elem_of_scan in Hx as [Hj HP]. by rewrite (H _ _ Hj) in HP.
Qed.
Lemma head_None {A} (l : list A) : List.head l = None → l = [].
Proof. by destruct l. Qed.
Lemma by_idempotency_None key d : by_idempotency key d = None → ∀ id j, s_jobs d !! id = Some j → job_idempotencyKey j ≠ Some key.
Proof.
  intros E id j Hj Hk. unfold by_idempotency in E. apply head_None in E.
  assert (H : (id, j) ∈ scan_jobs by_id (λ j, bool_decide (job_idempotencyKey j = Some key)) d) by (apply elem_of_scan; cbn; by rewrite bool_decide_true).
  rewrite E in H. by apply not_elem_of_nil in H.
Qed.
(** A call of [enqueueInternal] finds the job of its key or adds one *)
Lemma enqueueInternal_cases kd now fnPath args opts d :
  (∃ key p, eo_idempotencyKey opts = Some key ∧ by_idempotency key d = Some p ∧ enqueueInternal newId kd now fnPath args opts d = (p.1, d)) ∨
  ∃ j, born d j ∧ job_onComplete j = eo_onComplete opts ∧ job_idempotencyKey j = eo_idempotencyKey opts ∧ job_fnPath j = fnPath ∧
    job_kind j = kd fnPath ∧ job_maxFailures j = default (if decide (kd fnPath = KAction) then 1 else 4) (eo_maxFailures opts) ∧
    enqueueInternal newId kd now fnPath args opts d = (newId (s_minted d), add_job j args (eo_context opts) d).
Proof.
  unfold enqueueInternal. destruct (eo_idempotencyKey opts) as [key|] eqn:Ek; cbn.
  - destruct (by_idempotency key d) as [p|] eqn:E; [left; by exists key, p|]. right. eexists. split; [|by repeat split].
    split; [done|]. split; [done|]. split; [done|]. intros k id j' [= <-] Hj'. by apply (by_idempotency_None key d E id).
  - right. eexists. split; [|by repeat split]. split; [done|]. split; [done|]. split; [done|]. done.
Qed.
Lemma enqueueInternal_prims kd now fnPath args opts d : plain_args args → rtc (prim now) d (enqueueInternal newId kd now fnPath args opts d).2.
Proof.
  intros Hp. destruct (enqueueInternal_cases kd now fnPath args opts d) as [(key & p & _ & _ & ->)|(j & Hb & _ & _ & _ & _ & _ & ->)]; [done|].
  apply rtc_once. by apply p_add.
Qed.
Lemma cancel_one_prims now id j d : s_jobs d !! id = Some j → rtc (prim now) d (cancel_one newId now id j d).
Proof.
  intros Hj. unfold cancel_one, is_state. case_bool_decide as Hs; [|done]. apply rtc_once. by apply p_cancel.
Qed.
(** No job has a parent, so the walk ends with its first turn *)
Lemma cancel_alone now id d : wf d → cancel newId now id d = match s_jobs d !! id with Some j => cancel_one newId now id j d | None => d end.
Proof.
  intros W. assert (H : ∀ d0, wf d0 → (cancel_walk newId (S (size (s_jobs d0))) now id d0).2 = d0).
  { intros d0 W0. unfold cancel_walk.
    assert (E1 : cancel_turn newId now ([id], [id], d0) = ([], [id], d0)).
    { cbn. rewrite scan_nil; [done|]. intros i j Hj. apply bool_decide_eq_false. apply (wf_jobs _ W0) in Hj as (_ & _ & _ & ->). done. }
    assert (E2 : ∀ n, Nat.iter n (cancel_turn newId now) ([], [id], d0) = ([], [id], d0)).
    { induction n as [|n IH]; [done|]. by rewrite Nat.iter_succ, IH. }
    by rewrite Nat.iter_succ_r, E1, E2. }
  unfold cancel. destruct (s_jobs d !! id) as [j|] eqn:Hj; apply H; [|done].
  by apply (wf_prims now d); [apply cancel_one_prims|].
Qed.
Lemma cancel_prims now id d : wf d → rtc (prim now) d (cancel newId now id d).
Proof. intros W. rewrite cancel_alone by done. destruct (s_jobs d !! id) as [j|] eqn:Hj; [by apply cancel_one_prims|done]. Qed.
Lemma run_ops_prims now ops d : wf d → Forall plain_op ops → rtc (prim now) d (run_ops newId functionKind now ops d).
Proof.
  intros W H. revert d W. induction H as [|o ops Ho _ IH]; intros d W; [done|]. cbn.
  assert (Hp : rtc (prim now) d (run_op newId functionKind now d o)).
  { destruct o as [fnPath args opts|id]; cbn; [apply enqueueInternal_prims; by destruct args|by apply cancel_prims]. }
  etransitivity; [exact Hp|]. apply IH. by eapply wf_prims.
Qed.

(** A job keeps its function, kind, key, budget, callback and parent for good *)
Definition same_job (j j' : Job) : Prop :=
  job_fnPath j' = job_fnPath j ∧ job_kind j' = job_kind j ∧ job_idempotencyKey j' = job_idempotencyKey j ∧ job_onComplete j' = job_onComplete j ∧
  job_maxFailures j' = job_maxFailures j.
Lemma fire_lookup now i onComplete result d id j : wf d → s_jobs d !! id = Some j → s_jobs (fireOnComplete newId now i onComplete result d) !! id = Some j.
Proof.
  intros W Hj. rewrite fireOnComplete_add. destruct onComplete as [fn|]; [|done]. cbn. rewrite lookup_insert_ne; [done|].
  intros <-. by rewrite fresh_job in Hj.
Qed.
Lemma prim_job now d d' id j : prim now d d' → wf d → s_jobs d !! id = Some j → ∃ j', s_jobs d' !! id = Some j' ∧ same_job j j'.
Proof.
  intros [j0 args context Hb Hp|id0 j0 Hj0 Hs|rows n Hn Hr] W Hj.
  - exists j. split; [|done]. cbn. rewrite lookup_insert_ne; [done|]. intros <-. by rewrite fresh_job in Hj.
  - destruct (decide (id0 = id)) as [->|Hne].
    + exists (canceled now j0). rewrite Hj0 in Hj. injection Hj as <-. split; [|done]. apply fire_lookup; [|cbn; by rewrite lookup_insert_eq].
      apply (wf_put d id j0); [done..| |done|done]. apply canceled_wf; [by apply (wf_jobs d W id)|done].
    + exists j. split; [|done]. apply fire_lookup; [|cbn; by rewrite lookup_insert_ne].
      apply (wf_put d id0 j0); [done..| |done|done]. apply canceled_wf; [by apply (wf_jobs d W id0)|done].
  - by exists j.
Qed.
Lemma cron_ok_prims now d d' c : rtc (prim now) d d' → wf d → cron_ok d c → cron_ok d' c.
Proof.
  induction 1 as [|d d1 d2 H _ IH]; [done|]. intros W Hc. apply IH; [by eapply wf_prim|]. intros i Hi. destruct (Hc i Hi) as (j & Hj & Hn).
  destruct (prim_job now d d1 i j H W Hj) as (j' & Hj' & _ & _ & _ & E & _). exists j'. split; [done|]. congruence.
Qed.

Lemma find_cons_false {A} (f : A → bool) l r : (∀ x, x ∈ l → f x = false) → List.find f (l ++ [r]) = if f r then Some r else None.
Proof. induction l as [|x l IH]; intros H; cbn; [done|]. rewrite (H x) by left. apply IH. intros y Hy. apply H. by right. Qed.
Lemma map_id_in {A} (f : A → A) l : (∀ x, x ∈ l → f x = x) → List.map f l = l.
Proof. induction l as [|x l IH]; intros H; cbn; [done|]. rewrite (H x) by left. f_equal. apply IH. intros y Hy. apply H. by right. Qed.
Lemma enqueueCadenceJob_add now cronName ts d : wf d → ∃ j, born d j ∧ job_onComplete j = None ∧
  enqueueCadenceJob newId now cronName ts d = (newId (s_minted d), add_job j (ACron cronName (Some (newId (s_minted d)))) None d).
Proof.
  intros W. unfold enqueueCadenceJob.
  destruct (enqueueInternal_cases always_mutation now _cronTick_path (ACron cronName None) (cadence_opts cronName ts) d)
    as [(key & p & [=] & _)|(j & Hb & Hc & _ & _ & _ & _ & E)].
  rewrite E. exists j. split; [done|]. split; [done|]. f_equal. unfold patch_args, args_of. cbn. rewrite find_cons_false.
  2:{ intros r Hr. apply bool_decide_eq_false. by apply (fresh_row d _ r W (le_n _)). }
  cbn. rewrite bool_decide_true by done. unfold add_job, with_args. cbn. f_equal. rewrite map_app, map_id_in.
  - cbn. by rewrite bool_decide_true.
  - intros r Hr. rewrite bool_decide_false; [done|]. by apply (fresh_row d _ r W (le_S _ _ (le_n _))).
Qed.
Lemma enqueueCadenceJob_prims now cronName ts d : wf d → rtc (prim now) d (enqueueCadenceJob newId now cronName ts d).2.
Proof. intros W. destruct (enqueueCadenceJob_add now cronName ts d W) as (j & Hb & _ & ->). apply rtc_once. by apply p_add. Qed.
Lemma enqueueCadenceJob_ok now cronName ts d c : wf d → cr_cadenceJobId c = Some (newId (s_minted d)) →
  cron_ok (enqueueCadenceJob newId now cronName ts d).2 c.
Proof.
  intros W Hc i Hi. destruct (enqueueCadenceJob_add now cronName ts d W) as (j & _ & Hn & ->). exists j. cbn.
  rewrite Hc in Hi. injection Hi as <-. by rewrite lookup_insert_eq.
Qed.
Lemma enqueueCadenceJob_id now cronName ts d : wf d → (enqueueCadenceJob newId now cronName ts d).1 = newId (s_minted d).
Proof. intros W. by destruct (enqueueCadenceJob_add now cronName ts d W) as (j & _ & _ & ->). Qed.
Lemma replace_cron_prims now c d : wf d → cron_ok d c → rtc (prim now) d (replace_cron c d).
Proof.
  intros W Hc. apply rtc_once. apply p_crons; [done|]. apply Forall_forall. intros r (r0 & -> & Hr)%list_elem_of_fmap.
  case_bool_decide; [done|]. exact (proj1 (Forall_forall _ _) (wf_crons d W) r0 Hr).
Qed.
(** The end of a tick and of a reconciled entry: a cadence job, then the row that points to it *)
Lemma cadence_prims now cronName ts row d : wf d → (∀ id, cr_cadenceJobId (row id) = Some id) →
  rtc (prim now) d (let '(id, d) := enqueueCadenceJob newId now cronName ts d in replace_cron (row id) d).
Proof.
  intros W Hrow. pose proof (enqueueCadenceJob_prims now cronName ts d W) as H. pose proof (enqueueCadenceJob_id now cronName ts d W) as Hid.
  pose proof (enqueueCadenceJob_ok now cronName ts d (row (newId (s_minted d))) W (Hrow _)) as Hok.
  destruct (enqueueCadenceJob newId now cronName ts d) as [id d']. cbn in *. subst id. etransitivity; [exact H|].
  apply replace_cron_prims; [by apply (wf_prims now d)|done].
Qed.
Lemma fire_work_prims now c ts d : wf d → rtc (prim now) d (fold_left (fire_work newId functionKind now c) ts d).
Proof.
  revert d. induction ts as [|t ts IH]; intros d W; [done|]. cbn.
  assert (H : rtc (prim now) d (fire_work newId functionKind now c d t)) by (by apply enqueueInternal_prims).
  etransitivity; [exact H|]. apply IH. by apply (wf_prims now d).
Qed.
Lemma cronTick_prims now cronName jobId d d' : wf d → _cronTick newId functionKind parseNext parsePrev now cronName jobId d = Ok d' → rtc (prim now) d d'.
Proof.
  intros W. unfold _cronTick. destruct (cron_named cronName d) as [c|]; [|by intros [= <-]]. destruct (match jobId with Some me => _ | None => _ end);
    [by intros [= <-]|]. destruct (due_occurrences _ _ _ _ _ _ _) as [[[toFire next] anchor]|]; [|done]. cbn [res_bind].
  pose proof (fire_work_prims now c toFire d W) as H. pose proof (wf_prims _ _ _ H W) as W1.
  pose proof (cadence_prims now (cr_name c) next (reanchored c anchor) _ W1 (λ _, eq_refl)) as H'.
  destruct (enqueueCadenceJob _ _ _ _ _) as [id d1]. intros [= <-]. by etransitivity.
Qed.

(** Boot *)
Lemma cancel_cadence_prims now c d : wf d → cron_ok d c → rtc (prim now) d (cancel_cadence now (cr_cadenceJobId c) d).
Proof.
  intros W Hc. unfold cancel_cadence. destruct (cr_cadenceJobId c) as [id|] eqn:E; [|done]. destruct (Hc id E) as (j & Hj & Hn). rewrite Hj.
  unfold is_state. case_bool_decide as Hs; [|done]. apply rtc_once. pose proof (p_cancel now d id j Hj Hs) as H. by rewrite Hn in H.
Qed.
Lemma drop_cron_prims now names d row : wf d → cron_ok d row → rtc (prim now) d (drop_cron now names d row).
Proof.
  intros W Hc. unfold drop_cron. case_bool_decide as Hin; [done|]. pose proof (cancel_cadence_prims now row d W Hc) as H. etransitivity; [exact H|].
  apply rtc_once. apply p_crons; [done|]. apply Forall_forall. intros r Hr%list_elem_of_In. apply filter_In in Hr as [Hr%list_elem_of_In _].
  exact (proj1 (Forall_forall _ _) (wf_crons _ (wf_prims _ _ _ H W)) r Hr).
Qed.
Lemma drop_crons_prims now names rows d : wf d → Forall (cron_ok d) rows → rtc (prim now) d (fold_left (drop_cron now names) rows d).
Proof.
  revert d. induction rows as [|row rows IH]; intros d W Hr; [done|]. apply Forall_cons in Hr as [Hc Hr]. cbn.
  pose proof (drop_cron_prims now names d row W Hc) as H. etransitivity; [exact H|]. apply IH; [by apply (wf_prims now d)|].
  apply (Forall_impl _ _ _ Hr). intros c. by apply (cron_ok_prims now).
Qed.
Lemma insert_cron_prims now e d : wf d → rtc (prim now) d (insert_cron newId e now d).2.
Proof.
  intros W. apply rtc_once. apply p_crons; [lia|]. apply Forall_app. split; [exact (wf_crons d W)|]. apply Forall_singleton. done.
Qed.
Lemma find_elem {A} (f : A → bool) l x : List.find f l = Some x → x ∈ l.
Proof. intros H. apply find_some in H as [H _]. by apply list_elem_of_In. Qed.
Lemma reconcile_entry_prims now existing d e d' : wf d → Forall (cron_ok d) existing → reconcile_entry newId parseNext now existing d e = Ok d' →
  rtc (prim now) d d'.
Proof.
  intros W Hex. unfold reconcile_entry. destruct (List.find _ (rev existing)) as [row|] eqn:Ef.
  - assert (Hrow : cron_ok d row) by (apply find_elem in Ef; rewrite list_elem_of_In, <- in_rev, <- list_elem_of_In in Ef; by apply (proj1 (Forall_forall _ _) Hex)).
    destruct (spec_changed row e).
    + pose proof (cancel_cadence_prims now row d W Hrow) as H. destruct (computeNextRun _ _ _ _) as [t|]; [|done]. cbn [res_bind].
      pose proof (cadence_prims now (ce_name e) t (λ id, entry_row e (cr_id row) now (Some id)) _ (wf_prims _ _ _ H W) (λ _, eq_refl)) as H'.
      destruct (enqueueCadenceJob _ _ _ _ _) as [id d1]. intros [= <-]. by etransitivity.
    + set (d0 := if bool_decide _ then d else _). assert (H : rtc (prim now) d d0).
      { unfold d0. case_bool_decide; [done|]. by apply replace_cron_prims. }
      clearbody d0. destruct (has_live_cadence row d0); [by intros [= <-]|]. destruct (computeNextRun _ _ _ _) as [t|]; [|done]. cbn [res_bind].
      pose proof (cadence_prims now (ce_name e) t (with_cadence row) _ (wf_prims _ _ _ H W) (λ _, eq_refl)) as H'.
      destruct (enqueueCadenceJob _ _ _ _ _) as [id d1]. intros [= <-]. by etransitivity.
  - pose proof (insert_cron_prims now e d W) as H. destruct (insert_cron newId e now d) as [cronId d0]. cbn in H.
    destruct (computeNextRun _ _ _ _) as [t|]; [|done]. cbn [res_bind].
    pose proof (cadence_prims now (ce_name e) t (λ id, entry_row e cronId now (Some id)) _ (wf_prims _ _ _ H W) (λ _, eq_refl)) as H'.
    destruct (enqueueCadenceJob _ _ _ _ _) as [id d1]. intros [= <-]. by etransitivity.
Qed.
Lemma reconcile_entries_prims now existing entries d d' : wf d → Forall (cron_ok d) existing →
  reconcile_entries newId parseNext now existing entries d = Ok d' → rtc (prim now) d d'.
Proof.
  revert d. induction entries as [|e rest IH]; intros d W Hex; cbn; [by intros [= <-]|].
  destruct (reconcile_entry _ _ _ _ _ _) as [d1|] eqn:E; [|done]. cbn. pose proof (reconcile_entry_prims _ _ _ _ _ W Hex E) as H. intros E'.
  etransitivity; [exact H|]. apply (IH d1); [by apply (wf_prims now d)| |done]. apply (Forall_impl _ _ _ Hex). intros c. by apply (cron_ok_prims now).
Qed.
Lemma reconcileCrons_prims now registry d d' : wf d → reconcileCrons newId parseNext now registry d = Ok d' → rtc (prim now) d d'.
Proof.
  intros W E. unfold reconcileCrons in E. pose proof (drop_crons_prims now (List.map ce_name registry) (s_crons d) d W (wf_crons d W)) as H.
  etransitivity; [exact H|]. apply (reconcile_entries_prims now (s_crons d) registry _ _); [by apply (wf_prims now d)| |exact E].
  apply (Forall_impl _ _ _ (wf_crons d W)). intros c. by apply (cron_ok_prims now).
Qed.
End Safety.
