(* ===== verification/SchedulerJobs.v ===== *)
(** What the scheduler promises about a job, whatever processes, crashes, expired leases and late completions there are: how often its function is
    started, that its outcome is final and reported once, that an idempotency key names one job. *)
From stdpp Require Import gmap.
From S2P Require Import Prelude Values Json Scheduler SchedulerSystem SchedulerSafety.

(** A row of [job_args] that calls back for a job *)
Definition calls_back (id : jsstr) (r : ArgsRow) : bool := match ar_args r with ACompletion i _ _ => bool_decide (i = id) | _ => false end.
Definition callbacks (id : jsstr) (d : Sched) : list ArgsRow := List.filter (calls_back id) (s_args d).
(** Functions started for a job; failures its own runs reported *)
Definition starts_of (id : jsstr) (l : list jsstr) : Z := Z.of_nat (length (List.filter (λ x, bool_decide (x = id)) l)).
Definition is_failure (r : JobResult) : bool := match r with RFailed _ _ => true | _ => false end.
Definition failures_of (id : jsstr) (l : list (jsstr * JobResult)) : Z :=
  Z.of_nat (length (List.filter (λ x, bool_decide (x.1 = id) && is_failure x.2) l)).

(** What a callback says about its job *)
Definition says (C : list (jsstr * JobResult)) (id : jsstr) (j : Job) (res : OnCompleteResult) : Prop :=
  match job_state j, res with
  | JSuccess, OSuccess v => (id, RSuccess v) ∈ C
  | JFailed, OFailed e => job_lastError j = Some e
  | JCanceled, OCanceled => True
  | _, _ => False
  end.
Definition reported (d : Sched) (C : list (jsstr * JobResult)) (id : jsstr) (j : Job) : Prop :=
  match terminal j, job_onComplete j with
  | true, Some fn => ∃ row cb res, callbacks id d = [row] ∧ ar_args row = ACompletion id (context_of id d) res ∧ says C id j res ∧
      s_jobs d !! ar_jobId row = Some cb ∧ job_fnPath cb = fn
  | _, _ => callbacks id d = []
  end.
(** The error of a failed job is one its run reported or the expired lease's *)
Definition truthful (C : list (jsstr * JobResult)) (id : jsstr) (j : Job) : Prop :=
  match job_state j with
  | JSuccess => ∃ v, (id, RSuccess v) ∈ C
  | JFailed => job_lastError j = Some lease_expired ∨ ∃ e b, job_lastError j = Some e ∧ (id, RFailed e b) ∈ C
  | _ => True
  end.
Definition at_rest (j : Job) : Z := match job_state j with JInProgress | JSuccess => 1 | _ => 0 end.
Definition counted (S : list jsstr) (C : list (jsstr * JobResult)) (id : jsstr) (j : Job) : Prop :=
  starts_of id S ≤ job_attempts j + at_rest j ∧
  (job_kind j = KAction → starts_of id S ≤ failures_of id C + if decide (job_state j = JPending) then 0 else 1).
Definition history (d : Sched) (S : list jsstr) (C : list (jsstr * JobResult)) (id : jsstr) (j : Job) : Prop :=
  counted S C id j ∧ truthful C id j ∧ reported d C id j.

Section Jobs.
Context (newId : nat → jsstr) `{!Inj (=) (=) newId} (functionKind : jsstr → option JobKind) (parseNext parsePrev : jsstr → jsstr → Z → res Z).
(** The invariant, with the history of some jobs left open *)
Record sinvx (X : jsstr → Prop) (d : Sched) (S : list jsstr) (C : list (jsstr * JobResult)) : Prop := {
  si_wf : wf newId d;
  si_known : ∀ id, id ∈ S → is_Some (s_jobs d !! id);
  si_calls : ∀ id r, r ∈ s_args d → calls_back id r = true → is_Some (s_jobs d !! id);
  si_jobs : ∀ id j, s_jobs d !! id = Some j → ¬ X id → history d S C id j }.
Definition sinv : Sched → list jsstr → list (jsstr * JobResult) → Prop := sinvx (λ _, False).

(** ** Rows *)
Lemma callbacks_app id d r d' : s_args d' = s_args d ++ [r] → callbacks id d' = callbacks id d ++ if calls_back id r then [r] else [].
Proof. intros E. unfold callbacks. rewrite E, List.filter_app. cbn. by destruct (calls_back id r). Qed.
Lemma callbacks_none X d S C id : sinvx X d S C → s_jobs d !! id = None → callbacks id d = [].
Proof.
  intros I Hn. unfold callbacks. destruct (List.filter (calls_back id) (s_args d)) as [|r l] eqn:E; [done|].
  assert (Hr : In r (List.filter (calls_back id) (s_args d))) by (rewrite E; left; done).
  apply List.filter_In in Hr as [Hr%list_elem_of_In Hc]. destruct (si_calls _ _ _ _ I id r Hr Hc) as [j Hj]. congruence.
Qed.
Lemma find_app {A} (f : A → bool) l1 l2 : List.find f (l1 ++ l2) = match List.find f l1 with Some x => Some x | None => List.find f l2 end.
Proof. induction l1 as [|x l1 IH]; cbn; [done|]. by destruct (f x). Qed.
Lemma context_app id d r d' : s_args d' = s_args d ++ [r] → ar_jobId r ≠ id → context_of id d' = context_of id d.
Proof.
  intros E Hne. unfold context_of, args_of. rewrite E, find_app. destruct (List.find _ (s_args d)); [done|]. cbn. by rewrite bool_decide_false.
Qed.
Lemma starts_app id S x : starts_of id (S ++ [x]) = starts_of id S + if decide (x = id) then 1 else 0.
Proof. unfold starts_of. rewrite List.filter_app, length_app, Nat2Z.inj_add. cbn. destruct (decide (x = id)); [rewrite bool_decide_true|rewrite bool_decide_false]; done. Qed.
Lemma failures_app id C x r : failures_of id (C ++ [(x, r)]) = failures_of id C + if decide (x = id) then (if is_failure r then 1 else 0) else 0.
Proof.
  unfold failures_of. rewrite List.filter_app, length_app, Nat2Z.inj_add. cbn.
  destruct (decide (x = id)); [rewrite bool_decide_true by done|rewrite bool_decide_false by done]; cbn; [|done]. by destruct (is_failure r).
Qed.

(** ** Keeping a history *)
(** The logs grow; the tables get rows that do not call back for the job, and keep every job's function *)
Definition keeps (id : jsstr) (d d' : Sched) : Prop :=
  callbacks id d' = callbacks id d ∧ context_of id d' = context_of id d ∧
  ∀ i j, s_jobs d !! i = Some j → ∃ j', s_jobs d' !! i = Some j' ∧ job_fnPath j' = job_fnPath j.
Lemma says_mono C C' id j res : (∀ x, x ∈ C → x ∈ C') → says C id j res → says C' id j res.
Proof. intros H. unfold says. destruct (job_state j), res; auto. Qed.
Lemma truthful_mono C C' id j : (∀ x, x ∈ C → x ∈ C') → truthful C id j → truthful C' id j.
Proof. intros H. unfold truthful. destruct (job_state j); [done|done| | |done]; [intros [v Hv]; eauto|intros [?|(e & b & ? & ?)]; eauto 6]. Qed.
Lemma reported_keeps id d d' C C' j : keeps id d d' → (∀ x, x ∈ C → x ∈ C') → reported d C id j → reported d' C' id j.
Proof.
  intros (Ec & Ex & Hj) HC. unfold reported. rewrite Ec, Ex. destruct (terminal j), (job_onComplete j) as [fn|]; try done.
  intros (row & cb & res & E1 & E2 & Hs & Hcb & Hfn). destruct (Hj _ _ Hcb) as (cb' & Hcb' & Hfn').
  exists row, cb', res. split; [done|]. split; [done|]. split; [by apply (says_mono C)|]. split; [done|]. congruence.
Qed.
Lemma history_keeps id d d' S C C' j : keeps id d d' → (∀ x, x ∈ C → x ∈ C') → failures_of id C ≤ failures_of id C' →
  history d S C id j → history d' S C' id j.
Proof.
  intros Hx HC Hf ([H1 H2] & Ht & Hr). split; [split; [done|]|].
  - intros Hk. specialize (H2 Hk). lia.
  - split; [by apply (truthful_mono C)|by apply (reported_keeps id d d' C)].
Qed.
Lemma keeps_put id i j j' d : s_jobs d !! i = Some j → job_fnPath j' = job_fnPath j → keeps id d (put_job i j' d).
Proof.
  intros Hj Hfn. split; [done|]. split; [done|]. intros i0 j0 Hj0. cbn. destruct (decide (i = i0)) as [->|Hne].
  - exists j'. rewrite lookup_insert_eq. split; [done|]. congruence.
  - exists j0. by rewrite lookup_insert_ne.
Qed.
Lemma keeps_add id d j args context : wf newId d → (∀ c r, args ≠ ACompletion id c r) → id ≠ newId (s_minted d) →
  keeps id d (add_job newId j args context d).
Proof.
  intros W Ha Hne. split; [|split].
  - erewrite callbacks_app by done. assert (E : ∀ r, ar_args r = args → calls_back id r = false).
    { intros r Er. unfold calls_back. rewrite Er. destruct args; try done. case_bool_decide as Hi; [|done]. subst. by destruct (Ha context0 result). }
    rewrite E by done. by rewrite app_nil_r.
  - eapply context_app; [done|]. cbn. congruence.
  - intros i j0 Hj0. exists j0. split; [|done]. cbn. rewrite lookup_insert_ne; [done|]. intros <-. by rewrite fresh_job in Hj0.
Qed.
Lemma keeps_refl id d : keeps id d d.
Proof. split; [done|]. split; [done|]. eauto. Qed.
Lemma keeps_trans id d1 d2 d3 : keeps id d1 d2 → keeps id d2 d3 → keeps id d1 d3.
Proof.
  intros (A1 & B1 & C1) (A2 & B2 & C2). split; [congruence|]. split; [congruence|]. intros i j Hj.
  destruct (C1 i j Hj) as (j1 & Hj1 & E1). destruct (C2 i j1 Hj1) as (j2 & Hj2 & E2). exists j2. split; [done|congruence].
Qed.

(** The logs of a step about one job *)
Record grows (id : jsstr) (S : list jsstr) (C : list (jsstr * JobResult)) (S' : list jsstr) (C' : list (jsstr * JobResult)) : Prop := {
  gr_starts : ∀ i, i ≠ id → starts_of i S' = starts_of i S;
  gr_known : ∀ i, i ∈ S' → i ∈ S ∨ i = id;
  gr_fails : ∀ i, failures_of i C ≤ failures_of i C';
  gr_sub : ∀ x, x ∈ C → x ∈ C' }.
Lemma logs_refl id S C : grows id S C S C.
Proof. split; [done| | |done]; [by left|lia]. Qed.
Lemma logs_start id S C : grows id S C (S ++ [id]) C.
Proof.
  split; [| |lia|done].
  - intros i Hi. rewrite starts_app. rewrite decide_False by congruence. lia.
  - intros i [?| ->%list_elem_of_singleton]%elem_of_app; auto.
Qed.
Lemma logs_complete id S C x : grows id S C S (C ++ [x]).
Proof.
  destruct x as [i r]. split; [done|by left| |by intros; apply elem_of_app; left].
  intros k. rewrite failures_app. destruct (decide (i = k)); [destruct (is_failure r)|]; lia.
Qed.
Lemma starts_none X d S C id : sinvx X d S C → s_jobs d !! id = None → starts_of id S = 0.
Proof.
  intros I Hn. unfold starts_of. destruct (List.filter (λ x, bool_decide (x = id)) S) as [|x l] eqn:E; [done|].
  assert (Hx : In x (List.filter (λ x, bool_decide (x = id)) S)) by (rewrite E; left; done).
  apply List.filter_In in Hx as [Hx%list_elem_of_In Hd%bool_decide_eq_true]. subst. destruct (si_known _ _ _ _ I id Hx) as [j Hj]. congruence.
Qed.
Lemma failures_nonneg id C : 0 ≤ failures_of id C.
Proof. unfold failures_of. lia. Qed.


Lemma sinvx_add X d S C j args context : sinvx X d S C → born d j → (∀ i c r, args = ACompletion i c r → X i ∧ is_Some (s_jobs d !! i)) →
  sinvx X (add_job newId j args context d) S C.
Proof.
  intros I Hb Hp. pose proof (si_wf _ _ _ _ I) as W. pose proof (fresh_job newId d _ W (le_n _)) as Hf.
  assert (Hk : ∀ i, is_Some (s_jobs d !! i) → is_Some (<[newId (s_minted d) := j]> (s_jobs d) !! i)).
  { intros i [x Hx]. exists x. rewrite lookup_insert_ne; [done|]. congruence. }
  assert (Hcall : ∀ i r, ar_args r = args → calls_back i r = true → X i ∧ is_Some (s_jobs d !! i)).
  { intros i r Er. unfold calls_back. rewrite Er. destruct args as [| |i' c res| | | |]; try done. intros ->%bool_decide_eq_true. by apply (Hp i c res). }
  split; cbn.
  - apply wf_add; [done..|]. by apply (born_wf d).
  - intros i Hi. apply Hk. by apply (si_known _ _ _ _ I).
  - intros i r [Hr| ->%list_elem_of_singleton]%elem_of_app Hc; apply Hk; [by apply (si_calls _ _ _ _ I i r)|]. by eapply Hcall in Hc as [_ ?].
  - intros i x [[<- <-]|[Hi Hx]]%lookup_insert_Some HX.
    + destruct Hb as (Hs & Ha & _ & _). split; [split|split].
      * rewrite (starts_none X d S C _ I Hf), Ha. unfold at_rest. by rewrite Hs.
      * intros _. rewrite (starts_none X d S C _ I Hf). pose proof (failures_nonneg (newId (s_minted d)) C). rewrite decide_True by done. lia.
      * unfold truthful. by rewrite Hs.
      * unfold reported, terminal. rewrite Hs. erewrite callbacks_app by done. rewrite (callbacks_none X d S C) by done.
        destruct (calls_back _ _) eqn:Ec; [|done]. by eapply Hcall in Ec as [? _].
    + apply (history_keeps i d _ S C C x); [|done|lia|by apply (si_jobs _ _ _ _ I)]. apply keeps_add; [done| |].
      * intros c r E. destruct (Hp i c r E) as [? _]. done.
      * congruence.
Qed.
Lemma sinv_add d S C j args context : sinv d S C → born d j → plain_args args → sinv (add_job newId j args context d) S C.
Proof. intros I Hb Hp. apply sinvx_add; [done..|]. intros i c r ->. done. Qed.
Lemma sinvx_put d S C S' C' id j j' : sinv d S C → s_jobs d !! id = Some j → same_job j j' → job_wf j' → grows id S C S' C' →
  sinvx (λ i, i = id) (put_job id j' d) S' C'.
Proof.
  intros I Hj (Hfn & Hkd & Hkey & Hcb & Hm) Hw G. pose proof (si_wf _ _ _ _ I) as W.
  assert (Hk : ∀ i, is_Some (s_jobs d !! i) → is_Some (<[id := j']> (s_jobs d) !! i)) by (intros i; rewrite lookup_insert_is_Some'; auto).
  split; cbn.
  - by apply (wf_put newId d id j).
  - intros i [Hi| ->]%(gr_known _ _ _ _ _ G); [apply Hk; by apply (si_known _ _ _ _ I)|]. by rewrite lookup_insert_eq.
  - intros i r Hr' Hc'. apply Hk. by apply (si_calls _ _ _ _ I i r).
  - intros i x [[<- <-]|[Hi Hx]]%lookup_insert_Some HX; [done|].
    destruct (si_jobs _ _ _ _ I i x Hx) as (H1 & H3); [tauto|].
    apply (history_keeps i d _ S' C C' x); [by apply (keeps_put _ _ j)|apply (gr_sub _ _ _ _ _ G)|apply (gr_fails _ _ _ _ _ G)|].
    split; [|done]. unfold counted. by rewrite (gr_starts _ _ _ _ _ G).
Qed.
Lemma sinv_close d S C id j : sinvx (λ i, i = id) d S C → s_jobs d !! id = Some j → history d S C id j → sinv d S C.
Proof.
  intros [W K L H] Hj Hh. split; [done..|]. intros i x Hx _. destruct (decide (i = id)) as [->|Hne]; [congruence|by apply H].
Qed.
(** A job moves between the states that are not its end *)
Lemma sinv_move d S C S' C' id j j' : sinv d S C → s_jobs d !! id = Some j → same_job j j' → job_wf j' → grows id S C S' C' →
  counted S' C' id j' → terminal j = false → terminal j' = false → sinv (put_job id j' d) S' C'.
Proof.
  intros I Hj Hsame Hw G Hc Ht Ht'. apply (sinv_close _ _ _ id j'); [by apply (sinvx_put d S C S' C' id j)|cbn; by rewrite lookup_insert_eq|].
  destruct (si_jobs _ _ _ _ I id j Hj) as (_ & _ & H); [tauto|]. unfold reported in H. rewrite Ht in H.
  split; [done|]. unfold truthful, reported, terminal in *. by destruct (job_state j').
Qed.
(** A job reaches its end: its row, then its callback's job *)
Lemma sinv_finish d S C S' C' now id j j' res : sinv d S C → s_jobs d !! id = Some j → terminal j = false → same_job j j' → job_wf j' →
  grows id S C S' C' → counted S' C' id j' → truthful C' id j' → terminal j' = true → says C' id j' res →
  sinv (fireOnComplete newId now id (job_onComplete j) res (put_job id j' d)) S' C'.
Proof.
  intros I Hj Hnt Hsame Hw G Hc Ht Htj Hs. pose proof (si_wf _ _ _ _ I) as W.
  assert (Hnone : callbacks id d = []).
  { destruct (si_jobs _ _ _ _ I id j Hj) as (_ & _ & H); [tauto|]. unfold reported in H. by rewrite Hnt in H. }
  pose proof (sinvx_put d S C S' C' id j j' I Hj Hsame Hw G) as I'. assert (Hj' : s_jobs (put_job id j' d) !! id = Some j') by (cbn; by rewrite lookup_insert_eq).
  assert (Hcb : job_onComplete j' = job_onComplete j) by apply Hsame. rewrite <- Hcb.
  destruct (job_onComplete j') as [fn|] eqn:Efn.
  2:{ apply (sinv_close _ _ _ id j' I' Hj'). split; [done|]. split; [done|]. unfold reported. by rewrite Htj, Efn. }
  rewrite fireOnComplete_add. set (d1 := put_job id j' d) in *.
  assert (I2 : sinvx (λ i, i = id) (add_job newId (callback_job now fn) (ACompletion id (context_of id d1) res) None d1) S' C').
  { apply sinvx_add; [done|apply callback_job_born|]. intros i c r [= <- _ _]. split; [done|]. by eexists. }
  pose proof (fresh_job newId d1 _ (si_wf _ _ _ _ I') (le_n _)) as Hf.
  assert (Hne : newId (s_minted d1) ≠ id) by congruence.
  apply (sinv_close _ _ _ id j' I2).
  { cbn. by rewrite lookup_insert_ne. }
  split; [done|]. split; [done|]. unfold reported. rewrite Htj, Efn. eexists _, (callback_job now fn), res.
  split; [|split; [|split; [|split]]].
  - erewrite callbacks_app by done. change (callbacks id d1) with (callbacks id d). rewrite Hnone. unfold calls_back. cbn. by rewrite bool_decide_true.
  - assert (E : context_of id (add_job newId (callback_job now fn) (ACompletion id (context_of id d1) res) None d1) = context_of id d1).
    { eapply context_app; [done|]. done. }
    rewrite E. done.
  - done.
  - cbn. by rewrite lookup_insert_eq.
  - done.
Qed.

(** ** The operations keep the invariant *)
Ltac same := split; [done|split; [done|split; [done|split; done]]].
Lemma state_of s j : is_state s j = true → job_state j = s.
Proof. apply bool_decide_eq_true. Qed.
Lemma sinv_prim now d d' S C : prim newId now d d' → sinv d S C → sinv d' S C.
Proof.
  intros [j args context Hb Hp|id j Hj Hs|rows n Hn Hr] I.
  - by apply sinv_add.
  - destruct (si_jobs _ _ _ _ I id j Hj) as ([H1 H2] & _); [tauto|]. pose proof (wf_jobs _ _ (si_wf _ _ _ _ I) id j Hj) as Hw.
    apply (sinv_finish d S C S C); [done|done|by unfold terminal; rewrite Hs|same|by apply canceled_wf|apply logs_refl| |done|done|done].
    unfold counted, at_rest in *. cbn. rewrite Hs in H1, H2. split; [done|]. intros Hk. specialize (H2 Hk). rewrite decide_True in H2 by done.
    rewrite decide_False by done. lia.
  - destruct I as [W K L H]. split; [|done..]. by apply (wf_prim newId now d); [apply p_crons|].
Qed.
Lemma sinv_prims now d d' S C : rtc (prim newId now) d d' → sinv d S C → sinv d' S C.
Proof. induction 1 as [|d d1 d2 H _ IH]; [done|]. intros I. apply IH. by eapply sinv_prim. Qed.
Lemma sinv_grow d S C x : sinv d S C → sinv d S (C ++ [x]).
Proof.
  intros [W K L H]. split; [done..|]. intros id j Hj HX. pose proof (logs_complete id S C x) as G.
  apply (history_keeps id d d S C _ j); [apply keeps_refl|apply (gr_sub _ _ _ _ _ G)|apply (gr_fails _ _ _ _ _ G)|by apply H].
Qed.
Lemma sinv_claim now id d c d' S C : sinv d S C → _claim now id d = (Some c, d') → sinv d' (S ++ [id]) C ∧ cl_jobId c = id.
Proof.
  intros I. unfold _claim. destruct (s_jobs d !! id) as [j|] eqn:Hj; [|done]. destruct (is_state JPending j) eqn:Hs; cbn; [|done].
  apply state_of in Hs. intros [= <- <-]. split; [|done]. destruct (si_jobs _ _ _ _ I id j Hj) as ([H1 H2] & _); [tauto|].
  destruct (wf_jobs _ _ (si_wf _ _ _ _ I) id j Hj) as (Ha & Hb & Hc & Hp).
  apply (sinv_move d S C _ _ id j); [done|done|same| |apply logs_start| |by unfold terminal; rewrite Hs|done].
  - split; [done|]. split; [done|]. split; [|done]. intros _. apply Hc. by rewrite Hs.
  - unfold counted, at_rest in *. cbn. rewrite starts_app, decide_True by done. rewrite Hs in H1, H2. split; [lia|]. intros Hk. specialize (H2 Hk).
    rewrite decide_True in H2 by done. rewrite decide_False by done. lia.
Qed.
Lemma retried_wf nextTs e j : job_wf j → job_attempts j + 1 < job_maxFailures j → job_wf (retried nextTs (job_attempts j + 1) e j).
Proof. intros (Ha & Hb & Hc & Hp) Hm. unfold job_wf, budget in *. cbn. repeat split; lia || done. Qed.
Lemma dead_lettered_wf now e j : job_wf j → job_state j = JInProgress → job_wf (dead_lettered now (job_attempts j + 1) e j).
Proof.
  intros (Ha & Hb & Hc & Hp) Hs. assert (job_attempts j < budget j) by (apply Hc; by rewrite Hs).
  unfold job_wf, budget in *. cbn. repeat split; lia || done.
Qed.
Lemma sinv_complete now r id res d S C : sinv d S C → sinv (_complete newId now r id res d) S (C ++ [(id, res)]).
Proof.
  intros I. unfold _complete. destruct (s_jobs d !! id) as [j|] eqn:Hj; [|by apply sinv_grow].
  destruct (is_state JInProgress j) eqn:Hs; cbn [negb]; [|by apply sinv_grow]. apply state_of in Hs.
  assert (Hnt : terminal j = false) by (unfold terminal; by rewrite Hs).
  destruct (si_jobs _ _ _ _ I id j Hj) as ([H1 H2] & _); [tauto|]. pose proof (wf_jobs _ _ (si_wf _ _ _ _ I) id j Hj) as Hw.
  unfold at_rest in H1. rewrite Hs in H1, H2. rewrite decide_False in H2 by done.
  pose proof (logs_complete id S C (id, res)) as G. pose proof (gr_fails _ _ _ _ _ G id) as Hf.
  assert (Hin : (id, res) ∈ C ++ [(id, res)]) by (apply elem_of_app; right; by apply list_elem_of_singleton).
  destruct res as [v|e retryable].
  - apply (sinv_finish d S C); [done|done|done|same| |done| |by exists v|done|done].
    + destruct Hw as (Ha & Hb & Hc & Hp). split; [done|]. split; [done|]. split; [|done]. intros _. apply Hc. by rewrite Hs.
    + split; [done|]. cbn. intros Hk. specialize (H2 Hk). rewrite decide_False by done. lia.
  - assert (Hf' : failures_of id (C ++ [(id, RFailed e retryable)]) = failures_of id C + 1).
    { rewrite failures_app, decide_True by done. done. }
    destruct ((job_maxFailures j <=? job_attempts j + 1) || negb (default true retryable)) eqn:Eb.
    + apply (sinv_finish d S C); [done|done|done|same|by apply dead_lettered_wf|done| |right; by exists e, retryable|done|done].
      unfold counted, at_rest. cbn. split; [lia|]. intros Hk. specialize (H2 Hk). rewrite decide_False by done. lia.
    + apply orb_false_iff in Eb as [Eb _].
      apply (sinv_move d S C _ _ id j); [done|done|same| |done| |done|done].
      * apply retried_wf; [done|lia].
      * unfold counted, at_rest. cbn. split; [lia|]. intros Hk. specialize (H2 Hk). rewrite decide_True by done. lia.
Qed.
Lemma sinv_reclaim_one now d id j S C : sinv d S C → s_jobs d !! id = Some j → job_state j = JInProgress → sinv (reclaim_one newId now d (id, j)) S C.
Proof.
  intros I Hj Hs. assert (Hnt : terminal j = false) by (unfold terminal; by rewrite Hs).
  destruct (si_jobs _ _ _ _ I id j Hj) as ([H1 H2] & _); [tauto|]. pose proof (wf_jobs _ _ (si_wf _ _ _ _ I) id j Hj) as Hw.
  unfold at_rest in H1. rewrite Hs in H1, H2. rewrite decide_False in H2 by done. unfold reclaim_one.
  destruct (bool_decide (job_kind j = KMutation) && (job_attempts j + 1 <? job_maxFailures j)) eqn:Eb.
  - apply andb_prop in Eb as [Ek%bool_decide_eq_true Em].
    apply (sinv_move d S C _ _ id j); [done|done|same| |apply logs_refl| |done|done].
    + apply retried_wf; [done|lia].
    + unfold counted, at_rest. cbn. split; [lia|]. intros Hk. congruence.
  - apply (sinv_finish d S C); [done|done|done|same|by apply dead_lettered_wf|apply logs_refl| |by left|done|done].
    unfold counted, at_rest. cbn. split; [lia|]. intros Hk. specialize (H2 Hk). rewrite decide_False by done. lia.
Qed.
Lemma reclaim_other now d p i j : wf newId d → i ≠ p.1 → s_jobs d !! p.1 = Some p.2 → s_jobs d !! i = Some j → job_state p.2 = JInProgress →
  s_jobs (reclaim_one newId now d p) !! i = Some j.
Proof.
  intros W Hne Hp Hi Hs. destruct p as [id x]. cbn in *. unfold reclaim_one. destruct (_ && _); [cbn; by rewrite lookup_insert_ne|].
  apply fire_lookup; [done| |cbn; by rewrite lookup_insert_ne]. apply (wf_put newId d id x); [done..| |done|done].
  apply dead_lettered_wf; [by apply (wf_jobs _ _ W id)|done].
Qed.
Lemma sinv_reclaims now l d S C : sinv d S C → NoDup l.*1 → Forall (λ p, s_jobs d !! p.1 = Some p.2 ∧ job_state p.2 = JInProgress) l →
  sinv (fold_left (reclaim_one newId now) l d) S C.
Proof.
  revert d. induction l as [|p l IH]; intros d I Hd Hl; [done|]. cbn [fold_left]. apply NoDup_cons in Hd as [Hn Hd].
  apply Forall_cons in Hl as [[Hj Hs] Hl]. apply IH; [destruct p; by apply sinv_reclaim_one|done|].
  apply Forall_forall. intros q Hq. pose proof (proj1 (Forall_forall _ _) Hl _ Hq) as [Hq1 Hq2]. split; [|done].
  apply reclaim_other; [apply (si_wf _ _ _ _ I)| |done..]. intros E. apply Hn. rewrite <- E. by apply list_elem_of_fmap_2.
Qed.
Lemma scan_NoDup order P d : NoDup (scan_jobs order P d).*1.
Proof.
  unfold scan_jobs. rewrite (sort_by_perm order). pose proof (NoDup_fst_map_to_list (s_jobs d)) as H. revert H.
  induction (map_to_list (s_jobs d)) as [|p l IH]; [done|]. cbn. intros [Hn H]%NoDup_cons. destruct (P p.2); [|by apply IH].
  cbn. apply NoDup_cons. split; [|by apply IH]. intros (q & Eq & Hq)%list_elem_of_fmap. apply Hn. rewrite Eq. apply list_elem_of_fmap_2.
  by apply list_elem_of_In, List.filter_In, proj1, list_elem_of_In in Hq.
Qed.
Lemma expired_ok now d : NoDup (expired_jobs now d).*1 ∧ Forall (λ p, s_jobs d !! p.1 = Some p.2 ∧ job_state p.2 = JInProgress) (expired_jobs now d).
Proof.
  split.
  - unfold expired_jobs. rewrite fmap_take. eapply sublist_NoDup; [apply scan_NoDup|apply sublist_take].
  - apply Forall_forall. intros p Hp. apply subseteq_take in Hp. apply elem_of_scan in Hp as [Hj Hp]. split; [done|].
    apply andb_prop in Hp as [Hp _]. by apply state_of.
Qed.
Lemma sinv_reclaim now d S C : sinv d S C → sinv (_reclaim newId now d).2 S C.
Proof. intros I. destruct (expired_ok now d). by apply sinv_reclaims. Qed.

(** ** The world *)
Context (backstopMs : Z → Z) (faults : bool) {E : Type} (app_fn : jsstr → JobArgs → Z → Sched → E → list fop → E → json → Prop)
  (app_call : Z → Sched → E → list fop → E → Prop).
Abbreviation wstep := (wstep newId functionKind parseNext parsePrev backstopMs faults app_fn app_call).
Abbreviation reachable := (reachable newId functionKind parseNext parsePrev backstopMs faults app_fn app_call).
Definition jobs_inv (w : World (E := E)) : Prop := sinv (w_db w) (w_starts w) (w_completes w).
Lemma job_mutation_prims fnPath args now d e d' e' v : wf newId d →
  job_mutation newId functionKind parseNext parsePrev app_fn fnPath args now d e d' e' v → rtc (prim newId now) d d'.
Proof. intros W [n j d1 _ _ Ht|ops e1 v1 _ Hops _]; [by eapply cronTick_prims|by apply run_ops_prims]. Qed.
Lemma jobs_inv_init e : jobs_inv (init_world e).
Proof.
  split; [split; [| | | |constructor]|..]; cbn; intros;
    first [by rewrite lookup_empty in *|match goal with H : _ ∈ [] |- _ => by apply not_elem_of_nil in H end].
Qed.
Lemma jobs_inv_step w w' : wstep w w' → jobs_inv w → jobs_inv w'.
Proof.
  unfold jobs_inv. intros H I. pose proof (si_wf _ _ _ _ I) as W.
  destruct H as [now Hn|ops e' Hops Hc|p registry d' Hp Hr|p|p x Hp|p x Hp Hn|p x t Hp Ht Hle|p x due e Hp Hph Hpk|p x j due e c d' Hp Hph Hc|p x j due e Hp Hph Hc
    |p x c due e d' e' v Hp Hph Hk Hm|p x c due e v Hp Hph Hk|p x c due e er rt Hp Hph|p x c r due e rnd Hp Hph Hr|p x e Hp Hph|p x Hp Hph|p x Hp Hf Hi|p x t Hp Ht Hle Hs
    |p x Hp Hs|p x Hp Hs Hf]; cbn; try done.
  - by apply (sinv_prims (w_now w) (w_db w)); [apply run_ops_prims|].
  - by apply (sinv_prims (w_now w) (w_db w)); [eapply reconcileCrons_prims|].
  - by eapply sinv_claim.
  - by apply (sinv_prims (w_now w) (w_db w)); [eapply job_mutation_prims|].
  - by apply sinv_complete.
  - by apply sinv_reclaim.
Qed.
Lemma jobs_inv_reachable e w : reachable e w → jobs_inv w.
Proof. intros H. assert (I := jobs_inv_init e). revert I. induction H as [|w1 w2 w3 Hs _ IH]; [done|]. intros I. apply IH. by apply (jobs_inv_step w1). Qed.

(** ** An end is final *)
Lemma prim_final now d d' id j : prim newId now d d' → wf newId d → s_jobs d !! id = Some j → terminal j = true → s_jobs d' !! id = Some j.
Proof.
  intros [j0 args context Hb Hp|id0 j0 Hj0 Hs|rows n Hn Hr] W Hj Ht; [|apply fire_lookup|done].
  - cbn. rewrite lookup_insert_ne; [done|]. intros <-. by rewrite fresh_job in Hj.
  - done.
  - apply (wf_put newId d id0 j0); [done..| |done|done]. apply canceled_wf; [by apply (wf_jobs _ d W id0)|done].
  - cbn. rewrite lookup_insert_ne; [done|]. intros ->. rewrite Hj in Hj0. injection Hj0 as ->. unfold terminal in Ht. by rewrite Hs in Ht.
Qed.
Lemma prims_final now d d' id j : rtc (prim newId now) d d' → wf newId d → s_jobs d !! id = Some j → terminal j = true → s_jobs d' !! id = Some j.
Proof. induction 1 as [|d d1 d2 H _ IH]; [done|]. intros W Hj Ht. apply IH; [by eapply wf_prim|by eapply prim_final|done]. Qed.
Lemma in_progress_other d id i j x : s_jobs d !! id = Some j → terminal j = true → s_jobs d !! i = Some x → terminal x = false → id ≠ i.
Proof. intros Hj Ht Hx Hx' ->. congruence. Qed.
Lemma claim_final now i d id j : s_jobs d !! id = Some j → terminal j = true → s_jobs (_claim now i d).2 !! id = Some j.
Proof.
  intros Hj Ht. unfold _claim. destruct (s_jobs d !! i) as [x|] eqn:Hx; [|done]. destruct (is_state JPending x) eqn:Hs; [|done]. cbn.
  rewrite lookup_insert_ne; [done|]. apply not_eq_sym, (in_progress_other d id i j x); try done. unfold terminal. by rewrite (state_of _ _ Hs).
Qed.
Lemma complete_final now r i res d id j : wf newId d → s_jobs d !! id = Some j → terminal j = true → s_jobs (_complete newId now r i res d) !! id = Some j.
Proof.
  intros W Hj Ht. unfold _complete. destruct (s_jobs d !! i) as [x|] eqn:Hx; [|done]. destruct (is_state JInProgress x) eqn:Hs; [|done]. cbn [negb].
  apply state_of in Hs. assert (Hne : i ≠ id).
  { apply not_eq_sym, (in_progress_other d id i j x); try done. unfold terminal. by rewrite Hs. }
  pose proof (wf_jobs _ d W i x Hx) as Hw. destruct res as [v|e rt]; [|destruct (_ || _); [|cbn; by rewrite lookup_insert_ne]].
  - apply fire_lookup; [done| |cbn; by rewrite lookup_insert_ne]. apply (wf_put newId d i x); [done..| |done|done].
    destruct Hw as (Ha & Hb & Hc & Hp). split; [done|]. split; [done|]. split; [|done]. intros _. apply Hc. by rewrite Hs.
  - apply fire_lookup; [done| |cbn; by rewrite lookup_insert_ne]. apply (wf_put newId d i x); [done..| |done|done]. by apply dead_lettered_wf.
Qed.
Lemma reclaims_final now l d S C id j : sinv d S C → NoDup l.*1 → Forall (λ p, s_jobs d !! p.1 = Some p.2 ∧ job_state p.2 = JInProgress) l →
  s_jobs d !! id = Some j → terminal j = true → s_jobs (fold_left (reclaim_one newId now) l d) !! id = Some j.
Proof.
  revert d. induction l as [|p l IH]; intros d I Hd Hl Hj Ht; [done|]. cbn [fold_left]. apply NoDup_cons in Hd as [Hn Hd].
  apply Forall_cons in Hl as [[Hp Hs] Hl]. pose proof (si_wf _ _ _ _ I) as W. apply IH; [destruct p; by apply sinv_reclaim_one|done| |  |done].
  - apply Forall_forall. intros q Hq. pose proof (proj1 (Forall_forall _ _) Hl _ Hq) as [Hq1 Hq2]. split; [|done].
    apply reclaim_other; [done| |done..]. intros Eq. apply Hn. rewrite <- Eq. by apply list_elem_of_fmap_2.
  - apply reclaim_other; [done| |done..]. apply (in_progress_other d id p.1 j p.2); try done. unfold terminal. by rewrite Hs.
Qed.
Lemma step_final w w' id j : wstep w w' → jobs_inv w → s_jobs (w_db w) !! id = Some j → terminal j = true → s_jobs (w_db w') !! id = Some j.
Proof.
  intros H I Hj Ht. pose proof (si_wf _ _ _ _ I) as W.
  destruct H as [now Hn|ops e' Hops Hc|p registry d' Hp Hr|p|p x Hp|p x Hp Hn|p x t Hp Hti Hle|p x due e Hp Hph Hpk|p x i due e c d' Hp Hph Hc|p x i due e Hp Hph Hc
    |p x c due e d' e' v Hp Hph Hk Hm|p x c due e v Hp Hph Hk|p x c due e er rt Hp Hph|p x c r due e rnd Hp Hph Hr|p x e Hp Hph|p x Hp Hph|p x Hp Hf Hi|p x t Hp Hti Hle Hs
    |p x Hp Hs|p x Hp Hs Hf]; cbn; try done.
  - by apply (prims_final (w_now w) (w_db w)); [apply run_ops_prims|..].
  - by apply (prims_final (w_now w) (w_db w)); [eapply reconcileCrons_prims|..].
  - pose proof (claim_final (w_now w) i.1 (w_db w) id j Hj Ht) as H. by rewrite Hc in H.
  - by apply (prims_final (w_now w) (w_db w)); [eapply job_mutation_prims|..].
  - by apply complete_final.
  - destruct (expired_ok (w_now w) (w_db w)) as [Hd Hl]. by apply (reclaims_final _ _ _ (w_starts w) (w_completes w)).
Qed.
Lemma steps_final w w' id j : rtc wstep w w' → jobs_inv w → s_jobs (w_db w) !! id = Some j → terminal j = true → s_jobs (w_db w') !! id = Some j.
Proof. induction 1 as [|w1 w2 w3 H _ IH]; [done|]. intros I Hj Ht. apply IH; [by eapply jobs_inv_step|by eapply step_final|done]. Qed.

(** ** What follows *)
(** C22: However often leases expire, processes crash and late completions arrive, the function of a job is started at most [maxFailures] times (once when
    that is not positive), and the function of an action only once more than its own runs reported failures: an action with the default budget, or
    whose process died, is never started again. *)
Theorem starts_bounded e w id j : reachable e w → s_jobs (w_db w) !! id = Some j →
  starts_of id (w_starts w) ≤ Z.max 1 (job_maxFailures j) ∧
  (job_kind j = KAction → starts_of id (w_starts w) ≤ failures_of id (w_completes w) + 1).
Proof.
  intros H Hj. apply jobs_inv_reachable in H as [W _ _ H]. destruct (H id j Hj) as ([H1 H2] & _); [tauto|].
  destruct (wf_jobs _ _ W id j Hj) as (Ha & Hb & Hc & _). unfold at_rest, budget in *. split.
  - destruct (decide (job_state j = JFailed)) as [Ef|Ef]; [rewrite Ef in H1; lia|]. specialize (Hc Ef). destruct (job_state j); lia.
  - intros Hk. specialize (H2 Hk). destruct (decide _); lia.
Qed.
(** C23: A job's end is final, truthful and reported once. A job that succeeded, failed or was canceled stays as it is; success means a run of its
    function reported that value, failure that a run reported that error or its lease expired; and when it has a callback, exactly one callback job
    exists, for the right function, with the job's own context and its outcome. No callback exists before the end. *)
Theorem outcome_reported_once e w w' id j : reachable e w → s_jobs (w_db w) !! id = Some j →
  (terminal j = true → rtc wstep w w' → s_jobs (w_db w') !! id = Some j) ∧ truthful (w_completes w) id j ∧ reported (w_db w) (w_completes w) id j.
Proof.
  intros H Hj. pose proof (jobs_inv_reachable _ _ H) as I. destruct (si_jobs _ _ _ _ I id j Hj) as (_ & Hh); [tauto|].
  split; [|done]. intros Ht Hs. by apply (steps_final w).
Qed.
(** An idempotency key names one job for good: two jobs never share a key, so each occurrence of a cron has at most one work job. *)
Theorem key_names_one_job e w id id' j j' key : reachable e w → s_jobs (w_db w) !! id = Some j → s_jobs (w_db w) !! id' = Some j' →
  job_idempotencyKey j = Some key → job_idempotencyKey j' = Some key → id = id'.
Proof. intros H. apply jobs_inv_reachable in H as [W _ _ _]. apply (wf_keys _ _ W). Qed.
End Jobs.
