(* ===== verification/SchedulerDriver.v ===== *)
(** The driver of the scheduler never loses a wake-up: unless its latest pass was cut short by a failed call, every pending job is covered by a pass that
    will look again, a notification under way, or a timer that fires no later than the job is due. *)
From stdpp Require Import gmap.
From S2P Require Import Prelude Values Json Scheduler SchedulerSystem SchedulerSafety SchedulerJobs.

#[global] Instance by_next_ts_order : CmpOrder by_next_ts := cmp_on (λ p : jsstr * Job, job_nextTs p.2 :: p.1) (lexcmp Z.compare).

(** ** What [_peekDue] reports *)
Lemma scan_same order P d d' : s_jobs d' = s_jobs d → scan_jobs order P d' = scan_jobs order P d.
Proof. intros E. unfold scan_jobs. by rewrite E. Qed.
Lemma peek_same now d d' : s_jobs d' = s_jobs d → _peekDue now d' = _peekDue now d.
Proof. intros E. unfold _peekDue. by rewrite !(scan_same _ _ d d'). Qed.
Lemma peek_due now d p : p ∈ (_peekDue now d).1 → s_jobs d !! p.1 = Some p.2 ∧ job_state p.2 = JPending.
Proof.
  intros Hp%subseteq_take. apply elem_of_scan in Hp as [Hj Hp]. split; [done|]. apply andb_prop in Hp as [Hp _]. by apply state_of.
Qed.
Lemma peek_nothing_due now d id j : (_peekDue now d).1 = [] → s_jobs d !! id = Some j → job_state j = JPending → now < job_nextTs j.
Proof.
  intros H Hj Hs. destruct (decide (job_nextTs j <= now)) as [Hle|Hle]; [|lia]. exfalso. unfold _peekDue in H. cbn [fst] in H.
  assert (Hin : (id, j) ∈ scan_jobs by_next_ts (λ j, is_state JPending j && (job_nextTs j <=? now)) d).
  { apply elem_of_scan. split; [done|]. apply andb_true_intro. split; [by apply bool_decide_eq_true|by apply Z.leb_le]. }
  destruct (scan_jobs _ _ d) as [|q l]; [by apply not_elem_of_nil in Hin|done].
Qed.
Lemma peek_earliest now d id j : s_jobs d !! id = Some j → job_state j = JPending → now < job_nextTs j →
  ∃ t, (_peekDue now d).2 = Some t ∧ t ≤ job_nextTs j.
Proof.
  intros Hj Hs Hlt. unfold _peekDue. cbn [snd]. set (P := λ j, is_state JPending j && (now <? job_nextTs j)).
  assert (Hin : (id, j) ∈ scan_jobs by_next_ts P d).
  { apply elem_of_scan. split; [done|]. apply andb_true_intro. split; [by apply bool_decide_eq_true|by apply Z.ltb_lt]. }
  pose proof (sort_by_sorted by_next_ts (List.filter (λ p, P p.2) (map_to_list (s_jobs d)))) as Hsort.
  change (sort_by _ _) with (scan_jobs by_next_ts P d) in Hsort. destruct (scan_jobs by_next_ts P d) as [|q l]; [by apply not_elem_of_nil in Hin|].
  exists (job_nextTs q.2). split; [done|]. apply StronglySorted_inv in Hsort as [_ Hall].
  apply elem_of_cons in Hin as [<-|Hin]; [done|]. pose proof (proj1 (Forall_forall _ _) Hall _ Hin) as Hle. unfold cmp_le, by_next_ts in Hle. cbn in Hle.
  destruct (Z.compare_spec (job_nextTs q.2) (job_nextTs j)); try lia. done.
Qed.

Section Driver.
Context (newId : nat → jsstr) `{!Inj (=) (=) newId} (functionKind : jsstr → option JobKind) (parseNext parsePrev : jsstr → jsstr → Z → res Z)
  (backstopMs : Z → Z) {E : Type} (app_fn : jsstr → JobArgs → Z → Sched → E → list fop → E → json → Prop) (app_call : Z → Sched → E → list fop → E → Prop).
Abbreviation wstep faults := (SchedulerSystem.wstep newId functionKind parseNext parsePrev backstopMs faults app_fn app_call).
Abbreviation reachable faults := (SchedulerSystem.reachable newId functionKind parseNext parsePrev backstopMs faults app_fn app_call).

Definition covered (d : Sched) (timer : option Z) : Prop :=
  ∀ id j, s_jobs d !! id = Some j → job_state j = JPending → ∃ t, timer = Some t ∧ t ≤ job_nextTs j.
(** What a driver that will not be woken again, and will not look again, knows *)
Definition settled_view (d : Sched) (x : Driver) : Prop :=
  match dr_phase x with
  | Peek => True
  | Loop due e => ∃ t, _peekDue t d = (due, e)
  | Running _ _ _ | Ran _ _ _ _ => False
  | Idle | Ending => covered d (dr_timer x)
  end.
Definition awake (d : Sched) (x : Driver) : Prop :=
  dr_stopped x = true ∨
  ((dr_notified x = true ∨ (running x = true ∧ dr_pendingWake x = true) ∨ dr_failed x = true ∨ settled_view d x) ∧ (dr_sweeping x = true ∨ is_Some (dr_sweepTimer x))).
Definition all_awake (w : World (E := E)) : Prop := ∀ p x, w_procs w !! p = Some x → awake (w_db w) x.

Lemma awake_same d d' x : s_jobs d' = s_jobs d → awake d x → awake d' x.
Proof.
  intros Eq [?|[H Hs]]; [by left|right]. split; [|done]. destruct H as [?|[?|[?|H]]]; [by left|by right; left|by right; right; left|do 3 right].
  unfold settled_view in *. destruct (dr_phase x); try done.
  - unfold covered. by rewrite Eq.
  - destruct H as [t H]. exists t. by rewrite (peek_same t d d').
  - unfold covered. by rewrite Eq.
Qed.
(** Other processes see a commit as a notification *)
Lemma awake_notify d d' ps p x : (∀ q y, q ≠ p → ps !! q = Some y → awake d y) →
  (s_jobs d' = s_jobs d → awake d x) → (s_jobs d' ≠ s_jobs d → awake d' (if dr_stopped x then x else with_notified x true)) →
  ∀ q y, notify d d' (<[p := x]> ps) !! q = Some y → awake d' y.
Proof.
  intros Ho Hx Hx' q y. unfold notify. case_bool_decide as Eq.
  - intros [[<- <-]|[Hne Hq]]%lookup_insert_Some; apply (awake_same d); auto. by apply (Ho q).
  - rewrite lookup_fmap. intros (z & [[<- <-]|[Hne Hq]]%lookup_insert_Some & ->)%fmap_Some; [by apply Hx'|].
    destruct (Ho q z) as [Hst|[_ Hs]]; [done..| |]; destruct (dr_stopped z) eqn:Ez; try (by left); try done. right. split; [by left|done].
Qed.
Lemma awake_set w p x : all_awake w → awake (w_db w) x → all_awake (set_procs w (<[p := x]> (w_procs w))).
Proof. intros A Hx q y. cbn. intros [[<- <-]|[Hne Hq]]%lookup_insert_Some; [done|]. by apply (A q). Qed.
(** A step of one process that is woken whatever the commit changes, or keeps its view *)
Lemma awake_commit w d' e' p x y : all_awake w → w_procs w !! p = Some x → (awake (w_db w) x → s_jobs d' = s_jobs (w_db w) → awake (w_db w) y) →
  dr_stopped y = dr_stopped x → (dr_sweeping y = true ∨ is_Some (dr_sweepTimer y)) ∨ dr_stopped x = true →
  all_awake (commit_db w d' e' (<[p := y]> (w_procs w))).
Proof.
  intros A Hp Hy Hst Hsw q z. cbn. apply awake_notify.
  - intros q' z' Hne Hq. by apply (A q').
  - intros Eq. apply Hy; [by apply (A p)|done].
  - intros _. destruct (dr_stopped y) eqn:Ey; [by left|]. right. split; [by left|]. destruct Hsw as [?|?]; [done|congruence].
Qed.
Lemma awake_sweep d x : awake d x → (dr_sweeping x = true ∨ is_Some (dr_sweepTimer x)) ∨ dr_stopped x = true.
Proof. intros [?|[_ ?]]; [by right|by left]. Qed.
Lemma awake_wake d x : dr_stopped x = false → (dr_sweeping x = true ∨ is_Some (dr_sweepTimer x)) → awake d (wake x).
Proof.
  intros Hst Hsw. unfold wake, iterate. rewrite Hst. destruct (running x) eqn:Er.
  - right. split; [right; left; split; [exact Er|done]|done].
  - right. split; [by do 3 right|done].
Qed.

Lemma claim_pending now id d j : s_jobs d !! id = Some j → job_state j = JPending → ∃ c, (_claim now id d).1 = Some c.
Proof. intros Hj Hs. unfold _claim, is_state. rewrite Hj, bool_decide_true by done. by eexists. Qed.
Lemma claim_changes now id d c d' : _claim now id d = (Some c, d') → s_jobs d' ≠ s_jobs d.
Proof.
  unfold _claim. destruct (s_jobs d !! id) as [j|] eqn:Hj; [|done]. destruct (is_state JPending j) eqn:Hs; [|done]. intros [= <- <-] Eq.
  assert (H : s_jobs (put_job id (claimed now j) d) !! id = s_jobs d !! id) by (by rewrite Eq). cbn in H. rewrite lookup_insert_eq, Hj in H.
  injection H as H. apply state_of in Hs. rewrite <- H in Hs. done.
Qed.
Lemma awake_armSweep d now x : awake d x → awake d (armSweep backstopMs now x).
Proof.
  intros [Hst|[Hv Hs]]; unfold armSweep; destruct (dr_stopped x) eqn:Est; try congruence; try by left.
  right. split; [done|]. right. by eexists.
Qed.
Lemma awake_step faults w w' : wstep faults w w' → all_awake w → all_awake w'.
Proof.
  intros H A.
  destruct H as [now Hn|ops e' Hops Hc|p registry d' Hp Hr|p|p x Hp|p x Hp Hn|p x t Hp Ht Hle|p x due e Hp Hph Hpk|p x j due e c d' Hp Hph Hc|p x j due e Hp Hph Hc
    |p x c due e d' e' v Hp Hph Hk Hm|p x c due e v Hp Hph Hk|p x c due e er rt Hp Hph|p x c r due e rnd Hp Hph Hr|p x e Hp Hph|p x Hp Hph|p x Hp Hf Hi|p x t Hp Ht Hle Hs
    |p x Hp Hs|p x Hp Hs Hf]; try (pose proof (A p x Hp) as Ax).
  - done.
  - intros q y. cbn. unfold notify. case_bool_decide as Eq; intros Hq; [apply (awake_same (w_db w)); [done|by apply (A q)]|].
    rewrite lookup_fmap in Hq. apply fmap_Some in Hq as (z & Hq & ->). destruct (dr_stopped z) eqn:Ez; [by left|].
    destruct (awake_sweep _ _ (A q z Hq)) as [?|?]; [|congruence]. right. split; [by left|done].
  - intros q y. cbn. apply awake_notify.
    + intros q' z Hne Hq. by apply (A q').
    + intros _. right. split; [by do 3 right|]. right. by eexists.
    + intros _. right. split; [by left|]. right. by eexists.
  - intros q y. cbn. intros [Hne Hq]%lookup_delete_Some. by apply (A q).
  - apply awake_set; [done|]. by left.
  - apply awake_set; [done|]. destruct (dr_stopped x) eqn:Est; [unfold wake; cbn; rewrite Est; by left|].
    destruct (awake_sweep _ _ Ax) as [?|?]; [|congruence]. by apply awake_wake.
  - apply awake_set; [done|]. destruct (dr_stopped x) eqn:Est; [unfold wake; cbn; rewrite Est; by left|].
    destruct (awake_sweep _ _ Ax) as [?|?]; [|congruence]. by apply awake_wake.
  - apply awake_set; [done|]. destruct Ax as [?|[Hv Hs]]; [by left|]. right. split; [|done].
    destruct Hv as [?|[[_ ?]|[?|_]]]; [by left|by right; left|by right; right; left|do 3 right]. cbn. by exists (w_now w).
  - apply (awake_commit w d' (w_rest w) p x (with_phase x (Running c due e))); [done|done| |done|exact (awake_sweep _ _ Ax)].
    intros _ Eq. by apply claim_changes in Hc.
  - apply awake_set; [done|]. destruct Ax as [?|[Hv Hs]]; [by left|]. right. split; [|done].
    destruct Hv as [?|[[_ ?]|[?|Hv]]]; [by left|by right; left|by right; right; left|]. exfalso. unfold settled_view in Hv. rewrite Hph in Hv. destruct Hv as [t Hv].
    assert (Hin : j ∈ (_peekDue t (w_db w)).1) by (rewrite Hv; left). apply peek_due in Hin as [Hj Hst].
    destruct (claim_pending (w_now w) j.1 (w_db w) j.2 Hj Hst) as [c Hc']. congruence.
  - apply (awake_commit w d' e' p x (with_phase x (Ran c (RSuccess v) due e))); [done|done| |done|exact (awake_sweep _ _ Ax)].
    intros [?|[Hv Hs]] _; [by left|]. right. split; [|done].
    destruct Hv as [?|[[_ ?]|[?|Hv]]]; [by left|by right; left|by right; right; left|]. unfold settled_view in Hv. by rewrite Hph in Hv.
  - apply awake_set; [done|]. destruct Ax as [?|[Hv Hs]]; [by left|]. right. split; [|done].
    destruct Hv as [?|[[_ ?]|[?|Hv]]]; [by left|by right; left|by right; right; left|]. unfold settled_view in Hv. by rewrite Hph in Hv.
  - apply awake_set; [done|]. destruct Ax as [?|[Hv Hs]]; [by left|]. right. split; [|done].
    destruct Hv as [?|[[_ ?]|[?|Hv]]]; [by left|by right; left|by right; right; left|]. unfold settled_view in Hv. by rewrite Hph in Hv.
  - eapply (awake_commit w _ (w_rest w) p x (with_phase x (Loop due e))); [done|done| |done|exact (awake_sweep _ _ Ax)].
    intros [?|[Hv Hs]] _; [by left|]. right. split; [|done].
    destruct Hv as [?|[[_ ?]|[?|Hv]]]; [by left|by right; left|by right; right; left|]. unfold settled_view in Hv. by rewrite Hph in Hv.
  - apply awake_set; [done|]. destruct Ax as [Hst|[Hv Hs]]; [left; unfold end_of_batch; by destruct (dr_pendingWake x)|]. unfold end_of_batch.
    destruct (dr_pendingWake x) eqn:Epw; [right; split; [by do 3 right|done]|]. destruct (dr_stopped x) eqn:Est; [by left|]. right. split; [|done].
    destruct Hv as [?|[[_ ?]|[?|Hv]]]; [by left|congruence|by right; right; left|]. do 3 right. unfold settled_view in *. rewrite Hph in Hv. destruct Hv as [t Hv].
    cbn. intros id j Hj Hsj. assert (Hlt : t < job_nextTs j) by (apply (peek_nothing_due t (w_db w) id j); [by rewrite Hv|done|done]).
    destruct (peek_earliest t (w_db w) id j Hj Hsj Hlt) as (t' & Ht' & Hle). rewrite Hv in Ht'. by exists t'.
  - apply awake_set; [done|]. unfold settle. cbn. destruct Ax as [Hst|[Hv Hs]]; [left; destruct (dr_pendingWake x); [unfold wake; cbn; by rewrite Hst|done]|].
    destruct (dr_stopped x) eqn:Est; [left; destruct (dr_pendingWake x); [unfold wake; cbn; by rewrite Est|done]|].
    destruct (dr_pendingWake x) eqn:Epw; [by apply awake_wake|]. right. split; [|done]. destruct Hv as [?|[[_ ?]|[?|Hv]]]; [by left|congruence|by right; right; left|].
    do 3 right. unfold settled_view in *. by rewrite Hph in Hv.
  - apply awake_set; [done|]. destruct Ax as [?|[_ Hs]]; [by left|]. right. split; [by right; right; left|done].
  - apply awake_set; [done|]. destruct Ax as [?|[Hv Hs']]; [by left|]. right. split; [done|by left].
  - apply (awake_commit w _ (w_rest w) p x (armSweep backstopMs (w_now w) x)); [done|done|intros Hx _; by apply awake_armSweep| |].
    + unfold armSweep. destruct (dr_stopped x) eqn:Est; exact Est.
    + unfold armSweep. destruct (dr_stopped x); [by right|]. left. right. by eexists.
  - apply awake_set; [done|]. by apply awake_armSweep.
Qed.
Lemma awake_reachable faults e w : reachable faults e w → all_awake w.
Proof.
  intros H. assert (I : all_awake (init_world e)) by done. revert I. induction H as [|w1 w2 w3 Hs _ IH]; [done|]. intros I. apply IH. by apply (awake_step faults w1).
Qed.

(** ** What a driver does by itself *)
(** A step without a fault that moves the pass of process [p]: its timer fires or its notification arrives while it rests, or its pass goes on *)
Definition pass_step (p : nat) (w w' : World (E := E)) : Prop :=
  wstep false w w' ∧ ∃ x x', w_procs w !! p = Some x ∧ w_procs w' !! p = Some x' ∧ dr_phase x' ≠ dr_phase x.
(** Steps are possible until [P] holds, and whichever are taken, [P] comes to hold *)
Inductive leads {A} (step : A → A → Prop) (P : A → Prop) (a : A) : Prop :=
  | leads_now : P a → leads step P a
  | leads_step a' : step a a' → (∀ a', step a a' → leads step P a') → leads step P a.

Definition next_pass (p : nat) (x : Driver) (w w' : World (E := E)) : Prop :=
  match dr_phase x with
  | Idle => ∃ y, (y = with_notified x false ∨ y = with_timer x None) ∧ w' = set_procs w (<[p := wake y]> (w_procs w))
  | Peek => w' = set_procs w (<[p := with_phase x (Loop (_peekDue (w_now w) (w_db w)).1 (_peekDue (w_now w) (w_db w)).2)]> (w_procs w))
  | Loop (j :: due) e => ∀ c, (_claim (w_now w) j.1 (w_db w)).1 = Some c → w_starts w' = w_starts w ++ [j.1]
  | _ => True
  end.
Lemma notify_phase d d' (ps : gmap nat Driver) p y : notify d d' ps !! p = Some y → ∃ z, ps !! p = Some z ∧ dr_phase y = dr_phase z.
Proof.
  unfold notify. case_bool_decide; [by exists y|]. rewrite lookup_fmap. intros (z & Hz & ->)%fmap_Some. exists z. split; [done|]. by destruct (dr_stopped z).
Qed.
Lemma notify_lookup d d' (ps : gmap nat Driver) p y : ps !! p = Some y → ∃ z, notify d d' ps !! p = Some z ∧ dr_phase z = dr_phase y.
Proof.
  intros Hy. unfold notify. case_bool_decide; [by exists y|]. rewrite lookup_fmap, Hy. eexists. split; [done|]. by destruct (dr_stopped y).
Qed.
Lemma set_phase (ps : gmap nat Driver) p q x y z : <[q := y]> ps !! p = Some z → ps !! p = Some x → dr_phase z ≠ dr_phase x → q = p ∧ z = y.
Proof. intros [[-> ->]|[_ Hz]]%lookup_insert_Some Hx Hne; [done|congruence]. Qed.
Lemma wake_phase x : running x = true → dr_phase (wake x) = dr_phase x.
Proof. intros Hr. unfold wake, iterate. rewrite Hr. by destruct (dr_stopped x). Qed.
Lemma armSweep_phase now x : dr_phase (armSweep backstopMs now x) = dr_phase x.
Proof. unfold armSweep. by destruct (dr_stopped x). Qed.
Lemma pass_step_next p x w w' : pass_step p w w' → w_procs w !! p = Some x → next_pass p x w w'.
Proof.
  intros (H & x0 & x' & Hx0 & Hx' & Hne) Hx. rewrite Hx in Hx0. injection Hx0 as <-.
  destruct H as [now Hn|ops e' Hops Hc|q registry d' Hq Hr|q|q y Hq|q y Hq Hn|q y t Hq Ht Hle|q y due e Hq Hph Hpk|q y j due e c d' Hq Hph Hc|q y j due e Hq Hph Hc
    |q y c due e d' e' v Hq Hph Hk Hm|q y c due e v Hq Hph Hk|q y c due e er rt Hq Hph|q y c r due e rnd Hq Hph Hr|q y e Hq Hph|q y Hq Hph|q y Hq Hf Hi|q y t Hq Ht Hle Hs
    |q y Hq Hs|q y Hq Hs Hf]; cbn in Hx'; try (apply notify_phase in Hx' as (z & Hx' & Ez); rewrite Ez in Hne; clear Ez);
    try (destruct (set_phase _ _ _ _ _ _ Hx' Hx Hne) as [-> ->]; simplify_eq);
    unfold next_pass; try rewrite Hph; try done; try congruence.
  - apply lookup_delete_Some in Hx' as [_ Hx']. congruence.
  - destruct (dr_phase y) eqn:Ey; [by exists (with_notified y false); split; [left|]|..]; by rewrite wake_phase in Hne; [|unfold running; cbn; rewrite Ey].
  - destruct (dr_phase y) eqn:Ey; [by exists (with_timer y None); split; [right|]|..]; by rewrite wake_phase in Hne; [|unfold running; cbn; rewrite Ey].
  - by rewrite Hpk.
  - by rewrite armSweep_phase in Hne.
Qed.

(** A pass about to look, with a job due, starts one *)
Lemma due_leads w p y id j : w_procs w !! p = Some y → dr_phase y = Peek → s_jobs (w_db w) !! id = Some j → job_state j = JPending → job_nextTs j ≤ w_now w →
  leads (pass_step p) (λ w', ∃ started, w_starts w' = w_starts w ++ [started]) w.
Proof.
  intros Hp Hph Hj Hsj Hdue. destruct (_peekDue (w_now w) (w_db w)) as [due e1] eqn:Hpk. destruct due as [|q due].
  { pose proof (peek_nothing_due (w_now w) (w_db w) id j) as Hno. rewrite Hpk in Hno. specialize (Hno eq_refl Hj Hsj). lia. }
  assert (Hq : q ∈ (_peekDue (w_now w) (w_db w)).1) by (rewrite Hpk; left). apply peek_due in Hq as [Hq Hqs].
  destruct (claim_pending (w_now w) q.1 (w_db w) q.2 Hq Hqs) as [c Hcl].
  eapply leads_step.
  { split; [by eapply (ws_peek _ _ _ _ _ _ _ _ w p y)|]. exists y. eexists. split; [done|]. split; [cbn; by rewrite lookup_insert_eq|]. cbn. by rewrite Hph. }
  intros w1 H1. eapply pass_step_next in H1; [|exact Hp]. unfold next_pass in H1. rewrite Hph, Hpk in H1. subst w1. set (x2 := with_phase y _).
  set (w2 := set_procs w _). assert (Hp2 : w_procs w2 !! p = Some x2) by apply lookup_insert_eq.
  eapply leads_step.
  { split; [eapply (ws_claim _ _ _ _ _ _ _ _ w2 p x2 q due e1 c (_claim (w_now w) q.1 (w_db w)).2); [exact Hp2|done|cbn; rewrite <- Hcl; apply surjective_pairing]|].
    destruct (notify_lookup (w_db w2) (_claim (w_now w) q.1 (w_db w)).2 (<[p := with_phase x2 (Running c due e1)]> (w_procs w2)) p (with_phase x2 (Running c due e1)))
      as (z & Hz & Ez); [apply lookup_insert_eq|]. exists x2, z. split; [exact Hp2|]. split; [exact Hz|]. by rewrite Ez. }
  intros w3 H3. eapply pass_step_next in H3; [|exact Hp2]. apply leads_now. exists q.1. by apply (H3 c).
Qed.

(** C24: No wake-up is lost, whichever calls of the drivers fail (without effect). In a process that is not stopped and whose latest pass was not cut short by a failed
    call, a driver at rest with no notification under way has a timer that fires no later than any pending job is due, and its sweep is armed or running.
    When a job is due, the driver starts one: its pass can move, and whatever it does next, without a fault and with the clock and the other
    processes standing still, a job is started. (After a failed pass nothing need wake the driver: [failed_peek_strands_jobs].) *)
Theorem driver_no_lost_wakeup faults e w p x : reachable faults e w → w_procs w !! p = Some x → dr_stopped x = false → dr_failed x = false →
  dr_phase x = Idle → dr_notified x = false →
  covered (w_db w) (dr_timer x) ∧ (dr_sweeping x = true ∨ is_Some (dr_sweepTimer x)) ∧
  ∀ id j, s_jobs (w_db w) !! id = Some j → job_state j = JPending → job_nextTs j ≤ w_now w →
    leads (pass_step p) (λ w', ∃ started, w_starts w' = w_starts w ++ [started]) w.
Proof.
  intros H Hp Hst Hf Hph Hn. destruct (awake_reachable _ _ _ H p x Hp) as [?|[Hv Hs]]; [congruence|].
  assert (Hc : covered (w_db w) (dr_timer x)).
  { destruct Hv as [?|[[Hr _]|[?|Hv]]]; [congruence|unfold running in Hr; by rewrite Hph in Hr|congruence|]. unfold settled_view in Hv. by rewrite Hph in Hv. }
  split; [done|]. split; [done|]. intros id j Hj Hsj Hdue. destruct (Hc id j Hj Hsj) as (t & Ht & Hle).
  eapply leads_step.
  { split; [by apply (ws_timer _ _ _ _ _ _ _ _ w p x t Hp Ht); lia|]. exists x. eexists. split; [done|]. split; [cbn; by rewrite lookup_insert_eq|].
    unfold wake, iterate, running. cbn. by rewrite Hst, Hph. }
  intros w1 H1. eapply pass_step_next in H1; [|exact Hp]. unfold next_pass in H1. rewrite Hph in H1. destruct H1 as (y & Hy & ->).
  assert (Ey : dr_phase (wake y) = Peek) by (destruct Hy as [->| ->]; unfold wake, iterate, running; cbn; by rewrite Hst, Hph).
  eapply (due_leads (set_procs w (<[p := wake y]> (w_procs w)))); [apply lookup_insert_eq|exact Ey|exact Hj|exact Hsj|exact Hdue].
Qed.
End Driver.
