(* ===== verification/SchedulerCrons.v ===== *)
(** Which occurrences a cron fires: the arithmetic of [_cronTick] over an interval, and over an expression given what [cron-parser] documents. *)
From S2P Require Import Prelude Values Json Scheduler.

Section Crons.
Context (parseNext parsePrev : jsstr → jsstr → Z → res Z).
(** The times an expression matches; [next()] and [prev()] give the nearest one strictly after and strictly before a date. *)
Context (matches : jsstr → jsstr → Z → Prop).
Record parser_ok : Prop := {
  next_ok : ∀ expr tz t n, parseNext expr tz t = Ok n → t < n ∧ matches expr tz n ∧ ∀ u, t < u < n → ¬ matches expr tz u;
  prev_ok : ∀ expr tz t n, parsePrev expr tz t = Ok n → n < t ∧ matches expr tz n ∧ ∀ u, n < u < t → ¬ matches expr tz u }.

(** An occurrence of a schedule after its anchor *)
Definition occurs (spec : CronSpec) (tz : jsstr) (anchor t : Z) : Prop :=
  anchor < t ∧ match spec with SInterval period => ∃ k, t = anchor + k * period | SCron expr => matches expr tz t end.
Definition next_occurrence (spec : CronSpec) (tz : jsstr) (anchor from n : Z) : Prop :=
  from < n ∧ occurs spec tz anchor n ∧ ∀ u, from < u < n → ¬ occurs spec tz anchor u.
(** The last occurrence up to a time, the anchor when there is none *)
Definition last_occurrence (spec : CronSpec) (tz : jsstr) (anchor now n : Z) : Prop :=
  (n = anchor ∨ occurs spec tz anchor n) ∧ anchor ≤ n ≤ now ∧ ∀ u, n < u ≤ now → ¬ occurs spec tz anchor u.
(** The first [room] occurrences up to a time, in order *)
Record first_occurrences (spec : CronSpec) (tz : jsstr) (anchor from now : Z) (room : nat) (l : list Z) : Prop := {
  fo_sorted : StronglySorted Z.lt l;
  fo_occur : ∀ t, t ∈ l → occurs spec tz anchor t ∧ from < t ≤ now;
  fo_room : (length l ≤ room)%nat;
  fo_all : ∀ t, occurs spec tz anchor t → from < t ≤ now → t ∈ l ∨ (length l = room ∧ ∀ u, u ∈ l → u < t) }.
(** What a catch-up policy fires: a single due occurrence always; of a backlog, what the policy says *)
Definition fires (spec : CronSpec) (tz : jsstr) (catchUp : CatchUpPolicy) (anchor now last : Z) (l : list Z) : Prop :=
  (l = [last] ∧ occurs spec tz anchor last ∧ ∀ u, occurs spec tz anchor u → u < last → False) ∨
  (l = [] ∧ last = anchor) ∨
  (occurs spec tz anchor last ∧ (∃ u, occurs spec tz anchor u ∧ u < last) ∧
   match catchUp with
   | Skip => l = []
   | FireOnce => l = [last]
   | FireAll => first_occurrences spec tz anchor anchor now CATCHUP_CAP l
   end).

(** ** Intervals *)
Lemma grid_lt a b period : 0 < period → a * period < b * period → a < b.
Proof. intros Hp H. by apply (Z.mul_lt_mono_pos_r period). Qed.
Lemma grid_le a b period : 0 < period → a ≤ b → a * period ≤ b * period.
Proof. intros Hp H. apply Z.mul_le_mono_nonneg_r; lia. Qed.
Lemma between_grid n k period x : 0 < period → n * period ≤ x < (n + 1) * period → n * period < k * period → k * period ≤ x → False.
Proof. intros Hp Hx Hlt%grid_lt Hle; [|done]. pose proof (grid_le (n + 1) k period Hp). lia. Qed.
Lemma interval_occurs period tz anchor t : 0 < period → occurs (SInterval period) tz anchor t ↔ ∃ k, 1 ≤ k ∧ t = anchor + k * period.
Proof. intros Hp. split; [intros [Hlt [k ->]]|intros (k & Hk & ->); split; [|by exists k]]; [exists k; split; [nia|done]|nia]. Qed.
Definition grid (anchor period : Z) (n : nat) : list Z := List.map (λ i, anchor + (Z.of_nat i + 1) * period) (seq 0 n).
Lemma elem_of_grid anchor period n t : t ∈ grid anchor period n ↔ ∃ k, 1 ≤ k ≤ Z.of_nat n ∧ t = anchor + k * period.
Proof.
  unfold grid. rewrite list_elem_of_fmap. split.
  - intros (i & -> & Hi%elem_of_seq). exists (Z.of_nat i + 1). split; [lia|done].
  - intros (k & Hk & ->). exists (Z.to_nat (k - 1)). split; [f_equal; f_equal; lia|apply elem_of_seq; lia].
Qed.
Lemma grid_sorted anchor period n : 0 < period → StronglySorted Z.lt (grid anchor period n).
Proof.
  intros Hp. unfold grid. generalize 0%nat as i. induction n as [|n IH]; intros i; cbn; [constructor|]. constructor; [apply IH|].
  apply Forall_forall. intros t (x & -> & Hx%elem_of_seq)%list_elem_of_fmap. nia.
Qed.
Lemma interval_due_exact tz period catchUp anchor now l next last : 0 < period → anchor ≤ now →
  interval_due period catchUp anchor now = (l, next, last) →
  next_occurrence (SInterval period) tz anchor now next ∧ last_occurrence (SInterval period) tz anchor now last ∧
  fires (SInterval period) tz catchUp anchor now last l.
Proof.
  intros Hp Hle. unfold interval_due. rewrite (proj2 (Z.leb_le 0 (now - anchor))) by lia. set (n := (now - anchor) / period).
  assert (Hn : n * period ≤ now - anchor < (n + 1) * period).
  { pose proof (Z.div_mod (now - anchor) period ltac:(lia)) as Hd. pose proof (Z.mod_pos_bound (now - anchor) period Hp). fold n in Hd. lia. }
  assert (Hn0 : 0 ≤ n) by nia. clearbody n.
  assert (Hnext : ∀ x, x = anchor + (n + 1) * period → next_occurrence (SInterval period) tz anchor now x).
  { intros x ->. split; [lia|]. split; [apply interval_occurs; [done|]; exists (n + 1); split; [lia|done]|].
    intros u Hu (k & Hk & ->)%interval_occurs; [|done]. assert (n < k < n + 1) by (split; apply (grid_lt _ _ period); lia). lia. }
  assert (Hlast : ∀ x, x = anchor + n * period → last_occurrence (SInterval period) tz anchor now x).
  { intros x ->. split; [|split; [nia|]].
    - destruct (decide (n = 0)) as [->|]; [left; lia|]. right. apply interval_occurs; [done|]. exists n. split; [lia|done].
    - intros u Hu (k & Hk & ->)%interval_occurs; [|done]. apply (between_grid n k period (now - anchor)); lia. }
  destruct (Z.eqb_spec n 0) as [E0|E0]; [|destruct (Z.eqb_spec n 1) as [E1|E1]].
  - intros [= <- <- <-]. split; [apply Hnext; lia|]. split; [apply Hlast; lia|]. right. left. done.
  - intros [= <- <- <-]. split; [apply Hnext; lia|]. split; [apply Hlast; lia|]. left. split; [done|]. split.
    + apply interval_occurs; [done|]. exists 1. lia.
    + intros u (k & Hk & ->)%interval_occurs Hu; [|done]. nia.
  - intros [= <- <- <-]. split; [apply Hnext; lia|]. split; [by apply Hlast|]. right. right. split; [|split].
    + apply interval_occurs; [done|]. exists n. split; [lia|done].
    + exists (anchor + 1 * period). split; [apply interval_occurs; [done|]; exists 1; lia|nia].
    + destruct catchUp; [done|done|]. fold (grid anchor period (Z.to_nat (Z.min n (Z.of_nat CATCHUP_CAP)))). split.
      * by apply grid_sorted.
      * intros t (k & Hk & ->)%elem_of_grid. split; [apply interval_occurs; [done|]; exists k; split; [lia|done]|nia].
      * unfold grid. rewrite length_map, length_seq. lia.
      * intros t (k & Hk & ->)%interval_occurs Ht; [|done]. destruct (decide (k ≤ Z.of_nat CATCHUP_CAP)) as [Hc|Hc].
        -- left. apply elem_of_grid. exists k. split; [|done]. split; [lia|]. assert (k ≤ n) by nia. lia.
        -- right. assert (k ≤ n) by nia. unfold grid at 1. rewrite length_map, length_seq. split; [lia|].
           intros u (k' & Hk' & ->)%elem_of_grid. nia.
Qed.

(** ** Expressions *)
Lemma materialize_exact expr tz anchor now room : parser_ok → ∀ from cursor l, anchor ≤ from → next_occurrence (SCron expr) tz anchor from cursor →
  materialize parseNext (SCron expr) tz now room cursor = Ok l → first_occurrences (SCron expr) tz anchor from now room l.
Proof.
  intros P. induction room as [|room IH]; intros from cursor l Ha (Hlt & Ho & Hno); cbn [materialize].
  - assert (H : first_occurrences (SCron expr) tz anchor from now 0 []).
    { split; [constructor|by intros ? ?%not_elem_of_nil|done|]. intros t _ _. right. split; [done|]. by intros ? ?%not_elem_of_nil. }
    destruct (cursor <=? now); by intros [= <-].
  - destruct (Z.leb_spec cursor now) as [Hle|Hgt].
    + cbn [computeNextRun]. destruct (parseNext expr tz cursor) as [n|] eqn:En; [|done]. cbn [res_bind].
      destruct (materialize _ _ _ _ room n) as [rest|] eqn:Er; [|done]. cbn [res_bind]. intros [= <-].
      destruct (next_ok P _ _ _ _ En) as (Hn1 & Hn2 & Hn3).
      assert (Hnext : next_occurrence (SCron expr) tz anchor cursor n).
      { split; [done|]. split; [split; [lia|done]|]. intros u Hu [_ Hm]. by apply (Hn3 u). }
      destruct (IH cursor n rest) as [Hs Hoc Hr Hall]; [lia|done|done|]. split.
      * constructor; [done|]. apply Forall_forall. intros t Ht. apply Hoc in Ht. lia.
      * intros t [->|Ht]%elem_of_cons; [split; [done|lia]|]. apply Hoc in Ht as [? ?]. split; [done|lia].
      * cbn. lia.
      * intros t Ht Hb. destruct (decide (t = cursor)) as [->|Hne]; [left; left|].
        destruct (decide (t < cursor)) as [Hl|Hl]; [exfalso; by apply (Hno t); [lia|]|].
        destruct (Hall t Ht) as [?|[? Hlt']]; [lia|left; by right|]. right. cbn. split; [lia|]. intros u [->|Hu]%elem_of_cons; [lia|by apply Hlt'].
    + intros [= <-]. split; [constructor|by intros ? ?%not_elem_of_nil|cbn; lia|]. intros t Ht Hb. exfalso. by apply (Hno t); [lia|].
Qed.
Lemma cron_due_exact expr tz catchUp anchor now l next last : parser_ok → anchor ≤ now →
  cron_due parseNext parsePrev (SCron expr) tz catchUp anchor now = Ok (l, next, last) →
  next_occurrence (SCron expr) tz anchor now next ∧ last_occurrence (SCron expr) tz anchor now last ∧ fires (SCron expr) tz catchUp anchor now last l.
Proof.
  intros P Hle. unfold cron_due. cbn [computeNextRun computePrevRun].
  destruct (parseNext expr tz anchor) as [f|] eqn:Ef; [|done]. cbn [res_bind]. destruct (next_ok P _ _ _ _ Ef) as (Hf1 & Hf2 & Hf3).
  assert (Hof : occurs (SCron expr) tz anchor f) by (split; [done|done]).
  destruct (Z.ltb_spec now f) as [Hnf|Hnf].
  { intros [= <- <- <-]. split; [split; [done|split; [done|]]|split; [split; [by left|split; [lia|]]|right; by left]].
    - intros u Hu [Hu' Hm]. by apply (Hf3 u); [lia|].
    - intros u Hu [Hu' Hm]. by apply (Hf3 u); [lia|]. }
  destruct (parseNext expr tz f) as [g|] eqn:Eg; [|done]. cbn [res_bind]. destruct (next_ok P _ _ _ _ Eg) as (Hg1 & Hg2 & Hg3).
  assert (Hfirst : ∀ u, occurs (SCron expr) tz anchor u → u < f → False) by (intros u [Hu Hm] Hl; by apply (Hf3 u); [lia|]).
  destruct (Z.ltb_spec now g) as [Hng|Hng].
  { intros [= <- <- <-]. split; [split; [done|split; [split; [lia|done]|]]|split; [split; [by right|split; [lia|]]|by left]].
    - intros u Hu [Hu' Hm]. by apply (Hg3 u); [lia|].
    - intros u Hu [Hu' Hm]. by apply (Hg3 u); [lia|]. }
  destruct (parseNext expr tz now) as [n|] eqn:En; [|done]. cbn [res_bind]. destruct (next_ok P _ _ _ _ En) as (Hn1 & Hn2 & Hn3).
  destruct (parsePrev expr tz (now + 1)) as [p|] eqn:Ep; [|done]. cbn [res_bind]. destruct (prev_ok P _ _ _ _ Ep) as (Hp1 & Hp2 & Hp3).
  assert (Hpg : g ≤ p) by (destruct (decide (g ≤ p)); [done|]; exfalso; apply (Hp3 g); [lia|done]).
  assert (Hmain : ∀ toFire, match catchUp with Skip => toFire = [] | FireOnce => toFire = [p] |
      FireAll => first_occurrences (SCron expr) tz anchor anchor now CATCHUP_CAP toFire end →
    next_occurrence (SCron expr) tz anchor now n ∧ last_occurrence (SCron expr) tz anchor now p ∧ fires (SCron expr) tz catchUp anchor now p toFire).
  { intros toFire Hfire. split; [|split].
    - split; [done|]. split; [split; [lia|done]|]. intros u Hu [_ Hm]. by apply (Hn3 u).
    - split; [right; split; [lia|done]|]. split; [lia|]. intros u Hu [_ Hm]. by apply (Hp3 u); [lia|].
    - right. right. split; [split; [lia|done]|]. split; [exists f; split; [done|lia]|done]. }
  destruct catchUp.
  - intros [= <- <- <-]. by apply Hmain.
  - intros [= <- <- <-]. by apply Hmain.
  - destruct (materialize _ _ _ _ _ f) as [toFire|] eqn:Em; [|done]. cbn [res_bind]. intros [= <- <- <-]. apply Hmain.
    apply (materialize_exact expr tz anchor now CATCHUP_CAP P anchor f toFire); [lia| |done]. split; [done|]. split; [done|]. intros u Hu Ho.
    by apply (Hfirst u); [|lia].
Qed.

(** C25: A cron never drifts and never fires outside its schedule. A tick reschedules at the first occurrence after the clock and re-anchors at the last one
    up to it; a single due occurrence is fired under every policy; of a backlog, ["skip"] fires nothing, ["fireOnce"] the last occurrence, ["fireAll"]
    every occurrence in order, the first thousand when there are more. *)
Theorem cron_fires_schedule spec tz catchUp anchor now l next last : parser_ok → anchor ≤ now →
  (∀ period, spec = SInterval period → 0 < period) → due_occurrences parseNext parsePrev spec tz catchUp anchor now = Ok (l, next, last) →
  next_occurrence spec tz anchor now next ∧ last_occurrence spec tz anchor now last ∧ fires spec tz catchUp anchor now last l.
Proof.
  intros P Hle Hp. destruct spec as [period|expr]; cbn [due_occurrences].
  - intros [= H]. by apply (interval_due_exact tz period catchUp); [apply Hp| |].
  - by apply cron_due_exact.
Qed.
End Crons.
