(* ===== verification/SchedulerRuns.v ===== *)
(** Concrete runs of the scheduler: a script of actions is executed on a world, each action checked against the step relation. The theorems of
    [SchedulerJobs], [SchedulerDriver] and [SchedulerCrons] at work on them, and what the code does that its documents exclude. *)
From stdpp Require Import gmap.
From S2P Require Import Prelude Values Json Scheduler SchedulerSystem SchedulerSafety SchedulerJobs SchedulerDriver SchedulerCrons.

(** An application whose mutations count their commits, two registered actions, crons at every full minute *)
Definition ids (n : nat) : jsstr := js "d" ++ string_of_int (Z.of_nat n).
#[global] Instance ids_inj : Inj (=) (=) ids.
Proof. intros n m E. apply Nat2Z.inj, string_of_int_inj. unfold ids in E. by apply app_inv_head in E. Qed.
Definition kinds (fn : jsstr) : option JobKind := if decide (fn = js "sendMail") then Some KAction else Some KMutation.
Definition next_minute (expr tz : jsstr) (t : Z) : res Z := Ok ((t / 60000 + 1) * 60000).
Definition prev_minute (expr tz : jsstr) (t : Z) : res Z := Ok ((t - 1) / 60000 * 60000).
Definition count_fn (fn : jsstr) (args : JobArgs) (now : Z) (d : Sched) (e : nat) (ops : list fop) (e' : nat) (v : json) : Prop :=
  ops = [] ∧ e' = S e ∧ v = JNull.
Definition any_call (now : Z) (d : Sched) (e : nat) (ops : list fop) (e' : nat) : Prop := e' = e.

Inductive act :=
  | ATick (now : Z) | AApp (ops : list fop) | ABoot (p : nat) (registry : list CronRegistryEntry) | ACrash (p : nat) | ANotified (p : nat) | ATimer (p : nat)
  | APeek (p : nat) | AClaim (p : nat) | AMutation (p : nat) | ATickJob (p : nat) | AAction (p : nat) (v : json) | AThrow (p : nat) (e : jsstr) (retryable : bool)
  | AComplete (p : nat) | AEnd (p : nat) | ASettle (p : nat) | AFault (p : nat) | ASweep (p : nat) | AReclaim (p : nat).
Definition plain_opb (o : fop) : bool := match o with FEnqueue _ (ACompletion _ _ _) _ => false | _ => true end.

Section Drive.
Context (faults : bool).
Abbreviation W := (World (E := nat)).
Definition on (p : nat) (w : W) (f : Driver → option W) : option W := w_procs w !! p ≫= f.
Definition move (p : nat) (w : W) (x : Driver) : option W := Some (set_procs w (<[p := x]> (w_procs w))).
Definition act_step (a : act) (w : W) : option W :=
  match a with
  | ATick now => if w_now w <=? now then Some {| w_now := now; w_db := w_db w; w_rest := w_rest w; w_procs := w_procs w; w_starts := w_starts w;
                   w_effects := w_effects w; w_completes := w_completes w |} else None
  | AApp ops => if forallb plain_opb ops then Some (commit_db w (run_ops ids kinds (w_now w) ops (w_db w)) (w_rest w) (w_procs w)) else None
  | ABoot p registry => match w_procs w !! p, reconcileCrons ids next_minute (w_now w) registry (w_db w) with
      | None, Ok d' => Some (commit_db w d' (w_rest w) (<[p := start (λ ms, ms) (w_now w)]> (w_procs w))) | _, _ => None end
  | ACrash p => Some (set_procs w (delete p (w_procs w)))
  | ANotified p => on p w (λ x, if dr_notified x then move p w (wake (with_notified x false)) else None)
  | ATimer p => on p w (λ x, match dr_timer x with Some t => if t <=? w_now w then move p w (wake (with_timer x None)) else None | None => None end)
  | APeek p => on p w (λ x, match dr_phase x with Peek => let pk := _peekDue (w_now w) (w_db w) in move p w (with_phase x (Loop pk.1 pk.2)) | _ => None end)
  | AClaim p => on p w (λ x, match dr_phase x with
      | Loop (j :: due) e => match _claim (w_now w) j.1 (w_db w) with
          | (Some c, d') => Some (log_start j.1 (commit_db w d' (w_rest w) (<[p := with_phase x (Running c due e)]> (w_procs w))))
          | (None, _) => move p w (with_phase x (Loop due e)) end
      | _ => None end)
  | AMutation p => on p w (λ x, match dr_phase x with
      | Running c due e => if decide (kinds (cl_fnPath c) = Some KAction ∨ cl_fnPath c = _cronTick_path) then None
          else Some (log_effect (cl_jobId c) (commit_db w (w_db w) (S (w_rest w)) (<[p := with_phase x (Ran c (RSuccess JNull) due e)]> (w_procs w))))
      | _ => None end)
  | ATickJob p => on p w (λ x, match dr_phase x with
      | Running c due e => if decide (cl_fnPath c = _cronTick_path) then
          match cl_args c with
          | ACron n j => match _cronTick ids kinds next_minute prev_minute (w_now w) n j (w_db w) with
              | Ok d' => Some (log_effect (cl_jobId c) (commit_db w d' (w_rest w) (<[p := with_phase x (Ran c (RSuccess JNull) due e)]> (w_procs w)))) | Err _ => None end
          | _ => None end
          else None
      | _ => None end)
  | AAction p v => on p w (λ x, match dr_phase x with
      | Running c due e => if decide (kinds (cl_fnPath c) = Some KAction) then move p w (with_phase x (Ran c (RSuccess v) due e)) else None
      | _ => None end)
  | AThrow p er rt => on p w (λ x, match dr_phase x with Running c due e => move p w (with_phase x (Ran c (RFailed er (Some rt)) due e)) | _ => None end)
  | AComplete p => on p w (λ x, match dr_phase x with
      | Ran c r due e => Some (log_complete (cl_jobId c) r (commit_db w (_complete ids (w_now w) 0 (cl_jobId c) r (w_db w)) (w_rest w)
                                (<[p := with_phase x (Loop due e)]> (w_procs w))))
      | _ => None end)
  | AEnd p => on p w (λ x, match dr_phase x with Loop [] e => move p w (end_of_batch e x) | _ => None end)
  | ASettle p => on p w (λ x, match dr_phase x with Ending => move p w (settle x) | _ => None end)
  | AFault p => on p w (λ x, if faults && in_call x then move p w (with_failed (with_phase x Ending) true) else None)
  | ASweep p => on p w (λ x, match dr_sweepTimer x with
      | Some t => if (t <=? w_now w) && negb (dr_sweeping x) then move p w (with_sweep x None true) else None | None => None end)
  | AReclaim p => on p w (λ x, if dr_sweeping x then
      Some (commit_db w (_reclaim ids (w_now w) (w_db w)).2 (w_rest w) (<[p := armSweep (λ ms, ms) (w_now w) x]> (w_procs w))) else None)
  end.
Abbreviation wstep := (wstep ids kinds next_minute prev_minute (λ ms, ms) faults count_fn any_call).
Lemma plain_opb_spec ops : forallb plain_opb ops = true → Forall plain_op ops.
Proof. induction ops as [|o ops IH]; [done|]. cbn. intros [Ho H]%andb_prop. constructor; [|by apply IH]. destruct o as [f a os|]; [by destruct a|done]. Qed.
Ltac run_cases H :=
  match type of H with
  | option_bind _ _ _ ?m = Some _ => destruct m eqn:?; [cbn [option_bind] in H|discriminate H]
  | mbind _ ?m = Some _ => destruct m eqn:?; [cbn [mbind option_bind] in H|discriminate H]
  | match ?m with _ => _ end = Some _ => destruct m eqn:?; try discriminate H
  end.
Lemma act_sound a w w' : act_step a w = Some w' → wstep w w'.
Proof.
  destruct a; unfold act_step, on, move; intros H; repeat (run_cases H); injection H as <-.
  - by apply ws_tick, Z.leb_le.
  - apply ws_app; [by apply plain_opb_spec|done].
  - by apply ws_boot with registry.
  - apply ws_crash.
  - by apply ws_notified.
  - eapply ws_timer; [done..|by apply Z.leb_le].
  - by eapply ws_peek.
  - by eapply ws_claim.
  - eapply ws_claim_lost; [done..|]. match goal with H : _claim _ _ _ = _ |- _ => by rewrite H end.
  - match goal with H : ¬ _ |- _ => rename H into Hn end. eapply ws_mutation; [done|done| |].
    + intros Hk. apply Hn. by left.
    + eapply (jm_app _ _ _ _ _ _ _ _ _ _ []); [|done|done]. intros Hk. apply Hn. by right.
  - eapply ws_mutation; [done..| |].
    + match goal with H : cl_fnPath _ = _ |- _ => rewrite H end. by vm_compute.
    + by eapply jm_tick.
  - by eapply ws_action.
  - by eapply ws_throws.
  - by eapply ws_complete.
  - by eapply ws_batch_end.
  - by eapply ws_settle.
  - match goal with H : _ && _ = true |- _ => apply andb_prop in H as [? ?] end. by apply ws_fault.
  - match goal with H : _ && _ = true |- _ => apply andb_prop in H as [? ?%negb_true_iff] end. eapply ws_sweep; [done|done|by apply Z.leb_le|done].
  - by apply ws_reclaim.
Qed.
Abbreviation reachable := (reachable ids kinds next_minute prev_minute (λ ms, ms) faults count_fn any_call).
Fixpoint drive (l : list act) (w : W) : option W := match l with [] => Some w | a :: l => act_step a w ≫= drive l end.
Lemma drive_sound l w w' : drive l w = Some w' → rtc wstep w w'.
Proof.
  revert w. induction l as [|a l IH]; cbn; intros w H; [injection H as ->; done|]. destruct (act_step a w) as [w1|] eqn:E; [|discriminate H].
  eapply rtc_l; [by eapply act_sound|by apply IH].
Qed.
End Drive.
Abbreviation reached faults := (SchedulerSystem.reachable ids kinds next_minute prev_minute (λ ms, ms) faults count_fn any_call).
Abbreviation no_crons := (@nil CronRegistryEntry).
(** A pass over a batch of one job whose function is a mutation *)
Definition pass (p : nat) (run : list act) : list act := [APeek p; AClaim p] ++ run ++ [AComplete p; AEnd p].
Definition enqueue_op (fn : string) (onComplete : option jsstr) (at_ : Z) : fop :=
  FEnqueue (js fn) (AValue JNull) {| eo_runAfter := None; eo_runAt := Some at_; eo_maxFailures := None; eo_name := None; eo_onComplete := onComplete;
    eo_context := Some (AWorkflow (js "w")); eo_idempotencyKey := None |}.
Definition world0 : World (E := nat) := init_world 0%nat.
Definition world_of (faults : bool) (l : list act) : World (E := nat) := default world0 (drive faults l world0).


(** ** A process dies after the mutation of a job committed and before the job is completed *)
Definition crash_run : list act :=
  [AApp [enqueue_op "charge" (Some (js "done")) 0]; ABoot 0 no_crons; APeek 0; AClaim 0; AMutation 0; ACrash 0; ATick 40000; ABoot 1 no_crons;
   APeek 1; AEnd 1; ASettle 1; ATick 70000; ASweep 1; AReclaim 1; ANotified 1; APeek 1; AClaim 1; AMutation 1; AComplete 1].
Abbreviation crash_world := (world_of false crash_run).
Lemma crash_reachable : reached false 0%nat crash_world.
Proof. apply (drive_sound false crash_run). by vm_compute. Qed.
Abbreviation charged := (default (callback_job 0 []) (s_jobs (w_db crash_world) !! ids 0)).
Lemma charged_lookup : s_jobs (w_db crash_world) !! ids 0 = Some charged.
Proof. by vm_compute. Qed.
Lemma starts_bounded_witness : reached false 0%nat crash_world ∧ s_jobs (w_db crash_world) !! ids 0 = Some charged ∧
  starts_of (ids 0) (w_starts crash_world) = 2 ∧ job_maxFailures charged = 4 ∧
  (starts_of (ids 0) (w_starts crash_world) ≤ Z.max 1 (job_maxFailures charged) ∧
   (job_kind charged = KAction → starts_of (ids 0) (w_starts crash_world) ≤ failures_of (ids 0) (w_completes crash_world) + 1)).
Proof.
  pose proof crash_reachable as Hr. pose proof charged_lookup as Hl. split; [exact Hr|]. split; [exact Hl|].
  split; [vm_compute; reflexivity|]. split; [vm_compute; reflexivity|].
  exact (starts_bounded ids kinds next_minute prev_minute (λ ms, ms) false count_fn any_call 0%nat _ _ _ Hr Hl).
Defined.
Lemma outcome_reported_once_witness : reached false 0%nat crash_world ∧ s_jobs (w_db crash_world) !! ids 0 = Some charged ∧ terminal charged = true ∧
  ((terminal charged = true → rtc (SchedulerSystem.wstep ids kinds next_minute prev_minute (λ ms, ms) false count_fn any_call) crash_world crash_world →
      s_jobs (w_db crash_world) !! ids 0 = Some charged) ∧
   truthful (w_completes crash_world) (ids 0) charged ∧ reported (w_db crash_world) (w_completes crash_world) (ids 0) charged).
Proof.
  pose proof crash_reachable as Hr. pose proof charged_lookup as Hl. split; [exact Hr|]. split; [exact Hl|]. split; [vm_compute; reflexivity|].
  exact (outcome_reported_once ids kinds next_minute prev_minute (λ ms, ms) false count_fn any_call 0%nat _ crash_world _ _ Hr Hl).
Defined.
(** The mutation of one job has committed twice: its commit and the job's completion are separate transactions *)
Theorem mutation_commits_twice : reached false 0%nat crash_world ∧ job_state charged = JSuccess ∧ w_effects crash_world = [ids 0; ids 0] ∧ w_rest crash_world = 2%nat.
Proof. split; [exact crash_reachable|]. by vm_compute. Qed.

(** ** An action that takes longer than its lease, in a process that lives: the sweep reports it failed, its success is dropped *)
Definition slow_run : list act :=
  [AApp [enqueue_op "sendMail" (Some (js "done")) 0]; ABoot 0 no_crons; APeek 0; AClaim 0; ATick 31000; ASweep 0; AReclaim 0; AAction 0 (JStr (js "sent"));
   AComplete 0].
Abbreviation slow_world := (world_of false slow_run).
Theorem slow_action_reported_failed : reached false 0%nat slow_world ∧ w_completes slow_world = [(ids 0, RSuccess (JStr (js "sent")))] ∧
  job_state <$> s_jobs (w_db slow_world) !! ids 0 = Some JFailed ∧
  ar_args <$> callbacks (ids 0) (w_db slow_world) = [ACompletion (ids 0) (Some (AWorkflow (js "w"))) (OFailed lease_expired)].
Proof. split; [apply (drive_sound false slow_run); by vm_compute|]. by vm_compute. Qed.

(** ** A failed call of the driver: the pass ends without arming the timer, and a pending job is left with nothing to wake the driver for it *)
Definition stranded_run : list act := [AApp [enqueue_op "charge" None 1000]; ABoot 0 no_crons; AFault 0; ASettle 0; ATick 5000].
Abbreviation stranded_world := (world_of true stranded_run).
Theorem failed_peek_strands_jobs : reached true 0%nat stranded_world ∧
  (λ j, (job_state j, job_nextTs j)) <$> s_jobs (w_db stranded_world) !! ids 0 = Some (JPending, 1000) ∧
  (λ x, (dr_phase x, dr_timer x, dr_notified x, dr_pendingWake x)) <$> w_procs stranded_world !! 0%nat = Some (Idle, None, false, false).
Proof. split; [apply (drive_sound true stranded_run); by vm_compute|]. by vm_compute. Qed.

(** ** A policy edit is lost when the boot that reads it also restarts the cadence *)
Definition nightly (p : CatchUpPolicy) : CronRegistryEntry :=
  {| ce_name := js "nightly"; ce_spec := SCron (js "* * * * *"); ce_tz := UTC; ce_catchUp := p; ce_workFnPath := js "charge"; ce_workArgs := JNull |}.
Definition edit_run : list act :=
  [ABoot 0 [nightly Skip]; APeek 0; AEnd 0; ASettle 0; ATick 60000; ATimer 0; APeek 0; AClaim 0; AThrow 0 (js "boom") false; AComplete 0; ACrash 0; ABoot 1 [nightly FireAll]].
Abbreviation edit_world := (world_of false edit_run).
Theorem catchUp_edit_lost : reached false 0%nat edit_world ∧ cr_catchUp <$> s_crons (w_db edit_world) = [Skip].
Proof. split; [apply (drive_sound false edit_run); by vm_compute|]. by vm_compute. Qed.

(** ** The driver at rest, a job due. A first pass failed; the commit of another job woke the driver for a second one *)
Definition rest_run : list act :=
  [AApp [enqueue_op "charge" None 1000]; ABoot 0 no_crons; AFault 0; ASettle 0; AApp [enqueue_op "charge" None 1500]; ANotified 0; APeek 0; AEnd 0; ASettle 0;
   ATick 2000].
Abbreviation rest_world := (world_of true rest_run).
Abbreviation rest_driver := (default (start (λ ms, ms) 0) (w_procs rest_world !! 0%nat)).
Lemma rest_driver_lookup : w_procs rest_world !! 0%nat = Some rest_driver.
Proof. by vm_compute. Qed.
Lemma driver_no_lost_wakeup_witness : reached true 0%nat rest_world ∧ dr_timer rest_driver = Some 1000 ∧ w_now rest_world = 2000 ∧
  covered (w_db rest_world) (dr_timer rest_driver) ∧ (dr_sweeping rest_driver = true ∨ is_Some (dr_sweepTimer rest_driver)) ∧
  leads (pass_step ids kinds next_minute prev_minute (λ ms, ms) count_fn any_call 0) (λ w', ∃ started, w_starts w' = w_starts rest_world ++ [started]) rest_world.
Proof.
  assert (Hr : reached true 0%nat rest_world) by (apply (drive_sound true rest_run); vm_compute; reflexivity).
  split; [exact Hr|]. split; [vm_compute; reflexivity|]. split; [vm_compute; reflexivity|].
  destruct (driver_no_lost_wakeup ids kinds next_minute prev_minute (λ ms, ms) count_fn any_call true 0%nat _ 0%nat rest_driver Hr rest_driver_lookup)
    as (Hc & Hs & Hl); [vm_compute; reflexivity..|].
  split; [exact Hc|]. split; [exact Hs|]. apply (Hl (ids 0) (default (callback_job 0 []) (s_jobs (w_db rest_world) !! ids 0))); vm_compute; [reflexivity..|discriminate].
Defined.

(** ** Three minutes of backlog *)
Definition full_minute (expr tz : jsstr) (t : Z) : Prop := t mod 60000 = 0.
Lemma minutes_ok : parser_ok next_minute prev_minute full_minute.
Proof.
  split; intros expr tz t n [= <-]; unfold full_minute.
  - pose proof (Z.div_mod t 60000 ltac:(lia)). pose proof (Z.mod_pos_bound t 60000 ltac:(lia)). split; [lia|]. split; [apply Z.mod_mul; lia|].
    intros u Hu [k ->]%Z.mod_divide; lia.
  - pose proof (Z.div_mod (t - 1) 60000 ltac:(lia)). pose proof (Z.mod_pos_bound (t - 1) 60000 ltac:(lia)). split; [lia|]. split; [apply Z.mod_mul; lia|].
    intros u Hu [k ->]%Z.mod_divide; lia.
Qed.
Lemma cron_fires_schedule_witness :
  due_occurrences next_minute prev_minute (SCron (js "* * * * *")) UTC FireAll 0 200000 = Ok ([60000; 120000; 180000], 240000, 180000) ∧
  next_occurrence full_minute (SCron (js "* * * * *")) UTC 0 200000 240000 ∧ last_occurrence full_minute (SCron (js "* * * * *")) UTC 0 200000 180000 ∧
  fires full_minute (SCron (js "* * * * *")) UTC FireAll 0 200000 180000 [60000; 120000; 180000].
Proof.
  assert (H : due_occurrences next_minute prev_minute (SCron (js "* * * * *")) UTC FireAll 0 200000 = Ok ([60000; 120000; 180000], 240000, 180000))
    by (vm_compute; reflexivity).
  split; [exact H|].
  apply (cron_fires_schedule next_minute prev_minute full_minute (SCron (js "* * * * *")) UTC FireAll 0 200000); [exact minutes_ok|lia|discriminate|exact H].
Defined.
